(* ===== verification/_CoqProject ===== *)
-Q . S2P
Prelude.v
Committee.v
StakeAggregator.v
Block.v
ThresholdClock.v
Commit.v
LeaderScoring.v
Store.v
DagState.v
DagStateProofs.v
DagTraversal.v
LeaderSchedule.v
BaseCommitter.v
CommitRule.v
BlockVerifier.v
TransactionConsumer.v
DagViews.v
BlockManager.v
BlockManagerProofs.v
BlockManagerSafety.v
ManagedNode.v
Linearizer.v
CommitObserver.v
LinearizerProofs.v
CommitSafety.v
UniversalCommitter.v
QuorumRounds.v
Ancestor.v
TransactionCertifier.v
CertifierProofs.v
CommitFinalizer.v
FinalizerRule.v
FinalizerLinks.v
FinalizerVotes.v
FinalizerStates.v
FinalizerStreams.v
FinalizerProofs.v
FinalizerNode.v
FinalizerExamples.v
Core.v
CoreThread.v
AuthorityService.v
AuthorityNode.v
CommitSyncer.v
Synchronizer.v
NodeTasks.v
SyncLocks.v
SyncSchedule.v
CoreState.v
Ledger.v
CoreProposal.v
CoreProposer.v
CoreCommit.v
CoreNode.v
CoreRun.v
NodeStart.v
ServiceProofs.v
TaskMachine.v
LeaderTimer.v
NodeSafety.v
TaskSafety.v
SyncSafety.v
ServiceReads.v
OwnRecovery.v
NodeExamples.v
TaskExamples.v
