(* ===== verification/Prelude.v ===== *)
(** * Verification of the Mysticeti consensus core (consensus/)

    The repository is a validator of a proof-of-stake ledger; this development
    covers its consensus engine, the crates under [src/consensus]. Authorities
    exchange signed blocks; each block of a round includes a quorum of blocks of
    the round before, and so the blocks form a DAG. A commit rule picks leader
    blocks out of the DAG, the linearizer turns each leader into a sub-dag of
    committed blocks, and the finalizer decides which transactions of a
    committed block are executed.

    ** Parts and files

    Shared definitions
    - [Prelude]: results of Rust code ([run]: a value, a panic, or fuel
      exhausted), loops, wrapping machine integers, sorted traversals of maps
      and sets, and the lemmas and tactics the other files share.
    - [Committee] (consensus/config/src/committee.rs): stakes and thresholds;
      two quorums share an honest authority.
    - [StakeAggregator] (stake_aggregator.rs), [ThresholdClock]
      (threshold_clock.rs), [Block] (block.rs, context.rs, consensus/types),
      [Commit] (commit.rs, error.rs).

    The DAG of a node
    - [Store] (storage/mod.rs, storage/rocksdb_store.rs): the [Store] trait as a
      class with its laws, and the RocksDB implementation that satisfies it.
    - [DagState], [DagStateProofs], [DagTraversal] (dag_state.rs): the cache of
      recent blocks over the store. The cache and the store together behave as
      one map of blocks through acceptance, flushing and eviction.
    - [BlockVerifier] (block_verifier.rs): the exact set of accepted blocks.
    - [BlockManager], [BlockManagerProofs], [BlockManagerSafety], [ManagedNode]
      (block_manager.rs): suspension of blocks with missing ancestors. A node
      that receives blocks in any order refines one that accepts them in causal
      order.
    - [DagViews]: runs of the DAG state and the invariant of every reachable
      state.

    Ordering
    - [LeaderScoring] (leader_scoring.rs), [LeaderSchedule]
      (leader_schedule.rs): reputation scores and leader election.
    - [BaseCommitter] (base_committer.rs, universal_committer.rs), [CommitRule],
      [CommitSafety], [UniversalCommitter]: the commit rules, the predicates on
      the DAG they compute, and agreement between nodes with different views.
    - [Linearizer], [LinearizerProofs] (linearizer.rs): from leaders to
      sub-dags, and the median timestamp.

    Transactions
    - [TransactionCertifier], [CertifierProofs] (transaction_certifier.rs):
      accept and reject votes, and certified blocks.
    - [CommitFinalizer] (commit_finalizer.rs) with [FinalizerRule] (when a
      transaction counts as decided, on the DAG and the commits only),
      [FinalizerLinks], [FinalizerVotes], [FinalizerStates],
      [FinalizerStreams], [FinalizerProofs] (the code computes that rule),
      [FinalizerNode] (certifier and finalizer of a node, agreement between
      nodes) and [FinalizerExamples] (a run of two nodes).

    Proposing and committing
    - [TransactionConsumer] (transaction.rs): the queue of submitted
      transactions, their inclusion in a block and the status told to clients.
    - [CommitObserver] (commit_observer.rs): handing commits to the finalizer,
      and resending them after a restart.
    - [Core] (core.rs): the state machine that composes the parts: accepting
      blocks and certified commits, the commit loop with its schedule updates,
      the choice of ancestors and the proposal of blocks.
    - [CoreState], [CoreProposal], [CoreProposer], [CoreCommit], [CoreNode]:
      the invariant of core and that its operations keep it.
    - [Ledger]: the sequence of commits as a function of the blocks alone: steps
      that update the schedule, skip a leader or commit one, on evidence that
      some view decides it. The steps are deterministic, and core only makes
      these steps.

    A node
    - [CoreThread] (core_thread.rs): the task that owns core, as steps of its
      loop, and the dispatcher of commands to it. [CoreRun]: its runs.
    - [AuthorityService] (authority_service.rs, network/mod.rs): the handlers of
      the requests of peers. [ServiceProofs], [ServiceReads]: what they answer.
    - [AuthorityNode] (authority_node.rs, commit_consumer.rs,
      proposed_block_handler.rs): the start of a node. [NodeStart]: it succeeds
      on an empty store.
    - [NodeSafety]: all states that a node reaches from its start on, and
      agreement between nodes. [NodeExamples]: runs of nodes.
    - [CommitSyncer] (commit_syncer.rs): fetching ranges of commits that other
      authorities committed. [SyncSchedule]: its schedule, and what its checks
      say of an answer by themselves. [SyncSafety]: what passes the checks was
      committed by honest authorities.

    Its tasks
    - [Synchronizer] (synchronizer.rs): fetching missing blocks, from the sender
      of a block or periodically, the map of blocks in flight, and asking for
      the own last block. [SyncLocks]: the locks of that map are the guards that
      the tasks hold.
    - [NodeTasks] (leader_timeout.rs, round_prober.rs, subscriber.rs,
      authority_service.rs): the timers of a round, probing peers for their
      rounds, streams of blocks, and handlers that wait for the core.
    - [TaskMachine] (authority_node.rs): the node with all of its tasks as one
      machine. [TaskSafety]: it refines the node of [NodeSafety].
    - [LeaderTimer]: when the leader timeout asks for a block. [OwnRecovery]:
      what an authority that lost its store learns. [TaskExamples]: runs.

    Health of peers
    - [QuorumRounds] (round_tracker.rs, commit_vote_monitor.rs) and [Ancestor]
      (ancestor.rs): rounds reached by a quorum, propagation delay, and the
      exclusion of badly connected authorities.

    ** How the code is translated

    A struct is a [Record] with a prefix for its fields, an enum an [Inductive]
    with the constructors of the source, a method a function from the state and
    its arguments to the new state and its result. Panics, failed assertions,
    [expect] and indices out of range are [Panic]; [ConsensusResult] is a sum.
    Unsigned integers are [N] with the wrapping operations [u32_add] and the
    like; authority indices are [nat]. [BTreeMap] and [BTreeSet] are [gmap] and
    [gset] with the sorted traversals [map_list] and [set_list]. Metrics and
    logging are left out, except for the committee lookups they make, which can
    panic. A clock reading is an argument.

    Code outside the repository appears as a class with the laws it documents:
    serialization, digests and signatures ([BlockCodec], [CommitCodec], [Crypto]
    in [Block] and [BlockVerifier]), the signing key ([BlockSigner]), the random
    generator ([Rng], [SliceRandom]), and the transaction verifier of the
    embedding system. The witnesses instantiate each with a concrete function.

    An asynchronous task is a step relation: a handler is cut where it waits,
    the state shared between tasks is one record, and the steps of all tasks
    come in any order ([service_enabled], [run_service]). For the tasks, what
    may happen is only what the network, the timers and the answers of the core
    allow ([task_enabled], [run_task]).

    ** What is assumed

    The theorems about several nodes speak of a universe of verified blocks,
    [universe_ok] in [CommitRule]: blocks are found under their reference, are
    well formed (proved of every verified block in [BlockVerifier]), an
    authority outside [byz] signs one block per round, and [byz] holds less than
    the validity threshold. Nothing else is assumed of Byzantine blocks, except
    that [FinalizerNode] assumes of the votes on transactions what block
    verification does not check: they refer to blocks the voting block links
    ([votes_linked]). Of honest authorities it assumes that they vote on a block
    in their first block that links it ([votes_first]). The
    agreement of finalizers covers blocks at most two rounds less than the GC
    depth below their leader ([votes_kept]): below it garbage collection can cut
    the chain of own blocks by which a rejection is inherited.

    The theorems about a whole node ([setting] in [NodeSafety]) assume in
    addition that blocks that pass verification are those of the universe
    ([delivers]), that own blocks are new in it ([announces]), that rounds stay
    below their bound, and that serialization and signing of own data work. They
    start on an empty store, and that core adds certified commits of the commit
    syncer is not among the steps. The theorem on these commits ([network] in
    [SyncSafety]) assumes that the blocks of honest authorities were broadcast
    by nodes that run this code; a collision of hashes is a case of its
    conclusion. The theorems on the tasks assume [sync_config] in [TaskSafety]:
    a positive limit of blocks per request, and in committees of two or three
    authorities the newer version of the periodic fetch; without it the older
    version panics ([old_fetch_runs_out]).

    ** Groups of theorems

    - Whole nodes: [nodes_agree], [node_never_panics], [node_commits_once],
      [node_never_equivocates].
    - Tasks: [tasks_refine], [tasks_never_panic], [blocks_in_flight],
      [own_round_recovered], [leader_timeout_once].
    - Agreement: [try_decide_agreement], [certified_outputs_agree],
      [finalizer_agreement].
    - Commits of others: [fetched_commits_agree], [synced_without_gaps].
    - Requests of peers: [sent_block_taken], [fetch_blocks_answered].
    - Exactness of decisions: [try_direct_decide_exact], [try_decide_consecutive],
      [verify_and_vote_exact], [certified_outputs_sound],
      [linearize_sub_dag_correct], [handle_commit_correct].
    - Invariants and refinement of a node's state: [reachable_dag_safe],
      [managed_node_refines], [flush_preserves_blocks].
    - Progress: [suspended_waits_for_missing], [gc_releases_suspended],
      [finalizer_in_order], [block_status_told_once].
    - Transactions of clients: [submissions_included_once].
    - Bounds: [median_timestamp_honest], [compute_quorum_round_bft].
    - Behaviour that differs from its documentation:
      [excluded_ancestors_panic], [swap_panics_without_good_nodes],
      [RocksDB_scan_last_blocks_truncated].

    ** Fuel

    Loops that do not follow the structure of their data take fuel, and the
    theorems show that the fuel given is enough: the number of known blocks for
    the traversals of the DAG, the number of cached blocks for the linearizer,
    the number of buffered blocks or commits for the finalizer, and the number
    of missing ancestors for the block manager.

    ** Not modelled

    The network layer: an answer of a peer, or its absence, is an argument of a
    step. The broadcaster, which is used only when the network does not stream
    blocks: it sends blocks with timeouts computed in floating point and changes
    no state of consensus. The factor of the delay between two subscriptions, a
    float, is a parameter. Restarts on a store that is not empty, and core
    adding certified commits, are modelled ([Core_recover], [add_certified_commits])
    but not among the steps of the theorems about a whole node. The rest of the
    validator (execution, Move, storage of objects, RPC, indexers, bridge) only
    consumes the output of consensus. *)

From stdpp Require Export prelude gmap sorting strings.
From Stdlib Require Export Lia.

#[global] Open Scope N_scope.
#[global] Unset Printing Records.

(** ** Running Rust code: results, panics and fuel

    A Rust function that can panic ([panic!], [assert!], [expect], an index
    out of range) returns [Panic]; a loop or recursion translated with fuel
    returns [NoFuel] when the fuel runs out, which is never confused with a
    panic. *)
Inductive run (A : Type) : Type :=
| Done (a : A)
| Panic
| NoFuel.

Arguments Done {_} _.
Arguments Panic {_}.
Arguments NoFuel {_}.

#[global] Instance run_ret : MRet run := λ A a, Done a.
#[global] Instance run_bind : MBind run := λ A B f m,
  match m with Done a => f a | Panic => Panic | NoFuel => NoFuel end.

#[global] Instance run_eq_dec {A} `{EqDecision A} : EqDecision (run A).
Proof. solve_decision. Defined.

Declare Scope rust_scope.
Delimit Scope rust_scope with rust.
Notation "'assert!' b ; k" := (if b then k else Panic)
  (at level 20, b at level 10, k at level 200, right associativity,
   format "'[v' 'assert!'  b ;  '/' k ']'") : rust_scope.
#[global] Open Scope rust_scope.

(** [Option::expect] and [Option::unwrap]. *)
Definition expect {A} (o : option A) : run A :=
  match o with Some a => Done a | None => Panic end.

(** [Vec] indexing, [v[i]] and [v[i] = x]: a panic out of range. *)
Definition vec_get {A} (l : list A) (i : nat) : run A := expect (l !! i).
Definition vec_set {A} (l : list A) (i : nat) (x : A) : run (list A) :=
  if decide (i < length l)%nat then Done (<[i:=x]> l) else Panic.

(** A [for] loop whose body threads a state. *)
Fixpoint for_each {S A} (f : S → A → run S) (s : S) (l : list A) : run S :=
  match l with
  | [] => Done s
  | x :: l => s' ← f s x; for_each f s' l
  end.

(** [iter().map(f).collect()] for a closure that can panic. *)
Fixpoint map_run {A B} (f : A → run B) (l : list A) : run (list B) :=
  match l with
  | [] => Done []
  | x :: l => y ← f x; ys ← map_run f l; Done (y :: ys)
  end.

(** [iter().filter(f).collect()] for a predicate that can panic. *)
Fixpoint filter_run {A} (f : A → run bool) (l : list A) : run (list A) :=
  match l with
  | [] => Done []
  | x :: l =>
      b ← f x; ys ← filter_run f l;
      Done (if (b : bool) then x :: ys else ys)
  end.

(** The leading elements that satisfy a condition, up to the first that does
    not. *)
Fixpoint take_while {A} (f : A → bool) (l : list A) : list A :=
  match l with
  | [] => []
  | x :: l => if f x then x :: take_while f l else []
  end.

Lemma bind_Done {A B} (f : A → run B) m b :
  m ≫= f = Done b ↔ ∃ a, m = Done a ∧ f a = Done b.
Proof. destruct m; simpl; split; [by eauto| |done| |done|]; by intros (? & [=] & ?); subst. Qed.

Section run_lemmas.
Context {A B : Type}.

Lemma expect_Done (o : option A) a : expect o = Done a ↔ o = Some a.
Proof. destruct o; naive_solver. Qed.

Lemma vec_get_Done (l : list A) i a : vec_get l i = Done a ↔ l !! i = Some a.
Proof. apply expect_Done. Qed.

Lemma vec_set_Done (l : list A) i x l' :
  vec_set l i x = Done l' ↔ (i < length l)%nat ∧ l' = <[i:=x]> l.
Proof. unfold vec_set. case_decide; split; [by intros [= <-]|by intros [_ ->]|done|by intros []]. Qed.

Lemma map_run_Done (f : A → run B) l ys :
  map_run f l = Done ys ↔ Forall2 (λ x y, f x = Done y) l ys.
Proof.
  revert ys; induction l as [|x l IH]; intros ys; simpl.
  - split; [intros [= <-]; constructor | by inversion 1].
  - rewrite bind_Done. setoid_rewrite bind_Done. split.
    + intros (y & ? & ys' & ?%IH & [= <-]). by constructor.
    + inversion 1; subst. eexists; split; [done|]. eexists.
      by rewrite IH.
Qed.

Lemma for_each_cons {S} (f : S → A → run S) s x l :
  for_each f s (x :: l) = (s' ← f s x; for_each f s' l).
Proof. done. Qed.

Lemma for_each_app {S} (f : S → A → run S) s l1 l2 :
  for_each f s (l1 ++ l2) = s' ← for_each f s l1; for_each f s' l2.
Proof.
  revert s; induction l1 as [|x l1 IH]; intros s; [done|]; simpl.
  destruct (f s x); simpl; auto.
Qed.

(** A loop whose body always returns, under an invariant, returns. *)
Lemma for_each_total {S} (P : S → Prop) (f : S → A → run S) s l :
  P s → (∀ s x, x ∈ l → P s → ∃ s', f s x = Done s' ∧ P s') →
  ∃ s', for_each f s l = Done s' ∧ P s'.
Proof.
  revert s. induction l as [|x l IH]; intros s Hs Hf; simpl; [by eauto|].
  destruct (Hf s x) as (s1 & -> & Hs1); [by left|done|]. simpl.
  apply IH; [done|]. intros s2 y Hy. apply Hf. by right.
Qed.

Lemma for_each_ext {S} (f g : S → A → run S) s l :
  (∀ s x, f s x = g s x) → for_each f s l = for_each g s l.
Proof.
  intros Hfg. revert s. induction l as [|x l IH]; intros s; simpl; [done|].
  rewrite Hfg. destruct (g s x); simpl; auto.
Qed.

(** An invariant of the body is an invariant of the loop; the relation
    [P] sees the elements already visited. *)
Lemma for_each_ind {S} (P : list A → S → Prop) (f : S → A → run S) s l s' :
  P [] s →
  (∀ done x rest s1 s2, l = done ++ x :: rest → P done s1 →
     f s1 x = Done s2 → P (done ++ [x]) s2) →
  for_each f s l = Done s' → P l s'.
Proof.
  intros H0 Hstep.
  enough (∀ rest done s1, l = done ++ rest → P done s1 →
            for_each f s1 rest = Done s' → P l s') as H by exact (H l [] s eq_refl H0).
  induction rest as [|x rest IH]; intros done s1 -> Hs1; simpl.
  - rewrite app_nil_r. by intros [= <-].
  - intros (s2 & Hf & Hr)%bind_Done.
    eapply (IH (done ++ [x])); [by rewrite <-app_assoc| |done].
    by eapply Hstep.
Qed.

(** Both at once: a loop that returns, with an invariant that sees the
    elements already visited. *)
Lemma for_each_run {S} (P : list A → S → Prop) (f : S → A → run S) s l :
  P [] s →
  (∀ done x rest s, l = done ++ x :: rest → P done s → ∃ s', f s x = Done s' ∧ P (done ++ [x]) s') →
  ∃ s', for_each f s l = Done s' ∧ P l s'.
Proof.
  intros H0 Hstep.
  enough (∀ rest done s1, l = done ++ rest → P done s1 → ∃ s', for_each f s1 rest = Done s' ∧ P l s') as H
    by exact (H l [] s eq_refl H0).
  induction rest as [|x rest IH]; intros done s1 -> Hs1; simpl.
  - exists s1. by rewrite app_nil_r.
  - destruct (Hstep done x rest s1 eq_refl Hs1) as (s2 & -> & Hs2). simpl.
    apply (IH (done ++ [x])); [by rewrite <-app_assoc|done].
Qed.
End run_lemmas.

Lemma elem_of_middle {A} (l l1 l2 : list A) x : l = l1 ++ x :: l2 → x ∈ l.
Proof. intros ->. apply elem_of_app. right. left. Qed.

Lemma filter_run_pure {A} (f : A → run bool) (p : A → bool) l :
  (∀ x, x ∈ l → f x = Done (p x)) → filter_run f l = Done (filter p l).
Proof.
  induction l as [|x l IH]; intros Hf; simpl; [done|].
  rewrite (Hf x) by (by left). simpl. rewrite IH by (intros; apply Hf; by right). simpl.
  rewrite filter_cons. destruct (p x); [by rewrite decide_True|by rewrite decide_False by auto].
Qed.

Lemma map_run_total {A B} (f : A → run B) l : (∀ x, x ∈ l → ∃ y, f x = Done y) → ∃ ys, map_run f l = Done ys.
Proof.
  induction l as [|x l IH]; intros Hf; [by exists []|]. destruct (Hf x) as [y Hy]; [by left|].
  destruct IH as [ys Hys]; [intros z Hz; apply Hf; by right|]. exists (y :: ys). simpl. by rewrite Hy, Hys.
Qed.

Lemma map_run_expect_Some {A} (l : list A) : map_run expect (Some <$> l) = Done l.
Proof. induction l as [|x l IH]; [done|]. csimpl. by rewrite IH. Qed.

Lemma filter_run_total {A} (f : A → run bool) l :
  (∀ x, x ∈ l → ∃ b, f x = Done b) → ∃ ys, filter_run f l = Done ys.
Proof.
  induction l as [|x l IH]; intros Hf; simpl; [eauto|].
  destruct (Hf x) as [b ->]; [by left|].
  destruct IH as [ys Hys]; [intros; apply Hf; by right|]. simpl. rewrite Hys. simpl. eauto.
Qed.

Lemma filter_run_Done {A} (f : A → run bool) l ys :
  filter_run f l = Done ys →
  ys `sublist_of` l ∧
  ∀ x, x ∈ ys ↔ x ∈ l ∧ f x = Done true.
Proof.
  revert ys; induction l as [|x l IH]; intros ys; simpl.
  - intros [= <-]. split; [constructor|]. set_solver.
  - intros (b & Hb & (ys' & [Hsub Hin]%IH & [= <-])%bind_Done)%bind_Done.
    split; [destruct b; by constructor|]. intros y. destruct b.
    + rewrite !elem_of_cons, Hin. split; [intros [->|[]]; auto|intros [[->|] ?]; auto].
    + rewrite elem_of_cons, Hin. split; [intros []; auto|].
      intros [[->|] ?]; [congruence|auto].
Qed.

(** Destructs every hypothesis that says a monadic computation returned. *)
Ltac run_inv :=
  repeat (simplify_eq/=; match goal with
  | H : mbind _ _ = Done _ |- _ =>
      let Hx := fresh "Hrun" in
      apply bind_Done in H as (? & Hx & H)
  | H : run_bind _ _ _ _ = Done _ |- _ =>
      let Hx := fresh "Hrun" in
      apply bind_Done in H as (? & Hx & H)
  | H : expect _ = Done _ |- _ => apply expect_Done in H
  | H : vec_get _ _ = Done _ |- _ => apply vec_get_Done in H
  | H : vec_set _ _ _ = Done _ |- _ => apply vec_set_Done in H as [? ->]
  end); simplify_eq/=.

(** ** Machine integers

    Unsigned integers are [N]; the release profile has no overflow checks,
    so additions and multiplications wrap at the width. [N] subtraction
    truncates at zero, which is [saturating_sub]. *)
Definition u32_max : N := 4294967295.
Definition u64_max : N := 18446744073709551615.
Definition u32_add (a b : N) : N := (a + b) mod 4294967296.
Definition u64_add (a b : N) : N := (a + b) mod 18446744073709551616.
Definition u32_mul (a b : N) : N := (a * b) mod 4294967296.
Definition u64_mul (a b : N) : N := (a * b) mod 18446744073709551616.
(** [a - b] with wrap-around. *)
Definition u32_sub (a b : N) : N := (a + 4294967296 - b) mod 4294967296.
Definition u64_sub (a b : N) : N := (a + 18446744073709551616 - b) mod 18446744073709551616.
Definition u32_saturating_add (a b : N) : N := (a + b) `min` u32_max.
Definition saturating_sub (a b : N) : N := a - b.
(** [checked_sub]. *)
Definition checked_sub (a b : N) : option N :=
  if decide (b ≤ a) then Some (a - b) else None.
(** [iter().sum()] on [u64]. *)
Definition u64_sum (l : list N) : N := foldl u64_add 0 l.

#[global] Arguments u32_add : simpl never.
#[global] Arguments u64_add : simpl never.
#[global] Arguments u32_mul : simpl never.
#[global] Arguments u64_mul : simpl never.
#[global] Arguments u32_sub : simpl never.
#[global] Arguments u64_sub : simpl never.
#[global] Arguments u64_sum : simpl never.

(** The mathematical sum. *)
Definition sumN (l : list N) : N := foldr N.add 0 l.

Create HintDb rust.

(** [lia] with quotients as opaque natural numbers. *)
Ltac div_lia :=
  repeat match goal with
  | |- context [N.div ?a ?b] => let x := fresh "q" in set (x := N.div a b) in *; clearbody x
  | _ : context [N.div ?a ?b] |- _ =>
      let x := fresh "q" in set (x := N.div a b) in *; clearbody x
  end; lia.

Section machine_integers.
Lemma u32_add_small a b : a + b ≤ u32_max → u32_add a b = a + b.
Proof. unfold u32_add, u32_max. intros. apply N.mod_small. lia. Qed.
Lemma u64_add_small a b : a + b ≤ u64_max → u64_add a b = a + b.
Proof. unfold u64_add, u64_max. intros. apply N.mod_small. lia. Qed.
Lemma u32_mul_small a b : a * b ≤ u32_max → u32_mul a b = a * b.
Proof. unfold u32_mul, u32_max. intros. apply N.mod_small. lia. Qed.
Lemma u64_mul_small a b : a * b ≤ u64_max → u64_mul a b = a * b.
Proof. unfold u64_mul, u64_max. intros. apply N.mod_small. lia. Qed.
Lemma u32_sub_small a b : b ≤ a → a ≤ u32_max → u32_sub a b = a - b.
Proof.
  unfold u32_sub, u32_max. intros.
  replace (a + 4294967296 - b) with ((a - b) + 1 * 4294967296) by lia.
  rewrite N.Div0.mod_add. apply N.mod_small. lia.
Qed.
Lemma u64_sub_small a b : b ≤ a → a ≤ u64_max → u64_sub a b = a - b.
Proof.
  unfold u64_sub, u64_max. intros. replace (a + 18446744073709551616 - b) with (a - b + 1 * 18446744073709551616) by lia.
  rewrite N.Div0.mod_add. apply N.mod_small. lia.
Qed.
Lemma u32_add_bound a b : u32_add a b ≤ u32_max.
Proof.
  unfold u32_add, u32_max.
  assert ((a + b) mod 4294967296 < 4294967296) by (by apply N.mod_lt). lia.
Qed.

Lemma sumN_app l1 l2 : sumN (l1 ++ l2) = sumN l1 + sumN l2.
Proof. induction l1; simpl; lia. Qed.

#[global] Instance sumN_Permutation : Proper ((≡ₚ) ==> (=)) sumN.
Proof. induction 1; simpl; lia. Qed.

Lemma sumN_elem_of x l : x ∈ l → x ≤ sumN l.
Proof. induction 1; simpl; lia. Qed.

Lemma sumN_submseteq l1 l2 : l1 ⊆+ l2 → sumN l1 ≤ sumN l2.
Proof. induction 1; simpl in *; lia. Qed.

(** Filtering. *)
Lemma Forall_filter {A} (P Q : A → Prop) `{!∀ x, Decision (P x)} (l : list A) :
  Forall Q l → Forall Q (filter P l).
Proof. rewrite !Forall_forall. intros HQ x [_ Hx]%list_elem_of_filter. by apply HQ. Qed.

Lemma filter_all {A} (P : A → Prop) `{!∀ x, Decision (P x)} (l : list A) :
  (∀ x, x ∈ l → P x) → filter P l = l.
Proof.
  induction l as [|x l IH]; intros HP; [done|].
  rewrite filter_cons_True by (apply HP; by left). f_equal. apply IH. intros y Hy. apply HP. by right.
Qed.

Lemma filter_none {A} (P : A → Prop) `{!∀ x, Decision (P x)} (l : list A) :
  (∀ x, x ∈ l → ¬ P x) → filter P l = [].
Proof.
  induction l as [|x l IH]; intros HP; [done|].
  rewrite filter_cons_False by (apply HP; by left). apply IH. intros y Hy. apply HP. by right.
Qed.

Lemma sumN_filter_le {A} (f : A → N) (P : A → Prop) `{!∀ x, Decision (P x)} (l : list A) :
  sumN (f <$> filter P l) ≤ sumN (f <$> l).
Proof.
  induction l as [|x l IH]; [done|]. rewrite filter_cons. case_decide; csimpl; lia.
Qed.

(** Only the elements with a non-zero weight count. *)
Lemma sumN_fmap_filter {A} (f : A → N) (P : A → Prop) `{!∀ x, Decision (P x)} l :
  (∀ x, ¬ P x → f x = 0) → sumN (f <$> l) = sumN (f <$> filter P l).
Proof.
  intros Hf. induction l as [|x l IH]; [done|]; csimpl. rewrite filter_cons.
  case_decide; csimpl; rewrite IH; [done|]. rewrite Hf by done. lia.
Qed.

Lemma u64_sum_acc l acc :
  acc + sumN l ≤ u64_max → foldl u64_add acc l = acc + sumN l.
Proof.
  revert acc; induction l as [|x l IH]; intros acc; simpl; [lia|].
  intros ?. rewrite u64_add_small by lia. rewrite IH; lia.
Qed.
Lemma u64_sum_small l : sumN l ≤ u64_max → u64_sum l = sumN l.
Proof. intros. unfold u64_sum. rewrite u64_sum_acc; lia. Qed.
End machine_integers.

(** ** Stable sorting

    [slice::sort_by] is a stable sort, and the result of a stable sort is
    determined by its specification: it is sorted, and elements that compare
    equal keep their order. Insertion sort is the executable model. *)
Fixpoint insert_by {A} (le : A → A → bool) (x : A) (l : list A) : list A :=
  match l with
  | [] => [x]
  | y :: l' => if le x y then x :: y :: l' else y :: insert_by le x l'
  end.

Definition sort_by {A} (le : A → A → bool) (l : list A) : list A :=
  foldr (insert_by le) [] l.

(** A comparison usable for sorting: a total preorder. *)
Class TotalPreorder {A} (le : A → A → bool) : Prop := {
  tp_total x y : le x y ∨ le y x;
  tp_trans x y z : le x y → le y z → le x z;
}.

(** Comparison of a key. *)
Definition by_key {A} (key : A → N) (x y : A) : bool := bool_decide (key x ≤ key y).

#[global] Instance by_key_total {A} (key : A → N) : TotalPreorder (by_key key).
Proof.
  unfold by_key. split.
  - intros x y. rewrite !bool_decide_spec. lia.
  - intros x y z. rewrite !bool_decide_spec. lia.
Qed.

(** Lexicographic comparison by two keys ([cmp].[then_with]). *)
Definition by_keys {A} (k1 k2 : A → N) (x y : A) : bool :=
  bool_decide (k1 x < k1 y ∨ (k1 x = k1 y ∧ k2 x ≤ k2 y)).

#[global] Instance by_keys_total {A} (k1 k2 : A → N) : TotalPreorder (by_keys k1 k2).
Proof.
  unfold by_keys. split.
  - intros x y. rewrite !bool_decide_spec. lia.
  - intros x y z. rewrite !bool_decide_spec. lia.
Qed.

Lemma StronglySorted_weaken {A} (R R' : A → A → Prop) l :
  (∀ x y, R x y → R' x y) → StronglySorted R l → StronglySorted R' l.
Proof.
  intros HR. induction 1 as [|x l _ IH Hx]; [constructor|]. constructor; [done|].
  eapply Forall_impl; [exact Hx|]. auto.
Qed.

Section sort_by.
Context {A : Type} (le : A → A → bool).

Lemma insert_by_Permutation x l : insert_by le x l ≡ₚ x :: l.
Proof.
  induction l as [|y l IH]; simpl; [done|].
  destruct (le x y); [done|]. rewrite IH. constructor.
Qed.

Lemma sort_by_Permutation l : sort_by le l ≡ₚ l.
Proof.
  induction l as [|x l IH]; [done|]; simpl.
  by rewrite insert_by_Permutation, IH.
Qed.

Lemma elem_of_sort_by x l : x ∈ sort_by le l ↔ x ∈ l.
Proof. by rewrite sort_by_Permutation. Qed.

Lemma length_sort_by l : length (sort_by le l) = length l.
Proof. by rewrite sort_by_Permutation. Qed.

Lemma insert_by_sorted `{!TotalPreorder le} x l :
  StronglySorted le l → StronglySorted le (insert_by le x l).
Proof.
  induction 1 as [|y l Hl IH Hy]; simpl; [by repeat constructor|].
  destruct (le x y) eqn:Hxy.
  - constructor; [by constructor|]. constructor; [by rewrite Hxy|].
    eapply Forall_impl; [exact Hy|]. intros z Hz. simpl in *.
    eapply tp_trans; [|exact Hz]. by rewrite Hxy.
  - constructor; [done|]. rewrite insert_by_Permutation. constructor; [|done].
    destruct (tp_total x y) as [H|H]; [by rewrite Hxy in H|done].
Qed.

Lemma sort_by_sorted `{!TotalPreorder le} l : StronglySorted le (sort_by le l).
Proof. induction l; simpl; [constructor|]. by apply insert_by_sorted. Qed.

(** Stability: an equivalence class of the comparison keeps its order. *)
Definition eqv_by (a y : A) : bool := le a y && le y a.

Lemma insert_by_filter `{!TotalPreorder le} x l a :
  StronglySorted le l →
  filter (eqv_by a) (insert_by le x l) = filter (eqv_by a) (x :: l).
Proof.
  induction 1 as [|y l Hl IH Hy]; simpl; [done|].
  destruct (le x y) eqn:Hxy; [done|].
  rewrite !filter_cons, IH, filter_cons.
  destruct (decide (eqv_by a y)) as [Hay|]; [|done].
  destruct (decide (eqv_by a x)) as [Hax|]; [|done].
  exfalso. unfold eqv_by in *.
  apply andb_True in Hay as [Hay Hya], Hax as [Hax Hxa].
  assert (le x y) as H by (by eapply tp_trans). by rewrite Hxy in H.
Qed.

Lemma sort_by_stable `{!TotalPreorder le} l a :
  filter (eqv_by a) (sort_by le l) = filter (eqv_by a) l.
Proof.
  induction l as [|x l IH]; [done|]. simpl.
  rewrite insert_by_filter by (by apply sort_by_sorted).
  by rewrite !filter_cons, IH.
Qed.
End sort_by.

(** ** Ordered maps and sets

    [BTreeMap] and [BTreeSet] iterate in key order. They are [gmap] and
    [gset] with the iteration order recovered by sorting on the [Ord] of the
    key. *)
Class KeyOrder (K : Type) := {
  key_le : K → K → bool;
  key_order_total :: TotalPreorder key_le;
  key_le_antisymm x y : key_le x y → key_le y x → x = y;
}.

#[global] Program Instance N_key_order : KeyOrder N := {| key_le := by_key id |}.
Next Obligation. unfold by_key. intros x y. rewrite !bool_decide_spec. simpl. lia. Qed.

#[global] Program Instance nat_key_order : KeyOrder nat :=
  {| key_le := by_key N.of_nat |}.
Next Obligation. unfold by_key. intros x y. rewrite !bool_decide_spec. lia. Qed.

(** Tuples are ordered lexicographically. *)
Definition pair_le {A B} `{EqDecision A, KeyOrder A, KeyOrder B} (x y : A * B) : bool :=
  if decide (x.1 = y.1) then key_le x.2 y.2 else key_le x.1 y.1.

#[global] Instance pair_le_total {A B} `{EqDecision A, KeyOrder A, KeyOrder B} :
  TotalPreorder (pair_le (A:=A) (B:=B)).
Proof.
  split; unfold pair_le.
  - intros [a b] [c d]; simpl. repeat case_decide; subst; try done; apply tp_total.
  - intros [a b] [c d] [e f]; simpl. intros H1' H2'.
    repeat case_decide; subst; try done; try (by eapply tp_trans).
    by destruct (key_le_antisymm e c).
Qed.

#[global] Program Instance pair_key_order {A B} `{EqDecision A, KeyOrder A, KeyOrder B} :
  KeyOrder (A * B) := {| key_le := pair_le |}.
Next Obligation.
  intros A B ? ? ? [a b] [c d]. unfold pair_le; simpl. intros H1' H2'.
  repeat case_decide; subst; try done.
  - f_equal. by apply key_le_antisymm.
  - by destruct (key_le_antisymm a c).
Qed.

(** [std::ops::Bound]. *)
Inductive bound (K : Type) := Included (k : K) | Excluded (k : K) | Unbounded.
Arguments Included {_} _.
Arguments Excluded {_} _.
Arguments Unbounded {_}.

Definition above_bound {K} `{EqDecision K, KeyOrder K} (b : bound K) (k : K) : bool :=
  match b with
  | Included lo => key_le lo k
  | Excluded lo => key_le lo k && bool_decide (k ≠ lo)
  | Unbounded => true
  end.
Definition below_bound {K} `{EqDecision K, KeyOrder K} (b : bound K) (k : K) : bool :=
  match b with
  | Included hi => key_le k hi
  | Excluded hi => key_le k hi && bool_decide (k ≠ hi)
  | Unbounded => true
  end.

Section ordered.
Context {K : Type} `{EqDecision K, !Countable K, !KeyOrder K}.

(** Iteration of a [BTreeSet], its [first()] and [last()]. *)
Definition set_list (X : gset K) : list K := sort_by key_le (elements X).
Definition set_first (X : gset K) : option K := head (set_list X).
Definition set_last (X : gset K) : option K := last (set_list X).

(** Iteration of a [BTreeMap] and its [first_key_value()] and
    [last_key_value()]. *)
Definition entry_le {V} (x y : K * V) : bool := key_le x.1 y.1.
Definition map_list {V} (m : gmap K V) : list (K * V) :=
  sort_by entry_le (map_to_list m).
Definition map_first {V} (m : gmap K V) : option (K * V) := head (map_list m).
Definition map_last {V} (m : gmap K V) : option (K * V) := last (map_list m).

(** [range] of a [BTreeSet] and of a [BTreeMap]. *)
Definition set_range (lo hi : bound K) (X : gset K) : list K :=
  filter (λ k, above_bound lo k && below_bound hi k) (set_list X).
Definition map_range {V} (lo hi : bound K) (m : gmap K V) : list (K * V) :=
  filter (λ p, above_bound lo p.1 && below_bound hi p.1) (map_list m).

#[global] Instance entry_le_total {V} : TotalPreorder (@entry_le V).
Proof.
  split; unfold entry_le; [intros x y; apply (tp_total x.1 y.1)|].
  intros x y z. apply (tp_trans x.1 y.1 z.1).
Qed.

Lemma elem_of_set_list x X : x ∈ set_list X ↔ x ∈ X.
Proof. unfold set_list. by rewrite elem_of_sort_by, elem_of_elements. Qed.

Lemma elem_of_map_list {V} (m : gmap K V) k v : (k, v) ∈ map_list m ↔ m !! k = Some v.
Proof. unfold map_list. by rewrite elem_of_sort_by, elem_of_map_to_list. Qed.

Lemma NoDup_set_list X : NoDup (set_list X).
Proof. unfold set_list. rewrite sort_by_Permutation. apply NoDup_elements. Qed.

Lemma NoDup_map_list {V} (m : gmap K V) : NoDup (map_list m).*1.
Proof. unfold map_list. rewrite sort_by_Permutation. apply NoDup_fst_map_to_list. Qed.

Lemma set_list_sorted X : StronglySorted key_le (set_list X).
Proof. apply sort_by_sorted. apply _. Qed.

Lemma map_list_sorted {V} (m : gmap K V) : StronglySorted entry_le (map_list m).
Proof. apply sort_by_sorted. apply _. Qed.

Lemma set_list_empty : set_list ∅ = [].
Proof. unfold set_list. by rewrite elements_empty. Qed.

Lemma map_list_empty {V} : map_list (∅ : gmap K V) = [].
Proof. unfold map_list. by rewrite map_to_list_empty. Qed.

Lemma StronglySorted_last {A} (R : A → A → Prop) l x y :
  StronglySorted R l → last l = Some x → y ∈ l → y = x ∨ R y x.
Proof.
  intros Hs [l' ->]%last_Some Hy.
  apply StronglySorted_app in Hs as (HR & _ & _).
  apply elem_of_app in Hy as [Hy|Hy]; [|set_solver].
  right. apply HR; set_solver.
Qed.

Lemma set_last_Some X x : set_last X = Some x ↔ x ∈ X ∧ ∀ y, y ∈ X → key_le y x.
Proof.
  unfold set_last. split.
  - intros Hl. split.
    + apply elem_of_set_list. apply last_Some in Hl as [l ->]. set_solver.
    + intros y Hy%elem_of_set_list.
      destruct (StronglySorted_last _ _ _ _ (set_list_sorted X) Hl Hy) as [->|?]; [|done].
      by destruct (tp_total x x).
  - intros [Hx Hmax]. destruct (last (set_list X)) as [z|] eqn:Hl.
    + assert (Hz : z ∈ set_list X) by (apply last_Some in Hl as [l ->]; set_solver).
      f_equal. apply key_le_antisymm.
      * apply Hmax, elem_of_set_list, Hz.
      * apply elem_of_set_list in Hx.
        destruct (StronglySorted_last _ _ _ _ (set_list_sorted X) Hl Hx) as [->|?]; [|done].
        by destruct (tp_total z z).
    + apply last_None in Hl. apply elem_of_set_list in Hx. rewrite Hl in Hx. set_solver.
Qed.

Lemma set_last_None X : set_last X = None ↔ X = ∅.
Proof.
  unfold set_last. rewrite last_None. split.
  - intros Hl. apply set_eq. intros x. rewrite <-elem_of_set_list, Hl. set_solver.
  - intros ->. apply set_list_empty.
Qed.

Lemma set_first_Some X x : set_first X = Some x ↔ x ∈ X ∧ ∀ y, y ∈ X → key_le x y.
Proof.
  unfold set_first. pose proof (set_list_sorted X) as Hs.
  pose proof (λ z, elem_of_set_list z X) as Hin.
  destruct (set_list X) as [|z l]; simpl.
  - split; [done|]. intros [Hx _]. apply Hin in Hx. set_solver.
  - apply StronglySorted_cons in Hs as [Hz _]. rewrite Forall_forall in Hz.
    assert (Hmin : ∀ y, y ∈ X → key_le z y).
    { intros y [->|Hy]%Hin%elem_of_cons; [by destruct (tp_total z z)|by apply Hz]. }
    assert (z ∈ X) by (apply Hin; set_solver).
    split; [by intros [= <-]|]. intros [Hx Hx']. f_equal. apply key_le_antisymm; auto.
Qed.

Lemma set_first_None X : set_first X = None ↔ X = ∅.
Proof.
  unfold set_first. rewrite head_None. split.
  - intros Hl. apply set_eq. intros x. rewrite <-elem_of_set_list, Hl. set_solver.
  - intros ->. apply set_list_empty.
Qed.

Lemma map_first_Some {V} (m : gmap K V) k v :
  map_first m = Some (k, v) →
  m !! k = Some v ∧ ∀ k' v', m !! k' = Some v' → key_le k k'.
Proof.
  unfold map_first. pose proof (map_list_sorted m) as Hs.
  pose proof (λ k v, elem_of_map_list m k v) as Hin.
  destruct (map_list m) as [|z l]; simpl; [done|]. intros [= ->].
  apply StronglySorted_cons in Hs as [Hz _]. rewrite Forall_forall in Hz.
  split; [apply Hin; set_solver|].
  intros k' v' [Heq|Hy]%Hin%elem_of_cons.
  - simplify_eq. by destruct (tp_total k k).
  - by apply (Hz (k', v')).
Qed.

Lemma map_first_None {V} (m : gmap K V) : map_first m = None ↔ m = ∅.
Proof.
  unfold map_first. rewrite head_None. split.
  - intros Hl. apply map_eq. intros k. rewrite lookup_empty.
    destruct (m !! k) as [v|] eqn:Hk; [|done].
    apply elem_of_map_list in Hk. rewrite Hl in Hk. set_solver.
  - intros ->. unfold map_list. by rewrite map_to_list_empty.
Qed.
End ordered.

Lemma sorted_ext {K} `{EqDecision K, Countable K, KeyOrder K} (l1 l2 : list K) :
  StronglySorted key_le l1 → StronglySorted key_le l2 → NoDup l1 → NoDup l2 →
  (∀ x, x ∈ l1 ↔ x ∈ l2) → l1 = l2.
Proof.
  intros Hs1 Hs2 Hn1 Hn2 Hin.
  apply (StronglySorted_unique_strong key_le); [|done..|by apply NoDup_Permutation].
  intros x y _ _ Hxy Hyx. by apply key_le_antisymm.
Qed.

Lemma StronglySorted_filter {A} (R : A → A → Prop) (P : A → Prop) `{∀ x, Decision (P x)} (l : list A) :
  StronglySorted R l → StronglySorted R (filter P l).
Proof.
  induction 1 as [|x l Hl IH Hx]; [constructor|]. rewrite filter_cons.
  case_decide; [|done]. constructor; [done|].
  apply Forall_forall. intros y [_ Hy]%list_elem_of_filter. rewrite Forall_forall in Hx. auto.
Qed.

Lemma StronglySorted_fmap {A B} (R : B → B → Prop) (f : A → B) l :
  StronglySorted (λ x y, R (f x) (f y)) l → StronglySorted R (f <$> l).
Proof.
  induction 1 as [|x l Hl IH Hx]; csimpl; constructor; [done|].
  by apply Forall_fmap.
Qed.

Lemma map_list_fst_sorted {K V} `{EqDecision K, Countable K, KeyOrder K} (m : gmap K V) :
  StronglySorted key_le (map_list m).*1.
Proof.
  apply StronglySorted_fmap. eapply StronglySorted_weaken; [|apply map_list_sorted]. done.
Qed.

Lemma map_list_fmap {K V W} `{EqDecision K, Countable K, KeyOrder K} (f : V → W) (m : gmap K V) :
  map_list (f <$> m) = (λ p, (p.1, f p.2)) <$> map_list m.
Proof.
  assert (Hfst : (map_list (f <$> m)).*1 = ((λ p, (p.1, f p.2)) <$> map_list m).*1).
  { rewrite <-list_fmap_compose. apply sorted_ext.
    - apply map_list_fst_sorted.
    - apply (map_list_fst_sorted m).
    - apply NoDup_map_list.
    - apply (NoDup_map_list m).
    - intros k. rewrite !list_elem_of_fmap. split.
      + intros ([k' w] & -> & Hkw%elem_of_map_list). rewrite lookup_fmap in Hkw.
        apply fmap_Some in Hkw as (v & Hv & _). exists (k', v). by rewrite elem_of_map_list.
      + intros ([k' v] & -> & Hkv%elem_of_map_list). exists (k', f v).
        rewrite elem_of_map_list, lookup_fmap, Hkv. done. }
  apply list_eq. intros i. assert (Hi := f_equal (lookup i) Hfst).
  rewrite !list_lookup_fmap in Hi. rewrite list_lookup_fmap.
  destruct (map_list (f <$> m) !! i) as [[k w]|] eqn:H1',
           (map_list m !! i) as [[k' v]|] eqn:H2'; simplify_eq/=; [|done].
  apply list_elem_of_lookup_2, elem_of_map_list in H1', H2'.
  rewrite lookup_fmap, H2' in H1'. by simplify_eq/=.
Qed.

Lemma map_run_expect_lookup {K V} `{EqDecision K, Countable K, KeyOrder K} (m : gmap K V) ps :
  (∀ p, p ∈ ps → p ∈ map_list m) →
  map_run expect ((λ k, m !! k) <$> ps.*1) = Done ps.*2.
Proof.
  induction ps as [|[k v] ps IH]; intros Hps; [done|]. csimpl.
  assert (Hk : m !! k = Some v) by (apply elem_of_map_list, Hps; left).
  rewrite Hk. simpl. rewrite IH by (intros; apply Hps; by right). done.
Qed.

(** The last [n] elements of a list. *)
Definition last_n {A} (n : nat) (l : list A) : list A := drop (length l - n) l.

Lemma fmap_last_n {A B} (f : A → B) n l : f <$> last_n n l = last_n n (f <$> l).
Proof. unfold last_n. by rewrite fmap_drop, length_fmap. Qed.

Lemma reverse_take_reverse {A} n (l : list A) : reverse (take n (reverse l)) = last_n n l.
Proof. unfold last_n. by rewrite take_reverse, reverse_involutive. Qed.

Lemma last_n_length {A} n (l : list A) : length (last_n n l) = (n `min` length l)%nat.
Proof. unfold last_n. rewrite length_drop. lia. Qed.

(** ** Filters *)

Lemma filter_fmap {A B} (f : A → B) (P : B → Prop) `{∀ x, Decision (P x)} (l : list A) :
  filter P (f <$> l) = f <$> filter (λ x, P (f x)) l.
Proof.
  induction l as [|x l IH]; [done|]. csimpl. rewrite !filter_cons, IH.
  by destruct (decide (P (f x))).
Qed.

Lemma filter_ext_in {A} (P Q : A → Prop) `{∀ x, Decision (P x), ∀ x, Decision (Q x)} (l : list A) :
  (∀ x, x ∈ l → P x ↔ Q x) → filter P l = filter Q l.
Proof.
  induction l as [|x l IH]; intros HPQ; [done|]. rewrite !filter_cons, IH.
  - assert (P x ↔ Q x) as Hx by (apply HPQ; left).
    destruct (decide (P x)), (decide (Q x)); tauto.
  - intros y Hy. apply HPQ. by right.
Qed.
