(* ===== verification/Committee.v ===== *)
(** * Committee (consensus/config/src/committee.rs)

    The committee of an epoch, its thresholds, and the weighted quorum
    arguments every other component relies on: two quorums share a set of
    authorities of at least the validity threshold, so they share an honest
    authority as long as the Byzantine stake is below that threshold. *)
From S2P Require Import Prelude.
From Stdlib Require Import Strings.Byte.

Abbreviation Epoch := N (only parsing).
Abbreviation Stake := N (only parsing).
Abbreviation AuthorityIndex := nat (only parsing).
Abbreviation bytes := (list byte) (only parsing).

(** [struct Authority]; keys and addresses by their byte representation. *)
Record Authority := mk_authority {
  a_stake : Stake;
  a_address : string;
  a_hostname : string;
  a_authority_key : bytes;
  a_protocol_key : bytes;
  a_network_key : bytes;
}.

(** [struct Committee]. *)
Record Committee := mk_committee {
  c_epoch : Epoch;
  c_total_stake : Stake;
  c_quorum_threshold : Stake;
  c_validity_threshold : Stake;
  c_authorities : list Authority;
}.

(** [Committee::new]: panics on an empty or zero-stake committee. *)
Definition Committee_new (epoch : Epoch) (authorities : list Authority) : run Committee :=
  assert! bool_decide (length authorities ≠ 0%nat);
  assert! bool_decide (N.of_nat (length authorities) < u32_max);
  let total_stake := u64_sum (a_stake <$> authorities) in
  assert! bool_decide (total_stake ≠ 0);
  let quorum_threshold := u64_add (u64_mul 2 total_stake / 3) 1 in
  let validity_threshold := u64_add total_stake 2 / 3 in
  Done (mk_committee epoch total_stake quorum_threshold validity_threshold authorities).

(** [Committee::stake]: panics when the index is out of range. *)
Definition Committee_stake (c : Committee) (i : AuthorityIndex) : run Stake :=
  a ← vec_get (c_authorities c) i; Done (a_stake a).

(** [Committee::authority]. *)
Definition Committee_authority (c : Committee) (i : AuthorityIndex) : run Authority :=
  vec_get (c_authorities c) i.

(** [Committee::size]. *)
Definition Committee_size (c : Committee) : nat := length (c_authorities c).

(** [Committee::authorities]: the authorities with their index. *)
Definition Committee_authorities (c : Committee) : list (AuthorityIndex * Authority) :=
  imap pair (c_authorities c).

(** [Committee::reached_quorum]. *)
Definition Committee_reached_quorum (c : Committee) (stake : Stake) : bool :=
  bool_decide (c_quorum_threshold c ≤ stake).

(** [Committee::reached_validity]. *)
Definition Committee_reached_validity (c : Committee) (stake : Stake) : bool :=
  bool_decide (c_validity_threshold c ≤ stake).

(** [Committee::to_authority_index]. *)
Definition Committee_to_authority_index (c : Committee) (index : nat) : option AuthorityIndex :=
  if decide (index < length (c_authorities c))%nat then Some index else None.

(** [Committee::is_valid_index]. *)
Definition Committee_is_valid_index (c : Committee) (index : AuthorityIndex) : bool :=
  bool_decide (index < Committee_size c)%nat.

(** ** Well-formed committees *)
Record committee_ok (c : Committee) : Prop := {
  ok_nonempty : (0 < length (c_authorities c))%nat;
  ok_total : c_total_stake c = sumN (a_stake <$> c_authorities c);
  ok_total_pos : 0 < c_total_stake c;
  ok_total_bound : 2 * c_total_stake c ≤ u64_max;
  ok_quorum : c_quorum_threshold c = 2 * c_total_stake c / 3 + 1;
  ok_validity : c_validity_threshold c = (c_total_stake c + 2) / 3;
}.

(** Stake of an authority, zero out of range, and of a set of authorities. *)
Definition stake_at (c : Committee) (i : AuthorityIndex) : N :=
  default 0 (a_stake <$> c_authorities c !! i).

Definition set_stake (c : Committee) (X : gset AuthorityIndex) : N :=
  sumN (stake_at c <$> elements X).

(** Authorities whose index is in range. *)
Definition valid_authorities (c : Committee) (X : gset AuthorityIndex) : Prop :=
  ∀ i, i ∈ X → Committee_is_valid_index c i.

Lemma div3 a : 3 * (a / 3) ≤ a < 3 * (a / 3) + 3.
Proof.
  split; [by apply N.Div0.mul_div_le|].
  replace (3 * (a / 3) + 3) with (3 * N.succ (a / 3)) by lia.
  by apply N.mul_succ_div_gt.
Qed.

(** Committee construction yields a well-formed committee as long as twice the
    total stake fits in 64 bits (the protocol fixes the total at 10,000). *)
Lemma Committee_new_ok epoch authorities c :
  2 * sumN (a_stake <$> authorities) ≤ u64_max →
  Committee_new epoch authorities = Done c →
  committee_ok c ∧ c_authorities c = authorities ∧ c_epoch c = epoch.
Proof.
  unfold Committee_new. intros Hb Hc. repeat case_bool_decide; simplify_eq/=.
  rewrite !u64_sum_small in * by lia. unfold u64_max in Hb.
  pose proof (div3 (2 * sumN (a_stake <$> authorities))).
  split; [|done]. split; simpl.
  - lia.
  - done.
  - lia.
  - done.
  - rewrite u64_mul_small by done. apply u64_add_small. unfold u64_max. lia.
  - rewrite u64_add_small by (unfold u64_max; lia). done.
Qed.

Section committee.
Context (c : Committee).

Lemma Committee_stake_Done i : Committee_is_valid_index c i →
  Committee_stake c i = Done (stake_at c i).
Proof.
  unfold Committee_is_valid_index, Committee_size, Committee_stake, vec_get, stake_at.
  rewrite bool_decide_spec. intros [a Ha]%lookup_lt_is_Some. by rewrite Ha.
Qed.

Lemma Committee_stake_inv i s :
  Committee_stake c i = Done s → Committee_is_valid_index c i ∧ s = stake_at c i.
Proof.
  unfold Committee_is_valid_index, Committee_size, Committee_stake, stake_at.
  intros Hs. run_inv.
  rewrite bool_decide_spec, Hrun. split; [by eapply lookup_lt_Some|done].
Qed.

Lemma set_stake_empty : set_stake c ∅ = 0.
Proof. unfold set_stake. by rewrite elements_empty. Qed.

Lemma set_stake_disj_union X Y :
  X ## Y → set_stake c (X ∪ Y) = set_stake c X + set_stake c Y.
Proof.
  intros ?. unfold set_stake.
  by rewrite elements_disj_union, fmap_app, sumN_app.
Qed.

Lemma set_stake_singleton i : set_stake c {[i]} = stake_at c i.
Proof. unfold set_stake. rewrite elements_singleton. simpl. lia. Qed.

Lemma set_stake_insert i X :
  i ∉ X → set_stake c ({[i]} ∪ X) = stake_at c i + set_stake c X.
Proof.
  intros ?. rewrite set_stake_disj_union by set_solver.
  by rewrite set_stake_singleton.
Qed.

Lemma set_stake_split X Y :
  set_stake c X = set_stake c (X ∩ Y) + set_stake c (X ∖ Y).
Proof.
  rewrite <-set_stake_disj_union by set_solver. f_equal.
  apply set_eq. intros i. destruct (decide (i ∈ Y)); set_solver.
Qed.

Lemma set_stake_mono X Y : X ⊆ Y → set_stake c X ≤ set_stake c Y.
Proof.
  intros ?. rewrite (set_stake_split Y X).
  replace (Y ∩ X) with X by set_solver. lia.
Qed.

Lemma stakes_by_index :
  stake_at c <$> seq 0 (length (c_authorities c)) = a_stake <$> c_authorities c.
Proof.
  apply list_eq. intros i. rewrite !list_lookup_fmap.
  destruct (decide (i < length (c_authorities c))%nat) as [Hi|Hi].
  - rewrite lookup_seq_lt by done. unfold stake_at. simpl.
    by apply lookup_lt_is_Some in Hi as [a ->].
  - rewrite lookup_seq_ge, lookup_ge_None_2 by lia. done.
Qed.

(** Sets of more stake than the faulty one contain an honest member. *)
Lemma set_stake_list (l : list AuthorityIndex) :
  NoDup l → set_stake c (list_to_set l) = sumN (stake_at c <$> l).
Proof. intros Hl. unfold set_stake. by rewrite elements_list_to_set. Qed.

Lemma honest_member X B :
  set_stake c B < set_stake c X → ∃ i, i ∈ X ∧ i ∉ B.
Proof.
  intros Hlt. destruct (decide (X ∖ B = ∅)) as [He|Hne].
  - exfalso. pose proof (set_stake_mono X B ltac:(set_solver)). lia.
  - apply set_choose_L in Hne as [i Hi]. exists i. set_solver.
Qed.

Context (Hok : committee_ok c).

Lemma set_stake_le_total X : set_stake c X ≤ c_total_stake c.
Proof using Hok.
  rewrite (ok_total c Hok), <-stakes_by_index. unfold set_stake.
  rewrite (sumN_fmap_filter _ (λ i, i < length (c_authorities c))%nat).
  - apply sumN_submseteq, fmap_submseteq, NoDup_submseteq.
    + apply NoDup_filter, NoDup_elements.
    + intros i [? _]%list_elem_of_filter. apply elem_of_seq. lia.
  - intros i Hi. unfold stake_at. by rewrite lookup_ge_None_2 by lia.
Qed.

Lemma quorum_pos : 0 < c_quorum_threshold c.
Proof using Hok. rewrite (ok_quorum c Hok). div_lia. Qed.

Lemma quorum_le_total : c_quorum_threshold c ≤ c_total_stake c.
Proof using Hok.
  rewrite (ok_quorum c Hok). pose proof (ok_total_pos c Hok).
  pose proof (div3 (2 * c_total_stake c)). div_lia.
Qed.

Lemma validity_pos : 0 < c_validity_threshold c.
Proof using Hok.
  rewrite (ok_validity c Hok). pose proof (ok_total_pos c Hok).
  pose proof (div3 (c_total_stake c + 2)). div_lia.
Qed.

(** A quorum and a set of validity stake always intersect. *)
Lemma quorum_plus_validity :
  c_total_stake c < c_quorum_threshold c + c_validity_threshold c.
Proof using Hok.
  rewrite (ok_quorum c Hok), (ok_validity c Hok).
  pose proof (div3 (2 * c_total_stake c)). pose proof (div3 (c_total_stake c + 2)). div_lia.
Qed.

Lemma quorum_validity_total :
  c_quorum_threshold c + c_validity_threshold c ≤ c_total_stake c + 1.
Proof using Hok.
  rewrite (ok_quorum c Hok), (ok_validity c Hok). pose proof (ok_total_pos c Hok).
  pose proof (div3 (2 * c_total_stake c)). pose proof (div3 (c_total_stake c + 2)). div_lia.
Qed.

Lemma two_validities : 2 * c_validity_threshold c ≤ c_quorum_threshold c + 1.
Proof using Hok.
  rewrite (ok_quorum c Hok), (ok_validity c Hok).
  pose proof (div3 (2 * c_total_stake c)). pose proof (div3 (c_total_stake c + 2)). div_lia.
Qed.

Lemma two_quorums :
  c_total_stake c + c_validity_threshold c ≤ 2 * c_quorum_threshold c.
Proof using Hok.
  rewrite (ok_quorum c Hok), (ok_validity c Hok).
  pose proof (div3 (2 * c_total_stake c)). pose proof (div3 (c_total_stake c + 2)). div_lia.
Qed.

Lemma quorum_intersection_stake X Y :
  c_quorum_threshold c ≤ set_stake c X → c_quorum_threshold c ≤ set_stake c Y →
  c_validity_threshold c ≤ set_stake c (X ∩ Y).
Proof using Hok.
  intros HX HY.
  assert (set_stake c (X ∪ Y) = set_stake c X + set_stake c (Y ∖ X)).
  { rewrite <-set_stake_disj_union by set_solver. f_equal.
    apply set_eq. intros i. destruct (decide (i ∈ X)); set_solver. }
  pose proof (set_stake_le_total (X ∪ Y)).
  pose proof (set_stake_split Y X) as Hsp.
  replace (Y ∩ X) with (X ∩ Y) in Hsp by set_solver.
  pose proof two_quorums. lia.
Qed.
End committee.

(** Two quorums of a committee built by [Committee::new] always share an
    honest authority, whenever the Byzantine authorities hold less than the
    validity threshold (f+1) of the stake. *)
Theorem quorums_share_honest epoch authorities c X Y B :
  2 * sumN (a_stake <$> authorities) ≤ u64_max →
  Committee_new epoch authorities = Done c →
  Committee_reached_quorum c (set_stake c X) →
  Committee_reached_quorum c (set_stake c Y) →
  Committee_reached_validity c (set_stake c B) = false →
  ∃ i, i ∈ X ∧ i ∈ Y ∧ i ∉ B.
Proof.
  intros Hb Hc HX HY HB.
  destruct (Committee_new_ok _ _ _ Hb Hc) as (Hok & _ & _).
  unfold Committee_reached_quorum, Committee_reached_validity in *.
  rewrite bool_decide_spec in HX, HY. apply bool_decide_eq_false_1 in HB.
  pose proof (quorum_intersection_stake c Hok X Y HX HY).
  destruct (honest_member c (X ∩ Y) B) as (i & ? & ?); [lia|].
  exists i. set_solver.
Qed.

(** A four-authority committee of even stake. *)
Definition test_authority (s : N) : Authority := mk_authority s "" "" [] [] [].
Definition test_committee (n : nat) : Committee :=
  mk_committee 0 (N.of_nat n) (2 * N.of_nat n / 3 + 1) ((N.of_nat n + 2) / 3)
    (replicate n (test_authority 1)).

Lemma quorums_share_honest_witness :
  ∃ i, i ∈ ({[0; 1; 2]}%nat : gset nat) ∧ i ∈ ({[1; 2; 3]}%nat : gset nat) ∧
       i ∉ ({[1]}%nat : gset nat).
Proof.
  apply (quorums_share_honest 0 (replicate 4 (test_authority 1)) (test_committee 4));
    [by vm_compute|by vm_compute|by vm_compute|by vm_compute|by vm_compute].
Defined.
