(* ===== verification/StakeAggregator.v ===== *)
(** * Stake aggregation (consensus/core/src/stake_aggregator.rs)

    Counting distinct votes by stake. [CommitteeThreshold] is the trait that
    picks the threshold; the aggregator counts each authority once and reports
    when the stake of the distinct voters reaches it. *)
From S2P Require Import Prelude Committee.

(** [trait CommitteeThreshold]. *)
Class CommitteeThreshold (T : Type) := {
  is_threshold : Committee → Stake → bool;
  threshold : Committee → Stake;
}.
Arguments is_threshold T {_} _ _.
Arguments threshold T {_} _.

(** What an implementation of the trait promises: the test compares with the
    advertised threshold. *)
Class ThresholdLaws (T : Type) `{!CommitteeThreshold T} : Prop :=
  is_threshold_spec c s : is_threshold T c s = bool_decide (threshold T c ≤ s).

Inductive QuorumThreshold : Set := QuorumThreshold_.
Inductive ValidityThreshold : Set := ValidityThreshold_.

#[global] Instance QuorumThreshold_impl : CommitteeThreshold QuorumThreshold := {|
  is_threshold c amount := Committee_reached_quorum c amount;
  threshold c := c_quorum_threshold c;
|}.

#[global] Instance ValidityThreshold_impl : CommitteeThreshold ValidityThreshold := {|
  is_threshold c amount := Committee_reached_validity c amount;
  threshold c := c_validity_threshold c;
|}.

#[global] Instance QuorumThreshold_laws : ThresholdLaws QuorumThreshold.
Proof. done. Qed.
#[global] Instance ValidityThreshold_laws : ThresholdLaws ValidityThreshold.
Proof. done. Qed.

(** [struct StakeAggregator<T>]. *)
Record StakeAggregator (T : Type) := mk_agg {
  sa_votes : gset AuthorityIndex;
  sa_stake : Stake;
}.
Arguments mk_agg {_} _ _.
Arguments sa_votes {_} _.
Arguments sa_stake {_} _.

Section aggregator.
Context {T : Type} `{!CommitteeThreshold T}.

(** [StakeAggregator::new]. *)
Definition StakeAggregator_new : StakeAggregator T := mk_agg ∅ 0.

(** [StakeAggregator::add_unique]: true when the vote is counted. *)
Definition StakeAggregator_add_unique (agg : StakeAggregator T) (vote : AuthorityIndex)
    (c : Committee) : run (StakeAggregator T * bool) :=
  if decide (vote ∈ sa_votes agg) then Done (agg, false)
  else
    s ← Committee_stake c vote;
    Done (mk_agg ({[vote]} ∪ sa_votes agg) (u64_add (sa_stake agg) s), true).

(** [StakeAggregator::add]: true when the threshold is reached. *)
Definition StakeAggregator_add (agg : StakeAggregator T) (vote : AuthorityIndex)
    (c : Committee) : run (StakeAggregator T * bool) :=
  agg' ← (if decide (vote ∈ sa_votes agg) then Done agg
          else s ← Committee_stake c vote;
               Done (mk_agg ({[vote]} ∪ sa_votes agg) (u64_add (sa_stake agg) s)));
  Done (agg', is_threshold T c (sa_stake agg')).

(** [StakeAggregator::reached_threshold]. *)
Definition StakeAggregator_reached_threshold (agg : StakeAggregator T) (c : Committee) : bool :=
  is_threshold T c (sa_stake agg).

(** [StakeAggregator::clear]. *)
Definition StakeAggregator_clear (agg : StakeAggregator T) : StakeAggregator T := mk_agg ∅ 0.

(** Adding votes one by one. *)
Definition add_all (c : Committee) (agg : StakeAggregator T) (votes : list AuthorityIndex)
    : run (StakeAggregator T) :=
  for_each (λ agg v, '(agg', _) ← StakeAggregator_add agg v c; Done agg') agg votes.

(** The loop the commit rules use: stop as soon as the threshold is reached. *)
Fixpoint add_until (c : Committee) (agg : StakeAggregator T) (votes : list AuthorityIndex)
    : run bool :=
  match votes with
  | [] => Done false
  | v :: vs =>
      '(agg', reached) ← StakeAggregator_add agg v c;
      if (reached : bool) then Done true else add_until c agg' vs
  end.

(** The stake is the stake of the distinct, valid voters. *)
Definition agg_ok (c : Committee) (agg : StakeAggregator T) : Prop :=
  sa_stake agg = set_stake c (sa_votes agg) ∧ valid_authorities c (sa_votes agg).

Context (c : Committee) (Hok : committee_ok c).

Lemma StakeAggregator_add_Done (agg : StakeAggregator T) v :
  Committee_is_valid_index c v → ∃ r, StakeAggregator_add agg v c = Done r.
Proof.
  clear Hok. intros Hv. unfold StakeAggregator_add. case_decide; [by eauto|].
  rewrite Committee_stake_Done by done. simpl. eauto.
Qed.

Lemma agg_ok_new : agg_ok c StakeAggregator_new.
Proof. clear Hok. split; [by rewrite set_stake_empty|set_solver]. Qed.

Lemma agg_ok_bound agg : agg_ok c agg → sa_stake agg ≤ c_total_stake c.
Proof using Hok. intros [-> _]. by apply set_stake_le_total. Qed.

Lemma StakeAggregator_add_unique_spec agg v :
  agg_ok c agg → Committee_is_valid_index c v →
  ∃ agg', StakeAggregator_add_unique agg v c = Done (agg', bool_decide (v ∉ sa_votes agg)) ∧
          agg_ok c agg' ∧ sa_votes agg' = {[v]} ∪ sa_votes agg.
Proof using Hok.
  intros [Hs Hv] Hvalid. unfold StakeAggregator_add_unique. case_decide as Hin.
  - exists agg. rewrite bool_decide_eq_false_2 by naive_solver.
    split; [done|]. split; [done|set_solver].
  - rewrite Committee_stake_Done by done. simpl.
    rewrite bool_decide_eq_true_2 by done. eexists. split; [done|]. simpl.
    split; [|done]. split; simpl.
    + rewrite set_stake_insert by done. rewrite Hs, u64_add_small; [lia|].
      pose proof (set_stake_le_total c Hok ({[v]} ∪ sa_votes agg)) as Hle.
      rewrite set_stake_insert in Hle by done. pose proof (ok_total_bound c Hok). lia.
    + intros i [->%elem_of_singleton|]%elem_of_union; auto.
Qed.

Lemma StakeAggregator_add_spec agg v :
  agg_ok c agg → Committee_is_valid_index c v →
  ∃ agg', StakeAggregator_add agg v c =
            Done (agg', is_threshold T c (set_stake c ({[v]} ∪ sa_votes agg))) ∧
          agg_ok c agg' ∧ sa_votes agg' = {[v]} ∪ sa_votes agg.
Proof using Hok.
  intros Hagg Hvalid.
  destruct (StakeAggregator_add_unique_spec agg v Hagg Hvalid) as (agg' & Hadd & Hok' & Hvotes).
  exists agg'. split; [|done]. rewrite <-Hvotes. destruct Hok' as [<- _].
  unfold StakeAggregator_add_unique, StakeAggregator_add in *. case_decide.
  - by simplify_eq/=.
  - destruct (Committee_stake c v); by simplify_eq/=.
Qed.

Lemma StakeAggregator_add_inv agg v agg' b :
  agg_ok c agg → StakeAggregator_add agg v c = Done (agg', b) →
  Committee_is_valid_index c v ∧ agg_ok c agg' ∧
  sa_votes agg' = {[v]} ∪ sa_votes agg ∧ b = is_threshold T c (set_stake c (sa_votes agg')).
Proof using Hok.
  intros Hagg Hadd.
  assert (Hvalid : Committee_is_valid_index c v).
  { destruct Hagg as [_ Hv]. unfold StakeAggregator_add in Hadd. case_decide; [auto|].
    run_inv. by edestruct Committee_stake_inv. }
  destruct (StakeAggregator_add_spec agg v Hagg Hvalid) as (agg'' & Hadd' & Hok' & Hvotes).
  rewrite Hadd in Hadd'. simplify_eq. by rewrite Hvotes.
Qed.

Context `{!ThresholdLaws T}.

(** The early-return loop decides whether the distinct voters reach the
    threshold. *)
Lemma add_until_spec agg votes :
  agg_ok c agg → sa_stake agg < threshold T c →
  Forall (Committee_is_valid_index c) votes →
  add_until c agg votes =
    Done (bool_decide (threshold T c ≤ set_stake c (sa_votes agg ∪ list_to_set votes))).
Proof using Hok ThresholdLaws0.
  revert agg. induction votes as [|v vs IH]; intros agg Hagg Hlt Hvalid; simpl.
  - destruct Hagg as [Hs _]. rewrite bool_decide_eq_false_2; [done|].
    replace (sa_votes agg ∪ ∅) with (sa_votes agg) by set_solver. lia.
  - apply Forall_cons in Hvalid as [Hv Hvs].
    destruct (StakeAggregator_add_spec agg v Hagg Hv) as (agg' & -> & Hok' & Hvotes).
    simpl. rewrite is_threshold_spec. case_bool_decide as Hth.
    + rewrite bool_decide_eq_true_2; [done|]. etrans; [exact Hth|].
      apply set_stake_mono. set_solver.
    + rewrite IH; [|done| |done].
      * rewrite Hvotes. do 3 f_equal. apply bool_decide_ext. f_equiv. f_equal. set_solver.
      * destruct Hok' as [-> _]. rewrite Hvotes. lia.
Qed.

(** The aggregator counts every authority at most once. After any
    sequence of valid votes, with repetitions in any order, [add] does not
    panic, the stake is exactly the stake of the set of distinct voters, and
    the flag of the last [add] says whether that set reaches the
    threshold. *)
Theorem StakeAggregator_counts_distinct votes v :
  Forall (Committee_is_valid_index c) (votes ++ [v]) →
  ∃ agg agg',
    add_all c StakeAggregator_new votes = Done agg ∧
    StakeAggregator_add agg v c =
      Done (agg', bool_decide (threshold T c ≤ set_stake c (list_to_set (votes ++ [v])))) ∧
    sa_votes agg' = list_to_set (votes ++ [v]) ∧
    sa_stake agg' = set_stake c (list_to_set (votes ++ [v])).
Proof using Hok ThresholdLaws0.
  intros [Hvs [Hv _]%Forall_cons_1]%Forall_app.
  assert (∃ agg, add_all c StakeAggregator_new votes = Done agg ∧ agg_ok c agg ∧
                 sa_votes agg = list_to_set votes) as (agg & Hrun & Hagg & Hvotes).
  { clear Hv. induction votes as [|x votes IH] using rev_ind.
    - exists StakeAggregator_new. split; [done|]. split; [apply agg_ok_new|done].
    - apply Forall_app in Hvs as [Hvs [Hx _]%Forall_cons_1].
      destruct (IH Hvs) as (agg & Hrun & Hagg & Hvotes).
      destruct (StakeAggregator_add_spec agg x Hagg Hx) as (agg' & Hadd & ? & Hvotes').
      exists agg'. unfold add_all in *. rewrite for_each_app, Hrun. simpl.
      rewrite Hadd. simpl. split; [done|]. split; [done|].
      rewrite Hvotes', Hvotes. set_solver. }
  destruct (StakeAggregator_add_spec agg v Hagg Hv) as (agg' & Hadd & [Hs _] & Hvotes').
  assert ({[v]} ∪ sa_votes agg = list_to_set (votes ++ [v])) as Heq by set_solver.
  exists agg, agg'. rewrite Heq in *. rewrite is_threshold_spec in Hadd.
  by rewrite Hs, Hvotes'.
Qed.
End aggregator.

Lemma test_committee_ok : committee_ok (test_committee 4).
Proof. split; vm_compute; done || lia. Qed.

Lemma StakeAggregator_counts_distinct_witness :
  ∃ agg agg' : StakeAggregator QuorumThreshold,
    add_all (test_committee 4) StakeAggregator_new [0; 1; 1]%nat = Done agg ∧
    StakeAggregator_add agg 2%nat (test_committee 4) =
      Done (agg', bool_decide (3 ≤ set_stake (test_committee 4) {[0; 1; 2]}%nat)) ∧
    sa_stake agg' = 3.
Proof.
  destruct (StakeAggregator_counts_distinct (T := QuorumThreshold) (test_committee 4)
              test_committee_ok [0; 1; 1]%nat 2%nat) as (agg & agg' & H1 & H2 & H3 & H4).
  - repeat constructor.
  - exists agg, agg'. split; [exact H1|]. split; [|by rewrite H4].
    rewrite H2. by vm_compute.
Defined.
