(* ===== verification/Block.v ===== *)
(** * Blocks (consensus/types/src/block.rs, consensus/core/src/block.rs)

    Block references and their order, slots, the versioned block with its
    accessors ([BlockAPI]), signed and verified blocks, genesis blocks, and
    the per-epoch [Context] every component reads. Serialization (bcs) and
    hashing (fastcrypto) are not in the repository: they are the operations of
    the class [BlockCodec]. *)
From S2P Require Import Prelude Committee.
From Stdlib Require Import Strings.Byte.

Abbreviation Round := N (only parsing).
Abbreviation BlockTimestampMs := N (only parsing).
Abbreviation TransactionIndex := N (only parsing).
(** A 32-byte digest, as the number its bytes spell in big-endian order: the
    derived [Ord] on byte arrays is the order on these numbers. *)
Abbreviation BlockDigest := N (only parsing).
Abbreviation CommitIndex := N (only parsing).
Abbreviation CommitDigest := N (only parsing).

Definition BlockDigest_MIN : BlockDigest := 0.
Definition BlockDigest_MAX : BlockDigest := 2 ^ 256 - 1.

(** [struct BlockRef]. *)
Record BlockRef := mk_ref {
  br_round : Round;
  br_author : AuthorityIndex;
  br_digest : BlockDigest;
}.

#[global] Instance BlockRef_eq_dec : EqDecision BlockRef.
Proof. solve_decision. Defined.

#[global] Program Instance BlockRef_countable : Countable BlockRef :=
  inj_countable' (λ r, (br_round r, br_author r, br_digest r))
                 (λ p, mk_ref p.1.1 p.1.2 p.2) _.
Next Obligation. by intros []. Qed.

(** The derived [Ord]: round, then author, then digest. *)
Definition BlockRef_le (a b : BlockRef) : bool :=
  bool_decide
    (br_round a < br_round b ∨
     br_round a = br_round b ∧
       ((br_author a < br_author b)%nat ∨
        br_author a = br_author b ∧ br_digest a ≤ br_digest b)).

#[global] Instance BlockRef_total : TotalPreorder BlockRef_le.
Proof.
  unfold BlockRef_le. split.
  - intros x y. rewrite !bool_decide_spec. lia.
  - intros x y z. rewrite !bool_decide_spec. lia.
Qed.

#[global] Program Instance BlockRef_order : KeyOrder BlockRef := {| key_le := BlockRef_le |}.
Next Obligation.
  intros [r1 a1 d1] [r2 a2 d2]. unfold BlockRef_le. rewrite !bool_decide_spec. simpl.
  intros. f_equal; lia.
Qed.

Lemma BlockRef_le_round a b : BlockRef_le a b → br_round a ≤ br_round b.
Proof. unfold BlockRef_le. rewrite bool_decide_spec. lia. Qed.

(** [struct Slot] and [Slot::from(BlockRef)]. *)
Record Slot := mk_slot { s_round : Round; s_authority : AuthorityIndex }.

#[global] Instance Slot_eq_dec : EqDecision Slot.
Proof. solve_decision. Defined.

Definition Slot_from (r : BlockRef) : Slot := mk_slot (br_round r) (br_author r).

Definition GENESIS_ROUND : Round := 0.

(** [struct Transaction]. *)
Record Transaction := mk_transaction { tx_data : bytes }.

(** [struct BlockTransactionVotes]. *)
Record BlockTransactionVotes := mk_txn_votes {
  btv_block_ref : BlockRef;
  btv_rejects : list TransactionIndex;
}.

(** [struct CommitRef] (commit.rs), [CommitVote] in blocks. *)
Record CommitRef := mk_commit_ref { cr_index : CommitIndex; cr_digest : CommitDigest }.

#[global] Instance CommitRef_eq_dec : EqDecision CommitRef.
Proof. solve_decision. Defined.

(** [enum MisbehaviorProof], [struct MisbehaviorReport]. *)
Inductive MisbehaviorProof := InvalidBlock (r : BlockRef).
Record MisbehaviorReport := mk_report { mr_target : AuthorityIndex; mr_proof : MisbehaviorProof }.

(** [struct BlockV1]. *)
Record BlockV1 := mk_block_v1 {
  v1_epoch : Epoch;
  v1_round : Round;
  v1_author : AuthorityIndex;
  v1_timestamp_ms : BlockTimestampMs;
  v1_ancestors : list BlockRef;
  v1_transactions : list Transaction;
  v1_commit_votes : list CommitRef;
  v1_misbehavior_reports : list MisbehaviorReport;
}.

(** [struct BlockV2]. *)
Record BlockV2 := mk_block_v2 {
  v2_epoch : Epoch;
  v2_round : Round;
  v2_author : AuthorityIndex;
  v2_timestamp_ms : BlockTimestampMs;
  v2_ancestors : list BlockRef;
  v2_transactions : list Transaction;
  v2_transaction_votes : list BlockTransactionVotes;
  v2_commit_votes : list CommitRef;
  v2_misbehavior_reports : list MisbehaviorReport;
}.

(** [enum Block]. *)
Inductive Block := V1 (b : BlockV1) | V2 (b : BlockV2).

(** [trait BlockAPI]. *)
Definition block_epoch (b : Block) : Epoch :=
  match b with V1 b => v1_epoch b | V2 b => v2_epoch b end.
Definition block_round (b : Block) : Round :=
  match b with V1 b => v1_round b | V2 b => v2_round b end.
Definition block_author (b : Block) : AuthorityIndex :=
  match b with V1 b => v1_author b | V2 b => v2_author b end.
Definition block_slot (b : Block) : Slot := mk_slot (block_round b) (block_author b).
Definition block_timestamp_ms (b : Block) : BlockTimestampMs :=
  match b with V1 b => v1_timestamp_ms b | V2 b => v2_timestamp_ms b end.
Definition block_ancestors (b : Block) : list BlockRef :=
  match b with V1 b => v1_ancestors b | V2 b => v2_ancestors b end.
Definition block_transactions (b : Block) : list Transaction :=
  match b with V1 b => v1_transactions b | V2 b => v2_transactions b end.
Definition block_transactions_data (b : Block) : list bytes := tx_data <$> block_transactions b.
Definition block_commit_votes (b : Block) : list CommitRef :=
  match b with V1 b => v1_commit_votes b | V2 b => v2_commit_votes b end.
(** V1 blocks carry no transaction votes. *)
Definition block_transaction_votes (b : Block) : list BlockTransactionVotes :=
  match b with V1 _ => [] | V2 b => v2_transaction_votes b end.

(** [struct SignedBlock], [struct VerifiedBlock]. *)
Record SignedBlock := mk_signed { sb_inner : Block; sb_signature : bytes }.
Record VerifiedBlock := mk_verified {
  vb_signed : SignedBlock;
  vb_digest : BlockDigest;
  vb_serialized : bytes;
}.

(** Accessors through [Deref] of [VerifiedBlock]. *)
Definition vb_block (b : VerifiedBlock) : Block := sb_inner (vb_signed b).
Definition vb_round (b : VerifiedBlock) : Round := block_round (vb_block b).
Definition vb_author (b : VerifiedBlock) : AuthorityIndex := block_author (vb_block b).
Definition vb_timestamp_ms (b : VerifiedBlock) : BlockTimestampMs := block_timestamp_ms (vb_block b).
Definition vb_ancestors (b : VerifiedBlock) : list BlockRef := block_ancestors (vb_block b).

(** [VerifiedBlock::reference]. *)
Definition vb_reference (b : VerifiedBlock) : BlockRef :=
  mk_ref (vb_round b) (vb_author b) (vb_digest b).

(** Serialization and hashing of the external crates (bcs, fastcrypto). *)
Class BlockCodec := {
  bcs_to_bytes : SignedBlock → option bytes;
  bcs_from_bytes : bytes → option SignedBlock;
  default_hash : bytes → BlockDigest;
}.

(** [struct ProtocolConfig]: the values consensus reads. *)
Record ProtocolConfig := mk_protocol_config {
  pc_gc_depth : N;
  pc_mysticeti_num_leaders_per_round : option N;
  pc_consensus_bad_nodes_stake_threshold : N;
  pc_mysticeti_fastpath : bool;
  pc_max_transaction_size_bytes : N;
  pc_max_num_transactions_in_block : N;
  pc_max_transactions_in_block_bytes : N;
  pc_enforce_checkpoint_timestamp_monotonicity : bool;
  pc_consensus_batched_block_sync : bool;
}.

(** [struct Context]: per-epoch configuration shared by the components. *)
Record Context := mk_context {
  ctx_epoch_start_timestamp_ms : N;
  ctx_own_index : AuthorityIndex;
  ctx_committee : Committee;
  ctx_dag_state_cached_rounds : N;
  ctx_protocol_config : ProtocolConfig;
}.

Section block.
Context `{BlockCodec}.

(** [VerifiedBlock::new_verified]. *)
Definition VerifiedBlock_new_verified (sb : SignedBlock) (serialized : bytes) : VerifiedBlock :=
  mk_verified sb (default_hash serialized) serialized.

(** [SignedBlock::new_genesis]. *)
Definition SignedBlock_new_genesis (b : Block) : SignedBlock := mk_signed b [].

(** The genesis timestamp of both versions. *)
Definition genesis_timestamp_ms (ctx : Context) : BlockTimestampMs :=
  if pc_enforce_checkpoint_timestamp_monotonicity (ctx_protocol_config ctx)
  then ctx_epoch_start_timestamp_ms ctx else 0.

(** [BlockV1::genesis_block]. *)
Definition BlockV1_genesis_block (ctx : Context) (author : AuthorityIndex) : BlockV1 :=
  mk_block_v1 (c_epoch (ctx_committee ctx)) GENESIS_ROUND author
    (genesis_timestamp_ms ctx) [] [] [] [].

(** [BlockV2::genesis_block]. *)
Definition BlockV2_genesis_block (ctx : Context) (author : AuthorityIndex) : BlockV2 :=
  mk_block_v2 (c_epoch (ctx_committee ctx)) GENESIS_ROUND author
    (genesis_timestamp_ms ctx) [] [] [] [] [].

(** [genesis_blocks]: one block per authority, in index order; a
    serialization failure is a panic. *)
Definition genesis_blocks (ctx : Context) : run (list VerifiedBlock) :=
  map_run (λ '(i, _),
    let block :=
      if pc_mysticeti_fastpath (ctx_protocol_config ctx)
      then V2 (BlockV2_genesis_block ctx i)
      else V1 (BlockV1_genesis_block ctx i) in
    let signed_block := SignedBlock_new_genesis block in
    serialized ← expect (bcs_to_bytes signed_block);
    Done (VerifiedBlock_new_verified signed_block serialized))
    (Committee_authorities (ctx_committee ctx)).

Lemma genesis_blocks_spec ctx bs :
  genesis_blocks ctx = Done bs →
  length bs = Committee_size (ctx_committee ctx) ∧
  ∀ i b, bs !! i = Some b →
    vb_round b = GENESIS_ROUND ∧ vb_author b = i ∧ vb_ancestors b = [] ∧
    block_epoch (vb_block b) = c_epoch (ctx_committee ctx) ∧
    vb_timestamp_ms b = genesis_timestamp_ms ctx.
Proof.
  unfold genesis_blocks. intros Hrun%map_run_Done. split.
  - rewrite <-(Forall2_length _ _ _ Hrun). unfold Committee_authorities.
    by rewrite length_imap.
  - intros i b Hb.
    destruct (Forall2_lookup_r _ _ _ _ _ Hrun Hb) as ([j a] & Hj & Hd).
    unfold Committee_authorities in Hj. rewrite list_lookup_imap in Hj.
    apply fmap_Some in Hj as (a' & _ & [= -> ->]).
    run_inv. by destruct (pc_mysticeti_fastpath _).
Qed.
End block.

(** [struct ExtendedBlock]. *)
Record ExtendedBlock := mk_extended {
  eb_block : VerifiedBlock;
  eb_excluded_ancestors : list BlockRef;
}.

(** [struct CertifiedBlock]. *)
Record CertifiedBlock := mk_certified_block {
  cb_block : VerifiedBlock;
  cb_rejected : list TransactionIndex;
}.

(** [TestBlock]: blocks for concrete executions. *)
Definition test_block (round : Round) (author : AuthorityIndex) (digest : BlockDigest)
    (ancestors : list BlockRef) : VerifiedBlock :=
  mk_verified
    (mk_signed (V2 (mk_block_v2 0 round author 0 ancestors [] [] [] [])) []) digest [].

Definition test_block_ts (round : Round) (author : AuthorityIndex) (digest : BlockDigest)
    (ancestors : list BlockRef) (ts : N) : VerifiedBlock :=
  mk_verified
    (mk_signed (V2 (mk_block_v2 0 round author ts ancestors [] [] [] [])) []) digest [].

(** A small configuration: even stakes, [gc_depth] and cache depth given. *)
Definition test_context (n : nat) (gc_depth cached_rounds : N) : Context :=
  mk_context 0 0%nat (test_committee n) cached_rounds
    (mk_protocol_config gc_depth (Some 1) 33 true 1024 16 4096 true true).
