(* ===== verification/ThresholdClock.v ===== *)
(** * Threshold clock (consensus/core/src/threshold_clock.rs)

    The logical clock that tells a validator in which round to propose. The
    state machine is compared with a declarative specification that does not
    depend on the order in which blocks are processed. *)
From S2P Require Import Prelude Committee StakeAggregator Block.

(** [struct ThresholdClock]; [quorum_ts] is the instant of the last quorum. *)
Record ThresholdClock := mk_clock {
  tc_aggregator : StakeAggregator QuorumThreshold;
  tc_round : Round;
  tc_quorum_ts : N;
}.

(** [ThresholdClock::new]. *)
Definition ThresholdClock_new (round : Round) (now : N) : ThresholdClock :=
  mk_clock StakeAggregator_new round now.

(** [ThresholdClock::add_block]; [now] is [Instant::now()]. *)
Definition ThresholdClock_add_block (c : Committee) (clock : ThresholdClock) (block : BlockRef)
    (now : N) : run (ThresholdClock * bool) :=
  match br_round block ?= tc_round clock with
  | Lt => Done (clock, false)
  | Gt =>
      '(agg, _) ← StakeAggregator_add (StakeAggregator_clear (tc_aggregator clock))
                    (br_author block) c;
      Done (mk_clock agg (br_round block) now, false)
  | Eq =>
      '(agg, reached) ← StakeAggregator_add (tc_aggregator clock) (br_author block) c;
      if (reached : bool) then
        Done (mk_clock (StakeAggregator_clear agg) (u32_add (br_round block) 1) now, true)
      else
        _ ← Committee_authority c (br_author block);
        Done (mk_clock agg (tc_round clock) (tc_quorum_ts clock), false)
  end.

(** Processing a sequence of (block, instant) pairs. *)
Definition ThresholdClock_add_blocks (c : Committee) (clock : ThresholdClock)
    (blocks : list (BlockRef * N)) : run ThresholdClock :=
  for_each (λ clock '(b, now), '(clock', _) ← ThresholdClock_add_block c clock b now; Done clock')
    clock blocks.

(** [ThresholdClock::get_round]. *)
Definition ThresholdClock_get_round (clock : ThresholdClock) : Round := tc_round clock.

Lemma ThresholdClock_add_block_Done c clock b now :
  Committee_is_valid_index c (br_author b) →
  ∃ r, ThresholdClock_add_block c clock b now = Done r.
Proof.
  intros Hv. unfold ThresholdClock_add_block. destruct (_ ?= _).
  - destruct (StakeAggregator_add_Done c (tc_aggregator clock) _ Hv) as [[agg []] ->]; simpl; eauto.
    unfold Committee_authority, vec_get, Committee_is_valid_index, Committee_size in *.
    rewrite bool_decide_spec in Hv. apply lookup_lt_is_Some in Hv as [a ->]. simpl. eauto.
  - eauto.
  - destruct (StakeAggregator_add_Done c (StakeAggregator_clear (tc_aggregator clock)) _ Hv)
      as [[agg reached] ->]. simpl. eauto.
Qed.

(** ** Specification *)

(** The distinct authors seen at a round. *)
Definition authors_at (bs : list BlockRef) (r : Round) : gset AuthorityIndex :=
  list_to_set (br_author <$> filter (λ b, br_round b = r) bs).

(** [R] is the round the clock must show after the blocks [bs], starting from
    [r0]: no block is above it, its own round has no quorum yet, and it was
    reached either by a block of that round or by a quorum one round below. *)
Definition clock_round_spec (c : Committee) (r0 : Round) (bs : list BlockRef) (R : Round) : Prop :=
  r0 ≤ R ∧
  (∀ b, b ∈ bs → br_round b ≤ R) ∧
  set_stake c (authors_at bs R) < c_quorum_threshold c ∧
  (R = r0 ∨
   (∃ b, b ∈ bs ∧ br_round b = R) ∨
   (r0 < R ∧ c_quorum_threshold c ≤ set_stake c (authors_at bs (R - 1)))).

Lemma elem_of_authors_at bs r i :
  i ∈ authors_at bs r ↔ ∃ b, b ∈ bs ∧ br_round b = r ∧ br_author b = i.
Proof.
  unfold authors_at. rewrite elem_of_list_to_set, list_elem_of_fmap.
  setoid_rewrite list_elem_of_filter. naive_solver.
Qed.

Lemma authors_at_snoc bs b r :
  authors_at (bs ++ [b]) r =
    if decide (br_round b = r) then {[br_author b]} ∪ authors_at bs r else authors_at bs r.
Proof.
  apply set_eq. intros i. rewrite elem_of_authors_at. setoid_rewrite elem_of_app.
  setoid_rewrite list_elem_of_singleton. case_decide;
    rewrite ?elem_of_union, ?elem_of_singleton, elem_of_authors_at; naive_solver.
Qed.

Lemma authors_at_mono bs b r : authors_at bs r ⊆ authors_at (bs ++ [b]) r.
Proof. rewrite authors_at_snoc. case_decide; set_solver. Qed.

#[global] Instance authors_at_Permutation : Proper ((≡ₚ) ==> (=) ==> (=)) authors_at.
Proof.
  intros bs bs' Hp r ? <-. apply set_eq. intros i. rewrite !elem_of_authors_at.
  by setoid_rewrite Hp.
Qed.

Section clock.
Context (c : Committee) (Hok : committee_ok c).

Lemma authors_at_empty bs r : (∀ b, b ∈ bs → br_round b ≠ r) → set_stake c (authors_at bs r) = 0.
Proof.
  clear Hok. intros Hne. replace (authors_at bs r) with (∅ : gset nat); [apply set_stake_empty|].
  apply set_eq. intros i. rewrite elem_of_authors_at. split; [set_solver|].
  intros (b & ? & ? & ?). by destruct (Hne b).
Qed.

(** The specification determines the round. *)
Lemma clock_round_spec_unique r0 bs R R' :
  clock_round_spec c r0 bs R → clock_round_spec c r0 bs R' → R = R'.
Proof using Hok.
  assert (∀ R R', clock_round_spec c r0 bs R → clock_round_spec c r0 bs R' → ¬ R < R') as Hlt.
  { intros R1 R2 (H1 & Hmax & Hnq & _) (_ & _ & _ & [->|[(b & Hb & <-)|[_ Hq]]]) Hlt; [lia| |].
    - specialize (Hmax b Hb). lia.
    - destruct (decide (R2 - 1 = R1)) as [Heq|Hne]; [rewrite Heq in Hq; lia|].
      pose proof (quorum_pos c Hok).
      rewrite authors_at_empty in Hq; [lia|].
      intros b Hb Heq. specialize (Hmax b Hb). lia. }
  intros H1 H2. pose proof (Hlt _ _ H1 H2). pose proof (Hlt _ _ H2 H1). lia.
Qed.

(** The invariant of the clock: the aggregator holds the distinct authors of
    the blocks of the current round. *)
Definition clock_inv (r0 : Round) (bs : list BlockRef) (clock : ThresholdClock) : Prop :=
  clock_round_spec c r0 bs (tc_round clock) ∧
  agg_ok c (tc_aggregator clock) ∧
  sa_votes (tc_aggregator clock) = authors_at bs (tc_round clock).

Context (Hno_dictator : ∀ i, stake_at c i < c_quorum_threshold c).

Lemma ThresholdClock_add_block_inv r0 bs clock b now :
  clock_inv r0 bs clock → Committee_is_valid_index c (br_author b) → br_round b < u32_max →
  ∃ clock' adv, ThresholdClock_add_block c clock b now = Done (clock', adv) ∧
    clock_inv r0 (bs ++ [b]) clock' ∧ tc_round clock ≤ tc_round clock'.
Proof using Hok Hno_dictator.
  intros ((Hr0 & Hmax & Hnq & Hwhy) & Hagg & Hvotes) Hvalid Hround.
  unfold ThresholdClock_add_block.
  assert (Hmax' : ∀ R, br_round b ≤ R → tc_round clock ≤ R →
                  ∀ b', b' ∈ bs ++ [b] → br_round b' ≤ R).
  { intros R ? ? b' [Hb'| ->%list_elem_of_singleton]%elem_of_app; [|done].
    specialize (Hmax b' Hb'). lia. }
  assert (Hwhy' : tc_round clock = r0 ∨
    (∃ b0, b0 ∈ bs ++ [b] ∧ br_round b0 = tc_round clock) ∨
    (r0 < tc_round clock ∧
       c_quorum_threshold c ≤ set_stake c (authors_at (bs ++ [b]) (tc_round clock - 1)))).
  { destruct Hwhy as [?|[(b0 & ? & ?)|[? Hq]]]; [auto|right; left; exists b0; set_solver|].
    right; right. split; [done|]. etrans; [exact Hq|].
    apply set_stake_mono, authors_at_mono. }
  destruct (N.compare_spec (br_round b) (tc_round clock)) as [Heq|Hlt|Hgt].
  - destruct (StakeAggregator_add_spec c Hok _ (br_author b) Hagg Hvalid)
      as (agg' & -> & Hagg' & Hvotes'). simpl.
    assert (Hau : authors_at (bs ++ [b]) (tc_round clock) =
                  {[br_author b]} ∪ sa_votes (tc_aggregator clock)).
    { by rewrite authors_at_snoc, decide_True, Hvotes. }
    destruct (Committee_reached_quorum _ _) eqn:Hq.
    + eexists _, _. split; [done|]. rewrite u32_add_small by lia.
      apply bool_decide_eq_true_1 in Hq. rewrite <-Hau in Hq.
      split; [|simpl; lia]. split; [|split; [apply agg_ok_new|simpl]].
      * split; [simpl; lia|]. split; [apply Hmax'; simpl; lia|]. split; simpl.
        -- rewrite authors_at_empty; [by apply quorum_pos|].
           intros b' Hb'. pose proof (Hmax' (tc_round clock) ltac:(lia) ltac:(lia) b' Hb'). lia.
        -- right; right. split; [lia|].
           replace (br_round b + 1 - 1) with (tc_round clock) by lia. done.
      * symmetry. apply set_eq. intros i. rewrite elem_of_authors_at.
        split; [|set_solver]. intros (b' & Hb' & Hr & _).
        pose proof (Hmax' (tc_round clock) ltac:(lia) ltac:(lia) b' Hb'). lia.
    + unfold Committee_authority, Committee_is_valid_index, Committee_size in *.
      rewrite bool_decide_spec in Hvalid.
      apply lookup_lt_is_Some in Hvalid as [a Ha]. unfold vec_get. rewrite Ha. simpl.
      eexists _, _. split; [done|]. simpl. split; [|lia].
      split; [|split; [done|simpl; by rewrite Hvotes', Hau]].
      split; [simpl; lia|]. split; [apply Hmax'; simpl; lia|].
      split; [|done]. simpl. rewrite Hau. apply bool_decide_eq_false_1 in Hq. lia.
  - eexists _, _. split; [done|]. split; [|lia].
    split; [|split; [done|by rewrite authors_at_snoc, decide_False by lia]].
    split; [done|]. split; [apply Hmax'; lia|]. split; [|done].
    by rewrite authors_at_snoc, decide_False by lia.
  - destruct (StakeAggregator_add_spec c Hok (StakeAggregator_clear (tc_aggregator clock))
                (br_author b) (agg_ok_new c) Hvalid) as (agg' & -> & Hagg' & Hvotes'). simpl.
    assert (Hau : authors_at (bs ++ [b]) (br_round b) = {[br_author b]}).
    { rewrite authors_at_snoc, decide_True by done. apply set_eq. intros i.
      rewrite elem_of_union, elem_of_authors_at. split; [|by left].
      intros [?|(b' & Hb' & Hr & _)]; [done|]. specialize (Hmax b' Hb'). lia. }
    eexists _, _. split; [done|]. split; [|simpl; lia].
    split; [|split; [done|simpl; rewrite Hvotes', Hau; simpl; set_solver]].
    split; [simpl; lia|]. split; [apply Hmax'; simpl; lia|]. simpl. split.
    + rewrite Hau, set_stake_singleton. apply Hno_dictator.
    + right; left. exists b. set_solver.
Qed.

Lemma ThresholdClock_add_blocks_inv r0 now bs :
  Forall (λ p, Committee_is_valid_index c (br_author p.1) ∧ br_round p.1 < u32_max) bs →
  ∃ clock, ThresholdClock_add_blocks c (ThresholdClock_new r0 now) bs = Done clock ∧
           clock_inv r0 bs.*1 clock.
Proof using Hok Hno_dictator.
  induction bs as [|[b ts] bs IH] using rev_ind; intros Hbs.
  - eexists. split; [done|]. split; [|split; [apply agg_ok_new|done]].
    split; [done|]. split; [set_solver|]. simpl.
    split; [rewrite authors_at_empty by set_solver; by apply quorum_pos|by left].
  - apply Forall_app in Hbs as [Hbs [[Hv Hr] _]%Forall_cons_1].
    destruct (IH Hbs) as (clock & Hrun & Hinv).
    destruct (ThresholdClock_add_block_inv r0 bs.*1 clock b ts Hinv Hv Hr)
      as (clock' & adv & Hadd & Hinv' & _).
    exists clock'. unfold ThresholdClock_add_blocks in *. rewrite for_each_app, Hrun. simpl.
    rewrite Hadd. simpl. by rewrite fmap_app.
Qed.

(** When no single authority is a quorum, the clock never panics and the
    round it shows is the one the specification determines, so it depends
    only on the set of blocks processed: any other order of the same blocks
    leaves the same round. *)
Theorem ThresholdClock_round_spec r0 now bs bs' :
  Forall (λ p, Committee_is_valid_index c (br_author p.1) ∧ br_round p.1 < u32_max) bs →
  bs' ≡ₚ bs →
  ∃ clock clock',
    ThresholdClock_add_blocks c (ThresholdClock_new r0 now) bs = Done clock ∧
    ThresholdClock_add_blocks c (ThresholdClock_new r0 now) bs' = Done clock' ∧
    clock_round_spec c r0 bs.*1 (ThresholdClock_get_round clock) ∧
    ThresholdClock_get_round clock' = ThresholdClock_get_round clock.
Proof using Hok Hno_dictator.
  intros Hbs Hp.
  destruct (ThresholdClock_add_blocks_inv r0 now bs Hbs) as (clock & Hrun & [Hspec _]).
  destruct (ThresholdClock_add_blocks_inv r0 now bs') as (clock' & Hrun' & [Hspec' _]).
  { by rewrite Hp. }
  exists clock, clock'. split; [done|]. split; [done|]. split; [done|].
  unfold ThresholdClock_get_round. eapply clock_round_spec_unique; [|exact Hspec].
  destruct Hspec' as (? & Hm & Hq & Hw). split; [done|].
  assert (Hp' : bs'.*1 ≡ₚ bs.*1) by (by rewrite Hp).
  setoid_rewrite Hp' in Hm. rewrite Hp' in Hq. setoid_rewrite Hp' in Hw. done.
Qed.
End clock.

Lemma ThresholdClock_round_spec_witness :
  ∃ clock clock',
    ThresholdClock_add_blocks (test_committee 4) (ThresholdClock_new 1 0)
      [(mk_ref 1 0%nat 7, 1); (mk_ref 1 1%nat 7, 2); (mk_ref 1 2%nat 7, 3)] = Done clock ∧
    ThresholdClock_add_blocks (test_committee 4) (ThresholdClock_new 1 0)
      [(mk_ref 1 2%nat 7, 3); (mk_ref 1 1%nat 7, 2); (mk_ref 1 0%nat 7, 1)] = Done clock' ∧
    ThresholdClock_get_round clock' = ThresholdClock_get_round clock.
Proof.
  destruct (ThresholdClock_round_spec (test_committee 4) test_committee_ok)
    with (r0 := 1) (now := 0)
         (bs := [(mk_ref 1 0%nat 7, 1); (mk_ref 1 1%nat 7, 2); (mk_ref 1 2%nat 7, 3)])
         (bs' := [(mk_ref 1 2%nat 7, 3); (mk_ref 1 1%nat 7, 2); (mk_ref 1 0%nat 7, 1)])
    as (clock & clock' & H1 & H2 & _ & H4).
  - intros i. do 4 (destruct i as [|i]; [by vm_compute|]). by vm_compute.
  - repeat constructor.
  - apply Permutation_rev.
  - by exists clock, clock'.
Defined.

(** The clock returns [true] only when a quorum of its current round
    advances it by one; a block of a higher round also advances the clock, to
    that block's round, but [add_block] then returns [false]. *)
Theorem ThresholdClock_higher_round_returns_false c clock b now :
  tc_round clock < br_round b → Committee_is_valid_index c (br_author b) →
  ∃ clock', ThresholdClock_add_block c clock b now = Done (clock', false) ∧
            ThresholdClock_get_round clock' = br_round b ∧
            ThresholdClock_get_round clock < ThresholdClock_get_round clock'.
Proof.
  intros Hlt Hv. unfold ThresholdClock_add_block, StakeAggregator_add, StakeAggregator_clear.
  rewrite (proj2 (N.compare_gt_iff _ _)) by lia. simpl.
  rewrite decide_False by set_solver. rewrite Committee_stake_Done by done. simpl.
  by eexists.
Qed.

Lemma ThresholdClock_higher_round_returns_false_witness :
  ∃ clock', ThresholdClock_add_block (test_committee 4) (ThresholdClock_new 1 0)
              (mk_ref 5 0%nat 7) 9 = Done (clock', false) ∧
            ThresholdClock_get_round clock' = 5 ∧ 1 < ThresholdClock_get_round clock'.
Proof.
  exact (ThresholdClock_higher_round_returns_false (test_committee 4) (ThresholdClock_new 1 0)
           (mk_ref 5 0%nat 7) 9 eq_refl I).
Defined.
