(* ===== verification/Commit.v ===== *)
(** * Commits (consensus/core/src/commit.rs, consensus/core/src/error.rs)

    Commits and committed sub-dags, the order of the blocks of a sub-dag, the
    outcome of the commit rules for a leader slot, and ranges of commit
    indices. *)
From S2P Require Import Prelude Committee Block.

Definition GENESIS_COMMIT_INDEX : CommitIndex := 0.
Definition MINIMUM_WAVE_LENGTH : Round := 3.
Definition DEFAULT_WAVE_LENGTH : Round := MINIMUM_WAVE_LENGTH.
Definition CommitDigest_MIN : CommitDigest := 0.
Definition CommitDigest_MAX : CommitDigest := 2 ^ 256 - 1.

(** [struct CommitV1], [enum Commit]. *)
Record CommitV1 := mk_commit_v1 {
  cv1_index : CommitIndex;
  cv1_previous_digest : CommitDigest;
  cv1_timestamp_ms : BlockTimestampMs;
  cv1_leader : BlockRef;
  cv1_blocks : list BlockRef;
}.
Inductive Commit := CommitV1_ (c : CommitV1).

(** [Commit::new]. *)
Definition Commit_new (index : CommitIndex) (previous_digest : CommitDigest)
    (timestamp_ms : BlockTimestampMs) (leader : BlockRef) (blocks : list BlockRef) : Commit :=
  CommitV1_ (mk_commit_v1 index previous_digest timestamp_ms leader blocks).

(** [trait CommitAPI]. *)
Definition commit_index (c : Commit) : CommitIndex := let 'CommitV1_ c := c in cv1_index c.
Definition commit_previous_digest (c : Commit) : CommitDigest :=
  let 'CommitV1_ c := c in cv1_previous_digest c.
Definition commit_timestamp_ms (c : Commit) : BlockTimestampMs :=
  let 'CommitV1_ c := c in cv1_timestamp_ms c.
Definition commit_leader (c : Commit) : BlockRef := let 'CommitV1_ c := c in cv1_leader c.
Definition commit_blocks (c : Commit) : list BlockRef := let 'CommitV1_ c := c in cv1_blocks c.
Definition commit_round (c : Commit) : Round := br_round (commit_leader c).

(** [struct TrustedCommit]. *)
Record TrustedCommit := mk_trusted {
  tcm_inner : Commit;
  tcm_digest : CommitDigest;
  tcm_serialized : bytes;
}.

(** Accessors through [Deref]. *)
Definition tc_index (t : TrustedCommit) : CommitIndex := commit_index (tcm_inner t).
Definition tc_timestamp_ms (t : TrustedCommit) : BlockTimestampMs := commit_timestamp_ms (tcm_inner t).
Definition tc_leader (t : TrustedCommit) : BlockRef := commit_leader (tcm_inner t).
Definition tc_blocks (t : TrustedCommit) : list BlockRef := commit_blocks (tcm_inner t).
Definition tc_commit_round (t : TrustedCommit) : Round := commit_round (tcm_inner t).

(** [TrustedCommit::reference]. *)
Definition TrustedCommit_reference (t : TrustedCommit) : CommitRef :=
  mk_commit_ref (tc_index t) (tcm_digest t).

(** Serialization and hashing of commits (bcs, fastcrypto). *)
Class CommitCodec := {
  bcs_commit_to_bytes : Commit → option bytes;
  bcs_commit_from_bytes : bytes → option Commit;
  commit_hash : bytes → CommitDigest;
}.

(** [TrustedCommit::new_trusted]. *)
Definition TrustedCommit_new_trusted `{CommitCodec} (c : Commit) (serialized : bytes) : TrustedCommit :=
  mk_trusted c (commit_hash serialized) serialized.

(** [struct CommittedSubDag]. *)
Record CommittedSubDag := mk_subdag {
  sd_leader : BlockRef;
  sd_blocks : list VerifiedBlock;
  sd_timestamp_ms : BlockTimestampMs;
  sd_commit_ref : CommitRef;
  sd_local : bool;
  sd_reputation_scores_desc : list (AuthorityIndex * N);
  sd_rejected_transactions_by_block : gmap BlockRef (list TransactionIndex);
}.

(** [CommittedSubDag::new]. *)
Definition CommittedSubDag_new (leader : BlockRef) (blocks : list VerifiedBlock)
    (timestamp_ms : BlockTimestampMs) (commit_ref : CommitRef) : CommittedSubDag :=
  mk_subdag leader blocks timestamp_ms commit_ref true [] ∅.

(** [sort_sub_dag_blocks]: by round, then by authority index. *)
Definition sub_dag_le : VerifiedBlock → VerifiedBlock → bool :=
  by_keys vb_round (λ b, N.of_nat (vb_author b)).
Definition sort_sub_dag_blocks (blocks : list VerifiedBlock) : list VerifiedBlock :=
  sort_by sub_dag_le blocks.

(** [enum Decision]. *)
Inductive Decision := Direct | Indirect | Certified.

#[global] Instance Decision_eq_dec : EqDecision Decision.
Proof. solve_decision. Defined.

(** [enum LeaderStatus]. *)
Inductive LeaderStatus :=
| LCommit (b : VerifiedBlock)
| LSkip (s : Slot)
| LUndecided (s : Slot).

(** [LeaderStatus::round]. *)
Definition LeaderStatus_round (st : LeaderStatus) : Round :=
  match st with
  | LCommit b => vb_round b
  | LSkip s | LUndecided s => s_round s
  end.

(** [LeaderStatus::is_decided]. *)
Definition LeaderStatus_is_decided (st : LeaderStatus) : bool :=
  match st with LCommit _ | LSkip _ => true | LUndecided _ => false end.

(** [enum DecidedLeader]. *)
Inductive DecidedLeader :=
| DCommit (b : VerifiedBlock) (direct : bool)
| DSkip (s : Slot).

(** [LeaderStatus::into_decided_leader]. *)
Definition LeaderStatus_into_decided_leader (st : LeaderStatus) (direct : bool)
    : option DecidedLeader :=
  match st with
  | LCommit b => Some (DCommit b direct)
  | LSkip s => Some (DSkip s)
  | LUndecided _ => None
  end.

(** [DecidedLeader::slot]. *)
Definition DecidedLeader_slot (d : DecidedLeader) : Slot :=
  match d with DCommit b _ => Slot_from (vb_reference b) | DSkip s => s end.

(** [DecidedLeader::into_committed_block]. *)
Definition DecidedLeader_into_committed_block (d : DecidedLeader) : option VerifiedBlock :=
  match d with DCommit b _ => Some b | DSkip _ => None end.

(** The slot a status is about. *)
Definition LeaderStatus_slot (st : LeaderStatus) : Slot :=
  match st with
  | LCommit b => Slot_from (vb_reference b)
  | LSkip s | LUndecided s => s
  end.

(** [struct CommitRange]: a half-open [Range<CommitIndex>]. *)
Record CommitRange := mk_range { rg_start : CommitIndex; rg_end : CommitIndex }.

#[global] Instance CommitRange_eq_dec : EqDecision CommitRange.
Proof. solve_decision. Defined.

(** [CommitRange::default]. *)
Definition CommitRange_default : CommitRange := mk_range 0 0.

(** [CommitRange::new] of the inclusive range [first..=last]. *)
Definition CommitRange_new (first last : CommitIndex) : CommitRange :=
  mk_range first (u32_saturating_add last 1).

(** [CommitRange::start], [CommitRange::end], both inclusive. *)
Definition CommitRange_start (r : CommitRange) : CommitIndex := rg_start r.
Definition CommitRange_end (r : CommitRange) : CommitIndex := saturating_sub (rg_end r) 1.

(** [CommitRange::extend_to]: panics when the range would shrink. *)
Definition CommitRange_extend_to (r : CommitRange) (other : CommitIndex) : run CommitRange :=
  let new_end := u32_saturating_add other 1 in
  assert! bool_decide (rg_end r ≤ new_end);
  Done (mk_range (rg_start r) new_end).

(** [CommitRange::size]: panics when the end is before the start. *)
Definition CommitRange_size (r : CommitRange) : run N :=
  expect (checked_sub (rg_end r) (rg_start r)).

(** [CommitRange::is_equal_size]. *)
Definition CommitRange_is_equal_size (r other : CommitRange) : run bool :=
  a ← CommitRange_size r; b ← CommitRange_size other; Done (bool_decide (a = b)).

(** [CommitRange::is_next_range]. *)
Definition CommitRange_is_next_range (r other : CommitRange) : bool :=
  bool_decide (rg_end r = rg_start other).

(** [Ord for CommitRange]. *)
Definition CommitRange_cmp (r other : CommitRange) : comparison :=
  match CommitRange_start r ?= CommitRange_start other with
  | Eq => CommitRange_end r ?= CommitRange_end other
  | o => o
  end.

(** [enum ConsensusError]; messages of external errors are strings. *)
Inductive ConsensusError :=
| MalformedBlock (e : string)
| MalformedCommit (e : string)
| SerializationFailure (e : string)
| TransactionTooLarge (size limit : N)
| TooManyTransactions (count limit : N)
| TooManyTransactionBytes (size limit : N)
| UnexpectedAuthority (a b : AuthorityIndex)
| WrongEpoch (expected actual : Epoch)
| UnexpectedGenesisBlock
| UnexpectedGenesisBlockRequested
| UnexpectedNumberOfBlocksFetched (authority : AuthorityIndex) (requested received : N)
| UnexpectedFetchedBlock (index : AuthorityIndex) (block_ref : BlockRef)
| UnexpectedLastOwnBlock (index : AuthorityIndex) (block_ref : BlockRef)
| TooManyFetchedBlocksReturned (a : AuthorityIndex)
| TooManyAuthoritiesProvided (a : AuthorityIndex)
| InvalidSizeOfHighestAcceptedRounds (got expected : N)
| InvalidAuthorityIndex (index : AuthorityIndex) (max : N)
| MalformedSignature (e : string)
| SignatureVerificationFailure (e : string)
| SynchronizerSaturated (a : AuthorityIndex)
| BlockRejected (block_ref : BlockRef) (reason : string)
| InvalidAncestorPosition (block_authority ancestor_authority : AuthorityIndex) (position : N)
| InvalidAncestorRound (ancestor block : Round)
| InvalidGenesisAncestor (r : BlockRef)
| TooManyAncestors (got limit : N)
| DuplicatedAncestorsAuthority (a : AuthorityIndex)
| InsufficientParentStakes (parent_stakes quorum : Stake)
| InvalidTransaction (e : string)
| NoCommitReceived (peer : AuthorityIndex)
| UnexpectedStartCommit (peer : AuthorityIndex) (start : CommitIndex) (commit : Commit)
| UnexpectedCommitSequence (peer : AuthorityIndex) (prev_commit curr_commit : Commit)
| NotEnoughCommitVotes (stake : Stake) (peer : AuthorityIndex) (commit : Commit)
| UnexpectedBlockForCommit (peer : AuthorityIndex) (requested received : BlockRef)
| UnexpectedCertifiedCommitIndex (expected_commit_index commit_index : CommitIndex)
| RocksDBFailure (e : string)
| UnknownNetworkPeer (e : string)
| PeerDisconnected (e : string)
| NetworkConfig (e : string)
| NetworkClientConnection (e : string)
| NetworkRequest (e : string)
| NetworkRequestTimeout (e : string)
| Shutdown.

(** [ConsensusResult<T>]. *)
Inductive ConsensusResult (A : Type) := ROk (a : A) | RErr (e : ConsensusError).
Arguments ROk {_} _.
Arguments RErr {_} _.

(** The [?] operator. *)
#[global] Instance ConsensusResult_ret : MRet ConsensusResult := λ A a, ROk a.
#[global] Instance ConsensusResult_bind : MBind ConsensusResult := λ A B f m,
  match m with ROk a => f a | RErr e => RErr e end.

Lemma result_bind_ROk {A B} (f : A → ConsensusResult B) m b :
  m ≫= f = ROk b ↔ ∃ a, m = ROk a ∧ f a = ROk b.
Proof. destruct m; simpl; split; [by eauto| |done|]; by intros (? & [=] & ?); subst. Qed.

(** The [ensure!] macro. *)
Definition ensure (cond : bool) (e : ConsensusError) : ConsensusResult unit :=
  if cond then ROk tt else RErr e.

(** Functions that return a [ConsensusResult] and can also panic. *)
Definition fallible (A : Type) : Type := run (ConsensusResult A).

#[global] Instance fallible_bind : MBind fallible := λ A B f m,
  match m with
  | Done (ROk a) => f a
  | Done (RErr e) => Done (RErr e)
  | Panic => Panic
  | NoFuel => NoFuel
  end.

Definition f_ok {A} (a : A) : fallible A := Done (ROk a).
Definition f_err {A} (e : ConsensusError) : fallible A := Done (RErr e).
Definition f_run {A} (m : run A) : fallible A := a ← m; Done (ROk a).

(** [unwrap_or_else(|e| panic!(..))] and [expect] on a result. *)
Definition unwrap_result {A} (m : fallible A) : run A :=
  match m with
  | Done (ROk a) => Done a
  | Done (RErr _) => Panic
  | Panic => Panic
  | NoFuel => NoFuel
  end.

(** ** Ranges *)

(** A range built from inclusive bounds gives them back, its size counts
    its indices, extending it to a later index keeps the start and reaches that
    index, and the next range is the one that starts right after it. *)
Theorem CommitRange_spec first last later next_first next_last :
  first ≤ last → last ≤ later → later < u32_max → next_first ≤ next_last → next_last < u32_max →
  let r := CommitRange_new first last in
  CommitRange_start r = first ∧ CommitRange_end r = last ∧
  CommitRange_size r = Done (last - first + 1) ∧
  CommitRange_extend_to r later = Done (CommitRange_new first later) ∧
  (CommitRange_is_next_range r (CommitRange_new next_first next_last) ↔ next_first = last + 1).
Proof.
  intros H1 H2 H3 H4 H5. unfold CommitRange_new, CommitRange_start, CommitRange_end,
    CommitRange_size, CommitRange_extend_to, CommitRange_is_next_range, checked_sub,
    saturating_sub, u32_saturating_add in *; simpl.
  rewrite !N.min_l by lia.
  split; [done|]. split; [lia|]. split; [rewrite decide_True by lia; simpl; f_equal; lia|].
  split; [by rewrite bool_decide_eq_true_2 by lia|].
  rewrite bool_decide_spec. lia.
Qed.

Lemma CommitRange_spec_witness :
  CommitRange_size (CommitRange_new 3 5) = Done 3 ∧
  CommitRange_is_next_range (CommitRange_new 3 5) (CommitRange_new 6 8).
Proof.
  destruct (CommitRange_spec 3 5 7 6 8 ltac:(done) ltac:(done) ltac:(done) ltac:(done) ltac:(done))
    as (_ & _ & Hs & _ & Hn).
  split; [exact Hs|]. apply Hn. reflexivity.
Defined.

(** ** Order of the blocks of a sub-dag *)

Lemma sort_sub_dag_blocks_Permutation bs : sort_sub_dag_blocks bs ≡ₚ bs.
Proof. apply sort_by_Permutation. Qed.

Lemma sort_sub_dag_blocks_sorted bs :
  StronglySorted (λ a b, vb_round a ≤ vb_round b) (sort_sub_dag_blocks bs).
Proof.
  eapply StronglySorted_weaken; [|apply sort_by_sorted, _].
  intros a b. unfold sub_dag_le, by_keys. rewrite bool_decide_spec. lia.
Qed.
