(* ===== verification/LeaderScoring.v ===== *)
(** * Leader scoring (consensus/core/src/leader_scoring.rs)

    Reputation scores of the authorities, computed from the committed sub-dags
    since the last leader schedule change: every vote for a committed leader
    scores the stake of the distinct authorities that include the vote. *)
From S2P Require Import Prelude Committee StakeAggregator Block Commit.

(** [struct ReputationScores]. *)
Record ReputationScores := mk_scores {
  rs_scores_per_authority : list N;
  rs_commit_range : CommitRange;
}.

(** [ReputationScores::default]. *)
Definition ReputationScores_default : ReputationScores := mk_scores [] CommitRange_default.

(** [ReputationScores::highest_score]. *)
Definition ReputationScores_highest_score (s : ReputationScores) : N :=
  foldr N.max 0 (rs_scores_per_authority s).

(** [ReputationScores::authorities_by_score]: panics when there are more
    scores than authorities. *)
Definition ReputationScores_authorities_by_score (s : ReputationScores) (c : Committee)
    : run (list (AuthorityIndex * N)) :=
  map_run (λ '(index, score),
    i ← expect (Committee_to_authority_index c index); Done (i, score))
    (imap pair (rs_scores_per_authority s)).

(** [struct CommitInfo] (commit.rs). *)
Record CommitInfo := mk_commit_info {
  ci_committed_rounds : list Round;
  ci_reputation_scores : ReputationScores;
}.

(** [struct ScoringSubdag]. *)
Record ScoringSubdag := mk_scoring {
  ss_commit_range : option CommitRange;
  ss_leaders : gset BlockRef;
  ss_votes : gmap BlockRef (StakeAggregator QuorumThreshold);
}.

(** [ScoringSubdag::new]. *)
Definition ScoringSubdag_new : ScoringSubdag := mk_scoring None ∅ ∅.

(** The body of the innermost loop of [add_subdags]: one ancestor of a block. *)
Definition ScoringSubdag_add_link (c : Committee) (block : VerifiedBlock) (s : ScoringSubdag)
    (ancestor : BlockRef) : run ScoringSubdag :=
  if negb (bool_decide (br_round ancestor = saturating_sub (vb_round block) 1)) then Done s
  else
    s ← (if decide (ancestor ∈ ss_leaders s) then
           assert! bool_decide (ss_votes s !! vb_reference block = None);
           Done (mk_scoring (ss_commit_range s) (ss_leaders s)
                   (<[vb_reference block := StakeAggregator_new]> (ss_votes s)))
         else Done s);
    match ss_votes s !! ancestor with
    | Some stake =>
        '(stake', _) ← StakeAggregator_add stake (vb_author block) c;
        Done (mk_scoring (ss_commit_range s) (ss_leaders s) (<[ancestor := stake']> (ss_votes s)))
    | None => Done s
    end.

(** The body of the outer loop: one committed sub-dag. *)
Definition ScoringSubdag_add_subdag (c : Committee) (s : ScoringSubdag) (subdag : CommittedSubDag)
    : run ScoringSubdag :=
  let index := cr_index (sd_commit_ref subdag) in
  range ← match ss_commit_range s with
          | None => Done (CommitRange_new index index)
          | Some r => CommitRange_extend_to r index
          end;
  let s := mk_scoring (Some range) ({[sd_leader subdag]} ∪ ss_leaders s) (ss_votes s) in
  for_each (λ s block, for_each (ScoringSubdag_add_link c block) s (vb_ancestors block))
    s (sd_blocks subdag).

(** [ScoringSubdag::add_subdags]. *)
Definition ScoringSubdag_add_subdags (c : Committee) (s : ScoringSubdag)
    (committed_subdags : list CommittedSubDag) : run ScoringSubdag :=
  for_each (ScoringSubdag_add_subdag c) s committed_subdags.

(** [ScoringSubdag::distributed_votes_scores]. *)
Definition ScoringSubdag_distributed_votes_scores (c : Committee) (s : ScoringSubdag)
    : run (list N) :=
  for_each (λ scores '(vote, stake_agg),
      x ← vec_get scores (br_author vote);
      vec_set scores (br_author vote) (u64_add x (sa_stake stake_agg)))
    (replicate (Committee_size c) 0) (map_list (ss_votes s)).

(** [ScoringSubdag::calculate_distributed_vote_scores]. *)
Definition ScoringSubdag_calculate_distributed_vote_scores (c : Committee) (s : ScoringSubdag)
    : run ReputationScores :=
  scores ← ScoringSubdag_distributed_votes_scores c s;
  range ← expect (ss_commit_range s);
  Done (mk_scores scores range).

(** [ScoringSubdag::scored_subdags_count]. *)
Definition ScoringSubdag_scored_subdags_count (s : ScoringSubdag) : run N :=
  match ss_commit_range s with Some r => CommitRange_size r | None => Done 0 end.

(** [ScoringSubdag::is_empty]. *)
Definition ScoringSubdag_is_empty (s : ScoringSubdag) : bool :=
  bool_decide (ss_leaders s = ∅) && bool_decide (dom (ss_votes s) = ∅)
    && bool_decide (ss_commit_range s = None).

(** [ScoringSubdag::clear]. *)
Definition ScoringSubdag_clear (s : ScoringSubdag) : ScoringSubdag := mk_scoring None ∅ ∅.

(** ** Lemmas *)

(** Accumulating weights into the entry of an authority. *)
Lemma bump_spec {A} (author : A → nat) (weight : A → N) (n : nat) l :
  Forall (λ x, author x < n)%nat l → sumN (weight <$> l) ≤ u64_max →
  ∃ scores,
    for_each (λ scores x,
        y ← vec_get scores (author x); vec_set scores (author x) (u64_add y (weight x)))
      (replicate n 0) l = Done scores ∧
    length scores = n ∧
    ∀ i, (i < n)%nat →
      scores !! i = Some (sumN (weight <$> filter (λ x, author x = i) l)).
Proof.
  induction l as [|x l IH] using rev_ind; intros Hl Hsum.
  - exists (replicate n 0). split; [done|]. split; [by rewrite length_replicate|].
    intros i Hi. rewrite filter_nil. by apply lookup_replicate_2.
  - apply Forall_app in Hl as [Hl [Hx _]%Forall_cons_1].
    rewrite fmap_app, sumN_app in Hsum. simpl in Hsum.
    destruct IH as (scores & Hrun & Hlen & Hs); [done|lia|].
    rewrite for_each_app, Hrun. simpl.
    unfold vec_get. rewrite (Hs _ Hx). simpl. unfold vec_set. rewrite decide_True by lia. simpl.
    eexists. split; [done|]. rewrite length_insert. split; [done|].
    intros i Hi. rewrite filter_app, fmap_app, sumN_app, filter_cons, filter_nil.
    assert (∀ j, sumN (weight <$> filter (λ x, author x = j) l) ≤ sumN (weight <$> l)) as Hle.
    { intros j. apply sumN_submseteq, fmap_submseteq, sublist_submseteq, sublist_filter. }
    destruct (decide (author x = i)) as [<-|Hne].
    + rewrite list_lookup_insert_eq by lia. f_equal. simpl.
      specialize (Hle (author x)). rewrite u64_add_small by lia. lia.
    + rewrite list_lookup_insert_ne by done. rewrite Hs by done. f_equal. simpl. lia.
Qed.

Section scoring.
Context (c : Committee) (Hok : committee_ok c).

(** Every aggregator of the scoring state is sound. *)
Definition scoring_inv (s : ScoringSubdag) : Prop :=
  map_Forall (λ v agg, agg_ok c agg ∧ Committee_is_valid_index c (br_author v)) (ss_votes s).

Lemma ScoringSubdag_add_link_inv block s ancestor s' :
  Committee_is_valid_index c (vb_author block) → scoring_inv s →
  ScoringSubdag_add_link c block s ancestor = Done s' →
  scoring_inv s' ∧ ss_commit_range s' = ss_commit_range s ∧ ss_leaders s' = ss_leaders s.
Proof using Hok.
  intros Hv Hinv. unfold ScoringSubdag_add_link.
  destruct (negb _); [by intros [= <-]|]. intros (s1 & Hs1 & H)%bind_Done.
  assert (scoring_inv s1 ∧ ss_commit_range s1 = ss_commit_range s ∧
          ss_leaders s1 = ss_leaders s) as (Hinv1 & <- & <-).
  { case_decide; [|by simplify_eq]. case_bool_decide; simplify_eq/=.
    split; [|done]. apply map_Forall_insert_2; [|done].
    split; [apply agg_ok_new|done]. }
  destruct (ss_votes s1 !! ancestor) as [agg|] eqn:Hagg; [|by simplify_eq].
  apply bind_Done in H as ([agg' b] & Hadd & [= <-]). split; [|done].
  destruct (Hinv1 _ _ Hagg) as [Hok1 Hv1].
  apply map_Forall_insert_2; [|done]. split; [|done].
  by apply (StakeAggregator_add_inv c Hok) in Hadd as (_ & ? & _).
Qed.

Lemma ScoringSubdag_add_subdag_inv s subdag s' :
  Forall (λ b, Committee_is_valid_index c (vb_author b)) (sd_blocks subdag) →
  scoring_inv s → ScoringSubdag_add_subdag c s subdag = Done s' →
  scoring_inv s' ∧
  Done (ss_commit_range s') =
    (r ← (match ss_commit_range s with
          | None => Done (CommitRange_new (cr_index (sd_commit_ref subdag))
                            (cr_index (sd_commit_ref subdag)))
          | Some r => CommitRange_extend_to r (cr_index (sd_commit_ref subdag)) end);
     Done (Some r)) ∧
  ss_leaders s' = {[sd_leader subdag]} ∪ ss_leaders s.
Proof using Hok.
  intros Hvalid Hinv. unfold ScoringSubdag_add_subdag. intros H. run_inv. rewrite Hrun. simpl.
  rewrite Forall_forall in Hvalid.
  set (P := λ (_ : list VerifiedBlock) s1, scoring_inv s1 ∧ ss_commit_range s1 = Some x ∧
              ss_leaders s1 = {[sd_leader subdag]} ∪ ss_leaders s).
  assert (P (sd_blocks subdag) s') as (? & -> & ->); [|done].
  eapply for_each_ind; [..|exact H]; [done|].
  intros dn block rest s1 s2 Hl (Hi & Hr & Hld) Hs2.
  assert (Hb : Committee_is_valid_index c (vb_author block)) by (by eapply Hvalid, elem_of_middle).
  eapply (for_each_ind (λ _, P [])); [..|exact Hs2]; [done|].
  intros dn' a rest' s3 s4 _ (Hi3 & Hr3 & Hld3) Hs4.
  apply ScoringSubdag_add_link_inv in Hs4 as (? & Hr4 & Hl4); [|done..].
  split; [done|]. by rewrite Hr4, Hl4.
Qed.

(** Adding sub-dags with consecutive commit indices to an empty scoring
    state counts exactly the sub-dags added, which is what decides when the
    leader schedule changes. *)
Theorem ScoringSubdag_count subdags first s :
  Forall (λ sd, Forall (λ b, Committee_is_valid_index c (vb_author b)) (sd_blocks sd)) subdags →
  (∀ k sd, subdags !! k = Some sd → cr_index (sd_commit_ref sd) = first + N.of_nat k) →
  first + N.of_nat (length subdags) < u32_max →
  ScoringSubdag_add_subdags c ScoringSubdag_new subdags = Done s →
  ScoringSubdag_scored_subdags_count s = Done (N.of_nat (length subdags)).
Proof using Hok.
  intros Hvalid Hidx Hb Hrun. rewrite Forall_forall in Hvalid.
  set (P := λ (dn : list CommittedSubDag) s, scoring_inv s ∧
    ss_commit_range s = match dn with [] => None
                        | _ => Some (CommitRange_new first (first + N.of_nat (length dn) - 1)) end).
  assert (P subdags s) as [_ Hr].
  { eapply for_each_ind; [..|exact Hrun]; [done|].
    intros dn sd rest s1 s2 Hl (Hi & Hr) Hs2.
    assert (Hsd : cr_index (sd_commit_ref sd) = first + N.of_nat (length dn)).
    { apply Hidx. rewrite Hl. apply list_lookup_middle. done. }
    assert (length subdags = length dn + S (length rest))%nat as Hlen
      by (by rewrite Hl, length_app).
    apply ScoringSubdag_add_subdag_inv in Hs2 as (Hi2 & Hr2 & _); [|by eapply Hvalid, elem_of_middle|done].
    split; [done|]. rewrite Hr in Hr2. destruct dn as [|d dn].
    - simpl in *. injection Hr2 as ->. rewrite Hsd. do 2 f_equal; lia.
    - simpl in Hr2. unfold CommitRange_extend_to in Hr2. simpl in Hr2.
      rewrite Hsd in Hr2. simpl length in *.
      unfold u32_saturating_add in Hr2. rewrite !N.min_l in Hr2 by lia.
      rewrite bool_decide_eq_true_2 in Hr2 by lia. injection Hr2 as ->. simpl.
      unfold CommitRange_new, u32_saturating_add. rewrite length_app. simpl.
      rewrite N.min_l by lia. do 2 f_equal. lia. }
  unfold ScoringSubdag_scored_subdags_count. rewrite Hr.
  destruct subdags as [|sd sds]; [done|]. unfold CommitRange_size, CommitRange_new, checked_sub,
    u32_saturating_add. simpl. simpl in Hb.
  rewrite N.min_l by lia. rewrite decide_True by lia. simpl. f_equal. lia.
Qed.

(** The score of an authority is the sum, over its votes, of the stake of
    the distinct authorities that included the vote. *)
Theorem ScoringSubdag_scores_spec s :
  scoring_inv s →
  sumN ((λ p, sa_stake p.2) <$> map_list (ss_votes s)) ≤ u64_max →
  ∃ scores, ScoringSubdag_distributed_votes_scores c s = Done scores ∧
    length scores = Committee_size c ∧
    ∀ i, (i < Committee_size c)%nat →
      scores !! i = Some (sumN ((λ p, set_stake c (sa_votes p.2)) <$>
        filter (λ p, br_author p.1 = i) (map_list (ss_votes s)))).
Proof using Hok.
  intros Hinv Hsum.
  assert (Hin : ∀ p, p ∈ map_list (ss_votes s) →
            agg_ok c p.2 ∧ Committee_is_valid_index c (br_author p.1)).
  { intros [v agg] Hp%elem_of_map_list. exact (Hinv _ _ Hp). }
  destruct (bump_spec (λ p, br_author p.1) (λ p, sa_stake p.2) (Committee_size c)
              (map_list (ss_votes s))) as (scores & Hrun & Hlen & Hs); [|done|].
  { apply Forall_forall. intros p Hp. apply Hin in Hp as [_ Hv].
    unfold Committee_is_valid_index in Hv. by rewrite bool_decide_spec in Hv. }
  exists scores. split; [|split; [done|]].
  - rewrite <-Hrun. unfold ScoringSubdag_distributed_votes_scores.
    apply for_each_ext. by intros ? [].
  - intros i Hi. rewrite (Hs i Hi). do 2 f_equal. apply list_fmap_ext.
    intros k p Hp%list_elem_of_lookup_2%list_elem_of_filter.
    by destruct (Hin p) as [[? _] _]; [apply Hp|].
Qed.
End scoring.

(** ** A concrete run: four authorities, a leader of round 1 voted by three
    blocks of round 2, the votes included by two blocks of round 3. *)

Definition score_test_leader : VerifiedBlock := test_block 1 0%nat 10 [].
Definition score_test_votes : list VerifiedBlock :=
  (λ a, test_block 2 a (20 + N.of_nat a) [vb_reference score_test_leader]) <$> [0; 1; 2]%nat.
Definition score_test_includes : list VerifiedBlock :=
  (λ a, test_block 3 a (30 + N.of_nat a) (vb_reference <$> score_test_votes)) <$> [1; 3]%nat.
Definition score_test_subdags : list CommittedSubDag :=
  [ mk_subdag (vb_reference score_test_leader) [score_test_leader] 0 (mk_commit_ref 7 0) true [] ∅;
    mk_subdag (mk_ref 3 3%nat 33) (score_test_votes ++ score_test_includes) 0
      (mk_commit_ref 8 0) true [] ∅ ].
Definition score_test_state : ScoringSubdag :=
  match ScoringSubdag_add_subdags (test_committee 4) ScoringSubdag_new score_test_subdags with
  | Done s => s | _ => ScoringSubdag_new end.

Lemma ScoringSubdag_count_witness :
  ScoringSubdag_scored_subdags_count score_test_state = Done 2.
Proof.
  apply (ScoringSubdag_count (test_committee 4) ltac:(by apply test_committee_ok)
           score_test_subdags 7).
  - repeat constructor.
  - intros [|[|k]] sd; intros [= <-]; done.
  - done.
  - vm_compute. reflexivity.
Defined.

Lemma ScoringSubdag_scores_spec_witness :
  ScoringSubdag_distributed_votes_scores (test_committee 4) score_test_state = Done [2; 2; 2; 0].
Proof.
  destruct (ScoringSubdag_scores_spec (test_committee 4) ltac:(by apply test_committee_ok)
              score_test_state) as (scores & Hrun & _).
  - apply (bool_decide_unpack _). vm_compute. exact I.
  - done.
  - rewrite Hrun. vm_compute in Hrun. by rewrite <-Hrun.
Defined.
