(* ===== verification/Store.v ===== *)
(** * Persistent storage (consensus/core/src/storage)

    The [Store] interface of consensus, the RocksDB implementation, and the
    abstract contents ([StoreView]) that the implementation refines. The other
    components are verified against [StoreLaws] only. *)
From S2P Require Import Prelude Committee StakeAggregator Block Commit LeaderScoring.
From Stdlib Require Import Strings.Byte.

(** [struct WriteBatch]. *)
Record WriteBatch := mk_batch {
  wb_blocks : list VerifiedBlock;
  wb_commits : list TrustedCommit;
  wb_commit_info : list (CommitRef * CommitInfo);
}.

(** [trait Store]. *)
Class Store (S : Type) := {
  store_write : S → WriteBatch → fallible S;
  store_read_blocks : S → list BlockRef → fallible (list (option VerifiedBlock));
  store_contains_blocks : S → list BlockRef → fallible (list bool);
  store_scan_blocks_by_author : S → AuthorityIndex → Round → fallible (list VerifiedBlock);
  store_scan_last_blocks_by_author :
    S → AuthorityIndex → N → option Round → fallible (list VerifiedBlock);
  store_read_last_commit : S → fallible (option TrustedCommit);
  store_scan_commits : S → CommitRange → fallible (list TrustedCommit);
  store_read_commit_votes : S → CommitIndex → fallible (list BlockRef);
  store_read_last_commit_info : S → fallible (option (CommitRef * CommitInfo));
}.

(** ** RocksDB

    Tables are ordered maps; [db_error] is the error every database call
    returns, if the database fails. *)
Record RocksDBStore := mk_rocksdb {
  db_blocks : gmap BlockRef bytes;
  db_digests_by_authorities : gset (AuthorityIndex * (Round * BlockDigest));
  db_commits : gmap (CommitIndex * CommitDigest) bytes;
  db_commit_votes : gset (CommitIndex * (CommitDigest * BlockRef));
  db_commit_info : gmap (CommitIndex * CommitDigest) CommitInfo;
  db_error : option string;
}.

Definition db_call {A} (s : RocksDBStore) (a : A) : fallible A :=
  match db_error s with Some e => f_err (RocksDBFailure e) | None => f_ok a end.

(** The rows one block adds to a batch. *)
Definition RocksDB_batch_block (s : RocksDBStore) (block : VerifiedBlock) : RocksDBStore :=
  let block_ref := vb_reference block in
  mk_rocksdb
    (<[block_ref := vb_serialized block]> (db_blocks s))
    ({[(br_author block_ref, (br_round block_ref, br_digest block_ref))]}
       ∪ db_digests_by_authorities s)
    (db_commits s)
    (foldl (λ votes vote, {[(cr_index vote, (cr_digest vote, block_ref))]} ∪ votes)
       (db_commit_votes s) (block_commit_votes (vb_block block)))
    (db_commit_info s) (db_error s).

Definition RocksDB_batch_commit (s : RocksDBStore) (commit : TrustedCommit) : RocksDBStore :=
  mk_rocksdb (db_blocks s) (db_digests_by_authorities s)
    (<[(tc_index commit, tcm_digest commit) := tcm_serialized commit]> (db_commits s))
    (db_commit_votes s) (db_commit_info s) (db_error s).

Definition RocksDB_batch_commit_info (s : RocksDBStore) (p : CommitRef * CommitInfo)
    : RocksDBStore :=
  mk_rocksdb (db_blocks s) (db_digests_by_authorities s) (db_commits s) (db_commit_votes s)
    (<[(cr_index p.1, cr_digest p.1) := p.2]> (db_commit_info s)) (db_error s).

(** [RocksDBStore::write]: the batch is applied as a whole or not at all. *)
Definition RocksDB_write (s : RocksDBStore) (b : WriteBatch) : fallible RocksDBStore :=
  db_call s
    (foldl RocksDB_batch_commit_info
       (foldl RocksDB_batch_commit
          (foldl RocksDB_batch_block s (wb_blocks b)) (wb_commits b)) (wb_commit_info b)).

(** [VecDeque] as a ring buffer (alloc::collections::vec_deque): the scans
    below build one with [push_front] only and then read [as_slices().0],
    the part of the ring before the wrap-around. *)
Record ring := mk_ring { ring_cap : N; ring_head : N; ring_len : N }.
Definition ring_new : ring := mk_ring 0 0 0.
Definition ring_grow (r : ring) : ring :=
  let new_cap := N.max 4 (2 * ring_cap r) in
  if bool_decide (ring_head r ≤ ring_cap r - ring_len r) then mk_ring new_cap (ring_head r) (ring_len r)
  else
    let head_len := ring_cap r - ring_head r in
    let tail_len := ring_len r - head_len in
    if bool_decide (tail_len < head_len) && bool_decide (tail_len ≤ new_cap - ring_cap r)
    then mk_ring new_cap (ring_head r) (ring_len r)
    else mk_ring new_cap (new_cap - head_len) (ring_len r).
Definition ring_push_front (r : ring) : ring :=
  let r := if bool_decide (ring_len r = ring_cap r) then ring_grow r else r in
  mk_ring (ring_cap r) (if bool_decide (ring_head r = 0) then ring_cap r - 1 else ring_head r - 1)
    (ring_len r + 1).
Definition ring_first_slice_len (n : nat) : N :=
  let r := Nat.iter n ring_push_front ring_new in N.min (ring_len r) (ring_cap r - ring_head r).

Section rocksdb.
Context `{BlockCodec, CommitCodec}.

(** The loop body of [read_blocks]: decode and compare the digests. *)
Definition RocksDB_decode_block (key : BlockRef) (serialized : option bytes)
    : fallible (option VerifiedBlock) :=
  match serialized with
  | Some serialized =>
      match bcs_from_bytes serialized with
      | None => f_err (MalformedBlock "bcs")
      | Some signed_block =>
          let block := VerifiedBlock_new_verified signed_block serialized in
          assert! bool_decide (key = vb_reference block);
          f_ok (Some block)
      end
  | None => f_ok None
  end.

Fixpoint RocksDB_decode_blocks (l : list (BlockRef * option bytes))
    : fallible (list (option VerifiedBlock)) :=
  match l with
  | [] => f_ok []
  | (key, serialized) :: l =>
      b ← RocksDB_decode_block key serialized;
      bs ← RocksDB_decode_blocks l;
      f_ok (b :: bs)
  end.

(** [RocksDBStore::read_blocks]. *)
Definition RocksDB_read_blocks (s : RocksDBStore) (refs : list BlockRef)
    : fallible (list (option VerifiedBlock)) :=
  serialized ← db_call s ((λ r, db_blocks s !! r) <$> refs);
  RocksDB_decode_blocks (zip refs serialized).

(** [RocksDBStore::contains_blocks]. *)
Definition RocksDB_contains_blocks (s : RocksDBStore) (refs : list BlockRef)
    : fallible (list bool) :=
  db_call s ((λ r, bool_decide (is_Some (db_blocks s !! r))) <$> refs).

(** Results that must be present: a panic on a missing block. *)
Definition RocksDB_unwrap_blocks (results : list (option VerifiedBlock))
    : fallible (list VerifiedBlock) :=
  f_run (map_run expect results).

Definition by_author_ref (k : AuthorityIndex * (Round * BlockDigest)) : BlockRef :=
  mk_ref k.2.1 k.1 k.2.2.

(** [RocksDBStore::scan_blocks_by_author]. *)
Definition RocksDB_scan_blocks_by_author (s : RocksDBStore) (author : AuthorityIndex)
    (start_round : Round) : fallible (list VerifiedBlock) :=
  keys ← db_call s (set_range (Included (author, (start_round, BlockDigest_MIN)))
                     (Included (author, (u32_max, BlockDigest_MAX)))
                     (db_digests_by_authorities s));
  results ← RocksDB_read_blocks s (by_author_ref <$> keys);
  RocksDB_unwrap_blocks results.

(** [RocksDBStore::scan_last_blocks_by_author]: the iterator is reversed,
    cut, and pushed to the front of [refs]; only the first slice of [refs]
    is read. *)
Definition RocksDB_scan_last_blocks_by_author (s : RocksDBStore) (author : AuthorityIndex)
    (num_of_rounds : N) (before_round : option Round) : fallible (list VerifiedBlock) :=
  let before_round := default u32_max before_round in
  keys ← db_call s (set_range (Included (author, (0, BlockDigest_MIN)))
                     (Included (author, (before_round, BlockDigest_MAX)))
                     (db_digests_by_authorities s));
  let refs := reverse (take (N.to_nat num_of_rounds) (reverse (by_author_ref <$> keys))) in
  results ← RocksDB_read_blocks s (take (N.to_nat (ring_first_slice_len (length refs))) refs);
  RocksDB_unwrap_blocks results.

(** A stored commit, with its digest compared. *)
Definition RocksDB_decode_commit (digest : CommitDigest) (serialized : bytes)
    : fallible TrustedCommit :=
  match bcs_commit_from_bytes serialized with
  | None => f_err (MalformedCommit "bcs")
  | Some c =>
      let commit := TrustedCommit_new_trusted c serialized in
      assert! bool_decide (tcm_digest commit = digest);
      f_ok commit
  end.

(** [RocksDBStore::read_last_commit]. *)
Definition RocksDB_read_last_commit (s : RocksDBStore) : fallible (option TrustedCommit) :=
  result ← db_call s (map_last (db_commits s));
  match result with
  | None => f_ok None
  | Some ((_, digest), serialized) =>
      commit ← RocksDB_decode_commit digest serialized;
      f_ok (Some commit)
  end.

Fixpoint RocksDB_decode_commits (l : list ((CommitIndex * CommitDigest) * bytes))
    : fallible (list TrustedCommit) :=
  match l with
  | [] => f_ok []
  | ((_, digest), serialized) :: l =>
      commit ← RocksDB_decode_commit digest serialized;
      commits ← RocksDB_decode_commits l;
      f_ok (commit :: commits)
  end.

(** [RocksDBStore::scan_commits]. *)
Definition RocksDB_scan_commits (s : RocksDBStore) (range : CommitRange)
    : fallible (list TrustedCommit) :=
  rows ← db_call s (map_range (Included (CommitRange_start range, CommitDigest_MIN))
                      (Included (CommitRange_end range, CommitDigest_MAX)) (db_commits s));
  RocksDB_decode_commits rows.

(** [RocksDBStore::read_commit_votes]: the range from the least to the
    greatest key of the commit index is every key of that index. *)
Definition RocksDB_read_commit_votes (s : RocksDBStore) (commit_index : CommitIndex)
    : fallible (list BlockRef) :=
  keys ← db_call s (filter (λ k, k.1 = commit_index) (set_list (db_commit_votes s)));
  f_ok ((λ k, k.2.2) <$> keys).

(** [RocksDBStore::read_last_commit_info]. *)
Definition RocksDB_read_last_commit_info (s : RocksDBStore)
    : fallible (option (CommitRef * CommitInfo)) :=
  result ← db_call s (map_last (db_commit_info s));
  f_ok ((λ p, (mk_commit_ref p.1.1 p.1.2, p.2)) <$> result).

#[global] Instance RocksDB_Store : Store RocksDBStore := {|
  store_write := RocksDB_write;
  store_read_blocks := RocksDB_read_blocks;
  store_contains_blocks := RocksDB_contains_blocks;
  store_scan_blocks_by_author := RocksDB_scan_blocks_by_author;
  store_scan_last_blocks_by_author := RocksDB_scan_last_blocks_by_author;
  store_read_last_commit := RocksDB_read_last_commit;
  store_scan_commits := RocksDB_scan_commits;
  store_read_commit_votes := RocksDB_read_commit_votes;
  store_read_last_commit_info := RocksDB_read_last_commit_info;
|}.
End rocksdb.

(** ** The abstract contents of a store *)
Record StoreView := mk_view {
  sv_blocks : gmap BlockRef VerifiedBlock;
  sv_commits : gmap (CommitIndex * CommitDigest) TrustedCommit;
  sv_votes : gset (CommitIndex * (CommitDigest * BlockRef));
  sv_info : gmap (CommitIndex * CommitDigest) CommitInfo;
}.

Definition view_empty : StoreView := mk_view ∅ ∅ ∅ ∅.

Definition view_add_block (v : StoreView) (b : VerifiedBlock) : StoreView :=
  mk_view (<[vb_reference b := b]> (sv_blocks v)) (sv_commits v)
    (list_to_set ((λ vote, (cr_index vote, (cr_digest vote, vb_reference b)))
                    <$> block_commit_votes (vb_block b)) ∪ sv_votes v)
    (sv_info v).
Definition view_add_commit (v : StoreView) (c : TrustedCommit) : StoreView :=
  mk_view (sv_blocks v) (<[(tc_index c, tcm_digest c) := c]> (sv_commits v)) (sv_votes v) (sv_info v).
Definition view_add_info (v : StoreView) (p : CommitRef * CommitInfo) : StoreView :=
  mk_view (sv_blocks v) (sv_commits v) (sv_votes v)
    (<[(cr_index p.1, cr_digest p.1) := p.2]> (sv_info v)).
Definition view_write (v : StoreView) (b : WriteBatch) : StoreView :=
  foldl view_add_info
    (foldl view_add_commit (foldl view_add_block v (wb_blocks b)) (wb_commits b))
    (wb_commit_info b).

(** The blocks of an author within a range of rounds, in round order. *)
Definition view_author_blocks (v : StoreView) (a : AuthorityIndex) (lo hi : Round)
    : list (BlockRef * VerifiedBlock) :=
  filter (λ p, br_author p.1 = a ∧ lo ≤ br_round p.1 ≤ hi) (map_list (sv_blocks v)).

Definition view_last_info (v : StoreView) : option (CommitRef * CommitInfo) :=
  (λ p, (mk_commit_ref p.1.1 p.1.2, p.2)) <$> map_last (sv_info v).

(** What a store promises to its clients, for the data it accepts. Scans of
    the last blocks of an author are specified up to four blocks. *)
Class StoreLaws (S : Type) `{Store S} := {
  st_block_ok : VerifiedBlock → Prop;
  st_commit_ok : TrustedCommit → Prop;
  store_rel : S → StoreView → Prop;
  law_view s v : store_rel s v →
    (∀ r b, sv_blocks v !! r = Some b → vb_reference b = r) ∧
    (∀ k c, sv_commits v !! k = Some c → k = (tc_index c, tcm_digest c));
  law_write s v b : store_rel s v →
    Forall st_block_ok (wb_blocks b) → Forall st_commit_ok (wb_commits b) →
    ∃ s', store_write s b = f_ok s' ∧ store_rel s' (view_write v b);
  law_read_blocks s v refs : store_rel s v →
    store_read_blocks s refs = f_ok ((λ r, sv_blocks v !! r) <$> refs);
  law_contains_blocks s v refs : store_rel s v →
    store_contains_blocks s refs = f_ok ((λ r, bool_decide (is_Some (sv_blocks v !! r))) <$> refs);
  law_scan_blocks s v a r : store_rel s v →
    store_scan_blocks_by_author s a r = f_ok (snd <$> view_author_blocks v a r u32_max);
  law_scan_last_blocks s v a n before : store_rel s v → n ≤ 4 →
    store_scan_last_blocks_by_author s a n before =
      f_ok (snd <$> last_n (N.to_nat n) (view_author_blocks v a 0 (default u32_max before)));
  law_read_last_commit s v : store_rel s v →
    store_read_last_commit s = f_ok (snd <$> map_last (sv_commits v));
  law_scan_commits s v range : store_rel s v →
    store_scan_commits s range =
      f_ok (snd <$> filter (λ p, CommitRange_start range ≤ p.1.1 ≤ CommitRange_end range)
                      (map_list (sv_commits v)));
  law_read_commit_votes s v i : store_rel s v →
    store_read_commit_votes s i =
      f_ok ((λ k, k.2.2) <$> filter (λ k, k.1 = i) (set_list (sv_votes v)));
  law_read_last_commit_info s v : store_rel s v →
    store_read_last_commit_info s = f_ok (view_last_info v);
}.

(** ** RocksDB refines the abstract contents *)

Lemma ring_first_slice_small n : (n ≤ 4)%nat → ring_first_slice_len n = N.of_nat n.
Proof. intros ?. do 5 (destruct n as [|n]; [done|]). lia. Qed.


Section refinement.
Context `{BlockCodec, CommitCodec}.

(** Blocks and commits as the node writes them: the cached digest and bytes
    belong to the content, and the fields are within their widths. *)
Definition block_storable (b : VerifiedBlock) : Prop :=
  bcs_from_bytes (vb_serialized b) = Some (vb_signed b) ∧
  vb_digest b = default_hash (vb_serialized b) ∧
  vb_round b ≤ u32_max ∧ vb_digest b ≤ BlockDigest_MAX.
Definition commit_storable (c : TrustedCommit) : Prop :=
  bcs_commit_from_bytes (tcm_serialized c) = Some (tcm_inner c) ∧
  tcm_digest c = commit_hash (tcm_serialized c) ∧ tcm_digest c ≤ CommitDigest_MAX.

Record rocks_rel (s : RocksDBStore) (v : StoreView) : Prop := {
  rr_healthy : db_error s = None;
  rr_blocks : db_blocks s = vb_serialized <$> sv_blocks v;
  rr_blocks_ok r b : sv_blocks v !! r = Some b → vb_reference b = r ∧ block_storable b;
  rr_digests k : k ∈ db_digests_by_authorities s ↔ is_Some (sv_blocks v !! by_author_ref k);
  rr_commits : db_commits s = tcm_serialized <$> sv_commits v;
  rr_commits_ok k c :
    sv_commits v !! k = Some c → k = (tc_index c, tcm_digest c) ∧ commit_storable c;
  rr_votes : db_commit_votes s = sv_votes v;
  rr_info : db_commit_info s = sv_info v;
}.

Lemma decode_block_storable r b :
  vb_reference b = r → block_storable b →
  RocksDB_decode_block r (Some (vb_serialized b)) = f_ok (Some b).
Proof.
  intros <- (Hdec & Hdig & _). unfold RocksDB_decode_block. rewrite Hdec.
  replace (VerifiedBlock_new_verified (vb_signed b) (vb_serialized b)) with b.
  - by rewrite bool_decide_eq_true_2.
  - destruct b; unfold VerifiedBlock_new_verified; simpl in *. by rewrite Hdig.
Qed.

Lemma decode_commit_storable c :
  commit_storable c → RocksDB_decode_commit (tcm_digest c) (tcm_serialized c) = f_ok c.
Proof.
  intros (Hdec & Hdig & _). unfold RocksDB_decode_commit. rewrite Hdec.
  replace (TrustedCommit_new_trusted (tcm_inner c) (tcm_serialized c)) with c.
  - by rewrite bool_decide_eq_true_2.
  - destruct c; unfold TrustedCommit_new_trusted; simpl in *. by rewrite Hdig.
Qed.

Lemma rocks_db_call {A} s v (a : A) : rocks_rel s v → db_call s a = f_ok a.
Proof. intros Hrel. unfold db_call. by rewrite (rr_healthy _ _ Hrel). Qed.

Lemma rocks_read_blocks s v refs : rocks_rel s v →
  RocksDB_read_blocks s refs = f_ok ((λ r, sv_blocks v !! r) <$> refs).
Proof.
  intros Hrel. unfold RocksDB_read_blocks. rewrite (rocks_db_call s v) by done. simpl.
  induction refs as [|r refs IH]; [done|]. csimpl.
  rewrite (rr_blocks _ _ Hrel), lookup_fmap in *.
  assert (RocksDB_decode_block r (vb_serialized <$> sv_blocks v !! r) =
            f_ok (sv_blocks v !! r)) as ->.
  { destruct (sv_blocks v !! r) as [b|] eqn:Hb; [|done]. simpl.
    destruct (rr_blocks_ok _ _ Hrel _ _ Hb). by apply decode_block_storable. }
  simpl. by rewrite IH.
Qed.

(** The secondary index enumerates the blocks of an author in round order. *)
Lemma rocks_author_refs s v a lo hi : rocks_rel s v →
  by_author_ref <$> set_range (Included (a, (lo, BlockDigest_MIN)))
                      (Included (a, (hi, BlockDigest_MAX))) (db_digests_by_authorities s) =
  (view_author_blocks v a lo hi).*1.
Proof.
  intros Hrel. unfold view_author_blocks, set_range.
  set (P := λ k : AuthorityIndex * (Round * BlockDigest),
    Is_true (above_bound (Included (a, (lo, BlockDigest_MIN))) k &&
             below_bound (Included (a, (hi, BlockDigest_MAX))) k)).
  assert (HP : ∀ k, k ∈ db_digests_by_authorities s →
            P k ↔ k.1 = a ∧ lo ≤ k.2.1 ≤ hi).
  { intros [a' [r d]] Hk%(rr_digests _ _ Hrel). destruct Hk as [b Hb].
    destruct (rr_blocks_ok _ _ Hrel _ _ Hb) as [Href (_ & _ & _ & Hd)].
    assert (d ≤ BlockDigest_MAX) by (by injection Href as _ _ <-).
    unfold P, above_bound, below_bound, BlockDigest_MIN. simpl. unfold pair_le; simpl.
    rewrite andb_True. unfold by_key, pair_le; simpl.
    repeat case_decide; simplify_eq/=; unfold by_key; rewrite ?bool_decide_spec; simpl; lia. }
  apply sorted_ext.
  - apply StronglySorted_fmap.
    assert (Hs := StronglySorted_filter _ P _ (set_list_sorted (db_digests_by_authorities s))).
    assert (Hall : Forall (λ k : AuthorityIndex * (Round * BlockDigest), k.1 = a)
              (filter P (set_list (db_digests_by_authorities s)))).
    { apply Forall_forall. intros k [Hk Hin%elem_of_set_list]%list_elem_of_filter.
      by apply HP in Hk as [? _]. }
    clear HP. revert Hs Hall. generalize (filter P (set_list (db_digests_by_authorities s))).
    induction 1 as [|x l Hl IH Hx]; [constructor|]. intros [Hxa Hla]%Forall_cons_1.
    constructor; [by apply IH|]. rewrite Forall_forall in Hx, Hla |- *.
    intros y Hy. specialize (Hx y Hy). specialize (Hla y Hy). revert Hx.
    destruct x as [ax [rx dx]], y as [ay [ry dy]]; simpl in *; subst. unfold pair_le; simpl.
    rewrite decide_True by done. unfold BlockRef_le, pair_le, by_key; simpl.
    rewrite bool_decide_spec. case_decide; unfold by_key; rewrite bool_decide_spec; simpl; lia.
  - apply StronglySorted_fmap, StronglySorted_filter, map_list_sorted.
  - apply NoDup_fmap_2_strong; [|apply NoDup_filter, NoDup_set_list].
    intros [ax [rx dx]] [ay [ry dy]] _ _ [= -> -> ->]. done.
  - eapply sublist_NoDup; [apply (NoDup_map_list (sv_blocks v))|].
    apply fmap_sublist, sublist_filter.
  - intros r. rewrite !list_elem_of_fmap. split.
    + intros (k & -> & [Hk Hin%elem_of_set_list]%list_elem_of_filter).
      apply HP in Hk as [Ha Hr]; [|done]. apply (rr_digests _ _ Hrel) in Hin as [b Hb].
      exists (by_author_ref k, b). split; [done|]. apply list_elem_of_filter.
      by rewrite elem_of_map_list.
    + intros ([r' b] & -> & [[Ha Hr] Hb%elem_of_map_list]%list_elem_of_filter). simpl in *.
      exists (br_author r', (br_round r', br_digest r')). split; [by destruct r'|].
      assert ((br_author r', (br_round r', br_digest r')) ∈ db_digests_by_authorities s) as Hin.
      { apply (rr_digests _ _ Hrel). exists b. by destruct r'. }
      apply list_elem_of_filter. rewrite elem_of_set_list. split; [|done]. by apply HP.
Qed.

Lemma rocks_unwrap_blocks s v ps : rocks_rel s v →
  (∀ p, p ∈ ps → p ∈ map_list (sv_blocks v)) →
  RocksDB_read_blocks s ps.*1 ≫= RocksDB_unwrap_blocks = f_ok ps.*2.
Proof.
  intros Hrel Hps. rewrite (rocks_read_blocks s v) by done. simpl.
  unfold RocksDB_unwrap_blocks, f_run. by rewrite map_run_expect_lookup.
Qed.

Lemma elem_of_view_author_blocks v a lo hi p :
  p ∈ view_author_blocks v a lo hi → p ∈ map_list (sv_blocks v).
Proof. by intros [_ ?]%list_elem_of_filter. Qed.

Lemma rocks_scan_blocks s v a r : rocks_rel s v →
  RocksDB_scan_blocks_by_author s a r = f_ok (snd <$> view_author_blocks v a r u32_max).
Proof.
  intros Hrel. unfold RocksDB_scan_blocks_by_author. rewrite (rocks_db_call s v) by done.
  simpl. rewrite (rocks_author_refs s v) by done.
  eapply rocks_unwrap_blocks; [done|]. intros p. apply elem_of_view_author_blocks.
Qed.

(** The scan returns the first slice of the ring of the last references. *)
Lemma rocks_scan_last_blocks s v a n before : rocks_rel s v →
  let ps := last_n (N.to_nat n) (view_author_blocks v a 0 (default u32_max before)) in
  RocksDB_scan_last_blocks_by_author s a n before =
    f_ok (snd <$> take (N.to_nat (ring_first_slice_len (length ps))) ps).
Proof.
  intros Hrel ps. unfold RocksDB_scan_last_blocks_by_author.
  rewrite (rocks_db_call s v) by done. simpl.
  rewrite (rocks_author_refs s v), reverse_take_reverse, <-fmap_last_n by done.
  fold ps. rewrite length_fmap, <-fmap_take.
  eapply rocks_unwrap_blocks; [done|].
  intros p Hp. apply (elem_of_view_author_blocks v a 0 (default u32_max before)).
  by eapply subseteq_drop, subseteq_take.
Qed.

Lemma rocks_batch_block s v b : rocks_rel s v → block_storable b →
  rocks_rel (RocksDB_batch_block s b) (view_add_block v b).
Proof.
  intros [Hh Hb Hbok Hd Hc Hcok Hv Hi] Hstore. split; simpl; try done.
  - by rewrite fmap_insert, Hb.
  - intros r b'. rewrite lookup_insert. case_decide; [by intros [= <-]|apply Hbok].
  - intros k. rewrite elem_of_union, elem_of_singleton, lookup_insert, Hd.
    case_decide as Heq.
    + split; [by eauto|intros _; left]. destruct k as [a [r d]]. by injection Heq as <- <- <-.
    + split; [intros [->|]; [by destruct Heq|done]|by right].
  - rewrite <-Hv. generalize (db_commit_votes s) as X.
    induction (block_commit_votes (vb_block b)) as [|vote votes IH]; intros X; csimpl; [set_solver|].
    rewrite IH. set_solver.
Qed.

Lemma rocks_batch_commit s v c : rocks_rel s v → commit_storable c →
  rocks_rel (RocksDB_batch_commit s c) (view_add_commit v c).
Proof.
  intros [Hh Hb Hbok Hd Hc Hcok Hv Hi] Hstore. split; simpl; try done.
  - by rewrite fmap_insert, Hc.
  - intros k c'. rewrite lookup_insert. case_decide; [by intros [= <-]|apply Hcok].
Qed.

Lemma rocks_batch_info s v p : rocks_rel s v →
  rocks_rel (RocksDB_batch_commit_info s p) (view_add_info v p).
Proof. intros [Hh Hb Hbok Hd Hc Hcok Hv Hi]. split; simpl; try done. by rewrite Hi. Qed.

Lemma rocks_write s v b : rocks_rel s v →
  Forall block_storable (wb_blocks b) → Forall commit_storable (wb_commits b) →
  ∃ s', RocksDB_write s b = f_ok s' ∧ rocks_rel s' (view_write v b).
Proof.
  intros Hrel Hblocks Hcommits. unfold RocksDB_write. rewrite (rocks_db_call s v) by done.
  eexists. split; [done|]. unfold view_write. destruct b as [blocks commits infos]; simpl in *.
  assert (rocks_rel (foldl RocksDB_batch_block s blocks) (foldl view_add_block v blocks)) as H1.
  { clear -Hrel Hblocks. revert s v Hrel. induction Hblocks; simpl; eauto using rocks_batch_block. }
  assert (rocks_rel (foldl RocksDB_batch_commit (foldl RocksDB_batch_block s blocks) commits)
            (foldl view_add_commit (foldl view_add_block v blocks) commits)) as H2.
  { clear -H1 Hcommits. revert H1. generalize (foldl RocksDB_batch_block s blocks) as s1.
    generalize (foldl view_add_block v blocks) as v1.
    induction Hcommits; simpl; eauto using rocks_batch_commit. }
  revert H2. generalize (foldl RocksDB_batch_commit (foldl RocksDB_batch_block s blocks) commits).
  generalize (foldl view_add_commit (foldl view_add_block v blocks) commits).
  induction infos; simpl; eauto using rocks_batch_info.
Qed.

Lemma rocks_decode_commits s v ps : rocks_rel s v →
  (∀ p, p ∈ ps → p ∈ map_list (sv_commits v)) →
  RocksDB_decode_commits ((λ p, (p.1, tcm_serialized p.2)) <$> ps) = f_ok ps.*2.
Proof.
  intros Hrel. induction ps as [|[k c] ps IH]; intros Hps; [done|]. csimpl.
  assert (Hk : sv_commits v !! k = Some c) by (apply elem_of_map_list, Hps; left).
  apply (rr_commits_ok _ _ Hrel) in Hk as [-> Hc].
  rewrite decode_commit_storable by done. simpl. rewrite IH; [done|]. intros; apply Hps; by right.
Qed.

Lemma rocks_scan_commits s v range : rocks_rel s v →
  RocksDB_scan_commits s range =
    f_ok (snd <$> filter (λ p, CommitRange_start range ≤ p.1.1 ≤ CommitRange_end range)
                    (map_list (sv_commits v))).
Proof.
  intros Hrel. unfold RocksDB_scan_commits. rewrite (rocks_db_call s v) by done. simpl.
  unfold map_range. rewrite (rr_commits _ _ Hrel), map_list_fmap, filter_fmap.
  erewrite rocks_decode_commits; [|done|].
  - do 2 f_equal. apply filter_ext_in.
    intros [[i d] c] Hin%elem_of_map_list. apply (rr_commits_ok _ _ Hrel) in Hin as [[= -> ->] Hc].
    destruct Hc as (_ & _ & Hd). unfold CommitDigest_MIN. simpl. unfold pair_le; simpl.
    rewrite andb_True. repeat case_decide; simplify_eq/=; unfold by_key;
      rewrite ?bool_decide_spec; simpl; lia.
  - by intros p [_ ?]%list_elem_of_filter.
Qed.

Lemma rocks_read_last_commit s v : rocks_rel s v →
  RocksDB_read_last_commit s = f_ok (snd <$> map_last (sv_commits v)).
Proof.
  intros Hrel. unfold RocksDB_read_last_commit. rewrite (rocks_db_call s v) by done. simpl.
  unfold map_last. rewrite (rr_commits _ _ Hrel), map_list_fmap, fmap_last.
  destruct (last (map_list (sv_commits v))) as [[k c]|] eqn:Hl; [|done]. simpl.
  apply last_Some in Hl as [l Hl].
  assert (Hk : sv_commits v !! k = Some c).
  { apply elem_of_map_list. rewrite Hl. apply elem_of_app. right. left. }
  apply (rr_commits_ok _ _ Hrel) in Hk as [-> Hc]. by rewrite decode_commit_storable.
Qed.

#[global] Program Instance RocksDB_laws : StoreLaws RocksDBStore := {|
  st_block_ok := block_storable;
  st_commit_ok := commit_storable;
  store_rel := rocks_rel;
  law_write := rocks_write;
  law_read_blocks := rocks_read_blocks;
  law_scan_blocks := rocks_scan_blocks;
  law_read_last_commit := rocks_read_last_commit;
  law_scan_commits := rocks_scan_commits;
|}.
Next Obligation.
  intros s v Hrel. split.
  - by intros r b [? _]%(rr_blocks_ok _ _ Hrel).
  - by intros k c [? _]%(rr_commits_ok _ _ Hrel).
Qed.
Next Obligation.
  intros s v refs Hrel. simpl. unfold RocksDB_contains_blocks.
  rewrite (rocks_db_call s v) by done. f_equal. apply list_fmap_ext. intros _ r _.
  apply bool_decide_ext. by rewrite (rr_blocks _ _ Hrel), lookup_fmap, fmap_is_Some.
Qed.
Next Obligation.
  intros s v a n before Hrel Hn. simpl. rewrite (rocks_scan_last_blocks s v) by done.
  rewrite ring_first_slice_small; [by rewrite Nat2N.id, firstn_all|].
  rewrite last_n_length. lia.
Qed.
Next Obligation.
  intros s v i Hrel. simpl. unfold RocksDB_read_commit_votes.
  rewrite (rocks_db_call s v) by done. simpl. by rewrite (rr_votes _ _ Hrel).
Qed.
Next Obligation.
  intros s v Hrel. simpl. unfold RocksDB_read_last_commit_info.
  rewrite (rocks_db_call s v) by done. simpl. by rewrite (rr_info _ _ Hrel).
Qed.

Lemma view_add_blocks_lookup blocks v r :
  (∀ b, b ∈ blocks → vb_reference b ≠ r) →
  sv_blocks (foldl view_add_block v blocks) !! r = sv_blocks v !! r.
Proof.
  revert v. induction blocks as [|b blocks IH]; intros v Hb; simpl; [done|].
  rewrite IH by (intros; apply Hb; by right). simpl.
  apply lookup_insert_ne, Hb. left.
Qed.

Lemma view_add_blocks_lookup_in blocks v b :
  (∀ b', b' ∈ blocks → vb_reference b' = vb_reference b → b' = b) → b ∈ blocks →
  sv_blocks (foldl view_add_block v blocks) !! vb_reference b = Some b.
Proof.
  induction blocks as [|b' blocks IH] using rev_ind; intros Huniq Hb; [set_solver|].
  rewrite foldl_app. simpl.
  destruct (decide (vb_reference b' = vb_reference b)) as [Heq|Hne].
  - rewrite Heq, lookup_insert_eq. f_equal. apply Huniq; [|done]. apply elem_of_app; right; left.
  - rewrite lookup_insert_ne by done. apply IH.
    + intros b'' Hb''. apply Huniq, elem_of_app. by left.
    + apply elem_of_app in Hb as [|Hb%list_elem_of_singleton]; [done|]. by subst.
Qed.

Lemma view_write_blocks v batch :
  sv_blocks (view_write v batch) = sv_blocks (foldl view_add_block v (wb_blocks batch)).
Proof.
  unfold view_write. generalize (foldl view_add_block v (wb_blocks batch)) as v1.
  assert (Hc : ∀ l v1, sv_blocks (foldl view_add_commit v1 l) = sv_blocks v1)
    by (induction l; intros; simpl; [done|]; by rewrite IHl).
  assert (Hi : ∀ l v1, sv_blocks (foldl view_add_info v1 l) = sv_blocks v1)
    by (induction l; intros; simpl; [done|]; by rewrite IHl).
  intros v1. by rewrite Hi, Hc.
Qed.

(** C38: a successful write of a RocksDB batch can be read back: every block
    of the batch is found under its reference with its content, and the
    answers for all other references do not change. *)
Theorem RocksDB_write_read s v batch :
  rocks_rel s v →
  Forall block_storable (wb_blocks batch) → Forall commit_storable (wb_commits batch) →
  (∀ b1 b2, b1 ∈ wb_blocks batch → b2 ∈ wb_blocks batch →
     vb_reference b1 = vb_reference b2 → b1 = b2) →
  ∃ s', RocksDB_write s batch = f_ok s' ∧
    (∀ b, b ∈ wb_blocks batch → RocksDB_read_blocks s' [vb_reference b] = f_ok [Some b]) ∧
    (∀ r, (∀ b, b ∈ wb_blocks batch → vb_reference b ≠ r) →
       RocksDB_read_blocks s' [r] = RocksDB_read_blocks s [r]).
Proof.
  intros Hrel Hb Hc Huniq.
  destruct (rocks_write s v batch Hrel Hb Hc) as (s' & Hw & Hrel').
  exists s'. split; [done|]. split.
  - intros b Hin. rewrite (rocks_read_blocks s' _ _ Hrel'). csimpl.
    rewrite view_write_blocks, view_add_blocks_lookup_in; [done| |done].
    intros b' Hb' Heq. by apply Huniq.
  - intros r Hr. rewrite (rocks_read_blocks s' _ _ Hrel'), (rocks_read_blocks s _ _ Hrel).
    csimpl. by rewrite view_write_blocks, view_add_blocks_lookup.
Qed.

(** With five rounds requested, [scan_last_blocks_by_author] does not
    return the last five blocks of the author but only the oldest of them: the
    references are pushed to the front of a ring buffer that wraps around at
    the fifth, and only its first slice is read. *)
Theorem RocksDB_scan_last_blocks_truncated s v a :
  rocks_rel s v → (5 ≤ length (view_author_blocks v a 0 u32_max))%nat →
  ∃ oldest,
    head (snd <$> last_n 5 (view_author_blocks v a 0 u32_max)) = Some oldest ∧
    RocksDB_scan_last_blocks_by_author s a 5 None = f_ok [oldest].
Proof.
  intros Hrel Hlen. rewrite (rocks_scan_last_blocks s v a 5 None Hrel). simpl default.
  assert (length (last_n 5 (view_author_blocks v a 0 u32_max)) = 5%nat) as Hl
    by (rewrite last_n_length; lia).
  change (N.to_nat 5) with 5%nat. rewrite Hl.
  destruct (last_n 5 (view_author_blocks v a 0 u32_max)) as [|[r b] ps]; [done|].
  exists b. split; [done|]. done.
Qed.
End refinement.

(** ** A concrete store: blocks are encoded by round and author; a block
    includes the four blocks of the previous round. *)

Definition test_ref (r a : N) : BlockRef := mk_ref r (N.to_nat a) (r + 256 * a).
Definition test_signed (r a : N) : SignedBlock :=
  mk_signed (V2 (mk_block_v2 0 r (N.to_nat a) 0
    (if decide (r = 0) then [] else test_ref (r - 1) <$> [0; 1; 2; 3]) [] [] [] [])) [].

#[global] Instance test_codec : BlockCodec := {|
  bcs_to_bytes := λ sb,
    r ← Byte.of_N (block_round (sb_inner sb));
    a ← Byte.of_N (N.of_nat (block_author (sb_inner sb)));
    Some [r; a];
  bcs_from_bytes := λ bs,
    match bs with
    | [r; a] => Some (test_signed (Byte.to_N r) (Byte.to_N a))
    | _ => None
    end;
  default_hash := λ bs, foldr (λ x acc, Byte.to_N x + 256 * acc) 0 bs;
|}.
#[global] Instance test_commit_codec : CommitCodec := {|
  bcs_commit_to_bytes := λ _, Some [];
  bcs_commit_from_bytes := λ _, None;
  commit_hash := λ bs, foldr (λ x acc, Byte.to_N x + 256 * acc) 0 bs;
|}.

Definition store_test_block (r a : byte) : VerifiedBlock :=
  VerifiedBlock_new_verified (test_signed (Byte.to_N r) (Byte.to_N a)) [r; a].
Definition store_test_batch : WriteBatch :=
  mk_batch ((λ r, store_test_block r Byte.x01) <$>
    [Byte.x01; Byte.x02; Byte.x03; Byte.x04; Byte.x05; Byte.x06]) [] [].
Definition rocks_empty : RocksDBStore := mk_rocksdb ∅ ∅ ∅ ∅ ∅ None.

Lemma rocks_empty_rel : rocks_rel rocks_empty view_empty.
Proof.
  split; simpl; try done; try (intros ? ? []%lookup_empty_Some).
  intros k. rewrite lookup_empty. split; [set_solver|by intros []].
Qed.

Lemma store_test_storable : Forall block_storable (wb_blocks store_test_batch).
Proof. repeat constructor; done. Qed.

Lemma RocksDB_write_read_witness :
  ∃ s', RocksDB_write rocks_empty store_test_batch = f_ok s' ∧
    RocksDB_read_blocks s' [vb_reference (store_test_block Byte.x03 Byte.x01)] =
      f_ok [Some (store_test_block Byte.x03 Byte.x01)].
Proof.
  destruct (RocksDB_write_read rocks_empty view_empty store_test_batch rocks_empty_rel
    store_test_storable) as (s' & Hw & Hr & _).
  - constructor.
  - intros b1 b2 H1 H2. unfold store_test_batch in *; csimpl in *.
    repeat (rewrite elem_of_cons in H1). repeat (rewrite elem_of_cons in H2).
    rewrite elem_of_nil in H1, H2. intuition subst; done.
  - exists s'. split; [exact Hw|]. apply Hr. unfold store_test_batch. csimpl. set_solver.
Defined.

Lemma RocksDB_scan_last_blocks_truncated_witness :
  ∃ s', RocksDB_write rocks_empty store_test_batch = f_ok s' ∧
    RocksDB_scan_last_blocks_by_author s' 1%nat 5 None = f_ok [store_test_block Byte.x02 Byte.x01].
Proof.
  destruct (rocks_write rocks_empty view_empty store_test_batch rocks_empty_rel
    store_test_storable ltac:(constructor)) as (s' & Hw & Hrel).
  exists s'. split; [exact Hw|].
  destruct (RocksDB_scan_last_blocks_truncated s' _ 1%nat Hrel) as (o & Ho & ->).
  - vm_compute. lia.
  - vm_compute in Ho. by injection Ho as <-.
Defined.
