(* ===== verification/DagState.v ===== *)
(** * The DAG state (consensus/core/src/dag_state.rs)

    The in-memory DAG of accepted blocks over the persistent store: acceptance,
    lookups, commit status, hard links, commits, flushing with eviction, and
    recovery. Theorems are in [DagStateProofs]. *)
From S2P Require Import Prelude Committee StakeAggregator Block ThresholdClock Commit LeaderScoring Store.

(** [struct BlockInfo], [BlockInfo::new]. *)
Record BlockInfo := mk_info {
  bi_block : VerifiedBlock;
  bi_committed : bool;
  bi_hard_linked : bool;
}.
Definition BlockInfo_new (b : VerifiedBlock) : BlockInfo := mk_info b false false.

(** [struct DagState]; the context is an argument of the operations. *)
Record DagState (S : Type) := mk_dag {
  ds_genesis : gmap BlockRef VerifiedBlock;
  ds_recent_blocks : gmap BlockRef BlockInfo;
  ds_recent_refs_by_authority : list (gset BlockRef);
  ds_threshold_clock : ThresholdClock;
  ds_evicted_rounds : list Round;
  ds_highest_accepted_round : Round;
  ds_last_commit : option TrustedCommit;
  ds_last_commit_round_advancement_time : option N;
  ds_last_committed_rounds : list Round;
  ds_scoring_subdag : ScoringSubdag;
  ds_pending_commit_votes : list CommitRef;
  ds_blocks_to_write : list VerifiedBlock;
  ds_commits_to_write : list TrustedCommit;
  ds_commit_info_to_write : list (CommitRef * CommitInfo);
  ds_store : S;
  ds_cached_rounds : Round;
}.
Arguments mk_dag {_}.
Arguments ds_genesis {_}.
Arguments ds_recent_blocks {_}.
Arguments ds_recent_refs_by_authority {_}.
Arguments ds_threshold_clock {_}.
Arguments ds_evicted_rounds {_}.
Arguments ds_highest_accepted_round {_}.
Arguments ds_last_commit {_}.
Arguments ds_last_commit_round_advancement_time {_}.
Arguments ds_last_committed_rounds {_}.
Arguments ds_scoring_subdag {_}.
Arguments ds_pending_commit_votes {_}.
Arguments ds_blocks_to_write {_}.
Arguments ds_commits_to_write {_}.
Arguments ds_commit_info_to_write {_}.
Arguments ds_store {_}.
Arguments ds_cached_rounds {_}.

(** Assignments to the fields. *)
Definition set_recent_blocks {S} (x : gmap BlockRef BlockInfo) (d : DagState S) : DagState S :=
  mk_dag (ds_genesis d) x (ds_recent_refs_by_authority d) (ds_threshold_clock d)
    (ds_evicted_rounds d) (ds_highest_accepted_round d) (ds_last_commit d)
    (ds_last_commit_round_advancement_time d) (ds_last_committed_rounds d)
    (ds_scoring_subdag d) (ds_pending_commit_votes d) (ds_blocks_to_write d)
    (ds_commits_to_write d) (ds_commit_info_to_write d) (ds_store d) (ds_cached_rounds d).
Definition set_recent_refs_by_authority {S} (x : list (gset BlockRef)) (d : DagState S) : DagState S :=
  mk_dag (ds_genesis d) (ds_recent_blocks d) x (ds_threshold_clock d) (ds_evicted_rounds
    d) (ds_highest_accepted_round d) (ds_last_commit d)
    (ds_last_commit_round_advancement_time d) (ds_last_committed_rounds d)
    (ds_scoring_subdag d) (ds_pending_commit_votes d) (ds_blocks_to_write d)
    (ds_commits_to_write d) (ds_commit_info_to_write d) (ds_store d) (ds_cached_rounds d).
Definition set_threshold_clock {S} (x : ThresholdClock) (d : DagState S) : DagState S :=
  mk_dag (ds_genesis d) (ds_recent_blocks d) (ds_recent_refs_by_authority d) x
    (ds_evicted_rounds d) (ds_highest_accepted_round d) (ds_last_commit d)
    (ds_last_commit_round_advancement_time d) (ds_last_committed_rounds d)
    (ds_scoring_subdag d) (ds_pending_commit_votes d) (ds_blocks_to_write d)
    (ds_commits_to_write d) (ds_commit_info_to_write d) (ds_store d) (ds_cached_rounds d).
Definition set_evicted_rounds {S} (x : list Round) (d : DagState S) : DagState S :=
  mk_dag (ds_genesis d) (ds_recent_blocks d) (ds_recent_refs_by_authority d)
    (ds_threshold_clock d) x (ds_highest_accepted_round d) (ds_last_commit d)
    (ds_last_commit_round_advancement_time d) (ds_last_committed_rounds d)
    (ds_scoring_subdag d) (ds_pending_commit_votes d) (ds_blocks_to_write d)
    (ds_commits_to_write d) (ds_commit_info_to_write d) (ds_store d) (ds_cached_rounds d).
Definition set_highest_accepted_round {S} (x : Round) (d : DagState S) : DagState S :=
  mk_dag (ds_genesis d) (ds_recent_blocks d) (ds_recent_refs_by_authority d)
    (ds_threshold_clock d) (ds_evicted_rounds d) x (ds_last_commit d)
    (ds_last_commit_round_advancement_time d) (ds_last_committed_rounds d)
    (ds_scoring_subdag d) (ds_pending_commit_votes d) (ds_blocks_to_write d)
    (ds_commits_to_write d) (ds_commit_info_to_write d) (ds_store d) (ds_cached_rounds d).
Definition set_last_commit {S} (x : option TrustedCommit) (d : DagState S) : DagState S :=
  mk_dag (ds_genesis d) (ds_recent_blocks d) (ds_recent_refs_by_authority d)
    (ds_threshold_clock d) (ds_evicted_rounds d) (ds_highest_accepted_round d) x
    (ds_last_commit_round_advancement_time d) (ds_last_committed_rounds d)
    (ds_scoring_subdag d) (ds_pending_commit_votes d) (ds_blocks_to_write d)
    (ds_commits_to_write d) (ds_commit_info_to_write d) (ds_store d) (ds_cached_rounds d).
Definition set_last_commit_round_advancement_time {S} (x : option N) (d : DagState S) : DagState S :=
  mk_dag (ds_genesis d) (ds_recent_blocks d) (ds_recent_refs_by_authority d)
    (ds_threshold_clock d) (ds_evicted_rounds d) (ds_highest_accepted_round d)
    (ds_last_commit d) x (ds_last_committed_rounds d) (ds_scoring_subdag d)
    (ds_pending_commit_votes d) (ds_blocks_to_write d) (ds_commits_to_write d)
    (ds_commit_info_to_write d) (ds_store d) (ds_cached_rounds d).
Definition set_last_committed_rounds {S} (x : list Round) (d : DagState S) : DagState S :=
  mk_dag (ds_genesis d) (ds_recent_blocks d) (ds_recent_refs_by_authority d)
    (ds_threshold_clock d) (ds_evicted_rounds d) (ds_highest_accepted_round d)
    (ds_last_commit d) (ds_last_commit_round_advancement_time d) x (ds_scoring_subdag d)
    (ds_pending_commit_votes d) (ds_blocks_to_write d) (ds_commits_to_write d)
    (ds_commit_info_to_write d) (ds_store d) (ds_cached_rounds d).
Definition set_scoring_subdag {S} (x : ScoringSubdag) (d : DagState S) : DagState S :=
  mk_dag (ds_genesis d) (ds_recent_blocks d) (ds_recent_refs_by_authority d)
    (ds_threshold_clock d) (ds_evicted_rounds d) (ds_highest_accepted_round d)
    (ds_last_commit d) (ds_last_commit_round_advancement_time d) (ds_last_committed_rounds
    d) x (ds_pending_commit_votes d) (ds_blocks_to_write d) (ds_commits_to_write d)
    (ds_commit_info_to_write d) (ds_store d) (ds_cached_rounds d).
Definition set_pending_commit_votes {S} (x : list CommitRef) (d : DagState S) : DagState S :=
  mk_dag (ds_genesis d) (ds_recent_blocks d) (ds_recent_refs_by_authority d)
    (ds_threshold_clock d) (ds_evicted_rounds d) (ds_highest_accepted_round d)
    (ds_last_commit d) (ds_last_commit_round_advancement_time d) (ds_last_committed_rounds
    d) (ds_scoring_subdag d) x (ds_blocks_to_write d) (ds_commits_to_write d)
    (ds_commit_info_to_write d) (ds_store d) (ds_cached_rounds d).
Definition set_blocks_to_write {S} (x : list VerifiedBlock) (d : DagState S) : DagState S :=
  mk_dag (ds_genesis d) (ds_recent_blocks d) (ds_recent_refs_by_authority d)
    (ds_threshold_clock d) (ds_evicted_rounds d) (ds_highest_accepted_round d)
    (ds_last_commit d) (ds_last_commit_round_advancement_time d) (ds_last_committed_rounds
    d) (ds_scoring_subdag d) (ds_pending_commit_votes d) x (ds_commits_to_write d)
    (ds_commit_info_to_write d) (ds_store d) (ds_cached_rounds d).
Definition set_commits_to_write {S} (x : list TrustedCommit) (d : DagState S) : DagState S :=
  mk_dag (ds_genesis d) (ds_recent_blocks d) (ds_recent_refs_by_authority d)
    (ds_threshold_clock d) (ds_evicted_rounds d) (ds_highest_accepted_round d)
    (ds_last_commit d) (ds_last_commit_round_advancement_time d) (ds_last_committed_rounds
    d) (ds_scoring_subdag d) (ds_pending_commit_votes d) (ds_blocks_to_write d) x
    (ds_commit_info_to_write d) (ds_store d) (ds_cached_rounds d).
Definition set_commit_info_to_write {S} (x : list (CommitRef * CommitInfo)) (d : DagState S) : DagState S :=
  mk_dag (ds_genesis d) (ds_recent_blocks d) (ds_recent_refs_by_authority d)
    (ds_threshold_clock d) (ds_evicted_rounds d) (ds_highest_accepted_round d)
    (ds_last_commit d) (ds_last_commit_round_advancement_time d) (ds_last_committed_rounds
    d) (ds_scoring_subdag d) (ds_pending_commit_votes d) (ds_blocks_to_write d)
    (ds_commits_to_write d) x (ds_store d) (ds_cached_rounds d).
Definition set_store {S} (x : S) (d : DagState S) : DagState S :=
  mk_dag (ds_genesis d) (ds_recent_blocks d) (ds_recent_refs_by_authority d)
    (ds_threshold_clock d) (ds_evicted_rounds d) (ds_highest_accepted_round d)
    (ds_last_commit d) (ds_last_commit_round_advancement_time d) (ds_last_committed_rounds
    d) (ds_scoring_subdag d) (ds_pending_commit_votes d) (ds_blocks_to_write d)
    (ds_commits_to_write d) (ds_commit_info_to_write d) x (ds_cached_rounds d).

(** Fills the positions left open by a first pass with the results of the
    second one, in order. *)
Fixpoint fill_missing {A} (dflt : A) (known : list (option A)) (results : list A) : list A :=
  match known with
  | [] => []
  | Some a :: known => a :: fill_missing dflt known results
  | None :: known =>
      match results with
      | r :: results => r :: fill_missing dflt known results
      | [] => dflt :: fill_missing dflt known []
      end
  end.

(** The elements of [l] whose position is still open. *)
Fixpoint missing_of {A B} (l : list A) (known : list (option B)) : list A :=
  match l, known with
  | x :: l, None :: known => x :: missing_of l known
  | _ :: l, Some _ :: known => missing_of l known
  | _, _ => []
  end.

Section dag_state.
Context {S : Type} `{Store S} (ctx : Context).
Implicit Types (d : DagState S).

(** [last_commit_index], [last_commit_digest], [last_commit_timestamp_ms],
    [last_commit_round]. *)
Definition last_commit_index d : CommitIndex :=
  match ds_last_commit d with Some commit => tc_index commit | None => 0 end.
Definition last_commit_digest d : CommitDigest :=
  match ds_last_commit d with Some commit => tcm_digest commit | None => CommitDigest_MIN end.
Definition last_commit_timestamp_ms d : BlockTimestampMs :=
  match ds_last_commit d with Some commit => tc_timestamp_ms commit | None => 0 end.
Definition last_commit_round d : Round :=
  match ds_last_commit d with Some commit => br_round (tc_leader commit) | None => 0 end.

(** [last_commit_leader]. *)
Definition last_commit_leader d : run Slot :=
  match ds_last_commit d with
  | Some commit => Done (Slot_from (tc_leader commit))
  | None => '(r, _) ← expect (map_first (ds_genesis d)); Done (Slot_from r)
  end.

(** [calculate_gc_round], [gc_round]. *)
Definition calculate_gc_round (commit_round : Round) : Round :=
  saturating_sub commit_round (pc_gc_depth (ctx_protocol_config ctx)).
Definition gc_round d : Round := calculate_gc_round (last_commit_round d).

(** [eviction_round], [calculate_authority_eviction_round]. *)
Definition eviction_round (last_round gc_round cached_rounds : Round) : Round :=
  N.min gc_round (saturating_sub last_round cached_rounds).
Definition calculate_authority_eviction_round d (a : AuthorityIndex) : run Round :=
  refs ← vec_get (ds_recent_refs_by_authority d) a;
  let last_round := default GENESIS_ROUND (br_round <$> set_last refs) in
  Done (eviction_round last_round (gc_round d) (ds_cached_rounds d)).

(** [get_last_block_for_authority], [get_last_proposed_block]. *)
Definition get_last_block_for_authority d (authority : AuthorityIndex) : run VerifiedBlock :=
  refs ← vec_get (ds_recent_refs_by_authority d) authority;
  match set_last refs with
  | Some last =>
      info ← expect (ds_recent_blocks d !! last);
      Done (bi_block info)
  | None =>
      '(_, genesis_block) ← expect (list_find (λ p, br_author p.1 = authority)
                                      (map_list (ds_genesis d)) ≫= λ p, Some p.2);
      Done genesis_block
  end.
Definition get_last_proposed_block d : run VerifiedBlock :=
  get_last_block_for_authority d (ctx_own_index ctx).

(** [contains_blocks]: the first pass over the cache, [None] when the store
    has to be asked. *)
Definition contains_in_cache d (r : BlockRef) : run (option bool) :=
  recent_refs ← vec_get (ds_recent_refs_by_authority d) (br_author r);
  if bool_decide (r ∈ recent_refs) || bool_decide (is_Some (ds_genesis d !! r)) then
    Done (Some true)
  else
    match set_last recent_refs with
    | None => Done (Some false)
    | Some last => if bool_decide (br_round last < br_round r) then Done (Some false) else Done None
    end.

(** [contains_blocks]. *)
Definition contains_blocks d (block_refs : list BlockRef) : run (list bool) :=
  known ← map_run (contains_in_cache d) block_refs;
  match missing_of block_refs known with
  | [] => Done (fill_missing false known [])
  | missing =>
      store_results ← unwrap_result (store_contains_blocks (ds_store d) missing);
      Done (fill_missing false known store_results)
  end.

(** [contains_block]. *)
Definition contains_block d (r : BlockRef) : run bool :=
  blocks ← contains_blocks d [r];
  expect (head blocks).

(** [get_blocks]: the first pass over genesis and the cache. *)
Definition get_in_cache d (r : BlockRef) : option (option VerifiedBlock) :=
  if bool_decide (br_round r = GENESIS_ROUND) then Some (ds_genesis d !! r)
  else
    match ds_recent_blocks d !! r with
    | Some info => Some (Some (bi_block info))
    | None => None
    end.

(** [get_blocks]. *)
Definition get_blocks d (block_refs : list BlockRef) : run (list (option VerifiedBlock)) :=
  let known := get_in_cache d <$> block_refs in
  match missing_of block_refs known with
  | [] => Done (fill_missing None known [])
  | missing =>
      store_results ← unwrap_result (store_read_blocks (ds_store d) missing);
      Done (fill_missing None known store_results)
  end.

(** [get_block]. *)
Definition get_block d (r : BlockRef) : run (option VerifiedBlock) :=
  blocks ← get_blocks d [r];
  expect (last blocks).

(** [get_uncommitted_blocks_at_slot]. *)
Definition get_uncommitted_blocks_at_slot d (slot : Slot) : list VerifiedBlock :=
  (λ p, bi_block p.2) <$>
    map_range (Included (mk_ref (s_round slot) (s_authority slot) BlockDigest_MIN))
      (Included (mk_ref (s_round slot) (s_authority slot) BlockDigest_MAX)) (ds_recent_blocks d).

(** [get_uncommitted_blocks_at_round]. *)
Definition get_uncommitted_blocks_at_round d (round : Round) : run (list VerifiedBlock) :=
  if bool_decide (round ≤ last_commit_round d) then Panic
  else Done ((λ p, bi_block p.2) <$>
    map_range (Included (mk_ref round 0%nat BlockDigest_MIN))
      (Excluded (mk_ref (u32_add round 1) 0%nat BlockDigest_MIN)) (ds_recent_blocks d)).

(** [update_block_metadata]. *)
Definition update_block_metadata d (block : VerifiedBlock) (now : N) : run (DagState S) :=
  let block_ref := vb_reference block in
  let d := set_recent_blocks (<[block_ref := BlockInfo_new block]> (ds_recent_blocks d)) d in
  refs ← vec_get (ds_recent_refs_by_authority d) (br_author block_ref);
  all_refs ← vec_set (ds_recent_refs_by_authority d) (br_author block_ref) ({[block_ref]} ∪ refs);
  let d := set_recent_refs_by_authority all_refs d in
  '(clock, advanced) ←
    ThresholdClock_add_block (ctx_committee ctx) (ds_threshold_clock d) block_ref now;
  let d := set_threshold_clock clock d in
  _ ← (if (advanced : bool) then b ← get_last_proposed_block d; Done tt else Done tt);
  Done (set_highest_accepted_round (N.max (ds_highest_accepted_round d) (vb_round block)) d).

(** [accept_block]. *)
Definition accept_block d (block : VerifiedBlock) (now : N) : run (DagState S) :=
  assert! bool_decide (vb_round block ≠ 0);
  let block_ref := vb_reference block in
  contained ← contains_block d block_ref;
  if (contained : bool) then Done d
  else
    _ ← Committee_authority (ctx_committee ctx) (br_author block_ref);
    assert! (negb (bool_decide (br_author block_ref = ctx_own_index ctx)) ||
             bool_decide (get_uncommitted_blocks_at_slot d (Slot_from block_ref) = []));
    d ← update_block_metadata d block now;
    Done (set_blocks_to_write (ds_blocks_to_write d ++ [block]) d).

(** [accept_blocks]. *)
Definition accept_blocks d (blocks : list VerifiedBlock) (now : N) : run (DagState S) :=
  for_each (λ d b, accept_block d b now) d blocks.

(** [ancestors_at_round]: the loop, with fuel. *)
Fixpoint ancestors_loop (fuel : nat) d (earlier_round : Round) (linked : gset BlockRef)
    : run (gset BlockRef) :=
  match set_last linked with
  | None => Done linked
  | Some block_ref =>
      if bool_decide (br_round block_ref ≤ earlier_round) then Done linked
      else
        match fuel with
        | O => NoFuel
        | Datatypes.S fuel =>
            o ← get_block d block_ref;
            block ← expect o;
            ancestors_loop fuel d earlier_round
              (list_to_set (vb_ancestors block) ∪ linked ∖ {[block_ref]})
        end
  end.

(** [ancestors_at_round]. *)
Definition ancestors_at_round (fuel : nat) d (later_block : VerifiedBlock) (earlier_round : Round)
    : run (list VerifiedBlock) :=
  linked ← ancestors_loop fuel d earlier_round (list_to_set (vb_ancestors later_block));
  map_run (λ r, o ← get_block d r; expect o)
    (set_range (Included (mk_ref earlier_round 0%nat BlockDigest_MIN)) Unbounded linked).

(** [get_cached_blocks_in_range]: the loop stops once [limit] is reached. *)
Definition get_cached_blocks_in_range d (authority : AuthorityIndex)
    (start_round end_round : Round) (limit : N) : run (list VerifiedBlock) :=
  if bool_decide (end_round ≤ start_round) || bool_decide (limit = 0) then Done []
  else
    refs ← vec_get (ds_recent_refs_by_authority d) authority;
    map_run (λ r, info ← expect (ds_recent_blocks d !! r); Done (bi_block info))
      (take (N.to_nat limit)
         (set_range (Included (mk_ref start_round authority BlockDigest_MIN))
            (Excluded (mk_ref end_round 0%nat BlockDigest_MIN)) refs)).

(** [get_cached_blocks]: no limit other than the number of references. *)
Definition get_cached_blocks d (authority : AuthorityIndex) (start : Round)
    : run (list VerifiedBlock) :=
  refs ← vec_get (ds_recent_refs_by_authority d) authority;
  get_cached_blocks_in_range d authority start u32_max (N.of_nat (size refs) + 1).

(** [get_last_cached_block_in_range]. *)
Definition get_last_cached_block_in_range d (authority : AuthorityIndex)
    (start_round end_round : Round) : run (option VerifiedBlock) :=
  if bool_decide (end_round ≤ start_round) then Done None
  else
    refs ← vec_get (ds_recent_refs_by_authority d) authority;
    Done (block_ref ← last (set_range (Included (mk_ref start_round authority BlockDigest_MIN))
                         (Excluded (mk_ref end_round 0%nat BlockDigest_MIN)) refs);
          bi_block <$> ds_recent_blocks d !! block_ref).

(** The body of the loop of [get_last_cached_block_per_authority]: the last
    block of the range and the other references of its round. *)
Definition last_cached_of_authority d (end_round : Round) (authority_index : AuthorityIndex)
    (block_refs : gset BlockRef) : run (option VerifiedBlock * list BlockRef) :=
  last_evicted_round ← vec_get (ds_evicted_rounds d) authority_index;
  if bool_decide (saturating_sub end_round 1 ≤ last_evicted_round) then Panic
  else
    let refs := reverse (set_range
      (Included (mk_ref (u32_add last_evicted_round 1) authority_index BlockDigest_MIN))
      (Excluded (mk_ref end_round authority_index BlockDigest_MIN)) block_refs) in
    match refs with
    | [] => Done (None, [])
    | last :: others =>
        info ← expect (ds_recent_blocks d !! last);
        Done (Some (bi_block info),
              take_while (λ r, negb (bool_decide (br_round r < br_round last))) others)
    end.

(** [get_last_cached_block_per_authority]. *)
Definition get_last_cached_block_per_authority d (end_round : Round)
    : run (list (VerifiedBlock * list BlockRef)) :=
  let blocks := (map_list (ds_genesis d)).*2 in
  if bool_decide (end_round = GENESIS_ROUND) then Panic
  else if bool_decide (end_round = GENESIS_ROUND + 1) then Done ((λ b, (b, [])) <$> blocks)
  else
    '(blocks, equivocating_blocks) ←
      for_each (λ '(blocks, equivocating) '(i, block_refs),
          authority_index ← expect (Committee_to_authority_index (ctx_committee ctx) i);
          '(o, others) ← last_cached_of_authority d end_round authority_index block_refs;
          blocks ← match o with
                   | Some b => vec_set blocks authority_index b
                   | None => Done blocks
                   end;
          equivocating ← vec_set equivocating authority_index others;
          Done (blocks, equivocating))
        (blocks, replicate (Committee_size (ctx_committee ctx)) [])
        (imap pair (ds_recent_refs_by_authority d));
    Done (zip blocks equivocating_blocks).

(** [contains_cached_block_at_slot]. *)
Definition contains_cached_block_at_slot d (slot : Slot) : run bool :=
  if bool_decide (s_round slot = GENESIS_ROUND) then Done true
  else
    eviction_round ← vec_get (ds_evicted_rounds d) (s_authority slot);
    if bool_decide (s_round slot ≤ eviction_round) then Panic
    else
      refs ← vec_get (ds_recent_refs_by_authority d) (s_authority slot);
      Done (bool_decide
        (set_range (Included (mk_ref (s_round slot) (s_authority slot) BlockDigest_MIN))
           (Included (mk_ref (s_round slot) (s_authority slot) BlockDigest_MAX)) refs ≠ [])).

(** [set_committed]. *)
Definition set_committed d (block_ref : BlockRef) : run (DagState S * bool) :=
  info ← expect (ds_recent_blocks d !! block_ref);
  if bi_committed info then Done (d, false)
  else Done (set_recent_blocks
               (<[block_ref := mk_info (bi_block info) true (bi_hard_linked info)]>
                  (ds_recent_blocks d)) d, true).

(** [is_committed], [is_hard_linked]. *)
Definition is_committed d (block_ref : BlockRef) : run bool :=
  info ← expect (ds_recent_blocks d !! block_ref); Done (bi_committed info).
Definition is_hard_linked d (block_ref : BlockRef) : run bool :=
  info ← expect (ds_recent_blocks d !! block_ref); Done (bi_hard_linked info).

(** [link_causal_history]: the queue, with fuel. *)
Fixpoint link_loop (fuel : nat) (gc : Round) d (targets linked_blocks : list BlockRef)
    : run (DagState S * list BlockRef) :=
  match targets with
  | [] => Done (d, linked_blocks)
  | block_ref :: targets =>
      match fuel with
      | O => NoFuel
      | Datatypes.S fuel =>
          if bool_decide (br_round block_ref ≤ gc) then link_loop fuel gc d targets linked_blocks
          else
            info ← expect (ds_recent_blocks d !! block_ref);
            if bi_hard_linked info then link_loop fuel gc d targets linked_blocks
            else
              link_loop fuel gc
                (set_recent_blocks
                   (<[block_ref := mk_info (bi_block info) (bi_committed info) true]>
                      (ds_recent_blocks d)) d)
                (targets ++ vb_ancestors (bi_block info)) (linked_blocks ++ [block_ref])
      end
  end.

(** Every cached block is linked at most once, so the queue never sees more
    references than the root and the ancestors of the cached blocks. *)
Definition link_fuel d : nat :=
  Datatypes.S (sum_list ((λ p, length (vb_ancestors (bi_block p.2))) <$>
                           map_to_list (ds_recent_blocks d))).

(** [link_causal_history]. *)
Definition link_causal_history d (root_block : BlockRef) : run (DagState S * list BlockRef) :=
  link_loop (link_fuel d) (gc_round d) d [root_block] [].

Definition threshold_clock_round d : Round := ThresholdClock_get_round (ds_threshold_clock d).
Definition highest_accepted_round d : Round := ds_highest_accepted_round d.

(** The update of the last committed rounds by the blocks of a commit. *)
Definition bump_committed_rounds (rounds : list Round) (blocks : list BlockRef)
    : run (list Round) :=
  for_each (λ rounds r,
      x ← vec_get rounds (br_author r); vec_set rounds (br_author r) (N.max x (br_round r)))
    rounds blocks.

(** [add_commit]. *)
Definition add_commit d (commit : TrustedCommit) (now : N) : run (DagState S) :=
  let go :=
    let commit_round_advanced :=
      match ds_last_commit d with
      | Some previous => bool_decide (tc_commit_round previous < tc_commit_round commit)
      | None => true
      end in
    let d := set_last_commit (Some commit) d in
    let d := if commit_round_advanced
             then set_last_commit_round_advancement_time (Some now) d else d in
    rounds ← bump_committed_rounds (ds_last_committed_rounds d) (tc_blocks commit);
    assert! bool_decide (length rounds ≤ Committee_size (ctx_committee ctx))%nat;
    let d := set_last_committed_rounds rounds d in
    let d := set_pending_commit_votes
               (ds_pending_commit_votes d ++ [TrustedCommit_reference commit]) d in
    Done (set_commits_to_write (ds_commits_to_write d ++ [commit]) d) in
  match ds_last_commit d with
  | Some last_commit =>
      if bool_decide (tc_index commit ≤ tc_index last_commit) then Done d
      else
        assert! bool_decide (tc_index commit = u32_add (tc_index last_commit) 1);
        assert! negb (bool_decide (tc_timestamp_ms commit < tc_timestamp_ms last_commit));
        go
  | None => assert! bool_decide (tc_index commit = 1); go
  end.

(** [recover_commits_to_write], [ensure_commits_to_write_is_empty]. *)
Definition recover_commits_to_write d (commits : list TrustedCommit) : DagState S :=
  set_commits_to_write (ds_commits_to_write d ++ commits) d.
Definition ensure_commits_to_write_is_empty d : run unit :=
  assert! bool_decide (ds_commits_to_write d = []); Done tt.

(** [add_commit_info]. *)
Definition add_commit_info d (reputation_scores : ReputationScores) : run (DagState S) :=
  assert! ScoringSubdag_is_empty (ds_scoring_subdag d);
  last_commit ← expect (ds_last_commit d);
  Done (set_commit_info_to_write
          (ds_commit_info_to_write d ++
             [(TrustedCommit_reference last_commit,
               mk_commit_info (ds_last_committed_rounds d) reputation_scores)]) d).

(** [take_commit_votes]. *)
Definition take_commit_votes d (limit : nat) : DagState S * list CommitRef :=
  (set_pending_commit_votes (drop limit (ds_pending_commit_votes d)) d,
   take limit (ds_pending_commit_votes d)).

(** The [while let] loop of [flush] over the references of an authority, in
    order: pops until the eviction round is passed. *)
Fixpoint evict_loop (eviction : Round) (l : list BlockRef) (blocks : gmap BlockRef BlockInfo)
    (refs : gset BlockRef) : gmap BlockRef BlockInfo * gset BlockRef :=
  match l with
  | [] => (blocks, refs)
  | r :: l =>
      if bool_decide (br_round r ≤ eviction)
      then evict_loop eviction l (delete r blocks) (refs ∖ {[r]})
      else (blocks, refs)
  end.

Definition evict_authority d (a : AuthorityIndex) : run (DagState S) :=
  eviction ← calculate_authority_eviction_round d a;
  refs ← vec_get (ds_recent_refs_by_authority d) a;
  let '(blocks, refs') := evict_loop eviction (set_list refs) (ds_recent_blocks d) refs in
  all_refs ← vec_set (ds_recent_refs_by_authority d) a refs';
  evicted ← vec_set (ds_evicted_rounds d) a eviction;
  Done (set_evicted_rounds evicted
          (set_recent_refs_by_authority all_refs (set_recent_blocks blocks d))).

(** [flush]. *)
Definition flush d : run (DagState S) :=
  let batch := mk_batch (ds_blocks_to_write d) (ds_commits_to_write d)
                 (ds_commit_info_to_write d) in
  let d := set_blocks_to_write [] (set_commits_to_write [] (set_commit_info_to_write [] d)) in
  if bool_decide (wb_blocks batch = []) && bool_decide (wb_commits batch = [])
       && bool_decide (wb_commit_info batch = []) then Done d
  else
    store ← unwrap_result (store_write (ds_store d) batch);
    for_each (λ d '(a, _), evict_authority d a) (set_store store d)
      (Committee_authorities (ctx_committee ctx)).

(** [recover_last_commit_info]. *)
Definition recover_last_commit_info d : run (option (CommitRef * CommitInfo)) :=
  unwrap_result (store_read_last_commit_info (ds_store d)).

(** Delegation to the scoring sub-dag. *)
Definition add_scoring_subdags d (subdags : list CommittedSubDag) : run (DagState S) :=
  s ← ScoringSubdag_add_subdags (ctx_committee ctx) (ds_scoring_subdag d) subdags;
  Done (set_scoring_subdag s d).
Definition clear_scoring_subdag d : DagState S :=
  set_scoring_subdag (ScoringSubdag_clear (ds_scoring_subdag d)) d.
Definition scoring_subdags_count d : run N := ScoringSubdag_scored_subdags_count (ds_scoring_subdag d).
Definition is_scoring_subdag_empty d : bool := ScoringSubdag_is_empty (ds_scoring_subdag d).
Definition calculate_scoring_subdag_scores d : run ReputationScores :=
  ScoringSubdag_calculate_distributed_vote_scores (ctx_committee ctx) (ds_scoring_subdag d).
Definition scoring_subdag_commit_range d : run CommitIndex :=
  r ← expect (ss_commit_range (ds_scoring_subdag d)); Done (CommitRange_end r).

(** [load_committed_subdag_from_store] (commit.rs). *)
Definition load_committed_subdag_from_store (store : S) (commit : TrustedCommit)
    (reputation_scores_desc : list (AuthorityIndex * N)) : run CommittedSubDag :=
  commit_blocks ← unwrap_result (store_read_blocks store (tc_blocks commit));
  blocks ← map_run expect commit_blocks;
  leader_block ← expect (last (filter (λ b, vb_reference b = tc_leader commit) blocks));
  let subdag := CommittedSubDag_new (vb_reference leader_block) blocks (tc_timestamp_ms commit)
                  (TrustedCommit_reference commit) in
  Done (mk_subdag (sd_leader subdag) (sd_blocks subdag) (sd_timestamp_ms subdag)
          (sd_commit_ref subdag) (sd_local subdag) reputation_scores_desc
          (sd_rejected_transactions_by_block subdag)).

(** The recovery loop over commits of [new]: committed rounds and sub-dags. *)
Definition recover_commits (store : S) (rounds : list Round) (commits : list TrustedCommit)
    : run (list Round * list CommittedSubDag) :=
  for_each (λ '(rounds, subdags) commit,
      rounds ← bump_committed_rounds rounds (tc_blocks commit);
      subdag ← load_committed_subdag_from_store store commit [];
      Done (rounds, subdags ++ [subdag]))
    (rounds, []) commits.

(** The recovery loop over authorities of [new]. *)
Definition recover_authority (now : N) d (a : AuthorityIndex) : run (DagState S) :=
  last_block ← unwrap_result (store_scan_last_blocks_by_author (ds_store d) a 1 None);
  let last_block_round := default GENESIS_ROUND (vb_round <$> last last_block) in
  let eviction := eviction_round last_block_round (gc_round d) (ds_cached_rounds d) in
  blocks ← unwrap_result (store_scan_blocks_by_author (ds_store d) a (u32_add eviction 1));
  evicted ← vec_set (ds_evicted_rounds d) a eviction;
  for_each (λ d b, update_block_metadata d b now) (set_evicted_rounds evicted d) blocks.

(** The recovery loop of [new] over commits, backwards. *)
Fixpoint recover_committed (fuel : nat) (gc : Round) d (index : CommitIndex)
    : run (DagState S) :=
  match fuel with
  | O => NoFuel
  | Datatypes.S fuel =>
      commits ← unwrap_result (store_scan_commits (ds_store d) (CommitRange_new index index));
      match head commits with
      | None => Done d
      | Some commit =>
          if bool_decide (0 < gc) && bool_decide (br_round (tc_leader commit) ≤ gc) then Done d
          else
            d ← for_each (λ d r, '(d, first) ← set_committed d r; assert! (first : bool); Done d)
                  d (filter (λ r, gc < br_round r) (tc_blocks commit));
            let index := saturating_sub index 1 in
            if bool_decide (index = 0) then Done d else recover_committed fuel gc d index
      end
  end.

(** [DagState::new]. *)
Definition DagState_new `{BlockCodec} (store : S) (now : N) : run (DagState S) :=
  let num_authorities := Committee_size (ctx_committee ctx) in
  genesis ← genesis_blocks ctx;
  last_commit ← unwrap_result (store_read_last_commit store);
  commit_info ← unwrap_result (store_read_last_commit_info store);
  let '(last_committed_rounds, commit_recovery_start_index) :=
    match commit_info with
    | Some (commit_ref, info) => (ci_committed_rounds info, u32_add (cr_index commit_ref) 1)
    | None => (replicate num_authorities 0, GENESIS_COMMIT_INDEX + 1)
    end in
  '(last_committed_rounds, unscored) ←
    match last_commit with
    | Some last_commit =>
        commits ← unwrap_result (store_scan_commits store
                    (CommitRange_new commit_recovery_start_index (tc_index last_commit)));
        recover_commits store last_committed_rounds commits
    | None => Done (last_committed_rounds, [])
    end;
  scoring_subdag ← ScoringSubdag_add_subdags (ctx_committee ctx) ScoringSubdag_new unscored;
  let state :=
    mk_dag (list_to_map ((λ b, (vb_reference b, b)) <$> genesis)) ∅
      (replicate num_authorities ∅) (ThresholdClock_new 1 now) (replicate num_authorities 0)
      0 last_commit None last_committed_rounds scoring_subdag [] [] [] [] store
      (ctx_dag_state_cached_rounds ctx) in
  state ← for_each (λ d '(a, _), recover_authority now d a) state
            (Committee_authorities (ctx_committee ctx));
  state ← match last_commit with
          | Some last_commit =>
              recover_committed (Datatypes.S (N.to_nat (tc_index last_commit))) (gc_round state)
                state (tc_index last_commit)
          | None => Done state
          end;
  proposed_blocks ← unwrap_result (store_scan_blocks_by_author (ds_store state)
                      (ctx_own_index ctx) (u32_add (gc_round state) 1));
  for_each (λ d b, '(d, _) ← link_causal_history d (vb_reference b); Done d)
    state proposed_blocks.
End dag_state.
