(* ===== verification/DagStateProofs.v ===== *)
(** * Correctness of the DAG state

    The cache together with the store behaves as one map of blocks: lookups
    agree with it, acceptance adds exactly one block to it, and flushing moves
    blocks to the store and evicts old ones without losing any. *)
From S2P Require Import Prelude Committee StakeAggregator Block ThresholdClock Commit LeaderScoring Store DagState.

(** ** Two-pass lookups *)

Lemma fill_missing_spec {A B} (dflt : B) (f : A → B) l known :
  Forall2 (λ x o, o = None ∨ o = Some (f x)) l known →
  fill_missing dflt known (f <$> missing_of l known) = f <$> l.
Proof.
  induction 1 as [|x o l known [->| ->] _ IH]; csimpl; [done|by rewrite IH..].
Qed.

(** ** The last reference of a set *)

Lemma set_last_max (X : gset BlockRef) r : r ∈ X →
  ∃ last, set_last X = Some last ∧ last ∈ X ∧ br_round r ≤ br_round last.
Proof.
  intros Hr. destruct (set_last X) as [last|] eqn:Hl.
  - exists last. apply set_last_Some in Hl as [Hin Hmax]. split; [done|]. split; [done|].
    by apply BlockRef_le_round, Hmax.
  - apply set_last_None in Hl. set_solver.
Qed.

Definition last_round_of (X : gset BlockRef) : Round :=
  default GENESIS_ROUND (br_round <$> set_last X).

Lemma last_round_of_ge (X : gset BlockRef) r : r ∈ X → br_round r ≤ last_round_of X.
Proof.
  intros Hr. unfold last_round_of. by destruct (set_last_max X r Hr) as (last & -> & _ & ?).
Qed.

Lemma last_round_of_mono (X Y : gset BlockRef) : X ⊆ Y → last_round_of X ≤ last_round_of Y.
Proof.
  intros HXY. unfold last_round_of at 1. destruct (set_last X) as [last|] eqn:Hl; simpl.
  - apply set_last_Some in Hl as [Hin _]. apply last_round_of_ge. set_solver.
  - unfold GENESIS_ROUND. lia.
Qed.

(** ** The cache invariant *)

Section dag_proofs.
Context {S : Type} `{StoreLaws S} (ctx : Context).
Implicit Types (d : DagState S) (v : StoreView).

Definition valid_author (a : AuthorityIndex) : Prop :=
  Committee_is_valid_index (ctx_committee ctx) a.

Record dag_inv d v : Prop := {
  di_rel : store_rel (ds_store d) v;
  di_own : valid_author (ctx_own_index ctx);
  di_cached : 0 < ds_cached_rounds d;
  di_len : length (ds_recent_refs_by_authority d) = Committee_size (ctx_committee ctx);
  di_len_evicted : length (ds_evicted_rounds d) = Committee_size (ctx_committee ctx);
  di_genesis r b : ds_genesis d !! r = Some b → br_round r = GENESIS_ROUND;
  di_genesis_all a : valid_author a → ∃ r b, ds_genesis d !! r = Some b ∧ br_author r = a;
  di_refs a X r : ds_recent_refs_by_authority d !! a = Some X →
    r ∈ X ↔ is_Some (ds_recent_blocks d !! r) ∧ br_author r = a;
  di_recent r info : ds_recent_blocks d !! r = Some info →
    vb_reference (bi_block info) = r ∧ 0 < br_round r ∧ valid_author (br_author r) ∧
    (bi_block info ∈ ds_blocks_to_write d ∨ sv_blocks v !! r = Some (bi_block info));
  di_to_write b : b ∈ ds_blocks_to_write d →
    sv_blocks v !! vb_reference b = None ∧
    ∃ info, ds_recent_blocks d !! vb_reference b = Some info ∧ bi_block info = b;
  di_store r b : sv_blocks v !! r = Some b →
    0 < br_round r ∧ valid_author (br_author r) ∧
    ∃ X last e, ds_recent_refs_by_authority d !! br_author r = Some X ∧
      set_last X = Some last ∧ br_round r ≤ br_round last ∧
      ds_evicted_rounds d !! br_author r = Some e ∧
      (is_Some (ds_recent_blocks d !! r) ∨ br_round r ≤ e);
  di_evicted a X e : ds_recent_refs_by_authority d !! a = Some X →
    ds_evicted_rounds d !! a = Some e →
    e ≤ eviction_round (last_round_of X) (gc_round ctx d) (ds_cached_rounds d);
}.

(** The blocks the DAG state knows: genesis, cache and store as one map. *)
Definition dag_lookup d v (r : BlockRef) : option VerifiedBlock :=
  if bool_decide (br_round r = GENESIS_ROUND) then ds_genesis d !! r
  else match ds_recent_blocks d !! r with
       | Some info => Some (bi_block info)
       | None => sv_blocks v !! r
       end.

Lemma dag_refs_at d v a : dag_inv d v → valid_author a →
  ∃ X, ds_recent_refs_by_authority d !! a = Some X.
Proof.
  intros Hinv Ha. apply lookup_lt_is_Some. rewrite (di_len _ _ Hinv).
  unfold valid_author, Committee_is_valid_index in Ha. by rewrite bool_decide_spec in Ha.
Qed.

Lemma dag_evicted_at d v a : dag_inv d v → valid_author a →
  ∃ e, ds_evicted_rounds d !! a = Some e.
Proof.
  intros Hinv Ha. apply lookup_lt_is_Some. rewrite (di_len_evicted _ _ Hinv).
  unfold valid_author, Committee_is_valid_index in Ha. by rewrite bool_decide_spec in Ha.
Qed.

(** In particular the cache and the store never disagree on a block. *)
Lemma dag_store_agree d v r info b : dag_inv d v →
  ds_recent_blocks d !! r = Some info → sv_blocks v !! r = Some b → bi_block info = b.
Proof.
  intros Hinv Hr Hb. destruct (di_recent _ _ Hinv _ _ Hr) as (Href & _ & _ & [Hw|Hs]).
  - apply (di_to_write _ _ Hinv) in Hw as [Hn _]. rewrite Href in Hn. congruence.
  - congruence.
Qed.

Lemma dag_lookup_store d v r b : dag_inv d v →
  sv_blocks v !! r = Some b → dag_lookup d v r = Some b.
Proof.
  intros Hinv Hb. unfold dag_lookup, GENESIS_ROUND.
  destruct (di_store _ _ Hinv _ _ Hb) as (Hr & _ & _).
  rewrite bool_decide_eq_false_2 by lia.
  destruct (ds_recent_blocks d !! r) as [info|] eqn:Hi; [|done].
  f_equal. by eapply dag_store_agree.
Qed.

Lemma dag_lookup_recent d v r info : dag_inv d v →
  ds_recent_blocks d !! r = Some info → dag_lookup d v r = Some (bi_block info).
Proof.
  intros Hinv Hi. unfold dag_lookup, GENESIS_ROUND.
  destruct (di_recent _ _ Hinv _ _ Hi) as (_ & Hr & _).
  rewrite bool_decide_eq_false_2 by lia. by rewrite Hi.
Qed.

Lemma dag_lookup_reference d v r b : dag_inv d v → br_round r ≠ GENESIS_ROUND →
  dag_lookup d v r = Some b → vb_reference b = r.
Proof.
  intros Hinv Hr. unfold dag_lookup. rewrite bool_decide_eq_false_2 by done.
  destruct (ds_recent_blocks d !! r) as [info|] eqn:Hi.
  - intros [= <-]. by destruct (di_recent _ _ Hinv _ _ Hi).
  - intros Hb. destruct (law_view _ _ (di_rel _ _ Hinv)) as [Hv _]. by apply Hv.
Qed.

(** ** Lookups *)

Lemma get_blocks_spec d v refs : dag_inv d v →
  get_blocks d refs = Done (dag_lookup d v <$> refs).
Proof.
  intros Hinv. unfold get_blocks.
  assert (Hknown : Forall2 (λ r o, o = None ∨ o = Some (dag_lookup d v r)) refs
                     (get_in_cache d <$> refs)).
  { apply Forall2_fmap_r, Forall_Forall2_diag, Forall_forall. intros r _.
    unfold get_in_cache, dag_lookup; simpl. destruct (bool_decide _); [by right|].
    destruct (ds_recent_blocks d !! r); [by right|by left]. }
  assert (Hmiss : ∀ r, r ∈ missing_of refs (get_in_cache d <$> refs) →
            sv_blocks v !! r = dag_lookup d v r).
  { clear Hknown. intros r Hr. induction refs as [|r' refs IH]; csimpl in *; [set_solver|].
    destruct (get_in_cache d r') eqn:Hc; csimpl in *; [by apply IH|].
    apply elem_of_cons in Hr as [->|Hr]; [|by apply IH].
    unfold get_in_cache, dag_lookup in *. destruct (bool_decide _); [done|].
    by destruct (ds_recent_blocks d !! r'). }
  pose proof (fill_missing_spec None _ _ _ Hknown) as Hfill.
  destruct (missing_of refs (get_in_cache d <$> refs)) as [|m ms] eqn:Hms.
  - by rewrite <-Hfill.
  - rewrite (law_read_blocks _ v) by apply Hinv. rewrite <-Hfill.
    rewrite (list_fmap_ext (λ r, sv_blocks v !! r) (dag_lookup d v)); [done|].
    intros i r Hr%list_elem_of_lookup_2. by apply Hmiss.
Qed.

Lemma get_block_spec d v r : dag_inv d v → get_block d r = Done (dag_lookup d v r).
Proof. intros Hinv. unfold get_block. by rewrite (get_blocks_spec d v). Qed.

Lemma contains_in_cache_spec d v r : dag_inv d v → valid_author (br_author r) →
  ∃ o, contains_in_cache d r = Done o ∧
    (o = Some (bool_decide (is_Some (dag_lookup d v r))) ∨
     o = None ∧ (is_Some (dag_lookup d v r) ↔ is_Some (sv_blocks v !! r))).
Proof.
  intros Hinv Ha. destruct (dag_refs_at d v (br_author r) Hinv Ha) as [X HX].
  unfold contains_in_cache, vec_get. rewrite HX. simpl.
  case_bool_decide as Hrx; simpl.
  { eexists. split; [done|]. left. symmetry. f_equal. apply bool_decide_eq_true_2.
    apply (di_refs _ _ Hinv _ _ _ HX) in Hrx as [[info Hi] _].
    by rewrite (dag_lookup_recent d v _ info). }
  assert (Hnone : ds_recent_blocks d !! r = None).
  { apply eq_None_not_Some. intros Hs. apply Hrx. by apply (di_refs _ _ Hinv _ _ _ HX). }
  case_bool_decide as Hg; simpl.
  { eexists. split; [done|]. left. symmetry. f_equal. apply bool_decide_eq_true_2.
    unfold dag_lookup. destruct Hg as [b Hb]. rewrite (di_genesis _ _ Hinv _ _ Hb).
    rewrite bool_decide_eq_true_2 by done. rewrite Hb. eauto. }
  assert (Hlk : is_Some (dag_lookup d v r) ↔ is_Some (sv_blocks v !! r)).
  { split; [|intros [b Hb]; rewrite (dag_lookup_store d v r b); eauto].
    unfold dag_lookup. rewrite Hnone. case_bool_decide; [intros; by destruct Hg|done]. }
  destruct (set_last X) as [last|] eqn:Hlast; [case_bool_decide as Hlt|].
  - eexists. split; [done|]. left. symmetry. f_equal. apply bool_decide_eq_false_2.
    intros [b Hb]%Hlk. apply (di_store _ _ Hinv) in Hb as (_ & _ & X' & l & e & HX' & Hl & Hle & _).
    rewrite HX in HX'. simplify_eq. lia.
  - eexists. split; [done|]. by right.
  - eexists. split; [done|]. left. symmetry. f_equal. apply bool_decide_eq_false_2.
    intros [b Hb]%Hlk. apply (di_store _ _ Hinv) in Hb as (_ & _ & X' & l & e & HX' & Hl & Hle & _).
    rewrite HX in HX'. by simplify_eq.
Qed.

Lemma contains_blocks_spec d v refs : dag_inv d v →
  Forall (λ r, valid_author (br_author r)) refs →
  contains_blocks d refs = Done ((λ r, bool_decide (is_Some (dag_lookup d v r))) <$> refs).
Proof.
  intros Hinv Hvalid. unfold contains_blocks.
  set (f := λ r, bool_decide (is_Some (dag_lookup d v r))).
  assert (∃ known, map_run (contains_in_cache d) refs = Done known ∧
            Forall2 (λ r o, o = None ∨ o = Some (f r)) refs known ∧
            ∀ r, r ∈ missing_of refs known →
              is_Some (dag_lookup d v r) ↔ is_Some (sv_blocks v !! r))
    as (known & -> & Hknown & Hmiss).
  { induction Hvalid as [|r refs Hr _ (known & Hk & Hf & Hm)]; [exists []; split_and!; [done|constructor|set_solver]|].
    destruct (contains_in_cache_spec d v r Hinv Hr) as (o & Ho & Hspec).
    exists (o :: known). simpl. rewrite Ho. simpl. rewrite Hk. split; [done|].
    destruct Hspec as [->|[-> Hiff]]; (split; [constructor; [by auto|done]|]); simpl; [done|].
    intros r' [->|Hr']%elem_of_cons; auto. }
  simpl. pose proof (fill_missing_spec false f _ _ Hknown) as Hfill.
  destruct (missing_of refs known) as [|m ms] eqn:Hms.
  - by rewrite <-Hfill.
  - rewrite (law_contains_blocks _ v) by apply Hinv. rewrite <-Hfill.
    rewrite (list_fmap_ext (λ r, bool_decide (is_Some (sv_blocks v !! r))) f); [done|].
    intros i r Hr%list_elem_of_lookup_2. apply bool_decide_ext. symmetry. by apply Hmiss.
Qed.

Lemma contains_block_spec d v r : dag_inv d v → valid_author (br_author r) →
  contains_block d r = Done (bool_decide (is_Some (dag_lookup d v r))).
Proof.
  intros Hinv Hr. unfold contains_block. rewrite (contains_blocks_spec d v); [done..|].
  by constructor.
Qed.

(** ** Acceptance *)

Lemma get_last_block_Done d a X :
  ds_recent_refs_by_authority d !! a = Some X →
  (∀ r, r ∈ X → is_Some (ds_recent_blocks d !! r)) →
  (∃ r b, ds_genesis d !! r = Some b ∧ br_author r = a) →
  ∃ b, get_last_block_for_authority d a = Done b.
Proof.
  intros HX Hrecent (r & b & Hb & Ha). unfold get_last_block_for_authority, vec_get.
  rewrite HX. simpl. destruct (set_last X) as [last|] eqn:Hl.
  - apply set_last_Some in Hl as [Hin _]. apply Hrecent in Hin as [info ->]. simpl. eauto.
  - destruct (list_find_elem_of (λ p : BlockRef * VerifiedBlock, br_author p.1 = a)
                (map_list (ds_genesis d)) (r, b)) as [[i [r' b']] Hf];
      [by apply elem_of_map_list|done|].
    rewrite Hf. simpl. eauto.
Qed.

(** What [update_block_metadata] changes. *)
Lemma update_block_metadata_spec d v b now : dag_inv d v → valid_author (vb_author b) →
  ∃ d' X clock, update_block_metadata ctx d b now = Done d' ∧
    ds_recent_refs_by_authority d !! vb_author b = Some X ∧
    d' = set_highest_accepted_round (N.max (ds_highest_accepted_round d) (vb_round b))
           (set_threshold_clock clock
             (set_recent_refs_by_authority
               (<[vb_author b := {[vb_reference b]} ∪ X]> (ds_recent_refs_by_authority d))
               (set_recent_blocks
                 (<[vb_reference b := BlockInfo_new b]> (ds_recent_blocks d)) d))).
Proof.
  intros Hinv Hv. destruct (dag_refs_at d v _ Hinv Hv) as [X HX].
  unfold update_block_metadata, vec_get. simpl. rewrite HX. simpl.
  unfold vec_set. rewrite decide_True by (by eapply lookup_lt_Some). simpl.
  destruct (ThresholdClock_add_block_Done (ctx_committee ctx) (ds_threshold_clock d)
              (vb_reference b) now Hv) as [[clock adv] ->]. simpl.
  match goal with |- context [get_last_proposed_block ctx ?d1] => set (d1' := d1) end.
  assert (∃ b', get_last_proposed_block ctx d1' = Done b') as [b' Hb'].
  { unfold get_last_proposed_block.
    destruct (dag_refs_at d v _ Hinv (di_own _ _ Hinv)) as [Y HY].
    assert (∀ r, r ∈ Y → is_Some (<[vb_reference b:=BlockInfo_new b]> (ds_recent_blocks d) !! r)).
    { intros r [[i Hi] _]%(di_refs _ _ Hinv _ _ _ HY). rewrite lookup_insert.
      case_decide; [by eauto|]. by rewrite Hi. }
    destruct (decide (vb_author b = ctx_own_index ctx)) as [Heq|Hne].
    - eapply (get_last_block_Done d1' _ ({[vb_reference b]} ∪ X)); simpl.
      + rewrite <-Heq. apply list_lookup_insert_eq. by eapply lookup_lt_Some.
      + rewrite <-Heq, HX in HY. simplify_eq.
        intros r [->%elem_of_singleton|Hr]%elem_of_union; [rewrite lookup_insert_eq; eauto|auto].
      + apply (di_genesis_all _ _ Hinv), Hinv.
    - eapply (get_last_block_Done d1' _ Y); simpl.
      + by rewrite list_lookup_insert_ne.
      + done.
      + apply (di_genesis_all _ _ Hinv), Hinv. }
  exists (set_highest_accepted_round (N.max (ds_highest_accepted_round d) (vb_round b)) d1'), X, clock.
  split; [|done]. destruct adv; [by rewrite Hb'|done].
Qed.

Lemma dag_lookup_None d v r : dag_lookup d v r = None → br_round r ≠ GENESIS_ROUND →
  ds_recent_blocks d !! r = None ∧ sv_blocks v !! r = None.
Proof.
  unfold dag_lookup. intros Hl Hr. rewrite bool_decide_eq_false_2 in Hl by done.
  by destruct (ds_recent_blocks d !! r).
Qed.

(** Adding a new block to the cache and to the write buffer keeps the
    invariant. *)
Lemma dag_inv_add d v b X clock h : dag_inv d v → valid_author (vb_author b) →
  vb_round b ≠ 0 → dag_lookup d v (vb_reference b) = None →
  ds_recent_refs_by_authority d !! vb_author b = Some X →
  dag_inv (set_blocks_to_write (ds_blocks_to_write d ++ [b])
           (set_highest_accepted_round h
           (set_threshold_clock clock
             (set_recent_refs_by_authority
               (<[vb_author b := {[vb_reference b]} ∪ X]> (ds_recent_refs_by_authority d))
               (set_recent_blocks
                 (<[vb_reference b := BlockInfo_new b]> (ds_recent_blocks d)) d))))) v.
Proof.
  intros Hinv Hv Hr0 Hnew HX.
  destruct (dag_lookup_None d v _ Hnew Hr0) as [Hnr Hns].
  pose proof (lookup_lt_Some _ _ _ HX) as Hlt.
  split; simpl; try apply Hinv.
  - rewrite length_insert. apply Hinv.
  - intros a Y r. rewrite list_lookup_insert, lookup_insert. case_decide as Ha.
    + destruct Ha as [<- _]. intros [= <-]. rewrite elem_of_union, elem_of_singleton.
      rewrite (di_refs _ _ Hinv _ _ _ HX). case_decide as Heq.
      * subst r. split; [intros _; split; [by eauto|done]|by left].
      * split; [intros [->|?]; done|by right].
    + intros HY. rewrite (di_refs _ _ Hinv _ _ _ HY). case_decide as Heq; [|done].
      subst r. rewrite Hnr. split; [by intros [[] ?]|].
      intros [_ <-]. by destruct Ha.
  - intros r info. rewrite lookup_insert. case_decide as Heq.
    + intros [= <-]. simpl. subst r. simpl. split; [done|]. split; [lia|]. split; [done|].
      left. apply elem_of_app. right. left.
    + intros Hi. destruct (di_recent _ _ Hinv _ _ Hi) as (? & ? & ? & [?|?]); split_and!; auto.
      left. apply elem_of_app. by left.
  - intros b' [Hb'|Hb'%list_elem_of_singleton]%elem_of_app.
    + apply (di_to_write _ _ Hinv) in Hb' as (Hn & info & Hi & <-). split; [done|].
      exists info. split; [|done]. rewrite lookup_insert_ne; [done|]. congruence.
    + subst b'. split; [done|]. eexists. by rewrite lookup_insert_eq.
  - intros r b' Hb'. destruct (di_store _ _ Hinv _ _ Hb') as (? & ? & Y & last & e & HY & Hl & Hle & He & Hor).
    split; [done|]. split; [done|].
    assert (Hor' : is_Some (<[vb_reference b:=BlockInfo_new b]> (ds_recent_blocks d) !! r) ∨
              br_round r ≤ e).
    { rewrite lookup_insert. case_decide; [left; by eauto|done]. }
    rewrite list_lookup_insert. case_decide as Ha; [|by exists Y, last, e].
    destruct Ha as [Ha _]. rewrite <-Ha, HX in HY. injection HY as <-.
    assert (Hin : last ∈ {[vb_reference b]} ∪ X) by (apply set_last_Some in Hl; set_solver).
    destruct (set_last_max _ _ Hin) as (last' & Hl' & _ & Hge).
    exists ({[vb_reference b]} ∪ X), last', e. split_and!; [done..|lia|done|done].
  - intros a Y e. rewrite list_lookup_insert. case_decide as Ha.
    + destruct Ha as [<- _]. intros [= <-] He.
      pose proof (di_evicted _ _ Hinv _ _ _ HX He).
      pose proof (last_round_of_mono X ({[vb_reference b]} ∪ X) ltac:(set_solver)).
      unfold eviction_round, saturating_sub, gc_round, last_commit_round in *. simpl. lia.
    + apply (di_evicted _ _ Hinv).
Qed.

(** Accepting a block: nothing changes when the block is known; otherwise
    exactly that block is added. *)
Lemma accept_block_spec d v b now : dag_inv d v → valid_author (vb_author b) →
  vb_round b ≠ 0 →
  (vb_author b = ctx_own_index ctx → dag_lookup d v (vb_reference b) = None →
     get_uncommitted_blocks_at_slot d (Slot_from (vb_reference b)) = []) →
  ∃ d', accept_block ctx d b now = Done d' ∧ dag_inv d' v ∧
    ds_last_commit d' = ds_last_commit d ∧
    (∀ r, dag_lookup d' v r =
       if decide (r = vb_reference b) then
         match dag_lookup d v r with Some b' => Some b' | None => Some b end
       else dag_lookup d v r) ∧
    (∀ r info, ds_recent_blocks d !! r = Some info → ds_recent_blocks d' !! r = Some info) ∧
    (is_Some (ds_recent_blocks d' !! vb_reference b) ∨ d' = d).
Proof.
  intros Hinv Hv Hr0 Hown. unfold accept_block. rewrite bool_decide_eq_true_2 by done.
  rewrite (contains_block_spec d v) by done. simpl.
  case_bool_decide as Hk.
  { exists d. split_and!; [done..| |by auto|by right].
    intros r. case_decide; [|done]. subst r. by destruct Hk as [? ->]. }
  assert (Hnew : dag_lookup d v (vb_reference b) = None) by (by apply eq_None_not_Some).
  destruct (Committee_authority (ctx_committee ctx) (vb_author b)) as [auth| |] eqn:Hauth.
  2,3: exfalso; unfold valid_author, Committee_is_valid_index, Committee_size in Hv;
    rewrite bool_decide_spec in Hv; apply lookup_lt_is_Some in Hv as [? Hv];
    unfold Committee_authority, vec_get in Hauth; by rewrite Hv in Hauth.
  simpl. destruct (_ || _) eqn:Hslot.
  2: { exfalso. apply orb_false_iff in Hslot as [Ho Hs].
       apply negb_false_iff, bool_decide_eq_true in Ho. apply bool_decide_eq_false in Hs. auto. }
  destruct (update_block_metadata_spec d v b now Hinv Hv) as (d1 & X & clock & -> & HX & ->).
  simpl. eexists. split; [done|]. split; [by apply dag_inv_add|]. split; [done|].
  destruct (dag_lookup_None d v _ Hnew Hr0) as [Hnr Hns].
  split_and!.
  - intros r. destruct (decide (r = vb_reference b)) as [->|Hne]; simpl.
    + rewrite Hnew. unfold dag_lookup. simpl.
      by rewrite bool_decide_eq_false_2, lookup_insert_eq.
    + unfold dag_lookup. simpl. by rewrite lookup_insert_ne.
  - intros r info Hi. simpl. rewrite lookup_insert_ne; [done|]. congruence.
  - left. simpl. rewrite lookup_insert_eq. eauto.
Qed.
(** ** Flushing and eviction *)

Lemma evict_loop_spec ev (l : list BlockRef) blocks refs :
  StronglySorted key_le l →
  (∀ r, (evict_loop ev l blocks refs).1 !! r =
     if decide (r ∈ l ∧ br_round r ≤ ev) then None else blocks !! r) ∧
  (∀ r, r ∈ (evict_loop ev l blocks refs).2 ↔ r ∈ refs ∧ ¬ (r ∈ l ∧ br_round r ≤ ev)).
Proof.
  intros Hs. revert blocks refs. induction Hs as [|x l Hl IH Hx]; intros blocks refs;
    cbn [evict_loop fst snd].
  - split; intros r; [rewrite decide_False by set_solver; done|set_solver].
  - case_bool_decide as Hev.
    + destruct (IH (delete x blocks) (refs ∖ {[x]})) as [Hb Hr]. split; intros r.
      * rewrite Hb. rewrite lookup_delete. repeat case_decide; set_solver.
      * rewrite Hr. set_solver.
    + assert (Hno : ∀ r, r ∈ x :: l → ¬ br_round r ≤ ev).
      { intros r [->|Hr]%elem_of_cons; [done|]. rewrite Forall_forall in Hx.
        specialize (Hx r Hr). apply BlockRef_le_round in Hx. lia. }
      split; intros r; [rewrite decide_False; [done|]; intros [Hin Hle]; by apply (Hno r)|].
      split; [|by intros [? _]]. intros Hr. split; [done|]. intros [Hin Hle]. by apply (Hno r).
Qed.

Lemma evict_authority_spec d v a : dag_inv d v → valid_author a →
  ds_blocks_to_write d = [] →
  ∃ d' ev X, evict_authority ctx d a = Done d' ∧ dag_inv d' v ∧
    ds_recent_refs_by_authority d !! a = Some X ∧
    ev = eviction_round (last_round_of X) (gc_round ctx d) (ds_cached_rounds d) ∧
    d' = set_evicted_rounds (ds_evicted_rounds d')
           (set_recent_refs_by_authority (ds_recent_refs_by_authority d')
             (set_recent_blocks (ds_recent_blocks d') d)) ∧
    (∀ r, ds_recent_blocks d' !! r =
       if decide (br_author r = a ∧ br_round r ≤ ev) then None else ds_recent_blocks d !! r) ∧
    (∀ a' Y', ds_recent_refs_by_authority d' !! a' = Some Y' →
       ∃ Y, ds_recent_refs_by_authority d !! a' = Some Y ∧ last_round_of Y' = last_round_of Y).
Proof.
  intros Hinv Ha Hw. destruct (dag_refs_at d v a Hinv Ha) as [X HX].
  destruct (dag_evicted_at d v a Hinv Ha) as [e He].
  set (ev := eviction_round (last_round_of X) (gc_round ctx d) (ds_cached_rounds d)).
  unfold evict_authority, calculate_authority_eviction_round, vec_get. rewrite HX. simpl.
  fold (last_round_of X). fold ev.
  destruct (evict_loop_spec ev (set_list X) (ds_recent_blocks d) X (set_list_sorted X))
    as [Hblocks Hrefs].
  destruct (evict_loop ev (set_list X) (ds_recent_blocks d) X) as [blocks refs]; simpl in *.
  unfold vec_set. rewrite decide_True by (by eapply lookup_lt_Some). simpl.
  rewrite decide_True by (by eapply lookup_lt_Some). simpl.
  assert (Hb' : ∀ r, blocks !! r = if decide (br_author r = a ∧ br_round r ≤ ev) then None
                                    else ds_recent_blocks d !! r).
  { intros r. rewrite Hblocks.
    destruct (decide (r ∈ set_list X ∧ _)) as [[Hin ?]|Hn],
             (decide (br_author r = a ∧ _)) as [[Hra ?]|Hn']; try done.
    - apply elem_of_set_list, (di_refs _ _ Hinv _ _ _ HX) in Hin as [_ ?]. by destruct Hn'.
    - apply eq_None_not_Some. intros Hs. apply Hn. split; [|done].
      by apply elem_of_set_list, (di_refs _ _ Hinv _ _ _ HX). }
  assert (HinX : ∀ r, r ∈ refs ↔ r ∈ X ∧ ev < br_round r).
  { intros r. rewrite Hrefs, elem_of_set_list. split.
    - intros [? Hn]. split; [done|]. apply N.nle_gt. intros ?. by apply Hn.
    - intros [? Hlt]. split; [done|]. intros [_ ?]. lia. }
  assert (Hlast : ∀ last, set_last X = Some last → set_last refs = Some last).
  { intros last Hl. pose proof Hl as [Hin Hmax]%set_last_Some.
    apply set_last_Some. split; [|intros y [? _]%HinX; auto].
    apply HinX. split; [done|].
    pose proof (di_cached _ _ Hinv) as Hc. apply (di_refs _ _ Hinv _ _ _ HX) in Hin as [[i Hi] _].
    destruct (di_recent _ _ Hinv _ _ Hi) as (_ & Hpos & _).
    unfold ev, last_round_of, eviction_round, saturating_sub. rewrite Hl. simpl. lia. }
  assert (Hlr : last_round_of refs = last_round_of X).
  { unfold last_round_of. destruct (set_last X) as [last|] eqn:Hl; [by rewrite (Hlast last)|].
    apply set_last_None in Hl as ->. destruct (set_last refs) as [y|] eqn:Hy; [|done].
    apply set_last_Some in Hy as [[? _]%HinX _]. set_solver. }
  exists (set_evicted_rounds (<[a:=ev]> (ds_evicted_rounds d))
           (set_recent_refs_by_authority (<[a:=refs]> (ds_recent_refs_by_authority d))
             (set_recent_blocks blocks d))), ev, X.
  split; [done|]. split.
  2: { split_and!; [done..|]. intros a' Y'. simpl. rewrite list_lookup_insert. case_decide as Ha'.
       - destruct Ha' as [<- _]. intros [= <-]. eauto.
       - eauto. }
  split; simpl; try apply Hinv.
  - rewrite length_insert. apply Hinv.
  - rewrite length_insert. apply Hinv.
  - intros a' Y r. rewrite list_lookup_insert, Hb'. case_decide as Ha'.
    + destruct Ha' as [<- _]. intros [= <-]. rewrite HinX, (di_refs _ _ Hinv _ _ _ HX).
      destruct (decide (br_author r = a ∧ br_round r ≤ ev)) as [[??]|Hn].
      * split; [intros []; lia|by intros [[] _]].
      * split; [by intros [[] ?]|]. intros [? ?]. split; [done|].
        apply N.nle_gt. intros ?. by destruct Hn.
    + intros HY. rewrite (di_refs _ _ Hinv _ _ _ HY).
      destruct (decide (br_author r = a ∧ br_round r ≤ ev)) as [[Hra _]|]; [|done].
      split; [|by intros [[] _]]. intros [_ Hra']. destruct Ha'.
      split; [congruence|]. by eapply lookup_lt_Some.
  - intros r info. rewrite Hb'. case_decide; [done|]. apply (di_recent _ _ Hinv).
  - rewrite Hw. set_solver.
  - intros r b Hb. destruct (di_store _ _ Hinv _ _ Hb) as (? & ? & Y & last & e' & HY & Hl & Hle & He' & Hor).
    split; [done|]. split; [done|].
    destruct (decide (br_author r = a)) as [Hra|Hra].
    + rewrite Hra in HY, He'. simplify_eq. exists refs, last, ev.
      rewrite !list_lookup_insert_eq by (by eapply lookup_lt_Some). split_and!; auto.
      rewrite Hb'. pose proof (di_evicted _ _ Hinv _ _ _ HX He) as Hevd.
      destruct (decide (br_author r = br_author r ∧ br_round r ≤ ev)) as [[_ ?]|Hn]; [by right|].
      destruct Hor as [?|?]; [by left|right]. fold ev in Hevd. lia.
    + exists Y, last, e'. rewrite !list_lookup_insert_ne by done. split_and!; auto.
      rewrite Hb', decide_False by (by intros []). done.
  - intros a' Y e'. rewrite !list_lookup_insert. case_decide as Ha'.
    + destruct Ha' as [<- _]. intros [= <-]. rewrite decide_True; [|split; [done|by eapply lookup_lt_Some]].
      intros [= <-]. rewrite Hlr. done.
    + intros HY. case_decide as Ha''; [|by apply (di_evicted _ _ Hinv)].
      destruct Ha'' as [<- _], Ha'. split; [done|]. by eapply lookup_lt_Some.
Qed.
(** Writing the buffers moves the blocks to the store. *)
Lemma dag_inv_written d v store' commits infos : dag_inv d v →
  store_rel store' (view_write v (mk_batch (ds_blocks_to_write d) commits infos)) →
  let d1 := set_store store'
    (set_blocks_to_write [] (set_commits_to_write [] (set_commit_info_to_write [] d))) in
  let v' := view_write v (mk_batch (ds_blocks_to_write d) commits infos) in
  dag_inv d1 v' ∧ ∀ r, dag_lookup d1 v' r = dag_lookup d v r.
Proof.
  intros Hinv Hrel d1 v'.
  assert (Hin : ∀ b, b ∈ ds_blocks_to_write d → sv_blocks v' !! vb_reference b = Some b).
  { intros b Hb. unfold v'. rewrite view_write_blocks. apply view_add_blocks_lookup_in; [|done].
    intros b' Hb' Heq. apply (di_to_write _ _ Hinv) in Hb as (_ & i & Hi & <-).
    apply (di_to_write _ _ Hinv) in Hb' as (_ & i' & Hi' & <-). congruence. }
  assert (Hout : ∀ r, (∀ b, b ∈ ds_blocks_to_write d → vb_reference b ≠ r) →
            sv_blocks v' !! r = sv_blocks v !! r).
  { intros r Hr. unfold v'. rewrite view_write_blocks. by apply view_add_blocks_lookup. }
  assert (Hcase : ∀ r b, sv_blocks v' !! r = Some b →
            b ∈ ds_blocks_to_write d ∧ r = vb_reference b ∨ sv_blocks v !! r = Some b).
  { intros r b Hb. destruct (decide (r ∈ vb_reference <$> ds_blocks_to_write d)) as [Hr|Hr].
    - apply list_elem_of_fmap in Hr as (b' & -> & Hb'). left. rewrite (Hin b' Hb') in Hb.
      by simplify_eq.
    - right. rewrite <-Hout; [done|]. intros b' Hb' <-. apply Hr.
      by apply list_elem_of_fmap_2. }
  split.
  - split; simpl; try apply Hinv; try done.
    + intros r info Hi. destruct (di_recent _ _ Hinv _ _ Hi) as (Href & ? & ? & Hor).
      split_and!; auto. right. destruct Hor as [Hw|Hs]; [rewrite <-Href; by apply Hin|].
      destruct (decide (r ∈ vb_reference <$> ds_blocks_to_write d)) as [Hr|Hr].
      * apply list_elem_of_fmap in Hr as (b' & -> & Hb'). rewrite (Hin b' Hb').
        apply (di_to_write _ _ Hinv) in Hb' as (Hn & _). congruence.
      * rewrite Hout; [done|]. intros b' Hb' <-. apply Hr. by apply list_elem_of_fmap_2.
    + set_solver.
    + intros r b [[Hb ->]|Hb]%Hcase; [|by eapply (di_store _ _ Hinv)].
      apply (di_to_write _ _ Hinv) in Hb as (_ & i & Hi & <-).
      destruct (di_recent _ _ Hinv _ _ Hi) as (_ & Hpos & Hv & _).
      split; [done|]. split; [done|].
      destruct (dag_refs_at d v _ Hinv Hv) as [X HX].
      destruct (dag_evicted_at d v _ Hinv Hv) as [e He].
      destruct (set_last_max X (vb_reference (bi_block i))) as (last & Hl & _ & Hle).
      { apply (di_refs _ _ Hinv _ _ _ HX). eauto. }
      exists X, last, e. eauto 8.
  - intros r. unfold dag_lookup; simpl. case_bool_decide; [done|].
    destruct (ds_recent_blocks d !! r) as [i|] eqn:Hi; [done|]. apply Hout.
    intros b Hb <-. apply (di_to_write _ _ Hinv) in Hb as (_ & i & Hi' & _). congruence.
Qed.
(** The state after some authorities have been evicted. *)
Record evicted_from (d1 d2 : DagState S) v : Prop := {
  ef_inv : dag_inv d2 v;
  ef_buffers : ds_blocks_to_write d2 = [] ∧ ds_commits_to_write d2 = [] ∧
               ds_commit_info_to_write d2 = [];
  ef_same : ds_last_commit d2 = ds_last_commit d1 ∧ ds_cached_rounds d2 = ds_cached_rounds d1 ∧
            ds_genesis d2 = ds_genesis d1 ∧ ds_store d2 = ds_store d1;
  ef_recent r info : ds_recent_blocks d2 !! r = Some info → ds_recent_blocks d1 !! r = Some info;
  ef_last a Y : ds_recent_refs_by_authority d2 !! a = Some Y →
    ∃ X, ds_recent_refs_by_authority d1 !! a = Some X ∧ last_round_of Y = last_round_of X;
  ef_kept r info X : ds_recent_blocks d1 !! r = Some info →
    ds_recent_refs_by_authority d1 !! br_author r = Some X →
    gc_round ctx d1 < br_round r ∨ last_round_of X < br_round r + ds_cached_rounds d1 →
    ds_recent_blocks d2 !! r = Some info;
}.

Lemma evict_step d1 d2 v a : dag_inv d1 v → evicted_from d1 d2 v → valid_author a →
  ∃ d3, evict_authority ctx d2 a = Done d3 ∧ evicted_from d1 d3 v.
Proof.
  intros Hinv1 [Hinv (Hw & Hcw & Hiw) (Hlc & Hcr & Hg & Hst) Hrec Hlast Hkept] Ha.
  destruct (evict_authority_spec d2 v a Hinv Ha Hw)
    as (d3 & ev & X & Hrun & Hinv3 & HX & -> & Heq & Hb & Hrefs).
  exists d3. split; [done|].
  assert (Hgc : gc_round ctx d2 = gc_round ctx d1).
  { unfold gc_round, last_commit_round. by rewrite Hlc. }
  split; [done|by rewrite Heq|by rewrite Heq| | |].
  - intros r info. rewrite Hb. case_decide; [done|]. apply Hrec.
  - intros a' Y (Y2 & HY2 & ->)%Hrefs. by apply Hlast.
  - intros r info X1 Hi HX1 Hor. rewrite Hb.
    rewrite decide_False; [by eapply Hkept|]. intros [Hra Hle]. subst a.
    destruct (Hlast _ _ HX) as (X1' & HX1' & Hlr). rewrite HX1 in HX1'. simplify_eq.
    destruct (di_recent _ _ Hinv1 _ _ Hi) as (_ & Hpos & _).
    unfold eviction_round, saturating_sub in Hle. rewrite Hlr, Hcr, Hgc in Hle. lia.
Qed.

Lemma valid_authorities_list i a :
  (i, a) ∈ Committee_authorities (ctx_committee ctx) → valid_author i.
Proof.
  unfold Committee_authorities, valid_author, Committee_is_valid_index, Committee_size.
  intros (j & Hj)%list_elem_of_lookup. rewrite list_lookup_imap in Hj.
  apply fmap_Some in Hj as (a' & Ha' & [= -> ->]). rewrite bool_decide_spec.
  by eapply lookup_lt_Some.
Qed.

(** Flushing a state that satisfies the invariant. *)
Lemma flush_spec d v : dag_inv d v →
  Forall st_block_ok (ds_blocks_to_write d) → Forall st_commit_ok (ds_commits_to_write d) →
  ∃ d' v', flush ctx d = Done d' ∧ dag_inv d' v' ∧
    v' = view_write v (mk_batch (ds_blocks_to_write d) (ds_commits_to_write d)
                         (ds_commit_info_to_write d)) ∧
    (ds_blocks_to_write d' = [] ∧ ds_commits_to_write d' = [] ∧ ds_commit_info_to_write d' = []) ∧
    ds_last_commit d' = ds_last_commit d ∧
    (∀ r, dag_lookup d' v' r = dag_lookup d v r) ∧
    (∀ r info, ds_recent_blocks d' !! r = Some info → ds_recent_blocks d !! r = Some info) ∧
    (∀ r info X, ds_recent_blocks d !! r = Some info →
       ds_recent_refs_by_authority d !! br_author r = Some X →
       gc_round ctx d < br_round r ∨ last_round_of X < br_round r + ds_cached_rounds d →
       ds_recent_blocks d' !! r = Some info).
Proof.
  intros Hinv Hbok Hcok. unfold flush.
  set (batch := mk_batch _ _ _). set (d0 := set_blocks_to_write [] _).
  destruct (_ && _) eqn:Hempty.
  - apply andb_true_iff in Hempty as [[He1 He2]%andb_true_iff He3].
    apply bool_decide_eq_true in He1, He2, He3. simpl in *.
    assert (d0 = d) as Hd0 by (unfold d0; destruct d; simpl in *; by subst).
    exists d, v. rewrite Hd0. split; [done|]. split; [done|].
    split; [unfold batch; by rewrite He1, He2, He3|]. auto 8.
  - destruct (law_write (ds_store d) v batch (di_rel _ _ Hinv) Hbok Hcok)
      as (store' & Hwr & Hrel). change (ds_store d0) with (ds_store d). rewrite Hwr. simpl.
    destruct (dag_inv_written d v store' (ds_commits_to_write d) (ds_commit_info_to_write d)
                Hinv Hrel) as [Hinv1 Hlk1]. fold batch in Hinv1, Hlk1.
    set (d1 := set_store store' d0) in *. set (v1 := view_write v batch) in *.
    destruct (for_each_total (λ d2, evicted_from d1 d2 v1)
                (λ d '(a, _), evict_authority ctx d a) d1
                (Committee_authorities (ctx_committee ctx))) as (d2 & Hrun & Hef).
    + split; try done; eauto.
    + intros d2 [i a] Hi%valid_authorities_list Hef. by apply evict_step.
    + exists d2, v1. destruct Hef as [Hinv2 Hbuf (Hlc & Hcr & Hg & Hst) Hrec Hlast Hkept].
      split_and!; try done; try apply Hbuf.
      intros r. transitivity (dag_lookup d1 v1 r); [|apply Hlk1].
      unfold dag_lookup. rewrite Hg. destruct (bool_decide (br_round r = _)); [done|].
      destruct (ds_recent_blocks d2 !! r) as [i|] eqn:Hi; [by rewrite (Hrec _ _ Hi)|].
      destruct (ds_recent_blocks d1 !! r) as [i|] eqn:Hi1; [|done].
      destruct (di_recent _ _ Hinv1 _ _ Hi1) as (_ & _ & _ & [Hw|?]); [|done].
      simpl in Hw. set_solver.
Qed.
(** ** Commits *)

Lemma bump_committed_rounds_spec rounds blocks :
  Forall (λ r, br_author r < length rounds)%nat blocks →
  ∃ rounds', bump_committed_rounds rounds blocks = Done rounds' ∧
    length rounds' = length rounds ∧
    ∀ a x, rounds !! a = Some x → ∃ y, rounds' !! a = Some y ∧ x ≤ y ∧
      (∀ r, r ∈ blocks → br_author r = a → br_round r ≤ y) ∧
      (y = x ∨ ∃ r, r ∈ blocks ∧ br_author r = a ∧ br_round r = y).
Proof.
  induction blocks as [|b blocks IH] using rev_ind; intros Hv.
  - exists rounds. split; [done|]. split; [done|]. intros a x Hx. exists x.
    split_and!; [done|lia|set_solver|by left].
  - apply Forall_app in Hv as [Hv [Hb _]%Forall_cons_1].
    destruct (IH Hv) as (rounds1 & Hrun & Hlen & Hspec).
    unfold bump_committed_rounds in *. rewrite for_each_app, Hrun. simpl.
    rewrite <-Hlen in Hb. destruct (lookup_lt_is_Some_2 _ _ Hb) as [z Hz].
    unfold vec_get, vec_set. rewrite Hz. simpl. rewrite decide_True by done. simpl.
    eexists. split; [done|]. rewrite length_insert. split; [done|].
    intros a x Hx. destruct (Hspec a x Hx) as (y & Hy & Hxy & Hmax & Hor).
    destruct (decide (br_author b = a)) as [Ha|Ha].
    + subst a. rewrite Hz in Hy. simplify_eq.
      exists (N.max y (br_round b)). rewrite list_lookup_insert_eq by done.
      split; [done|]. split; [lia|]. split.
      * intros r [Hr| ->%list_elem_of_singleton]%elem_of_app Hra; [specialize (Hmax r Hr Hra)|]; lia.
      * destruct (N.max_spec y (br_round b)) as [[_ ->]|[_ ->]].
        -- right. exists b. split; [apply elem_of_app; right; left|done].
        -- destruct Hor as [?|(r & ? & ?)]; [by left|right]. exists r. split; [|done].
           apply elem_of_app. by left.
    + exists y. rewrite list_lookup_insert_ne by done. split; [done|]. split; [done|]. split.
      * intros r [Hr| ->%list_elem_of_singleton]%elem_of_app Hra; [by apply Hmax|done].
      * destruct Hor as [?|(r & ? & ?)]; [by left|right]. exists r. split; [|done].
        apply elem_of_app. by left.
Qed.

(** The invariant only depends on the GC round among what a commit changes. *)
Lemma dag_inv_commit d v c t rounds votes commits : dag_inv d v →
  last_commit_round d ≤ br_round (tc_leader c) →
  dag_inv (set_commits_to_write commits (set_pending_commit_votes votes
    (set_last_committed_rounds rounds (set_last_commit_round_advancement_time t
      (set_last_commit (Some c) d))))) v.
Proof.
  intros Hinv Hround. split; simpl; try apply Hinv.
  intros a X e HX He. pose proof (di_evicted _ _ Hinv _ _ _ HX He) as Hle.
  unfold eviction_round, gc_round, calculate_gc_round, saturating_sub in *.
  unfold last_commit_round at 1. simpl. lia.
Qed.

(** The condition under which [add_commit] accepts a commit. *)
Definition next_commit d (c : TrustedCommit) : Prop :=
  match ds_last_commit d with
  | Some last => tc_index c = tc_index last + 1 ∧ tc_timestamp_ms last ≤ tc_timestamp_ms c
  | None => tc_index c = 1
  end.

Lemma add_commit_spec d v c now : dag_inv d v → next_commit d c → tc_index c ≤ u32_max →
  length (ds_last_committed_rounds d) = Committee_size (ctx_committee ctx) →
  Forall (λ r, valid_author (br_author r)) (tc_blocks c) →
  last_commit_round d ≤ br_round (tc_leader c) →
  ∃ d' rounds, add_commit ctx d c now = Done d' ∧ dag_inv d' v ∧
    bump_committed_rounds (ds_last_committed_rounds d) (tc_blocks c) = Done rounds ∧
    ds_last_committed_rounds d' = rounds ∧
    ds_last_commit d' = Some c ∧
    ds_pending_commit_votes d' = ds_pending_commit_votes d ++ [TrustedCommit_reference c] ∧
    ds_commits_to_write d' = ds_commits_to_write d ++ [c] ∧
    ds_recent_blocks d' = ds_recent_blocks d ∧ ds_genesis d' = ds_genesis d ∧
    gc_round ctx d ≤ gc_round ctx d'.
Proof.
  intros Hinv Hnext Hmax Hlen Hv Hround.
  destruct (bump_committed_rounds_spec (ds_last_committed_rounds d) (tc_blocks c))
    as (rounds & Hb & Hlen' & _).
  { eapply Forall_impl; [exact Hv|]. intros r Hr. unfold valid_author, Committee_is_valid_index in Hr.
    rewrite bool_decide_spec in Hr. by rewrite Hlen. }
  assert (Hgc : ∀ x, calculate_gc_round ctx (last_commit_round d) ≤
                     calculate_gc_round ctx (br_round (tc_leader c)) + x).
  { unfold calculate_gc_round, saturating_sub. intros x. lia. }
  specialize (Hgc 0). rewrite N.add_0_r in Hgc.
  unfold add_commit. unfold next_commit in Hnext.
  destruct (ds_last_commit d) as [last|] eqn:Hl.
  - destruct Hnext as [Hi Ht]. rewrite bool_decide_eq_false_2 by lia.
    rewrite u32_add_small, bool_decide_eq_true_2 by lia.
    rewrite bool_decide_eq_false_2 by lia. simpl.
    destruct (bool_decide (tc_commit_round last < tc_commit_round c)); simpl; rewrite Hb; simpl;
      rewrite bool_decide_eq_true_2 by lia; eexists _, rounds;
      (split; [done|]); split_and!; try done.
    + by apply (dag_inv_commit d v c (Some now)).
    + by apply (dag_inv_commit d v c (ds_last_commit_round_advancement_time d)).
  - rewrite bool_decide_eq_true_2 by done. simpl. rewrite Hb. simpl.
    rewrite bool_decide_eq_true_2 by lia. eexists _, rounds.
    split; [done|]. split_and!; try done. by apply (dag_inv_commit d v c (Some now)).
Qed.
(** ** The state of a node that starts with an empty store *)

Definition fresh_dag (genesis : list VerifiedBlock) (store : S) (now : N) : DagState S :=
  let n := Committee_size (ctx_committee ctx) in
  mk_dag (list_to_map ((λ b, (vb_reference b, b)) <$> genesis)) ∅ (replicate n ∅)
    (ThresholdClock_new 1 now) (replicate n 0) 0 None None (replicate n 0) ScoringSubdag_new
    [] [] [] [] store (ctx_dag_state_cached_rounds ctx).

Lemma view_author_blocks_empty a lo hi : view_author_blocks view_empty a lo hi = [].
Proof. unfold view_author_blocks. simpl. by rewrite map_list_empty. Qed.

Lemma recover_authority_fresh genesis store now a : store_rel store view_empty → valid_author a →
  recover_authority ctx now (fresh_dag genesis store now) a = Done (fresh_dag genesis store now).
Proof.
  intros Hrel Ha. unfold valid_author, Committee_is_valid_index in Ha. rewrite bool_decide_spec in Ha.
  unfold recover_authority. simpl.
  rewrite (law_scan_last_blocks store view_empty), view_author_blocks_empty by done. simpl.
  rewrite (law_scan_blocks store view_empty), view_author_blocks_empty by done. simpl.
  unfold vec_set. rewrite decide_True by (by rewrite length_replicate). simpl.
  unfold eviction_round, gc_round, calculate_gc_round, last_commit_round, saturating_sub, GENESIS_ROUND.
  simpl. rewrite N.min_0_l. unfold set_evicted_rounds, fresh_dag. simpl. repeat f_equal.
  apply list_insert_id. by apply lookup_replicate_2.
Qed.

Lemma DagState_new_fresh `{BlockCodec} genesis store now :
  store_rel store view_empty → genesis_blocks ctx = Done genesis →
  DagState_new ctx store now = Done (fresh_dag genesis store now).
Proof.
  intros Hrel Hg. unfold DagState_new. rewrite Hg. simpl.
  rewrite (law_read_last_commit store view_empty), (law_read_last_commit_info store view_empty)
    by done.
  unfold view_last_info, map_last. cbn [sv_commits sv_info view_empty]. rewrite !map_list_empty.
  simpl.
  change (mk_dag _ _ _ _ _ _ _ _ _ _ _ _ _ _ _ _) with (fresh_dag genesis store now).
  destruct (for_each_total (λ d, d = fresh_dag genesis store now)
              (λ d '(a, _), recover_authority ctx now d a) (fresh_dag genesis store now)
              (Committee_authorities (ctx_committee ctx))) as (d & -> & ->); [done| |].
  - intros d [i a] Hi%valid_authorities_list ->. by rewrite recover_authority_fresh; eauto.
  - simpl. by rewrite (law_scan_blocks store view_empty), view_author_blocks_empty.
Qed.

Lemma genesis_lookup genesis r b :
  (list_to_map ((λ b, (vb_reference b, b)) <$> genesis) : gmap BlockRef VerifiedBlock) !! r = Some b →
  b ∈ genesis ∧ r = vb_reference b.
Proof.
  intros (b' & [= -> ->] & ?)%elem_of_list_to_map_2%list_elem_of_fmap. done.
Qed.

Lemma fresh_dag_inv `{BlockCodec} genesis store now :
  store_rel store view_empty → genesis_blocks ctx = Done genesis →
  valid_author (ctx_own_index ctx) → 0 < ctx_dag_state_cached_rounds ctx →
  dag_inv (fresh_dag genesis store now) view_empty.
Proof.
  intros Hrel [Hlen Hg]%genesis_blocks_spec Hown Hc.
  split; simpl; try done; try (rewrite length_replicate; done).
  - intros r b [Hb ->]%genesis_lookup. apply list_elem_of_lookup in Hb as [i Hi].
    by destruct (Hg i b Hi).
  - intros a Ha. unfold valid_author, Committee_is_valid_index in Ha. rewrite bool_decide_spec in Ha.
    rewrite <-Hlen in Ha. apply lookup_lt_is_Some in Ha as [b Hb].
    destruct (Hg a b Hb) as (_ & Hauth & _).
    assert (NoDup ((λ b, (vb_reference b, b)) <$> genesis).*1).
    { rewrite <-list_fmap_compose. apply NoDup_alt. intros i j x.
      rewrite !list_lookup_fmap. intros (bi & Hi & ->)%fmap_Some (bj & Hj & Heq)%fmap_Some.
      simpl in Heq. destruct (Hg _ _ Hi) as (_ & <- & _), (Hg _ _ Hj) as (_ & <- & _).
      by injection Heq. }
    exists (vb_reference b), b. split; [|done]. apply elem_of_list_to_map_1; [done|].
    apply list_elem_of_fmap. exists b. split; [done|]. by eapply list_elem_of_lookup_2.
  - intros a X r [-> _]%lookup_replicate. rewrite lookup_empty.
    split; [set_solver|by intros [[] _]].
  - set_solver.
  - intros a X e [-> _]%lookup_replicate [-> _]%lookup_replicate. lia.
Qed.

(** ** Theorems *)

(** Existence checks and reads agree: [contains_blocks] answers, for each
    reference, whether [get_blocks] finds the block, although it skips the
    store for references above the cached ones; both answer from genesis,
    the cache and the store seen as one map. *)
Theorem dag_lookups_agree d v refs : dag_inv d v →
  Forall (λ r, valid_author (br_author r)) refs →
  get_blocks d refs = Done (dag_lookup d v <$> refs) ∧
  contains_blocks d refs = Done ((λ r, bool_decide (is_Some (dag_lookup d v r))) <$> refs).
Proof. intros Hinv Hv. split; [by apply get_blocks_spec|by apply contains_blocks_spec]. Qed.

(** Accepting a block makes it readable under its reference, leaves every
    other block as it was, and accepting it again changes nothing. *)
Theorem accept_block_readable d v b now : dag_inv d v → valid_author (vb_author b) →
  vb_round b ≠ 0 → dag_lookup d v (vb_reference b) = None →
  (vb_author b = ctx_own_index ctx →
     get_uncommitted_blocks_at_slot d (Slot_from (vb_reference b)) = []) →
  ∃ d', accept_block ctx d b now = Done d' ∧ dag_inv d' v ∧
    get_block d' (vb_reference b) = Done (Some b) ∧
    (∀ r, r ≠ vb_reference b → get_block d' r = get_block d r) ∧
    accept_block ctx d' b now = Done d'.
Proof.
  intros Hinv Hv Hr Hnew Hown.
  destruct (accept_block_spec d v b now Hinv Hv Hr) as (d' & Hrun & Hinv' & _ & Hlk & _ & _).
  { auto. }
  assert (Hb : dag_lookup d' v (vb_reference b) = Some b).
  { rewrite Hlk, decide_True by done. by rewrite Hnew. }
  exists d'. split; [done|]. split; [done|].
  split; [by rewrite (get_block_spec d' v), Hb|]. split.
  - intros r Hne. rewrite (get_block_spec d' v), (get_block_spec d v), Hlk by done.
    by rewrite decide_False.
  - unfold accept_block. rewrite bool_decide_eq_true_2 by done.
    rewrite (contains_block_spec d' v) by done. rewrite Hb. done.
Qed.


End dag_proofs.

(** ** A concrete node: four authorities, GC depth 2, five cached rounds, and
    one accepted block over an empty RocksDB store. *)

Definition dag_test_ctx : Context := test_context 4 2 5.
Definition dag_test_genesis : list VerifiedBlock :=
  match genesis_blocks dag_test_ctx with Done g => g | _ => [] end.
Definition dag_test0 : DagState RocksDBStore := fresh_dag dag_test_ctx dag_test_genesis rocks_empty 0.
Definition dag_test_block : VerifiedBlock := store_test_block Byte.x01 Byte.x01.
Definition dag_test1 : DagState RocksDBStore :=
  match accept_block dag_test_ctx dag_test0 dag_test_block 1 with Done d => d | _ => dag_test0 end.
Definition dag_test_commit : TrustedCommit :=
  mk_trusted (Commit_new 1 0 7 (vb_reference dag_test_block) [vb_reference dag_test_block]) 5 [].

Lemma dag_test0_inv : dag_inv dag_test_ctx dag_test0 view_empty.
Proof. by refine (fresh_dag_inv dag_test_ctx dag_test_genesis rocks_empty 0 rocks_empty_rel _ _ _). Qed.

Lemma dag_test1_inv : dag_inv dag_test_ctx dag_test1 view_empty.
Proof.
  destruct (accept_block_spec dag_test_ctx dag_test0 view_empty dag_test_block 1 dag_test0_inv)
    as (d' & Hrun & Hinv & _); [done..|].
  unfold dag_test1. by rewrite Hrun.
Qed.

Lemma dag_test0_new :
  DagState_new dag_test_ctx rocks_empty 0 = Done dag_test0.
Proof. by refine (DagState_new_fresh dag_test_ctx dag_test_genesis rocks_empty 0 rocks_empty_rel _). Qed.

Lemma dag_lookups_agree_witness :
  contains_blocks dag_test1 [vb_reference dag_test_block; mk_ref 9 2%nat 0] = Done [true; false] ∧
  get_blocks dag_test1 [vb_reference dag_test_block; mk_ref 9 2%nat 0] =
    Done [Some dag_test_block; None].
Proof.
  destruct (dag_lookups_agree dag_test_ctx dag_test1 view_empty
    [vb_reference dag_test_block; mk_ref 9 2%nat 0] dag_test1_inv) as [-> ->];
    [by repeat constructor|].
  split; vm_compute; reflexivity.
Defined.

Lemma accept_block_readable_witness :
  ∃ d', accept_block dag_test_ctx dag_test0 dag_test_block 1 = Done d' ∧
    get_block d' (vb_reference dag_test_block) = Done (Some dag_test_block).
Proof.
  destruct (accept_block_readable dag_test_ctx dag_test0 view_empty dag_test_block 1 dag_test0_inv)
    as (d' & Hrun & _ & Hget & _); [done..|].
  by exists d'.
Defined.


