(* ===== verification/DagTraversal.v ===== *)
(** * Traversals of the DAG: [ancestors_at_round] and [link_causal_history]

    Both loops terminate and compute exactly the part of the causal history
    they are meant to. *)
From S2P Require Import Prelude Committee StakeAggregator Block ThresholdClock Commit LeaderScoring Store DagState DagStateProofs.

(** ** Causal history over a lookup function *)

(** [link lk x y]: the block [x] has the ancestor [y]. *)
Definition link (lk : BlockRef → option VerifiedBlock) (x y : BlockRef) : Prop :=
  ∃ b, lk x = Some b ∧ y ∈ vb_ancestors b.

(** Ancestors have lower rounds, as block verification guarantees. *)
Definition rounds_decrease (lk : BlockRef → option VerifiedBlock) : Prop :=
  ∀ x y, link lk x y → br_round y < br_round x.

Lemma rtc_link_round lk x y : rounds_decrease lk → rtc (link lk) x y →
  x = y ∨ br_round y < br_round x.
Proof.
  intros Hdec. induction 1 as [|x z y Hxz Hzy IH]; [by left|].
  right. specialize (Hdec _ _ Hxz). destruct IH as [->|]; lia.
Qed.

Section ancestors.
Context {S : Type} `{Store S} (d : DagState S) (lk : BlockRef → option VerifiedBlock).
Context (Hget : ∀ r, get_block d r = Done (lk r)) (Hdec : rounds_decrease lk).
Context (later : VerifiedBlock) (earlier : Round).

(** The causal history of the later block. *)
Definition history (y : BlockRef) : Prop :=
  ∃ z, z ∈ vb_ancestors later ∧ rtc (link lk) z y.

(** The history is known down to the earlier round, within a finite set. *)
Context (C : gset BlockRef).
Context (Hknown : ∀ x, history x → earlier ≤ br_round x → is_Some (lk x)).
Context (HC : ∀ x b, lk x = Some b → x ∈ C).

Record trav_inv (P L : gset BlockRef) : Prop := {
  ti_P : P ⊆ C;
  ti_disj : P ## L;
  ti_below x p : x ∈ L → p ∈ P → br_round x ≤ br_round p;
  ti_history x : x ∈ L → history x;
  ti_cover y : history y → br_round y = earlier → ∃ z, z ∈ L ∧ rtc (link lk) z y;
}.

Lemma trav_init : trav_inv ∅ (list_to_set (vb_ancestors later)).
Proof.
  clear. split; [set_solver|set_solver|set_solver| |].
  - intros x Hx%elem_of_list_to_set. by exists x.
  - intros y (z & Hz & Hr) _. exists z. split; [by apply elem_of_list_to_set|done].
Qed.

Lemma trav_step P L m b : trav_inv P L → set_last L = Some m → earlier < br_round m →
  lk m = Some b → trav_inv ({[m]} ∪ P) (list_to_set (vb_ancestors b) ∪ L ∖ {[m]}).
Proof using Hdec HC.
  clear Hget Hknown. intros [HP Hdisj Hbelow Hhist Hcover] [Hm Hmax]%set_last_Some Hr Hb.
  assert (Hanc : ∀ y, y ∈ vb_ancestors b → br_round y < br_round m).
  { intros y Hy. apply Hdec. by exists b. }
  assert (Hle : ∀ y, y ∈ L → br_round y ≤ br_round m).
  { intros y Hy. by apply BlockRef_le_round, Hmax. }
  split.
  - specialize (HC m b Hb). set_solver.
  - intros y [->%elem_of_singleton|Hy]%elem_of_union [Hy'%elem_of_list_to_set|Hy']%elem_of_union;
      [specialize (Hanc _ Hy'); lia|set_solver| |set_solver].
    specialize (Hanc _ Hy'). specialize (Hbelow m y Hm Hy). lia.
  - intros x p [Hx%elem_of_list_to_set|Hx]%elem_of_union [->%elem_of_singleton|Hp]%elem_of_union.
    + specialize (Hanc _ Hx). lia.
    + specialize (Hanc _ Hx). specialize (Hbelow m p Hm Hp). lia.
    + apply Hle. set_solver.
    + apply Hbelow; set_solver.
  - intros x [Hx%elem_of_list_to_set|Hx]%elem_of_union; [|apply Hhist; set_solver].
    destruct (Hhist m Hm) as (z & Hz & Hzm). exists z. split; [done|].
    eapply rtc_r; [done|]. by exists b.
  - intros y Hy Hyr. destruct (Hcover y Hy Hyr) as (z & Hz & Hzy).
    destruct (decide (z = m)) as [->|Hne]; [|exists z; set_solver].
    inversion Hzy as [|? z' ? (b' & Hb' & Hz') Hrest]; subst; [lia|].
    rewrite Hb in Hb'. simplify_eq. exists z'. split; [|done].
    apply elem_of_union. left. by apply elem_of_list_to_set.
Qed.

Definition to_visit : gset BlockRef := filter (λ x, earlier < br_round x) C.

Lemma to_visit_next P L m : trav_inv P L → m ∈ L → earlier < br_round m → m ∈ to_visit ∖ P.
Proof using Hknown HC.
  intros Hinv Hm Hr. apply elem_of_difference. split.
  - apply elem_of_filter. split; [done|].
    destruct (Hknown m) as [b Hb]; [by apply Hinv|lia|]. by apply (HC m b).
  - intros HmP. by apply (ti_disj _ _ Hinv m).
Qed.

Lemma ancestors_loop_spec fuel P L : trav_inv P L →
  (size (to_visit ∖ P) ≤ fuel)%nat →
  ∃ L' P', ancestors_loop fuel d earlier L = Done L' ∧ trav_inv P' L' ∧
    ∀ x, x ∈ L' → br_round x ≤ earlier.
Proof using Hget Hdec HC Hknown.
  revert P L. induction fuel as [|fuel IH]; intros P L Hinv Hsize; simpl;
    (destruct (set_last L) as [m|] eqn:Hm;
     [|exists L, P; split_and!; [done..|]; apply set_last_None in Hm; set_solver]);
    pose proof Hm as [HmL Hmax]%set_last_Some;
    (case_bool_decide as Hr;
     [exists L, P; split_and!; [done..|]; intros x Hx; specialize (Hmax x Hx);
      apply BlockRef_le_round in Hmax; lia|]).
  - exfalso. apply N.nle_gt in Hr. pose proof (to_visit_next P L m Hinv HmL Hr) as Hin.
    assert (size (to_visit ∖ P) ≠ 0)%nat; [|lia].
    apply size_non_empty_iff. set_solver.
  - destruct (Hknown m) as [b Hb]; [by apply Hinv|lia|].
    rewrite Hget. simpl. rewrite Hb. simpl.
    apply (IH ({[m]} ∪ P)); [by eapply trav_step; [..|lia|]|].
    assert (size (to_visit ∖ ({[m]} ∪ P)) <
            size (to_visit ∖ P))%nat; [|lia].
    apply subset_size. split; [set_solver|]. intros Hsub.
    apply N.nle_gt in Hr. pose proof (to_visit_next P L m Hinv HmL Hr) as Hin.
    apply Hsub in Hin. set_solver.
Qed.
(** Enough fuel: one step per block above the earlier round. The result is
    exactly the part of the history at that round. *)
Lemma ancestors_at_round_history fuel : (size C ≤ fuel)%nat →
  ∃ bs, ancestors_at_round fuel d later earlier = Done bs ∧
    ∀ b, b ∈ bs ↔ ∃ r, history r ∧ br_round r = earlier ∧ lk r = Some b.
Proof using Hget Hdec HC Hknown.
  intros Hfuel.
  destruct (ancestors_loop_spec fuel ∅ (list_to_set (vb_ancestors later)) trav_init)
    as (L & P & Hrun & Hinv & Hle).
  { assert (size (to_visit ∖ ∅) ≤ size C)%nat; [|lia]. apply subseteq_size.
    unfold to_visit. set_solver. }
  unfold ancestors_at_round. rewrite Hrun. simpl.
  set (rs := set_range _ _ L).
  assert (Hrs : ∀ r, r ∈ rs ↔ r ∈ L ∧ br_round r = earlier).
  { intros r. unfold rs, set_range. rewrite list_elem_of_filter, elem_of_set_list.
    unfold above_bound, below_bound. simpl. rewrite andb_true_r.
    unfold BlockRef_le, BlockDigest_MIN. rewrite bool_decide_spec. simpl.
    split; [intros [? HL]; specialize (Hle r HL); split; [done|lia]|].
    intros [? ?]. split; [|done]. destruct (br_author r); lia. }
  assert (Hall : ∀ r, r ∈ rs → is_Some (lk r)).
  { intros r [HL Hr]%Hrs. apply Hknown; [by apply Hinv|lia]. }
  assert (Hmap : ∃ bs, map_run (λ r, o ← get_block d r; expect o) rs = Done bs ∧
            ∀ b, b ∈ bs ↔ ∃ r, r ∈ rs ∧ lk r = Some b).
  { clear Hrs. induction rs as [|r rs' IH]; [exists []; split; [done|set_solver]|].
    destruct IH as (bs & Hbs & Hin); [intros; apply Hall; by right|].
    destruct (Hall r) as [b Hb]; [by left|]. exists (b :: bs). simpl.
    rewrite Hget. simpl. rewrite Hb. simpl. rewrite Hbs. split; [done|].
    intros b'. rewrite elem_of_cons, Hin. setoid_rewrite elem_of_cons.
    split; [intros [->|(r' & ? & ?)]; eauto|].
    intros (r' & [->|?] & ?); [left; congruence|right; eauto]. }
  destruct Hmap as (bs & Hbs & Hin). exists bs. split; [done|]. intros b. rewrite Hin. split.
  - intros (r & [HL Hr]%Hrs & Hb). exists r. split; [by apply Hinv|done].
  - intros (r & Hh & Hr & Hb). exists r. split; [|done]. apply Hrs. split; [|done].
    destruct (ti_cover _ _ Hinv r Hh Hr) as (z & Hz & Hzr).
    destruct (rtc_link_round _ _ _ Hdec Hzr) as [->|Hlt]; [done|].
    specialize (Hle z Hz). lia.
Qed.
End ancestors.

(** ** Hard links *)

Section links.
Context {S : Type} `{Store S} (ctx : Context) (gc : Round).
Implicit Types (d : DagState S) (m : gmap BlockRef BlockInfo).

Definition linked m (r : BlockRef) : Prop :=
  ∃ info, m !! r = Some info ∧ bi_hard_linked info = true.

(** Ancestors above the GC round are cached with the block. *)
Definition causally_cached m : Prop :=
  ∀ r info a, m !! r = Some info → a ∈ vb_ancestors (bi_block info) → gc < br_round a →
    is_Some (m !! a).

(** Hard links are closed under ancestors above the GC round. *)
Definition links_closed m (targets : list BlockRef) : Prop :=
  ∀ r info a, m !! r = Some info → bi_hard_linked info = true →
    a ∈ vb_ancestors (bi_block info) → gc < br_round a → linked m a ∨ a ∈ targets.

(** Only hard links change. *)
Definition same_but_links m m' : Prop :=
  ∀ r, (λ i, (bi_block i, bi_committed i)) <$> m' !! r =
       (λ i, (bi_block i, bi_committed i)) <$> m !! r.

Definition cached_link m (x y : BlockRef) : Prop :=
  ∃ info, m !! x = Some info ∧ y ∈ vb_ancestors (bi_block info).

Definition link_weight (p : BlockRef * BlockInfo) : nat :=
  if bi_hard_linked p.2 then 0%nat else length (vb_ancestors (bi_block p.2)).
Definition unlinked_weight m : nat := sum_list (link_weight <$> map_to_list m).

Lemma unlinked_weight_link m r info :
  m !! r = Some info → bi_hard_linked info = false →
  (unlinked_weight (<[r := mk_info (bi_block info) (bi_committed info) true]> m) +
   length (vb_ancestors (bi_block info)) = unlinked_weight m)%nat.
Proof.
  intros Hr Hl. unfold unlinked_weight.
  rewrite <-(map_to_list_delete m r info Hr).
  rewrite <-insert_delete_eq, map_to_list_insert by apply lookup_delete_eq.
  csimpl. assert (link_weight (r, info) = length (vb_ancestors (bi_block info))) as ->
    by (unfold link_weight; simpl; by rewrite Hl).
  lia.
Qed.

Lemma link_fuel_enough d : (unlinked_weight (ds_recent_blocks d) < link_fuel d)%nat.
Proof.
  unfold unlinked_weight, link_fuel. apply Nat.lt_succ_r.
  induction (map_to_list (ds_recent_blocks d)) as [|p l IH]; csimpl; [lia|].
  unfold link_weight at 1. destruct (bi_hard_linked p.2); lia.
Qed.

Lemma same_but_links_trans m1 m2 m3 :
  same_but_links m1 m2 → same_but_links m2 m3 → same_but_links m1 m3.
Proof. intros H1 H2 r. by rewrite H2. Qed.

Lemma same_but_links_link m r info :
  m !! r = Some info →
  same_but_links m (<[r := mk_info (bi_block info) (bi_committed info) true]> m).
Proof.
  intros Hr r'. rewrite lookup_insert. case_decide; [subst; by rewrite Hr|done].
Qed.

Lemma linked_insert m r info x : m !! r = Some info →
  linked (<[r := mk_info (bi_block info) (bi_committed info) true]> m) x ↔ x = r ∨ linked m x.
Proof.
  intros Hr. unfold linked. rewrite lookup_insert. case_decide as Hx.
  - subst. split; [by left|]. intros _. by eexists.
  - split; [by right|]. by intros [->|?].
Qed.

(** The loop invariant. *)
Record link_inv m0 (root : BlockRef) m (targets acc : list BlockRef) : Prop := {
  li_same : same_but_links m0 m;
  li_closed : links_closed m targets;
  li_acc : NoDup acc;
  li_new r : r ∈ acc ↔ linked m r ∧ ¬ linked m0 r;
  li_old r : linked m0 r → linked m r;
  li_reach r : r ∈ targets ∨ r ∈ acc → rtc (cached_link m0) root r;
  li_above r : r ∈ acc → gc < br_round r;
  li_cached r : r ∈ targets → gc < br_round r → is_Some (m0 !! r);
  li_root : gc < br_round root → root ∈ targets ∨ linked m root;
}.

Lemma link_inv_skip m0 root m t targets acc :
  link_inv m0 root m (t :: targets) acc → (gc < br_round t → linked m t) →
  link_inv m0 root m targets acc.
Proof.
  intros [Hs Hc Ha Hn Ho Hr Hab Hca Hroot] Ht. split; try done.
  - intros r info a Hri Hl Hin Hgc. destruct (Hc r info a Hri Hl Hin Hgc) as [?|[->|?]%elem_of_cons]; auto.
  - intros r [?|?]; apply Hr; [left; by right|by right].
  - intros r Hin. apply Hca. by right.
  - intros Hgc. destruct (Hroot Hgc) as [[->|?]%elem_of_cons|?]; auto.
Qed.
Lemma link_inv_link m0 root m t info targets acc :
  causally_cached m0 → link_inv m0 root m (t :: targets) acc →
  m !! t = Some info → bi_hard_linked info = false → gc < br_round t →
  link_inv m0 root (<[t := mk_info (bi_block info) (bi_committed info) true]> m)
    (targets ++ vb_ancestors (bi_block info)) (acc ++ [t]).
Proof.
  intros Hcc [Hs Hc Ha Hn Ho Hr Hab Hca Hroot] Ht Hl Hgc.
  assert (Hnl : ¬ linked m t) by (intros (i & Hi & Hli); congruence).
  assert (Hlk := λ x, linked_insert m t info x Ht).
  assert (Hm0 : ∃ i0, m0 !! t = Some i0 ∧ bi_block i0 = bi_block info).
  { specialize (Hs t). rewrite Ht in Hs. destruct (m0 !! t) as [i0|]; simplify_eq/=. eauto. }
  destruct Hm0 as (i0 & Hi0 & Hblk).
  split.
  - eapply same_but_links_trans; [done|]. by apply same_but_links_link.
  - intros r i a Hri Hli Hin Hga. rewrite Hlk, elem_of_app.
    rewrite lookup_insert in Hri. case_decide; simplify_eq/=; [by auto|].
    destruct (Hc r i a Hri Hli Hin Hga) as [?|[->|?]%elem_of_cons]; auto.
  - apply NoDup_app. split; [done|]. split; [|apply NoDup_singleton].
    intros x Hx ->%list_elem_of_singleton. by apply Hn in Hx as [? _].
  - intros r. rewrite elem_of_app, list_elem_of_singleton, Hlk, Hn.
    destruct (decide (r = t)) as [->|]; [|tauto].
    split; [|by right]. intros _. split; [by left|]. intros ?. by apply Hnl, Ho.
  - intros r ?. apply Hlk. auto.
  - intros r [[Hr'|Hr']%elem_of_app|[Hr'|Hr']%elem_of_app].
    + apply Hr. left. by right.
    + eapply rtc_r; [apply Hr; left; by left|]. exists i0. by rewrite Hblk.
    + apply Hr. by right.
    + apply list_elem_of_singleton in Hr' as ->. apply Hr. left. by left.
  - intros r [?| ->%list_elem_of_singleton]%elem_of_app; auto.
  - intros r [?|?]%elem_of_app Hgr; [apply Hca; [by right|done]|].
    eapply Hcc; [exact Hi0| |done]. by rewrite Hblk.
  - intros Hgr. rewrite Hlk, elem_of_app.
    destruct (Hroot Hgr) as [[->|?]%elem_of_cons|?]; auto.
Qed.

Lemma link_loop_spec fuel d m0 root targets acc : causally_cached m0 →
  link_inv m0 root (ds_recent_blocks d) targets acc →
  (length targets + unlinked_weight (ds_recent_blocks d) ≤ fuel)%nat →
  ∃ m' acc', link_loop fuel gc d targets acc = Done (set_recent_blocks m' d, acc') ∧
    link_inv m0 root m' [] acc'.
Proof.
  intros Hcc. revert d targets acc. induction fuel as [|fuel IH]; intros d targets acc Hinv Hf.
  - destruct targets as [|t targets]; simpl in *; [|lia].
    exists (ds_recent_blocks d), acc. split; [by destruct d|done].
  - destruct targets as [|t targets]; simpl in *.
    { exists (ds_recent_blocks d), acc. split; [by destruct d|done]. }
    case_bool_decide as Hgc.
    { apply IH; [|lia]. eapply link_inv_skip; [done|]. lia. }
    apply N.nle_gt in Hgc.
    assert (∃ info, ds_recent_blocks d !! t = Some info) as [info Ht].
    { destruct (li_cached _ _ _ _ _ Hinv t ltac:(by left) Hgc) as [i0 Hi0].
      pose proof (li_same _ _ _ _ _ Hinv t) as Hs. rewrite Hi0 in Hs.
      destruct (ds_recent_blocks d !! t); simplify_eq/=; eauto. }
    rewrite Ht. simpl. destruct (bi_hard_linked info) eqn:Hl.
    { apply IH; [|lia]. eapply link_inv_skip; [done|]. intros _. by exists info. }
    pose proof (unlinked_weight_link _ _ _ Ht Hl) as Hw.
    destruct (IH (set_recent_blocks
                   (<[t := mk_info (bi_block info) (bi_committed info) true]>
                      (ds_recent_blocks d)) d)
                (targets ++ vb_ancestors (bi_block info)) (acc ++ [t]))
      as (m' & acc' & Hrun & Hinv').
    + simpl. by apply link_inv_link.
    + simpl. rewrite length_app. lia.
    + exists m', acc'. rewrite Hrun. split; [by destruct d|done].
Qed.
End links.

Lemma link_causal_history_links {S} `{Store S} (ctx : Context) (d : DagState S) root :
  causally_cached (gc_round ctx d) (ds_recent_blocks d) →
  links_closed (gc_round ctx d) (ds_recent_blocks d) [] →
  (gc_round ctx d < br_round root → is_Some (ds_recent_blocks d !! root)) →
  ∃ m' new, link_causal_history ctx d root = Done (set_recent_blocks m' d, new) ∧
    NoDup new ∧
    (∀ r, r ∈ new ↔ linked m' r ∧ ¬ linked (ds_recent_blocks d) r) ∧
    (∀ r, r ∈ new → gc_round ctx d < br_round r ∧ rtc (cached_link (ds_recent_blocks d)) root r) ∧
    (gc_round ctx d < br_round root → linked m' root) ∧
    links_closed (gc_round ctx d) m' [] ∧
    same_but_links (ds_recent_blocks d) m' ∧
    (∀ r, linked (ds_recent_blocks d) r → linked m' r).
Proof.
  intros Hcc Hcl Hroot. unfold link_causal_history.
  destruct (link_loop_spec (gc_round ctx d) (link_fuel d) d (ds_recent_blocks d) root [root] [] Hcc)
    as (m' & new & Hrun & Hinv).
  - split; try done.
    + intros r i a H1 H2 H3 H4. destruct (Hcl r i a H1 H2 H3 H4) as [?|?]; [by left|set_solver].
    + constructor.
    + intros r. split; [set_solver|]. by intros [].
    + intros r [->%list_elem_of_singleton|?]; [done|set_solver].
    + set_solver.
    + by intros r ->%list_elem_of_singleton.
    + intros _. left. by apply list_elem_of_singleton.
  - simpl. pose proof (link_fuel_enough d). lia.
  - exists m', new. rewrite Hrun. destruct Hinv as [Hs Hc Ha Hn Ho Hr Hab Hca Hro].
    split_and!; try done.
    + intros r Hin. split; [by apply Hab|]. apply Hr. by right.
    + intros Hgr. destruct (Hro Hgr) as [?|?]; [set_solver|done].
Qed.

(** C37: [link_causal_history] always terminates; it marks the root and
    everything reachable from it above the GC round that was not yet hard
    linked, returns exactly the newly linked blocks without duplicates, keeps
    the hard links closed under ancestors and changes nothing else. *)
Theorem link_causal_history_spec {S} `{Store S} (ctx : Context) (d : DagState S) root :
  causally_cached (gc_round ctx d) (ds_recent_blocks d) →
  links_closed (gc_round ctx d) (ds_recent_blocks d) [] →
  (gc_round ctx d < br_round root → is_Some (ds_recent_blocks d !! root)) →
  ∃ m' new, link_causal_history ctx d root = Done (set_recent_blocks m' d, new) ∧
    NoDup new ∧
    (∀ r, r ∈ new ↔ linked m' r ∧ ¬ linked (ds_recent_blocks d) r) ∧
    (∀ r, r ∈ new → gc_round ctx d < br_round r ∧ rtc (cached_link (ds_recent_blocks d)) root r) ∧
    (gc_round ctx d < br_round root → linked m' root) ∧
    links_closed (gc_round ctx d) m' [] ∧
    same_but_links (ds_recent_blocks d) m' ∧
    (∀ r, linked (ds_recent_blocks d) r → linked m' r).
Proof. apply link_causal_history_links. Qed.

Lemma link_causal_history_spec_witness :
  ∃ m' new, link_causal_history dag_test_ctx dag_test1 (vb_reference dag_test_block) =
    Done (set_recent_blocks m' dag_test1, new) ∧ linked m' (vb_reference dag_test_block).
Proof.
  assert (Hm : ds_recent_blocks dag_test1 =
            {[vb_reference dag_test_block := BlockInfo_new dag_test_block]})
    by (vm_compute; reflexivity).
  destruct (link_causal_history_spec dag_test_ctx dag_test1 (vb_reference dag_test_block))
    as (m' & new & Hrun & _ & _ & _ & Hl & _).
  - rewrite Hm. intros r info a [<- <-]%lookup_singleton_Some Ha Hgc.
    assert (Forall (λ a, br_round a = 0) (vb_ancestors dag_test_block)) as Hall
      by (vm_compute; repeat constructor).
    rewrite Forall_forall in Hall. simpl in Ha. specialize (Hall a Ha). lia.
  - rewrite Hm. intros r info a [<- <-]%lookup_singleton_Some. done.
  - intros _. rewrite Hm. rewrite lookup_singleton_eq. eauto.
  - exists m', new. split; [done|]. by apply Hl.
Defined.
