(* ===== verification/LeaderSchedule.v ===== *)
(** * Leader schedule (consensus/core/src/leader_schedule.rs)

    Election of the leader of a round by stake, and the swap table that
    replaces badly performing leaders by well performing ones. The random
    number generator of the [rand] crate is a class with the documented
    behaviour of the functions that are used. *)
From S2P Require Import Prelude Committee StakeAggregator Block Commit LeaderScoring Store DagState.

(** [StdRng::from_seed] followed by one call of [SliceRandom]. *)
Class Rng := {
  f32 : Type;
  f32_of_u64 : N → f32;
  rng_shuffle : ∀ {A : Type}, list N → list A → list A;
  rng_choose : ∀ {A : Type}, list N → list A → option A;
  rng_choose_multiple_weighted :
    ∀ {A : Type}, list N → list A → nat → (A → f32) → option (list A);
}.

(** A shuffle permutes; a choice is an element, and only the empty slice has
    none; a weighted choice of several is without repetition. *)
Class RngLaws `{Rng} := {
  shuffle_Permutation {A} seed (l : list A) : rng_shuffle seed l ≡ₚ l;
  choose_Some {A} seed (l : list A) x : rng_choose seed l = Some x → x ∈ l;
  choose_None {A} seed (l : list A) : rng_choose seed l = None ↔ l = [];
  choose_weighted_sub {A} seed (l : list A) n w l' :
    rng_choose_multiple_weighted seed l n w = Some l' →
    l' ⊆+ l ∧ length l' = (n `min` length l)%nat;
}.

(** [u32::to_le_bytes] and the 32-byte seeds. *)
Definition u32_to_le_bytes (x : N) : list N :=
  [x mod 256; (x / 256) mod 256; (x / 65536) mod 256; (x / 16777216) mod 256].
Definition seed_one (x : N) : list N := replicate 28 0 ++ u32_to_le_bytes x.
Definition seed_two (x y : N) : list N := replicate 24 0 ++ u32_to_le_bytes x ++ u32_to_le_bytes y.

(** [struct LeaderSwapTable]. *)
Record LeaderSwapTable := mk_swap_table {
  lt_good_nodes : list (AuthorityIndex * string * Stake);
  lt_bad_nodes : gmap AuthorityIndex (string * Stake);
  lt_reputation_scores_desc : list (AuthorityIndex * N);
  lt_reputation_scores : ReputationScores;
}.

(** [LeaderSwapTable::default]. *)
Definition LeaderSwapTable_default : LeaderSwapTable :=
  mk_swap_table [] ∅ [] ReputationScores_default.

(** The loop of [retrieve_first_nodes]. *)
Fixpoint first_nodes_loop (c : Committee) (stake_threshold stake : N)
    (authorities : list (AuthorityIndex * N)) : run (list (AuthorityIndex * string * Stake)) :=
  match authorities with
  | [] => Done []
  | (authority_idx, _) :: authorities =>
      s ← Committee_stake c authority_idx;
      let stake := u64_add stake s in
      if bool_decide (u64_mul stake_threshold (c_total_stake c) / 100 < stake) then Done []
      else
        authority ← Committee_authority c authority_idx;
        rest ← first_nodes_loop c stake_threshold stake authorities;
        Done ((authority_idx, a_hostname authority, a_stake authority) :: rest)
  end.

(** [retrieve_first_nodes]. *)
Definition retrieve_first_nodes (c : Committee) (authorities : list (AuthorityIndex * N))
    (stake_threshold : N) : run (list (AuthorityIndex * string * Stake)) :=
  first_nodes_loop c stake_threshold 0 authorities.

(** Scores in descending order: [a2.1.cmp(&a1.1)]. *)
Definition score_desc_le (x y : AuthorityIndex * N) : bool := bool_decide (y.2 ≤ x.2).

Section leader_schedule.
Context `{Rng} (ctx : Context).

(** [LeaderSwapTable::new_inner]. *)
Definition LeaderSwapTable_new_inner (swap_stake_threshold : N) (commit_index : CommitIndex)
    (reputation_scores : ReputationScores) : run LeaderSwapTable :=
  assert! bool_decide (swap_stake_threshold ≤ 33);
  if bool_decide (rs_scores_per_authority reputation_scores = []) then Done LeaderSwapTable_default
  else
    authorities_by_score ←
      ReputationScores_authorities_by_score reputation_scores (ctx_committee ctx);
    assert! bool_decide (length authorities_by_score = Committee_size (ctx_committee ctx));
    let authorities_by_score :=
      sort_by score_desc_le (rng_shuffle (seed_one commit_index) authorities_by_score) in
    good_nodes ← retrieve_first_nodes (ctx_committee ctx) authorities_by_score swap_stake_threshold;
    bad_nodes ← retrieve_first_nodes (ctx_committee ctx) (reverse authorities_by_score)
                  swap_stake_threshold;
    Done (mk_swap_table good_nodes
            (list_to_map ((λ '(idx, hostname, stake), (idx, (hostname, stake))) <$> bad_nodes))
            authorities_by_score reputation_scores).

(** [LeaderSwapTable::new]. *)
Definition LeaderSwapTable_new (commit_index : CommitIndex) (reputation_scores : ReputationScores)
    : run LeaderSwapTable :=
  LeaderSwapTable_new_inner
    (pc_consensus_bad_nodes_stake_threshold (ctx_protocol_config ctx))
    commit_index reputation_scores.

(** [LeaderSwapTable::swap]. *)
Definition LeaderSwapTable_swap (t : LeaderSwapTable) (leader : AuthorityIndex)
    (leader_round : Round) (leader_offset : N) : run (option AuthorityIndex) :=
  if bool_decide (is_Some (lt_bad_nodes t !! leader)) then
    assert! bool_decide (leader_offset = 0);
    '(idx, _, _) ← expect (rng_choose (seed_two leader_round leader_offset) (lt_good_nodes t));
    Done (Some idx)
  else Done None.

(** [struct LeaderSchedule]. *)
Record LeaderSchedule := mk_schedule {
  ls_leader_swap_table : LeaderSwapTable;
  ls_num_commits_per_schedule : N;
}.

Definition CONSENSUS_COMMITS_PER_SCHEDULE : N := 300.

(** [LeaderSchedule::new]. *)
Definition LeaderSchedule_new (t : LeaderSwapTable) : LeaderSchedule :=
  mk_schedule t CONSENSUS_COMMITS_PER_SCHEDULE.

(** [LeaderSchedule::elect_leader_stake_based]. *)
Definition elect_leader_stake_based (round offset : N) : run AuthorityIndex :=
  assert! bool_decide (N.to_nat offset < Committee_size (ctx_committee ctx))%nat;
  let choices := (λ '(index, authority), (index, f32_of_u64 (a_stake authority))) <$>
                   Committee_authorities (ctx_committee ctx) in
  chosen ← expect (rng_choose_multiple_weighted (seed_one round) choices
                     (Committee_size (ctx_committee ctx)) snd);
  '(index, _) ← expect (head (drop (N.to_nat offset) chosen));
  Done index.

(** [LeaderSchedule::elect_leader] (outside of tests). *)
Definition elect_leader (s : LeaderSchedule) (round leader_offset : N) : run AuthorityIndex :=
  leader ← elect_leader_stake_based round leader_offset;
  swapped ← LeaderSwapTable_swap (ls_leader_swap_table s) leader round leader_offset;
  Done (default leader swapped).

(** [LeaderSchedule::update_leader_swap_table]. *)
Definition update_leader_swap_table (s : LeaderSchedule) (table : LeaderSwapTable)
    : run LeaderSchedule :=
  let old_commit_range := rs_commit_range (lt_reputation_scores (ls_leader_swap_table s)) in
  let new_commit_range := rs_commit_range (lt_reputation_scores table) in
  ok ← (if bool_decide (old_commit_range ≠ CommitRange_default) then
          if CommitRange_is_next_range old_commit_range new_commit_range
          then CommitRange_is_equal_size old_commit_range new_commit_range
          else Done false
        else Done true);
  assert! (ok : bool);
  Done (mk_schedule table (ls_num_commits_per_schedule s)).

Context {S : Type} `{Store S}.

(** [LeaderSchedule::from_store]. *)
Definition LeaderSchedule_from_store (d : DagState S) : run LeaderSchedule :=
  info ← recover_last_commit_info d;
  table ← match info with
          | None => Done LeaderSwapTable_default
          | Some (last_commit_ref, last_commit_info) =>
              LeaderSwapTable_new (cr_index last_commit_ref) (ci_reputation_scores last_commit_info)
          end;
  Done (LeaderSchedule_new table).

(** [LeaderSchedule::commits_until_leader_schedule_update]. *)
Definition commits_until_leader_schedule_update (s : LeaderSchedule) (d : DagState S) : run N :=
  subdag_count ← scoring_subdags_count d;
  assert! bool_decide (subdag_count ≤ ls_num_commits_per_schedule s);
  expect (checked_sub (ls_num_commits_per_schedule s) subdag_count).

(** [LeaderSchedule::leader_schedule_updated]. *)
Definition leader_schedule_updated (d : DagState S) : bool := is_scoring_subdag_empty d.

(** [LeaderSchedule::update_leader_schedule_v2]. *)
Definition update_leader_schedule_v2 (s : LeaderSchedule) (d : DagState S)
    : run (LeaderSchedule * DagState S) :=
  reputation_scores ← calculate_scoring_subdag_scores ctx d;
  last_commit_index ← scoring_subdag_commit_range d;
  let d := clear_scoring_subdag d in
  d ← add_commit_info d reputation_scores;
  table ← LeaderSwapTable_new last_commit_index reputation_scores;
  s ← update_leader_swap_table s table;
  Done (s, d).
End leader_schedule.

(** ** The longest prefix within a stake budget *)

Section first_nodes.
Context (c : Committee) (Hok : committee_ok c).

Definition entry_stake (p : AuthorityIndex * N) : N := stake_at c p.1.
Definition node_of (p : AuthorityIndex * N) : AuthorityIndex * string * Stake :=
  match c_authorities c !! p.1 with
  | Some a => (p.1, a_hostname a, a_stake a)
  | None => (p.1, EmptyString, 0)
  end.
Definition nodes_stake (l : list (AuthorityIndex * N)) : N := sumN (entry_stake <$> l).
Definition swap_budget (thr : N) : N := thr * c_total_stake c / 100.

Lemma nodes_stake_nil : nodes_stake [] = 0.
Proof. done. Qed.
Lemma nodes_stake_cons i sc l : nodes_stake ((i, sc) :: l) = stake_at c i + nodes_stake l.
Proof. done. Qed.

Lemma nodes_stake_fst l : nodes_stake l = sumN (stake_at c <$> l.*1).
Proof. unfold nodes_stake. by rewrite <-list_fmap_compose. Qed.

(** The chosen nodes are the longest prefix whose stake is within the budget. *)
Lemma first_nodes_loop_spec thr acc l :
  thr ≤ 33 → 33 * c_total_stake c ≤ u64_max →
  Forall (λ p, Committee_is_valid_index c p.1) l →
  acc + nodes_stake l ≤ u64_max → acc ≤ swap_budget thr →
  ∃ k, (k ≤ length l)%nat ∧ first_nodes_loop c thr acc l = Done (node_of <$> take k l) ∧
    acc + nodes_stake (take k l) ≤ swap_budget thr ∧
    (k = length l ∨ swap_budget thr < acc + nodes_stake (take (S k) l)).
Proof.
  clear Hok. intros Hthr Hmul. revert acc. induction l as [|[i sc] l IH]; intros acc Hv Hsum Hacc.
  { exists 0%nat. simpl. rewrite nodes_stake_nil. split_and!; [lia|done|lia|by left]. }
  apply Forall_cons in Hv as [Hi Hv]. rewrite nodes_stake_cons in Hsum. simpl in Hi.
  simpl. rewrite Committee_stake_Done by done. simpl.
  rewrite u64_add_small by lia. rewrite u64_mul_small by nia. fold (swap_budget thr).
  case_bool_decide as Hlt.
  { exists 0%nat. rewrite take_0, nodes_stake_nil. split_and!; [lia|done|lia|right].
    simpl. rewrite nodes_stake_cons, take_0, nodes_stake_nil. lia. }
  unfold Committee_authority, vec_get.
  unfold Committee_is_valid_index, Committee_size in Hi. rewrite bool_decide_spec in Hi.
  apply lookup_lt_is_Some in Hi as [a Ha]. rewrite Ha. simpl.
  destruct (IH (acc + stake_at c i)) as (k & Hk & Hrun & Hle & Hor); [done|lia|lia|].
  exists (S k). rewrite Hrun. simpl. split; [lia|]. split.
  { do 2 f_equal. unfold node_of. simpl. by rewrite Ha. }
  rewrite !nodes_stake_cons. split; [lia|].
  destruct Hor as [->|Hor]; [by left|right]. simpl in Hor. lia.
Qed.
End first_nodes.

#[global] Instance score_desc_total : TotalPreorder score_desc_le.
Proof.
  unfold score_desc_le. split; intros ?; intros; rewrite !bool_decide_spec in *; lia.
Qed.

(** ** Properties of a swap table *)

(** The indices of the good nodes. *)
Definition good_indices (t : LeaderSwapTable) : gset AuthorityIndex :=
  list_to_set ((λ n, n.1.1) <$> lt_good_nodes t).

Record swap_table_ok (c : Committee) (thr : N) (sc : list N) (t : LeaderSwapTable) : Prop := {
  st_disjoint : good_indices t ## dom (lt_bad_nodes t);
  st_good_valid i : i ∈ good_indices t → Committee_is_valid_index c i;
  st_good_stake : set_stake c (good_indices t) ≤ swap_budget c thr;
  st_bad_stake : set_stake c (dom (lt_bad_nodes t)) ≤ swap_budget c thr;
  st_good_best g i x y : g ∈ good_indices t → i ∉ good_indices t →
    sc !! g = Some x → sc !! i = Some y → y ≤ x;
  st_bad_worst b i x y : b ∈ dom (lt_bad_nodes t) → i ∉ dom (lt_bad_nodes t) →
    sc !! b = Some x → sc !! i = Some y → x ≤ y;
}.

Section swap_table.
Context `{RngLaws} (ctx : Context).
Abbreviation c := (ctx_committee ctx).

(** All authorities with their scores, best first. *)
Definition ranking (commit_index : CommitIndex) (sc : list N) : list (AuthorityIndex * N) :=
  sort_by score_desc_le (rng_shuffle (seed_one commit_index) (imap pair sc)).

Lemma imap_pair_fst {A} (l : list A) : (imap pair l).*1 = seq 0 (length l).
Proof.
  apply list_eq. intros i. rewrite list_lookup_fmap, list_lookup_imap.
  destruct (l !! i) as [x|] eqn:Hx; simpl.
  - symmetry. apply lookup_seq. split; [lia|by eapply lookup_lt_Some].
  - symmetry. apply lookup_seq_ge. by apply lookup_ge_None.
Qed.

Lemma authorities_by_score_Done rs :
  length (rs_scores_per_authority rs) = Committee_size c →
  ReputationScores_authorities_by_score rs c = Done (imap pair (rs_scores_per_authority rs)).
Proof.
  intros Hlen. unfold ReputationScores_authorities_by_score.
  apply map_run_Done. apply Forall2_same_length_lookup_2; [done|].
  intros i x y Hx Hy. rewrite Hx in Hy. simplify_eq.
  rewrite list_lookup_imap in Hx. apply fmap_Some in Hx as (s & Hs & ->).
  unfold Committee_to_authority_index. simpl.
  assert (i < Committee_size c)%nat by (rewrite <-Hlen; by eapply lookup_lt_Some).
  by rewrite decide_True.
Qed.

Context (commit_index : CommitIndex) (sc : list N) (Hlen : length sc = Committee_size c).

Lemma ranking_perm : ranking commit_index sc ≡ₚ imap pair sc.
Proof using H0. unfold ranking. by rewrite sort_by_Permutation, shuffle_Permutation. Qed.

Lemma ranking_fst : (ranking commit_index sc).*1 ≡ₚ seq 0 (Committee_size c).
Proof using H0 Hlen. by rewrite ranking_perm, imap_pair_fst, Hlen. Qed.

Lemma ranking_NoDup : NoDup (ranking commit_index sc).*1.
Proof using H0 Hlen. rewrite ranking_fst. apply NoDup_seq. Qed.

Lemma ranking_valid : Forall (λ p, Committee_is_valid_index c p.1) (ranking commit_index sc).
Proof using H0 Hlen.
  apply Forall_forall. intros p Hp. assert (Hin : p.1 ∈ (ranking commit_index sc).*1)
    by (by apply list_elem_of_fmap_2).
  rewrite ranking_fst, elem_of_seq in Hin. unfold Committee_is_valid_index.
  rewrite bool_decide_spec. lia.
Qed.

Lemma ranking_score i x : (i, x) ∈ ranking commit_index sc ↔ sc !! i = Some x.
Proof using H0.
  rewrite ranking_perm. split.
  - intros (j & Hj)%list_elem_of_lookup. rewrite list_lookup_imap in Hj.
    by apply fmap_Some in Hj as (y & Hy & [= -> ->]).
  - intros Hx. apply list_elem_of_lookup. exists i. rewrite list_lookup_imap, Hx. done.
Qed.

Lemma ranking_sorted : StronglySorted score_desc_le (ranking commit_index sc).
Proof. apply sort_by_sorted, _. Qed.

Lemma nodes_stake_app l1 l2 : nodes_stake c (l1 ++ l2) = nodes_stake c l1 + nodes_stake c l2.
Proof. unfold nodes_stake. by rewrite fmap_app, sumN_app. Qed.

Lemma node_of_fst l : (λ n, n.1.1) <$> (node_of c <$> l) = l.*1.
Proof.
  rewrite <-list_fmap_compose. apply list_fmap_ext. intros _ [i s] _. simpl.
  unfold node_of. simpl. by destruct (c_authorities c !! i).
Qed.
Context (Hok : committee_ok c) (Hmul : 33 * c_total_stake c ≤ u64_max).

Lemma ranking_stake : nodes_stake c (ranking commit_index sc) = c_total_stake c.
Proof using H0 Hlen Hok.
  rewrite nodes_stake_fst, ranking_fst. unfold Committee_size. rewrite stakes_by_index. by rewrite (ok_total c Hok).
Qed.

(** A prefix and a suffix that are both within the budget do not overlap. *)
Lemma budget_disjoint thr k1 k2 : thr ≤ 33 →
  (k1 ≤ length (ranking commit_index sc))%nat → (k2 ≤ length (ranking commit_index sc))%nat →
  nodes_stake c (take k1 (ranking commit_index sc)) ≤ swap_budget c thr →
  nodes_stake c (take k2 (reverse (ranking commit_index sc))) ≤ swap_budget c thr →
  (k1 + k2 ≤ length (ranking commit_index sc))%nat.
Proof using H0 Hlen Hok.
  clear Hmul. intros Hthr Hk1 Hk2 H1 H2. set (l := ranking commit_index sc) in *.
  destruct (decide (k1 + k2 ≤ length l)%nat) as [|Hgt]; [done|exfalso].
  rewrite take_reverse, nodes_stake_fst, fmap_reverse in H2.
  rewrite (sumN_Permutation _ (stake_at c <$> (drop (length l - k2) l).*1)) in H2
    by (by rewrite reverse_Permutation).
  rewrite <-nodes_stake_fst in H2.
  assert (Htot : nodes_stake c l = c_total_stake c) by apply ranking_stake.
  rewrite <-(take_drop k1 l), nodes_stake_app in Htot.
  assert (nodes_stake c (drop k1 l) ≤ nodes_stake c (drop (length l - k2) l)).
  { replace k1 with ((length l - k2) + (k1 - (length l - k2)))%nat by lia.
    rewrite <-drop_drop. set (l' := drop (length l - k2) l).
    rewrite <-(take_drop (k1 - (length l - k2)) l') at 2. rewrite nodes_stake_app. lia. }
  pose proof (ok_total_pos c Hok). unfold swap_budget in *.
  assert (thr * c_total_stake c / 100 ≤ 33 * c_total_stake c / 100)
    by (apply N.Div0.div_le_mono; nia).
  assert (33 * c_total_stake c / 100 * 100 ≤ 33 * c_total_stake c)
    by (rewrite N.mul_comm; apply N.Div0.mul_div_le).
  lia.
Qed.

Lemma elem_of_take_fst (l : list (AuthorityIndex * N)) k i : NoDup l.*1 → i ∈ (take k l).*1 →
  i ∈ (drop k l).*1 → False.
Proof.
  clear. intros Hn Ht Hd. rewrite <-(take_drop k l), fmap_app in Hn.
  apply NoDup_app in Hn as (_ & Hdisj & _). by apply (Hdisj i).
Qed.

(** Entries of a prefix rank at least as high as the others. *)
Lemma ranking_prefix k g i x y : (g, x) ∈ take k (ranking commit_index sc) →
  i ∉ (take k (ranking commit_index sc)).*1 → sc !! i = Some y → y ≤ x.
Proof using H0.
  intros Hg Hi Hy%ranking_score.
  pose proof ranking_sorted as Hs. rewrite <-(take_drop k (ranking commit_index sc)) in Hs, Hy.
  apply elem_of_app in Hy as [Hy|Hy].
  { exfalso. apply Hi. by apply (list_elem_of_fmap_2 fst _ (i, y)). }
  apply StronglySorted_app in Hs as (HR & _ & _).
  specialize (HR (g, x) (i, y) Hg Hy). unfold score_desc_le in HR.
  by rewrite bool_decide_spec in HR.
Qed.
Lemma ranking_suffix k b i x y : (b, x) ∈ drop k (ranking commit_index sc) →
  i ∉ (drop k (ranking commit_index sc)).*1 → sc !! i = Some y → x ≤ y.
Proof using H0.
  intros Hb Hi Hy%ranking_score.
  pose proof ranking_sorted as Hs. rewrite <-(take_drop k (ranking commit_index sc)) in Hs, Hy.
  apply elem_of_app in Hy as [Hy|Hy].
  2: { exfalso. apply Hi. by apply (list_elem_of_fmap_2 fst _ (i, y)). }
  apply StronglySorted_app in Hs as (HR & _ & _).
  specialize (HR (i, y) (b, x) Hy Hb). unfold score_desc_le in HR.
  by rewrite bool_decide_spec in HR.
Qed.

(** The table built from a prefix and a suffix of the ranking. *)
Definition ranked_table (k1 k2 : nat) (rs : ReputationScores) : LeaderSwapTable :=
  mk_swap_table (node_of c <$> take k1 (ranking commit_index sc))
    (list_to_map ((λ '(idx, hostname, stake), (idx, (hostname, stake))) <$>
       (node_of c <$> reverse (drop k2 (ranking commit_index sc)))))
    (ranking commit_index sc) rs.

Lemma ranked_good k1 k2 rs :
  good_indices (ranked_table k1 k2 rs) = list_to_set (take k1 (ranking commit_index sc)).*1.
Proof. clear. unfold good_indices. simpl. by rewrite node_of_fst. Qed.

Lemma ranked_bad k1 k2 rs :
  dom (lt_bad_nodes (ranked_table k1 k2 rs)) = list_to_set (drop k2 (ranking commit_index sc)).*1.
Proof.
  clear. simpl. rewrite dom_list_to_map_L, <-!list_fmap_compose.
  apply set_eq. intros i. rewrite !elem_of_list_to_set.
  rewrite (list_fmap_ext _ fst).
  - rewrite fmap_reverse. by rewrite reverse_Permutation.
  - intros _ [j s] _. simpl. unfold node_of. simpl. by destruct (c_authorities c !! j).
Qed.

Lemma ranked_table_ok thr k1 k2 rs : thr ≤ 33 → (k1 ≤ k2)%nat →
  nodes_stake c (take k1 (ranking commit_index sc)) ≤ swap_budget c thr →
  nodes_stake c (drop k2 (ranking commit_index sc)) ≤ swap_budget c thr →
  swap_table_ok c thr sc (ranked_table k1 k2 rs).
Proof using H0 Hlen.
  clear Hmul Hok. intros Hthr Hk H1 H2. pose proof ranking_NoDup as Hn.
  assert (HnT : NoDup (take k1 (ranking commit_index sc)).*1).
  { eapply sublist_NoDup; [exact Hn|]. apply fmap_sublist, sublist_take. }
  assert (HnD : NoDup (drop k2 (ranking commit_index sc)).*1).
  { eapply sublist_NoDup; [exact Hn|]. apply fmap_sublist, sublist_drop. }
  split.
  - rewrite ranked_good, ranked_bad. intros i Ht%elem_of_list_to_set Hd%elem_of_list_to_set.
    apply (elem_of_take_fst (ranking commit_index sc) k2 i Hn); [|done].
    replace k1 with (k1 `min` k2)%nat in Ht by lia. rewrite <-take_take in Ht.
    apply list_elem_of_fmap in Ht as (p & -> & Hp). apply list_elem_of_fmap_2.
    by eapply subseteq_take.
  - intros i. rewrite ranked_good, elem_of_list_to_set. intros (p & -> & Hp)%list_elem_of_fmap.
    pose proof ranking_valid as Hv. rewrite Forall_forall in Hv. apply Hv.
    by eapply subseteq_take.
  - rewrite ranked_good, set_stake_list, <-nodes_stake_fst by done. done.
  - rewrite ranked_bad, set_stake_list, <-nodes_stake_fst by done. done.
  - intros g i x y. rewrite ranked_good, !elem_of_list_to_set.
    intros ([g' x'] & -> & Hg)%list_elem_of_fmap Hi Hx Hy. simpl in Hx.
    assert (x' = x) as ->.
    { assert ((g', x') ∈ ranking commit_index sc) as Hr by (by eapply subseteq_take).
      apply ranking_score in Hr. simpl in Hr. congruence. }
    by eapply ranking_prefix.
  - intros b i x y. rewrite ranked_bad, !elem_of_list_to_set.
    intros ([b' x'] & -> & Hb)%list_elem_of_fmap Hi Hx Hy. simpl in Hx.
    assert (x' = x) as ->.
    { assert ((b', x') ∈ ranking commit_index sc) as Hr by (by eapply subseteq_drop).
      apply ranking_score in Hr. simpl in Hr. congruence. }
    by eapply ranking_suffix.
Qed.

(** The longest prefixes that [new_inner] takes from both ends. *)
Lemma new_inner_spec thr rs : thr ≤ 33 → rs_scores_per_authority rs = sc →
  ∃ k1 k2, LeaderSwapTable_new_inner ctx thr commit_index rs = Done (ranked_table k1 k2 rs) ∧
    (k1 ≤ k2)%nat ∧ (k1 ≤ length (ranking commit_index sc))%nat ∧
    nodes_stake c (take k1 (ranking commit_index sc)) ≤ swap_budget c thr ∧
    (k1 = length (ranking commit_index sc) ∨
     swap_budget c thr < nodes_stake c (take (S k1) (ranking commit_index sc))) ∧
    nodes_stake c (drop k2 (ranking commit_index sc)) ≤ swap_budget c thr.
Proof using H0 Hlen Hok Hmul.
  intros Hthr Hsc. unfold LeaderSwapTable_new_inner. rewrite bool_decide_eq_true_2 by done.
  assert (Hne : sc ≠ []).
  { intros ->. pose proof (ok_nonempty c Hok). simpl in Hlen. unfold Committee_size in Hlen. lia. }
  rewrite Hsc. rewrite bool_decide_eq_false_2 by done.
  rewrite authorities_by_score_Done by (by rewrite Hsc). rewrite Hsc. simpl.
  rewrite length_imap, bool_decide_eq_true_2 by done. fold (ranking commit_index sc).
  set (l := ranking commit_index sc).
  assert (Htot : nodes_stake c l = c_total_stake c) by apply ranking_stake.
  destruct (first_nodes_loop_spec c thr 0 l) as (k1 & Hk1 & Hrun1 & Hle1 & Hor1);
    [done..|apply ranking_valid|lia|lia|].
  destruct (first_nodes_loop_spec c thr 0 (reverse l)) as (k2 & Hk2 & Hrun2 & Hle2 & _);
    [done..|by rewrite Forall_reverse; apply ranking_valid| |lia|].
  { rewrite nodes_stake_fst, fmap_reverse.
    rewrite (sumN_Permutation _ (stake_at c <$> l.*1)) by (by rewrite reverse_Permutation).
    rewrite <-nodes_stake_fst. lia. }
  rewrite length_reverse in Hk2. rewrite N.add_0_l in *.
  pose proof (budget_disjoint thr k1 k2 Hthr Hk1 Hk2 Hle1 Hle2) as Hdisj.
  unfold retrieve_first_nodes. rewrite Hrun1. simpl. rewrite Hrun2. simpl.
  exists k1, (length l - k2)%nat. unfold ranked_table. fold l. rewrite take_reverse.
  split; [done|]. split; [unfold l in *; lia|]. split; [done|]. split; [done|]. split; [done|].
  rewrite take_reverse, nodes_stake_fst, fmap_reverse in Hle2.
  rewrite (sumN_Permutation _ (stake_at c <$> (drop (length l - k2) l).*1)) in Hle2
    by (by rewrite reverse_Permutation).
  by rewrite <-nodes_stake_fst in Hle2.
Qed.
End swap_table.

(** ** Theorems *)

(** A new swap table ranks all authorities by descending score; the good
    nodes are the best and the bad nodes the worst of them, each group holds at
    most the configured share of the stake, and no authority is in both. *)
Theorem LeaderSwapTable_new_correct `{RngLaws} ctx commit_index rs :
  committee_ok (ctx_committee ctx) → 33 * c_total_stake (ctx_committee ctx) ≤ u64_max →
  pc_consensus_bad_nodes_stake_threshold (ctx_protocol_config ctx) ≤ 33 →
  length (rs_scores_per_authority rs) = Committee_size (ctx_committee ctx) →
  ∃ t, LeaderSwapTable_new ctx commit_index rs = Done t ∧
    swap_table_ok (ctx_committee ctx)
      (pc_consensus_bad_nodes_stake_threshold (ctx_protocol_config ctx))
      (rs_scores_per_authority rs) t ∧
    lt_reputation_scores_desc t ≡ₚ imap pair (rs_scores_per_authority rs) ∧
    StronglySorted score_desc_le (lt_reputation_scores_desc t).
Proof.
  intros Hok Hmul Hthr Hlen.
  destruct (new_inner_spec ctx commit_index _ Hlen Hok Hmul _ rs Hthr eq_refl)
    as (k1 & k2 & Hrun & Hk & _ & Hgood & _ & Hbad).
  eexists. split; [exact Hrun|]. split; [by apply ranked_table_ok|]. simpl.
  split; [apply ranking_perm|apply ranking_sorted].
Qed.

(** The stake-based choice is a member of the committee. *)
Lemma stake_based_spec `{RngLaws} ctx round chosen : committee_ok (ctx_committee ctx) →
  rng_choose_multiple_weighted (seed_one round)
    ((λ '(index, authority), (index, f32_of_u64 (a_stake authority))) <$>
       Committee_authorities (ctx_committee ctx))
    (Committee_size (ctx_committee ctx)) snd = Some chosen →
  ∃ first, elect_leader_stake_based ctx round 0 = Done first ∧ Committee_is_valid_index (ctx_committee ctx) first.
Proof.
  intros Hok Hchosen. set (c := ctx_committee ctx) in *.
  assert (Hsize : (0 < Committee_size c)%nat) by apply Hok.
  pose proof (choose_weighted_sub _ _ _ _ _ Hchosen) as [Hsub Hlen].
  rewrite length_fmap in Hlen. unfold Committee_authorities in Hlen at 1.
  rewrite length_imap in Hlen. unfold Committee_size in Hlen at 1. rewrite Nat.min_id in Hlen.
  destruct chosen as [|[first w] rest]; [simpl in Hlen; unfold Committee_size in Hsize; lia|].
  exists first. split.
  - unfold elect_leader_stake_based. fold c. rewrite bool_decide_eq_true_2 by done.
    by rewrite Hchosen.
  - assert (Hin : (first, w) ∈ (first, w) :: rest) by left.
    eapply elem_of_submseteq in Hin; [|exact Hsub]. apply list_elem_of_fmap in Hin as ([i a] & [= -> _] & Hin).
    unfold Committee_authorities in Hin. apply list_elem_of_lookup in Hin as [j Hj].
    rewrite list_lookup_imap in Hj. apply fmap_Some in Hj as (a' & Ha' & [= -> ->]).
    unfold Committee_is_valid_index, Committee_size. rewrite bool_decide_spec.
    by eapply lookup_lt_Some.
Qed.

Lemma elect_leader_spec `{RngLaws} ctx thr sc s round chosen :
  committee_ok (ctx_committee ctx) →
  swap_table_ok (ctx_committee ctx) thr sc (ls_leader_swap_table s) →
  lt_good_nodes (ls_leader_swap_table s) ≠ [] →
  rng_choose_multiple_weighted (seed_one round)
    ((λ '(index, authority), (index, f32_of_u64 (a_stake authority))) <$>
       Committee_authorities (ctx_committee ctx))
    (Committee_size (ctx_committee ctx)) snd = Some chosen →
  ∃ first leader, elect_leader_stake_based ctx round 0 = Done first ∧
    elect_leader ctx s round 0 = Done leader ∧
    Committee_is_valid_index (ctx_committee ctx) leader ∧
    lt_bad_nodes (ls_leader_swap_table s) !! leader = None ∧
    (lt_bad_nodes (ls_leader_swap_table s) !! first = None → leader = first).
Proof.
  intros Hok Ht Hgood Hchosen. destruct (stake_based_spec ctx round chosen Hok Hchosen) as (first & Hst & Hfirst).
  unfold elect_leader. rewrite Hst. simpl. unfold LeaderSwapTable_swap.
  case_bool_decide as Hbad; simpl.
  - destruct (rng_choose (seed_two round 0) (lt_good_nodes (ls_leader_swap_table s)))
      as [[[g h] st]|] eqn:Hg; [|by apply choose_None in Hg].
    exists first, g. simpl. apply choose_Some in Hg.
    assert (Hin : g ∈ good_indices (ls_leader_swap_table s)).
    { apply elem_of_list_to_set, list_elem_of_fmap. by exists (g, h, st). }
    split_and!; [done|done|by apply (st_good_valid _ _ _ _ Ht)| |].
    + apply not_elem_of_dom. intros Hd. by apply (st_disjoint _ _ _ _ Ht g).
    + intros Hn. rewrite Hn in Hbad. by destruct Hbad.
  - exists first, first. simpl. split_and!; [done..| |done]. by apply eq_None_not_Some.
Qed.

(** With a swap table that has at least one good node, the leader elected
    for a round is a member of the committee that is never one of the bad
    nodes; it is the stake-based choice whenever that is not a bad node. *)
Theorem elect_leader_avoids_bad `{RngLaws} ctx thr sc s round chosen :
  committee_ok (ctx_committee ctx) →
  swap_table_ok (ctx_committee ctx) thr sc (ls_leader_swap_table s) →
  lt_good_nodes (ls_leader_swap_table s) ≠ [] →
  rng_choose_multiple_weighted (seed_one round)
    ((λ '(index, authority), (index, f32_of_u64 (a_stake authority))) <$>
       Committee_authorities (ctx_committee ctx))
    (Committee_size (ctx_committee ctx)) snd = Some chosen →
  ∃ first leader, elect_leader_stake_based ctx round 0 = Done first ∧
    elect_leader ctx s round 0 = Done leader ∧
    Committee_is_valid_index (ctx_committee ctx) leader ∧
    lt_bad_nodes (ls_leader_swap_table s) !! leader = None ∧
    (lt_bad_nodes (ls_leader_swap_table s) !! first = None → leader = first).
Proof. apply elect_leader_spec. Qed.

(** When the best ranked authority alone holds more than the configured
    share of the stake, the table has no good node, and electing any of its bad
    nodes panics. *)
Theorem swap_panics_without_good_nodes `{RngLaws} ctx commit_index rs t best :
  committee_ok (ctx_committee ctx) → 33 * c_total_stake (ctx_committee ctx) ≤ u64_max →
  pc_consensus_bad_nodes_stake_threshold (ctx_protocol_config ctx) ≤ 33 →
  length (rs_scores_per_authority rs) = Committee_size (ctx_committee ctx) →
  LeaderSwapTable_new ctx commit_index rs = Done t →
  head (lt_reputation_scores_desc t) = Some best →
  pc_consensus_bad_nodes_stake_threshold (ctx_protocol_config ctx)
    * c_total_stake (ctx_committee ctx) / 100 < stake_at (ctx_committee ctx) best.1 →
  lt_good_nodes t = [] ∧
  ∀ leader round, is_Some (lt_bad_nodes t !! leader) →
    LeaderSwapTable_swap t leader round 0 = Panic.
Proof.
  intros Hok Hmul Hthr Hlen Hrun Hbest Hgt.
  destruct (new_inner_spec ctx commit_index _ Hlen Hok Hmul _ rs Hthr eq_refl)
    as (k1 & k2 & Hrun' & _ & _ & Hgood & _ & _).
  unfold LeaderSwapTable_new in Hrun. rewrite Hrun' in Hrun. injection Hrun as <-. simpl in *.
  assert (Hnil : k1 = 0%nat ∨ ranking commit_index (rs_scores_per_authority rs) = []).
  { destruct (ranking _ _) as [|[i x] l]; [by right|left]. simplify_eq/=.
    destruct k1 as [|k1]; [done|]. simpl in Hgood. rewrite nodes_stake_cons in Hgood.
    unfold swap_budget in Hgood. lia. }
  assert (Hg : take k1 (ranking commit_index (rs_scores_per_authority rs)) = []).
  { destruct Hnil as [->| ->]; [done|by rewrite take_nil]. }
  split; [by rewrite Hg|]. intros leader round Hbad. unfold LeaderSwapTable_swap.
  rewrite bool_decide_eq_true_2 by done. rewrite bool_decide_eq_true_2 by done. simpl.
  rewrite Hg. simpl. destruct (rng_choose _ _) eqn:Hc; [|done].
  apply choose_Some in Hc. set_solver.
Qed.

(** ** Concrete tables: the generator keeps the order and takes the first. *)

#[global] Instance test_rng : Rng := {|
  f32 := N; f32_of_u64 := id;
  rng_shuffle := λ A _ l, l;
  rng_choose := λ A _ l, head l;
  rng_choose_multiple_weighted := λ A _ l n _, Some (take n l);
|}.
#[global] Instance test_rng_laws : RngLaws.
Proof.
  split; simpl; try done.
  - intros A _ [|y l] x; simpl; [done|]. intros [= <-]. left.
  - intros A _ [|y l]; simpl; done.
  - intros A _ l n _ l' [= <-]. split; [|by rewrite length_take].
    apply sublist_submseteq, sublist_take.
Qed.

Definition swap_test_ctx : Context := test_context 4 2 5.
Definition swap_test_scores : ReputationScores := mk_scores [3; 9; 5; 7] (CommitRange_new 1 10).
Definition swap_test_table : LeaderSwapTable :=
  match LeaderSwapTable_new swap_test_ctx 10 swap_test_scores with
  | Done t => t | _ => LeaderSwapTable_default end.

Lemma LeaderSwapTable_new_correct_witness :
  ∃ t, LeaderSwapTable_new swap_test_ctx 10 swap_test_scores = Done t ∧
    lt_reputation_scores_desc t = [(1%nat, 9); (3%nat, 7); (2%nat, 5); (0%nat, 3)] ∧
    good_indices t ## dom (lt_bad_nodes t).
Proof.
  destruct (LeaderSwapTable_new_correct swap_test_ctx 10 swap_test_scores)
    as (t & Hrun & Ht & _); [by apply test_committee_ok|done..|].
  exists t. split; [done|]. split; [|by apply Ht].
  vm_compute in Hrun. by injection Hrun as <-.
Defined.

Lemma elect_leader_avoids_bad_witness :
  ∃ leader, elect_leader swap_test_ctx (LeaderSchedule_new swap_test_table) 5 0 = Done leader ∧
    lt_bad_nodes swap_test_table !! leader = None ∧ lt_bad_nodes swap_test_table !! 0%nat ≠ None.
Proof.
  destruct (LeaderSwapTable_new_correct swap_test_ctx 10 swap_test_scores)
    as (t & Hrun & Ht & _); [by apply test_committee_ok|done..|].
  assert (swap_test_table = t) as Heq by (unfold swap_test_table; by rewrite Hrun).
  destruct (elect_leader_avoids_bad swap_test_ctx 33 [3; 9; 5; 7]
              (LeaderSchedule_new swap_test_table) 5
              ((λ '(index, authority), (index, f32_of_u64 (a_stake authority))) <$>
                 Committee_authorities (ctx_committee swap_test_ctx)))
    as (first & leader & _ & Hl & _ & Hbad & _).
  - by apply test_committee_ok.
  - simpl. rewrite Heq. exact Ht.
  - vm_compute. done.
  - vm_compute. reflexivity.
  - exists leader. split; [done|]. split; [done|]. by vm_compute.
Defined.

(** A committee in which one authority has most of the stake. *)
Definition swap_heavy_ctx : Context :=
  mk_context 0 0%nat
    (mk_committee 0 100 67 34
       [test_authority 70; test_authority 10; test_authority 10; test_authority 10])
    5 (ctx_protocol_config swap_test_ctx).
Definition swap_heavy_table : LeaderSwapTable :=
  match LeaderSwapTable_new swap_heavy_ctx 10 (mk_scores [9; 1; 2; 3] (CommitRange_new 1 10)) with
  | Done t => t | _ => LeaderSwapTable_default end.

Lemma swap_panics_without_good_nodes_witness :
  LeaderSwapTable_swap swap_heavy_table 1%nat 5 0 = Panic.
Proof.
  destruct (swap_panics_without_good_nodes swap_heavy_ctx 10
    (mk_scores [9; 1; 2; 3] (CommitRange_new 1 10)) swap_heavy_table (0%nat, 9)) as [_ Hp].
  - split; vm_compute; try done; lia.
  - done.
  - done.
  - done.
  - vm_compute. reflexivity.
  - vm_compute. reflexivity.
  - vm_compute. reflexivity.
  - apply Hp. vm_compute. eauto.
Defined.
