(* ===== verification/BaseCommitter.v ===== *)
(** * The commit rules (consensus/core/src/base_committer.rs,
    consensus/core/src/universal_committer.rs)

    Direct and indirect decision of a leader slot over the DAG state, and the
    universal committer that decides a sequence of leaders. The fuel bounds the
    number of blocks visited by a traversal of the DAG; the theorems give a
    sufficient value. *)
From S2P Require Import Prelude Committee StakeAggregator Block ThresholdClock Commit LeaderScoring Store DagState LeaderSchedule.

(** [struct BaseCommitterOptions]. *)
Record BaseCommitterOptions := mk_options {
  bo_wave_length : N;
  bo_leader_offset : N;
  bo_round_offset : N;
}.

(** [BaseCommitterOptions::default]. *)
Definition BaseCommitterOptions_default : BaseCommitterOptions := mk_options DEFAULT_WAVE_LENGTH 0 0.

(** [leader_round], [decision_round], [wave_number]. *)
Definition leader_round (o : BaseCommitterOptions) (wave : N) : Round :=
  u32_add (u32_mul wave (bo_wave_length o)) (bo_round_offset o).
Definition decision_round (o : BaseCommitterOptions) (wave : N) : Round :=
  u32_add (u32_sub (u32_add (u32_mul wave (bo_wave_length o)) (bo_wave_length o)) 1)
    (bo_round_offset o).
Definition wave_number (o : BaseCommitterOptions) (round : Round) : N :=
  saturating_sub round (bo_round_offset o) / bo_wave_length o.

(** [QuorumThreshold] aggregators of the rules. *)
Abbreviation quorum_agg := (StakeAggregator QuorumThreshold).

Section base_committer.
Context {S : Type} `{Store S} `{Rng} (ctx : Context) (fuel : nat).
Implicit Types (d : DagState S) (o : BaseCommitterOptions).

(** [find_supported_block]: the depth of the recursion is bounded by the
    number of rounds between the block and the slot. *)
Fixpoint find_supported_loop (depth : nat) d (leader_slot : Slot) (from : VerifiedBlock)
    : run (option BlockRef) :=
  match depth with
  | O => NoFuel
  | Datatypes.S depth =>
      if bool_decide (vb_round from < s_round leader_slot) then Done None
      else
        (fix go (ancestors : list BlockRef) : run (option BlockRef) :=
           match ancestors with
           | [] => Done None
           | ancestor :: ancestors =>
               if bool_decide (Slot_from ancestor = leader_slot) then Done (Some ancestor)
               else if bool_decide (br_round ancestor ≤ s_round leader_slot) then go ancestors
               else
                 b ← get_block d ancestor;
                 block ← expect b;
                 support ← find_supported_loop depth d leader_slot block;
                 match support with
                 | Some s => Done (Some s)
                 | None => go ancestors
                 end
           end) (vb_ancestors from)
  end.

Definition find_supported_block d (leader_slot : Slot) (from : VerifiedBlock)
    : run (option BlockRef) :=
  find_supported_loop (Datatypes.S (N.to_nat (vb_round from - s_round leader_slot)))
    d leader_slot from.

(** [is_vote]. *)
Definition is_vote d (potential_vote leader_block : VerifiedBlock) : run bool :=
  let reference := vb_reference leader_block in
  support ← find_supported_block d (Slot_from reference) potential_vote;
  Done (bool_decide (support = Some reference)).

(** Whether a reference is a vote, through the cache [all_votes]. *)
Definition is_vote_cached d (leader_block : VerifiedBlock) (reference : BlockRef)
    (all_votes : gmap BlockRef bool) : run (bool * gmap BlockRef bool) :=
  match all_votes !! reference with
  | Some v => Done (v, all_votes)
  | None =>
      potential_vote ← get_block d reference;
      v ← match potential_vote with
          | Some b => is_vote d b leader_block
          | None => assert! bool_decide (br_round reference ≤ gc_round ctx d); Done false
          end;
      Done (v, <[reference := v]> all_votes)
  end.

(** [is_certificate]: the loop over the ancestors, with its early return. *)
Fixpoint certificate_loop d (leader_block : VerifiedBlock) (ancestors : list BlockRef)
    (agg : quorum_agg) (all_votes : gmap BlockRef bool) : run (bool * gmap BlockRef bool) :=
  match ancestors with
  | [] => Done (false, all_votes)
  | reference :: ancestors =>
      '(v, all_votes) ← is_vote_cached d leader_block reference all_votes;
      if (v : bool) then
        '(agg, reached) ← StakeAggregator_add agg (br_author reference) (ctx_committee ctx);
        if (reached : bool) then Done (true, all_votes)
        else certificate_loop d leader_block ancestors agg all_votes
      else certificate_loop d leader_block ancestors agg all_votes
  end.

Definition is_certificate d (potential_certificate leader_block : VerifiedBlock)
    (all_votes : gmap BlockRef bool) : run (bool * gmap BlockRef bool) :=
  certificate_loop d leader_block (vb_ancestors potential_certificate) StakeAggregator_new all_votes.

(** [enough_leader_blame]: the loop over the voting blocks. *)
Fixpoint blame_loop (leader : AuthorityIndex) (voting_blocks : list VerifiedBlock)
    (agg : quorum_agg) : run bool :=
  match voting_blocks with
  | [] => Done false
  | voting_block :: voting_blocks =>
      if forallb (λ ancestor, negb (bool_decide (br_author ancestor = leader)))
           (vb_ancestors voting_block)
      then
        '(agg, reached) ← StakeAggregator_add agg (vb_author voting_block) (ctx_committee ctx);
        if (reached : bool) then Done true else blame_loop leader voting_blocks agg
      else blame_loop leader voting_blocks agg
  end.

Definition enough_leader_blame d (voting_round : Round) (leader : AuthorityIndex) : run bool :=
  voting_blocks ← get_uncommitted_blocks_at_round d voting_round;
  blame_loop leader voting_blocks StakeAggregator_new.

(** [enough_leader_support]: the loop over the decision blocks. *)
Fixpoint support_loop d (leader_block : VerifiedBlock) (decision_blocks : list VerifiedBlock)
    (agg : quorum_agg) (all_votes : gmap BlockRef bool) : run bool :=
  match decision_blocks with
  | [] => Done false
  | decision_block :: decision_blocks =>
      '(certificate, all_votes) ← is_certificate d decision_block leader_block all_votes;
      if (certificate : bool) then
        '(agg, reached) ← StakeAggregator_add agg (vb_author decision_block) (ctx_committee ctx);
        if (reached : bool) then Done true
        else support_loop d leader_block decision_blocks agg all_votes
      else support_loop d leader_block decision_blocks agg all_votes
  end.

Definition enough_leader_support d (decision_round : Round) (leader_block : VerifiedBlock)
    : run bool :=
  decision_blocks ← get_uncommitted_blocks_at_round d decision_round;
  stakes ← map_run (λ b, Committee_stake (ctx_committee ctx) (vb_author b)) decision_blocks;
  if negb (Committee_reached_quorum (ctx_committee ctx) (u64_sum stakes)) then Done false
  else support_loop d leader_block decision_blocks StakeAggregator_new ∅.

(** [try_direct_decide]. *)
Definition try_direct_decide o d (leader : Slot) : run LeaderStatus :=
  let voting_round := u32_add (s_round leader) 1 in
  blamed ← enough_leader_blame d voting_round (s_authority leader);
  if (blamed : bool) then Done (LSkip leader)
  else
    let decision := decision_round o (wave_number o (s_round leader)) in
    let leader_blocks := get_uncommitted_blocks_at_slot d leader in
    supported ← filter_run (enough_leader_support d decision) leader_blocks;
    if bool_decide (1 < length supported)%nat then Panic
    else Done (match last supported with
               | Some l => LCommit l
               | None => LUndecided leader
               end).

(** [Iterator::any] over the potential certificates. *)
Fixpoint any_certificate d (leader_block : VerifiedBlock) (certificates : list VerifiedBlock)
    (all_votes : gmap BlockRef bool) : run bool :=
  match certificates with
  | [] => Done false
  | c :: certificates =>
      '(certificate, all_votes) ← is_certificate d c leader_block all_votes;
      if (certificate : bool) then Done true
      else any_certificate d leader_block certificates all_votes
  end.

(** [decide_leader_from_anchor]. *)
Definition decide_leader_from_anchor o d (anchor : VerifiedBlock) (leader_slot : Slot)
    : run LeaderStatus :=
  let leader_blocks := get_uncommitted_blocks_at_slot d leader_slot in
  let decision := decision_round o (wave_number o (s_round leader_slot)) in
  potential_certificates ← ancestors_at_round fuel d anchor decision;
  certified ← filter_run (λ leader_block,
                any_certificate d leader_block potential_certificates ∅) leader_blocks;
  if bool_decide (1 < length certified)%nat then Panic
  else Done (match last certified with
             | Some l => LCommit l
             | None => LSkip leader_slot
             end).

(** [try_indirect_decide]: the loop over the anchors. *)
Fixpoint anchor_loop o d (leader_slot : Slot) (anchors : list LeaderStatus) : run LeaderStatus :=
  match anchors with
  | [] => Done (LUndecided leader_slot)
  | LCommit anchor :: _ => decide_leader_from_anchor o d anchor leader_slot
  | LSkip _ :: anchors => anchor_loop o d leader_slot anchors
  | LUndecided _ :: _ => Done (LUndecided leader_slot)
  end.

Definition try_indirect_decide o d (leader_slot : Slot) (leaders : list LeaderStatus)
    : run LeaderStatus :=
  anchor_loop o d leader_slot
    (filter (λ x, u32_add (s_round leader_slot) (bo_wave_length o) ≤ LeaderStatus_round x) leaders).

(** [BaseCommitter::elect_leader]. *)
Definition BaseCommitter_elect_leader o (schedule : LeaderSchedule) (round : Round)
    : run (option Slot) :=
  let wave := wave_number o round in
  if bool_decide (leader_round o wave ≠ round) then Done None
  else
    leader ← elect_leader ctx schedule round (bo_leader_offset o);
    Done (Some (mk_slot round leader)).

(** ** The universal committer *)

(** The inner loop of [try_decide]: the committers of one round, in reverse
    order. The flag tells that the last decided leader was reached. *)
Fixpoint round_loop (schedule : LeaderSchedule) d (last_decided : Slot) (round : Round)
    (committers : list BaseCommitterOptions) (leaders : list (LeaderStatus * Decision))
    : run (list (LeaderStatus * Decision) * bool) :=
  match committers with
  | [] => Done (leaders, false)
  | o :: committers =>
      slot ← BaseCommitter_elect_leader o schedule round;
      match slot with
      | None => round_loop schedule d last_decided round committers leaders
      | Some slot =>
          if bool_decide (slot = last_decided) then Done (leaders, true)
          else
            status ← try_direct_decide o d slot;
            leaders ←
              (if LeaderStatus_is_decided status then Done ((status, Direct) :: leaders)
               else
                 status ← try_indirect_decide o d slot leaders.*1;
                 Done ((status, Indirect) :: leaders));
            round_loop schedule d last_decided round committers leaders
      end
  end.

(** The outer loop: the rounds, from the highest. *)
Fixpoint rounds_loop (schedule : LeaderSchedule) (committers : list BaseCommitterOptions) d
    (last_decided : Slot) (rounds : list Round) (leaders : list (LeaderStatus * Decision))
    : run (list (LeaderStatus * Decision)) :=
  match rounds with
  | [] => Done leaders
  | round :: rounds =>
      '(leaders, stop) ← round_loop schedule d last_decided round (reverse committers) leaders;
      if (stop : bool) then Done leaders
      else rounds_loop schedule committers d last_decided rounds leaders
  end.

(** The decided sequence is the longest prefix of decided leaders. *)
Fixpoint decided_prefix (leaders : list (LeaderStatus * Decision)) : list DecidedLeader :=
  match leaders with
  | [] => []
  | (leader, decision) :: leaders =>
      if bool_decide (LeaderStatus_round leader = GENESIS_ROUND) then decided_prefix leaders
      else
        match LeaderStatus_into_decided_leader leader (bool_decide (decision = Direct)) with
        | Some decided => decided :: decided_prefix leaders
        | None => []
        end
  end.

(** The rounds [first..=last] in descending order. *)
Definition rounds_desc (first last : Round) : list Round :=
  reverse ((λ i, first + N.of_nat i) <$> seq 0 (N.to_nat (last + 1 - first))).

(** [UniversalCommitter::try_decide]. *)
Definition try_decide (schedule : LeaderSchedule) (committers : list BaseCommitterOptions) d
    (last_decided : Slot) : run (list DecidedLeader) :=
  let last_round :=
    match pc_mysticeti_num_leaders_per_round (ctx_protocol_config ctx) with
    | Some 1 => u32_add (s_round last_decided) 1
    | _ => s_round last_decided
    end in
  leaders ← rounds_loop schedule committers d last_decided
              (rounds_desc last_round (saturating_sub (highest_accepted_round d) 2)) [];
  Done (decided_prefix leaders).

(** [UniversalCommitter::get_leaders]. *)
Definition get_leaders (schedule : LeaderSchedule) (committers : list BaseCommitterOptions)
    (round : Round) : run (list AuthorityIndex) :=
  slots ← map_run (λ o, BaseCommitter_elect_leader o schedule round) committers;
  Done (s_authority <$> (omap id (slots : list (option Slot)) : list Slot)).
End base_committer.

(** [struct UniversalCommitterBuilder] and its setters. *)
Record UniversalCommitterBuilder := mk_builder {
  ub_wave_length : Round;
  ub_number_of_leaders : N;
  ub_pipeline : bool;
}.
Definition UniversalCommitterBuilder_new : UniversalCommitterBuilder :=
  mk_builder DEFAULT_WAVE_LENGTH 1 false.
Definition with_wave_length (b : UniversalCommitterBuilder) (w : Round) : UniversalCommitterBuilder :=
  mk_builder w (ub_number_of_leaders b) (ub_pipeline b).
Definition with_number_of_leaders (b : UniversalCommitterBuilder) (n : N)
    : UniversalCommitterBuilder := mk_builder (ub_wave_length b) n (ub_pipeline b).
Definition with_pipeline (b : UniversalCommitterBuilder) (p : bool) : UniversalCommitterBuilder :=
  mk_builder (ub_wave_length b) (ub_number_of_leaders b) p.

(** [UniversalCommitterBuilder::build]: the committers, stage by stage. *)
Definition UniversalCommitterBuilder_build (b : UniversalCommitterBuilder)
    : list BaseCommitterOptions :=
  let pipeline_stages := if ub_pipeline b then ub_wave_length b else 1 in
  round_offset ← N.of_nat <$> seq 0 (N.to_nat pipeline_stages);
  (λ leader_offset, mk_options (ub_wave_length b) (N.of_nat leader_offset) round_offset) <$>
    seq 0 (N.to_nat (ub_number_of_leaders b)).
