(* ===== verification/CommitRule.v ===== *)
(** * What the commit rules compute

    The universe of verified blocks, votes and certificates as predicates on
    it, and the proof that the loops of the committer compute exactly these
    predicates on a causally complete view of the universe. *)
From S2P Require Import Prelude Committee StakeAggregator Block ThresholdClock Commit LeaderScoring Store DagState DagStateProofs DagTraversal LeaderSchedule BaseCommitter.

(** ** Well-formed blocks, as block verification guarantees them *)

(** The authors of the ancestors of the previous round. *)
Definition parents (b : VerifiedBlock) : gset AuthorityIndex :=
  list_to_set (br_author <$> filter (λ a, br_round a + 1 = vb_round b) (vb_ancestors b)).

Record block_wf (c : Committee) (b : VerifiedBlock) : Prop := {
  wf_author : Committee_is_valid_index c (vb_author b);
  wf_round : vb_round b < u32_max;
  wf_digest : vb_digest b ≤ BlockDigest_MAX;
  wf_ancestors : Forall (λ a, Committee_is_valid_index c (br_author a)) (vb_ancestors b);
  wf_rounds a : a ∈ vb_ancestors b → br_round a < vb_round b;
  wf_distinct : NoDup (br_author <$> vb_ancestors b);
  wf_parents : vb_round b ≠ 0 → c_quorum_threshold c ≤ set_stake c (parents b);
}.

Lemma wf_same_author c b a1 a2 : block_wf c b → a1 ∈ vb_ancestors b → a2 ∈ vb_ancestors b →
  br_author a1 = br_author a2 → a1 = a2.
Proof.
  intros Hwf [i Hi]%list_elem_of_lookup [j Hj]%list_elem_of_lookup Heq.
  assert (i = j) as ->; [|congruence].
  eapply NoDup_lookup; [apply (wf_distinct _ _ Hwf)|..]; rewrite list_lookup_fmap.
  - by rewrite Hi.
  - by rewrite Hj, Heq.
Qed.

(** ** The universe of blocks

    All verified blocks that exist; authorities outside of [byz] produce at
    most one block per round, and the stake of [byz] is below the validity
    threshold. *)
Record universe_ok (c : Committee) (G : BlockRef → option VerifiedBlock) (byz : gset AuthorityIndex)
    : Prop := {
  u_committee : committee_ok c;
  u_reference r b : G r = Some b → vb_reference b = r;
  u_wf r b : G r = Some b → block_wf c b;
  u_honest r1 r2 b1 b2 : G r1 = Some b1 → G r2 = Some b2 → br_author r1 ∉ byz →
    br_author r1 = br_author r2 → br_round r1 = br_round r2 → r1 = r2;
  u_byz : set_stake c byz < c_validity_threshold c;
}.

(** A vote is a block that includes the leader block; the voters of a
    certificate are the authors of the votes it includes. *)
Definition votes_for (lk : BlockRef → option VerifiedBlock) (leader : BlockRef) (a : BlockRef) : bool :=
  match lk a with Some b => bool_decide (leader ∈ vb_ancestors b) | None => false end.
Definition voters (lk : BlockRef → option VerifiedBlock) (leader : BlockRef) (cert : VerifiedBlock)
    : gset AuthorityIndex :=
  list_to_set (br_author <$> filter (votes_for lk leader) (vb_ancestors cert)).
Definition certificate (c : Committee) (lk : BlockRef → option VerifiedBlock) (leader : BlockRef)
    (cert : VerifiedBlock) : Prop :=
  vb_round cert = br_round leader + 2 ∧ c_quorum_threshold c ≤ set_stake c (voters lk leader cert).

(** A quorum of blocks of the voting round without an ancestor of the leader. *)
Definition blamed (c : Committee) (lk : BlockRef → option VerifiedBlock) (slot : Slot) : Prop :=
  ∃ Q, c_quorum_threshold c ≤ set_stake c Q ∧ ∀ q, q ∈ Q → ∃ r b, lk r = Some b ∧
    br_author r = q ∧ br_round r = s_round slot + 1 ∧
    ∀ a, a ∈ vb_ancestors b → br_author a ≠ s_authority slot.

(** A quorum of certificates in the decision round. *)
Definition supported (c : Committee) (lk : BlockRef → option VerifiedBlock) (leader : BlockRef)
    : Prop :=
  ∃ Q, c_quorum_threshold c ≤ set_stake c Q ∧ ∀ q, q ∈ Q → ∃ r b, lk r = Some b ∧
    br_author r = q ∧ certificate c lk leader b.

Section universe.
Context (c : Committee) (G : BlockRef → option VerifiedBlock) (byz : gset AuthorityIndex).
Context (HU : universe_ok c G byz).

Lemma quorums_honest X Y : c_quorum_threshold c ≤ set_stake c X →
  c_quorum_threshold c ≤ set_stake c Y → ∃ h, h ∈ X ∧ h ∈ Y ∧ h ∉ byz.
Proof using HU.
  intros HX HY.
  pose proof (quorum_intersection_stake c (u_committee _ _ _ HU) X Y HX HY).
  pose proof (u_byz _ _ _ HU).
  destruct (honest_member c (X ∩ Y) byz) as (h & ? & ?); [lia|]. exists h. set_solver.
Qed.

Lemma elem_of_voters lk leader cert h :
  h ∈ voters lk leader cert ↔
  ∃ a b, a ∈ vb_ancestors cert ∧ br_author a = h ∧ lk a = Some b ∧ leader ∈ vb_ancestors b.
Proof.
  clear. unfold voters. rewrite elem_of_list_to_set, list_elem_of_fmap. split.
  - intros (a & -> & [Hv Hin]%list_elem_of_filter). unfold votes_for in Hv.
    destruct (lk a) as [b|] eqn:Hb; [|done]. rewrite bool_decide_spec in Hv. by exists a, b.
  - intros (a & b & Hin & <- & Hb & Hl). exists a. split; [done|]. apply list_elem_of_filter.
    unfold votes_for. by rewrite Hb, bool_decide_spec.
Qed.

(** The votes of a certificate are of the voting round. *)
Lemma voter_round leader cert a b : block_wf c cert → vb_round cert = br_round leader + 2 →
  a ∈ vb_ancestors cert → G a = Some b → leader ∈ vb_ancestors b →
  br_round a = br_round leader + 1.
Proof using HU.
  intros Hwf Hr Ha Hb Hl. pose proof (wf_rounds _ _ Hwf a Ha).
  pose proof (u_reference _ _ _ HU _ _ Hb) as <-.
  pose proof (wf_rounds _ _ (u_wf _ _ _ HU _ _ Hb) leader Hl). simpl in *. lia.
Qed.

(** Two certified blocks of the same slot are the same block. *)
Lemma certificate_unique L1 L2 r1 r2 b1 b2 :
  G r1 = Some b1 → G r2 = Some b2 → certificate c G L1 b1 → certificate c G L2 b2 →
  Slot_from L1 = Slot_from L2 → L1 = L2.
Proof using HU.
  intros Hb1 Hb2 [Hr1 Hq1] [Hr2 Hq2] [= HLr HLa].
  destruct (quorums_honest _ _ Hq1 Hq2) as (h & Hh1 & Hh2 & Hhon).
  apply elem_of_voters in Hh1 as (a1 & v1 & Hin1 & Ha1 & Hv1 & Hl1).
  apply elem_of_voters in Hh2 as (a2 & v2 & Hin2 & Ha2 & Hv2 & Hl2).
  pose proof (voter_round _ _ _ _ (u_wf _ _ _ HU _ _ Hb1) Hr1 Hin1 Hv1 Hl1).
  pose proof (voter_round _ _ _ _ (u_wf _ _ _ HU _ _ Hb2) Hr2 Hin2 Hv2 Hl2).
  assert (a1 = a2) as ->.
  { apply (u_honest _ _ _ HU _ _ _ _ Hv1 Hv2); [by rewrite Ha1|congruence|lia]. }
  rewrite Hv1 in Hv2. simplify_eq.
  by apply (wf_same_author c v2); [by eapply (u_wf _ _ _ HU)|..].
Qed.

(** A slot that is blamed by a quorum has no certified block. *)
Lemma certificate_not_blamed L r b slot :
  G r = Some b → certificate c G L b → Slot_from L = slot → blamed c G slot → False.
Proof using HU.
  intros Hb [Hr Hq] <- (Q & HQ & Hblame).
  destruct (quorums_honest _ _ Hq HQ) as (h & Hh & HhQ & Hhon).
  apply elem_of_voters in Hh as (a & v & Hin & Ha & Hv & Hl).
  destruct (Hblame h HhQ) as (r' & b' & Hb' & Ha' & Hr' & Hno).
  pose proof (voter_round _ _ _ _ (u_wf _ _ _ HU _ _ Hb) Hr Hin Hv Hl) as Har. simpl in Hr'.
  assert (a = r') as ->.
  { apply (u_honest _ _ _ HU _ _ _ _ Hv Hb'); [by rewrite Ha|congruence|lia]. }
  rewrite Hv in Hb'. simplify_eq. by apply (Hno L).
Qed.
End universe.

(** ** A view of the universe

    The DAG state of one authority: every block it knows is in the universe,
    and the ancestors above its GC round are known with each block. *)
Section view.
Context {S : Type} `{StoreLaws S} `{Rng} (ctx : Context) (G : BlockRef → option VerifiedBlock).

Record view_ok (d : DagState S) (v : StoreView) : Prop := {
  vo_inv : dag_inv ctx d v;
  vo_sub r b : dag_lookup d v r = Some b → G r = Some b;
  vo_closed r b a : dag_lookup d v r = Some b → a ∈ vb_ancestors b →
    gc_round ctx d < br_round a → is_Some (dag_lookup d v a);
}.

(** All references the view knows; their number bounds the traversals. *)
Definition known_refs (d : DagState S) (v : StoreView) : gset BlockRef :=
  dom (ds_genesis d) ∪ dom (ds_recent_blocks d) ∪ dom (sv_blocks v).

Lemma known_refs_lookup d v r b : dag_lookup d v r = Some b → r ∈ known_refs d v.
Proof.
  unfold dag_lookup, known_refs. rewrite !elem_of_union, !elem_of_dom. case_bool_decide.
  - intros ->. eauto.
  - destruct (ds_recent_blocks d !! r); intros Hb; eauto.
Qed.

Context (byz : gset AuthorityIndex) (HU : universe_ok (ctx_committee ctx) G byz).
Context (d : DagState S) (v : StoreView) (Hview : view_ok d v).
Abbreviation lk := (dag_lookup d v).
Abbreviation gc := (gc_round ctx d).
Abbreviation cm := (ctx_committee ctx).

Lemma lk_wf r b : lk r = Some b → vb_reference b = r ∧ block_wf cm b.
Proof using HU Hview.
  intros Hb%(vo_sub _ _ Hview). split; [by apply (u_reference _ _ _ HU)|by apply (u_wf _ _ _ HU r)].
Qed.

Lemma lk_rounds_decrease : rounds_decrease lk.
Proof using HU Hview.
  intros x y (b & Hb & Hy). destruct (lk_wf _ _ Hb) as [<- Hwf].
  by apply (wf_rounds _ _ Hwf).
Qed.

(** Above the GC round every known block is cached. *)
Lemma lk_cached r b : gc < br_round r →
  lk r = Some b ↔ ∃ info, ds_recent_blocks d !! r = Some info ∧ bi_block info = b.
Proof using Hview.
  intros Hr. pose proof (vo_inv _ _ Hview) as Hinv. split.
  - unfold dag_lookup, GENESIS_ROUND. rewrite bool_decide_eq_false_2 by lia.
    destruct (ds_recent_blocks d !! r) as [info|] eqn:Hi; [intros [= <-]; eauto|]. intros Hb.
    destruct (di_store _ _ _ Hinv _ _ Hb) as (_ & _ & X & l & e & HX & _ & _ & He & Hor).
    destruct Hor as [[? ?]|Hle]; [congruence|].
    pose proof (di_evicted _ _ _ Hinv _ _ _ HX He) as Hev. unfold eviction_round in Hev. lia.
  - intros (info & Hi & <-). by apply dag_lookup_recent with (ctx := ctx).
Qed.

(** The blocks of a slot and of a round. *)
Lemma blocks_at_slot_spec slot : gc < s_round slot → ∀ b,
  b ∈ get_uncommitted_blocks_at_slot d slot ↔
  lk (vb_reference b) = Some b ∧ Slot_from (vb_reference b) = slot.
Proof using HU Hview.
  intros Hr b. unfold get_uncommitted_blocks_at_slot, map_range.
  rewrite list_elem_of_fmap. setoid_rewrite list_elem_of_filter. split.
  - intros ([r info] & -> & Hrange & Hi%elem_of_map_list). simpl.
    unfold above_bound, below_bound in Hrange. simpl in Hrange.
    apply andb_True in Hrange as [Hlo Hhi]. unfold BlockRef_le in *.
    rewrite bool_decide_spec in Hlo, Hhi. simpl in Hlo, Hhi.
    assert (br_round r = s_round slot ∧ br_author r = s_authority slot) as [Hrr Hra] by lia.
    assert (lk r = Some (bi_block info)) as Hb by (apply lk_cached; [lia|eauto]).
    destruct (lk_wf _ _ Hb) as [-> _]. split; [done|].
    destruct slot. unfold Slot_from. by rewrite Hrr, Hra.
  - intros [Hb <-]. pose proof Hb as (info & Hi & Hbi)%lk_cached; [|done].
    exists (vb_reference b, info). split; [done|]. split; [|by apply elem_of_map_list].
    pose proof (lk_wf _ _ Hb) as [_ Hwf]. pose proof (wf_digest _ _ Hwf).
    unfold above_bound, below_bound. simpl. unfold BlockRef_le, BlockDigest_MIN.
    apply andb_True. rewrite !bool_decide_spec. simpl. lia.
Qed.

Lemma NoDup_blocks_at_slot slot : gc < s_round slot →
  NoDup (vb_reference <$> get_uncommitted_blocks_at_slot d slot).
Proof using HU Hview.
  intros Hr. unfold get_uncommitted_blocks_at_slot.
  rewrite <-list_fmap_compose.
  assert (Hsub : sublist (map_range (Included (mk_ref (s_round slot) (s_authority slot) BlockDigest_MIN))
      (Included (mk_ref (s_round slot) (s_authority slot) BlockDigest_MAX)) (ds_recent_blocks d))
      (map_list (ds_recent_blocks d))) by apply sublist_filter.
  rewrite (list_fmap_ext _ fst).
  - eapply sublist_NoDup; [apply (NoDup_map_list (ds_recent_blocks d))|]. by apply fmap_sublist.
  - intros i [r info] Hi%list_elem_of_lookup_2. simpl.
    eapply elem_of_submseteq in Hi; [|by apply sublist_submseteq].
    apply elem_of_map_list in Hi.
    by destruct (di_recent _ _ _ (vo_inv _ _ Hview) _ _ Hi) as [-> _].
Qed.

Lemma blocks_at_round_spec round : last_commit_round d < round → round < u32_max →
  ∃ bs, get_uncommitted_blocks_at_round d round = Done bs ∧
    ∀ b, b ∈ bs ↔ lk (vb_reference b) = Some b ∧ vb_round b = round.
Proof using HU Hview.
  intros Hr Hmax. unfold get_uncommitted_blocks_at_round. rewrite bool_decide_eq_false_2 by lia.
  eexists. split; [done|]. intros b.
  assert (Hgc : gc < round) by (unfold gc_round, calculate_gc_round, saturating_sub; lia).
  rewrite u32_add_small by lia.
  unfold map_range. rewrite list_elem_of_fmap. setoid_rewrite list_elem_of_filter. split.
  - intros ([r info] & -> & Hrange & Hi%elem_of_map_list). simpl.
    unfold above_bound, below_bound in Hrange. simpl in Hrange.
    apply andb_True in Hrange as [Hlo [Hhi Hne]%andb_True]. unfold BlockRef_le in *.
    rewrite bool_decide_spec in Hlo, Hhi. simpl in Hlo, Hhi.
    unfold BlockDigest_MIN in *.
    assert (br_round r = round) as Hrr.
    { destruct (decide (br_round r = round + 1)) as [He|]; [|lia].
      rewrite bool_decide_spec in Hne. destruct Hne.
      destruct r as [rr ra rd]; simpl in *. subst rr. f_equal; lia. }
    assert (lk r = Some (bi_block info)) as Hb by (apply lk_cached; [lia|eauto]).
    destruct (lk_wf _ _ Hb) as [Href _]. rewrite Href. split; [done|]. by rewrite <-Href in Hrr.
  - intros [Hb Hbr]. pose proof Hb as (info & Hi & Hbi)%lk_cached; [|simpl; lia].
    exists (vb_reference b, info). split; [done|]. split; [|by apply elem_of_map_list].
    unfold above_bound, below_bound. simpl. unfold BlockRef_le, BlockDigest_MIN.
    rewrite !andb_True, !bool_decide_spec. simpl. split_and!; [lia|lia|].
    intros [= He]. lia.
Qed.

(** ** Votes *)

(** The ancestors of a block of the voting round or below: the first one in
    the slot is the only one. *)
Lemma find_supported_spec depth slot (b : VerifiedBlock) : block_wf cm b →
  vb_round b ≤ s_round slot + 1 →
  find_supported_loop (Datatypes.S depth) d slot b =
    Done (head (filter (λ a, Slot_from a = slot) (vb_ancestors b))).
Proof.
  clear HU Hview. intros Hwf Hr. simpl.
  assert (Hrs : ∀ a, a ∈ vb_ancestors b → br_round a ≤ s_round slot).
  { intros a Ha%(wf_rounds _ _ Hwf). lia. }
  case_bool_decide as Hlt.
  - destruct (filter _ _) as [|a l] eqn:Hf; [done|].
    assert (a ∈ filter (λ a, Slot_from a = slot) (vb_ancestors b)) as [Hs Ha]%list_elem_of_filter
      by (rewrite Hf; by left).
    apply (wf_rounds _ _ Hwf) in Ha. rewrite <-Hs in Hlt. simpl in Hlt. lia.
  - clear Hlt Hwf. induction (vb_ancestors b) as [|a l IH]; [done|]. rewrite filter_cons.
    rewrite <-decide_bool_decide. case_decide; [done|].
    rewrite bool_decide_eq_true_2 by (apply Hrs; by left).
    apply IH. intros a' Ha'. apply Hrs. by right.
Qed.

Lemma is_vote_spec b leader : block_wf cm b → vb_round b ≤ vb_round leader + 1 →
  is_vote d b leader = Done (bool_decide (vb_reference leader ∈ vb_ancestors b)).
Proof.
  clear HU Hview. intros Hwf Hr. unfold is_vote, find_supported_block.
  rewrite find_supported_spec by done. simpl. f_equal. apply bool_decide_ext.
  set (f := filter _ _).
  assert (Hf : ∀ a, a ∈ f ↔ Slot_from a = Slot_from (vb_reference leader) ∧ a ∈ vb_ancestors b)
    by (intros a; unfold f; by rewrite list_elem_of_filter).
  clearbody f. split.
  - intros Hh. assert (vb_reference leader ∈ f) as [_ ?]%Hf; [|done].
    destruct f; simplify_eq/=. by left.
  - intros Hin. assert (vb_reference leader ∈ f) as Hlf by (by apply Hf).
    destruct f as [|a f]; [set_solver|]. simpl. f_equal.
    assert (a ∈ a :: f) as [[= _ Ha] Hain]%Hf by left. by eapply wf_same_author.
Qed.

Lemma is_vote_cached_spec leader cache r :
  gc < vb_round leader + 1 → br_round r ≤ vb_round leader + 1 →
  (gc < br_round r → is_Some (lk r)) →
  (∀ r' x, cache !! r' = Some x → x = votes_for lk (vb_reference leader) r') →
  ∃ cache', is_vote_cached ctx d leader r cache =
      Done (votes_for lk (vb_reference leader) r, cache') ∧
    ∀ r' x, cache' !! r' = Some x → x = votes_for lk (vb_reference leader) r'.
Proof using HU Hview.
  intros Hgc Hr Hknown Hcache. unfold is_vote_cached.
  destruct (cache !! r) as [x|] eqn:Hx.
  { exists cache. by rewrite <-(Hcache _ _ Hx). }
  rewrite (get_block_spec ctx d v) by apply Hview. simpl.
  assert (Hv : match lk r with
               | Some b => is_vote d b leader
               | None => assert! bool_decide (br_round r ≤ gc); Done false
               end = Done (votes_for lk (vb_reference leader) r)).
  { unfold votes_for. destruct (lk r) as [b|] eqn:Hb.
    - destruct (lk_wf _ _ Hb) as [<- Hwf]. by apply is_vote_spec.
    - rewrite bool_decide_eq_true_2; [done|]. apply N.le_ngt. intros Hlt.
      by destruct (Hknown Hlt). }
  rewrite Hv. simpl. eexists. split; [done|]. intros r' x.
  destruct (decide (r = r')) as [<-|Hne]; [rewrite lookup_insert_eq|rewrite lookup_insert_ne by done; apply Hcache]. congruence.
Qed.

(** ** Certificates *)

Definition cache_ok (leader : VerifiedBlock) (cache : gmap BlockRef bool) : Prop :=
  ∀ r x, cache !! r = Some x → x = votes_for lk (vb_reference leader) r.

Lemma certificate_loop_spec leader l agg cache : gc < vb_round leader + 1 →
  (∀ r, r ∈ l → br_round r ≤ vb_round leader + 1) →
  (∀ r, r ∈ l → gc < br_round r → is_Some (lk r)) →
  (∀ r, r ∈ l → Committee_is_valid_index cm (br_author r)) →
  cache_ok leader cache →
  ∃ cache', cache_ok leader cache' ∧ certificate_loop ctx d leader l agg cache =
    (x ← add_until cm agg (br_author <$> filter (votes_for lk (vb_reference leader)) l);
     Done (x, cache')).
Proof using HU Hview.
  intros Hgc. revert agg cache. induction l as [|r l IH]; intros agg cache Hr Hk Hval Hcache; [eauto|].
  simpl. destruct (is_vote_cached_spec leader cache r) as (cache1 & -> & Hcache1);
    [done|apply Hr; by left|apply Hk; by left|done|]. simpl.
  assert (Hrest : ∀ agg, ∃ cache', cache_ok leader cache' ∧
    certificate_loop ctx d leader l agg cache1 =
    (x ← add_until cm agg (br_author <$> filter (votes_for lk (vb_reference leader)) l);
     Done (x, cache'))).
  { intros agg'. apply IH; [..|done]; intros; try apply Hr; try apply Hk; try apply Hval; first [by right|done]. }
  rewrite filter_cons. destruct (votes_for _ _ r) eqn:Hv; [|rewrite decide_False by auto; apply Hrest].
  rewrite decide_True by done. csimpl.
  destruct (StakeAggregator_add_Done cm agg (br_author r)) as [[agg' reached] ->];
    [apply Hval; by left|].
  simpl. destruct reached; [by exists cache1|apply Hrest].
Qed.

Lemma is_certificate_spec cert leader cache : lk (vb_reference cert) = Some cert →
  vb_round cert = vb_round leader + 2 → gc < vb_round leader + 1 → cache_ok leader cache →
  ∃ cache', cache_ok leader cache' ∧ is_certificate ctx d cert leader cache =
    Done (bool_decide (c_quorum_threshold cm ≤ set_stake cm (voters lk (vb_reference leader) cert)),
          cache').
Proof using HU Hview.
  intros Hcert Hr Hgc Hcache. unfold is_certificate.
  destruct (lk_wf _ _ Hcert) as [_ Hwf].
  pose proof (wf_ancestors _ _ Hwf) as Hval. rewrite Forall_forall in Hval.
  destruct (certificate_loop_spec leader (vb_ancestors cert) StakeAggregator_new cache Hgc)
    as (cache' & Hcache' & ->); [|intros r; by apply (vo_closed _ _ Hview _ _ r Hcert)|done..|].
  { intros r Ha%(wf_rounds _ _ Hwf). lia. }
  exists cache'. split; [done|].
  rewrite (add_until_spec cm (u_committee _ _ _ HU));
    [|apply agg_ok_new|apply quorum_pos, HU|].
  - simpl. do 3 f_equal. apply bool_decide_ext. f_equiv. f_equal. unfold voters. set_solver.
  - apply Forall_forall. intros a (r & -> & [_ Hin]%list_elem_of_filter)%list_elem_of_fmap. auto.
Qed.

(** In the view and in the universe the voters are the same. *)
Lemma voters_universe cert leader : lk (vb_reference cert) = Some cert →
  vb_round cert = br_round leader + 2 → gc < br_round leader + 1 →
  voters lk leader cert = voters G leader cert.
Proof using HU Hview.
  intros Hcert Hr Hgc. apply leibniz_equiv. intros h. rewrite !elem_of_voters. split.
  - intros (a & b & Hin & Ha & Hb & Hl). exists a, b. by apply (vo_sub _ _ Hview) in Hb.
  - intros (a & b & Hin & Ha & Hb & Hl). exists a, b. split_and!; [done..| |done].
    destruct (lk_wf _ _ Hcert) as [_ Hwf].
    pose proof (voter_round _ _ _ HU leader cert a b Hwf Hr Hin Hb Hl) as Har.
    destruct (vo_closed _ _ Hview _ _ _ Hcert Hin) as [b' Hb']; [lia|].
    pose proof (vo_sub _ _ Hview _ _ Hb'). congruence.
Qed.

Lemma certificate_universe cert leader : lk (vb_reference cert) = Some cert →
  gc < br_round leader + 1 → certificate cm lk leader cert ↔ certificate cm G leader cert.
Proof using HU Hview.
  intros Hcert Hgc. unfold certificate. split; intros [Hr Hq]; (split; [done|]).
  - by rewrite <-voters_universe.
  - by rewrite voters_universe.
Qed.

(** ** Quorums of blocks *)

(** The aggregation loop over the blocks with a property. *)
Lemma add_until_blocks (P : VerifiedBlock → bool) bs :
  (∀ b, b ∈ bs → Committee_is_valid_index cm (vb_author b)) →
  ∃ x, add_until (T := QuorumThreshold) cm StakeAggregator_new (vb_author <$> filter P bs) = Done x ∧
    (x = true ↔ ∃ Q, c_quorum_threshold cm ≤ set_stake cm Q ∧
       ∀ q, q ∈ Q → ∃ b, b ∈ bs ∧ P b ∧ vb_author b = q).
Proof using HU.
  clear Hview. intros Hval. rewrite (add_until_spec cm (u_committee _ _ _ HU));
    [|apply agg_ok_new|apply quorum_pos, HU|].
  - eexists. split; [done|]. rewrite bool_decide_eq_true. split.
    + intros Hq. eexists. split; [exact Hq|]. simpl. intros q.
      rewrite elem_of_union, elem_of_list_to_set, list_elem_of_fmap.
      intros [?|(b & -> & [Hb Hin]%list_elem_of_filter)]; [set_solver|]. by exists b.
    + intros (Q & HQ & Hin). etrans; [exact HQ|]. apply set_stake_mono. intros q Hq.
      destruct (Hin q Hq) as (b & Hb & HP & <-).
      apply elem_of_union. right. apply elem_of_list_to_set, list_elem_of_fmap.
      exists b. split; [done|]. by apply list_elem_of_filter.
  - apply Forall_forall. intros a (b & -> & [_ Hin]%list_elem_of_filter)%list_elem_of_fmap. auto.
Qed.

Definition blames (leader : AuthorityIndex) (b : VerifiedBlock) : bool :=
  forallb (λ a, negb (bool_decide (br_author a = leader))) (vb_ancestors b).

Lemma blames_spec leader b :
  blames leader b ↔ ∀ a, a ∈ vb_ancestors b → br_author a ≠ leader.
Proof.
  clear. unfold blames. rewrite forallb_True, Forall_forall.
  split; intros Hall a Ha; specialize (Hall a Ha); simpl in *.
  - rewrite negb_True, bool_decide_spec in Hall. done.
  - by rewrite negb_True, bool_decide_spec.
Qed.

Lemma blame_loop_add_until leader bs (agg : quorum_agg) :
  blame_loop ctx leader bs agg = add_until cm agg (vb_author <$> filter (blames leader) bs).
Proof.
  clear. revert agg. induction bs as [|b bs IH]; intros agg; [done|]. simpl.
  fold (blames leader b). rewrite filter_cons. destruct (blames leader b).
  - rewrite decide_True by done. csimpl.
    destruct (StakeAggregator_add agg _ _) as [[agg' []]| |]; simpl; [done|apply IH|done..].
  - rewrite decide_False by auto. apply IH.
Qed.

Lemma enough_leader_blame_spec slot :
  last_commit_round d < s_round slot + 1 → s_round slot + 1 < u32_max →
  ∃ x, enough_leader_blame ctx d (s_round slot + 1) (s_authority slot) = Done x ∧
    (x = true ↔ blamed cm lk slot).
Proof using HU Hview.
  intros Hr Hmax. unfold enough_leader_blame.
  destruct (blocks_at_round_spec _ Hr Hmax) as (bs & -> & Hbs). simpl.
  rewrite blame_loop_add_until.
  destruct (add_until_blocks (blames (s_authority slot)) bs) as (x & -> & Hx).
  { intros b [Hb _]%Hbs. by apply lk_wf in Hb as [_ ?%wf_author]. }
  exists x. split; [done|]. rewrite Hx. unfold blamed.
  split; intros (Q & HQ & Hin); exists Q; (split; [done|]); intros q Hq.
  - destruct (Hin q Hq) as (b & [Hb Hbr]%Hbs & Hbl & <-). rewrite blames_spec in Hbl.
    by exists (vb_reference b), b.
  - destruct (Hin q Hq) as (r & b & Hb & <- & Hbr & Hbl). destruct (lk_wf _ _ Hb) as [<- _].
    exists b. split; [by apply Hbs|]. split; [by apply blames_spec|done].
Qed.

Definition certifies (leader b : VerifiedBlock) : bool :=
  bool_decide (c_quorum_threshold cm ≤ set_stake cm (voters lk (vb_reference leader) b)).

Lemma support_loop_spec leader bs agg cache : gc < vb_round leader + 1 → cache_ok leader cache →
  (∀ b, b ∈ bs → lk (vb_reference b) = Some b ∧ vb_round b = vb_round leader + 2) →
  support_loop ctx d leader bs agg cache =
    add_until cm agg (vb_author <$> filter (certifies leader) bs).
Proof using HU Hview.
  intros Hgc. revert agg cache. induction bs as [|b bs IH]; intros agg cache Hcache Hbs; [done|].
  simpl. destruct (Hbs b) as [Hb Hbr]; [by left|].
  destruct (is_certificate_spec b leader cache Hb Hbr Hgc Hcache) as (cache' & Hcache' & ->).
  simpl. rewrite filter_cons. fold (certifies leader b).
  assert (Hbs' : ∀ b, b ∈ bs → lk (vb_reference b) = Some b ∧ vb_round b = vb_round leader + 2)
    by (intros; apply Hbs; by right).
  destruct (certifies leader b); [|rewrite decide_False by auto; by apply IH].
  rewrite decide_True by done. csimpl.
  destruct (StakeAggregator_add agg _ _) as [[agg' []]| |]; simpl; [done|by apply IH|done..].
Qed.

(** The stake of the blocks of a round, counted with repetitions. *)
Definition stake_of_blocks (bs : list VerifiedBlock) : N := sumN (stake_at cm <$> (vb_author <$> bs)).

Lemma stake_of_blocks_ge bs Q : (∀ q, q ∈ Q → ∃ b, b ∈ bs ∧ vb_author b = q) →
  set_stake cm Q ≤ stake_of_blocks bs.
Proof.
  clear. intros HQ. unfold set_stake, stake_of_blocks. apply sumN_submseteq, fmap_submseteq.
  apply NoDup_submseteq; [apply NoDup_elements|]. intros q Hq%elem_of_elements.
  destruct (HQ q Hq) as (b & Hb & <-). by apply list_elem_of_fmap_2.
Qed.

Lemma block_stakes_Done bs :
  (∀ b, b ∈ bs → Committee_is_valid_index cm (vb_author b)) →
  map_run (λ b, Committee_stake cm (vb_author b)) bs = Done (stake_at cm <$> (vb_author <$> bs)).
Proof.
  clear. induction bs as [|b bs IH]; intros Hval; [done|]. simpl.
  rewrite Committee_stake_Done by (apply Hval; by left). simpl.
  rewrite IH by (intros; apply Hval; by right). done.
Qed.

(** Direct support; the test of the total stake is only an optimisation as
    long as the sum of the stakes does not overflow. *)
Lemma enough_leader_support_spec leader bs : gc < vb_round leader + 1 →
  get_uncommitted_blocks_at_round d (vb_round leader + 2) = Done bs →
  last_commit_round d < vb_round leader + 2 → vb_round leader + 2 < u32_max →
  ∃ x, enough_leader_support ctx d (vb_round leader + 2) leader = Done x ∧
    (x = true → supported cm lk (vb_reference leader)) ∧
    (stake_of_blocks bs ≤ u64_max → supported cm lk (vb_reference leader) → x = true).
Proof using HU Hview.
  intros Hgc Hbs0 Hr Hmax. unfold enough_leader_support.
  destruct (blocks_at_round_spec _ Hr Hmax) as (bs' & Hbs1 & Hbs).
  rewrite Hbs1 in Hbs0. injection Hbs0 as ->. rewrite Hbs1. simpl.
  assert (Hval : ∀ b, b ∈ bs → Committee_is_valid_index cm (vb_author b)).
  { intros b [Hb _]%Hbs. by apply lk_wf in Hb as [_ ?%wf_author]. }
  rewrite block_stakes_Done by done. simpl.
  rewrite support_loop_spec; [|done|intros r x; by rewrite lookup_empty|].
  2:{ intros b [Hb Hbr]%Hbs. done. }
  destruct (add_until_blocks (certifies leader) bs Hval) as (x & -> & Hx).
  assert (Hsup : x = true ↔ supported cm lk (vb_reference leader)).
  { rewrite Hx. unfold supported, certificate, certifies.
    split; intros (Q & HQ & Hin); exists Q; (split; [done|]); intros q Hq.
    - destruct (Hin q Hq) as (b & [Hb Hbr]%Hbs & Hc & <-). rewrite bool_decide_spec in Hc.
      by exists (vb_reference b), b.
    - destruct (Hin q Hq) as (r & b & Hb & <- & Hbr & Hc). destruct (lk_wf _ _ Hb) as [<- _].
      exists b. rewrite bool_decide_spec. split; [by apply Hbs|done]. }
  destruct (Committee_reached_quorum _ _) eqn:Hq; simpl; [exists x; tauto|].
  exists false. split; [done|]. split; [done|]. intros Hsmall (Q & HQ & Hin).
  unfold Committee_reached_quorum in Hq. rewrite bool_decide_eq_false, u64_sum_small in Hq by done.
  destruct Hq. etrans; [exact HQ|]. apply stake_of_blocks_ge. intros q Hq.
  destruct (Hin q Hq) as (r & b & Hb & <- & Hbr & _). destruct (lk_wf _ _ Hb) as [<- _].
  exists b. split; [by apply Hbs|done].
Qed.
End view.
