(* ===== verification/BlockVerifier.v ===== *)
(** * Block verification (consensus/core/src/block_verifier.rs and the
    signatures of consensus/core/src/block.rs)

    [verify_block] never panics and accepts exactly the blocks that the other
    components assume: the invariants the commit rules need follow. *)
From Stdlib Require Import Strings.Byte.
From S2P Require Import Prelude Committee StakeAggregator Block ThresholdClock Commit LeaderScoring Store DagState DagStateProofs DagTraversal LeaderSchedule BaseCommitter CommitRule.

(** Serialization, hashing and signatures of the external crates; an error is
    given by its message, a parsed signature by its bytes. *)
Class Crypto := {
  bcs_block_to_bytes : Block → string + bytes;
  inner_digest : bytes → bytes;
  bcs_intent_to_bytes : bytes → string + bytes;
  signature_from_bytes : bytes → string + bytes;
  public_key_verify : bytes → bytes → bytes → option string;
}.

(** [trait TransactionVerifier] and its [ValidationError]. *)
Inductive ValidationError := VInvalidTransaction (s : string).
Definition ValidationError_to_string (e : ValidationError) : string :=
  let 'VInvalidTransaction s := e in ("Invalid transaction: " +:+ s)%string.
Class TransactionVerifier := {
  verify_batch : list bytes → option ValidationError;
  verify_and_vote_batch : list bytes → ValidationError + list TransactionIndex;
}.

Section signatures.
Context `{Crypto}.

(** [compute_inner_block_digest], [to_consensus_block_intent]. *)
Definition compute_inner_block_digest (b : Block) : ConsensusResult bytes :=
  match bcs_block_to_bytes b with
  | inl e => RErr (SerializationFailure e)
  | inr bs => ROk (inner_digest bs)
  end.

(** [verify_block_signature]. *)
Definition verify_block_signature (b : Block) (signature protocol_pubkey : bytes)
    : ConsensusResult unit :=
  digest ← compute_inner_block_digest b;
  message ← match bcs_intent_to_bytes digest with
            | inl e => RErr (SerializationFailure e)
            | inr m => ROk m
            end;
  sig ← match signature_from_bytes signature with
        | inl e => RErr (MalformedSignature e)
        | inr s => ROk s
        end;
  match public_key_verify protocol_pubkey message sig with
  | Some e => RErr (SignatureVerificationFailure e)
  | None => ROk tt
  end.

(** [SignedBlock::verify_signature]. *)
Definition SignedBlock_verify_signature (ctx : Context) (sb : SignedBlock) : fallible unit :=
  let block := sb_inner sb in
  let committee := ctx_committee ctx in
  _ ← (Done (ensure (Committee_is_valid_index committee (block_author block))
               (InvalidAuthorityIndex (block_author block)
                  (N.of_nat (Committee_size committee) - 1))) : fallible unit);
  authority ← f_run (Committee_authority committee (block_author block));
  (Done (verify_block_signature block (sb_signature sb) (a_protocol_key authority)) : fallible unit).
End signatures.

(** [struct SignedBlockVerifier]; the context and the transaction verifier are
    arguments of its methods. *)
Record SignedBlockVerifier := mk_verifier { sv_genesis : gset BlockRef }.

(** [SignedBlockVerifier::new]. *)
Definition SignedBlockVerifier_new `{BlockCodec} (ctx : Context) : run SignedBlockVerifier :=
  genesis ← genesis_blocks ctx;
  Done (mk_verifier (list_to_set (vb_reference <$> genesis))).

Section verifier.
Context `{Crypto} `{TransactionVerifier} (ctx : Context) (self : SignedBlockVerifier).
Abbreviation cm := (ctx_committee ctx).
Abbreviation max_index := (N.of_nat (Committee_size cm) - 1).

(** [check_transactions]: the first loop. *)
Fixpoint check_sizes (limit : N) (batch : list bytes) : ConsensusResult unit :=
  match batch with
  | [] => ROk tt
  | t :: batch =>
      if bool_decide (limit < N.of_nat (length t)) && bool_decide (0 < limit)
      then RErr (TransactionTooLarge (N.of_nat (length t)) limit)
      else check_sizes limit batch
  end.
Definition check_transactions (batch : list bytes) : ConsensusResult unit :=
  let pc := ctx_protocol_config ctx in
  _ ← check_sizes (pc_max_transaction_size_bytes pc) batch;
  let count := N.of_nat (length batch) in
  let max_num := pc_max_num_transactions_in_block pc in
  if bool_decide (max_num < count) && bool_decide (0 < max_num)
  then RErr (TooManyTransactions count max_num)
  else
    let max_total := pc_max_transactions_in_block_bytes pc in
    if bool_decide (max_total < u64_sum ((λ t, N.of_nat (length t)) <$> batch)) && bool_decide (0 < max_total)
    then RErr (TooManyTransactionBytes count max_total)
    else ROk tt.

(** [verify_block]: the loop over the ancestors. *)
Fixpoint verify_ancestors (author : AuthorityIndex) (round : Round) (i : nat) (seen : list bool)
    (parent_stakes : Stake) (ancestors : list BlockRef) : fallible Stake :=
  match ancestors with
  | [] => f_ok parent_stakes
  | ancestor :: ancestors =>
      if negb (Committee_is_valid_index cm (br_author ancestor))
      then f_err (InvalidAuthorityIndex (br_author ancestor) max_index)
      else if (bool_decide (i = 0)%nat && negb (bool_decide (br_author ancestor = author)))
              || (bool_decide (0 < i)%nat && bool_decide (br_author ancestor = author))
      then f_err (InvalidAncestorPosition author (br_author ancestor) (N.of_nat i))
      else if bool_decide (round ≤ br_round ancestor)
      then f_err (InvalidAncestorRound (br_round ancestor) round)
      else if bool_decide (br_round ancestor = GENESIS_ROUND)
              && negb (bool_decide (ancestor ∈ sv_genesis self))
      then f_err (InvalidGenesisAncestor ancestor)
      else
        was_seen ← f_run (vec_get seen (br_author ancestor));
        if (was_seen : bool) then f_err (DuplicatedAncestorsAuthority (br_author ancestor))
        else
          seen ← f_run (vec_set seen (br_author ancestor) true);
          previous ← f_run (expect (checked_sub round 1));
          parent_stakes ←
            (if bool_decide (br_round ancestor = previous)
             then stake ← f_run (Committee_stake cm (br_author ancestor));
                  f_ok (u64_add parent_stakes stake)
             else f_ok parent_stakes);
          verify_ancestors author round (S i) seen parent_stakes ancestors
  end.

(** [verify_block]. *)
Definition verify_block (sb : SignedBlock) : fallible unit :=
  let block := sb_inner sb in
  let ancestors := block_ancestors block in
  let count := N.of_nat (length ancestors) in
  let size := N.of_nat (Committee_size cm) in
  if negb (bool_decide (block_epoch block = c_epoch cm))
  then f_err (WrongEpoch (c_epoch cm) (block_epoch block))
  else if bool_decide (block_round block = 0) then f_err UnexpectedGenesisBlock
  else if negb (Committee_is_valid_index cm (block_author block))
  then f_err (InvalidAuthorityIndex (block_author block) max_index)
  else
    _ ← SignedBlock_verify_signature ctx sb;
    if bool_decide (size < count) then f_err (TooManyAncestors count size)
    else if bool_decide (ancestors = [])
    then f_err (InsufficientParentStakes 0 (c_quorum_threshold cm))
    else
      parent_stakes ←
        verify_ancestors (block_author block) (block_round block) 0
          (replicate (Committee_size cm) false) 0 ancestors;
      if negb (Committee_reached_quorum cm parent_stakes)
      then f_err (InsufficientParentStakes parent_stakes (c_quorum_threshold cm))
      else (Done (check_transactions (block_transactions_data block)) : fallible unit).

(** [verify_and_vote]. *)
Definition verify_and_vote (sb : SignedBlock) : fallible (list TransactionIndex) :=
  _ ← verify_block sb;
  let batch := block_transactions_data (sb_inner sb) in
  if pc_mysticeti_fastpath (ctx_protocol_config ctx) then
    match verify_and_vote_batch batch with
    | inl e => f_err (InvalidTransaction (ValidationError_to_string e))
    | inr rejected => f_ok rejected
    end
  else
    match verify_batch batch with
    | Some e => f_err (InvalidTransaction (ValidationError_to_string e))
    | None => f_ok []
    end.

(** ** What is accepted *)

(** The checks on the ancestors, one by one; [X] are the authors seen. *)
Fixpoint ancestors_checked (author : AuthorityIndex) (round : Round) (first : bool)
    (X : gset AuthorityIndex) (l : list BlockRef) : Prop :=
  match l with
  | [] => True
  | a :: l =>
      Committee_is_valid_index cm (br_author a) ∧ (first → br_author a = author) ∧
      br_round a < round ∧ (br_round a = GENESIS_ROUND → a ∈ sv_genesis self) ∧
      (br_author a ∉ X) ∧ ancestors_checked author round false ({[br_author a]} ∪ X) l
  end.

(** The authors of the ancestors of the previous round. *)
Definition parent_authors (round : Round) (l : list BlockRef) : gset AuthorityIndex :=
  list_to_set (br_author <$> filter (λ a, br_round a + 1 = round) l).

Context (Hok : committee_ok cm).

(** The position check, for the first and for later ancestors. *)
Lemma position_check (i : nat) (a author : AuthorityIndex) (X : gset AuthorityIndex) :
  ((0 < i)%nat → author ∈ X) →
  if (bool_decide (i = 0)%nat && negb (bool_decide (a = author)))
     || (bool_decide (0 < i)%nat && bool_decide (a = author))
  then ¬ ((bool_decide (i = 0)%nat → a = author) ∧ a ∉ X)
  else (bool_decide (i = 0)%nat → a = author) ∧ author ∈ {[a]} ∪ X.
Proof.
  clear. intros Hi. repeat case_bool_decide; simpl; try lia;
    first [by split; [auto|set_solver]|intros [Hf Hn]; subst; auto].
Qed.

Lemma seen_insert seen (X : gset AuthorityIndex) a : length seen = Committee_size cm →
  (a < Committee_size cm)%nat →
  (∀ x, (x < Committee_size cm)%nat → seen !! x = Some (bool_decide (x ∈ X))) →
  ∀ x, (x < Committee_size cm)%nat →
    <[a := true]> seen !! x = Some (bool_decide (x ∈ {[a]} ∪ X)).
Proof.
  clear. intros Hlen Ha Hseen x Hx. destruct (decide (x = a)) as [->|Hne].
  - rewrite list_lookup_insert_eq by lia. by rewrite bool_decide_eq_true_2 by set_solver.
  - rewrite list_lookup_insert_ne by done. rewrite Hseen by done. f_equal. apply bool_decide_ext. set_solver.
Qed.

Lemma parent_stake_step round (a : BlockRef) (P : gset AuthorityIndex) l :
  0 < round → Committee_is_valid_index cm (br_author a) → br_author a ∉ P →
  ∃ P', (if bool_decide (br_round a = round - 1)
         then stake ← f_run (Committee_stake cm (br_author a));
              f_ok (u64_add (set_stake cm P) stake)
         else f_ok (set_stake cm P)) = f_ok (set_stake cm P') ∧
    P' ⊆ {[br_author a]} ∪ P ∧ P' ∪ parent_authors round l = P ∪ parent_authors round (a :: l).
Proof using Hok.
  intros Hround Hv Hn. unfold parent_authors. rewrite filter_cons. case_bool_decide as Hr.
  - exists ({[br_author a]} ∪ P). rewrite Committee_stake_Done by done. simpl.
    rewrite set_stake_insert by done. rewrite decide_True by lia. split_and!; [|done|csimpl; set_solver].
    unfold f_ok. do 2 f_equal. rewrite N.add_comm. apply u64_add_small.
    pose proof (set_stake_le_total cm Hok ({[br_author a]} ∪ P)) as Hle.
    rewrite set_stake_insert in Hle by done. pose proof (ok_total_bound cm Hok). lia.
  - exists P. rewrite decide_False by lia. split_and!; [done|set_solver|done].
Qed.

Lemma verify_ancestors_spec author round l i X P seen :
  0 < round → length seen = Committee_size cm →
  (∀ a, (a < Committee_size cm)%nat → seen !! a = Some (bool_decide (a ∈ X))) →
  P ⊆ X → ((0 < i)%nat → author ∈ X) →
  ∃ res, verify_ancestors author round i seen (set_stake cm P) l = Done res ∧
    ∀ st, res = ROk st ↔
      ancestors_checked author round (bool_decide (i = 0%nat)) X l ∧
      st = set_stake cm (P ∪ parent_authors round l).
Proof using Hok.
  revert i X P seen. induction l as [|a l IH]; intros i X P seen Hround Hlen Hseen HPX Hauth; simpl.
  { eexists. split; [done|]. intros st. assert (P ∪ parent_authors round [] = P) as ->
      by (unfold parent_authors; set_solver). split; [intros [= <-]; done|by intros [_ ->]]. }
  destruct (Committee_is_valid_index cm (br_author a)) eqn:Hv; simpl;
    [|eexists; split; [done|]; split; [done|]; by intros [[[] _] _]].
  pose proof (position_check i (br_author a) author X Hauth) as Hpos. destruct (_ || _) in Hpos |- *.
  { eexists; split; [done|]; split; [done|]. intros [(_ & ? & _ & _ & ? & _) _]. by destruct Hpos. }
  destruct (bool_decide_reflect (round ≤ br_round a)) as [Hr|Hr];
    [eexists; split; [done|]; split; [done|]; intros [(_ & _ & ? & _) _]; lia|].
  destruct (bool_decide (br_round a = GENESIS_ROUND) && negb (bool_decide (a ∈ sv_genesis self))) eqn:Hg.
  { eexists; split; [done|]; split; [done|]. intros [(_ & _ & _ & Hgen & _) _]. exfalso.
    apply andb_true_iff in Hg as [H1 H2]. apply bool_decide_eq_true in H1.
    rewrite bool_decide_eq_true_2 in H2 by auto. done. }
  assert (Hgen : br_round a = GENESIS_ROUND → a ∈ sv_genesis self).
  { intros He. rewrite (bool_decide_eq_true_2 (br_round a = _)) in Hg by done. simpl in Hg.
    by apply negb_false_iff, bool_decide_eq_true in Hg. }
  assert (Hi : (br_author a < Committee_size cm)%nat).
  { unfold Committee_is_valid_index in Hv. by apply bool_decide_eq_true in Hv. }
  unfold vec_get, vec_set, checked_sub. rewrite Hseen by done. simpl.
  destruct (bool_decide_reflect (br_author a ∈ X)) as [Hin|Hin];
    [eexists; split; [done|]; split; [done|]; by intros [(_ & _ & _ & _ & ? & _) _]|].
  rewrite (decide_True (P := (br_author a < length seen)%nat)) by lia. simpl.
  rewrite (decide_True (P := 1 ≤ round)) by lia. simpl.
  destruct (parent_stake_step round a P l) as (P' & HP' & Hsub & HPeq); [done|by rewrite Hv|set_solver|].
  simpl in HP'. rewrite HP'. simpl.
  destruct (IH (S i) ({[br_author a]} ∪ X) P' (<[br_author a := true]> seen))
    as (res & Hres & Hiff); [done|by rewrite length_insert|by apply seen_insert|set_solver|by intros _; apply Hpos|].
  exists res. split; [done|]. intros st. rewrite Hiff, HPeq, (bool_decide_eq_false_2 (S i = 0%nat)) by lia.
  split; [intros [? ?]|intros [(_ & _ & _ & _ & _ & ?) ?]; done].
  split; [|done]. split_and!; try done; [apply Hpos|lia].
Qed.

Lemma ancestors_checked_iff author round l X first :
  ancestors_checked author round first X l ↔
  Forall (λ a, Committee_is_valid_index cm (br_author a)) l ∧
  (first → ∀ a, head l = Some a → br_author a = author) ∧
  Forall (λ a, br_round a < round) l ∧
  Forall (λ a, br_round a = GENESIS_ROUND → a ∈ sv_genesis self) l ∧
  NoDup (br_author <$> l) ∧ Forall (λ a, br_author a ∉ X) l.
Proof.
  clear Hok. revert X first. induction l as [|a l IH]; intros X first; csimpl.
  { split; [intros _; split_and!; try constructor; done|done]. }
  rewrite !Forall_cons, NoDup_cons, IH. split.
  - intros (Hv & Hf & Hr & Hg & Hn & Hvs & _ & Hrs & Hgs & Hnd & Hns). rewrite Forall_forall in Hns.
    split_and!; try done; [by intros Hfirst a' [= <-]; apply Hf| |].
    + intros (b & Heq & Hb)%list_elem_of_fmap. specialize (Hns b Hb). set_solver.
    + apply Forall_forall. intros b Hb. specialize (Hns b Hb). set_solver.
  - intros ((Hv & Hvs) & Hf & (Hr & Hrs) & (Hg & Hgs) & (Hn & Hnd) & (Hx & Hxs)).
    split_and!; try done; [intros ?; by apply Hf|].
    rewrite Forall_forall in Hxs |- *. intros b Hb [Heq%elem_of_singleton|HX]%elem_of_union.
    + apply Hn. rewrite <-Heq. by apply list_elem_of_fmap_2.
    + by apply (Hxs b Hb).
Qed.

(** What [verify_block] should accept. *)
Record acceptable (sb : SignedBlock) : Prop := {
  ac_epoch : block_epoch (sb_inner sb) = c_epoch cm;
  ac_round : block_round (sb_inner sb) ≠ 0;
  ac_author : Committee_is_valid_index cm (block_author (sb_inner sb));
  ac_signature : SignedBlock_verify_signature ctx sb = f_ok tt;
  ac_own : ∃ a, head (block_ancestors (sb_inner sb)) = Some a ∧
    br_author a = block_author (sb_inner sb);
  ac_valid : Forall (λ a, Committee_is_valid_index cm (br_author a)) (block_ancestors (sb_inner sb));
  ac_rounds : Forall (λ a, br_round a < block_round (sb_inner sb)) (block_ancestors (sb_inner sb));
  ac_genesis : Forall (λ a, br_round a = GENESIS_ROUND → a ∈ sv_genesis self)
    (block_ancestors (sb_inner sb));
  ac_distinct : NoDup (br_author <$> block_ancestors (sb_inner sb));
  ac_parents : c_quorum_threshold cm ≤
    set_stake cm (parent_authors (block_round (sb_inner sb)) (block_ancestors (sb_inner sb)));
  ac_transactions : check_transactions (block_transactions_data (sb_inner sb)) = ROk tt;
}.

Lemma distinct_valid_length (l : list BlockRef) :
  Forall (λ a, Committee_is_valid_index cm (br_author a)) l → NoDup (br_author <$> l) →
  (length l ≤ Committee_size cm)%nat.
Proof.
  clear. intros Hv Hnd. rewrite <-(length_fmap br_author), <-(length_seq (Committee_size cm) 0).
  apply submseteq_length, NoDup_submseteq; [done|]. intros x (a & -> & Ha)%list_elem_of_fmap.
  rewrite Forall_forall in Hv. specialize (Hv a Ha). unfold Committee_is_valid_index in Hv.
  rewrite bool_decide_spec in Hv. apply elem_of_seq. lia.
Qed.

Lemma verify_signature_total sb : Committee_is_valid_index cm (block_author (sb_inner sb)) →
  ∃ res, SignedBlock_verify_signature ctx sb = Done res.
Proof.
  clear. intros Hv. unfold SignedBlock_verify_signature, ensure.
  destruct (Committee_is_valid_index cm (block_author (sb_inner sb))) eqn:Hc; [|done]. simpl.
  unfold Committee_is_valid_index, Committee_size in Hc. apply bool_decide_eq_true in Hc.
  apply lookup_lt_is_Some in Hc as [a Ha]. unfold Committee_authority, vec_get. rewrite Ha. simpl. eauto.
Qed.

Lemma verify_block_spec sb :
  ∃ res, verify_block sb = Done res ∧ (res = ROk tt ↔ acceptable sb).
Proof using Hok.
  unfold verify_block.
  destruct (bool_decide_reflect (block_epoch (sb_inner sb) = c_epoch cm)) as [He|He]; simpl;
    [|eexists; split; [done|]; split; [done|]; by intros []].
  destruct (bool_decide_reflect (block_round (sb_inner sb) = 0)) as [Hr|Hr];
    [eexists; split; [done|]; split; [done|]; by intros []|].
  destruct (Committee_is_valid_index cm (block_author (sb_inner sb))) eqn:Hv; simpl;
    [|eexists; split; [done|]; split; [done|]; intros []; by rewrite Hv in *].
  destruct (verify_signature_total sb) as [[[]|e] Hsig]; [by rewrite Hv|rewrite Hsig; simpl..];
    [|eexists; split; [done|]; split; [done|]; intros Hac; by rewrite (ac_signature _ Hac) in Hsig].
  destruct (bool_decide_reflect (N.of_nat (Committee_size cm) < N.of_nat (length (block_ancestors (sb_inner sb)))))
    as [Hlen|Hlen].
  { eexists; split; [done|]; split; [done|]. intros Hac.
    pose proof (distinct_valid_length _ (ac_valid _ Hac) (ac_distinct _ Hac)). lia. }
  destruct (bool_decide_reflect (block_ancestors (sb_inner sb) = [])) as [Hn|Hn].
  { eexists; split; [done|]; split; [done|]. intros Hac. destruct (ac_own _ Hac) as (a & Ha & _).
    by rewrite Hn in Ha. }
  destruct (verify_ancestors_spec (block_author (sb_inner sb)) (block_round (sb_inner sb))
    (block_ancestors (sb_inner sb)) 0 ∅ ∅ (replicate (Committee_size cm) false)) as (res & Hres & Hiff);
    [lia|by rewrite length_replicate| |done|lia|].
  { intros a Ha. rewrite lookup_replicate_2 by done. by rewrite bool_decide_eq_false_2 by set_solver. }
  rewrite set_stake_empty in Hres. rewrite Hres. rewrite bool_decide_eq_true_2 in Hiff by done.
  setoid_rewrite ancestors_checked_iff in Hiff. rewrite union_empty_l_L in Hiff.
  destruct res as [st|e]; simpl.
  2:{ eexists; split; [done|]; split; [done|]. intros Hac.
      assert (RErr e = ROk (set_stake cm (parent_authors (block_round (sb_inner sb))
                (block_ancestors (sb_inner sb))))) as Hbad; [|done].
      apply Hiff. split; [|done]. destruct Hac as [???? (a & Ha & Hauth) ??????].
      split_and!; try done; [intros _ a' Ha'; congruence|]. apply Forall_forall. set_solver. }
  destruct (Hiff st) as [Hfwd _]. destruct (Hfwd eq_refl) as ((Hva & Hfi & Hro & Hge & Hnd & _) & ->).
  unfold Committee_reached_quorum.
  destruct (bool_decide_reflect (c_quorum_threshold cm ≤ set_stake cm (parent_authors
    (block_round (sb_inner sb)) (block_ancestors (sb_inner sb))))) as [Hq|Hq]; simpl;
    [|eexists; split; [done|]; split; [done|]; by intros []].
  eexists. split; [done|]. split; [|by intros []]. intros Htx.
  destruct (block_ancestors (sb_inner sb)) as [|a l] eqn:Hanc; [done|].
  split; rewrite ?Hanc; try done; [by rewrite Hv|]. exists a. split; [done|]. by apply Hfi.
Qed.

Lemma verify_and_vote_spec sb :
  ∃ res, verify_and_vote sb = Done res ∧
    ∀ rejected, res = ROk rejected ↔ acceptable sb ∧
      let batch := block_transactions_data (sb_inner sb) in
      if pc_mysticeti_fastpath (ctx_protocol_config ctx)
      then verify_and_vote_batch batch = inr rejected
      else verify_batch batch = None ∧ rejected = [].
Proof using Hok.
  destruct (verify_block_spec sb) as (res & Hres & Hiff). unfold verify_and_vote. rewrite Hres.
  destruct res as [[]|e]; simpl.
  2:{ eexists. split; [done|]. intros rejected. split; [done|]. intros [Hac _].
      by apply Hiff in Hac. }
  assert (Hac : acceptable sb) by (by apply Hiff).
  destruct (pc_mysticeti_fastpath (ctx_protocol_config ctx)).
  - destruct (verify_and_vote_batch _) as [err|rej]; (eexists; split; [done|]); intros rejected;
      naive_solver.
  - destruct (verify_batch _) as [err|]; (eexists; split; [done|]); intros rejected;
      naive_solver.
Qed.

(** C23: verification never panics and is exact: a block passes iff it is of
    the current epoch, not a genesis block, signed by a valid author, includes
    a previous block of its own first, valid ancestors of distinct authors
    and lower rounds with only genuine genesis blocks, a quorum of the
    previous round, transactions within the limits, and the transaction
    verifier accepts; the rejected transactions are those it votes to
    reject, none without the fast path. *)
Theorem verify_and_vote_exact sb :
  ∃ res, verify_and_vote sb = Done res ∧
    ∀ rejected, res = ROk rejected ↔ acceptable sb ∧
      let batch := block_transactions_data (sb_inner sb) in
      if pc_mysticeti_fastpath (ctx_protocol_config ctx)
      then verify_and_vote_batch batch = inr rejected
      else verify_batch batch = None ∧ rejected = [].
Proof using Hok. apply verify_and_vote_spec. Qed.

Lemma verified_wf `{BlockCodec} sb serialized :
  verify_block sb = f_ok tt → block_round (sb_inner sb) < u32_max →
  default_hash serialized ≤ BlockDigest_MAX →
  block_wf cm (VerifiedBlock_new_verified sb serialized).
Proof using Hok.
  intros Hrun Hround Hdig. destruct (verify_block_spec sb) as (res & Hres & Hiff).
  rewrite Hrun in Hres. injection Hres as <-.
  destruct (proj1 Hiff eq_refl) as [_ Hr Ha _ _ Hv Hrs _ Hnd Hq _].
  rewrite Forall_forall in Hrs. by split.
Qed.


(** A batch over the total size limit is reported with the number of its
    transactions in place of its size in bytes. *)
Theorem TooManyTransactionBytes_reports_count batch :
  let pc := ctx_protocol_config ctx in
  Forall (λ t, N.of_nat (length t) ≤ pc_max_transaction_size_bytes pc) batch →
  N.of_nat (length batch) ≤ pc_max_num_transactions_in_block pc →
  sumN ((λ t, N.of_nat (length t)) <$> batch) ≤ u64_max →
  0 < pc_max_transactions_in_block_bytes pc <
    sumN ((λ t, N.of_nat (length t)) <$> batch) →
  check_transactions batch =
    RErr (TooManyTransactionBytes (N.of_nat (length batch)) (pc_max_transactions_in_block_bytes pc)).
Proof.
  clear. intros pc Hsizes Hcount Hmax Htotal. unfold check_transactions. fold pc.
  assert (Hs : check_sizes (pc_max_transaction_size_bytes pc) batch = ROk tt).
  { clear -Hsizes. induction Hsizes as [|t batch Ht _ IH]; simpl; [done|].
    by rewrite bool_decide_eq_false_2 by lia. }
  rewrite Hs. simpl. rewrite bool_decide_eq_false_2 by lia. simpl.
  rewrite u64_sum_small by done. rewrite !bool_decide_eq_true_2 by lia. done.
Qed.
End verifier.

(** ** A concrete verifier *)

#[global] Instance test_crypto : Crypto := {|
  bcs_block_to_bytes := λ _, inr [];
  inner_digest := id;
  bcs_intent_to_bytes := inr;
  signature_from_bytes := λ bs, match bs with [] => inr [] | _ => inl "malformed"%string end;
  public_key_verify := λ _ _ _, None;
|}.
#[global] Instance test_transaction_verifier : TransactionVerifier := {|
  verify_batch := λ _, None;
  verify_and_vote_batch := λ _, inr [];
|}.

Definition verifier_ctx : Context := test_context 4 2 5.
Definition verifier_test : SignedBlockVerifier :=
  match SignedBlockVerifier_new verifier_ctx with Done s => s | _ => mk_verifier ∅ end.
(** A block of authority 1 in round 1, its own genesis block first. *)
Definition verifier_block (transactions : list Transaction) : SignedBlock :=
  mk_signed (V2 (mk_block_v2 0 1 1%nat 0 [test_ref 0 1; test_ref 0 0; test_ref 0 2]
    transactions [] [] [])) [].

Lemma verify_and_vote_exact_witness :
  ∃ res, verify_and_vote verifier_ctx verifier_test (verifier_block []) = Done res ∧ res = ROk [] ∧
    acceptable verifier_ctx verifier_test (verifier_block []).
Proof.
  destruct (verify_and_vote_exact verifier_ctx verifier_test test_committee_ok (verifier_block []))
    as (res & Hrun & Hiff).
  exists res. split; [exact Hrun|]. assert (res = ROk []) as Hres by (vm_compute in Hrun; congruence).
  split; [exact Hres|]. by apply (Hiff []).
Defined.


(** Three transactions of 1000 bytes with a limit of 2000 bytes. *)
Definition small_limit_ctx : Context :=
  mk_context 0 0%nat (test_committee 4) 5 (mk_protocol_config 2 (Some 1) 33 true 1024 16 2000 true true).
Lemma TooManyTransactionBytes_reports_count_witness :
  check_transactions small_limit_ctx (replicate 3 (replicate 1000 Byte.x00)) =
    RErr (TooManyTransactionBytes 3 2000).
Proof.
  apply (TooManyTransactionBytes_reports_count small_limit_ctx (replicate 3 (replicate 1000 Byte.x00))).
  - apply Forall_replicate. rewrite length_replicate. by vm_compute.
  - by vm_compute.
  - by vm_compute.
  - by vm_compute.
Defined.
