(* ===== verification/TransactionConsumer.v ===== *)
(** * The transaction queue (consensus/core/src/transaction.rs)

    The client checks submitted bundles of transactions and queues them; the
    consumer pulls bundles for the next block up to the limits of a block,
    acknowledges their inclusion, and later tells the submitters whether the
    block was sequenced or garbage collected.

    A one-shot channel is named by the submission it answers to. *)
From S2P Require Import Prelude Committee StakeAggregator Block ThresholdClock Commit BlockVerifier.
From Stdlib Require Import Strings.Byte.

Definition MAX_PENDING_TRANSACTIONS : nat := 2000.

Abbreviation Submission := N (only parsing).

(** [struct TransactionsGuard]. *)
Record TransactionsGuard := mk_guard {
  tg_transactions : list Transaction;
  tg_included_in_block_ack : Submission;
}.

Inductive BlockStatus :=
| Sequenced (block_ref : BlockRef)
| GarbageCollected (block_ref : BlockRef).

Inductive LimitReached := MaxNumOfTransactions | MaxBytes | AllTransactionsIncluded.

(** [struct TransactionConsumer]; [tx_receiver] is the content of the channel. *)
Record TransactionConsumer := mk_consumer {
  tn_tx_receiver : list TransactionsGuard;
  tn_max_transactions_in_block_bytes : N;
  tn_max_num_transactions_in_block : N;
  tn_pending_transactions : option TransactionsGuard;
  tn_block_status_subscribers : gmap BlockRef (list Submission);
}.

(** [TransactionConsumer::new]. *)
Definition TransactionConsumer_new (tx_receiver : list TransactionsGuard) (ctx : Context) : TransactionConsumer :=
  mk_consumer tx_receiver (pc_max_transactions_in_block_bytes (ctx_protocol_config ctx))
    (pc_max_num_transactions_in_block (ctx_protocol_config ctx)) None ∅.

(** ** Pulling transactions for a block *)

(** The variables of [next] that the closure [handle_txs] updates. *)
Record pulled := mk_pulled {
  pl_transactions : list Transaction;
  pl_acks : list (Submission * list TransactionIndex);
  pl_total_bytes : N;
  pl_limit_reached : LimitReached;
}.

Definition guard_bytes (t : TransactionsGuard) : N :=
  u64_sum ((λ t, N.of_nat (length (tx_data t))) <$> tg_transactions t).

(** The range [start..end] of 16-bit indices. *)
Definition u16_range (start stop : N) : list TransactionIndex :=
  (λ i, start + N.of_nat i) <$> seq 0 (N.to_nat (stop - start)).

(** The closure [handle_txs]. *)
Definition handle_txs (tn : TransactionConsumer) (p : pulled) (t : TransactionsGuard)
    : pulled * option TransactionsGuard :=
  let transactions_bytes := guard_bytes t in
  let transactions_num := N.of_nat (length (tg_transactions t)) in
  if bool_decide (tn_max_transactions_in_block_bytes tn < u64_add (pl_total_bytes p) transactions_bytes)
  then (mk_pulled (pl_transactions p) (pl_acks p) (pl_total_bytes p) MaxBytes, Some t)
  else if bool_decide (tn_max_num_transactions_in_block tn <
                         u64_add (N.of_nat (length (pl_transactions p))) transactions_num)
  then (mk_pulled (pl_transactions p) (pl_acks p) (pl_total_bytes p) MaxNumOfTransactions, Some t)
  else
    let start_idx := N.of_nat (length (pl_transactions p)) mod 65536 in
    let indices := u16_range start_idx ((start_idx + transactions_num mod 65536) mod 65536) in
    (mk_pulled (pl_transactions p ++ tg_transactions t)
       (pl_acks p ++ [(tg_included_in_block_ack t, indices)])
       (u64_add (pl_total_bytes p) transactions_bytes) (pl_limit_reached p), None).

(** The loop over the channel, while no bundle is pending. *)
Fixpoint pull_loop (tn : TransactionConsumer) (p : pulled) (queue : list TransactionsGuard)
    : pulled * option TransactionsGuard * list TransactionsGuard :=
  match queue with
  | [] => (p, None, [])
  | t :: queue =>
      match handle_txs tn p t with
      | (p, None) => pull_loop tn p queue
      | (p, Some t) => (p, Some t, queue)
      end
  end.

(** [next]: the consumer afterwards, the transactions, the acknowledgements of
    the returned closure, and the limit. A pending bundle that does not fit is
    dropped. *)
Definition TransactionConsumer_next (tn : TransactionConsumer)
    : TransactionConsumer * list Transaction * list (Submission * list TransactionIndex) * LimitReached :=
  let p := mk_pulled [] [] 0 AllTransactionsIncluded in
  let p := match tn_pending_transactions tn with
           | Some t => (handle_txs tn p t).1
           | None => p
           end in
  let '(p, pending, queue) := pull_loop tn p (tn_tx_receiver tn) in
  (mk_consumer queue (tn_max_transactions_in_block_bytes tn) (tn_max_num_transactions_in_block tn) pending
     (tn_block_status_subscribers tn),
   pl_transactions p, pl_acks p, pl_limit_reached p).

(** The closure [next] returns: subscribes the submissions to the status of the
    block and acknowledges them. *)
Definition ack_transactions (tn : TransactionConsumer) (acks : list (Submission * list TransactionIndex))
    (block_ref : BlockRef) : TransactionConsumer * list (Submission * BlockRef * list TransactionIndex) :=
  let subscribers :=
    foldl (λ m '(ack, _), <[block_ref := default [] (m !! block_ref) ++ [ack]]> m)
      (tn_block_status_subscribers tn) acks in
  (mk_consumer (tn_tx_receiver tn) (tn_max_transactions_in_block_bytes tn)
     (tn_max_num_transactions_in_block tn) (tn_pending_transactions tn) subscribers,
   (λ '(ack, tx_indices), (ack, block_ref, tx_indices)) <$> acks).

(** ** Block status *)

(** The loop of [notify_own_blocks_status] over the committed blocks. *)
Fixpoint notify_committed (subscribers : gmap BlockRef (list Submission)) (committed_blocks : list BlockRef)
    : gmap BlockRef (list Submission) * list (Submission * BlockStatus) :=
  match committed_blocks with
  | [] => (subscribers, [])
  | block_ref :: committed_blocks =>
      match subscribers !! block_ref with
      | Some waiting =>
          let '(subscribers, sent) := notify_committed (delete block_ref subscribers) committed_blocks in
          (subscribers, ((λ s, (s, Sequenced block_ref)) <$> waiting) ++ sent)
      | None => notify_committed subscribers committed_blocks
      end
  end.

(** The loop that pops the entries up to the GC round, in their order; the
    entry popped above the GC round is put back. *)
Fixpoint notify_collected (gc_round : Round) (subscribers : gmap BlockRef (list Submission))
    (entries : list (BlockRef * list Submission))
    : gmap BlockRef (list Submission) * list (Submission * BlockStatus) :=
  match entries with
  | [] => (subscribers, [])
  | (block_ref, waiting) :: entries =>
      if bool_decide (br_round block_ref ≤ gc_round) then
        let '(subscribers, sent) := notify_collected gc_round (delete block_ref subscribers) entries in
        (subscribers, ((λ s, (s, GarbageCollected block_ref)) <$> waiting) ++ sent)
      else (<[block_ref := waiting]> (delete block_ref subscribers), [])
  end.

(** [notify_own_blocks_status]. *)
Definition notify_own_blocks_status (tn : TransactionConsumer) (committed_blocks : list BlockRef)
    (gc_round : Round) : TransactionConsumer * list (Submission * BlockStatus) :=
  let '(subscribers, sequenced) := notify_committed (tn_block_status_subscribers tn) committed_blocks in
  let '(subscribers, collected) := notify_collected gc_round subscribers (map_list subscribers) in
  (mk_consumer (tn_tx_receiver tn) (tn_max_transactions_in_block_bytes tn)
     (tn_max_num_transactions_in_block tn) (tn_pending_transactions tn) subscribers,
   sequenced ++ collected).

(** ** The client *)

(** [struct TransactionClient], without the channel. *)
Record TransactionClient := mk_client {
  tl_max_transaction_size : N;
  tl_max_transactions_in_block_bytes : N;
  tl_max_transactions_in_block_count : N;
}.

Inductive ClientError :=
| ConsensusShuttingDown (e : string)
| OversizedTransaction (size limit : N)
| OversizedTransactionBundleBytes (size limit : N)
| OversizedTransactionBundleCount (count limit : N).

(** [TransactionClient::new]. *)
Definition TransactionClient_new (ctx : Context) : TransactionClient :=
  mk_client (pc_max_transaction_size_bytes (ctx_protocol_config ctx))
    (pc_max_transactions_in_block_bytes (ctx_protocol_config ctx))
    (pc_max_num_transactions_in_block (ctx_protocol_config ctx)).

(** The loop of [submit_no_wait] over the transactions. *)
Fixpoint check_bundle (client : TransactionClient) (bundle_size : N) (transactions : list bytes)
    : ClientError + unit :=
  match transactions with
  | [] => inr tt
  | transaction :: transactions =>
      let size := N.of_nat (length transaction) in
      if bool_decide (tl_max_transaction_size client < size)
      then inl (OversizedTransaction size (tl_max_transaction_size client))
      else
        let bundle_size := u64_add bundle_size size in
        if bool_decide (tl_max_transactions_in_block_bytes client < bundle_size)
        then inl (OversizedTransactionBundleBytes bundle_size (tl_max_transactions_in_block_bytes client))
        else check_bundle client bundle_size transactions
  end.

(** [submit_no_wait]: the guard sent to the channel. *)
Definition submit_no_wait (client : TransactionClient) (included_in_block_ack : Submission)
    (transactions : list bytes) : ClientError + TransactionsGuard :=
  let count := N.of_nat (length transactions) in
  if bool_decide (tl_max_transactions_in_block_count client < count)
  then inl (OversizedTransactionBundleCount count (tl_max_transactions_in_block_count client))
  else
    match check_bundle client 0 transactions with
    | inl e => inl e
    | inr _ => inr (mk_guard (mk_transaction <$> transactions) included_in_block_ack)
    end.

(** ** Correctness *)

(** The bundles that wait, in the order of their submission. *)
Definition waiting (tn : TransactionConsumer) : list TransactionsGuard :=
  option_list (tn_pending_transactions tn) ++ tn_tx_receiver tn.

Definition tx_size (t : Transaction) : N := N.of_nat (length (tx_data t)).
Definition bundle_bytes (t : TransactionsGuard) : N := sumN (tx_size <$> tg_transactions t).
Definition bundle_count (t : TransactionsGuard) : N := N.of_nat (length (tg_transactions t)).

(** The indices of each bundle in a block that starts with [start] transactions. *)
Fixpoint acks_from (start : nat) (taken : list TransactionsGuard) : list (Submission * list TransactionIndex) :=
  match taken with
  | [] => []
  | t :: taken =>
      (tg_included_in_block_ack t, (λ i, N.of_nat (start + i)) <$> seq 0 (length (tg_transactions t)))
        :: acks_from (start + length (tg_transactions t)) taken
  end.

Section consumer.
Context (max_bytes max_num : N) (Hbytes : 2 * max_bytes ≤ u64_max) (Hnum : max_num ≤ 65535).
Implicit Types (tn : TransactionConsumer) (p : pulled) (t : TransactionsGuard) (taken rest : list TransactionsGuard).

Definition limits tn : Prop :=
  tn_max_transactions_in_block_bytes tn = max_bytes ∧ tn_max_num_transactions_in_block tn = max_num.
Definition fits t : Prop := bundle_bytes t ≤ max_bytes ∧ bundle_count t ≤ max_num.
Definition total_bytes taken : N := sumN (bundle_bytes <$> taken).
Definition total_count taken : N := sumN (bundle_count <$> taken).
Definition overflows taken t : Prop :=
  max_bytes < total_bytes taken + bundle_bytes t ∨ max_num < total_count taken + bundle_count t.

Record pulled_ok p taken : Prop := {
  po_transactions : pl_transactions p = taken ≫= tg_transactions;
  po_acks : pl_acks p = acks_from 0 taken;
  po_total : pl_total_bytes p = total_bytes taken;
  po_bytes : total_bytes taken ≤ max_bytes;
  po_count : total_count taken ≤ max_num;
}.

Lemma total_bytes_snoc taken t : total_bytes (taken ++ [t]) = total_bytes taken + bundle_bytes t.
Proof. clear. unfold total_bytes. rewrite fmap_app, sumN_app. cbn. lia. Qed.
Lemma total_count_snoc taken t : total_count (taken ++ [t]) = total_count taken + bundle_count t.
Proof. clear. unfold total_count. rewrite fmap_app, sumN_app. cbn. lia. Qed.
Lemma length_taken taken : N.of_nat (length (taken ≫= tg_transactions)) = total_count taken.
Proof.
  clear. unfold total_count. induction taken as [|t taken IH]; [done|]. csimpl. rewrite length_app.
  unfold bundle_count at 1. lia.
Qed.
Lemma guard_bytes_fits t : fits t → guard_bytes t = bundle_bytes t.
Proof using Hbytes. clear Hnum. intros [Hb _]. unfold guard_bytes. apply u64_sum_small. unfold bundle_bytes, tx_size in Hb. lia. Qed.

Lemma acks_from_app start taken taken' :
  acks_from start (taken ++ taken') = acks_from start taken ++ acks_from (start + length (taken ≫= tg_transactions)) taken'.
Proof.
  clear. revert start. induction taken as [|t taken IH]; intros start; csimpl; [by rewrite Nat.add_0_r|].
  rewrite IH, length_app. by rewrite Nat.add_assoc.
Qed.

Lemma u16_range_small start n : (N.of_nat start + N.of_nat n ≤ 65535) →
  u16_range (N.of_nat start mod 65536) ((N.of_nat start mod 65536 + N.of_nat n mod 65536) mod 65536) =
  (λ i, N.of_nat (start + i)) <$> seq 0 n.
Proof.
  clear. intros Hle. unfold u16_range. rewrite (N.mod_small (N.of_nat n)), (N.mod_small (N.of_nat start)) by lia.
  rewrite N.mod_small by lia.
  replace (N.to_nat (N.of_nat start + N.of_nat n - N.of_nat start)) with n by lia.
  apply list_fmap_ext. intros i x _. lia.
Qed.

(** A bundle that fits is taken; otherwise it stays pending. *)
Lemma handle_txs_spec tn p taken t : limits tn → pulled_ok p taken → fits t →
  (∃ p', handle_txs tn p t = (p', None) ∧ pulled_ok p' (taken ++ [t]) ∧ pl_limit_reached p' = pl_limit_reached p) ∨
  (∃ p', handle_txs tn p t = (p', Some t) ∧ pulled_ok p' taken ∧ overflows taken t ∧
     pl_limit_reached p' ≠ AllTransactionsIncluded).
Proof using Hbytes Hnum.
  intros [Hmb Hmn] [Htx Hacks Htot Hb Hc] Hfit. pose proof Hfit as [Hfb Hfc]. unfold handle_txs.
  rewrite (guard_bytes_fits t Hfit), Hmb, Hmn, Htot, Htx. fold (bundle_count t). rewrite length_taken.
  unfold u64_add. rewrite (N.mod_small (total_bytes taken + bundle_bytes t)) by (unfold u64_max in *; lia).
  rewrite (N.mod_small (total_count taken + bundle_count t)) by (unfold u64_max in *; lia).
  case_bool_decide as Hob; [right; eexists; split; [done|]; split; [by split|split; [by left|done]]|].
  case_bool_decide as Hoc; [right; eexists; split; [done|]; split; [by split|split; [by right|done]]|].
  left. eexists. split; [done|]. split; [|done]. split; cbn.
  - rewrite bind_app. cbn. by rewrite app_nil_r.
  - rewrite acks_from_app, Hacks. cbn. do 3 f_equal. rewrite <-length_taken. unfold bundle_count.
    apply u16_range_small. rewrite length_taken. unfold bundle_count in *. lia.
  - by rewrite total_bytes_snoc.
  - rewrite total_bytes_snoc. lia.
  - rewrite total_count_snoc. lia.
Qed.

Lemma pull_loop_spec tn p taken queue : limits tn → pulled_ok p taken → Forall fits queue →
  pl_limit_reached p = AllTransactionsIncluded →
  ∃ p' new pending rest, pull_loop tn p queue = (p', pending, rest) ∧
    queue = new ++ option_list pending ++ rest ∧ pulled_ok p' (taken ++ new) ∧
    match pending with
    | Some t => overflows (taken ++ new) t ∧ pl_limit_reached p' ≠ AllTransactionsIncluded
    | None => rest = [] ∧ pl_limit_reached p' = AllTransactionsIncluded
    end.
Proof using Hbytes Hnum.
  intros Hl Hp Hq. revert p taken Hp. induction Hq as [|t queue Ht Hq IH]; intros p taken Hp Hlim.
  - exists p, [], None, []. split; [done|]. split; [done|]. by rewrite app_nil_r.
  - cbn. destruct (handle_txs_spec tn p taken t Hl Hp Ht) as [(p' & -> & Hp' & Hlim')|(p' & -> & Hp' & Hover & Hlim')].
    + destruct (IH p' (taken ++ [t]) Hp') as (p2 & new & pending & rest & -> & -> & Hp2 & Hend); [congruence|].
      rewrite <-app_assoc in Hp2, Hend. by exists p2, (t :: new), pending, rest.
    + exists p', [], (Some t), queue. split; [done|]. split; [done|]. rewrite app_nil_r. done.
Qed.

(** [next] takes a longest prefix of the waiting bundles that fits. *)
Lemma next_spec tn : limits tn → Forall fits (waiting tn) →
  ∃ tn' taken acks limit, TransactionConsumer_next tn = (tn', taken ≫= tg_transactions, acks, limit) ∧
    limits tn' ∧ waiting tn = taken ++ waiting tn' ∧ acks = acks_from 0 taken ∧
    total_bytes taken ≤ max_bytes ∧ total_count taken ≤ max_num ∧
    tn_block_status_subscribers tn' = tn_block_status_subscribers tn ∧
    match waiting tn' with
    | t :: _ => overflows taken t ∧ limit ≠ AllTransactionsIncluded
    | [] => limit = AllTransactionsIncluded
    end.
Proof using Hbytes Hnum.
  intros Hl Hfit. unfold TransactionConsumer_next. set (p0 := mk_pulled [] [] 0 AllTransactionsIncluded).
  assert (H0 : pulled_ok p0 []) by (split; try done; cbn; lia).
  set (p1 := match tn_pending_transactions tn with Some t => (handle_txs tn p0 t).1 | None => p0 end).
  assert (pulled_ok p1 (option_list (tn_pending_transactions tn)) ∧ pl_limit_reached p1 = AllTransactionsIncluded ∧
          Forall fits (tn_tx_receiver tn)) as (H1 & Hlim1 & Hq).
  { unfold waiting in Hfit. apply Forall_app in Hfit as [Hpend Hq]. subst p1.
    destruct (tn_pending_transactions tn) as [t|]; [|done]. inversion_clear Hpend as [|x l Ht _].
    destruct (handle_txs_spec tn p0 [] t Hl H0 Ht) as [(p' & -> & Hp' & Hlim')|(p' & -> & _ & Hover & _)]; [done|].
    exfalso. destruct Ht as [??], Hover as [Hover|Hover]; cbn in Hover; lia. }
  destruct (pull_loop_spec tn p1 _ (tn_tx_receiver tn) Hl H1 Hq Hlim1) as (p' & new & pending & rest & -> & Heq & Hp' & Hend).
  destruct Hp' as [Htx Hacks _ Hb Hc]. eexists _, (option_list (tn_pending_transactions tn) ++ new), _, _.
  rewrite Htx. split; [done|]. split; [done|]. split; [unfold waiting; cbn; by rewrite Heq, <-app_assoc|].
  split; [done|]. split; [done|]. split; [done|]. split; [done|]. unfold waiting. cbn.
  destruct pending as [t|]; cbn; [done|]. destruct Hend as [-> ->]. done.
Qed.
End consumer.

(** *** The client *)

Section client.
Context (client : TransactionClient).
Abbreviation max_bytes := (tl_max_transactions_in_block_bytes client).
Abbreviation max_size := (tl_max_transaction_size client).
Context (Hmax : max_bytes + max_size ≤ u64_max).

Lemma check_bundle_spec bundle_size transactions : bundle_size ≤ max_bytes →
  check_bundle client bundle_size transactions = inr tt ↔
  Forall (λ t, N.of_nat (length t) ≤ max_size) transactions ∧
  bundle_size + sumN ((λ t, N.of_nat (length t)) <$> transactions) ≤ max_bytes.
Proof using Hmax.
  revert bundle_size. induction transactions as [|t transactions IH]; intros n Hn; csimpl.
  - split; [|done]. intros _. split; [constructor|]. cbn. lia.
  - rewrite Forall_cons. case_bool_decide as Hs; [split; [done|intros [[? _] _]; lia]|].
    unfold u64_add. rewrite N.mod_small by (unfold u64_max in *; lia).
    case_bool_decide as Hb; [split; [done|cbn; intros [_ ?]; lia]|]. rewrite IH by lia. cbn. split.
    + intros [? ?]. split; [split; [lia|done]|lia].
    + intros [[_ ?] ?]. split; [done|lia].
Qed.

(** Exactly the bundles that fit into an empty block are accepted. *)
Lemma submit_no_wait_spec ack transactions :
  submit_no_wait client ack transactions = inr (mk_guard (mk_transaction <$> transactions) ack) ↔
  N.of_nat (length transactions) ≤ tl_max_transactions_in_block_count client ∧
  Forall (λ t, N.of_nat (length t) ≤ max_size) transactions ∧
  sumN ((λ t, N.of_nat (length t)) <$> transactions) ≤ max_bytes.
Proof using Hmax.
  unfold submit_no_wait. case_bool_decide as Hc; [split; [done|intros [? _]; lia]|].
  pose proof (check_bundle_spec 0 transactions ltac:(lia)) as Hspec. rewrite N.add_0_l in Hspec.
  destruct (check_bundle client 0 transactions) as [e|[]] eqn:Hcb.
  - split; [done|]. intros (_ & Hs). by apply Hspec in Hs.
  - split; [|done]. intros _. split; [lia|]. by apply Hspec.
Qed.
End client.

(** *** Notifications *)

Definition subscriptions (m : gmap BlockRef (list Submission)) : list (Submission * BlockRef) :=
  map_to_list m ≫= λ '(block_ref, l), (λ s, (s, block_ref)) <$> l.

Definition status_block (st : BlockStatus) : BlockRef :=
  match st with Sequenced b | GarbageCollected b => b end.
Definition told_block (p : Submission * BlockStatus) : Submission * BlockRef := (p.1, status_block p.2).

Lemma subscriptions_delete m block_ref l : m !! block_ref = Some l →
  subscriptions m ≡ₚ ((λ s, (s, block_ref)) <$> l) ++ subscriptions (delete block_ref m).
Proof.
  intros Hm. unfold subscriptions.
  by rewrite <-(bind_cons (λ '(block_ref, l), (λ s, (s, block_ref)) <$> l) (block_ref, l)), map_to_list_delete.
Qed.

Lemma elem_of_subscriptions m s block_ref :
  (s, block_ref) ∈ subscriptions m ↔ ∃ l, m !! block_ref = Some l ∧ s ∈ l.
Proof.
  unfold subscriptions. rewrite list_elem_of_bind. split.
  - intros ([b l] & Hin & Hl%elem_of_map_to_list). apply list_elem_of_fmap in Hin as (x & [= -> ->] & Hx). eauto.
  - intros (l & Hl & Hs). exists (block_ref, l). split; [|by apply elem_of_map_to_list]. apply list_elem_of_fmap. eauto.
Qed.

Lemma told_fmap (f : BlockRef → BlockStatus) block_ref (l : list Submission) : status_block (f block_ref) = block_ref →
  told_block <$> ((λ s, (s, f block_ref)) <$> l) = (λ s, (s, block_ref)) <$> l.
Proof. intros Hf. rewrite <-list_fmap_compose. apply list_fmap_ext. intros i x _. cbn. unfold told_block. cbn. by rewrite Hf. Qed.

Lemma notify_committed_spec m committed :
  ∃ m' sent, notify_committed m committed = (m', sent) ∧
    m' = filter (λ p, p.1 ∉ committed) m ∧
    subscriptions m ≡ₚ (told_block <$> sent) ++ subscriptions m' ∧
    Forall (λ p, ∃ b, p.2 = Sequenced b ∧ b ∈ committed) sent.
Proof.
  revert m. induction committed as [|block_ref committed IH]; intros m.
  - exists m, []. split; [done|]. split; [|done]. symmetry. apply map_filter_id. intros; cbn. apply not_elem_of_nil.
  - cbn. destruct (m !! block_ref) as [l|] eqn:Hl.
    + destruct (IH (delete block_ref m)) as (m' & sent & -> & Hm' & Hperm & Hsent). eexists _, _. split; [done|].
      split_and!.
      * rewrite Hm'. apply map_eq. intros k. rewrite !map_lookup_filter. destruct (decide (k = block_ref)) as [->|Hne].
        -- rewrite lookup_delete_eq, Hl. cbn. rewrite option_guard_False; [done|]. set_solver.
        -- rewrite lookup_delete_ne by done. destruct (m !! k); [|done]. cbn. apply option_guard_iff. set_solver.
      * rewrite fmap_app, told_fmap by done. rewrite (subscriptions_delete m block_ref l Hl), Hperm. by rewrite app_assoc.
      * apply Forall_app. split; [apply Forall_fmap, Forall_true; intros x; exists block_ref; set_solver|].
        eapply Forall_impl; [done|]. intros x (b & ? & ?). exists b. set_solver.
    + destruct (IH m) as (m' & sent & -> & Hm' & Hperm & Hsent). eexists _, _. split; [done|]. split_and!; [|done|].
      * rewrite Hm'. apply map_eq. intros k. rewrite !map_lookup_filter.
        destruct (decide (k = block_ref)) as [->|Hne]; [by rewrite Hl|]. destruct (m !! k); [|done]. cbn.
        apply option_guard_iff. set_solver.
      * eapply Forall_impl; [done|]. intros x (b & ? & ?). exists b. set_solver.
Qed.

Lemma notify_collected_spec gc m entries :
  (∀ k v, (k, v) ∈ entries ↔ m !! k = Some v) → NoDup entries.*1 → StronglySorted key_le entries.*1 →
  ∃ m' sent, notify_collected gc m entries = (m', sent) ∧
    m' = filter (λ p, gc < br_round p.1) m ∧
    subscriptions m ≡ₚ (told_block <$> sent) ++ subscriptions m' ∧
    Forall (λ p, ∃ b, p.2 = GarbageCollected b ∧ br_round b ≤ gc) sent.
Proof.
  revert m. induction entries as [|[block_ref l] entries IH]; intros m Hin Hnd Hsort.
  - exists m, []. split; [done|]. split; [|done]. symmetry. apply map_filter_id. intros k v Hk%Hin. by apply not_elem_of_nil in Hk.
  - cbn in Hnd, Hsort. apply NoDup_cons in Hnd as [Hnotin Hnd]. apply StronglySorted_inv in Hsort as [Hsort Hall].
    assert (Hl : m !! block_ref = Some l) by (apply Hin; left).
    assert (Hin' : ∀ k v, (k, v) ∈ entries ↔ delete block_ref m !! k = Some v).
    { intros k v. rewrite lookup_delete_Some, <-Hin, elem_of_cons. split.
      - intros Hkv. split; [|by right]. intros ->. apply Hnotin, list_elem_of_fmap. by exists (k, v).
      - intros [Hne [[= -> ->]|?]]; done. }
    cbn. case_bool_decide as Hgc.
    + destruct (IH _ Hin' Hnd Hsort) as (m' & sent & -> & Hm' & Hperm & Hsent). eexists _, _. split; [done|].
      split_and!.
      * rewrite Hm'. apply map_eq. intros k. rewrite !map_lookup_filter. destruct (decide (k = block_ref)) as [->|Hne].
        -- rewrite lookup_delete_eq, Hl. cbn. rewrite option_guard_False; [done|]. cbn. lia.
        -- by rewrite lookup_delete_ne.
      * rewrite fmap_app, told_fmap by done. rewrite (subscriptions_delete m block_ref l Hl), Hperm. by rewrite app_assoc.
      * apply Forall_app. split; [apply Forall_fmap, Forall_true; intros x; by exists block_ref|done].
    + eexists _, _. split; [done|]. rewrite insert_delete_eq, insert_id by done. split; [|done].
      symmetry. apply map_filter_id. intros k v Hk. cbn. apply Hin, elem_of_cons in Hk as [[= -> ->]|Hk]; [lia|].
      rewrite Forall_forall in Hall. specialize (Hall k). apply BlockRef_le_round in Hall; [lia|].
      apply list_elem_of_fmap. by exists (k, v).
Qed.

Lemma notify_spec tn committed gc :
  ∃ tn' sent, notify_own_blocks_status tn committed gc = (tn', sent) ∧
    waiting tn' = waiting tn ∧ (∀ a b, limits a b tn → limits a b tn') ∧
    tn_block_status_subscribers tn' =
      filter (λ p, (p.1 ∉ committed) ∧ gc < br_round p.1) (tn_block_status_subscribers tn) ∧
    subscriptions (tn_block_status_subscribers tn) ≡ₚ (told_block <$> sent) ++ subscriptions (tn_block_status_subscribers tn') ∧
    Forall (λ p, ∃ b, (p.2 = Sequenced b ∧ b ∈ committed) ∨ (p.2 = GarbageCollected b ∧ br_round b ≤ gc ∧ b ∉ committed)) sent.
Proof.
  unfold notify_own_blocks_status.
  destruct (notify_committed_spec (tn_block_status_subscribers tn) committed) as (m1 & s1 & -> & Hm1 & Hp1 & Hs1).
  destruct (notify_collected_spec gc m1 (map_list m1)) as (m2 & s2 & -> & Hm2 & Hp2 & Hs2).
  { intros k v. apply elem_of_map_list. }
  { apply NoDup_map_list. }
  { apply map_list_fst_sorted. }
  eexists _, _. split; [done|]. split; [done|]. split; [done|]. cbn. split_and!.
  - rewrite Hm2, Hm1, map_filter_filter. apply map_filter_ext. intros; cbn. tauto.
  - rewrite fmap_app, <-app_assoc, <-Hp2. exact Hp1.
  - apply Forall_app. split; [eapply Forall_impl; [exact Hs1|intros x (b & ? & ?); exists b; by left]|].
    apply Forall_forall. intros [s st] Hin. rewrite Forall_forall in Hs2. destruct (Hs2 _ Hin) as (b & Hst & Hb).
    exists b. right. split_and!; [done..|]. cbn in Hst. subst st.
    assert (Hsub : (s, b) ∈ subscriptions m1).
    { rewrite Hp2. apply elem_of_app. left. apply list_elem_of_fmap. by exists (s, GarbageCollected b). }
    apply elem_of_subscriptions in Hsub as (l & Hl & _). rewrite Hm1 in Hl. by apply map_lookup_filter_Some in Hl as [_ ?].
Qed.

(** ** Runs of the queue *)

Section runs.
Context (ctx : Context).
Abbreviation pc := (ctx_protocol_config ctx).
Implicit Types (tn : TransactionConsumer) (submitted : list TransactionsGuard).
Implicit Types (blocks : list (BlockRef * list Transaction)) (included : list (Submission * BlockRef * list TransactionIndex)).
Implicit Types (told : list (Submission * BlockStatus)).

Definition send_guard tn (t : TransactionsGuard) : TransactionConsumer :=
  mk_consumer (tn_tx_receiver tn ++ [t]) (tn_max_transactions_in_block_bytes tn) (tn_max_num_transactions_in_block tn)
    (tn_pending_transactions tn) (tn_block_status_subscribers tn).

(** Clients submit bundles, the proposer pulls the transactions of a block and
    acknowledges them, and commits are notified: the accepted submissions, the
    consumer, the proposed blocks, the acknowledgements and the statuses sent. *)
Inductive queue_run : list TransactionsGuard → TransactionConsumer → list (BlockRef * list Transaction) →
    list (Submission * BlockRef * list TransactionIndex) → list (Submission * BlockStatus) → Prop :=
| qr_new : queue_run [] (TransactionConsumer_new [] ctx) [] [] []
| qr_submit submitted tn blocks included told ack transactions t :
    queue_run submitted tn blocks included told →
    submit_no_wait (TransactionClient_new ctx) ack transactions = inr t →
    (length (tn_tx_receiver tn) < MAX_PENDING_TRANSACTIONS)%nat →
    queue_run (submitted ++ [t]) (send_guard tn t) blocks included told
| qr_propose submitted tn blocks included told block_ref tn1 transactions acks limit tn2 sent :
    queue_run submitted tn blocks included told →
    TransactionConsumer_next tn = (tn1, transactions, acks, limit) →
    ack_transactions tn1 acks block_ref = (tn2, sent) →
    queue_run submitted tn2 (blocks ++ [(block_ref, transactions)]) (included ++ sent) told
| qr_notify submitted tn blocks included told committed gc tn' sent :
    queue_run submitted tn blocks included told →
    notify_own_blocks_status tn committed gc = (tn', sent) →
    queue_run submitted tn' blocks included (told ++ sent).

(** The limits of the protocol configuration leave room in their integers. *)
Record limits_ok : Prop := {
  lo_bytes : 2 * pc_max_transactions_in_block_bytes pc ≤ u64_max;
  lo_size : pc_max_transactions_in_block_bytes pc + pc_max_transaction_size_bytes pc ≤ u64_max;
  lo_count : pc_max_num_transactions_in_block pc ≤ 65535;
}.
Context (Hlim : limits_ok).
Abbreviation fits := (fits (pc_max_transactions_in_block_bytes pc) (pc_max_num_transactions_in_block pc)).
Abbreviation limits := (limits (pc_max_transactions_in_block_bytes pc) (pc_max_num_transactions_in_block pc)).

Definition small t : Prop := Forall (λ x, tx_size x ≤ pc_max_transaction_size_bytes pc) (tg_transactions t).

Lemma submitted_fits ack transactions t : submit_no_wait (TransactionClient_new ctx) ack transactions = inr t →
  fits t ∧ small t ∧ t = mk_guard (mk_transaction <$> transactions) ack.
Proof using Hlim.
  intros Hsub. assert (Ht : t = mk_guard (mk_transaction <$> transactions) ack).
  { unfold submit_no_wait in Hsub. case_bool_decide; [done|]. destruct (check_bundle _ _ _); [done|]. by injection Hsub. }
  subst t. apply submit_no_wait_spec in Hsub as (Hc & Hs & Hb); [|apply Hlim]. cbn in *.
  split; [split|split; [|done]]; unfold bundle_bytes, bundle_count, small; cbn.
  - rewrite <-list_fmap_compose. exact Hb.
  - by rewrite length_fmap.
  - by apply Forall_fmap.
Qed.

(** What a block made of bundles that fit contains passes block verification. *)
Lemma taken_verifies taken : Forall small taken →
  total_bytes taken ≤ pc_max_transactions_in_block_bytes pc → total_count taken ≤ pc_max_num_transactions_in_block pc →
  check_transactions ctx (tx_data <$> (taken ≫= tg_transactions)) = ROk tt.
Proof using Hlim.
  intros Hsm Hb Hc. unfold check_transactions.
  assert (Hsizes : check_sizes (pc_max_transaction_size_bytes pc) (tx_data <$> (taken ≫= tg_transactions)) = ROk tt).
  { assert (Hall : Forall (λ x, tx_size x ≤ pc_max_transaction_size_bytes pc) (taken ≫= tg_transactions))
      by (apply Forall_bind; exact Hsm).
    clear -Hall. induction Hall as [|x l Hx _ IH]; [done|]. csimpl. rewrite bool_decide_eq_false_2; [done|].
    unfold tx_size in Hx. lia. }
  rewrite Hsizes. cbn. rewrite length_fmap, length_taken, bool_decide_eq_false_2 by lia. cbn.
  rewrite <-list_fmap_compose.
  assert (Hsum : sumN (((λ t, N.of_nat (length t)) ∘ tx_data) <$> (taken ≫= tg_transactions)) = total_bytes taken).
  { clear. unfold total_bytes. induction taken as [|t taken IH]; [done|]. csimpl. rewrite fmap_app, sumN_app, IH. done. }
  rewrite u64_sum_small, Hsum by (rewrite Hsum; pose proof (lo_bytes Hlim); lia).
  rewrite bool_decide_eq_false_2 by lia. done.
Qed.

Lemma ack_spec tn acks block_ref : ∃ tn' sent, ack_transactions tn acks block_ref = (tn', sent) ∧
  waiting tn' = waiting tn ∧ (limits tn → limits tn') ∧
  sent = (λ '(ack, tx_indices), (ack, block_ref, tx_indices)) <$> acks ∧
  subscriptions (tn_block_status_subscribers tn') ≡ₚ
    subscriptions (tn_block_status_subscribers tn) ++ ((λ x, (x.1, block_ref)) <$> acks).
Proof.
  clear Hlim. unfold ack_transactions. eexists _, _. split; [done|]. split; [done|]. split; [done|]. split; [done|]. cbn.
  generalize (tn_block_status_subscribers tn) as m. induction acks as [|[a idxs] acks IH]; intros m; csimpl; [by rewrite app_nil_r|].
  rewrite IH. etrans; [|apply Permutation_middle]. rewrite app_comm_cons. apply Permutation_app_tail. clear IH.
  set (l := default [] (m !! block_ref)).
  rewrite (subscriptions_delete (<[block_ref := l ++ [a]]> m) block_ref (l ++ [a])) by apply lookup_insert_eq.
  rewrite delete_insert_eq. rewrite fmap_app. cbn. rewrite <-Permutation_cons_append.
  subst l. destruct (m !! block_ref) as [l|] eqn:Hl; cbn.
  - by rewrite (subscriptions_delete m block_ref l Hl).
  - by rewrite delete_id.
Qed.

(** The bundles of each block, in order, and the waiting ones are the
    submissions; the statuses sent and the subscriptions left are the
    acknowledgements. *)
Record queue_ok submitted tn blocks included told (takens : list (list TransactionsGuard)) : Prop := {
  qo_limits : limits tn;
  qo_fits : Forall (λ t, fits t ∧ small t) submitted;
  qo_order : submitted = mjoin takens ++ waiting tn;
  qo_blocks : Forall2 (λ b taken, b.2 = taken ≫= tg_transactions ∧ total_bytes taken ≤ pc_max_transactions_in_block_bytes pc ∧
                         total_count taken ≤ pc_max_num_transactions_in_block pc) blocks takens;
  qo_included : included = mjoin (zip_with (λ b taken, (λ '(ack, idxs), (ack, b.1, idxs)) <$> acks_from 0 taken) blocks takens);
  qo_told : (λ x, (x.1.1, x.1.2)) <$> included ≡ₚ (told_block <$> told) ++ subscriptions (tn_block_status_subscribers tn);
}.

Lemma queue_run_ok submitted tn blocks included told :
  queue_run submitted tn blocks included told → ∃ takens, queue_ok submitted tn blocks included told takens.
Proof using Hlim.
  induction 1 as [|submitted tn blocks included told ack transactions t _ [takens [Hl Hf Ho Hb Hi Ht]] Hsub _|
    submitted tn blocks included told block_ref tn1 txs acks limit tn2 sent _ [takens [Hl Hf Ho Hb Hi Ht]] Hnext Hack|
    submitted tn blocks included told committed gc tn' sent _ [takens [Hl Hf Ho Hb Hi Ht]] Hnot].
  - exists []. by split.
  - exists takens. split; try done.
    + apply Forall_app. split; [done|]. apply Forall_singleton. by destruct (submitted_fits _ _ _ Hsub) as (? & ? & _).
    + unfold waiting in *. cbn. by rewrite Ho, !app_assoc.
  - destruct (next_spec _ _ (lo_bytes Hlim) (lo_count Hlim) tn Hl) as (x & taken & y & z & Heq & Hl1 & Hw & -> & Hbs & Hcs & Hs & _).
    { rewrite Ho in Hf. apply Forall_app in Hf as [_ Hf]. eapply Forall_impl; [exact Hf|]. by intros t [? _]. }
    rewrite Hnext in Heq. injection Heq as <- -> -> <-.
    destruct (ack_spec tn1 (acks_from 0 taken) block_ref) as (x & y' & Heq & Hw2 & Hl2 & -> & Hs2).
    rewrite Hack in Heq. injection Heq as <- ->. exists (takens ++ [taken]).
    assert (Hlen : length blocks = length takens) by by eapply Forall2_length. split; [by apply Hl2|done|..].
    + rewrite Hw2, join_app. cbn. rewrite app_nil_r, Ho, Hw. by rewrite app_assoc.
    + apply Forall2_app; [done|]. by apply Forall2_cons.
    + rewrite zip_with_app, join_app by done. cbn. by rewrite app_nil_r, Hi.
    + rewrite fmap_app, Ht, Hs2, Hs, <-app_assoc. do 2 apply Permutation_app_head. rewrite <-list_fmap_compose.
      erewrite list_fmap_ext; [reflexivity|]. by intros i [].
  - destruct (notify_spec tn committed gc) as (x & y & Heq & Hw & Hl' & Hsubs & Hperm & _).
    rewrite Hnot in Heq. injection Heq as <- <-. exists takens. split; [by apply Hl'|done|by rewrite Hw|done|done|].
    by rewrite fmap_app, <-app_assoc, <-Hperm.
Qed.

(** Acknowledged indices point at the transactions of the bundle. *)
Lemma acks_from_lookup before taken after ack idxs : (ack, idxs) ∈ acks_from (length before) taken →
  ∃ t, t ∈ taken ∧ ack = tg_included_in_block_ack t ∧
    (λ i, (before ++ (taken ≫= tg_transactions) ++ after) !! N.to_nat i) <$> idxs = Some <$> tg_transactions t.
Proof.
  clear. revert before. induction taken as [|t taken IH]; intros before Hin; csimpl in *; [by apply not_elem_of_nil in Hin|].
  apply elem_of_cons in Hin as [[= -> ->]|Hin].
  - exists t. split; [left|]. split; [done|]. rewrite <-list_fmap_compose. apply list_eq. intros i.
    rewrite !list_lookup_fmap. destruct (decide (i < length (tg_transactions t))%nat) as [Hlt|Hge].
    + rewrite lookup_seq_lt by done. cbn. rewrite Nat2N.id, lookup_app_r by lia.
      replace (length before + i - length before)%nat with i by lia. rewrite <-app_assoc, lookup_app_l by done.
      by destruct (lookup_lt_is_Some_2 _ _ Hlt) as [x ->].
    + rewrite lookup_seq_ge by lia. cbn. by rewrite lookup_ge_None_2 by lia.
  - rewrite <-length_app in Hin. destruct (IH (before ++ tg_transactions t) Hin) as (t' & Ht & Ha & Hidx).
    exists t'. split; [by right|]. split; [done|]. rewrite <-!app_assoc in *. done.
Qed.
End runs.


(** C34: every acknowledged submission is told the fate of its block exactly
    once. The statuses sent and the subscriptions left make up the
    acknowledgements; a notification tells [Sequenced] for the committed
    blocks, [GarbageCollected] for the others up to the GC round, and leaves
    exactly the rest subscribed. *)
Theorem block_status_told_once ctx submitted tn blocks included told committed gc tn' sent :
  limits_ok ctx → queue_run ctx submitted tn blocks included told →
  notify_own_blocks_status tn committed gc = (tn', sent) →
  (λ x, (x.1.1, x.1.2)) <$> included ≡ₚ (told_block <$> told) ++ subscriptions (tn_block_status_subscribers tn) ∧
  ∀ s block_ref, (s, block_ref) ∈ subscriptions (tn_block_status_subscribers tn) →
    (if bool_decide (block_ref ∈ committed) then (s, Sequenced block_ref) ∈ sent
     else if bool_decide (br_round block_ref ≤ gc) then (s, GarbageCollected block_ref) ∈ sent
     else (s, block_ref) ∈ subscriptions (tn_block_status_subscribers tn')).
Proof.
  intros Hlim Hrun Hnot. destruct (queue_run_ok ctx Hlim _ _ _ _ _ Hrun) as [takens Hok]. split; [apply Hok|].
  destruct (notify_spec tn committed gc) as (x & y & Heq & _ & _ & Hsubs & Hperm & Hsent).
  rewrite Hnot in Heq. injection Heq as <- <-. intros s B Hin. rewrite Forall_forall in Hsent.
  assert (Hcase : (∃ st, (s, st) ∈ sent ∧ status_block st = B) ∨ (s, B) ∈ subscriptions (tn_block_status_subscribers tn')).
  { rewrite Hperm in Hin. apply elem_of_app in Hin as [Hin|Hin]; [left|by right].
    apply list_elem_of_fmap in Hin as ([s' st] & [= -> ->] & Hin). by exists st. }
  destruct Hcase as [(st & Hst & <-)|Hleft].
  - destruct (Hsent _ Hst) as (b & [[Heq Hb]|(Heq & Hb & Hn)]); cbn in Heq; subst st; cbn.
    + by rewrite bool_decide_eq_true_2.
    + by rewrite bool_decide_eq_false_2, bool_decide_eq_true_2.
  - apply elem_of_subscriptions in Hleft as Hl. destruct Hl as (l & Hl & _). rewrite Hsubs in Hl.
    apply map_lookup_filter_Some in Hl as [_ [Hn Hr]]. cbn in Hn, Hr. by rewrite !bool_decide_eq_false_2 by (done || lia).
Qed.

(** A run: two bundles are submitted, both go into the first block, which is
    then sequenced; a third bundle waits. *)
Definition queue_ctx : Context := test_context 4 2 5.
Definition queue_bundle (n : nat) : list bytes := replicate n (replicate 100 Byte.x00).
Definition queue_block : BlockRef := mk_ref 1 0%nat 7.
Definition queue_guard (ack : Submission) (n : nat) : TransactionsGuard :=
  mk_guard (mk_transaction <$> queue_bundle n) ack.
Definition queue_submitted : TransactionConsumer :=
  send_guard (send_guard (TransactionConsumer_new [] queue_ctx) (queue_guard 1 2)) (queue_guard 2 3).
Definition queue_next := TransactionConsumer_next queue_submitted.
Definition queue_acked := ack_transactions queue_next.1.1.1 queue_next.1.2 queue_block.
Definition queue_final : TransactionConsumer := send_guard queue_acked.1 (queue_guard 3 1).

Lemma queue_limits_ok : limits_ok queue_ctx.
Proof. by split. Qed.

Lemma queue_final_run : queue_run queue_ctx [queue_guard 1 2; queue_guard 2 3; queue_guard 3 1] queue_final
  [(queue_block, queue_next.1.1.2)] queue_acked.2 [].
Proof.
  apply (qr_submit queue_ctx [_; _] queue_acked.1 _ _ _ 3 (queue_bundle 1)); [|by vm_compute|cbv; lia].
  apply (qr_propose queue_ctx [_; _] queue_submitted [] [] [] queue_block queue_next.1.1.1 queue_next.1.1.2
           queue_next.1.2 queue_next.2 queue_acked.1 queue_acked.2); [|by vm_compute..].
  apply (qr_submit queue_ctx [_] _ _ _ _ 2 (queue_bundle 3)); [|by vm_compute|cbv; lia].
  apply (qr_submit queue_ctx [] _ _ _ _ 1 (queue_bundle 2)); [|by vm_compute|cbv; lia].
  apply qr_new.
Qed.


Lemma block_status_told_once_witness :
  (1, Sequenced queue_block) ∈ (notify_own_blocks_status queue_final [queue_block] 0).2.
Proof.
  destruct (notify_own_blocks_status queue_final [queue_block] 0) as [tn' sent] eqn:Hnot.
  destruct (block_status_told_once queue_ctx _ _ _ _ _ [queue_block] 0 tn' sent queue_limits_ok queue_final_run Hnot) as [_ Htold].
  apply (Htold 1 queue_block). apply elem_of_subscriptions. exists [1; 2]. split; [by vm_compute|left].
Defined.
