(* ===== verification/DagViews.v ===== *)
(** * The DAG state of a running node

    A node starts from an empty store, accepts blocks in causal order, adds
    commits and flushes. Every reachable state is a causally complete view of
    the universe of blocks, and no such step panics. *)
From S2P Require Import Prelude Committee StakeAggregator Block ThresholdClock Commit LeaderScoring Store DagState DagStateProofs DagTraversal LeaderSchedule BaseCommitter CommitRule.

From Stdlib Require Import Strings.Byte.

Section node.
Context {S : Type} `{StoreLaws S} (ctx : Context) (G : BlockRef → option VerifiedBlock).
Implicit Types (d : DagState S) (v : StoreView).

(** ** What an operation leaves alone *)

Lemma accept_block_frame d b now d' : accept_block ctx d b now = Done d' →
  ds_last_committed_rounds d' = ds_last_committed_rounds d ∧
  ds_commits_to_write d' = ds_commits_to_write d ∧
  ds_highest_accepted_round d' ≤ N.max (ds_highest_accepted_round d) (vb_round b).
Proof.
  unfold accept_block, update_block_metadata. intros ?.
  repeat (run_inv; try case_match); simpl; split_and!; try done; lia.
Qed.

Lemma flush_frame d d' : flush ctx d = Done d' →
  ds_last_committed_rounds d' = ds_last_committed_rounds d ∧
  ds_highest_accepted_round d' = ds_highest_accepted_round d.
Proof.
  unfold flush. destruct (_ && _); [by intros [= <-]|]. intros ?. run_inv.
  match goal with Hf : for_each ?f ?s0 ?l = Done d' |- _ =>
    apply (for_each_ind (λ _ x, ds_last_committed_rounds x = ds_last_committed_rounds d ∧
      ds_highest_accepted_round x = ds_highest_accepted_round d) f s0 l d'); [done| |done] end.
  intros l1 [i a] l2 s1 s2 _ [Hx1 Hx2] Hstep. unfold evict_authority in Hstep.
  run_inv. destruct (evict_loop _ _ _ _). by run_inv.
Qed.

Lemma add_commit_frame d c now d' : add_commit ctx d c now = Done d' →
  ds_highest_accepted_round d' = ds_highest_accepted_round d.
Proof. unfold add_commit. intros ?. by repeat (run_inv; try case_match). Qed.

(** ** Events *)

Inductive event :=
| EvAccept (b : VerifiedBlock) (now : N)
| EvCommit (c : TrustedCommit) (now : N)
| EvFlush.

Definition run_event d (ev : event) : run (DagState S) :=
  match ev with
  | EvAccept b now => accept_block ctx d b now
  | EvCommit c now => add_commit ctx d c now
  | EvFlush => flush ctx d
  end.

Definition view_after d v (ev : event) : StoreView :=
  match ev with
  | EvFlush => view_write v (mk_batch (ds_blocks_to_write d) (ds_commits_to_write d)
                               (ds_commit_info_to_write d))
  | _ => v
  end.

(** Blocks are verified and accepted after their ancestors above the GC round;
    commits come in order and do not go back below the last leader. *)
Definition enabled d v (ev : event) : Prop :=
  match ev with
  | EvAccept b _ => G (vb_reference b) = Some b ∧ vb_round b ≠ 0 ∧
      ∀ a, a ∈ vb_ancestors b → gc_round ctx d < br_round a → is_Some (dag_lookup d v a)
  | EvCommit c _ => next_commit d c ∧ tc_index c ≤ u32_max ∧ st_commit_ok c ∧
      Forall (λ r, valid_author ctx (br_author r)) (tc_blocks c) ∧
      last_commit_round d ≤ br_round (tc_leader c)
  | EvFlush => True
  end.

Record node_inv d v : Prop := {
  ni_view : view_ok ctx G d v;
  ni_rounds : length (ds_last_committed_rounds d) = Committee_size (ctx_committee ctx);
  ni_commits : Forall st_commit_ok (ds_commits_to_write d);
  ni_highest : highest_accepted_round d < u32_max;
}.

Context (byz : gset AuthorityIndex) (HU : universe_ok (ctx_committee ctx) G byz).
Context (Hown : ctx_own_index ctx ∉ byz).
Context (Hstorable : ∀ r b, G r = Some b → br_round r ≠ 0 → st_block_ok b).

(** An honest authority has no second block in its own slot. *)
Lemma own_slot_free d v b : view_ok ctx G d v → G (vb_reference b) = Some b →
  vb_author b = ctx_own_index ctx → dag_lookup d v (vb_reference b) = None →
  get_uncommitted_blocks_at_slot d (Slot_from (vb_reference b)) = [].
Proof using HU Hown.
  intros Hview Hb Ha Hnone. unfold get_uncommitted_blocks_at_slot.
  destruct (map_range _ _ _) as [|[r info] l] eqn:Hl; [done|]. exfalso.
  assert ((r, info) ∈ (r, info) :: l) as Hin by left. rewrite <-Hl in Hin.
  apply list_elem_of_filter in Hin as [Hrange Hi%elem_of_map_list].
  unfold above_bound, below_bound in Hrange. simpl in Hrange.
  apply andb_True in Hrange as [Hlo Hhi]. unfold BlockRef_le in *.
  rewrite bool_decide_spec in Hlo, Hhi. simpl in Hlo, Hhi.
  pose proof (dag_lookup_recent ctx d v r info (vo_inv _ _ _ _ Hview) Hi) as Hr.
  assert (vb_reference b = r) as <-; [|congruence].
  pose proof (vo_sub _ _ _ _ Hview _ _ Hr).
  eapply (u_honest _ _ _ HU); [done..| | |]; simpl; [by rewrite Ha|lia..].
Qed.

Lemma accept_block_view d v b now : node_inv d v → enabled d v (EvAccept b now) →
  ∃ d', accept_block ctx d b now = Done d' ∧ node_inv d' v ∧
    ds_last_commit d' = ds_last_commit d ∧
    ∀ r, is_Some (dag_lookup d' v r) ↔ is_Some (dag_lookup d v r) ∨ r = vb_reference b.
Proof using HU Hown.
  intros [Hview Hlen Hcm Hhi] (Hb & Hr & Hanc).
  pose proof (u_wf _ _ _ HU _ _ Hb) as Hwf.
  destruct (accept_block_spec ctx d v b now (vo_inv _ _ _ _ Hview) (wf_author _ _ Hwf) Hr)
    as (d' & Hrun & Hinv' & Hlc & Hlk & _); [by intros; apply (own_slot_free d v)|].
  destruct (accept_block_frame _ _ _ _ Hrun) as (Hf1 & Hf2 & Hf3).
  assert (Hgc : gc_round ctx d' = gc_round ctx d) by (unfold gc_round, last_commit_round; by rewrite Hlc).
  assert (Hmono : ∀ r, is_Some (dag_lookup d v r) → is_Some (dag_lookup d' v r)).
  { intros r [x Hx]. rewrite Hlk, Hx. case_decide; eauto. }
  exists d'. split; [done|]. split; [split|].
  - split; [done|..].
    + intros r x. rewrite Hlk. case_decide as Hd; [subst r|apply (vo_sub _ _ _ _ Hview)].
      destruct (dag_lookup d v (vb_reference b)) eqn:Hx; intros [= <-]; [|done].
      by apply (vo_sub _ _ _ _ Hview).
    + intros r x a Hx Ha Hga. rewrite Hgc in Hga. apply Hmono. rewrite Hlk in Hx.
      case_decide as Hd; [|by eapply (vo_closed _ _ _ _ Hview)].
      destruct (dag_lookup d v r) eqn:Hx'; simplify_eq; [by eapply (vo_closed _ _ _ _ Hview)|].
      by apply Hanc.
  - by rewrite Hf1.
  - by rewrite Hf2.
  - pose proof (wf_round _ _ Hwf). unfold highest_accepted_round in *. lia.
  - split; [done|]. intros r. split; [|intros [?| ->]; [by auto|]].
    + rewrite Hlk. case_decide; [by right|by left].
    + rewrite Hlk, decide_True by done. destruct (dag_lookup d v (vb_reference b)); eauto.
Qed.

Lemma add_commit_view d v c now : node_inv d v → enabled d v (EvCommit c now) →
  ∃ d', add_commit ctx d c now = Done d' ∧ node_inv d' v ∧
    gc_round ctx d ≤ gc_round ctx d' ∧ ∀ r, dag_lookup d' v r = dag_lookup d v r.
Proof.
  clear Hstorable HU Hown. intros [Hview Hlen Hcm Hhi] (Hnext & Hmax & Hok & Hval & Hround).
  destruct (add_commit_spec ctx d v c now (vo_inv _ _ _ _ Hview) Hnext Hmax Hlen Hval Hround)
    as (d' & rounds & Hrun & Hinv' & Hb & Hr & _ & _ & Hw & Hrec & Hgen & Hgc).
  destruct (bump_committed_rounds_spec (ds_last_committed_rounds d) (tc_blocks c))
    as (rounds' & Hb' & Hlen' & _).
  { eapply Forall_impl; [exact Hval|]. intros r Hr'. unfold valid_author, Committee_is_valid_index in Hr'.
    rewrite bool_decide_spec in Hr'. by rewrite Hlen. }
  assert (Hlk : ∀ r, dag_lookup d' v r = dag_lookup d v r)
    by (intros r; unfold dag_lookup; by rewrite Hrec, Hgen).
  exists d'. split; [done|]. split; [|done]. split.
  - split; [done|..].
    + intros r b. rewrite Hlk. apply (vo_sub _ _ _ _ Hview).
    + intros r b a. rewrite !Hlk. intros Hb1 Ha Hga. eapply (vo_closed _ _ _ _ Hview); [done..|lia].
  - congruence.
  - rewrite Hw. apply Forall_app. by split; [|constructor].
  - unfold highest_accepted_round. by rewrite (add_commit_frame _ _ _ _ Hrun).
Qed.

Lemma flush_view d v : node_inv d v →
  ∃ d', flush ctx d = Done d' ∧ node_inv d' (view_after d v EvFlush) ∧
    gc_round ctx d' = gc_round ctx d ∧
    ∀ r, dag_lookup d' (view_after d v EvFlush) r = dag_lookup d v r.
Proof using Hstorable.
  clear HU Hown. intros [Hview Hlen Hcm Hhi]. pose proof (vo_inv _ _ _ _ Hview) as Hinv.
  destruct (flush_spec ctx d v Hinv) as (d' & v' & Hrun & Hinv' & -> & (_ & Hcw & _) & Hlc & Hlk & _);
    [|done|].
  { apply Forall_forall. intros b (_ & info & Hi & <-)%(di_to_write _ _ _ Hinv).
    pose proof (dag_lookup_recent ctx d v _ _ Hinv Hi) as Hb%(vo_sub _ _ _ _ Hview).
    eapply Hstorable; [exact Hb|]. destruct (di_recent _ _ _ Hinv _ _ Hi) as (_ & ? & _). lia. }
  destruct (flush_frame _ _ Hrun) as [Hf1 Hf2].
  assert (Hgc : gc_round ctx d' = gc_round ctx d) by (unfold gc_round, last_commit_round; by rewrite Hlc).
  exists d'. split; [done|]. split; [|done]. split.
  - split; [done|..].
    + intros r b. rewrite Hlk. apply (vo_sub _ _ _ _ Hview).
    + intros r b a. rewrite !Hlk, Hgc. apply (vo_closed _ _ _ _ Hview).
  - by rewrite Hf1.
  - by rewrite Hcw.
  - unfold highest_accepted_round. by rewrite Hf2.
Qed.

(** ** Reachable states *)

Context `{BlockCodec}.

Inductive reachable : DagState S → StoreView → Prop :=
| reach_new store now d : store_rel store view_empty →
    DagState_new ctx store now = Done d → reachable d view_empty
| reach_event d v ev d' : reachable d v → enabled d v ev → run_event d ev = Done d' →
    reachable d' (view_after d v ev).

Context (genesis : list VerifiedBlock) (Hgenesis : genesis_blocks ctx = Done genesis).
Context (Hgenesis_G : ∀ b, b ∈ genesis → G (vb_reference b) = Some b).
Context (Hvalid : valid_author ctx (ctx_own_index ctx)).
Context (Hcached : 0 < ctx_dag_state_cached_rounds ctx).

Lemma fresh_node_inv store now : store_rel store view_empty →
  node_inv (fresh_dag ctx genesis store now) view_empty.
Proof using Hgenesis Hgenesis_G Hvalid Hcached.
  clear HU Hown Hstorable. intros Hrel.
  pose proof (fresh_dag_inv ctx genesis store now Hrel Hgenesis Hvalid Hcached) as Hinv.
  assert (Hlk : ∀ r b, dag_lookup (fresh_dag ctx genesis store now) view_empty r = Some b →
            b ∈ genesis ∧ r = vb_reference b).
  { intros r b. unfold dag_lookup. simpl. case_bool_decide; [apply genesis_lookup|].
    by rewrite !lookup_empty. }
  split; [split; [done|..]|simpl; by rewrite length_replicate|by constructor|done].
  - intros r b [Hb ->]%Hlk. by apply Hgenesis_G.
  - intros r b a [Hb _]%Hlk. apply list_elem_of_lookup in Hb as [i Hi].
    apply genesis_blocks_spec in Hgenesis as [_ Hg]. destruct (Hg i b Hi) as (_ & _ & -> & _).
    set_solver.
Qed.

Lemma event_ok d v ev : node_inv d v → enabled d v ev →
  ∃ d', run_event d ev = Done d' ∧ node_inv d' (view_after d v ev).
Proof using HU Hown Hstorable.
  intros Hinv Hen. destruct ev as [b now|c now|].
  - destruct (accept_block_view d v b now Hinv Hen) as (d' & ? & ? & _). by exists d'.
  - destruct (add_commit_view d v c now Hinv Hen) as (d' & ? & ? & _). by exists d'.
  - destruct (flush_view d v Hinv) as (d' & ? & ? & _). by exists d'.
Qed.

Lemma reachable_node_inv d v : reachable d v → node_inv d v.
Proof using HU Hown Hstorable Hgenesis Hgenesis_G Hvalid Hcached.
  induction 1 as [store now d Hrel Hnew|d v ev d' _ IH Hen Hrun].
  - rewrite (DagState_new_fresh ctx genesis) in Hnew by done. injection Hnew as <-.
    by apply fresh_node_inv.
  - destruct (event_ok d v ev IH Hen) as (d'' & Hrun' & Hinv). congruence.
Qed.
End node.

(** An honest authority in a universe of verified blocks that its store can
    hold. *)
Record honest_node {S} `{StoreLaws S} `{BlockCodec} (ctx : Context)
    (G : BlockRef → option VerifiedBlock) (byz : gset AuthorityIndex) : Prop := {
  hn_universe : universe_ok (ctx_committee ctx) G byz;
  hn_own : ctx_own_index ctx ∉ byz;
  hn_storable r b : G r = Some b → br_round r ≠ 0 → st_block_ok b;
  hn_genesis : ∃ genesis, genesis_blocks ctx = Done genesis ∧
    ∀ b, b ∈ genesis → G (vb_reference b) = Some b;
  hn_valid : valid_author ctx (ctx_own_index ctx);
  hn_cached : 0 < ctx_dag_state_cached_rounds ctx;
}.

Lemma honest_reachable_inv {S} `{StoreLaws S} `{BlockCodec} ctx G byz (d : DagState S) v :
  honest_node ctx G byz → reachable ctx G d v → node_inv ctx G d v.
Proof.
  intros [HU Hown Hst (genesis & Hg & HgG) Hv Hc] Hr.
  by apply (reachable_node_inv ctx G byz HU Hown Hst genesis Hg HgG Hv Hc).
Qed.

(** C17: every state an honest node reaches from an empty store, by accepting
    verified blocks after their ancestors, adding commits in order and
    flushing in any interleaving, knows the ancestors above its GC round of
    every block it knows, and none of these operations can panic in it. *)
Theorem reachable_dag_safe {S} `{StoreLaws S} `{BlockCodec} ctx G byz (d : DagState S) v :
  honest_node ctx G byz → reachable ctx G d v →
  view_ok ctx G d v ∧ ∀ ev, enabled ctx G d v ev → ∃ d', run_event ctx d ev = Done d'.
Proof.
  intros Hn Hr. pose proof (honest_reachable_inv _ _ _ _ _ Hn Hr) as Hinv.
  split; [apply Hinv|]. intros ev Hen.
  destruct (event_ok ctx G byz (hn_universe _ _ _ Hn) (hn_own _ _ _ Hn) (hn_storable _ _ _ Hn)
    d v ev Hinv Hen) as (d' & Hrun & _). by exists d'.
Qed.

(** ** A concrete universe

    Four authorities, complete rounds 1 to 5. *)

(** A checker for [block_wf]. *)
Definition block_wfb (c : Committee) (b : VerifiedBlock) : bool :=
  Committee_is_valid_index c (vb_author b) && bool_decide (vb_round b < u32_max) &&
  bool_decide (vb_digest b ≤ BlockDigest_MAX) &&
  forallb (λ a, Committee_is_valid_index c (br_author a)) (vb_ancestors b) &&
  forallb (λ a, bool_decide (br_round a < vb_round b)) (vb_ancestors b) &&
  bool_decide (NoDup (br_author <$> vb_ancestors b)) &&
  (bool_decide (vb_round b = 0) || bool_decide (c_quorum_threshold c ≤ set_stake c (parents b))).

Lemma block_wfb_spec c b : block_wfb c b → block_wf c b.
Proof.
  unfold block_wfb. rewrite !andb_True, !forallb_True, orb_True, !bool_decide_spec.
  intros ((((((Ha & Hr) & Hd) & Hv) & Hlt) & Hnd) & Hq). split; try done.
  - intros a Hin. rewrite Forall_forall in Hlt. specialize (Hlt a Hin). simpl in Hlt.
    by rewrite bool_decide_spec in Hlt.
  - intros Hne. by destruct Hq.
Qed.

Definition grid_round (r : byte) : list VerifiedBlock :=
  store_test_block r <$> [Byte.x00; Byte.x01; Byte.x02; Byte.x03].
Definition grid_blocks : list VerifiedBlock :=
  dag_test_genesis ++ ([Byte.x01; Byte.x02; Byte.x03; Byte.x04; Byte.x05] ≫= grid_round).
Definition grid_universe (r : BlockRef) : option VerifiedBlock :=
  (list_to_map ((λ b, (vb_reference b, b)) <$> grid_blocks) : gmap BlockRef VerifiedBlock) !! r.
Definition grid_ctx : Context := test_context 4 2 5.

Lemma grid_checked : Forall (λ b,
    block_wfb (test_committee 4) b ∧ grid_universe (vb_reference b) = Some b ∧
    vb_reference b = test_ref (vb_round b) (N.of_nat (vb_author b)) ∧
    (vb_round b = 0 ∨ bcs_from_bytes (vb_serialized b) = Some (vb_signed b) ∧
       vb_digest b = default_hash (vb_serialized b))) grid_blocks.
Proof.
  repeat (apply Forall_cons; split;
    [split_and!; [by vm_compute|by vm_compute|by vm_compute|first [by left|right; by vm_compute]]|]).
  constructor.
Qed.

Lemma grid_elem r b : grid_universe r = Some b → b ∈ grid_blocks ∧ r = vb_reference b.
Proof. unfold grid_universe. by intros (b' & [= -> ->] & ?)%elem_of_list_to_map_2%list_elem_of_fmap. Qed.

Lemma grid_facts r b : grid_universe r = Some b →
  r = vb_reference b ∧ block_wf (test_committee 4) b ∧
  r = test_ref (br_round r) (N.of_nat (br_author r)) ∧
  (br_round r = 0 ∨ block_storable b).
Proof.
  intros [Hb ->]%grid_elem. pose proof grid_checked as Hall. rewrite Forall_forall in Hall.
  destruct (Hall b Hb) as (Hwf%block_wfb_spec & _ & Href & Hst). split_and!; [done..|].
  destruct Hst as [?|[? ?]]; [by left|right].
  split_and!; [done..|pose proof (wf_round _ _ Hwf); lia|apply Hwf].
Qed.

Lemma grid_universe_ok : universe_ok (test_committee 4) grid_universe {[3%nat]}.
Proof.
  split.
  - apply test_committee_ok.
  - by intros r b [-> _]%grid_facts.
  - by intros r b (_ & ? & _)%grid_facts.
  - intros r1 r2 b1 b2 (_ & _ & H1 & _)%grid_facts (_ & _ & H2 & _)%grid_facts _ Ha Hr.
    by rewrite H1, H2, Ha, Hr.
  - by vm_compute.
Qed.

Lemma grid_honest i : (i < 3)%nat → honest_node (S := RocksDBStore)
  (mk_context 0 i (test_committee 4) 5 (ctx_protocol_config grid_ctx)) grid_universe {[3%nat]}.
Proof.
  intros Hi. split.
  - apply grid_universe_ok.
  - simpl. intros ?%elem_of_singleton. lia.
  - intros r b (_ & _ & _ & [?|?])%grid_facts ?; done.
  - exists dag_test_genesis. split; [by vm_compute|]. intros b Hb.
    pose proof grid_checked as Hall. rewrite Forall_forall in Hall.
    apply Hall. apply elem_of_app. by left.
  - unfold valid_author, Committee_is_valid_index. simpl. rewrite bool_decide_spec.
    unfold Committee_size. simpl. lia.
  - done.
Qed.

(** A node that has accepted all blocks up to a round. *)
Definition grid_node (i : AuthorityIndex) : Context :=
  mk_context 0 i (test_committee 4) 5 (ctx_protocol_config grid_ctx).
Definition grid_fresh (i : AuthorityIndex) : DagState RocksDBStore :=
  fresh_dag (grid_node i) dag_test_genesis rocks_empty 0.
Definition grid_dag (i : AuthorityIndex) (rounds : list byte) : DagState RocksDBStore :=
  match accept_blocks (grid_node i) (grid_fresh i) (rounds ≫= grid_round) 0 with
  | Done d => d
  | _ => grid_fresh i
  end.

Definition known_ancestors (d : DagState RocksDBStore) (b : VerifiedBlock) : bool :=
  forallb (λ a, bool_decide (br_round a = 0) || bool_decide (is_Some (dag_lookup d view_empty a)))
    (vb_ancestors b).

(** Accepting blocks one by one, each after its ancestors. *)
Fixpoint accept_checked (ctx : Context) (d : DagState RocksDBStore) (bs : list VerifiedBlock) : bool :=
  match bs with
  | [] => true
  | b :: bs =>
      negb (bool_decide (vb_round b = 0)) && known_ancestors d b &&
      match accept_block ctx d b 0 with
      | Done d' => accept_checked ctx d' bs
      | _ => false
      end
  end.

Lemma accept_reachable ctx G d bs : reachable ctx G d view_empty →
  Forall (λ b, G (vb_reference b) = Some b) bs → accept_checked ctx d bs →
  ∃ d', accept_blocks ctx d bs 0 = Done d' ∧ reachable ctx G d' view_empty.
Proof.
  revert d. induction bs as [|b bs IH]; intros d Hr HG Hc; [by exists d|]. simpl in *.
  apply Forall_cons in HG as [Hb HG]. rewrite !andb_True in Hc. destruct Hc as [[Hrd Hk] Hc].
  rewrite negb_True, bool_decide_spec in Hrd.
  destruct (accept_block ctx d b 0) as [d'| |] eqn:Hrun; [|done..].
  unfold accept_blocks. simpl. rewrite Hrun. simpl. apply IH; [|done..].
  eapply (reach_event ctx G d view_empty (EvAccept b 0) d'); [done| |done].
  split_and!; [done..|]. intros a Ha Hgc. unfold known_ancestors in Hk.
  rewrite forallb_True, Forall_forall in Hk. specialize (Hk a Ha). simpl in Hk.
  rewrite orb_True, !bool_decide_spec in Hk. destruct Hk as [?|?]; [lia|done].
Qed.

Definition grid_early : list byte := [Byte.x01; Byte.x02; Byte.x03].
Definition grid_late : list byte := [Byte.x01; Byte.x02; Byte.x03; Byte.x04; Byte.x05].

Lemma grid_fresh_reachable i : (i < 3)%nat → reachable (grid_node i) grid_universe (grid_fresh i) view_empty.
Proof.
  intros Hi. apply (reach_new _ _ rocks_empty 0); [apply rocks_empty_rel|].
  apply (DagState_new_fresh (grid_node i)); [apply rocks_empty_rel|]. by vm_compute.
Qed.

Lemma grid_reachable i rounds : (i < 3)%nat →
  Forall (λ b, grid_universe (vb_reference b) = Some b) (rounds ≫= grid_round) →
  accept_checked (grid_node i) (grid_fresh i) (rounds ≫= grid_round) →
  reachable (grid_node i) grid_universe (grid_dag i rounds) view_empty.
Proof.
  intros Hi HG Hc. unfold grid_dag.
  by destruct (accept_reachable _ _ _ _ (grid_fresh_reachable i Hi) HG Hc) as (d' & -> & ?).
Qed.

Lemma grid_early_reachable : reachable (grid_node 0) grid_universe (grid_dag 0 grid_early) view_empty.
Proof. apply grid_reachable; [lia|vm_compute; by repeat constructor|by vm_compute]. Qed.
Lemma grid_late_reachable : reachable (grid_node 1) grid_universe (grid_dag 1 grid_late) view_empty.
Proof. apply grid_reachable; [lia|vm_compute; by repeat constructor|by vm_compute]. Qed.

Lemma reachable_dag_safe_witness :
  view_ok (grid_node 1) grid_universe (grid_dag 1 grid_late) view_empty ∧
  ∃ d', flush (grid_node 1) (grid_dag 1 grid_late) = Done d'.
Proof.
  destruct (reachable_dag_safe (grid_node 1) grid_universe {[3%nat]} (grid_dag 1 grid_late) view_empty
    (grid_honest 1 ltac:(lia)) grid_late_reachable) as [Hv Hev].
  split; [exact Hv|]. by apply (Hev EvFlush).
Defined.
