(* ===== verification/BlockManager.v ===== *)
(** * The block manager (consensus/core/src/block_manager.rs)

    Suspends blocks until their ancestors are accepted, releases them in
    causal order, and gives up on ancestors that fall below the GC round. *)
From S2P Require Import Prelude Committee StakeAggregator Block ThresholdClock Commit LeaderScoring Store DagState.

(** [struct SuspendedBlock]. *)
Record SuspendedBlock := mk_suspended {
  sus_block : VerifiedBlock;
  sus_missing_ancestors : gset BlockRef;
  sus_timestamp : N;
}.

(** [struct BlockManager]; the DAG state is threaded explicitly. *)
Record BlockManager := mk_block_manager {
  bm_suspended_blocks : gmap BlockRef SuspendedBlock;
  bm_missing_ancestors : gmap BlockRef (gset BlockRef);
  bm_missing_blocks : gset BlockRef;
  bm_received_block_rounds : list (option (Round * Round));
}.

(** [enum TryAcceptResult]. *)
Inductive TryAcceptResult :=
| Accepted (b : VerifiedBlock)
| Suspended (ancestors_to_fetch : gset BlockRef)
| Processed
| Skipped.

Definition set_suspended (m : gmap BlockRef SuspendedBlock) (bm : BlockManager) : BlockManager :=
  mk_block_manager m (bm_missing_ancestors bm) (bm_missing_blocks bm) (bm_received_block_rounds bm).
Definition set_missing_ancestors (m : gmap BlockRef (gset BlockRef)) (bm : BlockManager) : BlockManager :=
  mk_block_manager (bm_suspended_blocks bm) m (bm_missing_blocks bm) (bm_received_block_rounds bm).
Definition set_missing_blocks (X : gset BlockRef) (bm : BlockManager) : BlockManager :=
  mk_block_manager (bm_suspended_blocks bm) (bm_missing_ancestors bm) X (bm_received_block_rounds bm).
Definition set_received_block_rounds (l : list (option (Round * Round))) (bm : BlockManager)
    : BlockManager :=
  mk_block_manager (bm_suspended_blocks bm) (bm_missing_ancestors bm) (bm_missing_blocks bm) l.

Section block_manager.
Context {S : Type} `{Store S} (ctx : Context).
Implicit Types (d : DagState S) (bm : BlockManager).

(** [BlockManager::new]. *)
Definition BlockManager_new : BlockManager :=
  mk_block_manager ∅ ∅ ∅ (replicate (Committee_size (ctx_committee ctx)) None).

(** [update_block_received_metrics]. *)
Definition update_block_received_metrics bm (block : VerifiedBlock) : run BlockManager :=
  current ← vec_get (bm_received_block_rounds bm) (vb_author block);
  let rounds :=
    match current with
    | Some (curr_min, curr_max) => (N.min curr_min (vb_round block), N.max curr_max (vb_round block))
    | None => (vb_round block, vb_round block)
    end in
  rounds ← vec_set (bm_received_block_rounds bm) (vb_author block) (Some rounds);
  _ ← Committee_authority (ctx_committee ctx) (vb_author block);
  Done (set_received_block_rounds rounds bm).

(** The body of the loop of [try_accept_one_block] for a missing ancestor. *)
Definition add_missing_ancestor (block_ref : BlockRef)
    (st : BlockManager * gset BlockRef * gset BlockRef) (ancestor : BlockRef)
    : run (BlockManager * gset BlockRef * gset BlockRef) :=
  let '(bm, missing_ancestors, ancestors_to_fetch) := st in
  let missing_ancestors := {[ancestor]} ∪ missing_ancestors in
  let children := default ∅ (bm_missing_ancestors bm !! ancestor) in
  let bm := set_missing_ancestors
              (<[ancestor := {[block_ref]} ∪ children]> (bm_missing_ancestors bm)) bm in
  _ ← Committee_authority (ctx_committee ctx) (br_author ancestor);
  if bool_decide (is_Some (bm_suspended_blocks bm !! ancestor))
  then Done (bm, missing_ancestors, ancestors_to_fetch)
  else Done (set_missing_blocks ({[ancestor]} ∪ bm_missing_blocks bm) bm, missing_ancestors,
             {[ancestor]} ∪ ancestors_to_fetch).

(** [try_accept_one_block]. *)
Definition try_accept_one_block bm d (block : VerifiedBlock) (now : N)
    : run (BlockManager * TryAcceptResult) :=
  let block_ref := vb_reference block in
  let gc := gc_round ctx d in
  contained ← (if bool_decide (is_Some (bm_suspended_blocks bm !! block_ref)) then Done true
               else contains_block d block_ref);
  if (contained : bool) then Done (bm, Processed)
  else if bool_decide (vb_round block ≤ gc) then
    _ ← Committee_authority (ctx_committee ctx) (vb_author block);
    Done (bm, Skipped)
  else
    let ancestors := filter (λ a, br_round a = GENESIS_ROUND ∨ gc < br_round a) (vb_ancestors block) in
    found ← contains_blocks d ancestors;
    '(bm, missing_ancestors, ancestors_to_fetch) ←
      for_each (λ st '(found, ancestor),
          if (found : bool) then Done st else add_missing_ancestor block_ref st ancestor)
        (bm, ∅, ∅) (zip found ancestors);
    let bm := set_missing_blocks (bm_missing_blocks bm ∖ {[block_ref]}) bm in
    if bool_decide (missing_ancestors = ∅) then Done (bm, Accepted block)
    else
      _ ← Committee_authority (ctx_committee ctx) (vb_author block);
      Done (set_suspended (<[block_ref := mk_suspended block missing_ancestors now]>
                             (bm_suspended_blocks bm)) bm,
            Suspended ancestors_to_fetch).

(** [try_unsuspend_block]. *)
Definition try_unsuspend_block bm (block_ref accepted_dependency : BlockRef)
    : run (BlockManager * option SuspendedBlock) :=
  block ← expect (bm_suspended_blocks bm !! block_ref);
  assert! bool_decide (accepted_dependency ∈ sus_missing_ancestors block);
  let block := mk_suspended (sus_block block)
                 (sus_missing_ancestors block ∖ {[accepted_dependency]}) (sus_timestamp block) in
  if bool_decide (sus_missing_ancestors block = ∅)
  then Done (set_suspended (delete block_ref (bm_suspended_blocks bm)) bm, Some block)
  else Done (set_suspended (<[block_ref := block]> (bm_suspended_blocks bm)) bm, None).

(** [try_unsuspend_children_blocks]: the head of [to_process_blocks] is the
    top of the stack. *)
Fixpoint unsuspend_loop (fuel : nat) bm (to_process_blocks : list BlockRef)
    (unsuspended_blocks : list VerifiedBlock) : run (BlockManager * list VerifiedBlock) :=
  match to_process_blocks with
  | [] => Done (bm, unsuspended_blocks)
  | block_ref :: to_process_blocks =>
      match fuel with
      | O => NoFuel
      | Datatypes.S fuel =>
          let children := default ∅ (bm_missing_ancestors bm !! block_ref) in
          let bm := set_missing_ancestors (delete block_ref (bm_missing_ancestors bm)) bm in
          '(bm, to_process_blocks, unsuspended_blocks) ←
            for_each (λ '(bm, to_process_blocks, unsuspended_blocks) r,
                '(bm, unsuspended) ← try_unsuspend_block bm r block_ref;
                match unsuspended with
                | Some block =>
                    Done (bm, vb_reference (sus_block block) :: to_process_blocks,
                          unsuspended_blocks ++ [sus_block block])
                | None => Done (bm, to_process_blocks, unsuspended_blocks)
                end) (bm, to_process_blocks, unsuspended_blocks) (set_list children);
          unsuspend_loop fuel bm to_process_blocks unsuspended_blocks
      end
  end.

(** Every block is unsuspended at most once. *)
Definition try_unsuspend_children_blocks bm (accepted_block : BlockRef)
    : run (BlockManager * list VerifiedBlock) :=
  '(bm, blocks) ← unsuspend_loop (Datatypes.S (size (bm_suspended_blocks bm))) bm [accepted_block] [];
  _ ← for_each (λ _ b, _ ← Committee_authority (ctx_committee ctx) (vb_author b); Done tt) tt blocks;
  Done (bm, blocks).

(** [try_accept_one_committed_block]. *)
Definition try_accept_one_committed_block bm d (block : VerifiedBlock) (now : N)
    : run (BlockManager * DagState S * TryAcceptResult) :=
  let block_ref := vb_reference block in
  contained ← contains_block d block_ref;
  if (contained : bool) then Done (bm, d, Processed)
  else
    let bm := set_missing_blocks (bm_missing_blocks bm ∖ {[block_ref]}) bm in
    let bm :=
      match bm_suspended_blocks bm !! block_ref with
      | Some suspended_block =>
          let bm := set_suspended (delete block_ref (bm_suspended_blocks bm)) bm in
          set_missing_ancestors
            (foldr (λ ancestor m,
                match m !! ancestor with
                | Some references => <[ancestor := references ∖ {[block_ref]}]> m
                | None => m
                end) (bm_missing_ancestors bm)
               (reverse (set_list (sus_missing_ancestors suspended_block)))) bm
      | None => bm
      end in
    d ← accept_blocks ctx d [block] now;
    Done (bm, d, Accepted block).

(** The body of the loop of [try_accept_blocks_internal]. *)
Definition accept_or_suspend (committed : bool) (now : N)
    (st : BlockManager * DagState S * list VerifiedBlock * gset BlockRef) (block : VerifiedBlock)
    : run (BlockManager * DagState S * list VerifiedBlock * gset BlockRef) :=
  let '(bm, d, accepted_blocks, missing_blocks) := st in
  bm ← update_block_received_metrics bm block;
  let block_ref := vb_reference block in
  let finish bm d accepted_blocks blocks_to_accept :=
    '(bm, unsuspended_blocks) ← try_unsuspend_children_blocks bm block_ref;
    let blocks_to_accept := blocks_to_accept ++ unsuspended_blocks in
    d ← accept_blocks ctx d blocks_to_accept now;
    Done (bm, d, accepted_blocks ++ blocks_to_accept, missing_blocks) in
  if committed then
    '(bm, d, result) ← try_accept_one_committed_block bm d block now;
    match result with
    | Accepted block => finish bm d (accepted_blocks ++ [block]) []
    | Processed => Done (bm, d, accepted_blocks, missing_blocks)
    | Suspended _ | Skipped => Panic
    end
  else
    '(bm, result) ← try_accept_one_block bm d block now;
    match result with
    | Accepted block => finish bm d accepted_blocks [block]
    | Suspended ancestors_to_fetch =>
        Done (bm, d, accepted_blocks, missing_blocks ∪ ancestors_to_fetch)
    | Processed | Skipped => Done (bm, d, accepted_blocks, missing_blocks)
    end.

(** [try_accept_blocks_internal]. *)
Definition try_accept_blocks_internal bm d (blocks : list VerifiedBlock) (committed : bool) (now : N)
    : run (BlockManager * DagState S * list VerifiedBlock * gset BlockRef) :=
  for_each (accept_or_suspend committed now) (bm, d, [], ∅) (sort_by (by_key vb_round) blocks).

(** [try_accept_blocks], [try_accept_committed_blocks]. *)
Definition try_accept_blocks bm d (blocks : list VerifiedBlock) (now : N)
    : run (BlockManager * DagState S * list VerifiedBlock * gset BlockRef) :=
  try_accept_blocks_internal bm d blocks false now.
Definition try_accept_committed_blocks bm d (blocks : list VerifiedBlock) (now : N)
    : run (BlockManager * DagState S * list VerifiedBlock) :=
  '(bm, d, accepted_blocks, missing_blocks) ← try_accept_blocks_internal bm d blocks true now;
  assert! bool_decide (missing_blocks = ∅);
  Done (bm, d, accepted_blocks).

(** The body of the loop of [try_find_blocks]. *)
Definition request_missing (st : BlockManager * gset BlockRef) (entry : bool * BlockRef)
    : run (BlockManager * gset BlockRef) :=
  let '(bm, missing_blocks) := st in
  let '(found, block_ref) := entry in
  if found || bool_decide (is_Some (bm_suspended_blocks bm !! block_ref)) then Done (bm, missing_blocks)
  else
    let missing_blocks := {[block_ref]} ∪ missing_blocks in
    if bool_decide (block_ref ∈ bm_missing_blocks bm) then Done (bm, missing_blocks)
    else
      _ ← Committee_authority (ctx_committee ctx) (br_author block_ref);
      Done (set_missing_ancestors
              (<[block_ref := default ∅ (bm_missing_ancestors bm !! block_ref)]> (bm_missing_ancestors bm))
              (set_missing_blocks ({[block_ref]} ∪ bm_missing_blocks bm) bm), missing_blocks).

(** [try_find_blocks]. *)
Definition try_find_blocks bm d (block_refs : list BlockRef) : run (BlockManager * gset BlockRef) :=
  let block_refs := filter (λ r, gc_round ctx d < br_round r) block_refs in
  if bool_decide (block_refs = []) then Done (bm, ∅)
  else
    let block_refs := sort_by (by_key br_round) block_refs in
    found ← contains_blocks d block_refs;
    for_each request_missing (bm, ∅) (zip found block_refs).

(** [try_unsuspend_blocks_for_latest_gc_round]. *)
Fixpoint gc_loop (fuel : nat) (gc : Round) bm d (now : N) : run (BlockManager * DagState S) :=
  match map_first (bm_missing_ancestors bm) with
  | None => Done (bm, d)
  | Some (block_ref, _) =>
      if bool_decide (gc < br_round block_ref) then Done (bm, d)
      else
        match fuel with
        | O => NoFuel
        | Datatypes.S fuel =>
            _ ← Committee_authority (ctx_committee ctx) (br_author block_ref);
            assert! bool_decide (bm_suspended_blocks bm !! block_ref = None);
            let bm := set_missing_blocks (bm_missing_blocks bm ∖ {[block_ref]}) bm in
            '(bm, unsuspended_blocks) ← try_unsuspend_children_blocks bm block_ref;
            d ← accept_blocks ctx d unsuspended_blocks now;
            gc_loop fuel gc bm d now
        end
  end.
Definition try_unsuspend_blocks_for_latest_gc_round bm d (now : N)
    : run (BlockManager * DagState S) :=
  gc_loop (size (bm_missing_ancestors bm)) (gc_round ctx d) bm d now.

(** [missing_blocks]. *)
Definition missing_blocks bm : gset BlockRef := bm_missing_blocks bm.
End block_manager.
