(* ===== verification/BlockManagerProofs.v ===== *)
(** * Correctness of the block manager

    Blocks reach the DAG state in causal order, no assertion of the block
    manager can fail, and a block stays suspended only as long as an ancestor
    above the GC round is unknown. *)
From S2P Require Import Prelude Committee StakeAggregator Block ThresholdClock Commit LeaderScoring Store DagState DagStateProofs DagTraversal LeaderSchedule BaseCommitter CommitRule DagViews BlockManager.

Definition refs (bs : list VerifiedBlock) : list BlockRef := vb_reference <$> bs.
Definition children_of (bm : BlockManager) (a : BlockRef) : gset BlockRef :=
  default ∅ (bm_missing_ancestors bm !! a).

Section children.
Context (G : BlockRef → option VerifiedBlock) (c : Committee).
Context (known : BlockRef → Prop) (gc : Round).
Implicit Types (bm : BlockManager) (acc : list VerifiedBlock).

(** An ancestor that a block needs not wait for: known, about to be accepted,
    or below the GC round. *)
Definition resolved acc (a : BlockRef) : Prop := known a ∨ a ∈ refs acc ∨ br_round a ≤ gc.

(** Blocks in the order of their acceptance, each after its ancestors. *)
Definition causal acc : Prop :=
  NoDup (refs acc) ∧
  ∀ k b, acc !! k = Some b → G (vb_reference b) = Some b ∧ vb_round b ≠ 0 ∧ ¬ known (vb_reference b) ∧
    ∀ a, a ∈ vb_ancestors b → resolved (take k acc) a.

(** The state while the children [rest] of [ref] are visited. *)
Record children_inv bm (ref : BlockRef) (rest stack : list BlockRef) acc : Prop := {
  ci_susp X s : bm_suspended_blocks bm !! X = Some s →
    G X = Some (sus_block s) ∧ br_round X ≠ 0 ∧ ¬ known X ∧ X ∉ refs acc;
  ci_missing X s a : bm_suspended_blocks bm !! X = Some s → a ∈ sus_missing_ancestors s →
    a ∈ vb_ancestors (sus_block s) ∧ (X ∈ children_of bm a ∨ a = ref ∧ X ∈ rest);
  ci_nonempty X s : bm_suspended_blocks bm !! X = Some s → sus_missing_ancestors s ≠ ∅;
  ci_children a X : X ∈ children_of bm a →
    ∃ s, bm_suspended_blocks bm !! X = Some s ∧ a ∈ sus_missing_ancestors s;
  ci_rest X : X ∈ rest → ∃ s, bm_suspended_blocks bm !! X = Some s ∧ ref ∈ sus_missing_ancestors s;
  ci_nodup : NoDup rest;
  ci_ref : rest ≠ [] → children_of bm ref = ∅ ∧ resolved acc ref;
  ci_keys a : is_Some (bm_missing_ancestors bm !! a) →
    Committee_is_valid_index c (br_author a) ∧ (¬ known a ∧ a ∉ refs acc ∨ a ∈ stack);
  ci_resolved X s a : bm_suspended_blocks bm !! X = Some s → a ∈ vb_ancestors (sus_block s) →
    a ∈ sus_missing_ancestors s ∨ resolved acc a;
  ci_stack a : a ∈ stack → resolved acc a;
  ci_acc : causal acc;
  ci_missing_blocks r : r ∈ bm_missing_blocks bm ↔
    is_Some (bm_missing_ancestors bm !! r) ∧ bm_suspended_blocks bm !! r = None ∧ r ∉ stack;
}.

Lemma resolved_mono acc acc' a : acc `prefix_of` acc' → resolved acc a → resolved acc' a.
Proof.
  intros [l ->] [?|[Hin|?]]; [by left|right; left|by right; right].
  unfold refs in *. rewrite fmap_app. apply elem_of_app. by left.
Qed.

Lemma causal_snoc acc b : causal acc → G (vb_reference b) = Some b → vb_round b ≠ 0 →
  ¬ known (vb_reference b) → vb_reference b ∉ refs acc →
  (∀ a, a ∈ vb_ancestors b → resolved acc a) → causal (acc ++ [b]).
Proof.
  intros [Hnd Hc] Hb Hr Hk Hn Ha. split.
  - unfold refs. rewrite fmap_app. apply NoDup_app. split; [done|]. split; [|apply NoDup_singleton].
    intros x Hx ->%list_elem_of_singleton. by apply Hn.
  - intros k x Hx. apply lookup_app_Some in Hx as [Hx|[Hle Hx]].
    + pose proof (lookup_lt_Some _ _ _ Hx). rewrite take_app_le by lia. by apply Hc.
    + destruct (k - length acc)%nat eqn:Hk0; [|done]. injection Hx as <-.
      rewrite take_app_ge by lia. rewrite Hk0, app_nil_r. done.
Qed.

Lemma unsuspend_keep bm ref X rest stack acc s : children_inv bm ref (X :: rest) stack acc →
  bm_suspended_blocks bm !! X = Some s → sus_missing_ancestors s ∖ {[ref]} ≠ ∅ →
  children_inv (set_suspended (<[X := mk_suspended (sus_block s) (sus_missing_ancestors s ∖ {[ref]})
    (sus_timestamp s)]> (bm_suspended_blocks bm)) bm) ref rest stack acc.
Proof.
  intros Hinv Hs Hne. destruct (ci_ref _ _ _ _ _ Hinv ltac:(done)) as [Hempty Hres].
  pose proof (ci_nodup _ _ _ _ _ Hinv) as [HX Hnd]%NoDup_cons.
  assert (Hlk : ∀ Y t, <[X := mk_suspended (sus_block s) (sus_missing_ancestors s ∖ {[ref]})
      (sus_timestamp s)]> (bm_suspended_blocks bm) !! Y = Some t →
    ∃ t0, bm_suspended_blocks bm !! Y = Some t0 ∧ sus_block t = sus_block t0 ∧
      sus_missing_ancestors t = if decide (Y = X) then sus_missing_ancestors t0 ∖ {[ref]}
                                else sus_missing_ancestors t0).
  { intros Y t Ht. destruct (decide (Y = X)) as [->|HYX].
    - rewrite lookup_insert_eq in Ht. injection Ht as <-. by exists s.
    - rewrite lookup_insert_ne in Ht by done. by exists t. }
  split; simpl.
  - intros Y t (t0 & Ht0 & -> & _)%Hlk. by apply (ci_susp _ _ _ _ _ Hinv).
  - intros Y t a (t0 & Ht0 & -> & ->)%Hlk Ha.
    destruct (ci_missing _ _ _ _ _ Hinv Y t0 a Ht0) as [Hanc Hor]; [case_decide; set_solver|].
    split; [done|]. destruct Hor as [?|[-> [->|?]%elem_of_cons]]; [by left| |by right].
    rewrite decide_True in Ha by done. set_solver.
  - intros Y t (t0 & Ht0 & _ & ->)%Hlk. case_decide; [|by apply (ci_nonempty _ _ _ _ _ Hinv Y)].
    subst. by simplify_eq.
  - intros a Y HY. destruct (ci_children _ _ _ _ _ Hinv a Y HY) as (t & Ht & Ha).
    destruct (decide (Y = X)) as [->|HYX]; [|exists t; by rewrite lookup_insert_ne].
    eexists. rewrite lookup_insert_eq. split; [done|]. simpl. simplify_eq.
    apply elem_of_difference. split; [done|]. intros ->%elem_of_singleton.
    unfold children_of in HY, Hempty. simpl in HY. rewrite Hempty in HY. by apply elem_of_empty in HY.
  - intros Y HY. destruct (ci_rest _ _ _ _ _ Hinv Y) as (t & Ht & Ha); [by right|].
    exists t. rewrite lookup_insert_ne; [done|]. by intros <-.
  - done.
  - done.
  - apply (ci_keys _ _ _ _ _ Hinv).
  - intros Y t a (t0 & Ht0 & -> & ->)%Hlk Ha.
    destruct (ci_resolved _ _ _ _ _ Hinv Y t0 a Ht0 Ha) as [Hm|?]; [|by right].
    destruct (decide (a = ref)) as [->|Hne']; [by right|]. left. case_decide; set_solver.
  - apply (ci_stack _ _ _ _ _ Hinv).
  - apply (ci_acc _ _ _ _ _ Hinv).
  - intros r. rewrite (ci_missing_blocks _ _ _ _ _ Hinv r).
    destruct (decide (r = X)) as [->|HrX]; [|by rewrite lookup_insert_ne].
    rewrite lookup_insert_eq, Hs. naive_solver.
Qed.

Context (HG : ∀ r b, G r = Some b → vb_reference b = r).

Lemma unsuspend_release bm ref X rest stack acc s : children_inv bm ref (X :: rest) stack acc →
  bm_suspended_blocks bm !! X = Some s → sus_missing_ancestors s ∖ {[ref]} = ∅ →
  children_inv (set_suspended (delete X (bm_suspended_blocks bm)) bm) ref rest (X :: stack)
    (acc ++ [sus_block s]).
Proof using HG.
  intros Hinv Hs Hemp. destruct (ci_ref _ _ _ _ _ Hinv ltac:(done)) as [Hempty Hres].
  pose proof (ci_nodup _ _ _ _ _ Hinv) as [HX Hnd]%NoDup_cons.
  destruct (ci_susp _ _ _ _ _ Hinv X s Hs) as (HGX & HrX & HkX & HaX). pose proof (HG _ _ HGX) as Href.
  assert (Hrefs : refs (acc ++ [sus_block s]) = refs acc ++ [X])
    by (unfold refs; rewrite fmap_app; simpl; by rewrite Href).
  assert (Hmono : ∀ a, resolved acc a → resolved (acc ++ [sus_block s]) a)
    by (intros a; apply resolved_mono; by apply prefix_app_r).
  assert (Hin : ∀ a, a ∈ sus_missing_ancestors s → a = ref).
  { intros a Ha. destruct (decide (a = ref)) as [|Hne]; [done|].
    assert (a ∈ sus_missing_ancestors s ∖ {[ref]}) as Hbad by (clear -Ha Hne; set_solver).
    rewrite Hemp in Hbad. by apply elem_of_empty in Hbad. }
  split; simpl.
  - intros Y t [HYX Ht]%lookup_delete_Some. rewrite Hrefs, elem_of_app, list_elem_of_singleton.
    destruct (ci_susp _ _ _ _ _ Hinv Y t Ht) as (? & ? & ? & ?). split_and!; try done. naive_solver.
  - intros Y t a [HYX Ht]%lookup_delete_Some Ha.
    destruct (ci_missing _ _ _ _ _ Hinv Y t a Ht Ha) as [? [?|[? [?|?]%elem_of_cons]]]; naive_solver.
  - intros Y t [_ Ht]%lookup_delete_Some. by apply (ci_nonempty _ _ _ _ _ Hinv Y).
  - intros a Y HY. destruct (ci_children _ _ _ _ _ Hinv a Y HY) as (t & Ht & Ha).
    exists t. rewrite lookup_delete_ne; [done|]. intros <-. simplify_eq.
    rewrite (Hin a Ha) in HY. unfold children_of in HY, Hempty. simpl in HY. rewrite Hempty in HY. by apply elem_of_empty in HY.
  - intros Y HY. destruct (ci_rest _ _ _ _ _ Hinv Y) as (t & Ht & Ha); [by right|].
    exists t. rewrite lookup_delete_ne; [done|]. by intros <-.
  - done.
  - intros _. split; [done|]. by apply Hmono.
  - intros a Ha. destruct (ci_keys _ _ _ _ _ Hinv a Ha) as [? Hor]. split; [done|].
    rewrite Hrefs, elem_of_app, list_elem_of_singleton, elem_of_cons.
    destruct (decide (a = X)); [by auto|]. naive_solver.
  - intros Y t a [_ Ht]%lookup_delete_Some Ha.
    destruct (ci_resolved _ _ _ _ _ Hinv Y t a Ht Ha) as [?|?]; [by left|right; by apply Hmono].
  - intros a [->|Ha]%elem_of_cons; [|by apply Hmono, (ci_stack _ _ _ _ _ Hinv)].
    right; left. rewrite Hrefs. apply elem_of_app. right. by left.
  - apply causal_snoc; rewrite ?Href; [apply (ci_acc _ _ _ _ _ Hinv)|done| |done|done|].
    + rewrite <-Href in HrX. done.
    + intros a Ha. destruct (ci_resolved _ _ _ _ _ Hinv X s a Hs Ha) as [Hm|?]; [|done].
      by rewrite (Hin a Hm).
  - intros r. rewrite (ci_missing_blocks _ _ _ _ _ Hinv r), elem_of_cons.
    destruct (decide (r = X)) as [->|HrX']; [rewrite lookup_delete_eq, Hs|rewrite lookup_delete_ne by done];
      naive_solver.
Qed.

Lemma try_unsuspend_block_eq bm X ref s : bm_suspended_blocks bm !! X = Some s →
  ref ∈ sus_missing_ancestors s →
  let s' := mk_suspended (sus_block s) (sus_missing_ancestors s ∖ {[ref]}) (sus_timestamp s) in
  try_unsuspend_block bm X ref =
  if bool_decide (sus_missing_ancestors s ∖ {[ref]} = ∅)
  then Done (set_suspended (delete X (bm_suspended_blocks bm)) bm, Some s')
  else Done (set_suspended (<[X := s']> (bm_suspended_blocks bm)) bm, None).
Proof.
  intros Hs Href. unfold try_unsuspend_block. rewrite Hs. simpl. by rewrite bool_decide_eq_true_2 by done.
Qed.

(** What visiting children leaves alone. *)
Definition same_frame bm bm' : Prop :=
  bm_received_block_rounds bm' = bm_received_block_rounds bm ∧ bm_missing_blocks bm' = bm_missing_blocks bm.

(** The blocks that are suspended or released stay the same. *)
Definition same_waiting bm (uns : list VerifiedBlock) bm' (uns' : list VerifiedBlock) : Prop :=
  ∀ X, is_Some (bm_suspended_blocks bm !! X) ∨ X ∈ refs uns ↔
       is_Some (bm_suspended_blocks bm' !! X) ∨ X ∈ refs uns'.

Lemma waiting_release bm uns X s : bm_suspended_blocks bm !! X = Some s → vb_reference (sus_block s) = X →
  same_waiting bm uns (set_suspended (delete X (bm_suspended_blocks bm)) bm) (uns ++ [sus_block s]).
Proof.
  intros Hs Hr Y. unfold refs. rewrite fmap_app, elem_of_app. simpl. rewrite list_elem_of_singleton, Hr.
  destruct (decide (Y = X)) as [->|Hne].
  - rewrite Hs, lookup_delete_eq. naive_solver.
  - rewrite lookup_delete_ne by done. tauto.
Qed.

Lemma waiting_keep bm uns X s s' : bm_suspended_blocks bm !! X = Some s →
  same_waiting bm uns (set_suspended (<[X := s']> (bm_suspended_blocks bm)) bm) uns.
Proof.
  intros Hs Y. simpl. destruct (decide (Y = X)) as [->|Hne].
  - rewrite Hs, lookup_insert_eq. naive_solver.
  - by rewrite lookup_insert_ne.
Qed.

(** Visiting all children of an accepted or collected block. *)
Lemma visit_children bm ref rest stack pre unsuspended : children_inv bm ref rest stack (pre ++ unsuspended) →
  ∃ bm' stack' unsuspended',
    for_each (λ '(bm, to_process_blocks, unsuspended_blocks) r,
        '(bm, unsuspended) ← try_unsuspend_block bm r ref;
        match unsuspended with
        | Some block =>
            Done (bm, vb_reference (sus_block block) :: to_process_blocks,
                  unsuspended_blocks ++ [sus_block block])
        | None => Done (bm, to_process_blocks, unsuspended_blocks)
        end) (bm, stack, unsuspended) rest = Done (bm', stack', unsuspended') ∧
    children_inv bm' ref [] stack' (pre ++ unsuspended') ∧
    bm_missing_ancestors bm' = bm_missing_ancestors bm ∧ same_frame bm bm' ∧
    same_waiting bm unsuspended bm' unsuspended' ∧
    (length stack' + size (bm_suspended_blocks bm') = length stack + size (bm_suspended_blocks bm))%nat ∧
    stack ⊆ stack'.
Proof using HG.
  revert bm stack unsuspended. induction rest as [|X rest IH]; intros bm stack uns Hinv;
    [by exists bm, stack, uns; split_and!|].
  destruct (ci_rest _ _ _ _ _ Hinv X) as (s & Hs & Href); [by left|].
  rewrite for_each_cons, (try_unsuspend_block_eq bm X ref s Hs Href).
  case_bool_decide as Hemp; simpl.
  - pose proof (unsuspend_release _ _ _ _ _ _ _ Hinv Hs Hemp) as Hinv'. rewrite <-app_assoc in Hinv'.
    destruct (ci_susp _ _ _ _ _ Hinv X s Hs) as (HGX & _). rewrite (HG _ _ HGX).
    destruct (IH _ _ _ Hinv') as (bm' & stack' & uns' & -> & Hinv'' & Hma & Hrr & Hw & Hsz & Hst).
    exists bm', stack', uns'. split_and!; try done; [| |intros a Ha; apply Hst; by right].
    { intros Y. rewrite <-(Hw Y). by apply waiting_release, HG. }
    simpl in Hsz.
    assert (size (delete X (bm_suspended_blocks bm)) = pred (size (bm_suspended_blocks bm))) as Hd
      by (by apply map_size_delete_Some).
    assert (size (bm_suspended_blocks bm) ≠ 0%nat) by (apply map_size_ne_0_lookup; eauto). lia.
  - pose proof (unsuspend_keep _ _ _ _ _ _ _ Hinv Hs Hemp) as Hinv'.
    destruct (IH _ _ _ Hinv') as (bm' & stack' & uns' & -> & Hinv'' & Hma & Hrr & Hw & Hsz & Hst).
    exists bm', stack', uns'. split_and!; try done.
    { intros Y. rewrite <-(Hw Y). by apply (waiting_keep _ _ _ s). }
    simpl in Hsz.
    rewrite map_size_insert_Some in Hsz by eauto. done.
Qed.

Lemma children_pop bm r0 ref stack acc : children_inv bm r0 [] (ref :: stack) acc →
  children_inv (set_missing_ancestors (delete ref (bm_missing_ancestors bm)) bm) ref
    (set_list (children_of bm ref)) stack acc.
Proof.
  intros Hinv.
  assert (Hch : ∀ a, children_of (set_missing_ancestors (delete ref (bm_missing_ancestors bm)) bm) a =
            if decide (a = ref) then ∅ else children_of bm a).
  { intros a. unfold children_of. simpl. case_decide; [subst; by rewrite lookup_delete_eq|].
    by rewrite lookup_delete_ne. }
  split; simpl.
  - apply (ci_susp _ _ _ _ _ Hinv).
  - intros X s a Hs Ha. destruct (ci_missing _ _ _ _ _ Hinv X s a Hs Ha) as [? [Hin|[_ Hin]]];
      [|by apply elem_of_nil in Hin]. split; [done|]. rewrite Hch, elem_of_set_list.
    case_decide; [subst; by right|by left].
  - apply (ci_nonempty _ _ _ _ _ Hinv).
  - intros a X. rewrite Hch. case_decide; [by intros ?%elem_of_empty|apply (ci_children _ _ _ _ _ Hinv)].
  - intros X HX%elem_of_set_list. by apply (ci_children _ _ _ _ _ Hinv).
  - apply NoDup_set_list.
  - intros _. rewrite Hch, decide_True by done. split; [done|]. apply (ci_stack _ _ _ _ _ Hinv). by left.
  - intros a [x [Hne Hx]%lookup_delete_Some].
    destruct (ci_keys _ _ _ _ _ Hinv a) as [? [?|[->|?]%elem_of_cons]]; naive_solver.
  - apply (ci_resolved _ _ _ _ _ Hinv).
  - intros a Ha. apply (ci_stack _ _ _ _ _ Hinv). by right.
  - apply (ci_acc _ _ _ _ _ Hinv).
  - intros r. rewrite (ci_missing_blocks _ _ _ _ _ Hinv r), elem_of_cons.
    destruct (decide (r = ref)) as [->|Hne].
    + rewrite lookup_delete_eq. split; [naive_solver|]. intros ([? ?] & _). done.
    + rewrite lookup_delete_ne by done. naive_solver.
Qed.

Lemma unsuspend_loop_spec fuel bm r0 stack pre uns : children_inv bm r0 [] stack (pre ++ uns) →
  (length stack + size (bm_suspended_blocks bm) ≤ fuel)%nat →
  ∃ bm' r1 uns', unsuspend_loop fuel bm stack uns = Done (bm', uns') ∧
    children_inv bm' r1 [] [] (pre ++ uns') ∧ same_frame bm bm' ∧ same_waiting bm uns bm' uns' ∧
    ∀ a, is_Some (bm_missing_ancestors bm' !! a) → is_Some (bm_missing_ancestors bm !! a) ∧ a ∉ stack.
Proof using HG.
  revert bm r0 stack uns. induction fuel as [|fuel IH]; intros bm r0 stack uns Hinv Hf;
    (destruct stack as [|ref stack];
     [exists bm, r0, uns; split_and!; try done; intros a Ha; split; [done|apply not_elem_of_nil]|]).
  - simpl in Hf. lia.
  - simpl. pose proof (children_pop _ _ _ _ _ Hinv) as Hinv1. fold (children_of bm ref).
    destruct (visit_children _ _ _ _ _ _ Hinv1) as (bm2 & stack2 & uns2 & -> & Hinv2 & Hma & Hrr & Hw & Hsz & Hst).
    simpl in Hsz, Hf, Hma |- *.
    destruct (IH bm2 ref stack2 uns2 Hinv2) as (bm' & r1 & uns' & -> & Hinv' & Hrr' & Hw' & Hkeys); [lia|].
    exists bm', r1, uns'. split_and!; [done..| | |].
    { unfold same_frame in *. simpl in Hrr. destruct Hrr, Hrr'. split; congruence. }
    { intros Y. by rewrite <-(Hw' Y), <-(Hw Y). }
    intros a Ha. destruct (Hkeys a Ha) as [Hk Hn]. rewrite Hma in Hk.
    destruct Hk as [x [Hne Hx]%lookup_delete_Some]. split; [eauto|].
    intros [->|Hin]%elem_of_cons; [done|]. by apply Hn, Hst.
Qed.
End children.

(** ** Loops over the blocks that are not found *)

Lemma for_each_zip_filter {St A} (f : St → A → run St) (p : A → bool) st l :
  for_each (λ st '(found, x), if (found : bool) then Done st else f st x) st (zip (p <$> l) l) =
  for_each f st (filter (λ x, ¬ p x) l).
Proof.
  revert st. induction l as [|x l IH]; intros st; [done|]. csimpl. rewrite filter_cons.
  destruct (decide (¬ p x)) as [Hp|Hp]; destruct (p x); try (exfalso; simpl in Hp; tauto); [|apply IH].
  simpl. destruct (f st x); simpl; [apply IH|done..].
Qed.

Lemma valid_authority c a : Committee_is_valid_index c a → ∃ x, Committee_authority c a = Done x.
Proof.
  unfold Committee_is_valid_index, Committee_size, Committee_authority, vec_get. rewrite bool_decide_spec.
  intros [x ->]%lookup_lt_is_Some. by exists x.
Qed.

Section manager.
Context {S : Type} `{StoreLaws S} (ctx : Context) (G : BlockRef → option VerifiedBlock).
Context (byz : gset AuthorityIndex) (HU : universe_ok (ctx_committee ctx) G byz).
Context (Hown : ctx_own_index ctx ∉ byz) (v : StoreView).
Implicit Types (d : DagState S) (bm : BlockManager).
Abbreviation cm := (ctx_committee ctx).
Abbreviation no_ref := (mk_ref 0 0%nat 0).

Definition known d (r : BlockRef) : Prop := is_Some (dag_lookup d v r).
Abbreviation inv d := (children_inv G cm (known d) (gc_round ctx d)).

Lemma inv_no_ref d bm r r' stack acc : inv d bm r [] stack acc → inv d bm r' [] stack acc.
Proof.
  clear. intros Hinv. split; try apply Hinv; try done.
  - intros X s a Hs Ha. destruct (ci_missing _ _ _ _ _ _ _ _ _ Hinv X s a Hs Ha) as [? [?|[_ Hin]]];
      [by auto|by apply elem_of_nil in Hin].
  - by intros X ?%elem_of_nil.
Qed.

(** The blocks before the last one of a causal order. *)
Lemma causal_prefix (k : BlockRef → Prop) gc acc b : causal G k gc (acc ++ [b]) →
  causal G k gc acc ∧ G (vb_reference b) = Some b ∧ vb_round b ≠ 0 ∧
  ∀ a, a ∈ vb_ancestors b → resolved k gc acc a.
Proof.
  clear. intros [Hnd Hc]. split.
  - split; [unfold refs in *; rewrite fmap_app in Hnd; by apply NoDup_app in Hnd as [? _]|].
    intros j x Hx. pose proof (lookup_lt_Some _ _ _ Hx).
    destruct (Hc j x) as (? & ? & ? & Hres); [by apply lookup_app_l_Some|].
    by rewrite take_app_le in Hres by lia.
  - destruct (Hc (length acc) b) as (? & ? & _ & Hres); [by apply list_lookup_middle|].
    by rewrite take_app_length in Hres.
Qed.

(** Accepting blocks in causal order. *)
Lemma accept_causal d acc now : node_inv ctx G d v → causal G (known d) (gc_round ctx d) acc →
  ∃ d', accept_blocks ctx d acc now = Done d' ∧ node_inv ctx G d' v ∧
    gc_round ctx d' = gc_round ctx d ∧ ∀ r, known d' r ↔ known d r ∨ r ∈ refs acc.
Proof using HU Hown.
  intros Hinv. induction acc as [|b acc IH] using rev_ind; intros Hc.
  { exists d. split_and!; try done. intros r. split; [by left|]. intros [?|?%elem_of_nil]; done. }
  apply causal_prefix in Hc as (Hc & Hb & Hr & Hres).
  destruct (IH Hc) as (d1 & Hrun & Hinv1 & Hgc1 & Hk1).
  destruct (accept_block_view ctx G byz HU Hown d1 v b now Hinv1) as (d2 & Hrun2 & Hinv2 & Hlc & Hk2).
  { split_and!; [done..|]. intros a Ha Hga. rewrite Hgc1 in Hga. apply Hk1.
    destruct (Hres a Ha) as [?|[?|?]]; [by left|by right|lia]. }
  exists d2. unfold accept_blocks in *. rewrite for_each_app, Hrun. simpl. rewrite Hrun2. simpl.
  split_and!; [done..| |].
  - rewrite <-Hgc1. unfold gc_round, last_commit_round. by rewrite Hlc.
  - intros r. unfold known at 1. rewrite Hk2. fold (known d1 r). rewrite Hk1.
    unfold refs. rewrite fmap_app, elem_of_app. simpl. rewrite list_elem_of_singleton. tauto.
Qed.

(** Once the accepted blocks are in the DAG state. *)
Lemma inv_accepted d d' bm r acc : inv d bm r [] [] acc → gc_round ctx d' = gc_round ctx d →
  (∀ r, known d' r ↔ known d r ∨ r ∈ refs acc) → inv d' bm no_ref [] [] [].
Proof.
  clear. intros Hinv Hgc Hk.
  assert (Hres : ∀ a, resolved (known d) (gc_round ctx d) acc a →
                      resolved (known d') (gc_round ctx d') [] a).
  { intros a [?|[?|?]]; [left; apply Hk; auto..|right; right; by rewrite Hgc]. }
  split; try apply Hinv; try done.
  - intros X s Hs. destruct (ci_susp _ _ _ _ _ _ _ _ _ Hinv X s Hs) as (? & ? & ? & ?).
    split_and!; [done..| |apply not_elem_of_nil]. rewrite Hk. naive_solver.
  - intros X s a Hs Ha. destruct (ci_missing _ _ _ _ _ _ _ _ _ Hinv X s a Hs Ha) as [? [?|[_ Hin]]];
      [by auto|by apply elem_of_nil in Hin].
  - by intros X ?%elem_of_nil.
  - intros a Ha. destruct (ci_keys _ _ _ _ _ _ _ _ _ Hinv a Ha) as [? [[? ?]|Hin]];
      [|by apply elem_of_nil in Hin]. split; [done|]. left. rewrite Hk.
    split; [naive_solver|apply not_elem_of_nil].
  - intros X s a Hs Ha. destruct (ci_resolved _ _ _ _ _ _ _ _ _ Hinv X s a Hs Ha); auto.
  - by intros a ?%elem_of_nil.
  - split; [constructor|]. by intros k b ?.
Qed.

(** ** One block *)

(** The effect of recording the missing ancestors of a block. *)
Record missing_added bm (block_ref : BlockRef) (l : list BlockRef) bm' : Prop := {
  ma_susp : bm_suspended_blocks bm' = bm_suspended_blocks bm;
  ma_received : bm_received_block_rounds bm' = bm_received_block_rounds bm;
  ma_keys a : is_Some (bm_missing_ancestors bm' !! a) ↔ is_Some (bm_missing_ancestors bm !! a) ∨ a ∈ l;
  ma_children a X : X ∈ children_of bm' a ↔ X ∈ children_of bm a ∨ X = block_ref ∧ a ∈ l;
  ma_blocks r : r ∈ bm_missing_blocks bm' ↔
    r ∈ bm_missing_blocks bm ∨ r ∈ l ∧ bm_suspended_blocks bm !! r = None;
}.

Lemma add_missing_spec block_ref l bm M F :
  Forall (λ a, Committee_is_valid_index cm (br_author a)) l →
  ∃ bm' F', for_each (add_missing_ancestor ctx block_ref) (bm, M, F) l =
      Done (bm', list_to_set l ∪ M, F') ∧
    missing_added bm block_ref l bm' ∧
    ∀ r, r ∈ F' ↔ r ∈ F ∨ r ∈ l ∧ bm_suspended_blocks bm !! r = None.
Proof.
  clear HU Hown. revert bm M F. induction l as [|a l IH]; intros bm M F Hv.
  { exists bm, F. split; [simpl; do 3 f_equal; set_solver|].
    split; [split; intros; rewrite ?elem_of_nil; naive_solver|]. intros r. rewrite elem_of_nil. naive_solver. }
  apply Forall_cons in Hv as [Ha Hv]. destruct (valid_authority _ _ Ha) as [x Hx].
  rewrite for_each_cons. unfold add_missing_ancestor at 2. rewrite Hx. simpl.
  assert (Hch : ∀ m b X, X ∈ children_of (set_missing_ancestors
      (<[a := {[block_ref]} ∪ default ∅ (bm_missing_ancestors bm !! a)]> (bm_missing_ancestors bm)) m) b ↔
    X ∈ children_of bm b ∨ X = block_ref ∧ b = a).
  { intros m b X. unfold children_of. simpl. destruct (decide (b = a)) as [->|Hne].
    - rewrite lookup_insert_eq. simpl. rewrite elem_of_union, elem_of_singleton. tauto.
    - rewrite lookup_insert_ne by done. tauto. }
  case_bool_decide as Hs; simpl.
  - destruct (IH (set_missing_ancestors (<[a := {[block_ref]} ∪ default ∅ (bm_missing_ancestors bm !! a)]>
      (bm_missing_ancestors bm)) bm) ({[a]} ∪ M) F Hv) as (bm' & F' & -> & Hma & HF).
    exists bm', F'. split; [do 3 f_equal; simpl; set_solver|]. split; [split|].
    + apply Hma.
    + apply Hma.
    + intros b. rewrite (ma_keys _ _ _ _ Hma), elem_of_cons. simpl.
      rewrite lookup_insert_is_Some. destruct (decide (b = a)); naive_solver.
    + intros b X. rewrite (ma_children _ _ _ _ Hma), elem_of_cons, Hch. tauto.
    + intros r. rewrite (ma_blocks _ _ _ _ Hma), elem_of_cons. simpl.
      split; [naive_solver|]. intros [?|[[->|?] Hn]]; [by left| |by right].
      rewrite Hn in Hs. by destruct Hs.
    + intros r. rewrite HF, elem_of_cons. simpl. split; [naive_solver|].
      intros [?|[[->|?] Hn]]; [by left| |by right]. rewrite Hn in Hs. by destruct Hs.
  - apply eq_None_not_Some in Hs. simpl in Hs.
    destruct (IH (set_missing_blocks ({[a]} ∪ bm_missing_blocks bm) (set_missing_ancestors
      (<[a := {[block_ref]} ∪ default ∅ (bm_missing_ancestors bm !! a)]> (bm_missing_ancestors bm)) bm))
      ({[a]} ∪ M) ({[a]} ∪ F) Hv) as (bm' & F' & Hrun & Hma & HF).
    simpl in Hrun. rewrite Hrun.
    exists bm', F'. split; [do 3 f_equal; simpl; set_solver|]. split; [split|].
    + apply Hma.
    + apply Hma.
    + intros b. rewrite (ma_keys _ _ _ _ Hma), elem_of_cons. simpl.
      rewrite lookup_insert_is_Some. destruct (decide (b = a)); naive_solver.
    + intros b X. rewrite (ma_children _ _ _ _ Hma), elem_of_cons. setoid_rewrite (Hch bm b X). tauto.
    + intros r. rewrite (ma_blocks _ _ _ _ Hma), elem_of_cons. simpl.
      rewrite elem_of_union, elem_of_singleton. naive_solver.
    + intros r. rewrite HF, elem_of_cons. simpl. rewrite elem_of_union, elem_of_singleton. naive_solver.
Qed.

(** The invariant between operations. *)
Record bm_inv bm d : Prop := {
  bi_inv : inv d bm no_ref [] [] [];
  bi_received : length (bm_received_block_rounds bm) = Committee_size cm;
}.

(** A block that starts to wait for the ancestors [l]. *)
Lemma inv_suspend d bm bm' block l now : inv d bm no_ref [] [] [] →
  missing_added bm (vb_reference block) l bm' →
  G (vb_reference block) = Some block → vb_round block ≠ 0 → ¬ known d (vb_reference block) →
  bm_suspended_blocks bm !! vb_reference block = None → l ≠ [] →
  (∀ a, a ∈ l → a ∈ vb_ancestors block ∧ ¬ known d a) →
  (∀ a, a ∈ vb_ancestors block → a ∈ l ∨ resolved (known d) (gc_round ctx d) [] a) →
  inv d (set_suspended (<[vb_reference block := mk_suspended block (list_to_set l) now]>
           (bm_suspended_blocks bm'))
         (set_missing_blocks (bm_missing_blocks bm' ∖ {[vb_reference block]}) bm')) no_ref [] [] [].
Proof using HU.
  clear Hown. intros Hinv Hma HGb Hr Hk Hs Hne Hl Hres. set (X := vb_reference block) in *.
  pose proof (u_wf _ _ _ HU _ _ HGb) as Hwf. pose proof (wf_ancestors _ _ Hwf) as Hval.
  rewrite Forall_forall in Hval.
  assert (HXl : X ∉ l).
  { intros Hin. destruct (Hl X Hin) as [Ha _]. apply (wf_rounds _ _ Hwf) in Ha. simpl in Ha. lia. }
  assert (Hch : ∀ a Y, Y ∈ children_of (set_suspended (<[X := mk_suspended block (list_to_set l) now]>
      (bm_suspended_blocks bm')) (set_missing_blocks (bm_missing_blocks bm' ∖ {[X]}) bm')) a ↔
    Y ∈ children_of bm a ∨ Y = X ∧ a ∈ l) by (intros a Y; apply (ma_children _ _ _ _ Hma)).
  split; simpl; rewrite ?(ma_susp _ _ _ _ Hma).
  - intros Y t. destruct (decide (Y = X)) as [->|HYX].
    + rewrite lookup_insert_eq. intros [= <-]. split_and!; try done; apply not_elem_of_nil.
    + rewrite lookup_insert_ne by done. apply (ci_susp _ _ _ _ _ _ _ _ _ Hinv).
  - intros Y t a. destruct (decide (Y = X)) as [->|HYX].
    + rewrite lookup_insert_eq. intros [= <-] Ha%elem_of_list_to_set. split; [by apply Hl|].
      left. apply Hch. by right.
    + rewrite lookup_insert_ne by done. intros Ht Ha.
      destruct (ci_missing _ _ _ _ _ _ _ _ _ Hinv Y t a Ht Ha) as [? [?|[_ Hin]]];
        [split; [done|]; left; apply Hch; by left|by apply elem_of_nil in Hin].
  - intros Y t. destruct (decide (Y = X)) as [->|HYX].
    + rewrite lookup_insert_eq. intros [= <-]. simpl. destruct l as [|a l]; [done|]. set_solver.
    + rewrite lookup_insert_ne by done. apply (ci_nonempty _ _ _ _ _ _ _ _ _ Hinv).
  - intros a Y [HY|[-> Ha]]%Hch.
    + destruct (ci_children _ _ _ _ _ _ _ _ _ Hinv a Y HY) as (t & Ht & Ha).
      exists t. rewrite lookup_insert_ne; [done|]. intros <-. congruence.
    + eexists. rewrite lookup_insert_eq. split; [done|]. by apply elem_of_list_to_set.
  - by intros Y ?%elem_of_nil.
  - constructor.
  - done.
  - intros a Ha%(ma_keys _ _ _ _ Hma). destruct Ha as [Ha|Ha].
    + apply (ci_keys _ _ _ _ _ _ _ _ _ Hinv a Ha).
    + destruct (Hl a Ha) as [Hanc Hnk]. split; [by apply Hval|]. left. split; [done|apply not_elem_of_nil].
  - intros Y t a. destruct (decide (Y = X)) as [->|HYX].
    + rewrite lookup_insert_eq. intros [= <-] Ha. simpl. rewrite elem_of_list_to_set. by apply Hres.
    + rewrite lookup_insert_ne by done. apply (ci_resolved _ _ _ _ _ _ _ _ _ Hinv).
  - by intros a ?%elem_of_nil.
  - apply (ci_acc _ _ _ _ _ _ _ _ _ Hinv).
  - intros r. rewrite elem_of_difference, elem_of_singleton, (ma_blocks _ _ _ _ Hma),
      (ci_missing_blocks _ _ _ _ _ _ _ _ _ Hinv), (ma_keys _ _ _ _ Hma).
    destruct (decide (r = X)) as [->|HrX].
    + rewrite lookup_insert_eq. split; [by intros [_ []]|by intros (_ & [=] & _)].
    + rewrite lookup_insert_ne, elem_of_nil by done. clear -HrX. tauto.
Qed.

(** The state without a trace of [ref] as a suspended or missing block. *)
Record detached bm (ref : BlockRef) bm1 : Prop := {
  de_susp : bm_suspended_blocks bm1 = delete ref (bm_suspended_blocks bm);
  de_keys a : is_Some (bm_missing_ancestors bm1 !! a) ↔ is_Some (bm_missing_ancestors bm !! a);
  de_children a X : X ∈ children_of bm1 a ↔ X ∈ children_of bm a ∧ X ≠ ref;
  de_blocks : bm_missing_blocks bm1 = bm_missing_blocks bm ∖ {[ref]};
}.

Lemma detached_fresh d bm ref : inv d bm no_ref [] [] [] → bm_suspended_blocks bm !! ref = None →
  detached bm ref (set_missing_blocks (bm_missing_blocks bm ∖ {[ref]}) bm).
Proof.
  clear. intros Hinv Hs. split; simpl; try done.
  - by rewrite delete_id.
  - intros a X. split; [|by intros [? _]]. intros HX. split; [done|]. intros ->.
    destruct (ci_children _ _ _ _ _ _ _ _ _ Hinv a ref HX) as (s & ? & _). congruence.
Qed.

(** A block whose ancestors are all there. *)
Lemma inv_accept d bm bm1 block : inv d bm no_ref [] [] [] → detached bm (vb_reference block) bm1 →
  G (vb_reference block) = Some block → vb_round block ≠ 0 → ¬ known d (vb_reference block) →
  (∀ a, a ∈ vb_ancestors block → resolved (known d) (gc_round ctx d) [] a) →
  inv d bm1 no_ref [] [vb_reference block] [block].
Proof.
  clear. intros Hinv Hde HGb Hr Hk Hres.
  assert (Hmono : ∀ a, resolved (known d) (gc_round ctx d) [] a → resolved (known d) (gc_round ctx d) [block] a)
    by (intros a; apply resolved_mono, prefix_nil).
  assert (Hin : ∀ a, a ∈ refs [block] ↔ a = vb_reference block) by (intros a; apply list_elem_of_singleton).
  assert (Hlk : ∀ X s, bm_suspended_blocks bm1 !! X = Some s →
    bm_suspended_blocks bm !! X = Some s ∧ X ≠ vb_reference block).
  { intros X s. rewrite (de_susp _ _ _ Hde). by intros [? ?]%lookup_delete_Some. }
  split.
  - intros X s [HX Hne]%Hlk. rewrite Hin. by destruct (ci_susp _ _ _ _ _ _ _ _ _ Hinv X s HX) as (? & ? & ? & ?).
  - intros X s a [HX Hne]%Hlk Ha. destruct (ci_missing _ _ _ _ _ _ _ _ _ Hinv X s a HX Ha) as [? [?|[_ Hn]]];
      [|by apply elem_of_nil in Hn]. split; [done|]. left. by apply (de_children _ _ _ Hde).
  - intros X s [HX _]%Hlk. by apply (ci_nonempty _ _ _ _ _ _ _ _ _ Hinv X).
  - intros a X [HX Hne]%(de_children _ _ _ Hde).
    destruct (ci_children _ _ _ _ _ _ _ _ _ Hinv a X HX) as (s & Hs & Ha).
    exists s. rewrite (de_susp _ _ _ Hde). by rewrite lookup_delete_ne.
  - by intros X ?%elem_of_nil.
  - constructor.
  - done.
  - intros a Ha%(de_keys _ _ _ Hde).
    destruct (ci_keys _ _ _ _ _ _ _ _ _ Hinv a Ha) as [? [[? _]|Hn]]; [|by apply elem_of_nil in Hn].
    split; [done|]. rewrite !Hin, ?list_elem_of_singleton.
    destruct (decide (a = vb_reference block)); [by right|by left].
  - intros X s a [HX _]%Hlk Ha. destruct (ci_resolved _ _ _ _ _ _ _ _ _ Hinv X s a HX Ha); auto.
  - intros a ->%list_elem_of_singleton. right; left. by apply Hin.
  - apply (causal_snoc _ _ _ []); try done; [apply (ci_acc _ _ _ _ _ _ _ _ _ Hinv)|apply not_elem_of_nil].
  - intros r. rewrite (de_blocks _ _ _ Hde), (de_keys _ _ _ Hde), (de_susp _ _ _ Hde), elem_of_difference,
      elem_of_singleton, (ci_missing_blocks _ _ _ _ _ _ _ _ _ Hinv), list_elem_of_singleton, elem_of_nil.
    destruct (decide (r = vb_reference block)); [tauto|]. rewrite lookup_delete_ne by done. tauto.
Qed.

Lemma resolved_dropped d block a : a ∈ vb_ancestors block →
  a ∉ filter (λ a, br_round a = GENESIS_ROUND ∨ gc_round ctx d < br_round a) (vb_ancestors block) →
  resolved (known d) (gc_round ctx d) [] a.
Proof.
  clear. intros Ha Hn. right; right. apply N.nlt_ge. intros Hlt. apply Hn, list_elem_of_filter. auto.
Qed.

(** [try_accept_one_block] never panics; a block is handed out for acceptance
    when all its ancestors above the GC round are known, and waits otherwise. *)
Lemma try_accept_one_spec bm d block now : node_inv ctx G d v → inv d bm no_ref [] [] [] →
  G (vb_reference block) = Some block → vb_round block ≠ 0 →
  ∃ bm' res, try_accept_one_block ctx bm d block now = Done (bm', res) ∧
    bm_received_block_rounds bm' = bm_received_block_rounds bm ∧
    (∀ r, r ≠ vb_reference block → r ∈ bm_missing_blocks bm → r ∈ bm_missing_blocks bm') ∧
    match res with
    | Accepted b => b = block ∧ bm_suspended_blocks bm' = bm_suspended_blocks bm ∧
        inv d bm' no_ref [] [vb_reference block] [block]
    | Suspended F => inv d bm' no_ref [] [] [] ∧
        is_Some (bm_suspended_blocks bm' !! vb_reference block) ∧
        (∀ X, X ≠ vb_reference block → bm_suspended_blocks bm' !! X = bm_suspended_blocks bm !! X) ∧
        F ⊆ bm_missing_blocks bm' ∧ (∀ r, r ∈ F → r ∈ vb_ancestors block)
    | Processed => bm' = bm ∧
        (is_Some (bm_suspended_blocks bm !! vb_reference block) ∨ known d (vb_reference block))
    | Skipped => bm' = bm ∧ vb_round block ≤ gc_round ctx d
    end.
Proof using HU.
  clear Hown. intros Hni Hinv HGb Hr. pose proof (u_wf _ _ _ HU _ _ HGb) as Hwf.
  destruct (valid_authority _ _ (wf_author _ _ Hwf)) as [x Hx].
  pose proof (vo_inv _ _ _ _ (ni_view _ _ _ _ Hni)) as Hdi.
  unfold try_accept_one_block. destruct (bool_decide_reflect (is_Some (bm_suspended_blocks bm !! vb_reference block)))
    as [Hs|Hs]; [exists bm, Processed; split_and!; by auto|].
  rewrite (contains_block_spec ctx d v) by (done || apply Hwf). cbn [mbind run_bind].
  destruct (bool_decide_reflect (is_Some (dag_lookup d v (vb_reference block)))) as [Hk|Hk];
    [exists bm, Processed; split_and!; by auto|].
  destruct (bool_decide_reflect (vb_round block ≤ gc_round ctx d)) as [Hg|Hg];
    [exists bm, Skipped; rewrite Hx; split_and!; by auto|].
  apply eq_None_not_Some in Hs.
  set (ancestors := filter _ (vb_ancestors block)).
  assert (Hval : Forall (λ a, Committee_is_valid_index cm (br_author a)) ancestors)
    by (apply Forall_filter, Hwf).
  rewrite (contains_blocks_spec ctx d v) by done. cbn [mbind run_bind].
  rewrite for_each_zip_filter. set (l := filter _ ancestors).
  assert (Hl : ∀ a, a ∈ l → a ∈ vb_ancestors block ∧ ¬ known d a).
  { intros a [Hn Ha]%list_elem_of_filter. apply list_elem_of_filter in Ha as [_ Ha].
    split; [done|]. intros Hka. apply Hn. by apply bool_decide_pack. }
  assert (Hres : ∀ a, a ∈ vb_ancestors block → a ∈ l ∨ resolved (known d) (gc_round ctx d) [] a).
  { intros a Ha. destruct (decide (a ∈ ancestors)) as [Hin|Hn]; [|right; by apply (resolved_dropped d block)].
    destruct (decide (a ∈ l)) as [|Hnl]; [by left|]. right; left.
    destruct (bool_decide_reflect (known d a)) as [|Hka]; [done|]. destruct Hnl.
    apply list_elem_of_filter. split; [|done]. intros Hb. by apply bool_decide_unpack in Hb. }
  destruct (decide (l = [])) as [Hl0|Hl0].
  - rewrite Hl0. simpl. rewrite bool_decide_true by done. eexists _, _. split; [done|]. split; [done|].
    split; [simpl; set_solver|]. split; [done|]. split; [done|].
    apply inv_accept with bm; try done; [by apply (detached_fresh d)|]. intros a Ha.
    destruct (Hres a Ha) as [Hin|]; [|done]. rewrite Hl0 in Hin. by apply elem_of_nil in Hin.
  - destruct (add_missing_spec (vb_reference block) l bm ∅ ∅) as (bm1 & F & -> & Hma & HF);
      [by apply Forall_filter|].
    simpl. rewrite bool_decide_false, Hx.
    2:{ intros He. destruct l as [|a l']; [done|]. assert (a ∈ (∅ : gset BlockRef)) as Hbad
          by (rewrite <-He; simpl; set_solver). by apply elem_of_empty in Hbad. }
    simpl. eexists _, _. split; [done|]. split; [apply Hma|]. rewrite (right_id_L ∅ (∪)). split_and!.
    + simpl. intros r Hne Hr0. apply elem_of_difference. split; [apply (ma_blocks _ _ _ _ Hma); by left|].
      by intros ?%elem_of_singleton.
    + by apply inv_suspend with bm.
    + simpl. rewrite lookup_insert_eq. eauto.
    + intros X HX. simpl. rewrite lookup_insert_ne by done. by rewrite (ma_susp _ _ _ _ Hma).
    + simpl. intros r [?%elem_of_empty|[Hin Hn]]%HF; [done|]. apply elem_of_difference. split.
      * apply (ma_blocks _ _ _ _ Hma). by right.
      * intros ->%elem_of_singleton. apply Hl in Hin as [Hin _]. apply (wf_rounds _ _ Hwf) in Hin.
        simpl in Hin. lia.
    + intros r [?%elem_of_empty|[Hin Hn]]%HF; [done|]. by apply Hl.
Qed.

(** ** Releasing the children of an accepted block *)

(** The blocks [pre] are on their way to the DAG state, [ref] is on the stack:
    its children are visited and everything is accepted. *)
Lemma release_spec bm d ref pre now : node_inv ctx G d v → inv d bm no_ref [] [ref] pre →
  ∃ bm' d' uns, try_unsuspend_children_blocks ctx bm ref = Done (bm', uns) ∧
    accept_blocks ctx d (pre ++ uns) now = Done d' ∧ node_inv ctx G d' v ∧
    inv d' bm' no_ref [] [] [] ∧ same_frame bm bm' ∧ same_waiting bm [] bm' uns ∧ gc_round ctx d' = gc_round ctx d ∧
    causal G (known d) (gc_round ctx d) (pre ++ uns) ∧
    (∀ r, known d' r ↔ known d r ∨ r ∈ refs (pre ++ uns)) ∧
    (∀ a, is_Some (bm_missing_ancestors bm' !! a) → is_Some (bm_missing_ancestors bm !! a) ∧ a ≠ ref).
Proof using HU Hown.
  intros Hni Hinv. unfold try_unsuspend_children_blocks. rewrite <-(app_nil_r pre) in Hinv.
  destruct (unsuspend_loop_spec _ _ _ _ (u_reference _ _ _ HU)
    (Datatypes.S (size (bm_suspended_blocks bm))) _ _ _ _ _ Hinv)
    as (bm' & r1 & uns & -> & Hinv' & Hfr & Hw & Hkeys); [simpl; lia|].
  pose proof (ci_acc _ _ _ _ _ _ _ _ _ Hinv') as Hc. cbn [mbind run_bind].
  destruct (for_each_total (λ _ : unit, True) (λ _ b, _ ← Committee_authority cm (vb_author b); Done tt) tt uns)
    as (? & -> & _); [done| |].
  { intros _ b Hb _. destruct Hc as [_ Hc]. apply list_elem_of_lookup in Hb as [k Hk].
    destruct (Hc (length pre + k)%nat b) as (HGb & _).
    { rewrite lookup_app_r by lia. by replace (length pre + k - length pre)%nat with k by lia. }
    destruct (valid_authority _ _ (wf_author _ _ (u_wf _ _ _ HU _ _ HGb))) as [x ->]. by exists tt. }
  destruct (accept_causal d (pre ++ uns) now Hni Hc) as (d' & Hrun & Hni' & Hgc & Hk).
  exists bm', d', uns. split_and!; try done.
  - by apply (inv_accepted d d' bm' r1 (pre ++ uns)).
  - intros a Ha. destruct (Hkeys a Ha) as [? Hn]. split; [done|]. intros ->. apply Hn. by left.
Qed.

(** ** Sequences of blocks *)

(** What handling [blocks] does: the accepted blocks go to the DAG state in
    causal order, nothing that waits is lost, nothing is made up. *)
Record progress (now : N) bm d (blocks : list VerifiedBlock) bm' d' (acc : list VerifiedBlock) : Prop := {
  pr_accept : accept_blocks ctx d acc now = Done d';
  pr_causal : causal G (known d) (gc_round ctx d) acc;
  pr_node : node_inv ctx G d' v;
  pr_inv : bm_inv bm' d';
  pr_gc : gc_round ctx d' = gc_round ctx d;
  pr_known r : known d' r ↔ known d r ∨ r ∈ refs acc;
  pr_waiting X : is_Some (bm_suspended_blocks bm !! X) →
    is_Some (bm_suspended_blocks bm' !! X) ∨ X ∈ refs acc;
  pr_origin X : is_Some (bm_suspended_blocks bm' !! X) ∨ X ∈ refs acc →
    is_Some (bm_suspended_blocks bm !! X) ∨ X ∈ refs blocks;
  pr_blocks b : b ∈ blocks → known d' (vb_reference b) ∨
    is_Some (bm_suspended_blocks bm' !! vb_reference b) ∨ vb_round b ≤ gc_round ctx d;
}.

Lemma refs_app l1 l2 : refs (l1 ++ l2) = refs l1 ++ refs l2.
Proof. clear. apply fmap_app. Qed.

Lemma causal_app (k k' : BlockRef → Prop) gc l1 l2 : causal G k gc l1 → causal G k' gc l2 →
  (∀ r, k' r ↔ k r ∨ r ∈ refs l1) → causal G k gc (l1 ++ l2).
Proof.
  clear. intros [Hnd1 H1] [Hnd2 H2] Hk. split.
  - rewrite refs_app. apply NoDup_app. split; [done|]. split; [|done]. intros r Hr1 Hr2.
    apply list_elem_of_fmap in Hr2 as (b & -> & [i Hi]%list_elem_of_lookup).
    destruct (H2 i b Hi) as (_ & _ & Hn & _). apply Hn, Hk. by right.
  - intros i b [Hi|[Hle Hi]]%lookup_app_Some.
    + pose proof (lookup_lt_Some _ _ _ Hi). rewrite take_app_le by lia. by apply H1.
    + rewrite take_app_ge by lia. destruct (H2 _ b Hi) as (? & ? & Hn & Hres).
      split_and!; [done..|rewrite Hk in Hn; tauto|]. intros a Ha.
      unfold resolved. rewrite refs_app, elem_of_app.
      destruct (Hres a Ha) as [Hka|[?|?]]; [|tauto..]. apply Hk in Hka. tauto.
Qed.

Lemma progress_refl now bm d : node_inv ctx G d v → bm_inv bm d → progress now bm d [] bm d [].
Proof.
  clear. intros Hni Hinv. split; try done; try tauto.
  - apply Hinv.
  - intros r. rewrite elem_of_nil. tauto.
  - intros b ?%elem_of_nil. done.
Qed.

Lemma progress_trans now bm d l1 bm1 d1 acc1 l2 bm2 d2 acc2 : progress now bm d l1 bm1 d1 acc1 →
  progress now bm1 d1 l2 bm2 d2 acc2 → progress now bm d (l1 ++ l2) bm2 d2 (acc1 ++ acc2).
Proof.
  clear. intros H1 H2. split.
  - unfold accept_blocks in *. rewrite for_each_app. fold (accept_blocks ctx d acc1 now).
    rewrite (pr_accept _ _ _ _ _ _ _ H1). apply (pr_accept _ _ _ _ _ _ _ H2).
  - apply (causal_app _ (known d1)); [apply H1| |apply H1].
    rewrite <-(pr_gc _ _ _ _ _ _ _ H1). apply H2.
  - apply H2.
  - apply H2.
  - rewrite (pr_gc _ _ _ _ _ _ _ H2). apply H1.
  - intros r. rewrite (pr_known _ _ _ _ _ _ _ H2), (pr_known _ _ _ _ _ _ _ H1), refs_app, elem_of_app. tauto.
  - intros X HX. rewrite refs_app, elem_of_app.
    destruct (pr_waiting _ _ _ _ _ _ _ H1 X HX) as [HX1|?]; [|tauto].
    destruct (pr_waiting _ _ _ _ _ _ _ H2 X HX1); tauto.
  - intros X HX. rewrite refs_app, elem_of_app in HX |- *.
    pose proof (pr_origin _ _ _ _ _ _ _ H1 X). pose proof (pr_origin _ _ _ _ _ _ _ H2 X). tauto.
  - intros b Hb. apply elem_of_app in Hb as [Hb|Hb].
    + rewrite (pr_known _ _ _ _ _ _ _ H2).
      destruct (pr_blocks _ _ _ _ _ _ _ H1 b Hb) as [?|[HX|?]]; [tauto| |tauto].
      destruct (pr_waiting _ _ _ _ _ _ _ H2 _ HX); tauto.
    + rewrite <-(pr_gc _ _ _ _ _ _ _ H1). by apply (pr_blocks _ _ _ _ _ _ _ H2).
Qed.

Lemma received_spec bm block : length (bm_received_block_rounds bm) = Committee_size cm →
  Committee_is_valid_index cm (vb_author block) →
  ∃ l, update_block_received_metrics ctx bm block = Done (set_received_block_rounds l bm) ∧
    length l = Committee_size cm.
Proof.
  clear. intros Hlen Hv. destruct (valid_authority _ _ Hv) as [x Hx].
  unfold Committee_is_valid_index in Hv. rewrite bool_decide_spec in Hv.
  unfold update_block_received_metrics, vec_get.
  destruct (lookup_lt_is_Some_2 (bm_received_block_rounds bm) (vb_author block)) as [cur Hcur]; [by rewrite Hlen|].
  rewrite Hcur. simpl. unfold vec_set. rewrite decide_True by (by rewrite Hlen). simpl. rewrite Hx. simpl.
  eexists. split; [done|]. by rewrite length_insert.
Qed.

Lemma inv_received d bm l r rest stack acc : inv d bm r rest stack acc →
  inv d (set_received_block_rounds l bm) r rest stack acc.
Proof. clear. intros Hinv. split; apply Hinv. Qed.

(** The block and the blocks that waited for it are accepted. *)
Lemma accept_progress now bm bm1 d block : node_inv ctx G d v →
  length (bm_received_block_rounds bm1) = Committee_size cm →
  inv d bm1 no_ref [] [vb_reference block] [block] →
  (∀ X, is_Some (bm_suspended_blocks bm1 !! X) ↔
        is_Some (bm_suspended_blocks bm !! X) ∧ X ≠ vb_reference block) →
  ∃ bm' d' uns, try_unsuspend_children_blocks ctx bm1 (vb_reference block) = Done (bm', uns) ∧
    accept_blocks ctx d ([block] ++ uns) now = Done d' ∧
    progress now bm d [block] bm' d' ([block] ++ uns) ∧ bm_missing_blocks bm' = bm_missing_blocks bm1.
Proof using HU Hown.
  intros Hni Hrec Hinv Hsusp.
  destruct (release_spec bm1 d (vb_reference block) [block] now Hni Hinv)
    as (bm' & d' & uns & Hrun & Hacc & Hni' & Hinv' & [Hfr1 Hfr2] & Hw & Hgc & Hc & Hk & _).
  exists bm', d', uns. split; [done|]. split; [done|]. split; [|done].
  assert (Hrefs : ∀ X, X ∈ refs ([block] ++ uns) ↔ X = vb_reference block ∨ X ∈ refs uns).
  { intros X. rewrite refs_app, elem_of_app. unfold refs at 1. simpl. by rewrite list_elem_of_singleton. }
  assert (Hb : ∀ X, X ∈ refs [block] ↔ X = vb_reference block) by (intros X; apply list_elem_of_singleton).
  assert (Hwait : ∀ X, is_Some (bm_suspended_blocks bm' !! X) ∨ X ∈ refs uns ↔
    is_Some (bm_suspended_blocks bm !! X) ∧ X ≠ vb_reference block).
  { intros X. rewrite <-Hsusp, <-(Hw X). unfold refs at 1. simpl. rewrite elem_of_nil. tauto. }
  split; try done.
  - split; [done|]. by rewrite Hfr1.
  - intros X HX. rewrite Hrefs. destruct (decide (X = vb_reference block)); [by auto|].
    destruct (proj2 (Hwait X)) as [?|?]; auto.
  - intros X. rewrite Hrefs, Hb. pose proof (proj1 (Hwait X)). tauto.
  - intros b ->%list_elem_of_singleton. left. apply Hk, or_intror, Hrefs. by left.
Qed.

(** The DAG state does not change. *)
Lemma waiting_progress now bm d block bm' : node_inv ctx G d v → bm_inv bm' d →
  (∀ X, X ≠ vb_reference block → bm_suspended_blocks bm' !! X = bm_suspended_blocks bm !! X) →
  (is_Some (bm_suspended_blocks bm !! vb_reference block) →
   is_Some (bm_suspended_blocks bm' !! vb_reference block)) →
  (known d (vb_reference block) ∨ is_Some (bm_suspended_blocks bm' !! vb_reference block) ∨
   vb_round block ≤ gc_round ctx d) → progress now bm d [block] bm' d [].
Proof.
  clear. intros Hni Hinv Hs Hs' Hb.
  assert (Hbl : ∀ X, X ∈ refs [block] ↔ X = vb_reference block) by (intros X; apply list_elem_of_singleton).
  split; try done.
  - apply Hinv.
  - intros r. rewrite elem_of_nil. tauto.
  - intros X HX. left. destruct (decide (X = vb_reference block)) as [->|]; [by auto|by rewrite Hs].
  - intros X [HX|?%elem_of_nil]; [|done]. rewrite Hbl.
    destruct (decide (X = vb_reference block)) as [->|]; [by auto|]. left. by rewrite <-Hs.
  - by intros b ->%list_elem_of_singleton.
Qed.

(** One verified block. *)
Lemma step_spec now bm d block acc0 miss0 : node_inv ctx G d v → bm_inv bm d →
  G (vb_reference block) = Some block → vb_round block ≠ 0 →
  ∃ bm' d' acc F, accept_or_suspend ctx false now (bm, d, acc0, miss0) block =
      Done (bm', d', acc0 ++ acc, miss0 ∪ F) ∧
    progress now bm d [block] bm' d' acc ∧ F ⊆ bm_missing_blocks bm' ∧
    (∀ r, r ∈ F → br_round r < vb_round block) ∧
    ∀ r, r ≠ vb_reference block → r ∈ bm_missing_blocks bm → r ∈ bm_missing_blocks bm'.
Proof using HU Hown.
  intros Hni [Hinv Hrec] HGb Hr. pose proof (u_wf _ _ _ HU _ _ HGb) as Hwf.
  destruct (received_spec bm block Hrec (wf_author _ _ Hwf)) as (l & Hl & Hlen).
  unfold accept_or_suspend. rewrite Hl. cbn [mbind run_bind]. clear Hl.
  set (bm0 := set_received_block_rounds l bm).
  assert (Hinv0 : inv d bm0 no_ref [] [] []) by (by apply inv_received).
  assert (Hsusp0 : bm_suspended_blocks bm0 = bm_suspended_blocks bm) by done.
  destruct (try_accept_one_spec bm0 d block now Hni Hinv0 HGb Hr) as (bm1 & res & -> & Hrec1 & Hmiss1 & Hres).
  cbn [mbind run_bind].
  destruct res as [b|F| |].
  - destruct Hres as (-> & Hs & Hinv1).
    destruct (accept_progress now bm bm1 d block Hni) as (bm' & d' & uns & -> & Hacc & Hp & Hmb); try done.
    { by rewrite Hrec1. }
    { intros X. rewrite Hs, Hsusp0. split; [|by intros [? _]]. intros HX. split; [done|]. intros ->.
      destruct HX as [s' Hs']. rewrite <-Hsusp0, <-Hs in Hs'.
      destruct (ci_susp _ _ _ _ _ _ _ _ _ Hinv1 _ _ Hs') as (_ & _ & _ & Hn). apply Hn.
      by apply list_elem_of_singleton. }
    cbn [mbind run_bind]. rewrite Hacc. exists bm', d', ([block] ++ uns), ∅. rewrite (right_id_L ∅ (∪)).
    split_and!; try done. by rewrite Hmb.
  - destruct Hres as (Hinv1 & Hs & Hs' & HF & HF'). exists bm1, d, [], F. rewrite app_nil_r.
    split_and!; try done.
    + apply waiting_progress; auto. split; [done|]. by rewrite Hrec1.
    + intros r Hin%HF'. by apply (wf_rounds _ _ Hwf).
  - destruct Hres as [-> Hk]. exists bm0, d, [], ∅. rewrite app_nil_r, (right_id_L ∅ (∪)).
    split_and!; try done. apply waiting_progress; auto; [by split|tauto].
  - destruct Hres as [-> Hk]. exists bm0, d, [], ∅. rewrite app_nil_r, (right_id_L ∅ (∪)).
    split_and!; try done. apply waiting_progress; auto. by split.
Qed.
End manager.
