(* ===== verification/BlockManagerSafety.v ===== *)
(** * What the block manager guarantees

    The loops over received blocks, committed blocks, requested references
    and garbage-collected ancestors, on top of the one-block lemmas. *)
From S2P Require Import Prelude Committee StakeAggregator Block ThresholdClock Commit LeaderScoring Store DagState DagStateProofs DagTraversal LeaderSchedule BaseCommitter CommitRule DagViews BlockManager BlockManagerProofs.

Section safety.
Context {S : Type} `{StoreLaws S} (ctx : Context) (G : BlockRef → option VerifiedBlock).
Context (byz : gset AuthorityIndex) (HU : universe_ok (ctx_committee ctx) G byz).
Context (Hown : ctx_own_index ctx ∉ byz) (v : StoreView).
Implicit Types (d : DagState S) (bm : BlockManager).
Abbreviation cm := (ctx_committee ctx).
Abbreviation no_ref := (mk_ref 0 0%nat 0).
Abbreviation known := (known v).
Abbreviation inv d := (children_inv G cm (known d) (gc_round ctx d)).
Abbreviation progress := (progress ctx G v).
Abbreviation bm_inv := (bm_inv ctx G v).

(** ** Received blocks *)

Lemma accept_loop_spec now blocks bm d acc0 miss0 : node_inv ctx G d v → bm_inv bm d →
  Forall (λ b, G (vb_reference b) = Some b ∧ vb_round b ≠ 0) blocks → StronglySorted (by_key vb_round) blocks →
  miss0 ⊆ bm_missing_blocks bm → (∀ r b, r ∈ miss0 → b ∈ blocks → br_round r < vb_round b) →
  ∃ bm' d' acc miss, for_each (accept_or_suspend ctx false now) (bm, d, acc0, miss0) blocks =
      Done (bm', d', acc0 ++ acc, miss) ∧
    progress now bm d blocks bm' d' acc ∧ miss ⊆ bm_missing_blocks bm'.
Proof using HU Hown.
  revert bm d acc0 miss0. induction blocks as [|b blocks IH]; intros bm d acc0 miss0 Hni Hinv HG Hs Hm Hlt.
  { exists bm, d, [], miss0. rewrite app_nil_r. split_and!; [done| |done]. by apply progress_refl. }
  apply Forall_cons in HG as [[HGb Hr] HG]. apply StronglySorted_inv in Hs as [Hs Hle].
  rewrite Forall_forall in Hle.
  destruct (step_spec ctx G byz HU Hown v now bm d b acc0 miss0 Hni Hinv HGb Hr)
    as (bm1 & d1 & acc1 & F & Hrun & Hp & HF & HFr & Hmiss).
  rewrite for_each_cons, Hrun. cbn [mbind run_bind].
  destruct (IH bm1 d1 (acc0 ++ acc1) (miss0 ∪ F)) as (bm' & d' & acc & miss & -> & Hp' & Hm'); try done;
    [apply Hp..| | |].
  - intros r [Hin|Hin]%elem_of_union; [|by apply HF].
    apply Hmiss; [|by apply Hm]. intros ->.
    specialize (Hlt _ b Hin ltac:(by left)). simpl in Hlt. lia.
  - intros r b' [Hin|Hin]%elem_of_union Hb'; [apply Hlt; [done|by right]|].
    apply HFr in Hin. specialize (Hle b' Hb'). unfold by_key in Hle. rewrite bool_decide_spec in Hle. lia.
  - exists bm', d', (acc1 ++ acc), miss. rewrite app_assoc. split_and!; [done| |done].
    by apply (progress_trans _ _ _ _ _ _ [b] bm1 d1).
Qed.

(** ** Garbage collection of missing ancestors *)

(** The invariant survives a higher GC round and a change of the cache. *)
Lemma inv_mono {d d' v'} bm : inv d bm no_ref [] [] [] → gc_round ctx d ≤ gc_round ctx d' →
  (∀ r, BlockManagerProofs.known v' d' r ↔ known d r) →
  children_inv G cm (BlockManagerProofs.known v' d') (gc_round ctx d') bm no_ref [] [] [].
Proof.
  clear. intros Hinv Hgc Hk.
  assert (Hres : ∀ a, resolved (known d) (gc_round ctx d) [] a →
    resolved (BlockManagerProofs.known v' d') (gc_round ctx d') [] a).
  { intros a [?|[?|?]]; [left; by apply Hk|right; by left|right; right; lia]. }
  split; try (solve [apply Hinv]).
  - intros X s Hs. rewrite Hk. by apply (ci_susp _ _ _ _ _ _ _ _ _ Hinv X s).
  - done.
  - intros a Ha. rewrite Hk. by apply (ci_keys _ _ _ _ _ _ _ _ _ Hinv a).
  - intros X s a Hs Ha. destruct (ci_resolved _ _ _ _ _ _ _ _ _ Hinv X s a Hs Ha); auto.
  - by intros a ?%elem_of_nil.
  - split; [constructor|]. by intros k b ?.
Qed.

(** The lowest missing ancestor is not suspended: it would wait for an
    ancestor of its own, of a lower round. *)
Lemma first_missing_not_suspended d bm a c : inv d bm no_ref [] [] [] →
  map_first (bm_missing_ancestors bm) = Some (a, c) → bm_suspended_blocks bm !! a = None.
Proof using HU.
  clear Hown. intros Hinv [Ha Hmin]%map_first_Some. apply eq_None_not_Some. intros [s Hs].
  destruct (set_choose_L _ (ci_nonempty _ _ _ _ _ _ _ _ _ Hinv a s Hs)) as [m Hm].
  destruct (ci_missing _ _ _ _ _ _ _ _ _ Hinv a s m Hs Hm) as [Hanc [Hch|[_ Hn]]]; [|by apply elem_of_nil in Hn].
  destruct (ci_susp _ _ _ _ _ _ _ _ _ Hinv a s Hs) as (HGa & _).
  pose proof (wf_rounds _ _ (u_wf _ _ _ HU _ _ HGa) m Hanc) as Hlt.
  pose proof (u_reference _ _ _ HU _ _ HGa) as Href.
  unfold children_of in Hch. destruct (bm_missing_ancestors bm !! m) as [c'|] eqn:Hm'; [|by apply elem_of_empty in Hch].
  apply Hmin, BlockRef_le_round in Hm'. rewrite <-Href in Hm'. simpl in Hm', Hlt. lia.
Qed.

(** A missing ancestor below the GC round goes on the stack. *)
Lemma inv_collect d bm a : inv d bm no_ref [] [] [] → bm_suspended_blocks bm !! a = None →
  br_round a ≤ gc_round ctx d →
  inv d (set_missing_blocks (bm_missing_blocks bm ∖ {[a]}) bm) no_ref [] [a] [].
Proof.
  clear. intros Hinv Hs Hle. split; try (solve [apply Hinv]); simpl.
  - intros b Hb. destruct (ci_keys _ _ _ _ _ _ _ _ _ Hinv b Hb) as [? [?|Hn]];
      [by auto|by apply elem_of_nil in Hn].
  - intros b ->%list_elem_of_singleton. by right; right.
  - intros r. rewrite elem_of_difference, elem_of_singleton, list_elem_of_singleton,
      (ci_missing_blocks _ _ _ _ _ _ _ _ _ Hinv), elem_of_nil. tauto.
Qed.

Lemma gc_loop_spec now fuel bm d : node_inv ctx G d v → bm_inv bm d →
  (size (bm_missing_ancestors bm) ≤ fuel)%nat →
  ∃ bm' d' acc, gc_loop ctx fuel (gc_round ctx d) bm d now = Done (bm', d') ∧
    progress now bm d [] bm' d' acc ∧
    ∀ a, is_Some (bm_missing_ancestors bm' !! a) → gc_round ctx d < br_round a.
Proof using HU Hown.
  revert bm d. induction fuel as [|fuel IH]; intros bm d Hni Hinv Hf.
  { assert (bm_missing_ancestors bm = ∅) as Hemp by (apply map_size_empty_iff; lia).
    exists bm, d, []. simpl. rewrite (proj2 (map_first_None _) Hemp). split; [done|].
    split; [by apply progress_refl|]. intros a. rewrite Hemp, lookup_empty. by intros [? ?]. }
  simpl. destruct (map_first (bm_missing_ancestors bm)) as [[a c]|] eqn:Hfirst.
  2:{ apply map_first_None in Hfirst. exists bm, d, []. split; [done|]. split; [by apply progress_refl|].
      intros a. rewrite Hfirst, lookup_empty. by intros [? ?]. }
  pose proof (map_first_Some _ _ _ Hfirst) as [Ha Hmin].
  destruct (bool_decide_reflect (gc_round ctx d < br_round a)) as [Hgc|Hgc].
  { exists bm, d, []. split; [done|]. split; [by apply progress_refl|].
    intros b [c' Hb]. apply Hmin, BlockRef_le_round in Hb. lia. }
  destruct (ci_keys _ _ _ _ _ _ _ _ _ (bi_inv _ _ _ _ _ Hinv) a) as [Hval _]; [by eauto|].
  destruct (valid_authority _ _ Hval) as [x ->]. cbn [mbind run_bind].
  pose proof (first_missing_not_suspended d bm a c (bi_inv _ _ _ _ _ Hinv) Hfirst) as Hs.
  rewrite bool_decide_eq_true_2 by done.
  destruct (release_spec ctx G byz HU Hown v _ d a [] now Hni
    (inv_collect d bm a (bi_inv _ _ _ _ _ Hinv) Hs ltac:(lia)))
    as (bm1 & d1 & uns & -> & Hacc & Hni1 & Hinv1 & [Hfr1 Hfr2] & Hw & Hgc1 & Hc & Hk & Hkeys).
  cbn [mbind run_bind]. rewrite app_nil_l in *. rewrite Hacc. cbn [mbind run_bind]. rewrite <-Hgc1.
  destruct (IH bm1 d1 Hni1) as (bm' & d' & acc & -> & Hp & Hkeys').
  { split; [done|]. rewrite Hfr1. apply Hinv. }
  { assert (bm_missing_ancestors bm1 !! a = None) as Hna
      by (apply eq_None_not_Some; intros [_ Hne]%Hkeys; done).
    assert (dom (bm_missing_ancestors bm1) ⊂ dom (bm_missing_ancestors bm)) as Hsub%subset_size.
    { split; [|intros Hbad; apply not_elem_of_dom in Hna; apply Hna, Hbad, elem_of_dom; eauto].
      intros r [Hr _]%elem_of_dom%Hkeys. by apply elem_of_dom. }
    rewrite !size_dom in Hsub. lia. }
  exists bm', d', (uns ++ acc). split; [done|]. split; [|done].
  apply (progress_trans _ _ _ _ _ _ [] bm1 d1 uns []); [|done].
  split; try done.
  - split; [done|]. rewrite Hfr1. apply Hinv.
  - intros X HX. destruct (proj1 (Hw X)); auto.
  - intros X HX. destruct (proj2 (Hw X)); auto.
  - by intros b ?%elem_of_nil.
Qed.

(** ** Committed blocks *)

Definition drop_reference (ref : BlockRef) (a : BlockRef) (m : gmap BlockRef (gset BlockRef))
    : gmap BlockRef (gset BlockRef) :=
  match m !! a with
  | Some references => <[a := references ∖ {[ref]}]> m
  | None => m
  end.

Lemma drop_references_lookup ref m l a :
  foldr (drop_reference ref) m l !! a =
  if decide (a ∈ l) then (.∖ {[ref]}) <$> m !! a else m !! a.
Proof.
  clear. induction l as [|x l IH]; cbn [foldr]; [done|].
  unfold drop_reference at 1. destruct (decide (a = x)) as [->|Hne].
  - rewrite (decide_True (P := x ∈ x :: l)) by (by left).
    destruct (foldr _ m l !! x) as [X|] eqn:HX; [rewrite lookup_insert_eq|rewrite HX]; rewrite IH in HX;
      case_decide; destruct (m !! x); csimpl in HX; simplify_eq; csimpl; try done.
    f_equal. set_solver.
  - assert (a ∈ x :: l ↔ a ∈ l) as Hiff by (rewrite elem_of_cons; tauto).
    rewrite (decide_ext _ _ _ _ Hiff), <-IH.
    destruct (foldr _ m l !! x); [by rewrite lookup_insert_ne|done].
Qed.

Lemma detached_suspended d bm ref s : inv d bm no_ref [] [] [] → bm_suspended_blocks bm !! ref = Some s →
  detached bm ref (set_missing_ancestors
    (foldr (drop_reference ref) (bm_missing_ancestors bm) (reverse (set_list (sus_missing_ancestors s))))
    (set_suspended (delete ref (bm_suspended_blocks bm))
       (set_missing_blocks (bm_missing_blocks bm ∖ {[ref]}) bm))).
Proof.
  clear. intros Hinv Hs. split; simpl; try done.
  - intros a. rewrite drop_references_lookup. case_decide; [|done]. by rewrite fmap_is_Some.
  - intros a X. unfold children_of at 1. simpl. rewrite drop_references_lookup.
    case_decide as Hin.
    + unfold children_of. destruct (bm_missing_ancestors bm !! a); simpl; set_solver.
    + fold (children_of bm a). split; [|by intros [? _]]. intros HX. split; [done|]. intros ->.
      destruct (ci_children _ _ _ _ _ _ _ _ _ Hinv a ref HX) as (s' & Hs' & Ha). apply Hin.
      apply elem_of_reverse, elem_of_set_list. congruence.
Qed.

(** One committed block, after its ancestors. *)
Lemma committed_step_spec now bm d block acc0 miss0 : node_inv ctx G d v → bm_inv bm d →
  G (vb_reference block) = Some block → vb_round block ≠ 0 →
  (∀ a, a ∈ vb_ancestors block → gc_round ctx d < br_round a → known d a) →
  ∃ bm' d' acc, accept_or_suspend ctx true now (bm, d, acc0, miss0) block = Done (bm', d', acc0 ++ acc, miss0) ∧
    progress now bm d [block] bm' d' acc ∧ known d' (vb_reference block).
Proof using HU Hown.
  intros Hni [Hinv Hrec] HGb Hr Hanc. pose proof (u_wf _ _ _ HU _ _ HGb) as Hwf.
  destruct (received_spec ctx bm block Hrec (wf_author _ _ Hwf)) as (l & Hl & Hlen).
  unfold accept_or_suspend. rewrite Hl. cbn [mbind run_bind]. clear Hl.
  set (bm0 := set_received_block_rounds l bm).
  assert (Hinv0 : inv d bm0 no_ref [] [] []) by (by apply inv_received).
  unfold try_accept_one_committed_block.
  rewrite (contains_block_spec ctx d v) by (apply Hni || apply Hwf). cbn [mbind run_bind].
  destruct (bool_decide_reflect (is_Some (dag_lookup d v (vb_reference block)))) as [Hk|Hk].
  { exists bm0, d, []. rewrite app_nil_r. split; [done|]. split; [|done].
    apply waiting_progress; auto. by split. }
  set (bm1 := match _ !! vb_reference block with Some _ => _ | None => _ end).
  assert (Hde : detached bm0 (vb_reference block) bm1 ∧
                bm_received_block_rounds bm1 = bm_received_block_rounds bm0).
  { subst bm1. simpl. destruct (bm_suspended_blocks bm !! vb_reference block) as [s|] eqn:Hs; (split; [|done]).
    - by apply (detached_suspended d bm0 _ s).
    - by apply (detached_fresh ctx G v d bm0). }
  destruct Hde as [Hde Hrec1]. clearbody bm1.
  destruct (accept_progress ctx G byz HU Hown v now bm bm1 d block Hni) as (bm' & d' & uns & Hrun & Hacc & Hp & _).
  { by rewrite Hrec1. }
  { apply (inv_accept ctx G v d bm0); try done. intros a Ha.
    destruct (decide (gc_round ctx d < br_round a)); [left; by apply Hanc|right; right; lia]. }
  { intros X. rewrite (de_susp _ _ _ Hde). simpl. rewrite lookup_delete_is_Some. naive_solver. }
  pose proof Hacc as Hacc'. unfold accept_blocks in Hacc'. rewrite for_each_app in Hacc'.
  fold (accept_blocks ctx d [block] now) in Hacc'. destruct (accept_blocks ctx d [block] now) as [d1| |]; try done.
  cbn [mbind run_bind] in Hacc' |- *. rewrite Hrun. cbn [mbind run_bind app]. unfold accept_blocks.
  rewrite Hacc'. cbn [mbind run_bind]. exists bm', d', ([block] ++ uns). rewrite <-app_assoc.
  split_and!; [done..|]. apply (pr_known _ _ _ _ _ _ _ _ _ _ Hp). right. by left.
Qed.

Lemma committed_loop_spec now blocks bm d acc0 : node_inv ctx G d v → bm_inv bm d →
  Forall (λ b, G (vb_reference b) = Some b ∧ vb_round b ≠ 0) blocks → StronglySorted (by_key vb_round) blocks →
  (∀ b a, b ∈ blocks → a ∈ vb_ancestors b → gc_round ctx d < br_round a → known d a ∨ a ∈ refs blocks) →
  ∃ bm' d' acc, for_each (accept_or_suspend ctx true now) (bm, d, acc0, ∅) blocks =
      Done (bm', d', acc0 ++ acc, ∅) ∧
    progress now bm d blocks bm' d' acc ∧ ∀ b, b ∈ blocks → known d' (vb_reference b).
Proof using HU Hown.
  revert bm d acc0. induction blocks as [|b blocks IH]; intros bm d acc0 Hni Hinv HG Hs Hcl.
  { exists bm, d, []. rewrite app_nil_r. split_and!; [done| |by intros b ?%elem_of_nil]. by apply progress_refl. }
  apply Forall_cons in HG as [[HGb Hr] HG]. apply StronglySorted_inv in Hs as [Hs Hle].
  rewrite Forall_forall in Hle.
  destruct (committed_step_spec now bm d b acc0 ∅ Hni Hinv HGb Hr) as (bm1 & d1 & acc1 & Hrun & Hp & Hb).
  { intros a Ha Hgc. destruct (Hcl b a ltac:(by left) Ha Hgc) as [|(b' & -> & Hb')%list_elem_of_fmap]; [done|].
    pose proof (wf_rounds _ _ (u_wf _ _ _ HU _ _ HGb) _ Ha) as Hlt. simpl in Hlt.
    apply elem_of_cons in Hb' as [->|Hb']; [lia|]. apply Hle in Hb'.
    unfold by_key in Hb'. rewrite bool_decide_spec in Hb'. lia. }
  rewrite for_each_cons, Hrun. cbn [mbind run_bind].
  destruct (IH bm1 d1 (acc0 ++ acc1)) as (bm' & d' & acc & -> & Hp' & Hb'); try done; [apply Hp..| |].
  { intros b' a Hb' Ha Hgc. rewrite (pr_gc _ _ _ _ _ _ _ _ _ _ Hp) in Hgc.
    rewrite (pr_known _ _ _ _ _ _ _ _ _ _ Hp). destruct (Hcl b' a ltac:(by right) Ha Hgc) as [?|Hin]; [tauto|].
    apply elem_of_cons in Hin as [->|?]; [|by auto]. left. by apply (pr_known _ _ _ _ _ _ _ _ _ _ Hp). }
  exists bm', d', (acc1 ++ acc). rewrite app_assoc. split_and!; [done| |].
  - by apply (progress_trans _ _ _ _ _ _ [b] bm1 d1).
  - intros b' [->|?]%elem_of_cons; [|by auto]. apply (pr_known _ _ _ _ _ _ _ _ _ _ Hp'). by left.
Qed.

(** ** Requested references *)

(** A reference that nobody waits for yet is recorded as missing. *)
Lemma inv_request d bm r : inv d bm no_ref [] [] [] → Committee_is_valid_index cm (br_author r) →
  ¬ known d r → bm_suspended_blocks bm !! r = None →
  inv d (set_missing_ancestors
    (<[r := default ∅ (bm_missing_ancestors bm !! r)]> (bm_missing_ancestors bm))
    (set_missing_blocks ({[r]} ∪ bm_missing_blocks bm) bm)) no_ref [] [] [].
Proof.
  clear. intros Hinv Hval Hk Hs. set (bm1 := set_missing_ancestors _ _).
  assert (Hch : ∀ a, children_of bm1 a = children_of bm a).
  { intros a. unfold children_of. simpl. destruct (decide (a = r)) as [->|Hne];
      [by rewrite lookup_insert_eq|by rewrite lookup_insert_ne]. }
  split; try (solve [apply Hinv]).
  - intros X s a HX Ha. rewrite Hch. by apply (ci_missing _ _ _ _ _ _ _ _ _ Hinv X s a).
  - intros a X. rewrite Hch. apply (ci_children _ _ _ _ _ _ _ _ _ Hinv).
  - done.
  - intros a. simpl. destruct (decide (a = r)) as [->|Hne].
    + intros _. split; [done|]. left. split; [done|]. apply not_elem_of_nil.
    + rewrite lookup_insert_ne by done. apply (ci_keys _ _ _ _ _ _ _ _ _ Hinv).
  - intros x. simpl. rewrite elem_of_union, elem_of_singleton, (ci_missing_blocks _ _ _ _ _ _ _ _ _ Hinv).
    destruct (decide (x = r)) as [->|Hne].
    + rewrite lookup_insert_eq. rewrite elem_of_nil. split; [|by auto]. intros _. split_and!; [by eauto|done|tauto].
    + rewrite lookup_insert_ne by done. tauto.
Qed.

Lemma find_loop_spec d l bm M : inv d bm no_ref [] [] [] →
  Forall (λ r, Committee_is_valid_index cm (br_author r)) l →
  ∃ bm' M', for_each (request_missing ctx) (bm, M) (zip ((λ r, bool_decide (known d r)) <$> l) l) = Done (bm', M') ∧
    inv d bm' no_ref [] [] [] ∧ bm_suspended_blocks bm' = bm_suspended_blocks bm ∧
    bm_received_block_rounds bm' = bm_received_block_rounds bm ∧
    (∀ r, r ∈ M' ↔ r ∈ M ∨ r ∈ l ∧ ¬ known d r ∧ bm_suspended_blocks bm !! r = None) ∧
    ∀ r, r ∈ bm_missing_blocks bm' ↔
      r ∈ bm_missing_blocks bm ∨ r ∈ l ∧ ¬ known d r ∧ bm_suspended_blocks bm !! r = None.
Proof.
  clear HU Hown. revert bm M. induction l as [|r l IH]; intros bm M Hinv Hval.
  { exists bm, M. split_and!; try done; intros r; rewrite elem_of_nil; tauto. }
  apply Forall_cons in Hval as [Hr Hval]. destruct (valid_authority _ _ Hr) as [x Hx].
  change (zip _ (r :: l)) with ((bool_decide (known d r), r) :: zip ((λ r, bool_decide (known d r)) <$> l) l).
  rewrite for_each_cons. unfold request_missing at 2.
  destruct (bool_decide_reflect (known d r)) as [Hk|Hk]; simpl.
  { destruct (IH bm M Hinv Hval) as (bm' & M' & -> & ? & ? & ? & HM & Hm). exists bm', M'.
    split_and!; try done; intros y; rewrite ?HM, ?Hm, elem_of_cons; naive_solver. }
  destruct (bool_decide_reflect (is_Some (bm_suspended_blocks bm !! r))) as [Hs|Hs]; simpl.
  { destruct (IH bm M Hinv Hval) as (bm' & M' & -> & ? & ? & ? & HM & Hm). exists bm', M'.
    apply not_eq_None_Some in Hs. split_and!; try done; intros y; rewrite ?HM, ?Hm, elem_of_cons; naive_solver. }
  apply eq_None_not_Some in Hs.
  destruct (bool_decide_reflect (r ∈ bm_missing_blocks bm)) as [Hin|Hin]; simpl.
  { destruct (IH bm ({[r]} ∪ M) Hinv Hval) as (bm' & M' & -> & ? & ? & ? & HM & Hm). exists bm', M'.
    split_and!; try done; intros y; rewrite ?HM, ?Hm, ?elem_of_union, ?elem_of_singleton, elem_of_cons; naive_solver. }
  rewrite Hx. simpl.
  destruct (IH _ ({[r]} ∪ M) (inv_request d bm r Hinv Hr Hk Hs) Hval) as (bm' & M' & Hrun & ? & ? & ? & HM & Hm).
  simpl in Hrun, HM, Hm. rewrite Hrun. exists bm', M'.
  split_and!; try done; intros y; rewrite ?HM, ?Hm, ?elem_of_union, ?elem_of_singleton, elem_of_cons; naive_solver.
Qed.

(** ** The whole operations *)

Definition from_universe (blocks : list VerifiedBlock) : Prop :=
  Forall (λ b, G (vb_reference b) = Some b ∧ vb_round b ≠ 0) blocks.
(** The ancestors above the GC round are known or come along. *)
Definition complete d (blocks : list VerifiedBlock) : Prop :=
  ∀ b a, b ∈ blocks → a ∈ vb_ancestors b → gc_round ctx d < br_round a → known d a ∨ a ∈ refs blocks.

Lemma progress_sorted now bm d blocks bm' d' acc :
  progress now bm d (sort_by (by_key vb_round) blocks) bm' d' acc → progress now bm d blocks bm' d' acc.
Proof.
  clear. intros Hp.
  assert (Hrefs : ∀ X, X ∈ refs (sort_by (by_key vb_round) blocks) ↔ X ∈ refs blocks).
  { intros X. unfold refs. by rewrite sort_by_Permutation. }
  split; try apply Hp.
  - intros X. rewrite <-Hrefs. apply Hp.
  - intros b Hb. apply (pr_blocks _ _ _ _ _ _ _ _ _ _ Hp). by apply elem_of_sort_by.
Qed.

Lemma from_universe_sorted blocks : from_universe blocks → from_universe (sort_by (by_key vb_round) blocks).
Proof. clear. unfold from_universe. by rewrite sort_by_Permutation. Qed.

Lemma try_accept_blocks_spec now bm d blocks : node_inv ctx G d v → bm_inv bm d → from_universe blocks →
  ∃ bm' d' acc miss, try_accept_blocks ctx bm d blocks now = Done (bm', d', acc, miss) ∧
    progress now bm d blocks bm' d' acc ∧ miss ⊆ bm_missing_blocks bm'.
Proof using HU Hown.
  intros Hni Hinv HG. unfold try_accept_blocks, try_accept_blocks_internal.
  destruct (accept_loop_spec now (sort_by (by_key vb_round) blocks) bm d [] ∅ Hni Hinv)
    as (bm' & d' & acc & miss & -> & Hp & Hm); [by apply from_universe_sorted|apply sort_by_sorted, _|done|done|].
  exists bm', d', acc, miss. split_and!; [done| |done]. by apply progress_sorted.
Qed.

Lemma try_accept_committed_blocks_spec now bm d blocks : node_inv ctx G d v → bm_inv bm d →
  from_universe blocks → complete d blocks →
  ∃ bm' d' acc, try_accept_committed_blocks ctx bm d blocks now = Done (bm', d', acc) ∧
    progress now bm d blocks bm' d' acc ∧ ∀ b, b ∈ blocks → known d' (vb_reference b).
Proof using HU Hown.
  intros Hni Hinv HG Hc. unfold try_accept_committed_blocks, try_accept_blocks_internal.
  destruct (committed_loop_spec now (sort_by (by_key vb_round) blocks) bm d [] Hni Hinv)
    as (bm' & d' & acc & -> & Hp & Hk); [by apply from_universe_sorted|apply sort_by_sorted, _| |].
  { intros b a Hb%elem_of_sort_by Ha Hgc. unfold refs. rewrite sort_by_Permutation. by apply (Hc b). }
  cbn [mbind run_bind]. rewrite bool_decide_eq_true_2 by done. exists bm', d', acc.
  split_and!; [done|by apply progress_sorted|]. intros b Hb. by apply Hk, elem_of_sort_by.
Qed.

Lemma try_find_blocks_spec bm d block_refs : node_inv ctx G d v → bm_inv bm d →
  Forall (λ r, Committee_is_valid_index cm (br_author r)) block_refs →
  ∃ bm' miss, try_find_blocks ctx bm d block_refs = Done (bm', miss) ∧ bm_inv bm' d ∧
    bm_suspended_blocks bm' = bm_suspended_blocks bm ∧
    (∀ r, r ∈ miss ↔ r ∈ block_refs ∧ gc_round ctx d < br_round r ∧ ¬ known d r ∧
                     bm_suspended_blocks bm !! r = None) ∧
    bm_missing_blocks bm' = bm_missing_blocks bm ∪ miss.
Proof.
  clear HU Hown. intros Hni [Hinv Hrec] Hval. unfold try_find_blocks.
  set (l := filter _ block_refs). assert (Hl : ∀ r, r ∈ l ↔ gc_round ctx d < br_round r ∧ r ∈ block_refs)
    by (intros r; unfold l; by rewrite list_elem_of_filter).
  case_bool_decide as Hnil.
  { exists bm, ∅. split_and!; try done; [|by rewrite (right_id_L ∅ (∪))].
    intros r. pose proof (Hl r) as Hr. rewrite Hnil, elem_of_nil in Hr. rewrite elem_of_empty. tauto. }
  assert (Hval' : Forall (λ r, Committee_is_valid_index cm (br_author r)) (sort_by (by_key br_round) l)).
  { rewrite Forall_forall in Hval |- *. intros r [_ Hr]%elem_of_sort_by%Hl. by apply Hval. }
  rewrite (contains_blocks_spec ctx d v) by (done || apply Hni). cbn [mbind run_bind].
  destruct (find_loop_spec d _ bm ∅ Hinv Hval') as (bm' & M & Hrun & Hinv' & Hs & Hr & HM & Hm).
  exists bm', M. split; [exact Hrun|]. split; [split; [done|congruence]|]. split; [done|].
  assert (HM' : ∀ r, r ∈ M ↔ r ∈ block_refs ∧ gc_round ctx d < br_round r ∧ ¬ known d r ∧
                             bm_suspended_blocks bm !! r = None).
  { intros r. rewrite HM, elem_of_empty, elem_of_sort_by, Hl. tauto. }
  split; [done|]. apply set_eq. intros r. rewrite Hm, elem_of_union, HM', elem_of_sort_by, Hl. tauto.
Qed.

Lemma collect_garbage_spec now bm d : node_inv ctx G d v → bm_inv bm d →
  ∃ bm' d' acc, try_unsuspend_blocks_for_latest_gc_round ctx bm d now = Done (bm', d') ∧
    progress now bm d [] bm' d' acc ∧
    ∀ a, is_Some (bm_missing_ancestors bm' !! a) → gc_round ctx d < br_round a.
Proof using HU Hown. intros Hni Hinv. by apply gc_loop_spec. Qed.

(** ** Reading the invariant *)

Lemma missing_unknown bm d r : bm_inv bm d → r ∈ bm_missing_blocks bm →
  ¬ known d r ∧ bm_suspended_blocks bm !! r = None.
Proof.
  clear. intros [Hinv _] (Hkey & Hs & _)%(ci_missing_blocks _ _ _ _ _ _ _ _ _ Hinv).
  destruct (ci_keys _ _ _ _ _ _ _ _ _ Hinv r Hkey) as [_ [[? _]|Hbad]]; [done|by apply elem_of_nil in Hbad].
Qed.

Lemma missing_is_key bm d r : bm_inv bm d → r ∈ bm_missing_blocks bm → is_Some (bm_missing_ancestors bm !! r).
Proof. clear. by intros [Hinv _] (Hkey & _ & _)%(ci_missing_blocks _ _ _ _ _ _ _ _ _ Hinv). Qed.

Lemma known_not_suspended bm d r : bm_inv bm d → known d r → bm_suspended_blocks bm !! r = None.
Proof.
  clear. intros [Hinv _] Hk. apply eq_None_not_Some. intros [s Hs].
  by destruct (ci_susp _ _ _ _ _ _ _ _ _ Hinv r s Hs) as (_ & _ & ? & _).
Qed.

Lemma suspended_missing bm d X s : bm_inv bm d → bm_suspended_blocks bm !! X = Some s →
  ∃ m, m ∈ vb_ancestors (sus_block s) ∧ is_Some (bm_missing_ancestors bm !! m) ∧ ¬ known d m.
Proof.
  clear. intros [Hinv _] Hs.
  destruct (set_choose_L _ (ci_nonempty _ _ _ _ _ _ _ _ _ Hinv X s Hs)) as [m Hm].
  destruct (ci_missing _ _ _ _ _ _ _ _ _ Hinv X s m Hs Hm) as [Hanc [Hch|[_ Hbad]]]; [|by apply elem_of_nil in Hbad].
  assert (Hkey : is_Some (bm_missing_ancestors bm !! m)).
  { unfold children_of in Hch. destruct (bm_missing_ancestors bm !! m); [by eauto|by apply elem_of_empty in Hch]. }
  exists m. split_and!; [done..|].
  destruct (ci_keys _ _ _ _ _ _ _ _ _ Hinv m Hkey) as [_ [[? _]|Hbad]]; [done|by apply elem_of_nil in Hbad].
Qed.

(** ** What is suspended waits for something to fetch *)

Inductive waits_for (bm : BlockManager) : BlockRef → BlockRef → Prop :=
| waits_one X s a : bm_suspended_blocks bm !! X = Some s → a ∈ vb_ancestors (sus_block s) → waits_for bm X a
| waits_more X s a r : bm_suspended_blocks bm !! X = Some s → a ∈ vb_ancestors (sus_block s) →
    waits_for bm a r → waits_for bm X r.

Lemma suspended_frontier bm d X : bm_inv bm d → is_Some (bm_suspended_blocks bm !! X) →
  ∃ r, r ∈ bm_missing_blocks bm ∧ waits_for bm X r ∧ ¬ known d r.
Proof using HU.
  clear Hown. intros Hinv. remember (br_round X) as n eqn:Hn. revert X Hn.
  induction n as [n IH] using (well_founded_induction N.lt_wf_0). intros X -> [s Hs].
  destruct (suspended_missing bm d X s Hinv Hs) as (m & Hanc & Hkey & Hk). destruct Hinv as [Hinv _].
  destruct (ci_susp _ _ _ _ _ _ _ _ _ Hinv X s Hs) as (HGX & _).
  pose proof (wf_rounds _ _ (u_wf _ _ _ HU _ _ HGX) m Hanc) as Hlt.
  rewrite <-(u_reference _ _ _ HU _ _ HGX) in IH.
  destruct (bm_suspended_blocks bm !! m) as [s'|] eqn:Hs'.
  - destruct (IH (br_round m) Hlt m eq_refl ltac:(eauto)) as (r & Hr & Hw & Hkr).
    exists r. split_and!; [done| |done]. by apply (waits_more _ _ s m).
  - exists m. split_and!; [|by apply (waits_one _ _ s)|done].
    apply (ci_missing_blocks _ _ _ _ _ _ _ _ _ Hinv). split_and!; [done..|apply not_elem_of_nil].
Qed.
End safety.
