(* ===== verification/ManagedNode.v ===== *)
(** * The block manager in front of the DAG state

    A node that receives verified blocks in any order, accepts certified
    commits, looks references up, collects below the GC round, commits and
    flushes. The block manager turns the arbitrary order of arrival into the
    causal order the DAG state needs: every state of such a node is a state
    of the machine of [DagViews], and no operation panics. *)
From S2P Require Import Prelude Committee StakeAggregator Block ThresholdClock Commit LeaderScoring Store DagState DagStateProofs DagTraversal LeaderSchedule BaseCommitter CommitRule DagViews BlockManager BlockManagerProofs BlockManagerSafety.

From Stdlib Require Import Strings.Byte.

Section managed.
Context {S : Type} `{StoreLaws S} `{BlockCodec} (ctx : Context) (G : BlockRef → option VerifiedBlock).
Implicit Types (d : DagState S) (bm : BlockManager) (v : StoreView).

Inductive node_event :=
| NReceive (blocks : list VerifiedBlock) (now : N)
| NCertified (blocks : list VerifiedBlock) (now : N)
| NFind (block_refs : list BlockRef)
| NCollect (now : N)
| NCommit (c : TrustedCommit) (now : N)
| NFlush.

Definition run_node bm d (ev : node_event) : run (BlockManager * DagState S) :=
  match ev with
  | NReceive blocks now =>
      '(bm, d, _, _) ← try_accept_blocks ctx bm d blocks now; Done (bm, d)
  | NCertified blocks now =>
      '(bm, d, _) ← try_accept_committed_blocks ctx bm d blocks now; Done (bm, d)
  | NFind block_refs => '(bm, _) ← try_find_blocks ctx bm d block_refs; Done (bm, d)
  | NCollect now => try_unsuspend_blocks_for_latest_gc_round ctx bm d now
  | NCommit c now => d ← add_commit ctx d c now; Done (bm, d)
  | NFlush => d ← flush ctx d; Done (bm, d)
  end.

(** Received blocks are verified, in any order and with any ancestors
    missing; a certified commit brings its ancestors along. *)
Definition node_enabled d v (ev : node_event) : Prop :=
  match ev with
  | NReceive blocks _ => from_universe G blocks
  | NCertified blocks _ => from_universe G blocks ∧ complete ctx v d blocks
  | NFind block_refs =>
      Forall (λ r, Committee_is_valid_index (ctx_committee ctx) (br_author r)) block_refs
  | NCollect _ | NFlush => True
  | NCommit c now => enabled ctx G d v (EvCommit c now)
  end.

Definition node_view_after d v (ev : node_event) : StoreView :=
  match ev with NFlush => view_after d v EvFlush | _ => v end.

Inductive managed : BlockManager → DagState S → StoreView → Prop :=
| managed_new store now d : store_rel store view_empty → DagState_new ctx store now = Done d →
    managed (BlockManager_new ctx) d view_empty
| managed_step bm d v ev bm' d' : managed bm d v → node_enabled d v ev →
    run_node bm d ev = Done (bm', d') → managed bm' d' (node_view_after d v ev).

Context (byz : gset AuthorityIndex) (Hhonest : honest_node (S := S) ctx G byz).

(** Accepting blocks in causal order is a sequence of steps of [DagViews]. *)
Lemma causal_reachable d v acc now d' : reachable ctx G d v →
  causal G (known v d) (gc_round ctx d) acc → accept_blocks ctx d acc now = Done d' → reachable ctx G d' v.
Proof using Hhonest.
  intros Hr. revert d'. induction acc as [|b acc IH] using rev_ind; intros d' Hc Hrun; [unfold accept_blocks in Hrun; simpl in Hrun; congruence|].
  pose proof (honest_reachable_inv _ _ _ _ _ Hhonest Hr) as Hni.
  pose proof (causal_prefix G (known v d) (gc_round ctx d) acc b Hc) as (Hc' & HGb & Hrd & Hres).
  destruct (accept_causal ctx G byz (hn_universe _ _ _ Hhonest) (hn_own _ _ _ Hhonest) v d acc now Hni Hc')
    as (d1 & Hrun1 & Hni1 & Hgc1 & Hk1).
  unfold accept_blocks in *. rewrite for_each_app, Hrun1 in Hrun. cbn [mbind run_bind] in Hrun.
  rewrite for_each_cons in Hrun. destruct (accept_block ctx d1 b now) as [d2| |] eqn:Hrun2; [|done..].
  simpl in Hrun. injection Hrun as <-.
  apply (reach_event ctx G d1 v (EvAccept b now) d2); [by apply IH| |done].
  split_and!; [done..|]. intros a Ha Hga. rewrite Hgc1 in Hga. apply Hk1.
  destruct (Hres a Ha) as [?|[?|?]]; [by left|by right|lia].
Qed.

Lemma fresh_bm_inv d : bm_inv ctx G view_empty (BlockManager_new ctx) d.
Proof.
  split; [|simpl; by rewrite length_replicate]. split; simpl.
  - intros X s. by rewrite lookup_empty.
  - intros X s a. by rewrite lookup_empty.
  - intros X s. by rewrite lookup_empty.
  - intros a X. unfold children_of. simpl. by rewrite lookup_empty.
  - by intros X ?%elem_of_nil.
  - constructor.
  - done.
  - intros a. rewrite lookup_empty. by intros [? ?].
  - intros X s a. by rewrite lookup_empty.
  - by intros a ?%elem_of_nil.
  - split; [constructor|]. by intros k b ?.
  - intros r. rewrite !lookup_empty. split; [by intros ?%elem_of_empty|by intros ([? ?] & _)].
Qed.

(** The invariant of a managed node. *)
Record managed_inv bm d v : Prop := {
  mi_bm : bm_inv ctx G v bm d;
  mi_reachable : reachable ctx G d v;
}.

Lemma mi_node bm d v : managed_inv bm d v → node_inv ctx G d v.
Proof using Hhonest. intros Hi. apply (honest_reachable_inv _ _ _ _ _ Hhonest), Hi. Qed.

Lemma progress_managed now bm d v blocks bm' d' acc : managed_inv bm d v →
  progress ctx G v now bm d blocks bm' d' acc → managed_inv bm' d' v.
Proof using Hhonest.
  intros Hi Hp. split; [apply Hp|].
  apply (causal_reachable d v acc now); [apply Hi|apply Hp|apply Hp].
Qed.

Lemma node_step_ok bm d v ev : managed_inv bm d v → node_enabled d v ev →
  ∃ bm' d', run_node bm d ev = Done (bm', d') ∧ managed_inv bm' d' (node_view_after d v ev).
Proof using Hhonest.
  intros Hi Hen. pose proof (mi_node _ _ _ Hi) as Hni.
  pose proof (hn_universe _ _ _ Hhonest) as HU. pose proof (hn_own _ _ _ Hhonest) as Hown.
  destruct ev as [blocks now|blocks now|block_refs|now|c now|]; simpl in *.
  - destruct (try_accept_blocks_spec ctx G byz HU Hown v now bm d blocks Hni (mi_bm _ _ _ Hi) Hen)
      as (bm' & d' & acc & miss & -> & Hp & _). exists bm', d'. split; [done|]. by eapply progress_managed.
  - destruct Hen as [HG Hc].
    destruct (try_accept_committed_blocks_spec ctx G byz HU Hown v now bm d blocks Hni (mi_bm _ _ _ Hi) HG Hc)
      as (bm' & d' & acc & -> & Hp & _). exists bm', d'. split; [done|]. by eapply progress_managed.
  - destruct (try_find_blocks_spec ctx G v bm d block_refs Hni (mi_bm _ _ _ Hi) Hen)
      as (bm' & miss & -> & Hbm & _). exists bm', d. split; [done|]. split; [done|apply Hi].
  - destruct (collect_garbage_spec ctx G byz HU Hown v now bm d Hni (mi_bm _ _ _ Hi))
      as (bm' & d' & acc & -> & Hp & _). exists bm', d'. split; [done|]. by eapply progress_managed.
  - destruct (add_commit_view ctx G d v c now Hni Hen) as (d' & Hrun & Hni' & Hgc & Hlk). rewrite Hrun.
    exists bm, d'. split; [done|]. split.
    + destruct (mi_bm _ _ _ Hi) as [Hinv Hrec]. split; [|done]. apply (inv_mono ctx G v bm Hinv Hgc).
      intros r. unfold known. by rewrite Hlk.
    + apply (reach_event ctx G d v (EvCommit c now) d'); [apply Hi|done..].
  - destruct (flush_view ctx G (hn_storable _ _ _ Hhonest) d v Hni) as (d' & Hrun & Hni' & Hgc & Hlk). rewrite Hrun.
    exists bm, d'. split; [done|]. split.
    + destruct (mi_bm _ _ _ Hi) as [Hinv Hrec]. split; [|done].
      apply (inv_mono ctx G v bm Hinv); [by rewrite Hgc|]. intros r. unfold known. by rewrite Hlk.
    + apply (reach_event ctx G d v EvFlush d'); [apply Hi|done..].
Qed.

Lemma managed_invariant bm d v : managed bm d v → managed_inv bm d v.
Proof using Hhonest.
  induction 1 as [store now d Hrel Hnew|bm d v ev bm' d' _ IH Hen Hrun].
  - split; [apply fresh_bm_inv|]. by apply (reach_new ctx G store now).
  - destruct (node_step_ok bm d v ev IH Hen) as (bm1 & d1 & Hrun1 & Hi). congruence.
Qed.
End managed.

(** C16: whatever the order in which verified blocks, certified commits and
    requests arrive, no operation of the block manager panics, and the DAG
    state of a managed node is always one the causally ordered machine of
    [DagViews] reaches: the block manager implements causal acceptance. *)
Theorem managed_node_refines {S} `{StoreLaws S} `{BlockCodec} ctx G byz bm (d : DagState S) v :
  honest_node (S := S) ctx G byz → managed ctx G bm d v →
  reachable ctx G d v ∧
  ∀ ev, node_enabled ctx G d v ev → ∃ bm' d', run_node ctx bm d ev = Done (bm', d').
Proof.
  intros Hh Hm. pose proof (managed_invariant ctx G byz Hh _ _ _ Hm) as Hi. split; [apply Hi|].
  intros ev Hen. destruct (node_step_ok ctx G byz Hh _ _ _ _ Hi Hen) as (bm' & d' & Hrun & _). eauto.
Qed.

(** C27: handling a batch of verified blocks returns the accepted blocks in
    causal order, each once and none known before; exactly these become known.
    Every block of the batch is then known, suspended, or at most the GC
    round; nothing suspended is lost, nothing is made up; and what is reported
    as missing is neither known nor suspended. *)
Theorem try_accept_blocks_correct {S} `{StoreLaws S} `{BlockCodec} ctx G byz bm (d : DagState S) v blocks now :
  honest_node (S := S) ctx G byz → managed ctx G bm d v → from_universe G blocks →
  ∃ bm' d' accepted missing, try_accept_blocks ctx bm d blocks now = Done (bm', d', accepted, missing) ∧
    NoDup (refs accepted) ∧
    (∀ k b, accepted !! k = Some b → ¬ known v d (vb_reference b) ∧
       ∀ a, a ∈ vb_ancestors b → gc_round ctx d < br_round a →
         known v d a ∨ a ∈ refs (take k accepted)) ∧
    (∀ r, known v d' r ↔ known v d r ∨ r ∈ refs accepted) ∧
    (∀ b, b ∈ blocks → known v d' (vb_reference b) ∨
       is_Some (bm_suspended_blocks bm' !! vb_reference b) ∨ vb_round b ≤ gc_round ctx d) ∧
    (∀ X, is_Some (bm_suspended_blocks bm !! X) → is_Some (bm_suspended_blocks bm' !! X) ∨ known v d' X) ∧
    (∀ X, is_Some (bm_suspended_blocks bm' !! X) ∨ X ∈ refs accepted →
       is_Some (bm_suspended_blocks bm !! X) ∨ X ∈ refs blocks) ∧
    (∀ r, r ∈ missing → ¬ known v d' r ∧ bm_suspended_blocks bm' !! r = None).
Proof.
  intros Hh Hm HG. pose proof (managed_invariant ctx G byz Hh _ _ _ Hm) as Hi.
  destruct (try_accept_blocks_spec ctx G byz (hn_universe _ _ _ Hh) (hn_own _ _ _ Hh) v now bm d blocks
    (mi_node ctx G byz Hh _ _ _ Hi) (mi_bm _ _ _ _ _ Hi) HG) as (bm' & d' & acc & miss & Hrun & Hp & Hmiss).
  exists bm', d', acc, miss. destruct (pr_causal _ _ _ _ _ _ _ _ _ _ Hp) as [Hnd Hc].
  split_and!; [done|done| |apply Hp|apply Hp| |apply Hp|].
  - intros k b Hb. destruct (Hc k b Hb) as (_ & _ & ? & Hres). split; [done|].
    intros a Ha Hgc. destruct (Hres a Ha) as [?|[?|?]]; [by left|by right|lia].
  - intros X HX. rewrite (pr_known _ _ _ _ _ _ _ _ _ _ Hp).
    destruct (pr_waiting _ _ _ _ _ _ _ _ _ _ Hp X HX); auto.
  - intros r Hr%Hmiss. eapply missing_unknown; [apply Hp|done].
Qed.

(** C30: blocks of a certified commit, given with or after their ancestors,
    are all accepted: the assertion that nothing is missing and the panic on
    a suspended block cannot happen. *)
Theorem try_accept_committed_blocks_all {S} `{StoreLaws S} `{BlockCodec} ctx G byz bm (d : DagState S) v blocks now :
  honest_node (S := S) ctx G byz → managed ctx G bm d v → from_universe G blocks → complete ctx v d blocks →
  ∃ bm' d' accepted, try_accept_committed_blocks ctx bm d blocks now = Done (bm', d', accepted) ∧
    (∀ b, b ∈ blocks → known v d' (vb_reference b) ∧ bm_suspended_blocks bm' !! vb_reference b = None) ∧
    (∀ r, known v d' r ↔ known v d r ∨ r ∈ refs accepted) ∧
    (∀ X, is_Some (bm_suspended_blocks bm !! X) → is_Some (bm_suspended_blocks bm' !! X) ∨ known v d' X).
Proof.
  intros Hh Hm HG Hc. pose proof (managed_invariant ctx G byz Hh _ _ _ Hm) as Hi.
  destruct (try_accept_committed_blocks_spec ctx G byz (hn_universe _ _ _ Hh) (hn_own _ _ _ Hh) v now bm d blocks
    (mi_node ctx G byz Hh _ _ _ Hi) (mi_bm _ _ _ _ _ Hi) HG Hc) as (bm' & d' & acc & Hrun & Hp & Hk).
  exists bm', d', acc. split_and!; [done| |apply Hp|].
  - intros b Hb. split; [by apply Hk|]. eapply known_not_suspended; [apply Hp|by apply Hk].
  - intros X HX. rewrite (pr_known _ _ _ _ _ _ _ _ _ _ Hp).
    destruct (pr_waiting _ _ _ _ _ _ _ _ _ _ Hp X HX); auto.
Qed.

(** C28: a suspended block always waits, through suspended blocks only, for a
    block in [missing_blocks] that the node does not know: once there is
    nothing left to fetch, nothing is suspended. *)
Theorem suspended_waits_for_missing {S} `{StoreLaws S} `{BlockCodec} ctx G byz bm (d : DagState S) v X :
  honest_node (S := S) ctx G byz → managed ctx G bm d v → is_Some (bm_suspended_blocks bm !! X) →
  ∃ r, r ∈ missing_blocks bm ∧ waits_for bm X r ∧ ¬ known v d r ∧ bm_suspended_blocks bm !! r = None.
Proof.
  intros Hh Hm HX. pose proof (managed_invariant ctx G byz Hh _ _ _ Hm) as Hi.
  destruct (suspended_frontier ctx G byz (hn_universe _ _ _ Hh) v bm d X (mi_bm _ _ _ _ _ Hi) HX)
    as (r & Hr & Hw & Hk). exists r. split_and!; try done.
  eapply missing_unknown; [apply Hi|done].
Qed.

(** C29: after [try_unsuspend_blocks_for_latest_gc_round], which terminates
    without panic, a block that is still suspended has an ancestor above the
    GC round that the node does not know; every other block that was suspended
    is in the DAG state, and nothing at most the GC round is looked for. *)
Theorem gc_releases_suspended {S} `{StoreLaws S} `{BlockCodec} ctx G byz bm (d : DagState S) v now :
  honest_node (S := S) ctx G byz → managed ctx G bm d v →
  ∃ bm' d', try_unsuspend_blocks_for_latest_gc_round ctx bm d now = Done (bm', d') ∧
    (∀ X s, bm_suspended_blocks bm' !! X = Some s →
       ∃ a, a ∈ vb_ancestors (sus_block s) ∧ gc_round ctx d < br_round a ∧ ¬ known v d' a) ∧
    (∀ X, is_Some (bm_suspended_blocks bm !! X) → is_Some (bm_suspended_blocks bm' !! X) ∨ known v d' X) ∧
    (∀ r, r ∈ missing_blocks bm' → gc_round ctx d < br_round r).
Proof.
  intros Hh Hm. pose proof (managed_invariant ctx G byz Hh _ _ _ Hm) as Hi.
  destruct (collect_garbage_spec ctx G byz (hn_universe _ _ _ Hh) (hn_own _ _ _ Hh) v now bm d
    (mi_node ctx G byz Hh _ _ _ Hi) (mi_bm _ _ _ _ _ Hi)) as (bm' & d' & acc & Hrun & Hp & Hkeys).
  exists bm', d'. split_and!; [done|..].
  - intros X s Hs. destruct (suspended_missing ctx G v bm' d' X s) as (a & Ha & Hkey & Hk); [apply Hp|done|].
    exists a. split_and!; [done|by apply Hkeys|done].
  - intros X HX. rewrite (pr_known _ _ _ _ _ _ _ _ _ _ Hp).
    destruct (pr_waiting _ _ _ _ _ _ _ _ _ _ Hp X HX); auto.
  - intros r Hr. apply Hkeys. eapply missing_is_key; [apply Hp|done].
Qed.

(** [try_find_blocks] reports exactly the requested references above the
    GC round that are neither in the DAG state nor suspended, and adds these
    to the missing blocks. *)
Theorem try_find_blocks_exact {S} `{StoreLaws S} `{BlockCodec} ctx G byz bm (d : DagState S) v block_refs :
  honest_node (S := S) ctx G byz → managed ctx G bm d v →
  Forall (λ r, Committee_is_valid_index (ctx_committee ctx) (br_author r)) block_refs →
  ∃ bm' missing, try_find_blocks ctx bm d block_refs = Done (bm', missing) ∧
    (∀ r, r ∈ missing ↔ r ∈ block_refs ∧ gc_round ctx d < br_round r ∧ ¬ known v d r ∧
                        bm_suspended_blocks bm !! r = None) ∧
    missing_blocks bm' = missing_blocks bm ∪ missing ∧
    bm_suspended_blocks bm' = bm_suspended_blocks bm.
Proof.
  intros Hh Hm Hval. pose proof (managed_invariant ctx G byz Hh _ _ _ Hm) as Hi.
  destruct (try_find_blocks_spec ctx G v bm d block_refs (mi_node ctx G byz Hh _ _ _ Hi)
    (mi_bm _ _ _ _ _ Hi) Hval) as (bm' & miss & Hrun & _ & Hs & HM & Hmb). by exists bm', miss.
Qed.

(** ** A concrete node

    The node receives rounds of the grid out of order. *)

Definition receive_batch (ctx : Context) (st : BlockManager * DagState RocksDBStore) (rounds : list byte)
    : BlockManager * DagState RocksDBStore :=
  match run_node ctx st.1 st.2 (NReceive (rounds ≫= grid_round) 0) with Done st => st | _ => st end.
Definition grid_received (i : AuthorityIndex) (batches : list (list byte))
    : BlockManager * DagState RocksDBStore :=
  foldl (receive_batch (grid_node i)) (BlockManager_new (grid_node i), grid_fresh i) batches.

Definition grid_rounds : list byte := [Byte.x01; Byte.x02; Byte.x03; Byte.x04; Byte.x05].

Lemma grid_rounds_universe : Forall (λ r, from_universe grid_universe (grid_round r)) grid_rounds.
Proof. repeat (constructor; [repeat (constructor; [by vm_compute|]); constructor|]). constructor. Qed.

Definition on_grid (rounds : list byte) : bool := forallb (λ r, existsb (Byte.eqb r) grid_rounds) rounds.

Lemma on_grid_universe rounds : on_grid rounds → from_universe grid_universe (rounds ≫= grid_round).
Proof.
  unfold on_grid. rewrite forallb_True. pose proof grid_rounds_universe as HG. rewrite Forall_forall in HG.
  induction 1 as [|r rounds Hr _ IH]; [constructor|]. apply Forall_app. split; [|done]. apply HG.
  apply Is_true_true, existsb_exists in Hr as (x & Hx & Heq). apply Byte.byte_dec_bl in Heq as ->.
  by apply list_elem_of_In.
Qed.

Lemma receive_managed i st batches : (i < 3)%nat → managed (grid_node i) grid_universe st.1 st.2 view_empty →
  forallb on_grid batches →
  managed (grid_node i) grid_universe (foldl (receive_batch (grid_node i)) st batches).1
    (foldl (receive_batch (grid_node i)) st batches).2 view_empty.
Proof.
  intros Hi. revert st. induction batches as [|l batches IH]; intros st Hm Hg; [done|].
  simpl in Hg. apply andb_True in Hg as [Hl%on_grid_universe Hg]. cbn [foldl]. apply IH; [|done].
  unfold receive_batch.
  destruct (node_step_ok (grid_node i) grid_universe {[3%nat]} (grid_honest i Hi) st.1 st.2 view_empty
    (NReceive (l ≫= grid_round) 0)) as (bm' & d' & Hrun & _); [by apply (managed_invariant _ _ {[3%nat]} (grid_honest i Hi))|done|].
  rewrite Hrun. exact (managed_step _ _ _ _ _ (NReceive (l ≫= grid_round) 0) _ _ Hm Hl Hrun).
Qed.

Lemma grid_received_managed i batches : (i < 3)%nat →
  forallb on_grid batches →
  managed (grid_node i) grid_universe (grid_received i batches).1 (grid_received i batches).2 view_empty.
Proof.
  intros Hi Hg. apply receive_managed; [done| |done].
  apply (managed_new _ _ rocks_empty 0); [apply rocks_empty_rel|].
  apply (DagState_new_fresh (grid_node i)); [apply rocks_empty_rel|]. by vm_compute.
Qed.

(** Round 2 has arrived before round 1. *)
Definition waiting_node : BlockManager * DagState RocksDBStore := grid_received 0 [[Byte.x02]].

Lemma waiting_managed : managed (grid_node 0) grid_universe waiting_node.1 waiting_node.2 view_empty.
Proof. apply grid_received_managed; [lia|by vm_compute]. Qed.

Lemma managed_node_refines_witness :
  reachable (grid_node 0) grid_universe waiting_node.2 view_empty ∧
  ∃ bm' d', run_node (grid_node 0) waiting_node.1 waiting_node.2 (NReceive (grid_round Byte.x01) 7) = Done (bm', d').
Proof.
  destruct (managed_node_refines (grid_node 0) grid_universe {[3%nat]} waiting_node.1 waiting_node.2 view_empty
    (grid_honest 0 ltac:(lia)) waiting_managed) as [Hr Hev].
  split; [exact Hr|]. apply Hev. apply (on_grid_universe [Byte.x01]). vm_compute. exact I.
Defined.

Lemma try_accept_blocks_correct_witness :
  size (bm_suspended_blocks waiting_node.1) = 4%nat ∧
  ∃ bm' d' accepted missing,
    try_accept_blocks (grid_node 0) waiting_node.1 waiting_node.2 (grid_round Byte.x01) 7 =
      Done (bm', d', accepted, missing) ∧ NoDup (refs accepted).
Proof.
  split; [vm_compute; reflexivity|].
  destruct (try_accept_blocks_correct (grid_node 0) grid_universe {[3%nat]} waiting_node.1 waiting_node.2
    view_empty (grid_round Byte.x01) 7 (grid_honest 0 ltac:(lia)) waiting_managed) as (bm' & d' & acc & miss & Hrun & Hnd & _).
  { apply (on_grid_universe [Byte.x01]). vm_compute. exact I. }
  exists bm', d', acc, miss. split; [exact Hrun|exact Hnd].
Defined.

Definition completeb (d : DagState RocksDBStore) (blocks : list VerifiedBlock) : bool :=
  forallb (λ b, forallb (λ a, bool_decide (is_Some (dag_lookup d view_empty a)) || bool_decide (a ∈ refs blocks))
    (vb_ancestors b)) blocks.

Lemma completeb_spec ctx d blocks : completeb d blocks → complete ctx view_empty d blocks.
Proof.
  unfold completeb. rewrite forallb_True, Forall_forall. intros Hc b a Hb Ha _. specialize (Hc b Hb).
  simpl in Hc. rewrite forallb_True, Forall_forall in Hc. specialize (Hc a Ha). simpl in Hc.
  by rewrite orb_True, !bool_decide_spec in Hc.
Qed.

Lemma try_accept_committed_blocks_all_witness :
  ∃ bm' d' accepted,
    try_accept_committed_blocks (grid_node 0) waiting_node.1 waiting_node.2
      (grid_round Byte.x02 ++ grid_round Byte.x01) 7 = Done (bm', d', accepted) ∧
    known view_empty d' (vb_reference (store_test_block Byte.x02 Byte.x00)).
Proof.
  destruct (try_accept_committed_blocks_all (grid_node 0) grid_universe {[3%nat]} waiting_node.1 waiting_node.2
    view_empty (grid_round Byte.x02 ++ grid_round Byte.x01) 7 (grid_honest 0 ltac:(lia)) waiting_managed)
    as (bm' & d' & acc & Hrun & Hk & _).
  { apply (on_grid_universe [Byte.x02; Byte.x01]). vm_compute. exact I. }
  { apply completeb_spec. vm_compute. exact I. }
  exists bm', d', acc. split; [exact Hrun|]. apply (Hk (store_test_block Byte.x02 Byte.x00)).
  apply elem_of_app. left. apply list_elem_of_here.
Defined.

Lemma suspended_waits_for_missing_witness :
  ∃ r, r ∈ missing_blocks waiting_node.1 ∧
    waits_for waiting_node.1 (vb_reference (store_test_block Byte.x02 Byte.x00)) r ∧
    ¬ known view_empty waiting_node.2 r ∧ bm_suspended_blocks waiting_node.1 !! r = None.
Proof.
  apply (suspended_waits_for_missing (grid_node 0) grid_universe {[3%nat]} waiting_node.1 waiting_node.2 view_empty
    _ (grid_honest 0 ltac:(lia)) waiting_managed).
  apply (bool_decide_unpack _). vm_compute. exact I.
Defined.

Lemma gc_releases_suspended_witness :
  ∃ bm' d', try_unsuspend_blocks_for_latest_gc_round (grid_node 0) waiting_node.1 waiting_node.2 7 = Done (bm', d').
Proof.
  destruct (gc_releases_suspended (grid_node 0) grid_universe {[3%nat]} waiting_node.1 waiting_node.2 view_empty 7
    (grid_honest 0 ltac:(lia)) waiting_managed) as (bm' & d' & Hrun & _).
  exists bm', d'. exact Hrun.
Defined.

Lemma try_find_blocks_exact_witness :
  ∃ bm' missing,
    try_find_blocks (grid_node 0) waiting_node.1 waiting_node.2 [test_ref 1 0; test_ref 2 0] = Done (bm', missing) ∧
    test_ref 1 0 ∈ missing ∧ (test_ref 2 0 ∉ missing).
Proof.
  destruct (try_find_blocks_exact (grid_node 0) grid_universe {[3%nat]} waiting_node.1 waiting_node.2 view_empty
    [test_ref 1 0; test_ref 2 0] (grid_honest 0 ltac:(lia)) waiting_managed) as (bm' & miss & Hrun & HM & _).
  { apply Forall_cons. split; [vm_compute; exact I|]. apply Forall_cons. split; [vm_compute; exact I|constructor]. }
  exists bm', miss. split; [exact Hrun|]. split.
  - apply HM. split_and!; [apply list_elem_of_here|vm_compute; reflexivity| |vm_compute; reflexivity].
    intros Hk. apply (bool_decide_pack _) in Hk. vm_compute in Hk. exact Hk.
  - intros (_ & _ & _ & Hs)%HM. vm_compute in Hs. discriminate Hs.
Defined.
