(* ===== verification/Linearizer.v ===== *)
(** * The linearizer (consensus/core/src/linearizer.rs)

    Expands committed leaders into sub-dags: the traversal that collects the
    blocks of a commit, the commit timestamp as a median weighted by stake, and
    the creation of the commits. The traversal is written, as in the code,
    against the interface of a block store, which the DAG state implements. *)
From S2P Require Import Prelude Committee StakeAggregator Block ThresholdClock Commit LeaderScoring Store DagState DagStateProofs DagTraversal.

(** [trait BlockStoreAPI]. *)
Class BlockStoreAPI (D : Type) := {
  api_get_blocks : D → list BlockRef → run (list (option VerifiedBlock));
  api_gc_round : D → Round;
  api_set_committed : D → BlockRef → run (D * bool);
  api_is_committed : D → BlockRef → run bool;
}.

Section linearize.
Context {D : Type} `{BlockStoreAPI D}.

(** The [while] loop of [linearize_sub_dag]; the head of [buffer] is the top
    of the stack. *)
Fixpoint linearize_loop (fuel : nat) (gc_round : Round) (d : D) (buffer to_commit : list VerifiedBlock)
    : run (D * list VerifiedBlock) :=
  match buffer with
  | [] => Done (d, to_commit)
  | x :: buffer =>
      match fuel with
      | O => NoFuel
      | Datatypes.S fuel =>
          refs ← filter_run (λ ancestor,
                   if bool_decide (gc_round < br_round ancestor)
                   then committed ← api_is_committed d ancestor; Done (negb committed)
                   else Done false) (vb_ancestors x);
          blocks ← api_get_blocks d refs;
          ancestors ← map_run expect blocks;
          '(d, buffer) ←
            for_each (λ '(d, buffer) ancestor,
                '(d, fresh) ← api_set_committed d (vb_reference ancestor);
                assert! (fresh : bool);
                Done (d, ancestor :: buffer)) (d, buffer) ancestors;
          linearize_loop fuel gc_round d buffer (to_commit ++ [x])
      end
  end.

(** [Linearizer::linearize_sub_dag]. *)
Definition linearize_sub_dag (fuel : nat) (leader_block : VerifiedBlock) (d : D)
    : run (D * list VerifiedBlock) :=
  let gc_round := api_gc_round d in
  '(d, fresh) ← api_set_committed d (vb_reference leader_block);
  assert! (fresh : bool);
  '(d, to_commit) ← linearize_loop fuel gc_round d [leader_block] [];
  assert! forallb (λ b, bool_decide (gc_round < vb_round b)) to_commit;
  Done (d, sort_sub_dag_blocks to_commit).
End linearize.

(** ** The commit timestamp *)

(** [median_timestamps_by_stake_inner]: the loop over the sorted timestamps. *)
Fixpoint median_loop (total_stake cumulative_stake : Stake) (l : list (BlockTimestampMs * Stake))
    : option BlockTimestampMs :=
  match l with
  | [] => None
  | (ts, stake) :: l =>
      let cumulative_stake := u64_add cumulative_stake stake in
      if bool_decide (total_stake / 2 < cumulative_stake) then Some ts
      else median_loop total_stake cumulative_stake l
  end.
Definition median_timestamps_by_stake_inner (timestamps : list (BlockTimestampMs * Stake))
    (total_stake : Stake) : run BlockTimestampMs :=
  let timestamps := sort_by (by_key fst) timestamps in
  match median_loop total_stake 0 timestamps with
  | Some ts => Done ts
  | None => '(ts, _) ← expect (last timestamps); Done ts
  end.

(** The two error messages of [median_timestamp_by_stake]. *)
Inductive MedianError := NoBlocksProvided | BelowQuorum (total_stake quorum_threshold : Stake).

(** [median_timestamp_by_stake]. *)
Definition median_timestamp_by_stake (ctx : Context) (blocks : list VerifiedBlock)
    : run (MedianError + BlockTimestampMs) :=
  '(timestamps, total_stake) ←
    for_each (λ '(timestamps, total_stake) block,
        authority ← Committee_authority (ctx_committee ctx) (vb_author block);
        let stake := a_stake authority in
        Done (timestamps ++ [(vb_timestamp_ms block, stake)], u64_add total_stake stake))
      ([], 0) blocks;
  if bool_decide (timestamps = []) then Done (inl NoBlocksProvided)
  else if bool_decide (total_stake < c_quorum_threshold (ctx_committee ctx))
  then Done (inl (BelowQuorum total_stake (c_quorum_threshold (ctx_committee ctx))))
  else ts ← median_timestamps_by_stake_inner timestamps total_stake; Done (inr ts).

(** [Linearizer::calculate_commit_timestamp]. *)
Definition calculate_commit_timestamp {D} `{BlockStoreAPI D} (ctx : Context) (d : D)
    (leader_block : VerifiedBlock) (last_commit_timestamp_ms : BlockTimestampMs)
    : run BlockTimestampMs :=
  let block_refs :=
    filter (λ r, br_round r = u32_sub (vb_round leader_block) 1) (vb_ancestors leader_block) in
  opts ← api_get_blocks d block_refs;
  blocks ← map_run expect opts;
  median ← median_timestamp_by_stake ctx blocks;
  match median with
  | inl _ => Panic
  | inr timestamp_ms => Done (N.max timestamp_ms last_commit_timestamp_ms)
  end.

(** ** Commits *)

Section linearizer.
Context {S : Type} `{Store S} `{CommitCodec} (ctx : Context) (fuel : nat).

(** [impl BlockStoreAPI for RwLockWriteGuard<DagState>]. *)
#[local] Instance DagState_api : BlockStoreAPI (DagState S) := {|
  api_get_blocks := get_blocks;
  api_gc_round := gc_round ctx;
  api_set_committed := set_committed;
  api_is_committed := is_committed;
|}.

(** [Linearizer::collect_sub_dag_and_commit]. *)
Definition collect_sub_dag_and_commit (d : DagState S) (leader_block : VerifiedBlock)
    : run (DagState S * (CommittedSubDag * TrustedCommit)) :=
  let last_index := last_commit_index d in
  let last_digest := last_commit_digest d in
  let last_timestamp := last_commit_timestamp_ms d in
  '(d, to_commit) ← linearize_sub_dag fuel leader_block d;
  timestamp_ms ← calculate_commit_timestamp ctx d leader_block last_timestamp;
  let commit := Commit_new (u32_add last_index 1) last_digest timestamp_ms
                  (vb_reference leader_block) (vb_reference <$> to_commit) in
  serialized ← expect (bcs_commit_to_bytes commit);
  let commit := TrustedCommit_new_trusted commit serialized in
  Done (d, (CommittedSubDag_new (vb_reference leader_block) to_commit timestamp_ms
              (TrustedCommit_reference commit), commit)).

(** [Linearizer::handle_commit]. *)
Definition handle_commit (d : DagState S) (committed_leaders : list VerifiedBlock) (now : N)
    : run (DagState S * list CommittedSubDag) :=
  for_each (λ '(d, committed_sub_dags) leader_block,
      '(d, (sub_dag, commit)) ← collect_sub_dag_and_commit d leader_block;
      d ← add_commit ctx d commit now;
      Done (d, committed_sub_dags ++ [sub_dag])) (d, []) committed_leaders.
End linearizer.
