(* ===== verification/CommitObserver.v ===== *)
(** * The commit observer (consensus/core/src/commit_observer.rs)

    Turns committed leaders into sub-dags, buffers the commits in the DAG
    state and sends the sub-dags to the commit finalizer; after a restart it
    sends again what the consumer has not processed. The channel to the
    finalizer is the list of sub-dags sent, and a flag that tells whether the
    finalizer still listens. *)
From S2P Require Import Prelude Committee StakeAggregator Block ThresholdClock Commit LeaderScoring Store DagState LeaderSchedule Linearizer.

(** [struct CommitFinalizerHandle]. *)
Record CommitFinalizerHandle := mk_handle {
  cfh_sent : list CommittedSubDag;
  cfh_closed : bool;
}.

(** [CommitFinalizerHandle::send]. *)
Definition CommitFinalizerHandle_send (h : CommitFinalizerHandle) (commit : CommittedSubDag)
    : fallible CommitFinalizerHandle :=
  if cfh_closed h then f_err Shutdown else f_ok (mk_handle (cfh_sent h ++ [commit]) false).

(** The [for] loop that sends. *)
Fixpoint send_commits (h : CommitFinalizerHandle) (commits : list CommittedSubDag) : fallible CommitFinalizerHandle :=
  match commits with
  | [] => f_ok h
  | commit :: commits => h ← CommitFinalizerHandle_send h commit; send_commits h commits
  end.

Definition set_local (local : bool) (s : CommittedSubDag) : CommittedSubDag :=
  mk_subdag (sd_leader s) (sd_blocks s) (sd_timestamp_ms s) (sd_commit_ref s) local
    (sd_reputation_scores_desc s) (sd_rejected_transactions_by_block s).
Definition set_reputation_scores_desc (scores : list (AuthorityIndex * N)) (s : CommittedSubDag) : CommittedSubDag :=
  mk_subdag (sd_leader s) (sd_blocks s) (sd_timestamp_ms s) (sd_commit_ref s) (sd_local s)
    scores (sd_rejected_transactions_by_block s).

Definition COMMIT_RECOVERY_BATCH_SIZE : N := 250.

Section observer.
Context {S : Type} `{Store S} `{CommitCodec} (ctx : Context) (fuel : nat).
Implicit Types (d : DagState S) (h : CommitFinalizerHandle).

(** [CommitObserver::handle_commit]. *)
Definition CommitObserver_handle_commit (schedule : LeaderSchedule) h d (committed_leaders : list VerifiedBlock)
    (local : bool) (now : N) : fallible (CommitFinalizerHandle * DagState S * list CommittedSubDag) :=
  '(d, committed_sub_dags) ← f_run (handle_commit ctx fuel d committed_leaders now);
  let committed_sub_dags := set_local local <$> (committed_sub_dags : list CommittedSubDag) in
  committed_sub_dags ←
    (if leader_schedule_updated d then
       f_run (first ← vec_get committed_sub_dags 0;
              vec_set committed_sub_dags 0
                (set_reputation_scores_desc (lt_reputation_scores_desc (ls_leader_swap_table schedule)) first))
     else f_ok committed_sub_dags);
  h ← send_commits h committed_sub_dags;
  d ← f_run (add_scoring_subdags ctx d committed_sub_dags);
  f_ok (h, d, committed_sub_dags).

(** ** Recovery *)

(** The inner loop over the commits of a batch. *)
Definition resend_commit (store : S) (schedule : LeaderSchedule) (last_commit_index : CommitIndex)
    (st : CommitFinalizerHandle * CommitIndex) (commit : TrustedCommit) : run (CommitFinalizerHandle * CommitIndex) :=
  let '(h, last_sent_commit_index) := st in
  let last_sent_commit_index := u32_add last_sent_commit_index 1 in
  assert! bool_decide (tc_index commit = last_sent_commit_index);
  let reputation_scores :=
    if bool_decide (tc_index commit = last_commit_index)
    then lt_reputation_scores_desc (ls_leader_swap_table schedule) else [] in
  committed_sub_dag ← load_committed_subdag_from_store store commit reputation_scores;
  h ← unwrap_result (CommitFinalizerHandle_send h committed_sub_dag);
  Done (h, last_sent_commit_index).

(** The starts [(first..=last).step_by(size)]. *)
Definition recovery_starts (first last : CommitIndex) : list CommitIndex :=
  (λ i, first + COMMIT_RECOVERY_BATCH_SIZE * N.of_nat i) <$>
    seq 0 (N.to_nat ((last + 1 - first + (COMMIT_RECOVERY_BATCH_SIZE - 1)) / COMMIT_RECOVERY_BATCH_SIZE)).

(** The outer loop over the batches. *)
Fixpoint recover_batches (schedule : LeaderSchedule) (last_commit_index : CommitIndex) h d
    (last_sent_commit_index : CommitIndex) (starts : list CommitIndex)
    : run (CommitFinalizerHandle * DagState S * CommitIndex) :=
  match starts with
  | [] => Done (h, d, last_sent_commit_index)
  | start_index :: starts =>
      let end_index := N.min (u32_saturating_add start_index (COMMIT_RECOVERY_BATCH_SIZE - 1)) last_commit_index in
      unsent_commits ← unwrap_result (store_scan_commits (ds_store d) (CommitRange_new start_index end_index));
      if bool_decide (length unsent_commits = O) then Done (h, d, last_sent_commit_index)
      else
        let d := recover_commits_to_write d unsent_commits in
        '(h, last_sent_commit_index) ←
          for_each (resend_commit (ds_store d) schedule last_commit_index) (h, last_sent_commit_index) unsent_commits;
        if bool_decide (end_index = last_commit_index) then Done (h, d, last_sent_commit_index)
        else recover_batches schedule last_commit_index h d last_sent_commit_index starts
  end.

(** [CommitObserver::recover_and_send_commits]. *)
Definition recover_and_send_commits (schedule : LeaderSchedule) h d (last_processed_commit_index : CommitIndex)
    : run (CommitFinalizerHandle * DagState S) :=
  last_commit ← unwrap_result (store_read_last_commit (ds_store d));
  match last_commit with
  | None => assert! bool_decide (last_processed_commit_index = 0); Done (h, d)
  | Some last_commit =>
      let last_commit_index := tc_index last_commit in
      assert! bool_decide (last_processed_commit_index ≤ last_commit_index);
      if bool_decide (last_commit_index = last_processed_commit_index) then Done (h, d)
      else
        _ ← ensure_commits_to_write_is_empty d;
        '(h, d, last_sent_commit_index) ←
          recover_batches schedule last_commit_index h d last_processed_commit_index
            (recovery_starts (u32_add last_processed_commit_index 1) last_commit_index);
        assert! bool_decide (last_sent_commit_index = last_commit_index);
        Done (h, d)
  end.
End observer.
