(* ===== verification/LinearizerProofs.v ===== *)
(** * Correctness of the linearizer

    A committed leader expands into exactly its uncommitted causal history
    above the GC round, each block once and in order; commits have consecutive
    indices and timestamps that never go back. *)
From Stdlib Require Import Strings.Byte.
From S2P Require Import Prelude Committee StakeAggregator Block ThresholdClock Commit LeaderScoring Store DagState DagStateProofs DagTraversal LeaderSchedule BaseCommitter CommitRule DagViews Linearizer.

(** What the linearizer relies on: a cache of blocks with a committed flag. *)
Class BlockStoreLaws (D : Type) `{BlockStoreAPI D} := {
  api_ok : D → Prop;
  api_cache : D → gmap BlockRef (VerifiedBlock * bool);
  api_same : D → D → Prop;
  api_same_preorder : PreOrder api_same;
  law_api_reference d r b c : api_ok d → api_cache d !! r = Some (b, c) → vb_reference b = r;
  law_api_is_committed d r b c : api_ok d → api_cache d !! r = Some (b, c) →
    api_is_committed d r = Done c;
  law_api_get_blocks d refs bs : api_ok d →
    Forall2 (λ r b, fst <$> api_cache d !! r = Some b) refs bs →
    api_get_blocks d refs = Done (Some <$> bs);
  law_api_set_committed d r b c : api_ok d → api_cache d !! r = Some (b, c) →
    ∃ d', api_set_committed d r = Done (d', negb c) ∧ api_ok d' ∧
      api_cache d' = <[r := (b, true)]> (api_cache d) ∧ api_same d d';
}.
#[global] Existing Instance api_same_preorder.

Section linearize_proofs.
Context {D : Type} `{BlockStoreLaws D}.
Implicit Types (d : D).

(** Committed blocks, and links between cached blocks. *)
Definition api_committed d (r : BlockRef) : Prop := ∃ b, api_cache d !! r = Some (b, true).
Definition api_link d (x y : BlockRef) : Prop :=
  ∃ b c, api_cache d !! x = Some (b, c) ∧ y ∈ vb_ancestors b.

(** Marking a list of distinct, uncommitted blocks. *)
Lemma mark_spec bs d buffer : api_ok d → NoDup (vb_reference <$> bs) →
  (∀ b, b ∈ bs → api_cache d !! vb_reference b = Some (b, false)) →
  ∃ d', for_each (λ '(d, buffer) ancestor,
            '(d, fresh) ← api_set_committed d (vb_reference ancestor);
            assert! (fresh : bool);
            Done (d, ancestor :: buffer)) (d, buffer) bs = Done (d', reverse bs ++ buffer) ∧
    api_ok d' ∧ api_same d d' ∧
    ∀ r, api_cache d' !! r =
      if decide (r ∈ vb_reference <$> bs) then (λ p, (p.1, true)) <$> api_cache d !! r
      else api_cache d !! r.
Proof.
  revert d buffer. induction bs as [|b bs IH]; intros d buffer Hok Hnd Hbs.
  { exists d. split_and!; [done..|]. intros r. by rewrite decide_False by set_solver. }
  csimpl in Hnd. apply NoDup_cons in Hnd as [Hnin Hnd].
  pose proof (Hbs b ltac:(by left)) as Hb.
  destruct (law_api_set_committed d _ _ _ Hok Hb) as (d1 & Hset & Hok1 & Hc1 & Hs1).
  simpl. rewrite Hset. simpl.
  destruct (IH d1 (b :: buffer) Hok1 Hnd) as (d2 & Hrun & Hok2 & Hs2 & Hc2).
  { intros b' Hb'. rewrite Hc1, lookup_insert_ne; [apply Hbs; by right|].
    intros Heq. apply Hnin. rewrite Heq. by apply list_elem_of_fmap_2. }
  exists d2. rewrite Hrun. rewrite reverse_cons, <-app_assoc. split_and!; [done..|by etrans|].
  intros r. rewrite Hc2, Hc1. csimpl. destruct (decide (r = vb_reference b)) as [->|Hne].
  - rewrite decide_False by done. rewrite lookup_insert_eq. rewrite decide_True by left. by rewrite Hb.
  - rewrite lookup_insert_ne by done. apply decide_ext. rewrite elem_of_cons. naive_solver.
Qed.

Context (d0 : D) (leader : VerifiedBlock) (gc : Round).
Context (Hcomplete : ∀ r b c a, api_cache d0 !! r = Some (b, c) → a ∈ vb_ancestors b →
  gc < br_round a → is_Some (api_cache d0 !! a)).
Context (Hdistinct : ∀ r b c, api_cache d0 !! r = Some (b, c) → NoDup (vb_ancestors b)).

Record lin_inv d (buffer to_commit : list VerifiedBlock) : Prop := {
  lv_ok : api_ok d;
  lv_same : api_same d0 d;
  lv_blocks r : fst <$> api_cache d !! r = fst <$> api_cache d0 !! r;
  lv_committed r : api_committed d r ↔
    api_committed d0 r ∨ r ∈ vb_reference <$> (buffer ++ to_commit);
  lv_nodup : NoDup (vb_reference <$> (buffer ++ to_commit));
  lv_new b : b ∈ buffer ++ to_commit →
    api_cache d0 !! vb_reference b = Some (b, false) ∧ gc < vb_round b ∧
    rtc (api_link d0) (vb_reference leader) (vb_reference b);
  lv_closed b a : b ∈ to_commit → a ∈ vb_ancestors b → gc < br_round a → api_committed d a;
  lv_leader : leader ∈ buffer ++ to_commit;
}.

(** The uncommitted ancestors of a block, and the flag the code reads. *)
Definition uncommitted_flag d (a : BlockRef) : bool :=
  match api_cache d !! a with Some (_, c) => negb c | None => false end.

Lemma uncommitted_flag_spec d a : uncommitted_flag d a ↔ ∃ b, api_cache d !! a = Some (b, false).
Proof.
  clear. unfold uncommitted_flag. destruct (api_cache d !! a) as [[b []]|]; simpl; naive_solver.
Qed.

(** The blocks behind a list of cached references. *)
Lemma cached_blocks d refs : (∀ r, r ∈ refs → is_Some (api_cache d !! r)) →
  ∃ bs, Forall2 (λ r b, fst <$> api_cache d !! r = Some b) refs bs.
Proof.
  clear. induction refs as [|r refs IH]; intros Hall; [exists []; constructor|].
  destruct IH as [bs Hbs]; [intros; apply Hall; by right|].
  destruct (Hall r) as [[b c] Hb]; [by left|]. exists (b :: bs). constructor; [by rewrite Hb|done].
Qed.

(** The ancestors that one iteration pushes. *)
Lemma next_ancestors d x buffer to_commit : lin_inv d (x :: buffer) to_commit →
  ∃ bs, filter_run (λ ancestor,
            if bool_decide (gc < br_round ancestor)
            then committed ← api_is_committed d ancestor; Done (negb committed)
            else Done false) (vb_ancestors x) = Done (vb_reference <$> bs) ∧
    api_get_blocks d (vb_reference <$> bs) = Done (Some <$> bs) ∧
    NoDup (vb_reference <$> bs) ∧
    (∀ b, b ∈ bs → api_cache d !! vb_reference b = Some (b, false)) ∧
    ∀ r, r ∈ vb_reference <$> bs ↔ r ∈ vb_ancestors x ∧ gc < br_round r ∧ ¬ api_committed d r.
Proof using Hcomplete Hdistinct.
  intros Hinv. destruct (lv_new _ _ _ Hinv x) as (Hx & _ & _); [by left|].
  assert (Hcached : ∀ a, a ∈ vb_ancestors x → gc < br_round a → is_Some (api_cache d !! a)).
  { intros a Ha Hgc. destruct (Hcomplete _ _ _ a Hx Ha Hgc) as [[b c] Hb].
    pose proof (lv_blocks _ _ _ Hinv a) as Hbl. rewrite Hb in Hbl.
    destruct (api_cache d !! a); [eauto|done]. }
  set (p := λ a, bool_decide (gc < br_round a) && uncommitted_flag d a).
  destruct (cached_blocks d (filter p (vb_ancestors x))) as [bs Hbs].
  { intros r [Hp Hr]%list_elem_of_filter. unfold p in Hp.
    rewrite andb_True, bool_decide_spec in Hp. apply Hcached; tauto. }
  assert (Hrefs : filter p (vb_ancestors x) = vb_reference <$> bs).
  { clear -Hbs Hinv. induction Hbs as [|r b refs bs Hb _ IH]; [done|]. csimpl. rewrite <-IH. f_equal.
    destruct (api_cache d !! r) as [[b' c]|] eqn:Hr; simplify_eq/=.
    symmetry. by eapply law_api_reference; [apply Hinv|]. }
  exists bs. split_and!.
  - rewrite <-Hrefs. apply filter_run_pure. intros a Ha. unfold p. case_bool_decide as Hgc; [|done].
    destruct (Hcached a Ha Hgc) as [[b c] Hb].
    rewrite (law_api_is_committed d a b c) by (apply Hinv || done). simpl.
    unfold uncommitted_flag. by rewrite Hb.
  - apply law_api_get_blocks; [apply Hinv|]. by rewrite <-Hrefs.
  - rewrite <-Hrefs. apply NoDup_filter. by eapply Hdistinct.
  - intros b Hb. assert (vb_reference b ∈ vb_reference <$> bs) as Hin by (by apply list_elem_of_fmap_2).
    rewrite <-Hrefs in Hin. apply list_elem_of_filter in Hin as [[_ Hp]%andb_True _].
    apply uncommitted_flag_spec in Hp as [b' Hb']. rewrite Hb'. do 2 f_equal.
    apply list_elem_of_lookup in Hb as [i Hi]. destruct (Forall2_lookup_r _ _ _ _ _ Hbs Hi) as (r & Hr & Hrb).
    rewrite Hrefs, list_lookup_fmap, Hi in Hr. simpl in Hr. injection Hr as <-.
    rewrite Hb' in Hrb. by injection Hrb.
  - intros r. rewrite <-Hrefs, list_elem_of_filter. unfold p.
    rewrite andb_True, bool_decide_spec, uncommitted_flag_spec. unfold api_committed.
    split; [intros [[Hgc [b Hb]] Hr]; split_and!; [done..|]; intros [b' Hb']; congruence|].
    intros (Hr & Hgc & Hnc). split_and!; [done| |done].
    destruct (Hcached r Hr Hgc) as [[b []] Hb]; [|eauto]. destruct Hnc; eauto.
Qed.

Lemma lin_step d x buffer to_commit bs d' : lin_inv d (x :: buffer) to_commit →
  NoDup (vb_reference <$> bs) →
  (∀ b, b ∈ bs → api_cache d !! vb_reference b = Some (b, false)) →
  (∀ r, r ∈ vb_reference <$> bs ↔ r ∈ vb_ancestors x ∧ gc < br_round r ∧ ¬ api_committed d r) →
  api_ok d' → api_same d d' →
  (∀ r, api_cache d' !! r =
     if decide (r ∈ vb_reference <$> bs) then (λ p, (p.1, true)) <$> api_cache d !! r
     else api_cache d !! r) →
  lin_inv d' (reverse bs ++ buffer) (to_commit ++ [x]).
Proof using Hcomplete.
  clear Hdistinct. intros Hinv Hnd Hbs Hin Hok' Hs' Hc'.
  assert (Hperm : (reverse bs ++ buffer) ++ to_commit ++ [x] ≡ₚ bs ++ (x :: buffer) ++ to_commit).
  { rewrite reverse_Permutation. solve_Permutation. }
  assert (Hcm : ∀ r, api_committed d' r ↔ api_committed d r ∨ r ∈ vb_reference <$> bs).
  { intros r. unfold api_committed. rewrite Hc'. case_decide as Hd.
    - split; [by right|]. intros _. apply list_elem_of_fmap in Hd as (b & -> & Hb).
      rewrite (Hbs b Hb). simpl. eauto.
    - split; [by left|]. by intros [?|?]. }
  split.
  - done.
  - etrans; [apply Hinv|done].
  - intros r. rewrite Hc', <-(lv_blocks _ _ _ Hinv r). case_decide; [|done].
    by destruct (api_cache d !! r).
  - intros r. rewrite Hperm, Hcm, (lv_committed _ _ _ Hinv), !fmap_app, !elem_of_app. tauto.
  - rewrite Hperm, fmap_app. apply NoDup_app. split; [done|]. split; [|apply Hinv].
    intros r (_ & _ & Hnc)%Hin Hr. apply Hnc, (lv_committed _ _ _ Hinv). by right.
  - intros b. rewrite Hperm, elem_of_app. intros [Hb|Hb]; [|by apply (lv_new _ _ _ Hinv)].
    assert (vb_reference b ∈ vb_reference <$> bs) as (Ha & Hgc & Hnc)%Hin by (by apply list_elem_of_fmap_2).
    destruct (lv_new _ _ _ Hinv x) as (Hx & _ & Hreach); [by left|].
    pose proof (lv_blocks _ _ _ Hinv (vb_reference b)) as Hbl. rewrite (Hbs b Hb) in Hbl.
    destruct (api_cache d0 !! vb_reference b) as [[b' c]|] eqn:Hb0; [|done].
    simpl in Hbl. injection Hbl as <-. split_and!; [|done|].
    + destruct c; [|done]. destruct Hnc. apply (lv_committed _ _ _ Hinv). left. by exists b.
    + eapply rtc_r; [done|]. by exists x, false.
  - intros b a [Hb|Hb%list_elem_of_singleton]%elem_of_app Ha Hgc; rewrite Hcm.
    + left. by eapply (lv_closed _ _ _ Hinv).
    + subst b. destruct (decide (a ∈ vb_reference <$> bs)) as [?|Hn]; [by right|left].
      assert (is_Some (api_cache d0 !! a)) as [[b0 c0] Hb0].
      { destruct (lv_new _ _ _ Hinv x) as (Hx & _ & _); [by left|]. by eapply Hcomplete. }
      pose proof (lv_blocks _ _ _ Hinv a) as Hbl. rewrite Hb0 in Hbl.
      destruct (api_cache d !! a) as [[b1 []]|] eqn:Hb1; [by exists b1| |done].
      destruct Hn. apply Hin. split_and!; [done..|]. intros [b2 Hb2]. congruence.
  - rewrite Hperm. apply elem_of_app. right. apply Hinv.
Qed.

(** One iteration per collected block. *)
Lemma linearize_loop_spec fuel d buffer to_commit : lin_inv d buffer to_commit →
  (size (api_cache d0) ≤ length to_commit + fuel)%nat →
  ∃ d' blocks, linearize_loop fuel gc d buffer to_commit = Done (d', blocks) ∧ lin_inv d' [] blocks.
Proof using Hcomplete Hdistinct.
  revert d buffer to_commit. induction fuel as [|fuel IH]; intros d buffer to_commit Hinv Hsize.
  - destruct buffer as [|x buffer]; [by exists d, to_commit|]. exfalso.
    assert (length (vb_reference <$> (x :: buffer) ++ to_commit) ≤ size (dom (api_cache d0)))%nat as Hle.
    { rewrite <-(size_list_to_set (C := gset BlockRef)) by apply Hinv. apply subseteq_size.
      intros r (b & -> & Hb)%elem_of_list_to_set%list_elem_of_fmap.
      destruct (lv_new _ _ _ Hinv b Hb) as (Hb0 & _). apply elem_of_dom. eauto. }
    rewrite size_dom, length_fmap in Hle. simpl in Hle. rewrite length_app in Hle. lia.
  - destruct buffer as [|x buffer]; [by exists d, to_commit|]. simpl.
    destruct (next_ancestors d x buffer to_commit Hinv) as (bs & -> & Hget & Hnd & Hbs & Hin).
    simpl. rewrite Hget. simpl. rewrite map_run_expect_Some. simpl.
    destruct (mark_spec bs d buffer (lv_ok _ _ _ Hinv) Hnd Hbs) as (d' & -> & Hok' & Hs' & Hc').
    simpl. apply IH; [by eapply lin_step|]. rewrite length_app. simpl. lia.
Qed.

Lemma linearize_sub_dag_spec fuel : api_gc_round d0 = gc → api_ok d0 →
  api_cache d0 !! vb_reference leader = Some (leader, false) → gc < vb_round leader →
  (size (api_cache d0) ≤ fuel)%nat →
  ∃ d' blocks to_commit, linearize_sub_dag fuel leader d0 = Done (d', blocks) ∧
    blocks = sort_sub_dag_blocks to_commit ∧ lin_inv d' [] to_commit ∧ leader ∈ to_commit.
Proof using Hcomplete Hdistinct.
  intros Hgc Hok Hleader Hround Hsize. unfold linearize_sub_dag. rewrite Hgc.
  destruct (law_api_set_committed d0 _ _ _ Hok Hleader) as (d1 & Hset & Hok1 & Hc1 & Hs1).
  rewrite Hset. simpl.
  assert (Hinv1 : lin_inv d1 [leader] []).
  { split; simpl; [done..| | |apply NoDup_singleton| |set_solver|left].
    - intros r. rewrite Hc1. destruct (decide (r = vb_reference leader)) as [->|Hne];
        [by rewrite lookup_insert_eq, Hleader|by rewrite lookup_insert_ne].
    - intros r. unfold api_committed. rewrite Hc1, list_elem_of_singleton.
      destruct (decide (r = vb_reference leader)) as [->|Hne].
      + rewrite lookup_insert_eq. split; [by right|eauto].
      + rewrite lookup_insert_ne by done. split; [by left|by intros [?|?]].
    - by intros b ->%list_elem_of_singleton. }
  destruct (linearize_loop_spec fuel d1 [leader] [] Hinv1 Hsize) as (d2 & to_commit & -> & Hinv2).
  simpl. assert (forallb (λ b, bool_decide (gc < vb_round b)) to_commit = true) as ->.
  { apply Is_true_true_1, forallb_True, Forall_forall. intros b Hb. apply bool_decide_spec.
    by apply (lv_new _ _ _ Hinv2). }
  simpl. exists d2, (sort_sub_dag_blocks to_commit), to_commit. split_and!; [done..|].
  apply Hinv2.
Qed.
(** Committed blocks bring their ancestors above the GC round with them. *)
Definition committed_closed d : Prop :=
  ∀ r b a, api_cache d !! r = Some (b, true) → a ∈ vb_ancestors b → gc < br_round a →
    api_committed d a.

Context (Hrounds : ∀ x y, api_link d0 x y → br_round y < br_round x).
Context (Hclosed : committed_closed d0).

Lemma lin_inv_closed d blocks : lin_inv d [] blocks → committed_closed d.
Proof using Hclosed.
  clear Hcomplete Hdistinct Hrounds. intros Hinv r b a Hr Ha Hgc.
  pose proof (lv_blocks _ _ _ Hinv r) as Hbl. rewrite Hr in Hbl.
  destruct (api_cache d0 !! r) as [[b0 c0]|] eqn:Hr0; [|done]. simpl in Hbl. injection Hbl as <-.
  assert (api_committed d r) as [[b' Hb']|Hin]%(lv_committed _ _ _ Hinv) by (by exists b).
  - apply (lv_committed _ _ _ Hinv). left. rewrite Hr0 in Hb'. injection Hb' as _ ->. by eapply Hclosed.
  - apply list_elem_of_fmap in Hin as (b' & -> & Hb'). simpl in Hb'.
    destruct (lv_new _ _ _ Hinv b' Hb') as (Hb0 & _). rewrite Hr0 in Hb0. simplify_eq.
    by eapply (lv_closed _ _ _ Hinv).
Qed.

Lemma api_rtc_round x y : rtc (api_link d0) x y → x = y ∨ br_round y < br_round x.
Proof using Hrounds.
  clear Hcomplete Hdistinct Hclosed. induction 1 as [|x z y Hxz _ IH]; [by left|]. right. apply Hrounds in Hxz.
  destruct IH as [->|]; lia.
Qed.

(** The collected blocks are the whole uncommitted history. *)
Lemma lin_inv_history d blocks r : lin_inv d [] blocks →
  r ∈ vb_reference <$> blocks ↔
  rtc (api_link d0) (vb_reference leader) r ∧ gc < br_round r ∧ ¬ api_committed d0 r.
Proof using Hclosed Hrounds.
  clear Hcomplete Hdistinct. intros Hinv. split.
  - intros (b & -> & Hb)%list_elem_of_fmap. destruct (lv_new _ _ _ Hinv b Hb) as (Hb0 & Hgc & Hreach).
    split_and!; [done..|]. intros [b' Hb']. congruence.
  - intros (Hreach & Hgc & Hnc).
    assert (Hall : ∀ x y, rtc (api_link d0) x y → gc < br_round y → api_committed d x → api_committed d y).
    { induction 1 as [|x z y Hxz Hzy IH]; [done|]. intros Hy [b Hb]. apply IH; [done|].
      destruct Hxz as (b0 & c0 & Hb0 & Hz).
      pose proof (lv_blocks _ _ _ Hinv x) as Hbl. rewrite Hb, Hb0 in Hbl. simpl in Hbl. injection Hbl as ->.
      eapply lin_inv_closed; [done..|]. destruct (api_rtc_round _ _ Hzy) as [->|]; lia. }
    assert (api_committed d r) as [?|?]%(lv_committed _ _ _ Hinv); [|done|done].
    apply (Hall _ _ Hreach Hgc), (lv_committed _ _ _ Hinv). right.
    apply list_elem_of_fmap_2. apply Hinv.
Qed.
End linearize_proofs.

(** C18: [linearize_sub_dag] always terminates and, from a leader above the GC
    round that is not committed yet, returns exactly the blocks of its causal
    history above the GC round that no earlier commit contains: each of them
    once, ordered by round and author, all of them marked as committed
    afterwards and nothing else. Committed blocks stay closed under
    ancestors above the GC round. *)
Theorem linearize_sub_dag_correct {D} `{BlockStoreLaws D} (d : D) leader fuel :
  api_ok d → api_cache d !! vb_reference leader = Some (leader, false) →
  api_gc_round d < vb_round leader →
  (∀ r b c a, api_cache d !! r = Some (b, c) → a ∈ vb_ancestors b →
     api_gc_round d < br_round a → is_Some (api_cache d !! a)) →
  (∀ r b c, api_cache d !! r = Some (b, c) → NoDup (vb_ancestors b)) →
  (∀ x y, api_link d x y → br_round y < br_round x) →
  committed_closed (api_gc_round d) d → (size (api_cache d) ≤ fuel)%nat →
  ∃ d' blocks, linearize_sub_dag fuel leader d = Done (d', blocks) ∧
    NoDup (vb_reference <$> blocks) ∧ StronglySorted sub_dag_le blocks ∧
    (∀ r, r ∈ vb_reference <$> blocks ↔
       rtc (api_link d) (vb_reference leader) r ∧ api_gc_round d < br_round r ∧ ¬ api_committed d r) ∧
    (∀ r, api_committed d' r ↔ api_committed d r ∨ r ∈ vb_reference <$> blocks) ∧
    committed_closed (api_gc_round d) d'.
Proof.
  intros Hok Hl Hgc Hcomplete Hdistinct Hrounds Hclosed Hfuel.
  destruct (linearize_sub_dag_spec d leader (api_gc_round d) Hcomplete Hdistinct fuel eq_refl Hok Hl Hgc
    Hfuel) as (d' & blocks & to_commit & Hrun & -> & Hinv & _).
  assert (Hperm : vb_reference <$> sort_sub_dag_blocks to_commit ≡ₚ vb_reference <$> to_commit)
    by (by rewrite sort_sub_dag_blocks_Permutation).
  exists d', (sort_sub_dag_blocks to_commit). split_and!; [done|..].
  - rewrite Hperm. apply Hinv.
  - apply sort_by_sorted. unfold sub_dag_le. apply _.
  - intros r. rewrite Hperm. by apply (lin_inv_history d leader (api_gc_round d) Hrounds Hclosed d').
  - intros r. rewrite Hperm. apply (lv_committed _ _ _ _ _ _ Hinv).
  - by eapply (lin_inv_closed d leader).
Qed.

(** ** The commit timestamp *)

Abbreviation stakes l := (sumN (snd <$> l)).

Lemma median_loop_spec total acc (l : list (BlockTimestampMs * Stake)) :
  acc + stakes l ≤ u64_max → acc ≤ total / 2 → total / 2 < acc + stakes l →
  ∃ l1 t s l2, median_loop total acc l = Some t ∧ l = l1 ++ (t, s) :: l2 ∧
    acc + stakes l1 ≤ total / 2 ∧ total / 2 < acc + stakes l1 + s.
Proof.
  revert acc. induction l as [|[t s] l IH]; intros acc Hmax Hacc Hgt; csimpl in *; [lia|].
  rewrite u64_add_small by lia. case_bool_decide as Hd.
  - exists [], t, s, l. csimpl. split_and!; [done..|lia|lia].
  - destruct (IH (acc + s)) as (l1 & t' & s' & l2 & Hrun & -> & H1 & H2); [lia..|].
    exists ((t, s) :: l1), t', s', l2. csimpl. split_and!; [done..|lia|lia].
Qed.

Section median.
Context (ctx : Context) (Hok : committee_ok (ctx_committee ctx)).
Abbreviation cm := (ctx_committee ctx).
Implicit Types (blocks : list VerifiedBlock).

Definition stamp (b : VerifiedBlock) : BlockTimestampMs * Stake :=
  (vb_timestamp_ms b, stake_at cm (vb_author b)).
Definition authors blocks : gset AuthorityIndex := list_to_set (vb_author <$> blocks).

Lemma stamps_stake blocks : NoDup (vb_author <$> blocks) →
  stakes (stamp <$> blocks) = set_stake cm (authors blocks).
Proof.
  intros Hnd. unfold authors. rewrite set_stake_list by done.
  f_equal. by rewrite <-!list_fmap_compose.
Qed.

Lemma stamps_filter_stake (P : BlockTimestampMs → Prop) `{∀ t, base.Decision (P t)} blocks :
  NoDup (vb_author <$> blocks) →
  stakes (filter (λ p, P p.1) (stamp <$> blocks)) =
    set_stake cm (authors (filter (λ b, P (vb_timestamp_ms b)) blocks)).
Proof.
  intros Hnd. rewrite filter_fmap, <-stamps_stake; [done|].
  eapply sublist_NoDup; [exact Hnd|]. apply fmap_sublist, sublist_filter.
Qed.

Lemma collect_stamps blocks acc total :
  Forall (λ b, Committee_is_valid_index cm (vb_author b)) blocks →
  total + stakes (stamp <$> blocks) ≤ u64_max →
  for_each (λ '(timestamps, total_stake) block,
        authority ← Committee_authority cm (vb_author block);
        let stake := a_stake authority in
        Done (timestamps ++ [(vb_timestamp_ms block, stake)], u64_add total_stake stake))
      (acc, total) blocks = Done (acc ++ (stamp <$> blocks), total + stakes (stamp <$> blocks)).
Proof.
  revert acc total. induction blocks as [|b blocks IH]; intros acc total Hv Hmax; csimpl in *.
  { by rewrite app_nil_r, N.add_0_r. }
  apply Forall_cons in Hv as [Hb Hv].
  assert (∃ a, Committee_authority cm (vb_author b) = Done a ∧ a_stake a = stake_at cm (vb_author b))
    as (a & -> & Ha).
  { unfold Committee_is_valid_index, Committee_size in Hb. rewrite bool_decide_spec in Hb.
    apply lookup_lt_is_Some in Hb as [a Ha]. exists a. unfold Committee_authority, vec_get, stake_at.
    by rewrite Ha. }
  simpl. rewrite Ha, u64_add_small by lia. rewrite IH by (done || lia).
  rewrite <-app_assoc. do 2 f_equal. lia.
Qed.

Lemma sorted_split (l1 l2 : list (BlockTimestampMs * Stake)) x :
  StronglySorted (by_key fst) (l1 ++ x :: l2) →
  Forall (λ p, p.1 ≤ x.1) l1 ∧ Forall (λ p, x.1 ≤ p.1) l2.
Proof.
  clear. induction l1 as [|y l1 IH]; simpl; intros Hs; apply StronglySorted_inv in Hs as [Hs Hf].
  - split; [constructor|]. eapply Forall_impl; [exact Hf|]. intros p. unfold by_key.
    by rewrite bool_decide_spec.
  - destruct (IH Hs) as [H1 H2]. split; [|done]. constructor; [|done].
    apply Forall_app in Hf as [_ [Hx _]%Forall_cons]. unfold by_key in Hx. by rewrite bool_decide_spec in Hx.
Qed.

Lemma stakes_app (l1 l2 : list (BlockTimestampMs * Stake)) : stakes (l1 ++ l2) = stakes l1 + stakes l2.
Proof. by rewrite fmap_app, sumN_app. Qed.

Lemma stakes_perm (l1 l2 : list (BlockTimestampMs * Stake)) : l1 ≡ₚ l2 → stakes l1 = stakes l2.
Proof.
  intros Hp. apply N.le_antisymm; apply sumN_submseteq, fmap_submseteq; by rewrite Hp.
Qed.

Lemma stakes_filter_perm (P : BlockTimestampMs * Stake → Prop) `{∀ p, base.Decision (P p)} l1 l2 :
  l1 ≡ₚ l2 → stakes (filter P l1) = stakes (filter P l2).
Proof. intros Hp. apply stakes_perm. by rewrite Hp. Qed.

Lemma filter_Forall_id {A} (P : A → Prop) `{∀ p, base.Decision (P p)} (l : list A) :
  Forall P l → filter P l = l.
Proof. induction 1 as [|x l Hx _ IH]; [done|]. rewrite filter_cons, decide_True by done. by rewrite IH. Qed.

(** The stake at or below, and at or above the median. *)
Lemma median_inner_spec (l : list (BlockTimestampMs * Stake)) :
  0 < stakes l → stakes l ≤ u64_max →
  ∃ t, median_timestamps_by_stake_inner l (stakes l) = Done t ∧
    stakes l / 2 < stakes (filter (λ p, p.1 ≤ t) l) ∧
    stakes l ≤ stakes l / 2 + stakes (filter (λ p, t ≤ p.1) l).
Proof.
  intros Hpos Hmax. unfold median_timestamps_by_stake_inner.
  pose proof (sort_by_Permutation (by_key fst) l) as Hp. pose proof (stakes_perm _ _ Hp) as Hst.
  pose proof (sort_by_sorted (by_key fst) l) as Hs.
  set (l' := sort_by (by_key fst) l) in *.
  assert (Hhalf : stakes l / 2 < stakes l) by (apply N.div_lt; lia).
  destruct (median_loop_spec (stakes l) 0 l') as (l1 & t & s & l2 & -> & Hl' & H1 & H2);
    [by rewrite Hst|apply N.le_0_l|by rewrite Hst|].
  exists t. split; [done|]. rewrite Hl' in Hs. apply sorted_split in Hs as [Hlo Hhi]. simpl in *.
  rewrite Hl', stakes_app in Hst. csimpl in Hst.
  rewrite <-(stakes_filter_perm (λ p, p.1 ≤ t) _ _ Hp), <-(stakes_filter_perm (λ p, t ≤ p.1) _ _ Hp).
  rewrite Hl', !filter_app, !filter_cons, !decide_True by (simpl; lia). rewrite !stakes_app. csimpl.
  rewrite (filter_Forall_id (λ p, p.1 ≤ t) l1), (filter_Forall_id (λ p, t ≤ p.1) l2) by done. lia.
Qed.

Lemma stamps_total blocks : NoDup (vb_author <$> blocks) → stakes (stamp <$> blocks) ≤ u64_max.
Proof using Hok.
  intros Hnd. rewrite stamps_stake by done.
  pose proof (set_stake_le_total cm Hok (authors blocks)). pose proof (ok_total_bound cm Hok). lia.
Qed.

Lemma authors_member (P : VerifiedBlock → Prop) `{∀ b, base.Decision (P b)} blocks h :
  h ∈ authors (filter P blocks) → ∃ b, b ∈ blocks ∧ P b ∧ vb_author b = h.
Proof.
  clear. unfold authors. rewrite elem_of_list_to_set, list_elem_of_fmap.
  intros (b & -> & [? ?]%list_elem_of_filter). eauto.
Qed.

Lemma median_timestamp_Done blocks :
  NoDup (vb_author <$> blocks) → Forall (λ b, Committee_is_valid_index cm (vb_author b)) blocks →
  c_quorum_threshold cm ≤ set_stake cm (authors blocks) →
  ∃ t, median_timestamp_by_stake ctx blocks = Done (inr t) ∧
    set_stake cm (authors blocks) / 2 <
      set_stake cm (authors (filter (λ b, vb_timestamp_ms b ≤ t) blocks)) ∧
    set_stake cm (authors blocks) ≤ set_stake cm (authors blocks) / 2 +
      set_stake cm (authors (filter (λ b, t ≤ vb_timestamp_ms b) blocks)).
Proof using Hok.
  intros Hnd Hv Hq. unfold median_timestamp_by_stake.
  rewrite collect_stamps by (done || (rewrite N.add_0_l; by apply stamps_total)).
  pose proof (stamps_stake blocks Hnd) as Hst. pose proof (quorum_pos cm Hok).
  rewrite N.add_0_l. cbn -[stakes fmap].
  rewrite bool_decide_eq_false_2; [|destruct blocks; [|done]; simpl in Hst; lia].
  rewrite bool_decide_eq_false_2 by lia.
  destruct (median_inner_spec (stamp <$> blocks)) as (t & Hrun & H1 & H2);
    [lia|by apply stamps_total|].
  rewrite Hrun. simpl. exists t. split; [done|].
  pose proof (stamps_filter_stake (λ x, x ≤ t) blocks Hnd) as E1. cbn beta in E1.
  pose proof (stamps_filter_stake (λ x, t ≤ x) blocks Hnd) as E2. cbn beta in E2.
  rewrite E1 in H1. rewrite E2 in H2. by rewrite Hst in H1, H2.
Qed.

(** C31: the commit timestamp cannot be moved by Byzantine authorities. For
    blocks of distinct authorities the median is an error exactly when there
    are no blocks or their stake is below the quorum; otherwise it lies
    between the timestamps of two honest authorities, whatever timestamps
    authorities of less than the validity threshold report. *)
Theorem median_timestamp_honest blocks byz :
  NoDup (vb_author <$> blocks) → Forall (λ b, Committee_is_valid_index cm (vb_author b)) blocks →
  set_stake cm byz < c_validity_threshold cm →
  if decide (blocks = []) then median_timestamp_by_stake ctx blocks = Done (inl NoBlocksProvided)
  else if decide (set_stake cm (authors blocks) < c_quorum_threshold cm) then
    median_timestamp_by_stake ctx blocks =
      Done (inl (BelowQuorum (set_stake cm (authors blocks)) (c_quorum_threshold cm)))
  else ∃ t b1 b2, median_timestamp_by_stake ctx blocks = Done (inr t) ∧
    b1 ∈ blocks ∧ (vb_author b1 ∉ byz) ∧ vb_timestamp_ms b1 ≤ t ∧
    b2 ∈ blocks ∧ (vb_author b2 ∉ byz) ∧ t ≤ vb_timestamp_ms b2.
Proof using Hok.
  intros Hnd Hv Hbyz. destruct (decide (blocks = [])) as [->|Hne]; [done|]. case_decide as Hq.
  - unfold median_timestamp_by_stake.
    rewrite collect_stamps by (done || (rewrite N.add_0_l; by apply stamps_total)). simpl.
    rewrite bool_decide_eq_false_2 by (by destruct blocks).
    rewrite stamps_stake by done. by rewrite bool_decide_eq_true_2.
  - destruct (median_timestamp_Done blocks Hnd Hv) as (t & Hrun & H1 & H2); [lia|].
    pose proof (two_validities cm Hok).
    assert (c_validity_threshold cm ≤ set_stake cm (authors blocks) / 2 + 1) as Hhalf.
    { pose proof (N.div_mod (set_stake cm (authors blocks)) 2 ltac:(lia)).
      pose proof (N.mod_lt (set_stake cm (authors blocks)) 2 ltac:(lia)). lia. }
    assert (2 * (set_stake cm (authors blocks) / 2) ≤ set_stake cm (authors blocks))
      by (apply N.Div0.mul_div_le).
    destruct (honest_member cm (authors (filter (λ b, vb_timestamp_ms b ≤ t) blocks)) byz)
      as (h1 & (b1 & Hb1 & Ht1 & Ha1)%authors_member & Hh1); [lia|].
    destruct (honest_member cm (authors (filter (λ b, t ≤ vb_timestamp_ms b) blocks)) byz)
      as (h2 & (b2 & Hb2 & Ht2 & Ha2)%authors_member & Hh2); [lia|].
    exists t, b1, b2. subst. done.
Qed.
End median.

(** ** The DAG state as the block store *)

Section dag_store.
Context {S : Type} `{StoreLaws S} (ctx : Context) (v : StoreView).
Implicit Types (d : DagState S).
#[local] Existing Instance DagState_api.
#[local] Instance dag_api : BlockStoreAPI (DagState S) := DagState_api ctx.

Definition cache_of d : gmap BlockRef (VerifiedBlock * bool) :=
  (λ i, (bi_block i, bi_committed i)) <$> ds_recent_blocks d.
(** Only the committed flags of cached blocks differ. *)
Definition same_state d d' : Prop := ∃ m, d' = set_recent_blocks m d ∧
  ∀ r, bi_hard_linked <$> m !! r = bi_hard_linked <$> ds_recent_blocks d !! r.

#[local] Instance same_state_preorder : PreOrder same_state.
Proof.
  split; [intros d; exists (ds_recent_blocks d); by destruct d|].
  intros d1 d2 d3 (m2 & -> & Hm2) (m3 & -> & Hm3). exists m3. split; [done|]. intros r. by rewrite Hm3, <-Hm2.
Qed.

(** Flags of cached blocks do not matter for the cache invariant. *)
Lemma dag_inv_flags d m : dag_inv ctx d v →
  (∀ r, bi_block <$> m !! r = bi_block <$> ds_recent_blocks d !! r) →
  dag_inv ctx (set_recent_blocks m d) v.
Proof.
  intros Hinv Hm.
  assert (Hsome : ∀ r, is_Some (m !! r) ↔ is_Some (ds_recent_blocks d !! r)).
  { intros r. specialize (Hm r). destruct (m !! r), (ds_recent_blocks d !! r); simplify_eq/=;
      split; intros [? ?]; done || eauto. }
  assert (Hget : ∀ r info, m !! r = Some info → ∃ info', ds_recent_blocks d !! r = Some info' ∧
            bi_block info' = bi_block info).
  { intros r info Hr. specialize (Hm r). rewrite Hr in Hm.
    destruct (ds_recent_blocks d !! r) as [i|]; simplify_eq/=. eauto. }
  destruct Hinv as [Hrel Hown Hcr Hlen Hlene Hg Hga Hrefs Hrec Hw Hst Hev]. split; simpl; try done.
  - intros a X r HX. rewrite Hsome. by apply Hrefs.
  - intros r info (info' & Hi & <-)%Hget. by apply Hrec.
  - intros b Hb. destruct (Hw b Hb) as (Hn & info & Hi & Hbi). split; [done|].
    specialize (Hm (vb_reference b)). rewrite Hi in Hm. destruct (m !! vb_reference b) as [i|]; simplify_eq/=.
    exists i. split; [done|congruence].
  - intros r b Hb. destruct (Hst r b Hb) as (? & ? & X & last & e & ? & ? & ? & ? & ?).
    split_and!; [done..|]. exists X, last, e. by rewrite Hsome.
Qed.

#[local] Program Instance dag_api_laws : BlockStoreLaws (DagState S) := {|
  api_ok := λ d, dag_inv ctx d v;
  api_cache := cache_of;
  api_same := same_state;
|}.
Next Obligation.
  intros d r b c Hinv Hc. unfold cache_of in Hc. rewrite lookup_fmap in Hc.
  apply fmap_Some in Hc as (info & Hi & [= -> ->]). by apply (di_recent _ _ _ Hinv).
Qed.
Next Obligation.
  intros d r b c Hinv Hc. unfold cache_of in Hc. rewrite lookup_fmap in Hc.
  apply fmap_Some in Hc as (info & Hi & [= -> ->]). simpl. unfold is_committed. by rewrite Hi.
Qed.
Next Obligation.
  intros d refs bs Hinv Hbs. simpl. rewrite (get_blocks_spec ctx d v) by done. f_equal.
  induction Hbs as [|r b refs bs Hb _ IH]; [done|]. csimpl. f_equal; [|done].
  unfold cache_of in Hb. rewrite lookup_fmap in Hb.
  destruct (ds_recent_blocks d !! r) as [info|] eqn:Hi; simplify_eq/=.
  by apply dag_lookup_recent with (ctx := ctx).
Qed.
Next Obligation.
  intros d r b c Hinv Hc. unfold cache_of in Hc. rewrite lookup_fmap in Hc.
  apply fmap_Some in Hc as (info & Hi & [= -> ->]). simpl. unfold set_committed. rewrite Hi. simpl.
  destruct (bi_committed info) eqn:Hcm.
  - exists d. split_and!; [done..| |done]. unfold cache_of. rewrite insert_id; [done|].
    by rewrite lookup_fmap, Hi; simpl; rewrite Hcm.
  - eexists. split_and!; [done| | |].
    + apply dag_inv_flags; [done|]. intros r'.
      destruct (decide (r' = r)) as [->|]; [by rewrite lookup_insert_eq, Hi|by rewrite lookup_insert_ne].
    + unfold cache_of. simpl. by rewrite fmap_insert.
    + eexists. split; [done|]. intros r'.
      destruct (decide (r' = r)) as [->|]; [by rewrite lookup_insert_eq, Hi|by rewrite lookup_insert_ne].
Qed.
End dag_store.

(** ** Commits in sequence *)

Section commits.
Context {S : Type} `{StoreLaws S} `{CommitCodec} (ctx : Context) (v : StoreView) (fuel : nat).
Context (G : BlockRef → option VerifiedBlock) (byz : gset AuthorityIndex).
Context (HU : universe_ok (ctx_committee ctx) G byz).
Context (Hcodec : ∀ c, is_Some (bcs_commit_to_bytes c)).
Implicit Types (d : DagState S).
#[local] Instance dag_api' : BlockStoreAPI (DagState S) := DagState_api ctx.
#[local] Instance dag_api_laws' : BlockStoreLaws (DagState S) := dag_api_laws ctx v.
Abbreviation cm := (ctx_committee ctx).

(** Between commits: the view is complete, commits are closed above the GC
    round and nothing above the last leader is committed. *)
Record commit_state d : Prop := {
  cst_view : view_ok ctx G d v;
  cst_closed : committed_closed (gc_round ctx d) d;
  cst_below r : api_committed d r → br_round r ≤ last_commit_round d;
  cst_rounds : length (ds_last_committed_rounds d) = Committee_size cm;
}.

Lemma cache_lookup d r b c : api_cache d !! r = Some (b, c) →
  ∃ info, ds_recent_blocks d !! r = Some info ∧ bi_block info = b ∧ bi_committed info = c.
Proof.
  clear. change (api_cache d) with (cache_of d). unfold cache_of. rewrite lookup_fmap.
  intros (info & ? & [= -> ->])%fmap_Some. eauto.
Qed.

Lemma cache_wf d r b c : view_ok ctx G d v → api_cache d !! r = Some (b, c) →
  dag_lookup d v r = Some b ∧ vb_reference b = r ∧ block_wf cm b.
Proof using HU.
  intros Hview (info & Hi & <- & _)%cache_lookup.
  pose proof (dag_lookup_recent ctx d v r info (vo_inv _ _ _ _ Hview) Hi) as Hlk.
  split; [done|]. by apply (lk_wf ctx G byz HU d v Hview).
Qed.

Lemma cache_above d r b : view_ok ctx G d v → gc_round ctx d < br_round r →
  dag_lookup d v r = Some b → ∃ c, api_cache d !! r = Some (b, c).
Proof.
  clear. intros Hview Hgc (info & Hi & <-)%(lk_cached ctx G d v Hview); [|done].
  exists (bi_committed info). change (api_cache d) with (cache_of d). unfold cache_of.
  by rewrite lookup_fmap, Hi.
Qed.

(** The hypotheses of the linearizer hold in a complete view. *)
Lemma view_linearizable d : view_ok ctx G d v →
  (∀ r b c a, api_cache d !! r = Some (b, c) → a ∈ vb_ancestors b →
     gc_round ctx d < br_round a → is_Some (api_cache d !! a)) ∧
  (∀ r b c, api_cache d !! r = Some (b, c) → NoDup (vb_ancestors b)) ∧
  (∀ x y, api_link d x y → br_round y < br_round x).
Proof using HU.
  intros Hview. split_and!.
  - intros r b c a Hr Ha Hgc. destruct (cache_wf d r b c Hview Hr) as (Hlk & _).
    destruct (vo_closed _ _ _ _ Hview _ _ _ Hlk Ha Hgc) as [x Hx].
    destruct (cache_above d a x Hview Hgc Hx) as [? ?]. eauto.
  - intros r b c Hr. destruct (cache_wf d r b c Hview Hr) as (_ & _ & Hwf).
    eapply NoDup_fmap_1, (wf_distinct _ _ Hwf).
  - intros x y (b & c & Hx & Hy). destruct (cache_wf d x b c Hview Hx) as (_ & <- & Hwf).
    by apply (wf_rounds _ _ Hwf).
Qed.

(** The timestamp of a leader whose parents are known. *)
Lemma commit_timestamp_Done d d0 leader last : dag_inv ctx d v →
  (∀ r, dag_lookup d v r = dag_lookup d0 v r) →
  view_ok ctx G d0 v → dag_lookup d0 v (vb_reference leader) = Some leader → 0 < vb_round leader →
  (∀ a, a ∈ vb_ancestors leader → br_round a + 1 = vb_round leader → is_Some (dag_lookup d0 v a)) →
  ∃ t, calculate_commit_timestamp ctx d leader last = Done t ∧ last ≤ t.
Proof using HU.
  intros Hinv Hlk Hview Hl Hpos Hpar. unfold calculate_commit_timestamp.
  destruct (lk_wf ctx G byz HU d0 v Hview _ _ Hl) as [_ Hwf].
  rewrite u32_sub_small by (pose proof (wf_round _ _ Hwf); lia).
  set (refs := filter _ _). change (api_get_blocks d refs) with (get_blocks d refs).
  rewrite (get_blocks_spec ctx d v) by done. simpl.
  assert (∃ bs, dag_lookup d v <$> refs = Some <$> bs ∧ vb_reference <$> bs = refs ∧
            Forall (block_wf cm) bs) as (bs & Hbs & Hrefs & Hwfs).
  { assert (Hall : ∀ r, r ∈ refs → is_Some (dag_lookup d0 v r)).
    { intros r [Hr Ha]%list_elem_of_filter. apply Hpar; [done|lia]. }
    clearbody refs. induction refs as [|r refs IH]; [by exists []|].
    destruct IH as (bs & Hbs & Hrefs & Hwfs); [intros; apply Hall; by right|].
    destruct (Hall r) as [b Hb]; [by left|].
    destruct (lk_wf ctx G byz HU d0 v Hview _ _ Hb) as [<- Hwfb].
    exists (b :: bs). csimpl. rewrite Hbs, Hrefs, Hlk, Hb. split_and!; [done..|by constructor]. }
  rewrite Hbs, map_run_expect_Some. simpl.
  assert (Hauth : vb_author <$> bs = br_author <$> refs).
  { rewrite <-Hrefs, <-list_fmap_compose. done. }
  destruct (median_timestamp_Done ctx (u_committee _ _ _ HU) bs) as (t & -> & _).
  - rewrite Hauth. eapply sublist_NoDup; [apply (wf_distinct _ _ Hwf)|]. apply fmap_sublist, sublist_filter.
  - eapply Forall_impl; [exact Hwfs|]. intros b Hb. by apply wf_author.
  - etrans; [apply (wf_parents _ _ Hwf); lia|]. apply set_stake_mono. unfold parents, authors.
    rewrite Hauth. intros h. rewrite !elem_of_list_to_set, !list_elem_of_fmap.
    intros (a & -> & [Hr Ha]%list_elem_of_filter). exists a. split; [done|].
    apply list_elem_of_filter. split; [lia|done].
  - simpl. eexists. split; [done|]. lia.
Qed.

(** A leader that can be committed next. *)
Record next_leader d (leader : VerifiedBlock) : Prop := {
  nl_known : dag_lookup d v (vb_reference leader) = Some leader;
  nl_round : last_commit_round d < vb_round leader;
  nl_parents a : a ∈ vb_ancestors leader → br_round a + 1 = vb_round leader →
    is_Some (dag_lookup d v a);
}.

Lemma next_leader_cached d leader : commit_state d → next_leader d leader →
  gc_round ctx d < vb_round leader ∧ api_cache d !! vb_reference leader = Some (leader, false).
Proof.
  clear. intros Hst [Hk Hr _].
  assert (Hgc : gc_round ctx d < vb_round leader)
    by (unfold gc_round, calculate_gc_round, saturating_sub; lia).
  split; [done|]. destruct (cache_above d (vb_reference leader) leader (cst_view _ Hst) Hgc Hk) as [[] Hc]; [|done].
  assert (br_round (vb_reference leader) ≤ last_commit_round d) by (apply (cst_below _ Hst); by exists leader).
  simpl in *. lia.
Qed.

(** What one leader produces. *)
Record commit_step d leader d' (sub_dag : CommittedSubDag) : Prop := {
  cs_state : commit_state d';
  cs_leader : sd_leader sub_dag = vb_reference leader;
  cs_index : cr_index (sd_commit_ref sub_dag) = last_commit_index d + 1;
  cs_last_index : last_commit_index d' = last_commit_index d + 1;
  cs_last_round : last_commit_round d' = vb_round leader;
  cs_timestamp : last_commit_timestamp_ms d ≤ sd_timestamp_ms sub_dag;
  cs_last_timestamp : last_commit_timestamp_ms d' = sd_timestamp_ms sub_dag;
  cs_nodup : NoDup (vb_reference <$> sd_blocks sub_dag);
  cs_new r : r ∈ vb_reference <$> sd_blocks sub_dag → ¬ api_committed d r;
  cs_committed r : api_committed d' r ↔ api_committed d r ∨ r ∈ vb_reference <$> sd_blocks sub_dag;
  cs_lookup r : dag_lookup d' v r = dag_lookup d v r;
  cs_size : size (ds_recent_blocks d') = size (ds_recent_blocks d);
  cs_gc : gc_round ctx d ≤ gc_round ctx d';
  cs_blocks b : b ∈ sd_blocks sub_dag → dag_lookup d v (vb_reference b) = Some b ∧ gc_round ctx d < vb_round b;
}.

Lemma lookup_flags d m r : (∀ r, fst <$> api_cache (set_recent_blocks m d) !! r = fst <$> api_cache d !! r) →
  dag_lookup (set_recent_blocks m d) v r = dag_lookup d v r ∧
  (is_Some (m !! r) ↔ is_Some (ds_recent_blocks d !! r)).
Proof.
  clear. intros Hm. specialize (Hm r). unfold api_cache in Hm. simpl in Hm. unfold cache_of in Hm.
  rewrite !lookup_fmap in Hm. simpl in Hm. unfold dag_lookup. simpl.
  destruct (m !! r), (ds_recent_blocks d !! r); simplify_eq/=; split;
    [by rewrite Hm|split; eauto|done|done..].
Qed.

Lemma bump_length rounds blocks rounds' : bump_committed_rounds rounds blocks = Done rounds' →
  length rounds' = length rounds.
Proof.
  clear. unfold bump_committed_rounds. intros Hrun.
  apply (for_each_ind (λ _ x, length x = length rounds) _ _ _ _ eq_refl) in Hrun; [done|].
  intros l1 r l2 s1 s2 _ Hs1 Hstep. apply bind_Done in Hstep as (x & _ & [_ ->]%vec_set_Done).
  by rewrite length_insert.
Qed.

(** The commit made from the collected blocks. *)
Definition commit_of d (leader : VerifiedBlock) (to_commit : list VerifiedBlock) (t : BlockTimestampMs)
    (bytes : bytes) : TrustedCommit :=
  TrustedCommit_new_trusted
    (Commit_new (last_commit_index d + 1) (last_commit_digest d) t (vb_reference leader)
       (vb_reference <$> sort_sub_dag_blocks to_commit)) bytes.

Lemma collect_sub_dag_spec d leader : commit_state d → next_leader d leader →
  last_commit_index d + 1 ≤ u32_max → (size (ds_recent_blocks d) ≤ fuel)%nat →
  ∃ m to_commit t bytes, let tc := commit_of d leader to_commit t bytes in
    collect_sub_dag_and_commit ctx fuel d leader =
      Done (set_recent_blocks m d,
            (CommittedSubDag_new (vb_reference leader) (sort_sub_dag_blocks to_commit) t
               (TrustedCommit_reference tc), tc)) ∧
    lin_inv d leader (gc_round ctx d) (set_recent_blocks m d) [] to_commit ∧
    last_commit_timestamp_ms d ≤ t ∧ bcs_commit_to_bytes (tcm_inner tc) = Some bytes ∧
    ∀ b, b ∈ to_commit → vb_round b ≤ vb_round leader ∧ valid_author ctx (vb_author b).
Proof using HU Hcodec.
  intros Hst Hnl Hmax Hfuel. pose proof (cst_view _ Hst) as Hview.
  destruct (next_leader_cached d leader Hst Hnl) as [Hgc Hc].
  destruct (view_linearizable d Hview) as (Hcomplete & Hdistinct & Hrounds).
  destruct (linearize_sub_dag_spec d leader (gc_round ctx d) Hcomplete Hdistinct fuel eq_refl
    (vo_inv _ _ _ _ Hview) Hc Hgc) as (d1 & blocks & to_commit & Hlin & -> & Hinv & Hin).
  { change (api_cache d) with (cache_of d). unfold cache_of. by rewrite map_size_fmap. }
  pose proof (lv_same _ _ _ _ _ _ Hinv) as (m & -> & _). set (d1 := set_recent_blocks m d) in *.
  destruct (commit_timestamp_Done d1 d leader (last_commit_timestamp_ms d)) as (t & Ht & Hle);
    [apply Hinv|intros r; apply lookup_flags, (lv_blocks _ _ _ _ _ _ Hinv)|done|apply Hnl
    |pose proof (nl_round _ _ Hnl); lia|apply Hnl|].
  unfold collect_sub_dag_and_commit. unfold dag_api' in Hlin, Ht. rewrite Hlin. simpl. rewrite Ht. simpl.
  rewrite u32_add_small by lia.
  destruct (Hcodec (Commit_new (last_commit_index d + 1) (last_commit_digest d) t (vb_reference leader)
       (vb_reference <$> sort_sub_dag_blocks to_commit))) as [bytes Hbytes].
  rewrite Hbytes. exists m, to_commit, t, bytes. simpl. split_and!; [done..|].
  intros b Hbin. destruct (lv_new _ _ _ _ _ _ Hinv b Hbin) as (Hb0 & _ & Hreach). split.
  - destruct (api_rtc_round d Hrounds _ _ Hreach) as [Heq|]; [|simpl in *; lia].
    apply (f_equal br_round) in Heq. simpl in Heq. lia.
  - destruct (cache_wf d _ _ _ Hview Hb0) as (_ & _ & Hwf). by apply wf_author.
Qed.

Lemma commit_leader_spec d leader now : commit_state d → next_leader d leader →
  last_commit_index d + 1 ≤ u32_max → (size (ds_recent_blocks d) ≤ fuel)%nat →
  ∃ d1 sub_dag commit d', collect_sub_dag_and_commit ctx fuel d leader = Done (d1, (sub_dag, commit)) ∧
    add_commit ctx d1 commit now = Done d' ∧ commit_step d leader d' sub_dag.
Proof using HU Hcodec.
  intros Hst Hnl Hmax Hfuel.
  destruct (collect_sub_dag_spec d leader Hst Hnl Hmax Hfuel) as (m & to_commit & t & bytes & Hrun & Hinv & Hle & _ & Hb).
  set (d1 := set_recent_blocks m d) in *. set (tc := commit_of d leader to_commit t bytes) in *.
  pose proof (nl_round _ _ Hnl) as Hround. pose proof (cst_view _ Hst) as Hview.
  assert (Hperm : vb_reference <$> sort_sub_dag_blocks to_commit ≡ₚ vb_reference <$> to_commit)
    by (by rewrite sort_sub_dag_blocks_Permutation).
  assert (Hlk : ∀ r, dag_lookup d1 v r = dag_lookup d v r ∧ (is_Some (m !! r) ↔ is_Some (ds_recent_blocks d !! r)))
    by (intros r; apply lookup_flags, (lv_blocks _ _ _ _ _ _ Hinv)).
  destruct (add_commit_spec ctx d1 v tc now) as
    (d' & rounds & Hadd & Hinv' & Hbump & Hr & Hlc & _ & _ & Hrec & Hgen & Hgcle);
    [apply Hinv| |done|apply (cst_rounds _ Hst)| |unfold tc_leader; simpl;
     change (last_commit_round d1) with (last_commit_round d); lia|].
  { unfold next_commit. change (ds_last_commit d1) with (ds_last_commit d).
    unfold last_commit_index, last_commit_timestamp_ms in *. simpl in *.
    destruct (ds_last_commit d) as [last|] eqn:Hl; unfold tc, commit_of, tc_index, last_commit_index;
      rewrite Hl; done. }
  { apply Forall_forall. unfold tc_blocks. simpl. intros r. rewrite Hperm.
    intros (b & -> & Hbin)%list_elem_of_fmap. simpl. by apply Hb. }
  assert (Hgc' : gc_round ctx d ≤ gc_round ctx d') by exact Hgcle.
  assert (Hcache : api_cache d' = api_cache d1).
  { change (cache_of d' = cache_of d1). unfold cache_of. by rewrite Hrec. }
  assert (Hlk' : ∀ r, dag_lookup d' v r = dag_lookup d v r).
  { intros r. destruct (Hlk r) as [<- _]. unfold dag_lookup. by rewrite Hrec, Hgen. }
  assert (Hcom : ∀ r, api_committed d' r ↔ api_committed d r ∨ r ∈ vb_reference <$> sort_sub_dag_blocks to_commit).
  { intros r. rewrite Hperm. unfold api_committed at 1. rewrite Hcache. apply (lv_committed _ _ _ _ _ _ Hinv). }
  assert (Hlr : last_commit_round d' = vb_round leader) by (unfold last_commit_round; by rewrite Hlc).
  eexists d1, _, tc, d'. split; [exact Hrun|]. split; [done|]. split; simpl.
  - split.
    + split; [done|intros r b; rewrite Hlk'; apply (vo_sub _ _ _ _ Hview)|].
      intros r b a. rewrite !Hlk'. intros ???. eapply (vo_closed _ _ _ _ Hview); [done..|lia].
    + intros r b a. rewrite Hcache. intros Hr1 Ha Hga. unfold api_committed. rewrite Hcache.
      eapply (lin_inv_closed d leader (gc_round ctx d) (cst_closed _ Hst) d1 to_commit Hinv); [done..|lia].
    + intros r [Hc|Hc]%Hcom; rewrite Hlr.
      * pose proof (cst_below _ Hst r Hc). lia.
      * rewrite Hperm in Hc. apply list_elem_of_fmap in Hc as (b & -> & Hbin). by apply Hb.
    + rewrite Hr, (bump_length _ _ _ Hbump). apply (cst_rounds _ Hst).
  - done.
  - done.
  - unfold last_commit_index at 1. by rewrite Hlc.
  - done.
  - done.
  - unfold last_commit_timestamp_ms. by rewrite Hlc.
  - rewrite Hperm. apply Hinv.
  - intros r. rewrite Hperm. intros (b & -> & Hbin)%list_elem_of_fmap [b' Hb'].
    destruct (lv_new _ _ _ _ _ _ Hinv b Hbin) as (Hb0 & _). congruence.
  - done.
  - done.
  - rewrite Hrec. simpl. rewrite <-!size_dom. f_equal. apply leibniz_equiv. intros r.
    rewrite !elem_of_dom. apply Hlk.
  - done.
  - intros b. rewrite sort_sub_dag_blocks_Permutation. intros Hbin.
    destruct (lv_new _ _ _ _ _ _ Hinv b Hbin) as (Hb0 & Hgb & _). split; [|done].
    by destruct (cache_wf d _ _ _ Hview Hb0) as (? & _).
Qed.

(** The references of all blocks of a sequence of sub-dags. *)
Definition committed_refs (sub_dags : list CommittedSubDag) : list BlockRef :=
  sub_dags ≫= λ sd, vb_reference <$> sd_blocks sd.

(** A well-formed sequence of commits from one state to another. *)
Record commits_ok d (leaders : list VerifiedBlock) d' (sub_dags : list CommittedSubDag) : Prop := {
  cok_state : commit_state d';
  cok_leaders : sd_leader <$> sub_dags = vb_reference <$> leaders;
  cok_indices k sd : sub_dags !! k = Some sd →
    cr_index (sd_commit_ref sd) = last_commit_index d + 1 + N.of_nat k;
  cok_nodup : NoDup (committed_refs sub_dags);
  cok_new r : r ∈ committed_refs sub_dags → ¬ api_committed d r;
  cok_committed r : api_committed d' r ↔ api_committed d r ∨ r ∈ committed_refs sub_dags;
  cok_timestamps : StronglySorted N.le (last_commit_timestamp_ms d :: (sd_timestamp_ms <$> sub_dags));
  cok_last_index : last_commit_index d' = last_commit_index d + N.of_nat (length leaders);
  cok_last_round : last_commit_round d' = default (last_commit_round d) (vb_round <$> last leaders);
  cok_lookup r : dag_lookup d' v r = dag_lookup d v r;
  cok_size : size (ds_recent_blocks d') = size (ds_recent_blocks d);
  cok_gc : gc_round ctx d ≤ gc_round ctx d';
  cok_blocks sd b : sd ∈ sub_dags → b ∈ sd_blocks sd →
    dag_lookup d v (vb_reference b) = Some b ∧ gc_round ctx d < vb_round b;
}.

Lemma next_leader_step d leader d' sd x : commit_step d leader d' sd →
  vb_round leader < vb_round x → next_leader d x → next_leader d' x.
Proof.
  clear. intros Hcs Hlt [Hk Hr Hp]. split.
  - by rewrite (cs_lookup _ _ _ _ Hcs).
  - by rewrite (cs_last_round _ _ _ _ Hcs).
  - intros a. rewrite (cs_lookup _ _ _ _ Hcs). apply Hp.
Qed.

Lemma commits_ok_cons d leader leaders d1 d' sd sds : commit_step d leader d1 sd →
  commits_ok d1 leaders d' sds → commits_ok d (leader :: leaders) d' (sd :: sds).
Proof.
  clear. intros Hcs Hok. split.
  - apply Hok.
  - csimpl. f_equal; [apply Hcs|apply Hok].
  - intros [|k] sd' Hk; simpl in Hk.
    + injection Hk as <-. rewrite (cs_index _ _ _ _ Hcs). lia.
    + apply (cok_indices _ _ _ _ Hok) in Hk. rewrite Hk, (cs_last_index _ _ _ _ Hcs). lia.
  - unfold committed_refs. rewrite bind_cons. apply NoDup_app. split; [apply Hcs|]. split; [|apply Hok].
    intros r Hr Hr'. apply (cok_new _ _ _ _ Hok r Hr'). apply (cs_committed _ _ _ _ Hcs). by right.
  - intros r. unfold committed_refs. rewrite bind_cons, elem_of_app. intros [Hr|Hr] Hc.
    + by apply (cs_new _ _ _ _ Hcs r Hr).
    + apply (cok_new _ _ _ _ Hok r Hr). apply (cs_committed _ _ _ _ Hcs). by left.
  - intros r. unfold committed_refs. rewrite bind_cons, elem_of_app.
    rewrite (cok_committed _ _ _ _ Hok), (cs_committed _ _ _ _ Hcs). tauto.
  - pose proof (cok_timestamps _ _ _ _ Hok) as Hs. rewrite (cs_last_timestamp _ _ _ _ Hcs) in Hs.
    csimpl. constructor; [done|]. pose proof (cs_timestamp _ _ _ _ Hcs) as Hle. constructor; [done|].
    apply StronglySorted_inv in Hs as [_ Hf]. eapply Forall_impl; [exact Hf|]. intros t Ht. simpl in Ht. lia.
  - rewrite (cok_last_index _ _ _ _ Hok), (cs_last_index _ _ _ _ Hcs). simpl. lia.
  - rewrite (cok_last_round _ _ _ _ Hok), (cs_last_round _ _ _ _ Hcs). destruct leaders as [|x l]; [done|].
    rewrite last_cons_cons. destruct (last (x :: l)) eqn:Hl; [done|]. by apply last_None in Hl.
  - intros r. by rewrite (cok_lookup _ _ _ _ Hok), (cs_lookup _ _ _ _ Hcs).
  - by rewrite (cok_size _ _ _ _ Hok), (cs_size _ _ _ _ Hcs).
  - etrans; [apply Hcs|apply Hok].
  - intros sd' b [->|Hsd]%elem_of_cons Hb; [by apply Hcs|].
    destruct (cok_blocks _ _ _ _ Hok sd' b Hsd Hb) as [Hl Hg]. rewrite (cs_lookup _ _ _ _ Hcs) in Hl.
    split; [done|]. pose proof (cs_gc _ _ _ _ Hcs). lia.
Qed.

Lemma handle_commit_spec d acc leaders now : commit_state d →
  StronglySorted (λ a b, vb_round a < vb_round b) leaders → Forall (next_leader d) leaders →
  last_commit_index d + N.of_nat (length leaders) ≤ u32_max →
  (size (ds_recent_blocks d) ≤ fuel)%nat →
  ∃ d' sds, for_each (λ '(d, committed_sub_dags) leader_block,
      '(d, (sub_dag, commit)) ← collect_sub_dag_and_commit ctx fuel d leader_block;
      d ← add_commit ctx d commit now;
      Done (d, committed_sub_dags ++ [sub_dag])) (d, acc) leaders = Done (d', acc ++ sds) ∧
    commits_ok d leaders d' sds.
Proof using HU Hcodec.
  revert d acc. induction leaders as [|leader leaders IH]; intros d acc Hst Hs Hf Hmax Hfuel.
  { exists d, []. rewrite app_nil_r. split; [done|]. split; try done.
    - constructor.
    - set_solver.
    - intros r. split; [by left|]. intros [?|?]; [done|set_solver].
    - repeat constructor.
    - simpl. lia.
    - intros sd b ?%elem_of_nil. done. }
  apply StronglySorted_inv in Hs as [Hs Hlt]. apply Forall_cons in Hf as [Hnl Hf]. simpl in Hmax.
  destruct (commit_leader_spec d leader now) as (d1 & sd & commit & d2 & Hrun & Hadd & Hcs); [done..|lia|done|].
  simpl. rewrite Hrun. simpl. rewrite Hadd. simpl.
  destruct (IH d2 (acc ++ [sd])) as (d' & sds & Hrest & Hok).
  - apply Hcs.
  - done.
  - apply Forall_forall. intros x Hx. rewrite Forall_forall in Hlt, Hf.
    eapply next_leader_step; [done|by apply Hlt|by apply Hf].
  - rewrite (cs_last_index _ _ _ _ Hcs). lia.
  - by rewrite (cs_size _ _ _ _ Hcs).
  - exists d', (sd :: sds). rewrite Hrest, <-app_assoc. split; [done|]. by eapply commits_ok_cons.
Qed.

(** C25: a sequence of committed leaders of increasing rounds becomes one
    sub-dag per leader, in order, with consecutive commit indices. No block is
    ever committed twice, not within one sub-dag, across the sequence, nor
    with respect to earlier commits, timestamps never go back, and the state
    afterwards is ready for the next leaders. *)
Theorem handle_commit_correct d leaders now : commit_state d →
  StronglySorted (λ a b, vb_round a < vb_round b) leaders → Forall (next_leader d) leaders →
  last_commit_index d + N.of_nat (length leaders) ≤ u32_max →
  (size (ds_recent_blocks d) ≤ fuel)%nat →
  ∃ d' sub_dags, handle_commit ctx fuel d leaders now = Done (d', sub_dags) ∧
    commits_ok d leaders d' sub_dags.
Proof using HU Hcodec.
  intros Hst Hs Hf Hmax Hfuel. unfold handle_commit.
  exact (handle_commit_spec d [] leaders now Hst Hs Hf Hmax Hfuel).
Qed.
End commits.

(** ** The concrete node of the grid: leaders of the rounds 1 and 2 *)

Definition grid_leader (r : byte) : VerifiedBlock := store_test_block r Byte.x00.
Abbreviation late_dag := (grid_dag 1 grid_late).

Lemma late_view : view_ok (grid_node 1) grid_universe late_dag view_empty.
Proof. exact (ni_view _ _ _ _ (honest_reachable_inv _ _ _ _ _ (grid_honest 1 ltac:(lia)) grid_late_reachable)). Qed.

Lemma late_uncommitted r info : ds_recent_blocks late_dag !! r = Some info → bi_committed info = false.
Proof.
  assert (Forall (λ p, bi_committed p.2 = false) (map_to_list (ds_recent_blocks late_dag))) as Hall
    by (vm_compute; by repeat constructor).
  intros Hi%elem_of_map_to_list. rewrite Forall_forall in Hall. by apply (Hall _ Hi).
Qed.

Lemma late_not_committed r :
  ¬ @api_committed _ _ (dag_api_laws (grid_node 1) view_empty) late_dag r.
Proof.
  intros [b (info & Hi & _ & Hc)%cache_lookup]. pose proof (late_uncommitted _ _ Hi). congruence.
Qed.

Lemma late_commit_state : commit_state (grid_node 1) view_empty grid_universe late_dag.
Proof.
  split.
  - apply late_view.
  - intros r b a (info & Hi & _ & Hc)%cache_lookup. exfalso.
    pose proof (late_uncommitted _ _ Hi). congruence.
  - intros r Hr. exfalso. exact (late_not_committed r Hr).
  - vm_compute. reflexivity.
Qed.

Lemma late_next_leader r : r ∈ [Byte.x01; Byte.x02; Byte.x03] →
  next_leader view_empty late_dag (grid_leader r).
Proof.
  intros Hr. rewrite !elem_of_cons, elem_of_nil in Hr.
  assert (Hall : Forall (λ a, is_Some (dag_lookup late_dag view_empty a)) (vb_ancestors (grid_leader r))).
  { destruct Hr as [->|[->|[->|[]]]]; vm_compute; repeat constructor; eauto. }
  rewrite Forall_forall in Hall.
  split; [|destruct Hr as [->|[->|[->|[]]]]; by vm_compute|by auto].
  destruct Hr as [->|[->|[->|[]]]]; by vm_compute.
Qed.

Lemma linearize_sub_dag_correct_witness :
  ∃ d' blocks, @linearize_sub_dag _ (DagState_api (grid_node 1)) 24 (grid_leader Byte.x03) late_dag =
    Done (d', blocks) ∧ NoDup (vb_reference <$> blocks) ∧ StronglySorted sub_dag_le blocks.
Proof.
  destruct (view_linearizable (grid_node 1) view_empty grid_universe {[3%nat]} grid_universe_ok
    late_dag late_view) as (H1 & H2 & H3).
  destruct (@linearize_sub_dag_correct _ _ (dag_api_laws (grid_node 1) view_empty) late_dag
    (grid_leader Byte.x03) 24) as (d' & blocks & Hrun & Hnd & Hs & _).
  - exact (vo_inv _ _ _ _ late_view).
  - vm_compute. reflexivity.
  - vm_compute. reflexivity.
  - exact H1.
  - exact H2.
  - exact H3.
  - exact (cst_closed _ _ _ _ late_commit_state).
  - apply Nat.leb_le. by vm_compute.
  - exists d', blocks. split_and!; [exact Hrun|exact Hnd|exact Hs].
Defined.

Definition median_blocks : list VerifiedBlock :=
  [test_block_ts 1 0%nat 7 [] 100; test_block_ts 1 1%nat 8 [] 110; test_block_ts 1 3%nat 9 [] 900].

Lemma median_timestamp_honest_witness :
  ∃ t b1 b2, median_timestamp_by_stake (test_context 4 2 5) median_blocks = Done (inr t) ∧
    b1 ∈ median_blocks ∧ (vb_author b1 ∉ ({[3%nat]} : gset AuthorityIndex)) ∧ vb_timestamp_ms b1 ≤ t ∧
    b2 ∈ median_blocks ∧ (vb_author b2 ∉ ({[3%nat]} : gset AuthorityIndex)) ∧ t ≤ vb_timestamp_ms b2.
Proof.
  pose proof (median_timestamp_honest (test_context 4 2 5) test_committee_ok median_blocks {[3%nat]}) as Hm.
  rewrite !decide_False in Hm by (by vm_compute). apply Hm.
  - vm_compute. repeat constructor; set_solver.
  - vm_compute. repeat constructor.
  - by vm_compute.
Defined.

Lemma handle_commit_correct_witness :
  ∃ d' sub_dags, handle_commit (grid_node 1) 24 late_dag [grid_leader Byte.x01; grid_leader Byte.x02] 3 =
    Done (d', sub_dags) ∧ commits_ok (grid_node 1) view_empty grid_universe late_dag
      [grid_leader Byte.x01; grid_leader Byte.x02] d' sub_dags.
Proof.
  apply (handle_commit_correct (grid_node 1) view_empty 24 grid_universe {[3%nat]} grid_universe_ok).
  - intros c. by exists [].
  - apply late_commit_state.
  - repeat constructor; by vm_compute.
  - repeat constructor; apply late_next_leader; set_solver.
  - by vm_compute.
  - apply Nat.leb_le. by vm_compute.
Defined.
