(* ===== verification/CommitSafety.v ===== *)
(** * Safety of the commit rules

    The direct and the indirect rule never panic on a causally complete view,
    and any two views decide every leader slot in the same way. *)
From S2P Require Import Prelude Committee StakeAggregator Block ThresholdClock Commit LeaderScoring Store DagState DagStateProofs DagTraversal LeaderSchedule BaseCommitter CommitRule.

(** A committer with the wave length of the protocol. *)
Record committer_ok (o : BaseCommitterOptions) : Prop := {
  co_wave : bo_wave_length o = 3;
  co_offset : bo_round_offset o ≤ u32_max;
}.

Lemma decision_round_spec o round : committer_ok o → leader_round o (wave_number o round) = round →
  round + 2 < u32_max → decision_round o (wave_number o round) = round + 2.
Proof.
  intros [Hw Ho]. unfold leader_round, decision_round, wave_number, saturating_sub. rewrite Hw.
  set (w := (round - bo_round_offset o) / 3). intros Hl Hr.
  assert (Hw3 : 3 * w ≤ round - bo_round_offset o) by (apply N.Div0.mul_div_le).
  unfold u32_max, u32_add, u32_mul, u32_sub in *.
  rewrite (N.mod_small (w * 3)) in * by lia.
  rewrite (N.mod_small (w * 3 + bo_round_offset o)) in Hl by lia.
  rewrite (N.mod_small (w * 3 + 3)) by lia.
  replace (w * 3 + 3 + 4294967296 - 1) with (w * 3 + 2 + 1 * 4294967296) by lia.
  rewrite N.Div0.mod_add, (N.mod_small (w * 3 + 2)) by lia.
  rewrite N.mod_small by lia. lia.
Qed.

(** At most one element when all references coincide. *)
Lemma same_reference_length (bs : list VerifiedBlock) : NoDup (vb_reference <$> bs) →
  (∀ b1 b2, b1 ∈ bs → b2 ∈ bs → vb_reference b1 = vb_reference b2) → (length bs ≤ 1)%nat.
Proof.
  destruct bs as [|b1 [|b2 bs]]; simpl; [lia..|]. intros Hnd Heq. exfalso.
  rewrite (Heq b1 b2) in Hnd by set_solver.
  apply NoDup_cons in Hnd as [Hn _]. destruct Hn. by left.
Qed.

Section decide.
Context {S : Type} `{StoreLaws S} `{Rng} (ctx : Context) (G : BlockRef → option VerifiedBlock).
Context (byz : gset AuthorityIndex) (HU : universe_ok (ctx_committee ctx) G byz).
Abbreviation cm := (ctx_committee ctx).

(** Filtering the leader blocks with a rule that certifies what it keeps
    never keeps two of them. *)
Lemma filter_leaders_spec d v slot (rule : VerifiedBlock → run bool) :
  view_ok ctx G d v → gc_round ctx d < s_round slot →
  (∀ b, dag_lookup d v (vb_reference b) = Some b → Slot_from (vb_reference b) = slot →
     ∃ x, rule b = Done x ∧
       (x = true → ∃ r cert, G r = Some cert ∧ certificate cm G (vb_reference b) cert)) →
  ∃ bs, filter_run rule (get_uncommitted_blocks_at_slot d slot) = Done bs ∧ (length bs ≤ 1)%nat ∧
    ∀ b, b ∈ bs ↔ dag_lookup d v (vb_reference b) = Some b ∧ Slot_from (vb_reference b) = slot ∧
      rule b = Done true.
Proof using HU.
  intros Hview Hgc Hrule.
  pose proof (blocks_at_slot_spec ctx G byz HU d v Hview slot Hgc) as Hin.
  pose proof (NoDup_blocks_at_slot ctx G byz HU d v Hview slot Hgc) as Hnd.
  destruct (filter_run_total rule (get_uncommitted_blocks_at_slot d slot)) as [bs Hbs].
  { intros b [Hb Hs]%Hin. destruct (Hrule b Hb Hs) as (x & ? & _). eauto. }
  exists bs. split; [done|]. apply filter_run_Done in Hbs as [Hsub Hiff].
  assert (Hmem : ∀ b, b ∈ bs ↔ dag_lookup d v (vb_reference b) = Some b ∧
            Slot_from (vb_reference b) = slot ∧ rule b = Done true).
  { intros b. rewrite Hiff, Hin. tauto. }
  split; [|done]. apply same_reference_length.
  - eapply sublist_NoDup; [exact Hnd|]. by apply fmap_sublist.
  - intros b1 b2 (Hb1 & Hs1 & Hr1)%Hmem (Hb2 & Hs2 & Hr2)%Hmem.
    destruct (Hrule b1 Hb1 Hs1) as (x1 & Hx1 & Hc1). assert (x1 = true) as -> by congruence.
    destruct (Hrule b2 Hb2 Hs2) as (x2 & Hx2 & Hc2). assert (x2 = true) as -> by congruence.
    destruct (Hc1 eq_refl) as (r1 & cert1 & ? & ?). destruct (Hc2 eq_refl) as (r2 & cert2 & ? & ?).
    by eapply (certificate_unique cm G byz HU _ _ r1 r2 cert1 cert2); [..|congruence].
Qed.

(** A supported block has a certificate. *)
Lemma supported_certificate d v leader : view_ok ctx G d v → gc_round ctx d < br_round leader + 1 →
  supported cm (dag_lookup d v) leader → supported cm G leader.
Proof using HU.
  intros Hview Hgc (Q & HQ & Hin). exists Q. split; [done|]. intros q Hq.
  destruct (Hin q Hq) as (r & b & Hb & Ha & Hc). exists r, b.
  destruct (lk_wf ctx G byz HU d v Hview _ _ Hb) as [<- _].
  split; [by apply (vo_sub _ _ _ _ Hview)|]. split; [done|].
  by apply (certificate_universe ctx G byz HU d v Hview).
Qed.

Lemma supported_nonempty leader : supported cm G leader →
  ∃ r cert, G r = Some cert ∧ certificate cm G leader cert.
Proof using HU.
  intros (Q & HQ & Hin). destruct (set_choose_or_empty Q) as [[q Hq]|HQe].
  - destruct (Hin q Hq) as (r & b & ? & _ & ?). eauto.
  - assert (Q = ∅) as -> by set_solver. rewrite set_stake_empty in HQ.
    pose proof (quorum_pos cm (u_committee _ _ _ HU)). lia.
Qed.

Lemma blamed_universe d v slot : view_ok ctx G d v →
  blamed cm (dag_lookup d v) slot → blamed cm G slot.
Proof.
  intros Hview (Q & HQ & Hin). exists Q. split; [done|]. intros q Hq.
  destruct (Hin q Hq) as (r & b & Hb%(vo_sub _ _ _ _ Hview) & Ha). by exists r, b.
Qed.

(** ** The direct rule *)

(** What a decision of the direct rule means. *)
Definition direct_status (d : DagState S) (v : StoreView) (slot : Slot) (st : LeaderStatus) : Prop :=
  match st with
  | LCommit b => dag_lookup d v (vb_reference b) = Some b ∧ Slot_from (vb_reference b) = slot ∧
      supported cm (dag_lookup d v) (vb_reference b)
  | LSkip s => s = slot ∧ blamed cm (dag_lookup d v) slot
  | LUndecided s => s = slot ∧ ¬ blamed cm (dag_lookup d v) slot ∧
      ∀ bs b, get_uncommitted_blocks_at_round d (s_round slot + 2) = Done bs →
        stake_of_blocks ctx bs ≤ u64_max →
        dag_lookup d v (vb_reference b) = Some b → Slot_from (vb_reference b) = slot →
        ¬ supported cm (dag_lookup d v) (vb_reference b)
  end.

Lemma try_direct_decide_spec d v o slot : view_ok ctx G d v → committer_ok o →
  leader_round o (wave_number o (s_round slot)) = s_round slot →
  last_commit_round d < s_round slot → s_round slot + 2 < u32_max →
  ∃ st, try_direct_decide ctx o d slot = Done st ∧ direct_status d v slot st.
Proof using HU.
  intros Hview Ho Hl Hlast Hmax. unfold try_direct_decide.
  assert (Hgc : gc_round ctx d < s_round slot)
    by (unfold gc_round, calculate_gc_round, saturating_sub; lia).
  rewrite u32_add_small by lia.
  destruct (enough_leader_blame_spec ctx G byz HU d v Hview slot) as (x & -> & Hx); [lia..|].
  simpl. destruct x; [eexists; split; [done|]; simpl; by rewrite <-Hx|].
  rewrite decision_round_spec by done.
  destruct (blocks_at_round_spec ctx G byz HU d v Hview (s_round slot + 2)) as (ds & Hds & _); [lia..|].
  assert (Hsup : ∀ b, Slot_from (vb_reference b) = slot → ∃ x,
    enough_leader_support ctx d (s_round slot + 2) b = Done x ∧
    (x = true → supported cm (dag_lookup d v) (vb_reference b)) ∧
    (stake_of_blocks ctx ds ≤ u64_max → supported cm (dag_lookup d v) (vb_reference b) → x = true)).
  { intros b <-. apply (enough_leader_support_spec ctx G byz HU d v Hview); simpl in *; lia || done. }
  destruct (filter_leaders_spec d v slot (enough_leader_support ctx d (s_round slot + 2)) Hview Hgc)
    as (bs & -> & Hlen & Hbs).
  { intros b Hb Hs. destruct (Hsup b Hs) as (x & Hrun & Hx1 & _). exists x. split; [done|].
    intros ->. apply supported_nonempty.
    apply (supported_certificate d v); [done|rewrite <-Hs in Hgc; simpl in *; lia|auto]. }
  simpl. rewrite bool_decide_eq_false_2 by lia. eexists. split; [done|].
  destruct bs as [|b [|]]; simpl in *; [| |lia].
  - split; [done|]. split; [by rewrite <-Hx|]. intros ds' b Hds' Hsmall Hb Hs Hsupp.
    rewrite Hds in Hds'. injection Hds' as <-.
    destruct (Hsup b Hs) as (x & Hrun & _ & Hx2). rewrite (Hx2 Hsmall Hsupp) in Hrun.
    assert (b ∈ []) by (by apply Hbs). set_solver.
  - assert (b ∈ [b]) as (Hb & Hs & Hrun)%Hbs by left. split_and!; [done..|].
    destruct (Hsup b Hs) as (x & Hrun' & Hx1 & _). apply Hx1. congruence.
Qed.

(** ** The indirect rule *)

Lemma any_certificate_spec d v leader certs cache : view_ok ctx G d v →
  gc_round ctx d < vb_round leader + 1 → cache_ok d v leader cache →
  (∀ b, b ∈ certs → dag_lookup d v (vb_reference b) = Some b ∧ vb_round b = vb_round leader + 2) →
  ∃ x, any_certificate ctx d leader certs cache = Done x ∧
    (x = true ↔ ∃ cert, cert ∈ certs ∧ certificate cm (dag_lookup d v) (vb_reference leader) cert).
Proof using HU.
  intros Hview Hgc. revert cache. induction certs as [|b certs IH]; intros cache Hcache Hbs; simpl.
  { exists false. split; [done|]. split; [done|]. intros (? & ? & _). set_solver. }
  destruct (Hbs b) as [Hb Hbr]; [by left|].
  destruct (is_certificate_spec ctx G byz HU d v Hview b leader cache Hb Hbr Hgc Hcache)
    as (cache' & Hcache' & ->). simpl. case_bool_decide as Hq.
  - exists true. split; [done|]. split; [|done]. intros _. exists b. split; [by left|]. by split.
  - destruct (IH cache' Hcache') as (x & -> & Hx); [intros; apply Hbs; by right|].
    exists x. split; [done|]. rewrite Hx. split; intros (cert & Hin & Hc).
    + exists cert. split; [by right|done].
    + apply elem_of_cons in Hin as [->|Hin]; [by destruct Hc|eauto].
Qed.

(** What a decision of the indirect rule means: the certificates in the causal
    history of the anchor decide. *)
Definition indirect_status (d : DagState S) (v : StoreView) (anchor : VerifiedBlock) (slot : Slot)
    (st : LeaderStatus) : Prop :=
  match st with
  | LCommit b => dag_lookup d v (vb_reference b) = Some b ∧ Slot_from (vb_reference b) = slot ∧
      ∃ r cert, history (dag_lookup d v) anchor r ∧ dag_lookup d v r = Some cert ∧
        certificate cm G (vb_reference b) cert
  | LSkip s => s = slot ∧ ∀ leader r cert, Slot_from leader = slot →
      history (dag_lookup d v) anchor r → dag_lookup d v r = Some cert →
      ¬ certificate cm G leader cert
  | LUndecided _ => False
  end.

(** The leader block of a certificate is known with the certificate. *)
Lemma certified_known d v leader r cert : view_ok ctx G d v → gc_round ctx d < br_round leader →
  dag_lookup d v r = Some cert → certificate cm G leader cert →
  ∃ b, dag_lookup d v leader = Some b.
Proof using HU.
  intros Hview Hgc Hcert Hc. destruct (lk_wf ctx G byz HU d v Hview _ _ Hcert) as [<- _].
  apply (certificate_universe ctx G byz HU d v Hview) in Hc as [Hr Hq]; [|done|lia].
  destruct (set_choose_or_empty (voters (dag_lookup d v) leader cert)) as [[q Hq']|He].
  - apply elem_of_voters in Hq' as (a & b & _ & _ & Hb & Hl).
    by apply (vo_closed _ _ _ _ Hview _ _ _ Hb Hl).
  - rewrite (leibniz_equiv _ _ He), set_stake_empty in Hq.
    pose proof (quorum_pos cm (u_committee _ _ _ HU)). lia.
Qed.

Lemma history_known d v anchor x : view_ok ctx G d v →
  dag_lookup d v (vb_reference anchor) = Some anchor → history (dag_lookup d v) anchor x →
  gc_round ctx d < br_round x → is_Some (dag_lookup d v x).
Proof using HU.
  intros Hview Ha (z & Hz & Hzx) Hgc. apply rtc_inv_r in Hzx as [<-|(y & _ & (b & Hb & Hx))].
  - by apply (vo_closed _ _ _ _ Hview _ _ _ Ha).
  - by apply (vo_closed _ _ _ _ Hview _ _ _ Hb).
Qed.

Context (fuel : nat).

Lemma decide_leader_from_anchor_spec d v o anchor slot : view_ok ctx G d v → committer_ok o →
  leader_round o (wave_number o (s_round slot)) = s_round slot →
  gc_round ctx d < s_round slot → s_round slot + 2 < u32_max →
  (size (known_refs d v) ≤ fuel)%nat → dag_lookup d v (vb_reference anchor) = Some anchor →
  ∃ st, decide_leader_from_anchor ctx fuel o d anchor slot = Done st ∧
    indirect_status d v anchor slot st.
Proof using HU.
  intros Hview Ho Hl Hgc Hmax Hfuel Ha. unfold decide_leader_from_anchor.
  rewrite decision_round_spec by done.
  destruct (ancestors_at_round_history d (dag_lookup d v)
    (λ r, get_block_spec ctx d v r (vo_inv _ _ _ _ Hview))
    (lk_rounds_decrease ctx G byz HU d v Hview) anchor (s_round slot + 2) (known_refs d v))
    with (fuel := fuel) as (certs & -> & Hcerts); [|by apply known_refs_lookup|done|].
  { intros x Hx Hr. by apply (history_known d v anchor); [..|lia]. }
  simpl.
  assert (Hany : ∀ b, Slot_from (vb_reference b) = slot →
    ∃ x, any_certificate ctx d b certs ∅ = Done x ∧
      (x = true ↔ ∃ r cert, history (dag_lookup d v) anchor r ∧ dag_lookup d v r = Some cert ∧
                    certificate cm G (vb_reference b) cert)).
  { intros b <-. simpl in *. destruct (any_certificate_spec d v b certs ∅) as (x & -> & Hx);
      [done|lia|by intros r x; rewrite lookup_empty| |].
    - intros cert (r & Hh & Hr & Hc)%Hcerts.
      destruct (lk_wf ctx G byz HU d v Hview _ _ Hc) as [<- _]. by simpl in *.
    - exists x. split; [done|]. rewrite Hx. split.
      + intros (cert & (r & Hh & Hr & Hc)%Hcerts & Hcert). exists r, cert. split_and!; [done..|].
        destruct (lk_wf ctx G byz HU d v Hview _ _ Hc) as [<- _].
        apply (certificate_universe ctx G byz HU d v Hview) in Hcert; [done..|simpl; lia].
      + intros (r & cert & Hh & Hc & Hcert). exists cert.
        destruct (lk_wf ctx G byz HU d v Hview _ _ Hc) as [<- _]. split.
        * apply Hcerts. exists (vb_reference cert). split_and!; [done| |done]. apply Hcert.
        * apply (certificate_universe ctx G byz HU d v Hview); [done|simpl; lia|done]. }
  destruct (filter_leaders_spec d v slot (λ b, any_certificate ctx d b certs ∅) Hview Hgc)
    as (bs & -> & Hlen & Hbs).
  { intros b Hb Hs. destruct (Hany b Hs) as (x & Hrun & Hx). exists x. split; [done|].
    intros (r & cert & _ & Hc%(vo_sub _ _ _ _ Hview) & Hcert)%Hx. by exists r, cert. }
  simpl. rewrite bool_decide_eq_false_2 by lia. eexists. split; [done|].
  destruct bs as [|b [|]]; simpl in *; [| |lia].
  - split; [done|]. intros leader r cert Hs Hh Hc Hcert.
    destruct (certified_known d v leader r cert) as [b Hb]; [done|by subst slot|done..|].
    destruct (lk_wf ctx G byz HU d v Hview _ _ Hb) as [<- _].
    destruct (Hany b Hs) as (x & Hrun & Hx). assert (x = true) as -> by (apply Hx; eauto).
    assert (b ∈ []) by (by apply Hbs). set_solver.
  - assert (b ∈ [b]) as (Hb & Hs & Hrun)%Hbs by left. split_and!; [done..|].
    destruct (Hany b Hs) as (x & Hrun' & Hx). apply Hx. congruence.
Qed.

(** ** Causal histories across views *)

Lemma parents_elem b h : h ∈ parents b ↔
  ∃ a, a ∈ vb_ancestors b ∧ br_round a + 1 = vb_round b ∧ br_author a = h.
Proof.
  clear. unfold parents. rewrite elem_of_list_to_set, list_elem_of_fmap.
  setoid_rewrite list_elem_of_filter. split; [intros (a & -> & ? & ?)|intros (a & ? & ? & <-)]; eauto.
Qed.

(** A directly committed leader has a certificate in the history of every
    block of a round above its decision round. *)
Lemma supported_history d v leader x : view_ok ctx G d v → supported cm G leader →
  gc_round ctx d < br_round leader + 2 → dag_lookup d v (vb_reference x) = Some x →
  br_round leader + 3 ≤ vb_round x →
  ∃ r cert, history (dag_lookup d v) x r ∧ dag_lookup d v r = Some cert ∧ certificate cm G leader cert.
Proof using HU.
  intros Hview Hsup Hgc. remember (vb_round x) as n eqn:Hn. revert x Hn.
  induction n as [n IH] using (well_founded_induction N.lt_wf_0). intros x -> Hx Hr.
  destruct (lk_wf ctx G byz HU d v Hview _ _ Hx) as [_ Hwf].
  pose proof (wf_parents _ _ Hwf ltac:(lia)) as Hq.
  destruct Hsup as (Q & HQ & Hin).
  destruct (quorums_honest cm G byz HU _ _ HQ Hq) as (h & HhQ & Hhp & Hhon).
  apply parents_elem in Hhp as (a & Ha & Har & Hah).
  destruct (vo_closed _ _ _ _ Hview _ _ _ Hx Ha) as [p Hp]; [lia|].
  destruct (lk_wf ctx G byz HU d v Hview _ _ Hp) as [Hpr _].
  destruct (decide (vb_round x = br_round leader + 3)) as [He|Hne].
  - destruct (Hin h HhQ) as (r & cert & Hc & Hrh & Hcert).
    assert (r = a) as ->.
    { apply (u_honest _ _ _ HU _ _ _ _ Hc (vo_sub _ _ _ _ Hview _ _ Hp)); [congruence..|].
      pose proof (u_reference _ _ _ HU _ _ Hc) as <-. destruct Hcert as [Hcr _]. simpl in *. lia. }
    exists a, cert. split; [by exists a|]. split; [|done].
    pose proof (vo_sub _ _ _ _ Hview _ _ Hp). congruence.
  - assert (Hpr' : vb_round p = br_round a) by (by rewrite <-Hpr).
    destruct (IH (vb_round p)) with (x := p) as (r & cert & (z & Hz & Hzr) & Hc & Hcert);
      [lia|done|by rewrite Hpr|lia|].
    exists r, cert. split; [|done]. exists a. split; [done|].
    eapply rtc_l; [|done]. by exists p.
Qed.

(** ** Sequences of decisions *)

(** The committed leader the indirect rule takes as its anchor. *)
Fixpoint first_anchor (anchors : list LeaderStatus) : option VerifiedBlock :=
  match anchors with
  | LCommit b :: _ => Some b
  | LSkip _ :: anchors => first_anchor anchors
  | _ => None
  end.
Definition anchor_of (slot : Slot) (later : list LeaderStatus) : option VerifiedBlock :=
  first_anchor (filter (λ x, s_round slot + 3 ≤ LeaderStatus_round x) later).

(** A decision is justified directly, or by the anchor among later leaders. *)
Definition status_ok (d : DagState S) (v : StoreView) (later : list LeaderStatus)
    (st : LeaderStatus) : Prop :=
  match st with
  | LCommit b => dag_lookup d v (vb_reference b) = Some b
  | _ => True
  end ∧
  (LeaderStatus_is_decided st →
   match st with
   | LCommit b => supported cm G (vb_reference b)
   | LSkip s => blamed cm G s
   | LUndecided _ => False
   end ∨
   ∃ anchor, anchor_of (LeaderStatus_slot st) later = Some anchor ∧
     indirect_status d v anchor (LeaderStatus_slot st) st).

Inductive decisions_ok (d : DagState S) (v : StoreView) : list LeaderStatus → Prop :=
| decisions_nil : decisions_ok d v []
| decisions_cons st later : status_ok d v later st →
    gc_round ctx d < s_round (LeaderStatus_slot st) →
    decisions_ok d v later → decisions_ok d v (st :: later).

Definition aligned (l1 l2 : list LeaderStatus) : Prop :=
  ∀ i st1 st2, l1 !! i = Some st1 → l2 !! i = Some st2 →
    LeaderStatus_slot st1 = LeaderStatus_slot st2.
Definition agree (l1 l2 : list LeaderStatus) : Prop :=
  ∀ i st1 st2, l1 !! i = Some st1 → l2 !! i = Some st2 →
    LeaderStatus_is_decided st1 → LeaderStatus_is_decided st2 → st1 = st2.

Lemma LeaderStatus_round_slot st : LeaderStatus_round st = s_round (LeaderStatus_slot st).
Proof. by destruct st. Qed.

Lemma first_anchor_elem anchors a : first_anchor anchors = Some a → LCommit a ∈ anchors.
Proof.
  clear. induction anchors as [|[b|s|s] anchors IH]; simpl; intros ?; simplify_eq; [left|right; auto].
Qed.

Lemma anchor_of_elem slot later a : anchor_of slot later = Some a →
  LCommit a ∈ later ∧ s_round slot + 3 ≤ vb_round a.
Proof. clear. by intros [? ?]%first_anchor_elem%list_elem_of_filter. Qed.

Lemma anchors_agree slot l1 l2 a1 a2 : aligned l1 l2 → agree l1 l2 →
  anchor_of slot l1 = Some a1 → anchor_of slot l2 = Some a2 → a1 = a2.
Proof.
  clear. unfold anchor_of. revert l2. induction l1 as [|st1 l1 IH]; intros [|st2 l2] Hal Hag; try done.
  assert (Hal' : aligned l1 l2) by (intros i; apply (Hal (Datatypes.S i))).
  assert (Hag' : agree l1 l2) by (intros i; apply (Hag (Datatypes.S i))).
  specialize (IH l2 Hal' Hag').
  specialize (Hal O st1 st2 eq_refl eq_refl). specialize (Hag O st1 st2 eq_refl eq_refl).
  rewrite !filter_cons, !LeaderStatus_round_slot, Hal. case_decide; [|done].
  destruct st1, st2; simpl in *; try done; intros; specialize (Hag I I); simplify_eq; auto.
Qed.

Lemma decisions_lookup d v later b : decisions_ok d v later → LCommit b ∈ later →
  dag_lookup d v (vb_reference b) = Some b.
Proof.
  clear. induction 1 as [|st later [Hst _] _ _ IH]; [set_solver|].
  intros [<-|?]%elem_of_cons; [done|auto].
Qed.

(** A committed block has a certificate in the universe. *)
Lemma committed_certificate d v later b : view_ok ctx G d v → status_ok d v later (LCommit b) →
  ∃ r cert, G r = Some cert ∧ certificate cm G (vb_reference b) cert.
Proof using HU.
  intros Hview [_ Hst]. destruct (Hst I) as [Hsup|(a & _ & _ & _ & r & cert & _ & Hc & Hcert)].
  - by apply supported_nonempty.
  - exists r, cert. split; [by apply (vo_sub _ _ _ _ Hview)|done].
Qed.

End decide.

(** ** Two authorities

    They share the configuration and differ in their own index. *)
Definition own_context (ctx : Context) (i : AuthorityIndex) : Context :=
  mk_context (ctx_epoch_start_timestamp_ms ctx) i (ctx_committee ctx)
    (ctx_dag_state_cached_rounds ctx) (ctx_protocol_config ctx).

Section agreement.
Context {S : Type} `{StoreLaws S} `{Rng} (ctx : Context) (G : BlockRef → option VerifiedBlock).
Context (byz : gset AuthorityIndex) (HU : universe_ok (ctx_committee ctx) G byz).
Abbreviation at_node := (own_context ctx).

Lemma link_transfer i1 i2 d1 v1 d2 v2 z r : view_ok (at_node i1) G d1 v1 → view_ok (at_node i2) G d2 v2 →
  rtc (link (dag_lookup d1 v1)) z r → gc_round (at_node i2) d2 < br_round r →
  is_Some (dag_lookup d2 v2 z) → rtc (link (dag_lookup d2 v2)) z r.
Proof using HU.
  intros Hv1 Hv2 Hzr Hgc. induction Hzr as [z|z y r (b & Hb & Hy) Hyr IH]; intros [b' Hb']; [done|].
  pose proof (vo_sub _ _ _ _ Hv1 _ _ Hb). pose proof (vo_sub _ _ _ _ Hv2 _ _ Hb').
  assert (b' = b) as -> by congruence.
  eapply rtc_l; [by exists b|]. apply IH; [done|].
  apply (vo_closed _ _ _ _ Hv2 _ _ _ Hb' Hy).
  pose proof (rtc_link_round _ _ _ (lk_rounds_decrease (at_node i1) G byz HU d1 v1 Hv1) Hyr) as [->|]; lia.
Qed.

Lemma history_transfer i1 i2 d1 v1 d2 v2 anchor r : view_ok (at_node i1) G d1 v1 → view_ok (at_node i2) G d2 v2 →
  dag_lookup d2 v2 (vb_reference anchor) = Some anchor →
  history (dag_lookup d1 v1) anchor r → gc_round (at_node i2) d2 < br_round r →
  history (dag_lookup d2 v2) anchor r.
Proof using HU.
  intros Hv1 Hv2 Ha (z & Hz & Hzr) Hgc. exists z. split; [done|].
  apply (link_transfer i1 i2 d1 v1); [done..|].
  apply (vo_closed _ _ _ _ Hv2 _ _ _ Ha Hz).
  pose proof (rtc_link_round _ _ _ (lk_rounds_decrease (at_node i1) G byz HU d1 v1 Hv1) Hzr) as [->|]; lia.
Qed.

(** A slot committed in one view is not skipped in another. *)
Lemma commit_not_skipped i1 i2 d1 v1 d2 v2 later1 later2 b s :
  view_ok (at_node i1) G d1 v1 → view_ok (at_node i2) G d2 v2 →
  status_ok (at_node i1) G d1 v1 later1 (LCommit b) → status_ok (at_node i2) G d2 v2 later2 (LSkip s) →
  decisions_ok (at_node i1) G d1 v1 later1 → decisions_ok (at_node i2) G d2 v2 later2 →
  aligned later1 later2 → agree later1 later2 → gc_round (at_node i2) d2 < s_round s →
  Slot_from (vb_reference b) = s → False.
Proof using HU.
  intros Hv1 Hv2 Hst1 Hst2 Hd1 Hd2 Hal Hag Hgc <-.
  destruct (committed_certificate (at_node i1) G byz HU d1 v1 later1 b Hv1 Hst1) as (r & cert & Hc & Hcert).
  destruct Hst2 as [_ Hst2]. destruct (Hst2 I) as [Hbl|(a2 & Ha2 & _ & Hno)].
  { by apply (certificate_not_blamed _ G byz HU _ _ _ _ Hc Hcert eq_refl). }
  pose proof Ha2 as [Ha2in Ha2r]%anchor_of_elem.
  pose proof (decisions_lookup _ _ _ _ _ _ Hd2 Ha2in) as Ha2lk. simpl in *.
  destruct Hst1 as [Hb Hst1]. destruct (Hst1 I) as [Hsup|(a1 & Ha1 & _ & _ & r1 & cert1 & Hh & Hc1 & Hcert1)].
  - destruct (supported_history (at_node i2) G byz HU d2 v2 (vb_reference b) a2) as (r2 & cert2 & Hh & Hc2 & Hcert2);
      [done..|simpl; lia|done|done|].
    by apply (Hno (vb_reference b) r2 cert2).
  - assert (a1 = a2) as -> by (eapply anchors_agree; [exact Hal|done..]).
    destruct (lk_wf (at_node i1) G byz HU d1 v1 Hv1 _ _ Hc1) as [Hr1 _].
    destruct Hcert1 as [Hr1' ?]. simpl in Hr1'.
    assert (Hgr : gc_round (at_node i2) d2 < br_round r1) by (rewrite <-Hr1; simpl; lia).
    pose proof (history_transfer i1 i2 d1 v1 d2 v2 a2 r1 Hv1 Hv2 Ha2lk Hh Hgr) as Hh2.
    destruct (history_known (at_node i2) G byz HU d2 v2 a2 r1 Hv2 Ha2lk Hh2 Hgr) as [cert2 Hc2].
    pose proof (vo_sub _ _ _ _ Hv1 _ _ Hc1). pose proof (vo_sub _ _ _ _ Hv2 _ _ Hc2).
    assert (cert2 = cert1) as -> by congruence.
    by apply (Hno (vb_reference b) r1 cert1).
Qed.

Lemma agree_sym l1 l2 : agree l1 l2 → agree l2 l1.
Proof. clear. intros Hag i st1 st2 H1 H2 D1 D2. symmetry. by apply (Hag i). Qed.
Lemma aligned_sym l1 l2 : aligned l1 l2 → aligned l2 l1.
Proof. clear. intros Hal i st1 st2 H1 H2. symmetry. by apply (Hal i). Qed.

Lemma decisions_agree i1 i2 d1 v1 d2 v2 l1 l2 : view_ok (at_node i1) G d1 v1 → view_ok (at_node i2) G d2 v2 →
  decisions_ok (at_node i1) G d1 v1 l1 → decisions_ok (at_node i2) G d2 v2 l2 → aligned l1 l2 → agree l1 l2.
Proof using HU.
  intros Hv1 Hv2 Hd1. revert l2. induction Hd1 as [|st1 l1 Hst1 Hgc1 Hd1 IH]; intros l2 Hd2 Hal.
  { by intros i st1 st2. }
  destruct Hd2 as [|st2 l2 Hst2 Hgc2 Hd2]; [by intros i x1 x2 _|].
  assert (Hal' : aligned l1 l2) by (intros i; apply (Hal (Datatypes.S i))).
  specialize (IH l2 Hd2 Hal'). specialize (Hal O st1 st2 eq_refl eq_refl).
  intros [|i]; [|apply IH]. intros ? ? [= <-] [= <-] D1 D2.
  destruct st1 as [b1|s1|?], st2 as [b2|s2|?]; try done; simpl in Hal.
  - destruct (committed_certificate (at_node i1) G byz HU _ _ _ _ Hv1 Hst1) as (r1 & c1 & Hc1 & Hcert1).
    destruct (committed_certificate (at_node i2) G byz HU _ _ _ _ Hv2 Hst2) as (r2 & c2 & Hc2 & Hcert2).
    pose proof (certificate_unique _ G byz HU _ _ _ _ _ _ Hc1 Hc2 Hcert1 Hcert2 Hal) as Href.
    destruct Hst1 as [Hb1%(vo_sub _ _ _ _ Hv1) _], Hst2 as [Hb2%(vo_sub _ _ _ _ Hv2) _].
    rewrite Href in Hb1. congruence.
  - exfalso. by apply (commit_not_skipped i1 i2 d1 v1 d2 v2 l1 l2 b1 s2).
  - exfalso. apply (commit_not_skipped i2 i1 d2 v2 d1 v1 l2 l1 b2 s1); auto using agree_sym, aligned_sym.
  - by rewrite Hal.
Qed.
End agreement.

(** ** Exactness of the direct rule *)

(** C20: the direct rule decides exactly what it should: a slot is skipped iff
    a quorum of the voting round has no block of the leader among its
    ancestors, a block is committed iff a quorum of the decision round
    certifies it, and never is more than one candidate found. *)
Theorem try_direct_decide_exact {S} `{StoreLaws S} ctx G byz (d : DagState S) v o slot bs :
  universe_ok (ctx_committee ctx) G byz → view_ok ctx G d v → committer_ok o →
  leader_round o (wave_number o (s_round slot)) = s_round slot →
  last_commit_round d < s_round slot → s_round slot + 2 < u32_max →
  get_uncommitted_blocks_at_round d (s_round slot + 2) = Done bs → stake_of_blocks ctx bs ≤ u64_max →
  ∃ st, try_direct_decide ctx o d slot = Done st ∧
    (st = LSkip slot ↔ blamed (ctx_committee ctx) (dag_lookup d v) slot) ∧
    ∀ b, st = LCommit b ↔
      dag_lookup d v (vb_reference b) = Some b ∧ Slot_from (vb_reference b) = slot ∧
      supported (ctx_committee ctx) (dag_lookup d v) (vb_reference b).
Proof.
  intros HU Hview Ho Hl Hlast Hmax Hbs Hsmall.
  destruct (try_direct_decide_spec ctx G byz HU d v o slot Hview Ho Hl Hlast Hmax) as (st & Hrun & Hst).
  assert (Hgc : gc_round ctx d < s_round slot)
    by (unfold gc_round, calculate_gc_round, saturating_sub; lia).
  assert (Hcert : ∀ b, Slot_from (vb_reference b) = slot →
    supported (ctx_committee ctx) (dag_lookup d v) (vb_reference b) →
    ∃ r cert, G r = Some cert ∧ certificate (ctx_committee ctx) G (vb_reference b) cert).
  { intros b Hs Hsup. apply (supported_nonempty ctx G byz HU).
    apply (supported_certificate ctx G byz HU d v); [done|subst slot; simpl in *; lia|done]. }
  assert (Hex : ∀ b, Slot_from (vb_reference b) = slot →
    supported (ctx_committee ctx) (dag_lookup d v) (vb_reference b) →
    ¬ blamed (ctx_committee ctx) (dag_lookup d v) slot).
  { intros b Hs Hsup Hbl. destruct (Hcert b Hs Hsup) as (r & cert & Hc & Hct).
    eapply (certificate_not_blamed _ _ _ HU); [done..|]. by eapply blamed_universe. }
  exists st. split; [done|]. destruct st as [b|s|s]; simpl in Hst.
  - destruct Hst as (Hb & Hs & Hsup). split; [split; [done|]; intros; by destruct (Hex b Hs Hsup)|].
    intros b'. split; [by intros [= <-]|]. intros (Hb' & Hs' & Hsup').
    destruct (Hcert b Hs Hsup) as (r1 & c1 & ? & ?), (Hcert b' Hs' Hsup') as (r2 & c2 & ? & ?).
    assert (vb_reference b = vb_reference b') as Heq
      by (eapply (certificate_unique _ _ _ HU _ _ r1 r2 c1 c2); [done..|congruence]).
    rewrite Heq in Hb. congruence.
  - destruct Hst as [-> Hbl]. split; [done|]. intros b. split; [done|].
    intros (_ & Hs & Hsup). by destruct (Hex b Hs Hsup).
  - destruct Hst as (-> & Hnb & Hns). split; [done|]. intros b. split; [done|].
    intros (Hb & Hs & Hsup). by destruct (Hns bs b Hbs Hsmall Hb Hs).
Qed.
