(* ===== verification/UniversalCommitter.v ===== *)
(** * Correctness of the universal committer

    [try_decide] never panics and always terminates on a causally complete
    view, decides consecutive leaders, and two authorities with different
    views of the DAG never decide a leader differently. *)
From S2P Require Import Prelude Committee StakeAggregator Block ThresholdClock Commit LeaderScoring Store DagState DagStateProofs DagTraversal LeaderSchedule BaseCommitter CommitRule DagViews CommitSafety.

From Stdlib Require Import Strings.Byte.

Section universal.
Context {S : Type} `{StoreLaws S} `{Rng} (ctx : Context) (G : BlockRef → option VerifiedBlock).
Context (byz : gset AuthorityIndex) (HU : universe_ok (ctx_committee ctx) G byz).
Context (schedule : LeaderSchedule) (committers : list BaseCommitterOptions) (fuel : nat).
Abbreviation cm := (ctx_committee ctx).

(** The slot a committer leads in a round, when the election returns. *)
Definition slot_at (round : Round) (o : BaseCommitterOptions) : option Slot :=
  match BaseCommitter_elect_leader ctx o schedule round with Done s => s | _ => None end.
Definition slots_at (round : Round) (os : list BaseCommitterOptions) : list Slot :=
  omap (slot_at round) os.

(** The schedule elects a leader for every round. *)
Definition schedule_total : Prop :=
  ∀ o round, o ∈ committers → ∃ s, BaseCommitter_elect_leader ctx o schedule round = Done s.

Record committers_ok : Prop := {
  cs_ok : Forall committer_ok committers;
  cs_total : schedule_total;
  cs_one : pc_mysticeti_num_leaders_per_round (ctx_protocol_config ctx) = Some 1;
}.

(** What is required of a run: the view is causally complete, the last decided
    leader is not below the last commit, and the fuel covers the known blocks. *)
Record run_ok (d : DagState S) (v : StoreView) (last_decided : Slot) : Prop := {
  ro_view : view_ok ctx G d v;
  ro_last : last_commit_round d ≤ s_round last_decided;
  ro_max : s_round last_decided < u32_max;
  ro_highest : highest_accepted_round d < u32_max;
  ro_fuel : (size (known_refs d v) ≤ fuel)%nat;
}.

Lemma elect_leader_slot o round s : BaseCommitter_elect_leader ctx o schedule round = Done (Some s) →
  s_round s = round ∧ leader_round o (wave_number o round) = round.
Proof.
  clear. unfold BaseCommitter_elect_leader. case_bool_decide as Hr; [done|].
  intros ?. run_inv. done.
Qed.

Lemma anchor_loop_first o (d : DagState S) slot anchors :
  anchor_loop ctx fuel o d slot anchors =
  match first_anchor anchors with
  | Some a => decide_leader_from_anchor ctx fuel o d a slot
  | None => Done (LUndecided slot)
  end.
Proof. clear. by induction anchors as [|[] anchors IH]. Qed.

(** One slot: the direct rule, then the indirect rule. *)
Lemma decide_slot_spec d v last_decided o slot (leaders : list (LeaderStatus * Decision)) :
  run_ok d v last_decided → committer_ok o →
  leader_round o (wave_number o (s_round slot)) = s_round slot →
  s_round last_decided < s_round slot → s_round slot + 2 < u32_max →
  decisions_ok ctx G d v leaders.*1 →
  ∃ st dec, (status ← try_direct_decide ctx o d slot;
             if LeaderStatus_is_decided status then Done ((status, Direct) :: leaders)
             else
               status ← try_indirect_decide ctx fuel o d slot leaders.*1;
               Done ((status, Indirect) :: leaders)) = Done ((st, dec) :: leaders) ∧
    LeaderStatus_slot st = slot ∧ decisions_ok ctx G d v (st :: leaders.*1).
Proof using HU.
  intros [Hview Hlast _ _ Hfuel] Ho Hl Hr Hmax Hds.
  assert (Hgc : gc_round ctx d < s_round slot)
    by (unfold gc_round, calculate_gc_round, saturating_sub; lia).
  destruct (try_direct_decide_spec ctx G byz HU d v o slot) as (st & -> & Hst); [done..|lia|done|].
  simpl. destruct st as [b|s|s]; simpl.
  - destruct Hst as (Hb & Hs & Hsup). exists (LCommit b), Direct. split; [done|]. split; [done|].
    constructor; [|by subst slot|done]. split; [done|]. intros _. left.
    apply (supported_certificate ctx G byz HU d v); [done| |done].
    rewrite <-Hs in Hgc. simpl in *. lia.
  - destruct Hst as [-> Hbl]. exists (LSkip slot), Direct. split; [done|]. split; [done|].
    constructor; [|done..]. split; [done|]. intros _. left. by apply (blamed_universe ctx G d v).
  - destruct Hst as [-> _]. unfold try_indirect_decide.
    rewrite (co_wave _ Ho), u32_add_small by lia. rewrite anchor_loop_first.
    fold (anchor_of slot leaders.*1). destruct (anchor_of slot leaders.*1) as [a|] eqn:Ha; simpl.
    + pose proof Ha as [Hin _]%anchor_of_elem.
      destruct (decide_leader_from_anchor_spec ctx G byz HU fuel d v o a slot) as (st & -> & Hst);
        [done..|by eapply decisions_lookup|].
      exists st, Indirect. split; [done|].
      assert (LeaderStatus_slot st = slot) as Hslot
        by (destruct st; [by destruct Hst as (_ & ? & _)|by destruct Hst|done]).
      split; [done|]. constructor; [|by rewrite Hslot|done].
      split; [by destruct st; [destruct Hst|..]|]. intros _. right. exists a. by rewrite Hslot.
    + exists (LUndecided slot), Indirect. split; [done|]. split; [done|]. by constructor.
Qed.

(** ** The loops *)

Lemma slots_at_snoc round os o :
  slots_at round (os ++ [o]) = slots_at round os ++ option_list (slot_at round o).
Proof. clear. unfold slots_at. by rewrite omap_app. Qed.

Lemma round_loop_spec d v last_decided round os leaders :
  run_ok d v last_decided → committers_ok → (∀ o, o ∈ os → o ∈ committers) →
  s_round last_decided < round → round + 2 < u32_max → decisions_ok ctx G d v leaders.*1 →
  ∃ new, round_loop ctx fuel schedule d last_decided round (reverse os) leaders =
      Done (new ++ leaders, false) ∧
    LeaderStatus_slot <$> new.*1 = slots_at round os ∧
    decisions_ok ctx G d v (new ++ leaders).*1.
Proof using HU.
  intros Hrun Hcs Hos Hr Hmax. revert leaders.
  induction os as [|o os IH] using rev_ind; intros leaders Hds; [by exists []|].
  rewrite reverse_snoc. simpl. rewrite slots_at_snoc. unfold slot_at.
  destruct (cs_total Hcs o round) as [s Hs]; [apply Hos; set_solver|]. rewrite Hs. simpl.
  specialize (IH ltac:(intros; apply Hos; set_solver)).
  destruct s as [slot|]; simpl; [|rewrite app_nil_r; by apply IH].
  apply elect_leader_slot in Hs as [<- Hl].
  rewrite bool_decide_eq_false_2 by (intros ->; lia).
  destruct (decide_slot_spec d v last_decided o slot leaders) as (st & dec & Hdec & Hslot & Hds');
    [done| |done..|].
  { pose proof (cs_ok Hcs) as Hall. rewrite Forall_forall in Hall. apply Hall, Hos. set_solver. }
  apply bind_Done in Hdec as (status & -> & Hdec). simpl. rewrite Hdec. simpl.
  destruct (IH ((st, dec) :: leaders)) as (new & Hnew & Hslots & Hds''); [done|].
  exists (new ++ [(st, dec)]). rewrite <-app_assoc. split; [done|]. split; [|done].
  by rewrite !fmap_app, Hslots, <-Hslot.
Qed.

Lemma rounds_loop_spec d v last_decided rounds leaders :
  run_ok d v last_decided → committers_ok →
  (∀ r, r ∈ rounds → s_round last_decided < r ∧ r + 2 < u32_max) →
  decisions_ok ctx G d v leaders.*1 →
  ∃ new, rounds_loop ctx fuel schedule committers d last_decided (reverse rounds) leaders =
      Done (new ++ leaders) ∧
    LeaderStatus_slot <$> new.*1 = rounds ≫= (λ r, slots_at r committers) ∧
    decisions_ok ctx G d v (new ++ leaders).*1.
Proof using HU.
  intros Hrun Hcs Hrs. revert leaders.
  induction rounds as [|r rounds IH] using rev_ind; intros leaders Hds; [by exists []|].
  rewrite reverse_snoc. simpl.
  destruct (Hrs r) as [Hr1 Hr2]; [set_solver|].
  destruct (round_loop_spec d v last_decided r committers leaders) as (new & -> & Hslots & Hds');
    [done..|]. simpl.
  destruct (IH ltac:(intros; apply Hrs; set_solver) (new ++ leaders)) as (new' & -> & Hslots' & Hds'');
    [done|].
  exists (new' ++ new). rewrite <-app_assoc. split; [done|]. split; [|done].
  rewrite bind_app, !fmap_app, Hslots', Hslots. simpl. by rewrite app_nil_r.
Qed.

(** The rounds a run looks at, in ascending order. *)
Definition rounds_asc (first last : Round) : list Round :=
  (λ i, first + N.of_nat i) <$> seq 0 (N.to_nat (last + 1 - first)).

Lemma rounds_asc_elem first last r : r ∈ rounds_asc first last ↔ first ≤ r ≤ last.
Proof.
  clear. unfold rounds_asc. rewrite list_elem_of_fmap. setoid_rewrite elem_of_seq. split.
  - intros (i & -> & Hi). lia.
  - intros Hr. exists (N.to_nat (r - first)). lia.
Qed.

(** The decided sequence, without the flag that tells the direct decisions. *)
Definition decided_status (x : DecidedLeader) : LeaderStatus :=
  match x with DCommit b _ => LCommit b | DSkip s => LSkip s end.

Lemma decided_prefix_take_while (leaders : list (LeaderStatus * Decision)) :
  Forall (λ st, LeaderStatus_round st ≠ GENESIS_ROUND) leaders.*1 →
  decided_status <$> decided_prefix leaders = take_while LeaderStatus_is_decided leaders.*1.
Proof.
  clear. induction leaders as [|[st dec] leaders IH]; intros Hr; [done|]. simpl.
  apply Forall_cons in Hr as [Hr Hrs]. simpl in Hr. rewrite bool_decide_eq_false_2 by done.
  specialize (IH Hrs). by destruct st; csimpl; rewrite ?IH.
Qed.

Lemma decisions_nonzero (d : DagState S) v l : decisions_ok ctx G d v l →
  Forall (λ st, LeaderStatus_round st ≠ GENESIS_ROUND) l.
Proof.
  clear. induction 1 as [|st l _ Hgc _ IH]; constructor; [|done].
  rewrite LeaderStatus_round_slot. unfold GENESIS_ROUND. lia.
Qed.

(** A run of [try_decide]: the statuses of all slots above the last decided
    leader, of which the decided prefix is returned. *)
Lemma try_decide_spec d v last_decided : run_ok d v last_decided → committers_ok →
  ∃ statuses result, try_decide ctx fuel schedule committers d last_decided = Done result ∧
    LeaderStatus_slot <$> statuses =
      rounds_asc (s_round last_decided + 1) (highest_accepted_round d - 2) ≫=
        (λ r, slots_at r committers) ∧
    decisions_ok ctx G d v statuses ∧
    decided_status <$> result = take_while LeaderStatus_is_decided statuses.
Proof using HU.
  intros Hrun Hcs. unfold try_decide. rewrite (cs_one Hcs).
  rewrite u32_add_small by (pose proof (ro_max _ _ _ Hrun); lia).
  unfold rounds_desc. fold (rounds_asc (s_round last_decided + 1) (saturating_sub (highest_accepted_round d) 2)).
  destruct (rounds_loop_spec d v last_decided
    (rounds_asc (s_round last_decided + 1) (highest_accepted_round d - 2)) [])
    as (new & Hnew & Hslots & Hds); [done..| |constructor|].
  { intros r ?%rounds_asc_elem. pose proof (ro_highest _ _ _ Hrun). lia. }
  rewrite app_nil_r in *. unfold saturating_sub. rewrite Hnew. simpl.
  exists new.*1, (decided_prefix new). split_and!; [done..|].
  apply decided_prefix_take_while. by eapply decisions_nonzero.
Qed.
End universal.

(** ** Comparing two runs *)

Lemma prefix_aligned l1 l2 : LeaderStatus_slot <$> l1 `prefix_of` LeaderStatus_slot <$> l2 →
  aligned l1 l2.
Proof.
  intros Hpre i st1 st2 H1 H2.
  assert (Hs1 : (LeaderStatus_slot <$> l1) !! i = Some (LeaderStatus_slot st1))
    by (by rewrite list_lookup_fmap, H1).
  apply (prefix_lookup_Some _ _ _ _ Hs1) in Hpre. rewrite list_lookup_fmap, H2 in Hpre.
  simpl in Hpre. congruence.
Qed.

Lemma agree_take_while l1 l2 : agree l1 l2 →
  take_while LeaderStatus_is_decided l1 `prefix_of` take_while LeaderStatus_is_decided l2 ∨
  take_while LeaderStatus_is_decided l2 `prefix_of` take_while LeaderStatus_is_decided l1.
Proof.
  revert l2. induction l1 as [|st1 l1 IH]; intros [|st2 l2] Hag; simpl;
    [by left|left; apply prefix_nil|right; apply prefix_nil|].
  destruct (LeaderStatus_is_decided st1) eqn:D1, (LeaderStatus_is_decided st2) eqn:D2;
    [|right; apply prefix_nil|left; apply prefix_nil|by left].
  assert (st1 = st2) as -> by (apply (Hag O); simpl; rewrite ?D1, ?D2; done).
  destruct (IH l2) as [?|?]; [intros i; apply (Hag (Datatypes.S i))|left|right]; by apply prefix_cons.
Qed.

Lemma rounds_asc_prefix first h1 h2 : h1 ≤ h2 → rounds_asc first h1 `prefix_of` rounds_asc first h2.
Proof.
  intros Hle. unfold rounds_asc.
  replace (N.to_nat (h2 + 1 - first)) with
    (N.to_nat (h1 + 1 - first) + (N.to_nat (h2 + 1 - first) - N.to_nat (h1 + 1 - first)))%nat by lia.
  rewrite seq_app, fmap_app. by apply prefix_app_r.
Qed.

Lemma bind_prefix {A B} (f : A → list B) l1 l2 : l1 `prefix_of` l2 → l1 ≫= f `prefix_of` l2 ≫= f.
Proof. intros [k ->]. rewrite bind_app. by apply prefix_app_r. Qed.

Section two_nodes.
Context {S : Type} `{StoreLaws S} `{Rng} `{BlockCodec} (ctx : Context).
Context (G : BlockRef → option VerifiedBlock) (byz : gset AuthorityIndex).
Context (schedule : LeaderSchedule) (committers : list BaseCommitterOptions) (fuel : nat).
Abbreviation at_node := (own_context ctx).

(** A node about to run the committer: an honest node in a reachable state. *)
Record committing_node (i : AuthorityIndex) (d : DagState S) (v : StoreView) (last_decided : Slot)
    : Prop := {
  cn_honest : honest_node (at_node i) G byz;
  cn_reachable : reachable (at_node i) G d v;
  cn_last : last_commit_round d ≤ s_round last_decided;
  cn_max : s_round last_decided < u32_max;
  cn_fuel : (size (known_refs d v) ≤ fuel)%nat;
}.

Lemma committing_run_ok i d v last_decided : committing_node i d v last_decided →
  run_ok (at_node i) G fuel d v last_decided.
Proof.
  intros [Hh Hr Hl Hm Hf]. pose proof (honest_reachable_inv _ _ _ _ _ Hh Hr) as Hinv.
  split; try done; apply Hinv.
Qed.

Lemma committers_ok_at i : committers_ok ctx schedule committers →
  committers_ok (at_node i) schedule committers.
Proof. by intros [? ? ?]. Qed.

(** The statuses behind a run, with the slots of the shared configuration. *)
Lemma node_statuses i d v last_decided : committing_node i d v last_decided →
  committers_ok ctx schedule committers →
  ∃ statuses result, try_decide (at_node i) fuel schedule committers d last_decided = Done result ∧
    LeaderStatus_slot <$> statuses =
      rounds_asc (s_round last_decided + 1) (highest_accepted_round d - 2) ≫=
        (λ r, slots_at ctx schedule r committers) ∧
    decisions_ok (at_node i) G d v statuses ∧
    decided_status <$> result = take_while LeaderStatus_is_decided statuses.
Proof.
  intros Hn Hcs. apply (try_decide_spec (at_node i) G byz (hn_universe _ _ _ (cn_honest _ _ _ _ Hn))).
  - by apply committing_run_ok.
  - by apply committers_ok_at.
Qed.

(** C14: agreement on the sequence. Two honest authorities with different,
    causally complete views of the DAG that decide leaders from the same last
    decided slot with the same schedule both terminate without panic, and one
    decided sequence is a prefix of the other: the same leader blocks are
    committed and the same slots skipped, in the same order, whether each
    decision was direct or indirect. *)
Theorem try_decide_agreement i1 i2 d1 v1 d2 v2 last_decided :
  committers_ok ctx schedule committers →
  committing_node i1 d1 v1 last_decided → committing_node i2 d2 v2 last_decided →
  ∃ l1 l2, try_decide (at_node i1) fuel schedule committers d1 last_decided = Done l1 ∧
    try_decide (at_node i2) fuel schedule committers d2 last_decided = Done l2 ∧
    (decided_status <$> l1 `prefix_of` decided_status <$> l2 ∨
     decided_status <$> l2 `prefix_of` decided_status <$> l1).
Proof.
  intros Hcs Hn1 Hn2.
  destruct (node_statuses i1 d1 v1 last_decided Hn1 Hcs) as (st1 & l1 & Hr1 & Hs1 & Hd1 & Hl1).
  destruct (node_statuses i2 d2 v2 last_decided Hn2 Hcs) as (st2 & l2 & Hr2 & Hs2 & Hd2 & Hl2).
  exists l1, l2. split; [done|]. split; [done|]. rewrite Hl1, Hl2. apply agree_take_while.
  pose proof (hn_universe _ _ _ (cn_honest _ _ _ _ Hn1)) as HU.
  pose proof (ni_view _ _ _ _ (honest_reachable_inv _ _ _ _ _ (cn_honest _ _ _ _ Hn1) (cn_reachable _ _ _ _ Hn1))).
  pose proof (ni_view _ _ _ _ (honest_reachable_inv _ _ _ _ _ (cn_honest _ _ _ _ Hn2) (cn_reachable _ _ _ _ Hn2))).
  apply (decisions_agree ctx G byz HU i1 i2 d1 v1 d2 v2); [done..|].
  destruct (N.le_gt_cases (highest_accepted_round d1 - 2) (highest_accepted_round d2 - 2)) as [Hle|Hgt].
  - apply prefix_aligned. rewrite Hs1, Hs2. by apply bind_prefix, rounds_asc_prefix.
  - apply aligned_sym, prefix_aligned. rewrite Hs1, Hs2. apply bind_prefix, rounds_asc_prefix. lia.
Qed.
End two_nodes.

(** ** The pipelined committer: one leader per round *)

(** The committer as the core builds it. *)
Definition pipelined_committers : list BaseCommitterOptions :=
  UniversalCommitterBuilder_build
    (with_pipeline (with_number_of_leaders UniversalCommitterBuilder_new 1) true).

(** The stages of the pipeline lead the rounds of their residue. *)
Lemma stage_leads_round offset round : offset < 3 → round ≤ u32_max →
  let o := mk_options 3 0 offset in
  leader_round o (wave_number o round) = round ↔ round mod 3 = offset.
Proof.
  intros Ho Hr. unfold leader_round, wave_number, saturating_sub, u32_mul, u32_add, u32_max in *. simpl.
  pose proof (N.div_mod round 3 ltac:(lia)) as Hdm. pose proof (N.mod_lt round 3 ltac:(lia)).
  set (q := round / 3) in *. set (m := round mod 3) in *.
  assert (Hw : (round - offset) / 3 * 3 ≤ round - offset)
    by (rewrite N.mul_comm; apply N.Div0.mul_div_le).
  rewrite (N.mod_small (_ * 3)) by lia. rewrite N.mod_small by lia.
  destruct (decide (m = offset)) as [He|He].
  - replace (round - offset) with (q * 3) by lia. rewrite N.div_mul by lia. split; [done|lia].
  - split; [|done]. intros Heq. destruct He.
    assert (round = offset + (round - offset) / 3 * 3) as Hround by lia.
    unfold m. rewrite Hround, N.Div0.mod_add. by apply N.mod_small.
Qed.

Section pipeline.
Context `{Rng} (ctx : Context) (schedule : LeaderSchedule).

(** The schedule elects a leader for every round. *)
Definition elects : Prop := ∀ round, ∃ leader, elect_leader ctx schedule round 0 = Done leader.

Lemma stage_elects offset round leader : offset < 3 → round ≤ u32_max →
  elect_leader ctx schedule round 0 = Done leader →
  BaseCommitter_elect_leader ctx (mk_options 3 0 offset) schedule round =
  Done (if decide (round mod 3 = offset) then Some (mk_slot round leader) else None).
Proof.
  intros Ho Hr Hl. unfold BaseCommitter_elect_leader.
  pose proof (stage_leads_round offset round Ho Hr) as Hiff. simpl in Hiff.
  case_decide as Hd.
  - rewrite bool_decide_eq_false_2 by (rewrite Hiff; auto). simpl. by rewrite Hl.
  - rewrite bool_decide_eq_true_2; [done|]. by rewrite Hiff.
Qed.

Lemma pipelined_slots round : elects → round ≤ u32_max →
  ∃ leader, slots_at ctx schedule round pipelined_committers = [mk_slot round leader].
Proof.
  intros Hel Hr. destruct (Hel round) as [leader Hl]. exists leader.
  change pipelined_committers with [mk_options 3 0 0; mk_options 3 0 1; mk_options 3 0 2].
  unfold slots_at. simpl. unfold slot_at.
  rewrite !(stage_elects _ round leader) by (done || lia).
  pose proof (N.mod_lt round 3 ltac:(lia)). set (m := round mod 3) in *. clearbody m.
  assert (m = 0 ∨ m = 1 ∨ m = 2) as [->|[->| ->]] by lia; done.
Qed.

Lemma pipelined_ok : elects → pc_mysticeti_num_leaders_per_round (ctx_protocol_config ctx) = Some 1 →
  committers_ok ctx schedule pipelined_committers.
Proof.
  intros Hel Hone.
  change pipelined_committers with [mk_options 3 0 0; mk_options 3 0 1; mk_options 3 0 2].
  split; [repeat constructor; done| |done].
  intros o round Ho. destruct (Hel round) as [leader Hl].
  assert (bo_leader_offset o = 0) as Hoff.
  { rewrite !elem_of_cons, elem_of_nil in Ho. by destruct Ho as [->|[->|[->|[]]]]. }
  unfold BaseCommitter_elect_leader. case_bool_decide; [eauto|]. rewrite Hoff, Hl. simpl. eauto.
Qed.

Lemma pipelined_rounds rounds (statuses : list LeaderStatus) : elects →
  (∀ r, r ∈ rounds → r ≤ u32_max) →
  LeaderStatus_slot <$> statuses = rounds ≫= (λ r, slots_at ctx schedule r pipelined_committers) →
  LeaderStatus_round <$> statuses = rounds.
Proof.
  intros Hel Hmax Hs.
  assert (s_round <$> (LeaderStatus_slot <$> statuses) = rounds) as Heq.
  { rewrite Hs. clear Hs. induction rounds as [|r rounds IH]; [done|]. rewrite bind_cons, fmap_app.
    destruct (pipelined_slots r Hel) as [leader ->]; [apply Hmax; by left|]. csimpl.
    f_equal. apply IH. intros; apply Hmax; by right. }
  rewrite <-Heq, <-list_fmap_compose. apply list_fmap_ext. intros i st _. apply LeaderStatus_round_slot.
Qed.
End pipeline.

Lemma take_while_prefix {A} (f : A → bool) l : take_while f l `prefix_of` l.
Proof.
  induction l as [|x l IH]; simpl; [done|]. destruct (f x); [by apply prefix_cons|apply prefix_nil].
Qed.

Lemma take_while_lookup {A} (f : A → bool) l i x : take_while f l !! i = Some x →
  l !! i = Some x ∧ f x.
Proof.
  revert i. induction l as [|y l IH]; intros i; simpl; [done|].
  destruct (f y) eqn:Hf; [|done]. destruct i as [|i]; simpl; [|apply IH].
  intros [= <-]. by rewrite Hf.
Qed.

Section pipeline_nodes.
Context {S : Type} `{StoreLaws S} `{Rng} `{BlockCodec} (ctx : Context).
Context (G : BlockRef → option VerifiedBlock) (byz : gset AuthorityIndex).
Context (schedule : LeaderSchedule) (fuel : nat).
Context (Hel : elects ctx schedule).
Context (Hone : pc_mysticeti_num_leaders_per_round (ctx_protocol_config ctx) = Some 1).
Abbreviation at_node := (own_context ctx).
Abbreviation decide_at i := (try_decide (at_node i) fuel schedule pipelined_committers).

(** The status at each position of a run. *)
Lemma pipelined_statuses i d v last_decided : committing_node ctx G byz fuel i d v last_decided →
  ∃ statuses result, decide_at i d last_decided = Done result ∧
    decisions_ok (at_node i) G d v statuses ∧
    (LeaderStatus_round <$> statuses) =
      rounds_asc (s_round last_decided + 1) (highest_accepted_round d - 2) ∧
    (LeaderStatus_slot <$> statuses =
      rounds_asc (s_round last_decided + 1) (highest_accepted_round d - 2) ≫=
        (λ r, slots_at ctx schedule r pipelined_committers)) ∧
    decided_status <$> result = take_while LeaderStatus_is_decided statuses.
Proof using Hel Hone.
  intros Hn. destruct (node_statuses ctx G byz schedule pipelined_committers fuel i d v last_decided)
    as (st & l & Hr & Hs & Hd & Hl); [done|by apply pipelined_ok|].
  exists st, l. split_and!; try done.
  eapply pipelined_rounds; [done| |done]. intros r ?%rounds_asc_elem.
  pose proof (ni_highest _ _ _ _ (honest_reachable_inv _ _ _ _ _
    (cn_honest _ _ _ _ _ _ _ _ Hn) (cn_reachable _ _ _ _ _ _ _ _ Hn))).
  lia.
Qed.

(** The position of a decision in a run. *)
Lemma run_position (statuses : list LeaderStatus) result first last k x :
  LeaderStatus_round <$> statuses = rounds_asc first last →
  decided_status <$> result = take_while LeaderStatus_is_decided statuses →
  result !! k = Some x →
  statuses !! k = Some (decided_status x) ∧
  s_round (DecidedLeader_slot x) = first + N.of_nat k.
Proof.
  clear. intros Hrs Hl Hk.
  assert (Hst : (decided_status <$> result) !! k = Some (decided_status x))
    by (by rewrite list_lookup_fmap, Hk).
  rewrite Hl in Hst. apply take_while_lookup in Hst as [Hst _]. split; [done|].
  assert (Hround : (LeaderStatus_round <$> statuses) !! k = Some (LeaderStatus_round (decided_status x)))
    by (by rewrite list_lookup_fmap, Hst).
  rewrite Hrs in Hround. unfold rounds_asc in Hround. rewrite list_lookup_fmap in Hround.
  destruct (seq _ _ !! k) as [j|] eqn:Hj; [|done]. apply lookup_seq in Hj as [-> _].
  simpl in Hround. injection Hround as Hround. destruct x; simpl in *; lia.
Qed.

(** C26: one decision per round. The sequence [try_decide] returns starts at
    the round after the last decided leader and has exactly one decision for
    each following round, without gaps. *)
Theorem try_decide_consecutive i d v last_decided :
  committing_node ctx G byz fuel i d v last_decided →
  ∃ l, decide_at i d last_decided = Done l ∧
    ∀ k x, l !! k = Some x →
      s_round (DecidedLeader_slot x) = s_round last_decided + 1 + N.of_nat k.
Proof using Hel Hone.
  intros Hn. destruct (pipelined_statuses i d v last_decided Hn) as (st & l & Hr & _ & Hrs & _ & Hl).
  exists l. split; [done|]. intros k x Hk. by eapply run_position.
Qed.

(** The slot of a status is the leader slot of its round. *)
Lemma status_slot rounds (statuses : list LeaderStatus) k st : (∀ r, r ∈ rounds → r ≤ u32_max) →
  LeaderStatus_slot <$> statuses = rounds ≫= (λ r, slots_at ctx schedule r pipelined_committers) →
  statuses !! k = Some st →
  slots_at ctx schedule (LeaderStatus_round st) pipelined_committers = [LeaderStatus_slot st].
Proof using Hel.
  intros Hmax Hs Hk.
  assert (LeaderStatus_slot st ∈ LeaderStatus_slot <$> statuses) as Hin
    by (by eapply list_elem_of_fmap_2, list_elem_of_lookup_2).
  rewrite Hs in Hin. apply list_elem_of_bind in Hin as (r & Hin & Hr).
  destruct (pipelined_slots ctx schedule r Hel (Hmax r Hr)) as [leader Hleader].
  rewrite Hleader in Hin. apply list_elem_of_singleton in Hin.
  rewrite LeaderStatus_round_slot, Hin. done.
Qed.

Lemma decisions_drop c (d : DagState S) v k l : decisions_ok c G d v l → decisions_ok c G d v (drop k l).
Proof.
  clear. intros Hd. revert k. induction Hd as [|st l Hst Hgc Hd IH]; intros k.
  - rewrite drop_nil. constructor.
  - destruct k; simpl; [by constructor|apply IH].
Qed.

(** Positions of two runs that concern the same round. *)
Lemma same_round_le i1 i2 d1 v1 d2 v2 s1 s2 l1 l2 x y : s_round s1 ≤ s_round s2 →
  committing_node ctx G byz fuel i1 d1 v1 s1 → committing_node ctx G byz fuel i2 d2 v2 s2 →
  decide_at i1 d1 s1 = Done l1 → decide_at i2 d2 s2 = Done l2 → x ∈ l1 → y ∈ l2 →
  s_round (DecidedLeader_slot x) = s_round (DecidedLeader_slot y) →
  decided_status x = decided_status y.
Proof using Hel Hone.
  intros Hle Hn1 Hn2 Hl1 Hl2 [k1 Hx]%list_elem_of_lookup [k2 Hy]%list_elem_of_lookup Hxy.
  destruct (pipelined_statuses i1 d1 v1 s1 Hn1) as (st1 & l1' & Hr1 & Hd1 & Hrs1 & Hss1 & Ht1).
  destruct (pipelined_statuses i2 d2 v2 s2 Hn2) as (st2 & l2' & Hr2 & Hd2 & Hrs2 & Hss2 & Ht2).
  assert (l1' = l1) as -> by congruence. assert (l2' = l2) as -> by congruence.
  destruct (run_position _ _ _ _ _ _ Hrs1 Ht1 Hx) as [Hk1 Hx1].
  destruct (run_position _ _ _ _ _ _ Hrs2 Ht2 Hy) as [Hk2 Hy2].
  pose proof (honest_reachable_inv _ _ _ _ _ (cn_honest _ _ _ _ _ _ _ _ Hn1) (cn_reachable _ _ _ _ _ _ _ _ Hn1)) as Hi1.
  pose proof (honest_reachable_inv _ _ _ _ _ (cn_honest _ _ _ _ _ _ _ _ Hn2) (cn_reachable _ _ _ _ _ _ _ _ Hn2)) as Hi2.
  assert (Hmax : ∀ s (d : DagState S), highest_accepted_round d < u32_max → ∀ r,
    r ∈ rounds_asc (s_round s + 1) (highest_accepted_round d - 2) → r ≤ u32_max)
    by (intros s d ? r ?%rounds_asc_elem; lia).
  set (m := N.to_nat (s_round s2 - s_round s1)).
  assert (Hal : aligned (drop m st1) st2).
  { intros j a b Ha Hb. rewrite lookup_drop in Ha.
    assert (Hround : LeaderStatus_round a = LeaderStatus_round b).
    { assert (Har : (LeaderStatus_round <$> st1) !! (m + j)%nat = Some (LeaderStatus_round a))
        by (by rewrite list_lookup_fmap, Ha).
      assert (Hbr : (LeaderStatus_round <$> st2) !! j = Some (LeaderStatus_round b))
        by (by rewrite list_lookup_fmap, Hb).
      rewrite Hrs1 in Har. rewrite Hrs2 in Hbr. unfold rounds_asc in Har, Hbr.
      apply list_lookup_fmap_Some in Har as (? & -> & [-> _]%lookup_seq),
        Hbr as (? & -> & [-> _]%lookup_seq). lia. }
    eapply (status_slot _ _ _ _ (Hmax s1 d1 (ni_highest _ _ _ _ Hi1)) Hss1) in Ha.
    eapply (status_slot _ _ _ _ (Hmax s2 d2 (ni_highest _ _ _ _ Hi2)) Hss2) in Hb.
    congruence. }
  eapply (decisions_agree ctx G byz (hn_universe _ _ _ (cn_honest _ _ _ _ _ _ _ _ Hn1)) i1 i2 d1 v1 d2 v2
    (drop m st1) st2); [apply Hi1|apply Hi2|by apply decisions_drop|done|done| |exact Hk2| |].
  - rewrite lookup_drop. by replace (m + k2)%nat with k1 by lia.
  - by destruct x.
  - by destruct y.
Qed.

(** No two honest authorities ever decide a round differently, wherever
    each of them is in its sequence: if both decide the leader of a round
    under the same schedule, they commit the same block or both skip. *)
Theorem try_decide_same_round i1 i2 d1 v1 d2 v2 s1 s2 l1 l2 x y :
  committing_node ctx G byz fuel i1 d1 v1 s1 → committing_node ctx G byz fuel i2 d2 v2 s2 →
  decide_at i1 d1 s1 = Done l1 → decide_at i2 d2 s2 = Done l2 → x ∈ l1 → y ∈ l2 →
  s_round (DecidedLeader_slot x) = s_round (DecidedLeader_slot y) →
  decided_status x = decided_status y.
Proof using Hel Hone.
  intros Hn1 Hn2 Hl1 Hl2 Hx Hy Hxy. destruct (N.le_ge_cases (s_round s1) (s_round s2)).
  - by eapply (same_round_le i1 i2 d1 v1 d2 v2 s1 s2).
  - symmetry. by eapply (same_round_le i2 i1 d2 v2 d1 v1 s2 s1).
Qed.
End pipeline_nodes.

(** ** Two concrete nodes

    Authority 0 knows the rounds 1 to 3, authority 1 the rounds 1 to 5. *)

Definition grid_schedule : LeaderSchedule := LeaderSchedule_new LeaderSwapTable_default.
Definition grid_start : Slot := mk_slot 0 0%nat.

Lemma grid_elects : elects grid_ctx grid_schedule.
Proof. intros round. exists 0%nat. reflexivity. Qed.

Lemma grid_early_committing :
  committing_node grid_ctx grid_universe {[3%nat]} 24 0 (grid_dag 0 grid_early) view_empty grid_start.
Proof.
  split; [apply (grid_honest 0); lia|apply grid_early_reachable|by vm_compute..|].
  apply Nat.leb_le. by vm_compute.
Qed.
Lemma grid_late_committing :
  committing_node grid_ctx grid_universe {[3%nat]} 24 1 (grid_dag 1 grid_late) view_empty grid_start.
Proof.
  split; [apply (grid_honest 1); lia|apply grid_late_reachable|by vm_compute..|].
  apply Nat.leb_le. by vm_compute.
Qed.

Lemma try_decide_agreement_witness :
  ∃ l1 l2, try_decide (own_context grid_ctx 0) 24 grid_schedule pipelined_committers
             (grid_dag 0 grid_early) grid_start = Done l1 ∧
    try_decide (own_context grid_ctx 1) 24 grid_schedule pipelined_committers
             (grid_dag 1 grid_late) grid_start = Done l2 ∧
    (decided_status <$> l1 `prefix_of` decided_status <$> l2 ∨
     decided_status <$> l2 `prefix_of` decided_status <$> l1) ∧ (length l1, length l2) = (1, 3)%nat.
Proof.
  destruct (try_decide_agreement grid_ctx grid_universe {[3%nat]} grid_schedule pipelined_committers 24
    0 1 (grid_dag 0 grid_early) view_empty (grid_dag 1 grid_late) view_empty grid_start
    (pipelined_ok grid_ctx grid_schedule grid_elects eq_refl) grid_early_committing grid_late_committing)
    as (l1 & l2 & H1 & H2 & H3).
  exists l1, l2. split_and!; [exact H1|exact H2|exact H3|].
  vm_compute in H1, H2. by simplify_eq.
Defined.

Lemma try_decide_consecutive_witness :
  ∃ l, try_decide (own_context grid_ctx 1) 24 grid_schedule pipelined_committers
         (grid_dag 1 grid_late) grid_start = Done l ∧
    ∀ k x, l !! k = Some x → s_round (DecidedLeader_slot x) = 0 + 1 + N.of_nat k.
Proof.
  exact (try_decide_consecutive grid_ctx grid_universe {[3%nat]} grid_schedule 24 grid_elects eq_refl
    1 (grid_dag 1 grid_late) view_empty grid_start grid_late_committing).
Defined.

Definition grid_leader1 : VerifiedBlock := store_test_block Byte.x01 Byte.x00.
Definition grid_decided (i : AuthorityIndex) (rounds : list byte) : list DecidedLeader :=
  match try_decide (own_context grid_ctx i) 24 grid_schedule pipelined_committers
          (grid_dag i rounds) grid_start with
  | Done l => l
  | _ => []
  end.

Lemma try_decide_same_round_witness :
  head (grid_decided 0 grid_early) = Some (DCommit grid_leader1 true) ∧
  decided_status (DCommit grid_leader1 true) = decided_status (DCommit grid_leader1 true).
Proof.
  split; [by vm_compute|].
  apply (try_decide_same_round grid_ctx grid_universe {[3%nat]} grid_schedule 24 grid_elects eq_refl
    0 1 (grid_dag 0 grid_early) view_empty (grid_dag 1 grid_late) view_empty grid_start grid_start
    (grid_decided 0 grid_early) (grid_decided 1 grid_late)
    (DCommit grid_leader1 true) (DCommit grid_leader1 true)
    grid_early_committing grid_late_committing); [by vm_compute|by vm_compute| | |reflexivity].
  - vm_compute. left.
  - vm_compute. left.
Defined.

Lemma try_direct_decide_exact_witness :
  ∃ st, try_direct_decide (grid_node 1) (mk_options 3 0 1) (grid_dag 1 grid_late) (mk_slot 1 0%nat) = Done st ∧
    (st = LSkip (mk_slot 1 0%nat) ↔
       blamed (test_committee 4) (dag_lookup (grid_dag 1 grid_late) view_empty) (mk_slot 1 0%nat)).
Proof.
  destruct (try_direct_decide_exact (grid_node 1) grid_universe {[3%nat]} (grid_dag 1 grid_late)
    view_empty (mk_options 3 0 1) (mk_slot 1 0%nat) (grid_round Byte.x03))
    as (st & Hrun & Hskip & _).
  - apply grid_universe_ok.
  - exact (ni_view _ _ _ _ (honest_reachable_inv _ _ _ _ _ (grid_honest 1 ltac:(lia)) grid_late_reachable)).
  - by split.
  - by vm_compute.
  - by vm_compute.
  - by vm_compute.
  - by vm_compute.
  - by vm_compute.
  - exists st. split; [exact Hrun|exact Hskip].
Defined.
