(* ===== verification/QuorumRounds.v ===== *)
(** * Values a quorum agrees on (consensus/core/src/commit_vote_monitor.rs,
      consensus/core/src/round_tracker.rs)

    Every authority reports a number, a commit index it voted for or a round
    it accepted. Sorting the reports and adding up stake until the quorum
    threshold is reached picks a value that less than a validity threshold of
    Byzantine stake cannot move out of the range of the honest reports. *)
From S2P Require Import Prelude Committee StakeAggregator Block ThresholdClock Commit.

(** The loop that both components share: the value at which the stake added
    up so far reaches the threshold. *)
Fixpoint first_reaching (threshold total_stake : Stake) (l : list (N * Stake)) : option N :=
  match l with
  | [] => None
  | (value, stake) :: l =>
      let total_stake := u64_add total_stake stake in
      if bool_decide (threshold ≤ total_stake) then Some value
      else first_reaching threshold total_stake l
  end.

(** [a.cmp(b).reverse()] on pairs. *)
Definition pair_desc (x y : N * N) : bool := by_keys fst snd y x.

#[global] Instance pair_desc_total : TotalPreorder pair_desc.
Proof.
  unfold pair_desc. split.
  - intros x y. destruct (tp_total (le := by_keys fst snd) x y); auto.
  - intros x y z Hxy Hyz. exact (tp_trans z y x Hyz Hxy).
Qed.

(** ** CommitVoteMonitor *)

(** [struct CommitVoteMonitor]. *)
Record CommitVoteMonitor := mk_monitor { cvm_highest_voted_commits : list CommitIndex }.

Section monitor.
Context (ctx : Context).

(** [CommitVoteMonitor::new]. *)
Definition CommitVoteMonitor_new : CommitVoteMonitor :=
  mk_monitor (replicate (Committee_size (ctx_committee ctx)) 0).

(** [CommitVoteMonitor::observe_block] and the body of its loop. *)
Definition observe_vote (author : AuthorityIndex) (votes : list CommitIndex) (vote : CommitRef)
    : run (list CommitIndex) :=
  highest ← vec_get votes author;
  if bool_decide (highest < cr_index vote) then vec_set votes author (cr_index vote) else Done votes.
Definition observe_block (m : CommitVoteMonitor) (block : VerifiedBlock) : run CommitVoteMonitor :=
  votes ← for_each (observe_vote (vb_author block)) (cvm_highest_voted_commits m)
            (block_commit_votes (vb_block block));
  Done (mk_monitor votes).

(** [CommitVoteMonitor::quorum_commit_index]. *)
Definition quorum_commit_index (m : CommitVoteMonitor) : CommitIndex :=
  let highest_voted_commits :=
    (λ '(commit_index, (_, a)), (commit_index, a_stake a)) <$>
      zip (cvm_highest_voted_commits m) (Committee_authorities (ctx_committee ctx)) in
  let highest_voted_commits := sort_by pair_desc highest_voted_commits in
  default GENESIS_COMMIT_INDEX
    (first_reaching (c_quorum_threshold (ctx_committee ctx)) 0 highest_voted_commits).
End monitor.

(** ** PeerRoundTracker *)

Abbreviation QuorumRound := (Round * Round)%type (only parsing).

(** [compute_quorum_round]. *)
Definition compute_quorum_round (committee : Committee) (target_index : AuthorityIndex)
    (highest_rounds : list (list Round)) : run QuorumRound :=
  rounds_with_stake ← map_run (λ '(rounds, (_, authority)),
      round ← vec_get rounds target_index; Done (round, a_stake authority))
    (zip highest_rounds (Committee_authorities committee));
  let rounds_with_stake := sort_by (by_keys fst snd) rounds_with_stake in
  let low := default 0 (first_reaching (c_quorum_threshold committee) 0 (reverse rounds_with_stake)) in
  let high := default 0 (first_reaching (c_quorum_threshold committee) 0 rounds_with_stake) in
  Done (low, high).

(** [struct PeerRoundTracker]. *)
Record PeerRoundTracker := mk_tracker {
  prt_block_accepted_rounds : list (list Round);
  prt_probed_accepted_rounds : list (list Round);
  prt_probed_received_rounds : list (list Round);
}.

Section tracker.
Context (ctx : Context).

(** [PeerRoundTracker::new]. *)
Definition PeerRoundTracker_new : PeerRoundTracker :=
  let size := Committee_size (ctx_committee ctx) in
  mk_tracker (replicate size (replicate size 0)) (replicate size (replicate size 0))
    (replicate size (replicate size 0)).

(** [self.block_accepted_rounds[author][peer] = ....max(round)]. *)
Definition raise_round (m : list (list Round)) (author peer : AuthorityIndex) (round : Round)
    : run (list (list Round)) :=
  row ← vec_get m author;
  current ← vec_get row peer;
  row ← vec_set row peer (N.max current round);
  vec_set m author row.

(** [PeerRoundTracker::update_from_accepted_block]. *)
Definition update_from_accepted_block (t : PeerRoundTracker) (extended_block : ExtendedBlock)
    : run PeerRoundTracker :=
  let block := eb_block extended_block in
  let author := vb_author block in
  rounds ← raise_round (prt_block_accepted_rounds t) author author (vb_round block);
  rounds ← for_each (λ rounds ancestor, raise_round rounds author (br_author ancestor) (br_round ancestor))
             rounds (vb_ancestors block);
  rounds ← for_each (λ rounds ancestor, raise_round rounds author (br_author ancestor) (br_round ancestor))
             rounds (eb_excluded_ancestors extended_block);
  Done (mk_tracker rounds (prt_probed_accepted_rounds t) (prt_probed_received_rounds t)).

(** [PeerRoundTracker::update_from_probe]. *)
Definition update_from_probe (t : PeerRoundTracker) (accepted_rounds received_rounds : list (list Round))
    : PeerRoundTracker :=
  mk_tracker (prt_block_accepted_rounds t) accepted_rounds received_rounds.

(** [PeerRoundTracker::compute_accepted_quorum_rounds]. *)
Definition compute_accepted_quorum_rounds (t : PeerRoundTracker) : run (list QuorumRound) :=
  let highest_accepted_rounds :=
    zip_with (λ probed_rounds block_rounds, zip_with N.max probed_rounds block_rounds)
      (prt_probed_accepted_rounds t) (prt_block_accepted_rounds t) in
  map_run (λ '(peer, _), compute_quorum_round (ctx_committee ctx) peer highest_accepted_rounds)
    (Committee_authorities (ctx_committee ctx)).

(** [PeerRoundTracker::compute_received_quorum_rounds]. *)
Definition compute_received_quorum_rounds (t : PeerRoundTracker) : run (list QuorumRound) :=
  map_run (λ '(peer, _), compute_quorum_round (ctx_committee ctx) peer (prt_probed_received_rounds t))
    (Committee_authorities (ctx_committee ctx)).

(** [PeerRoundTracker::calculate_propagation_delay]. *)
Definition calculate_propagation_delay (t : PeerRoundTracker) (last_proposed_round : Round) : run Round :=
  received_quorum_rounds ← compute_received_quorum_rounds t;
  accepted_quorum_rounds ← compute_accepted_quorum_rounds t;
  received ← vec_get received_quorum_rounds (ctx_own_index ctx);
  accepted ← vec_get accepted_quorum_rounds (ctx_own_index ctx);
  Done (N.min (saturating_sub last_proposed_round received.1)
              (saturating_sub last_proposed_round accepted.1)).
End tracker.

(** ** The value at which the threshold is reached *)

Abbreviation stakes l := (sumN (snd <$> l)) (only parsing).

Lemma first_reaching_split thr total l : total < thr → total + stakes l ≤ u64_max →
  match first_reaching thr total l with
  | Some x => ∃ l1 s l2, l = l1 ++ (x, s) :: l2 ∧ total + stakes l1 < thr ≤ total + stakes l1 + s
  | None => total + stakes l < thr
  end.
Proof.
  revert total. induction l as [|[x s] l IH]; intros total Ht Hb; csimpl in *; [lia|].
  rewrite u64_add_small by lia. case_bool_decide as Hr.
  - exists [], s, l. csimpl. split; [done|lia].
  - specialize (IH (total + s) ltac:(lia) ltac:(lia)).
    destruct (first_reaching thr (total + s) l) as [y|]; [|lia].
    destruct IH as (l1 & s1 & l2 & -> & ?). exists ((x, s) :: l1), s1, l2. split; [done|]. csimpl. lia.
Qed.

(** On a list sorted by value the result is the first value, in the order of
    the list, up to which the stake reaches the threshold. *)
Lemma first_reaching_sorted (le : N → N → bool) `{!TotalPreorder le} thr l :
  0 < thr → stakes l ≤ u64_max → StronglySorted (λ x y, le x.1 y.1) l → thr ≤ stakes l →
  ∃ x, first_reaching thr 0 l = Some x ∧ x ∈ l.*1 ∧
    thr ≤ stakes (filter (λ y, le y.1 x) l) ∧
    ∀ x', thr ≤ stakes (filter (λ y, le y.1 x') l) → le x x'.
Proof.
  intros Hthr Hb Hs Hreach. pose proof (first_reaching_split thr 0 l Hthr ltac:(lia)) as Hspl.
  destruct (first_reaching thr 0 l) as [x|]; [|lia].
  destruct Hspl as (l1 & s & l2 & -> & Hlt & Hge). exists x. split; [done|].
  assert (Hrefl : le x x) by (destruct (tp_total x x); done).
  assert (H1 : ∀ y, y ∈ l1 → le y.1 x).
  { intros y Hy. apply (StronglySorted_app_1_elem_of _ l1 ((x, s) :: l2) y (x, s) Hs Hy). by left. }
  apply StronglySorted_app_1_r in Hs. apply StronglySorted_inv in Hs as [_ H2]. rewrite Forall_forall in H2.
  split; [|split].
  - rewrite fmap_app, elem_of_app. right. by left.
  - rewrite filter_app, filter_cons_True by done. rewrite fmap_app, sumN_app. csimpl.
    rewrite (filter_all _ l1) by done. lia.
  - intros x' Hx'. destruct (le x x') eqn:Hle; [done|]. exfalso.
    rewrite filter_app, fmap_app, sumN_app in Hx'.
    rewrite (filter_none (λ y, le y.1 x') ((x, s) :: l2)) in Hx'.
    + pose proof (sumN_filter_le snd (λ y, le y.1 x') l1). csimpl in Hx'. lia.
    + intros y [->|Hy]%elem_of_cons Hy'; [simpl in Hy'; by rewrite Hle in Hy'|].
      specialize (H2 y Hy). pose proof (tp_trans x y.1 x' H2 Hy') as Hbad. by rewrite Hle in Hbad.
Qed.

(** ** Reports of authorities *)

Section reports.
Context (c : Committee) (Hok : committee_ok c).
Implicit Types (report : AuthorityIndex → N) (p : AuthorityIndex → bool).

(** The authorities that satisfy a test. *)
Definition authorities_where p : gset AuthorityIndex :=
  list_to_set (filter p (seq 0 (Committee_size c))).

Lemma elem_of_authorities_where p i : i ∈ authorities_where p ↔ p i ∧ (i < Committee_size c)%nat.
Proof.
  clear Hok. unfold authorities_where. rewrite elem_of_list_to_set, list_elem_of_filter, elem_of_seq. naive_solver lia.
Qed.

(** A list of reports with their stakes. *)
Definition reports_with_stake report : list (N * Stake) :=
  (λ i, (report i, stake_at c i)) <$> seq 0 (Committee_size c).

Lemma stakes_where report (P : N → bool) l : l ≡ₚ reports_with_stake report →
  stakes (filter (λ x, P x.1) l) = set_stake c (authorities_where (λ i, P (report i))).
Proof.
  clear Hok. intros ->. unfold authorities_where, reports_with_stake.
  rewrite set_stake_list by apply NoDup_filter, NoDup_seq.
  rewrite filter_fmap, <-list_fmap_compose. done.
Qed.

Lemma stakes_total report l : l ≡ₚ reports_with_stake report → stakes l = c_total_stake c.
Proof using Hok.
  intros ->. unfold reports_with_stake. rewrite <-list_fmap_compose, (ok_total c Hok), <-stakes_by_index. done.
Qed.

Lemma reports_from_list {A} (values : list A) (d : A) (f : A → N) : length values = Committee_size c →
  (λ '(x, (_, a)), (f x, a_stake a)) <$> zip values (Committee_authorities c) =
  reports_with_stake (λ i, f (default d (values !! i))).
Proof.
  clear Hok. intros Hlen. unfold reports_with_stake, Committee_authorities, Committee_size in *.
  apply list_eq. intros i. rewrite !list_lookup_fmap.
  destruct (decide (i < length (c_authorities c))%nat) as [Hi|Hi].
  - rewrite lookup_seq_lt by done. destruct (lookup_lt_is_Some_2 values i) as [x Hx]; [lia|].
    destruct (lookup_lt_is_Some_2 (c_authorities c) i Hi) as [a Ha].
    rewrite lookup_zip_with, Hx, list_lookup_imap, Ha. simpl. rewrite Hx. unfold stake_at. by rewrite Ha.
  - rewrite lookup_zip_with, (lookup_ge_None_2 values) by lia. by rewrite lookup_seq_ge by lia.
Qed.

(** The greatest value that a quorum reports or exceeds. *)
Definition quorum_at_least report (x : N) : Prop :=
  c_quorum_threshold c ≤ set_stake c (authorities_where (λ i, bool_decide (x ≤ report i))).
(** The least value that a quorum does not exceed. *)
Definition quorum_at_most report (x : N) : Prop :=
  c_quorum_threshold c ≤ set_stake c (authorities_where (λ i, bool_decide (report i ≤ x))).

Lemma quorum_at_least_mono report x y : y ≤ x → quorum_at_least report x → quorum_at_least report y.
Proof.
  clear Hok. unfold quorum_at_least. intros Hle Hx. etrans; [exact Hx|]. apply set_stake_mono.
  intros i. rewrite !elem_of_authorities_where, !bool_decide_spec. naive_solver lia.
Qed.

Lemma first_reaching_greatest report l : l ≡ₚ reports_with_stake report →
  StronglySorted (λ x y, bool_decide (y.1 ≤ x.1)) l →
  ∃ x, first_reaching (c_quorum_threshold c) 0 l = Some x ∧ quorum_at_least report x ∧
    ∀ x', quorum_at_least report x' → x' ≤ x.
Proof using Hok.
  intros Hp Hs. pose proof (stakes_total _ _ Hp) as Htot. pose proof (ok_total_bound c Hok).
  assert (TotalPreorder (λ x y : N, bool_decide (y ≤ x))) as Htp.
  { split; intros; rewrite !bool_decide_spec in *; lia. }
  destruct (first_reaching_sorted (λ x y, bool_decide (y ≤ x)) (c_quorum_threshold c) l)
    as (x & Hx & _ & Hge & Hmax); [by apply quorum_pos|lia|done|rewrite Htot; by apply quorum_le_total|].
  exists x. split; [done|]. unfold quorum_at_least.
  pose proof (λ x, stakes_where report (λ y, bool_decide (x ≤ y)) l Hp) as Hw. cbv beta in Hw.
  rewrite <-Hw. split; [exact Hge|]. intros x' Hx'. rewrite <-Hw in Hx'.
  specialize (Hmax x' Hx'). by rewrite bool_decide_spec in Hmax.
Qed.

Lemma first_reaching_least report l : l ≡ₚ reports_with_stake report →
  StronglySorted (λ x y, bool_decide (x.1 ≤ y.1)) l →
  ∃ x, first_reaching (c_quorum_threshold c) 0 l = Some x ∧ quorum_at_most report x ∧
    ∀ x', quorum_at_most report x' → x ≤ x'.
Proof using Hok.
  intros Hp Hs. pose proof (stakes_total _ _ Hp) as Htot. pose proof (ok_total_bound c Hok).
  destruct (first_reaching_sorted (by_key id) (c_quorum_threshold c) l)
    as (x & Hx & _ & Hge & Hmin); [by apply quorum_pos|lia|done|rewrite Htot; by apply quorum_le_total|].
  exists x. split; [done|]. unfold quorum_at_most.
  pose proof (λ x, stakes_where report (λ y, bool_decide (y ≤ x)) l Hp) as Hw. cbv beta in Hw.
  rewrite <-Hw. split; [exact Hge|]. intros x' Hx'. rewrite <-Hw in Hx'.
  specialize (Hmin x' Hx'). unfold by_key in Hmin. by rewrite bool_decide_spec in Hmin.
Qed.

(** Byzantine authorities of less than the validity threshold. *)
Context (byz : gset AuthorityIndex) (Hbyz : set_stake c byz < c_validity_threshold c).

Lemma quorum_has_honest X : c_quorum_threshold c ≤ set_stake c X → ∃ i, i ∈ X ∧ i ∉ byz.
Proof using Hok Hbyz.
  intros HX. apply (honest_member c). pose proof (validity_pos c Hok). pose proof (two_validities c Hok). lia.
Qed.

Lemma honest_quorum : c_quorum_threshold c ≤ set_stake c (authorities_where (λ i, bool_decide (i ∉ byz))).
Proof using Hok Hbyz.
  assert (Htot : c_total_stake c = set_stake c (authorities_where (λ _, true))).
  { rewrite <-(stakes_total (λ _, 0) (reports_with_stake (λ _, 0))) by done.
    rewrite <-(stakes_where (λ _, 0) (λ _, true) (reports_with_stake (λ _, 0))) by done.
    by rewrite filter_all by done. }
  pose proof (set_stake_split c (authorities_where (λ _, true)) byz) as Hsplit.
  pose proof (set_stake_mono c (authorities_where (λ _, true) ∩ byz) byz ltac:(set_solver)).
  assert (authorities_where (λ _, true) ∖ byz ⊆ authorities_where (λ i, bool_decide (i ∉ byz)))
    as Hsub%(set_stake_mono c).
  { intros i. rewrite elem_of_difference, !elem_of_authorities_where, bool_decide_spec. naive_solver. }
  pose proof (quorum_validity_total c Hok). lia.
Qed.

(** The value a quorum reaches is between the extreme honest reports. *)
Lemma greatest_between report x lo : quorum_at_least report x → (∀ x', quorum_at_least report x' → x' ≤ x) →
  (∀ i, i ∉ byz → (i < Committee_size c)%nat → lo ≤ report i) →
  lo ≤ x ∧ ∃ i, (i ∉ byz) ∧ (i < Committee_size c)%nat ∧ x ≤ report i.
Proof using Hok Hbyz.
  intros Hx Hmax Hlo. split.
  - apply Hmax. unfold quorum_at_least. etrans; [apply honest_quorum|]. apply set_stake_mono.
    intros i. rewrite !elem_of_authorities_where, !bool_decide_spec. naive_solver.
  - destruct (quorum_has_honest _ Hx) as (i & [Hi Hsz]%elem_of_authorities_where & Hb).
    rewrite bool_decide_spec in Hi. by exists i.
Qed.

Lemma least_between report x hi : quorum_at_most report x → (∀ x', quorum_at_most report x' → x ≤ x') →
  (∀ i, i ∉ byz → (i < Committee_size c)%nat → report i ≤ hi) →
  x ≤ hi ∧ ∃ i, (i ∉ byz) ∧ (i < Committee_size c)%nat ∧ report i ≤ x.
Proof using Hok Hbyz.
  intros Hx Hmin Hhi. split.
  - apply Hmin. unfold quorum_at_most. etrans; [apply honest_quorum|]. apply set_stake_mono.
    intros i. rewrite !elem_of_authorities_where, !bool_decide_spec. naive_solver.
  - destruct (quorum_has_honest _ Hx) as (i & [Hi Hsz]%elem_of_authorities_where & Hb).
    rewrite bool_decide_spec in Hi. by exists i.
Qed.

Lemma quorum_values_ordered report low high : quorum_at_least report low → quorum_at_most report high → low ≤ high.
Proof using Hok.
  clear byz Hbyz. intros Hl Hh. pose proof (quorum_intersection_stake c Hok _ _ Hl Hh). pose proof (validity_pos c Hok).
  destruct (honest_member c _ ∅ ltac:(rewrite set_stake_empty; by eapply N.lt_le_trans)) as (i & Hi & _).
  apply elem_of_intersection in Hi as [[H1 _]%elem_of_authorities_where [H2 _]%elem_of_authorities_where].
  rewrite bool_decide_spec in H1, H2. lia.
Qed.
End reports.

(** ** The commit index a quorum has voted for *)

(** The highest commit index among the votes of an authority. *)
Definition highest_vote (blocks : list VerifiedBlock) (a : AuthorityIndex) : CommitIndex :=
  foldr N.max 0 (blocks ≫= λ b, if bool_decide (vb_author b = a)
                               then cr_index <$> block_commit_votes (vb_block b) else []).

Definition observe_all (m : CommitVoteMonitor) (blocks : list VerifiedBlock) : run CommitVoteMonitor :=
  for_each observe_block m blocks.

Lemma foldr_max_app l1 l2 : foldr N.max 0 (l1 ++ l2) = N.max (foldr N.max 0 l1) (foldr N.max 0 l2).
Proof. induction l1 as [|x l1 IH]; simpl; lia. Qed.

Lemma foldr_max_ge x l : x ≤ foldr N.max 0 l ↔ x = 0 ∨ ∃ y, y ∈ l ∧ x ≤ y.
Proof.
  induction l as [|z l IH]; simpl.
  - split; [left; lia|]. intros [->|(y & ?%elem_of_nil & _)]; done.
  - setoid_rewrite elem_of_cons. split.
    + intros [Hz|Hl]%N.max_le; [right; eauto|]. apply IH in Hl as [?|(y & ? & ?)]; eauto.
    + intros [->|(y & [->|Hy] & Hx)]; [lia|lia|].
      assert (x ≤ foldr N.max 0 l) by (apply IH; eauto). lia.
Qed.

(** One block raises the entry of its author. *)
Lemma observe_block_spec m b : (vb_author b < length (cvm_highest_voted_commits m))%nat →
  ∃ m', observe_block m b = Done m' ∧
    length (cvm_highest_voted_commits m') = length (cvm_highest_voted_commits m) ∧
    ∀ a, default 0 (cvm_highest_voted_commits m' !! a) =
      N.max (default 0 (cvm_highest_voted_commits m !! a)) (highest_vote [b] a).
Proof.
  destruct m as [votes]. simpl. intros Ha. unfold observe_block, highest_vote. csimpl.
  setoid_rewrite app_nil_r. set (cs := block_commit_votes (vb_block b)).
  assert (∃ votes', for_each (observe_vote (vb_author b)) votes cs = Done votes' ∧ length votes' = length votes ∧
      ∀ a, default 0 (votes' !! a) = N.max (default 0 (votes !! a))
        (foldr N.max 0 (if bool_decide (vb_author b = a) then cr_index <$> cs else []))) as (votes' & -> & Hl & Hv).
  { induction cs as [|v cs IH] in votes, Ha |- *.
    { exists votes. split_and!; [done..|]. intros a. case_bool_decide; simpl; lia. }
    rewrite for_each_cons. destruct (lookup_lt_is_Some_2 votes (vb_author b) Ha) as [h Hh].
    unfold observe_vote at 2. unfold vec_get, vec_set. rewrite Hh. cbn [expect mbind run_bind].
    rewrite decide_True by done. case_bool_decide as Hlt; cbn [mbind run_bind].
    - destruct (IH (<[vb_author b := cr_index v]> votes)) as (votes' & -> & Hl & Hv); [by rewrite length_insert|].
      exists votes'. rewrite length_insert in Hl. split_and!; [done..|]. intros a. rewrite Hv.
      case_bool_decide as Hab; [subst a; rewrite list_lookup_insert_eq, Hh by done; csimpl; lia|].
      by rewrite list_lookup_insert_ne.
    - destruct (IH votes Ha) as (votes' & -> & Hl & Hv). exists votes'. split_and!; [done..|]. intros a. rewrite Hv.
      case_bool_decide as Hab; [|done]. subst a. rewrite Hh. csimpl. lia. }
  cbn [mbind run_bind]. exists (mk_monitor votes'). by split_and!.
Qed.

Lemma observe_all_spec m blocks : Forall (λ b, (vb_author b < length (cvm_highest_voted_commits m))%nat) blocks →
  ∃ m', observe_all m blocks = Done m' ∧
    length (cvm_highest_voted_commits m') = length (cvm_highest_voted_commits m) ∧
    ∀ a, default 0 (cvm_highest_voted_commits m' !! a) =
      N.max (default 0 (cvm_highest_voted_commits m !! a)) (highest_vote blocks a).
Proof.
  revert m. induction blocks as [|b blocks IH]; intros m Hb.
  { exists m. split_and!; [done..|]. intros a. unfold highest_vote. simpl. lia. }
  apply Forall_cons in Hb as [Hb Hbs]. destruct (observe_block_spec m b Hb) as (m1 & Hrun & Hl1 & Hv1).
  unfold observe_all. rewrite for_each_cons, Hrun. cbn [mbind run_bind].
  destruct (IH m1) as (m' & Hrun' & Hl' & Hv'); [by rewrite Hl1|].
  unfold observe_all in Hrun'. rewrite Hrun'. exists m'. split_and!; [done|congruence|].
  intros a. rewrite Hv', Hv1. unfold highest_vote. csimpl. rewrite !foldr_max_app. simpl. lia.
Qed.

(** The quorum commit index is the greatest index S such that authorities
    with a quorum of the stake have voted for a commit index of at least S in
    the blocks observed; some honest authority has voted for at least S. *)
Theorem quorum_commit_index_greatest ctx byz blocks :
  committee_ok (ctx_committee ctx) →
  Forall (λ b, Committee_is_valid_index (ctx_committee ctx) (vb_author b)) blocks →
  set_stake (ctx_committee ctx) byz < c_validity_threshold (ctx_committee ctx) →
  ∃ m, observe_all (CommitVoteMonitor_new ctx) blocks = Done m ∧
    quorum_at_least (ctx_committee ctx) (highest_vote blocks) (quorum_commit_index ctx m) ∧
    (∀ S, quorum_at_least (ctx_committee ctx) (highest_vote blocks) S → S ≤ quorum_commit_index ctx m) ∧
    (0 < quorum_commit_index ctx m →
     ∃ a b vote, (a ∉ byz) ∧ b ∈ blocks ∧ vb_author b = a ∧
       vote ∈ block_commit_votes (vb_block b) ∧ quorum_commit_index ctx m ≤ cr_index vote).
Proof.
  intros Hok Hb Hbyz. set (c := ctx_committee ctx) in *.
  destruct (observe_all_spec (CommitVoteMonitor_new ctx) blocks) as (m & Hrun & Hlen & Hv).
  { simpl. rewrite length_replicate. eapply Forall_impl; [exact Hb|]. intros b Hv.
    unfold Committee_is_valid_index in Hv. by rewrite bool_decide_spec in Hv. }
  simpl in Hlen, Hv. rewrite length_replicate in Hlen.
  assert (Hrep : ∀ a, default 0 (cvm_highest_voted_commits m !! a) = highest_vote blocks a).
  { intros a. rewrite Hv. destruct (replicate _ 0 !! a) as [x|] eqn:Hx; [|simpl; lia].
    apply lookup_replicate in Hx as [-> _]. simpl. lia. }
  exists m. split; [done|]. unfold quorum_commit_index. fold c.
  pose proof (reports_from_list c (cvm_highest_voted_commits m) 0 (λ x, x) Hlen) as Hl. cbv beta in Hl. rewrite Hl.
  assert (Hr : reports_with_stake c (λ i, default 0 (cvm_highest_voted_commits m !! i)) =
               reports_with_stake c (highest_vote blocks)).
  { apply list_fmap_ext. intros i x _. by rewrite Hrep. }
  rewrite Hr. clear Hl Hr.
  destruct (first_reaching_greatest c Hok (highest_vote blocks)
    (sort_by pair_desc (reports_with_stake c (highest_vote blocks)))) as (S & HS & Hq & Hmax).
  - apply sort_by_Permutation.
  - eapply StronglySorted_weaken; [|apply sort_by_sorted, _]. intros x y. unfold pair_desc, by_keys.
    rewrite !bool_decide_spec. lia.
  - rewrite HS. simpl. split_and!; [done..|]. intros Hpos.
    destruct (quorum_has_honest c Hok byz Hbyz _ Hq) as (a & [Ha _]%elem_of_authorities_where & Hna).
    rewrite bool_decide_spec in Ha. unfold highest_vote in Ha. apply foldr_max_ge in Ha as [?|(y & Hy & HSy)]; [lia|].
    apply list_elem_of_bind in Hy as (b & Hy & Hbin). case_bool_decide; [|by apply elem_of_nil in Hy].
    apply list_elem_of_fmap in Hy as (vote & -> & Hvote). by exists a, b, vote.
Qed.

(** ** Quorum rounds *)

Lemma map_run_pure {A B} (f : A → run B) (g : A → B) l :
  (∀ x, x ∈ l → f x = Done (g x)) → map_run f l = Done (g <$> l).
Proof.
  intros Hf. apply map_run_Done, Forall2_fmap_r. apply Forall_Forall2_diag, Forall_forall. exact Hf.
Qed.

Lemma StronglySorted_reverse {A} (R : A → A → Prop) l :
  StronglySorted R l → StronglySorted (λ x y, R y x) (reverse l).
Proof.
  induction 1 as [|x l _ IH Hx]; [constructor|]. rewrite reverse_cons. apply StronglySorted_app.
  rewrite Forall_forall in Hx. split_and!; [|done|by repeat constructor].
  intros y1 y2 Hy1 ->%list_elem_of_singleton. apply (Hx y1). by rewrite elem_of_reverse in Hy1.
Qed.

(** A square matrix of rounds, one row per reporting authority. *)
Definition square (c : Committee) (m : list (list Round)) : Prop :=
  length m = Committee_size c ∧ Forall (λ row, length row = Committee_size c) m.

(** The round that an authority reports for a peer. *)
Definition reported (m : list (list Round)) (peer i : AuthorityIndex) : Round :=
  default 0 (default [] (m !! i) !! peer).

Section quorum_rounds.
Context (c : Committee) (Hok : committee_ok c).

Lemma compute_quorum_round_spec peer m : square c m → (peer < Committee_size c)%nat →
  ∃ low high, compute_quorum_round c peer m = Done (low, high) ∧
    quorum_at_least c (reported m peer) low ∧ (∀ x, quorum_at_least c (reported m peer) x → x ≤ low) ∧
    quorum_at_most c (reported m peer) high ∧ (∀ x, quorum_at_most c (reported m peer) x → high ≤ x).
Proof using Hok.
  intros [Hlen Hrows] Hpeer. rewrite Forall_forall in Hrows. unfold compute_quorum_round.
  rewrite (map_run_pure _ (λ '(rounds, (_, a)), (default 0 (rounds !! peer), a_stake a))).
  2:{ intros [rounds [i a]] Hin. apply elem_of_zip_l, Hrows in Hin. unfold vec_get.
      destruct (lookup_lt_is_Some_2 rounds peer) as [x ->]; [lia|]. done. }
  cbn [mbind run_bind].
  pose proof (reports_from_list c m [] (λ rounds, default 0 (rounds !! peer)) Hlen) as Hl. cbv beta in Hl. rewrite Hl.
  set (l := sort_by (by_keys fst snd) _).
  assert (Hp : l ≡ₚ reports_with_stake c (reported m peer)) by apply sort_by_Permutation.
  assert (Hs : StronglySorted (λ x y, bool_decide (x.1 ≤ y.1)) l).
  { eapply StronglySorted_weaken; [|apply sort_by_sorted, _]. intros x y. unfold by_keys.
    rewrite !bool_decide_spec. lia. }
  destruct (first_reaching_greatest c Hok (reported m peer) (reverse l)) as (low & -> & ? & ?).
  { by rewrite reverse_Permutation. } { by apply StronglySorted_reverse in Hs. }
  destruct (first_reaching_least c Hok (reported m peer) l Hp Hs) as (high & -> & ? & ?).
  by exists low, high.
Qed.
End quorum_rounds.

(** C40: the quorum round of a peer is a range [low, high]: low is the highest
    round that a quorum reports or exceeds, high the lowest round that a quorum
    does not exceed, low is at most high, and both lie between the lowest and
    the highest round reported by honest authorities, whatever less than a
    validity threshold of Byzantine stake reports. *)
Theorem compute_quorum_round_bft c byz peer m :
  committee_ok c → square c m → (peer < Committee_size c)%nat →
  set_stake c byz < c_validity_threshold c →
  ∃ low high, compute_quorum_round c peer m = Done (low, high) ∧ low ≤ high ∧
    (quorum_at_least c (reported m peer) low ∧ ∀ x, quorum_at_least c (reported m peer) x → x ≤ low) ∧
    (quorum_at_most c (reported m peer) high ∧ ∀ x, quorum_at_most c (reported m peer) x → high ≤ x) ∧
    (∀ lo hi, (∀ i, i ∉ byz → (i < Committee_size c)%nat → lo ≤ reported m peer i ≤ hi) →
       lo ≤ low ∧ high ≤ hi).
Proof.
  intros Hok Hm Hpeer Hbyz.
  destruct (compute_quorum_round_spec c Hok peer m Hm Hpeer) as (low & high & Hrun & Hl & Hlmax & Hh & Hhmin).
  exists low, high. split; [done|]. split; [by apply (quorum_values_ordered c Hok (reported m peer))|].
  split_and!; [done..|]. intros lo hi Hb. split.
  - apply (greatest_between c Hok byz Hbyz (reported m peer)); [done..|]. intros i Hi Hs. by apply (Hb i).
  - apply (least_between c Hok byz Hbyz (reported m peer)); [done..|]. intros i Hi Hs. by apply (Hb i).
Qed.

(** ** Propagation delay *)

Section delay.
Context (ctx : Context) (Hok : committee_ok (ctx_committee ctx)).
Abbreviation c := (ctx_committee ctx).

Record tracker_ok (t : PeerRoundTracker) : Prop := {
  to_block : square c (prt_block_accepted_rounds t);
  to_accepted : square c (prt_probed_accepted_rounds t);
  to_received : square c (prt_probed_received_rounds t);
}.

Lemma raise_round_spec m a p r : square c m → (a < Committee_size c)%nat → (p < Committee_size c)%nat →
  ∃ m', raise_round m a p r = Done m' ∧ square c m' ∧
    ∀ q i, reported m' q i = if decide (i = a ∧ q = p) then N.max (reported m q i) r else reported m q i.
Proof.
  clear Hok. intros [Hlen Hrows] Ha Hp. unfold raise_round, vec_get, vec_set, reported.
  destruct (lookup_lt_is_Some_2 m a) as [row Hrow]; [lia|]. rewrite Hrow. cbn [expect mbind run_bind].
  pose proof (Forall_lookup_1 _ _ _ _ Hrows Hrow) as Hrl. simpl in Hrl.
  destruct (lookup_lt_is_Some_2 row p) as [x Hx]; [lia|]. rewrite Hx. cbn [expect mbind run_bind].
  rewrite decide_True by lia. cbn [mbind run_bind]. rewrite decide_True by lia.
  eexists. split; [done|]. split.
  - split; [by rewrite length_insert|]. apply Forall_insert; [done|]. by rewrite length_insert.
  - intros q i. destruct (decide (i = a)) as [->|Hi].
    + rewrite list_lookup_insert_eq by lia. rewrite Hrow. simpl. destruct (decide (q = p)) as [->|Hq].
      * rewrite list_lookup_insert_eq by lia. rewrite Hx, decide_True by done. done.
      * rewrite list_lookup_insert_ne by done. by rewrite decide_False by naive_solver.
    + rewrite list_lookup_insert_ne by done. by rewrite decide_False by naive_solver.
Qed.

Lemma raise_rounds_spec m a l : square c m → (a < Committee_size c)%nat →
  Forall (λ r, (br_author r < Committee_size c)%nat) l →
  ∃ m', for_each (λ m r, raise_round m a (br_author r) (br_round r)) m l = Done m' ∧ square c m'.
Proof.
  clear Hok. intros Hm Ha Hl. rewrite Forall_forall in Hl. apply (for_each_total (square c)); [done|].
  intros m1 r Hr Hm1. destruct (raise_round_spec m1 a (br_author r) (br_round r) Hm1 Ha (Hl r Hr)) as (m2 & ? & ? & _).
  by exists m2.
Qed.

(** An ancestor of an unknown author is out of the range of the matrix. *)
Lemma raise_rounds_out m a l : square c m → (a < Committee_size c)%nat →
  Exists (λ r, ¬ (br_author r < Committee_size c)%nat) l →
  for_each (λ m r, raise_round m a (br_author r) (br_round r)) m l = Panic.
Proof.
  clear Hok. intros Hm Ha Hl. revert m Hm. induction l as [|r l IH]; intros m Hm; [by apply Exists_nil in Hl|]. cbn [for_each].
  destruct (decide (br_author r < Committee_size c)%nat) as [Hr|Hr].
  - destruct (raise_round_spec m a (br_author r) (br_round r) Hm Ha Hr) as (m1 & -> & Hm1 & _). cbn [mbind run_bind].
    apply IH; [|done]. by apply Exists_cons in Hl as [?|?].
  - destruct Hm as [Hlen Hrows]. unfold raise_round, vec_get. destruct (lookup_lt_is_Some_2 m a) as [row Hrow]; [lia|].
    rewrite Hrow. cbn [expect mbind run_bind]. pose proof (Forall_lookup_1 _ _ _ _ Hrows Hrow) as Hrl. simpl in Hrl.
    by rewrite (lookup_ge_None_2 row) by lia.
Qed.

Lemma tracker_new_ok : tracker_ok (PeerRoundTracker_new ctx).
Proof. clear Hok. split; simpl; (split; [by rewrite length_replicate|apply Forall_replicate; by rewrite length_replicate]). Qed.

Lemma update_from_accepted_block_ok t b : tracker_ok t → Committee_is_valid_index c (vb_author (eb_block b)) →
  Forall (λ r, (br_author r < Committee_size c)%nat) (vb_ancestors (eb_block b) ++ eb_excluded_ancestors b) →
  ∃ t', update_from_accepted_block t b = Done t' ∧ tracker_ok t'.
Proof.
  clear Hok. intros [Hb Hacc Hrec] Ha [Hanc Hex]%Forall_app.
  unfold Committee_is_valid_index in Ha. rewrite bool_decide_spec in Ha. unfold update_from_accepted_block.
  destruct (raise_round_spec (prt_block_accepted_rounds t) (vb_author (eb_block b)) (vb_author (eb_block b))
    (vb_round (eb_block b)) Hb Ha Ha) as (m1 & -> & Hm1 & _). cbn [mbind run_bind].
  destruct (raise_rounds_spec m1 (vb_author (eb_block b)) _ Hm1 Ha Hanc) as (m2 & -> & Hm2). cbn [mbind run_bind].
  destruct (raise_rounds_spec m2 (vb_author (eb_block b)) _ Hm2 Ha Hex) as (m3 & -> & Hm3). cbn [mbind run_bind].
  eexists. split; [done|]. by split.
Qed.

Lemma update_from_accepted_block_out t b : tracker_ok t → Committee_is_valid_index c (vb_author (eb_block b)) →
  Forall (λ r, (br_author r < Committee_size c)%nat) (vb_ancestors (eb_block b)) →
  Exists (λ r, ¬ (br_author r < Committee_size c)%nat) (eb_excluded_ancestors b) →
  update_from_accepted_block t b = Panic.
Proof.
  clear Hok. intros [Hb Hacc Hrec] Ha Hanc Hex.
  unfold Committee_is_valid_index in Ha. rewrite bool_decide_spec in Ha. unfold update_from_accepted_block.
  destruct (raise_round_spec (prt_block_accepted_rounds t) (vb_author (eb_block b)) (vb_author (eb_block b))
    (vb_round (eb_block b)) Hb Ha Ha) as (m1 & -> & Hm1 & _). cbn [mbind run_bind].
  destruct (raise_rounds_spec m1 (vb_author (eb_block b)) _ Hm1 Ha Hanc) as (m2 & -> & Hm2). cbn [mbind run_bind].
  by rewrite (raise_rounds_out m2 (vb_author (eb_block b)) _ Hm2 Ha Hex).
Qed.

(** The highest round of a peer that an authority has accepted, as known from
    probes and from its blocks. *)
Definition highest_accepted (t : PeerRoundTracker) : list (list Round) :=
  zip_with (λ probed_rounds block_rounds, zip_with N.max probed_rounds block_rounds)
    (prt_probed_accepted_rounds t) (prt_block_accepted_rounds t).

Lemma highest_accepted_square t : tracker_ok t → square c (highest_accepted t).
Proof.
  clear Hok. intros [[Hb Hbr] [Ha Har] _]. split; [unfold highest_accepted; rewrite length_zip_with; lia|].
  apply Forall_lookup. intros i row Hi. unfold highest_accepted in Hi.
  apply lookup_zip_with_Some in Hi as (r1 & r2 & -> & H1 & H2).
  pose proof (Forall_lookup_1 _ _ _ _ Har H1). pose proof (Forall_lookup_1 _ _ _ _ Hbr H2). simpl in *.
  rewrite length_zip_with. lia.
Qed.

Lemma quorum_rounds_spec m peer : square c m → (peer < Committee_size c)%nat →
  ∃ qs q, map_run (λ '(peer, _), compute_quorum_round c peer m) (Committee_authorities c) = Done qs ∧
    qs !! peer = Some q ∧ quorum_at_least c (reported m peer) q.1 ∧
    ∀ x, quorum_at_least c (reported m peer) x → x ≤ q.1.
Proof using Hok.
  intros Hm Hpeer. set (f := λ i : AuthorityIndex, match compute_quorum_round c i m with Done q => q | _ => (0, 0) end).
  assert (Hf : ∀ i, (i < Committee_size c)%nat → compute_quorum_round c i m = Done (f i)).
  { intros i Hi. destruct (compute_quorum_round_spec c Hok i m Hm Hi) as (low & high & Hr & _).
    unfold f. by rewrite Hr. }
  exists ((λ p : AuthorityIndex * Authority, f p.1) <$> Committee_authorities c), (f peer). split.
  - apply map_run_pure. intros [i a] Hin. apply Hf. unfold Committee_authorities in Hin.
    apply elem_of_lookup_imap in Hin as (j & y & [= -> ->] & Hj). by eapply lookup_lt_Some.
  - destruct (lookup_lt_is_Some_2 (c_authorities c) peer Hpeer) as [a Ha].
    rewrite list_lookup_fmap. unfold Committee_authorities. rewrite list_lookup_imap, Ha. split; [done|].
    destruct (compute_quorum_round_spec c Hok peer m Hm Hpeer) as (low & high & Hr & Hl & Hmax & _).
    rewrite Hf in Hr by done. injection Hr as ->. done.
Qed.
End delay.

(** The propagation delay is the least D such that a quorum of the stake
    has received, or has accepted, an own block of round at least
    [last_proposed_round - D]. *)
Theorem propagation_delay_least ctx t last_proposed_round :
  committee_ok (ctx_committee ctx) → tracker_ok ctx t →
  Committee_is_valid_index (ctx_committee ctx) (ctx_own_index ctx) →
  let reached x := quorum_at_least (ctx_committee ctx) (reported (prt_probed_received_rounds t) (ctx_own_index ctx)) x ∨
                   quorum_at_least (ctx_committee ctx) (reported (highest_accepted t) (ctx_own_index ctx)) x in
  ∃ delay, calculate_propagation_delay ctx t last_proposed_round = Done delay ∧
    reached (last_proposed_round - delay) ∧
    ∀ x, reached x → delay ≤ last_proposed_round - x.
Proof.
  intros Hok Ht Hown reached. unfold Committee_is_valid_index in Hown. rewrite bool_decide_spec in Hown.
  destruct (quorum_rounds_spec ctx Hok (prt_probed_received_rounds t) _ (to_received _ _ Ht) Hown)
    as (qs1 & [l1 h1] & Hr1 & Hq1 & Hl1 & Hm1).
  destruct (quorum_rounds_spec ctx Hok (highest_accepted t) _ (highest_accepted_square _ _ Ht) Hown)
    as (qs2 & [l2 h2] & Hr2 & Hq2 & Hl2 & Hm2).
  unfold calculate_propagation_delay, compute_received_quorum_rounds, compute_accepted_quorum_rounds.
  rewrite Hr1. cbn [mbind run_bind]. unfold highest_accepted at 1 in Hr2. rewrite Hr2. cbn [mbind run_bind].
  unfold vec_get. rewrite Hq1, Hq2. cbn [expect mbind run_bind]. simpl in *.
  eexists. split; [done|]. unfold saturating_sub. split.
  - destruct (N.le_ge_cases (last_proposed_round - l1) (last_proposed_round - l2)) as [Hle|Hle].
    + rewrite N.min_l by done. left. apply (quorum_at_least_mono _ _ l1); [lia|done].
    + rewrite N.min_r by done. right. apply (quorum_at_least_mono _ _ l2); [lia|done].
  - intros x [Hx%Hm1|Hx%Hm2]; lia.
Qed.

(** ** Examples *)


Definition tracker_ctx : Context := test_context 4 2 5.
(** Authorities 0, 1 and 2 vote for commits 5, 7 and 9. *)
Definition voting_block (author : AuthorityIndex) (index : CommitIndex) : VerifiedBlock :=
  mk_verified (mk_signed (V1 (mk_block_v1 0 1 author 0 [] [] [mk_commit_ref index 0] [])) []) 0 [].

Lemma quorum_commit_index_greatest_witness :
  ∃ m, observe_all (CommitVoteMonitor_new tracker_ctx) [voting_block 0 5; voting_block 1 7; voting_block 2 9] = Done m ∧
    quorum_commit_index tracker_ctx m = 5.
Proof.
  destruct (quorum_commit_index_greatest tracker_ctx {[3%nat]}
    [voting_block 0 5; voting_block 1 7; voting_block 2 9]) as (m & Hrun & _).
  - exact test_committee_ok.
  - repeat (constructor; [vm_compute; exact I|]). constructor.
  - vm_compute. reflexivity.
  - exists m. split; [exact Hrun|]. vm_compute in Hrun. injection Hrun as <-. vm_compute. reflexivity.
Defined.

(** Authority 3 reports a round far ahead. *)
Definition probed_rounds : list (list Round) := [[5; 0; 0; 0]; [7; 0; 0; 0]; [9; 0; 0; 0]; [1000; 0; 0; 0]].

Lemma probed_square : square (test_committee 4) probed_rounds.
Proof. split; [done|]. by repeat constructor. Qed.

Lemma compute_quorum_round_bft_witness :
  ∃ low high, compute_quorum_round (test_committee 4) 0 probed_rounds = Done (low, high) ∧ 5 ≤ low ∧ high ≤ 9.
Proof.
  destruct (compute_quorum_round_bft (test_committee 4) {[3%nat]} 0 probed_rounds)
    as (low & high & Hrun & _ & _ & _ & Hb); [exact test_committee_ok|exact probed_square|vm_compute; lia|vm_compute; reflexivity|].
  exists low, high. split; [exact Hrun|]. apply Hb. intros i Hi Hs. unfold Committee_size in Hs. simpl in Hs.
  destruct i as [|[|[|[|i]]]]; [vm_compute; split; discriminate..| |lia]. by destruct Hi.
Defined.

Definition probed_tracker : PeerRoundTracker :=
  update_from_probe (PeerRoundTracker_new tracker_ctx) probed_rounds probed_rounds.

Lemma propagation_delay_least_witness :
  ∃ delay, calculate_propagation_delay tracker_ctx probed_tracker 10 = Done delay ∧ delay ≤ 10 - 5.
Proof.
  destruct (propagation_delay_least tracker_ctx probed_tracker 10) as (delay & Hrun & _ & Hmin).
  - exact test_committee_ok.
  - split; [apply tracker_new_ok|exact probed_square|exact probed_square].
  - vm_compute. exact I.
  - exists delay. split; [exact Hrun|]. apply Hmin. left. vm_compute. discriminate.
Defined.
