(* ===== verification/Ancestor.v ===== *)
(** * Ancestor selection (consensus/core/src/ancestor.rs)

    Authorities whose blocks propagate badly are excluded as ancestors of own
    blocks for a while, as long as their total stake stays below a threshold. *)
From S2P Require Import Prelude Committee StakeAggregator Block ThresholdClock Commit LeaderScoring Store DagState DagStateProofs QuorumRounds.

(** [enum AncestorState]. *)
Inductive AncestorState :=
| Include
| Exclude (score : N).

(** [struct AncestorInfo]. *)
Record AncestorInfo := mk_ancestor_info {
  ai_state : AncestorState;
  ai_lock_until_round : Round;
}.

(** [AncestorInfo::new], [is_locked], [set_lock]. *)
Definition AncestorInfo_new : AncestorInfo := mk_ancestor_info Include 0.
Definition is_locked (info : AncestorInfo) (current_clock_round : Round) : bool :=
  bool_decide (current_clock_round ≤ ai_lock_until_round info).
Definition set_lock (info : AncestorInfo) (lock_until_round : Round) : AncestorInfo :=
  mk_ancestor_info (ai_state info) lock_until_round.

(** [struct StateTransition]. *)
Record StateTransition := mk_transition {
  st_authority_id : AuthorityIndex;
  st_score : N;
  st_stake : N;
  st_high_quorum_round : Round;
}.

(** [struct AncestorStateManager]. *)
Record AncestorStateManager := mk_ancestors {
  am_state_map : list AncestorInfo;
  am_excluded_nodes_stake_threshold : N;
  am_total_excluded_stake : Stake;
  am_propagation_scores : ReputationScores;
}.

Definition STATE_LOCK_CLOCK_ROUNDS : N := 450.
Definition SCORE_EXCLUSION_THRESHOLD_PERCENTAGE : N := 20.

Section ancestors.
Context {S : Type} `{Store S} (ctx : Context).
Implicit Types (m : AncestorStateManager).

(** [AncestorStateManager::new]. *)
Definition AncestorStateManager_new : AncestorStateManager :=
  let state_map := replicate (Committee_size (ctx_committee ctx)) AncestorInfo_new in
  let excluded_nodes_stake_threshold_percentage :=
    u64_mul 2 (pc_consensus_bad_nodes_stake_threshold (ctx_protocol_config ctx)) / 3 in
  let excluded_nodes_stake_threshold :=
    u64_mul excluded_nodes_stake_threshold_percentage (c_total_stake (ctx_committee ctx)) / 100 in
  mk_ancestors state_map excluded_nodes_stake_threshold 0 ReputationScores_default.

(** [set_propagation_scores], [get_ancestor_states]. *)
Definition set_propagation_scores m (scores : ReputationScores) : AncestorStateManager :=
  mk_ancestors (am_state_map m) (am_excluded_nodes_stake_threshold m) (am_total_excluded_stake m) scores.
Definition get_ancestor_states m : list AncestorState := ai_state <$> am_state_map m.

(** [calculate_network_high_quorum_round]. *)
Definition calculate_network_high_quorum_round (accepted_quorum_rounds : list QuorumRound) : Round :=
  let high_quorum_rounds_with_stake :=
    (λ '((_, high), (_, authority)), (high, a_stake authority)) <$>
      zip accepted_quorum_rounds (Committee_authorities (ctx_committee ctx)) in
  default 0 (first_reaching (c_quorum_threshold (ctx_committee ctx)) 0
               (sort_by (by_keys fst snd) high_quorum_rounds_with_stake)).

(** [apply_state_change]. *)
Definition apply_state_change (current_clock_round : Round) m (transition : StateTransition)
    (new_state : AncestorState) : run AncestorStateManager :=
  _ ← Committee_authority (ctx_committee ctx) (st_authority_id transition);
  ancestor_info ← vec_get (am_state_map m) (st_authority_id transition);
  total_excluded_stake ←
    match ai_state ancestor_info, new_state with
    | Exclude _, Include => expect (checked_sub (am_total_excluded_stake m) (st_stake transition))
    | Include, Exclude _ => Done (u64_add (am_total_excluded_stake m) (st_stake transition))
    | _, _ => Panic
    end;
  let lock_until_round := u32_add current_clock_round STATE_LOCK_CLOCK_ROUNDS in
  let ancestor_info := set_lock (mk_ancestor_info new_state (ai_lock_until_round ancestor_info)) lock_until_round in
  state_map ← vec_set (am_state_map m) (st_authority_id transition) ancestor_info;
  Done (mk_ancestors state_map (am_excluded_nodes_stake_threshold m) total_excluded_stake
          (am_propagation_scores m)).

(** The body of the loop of [update_all_ancestors_state] over the scores. *)
Definition collect_transition m (accepted_quorum_rounds : list QuorumRound)
    (network_high_quorum_round current_clock_round : Round) (low_score_threshold : N)
    (acc : list StateTransition * list StateTransition) (entry : nat * N)
    : run (list StateTransition * list StateTransition) :=
  let '(exclude_to_include, include_to_exclude) := acc in
  let '(idx, score) := entry in
  authority_id ← expect (Committee_to_authority_index (ctx_committee ctx) idx);
  ancestor_info ← vec_get (am_state_map m) idx;
  '(_, authority_high_quorum_round) ← vec_get accepted_quorum_rounds idx;
  authority ← Committee_authority (ctx_committee ctx) authority_id;
  let transition := mk_transition authority_id score (a_stake authority) authority_high_quorum_round in
  if is_locked ancestor_info current_clock_round then Done acc
  else
    match ai_state ancestor_info with
    | Include =>
        if bool_decide (score ≤ low_score_threshold)
        then Done (exclude_to_include, include_to_exclude ++ [transition]) else Done acc
    | Exclude _ =>
        if bool_decide (low_score_threshold < score) ||
           bool_decide (network_high_quorum_round ≤ authority_high_quorum_round)
        then Done (exclude_to_include ++ [transition], include_to_exclude) else Done acc
    end.

(** The body of the last loop of [update_all_ancestors_state]. *)
Definition exclude_within_threshold (current_clock_round : Round) m (transition : StateTransition)
    : run AncestorStateManager :=
  if bool_decide (u64_add (am_total_excluded_stake m) (st_stake transition) ≤ am_excluded_nodes_stake_threshold m)
  then apply_state_change current_clock_round m transition (Exclude (st_score transition))
  else Done m.

(** [update_all_ancestors_state]. *)
Definition update_all_ancestors_state m (d : DagState S) (accepted_quorum_rounds : list QuorumRound)
    : run AncestorStateManager :=
  let network_high_quorum_round := calculate_network_high_quorum_round accepted_quorum_rounds in
  let current_clock_round := threshold_clock_round d in
  let low_score_threshold :=
    u64_mul (ReputationScores_highest_score (am_propagation_scores m)) SCORE_EXCLUSION_THRESHOLD_PERCENTAGE / 100 in
  '(exclude_to_include, include_to_exclude) ←
    for_each (collect_transition m accepted_quorum_rounds network_high_quorum_round current_clock_round
                low_score_threshold) ([], [])
      (imap pair (rs_scores_per_authority (am_propagation_scores m)));
  m ← for_each (λ m transition, apply_state_change current_clock_round m transition Include) m exclude_to_include;
  for_each (exclude_within_threshold current_clock_round) m (sort_by (by_key st_score) include_to_exclude).
End ancestors.

(** ** Excluded stake *)

Definition is_excluded (info : AncestorInfo) : bool :=
  match ai_state info with Exclude _ => true | Include => false end.

Section proofs.
Context {S : Type} `{Store S} (ctx : Context) (Hok : committee_ok (ctx_committee ctx)).
Implicit Types (m : AncestorStateManager) (t : StateTransition).
Abbreviation c := (ctx_committee ctx).

Definition excluded m : gset AuthorityIndex :=
  authorities_where c (λ i, default false (is_excluded <$> am_state_map m !! i)).

(** The running total is the stake of the excluded authorities. *)
Record counted m : Prop := {
  cn_length : length (am_state_map m) = Committee_size c;
  cn_total : am_total_excluded_stake m = set_stake c (excluded m);
}.

Definition lock_round (clock : Round) : Round := u32_add clock STATE_LOCK_CLOCK_ROUNDS.

Lemma elem_of_excluded m i : counted m →
  i ∈ excluded m ↔ ∃ info, am_state_map m !! i = Some info ∧ is_excluded info.
Proof.
  clear Hok. intros [Hlen _]. unfold excluded. rewrite elem_of_authorities_where. split.
  - intros [Hi _]. destruct (am_state_map m !! i) as [info|]; [|done]. by exists info.
  - intros (info & Hi & He). rewrite Hi. split; [done|]. rewrite <-Hlen. by eapply lookup_lt_Some.
Qed.

Lemma excluded_update m m' i new : counted m → (i < Committee_size c)%nat →
  am_state_map m' = <[i := new]> (am_state_map m) →
  ∀ j, j ∈ excluded m' ↔ j = i ∧ is_excluded new ∨ j ≠ i ∧ j ∈ excluded m.
Proof.
  clear Hok. intros [Hlen _] Hi Hm' j. unfold excluded. rewrite !elem_of_authorities_where, Hm'.
  destruct (decide (j = i)) as [->|Hj].
  - rewrite list_lookup_insert_eq by lia. simpl. naive_solver.
  - rewrite list_lookup_insert_ne by done. naive_solver.
Qed.

(** What a state change does, apart from the running total. *)
Record changed clock m t (new : AncestorState) m' : Prop := {
  ch_counted : counted m';
  ch_map : am_state_map m' = <[st_authority_id t := mk_ancestor_info new (lock_round clock)]> (am_state_map m);
  ch_threshold : am_excluded_nodes_stake_threshold m' = am_excluded_nodes_stake_threshold m;
  ch_scores : am_propagation_scores m' = am_propagation_scores m;
}.

Lemma apply_exclude_spec clock m t score info : counted m →
  am_state_map m !! st_authority_id t = Some info → st_stake t = stake_at c (st_authority_id t) →
  ai_state info = Include →
  ∃ m', apply_state_change ctx clock m t (Exclude score) = Done m' ∧ changed clock m t (Exclude score) m' ∧
    am_total_excluded_stake m' = am_total_excluded_stake m + st_stake t.
Proof using Hok.
  intros Hc Hi Hst Hstate. pose proof Hc as [Hlen Htot]. set (i := st_authority_id t) in *.
  assert (Hlt : (i < Committee_size c)%nat) by (rewrite <-Hlen; by eapply lookup_lt_Some).
  destruct (lookup_lt_is_Some_2 (c_authorities c) i Hlt) as [x Hx].
  assert (Hn : i ∉ excluded m).
  { rewrite (elem_of_excluded m i Hc). intros (info' & Hi' & He). simplify_eq. unfold is_excluded in He.
    by rewrite Hstate in He. }
  set (m' := mk_ancestors (<[i := mk_ancestor_info (Exclude score) (lock_round clock)]> (am_state_map m))
    (am_excluded_nodes_stake_threshold m) (am_total_excluded_stake m + st_stake t) (am_propagation_scores m)).
  assert (Hset : set_stake c (excluded m') = am_total_excluded_stake m + st_stake t).
  { rewrite Htot, Hst, N.add_comm, <-set_stake_insert by done. f_equal. apply set_eq. intros j.
    rewrite (excluded_update m m' i (mk_ancestor_info (Exclude score) (lock_round clock)) Hc Hlt eq_refl).
    rewrite elem_of_union, elem_of_singleton. simpl. destruct (decide (j = i)); naive_solver. }
  exists m'. split_and!; [|split|]; try done.
  - unfold apply_state_change, Committee_authority, vec_get, vec_set. fold i. rewrite Hx, Hi.
    cbn [expect mbind run_bind]. rewrite Hstate. rewrite u64_add_small.
    + cbn [mbind run_bind]. by rewrite decide_True by lia.
    + rewrite <-Hset. pose proof (set_stake_le_total c Hok (excluded m')). pose proof (ok_total_bound c Hok). lia.
  - split; [simpl; by rewrite length_insert|]. by rewrite Hset.
Qed.

Lemma apply_include_spec clock m t info : counted m →
  am_state_map m !! st_authority_id t = Some info → st_stake t = stake_at c (st_authority_id t) →
  is_excluded info →
  ∃ m', apply_state_change ctx clock m t Include = Done m' ∧ changed clock m t Include m' ∧
    am_total_excluded_stake m' ≤ am_total_excluded_stake m.
Proof.
  clear Hok. intros Hc Hi Hst Hex. pose proof Hc as [Hlen Htot]. set (i := st_authority_id t) in *.
  assert (Hlt : (i < Committee_size c)%nat) by (rewrite <-Hlen; by eapply lookup_lt_Some).
  destruct (lookup_lt_is_Some_2 (c_authorities c) i Hlt) as [x Hx].
  assert (Hin : i ∈ excluded m) by (apply (elem_of_excluded m i Hc); eauto).
  set (m' := mk_ancestors (<[i := mk_ancestor_info Include (lock_round clock)]> (am_state_map m))
    (am_excluded_nodes_stake_threshold m) (am_total_excluded_stake m - st_stake t) (am_propagation_scores m)).
  pose proof (excluded_update m m' i (mk_ancestor_info Include (lock_round clock)) Hc Hlt eq_refl) as Hup.
  assert (Hset : am_total_excluded_stake m = st_stake t + set_stake c (excluded m')).
  { rewrite Htot, Hst, <-set_stake_insert by (rewrite Hup; simpl; naive_solver). f_equal. apply set_eq. intros j.
    rewrite elem_of_union, elem_of_singleton, Hup. simpl. destruct (decide (j = i)); naive_solver. }
  exists m'. split_and!; [|split|simpl; lia]; try done.
  - unfold apply_state_change, Committee_authority, vec_get, vec_set. fold i. rewrite Hx, Hi.
    cbn [expect mbind run_bind]. unfold is_excluded in Hex. destruct (ai_state info); [done|].
    unfold checked_sub. rewrite decide_True by lia. cbn [expect mbind run_bind]. by rewrite decide_True by lia.
  - split; [simpl; by rewrite length_insert|]. simpl. lia.
Qed.

(** ** The two loops of transitions *)

Definition ids (l : list StateTransition) : list AuthorityIndex := st_authority_id <$> l.
Definition stakes_right (l : list StateTransition) : Prop :=
  ∀ t, t ∈ l → st_stake t = stake_at c (st_authority_id t).

Lemma include_loop_spec clock l m : counted m → NoDup (ids l) → stakes_right l →
  (∀ t, t ∈ l → ∃ info, am_state_map m !! st_authority_id t = Some info ∧ is_excluded info) →
  ∃ m', for_each (λ m t, apply_state_change ctx clock m t Include) m l = Done m' ∧ counted m' ∧
    am_excluded_nodes_stake_threshold m' = am_excluded_nodes_stake_threshold m ∧
    am_propagation_scores m' = am_propagation_scores m ∧
    am_total_excluded_stake m' ≤ am_total_excluded_stake m ∧
    ∀ i, am_state_map m' !! i = if decide (i ∈ ids l) then Some (mk_ancestor_info Include (lock_round clock))
                                else am_state_map m !! i.
Proof.
  clear Hok. revert m. induction l as [|t l IH]; intros m Hc Hnd Hst Hex; [by exists m|].
  unfold ids in Hnd. rewrite fmap_cons in Hnd. apply NoDup_cons in Hnd as [Hnt Hnd].
  destruct (Hex t) as (info & Hi & He); [by left|].
  destruct (apply_include_spec clock m t info Hc Hi (Hst t ltac:(by left)) He) as (m1 & Hrun & [Hc1 Hm1 Ht1 Hs1] & Htot1).
  assert (Hlt : (st_authority_id t < length (am_state_map m))%nat) by (by eapply lookup_lt_Some).
  rewrite for_each_cons, Hrun. cbn [mbind run_bind].
  destruct (IH m1 Hc1 Hnd) as (m' & -> & Hc' & Ht' & Hs' & Htot' & Hmap).
  { intros t' Ht'. apply Hst. by right. }
  { intros t' Ht'. rewrite Hm1, list_lookup_insert_ne; [apply Hex; by right|].
    intros Heq. apply Hnt. rewrite Heq. by apply list_elem_of_fmap_2. }
  exists m'. split_and!; [done..|congruence|congruence|lia|]. intros i. rewrite Hmap. fold (ids l) in *.
  unfold ids. rewrite fmap_cons. fold (ids l). destruct (decide (i ∈ ids l)) as [Hin|Hin].
  - by rewrite decide_True by (by right).
  - rewrite Hm1. destruct (decide (i = st_authority_id t)) as [->|Hne].
    + rewrite decide_True by (by left). by rewrite list_lookup_insert_eq.
    + rewrite decide_False by (rewrite elem_of_cons; tauto). by rewrite list_lookup_insert_ne.
Qed.

Lemma exclude_loop_spec clock l m : counted m → NoDup (ids l) → stakes_right l →
  (∀ t, t ∈ l → ∃ info, am_state_map m !! st_authority_id t = Some info ∧ ai_state info = Include) →
  am_total_excluded_stake m ≤ am_excluded_nodes_stake_threshold m →
  ∃ m', for_each (exclude_within_threshold ctx clock) m l = Done m' ∧ counted m' ∧
    am_excluded_nodes_stake_threshold m' = am_excluded_nodes_stake_threshold m ∧
    am_propagation_scores m' = am_propagation_scores m ∧
    am_total_excluded_stake m ≤ am_total_excluded_stake m' ≤ am_excluded_nodes_stake_threshold m ∧
    (∀ i, i ∉ ids l → am_state_map m' !! i = am_state_map m !! i) ∧
    ∀ t, t ∈ l → am_state_map m' !! st_authority_id t = Some (mk_ancestor_info (Exclude (st_score t)) (lock_round clock)) ∨
      am_state_map m' !! st_authority_id t = am_state_map m !! st_authority_id t ∧
      am_excluded_nodes_stake_threshold m < am_total_excluded_stake m' + st_stake t.
Proof using Hok.
  revert m. induction l as [|t l IH]; intros m Hc Hnd Hst Hinc Hle.
  { exists m. split_and!; try done. by intros t ?%elem_of_nil. }
  unfold ids in Hnd. rewrite fmap_cons in Hnd. apply NoDup_cons in Hnd as [Hnt Hnd]. fold (ids l) in *.
  destruct (Hinc t) as (info & Hi & He); [by left|]. pose proof (Hst t ltac:(by left)) as Htst.
  assert (Hb : am_total_excluded_stake m + st_stake t ≤ u64_max).
  { destruct (apply_exclude_spec clock m t 0 info Hc Hi Htst He) as (m1 & _ & [[_ Hm1] _ _ _] & <-).
    rewrite Hm1. pose proof (set_stake_le_total c Hok (excluded m1)). pose proof (ok_total_bound c Hok). lia. }
  rewrite for_each_cons. unfold exclude_within_threshold at 2. rewrite u64_add_small by done.
  case_bool_decide as Hfit; cbn [mbind run_bind].
  - destruct (apply_exclude_spec clock m t (st_score t) info Hc Hi Htst He) as (m1 & -> & [Hc1 Hm1 Ht1 Hs1] & Htot1).
    assert (Hlt : (st_authority_id t < length (am_state_map m))%nat) by (by eapply lookup_lt_Some).
    cbn [mbind run_bind]. destruct (IH m1 Hc1 Hnd) as (m' & -> & Hc' & Ht' & Hs' & Htot' & Hmap & Hall).
    { intros t' Ht'. apply Hst. by right. }
    { intros t' Ht'. rewrite Hm1, list_lookup_insert_ne; [apply Hinc; by right|].
      intros Heq. apply Hnt. rewrite Heq. by apply list_elem_of_fmap_2. }
    { lia. }
    exists m'. split_and!; [done|done|congruence|congruence|lia|lia| |].
    + intros i Hin. unfold ids in Hin. rewrite fmap_cons, not_elem_of_cons in Hin. destruct Hin as [Hne Hin].
      rewrite Hmap by done. by rewrite Hm1, list_lookup_insert_ne.
    + intros t' [->|Ht'']%elem_of_cons.
      * left. rewrite Hmap by done. by rewrite Hm1, list_lookup_insert_eq.
      * destruct (Hall t' Ht'') as [?|[Heq ?]]; [by left|right]. rewrite Heq, Hm1, list_lookup_insert_ne; [split; [done|lia]|].
        intros Heq'. apply Hnt. rewrite Heq'. by apply list_elem_of_fmap_2.
  - destruct (IH m Hc Hnd) as (m' & -> & Hc' & Ht' & Hs' & Htot' & Hmap & Hall).
    { intros t' Ht'. apply Hst. by right. } { intros t' Ht'. apply Hinc. by right. } { done. }
    exists m'. split_and!; [done|done|congruence|congruence|lia|lia| |].
    + intros i Hin. unfold ids in Hin. rewrite fmap_cons, not_elem_of_cons in Hin. apply Hmap, Hin.
    + intros t' [->|Ht'']%elem_of_cons; [|by apply Hall]. right. split; [by apply Hmap|lia].
Qed.

(** ** Collecting the transitions *)

Section collect.
Context (m : AncestorStateManager) (accepted : list QuorumRound) (network_high clock : Round) (low_score : N).

Definition high_round (idx : nat) : Round := (default (0, 0) (accepted !! idx)).2.
Definition transition_of (e : nat * N) : StateTransition :=
  mk_transition e.1 e.2 (stake_at c e.1) (high_round e.1).
Definition returns (e : nat * N) : bool :=
  default false ((λ info, negb (is_locked info clock) && is_excluded info &&
    (bool_decide (low_score < e.2) || bool_decide (network_high ≤ high_round e.1))) <$> am_state_map m !! e.1).
Definition leaves (e : nat * N) : bool :=
  default false ((λ info, negb (is_locked info clock) && negb (is_excluded info) &&
    bool_decide (e.2 ≤ low_score)) <$> am_state_map m !! e.1).

Lemma collect_transitions_spec l a b : counted m → (Committee_size c ≤ length accepted)%nat →
  Forall (λ e, (e.1 < Committee_size c)%nat) l →
  for_each (collect_transition ctx m accepted network_high clock low_score) (a, b) l =
  Done (a ++ (transition_of <$> filter returns l), b ++ (transition_of <$> filter leaves l)).
Proof.
  clear Hok. intros [Hlen _] Hacc. revert a b. induction l as [|[idx score] l IH]; intros a b Hl.
  { csimpl. by rewrite !app_nil_r. }
  apply Forall_cons in Hl as [Hidx Hl]. simpl in Hidx. rewrite for_each_cons.
  destruct (lookup_lt_is_Some_2 (am_state_map m) idx) as [info Hinfo]; [lia|].
  destruct (lookup_lt_is_Some_2 accepted idx) as [[lo hi] Hq]; [lia|].
  destruct (lookup_lt_is_Some_2 (c_authorities c) idx Hidx) as [x Hx].
  assert (Htr : transition_of (idx, score) = mk_transition idx score (a_stake x) hi).
  { unfold transition_of, high_round, stake_at. simpl. by rewrite Hq, Hx. }
  unfold collect_transition at 2, Committee_to_authority_index, Committee_authority, vec_get.
  rewrite decide_True by done. cbn [expect mbind run_bind]. rewrite Hinfo, Hq, Hx. cbn [expect mbind run_bind].
  rewrite !filter_cons.
  destruct (decide (returns (idx, score))) as [Hret|Hret], (decide (leaves (idx, score))) as [Hlv|Hlv];
    unfold returns, leaves, high_round, is_excluded in Hret, Hlv; simpl in Hret, Hlv; rewrite Hinfo in Hret, Hlv;
    rewrite ?Hq in Hret; simpl in Hret, Hlv; destruct (is_locked info clock); simpl in Hret, Hlv; try tauto;
    destruct (ai_state info); simpl in Hret, Hlv; try tauto; try (by apply IH);
    repeat (case_match; simpl in *; try tauto); cbn [mbind run_bind]; rewrite IH by done;
    csimpl; rewrite ?Htr, <-?app_assoc; done.
Qed.
End collect.

Lemma elem_of_entries (scores : list N) e : e ∈ imap pair scores ↔ scores !! e.1 = Some e.2.
Proof.
  clear. destruct e as [i x]. rewrite elem_of_lookup_imap. split.
  - by intros (j & y & [= -> ->] & Hj).
  - intros Hi. by exists i, x.
Qed.

Lemma entries_ids accepted (P : nat * N → bool) (scores : list N) :
  NoDup (ids (transition_of accepted <$> filter P (imap pair scores))).
Proof.
  clear. unfold ids. rewrite <-list_fmap_compose.
  replace (st_authority_id ∘ transition_of accepted) with (fst : nat * N → nat) by done.
  eapply sublist_NoDup; [|apply fmap_sublist, sublist_filter].
  replace ((imap pair scores).*1) with (seq 0 (length scores)); [apply NoDup_seq|].
  apply list_eq. intros i. rewrite list_lookup_fmap, list_lookup_imap.
  destruct (scores !! i) eqn:Hi.
  - rewrite lookup_seq_lt by (by eapply lookup_lt_Some). done.
  - apply lookup_ge_None in Hi. by rewrite lookup_seq_ge.
Qed.

Lemma elem_of_ids accepted (P : nat * N → bool) (scores : list N) i :
  i ∈ ids (transition_of accepted <$> filter P (imap pair scores)) ↔
  ∃ score, scores !! i = Some score ∧ P (i, score).
Proof.
  clear. unfold ids. rewrite <-list_fmap_compose, list_elem_of_fmap.
  setoid_rewrite list_elem_of_filter. setoid_rewrite elem_of_entries. split.
  - intros ([j x] & -> & HP & Hj). by exists x.
  - intros (x & Hi & HP). by exists (i, x).
Qed.

(** The outcome for every authority. *)
Lemma update_spec m (d : DagState S) accepted :
  let clock := threshold_clock_round d in
  let network_high := calculate_network_high_quorum_round ctx accepted in
  let low_score := u64_mul (ReputationScores_highest_score (am_propagation_scores m))
                     SCORE_EXCLUSION_THRESHOLD_PERCENTAGE / 100 in
  let scores := rs_scores_per_authority (am_propagation_scores m) in
  counted m → am_total_excluded_stake m ≤ am_excluded_nodes_stake_threshold m →
  (length scores ≤ Committee_size c)%nat → (Committee_size c ≤ length accepted)%nat →
  ∃ m', update_all_ancestors_state ctx m d accepted = Done m' ∧ counted m' ∧
    am_total_excluded_stake m' ≤ am_excluded_nodes_stake_threshold m' ∧
    am_excluded_nodes_stake_threshold m' = am_excluded_nodes_stake_threshold m ∧
    ∀ i, (∀ score, scores !! i = Some score → returns m accepted network_high clock low_score (i, score) →
            am_state_map m' !! i = Some (mk_ancestor_info Include (lock_round clock))) ∧
         (∀ score, scores !! i = Some score → leaves m clock low_score (i, score) →
            am_state_map m' !! i = Some (mk_ancestor_info (Exclude score) (lock_round clock)) ∨
            am_state_map m' !! i = am_state_map m !! i ∧
            am_excluded_nodes_stake_threshold m < am_total_excluded_stake m' + stake_at c i) ∧
         ((∀ score, scores !! i = Some score →
             ¬ returns m accepted network_high clock low_score (i, score) ∧ ¬ leaves m clock low_score (i, score)) →
          am_state_map m' !! i = am_state_map m !! i).
Proof using Hok.
  intros clock network_high low_score scores' Hc Hle Hsc Hacc. subst scores'. set (scores := rs_scores_per_authority (am_propagation_scores m)) in *.
  unfold update_all_ancestors_state. fold clock network_high low_score scores.
  rewrite (collect_transitions_spec m accepted network_high clock low_score) by
    (try done; apply Forall_forall; intros e He%elem_of_entries; apply lookup_lt_Some in He; lia).
  cbn [mbind run_bind app].
  set (ret := returns m accepted network_high clock low_score). set (lv := leaves m clock low_score).
  set (l1 := transition_of accepted <$> filter ret (imap pair scores)).
  set (l2 := transition_of accepted <$> filter lv (imap pair scores)).
  destruct (include_loop_spec clock l1 m Hc) as (m1 & -> & Hc1 & Ht1 & Hs1 & Htot1 & Hmap1).
  { apply entries_ids. } { by intros t (e & -> & _)%list_elem_of_fmap. }
  { intros t (e & -> & [Hr _]%list_elem_of_filter)%list_elem_of_fmap. unfold ret, returns in Hr. simpl.
    destruct (am_state_map m !! e.1) as [info|]; [|done]. exists info. split; [done|].
    simpl in Hr. rewrite !andb_True in Hr. tauto. }
  cbn [mbind run_bind].
  assert (Hdisj : ∀ i, i ∈ ids l2 → i ∉ ids l1).
  { intros i (s2 & Hs2 & H2)%elem_of_ids (s1' & Hs1' & H1)%elem_of_ids. simplify_eq.
    unfold ret, lv, returns, leaves in H1, H2. simpl in H1, H2. destruct (am_state_map m !! i) as [info|]; [|done].
    simpl in H1, H2. by destruct (is_locked info clock), (is_excluded info). }
  assert (Hl2 : ∀ t, t ∈ sort_by (by_key st_score) l2 ↔ t ∈ l2) by (intros; apply elem_of_sort_by).
  assert (Hids2 : ∀ i, i ∈ ids (sort_by (by_key st_score) l2) ↔ i ∈ ids l2)
    by (intros; unfold ids; by rewrite sort_by_Permutation).
  destruct (exclude_loop_spec clock (sort_by (by_key st_score) l2) m1 Hc1)
    as (m' & Hrun & Hc' & Ht' & Hs' & Htot' & Hmap' & Hall').
  { unfold ids. rewrite sort_by_Permutation. apply entries_ids. }
  { by intros t (e & -> & _)%Hl2%list_elem_of_fmap. }
  { intros t Ht%Hl2. assert (Hti : st_authority_id t ∈ ids l2) by (by apply list_elem_of_fmap_2).
    rewrite Hmap1, decide_False by (by apply Hdisj).
    apply elem_of_ids in Hti as (sc & _ & Hv). unfold lv, leaves in Hv. simpl in Hv.
    destruct (am_state_map m !! st_authority_id t) as [info|]; [|done]. exists info. split; [done|].
    unfold is_excluded in Hv. simpl in Hv. by destruct (is_locked info clock), (ai_state info). }
  { lia. }
  exists m'. split; [exact Hrun|]. split; [done|]. split; [lia|]. split; [lia|].
  intros i. split_and!.
  - intros score Hsi Hr. assert (i ∈ ids l1) as H1 by (apply elem_of_ids; eauto).
    rewrite Hmap' by (rewrite Hids2; intros H2%Hdisj; done). by rewrite Hmap1, decide_True.
  - intros score Hsi Hv. assert (i ∈ ids l2) as H2 by (apply elem_of_ids; eauto).
    destruct (Hall' (transition_of accepted (i, score))) as [Hx|[Hx Hb]].
    + apply Hl2, list_elem_of_fmap. exists (i, score). split; [done|].
      apply list_elem_of_filter. split; [done|]. by apply elem_of_entries.
    + by left.
    + right. simpl in Hx, Hb. rewrite Hx, Hmap1, decide_False by (by apply Hdisj). split; [done|lia].
  - intros Hn. rewrite Hmap', Hmap1, decide_False; [done|..].
    + intros (score & Hsi & Hr)%elem_of_ids. by destruct (Hn score Hsi).
    + rewrite Hids2. intros (score & Hsi & Hv)%elem_of_ids. by destruct (Hn score Hsi).
Qed.
End proofs.

(** C39: [update_all_ancestors_state] never panics and keeps the running total
    equal to the stake of the excluded authorities and within the threshold. A
    locked ancestor keeps its state, a changed one is locked; an excluded
    ancestor comes back exactly when its score recovers or its blocks reach the
    network's high quorum round; an included one is excluded only for a low
    score, and stays included in spite of it only for lack of stake budget. *)
Theorem update_all_ancestors_state_correct {S} `{Store S} ctx m (d : DagState S) accepted :
  committee_ok (ctx_committee ctx) → counted ctx m →
  am_total_excluded_stake m ≤ am_excluded_nodes_stake_threshold m →
  (length (rs_scores_per_authority (am_propagation_scores m)) ≤ Committee_size (ctx_committee ctx) ≤
   length accepted)%nat →
  let clock := threshold_clock_round d in
  let network_high := calculate_network_high_quorum_round ctx accepted in
  let low_score := u64_mul (ReputationScores_highest_score (am_propagation_scores m))
                     SCORE_EXCLUSION_THRESHOLD_PERCENTAGE / 100 in
  ∃ m', update_all_ancestors_state ctx m d accepted = Done m' ∧ counted ctx m' ∧
    am_total_excluded_stake m' ≤ am_excluded_nodes_stake_threshold m' ∧
    am_excluded_nodes_stake_threshold m' = am_excluded_nodes_stake_threshold m ∧
    ∀ i info, am_state_map m !! i = Some info → ∃ info', am_state_map m' !! i = Some info' ∧
      (info' = info ∨ is_locked info clock = false ∧ is_excluded info' ≠ is_excluded info ∧
                      ai_lock_until_round info' = lock_round clock) ∧
      ∀ score, rs_scores_per_authority (am_propagation_scores m) !! i = Some score →
        is_locked info clock = false →
        if is_excluded info
        then is_excluded info' = false ↔ low_score < score ∨ network_high ≤ high_round accepted i
        else (is_excluded info' → score ≤ low_score) ∧
             (score ≤ low_score → is_excluded info' = false →
              am_excluded_nodes_stake_threshold m < am_total_excluded_stake m' + stake_at (ctx_committee ctx) i).
Proof.
  intros Hok Hc Hle [Hsc Hacc] clock network_high low_score.
  destruct (update_spec ctx Hok m d accepted Hc Hle Hsc Hacc) as (m' & Hrun & Hc' & Hle' & Ht' & Hall).
  exists m'. split_and!; [done..|]. intros i info Hi. destruct (Hall i) as (Hret & Hlv & Hsame).
  fold clock network_high low_score in Hret, Hlv, Hsame.
  set (scores := rs_scores_per_authority (am_propagation_scores m)) in *.
  destruct (scores !! i) as [score|] eqn:Hs.
  2:{ exists info. rewrite Hsame by done. split_and!; [done|by left|done]. }
  specialize (Hret score eq_refl). specialize (Hlv score eq_refl).
  assert (Hsame' : ¬ returns m accepted network_high clock low_score (i, score) →
    ¬ leaves m clock low_score (i, score) → am_state_map m' !! i = Some info).
  { intros H1 H2. rewrite <-Hi. apply Hsame. intros ? [= <-]. done. }
  clear Hsame. unfold returns, leaves in Hret, Hlv, Hsame'. simpl in Hret, Hlv, Hsame'.
  rewrite Hi in Hret, Hlv, Hsame'. simpl in Hret, Hlv, Hsame'.
  destruct (is_locked info clock) eqn:Hlock; simpl in Hret, Hlv, Hsame'.
  { exists info. split_and!; [by apply Hsame'; intros []|by left|done]. }
  destruct (is_excluded info) eqn:Hex; simpl in Hret, Hlv, Hsame'.
  - destruct (bool_decide (low_score < score) || bool_decide (network_high ≤ high_round accepted i)) eqn:Hback.
    + exists (mk_ancestor_info Include (lock_round clock)). split_and!; [by apply Hret|by right|].
      intros ? [= <-] _. apply Is_true_true in Hback. rewrite orb_True, !bool_decide_spec in Hback. done.
    + exists info. split_and!; [apply Hsame'; by intros []|by left|]. intros ? [= <-] _. rewrite Hex.
      apply orb_false_iff in Hback as [?%bool_decide_eq_false ?%bool_decide_eq_false]. naive_solver.
  - destruct (bool_decide_reflect (score ≤ low_score)) as [Hlow|Hlow].
    + destruct (Hlv I) as [Hx|[Hx Hb]].
      * exists (mk_ancestor_info (Exclude score) (lock_round clock)). split_and!; [done|by right|].
        intros ? [= <-] _. done.
      * exists info. rewrite Hx. split_and!; [done|by left|]. intros ? [= <-] _. by rewrite Hex.
    + exists info. split_and!; [apply Hsame'; by intros []|by left|]. intros ? [= <-] _. by rewrite Hex.
Qed.

(** ** Example: the worst scored authority is excluded *)

Definition ancestor_ctx : Context :=
  mk_context 0 0%nat (test_committee 4) 5
    (mk_protocol_config 2 (Some 1) 50 true 1000 100 10000 false true).
Definition ancestor_scores : ReputationScores := mk_scores [10; 1; 10; 2] (CommitRange_new 1 10).
Definition ancestor_manager : AncestorStateManager :=
  set_propagation_scores (AncestorStateManager_new ancestor_ctx) ancestor_scores.
Definition ancestor_dag : DagState RocksDBStore := fresh_dag ancestor_ctx [] rocks_empty 0.
Definition ancestor_rounds : list QuorumRound := replicate 4 (3, 3).

Lemma ancestor_manager_counted : counted ancestor_ctx ancestor_manager.
Proof. split; by vm_compute. Qed.

Lemma update_all_ancestors_state_correct_witness :
  ∃ m', update_all_ancestors_state ancestor_ctx ancestor_manager ancestor_dag ancestor_rounds = Done m' ∧
    am_total_excluded_stake m' ≤ am_excluded_nodes_stake_threshold m' ∧
    get_ancestor_states m' = [Include; Exclude 1; Include; Include].
Proof.
  destruct (update_all_ancestors_state_correct ancestor_ctx ancestor_manager ancestor_dag ancestor_rounds
    test_committee_ok ancestor_manager_counted) as (m' & Hrun & _ & Hle & _).
  - vm_compute. discriminate.
  - vm_compute. lia.
  - exists m'. split; [exact Hrun|]. split; [exact Hle|]. vm_compute in Hrun. injection Hrun as <-.
    vm_compute. reflexivity.
Defined.
