(* ===== verification/TransactionCertifier.v ===== *)
(** * The transaction certifier (consensus/core/src/transaction_certifier.rs)

    Aggregates the implicit accept votes and the explicit reject votes of
    blocks on the transactions of other blocks, and outputs the blocks whose
    transactions are all certified or rejected. *)
From S2P Require Import Prelude Committee StakeAggregator Block ThresholdClock Commit LeaderScoring Store DagState.

(** [struct VoteInfo]. *)
Record VoteInfo := mk_vote_info {
  vi_block : option VerifiedBlock;
  vi_own_reject_txn_votes : list TransactionIndex;
  vi_accept_block_votes : StakeAggregator QuorumThreshold;
  vi_reject_txn_votes : gmap TransactionIndex (StakeAggregator QuorumThreshold);
  vi_is_certified : bool;
}.

(** [impl Default for VoteInfo]. *)
Definition VoteInfo_default : VoteInfo := mk_vote_info None [] StakeAggregator_new ∅ false.

Definition set_vi_block (block : VerifiedBlock) (own : list TransactionIndex) (vi : VoteInfo) : VoteInfo :=
  mk_vote_info (Some block) own (vi_accept_block_votes vi) (vi_reject_txn_votes vi) (vi_is_certified vi).
Definition set_accept (agg : StakeAggregator QuorumThreshold) (vi : VoteInfo) : VoteInfo :=
  mk_vote_info (vi_block vi) (vi_own_reject_txn_votes vi) agg (vi_reject_txn_votes vi) (vi_is_certified vi).
Definition set_rejects (m : gmap TransactionIndex (StakeAggregator QuorumThreshold)) (vi : VoteInfo) : VoteInfo :=
  mk_vote_info (vi_block vi) (vi_own_reject_txn_votes vi) (vi_accept_block_votes vi) m (vi_is_certified vi).
Definition set_certified (vi : VoteInfo) : VoteInfo :=
  mk_vote_info (vi_block vi) (vi_own_reject_txn_votes vi) (vi_accept_block_votes vi)
    (vi_reject_txn_votes vi) true.

(** [struct CertifierState]. *)
Record CertifierState := mk_certifier {
  cs_votes : gmap BlockRef VoteInfo;
  cs_gc_round : Round;
}.

(** [CertifierState::new]. *)
Definition CertifierState_new : CertifierState := mk_certifier ∅ GENESIS_ROUND.

Section certifier.
Context (ctx : Context).
Implicit Types (st : CertifierState).
Abbreviation cm := (ctx_committee ctx).

(** The loop of [take_certified_output] over the reject votes: [None] when a
    transaction is neither certified nor rejected. *)
Fixpoint check_rejects (accept_stake : Stake)
    (l : list (TransactionIndex * StakeAggregator QuorumThreshold)) (rejected : list TransactionIndex)
    : option (list TransactionIndex) :=
  match l with
  | [] => Some rejected
  | (idx, reject_txn_votes) :: l =>
      if StakeAggregator_reached_threshold reject_txn_votes cm then check_rejects accept_stake l (rejected ++ [idx])
      else if bool_decide (saturating_sub accept_stake (sa_stake reject_txn_votes) < c_quorum_threshold cm)
      then None
      else check_rejects accept_stake l rejected
  end.

(** [VoteInfo::take_certified_output]. *)
Definition take_certified_output (vi : VoteInfo) : run (VoteInfo * option CertifiedBlock) :=
  if vi_is_certified vi then Done (vi, None)
  else
    match vi_block vi with
    | None => Done (vi, None)
    | Some block =>
        _ ← Committee_authority cm (vb_author block);
        if negb (StakeAggregator_reached_threshold (vi_accept_block_votes vi) cm) then Done (vi, None)
        else
          match check_rejects (sa_stake (vi_accept_block_votes vi)) (map_list (vi_reject_txn_votes vi)) [] with
          | None => Done (vi, None)
          | Some rejected => Done (set_certified vi, Some (mk_certified_block block rejected))
          end
    end.

(** [vote_info.reject_txn_votes.entry(reject).or_default().add_unique(author)]. *)
Definition add_reject (author : AuthorityIndex) (vi : VoteInfo) (reject : TransactionIndex) : run VoteInfo :=
  '(agg, _) ← StakeAggregator_add_unique
                (default StakeAggregator_new (vi_reject_txn_votes vi !! reject)) author cm;
  Done (set_rejects (<[reject := agg]> (vi_reject_txn_votes vi)) vi).

(** The body of the loop of [add_voted_block] over the votes of a block. *)
Definition add_block_votes (author : AuthorityIndex) (acc : CertifierState * list CertifiedBlock)
    (block_votes : BlockTransactionVotes) : run (CertifierState * list CertifiedBlock) :=
  let '(st, certified_blocks) := acc in
  if bool_decide (br_round (btv_block_ref block_votes) ≤ cs_gc_round st) then Done acc
  else
    let vote_info := default VoteInfo_default (cs_votes st !! btv_block_ref block_votes) in
    vote_info ← for_each (add_reject author) vote_info (btv_rejects block_votes);
    '(vote_info, certified_block) ← take_certified_output vote_info;
    Done (mk_certifier (<[btv_block_ref block_votes := vote_info]> (cs_votes st)) (cs_gc_round st),
          match certified_block with
          | Some b => certified_blocks ++ [b]
          | None => certified_blocks
          end).

(** [CertifierState::add_voted_block]. *)
Definition add_voted_block st (voted_block : VerifiedBlock) (reject_txn_votes : list TransactionIndex)
    : run (CertifierState * list CertifiedBlock) :=
  if bool_decide (vb_round voted_block ≤ cs_gc_round st) then Done (st, [])
  else
    _ ← Committee_authority cm (vb_author voted_block);
    let vote_info := default VoteInfo_default (cs_votes st !! vb_reference voted_block) in
    if bool_decide (is_Some (vi_block vote_info))
    then Done (mk_certifier (<[vb_reference voted_block := vote_info]> (cs_votes st)) (cs_gc_round st), [])
    else
      let st := mk_certifier
                  (<[vb_reference voted_block := set_vi_block voted_block reject_txn_votes vote_info]>
                     (cs_votes st)) (cs_gc_round st) in
      for_each (add_block_votes (vb_author voted_block)) (st, [])
        (block_transaction_votes (vb_block voted_block)).

(** [CertifierState::add_voted_blocks]. *)
Definition CertifierState_add_voted_blocks st (voted_blocks : list (VerifiedBlock * list TransactionIndex))
    : run (CertifierState * list CertifiedBlock) :=
  for_each (λ '(st, certified_blocks) '(voted_block, reject_txn_votes),
      '(st, blocks) ← add_voted_block st voted_block reject_txn_votes;
      Done (st, certified_blocks ++ blocks)) (st, []) voted_blocks.

(** The bodies of the loops of [add_proposed_block] over the ancestors of a
    voting block and of the proposed block. A [debug_fatal!] in a release
    build only logs. *)
Definition add_accept (voting_block : VerifiedBlock) (acc : CertifierState * list CertifiedBlock)
    (target_ancestor : BlockRef) : run (CertifierState * list CertifiedBlock) :=
  let '(st, certified_blocks) := acc in
  if bool_decide (u32_add (br_round target_ancestor) 1 ≠ vb_round voting_block) then Done acc
  else
    match cs_votes st !! target_ancestor with
    | None => Done acc
    | Some target_vote_info =>
        '(agg, _) ← StakeAggregator_add_unique (vi_accept_block_votes target_vote_info)
                      (vb_author voting_block) cm;
        '(vote_info, certified_block) ← take_certified_output (set_accept agg target_vote_info);
        Done (mk_certifier (<[target_ancestor := vote_info]> (cs_votes st)) (cs_gc_round st),
              match certified_block with
              | Some b => certified_blocks ++ [b]
              | None => certified_blocks
              end)
    end.

Definition add_voting_ancestor (proposed_block : VerifiedBlock) (acc : CertifierState * list CertifiedBlock)
    (voting_ancestor : BlockRef) : run (CertifierState * list CertifiedBlock) :=
  let '(st, certified_blocks) := acc in
  if bool_decide (u32_add (br_round voting_ancestor) 1 ≠ vb_round proposed_block) then Done acc
  else
    match cs_votes st !! voting_ancestor with
    | None => Done acc
    | Some voting_info =>
        match vi_block voting_info with
        | None => Done acc
        | Some voting_block => for_each (add_accept voting_block) acc (vb_ancestors voting_block)
        end
    end.

(** [CertifierState::add_proposed_block]. *)
Definition CertifierState_add_proposed_block st (proposed_block : VerifiedBlock)
    : run (CertifierState * list CertifiedBlock) :=
  if bool_decide (vb_round proposed_block ≤ u32_add (cs_gc_round st) 2) then Done (st, [])
  else
    assert! bool_decide (is_Some (cs_votes st !! vb_reference proposed_block));
    for_each (add_voting_ancestor proposed_block) (st, []) (vb_ancestors proposed_block).

(** [CertifierState::update_gc_round]; each turn removes an entry. *)
Fixpoint gc_votes (fuel : nat) (gc_round : Round) (votes : gmap BlockRef VoteInfo) : run (gmap BlockRef VoteInfo) :=
  match map_first votes with
  | None => Done votes
  | Some (block_ref, _) =>
      if bool_decide (br_round block_ref ≤ gc_round) then
        match fuel with
        | O => NoFuel
        | Datatypes.S fuel => gc_votes fuel gc_round (delete block_ref votes)
        end
      else Done votes
  end.
Definition update_gc_round st (gc_round : Round) : run CertifierState :=
  votes ← gc_votes (size (cs_votes st)) gc_round (cs_votes st);
  Done (mk_certifier votes gc_round).

(** ** [TransactionCertifier] *)

(** [send_certified_blocks]: the messages sent on the output channel. *)
Definition send_certified_blocks (certified_blocks : list CertifiedBlock) : list (list CertifiedBlock) :=
  if bool_decide (length certified_blocks = O) then [] else [certified_blocks].

(** [TransactionCertifier::add_voted_blocks], [add_proposed_block]. *)
Definition TransactionCertifier_add_voted_blocks st (voted_blocks : list (VerifiedBlock * list TransactionIndex))
    : run (CertifierState * list (list CertifiedBlock)) :=
  '(st, certified_blocks) ← CertifierState_add_voted_blocks st voted_blocks;
  Done (st, send_certified_blocks certified_blocks).
Definition TransactionCertifier_add_proposed_block st (proposed_block : VerifiedBlock)
    : run (CertifierState * list (list CertifiedBlock)) :=
  '(st, certified_blocks) ← CertifierState_add_proposed_block st proposed_block;
  Done (st, send_certified_blocks certified_blocks).

(** [TransactionCertifier::get_own_votes]. *)
Definition get_own_votes st (block_refs : list BlockRef) : run (list BlockTransactionVotes) :=
  for_each (λ votes block_ref,
      if bool_decide (br_round block_ref ≤ cs_gc_round st) then Done votes
      else
        vote_info ← expect (cs_votes st !! block_ref);
        if bool_decide (vi_own_reject_txn_votes vote_info ≠ [])
        then Done (votes ++ [mk_txn_votes block_ref (vi_own_reject_txn_votes vote_info)])
        else Done votes) [] block_refs.

(** [TransactionCertifier::get_reject_votes]. *)
Definition get_reject_votes st (block_ref : BlockRef) : option (list (TransactionIndex * Stake)) :=
  vote_info ← cs_votes st !! block_ref;
  Some ((λ '(idx, stake_agg), (idx, sa_stake stake_agg)) <$> map_list (vi_reject_txn_votes vote_info)).

Section with_dag.
Context {S : Type} `{Store S}.

(** [TransactionCertifier::run_gc]. *)
Definition run_gc (d : DagState S) st (gc_round : Round) : run CertifierState :=
  assert! bool_decide (gc_round ≤ DagState.gc_round ctx d);
  update_gc_round st gc_round.

(** [TransactionCertifier::recover], with the [BlockVerifier] it is given. *)
Definition TransactionCertifier_recover (verify_and_vote : SignedBlock → fallible (list TransactionIndex))
    (d : DagState S) st (last_processed_commit_index : CommitIndex)
    : run (CertifierState * list (list CertifiedBlock)) :=
  if negb (pc_mysticeti_fastpath (ctx_protocol_config ctx)) then Done (st, [])
  else
    let store := ds_store d in
    commits ← unwrap_result (store_scan_commits store
                (CommitRange_new last_processed_commit_index last_processed_commit_index));
    let certifier_gc_round :=
      match last commits with
      | Some last_processed_commit => calculate_gc_round ctx (br_round (tc_leader last_processed_commit))
      | None => GENESIS_ROUND
      end in
    let dag_state_gc_round := DagState.gc_round ctx d in
    assert! bool_decide (certifier_gc_round ≤ dag_state_gc_round);
    st ← update_gc_round st certifier_gc_round;
    let recovery_start_round := u32_add certifier_gc_round 1 in
    for_each (λ '(st, sent) authority_index,
        blocks ← unwrap_result (store_scan_blocks_by_author store authority_index recovery_start_round);
        _ ← Committee_authority cm authority_index;
        voted_blocks ← map_run (λ b,
            skip ← (if bool_decide (vb_round b ≤ dag_state_gc_round) then Done true
                    else is_hard_linked d (vb_reference b));
            if (skip : bool) then Done (b, [])
            else votes ← unwrap_result (verify_and_vote (vb_signed b)); Done (b, votes)) blocks;
        '(st, certified_blocks) ← CertifierState_add_voted_blocks st voted_blocks;
        Done (st, sent ++ send_certified_blocks certified_blocks))
      (st, []) (seq 0 (Committee_size cm)).
End with_dag.
End certifier.
