(* ===== verification/CertifierProofs.v ===== *)
(** * Correctness of the transaction certifier

    Every certified block the certifier outputs carries, for each transaction,
    a quorum of accepting or of rejecting blocks, so two honest nodes never
    disagree on a certified transaction. *)
From S2P Require Import Prelude Committee StakeAggregator Block ThresholdClock Commit LeaderScoring Store DagState DagStateProofs DagTraversal LeaderSchedule BaseCommitter CommitRule DagViews TransactionCertifier.

#[global] Instance BlockTransactionVotes_eq_dec : EqDecision BlockTransactionVotes.
Proof. solve_decision. Defined.

(** A block rejects a transaction of [B]. *)
Definition rejects (b : VerifiedBlock) (B : BlockRef) (idx : TransactionIndex) : Prop :=
  ∃ v, v ∈ block_transaction_votes (vb_block b) ∧ btv_block_ref v = B ∧ idx ∈ btv_rejects v.

(** A block of the next round that includes [B]. *)
Definition supports (b : VerifiedBlock) (B : BlockRef) : Prop :=
  B ∈ vb_ancestors b ∧ vb_round b = br_round B + 1.

Section certifier.
Context (ctx : Context) (G : BlockRef → option VerifiedBlock) (byz : gset AuthorityIndex).
Context (HU : universe_ok (ctx_committee ctx) G byz).
Implicit Types (st : CertifierState) (vi : VoteInfo) (o : CertifiedBlock).
Abbreviation cm := (ctx_committee ctx).

Definition votes_ok vi : Prop :=
  agg_ok cm (vi_accept_block_votes vi) ∧
  ∀ idx agg, vi_reject_txn_votes vi !! idx = Some agg → agg_ok cm agg.

Definition rejecters vi (idx : TransactionIndex) : gset AuthorityIndex :=
  default ∅ (sa_votes <$> vi_reject_txn_votes vi !! idx).
Definition has_rejects vi (idx : TransactionIndex) : Prop := is_Some (vi_reject_txn_votes vi !! idx).

(** ** [take_certified_output] *)

Lemma check_rejects_spec accept l acc rejected : check_rejects ctx accept l acc = Some rejected →
  rejected = acc ++ (filter (λ p, StakeAggregator_reached_threshold p.2 cm) l).*1 ∧
  ∀ idx agg, (idx, agg) ∈ l → ¬ StakeAggregator_reached_threshold agg cm →
    c_quorum_threshold cm ≤ accept - sa_stake agg.
Proof.
  clear HU. revert acc. induction l as [|[i a] l IH]; intros acc; cbn [check_rejects].
  { intros [= <-]. split; [by rewrite app_nil_r|]. by intros idx agg ?%elem_of_nil. }
  rewrite filter_cons. destruct (decide (StakeAggregator_reached_threshold a cm)) as [Hr|Hr].
  - rewrite decide_True by done. rewrite (Is_true_true_1 _ Hr). intros [-> Hall]%IH. csimpl.
    rewrite <-app_assoc. split; [done|].
    intros idx agg [[= -> ->]|Hin]%elem_of_cons Hn; [done|]. by apply (Hall idx).
  - rewrite decide_False by done. apply Is_true_false in Hr as Hr'. rewrite Hr'.
    case_bool_decide as Hlt; [done|]. intros [-> Hall]%IH. split; [done|].
    intros idx agg [[= -> ->]|Hin]%elem_of_cons Hn; [unfold saturating_sub in Hlt; lia|]. by apply (Hall idx).
Qed.

Lemma map_list_keys_filter {V} (m : gmap TransactionIndex V) (P : TransactionIndex * V → Prop) `{∀ x, base.Decision (P x)} :
  StronglySorted key_le (filter P (map_list m)).*1 ∧ NoDup (filter P (map_list m)).*1.
Proof.
  clear. pose proof (map_list_sorted m) as Hs. pose proof (NoDup_map_list m) as Hn. revert Hs Hn.
  generalize (map_list m). intros l. induction l as [|x l IH]; intros Hs Hn; [by repeat constructor|].
  apply StronglySorted_cons in Hs as [Hx Hs]. csimpl in Hn. apply NoDup_cons in Hn as [Hnx Hn].
  destruct (IH Hs Hn) as [IHs IHn]. rewrite filter_cons. case_decide; [|done]. csimpl. split.
  - apply StronglySorted_cons. split; [|done]. apply Forall_forall.
    intros k (p & -> & [_ Hp]%list_elem_of_filter)%list_elem_of_fmap. pose proof (proj1 (Forall_forall _ _) Hx p Hp) as Hle. exact Hle.
  - apply NoDup_cons. split; [|done]. intros (p & Heq & [_ Hp]%list_elem_of_filter)%list_elem_of_fmap.
    apply Hnx. rewrite Heq. by apply list_elem_of_fmap_2.
Qed.

(** What a certified output says about the votes it was made from. *)
Record output_from vi o : Prop := {
  of_block : vi_block vi = Some (cb_block o);
  of_fresh : vi_is_certified vi = false;
  of_accept : c_quorum_threshold cm ≤ set_stake cm (sa_votes (vi_accept_block_votes vi));
  of_rejected idx : idx ∈ cb_rejected o → c_quorum_threshold cm ≤ set_stake cm (rejecters vi idx);
  of_certified idx : idx ∉ cb_rejected o →
    c_quorum_threshold cm ≤ set_stake cm (sa_votes (vi_accept_block_votes vi) ∖ rejecters vi idx);
  of_sorted : StronglySorted key_le (cb_rejected o) ∧ NoDup (cb_rejected o);
}.

Lemma take_certified_output_spec vi : votes_ok vi →
  (∀ b, vi_block vi = Some b → Committee_is_valid_index cm (vb_author b)) →
  ∃ out, take_certified_output ctx vi =
      Done (match out with Some _ => set_certified vi | None => vi end, out) ∧
    ∀ o, out = Some o → output_from vi o.
Proof.
  clear HU. intros [Hacc Hrej] Hval. unfold take_certified_output.
  destruct (vi_is_certified vi) eqn:Hc; [by exists None|].
  destruct (vi_block vi) as [b|] eqn:Hb; [|by exists None].
  specialize (Hval b eq_refl). unfold Committee_is_valid_index, Committee_size in Hval. rewrite bool_decide_spec in Hval.
  unfold Committee_authority, vec_get. destruct (lookup_lt_is_Some_2 _ _ Hval) as [x ->]. cbn [expect mbind run_bind].
  destruct (StakeAggregator_reached_threshold (vi_accept_block_votes vi) cm) eqn:Hr; [|by exists None]. simpl.
  destruct (check_rejects ctx _ _ []) as [rejected|] eqn:Hchk; [|by exists None].
  exists (Some (mk_certified_block b rejected)). split; [done|]. intros o [= <-].
  apply check_rejects_spec in Hchk as [Hrj Hall]. simpl in Hrj.
  unfold StakeAggregator_reached_threshold in Hr. simpl in Hr. unfold Committee_reached_quorum in Hr.
  apply bool_decide_eq_true in Hr. rewrite (proj1 Hacc) in Hr, Hall.
  assert (Hin : ∀ idx, idx ∈ rejected ↔ ∃ agg, vi_reject_txn_votes vi !! idx = Some agg ∧
                                         c_quorum_threshold cm ≤ sa_stake agg).
  { intros idx. rewrite Hrj, list_elem_of_fmap. setoid_rewrite list_elem_of_filter. split.
    - intros ([i a] & -> & Hra & Hia%elem_of_map_list). exists a. split; [done|].
      simpl in Hra. unfold StakeAggregator_reached_threshold in Hra. simpl in Hra.
      unfold Committee_reached_quorum in Hra. by rewrite bool_decide_spec in Hra.
    - intros (a & Ha & Hq). exists (idx, a). split_and!; [done| |by apply elem_of_map_list].
      simpl. unfold StakeAggregator_reached_threshold. simpl. unfold Committee_reached_quorum. by rewrite bool_decide_spec. }
  split; simpl; try done.
  - intros idx (agg & Ha & Hq)%Hin. unfold rejecters. rewrite Ha. simpl. by rewrite <-(proj1 (Hrej idx agg Ha)).
  - intros idx Hn. unfold rejecters. destruct (vi_reject_txn_votes vi !! idx) as [agg|] eqn:Ha; simpl.
    + pose proof (Hrej idx agg Ha) as [Hst _].
      assert (Hq : c_quorum_threshold cm ≤ set_stake cm (sa_votes (vi_accept_block_votes vi)) - sa_stake agg).
      { apply (Hall idx); [by apply elem_of_map_list|]. unfold StakeAggregator_reached_threshold. simpl.
        unfold Committee_reached_quorum. rewrite bool_decide_spec. intros Hq. apply Hn, Hin. eauto. }
      rewrite Hst in Hq. rewrite (set_stake_split cm _ (sa_votes agg)) in Hq.
      pose proof (set_stake_mono cm (sa_votes (vi_accept_block_votes vi) ∩ sa_votes agg) (sa_votes agg) ltac:(set_solver)). lia.
    + by rewrite difference_empty_L.
  - rewrite Hrj. apply map_list_keys_filter.
Qed.

(** ** The invariant *)

Definition entry st (B : BlockRef) : VoteInfo := default VoteInfo_default (cs_votes st !! B).

(** [cur] is the block whose votes are being added. *)
Record cert_inv (cur : option BlockRef) st : Prop := {
  ci_gc B : is_Some (cs_votes st !! B) → cs_gc_round st < br_round B;
  ci_ok B vi : cs_votes st !! B = Some vi → votes_ok vi;
  ci_block B vi b : cs_votes st !! B = Some vi → vi_block vi = Some b → G B = Some b;
  ci_accept B vi h : cs_votes st !! B = Some vi → h ∈ sa_votes (vi_accept_block_votes vi) →
    ∃ b vi', cs_votes st !! vb_reference b = Some vi' ∧ vi_block vi' = Some b ∧ vb_author b = h ∧
      supports b B ∧ Some (vb_reference b) ≠ cur;
  ci_complete X vi b v idx : Some X ≠ cur → cs_votes st !! X = Some vi → vi_block vi = Some b →
    v ∈ block_transaction_votes (vb_block b) → idx ∈ btv_rejects v → cs_gc_round st < br_round (btv_block_ref v) →
    vb_author b ∈ rejecters (entry st (btv_block_ref v)) idx;
  ci_sound B vi idx h : cs_votes st !! B = Some vi → h ∈ rejecters vi idx →
    ∃ r b, G r = Some b ∧ vb_author b = h ∧ rejects b B idx;
}.

(** Every transaction has a quorum behind its status, whatever the state. *)
Record sound_output o : Prop := {
  so_block : G (vb_reference (cb_block o)) = Some (cb_block o);
  so_accepted : ∃ A : gset AuthorityIndex, c_quorum_threshold cm ≤ set_stake cm A ∧
    ∀ h, h ∈ A → ∃ r b, G r = Some b ∧ vb_author b = h ∧ supports b (vb_reference (cb_block o));
  so_certified idx : idx ∉ cb_rejected o → ∃ A : gset AuthorityIndex, c_quorum_threshold cm ≤ set_stake cm A ∧
    ∀ h, h ∈ A → ∃ r b, G r = Some b ∧ vb_author b = h ∧ supports b (vb_reference (cb_block o)) ∧
                         ¬ rejects b (vb_reference (cb_block o)) idx;
  so_rejected idx : idx ∈ cb_rejected o → ∃ R : gset AuthorityIndex, c_quorum_threshold cm ≤ set_stake cm R ∧
    ∀ h, h ∈ R → ∃ r b, G r = Some b ∧ vb_author b = h ∧ rejects b (vb_reference (cb_block o)) idx;
  so_sorted : StronglySorted key_le (cb_rejected o) ∧ NoDup (cb_rejected o);
}.

Definition out_refs (outs : list CertifiedBlock) : list BlockRef := (λ o, vb_reference (cb_block o)) <$> outs.

Record outs_ok st (outs : list CertifiedBlock) : Prop := {
  oo_nodup : NoDup (out_refs outs);
  oo_sound o : o ∈ outs → sound_output o;
  oo_marked B : B ∈ out_refs outs → br_round B ≤ cs_gc_round st ∨ vi_is_certified (entry st B);
}.

Lemma output_sound cur st T vi o : cert_inv cur st → cs_votes st !! T = Some vi → output_from vi o →
  sound_output o ∧ vb_reference (cb_block o) = T.
Proof using HU.
  intros Hinv HT Ho. pose proof (ci_block _ _ Hinv T vi _ HT (of_block _ _ Ho)) as HGT.
  pose proof (u_reference _ _ _ HU _ _ HGT) as Href. split; [|done]. split; rewrite ?Href; [done|..].
  - exists (sa_votes (vi_accept_block_votes vi)). split; [apply (of_accept _ _ Ho)|]. intros h Hacc.
    destruct (ci_accept _ _ Hinv T vi h HT Hacc) as (b & vi' & Hb & Hblk & Hau & Hsup & _).
    exists (vb_reference b), b. split; [by apply (ci_block _ _ Hinv _ _ _ Hb)|done].
  - intros idx Hn. exists (sa_votes (vi_accept_block_votes vi) ∖ rejecters vi idx).
    split; [by apply (of_certified _ _ Ho)|]. intros h [Hacc Hnr]%elem_of_difference.
    destruct (ci_accept _ _ Hinv T vi h HT Hacc) as (b & vi' & Hb & Hblk & Hau & Hsup & Hcur).
    exists (vb_reference b), b. split_and!; [by apply (ci_block _ _ Hinv _ _ _ Hb)|done|done|].
    intros (v & Hv & HvT & Hidx). apply Hnr. rewrite <-Hau.
    pose proof (ci_complete _ _ Hinv (vb_reference b) vi' b v idx Hcur Hb Hblk Hv Hidx) as Hin.
    rewrite HvT in Hin. unfold entry in Hin. rewrite HT in Hin. apply Hin, (ci_gc _ _ Hinv). eauto.
  - intros idx Hr. exists (rejecters vi idx). split; [by apply (of_rejected _ _ Ho)|].
    intros h Hh. by apply (ci_sound _ _ Hinv T vi).
  - apply (of_sorted _ _ Ho).
Qed.

(** ** Replacing an entry *)

Definition with_entry st (T : BlockRef) vi : CertifierState :=
  mk_certifier (<[T := vi]> (cs_votes st)) (cs_gc_round st).

Lemma entry_with st T vi B : entry (with_entry st T vi) B = if decide (B = T) then vi else entry st B.
Proof.
  clear. unfold entry. simpl. case_decide; [subst; by rewrite lookup_insert_eq|by rewrite lookup_insert_ne].
Qed.

(** The votes on [T] may grow. *)
Record grown cur st (T : BlockRef) vi : Prop := {
  gr_gc : cs_gc_round st < br_round T;
  gr_ok : votes_ok vi;
  gr_block : vi_block vi = vi_block (entry st T);
  gr_accept h : h ∈ sa_votes (vi_accept_block_votes vi) → h ∈ sa_votes (vi_accept_block_votes (entry st T)) ∨
    ∃ b vi', cs_votes st !! vb_reference b = Some vi' ∧ vi_block vi' = Some b ∧ vb_author b = h ∧
      supports b T ∧ Some (vb_reference b) ≠ cur;
  gr_sound idx h : h ∈ rejecters vi idx → h ∈ rejecters (entry st T) idx ∨
    ∃ r b, G r = Some b ∧ vb_author b = h ∧ rejects b T idx;
  gr_mono idx : rejecters (entry st T) idx ⊆ rejecters vi idx;
}.

Lemma default_entry_empty : vi_block VoteInfo_default = None ∧
  sa_votes (vi_accept_block_votes VoteInfo_default) = ∅ ∧ ∀ idx, rejecters VoteInfo_default idx = ∅.
Proof. clear. split_and!; [done..|]. intros idx. unfold rejecters. simpl. by rewrite lookup_empty. Qed.

Lemma inv_grown cur st T vi : cert_inv cur st → grown cur st T vi → cert_inv cur (with_entry st T vi).
Proof.
  clear HU. intros Hinv Hg. destruct default_entry_empty as (Hd1 & Hd2 & Hd3).
  assert (Hlk : ∀ B x, cs_votes (with_entry st T vi) !! B = Some x →
    B = T ∧ x = vi ∨ B ≠ T ∧ cs_votes st !! B = Some x).
  { intros B x Hx. cbn in Hx. apply lookup_insert_Some in Hx as [[-> ->]|[? ?]]; auto. }
  assert (Hkeep : ∀ b x, cs_votes st !! vb_reference b = Some x → vi_block x = Some b →
    ∃ x', cs_votes (with_entry st T vi) !! vb_reference b = Some x' ∧ vi_block x' = Some b).
  { intros b x Hb Hblk. simpl. destruct (decide (vb_reference b = T)) as [Heq|Hne].
    - exists vi. rewrite Heq, lookup_insert_eq. split; [done|]. rewrite (gr_block _ _ _ _ Hg). unfold entry.
      by rewrite <-Heq, Hb.
    - exists x. by rewrite lookup_insert_ne. }
  split.
  - intros B [x [[-> _]|[_ ?]]%Hlk]; simpl; [apply (gr_gc _ _ _ _ Hg)|]. apply (ci_gc _ _ Hinv). eauto.
  - intros B x [[-> ->]|[_ ?]]%Hlk; [apply (gr_ok _ _ _ _ Hg)|]. by apply (ci_ok _ _ Hinv B).
  - intros B x b [[-> ->]|[_ Hx]]%Hlk Hblk; [|by apply (ci_block _ _ Hinv B x)].
    rewrite (gr_block _ _ _ _ Hg) in Hblk. unfold entry in Hblk.
    destruct (cs_votes st !! T) as [y|] eqn:HT; [|done]. by apply (ci_block _ _ Hinv T y).
  - intros B x h Hx Hh. assert (∃ b y, cs_votes st !! vb_reference b = Some y ∧ vi_block y = Some b ∧ vb_author b = h ∧
      supports b B ∧ Some (vb_reference b) ≠ cur) as (b & y & Hb & Hblk & Hau & Hsup & Hcur).
    { apply Hlk in Hx as [[-> ->]|[_ Hx]]; [|by apply (ci_accept _ _ Hinv B x)].
      destruct (gr_accept _ _ _ _ Hg h Hh) as [Hin|?]; [|done]. unfold entry in Hin.
      destruct (cs_votes st !! T) as [y|] eqn:HT; [by apply (ci_accept _ _ Hinv T y)|].
      by apply elem_of_empty in Hin. }
    destruct (Hkeep b y Hb Hblk) as (x' & ? & ?). by exists b, x'.
  - intros X x b v idx Hcur Hx Hblk Hv Hidx Hgc. simpl in Hgc.
    assert (Hin : vb_author b ∈ rejecters (entry st (btv_block_ref v)) idx).
    { apply Hlk in Hx as [[-> ->]|[_ Hx]]; [|by apply (ci_complete _ _ Hinv X x b v)].
      rewrite (gr_block _ _ _ _ Hg) in Hblk. unfold entry in Hblk.
      destruct (cs_votes st !! T) as [y|] eqn:HT; [|done]. by apply (ci_complete _ _ Hinv T y b v). }
    rewrite entry_with. case_decide as Heq; [|done]. rewrite Heq in Hin. by apply (gr_mono _ _ _ _ Hg).
  - intros B x idx h [[-> ->]|[_ Hx]]%Hlk Hh; [|by apply (ci_sound _ _ Hinv B x)].
    destruct (gr_sound _ _ _ _ Hg idx h Hh) as [Hin|?]; [|done]. unfold entry in Hin.
    destruct (cs_votes st !! T) as [y|] eqn:HT; [by apply (ci_sound _ _ Hinv T y)|].
    rewrite Hd3 in Hin. by apply elem_of_empty in Hin.
Qed.

Lemma grow_take cur st outs T vi : cert_inv cur st → outs_ok st outs → grown cur st T vi →
  vi_is_certified vi = vi_is_certified (entry st T) →
  ∃ out vi', take_certified_output ctx vi = Done (vi', out) ∧ cert_inv cur (with_entry st T vi') ∧
    outs_ok (with_entry st T vi') (outs ++ option_list out) ∧
    vi_block vi' = vi_block vi ∧ vi_reject_txn_votes vi' = vi_reject_txn_votes vi.
Proof using HU.
  intros Hinv Houts Hg Hflag. pose proof (inv_grown cur st T vi Hinv Hg) as Hinv'.
  assert (HT : cs_votes (with_entry st T vi) !! T = Some vi) by (cbn; by rewrite lookup_insert_eq).
  destruct (take_certified_output_spec vi) as (out & Htake & Hout).
  { apply (gr_ok _ _ _ _ Hg). }
  { intros b Hb. by apply (wf_author _ _ (u_wf _ _ _ HU T b (ci_block _ _ Hinv' T vi b HT Hb))). }
  assert (Hmark : ∀ vi', (vi_is_certified vi → vi_is_certified vi') → ∀ B, B ∈ out_refs outs →
            br_round B ≤ cs_gc_round st ∨ vi_is_certified (entry (with_entry st T vi') B)).
  { intros vi' Hvi' B HB. rewrite entry_with. destruct (oo_marked _ _ Houts B HB) as [?|Hc]; [by left|right].
    case_decide as Heq; [|done]. apply Hvi'. by rewrite Hflag, <-Heq. }
  destruct out as [o|]; simpl in Htake |- *.
  - exists (Some o), (set_certified vi). pose proof (Hout o eq_refl) as Ho. split; [done|].
    assert (Hg' : grown cur st T (set_certified vi)) by (destruct Hg; by split).
    pose proof (inv_grown cur st T _ Hinv Hg') as Hinv2.
    destruct (output_sound cur _ T vi o Hinv' HT Ho) as [Hsound Href]. split_and!; [done| |done|done].
    assert (Hnew : T ∉ out_refs outs).
    { intros Hin. destruct (oo_marked _ _ Houts T Hin) as [Hle|Hc]; [pose proof (gr_gc _ _ _ _ Hg); lia|].
      by rewrite <-Hflag, (of_fresh _ _ Ho) in Hc. }
    split; unfold out_refs; simpl.
    + rewrite fmap_app. simpl. rewrite Href. apply NoDup_app. split_and!; [apply (oo_nodup _ _ Houts)| |].
      * intros B HB ->%list_elem_of_singleton. by apply Hnew.
      * apply NoDup_singleton.
    + intros o' [Ho'| ->%list_elem_of_singleton]%elem_of_app; [by apply (oo_sound _ _ Houts)|done].
    + intros B. rewrite fmap_app. intros [HB|HB]%elem_of_app; [by apply Hmark|].
      simpl in HB. rewrite Href in HB. apply list_elem_of_singleton in HB as ->. right.
      by rewrite entry_with, decide_True.
  - exists None, vi. split; [done|]. rewrite app_nil_r. split_and!; [done| |done|done].
    split; [apply Houts|apply Houts|]. by apply Hmark.
Qed.

(** ** [add_voted_block] *)

Lemma add_reject_spec a vi idx : votes_ok vi → Committee_is_valid_index cm a →
  ∃ vi', add_reject ctx a vi idx = Done vi' ∧ votes_ok vi' ∧ vi_block vi' = vi_block vi ∧
    vi_is_certified vi' = vi_is_certified vi ∧ vi_accept_block_votes vi' = vi_accept_block_votes vi ∧
    (∀ i, has_rejects vi' i ↔ has_rejects vi i ∨ i = idx) ∧
    ∀ i, rejecters vi' i = if decide (i = idx) then {[a]} ∪ rejecters vi i else rejecters vi i.
Proof using HU.
  intros [Hacc Hrej] Ha. unfold add_reject.
  assert (Hagg : agg_ok cm (default StakeAggregator_new (vi_reject_txn_votes vi !! idx))).
  { destruct (vi_reject_txn_votes vi !! idx) as [agg|] eqn:E; simpl; [by apply (Hrej idx)|apply agg_ok_new]. }
  destruct (StakeAggregator_add_unique_spec cm (u_committee _ _ _ HU) _ a Hagg Ha) as (agg' & -> & Hok & Hv).
  cbn [mbind run_bind]. eexists. split; [done|]. split; [split; [exact Hacc|]|do 3 (split; [done|]); split].
  - intros i agg. cbn. intros Hi. apply lookup_insert_Some in Hi as [[-> <-]|[_ ?]]; [done|]. by apply (Hrej i).
  - intros i. unfold has_rejects. cbn. rewrite lookup_insert_is_Some'. naive_solver.
  - intros i. unfold rejecters. cbn. case_decide as Hi.
    + subst. rewrite lookup_insert_eq. simpl. rewrite Hv. by destruct (vi_reject_txn_votes vi !! idx).
    + by rewrite lookup_insert_ne by done.
Qed.

Lemma add_rejects_spec a l vi : votes_ok vi → Committee_is_valid_index cm a →
  ∃ vi', for_each (add_reject ctx a) vi l = Done vi' ∧ votes_ok vi' ∧ vi_block vi' = vi_block vi ∧
    vi_is_certified vi' = vi_is_certified vi ∧ vi_accept_block_votes vi' = vi_accept_block_votes vi ∧
    (∀ i, has_rejects vi i → has_rejects vi' i) ∧
    ∀ i h, h ∈ rejecters vi' i ↔ h ∈ rejecters vi i ∨ h = a ∧ i ∈ l.
Proof using HU.
  intros Hok Ha. revert vi Hok. induction l as [|x l IH]; intros vi Hok; simpl.
  { exists vi. split_and!; try done. intros i h. rewrite elem_of_nil. tauto. }
  destruct (add_reject_spec a vi x Hok Ha) as (vi1 & -> & Hok1 & Hb1 & Hf1 & Ha1 & Hk1 & Hr1). simpl.
  destruct (IH vi1 Hok1) as (vi2 & Hrun & Hok2 & Hb2 & Hf2 & Ha2 & Hk2 & Hr2).
  exists vi2. split_and!; [done|done|congruence..| |].
  - intros i Hi. apply Hk2, Hk1. by left.
  - intros i h. rewrite Hr2, Hr1, elem_of_cons. case_decide; [rewrite elem_of_union, elem_of_singleton|]; tauto.
Qed.

(** What the other entries keep while votes are added. *)
Record extends st st' : Prop := {
  ex_gc : cs_gc_round st' = cs_gc_round st;
  ex_some B : is_Some (cs_votes st !! B) → is_Some (cs_votes st' !! B);
  ex_block B : vi_block (entry st' B) = vi_block (entry st B);
  ex_rejects B idx : rejecters (entry st B) idx ⊆ rejecters (entry st' B) idx;
  ex_keys B idx : has_rejects (entry st B) idx → has_rejects (entry st' B) idx;
}.

Lemma extends_refl st : extends st st.
Proof. clear. by split. Qed.
Lemma extends_trans st1 st2 st3 : extends st1 st2 → extends st2 st3 → extends st1 st3.
Proof.
  clear. intros H1 H2. split.
  - by rewrite (ex_gc _ _ H2), (ex_gc _ _ H1).
  - intros B HB. by apply (ex_some _ _ H2), (ex_some _ _ H1).
  - intros B. by rewrite (ex_block _ _ H2), (ex_block _ _ H1).
  - intros B idx h Hh. by apply (ex_rejects _ _ H2), (ex_rejects _ _ H1).
  - intros B idx Hk. by apply (ex_keys _ _ H2), (ex_keys _ _ H1).
Qed.
Lemma extends_with st T vi : vi_block vi = vi_block (entry st T) →
  (∀ idx, rejecters (entry st T) idx ⊆ rejecters vi idx) →
  (∀ idx, has_rejects (entry st T) idx → has_rejects vi idx) → extends st (with_entry st T vi).
Proof.
  clear. intros Hb Hr Hk. split; [done|..].
  - intros B HB. cbn. apply lookup_insert_is_Some'. by right.
  - intros B. rewrite entry_with. case_decide; by subst.
  - intros B idx. rewrite entry_with. case_decide; [subst; apply Hr|done].
  - intros B idx. rewrite entry_with. case_decide; [subst; apply Hk|done].
Qed.

Lemma push_option (outs : list CertifiedBlock) (out : option CertifiedBlock) :
  match out with Some b => outs ++ [b] | None => outs end = outs ++ option_list out.
Proof. clear. destruct out; simpl; [done|by rewrite app_nil_r]. Qed.

Lemma entry_ok cur st B : cert_inv cur st → votes_ok (entry st B).
Proof.
  clear HU. intros Hinv. unfold entry. destruct (cs_votes st !! B) as [vi|] eqn:HB; simpl; [by apply (ci_ok _ _ Hinv B)|].
  split; [apply agg_ok_new|]. intros idx agg Hl. cbn in Hl. by rewrite lookup_empty in Hl.
Qed.

Lemma add_block_votes_spec cur st outs0 outs r b v : G r = Some b →
  v ∈ block_transaction_votes (vb_block b) → cert_inv cur st → outs_ok st (outs0 ++ outs) →
  ∃ st' outs', add_block_votes ctx (vb_author b) (st, outs) v = Done (st', outs') ∧
    cert_inv cur st' ∧ outs_ok st' (outs0 ++ outs') ∧ extends st st' ∧
    (cs_gc_round st < br_round (btv_block_ref v) → ∀ idx, idx ∈ btv_rejects v →
       vb_author b ∈ rejecters (entry st' (btv_block_ref v)) idx).
Proof using HU.
  intros HG Hv Hinv Houts. unfold add_block_votes.
  case_bool_decide as Hgc. { exists st, outs. split_and!; try done. by intros ?; lia. }
  destruct (add_rejects_spec (vb_author b) (btv_rejects v) (entry st (btv_block_ref v)))
    as (vi & Hrun & Hok & Hb & Hf & Ha & Hk & Hr).
  { by apply (entry_ok cur). } { by apply (wf_author _ _ (u_wf _ _ _ HU r b HG)). }
  unfold entry in Hrun. rewrite Hrun. cbn [mbind run_bind].
  destruct (grow_take cur st (outs0 ++ outs) (btv_block_ref v) vi Hinv Houts) as (out & vi' & -> & Hinv' & Houts' & Hb' & Hr');
    [|done|].
  { split; [lia|done|done|..].
    - intros h. rewrite Ha. auto.
    - intros idx h [?|[-> Hidx]]%Hr; [by left|right]. exists r, b. split_and!; [done..|]. by exists v.
    - intros idx h Hh. apply Hr. by left. }
  cbn [mbind run_bind]. rewrite push_option. eexists _, _. split; [done|].
  split; [done|]. split; [by rewrite app_assoc|]. split.
  - apply extends_with; [congruence|..]; unfold rejecters, has_rejects; rewrite Hr'.
    + intros idx h Hh. apply Hr. by left.
    + exact Hk.
  - intros _ idx Hidx. change (mk_certifier _ _) with (with_entry st (btv_block_ref v) vi').
    rewrite entry_with, decide_True by done. unfold rejecters. rewrite Hr'. apply Hr. by right.
Qed.

Lemma add_votes_loop cur r b l : G r = Some b → (∀ v, v ∈ l → v ∈ block_transaction_votes (vb_block b)) →
  ∀ st outs0 outs, cert_inv cur st → outs_ok st (outs0 ++ outs) →
  ∃ st' outs', for_each (add_block_votes ctx (vb_author b)) (st, outs) l = Done (st', outs') ∧
    cert_inv cur st' ∧ outs_ok st' (outs0 ++ outs') ∧ extends st st' ∧
    ∀ v idx, v ∈ l → cs_gc_round st < br_round (btv_block_ref v) → idx ∈ btv_rejects v →
       vb_author b ∈ rejecters (entry st' (btv_block_ref v)) idx.
Proof using HU.
  intros HG. induction l as [|v l IH]; intros Hl st outs0 outs Hinv Houts.
  { exists st, outs. split_and!; [done..|apply extends_refl|]. by intros v idx ?%elem_of_nil. }
  cbn [for_each]. destruct (add_block_votes_spec cur st outs0 outs r b v HG (Hl v ltac:(left)) Hinv Houts)
    as (st1 & outs1 & -> & Hinv1 & Houts1 & Hex1 & Hrec1). cbn [mbind run_bind].
  destruct (IH (λ v' Hv', Hl v' (list_elem_of_further _ _ _ Hv')) st1 outs0 outs1 Hinv1 Houts1)
    as (st2 & outs2 & Hrun & Hinv2 & Houts2 & Hex2 & Hrec2).
  exists st2, outs2. split_and!; [done..|by eapply extends_trans|].
  intros v' idx [->|Hv']%elem_of_cons Hgc Hidx.
  - by apply (ex_rejects _ _ Hex2), Hrec1.
  - apply Hrec2; [done| |done]. by rewrite (ex_gc _ _ Hex1).
Qed.

(** Storing a new block leaves its votes to be added. *)
Lemma inv_store st b own : G (vb_reference b) = Some b → cs_gc_round st < vb_round b →
  vi_block (entry st (vb_reference b)) = None → cert_inv None st →
  cert_inv (Some (vb_reference b))
    (with_entry st (vb_reference b) (set_vi_block b own (entry st (vb_reference b)))).
Proof.
  clear HU. intros HG Hround Hnone Hinv. set (T := vb_reference b) in *.
  assert (Hlk : ∀ B x, cs_votes (with_entry st T (set_vi_block b own (entry st T))) !! B = Some x →
    B = T ∧ x = set_vi_block b own (entry st T) ∨ B ≠ T ∧ cs_votes st !! B = Some x).
  { intros B x Hx. cbn in Hx. apply lookup_insert_Some in Hx as [[-> <-]|[? ?]]; auto. }
  assert (Hent : ∀ h, h ∈ sa_votes (vi_accept_block_votes (entry st T)) ∨ (∃ idx, h ∈ rejecters (entry st T) idx) →
            cs_votes st !! T = Some (entry st T)).
  { intros h. unfold entry. destruct (cs_votes st !! T); [done|]. destruct default_entry_empty as (_ & Hd2 & Hd3).
    cbn [default from_option]. rewrite Hd2. intros [?%elem_of_empty|[idx Hh]]; [done|]. rewrite Hd3 in Hh.
    by apply elem_of_empty in Hh. }
  split.
  - intros B [x [[-> _]|[_ ?]]%Hlk]; cbn; [exact Hround|]. apply (ci_gc _ _ Hinv). eauto.
  - intros B x [[-> ->]|[_ ?]]%Hlk; [exact (entry_ok None st T Hinv)|]. by apply (ci_ok _ _ Hinv B).
  - intros B x b' [[-> ->]|[_ Hx]]%Hlk Hblk; [|by apply (ci_block _ _ Hinv B x)]. by injection Hblk as <-.
  - intros B x h Hx Hh. assert (∃ b y, cs_votes st !! vb_reference b = Some y ∧ vi_block y = Some b ∧ vb_author b = h ∧
      supports b B ∧ Some (vb_reference b) ≠ None) as (b' & y & Hb & Hblk & Hau & Hsup & _).
    { apply Hlk in Hx as [[-> ->]|[_ Hx]]; [|by apply (ci_accept _ _ Hinv B x)].
      apply (ci_accept _ _ Hinv T (entry st T)); [|done]. apply (Hent h). by left. }
    assert (Hne : vb_reference b' ≠ T).
    { intros Heq. rewrite Heq in Hb. unfold entry in Hnone. rewrite Hb in Hnone. cbn in Hnone. congruence. }
    exists b', y. cbn. rewrite lookup_insert_ne by done. split_and!; try done. congruence.
  - intros X x b' v idx Hcur [[-> ->]|[_ Hx]]%Hlk Hblk Hv Hidx Hgc; [done|].
    rewrite entry_with. pose proof (ci_complete _ _ Hinv X x b' v idx ltac:(done) Hx Hblk Hv Hidx Hgc) as Hin.
    case_decide as Heq; [|done]. rewrite Heq in Hin. exact Hin.
  - intros B x idx h [[-> ->]|[_ Hx]]%Hlk Hh; [|by apply (ci_sound _ _ Hinv B x)].
    apply (ci_sound _ _ Hinv T (entry st T)); [|exact Hh]. apply (Hent h). right. by exists idx.
Qed.

(** Once its votes are recorded, the block counts as any other. *)
Lemma inv_recorded st b : cert_inv (Some (vb_reference b)) st → vi_block (entry st (vb_reference b)) = Some b →
  (∀ v idx, v ∈ block_transaction_votes (vb_block b) → cs_gc_round st < br_round (btv_block_ref v) →
     idx ∈ btv_rejects v → vb_author b ∈ rejecters (entry st (btv_block_ref v)) idx) →
  cert_inv None st.
Proof.
  clear HU. intros Hinv Hblk Hrec. split; try apply Hinv.
  - intros B vi h HB Hh. destruct (ci_accept _ _ Hinv B vi h HB Hh) as (b' & vi' & ? & ? & ? & ? & _). by exists b', vi'.
  - intros X vi b' v idx _ HX Hb' Hv Hidx Hgc.
    destruct (decide (X = vb_reference b)) as [->|Hne]; [|apply (ci_complete _ _ Hinv X vi b' v); congruence || done].
    unfold entry in Hblk at 1. rewrite HX in Hblk. cbn in Hblk. simplify_eq. by apply Hrec.
Qed.

Lemma outs_ok_extends st st' outs : outs_ok st outs → cs_gc_round st ≤ cs_gc_round st' →
  (∀ B, vi_is_certified (entry st B) → br_round B ≤ cs_gc_round st' ∨ vi_is_certified (entry st' B)) → outs_ok st' outs.
Proof.
  clear. intros Houts Hgc Hf. split; [apply Houts..|]. intros B HB.
  destruct (oo_marked _ _ Houts B HB) as [?|?]; [left; lia|auto].
Qed.

Definition good st (outs : list CertifiedBlock) : Prop := cert_inv None st ∧ outs_ok st outs.

(** The votes of a state are kept by the later ones. *)
Record later st st' : Prop := {
  la_gc : cs_gc_round st' = cs_gc_round st;
  la_some B : is_Some (cs_votes st !! B) → is_Some (cs_votes st' !! B);
  la_block B b : vi_block (entry st B) = Some b → vi_block (entry st' B) = Some b;
  la_rejects B idx : rejecters (entry st B) idx ⊆ rejecters (entry st' B) idx;
  la_keys B idx : has_rejects (entry st B) idx → has_rejects (entry st' B) idx;
}.

Lemma later_refl st : later st st.
Proof. clear. by split. Qed.
Lemma later_trans st1 st2 st3 : later st1 st2 → later st2 st3 → later st1 st3.
Proof.
  clear. intros H1 H2. split.
  - by rewrite (la_gc _ _ H2), (la_gc _ _ H1).
  - intros B HB. by apply (la_some _ _ H2), (la_some _ _ H1).
  - intros B b HB. by apply (la_block _ _ H2), (la_block _ _ H1).
  - intros B idx h Hh. by apply (la_rejects _ _ H2), (la_rejects _ _ H1).
  - intros B idx Hk. by apply (la_keys _ _ H2), (la_keys _ _ H1).
Qed.
Lemma extends_later st st' : extends st st' → later st st'.
Proof. clear. intros H. split; try apply H. intros B b Hb. by rewrite (ex_block _ _ H). Qed.
Lemma store_later st b own : vi_block (entry st (vb_reference b)) = None →
  later st (with_entry st (vb_reference b) (set_vi_block b own (entry st (vb_reference b)))).
Proof.
  clear. intros Hnone. split; [done|..].
  - intros B HB. cbn. apply lookup_insert_is_Some'. by right.
  - intros B b'. rewrite entry_with. case_decide; [subst; congruence|done].
  - intros B idx. rewrite entry_with. case_decide; [by subst|done].
  - intros B idx. rewrite entry_with. case_decide; [by subst|done].
Qed.

Lemma add_voted_block_spec st outs b own : G (vb_reference b) = Some b → good st outs →
  ∃ st' new, add_voted_block ctx st b own = Done (st', new) ∧ good st' (outs ++ new) ∧ later st st' ∧
    (cs_gc_round st < vb_round b → vi_block (entry st' (vb_reference b)) = Some b).
Proof using HU.
  intros HG [Hinv Houts]. unfold add_voted_block.
  case_bool_decide as Hgc. { exists st, []. rewrite app_nil_r. split_and!; try done. by intros; lia. }
  pose proof (wf_author _ _ (u_wf _ _ _ HU _ _ HG)) as Hval. unfold Committee_is_valid_index, Committee_size in Hval.
  rewrite bool_decide_spec in Hval. unfold Committee_authority, vec_get.
  destruct (lookup_lt_is_Some_2 _ _ Hval) as [x ->]. cbn [expect mbind run_bind].
  fold (entry st (vb_reference b)). case_bool_decide as Hsome.
  - assert (HT : cs_votes st !! vb_reference b = Some (entry st (vb_reference b))).
    { unfold entry in Hsome |- *. destruct (cs_votes st !! vb_reference b); [done|]. by destruct Hsome. }
    rewrite insert_id by done. exists st, []. rewrite app_nil_r. split; [by destruct st|]. split; [done|].
    split; [apply later_refl|]. intros _. destruct Hsome as [b' Hb'].
    pose proof (ci_block _ _ Hinv _ _ b' HT Hb'). congruence.
  - assert (Hnone : vi_block (entry st (vb_reference b)) = None) by by apply eq_None_not_Some.
    pose proof (inv_store st b own HG ltac:(lia) Hnone Hinv) as Hinv1.
    set (st1 := with_entry _ _ _) in Hinv1. change (mk_certifier _ _) with st1.
    assert (Houts1 : outs_ok st1 (outs ++ [])).
    { rewrite app_nil_r. apply (outs_ok_extends st); [done..|]. intros B Hc. right. unfold st1. rewrite entry_with.
      case_decide; [by subst|done]. }
    destruct (add_votes_loop _ _ b _ HG (λ v Hv, Hv) st1 outs [] Hinv1 Houts1)
      as (st' & new & Hrun & Hinv' & Houts' & Hex & Hrec).
    assert (Hblk : vi_block (entry st' (vb_reference b)) = Some b).
    { rewrite (ex_block _ _ Hex). unfold st1. by rewrite entry_with, decide_True. }
    exists st', new. split; [done|]. split; [split; [|done]|split; [|done]].
    + apply (inv_recorded st' b Hinv' Hblk). intros v idx Hv. rewrite (ex_gc _ _ Hex). by apply Hrec.
    + eapply later_trans; [by apply (store_later st b own)|by apply extends_later].
Qed.

Lemma add_voted_blocks_spec st outs (l : list (VerifiedBlock * list TransactionIndex)) :
  (∀ p, p ∈ l → G (vb_reference p.1) = Some p.1) → good st outs →
  ∃ st' new, CertifierState_add_voted_blocks ctx st l = Done (st', new) ∧ good st' (outs ++ new) ∧ later st st'.
Proof using HU.
  intros Hl Hgood. unfold CertifierState_add_voted_blocks.
  destruct (for_each_total (λ s : CertifierState * list CertifiedBlock,
              good s.1 (outs ++ s.2) ∧ later st s.1)
             (λ '(st, certified_blocks) '(voted_block, reject_txn_votes),
                '(st, blocks) ← add_voted_block ctx st voted_block reject_txn_votes;
                Done (st, certified_blocks ++ blocks)) (st, []) l) as ([st' new] & Hrun & Hg' & Hgc').
  - cbn. rewrite app_nil_r. split; [done|apply later_refl].
  - intros [s acc] [b own] Hin [Hs Hgc]. cbn in Hs, Hgc.
    destruct (add_voted_block_spec s (outs ++ acc) b own (Hl _ Hin) Hs) as (s' & new & -> & Hs' & Hgc' & _).
    cbn. eexists. split; [done|]. cbn. rewrite app_assoc. split; [done|by eapply later_trans].
  - by exists st', new.
Qed.

(** ** [add_proposed_block] *)

Lemma add_accept_spec st outs0 outs T vb vib a : cert_inv None st → outs_ok st (outs0 ++ outs) →
  cs_votes st !! T = Some vib → vi_block vib = Some vb → a ∈ vb_ancestors vb →
  ∃ st' outs', add_accept ctx vb (st, outs) a = Done (st', outs') ∧
    cert_inv None st' ∧ outs_ok st' (outs0 ++ outs') ∧ extends st st'.
Proof using HU.
  intros Hinv Houts HT Hvb Ha. unfold add_accept.
  case_bool_decide as Hround. { exists st, outs. split_and!; try done. }
  pose proof (ci_block _ _ Hinv T vib vb HT Hvb) as HG.
  pose proof (u_wf _ _ _ HU _ _ HG) as Hwf. pose proof (wf_rounds _ _ Hwf a Ha). pose proof (wf_round _ _ Hwf).
  rewrite u32_add_small in Hround by lia. pose proof (u_reference _ _ _ HU _ _ HG) as Href.
  destruct (cs_votes st !! a) as [vi|] eqn:Hvi; [|by exists st, outs].
  pose proof (ci_ok _ _ Hinv a vi Hvi) as [Hacc Hrej].
  destruct (StakeAggregator_add_unique_spec cm (u_committee _ _ _ HU) _ _ Hacc (wf_author _ _ Hwf)) as (agg & -> & Hagg & Hv).
  cbn [mbind run_bind]. assert (Hent : entry st a = vi) by (unfold entry; by rewrite Hvi).
  destruct (grow_take None st (outs0 ++ outs) a (set_accept agg vi) Hinv Houts) as (out & vi' & -> & Hinv' & Houts' & Hb' & Hr').
  { split; rewrite ?Hent; try done.
    - apply (ci_gc _ _ Hinv). eauto.
    - cbn. intros h. rewrite Hv. intros [->%elem_of_singleton|?]%elem_of_union; [right|by left].
      exists vb, vib. rewrite Href. split_and!; try done.
    - intros idx h Hh. by left. }
  { by rewrite Hent. }
  cbn [mbind run_bind]. rewrite push_option. eexists _, _. split; [done|]. split; [done|]. split; [by rewrite app_assoc|].
  apply extends_with; unfold rejecters, has_rejects; by rewrite Hent, ?Hr'.
Qed.

Lemma add_voting_ancestor_spec st outs0 outs pb a : cert_inv None st → outs_ok st (outs0 ++ outs) →
  ∃ st' outs', add_voting_ancestor ctx pb (st, outs) a = Done (st', outs') ∧
    cert_inv None st' ∧ outs_ok st' (outs0 ++ outs') ∧ extends st st'.
Proof using HU.
  intros Hinv Houts. unfold add_voting_ancestor.
  case_bool_decide. { exists st, outs. split_and!; try done. }
  destruct (cs_votes st !! a) as [vib|] eqn:Ha; [|by exists st, outs].
  destruct (vi_block vib) as [vb|] eqn:Hvb; [|by exists st, outs].
  destruct (for_each_total (λ s : CertifierState * list CertifiedBlock,
              cert_inv None s.1 ∧ outs_ok s.1 (outs0 ++ s.2) ∧ extends st s.1)
             (add_accept ctx vb) (st, outs) (vb_ancestors vb)) as ([st' outs'] & Hrun & ? & ? & ?).
  - split_and!; try done.
  - intros [s acc] t Ht (Hs & Ho & Hex). cbn in Hs, Ho, Hex.
    assert (∃ x, cs_votes s !! a = Some x ∧ vi_block x = Some vb) as (x & Hx & Hxb).
    { pose proof (ex_block _ _ Hex a) as Hb. unfold entry in Hb. rewrite Ha in Hb. cbn in Hb. rewrite Hvb in Hb.
      destruct (cs_votes s !! a) as [x|]; [by exists x|done]. }
    destruct (add_accept_spec s outs0 acc a vb x t Hs Ho Hx Hxb Ht) as (s' & acc' & Hstep & Hs' & Ho' & Hex').
    exists (s', acc'). split_and!; try done. by eapply extends_trans.
  - by exists st', outs'.
Qed.

Lemma add_proposed_block_spec st outs pb : good st outs → is_Some (cs_votes st !! vb_reference pb) →
  ∃ st' new, CertifierState_add_proposed_block ctx st pb = Done (st', new) ∧ good st' (outs ++ new) ∧ later st st'.
Proof using HU.
  intros [Hinv Houts] Hpb. unfold CertifierState_add_proposed_block.
  case_bool_decide. { exists st, []. rewrite app_nil_r. split_and!; try done. }
  rewrite bool_decide_eq_true_2 by done. cbn.
  destruct (for_each_total (λ s : CertifierState * list CertifiedBlock,
              cert_inv None s.1 ∧ outs_ok s.1 (outs ++ s.2) ∧ extends st s.1)
             (add_voting_ancestor ctx pb) (st, []) (vb_ancestors pb)) as ([st' new] & Hrun & ? & ? & Hex).
  - cbn. rewrite app_nil_r. split_and!; try done.
  - intros [s acc] t Ht (Hs & Ho & Hex). cbn in Hs, Ho, Hex.
    destruct (add_voting_ancestor_spec s outs acc pb t Hs Ho) as (s' & acc' & Hstep & Hs' & Ho' & Hex').
    exists (s', acc'). split_and!; try done. by eapply extends_trans.
  - exists st', new. split_and!; try done. by apply extends_later.
Qed.

(** ** [update_gc_round] *)

Lemma gc_votes_spec fuel gc (votes : gmap BlockRef VoteInfo) : (size votes ≤ fuel)%nat →
  ∃ votes', gc_votes fuel gc votes = Done votes' ∧
    ∀ B, votes' !! B = if bool_decide (br_round B ≤ gc) then None else votes !! B.
Proof.
  clear. revert votes. induction fuel as [|fuel IH]; intros votes Hsz; cbn [gc_votes];
    destruct (map_first votes) as [[B0 x]|] eqn:Hf.
  1,3: apply map_first_Some in Hf as [HB0 Hmin]; case_bool_decide as Hle.
  - apply Nat.le_0_r, map_size_empty_inv in Hsz. subst. by rewrite lookup_empty in HB0.
  - exists votes. split; [done|]. intros B. case_bool_decide as HB; [|done].
    apply eq_None_not_Some. intros [y Hy]. apply Hmin, BlockRef_le_round in Hy. lia.
  - destruct (IH (delete B0 votes)) as (votes' & -> & Hl).
    { rewrite map_size_delete_Some by eauto. lia. }
    exists votes'. split; [done|]. intros B. rewrite Hl. case_bool_decide; [done|].
    apply lookup_delete_ne. by intros ->.
  - exists votes. split; [done|]. intros B. case_bool_decide as HB; [|done].
    apply eq_None_not_Some. intros [y Hy]. apply Hmin, BlockRef_le_round in Hy. lia.
  - apply map_first_None in Hf as ->. exists ∅. split; [done|]. intros B. rewrite lookup_empty. by case_bool_decide.
  - apply map_first_None in Hf as ->. exists ∅. split; [done|]. intros B. rewrite lookup_empty. by case_bool_decide.
Qed.

Lemma update_gc_round_spec st outs gc : good st outs → cs_gc_round st ≤ gc →
  ∃ st', update_gc_round st gc = Done st' ∧ good st' outs ∧ cs_gc_round st' = gc ∧
    ∀ B, gc < br_round B → cs_votes st' !! B = cs_votes st !! B.
Proof.
  clear HU. intros [Hinv Houts] Hgc. unfold update_gc_round.
  destruct (gc_votes_spec (size (cs_votes st)) gc (cs_votes st)) as (votes & -> & Hl); [done|].
  cbn. eexists. split; [done|]. split; [|split; [done|]].
  2:{ intros B HB. cbn. rewrite Hl, bool_decide_eq_false_2; [done|lia]. }
  assert (Hlk : ∀ B x, votes !! B = Some x → gc < br_round B ∧ cs_votes st !! B = Some x).
  { intros B x. rewrite Hl. case_bool_decide; [done|]. split; [lia|done]. }
  assert (Hent : ∀ B, gc < br_round B → entry (mk_certifier votes gc) B = entry st B).
  { intros B HB. unfold entry. cbn. rewrite Hl, bool_decide_eq_false_2; [done|lia]. }
  split; [split|].
  - intros B [x [? _]%Hlk]. done.
  - intros B x [_ ?]%Hlk. by apply (ci_ok _ _ Hinv B).
  - intros B x b [_ ?]%Hlk. by apply (ci_block _ _ Hinv B).
  - intros B x h [HB Hx]%Hlk Hh.
    destruct (ci_accept _ _ Hinv B x h Hx Hh) as (b & vi' & Hb & Hblk & Hau & [Hin Hround] & Hcur).
    exists b, vi'. split_and!; try done. cbn. rewrite Hl, bool_decide_eq_false_2; [done|].
    change (br_round (vb_reference b)) with (vb_round b). lia.
  - intros X x b v idx Hcur [HX Hx]%Hlk Hblk Hv Hidx Hg. cbn in Hg. rewrite Hent by done.
    apply (ci_complete _ _ Hinv X x b v idx); try done. lia.
  - intros B x idx h [_ Hx]%Hlk Hh. by apply (ci_sound _ _ Hinv B x).
  - apply (outs_ok_extends st); [done..|]. intros B Hc. cbn.
    destruct (decide (br_round B ≤ gc)) as [?|Hn]; [by left|right]. rewrite Hent; [done|lia].
Qed.

(** ** The certifier of a node *)

Inductive certifier_run : CertifierState → list CertifiedBlock → Prop :=
| run_new : certifier_run CertifierState_new []
| run_voted st outs voted st' sent : certifier_run st outs →
    (∀ p, p ∈ voted → G (vb_reference p.1) = Some p.1) →
    TransactionCertifier_add_voted_blocks ctx st voted = Done (st', sent) →
    certifier_run st' (outs ++ concat sent)
| run_proposed st outs b st' sent : certifier_run st outs → is_Some (cs_votes st !! vb_reference b) →
    TransactionCertifier_add_proposed_block ctx st b = Done (st', sent) →
    certifier_run st' (outs ++ concat sent)
| run_collect st outs gc st' : certifier_run st outs → cs_gc_round st ≤ gc →
    update_gc_round st gc = Done st' → certifier_run st' outs.

Lemma concat_sent l : concat (send_certified_blocks l) = l.
Proof. clear. unfold send_certified_blocks. destruct l as [|o l]; [done|]. simpl. by rewrite app_nil_r. Qed.

Lemma add_voted_good st outs voted : good st outs → (∀ p, p ∈ voted → G (vb_reference p.1) = Some p.1) →
  ∃ st' sent, TransactionCertifier_add_voted_blocks ctx st voted = Done (st', sent) ∧
    good st' (outs ++ concat sent) ∧ later st st'.
Proof using HU.
  intros Hg Hv. destruct (add_voted_blocks_spec st outs voted Hv Hg) as (st' & new & Hrun & Hg' & Hl).
  exists st', (send_certified_blocks new). rewrite concat_sent. split; [|done].
  unfold TransactionCertifier_add_voted_blocks. by rewrite Hrun.
Qed.

Lemma add_proposed_good st outs b : good st outs → is_Some (cs_votes st !! vb_reference b) →
  ∃ st' sent, TransactionCertifier_add_proposed_block ctx st b = Done (st', sent) ∧
    good st' (outs ++ concat sent) ∧ later st st'.
Proof using HU.
  intros Hg Hb. destruct (add_proposed_block_spec st outs b Hg Hb) as (st' & new & Hrun & Hg' & Hl).
  exists st', (send_certified_blocks new). rewrite concat_sent. split; [|done].
  unfold TransactionCertifier_add_proposed_block. by rewrite Hrun.
Qed.

Lemma certifier_good st outs : certifier_run st outs → good st outs.
Proof using HU.
  induction 1 as [|st outs voted st' sent _ IH Hv Hrun|st outs b st' sent _ IH Hb Hrun|st outs gc st' _ IH Hgc Hrun].
  - split; split; cbn.
    + by intros B [x []%lookup_empty_Some].
    + by intros B vi []%lookup_empty_Some.
    + by intros B vi b []%lookup_empty_Some.
    + by intros B vi h []%lookup_empty_Some.
    + by intros X vi b v idx _ []%lookup_empty_Some.
    + by intros B vi idx h []%lookup_empty_Some.
    + constructor.
    + by intros o ?%elem_of_nil.
    + by intros B ?%elem_of_nil.
  - destruct (add_voted_good st outs voted IH Hv) as (st2 & sent2 & Hrun2 & Hg & _).
    rewrite Hrun in Hrun2. injection Hrun2 as -> ->. exact Hg.
  - destruct (add_proposed_good st outs b IH Hb) as (st2 & sent2 & Hrun2 & Hg & _).
    rewrite Hrun in Hrun2. injection Hrun2 as -> ->. exact Hg.
  - destruct (update_gc_round_spec st outs gc IH Hgc) as (st2 & Hrun2 & Hg & _).
    rewrite Hrun in Hrun2. injection Hrun2 as ->. exact Hg.
Qed.

(** An honest authority votes on a block only in its first block that links
    it, so the block that supports it at the next round carries the vote. *)
Definition votes_once : Prop := ∀ r1 b1 r2 b2 B idx, G r1 = Some b1 → G r2 = Some b2 →
  vb_author b1 ∉ byz → vb_author b1 = vb_author b2 → supports b1 B → rejects b2 B idx → rejects b1 B idx.

Lemma sound_same_block o1 o2 : sound_output o1 → sound_output o2 →
  vb_round (cb_block o1) = vb_round (cb_block o2) → vb_author (cb_block o1) = vb_author (cb_block o2) →
  cb_block o1 = cb_block o2.
Proof using HU.
  intros H1 H2 Hround Hauthor. destruct (so_accepted _ H1) as (A1 & HA1 & Hs1). destruct (so_accepted _ H2) as (A2 & HA2 & Hs2).
  destruct (quorums_honest cm G byz HU A1 A2 HA1 HA2) as (h & Hh1 & Hh2 & Hn).
  destruct (Hs1 h Hh1) as (r1 & b1 & HG1 & Hau1 & Hin1 & Hr1). destruct (Hs2 h Hh2) as (r2 & b2 & HG2 & Hau2 & Hin2 & Hr2).
  pose proof (u_reference _ _ _ HU _ _ HG1) as Href1. pose proof (u_reference _ _ _ HU _ _ HG2) as Href2.
  assert (r1 = r2) as Heqr.
  { apply (u_honest _ _ _ HU _ _ _ _ HG1 HG2); rewrite <-?Href1, <-?Href2; cbn [br_author br_round vb_reference].
    - by rewrite Hau1.
    - by rewrite Hau1, Hau2.
    - rewrite Hr1, Hr2. cbn. by rewrite Hround. }
  rewrite <-Heqr, HG1 in HG2. injection HG2 as <-.
  assert (vb_reference (cb_block o1) = vb_reference (cb_block o2)) as Heq.
  { apply (wf_same_author cm b1 _ _ (u_wf _ _ _ HU _ _ HG1) Hin1 Hin2). exact Hauthor. }
  pose proof (so_block _ H1) as Hb1. pose proof (so_block _ H2) as Hb2. rewrite Heq in Hb1. congruence.
Qed.

Lemma sound_certified_rejected o1 o2 idx : votes_once → sound_output o1 → sound_output o2 →
  cb_block o1 = cb_block o2 → idx ∈ cb_rejected o1 → idx ∈ cb_rejected o2.
Proof using HU.
  intros Honce H1 H2 Heq Hr. destruct (decide (idx ∈ cb_rejected o2)) as [|Hn]; [done|exfalso].
  destruct (so_rejected _ H1 idx Hr) as (R & HR & Hrej). destruct (so_certified _ H2 idx Hn) as (A & HA & Hcert).
  destruct (quorums_honest cm G byz HU A R HA HR) as (h & HhA & HhR & Hh).
  destruct (Hcert h HhA) as (r1 & b1 & HG1 & Hau1 & Hsup & Hnot). destruct (Hrej h HhR) as (r2 & b2 & HG2 & Hau2 & Hrj).
  apply Hnot. rewrite Heq in Hrj. apply (Honce r1 b1 r2 b2); try done; congruence.
Qed.
End certifier.

(** C19: a certifier that is given blocks of the DAG never panics; it outputs
    a block at most once; and each output has a quorum of authorities whose
    blocks include it, a quorum that moreover does not reject a transaction it
    certifies, and a quorum that rejects a transaction it reports rejected. *)
Theorem certified_outputs_sound ctx G byz st outs :
  universe_ok (ctx_committee ctx) G byz → certifier_run ctx G st outs →
  NoDup (out_refs outs) ∧ (∀ o, o ∈ outs → sound_output ctx G o) ∧
  (∀ voted, (∀ p, p ∈ voted → G (vb_reference p.1) = Some p.1) →
     ∃ st' sent, TransactionCertifier_add_voted_blocks ctx st voted = Done (st', sent)) ∧
  (∀ b, is_Some (cs_votes st !! vb_reference b) →
     ∃ st' sent, TransactionCertifier_add_proposed_block ctx st b = Done (st', sent)) ∧
  (∀ gc, cs_gc_round st ≤ gc → ∃ st', update_gc_round st gc = Done st').
Proof.
  intros HU Hrun. pose proof (certifier_good ctx G byz HU st outs Hrun) as Hg. split_and!.
  - apply (oo_nodup _ _ _ _ (proj2 Hg)).
  - apply (oo_sound _ _ _ _ (proj2 Hg)).
  - intros voted Hv. destruct (add_voted_good ctx G byz HU st outs voted Hg Hv) as (st' & sent & ? & _). eauto.
  - intros b Hb. destruct (add_proposed_good ctx G byz HU st outs b Hg Hb) as (st' & sent & ? & _). eauto.
  - intros gc Hgc. destruct (update_gc_round_spec ctx G st outs gc Hg Hgc) as (st' & ? & _). eauto.
Qed.

(** C24: no two certifiers ever output different blocks of the same slot, nor
    the same block with different rejected transactions. *)
Theorem certified_outputs_agree ctx1 ctx2 G byz st1 st2 outs1 outs2 o1 o2 :
  ctx_committee ctx1 = ctx_committee ctx2 → universe_ok (ctx_committee ctx1) G byz → votes_once G byz →
  certifier_run ctx1 G st1 outs1 → certifier_run ctx2 G st2 outs2 → o1 ∈ outs1 → o2 ∈ outs2 →
  vb_round (cb_block o1) = vb_round (cb_block o2) → vb_author (cb_block o1) = vb_author (cb_block o2) →
  o1 = o2.
Proof.
  intros Hc HU Honce Hr1 Hr2 Ho1 Ho2 Hround Hauthor.
  pose proof (oo_sound _ _ _ _ (proj2 (certifier_good ctx1 G byz HU _ _ Hr1)) o1 Ho1) as H1.
  assert (H2 : sound_output ctx1 G o2).
  { rewrite Hc in HU. pose proof (oo_sound _ _ _ _ (proj2 (certifier_good ctx2 G byz HU _ _ Hr2)) o2 Ho2) as H2.
    destruct H2 as [?????]; rewrite <-Hc in *. by split. }
  pose proof (sound_same_block ctx1 G byz HU o1 o2 H1 H2 Hround Hauthor) as Heq.
  destruct o1 as [b1 rj1], o2 as [b2 rj2]. cbn in Heq. subst b2. f_equal.
  destruct (so_sorted _ _ _ H1) as [Hs1 Hn1]. destruct (so_sorted _ _ _ H2) as [Hs2 Hn2].
  apply sorted_ext; try done. intros idx. split.
  - by apply (sound_certified_rejected ctx1 G byz HU (mk_certified_block b1 rj1) (mk_certified_block b1 rj2)).
  - by apply (sound_certified_rejected ctx1 G byz HU (mk_certified_block b1 rj2) (mk_certified_block b1 rj1)).
Qed.

(** ** Four authorities, three of which reject a transaction *)

Definition ballot_ref (r : Round) (a : AuthorityIndex) : BlockRef := mk_ref r a (r + 256 * N.of_nat a).
Definition ballot_block (r : Round) (a : AuthorityIndex) : VerifiedBlock :=
  mk_verified (mk_signed (V2 (mk_block_v2 0 r a 0 (ballot_ref (r - 1) <$> [0; 1; 2; 3]%nat)
      [mk_transaction []; mk_transaction []]
      (if decide (r = 2 ∧ a ≠ 3%nat) then [mk_txn_votes (ballot_ref 1 0%nat) [0]] else []) [] [])) [])
    (r + 256 * N.of_nat a) [].
Definition ballot_round (r : Round) : list VerifiedBlock := ballot_block r <$> [0; 1; 2; 3]%nat.
Definition ballot_blocks : list VerifiedBlock := [1; 2; 3] ≫= ballot_round.
Definition ballot_universe (r : BlockRef) : option VerifiedBlock :=
  (list_to_map ((λ b, (vb_reference b, b)) <$> ballot_blocks) : gmap BlockRef VerifiedBlock) !! r.

Lemma ballot_checked : Forall (λ b, block_wfb (test_committee 4) b ∧ ballot_universe (vb_reference b) = Some b ∧
    b = ballot_block (vb_round b) (vb_author b)) ballot_blocks.
Proof. repeat (apply Forall_cons; split; [split_and!; by vm_compute|]). constructor. Qed.

Lemma ballot_facts r b : ballot_universe r = Some b →
  r = vb_reference b ∧ block_wf (test_committee 4) b ∧ b = ballot_block (br_round r) (br_author r).
Proof.
  unfold ballot_universe. intros (b' & [= -> ->] & Hb)%elem_of_list_to_map_2%list_elem_of_fmap.
  pose proof ballot_checked as Hall. rewrite Forall_forall in Hall.
  destruct (Hall b' Hb) as (Hwf%block_wfb_spec & _ & Heq). by split_and!.
Qed.

Lemma ballot_in b : b ∈ ballot_blocks → ballot_universe (vb_reference b) = Some b.
Proof. pose proof ballot_checked as Hall. rewrite Forall_forall in Hall. apply Hall. Qed.

Lemma ballot_universe_ok : universe_ok (test_committee 4) ballot_universe {[3%nat]}.
Proof.
  split.
  - apply test_committee_ok.
  - by intros r b [-> _]%ballot_facts.
  - by intros r b (_ & ? & _)%ballot_facts.
  - intros r1 r2 b1 b2 (-> & _ & H1)%ballot_facts (-> & _ & H2)%ballot_facts _ Ha Hr. by rewrite H1, H2, Ha, Hr.
  - by vm_compute.
Qed.

Lemma ballot_votes_once : votes_once ballot_universe {[3%nat]}.
Proof.
  intros r1 b1 r2 b2 B idx (-> & _ & H1)%ballot_facts (-> & _ & H2)%ballot_facts _ Hau [_ Hround] (v & Hv & HvB & Hidx).
  rewrite H2 in Hv. cbn in Hv. case_decide as Hd; [|by apply elem_of_nil in Hv].
  apply list_elem_of_singleton in Hv as ->. cbn in HvB, Hidx. subst B. cbn in Hround.
  exists (mk_txn_votes (ballot_ref 1 0%nat) [0]). split_and!; [|done..]. rewrite H1. cbn.
  rewrite decide_True; [by left|]. split; [exact Hround|]. rewrite Hau. apply Hd.
Qed.

(** A node adds the three rounds of blocks, then its own block of round 3. *)
Definition ballot_voted : run (CertifierState * list (list CertifiedBlock)) :=
  TransactionCertifier_add_voted_blocks grid_ctx CertifierState_new ((λ b, (b, [])) <$> ballot_blocks).
Definition ballot_run (i : AuthorityIndex) : run (CertifierState * list (list CertifiedBlock)) :=
  '(st, _) ← ballot_voted; TransactionCertifier_add_proposed_block grid_ctx st (ballot_block 3 i).
Definition ballot_outs (i : AuthorityIndex) : list CertifiedBlock :=
  match ballot_run i with Done (_, sent) => concat sent | _ => [] end.

Definition ballot_succeeds (i : AuthorityIndex) : bool :=
  match ballot_voted with
  | Done (st, []) =>
      bool_decide (is_Some (cs_votes st !! vb_reference (ballot_block 3 i))) &&
      match TransactionCertifier_add_proposed_block grid_ctx st (ballot_block 3 i) with
      | Done _ => true
      | _ => false
      end
  | _ => false
  end.

Lemma ballot_reached i : ballot_succeeds i = true → ∃ st, certifier_run grid_ctx ballot_universe st (ballot_outs i).
Proof.
  unfold ballot_succeeds, ballot_outs, ballot_run. destruct ballot_voted as [[st [|]]| |] eqn:Hv; [|intros [=]..].
  cbn [mbind run_bind]. intros [Hs Hp]%andb_true_iff. apply bool_decide_eq_true in Hs.
  destruct (TransactionCertifier_add_proposed_block grid_ctx st (ballot_block 3 i)) as [[st' sent]| |] eqn:Hrun;
    try (by discriminate Hp).
  exists st'. apply (run_proposed _ _ st [] (ballot_block 3 i)); [|exact Hs|exact Hrun].
  apply (run_voted _ _ CertifierState_new [] ((λ b, (b, [])) <$> ballot_blocks) st []); [constructor| |exact Hv].
  intros p (b & -> & Hb)%list_elem_of_fmap. by apply ballot_in.
Qed.

Lemma certified_outputs_sound_witness :
  length (ballot_outs 0) = 4%nat ∧ Forall (sound_output grid_ctx ballot_universe) (ballot_outs 0).
Proof.
  split; [by vm_compute|]. destruct (ballot_reached 0%nat ltac:(by vm_compute)) as [st Hrun]. apply Forall_forall.
  apply (certified_outputs_sound grid_ctx ballot_universe {[3%nat]} st _ ballot_universe_ok Hrun).
Defined.

Lemma certified_outputs_agree_witness :
  ∃ o1 o2, head (ballot_outs 0) = Some o1 ∧ head (ballot_outs 1) = Some o2 ∧ cb_rejected o1 = [0] ∧ o1 = o2.
Proof.
  destruct (ballot_reached 0%nat ltac:(by vm_compute)) as [st1 Hrun1]. destruct (ballot_reached 1%nat ltac:(by vm_compute)) as [st2 Hrun2].
  do 2 eexists. split; [by vm_compute|]. split; [by vm_compute|]. split; [done|].
  refine (certified_outputs_agree grid_ctx grid_ctx ballot_universe {[3%nat]} st1 st2 _ _ _ _ eq_refl ballot_universe_ok
    ballot_votes_once Hrun1 Hrun2 _ _ eq_refl eq_refl); apply head_Some_elem_of; by vm_compute.
Defined.
