(* ===== verification/CommitFinalizer.v ===== *)
(** * The commit finalizer (consensus/core/src/commit_finalizer.rs)

    Buffers the committed sub-dags until each of their transactions is
    finalized or rejected, from the reject votes of the transaction certifier
    and from the accept votes of the blocks committed afterwards. *)
From S2P Require Import Prelude Committee StakeAggregator Block ThresholdClock Commit LeaderScoring Store DagState TransactionCertifier.

Definition INDIRECT_REJECT_DEPTH : Round := 3.

(** [struct CommitState]. *)
Record CommitState := mk_commit_state {
  cst_commit : CommittedSubDag;
  cst_pending_blocks : gmap BlockRef N;
  cst_pending_transactions : gmap BlockRef (gset TransactionIndex);
  cst_rejected_transactions : gmap BlockRef (gset TransactionIndex);
}.

(** [struct BlockState], [derive(Default)]. *)
Record BlockState := mk_block_state {
  bst_children : gset BlockRef;
  bst_reject_votes : gmap BlockRef (gset TransactionIndex);
}.
Definition BlockState_default : BlockState := mk_block_state ∅ ∅.

(** [struct CommitFinalizer]; the certifier and the DAG state it shares are
    passed to the operations that use them. *)
Record CommitFinalizer := mk_finalizer {
  cf_last_processed_commit : option CommitIndex;
  cf_pending_commits : list CommitState;
  cf_blocks : gmap BlockRef BlockState;
}.

(** [CommitFinalizer::new]. *)
Definition CommitFinalizer_new : CommitFinalizer := mk_finalizer None [] ∅.

Definition set_pending (pending : list CommitState) (cf : CommitFinalizer) : CommitFinalizer :=
  mk_finalizer (cf_last_processed_commit cf) pending (cf_blocks cf).
Definition set_blocks (blocks : gmap BlockRef BlockState) (cf : CommitFinalizer) : CommitFinalizer :=
  mk_finalizer (cf_last_processed_commit cf) (cf_pending_commits cf) blocks.

(** [map.entry(block_ref).or_default().extend(transactions)]. *)
Definition extend_entry (block_ref : BlockRef) (transactions : gset TransactionIndex)
    (m : gmap BlockRef (gset TransactionIndex)) : gmap BlockRef (gset TransactionIndex) :=
  <[block_ref := default ∅ (m !! block_ref) ∪ transactions]> m.

(** [CommitState::new]. *)
Definition CommitState_new (commit : CommittedSubDag) : run CommitState :=
  let pending_blocks : gmap BlockRef N :=
    list_to_map (reverse ((λ b, (vb_reference b, N.of_nat (length (block_transactions (vb_block b)))))
                            <$> sd_blocks commit)) in
  assert! negb (bool_decide (pending_blocks = ∅));
  Done (mk_commit_state commit pending_blocks ∅ ∅).

(** [CommitState::remove_pending_transactions]. *)
Definition remove_pending_transactions (cs : CommitState) (block_ref : BlockRef)
    (transactions : list TransactionIndex) : CommitState :=
  match cst_pending_transactions cs !! block_ref with
  | None => cs
  | Some block_pending_txns =>
      let block_pending_txns := block_pending_txns ∖ list_to_set transactions in
      mk_commit_state (cst_commit cs) (cst_pending_blocks cs)
        (if bool_decide (block_pending_txns = ∅) then delete block_ref (cst_pending_transactions cs)
         else <[block_ref := block_pending_txns]> (cst_pending_transactions cs))
        (cst_rejected_transactions cs)
  end.

Definition reject_transactions (cs : CommitState) (block_ref : BlockRef) (transactions : gset TransactionIndex)
    : CommitState :=
  mk_commit_state (cst_commit cs) (cst_pending_blocks cs) (cst_pending_transactions cs)
    (extend_entry block_ref transactions (cst_rejected_transactions cs)).

Section finalizer.
Context (ctx : Context).
Implicit Types (cf : CommitFinalizer) (st : CertifierState).
Abbreviation cm := (ctx_committee ctx).

(** ** Direct finalization *)

(** The body of the inner loop of [try_direct_finalize_commit]. *)
Definition direct_transaction (block_ref : BlockRef) (cs : CommitState) (vote : TransactionIndex * Stake)
    : CommitState :=
  let '(transaction_index, stake) := vote in
  if bool_decide (stake < c_quorum_threshold cm)
  then mk_commit_state (cst_commit cs) (cst_pending_blocks cs)
         (extend_entry block_ref {[transaction_index]} (cst_pending_transactions cs))
         (cst_rejected_transactions cs)
  else reject_transactions cs block_ref {[transaction_index]}.

(** The body of the outer loop; the counter of the metric is left out. *)
Definition direct_block st (cs : CommitState) (pending_block : BlockRef * N) : run CommitState :=
  let '(block_ref, _) := pending_block in
  reject_votes ← expect (get_reject_votes st block_ref);
  Done (foldl (direct_transaction block_ref) cs reject_votes).

(** [try_direct_finalize_commit]. *)
Definition try_direct_finalize_commit st cf (index : nat) : run CommitFinalizer :=
  commit_state ← vec_get (cf_pending_commits cf) index;
  assert! negb (bool_decide (cst_pending_blocks commit_state = ∅));
  let taken := mk_commit_state (cst_commit commit_state) ∅ (cst_pending_transactions commit_state)
                 (cst_rejected_transactions commit_state) in
  commit_state ← for_each (direct_block st) taken (map_list (cst_pending_blocks commit_state));
  pending ← vec_set (cf_pending_commits cf) index commit_state;
  Done (set_pending pending cf).

(** The loop of [process_commit] over the buffered commits. *)
Fixpoint direct_loop st cf (indices : list nat) : run CommitFinalizer :=
  match indices with
  | [] => Done cf
  | i :: indices =>
      commit_state ← vec_get (cf_pending_commits cf) i;
      if bool_decide (cst_pending_blocks commit_state = ∅) then direct_loop st cf indices
      else
        too_early ←
          (if negb (sd_local (cst_commit commit_state)) then
             last_commit_state ← expect (last (cf_pending_commits cf));
             Done (bool_decide (br_round (sd_leader (cst_commit last_commit_state)) <
                     u32_add (br_round (sd_leader (cst_commit commit_state))) DEFAULT_WAVE_LENGTH))
           else Done false);
        if (too_early : bool) then Done cf
        else cf ← try_direct_finalize_commit st cf i; direct_loop st cf indices
  end.

(** ** Linking the blocks of the last commit *)

(** [transaction_votes] of a block added to its reject votes. *)
Definition add_votes (reject_votes : gmap BlockRef (gset TransactionIndex)) (votes : BlockTransactionVotes)
    : gmap BlockRef (gset TransactionIndex) :=
  extend_entry (btv_block_ref votes) (list_to_set (btv_rejects votes)) reject_votes.

Definition add_child (block_ref : BlockRef) (blocks : gmap BlockRef BlockState) (ancestor : BlockRef)
    : gmap BlockRef BlockState :=
  match blocks !! ancestor with
  | Some ancestor_block =>
      <[ancestor := mk_block_state ({[block_ref]} ∪ bst_children ancestor_block)
                      (bst_reject_votes ancestor_block)]> blocks
  | None => blocks
  end.

(** The body of the loop of [link_blocks_in_last_commit]. *)
Definition link_block (blocks : gmap BlockRef BlockState) (block : VerifiedBlock) : gmap BlockRef BlockState :=
  let block_ref := vb_reference block in
  let block_state := default BlockState_default (blocks !! block_ref) in
  let block_state := mk_block_state (bst_children block_state)
                       (foldl add_votes (bst_reject_votes block_state) (block_transaction_votes (vb_block block))) in
  foldl (add_child block_ref) (<[block_ref := block_state]> blocks) (vb_ancestors block).

Definition blocks_by_round (commit : CommittedSubDag) : list VerifiedBlock :=
  sort_by (by_key vb_round) (sd_blocks commit).

(** [link_blocks_in_last_commit]. *)
Definition link_blocks_in_last_commit cf : run CommitFinalizer :=
  commit_state ← expect (last (cf_pending_commits cf));
  Done (set_blocks (foldl link_block (cf_blocks cf) (blocks_by_round (cst_commit commit_state))) cf).

(** The body of the loop of [inherit_reject_votes_in_last_commit]. *)
Definition inherit_votes (blocks : gmap BlockRef BlockState) (block : VerifiedBlock)
    : run (gmap BlockRef BlockState) :=
  match head (vb_ancestors block) with
  | None => Done blocks
  | Some own_ancestor =>
      if bool_decide (br_author own_ancestor ≠ vb_author block) then Done blocks
      else
        match bst_reject_votes <$> blocks !! own_ancestor with
        | None => Done blocks
        | Some own_ancestor_rejects =>
            if bool_decide (own_ancestor_rejects = ∅) then Done blocks
            else
              block_state ← expect (blocks !! vb_reference block);
              Done (<[vb_reference block :=
                        mk_block_state (bst_children block_state)
                          (foldl (λ m '(block_ref, reject_votes), extend_entry block_ref reject_votes m)
                             (bst_reject_votes block_state) (map_list own_ancestor_rejects))]> blocks)
        end
  end.

(** [inherit_reject_votes_in_last_commit]. *)
Definition inherit_reject_votes_in_last_commit cf : run CommitFinalizer :=
  commit_state ← expect (last (cf_pending_commits cf));
  blocks ← for_each inherit_votes (cf_blocks cf) (blocks_by_round (cst_commit commit_state));
  Done (set_blocks blocks cf).

(** ** Indirect finalization *)

(** The first loop of [check_pending_transactions_in_first_commit]. *)
Definition collect_rejected st (all_rejected : list (BlockRef * list TransactionIndex))
    (pending : BlockRef * gset TransactionIndex) : run (list (BlockRef * list TransactionIndex)) :=
  let '(block_ref, pending_transactions) := pending in
  votes ← expect (get_reject_votes st block_ref);
  let reject_votes : gmap TransactionIndex Stake := list_to_map (reverse votes) in
  rejected_transactions ← for_each (λ rejected transaction_index,
      reject_stake ← expect (reject_votes !! transaction_index);
      if bool_decide (reject_stake < c_quorum_threshold cm) then Done rejected
      else Done (rejected ++ [transaction_index])) [] (set_list pending_transactions);
  Done (if bool_decide (rejected_transactions = []) then all_rejected
        else all_rejected ++ [(block_ref, rejected_transactions)]).

(** [self.pending_commits[0]] and its update. *)
Definition first_commit cf : run CommitState := vec_get (cf_pending_commits cf) 0.
Definition update_first (f : CommitState → CommitState) cf : run CommitFinalizer :=
  commit_state ← first_commit cf;
  pending ← vec_set (cf_pending_commits cf) 0 (f commit_state);
  Done (set_pending pending cf).

(** [check_pending_transactions_in_first_commit]. *)
Definition check_pending_transactions_in_first_commit st cf : run CommitFinalizer :=
  commit_state ← first_commit cf;
  all_rejected ← for_each (collect_rejected st) [] (map_list (cst_pending_transactions commit_state));
  for_each (λ cf '(block_ref, rejected_transactions),
      update_first (λ cs,
          reject_transactions (remove_pending_transactions cs block_ref rejected_transactions)
            block_ref (list_to_set rejected_transactions)) cf) cf all_rejected.

(** The loop of [try_indirect_finalize_pending_transactions_in_block] over the
    transactions without a quorum of accept votes yet. *)
Definition count_accept (author : AuthorityIndex) (rejected : gset TransactionIndex)
    (acc : gmap TransactionIndex (StakeAggregator QuorumThreshold) * list TransactionIndex)
    (entry : TransactionIndex * StakeAggregator QuorumThreshold)
    : run (gmap TransactionIndex (StakeAggregator QuorumThreshold) * list TransactionIndex) :=
  let '(accept_votes, newly_finalized) := acc in
  let '(index, stake) := entry in
  if bool_decide (index ∈ rejected) then Done acc
  else
    '(stake, reached) ← StakeAggregator_add stake author cm;
    let accept_votes := <[index := stake]> accept_votes in
    Done (accept_votes, if (reached : bool) then newly_finalized ++ [index] else newly_finalized).

(** The traversal of the descendants; every turn visits another block. *)
Fixpoint accept_loop (fuel : nat) (blocks : gmap BlockRef BlockState) (pending_block_ref : BlockRef)
    (accept_votes : gmap TransactionIndex (StakeAggregator QuorumThreshold))
    (finalized_transactions : list TransactionIndex) (to_visit_blocks visited : gset BlockRef)
    : run (list TransactionIndex) :=
  match set_first to_visit_blocks with
  | None => Done finalized_transactions
  | Some curr_block_ref =>
      let to_visit_blocks := to_visit_blocks ∖ {[curr_block_ref]} in
      match fuel with
      | O => NoFuel
      | Datatypes.S fuel =>
          if bool_decide (curr_block_ref ∈ visited)
          then accept_loop fuel blocks pending_block_ref accept_votes finalized_transactions to_visit_blocks visited
          else
            let visited := {[curr_block_ref]} ∪ visited in
            curr_block_state ← expect (blocks !! curr_block_ref);
            let curr_block_reject_votes := default ∅ (bst_reject_votes curr_block_state !! pending_block_ref) in
            '(accept_votes, newly_finalized) ←
              for_each (count_accept (br_author curr_block_ref) curr_block_reject_votes)
                (accept_votes, []) (map_list accept_votes);
            let finalized_transactions := finalized_transactions ++ newly_finalized in
            let accept_votes := foldl (λ m index, delete index m) accept_votes newly_finalized in
            if bool_decide (accept_votes = ∅) then Done finalized_transactions
            else accept_loop fuel blocks pending_block_ref accept_votes finalized_transactions
                   (to_visit_blocks ∪ filter (λ b, b ∉ visited) (bst_children curr_block_state)) visited
      end
  end.

(** [try_indirect_finalize_pending_transactions_in_block]. *)
Definition try_indirect_finalize_pending_transactions_in_block cf (pending_block_ref : BlockRef)
    (pending_transactions : gset TransactionIndex) : run (list TransactionIndex) :=
  if bool_decide (pending_transactions = ∅) then Done []
  else
    let accept_votes := gset_to_gmap (StakeAggregator_new : StakeAggregator QuorumThreshold) pending_transactions in
    block_state ← expect (cf_blocks cf !! pending_block_ref);
    accept_loop (size (cf_blocks cf)) (cf_blocks cf) pending_block_ref accept_votes []
      (bst_children block_state) ∅.

(** [try_indirect_finalize_pending_transactions_in_first_commit]. *)
Definition try_indirect_finalize_pending_transactions_in_first_commit cf : run CommitFinalizer :=
  commit_state ← first_commit cf;
  all_finalized ← for_each (λ all_finalized '(block_ref, pending_transactions),
      finalized_transactions ←
        try_indirect_finalize_pending_transactions_in_block cf block_ref pending_transactions;
      Done (if bool_decide (finalized_transactions = []) then all_finalized
            else all_finalized ++ [(block_ref, finalized_transactions)]))
    [] (map_list (cst_pending_transactions commit_state));
  for_each (λ cf '(block_ref, finalized_transactions),
      update_first (λ cs, remove_pending_transactions cs block_ref finalized_transactions) cf) cf all_finalized.

(** [try_indirect_reject_pending_transactions_in_first_commit]. *)
Definition try_indirect_reject_pending_transactions_in_first_commit cf : run CommitFinalizer :=
  curr_commit_state ← first_commit cf;
  last_commit_state ← expect (last (cf_pending_commits cf));
  if bool_decide (u32_add (br_round (sd_leader (cst_commit curr_commit_state))) INDIRECT_REJECT_DEPTH
                    ≤ br_round (sd_leader (cst_commit last_commit_state)))
  then
    assert! bool_decide (cst_pending_blocks curr_commit_state = ∅);
    update_first (λ cs,
        foldl (λ cs '(block_ref, transactions), reject_transactions cs block_ref transactions)
          (mk_commit_state (cst_commit cs) (cst_pending_blocks cs) ∅ (cst_rejected_transactions cs))
          (map_list (cst_pending_transactions cs))) cf
  else Done cf.

(** [try_indirect_finalize_first_commit]. *)
Definition try_indirect_finalize_first_commit st cf : run CommitFinalizer :=
  assert! negb (bool_decide (length (cf_pending_commits cf) = O));
  commit_state ← first_commit cf;
  assert! bool_decide (cst_pending_blocks commit_state = ∅);
  cf ← check_pending_transactions_in_first_commit st cf;
  cf ← try_indirect_finalize_pending_transactions_in_first_commit cf;
  try_indirect_reject_pending_transactions_in_first_commit cf.

(** ** Output *)

(** [pop_finalized_commits]: a finalized commit with its rejected
    transactions, in the order of the buffer. *)
Definition finalized_commit (commit_state : CommitState) : CommittedSubDag :=
  let commit := cst_commit commit_state in
  mk_subdag (sd_leader commit) (sd_blocks commit) (sd_timestamp_ms commit) (sd_commit_ref commit)
    (sd_local commit) (sd_reputation_scores_desc commit)
    (foldl (λ m '(block_ref, rejected_transactions), <[block_ref := set_list rejected_transactions]> m)
       (sd_rejected_transactions_by_block commit) (map_list (cst_rejected_transactions commit_state))).

Fixpoint pop_loop (pending : list CommitState) (blocks : gmap BlockRef BlockState)
    : list CommitState * gmap BlockRef BlockState * list CommittedSubDag :=
  match pending with
  | [] => ([], blocks, [])
  | commit_state :: rest =>
      if negb (bool_decide (cst_pending_blocks commit_state = ∅))
         || negb (bool_decide (cst_pending_transactions commit_state = ∅))
      then (pending, blocks, [])
      else
        let blocks := foldl (λ m block, delete (vb_reference block) m) blocks (sd_blocks (cst_commit commit_state)) in
        let '(pending, blocks, finalized_commits) := pop_loop rest blocks in
        (pending, blocks, finalized_commit commit_state :: finalized_commits)
  end.
Definition pop_finalized_commits cf : CommitFinalizer * list CommittedSubDag :=
  let '(pending, blocks, finalized_commits) := pop_loop (cf_pending_commits cf) (cf_blocks cf) in
  (mk_finalizer (cf_last_processed_commit cf) pending blocks, finalized_commits).

(** The loop of indirect finalization; every turn but the last outputs a commit. *)
Fixpoint indirect_loop (fuel : nat) st cf (finalized_commits : list CommittedSubDag)
    : run (CommitFinalizer * list CommittedSubDag) :=
  if bool_decide (1 < length (cf_pending_commits cf))%nat then
    match fuel with
    | O => NoFuel
    | Datatypes.S fuel =>
        commit_state ← first_commit cf;
        if negb (bool_decide (cst_pending_blocks commit_state = ∅)) then Done (cf, finalized_commits)
        else
          cf ← try_indirect_finalize_first_commit st cf;
          let '(cf, indirect_finalized_commits) := pop_finalized_commits cf in
          if bool_decide (length indirect_finalized_commits = O) then Done (cf, finalized_commits)
          else indirect_loop fuel st cf (finalized_commits ++ indirect_finalized_commits)
    end
  else Done (cf, finalized_commits).

(** [process_commit] up to the garbage collection of the certifier. *)
Definition finalize_commits st cf (committed_sub_dag : CommittedSubDag)
    : run (CommitFinalizer * list CommittedSubDag) :=
  assert! match cf_last_processed_commit cf with
          | Some last_processed_commit =>
              bool_decide (u32_add last_processed_commit 1 = cr_index (sd_commit_ref committed_sub_dag))
          | None => true
          end;
  commit_state ← CommitState_new committed_sub_dag;
  let cf := mk_finalizer (Some (cr_index (sd_commit_ref committed_sub_dag)))
              (cf_pending_commits cf ++ [commit_state]) (cf_blocks cf) in
  cf ← direct_loop st cf (seq 0 (length (cf_pending_commits cf)));
  let '(cf, finalized_commits) := pop_finalized_commits cf in
  if bool_decide (length (cf_pending_commits cf) = O) then Done (cf, finalized_commits)
  else
    cf ← link_blocks_in_last_commit cf;
    cf ← inherit_reject_votes_in_last_commit cf;
    indirect_loop (length (cf_pending_commits cf)) st cf finalized_commits.

Section with_dag.
Context {S : Type} `{Store S}.

(** [process_commit]. *)
Definition process_commit (d : DagState S) st cf (committed_sub_dag : CommittedSubDag)
    : run (CommitFinalizer * CertifierState * list CommittedSubDag) :=
  '(cf, finalized_commits) ← finalize_commits st cf committed_sub_dag;
  match last finalized_commits with
  | Some last_commit =>
      st ← run_gc ctx d st (calculate_gc_round ctx (br_round (sd_leader last_commit)));
      Done (cf, st, finalized_commits)
  | None => Done (cf, st, finalized_commits)
  end.

(** A turn of the loop of [run]: the commits sent to the commit handler, after
    the DAG state is flushed. *)
Definition run_finalizer (d : DagState S) st cf (committed_sub_dag : CommittedSubDag)
    : run (DagState S * CommitFinalizer * CertifierState * list CommittedSubDag) :=
  '(cf, st, finalized_commits) ←
    (if pc_mysticeti_fastpath (ctx_protocol_config ctx)
     then process_commit d st cf committed_sub_dag
     else Done (cf, st, [committed_sub_dag]));
  d ← (if bool_decide (length finalized_commits = O) then Done d else flush ctx d);
  Done (d, cf, st, finalized_commits).
End with_dag.
End finalizer.
