(* ===== verification/FinalizerRule.v ===== *)
(** * The finalization rule

    When a transaction of a committed block counts as finalized or rejected,
    stated on the sequence of commits and the blocks of the DAG only, and why
    the evidence one node can have for a finalization excludes the evidence any
    other node can have for a rejection. *)
From S2P Require Import Prelude Committee StakeAggregator Block ThresholdClock Commit LeaderScoring Store DagState DagStateProofs DagTraversal LeaderSchedule BaseCommitter CommitRule DagViews TransactionCertifier CertifierProofs CommitFinalizer.

Definition sd_round (c : CommittedSubDag) : Round := br_round (sd_leader c).
Definition commit_refs (c : CommittedSubDag) : list BlockRef := vb_reference <$> sd_blocks c.
Definition stream_refs (cs : list CommittedSubDag) : list BlockRef := cs ≫= commit_refs.

Section rule.
Context (ctx : Context) (G : BlockRef → option VerifiedBlock) (byz : gset AuthorityIndex).
Context (HU : universe_ok (ctx_committee ctx) G byz).
Implicit Types (cs : list CommittedSubDag) (B r a : BlockRef) (idx : TransactionIndex) (c : CommittedSubDag).
Abbreviation cm := (ctx_committee ctx).

(** ** Sequences of commits *)

(** The GC round when a commit is made: that of the commit before it. *)
Definition gc_at cs (i : nat) : Round :=
  match i with
  | O => 0
  | Datatypes.S j => match cs !! j with Some c => calculate_gc_round ctx (sd_round c) | None => 0 end
  end.

(** [r] is a committed block that includes [a]. *)
Definition child cs a r : Prop := r ∈ stream_refs cs ∧ ∃ b, G r = Some b ∧ a ∈ vb_ancestors b.

(** What the linearizer makes of the committed leaders. *)
Record stream_ok cs : Prop := {
  st_blocks i c b : cs !! i = Some c → b ∈ sd_blocks c → G (vb_reference b) = Some b;
  st_leader i c : cs !! i = Some c → sd_leader c ∈ commit_refs c;
  st_linked i c r : cs !! i = Some c → r ∈ commit_refs c → rtc (child [c]) r (sd_leader c);
  st_nodup : NoDup (stream_refs cs);
  st_gc i c b : cs !! i = Some c → b ∈ sd_blocks c → gc_at cs i < vb_round b;
  st_closed i c b a : cs !! i = Some c → b ∈ sd_blocks c → a ∈ vb_ancestors b → gc_at cs i < br_round a →
    a ∈ stream_refs (take (Datatypes.S i) cs);
  st_rounds i j c c' : cs !! i = Some c → cs !! j = Some c' → (i < j)%nat → sd_round c < sd_round c';
  st_bound i c : cs !! i = Some c → sd_round c + 3 ≤ u32_max;
  st_index i j c c' : cs !! i = Some c → cs !! j = Some c' → j = Datatypes.S i →
    cr_index (sd_commit_ref c') = cr_index (sd_commit_ref c) + 1 ∧ cr_index (sd_commit_ref c') ≤ u32_max;
  st_fresh i c : cs !! i = Some c → sd_rejected_transactions_by_block c = ∅;
}.

Lemma elem_of_stream cs r : r ∈ stream_refs cs ↔ ∃ i c, cs !! i = Some c ∧ r ∈ commit_refs c.
Proof.
  clear. unfold stream_refs. rewrite list_elem_of_bind. split.
  - intros (c & Hr & [i Hi]%list_elem_of_lookup). eauto.
  - intros (i & c & Hi & Hr). exists c. split; [done|]. by apply list_elem_of_lookup_2 in Hi.
Qed.

Lemma elem_of_commit c r : r ∈ commit_refs c ↔ ∃ b, b ∈ sd_blocks c ∧ r = vb_reference b.
Proof. clear. unfold commit_refs. rewrite list_elem_of_fmap. naive_solver. Qed.

Lemma stream_refs_prefix cs cs' r : cs `prefix_of` cs' → r ∈ stream_refs cs → r ∈ stream_refs cs'.
Proof. clear. intros [l ->]. unfold stream_refs. rewrite bind_app, elem_of_app. by left. Qed.

(** A commit of the sequence is determined by any of its blocks. *)
Lemma commit_unique cs i j c c' r : stream_ok cs → cs !! i = Some c → cs !! j = Some c' →
  r ∈ commit_refs c → r ∈ commit_refs c' → i = j.
Proof.
  clear HU. intros Hok Hi Hj Hr Hr'.
  assert (Hlt : ∀ i j c c', (i < j)%nat → cs !! i = Some c → cs !! j = Some c' → r ∈ commit_refs c →
            r ∈ commit_refs c' → False).
  { clear i j c c' Hi Hj Hr Hr'. intros i j c c' Hlt Hi Hj Hr Hr'.
    pose proof (st_nodup _ Hok) as Hn. unfold stream_refs in Hn. rewrite <-(take_drop j cs), bind_app in Hn.
    apply NoDup_app in Hn as (_ & Hdis & _). apply (Hdis r).
    - apply list_elem_of_bind. exists c. split; [done|]. apply (list_elem_of_lookup_2 _ i). by rewrite lookup_take_lt.
    - apply list_elem_of_bind. exists c'. split; [done|]. apply (list_elem_of_lookup_2 _ O).
      by rewrite lookup_drop, Nat.add_0_r. }
  destruct (Nat.lt_trichotomy i j) as [?|[?|?]]; [exfalso; eauto|done|exfalso; eauto].
Qed.

Lemma gc_at_mono cs i j c : stream_ok cs → (i ≤ j)%nat → cs !! j = Some c → gc_at cs i ≤ gc_at cs j.
Proof.
  clear HU. intros Hok Hij Hj. destruct i as [|i]; [cbn; lia|]. destruct j as [|j]; [lia|]. cbn.
  apply lookup_lt_Some in Hj. destruct (lookup_lt_is_Some_2 cs i ltac:(lia)) as [ci Hi].
  destruct (lookup_lt_is_Some_2 cs j ltac:(lia)) as [cj Hcj]. rewrite Hi, Hcj.
  unfold calculate_gc_round, saturating_sub. destruct (decide (i = j)) as [->|Hne]; [simplify_eq; lia|].
  pose proof (st_rounds _ Hok i j ci cj Hi Hcj ltac:(lia)). lia.
Qed.

(** An ancestor of a committed block is never committed later. *)
Lemma ancestor_order cs i j c c' b a : stream_ok cs → cs !! i = Some c → cs !! j = Some c' →
  b ∈ sd_blocks c → a ∈ vb_ancestors b → a ∈ commit_refs c' → (j ≤ i)%nat.
Proof.
  clear HU. intros Hok Hi Hj Hb Ha Hac. destruct (decide (j ≤ i)%nat) as [|Hlt]; [done|exfalso].
  pose proof (gc_at_mono cs i j c' Hok ltac:(lia) Hj) as Hgc.
  apply elem_of_commit in Hac as Hac'. destruct Hac' as (ba & Hba & Haeq).
  pose proof (st_gc _ Hok j c' ba Hj Hba) as Hround.
  assert (Hin : a ∈ stream_refs (take (Datatypes.S i) cs)).
  { apply (st_closed _ Hok i c b); [done..|]. rewrite Haeq. change (br_round (vb_reference ba)) with (vb_round ba). lia. }
  apply elem_of_stream in Hin as (k & ck & Hk & Hka). apply lookup_take_Some in Hk as [Hk Hklt].
  pose proof (commit_unique cs k j ck c' a Hok Hk Hj Hka Hac). lia.
Qed.

Lemma prefix_stream cs cs' i c : cs `prefix_of` cs' → cs !! i = Some c → cs' !! i = Some c.
Proof. clear. intros [l ->] Hi. by apply lookup_app_l_Some. Qed.

Lemma stream_ok_prefix cs cs' : stream_ok cs' → cs `prefix_of` cs' → stream_ok cs.
Proof.
  clear HU. intros Hok Hp. pose proof (λ i c, prefix_stream cs cs' i c Hp) as Hlk.
  assert (Hgc : ∀ i c, cs !! i = Some c → gc_at cs' i = gc_at cs i).
  { intros [|i] c Hi; [done|]. cbn. apply lookup_lt_Some in Hi. destruct (lookup_lt_is_Some_2 cs i ltac:(lia)) as [x Hx].
    by rewrite Hx, (Hlk _ _ Hx). }
  split.
  - intros i c b Hi. by apply (st_blocks _ Hok i), Hlk.
  - intros i c Hi. by apply (st_leader _ Hok i), Hlk.
  - intros i c r Hi. by apply (st_linked _ Hok i), Hlk.
  - destruct Hp as [l ->]. pose proof (st_nodup _ Hok) as Hn. unfold stream_refs in Hn. rewrite bind_app in Hn.
    by apply NoDup_app in Hn as [? _].
  - intros i c b Hi Hb. rewrite <-(Hgc i c Hi). by apply (st_gc _ Hok i c b (Hlk _ _ Hi)).
  - intros i c b a Hi Hb Ha. rewrite <-(Hgc i c Hi). intros Hr.
    pose proof (st_closed _ Hok i c b a (Hlk _ _ Hi) Hb Ha Hr) as Hin.
    destruct Hp as [l ->]. rewrite take_app_le in Hin; [done|]. apply lookup_lt_Some in Hi. lia.
  - intros i j c c' Hi Hj. apply (st_rounds _ Hok i j); by apply Hlk.
  - intros i c Hi. by apply (st_bound _ Hok i), Hlk.
  - intros i j c c' Hi Hj. apply (st_index _ Hok i j); by apply Hlk.
  - intros i c Hi. by apply (st_fresh _ Hok i), Hlk.
Qed.

(** ** Votes *)

(** [r] links [B]: there is a path of ancestors from [r] to [B]. *)
Definition includes r a : Prop := ∃ b, G r = Some b ∧ a ∈ vb_ancestors b.
Definition links : BlockRef → BlockRef → Prop := tc includes.

(** The ancestor of the same author, which a block lists first. *)
Definition own_step r a : Prop :=
  ∃ b, G r = Some b ∧ head (vb_ancestors b) = Some a ∧ br_author a = vb_author b.

(** A block rejects with its own votes and those of its committed own ancestors. *)
Inductive rejecting cs B idx : BlockRef → Prop :=
| rejecting_own r b : G r = Some b → rejects b B idx → rejecting cs B idx r
| rejecting_inherit r a : own_step r a → a ∈ stream_refs cs → rejecting cs B idx a → rejecting cs B idx r.

(** A quorum of authorities has committed descendants of [B] that do not reject. *)
Definition descends cs B r : Prop := tc (child cs) B r.
Definition quorum_accepts cs B idx : Prop := ∃ A : gset AuthorityIndex,
  c_quorum_threshold cm ≤ set_stake cm A ∧
  ∀ h, h ∈ A → ∃ r, br_author r = h ∧ descends cs B r ∧ ¬ rejecting cs B idx r.
Definition quorum_rejects B idx : Prop := ∃ R : gset AuthorityIndex,
  c_quorum_threshold cm ≤ set_stake cm R ∧
  ∀ h, h ∈ R → ∃ r b, G r = Some b ∧ br_author r = h ∧ rejects b B idx.

(** Votes are cast on linked blocks only; an honest authority votes on a block
    in its first block that links it. *)
Definition votes_linked : Prop := ∀ r b B idx, G r = Some b → rejects b B idx → links r B.
Definition votes_first : Prop := ∀ r b r' B idx, G r = Some b → rejects b B idx → links r' B →
  br_author r = br_author r' → br_author r ∉ byz → rtc own_step r' r.

Lemma includes_round r a : includes r a → br_round a < br_round r.
Proof using HU.
  intros (b & Hb & Ha). rewrite <-(u_reference _ _ _ HU _ _ Hb). by apply (wf_rounds _ _ (u_wf _ _ _ HU _ _ Hb)).
Qed.

Lemma links_round r B : links r B → br_round B < br_round r.
Proof using HU.
  unfold links. induction 1 as [r a H|r a B H _ IH]; pose proof (includes_round _ _ H); lia.
Qed.

Lemma own_step_includes r a : own_step r a → includes r a.
Proof.
  clear. intros (b & Hb & Ha & _). exists b. split; [done|]. destruct (vb_ancestors b); [done|]. injection Ha as ->. by left.
Qed.

Lemma own_chain_round r a : rtc own_step r a → br_round a ≤ br_round r.
Proof using HU.
  induction 1 as [|r a x H _ IH]; [lia|]. pose proof (includes_round _ _ (own_step_includes _ _ H)). lia.
Qed.

Lemma own_step_author r a : own_step r a → br_author a = br_author r.
Proof using HU.
  intros (b & Hb & _ & Hau). pose proof (u_reference _ _ _ HU _ _ Hb) as <-. exact Hau.
Qed.

Lemma child_prefix cs cs' a r : (∀ x, x ∈ stream_refs cs → x ∈ stream_refs cs') → child cs a r → child cs' a r.
Proof. clear. intros Hsub [Hr Hinc]. split; [by apply Hsub|done]. Qed.

Lemma descends_mono cs cs' B r : (∀ x, x ∈ stream_refs cs → x ∈ stream_refs cs') → descends cs B r → descends cs' B r.
Proof.
  clear. intros Hsub. unfold descends.
  induction 1 as [x y H|x y z H _ IH]; [by apply tc_once, (child_prefix cs)|].
  eapply tc_l; [by apply (child_prefix cs)|done].
Qed.

Lemma descends_links cs B r : descends cs B r → links r B ∧ r ∈ stream_refs cs.
Proof.
  clear. unfold descends, links. induction 1 as [x y [Hy Hinc]|x y z [Hy Hinc] _ [IH Hz]].
  - split; [by apply tc_once|done].
  - split; [|done]. eapply tc_r; [exact IH|exact Hinc].
Qed.

(** A path of committed blocks starts at the commit of [B] or later. *)
Lemma links_order cs i j c c' r B : stream_ok cs → cs !! i = Some c → r ∈ commit_refs c →
  cs !! j = Some c' → B ∈ commit_refs c' → links r B → (j ≤ i)%nat.
Proof using HU.
  intros Hok Hi Hr Hj HB Hl. destruct (decide (j ≤ i)%nat) as [|Hlt]; [done|exfalso].
  apply elem_of_commit in HB as HB'. destruct HB' as (bB & HbB & HBeq).
  pose proof (st_gc _ Hok j c' bB Hj HbB) as Hgc. change (vb_round bB) with (br_round (vb_reference bB)) in Hgc.
  rewrite <-HBeq in Hgc.
  assert (Hstep : ∀ i c r a, (i < j)%nat → cs !! i = Some c → r ∈ commit_refs c → includes r a → br_round B ≤ br_round a →
            ∃ i' c', (i' < j)%nat ∧ cs !! i' = Some c' ∧ a ∈ commit_refs c').
  { clear i c r Hi Hr Hl Hlt. intros i c r a Hlt Hi Hr (b & Hb & Ha) Hle.
    pose proof (gc_at_mono cs i j c' Hok ltac:(lia) Hj).
    apply elem_of_commit in Hr as (b' & Hb' & ->). pose proof (st_blocks _ Hok i c b' Hi Hb') as HG.
    rewrite Hb in HG. injection HG as ->.
    pose proof (st_closed _ Hok i c b' a Hi Hb' Ha ltac:(lia)) as Hin.
    apply elem_of_stream in Hin as (k & ck & [Hk ?]%lookup_take_Some & Hka). exists k, ck. split_and!; [lia|done..]. }
  assert (Hend : ∃ i' c2, (i' < j)%nat ∧ cs !! i' = Some c2 ∧ B ∈ commit_refs c2).
  { assert (Hij : (i < j)%nat) by lia. clear Hlt. revert i c Hi Hr Hij. unfold links in Hl.
    induction Hl as [r a Hinc|r a z Hinc Hrest IH]; intros i c Hi Hr Hij.
    - by apply (Hstep i c r a).
    - destruct (Hstep i c r a Hij Hi Hr Hinc) as (i' & c2 & ? & ? & ?); [pose proof (links_round _ _ Hrest); lia|].
      by apply (IH HB HBeq Hgc Hstep i' c2). }
  destruct Hend as (i' & c2 & ? & Hi' & HB'). pose proof (commit_unique cs i' j c2 c' B Hok Hi' Hj HB' HB). lia.
Qed.

(** Within a sequence, a rejecting own ancestor of a block of a prefix is in the prefix. *)
Lemma rejecting_prefix cs cs' B idx r : stream_ok cs' → cs `prefix_of` cs' → r ∈ stream_refs cs →
  rejecting cs' B idx r → rejecting cs B idx r.
Proof using HU.
  intros Hok Hp Hr Hrej. induction Hrej as [r b Hb Hrj|r a Hstep Ha _ IH]; [by eapply rejecting_own|].
  assert (Hin : a ∈ stream_refs cs); [|by eapply rejecting_inherit; [exact Hstep|exact Hin|apply IH]].
  apply elem_of_stream in Hr as (i & c & Hi & Hr). apply elem_of_stream in Ha as (j & c' & Hj & Ha).
  assert ((j ≤ i)%nat).
  { apply (links_order cs' i j c c' r a Hok (prefix_stream _ _ _ _ Hp Hi) Hr Hj Ha), tc_once, own_step_includes, Hstep. }
  apply lookup_lt_Some in Hi as Hlt. destruct (lookup_lt_is_Some_2 cs j ltac:(lia)) as [x Hx].
  pose proof (prefix_stream _ _ _ _ Hp Hx). simplify_eq. apply elem_of_stream. eauto.
Qed.

Lemma rejecting_mono cs cs' B idx r : (∀ x, x ∈ stream_refs cs → x ∈ stream_refs cs') →
  rejecting cs B idx r → rejecting cs' B idx r.
Proof. clear. intros Hsub. induction 1; [by eapply rejecting_own|eapply rejecting_inherit; eauto]. Qed.

(** ** Evidence *)

(** [K] is the first commit whose leader is a wave above the leader of [k]. *)
Record horizon cs (k K : nat) : Prop := {
  hz_reached : ∃ c c', cs !! k = Some c ∧ cs !! K = Some c' ∧ sd_round c + 3 ≤ sd_round c';
  hz_first j c cj : cs !! k = Some c → cs !! j = Some cj → (j < K)%nat → sd_round cj < sd_round c + 3;
}.

Definition leader_certificate cs (k : nat) r : Prop :=
  ∃ c C, cs !! k = Some c ∧ G r = Some C ∧ certificate cm G (sd_leader c) C.

(** A part [D] of the DAG with a certificate of the leader that stays with the
    commits: whatever is committed next, the commits up to the horizon contain
    a certificate of [D]. *)
Record certified_in cs (k : nat) (D : BlockRef → Prop) : Prop := {
  ce_closed r a : D r → includes r a → D a;
  ce_certificate : ∃ r, D r ∧ leader_certificate cs k r;
  ce_future cs' K : stream_ok cs' → cs `prefix_of` cs' → horizon cs' k K →
    ∃ r, D r ∧ leader_certificate cs' k r ∧ r ∈ stream_refs (take (Datatypes.S K) cs');
}.

Definition silent (D : BlockRef → Prop) B idx : Prop := ∀ r b, D r → G r = Some b → ¬ rejects b B idx.

Definition finalized_by cs k B idx : Prop :=
  (∃ D, certified_in cs k D ∧ silent D B idx) ∨
  (∃ c, cs !! k = Some c ∧ (∀ j cj, cs !! j = Some cj → (Datatypes.S j < length cs)%nat → sd_round cj < sd_round c + 3) ∧
        quorum_accepts cs B idx).

Definition rejected_by cs k B idx : Prop :=
  quorum_rejects B idx ∨ ∃ K, horizon cs k K ∧ ¬ quorum_accepts (take (Datatypes.S K) cs) B idx.

(** A block of a commit, and what includes the leader of the commit. *)
Lemma leader_descends cs k c B r : stream_ok cs → cs !! k = Some c → B ∈ commit_refs c →
  child cs (sd_leader c) r → descends cs B r.
Proof.
  clear HU. intros Hok Hk HB Hr. pose proof (st_linked _ Hok k c B Hk HB) as Hpath.
  assert (Hsub : ∀ x, x ∈ stream_refs [c] → x ∈ stream_refs cs).
  { intros x. unfold stream_refs at 1. csimpl. rewrite app_nil_r. intros Hx. apply elem_of_stream. eauto. }
  clear HB. unfold descends. induction Hpath as [x|x y z Hxy _ IH]; [by apply tc_once|].
  eapply tc_l; [by eapply child_prefix|]. by apply IH.
Qed.

(** The own chain of a block that links [B], within a part of the DAG. *)
Lemma own_chain_closed (D : BlockRef → Prop) r a : (∀ r a, D r → includes r a → D a) → D r → rtc own_step r a → D a.
Proof.
  clear. intros Hc Hr. induction 1 as [|r x a H _ IH]; [done|]. apply IH, (Hc r); [done|]. by apply own_step_includes.
Qed.

Lemma silent_not_rejecting cs (D : BlockRef → Prop) B idx r : (∀ r a, D r → includes r a → D a) → silent D B idx → D r →
  ¬ rejecting cs B idx r.
Proof.
  clear. intros Hc Hs Hr Hrej. induction Hrej as [r b Hb Hrj|r a Hstep _ _ IH]; [by apply (Hs r b)|].
  apply IH, (Hc r); [done|]. by apply own_step_includes.
Qed.

(** A vote for the leader links the blocks of its commit. *)
Lemma vote_links cs k c B r : stream_ok cs → cs !! k = Some c → B ∈ commit_refs c →
  includes r (sd_leader c) → links r B.
Proof.
  clear HU. intros Hok Hk HB Hr. pose proof (st_linked _ Hok k c B Hk HB) as Hpath. clear HB.
  unfold links. induction Hpath as [x|x y z [Hy Hxy] _ IH]; [by apply tc_once|].
  eapply tc_r; [by apply IH|exact Hxy].
Qed.

Lemma certificate_voters L r C : G r = Some C → certificate cm G L C →
  ∀ h, h ∈ voters G L C → ∃ a, includes r a ∧ br_author a = h ∧ includes a L ∧ br_round a = br_round L + 1.
Proof using HU.
  intros Hr [Hround _] h Hh. apply elem_of_voters in Hh as (a & b & Ha & Hau & Hb & HL).
  exists a. split_and!; [by exists C|done|by exists b|].
  by apply (voter_round cm G byz HU L C a b (u_wf _ _ _ HU _ _ Hr) Hround Ha Hb HL).
Qed.

(** Evidence on the same prefix or an extension of it excludes each other. *)
Lemma direct_excludes_quorum cs k c B idx D : stream_ok cs → cs !! k = Some c → B ∈ commit_refs c →
  votes_first → certified_in cs k D → silent D B idx → ¬ quorum_rejects B idx.
Proof using HU.
  intros Hok Hk HB Hfirst HD Hs (R & HR & Hrej).
  destruct (ce_certificate _ _ _ HD) as (rC & HDC & c' & C & Hk' & HC & Hcert). simplify_eq.
  destruct (quorums_honest cm G byz HU _ R (proj2 Hcert) HR) as (h & HhV & HhR & Hh).
  destruct (certificate_voters (sd_leader c) rC C HC Hcert h HhV) as (v & HvC & Hvh & HvL & _).
  destruct (Hrej h HhR) as (r & b & Hr & Hrh & Hrb).
  apply (Hs r b); [|done..]. apply (own_chain_closed D v r (ce_closed _ _ _ HD)); [by apply (ce_closed _ _ _ HD rC)|].
  apply (Hfirst r b v B idx); [done..|by apply (vote_links cs k c)|congruence|congruence].
Qed.

Lemma direct_excludes_indirect cs cs' k c K B idx D : stream_ok cs' → cs `prefix_of` cs' → cs' !! k = Some c →
  B ∈ commit_refs c → 2 ≤ pc_gc_depth (ctx_protocol_config ctx) →
  certified_in cs k D → silent D B idx → horizon cs' k K → quorum_accepts (take (Datatypes.S K) cs') B idx.
Proof using HU.
  intros Hok Hp Hk HB Hdepth HD Hs Hhz.
  destruct (ce_future _ _ _ HD cs' K Hok Hp Hhz) as (rC & HDC & (c' & C & Hk' & HC & Hcert) & Hin). simplify_eq.
  assert (Hok' : stream_ok (take (Datatypes.S K) cs')) by (eapply stream_ok_prefix; [exact Hok|apply prefix_take]).
  assert (Hk2 : take (Datatypes.S K) cs' !! k = Some c).
  { rewrite lookup_take_lt; [done|]. destruct (hz_reached _ _ _ Hhz) as (x & y & Hx & Hy & Hle). simplify_eq.
    destruct (decide (k < Datatypes.S K)%nat) as [|Hn]; [done|].
    pose proof (st_rounds _ Hok K k y c Hy Hk ltac:(lia)). lia. }
  exists (voters G (sd_leader c) C). split; [apply Hcert|]. intros h Hh.
  destruct (certificate_voters (sd_leader c) rC C HC Hcert h Hh) as (v & HvC & Hvh & HvL & Hround).
  exists v. split; [done|]. split.
  - apply (leader_descends _ k c B v Hok' Hk2 HB). split; [|exact HvL].
    apply elem_of_stream in Hin as (i & ci & Hi & HiC). apply elem_of_commit in HiC as (b & Hb & ->).
    pose proof (st_blocks _ Hok' i ci b Hi Hb). simplify_eq.
    eapply stream_refs_prefix; [apply prefix_take|]. destruct HvC as (C' & HC' & Hv). simplify_eq.
    apply (st_closed _ Hok' i ci C v Hi Hb Hv). rewrite Hround.
    destruct i as [|i]; [cbn; lia|]. cbn. apply lookup_take_Some in Hi as [Hi HiK].
    apply lookup_lt_Some in Hi as Hlen. destruct (lookup_lt_is_Some_2 cs' i ltac:(lia)) as [x Hx].
    rewrite lookup_take_lt, Hx by lia. pose proof (hz_first _ _ _ Hhz i c x Hk Hx ltac:(lia)).
    unfold calculate_gc_round, saturating_sub, sd_round in *. lia.
  - apply (silent_not_rejecting _ D); [apply (ce_closed _ _ _ HD)|done|by apply (ce_closed _ _ _ HD rC)].
Qed.

Lemma accepts_mono cs cs' B idx : stream_ok cs' → cs `prefix_of` cs' → quorum_accepts cs B idx → quorum_accepts cs' B idx.
Proof using HU.
  intros Hok Hp (A & HA & Hacc). exists A. split; [done|]. intros h Hh. destruct (Hacc h Hh) as (r & Hau & Hd & Hn).
  exists r. split; [done|]. split; [eapply descends_mono; [|done]; intros x; by apply stream_refs_prefix|].
  intros Hrej. apply Hn, (rejecting_prefix cs cs'); [done..| |done]. by apply (descends_links cs B).
Qed.

(** The commits made before the horizon do not collect the votes on [B]. *)
Definition votes_kept c B : Prop := calculate_gc_round ctx (sd_round c + 2) ≤ br_round B.

Lemma accepts_exclude_quorum cs k c B idx : stream_ok cs → cs !! k = Some c → votes_linked → votes_first →
  votes_kept c B →
  (∀ j cj, cs !! j = Some cj → (Datatypes.S j < length cs)%nat → sd_round cj < sd_round c + 3) →
  quorum_accepts cs B idx → ¬ quorum_rejects B idx.
Proof using HU.
  intros Hok Hk Hlinked Hfirst Hkept Hearly (A & HA & Hacc) (R & HR & Hrej).
  destruct (quorums_honest cm G byz HU A R HA HR) as (h & HhA & HhR & Hh).
  destruct (Hacc h HhA) as (r & Hau & Hd & Hn). destruct (Hrej h HhR) as (x & b & Hx & Hxh & Hxb).
  destruct (descends_links cs B r Hd) as [Hrl Hr]. apply Hn.
  pose proof (links_round _ _ (Hlinked x b B idx Hx Hxb)) as Hround.
  assert (Hchain : rtc own_step r x) by (apply (Hfirst x b r B idx); [done..|congruence|by rewrite Hxh]).
  clear Hau Hd Hn Hrl. induction Hchain as [r|r a x Hstep Hrest IH]; [by eapply rejecting_own|].
  assert (Ha : a ∈ stream_refs cs); [|eapply rejecting_inherit; [exact Hstep|exact Ha|by apply IH]].
  pose proof (own_chain_round _ _ Hrest) as Hle. apply own_step_includes in Hstep as (br & Hbr & Ha).
  apply elem_of_stream in Hr as (i & ci & Hi & Hr). apply elem_of_commit in Hr as (b' & Hb' & ->).
  pose proof (st_blocks _ Hok i ci b' Hi Hb') as HG. rewrite Hbr in HG. injection HG as ->.
  eapply stream_refs_prefix; [apply (prefix_take cs (Datatypes.S i))|]. apply (st_closed _ Hok i ci b' a Hi Hb' Ha).
  destruct i as [|i]; [cbn; lia|]. cbn. apply lookup_lt_Some in Hi as Hlen.
  destruct (lookup_lt_is_Some_2 cs i ltac:(lia)) as [y Hy]. rewrite Hy. pose proof (Hearly i y Hy Hlen).
  unfold votes_kept, calculate_gc_round, saturating_sub in *. lia.
Qed.

Lemma horizon_prefix cs cs' k K : cs `prefix_of` cs' → horizon cs k K →
  horizon cs' k K ∧ take (Datatypes.S K) cs' = take (Datatypes.S K) cs.
Proof.
  clear. intros Hp Hhz. destruct (hz_reached _ _ _ Hhz) as (c & c' & Hk & HK & Hle).
  apply lookup_lt_Some in HK as HKl. split.
  - split; [exists c, c'; split_and!; [by eapply prefix_stream..|done]|].
    intros j x cj Hx Hj Hlt. rewrite (prefix_stream _ _ _ _ Hp Hk) in Hx. injection Hx as <-.
    destruct (lookup_lt_is_Some_2 cs j ltac:(lia)) as [y Hy]. pose proof (prefix_stream _ _ _ _ Hp Hy). simplify_eq.
    by apply (hz_first _ _ _ Hhz j c cj).
  - destruct Hp as [l ->]. apply take_app_le. lia.
Qed.

(** No two nodes decide a transaction differently. *)
Lemma decisions_exclude cs cs1 cs2 k c B idx : stream_ok cs → cs1 `prefix_of` cs → cs2 `prefix_of` cs →
  cs1 !! k = Some c → B ∈ commit_refs c → votes_linked → votes_first → votes_kept c B →
  2 ≤ pc_gc_depth (ctx_protocol_config ctx) →
  finalized_by cs1 k B idx → rejected_by cs2 k B idx → False.
Proof using HU.
  intros Hok Hp1 Hp2 Hk HB Hlinked Hfirst Hkept Hdepth Hfin Hrej.
  pose proof (stream_ok_prefix _ _ Hok Hp1) as Hok1.
  destruct Hfin as [(D & HD & Hs)|(c' & Hk' & Hearly & Hacc)], Hrej as [Hq|(K & Hhz & Hn)].
  - by apply (direct_excludes_quorum cs1 k c B idx D).
  - destruct (horizon_prefix _ _ _ _ Hp2 Hhz) as [Hhz' Htake]. apply Hn. rewrite <-Htake.
    apply (direct_excludes_indirect cs1 cs k c K B idx D); try done.
    exact (prefix_stream _ _ _ _ Hp1 Hk).
  - simplify_eq. by apply (accepts_exclude_quorum cs1 k c B idx).
  - simplify_eq. destruct (horizon_prefix _ _ _ _ Hp2 Hhz) as [Hhz' Htake]. apply Hn. rewrite <-Htake.
    apply (accepts_mono cs1); [exact (stream_ok_prefix _ _ Hok (prefix_take _ _))| |done].
    assert ((length cs1 ≤ Datatypes.S K)%nat).
    { destruct (decide (length cs1 ≤ Datatypes.S K)%nat) as [|Hlt]; [done|exfalso].
      destruct (hz_reached _ _ _ Hhz') as (x & y & Hx & HK & Hle).
      pose proof (prefix_stream _ _ _ _ Hp1 Hk). simplify_eq.
      destruct (lookup_lt_is_Some_2 cs1 K ltac:(lia)) as [z Hz]. pose proof (prefix_stream _ _ _ _ Hp1 Hz). simplify_eq.
      pose proof (Hearly K y Hz ltac:(lia)). lia. }
    destruct Hp1 as [l ->]. rewrite take_app_ge by done. by apply prefix_app_r.
Qed.

(** ** Certificates of direct commits *)

(** Before the horizon, the ancestors above the leader are committed with a block. *)
Lemma horizon_closed cs k K c r a : stream_ok cs → horizon cs k K → cs !! k = Some c →
  1 ≤ pc_gc_depth (ctx_protocol_config ctx) → r ∈ stream_refs (take (Datatypes.S K) cs) → includes r a →
  sd_round c + 2 ≤ br_round a → a ∈ stream_refs (take (Datatypes.S K) cs).
Proof.
  clear HU. intros Hok Hhz Hk Hdepth Hr (b & Hb & Ha) Hround.
  apply elem_of_stream in Hr as (i & ci & [Hi HiK]%lookup_take_Some & Hr). apply elem_of_commit in Hr as (b' & Hb' & ->).
  pose proof (st_blocks _ Hok i ci b' Hi Hb') as HG. rewrite Hb in HG. injection HG as ->.
  assert (Hin : a ∈ stream_refs (take (Datatypes.S i) cs)).
  { apply (st_closed _ Hok i ci b' a Hi Hb' Ha). destruct i as [|i]; [cbn; lia|]. cbn. apply lookup_lt_Some in Hi as Hlen.
    destruct (lookup_lt_is_Some_2 cs i ltac:(lia)) as [x Hx]. rewrite Hx.
    pose proof (hz_first _ _ _ Hhz i c x Hk Hx ltac:(lia)). unfold calculate_gc_round, saturating_sub. lia. }
  apply elem_of_stream in Hin as (j & cj & [Hj Hji]%lookup_take_Some & Hja). apply elem_of_stream.
  exists j, cj. split; [|done]. rewrite lookup_take_lt; [done|lia].
Qed.

Lemma elem_of_parents b h : h ∈ parents b ↔ ∃ a, a ∈ vb_ancestors b ∧ br_round a + 1 = vb_round b ∧ br_author a = h.
Proof.
  clear. unfold parents. rewrite elem_of_list_to_set, list_elem_of_fmap. setoid_rewrite list_elem_of_filter. naive_solver.
Qed.

Lemma parent_exists r b : G r = Some b → vb_round b ≠ 0 → ∃ a, a ∈ vb_ancestors b ∧ br_round a + 1 = vb_round b.
Proof using HU.
  intros Hb Hne. pose proof (wf_parents _ _ (u_wf _ _ _ HU _ _ Hb) Hne) as Hq.
  destruct (quorums_honest cm G byz HU _ _ Hq Hq) as (h & Hh & _). apply elem_of_parents in Hh as (a & Ha & Hr & _). by exists a.
Qed.

(** Going down from a block of a higher round. *)
Lemma descend_round cs k K c n : ∀ r, stream_ok cs → horizon cs k K → cs !! k = Some c →
  1 ≤ pc_gc_depth (ctx_protocol_config ctx) → r ∈ stream_refs (take (Datatypes.S K) cs) →
  br_round r = sd_round c + 3 + N.of_nat n →
  ∃ r', r' ∈ stream_refs (take (Datatypes.S K) cs) ∧ br_round r' = sd_round c + 3.
Proof using HU.
  induction n as [|n IH]; intros r Hok Hhz Hk Hdepth Hr Hround; [exists r; split; [done|lia]|].
  assert (∃ b, G r = Some b ∧ vb_round b = br_round r) as (b & Hb & Hbr).
  { apply elem_of_stream in Hr as (i & ci & [Hi _]%lookup_take_Some & Hr). apply elem_of_commit in Hr as (b & Hb & ->).
    exists b. split; [by apply (st_blocks _ Hok i ci)|done]. }
  destruct (parent_exists r b Hb ltac:(lia)) as (a & Ha & Hra).
  apply (IH a); try done; [|lia]. apply (horizon_closed cs k K c r a); try done; [by exists b|lia].
Qed.

Lemma quorum_certified cs k c D (A : gset AuthorityIndex) : cs !! k = Some c → 1 ≤ pc_gc_depth (ctx_protocol_config ctx) →
  (∀ r a, D r → includes r a → D a) → c_quorum_threshold cm ≤ set_stake cm A →
  (∀ h, h ∈ A → ∃ r C, D r ∧ G r = Some C ∧ br_author r = h ∧ certificate cm G (sd_leader c) C) →
  certified_in cs k D.
Proof using HU.
  intros Hk Hdepth Hclosed HA Hcert. split; [done|..].
  - destruct (quorums_honest cm G byz HU A A HA HA) as (h & Hh & _). destruct (Hcert h Hh) as (r & C & HD & HC & _ & Hc).
    exists r. split; [done|]. by exists c, C.
  - intros cs' K Hok Hp Hhz. pose proof (prefix_stream _ _ _ _ Hp Hk) as Hk'.
    destruct (hz_reached _ _ _ Hhz) as (c' & cK & Hc' & HK & Hle).
    rewrite Hk' in Hc'. injection Hc' as <-.
    assert (HleadK : sd_leader cK ∈ stream_refs (take (Datatypes.S K) cs')).
    { apply elem_of_stream. exists K, cK. split; [rewrite lookup_take_lt; [done|lia]|]. by apply (st_leader _ Hok K). }
    destruct (descend_round cs' k K c (N.to_nat (sd_round cK - (sd_round c + 3))) (sd_leader cK)) as (r & Hr & Hround); try done.
    { unfold sd_round in *. lia. }
    assert (∃ b, G r = Some b ∧ vb_round b = br_round r) as (b & Hb & Hbr).
    { apply elem_of_stream in Hr as (i & ci & [Hi _]%lookup_take_Some & Hr'). apply elem_of_commit in Hr' as (b & Hb & ->).
      exists b. split; [by apply (st_blocks _ Hok i ci)|done]. }
    pose proof (wf_parents _ _ (u_wf _ _ _ HU _ _ Hb) ltac:(lia)) as Hq.
    destruct (quorums_honest cm G byz HU A _ HA Hq) as (h & HhA & HhP & Hh).
    apply elem_of_parents in HhP as (a & Ha & Hra & Hah). destruct (Hcert h HhA) as (x & C & HDx & HC & Hxh & Hc).
    assert (Hain : a ∈ stream_refs (take (Datatypes.S K) cs')) by (apply (horizon_closed cs' k K c r a); try done; [by exists b|lia]).
    assert (∃ ba, G a = Some ba) as [ba Hba].
    { apply elem_of_stream in Hain as (i & ci & [Hi _]%lookup_take_Some & Hr'). apply elem_of_commit in Hr' as (ba & Hba & ->).
      exists ba. by apply (st_blocks _ Hok i ci). }
    assert (x = a) as ->.
    { apply (u_honest _ _ _ HU x a C ba HC Hba); [by rewrite Hxh|congruence|]. destruct Hc as [HCr _].
      rewrite <-(u_reference _ _ _ HU _ _ HC). cbn. unfold sd_round in *. lia. }
    exists a. split; [done|]. split; [by exists c, C|done].
Qed.
End rule.
