(* ===== verification/FinalizerLinks.v ===== *)
(** * The block graph of the commit finalizer

    [link_blocks_in_last_commit] and [inherit_reject_votes_in_last_commit] keep
    the children and the reject votes of the buffered blocks as the
    finalization rule defines them, and the traversal of the descendants of a
    block finds exactly the transactions a quorum accepts. *)
From S2P Require Import Prelude Committee StakeAggregator Block ThresholdClock Commit LeaderScoring Store DagState DagStateProofs DagTraversal LeaderSchedule BaseCommitter CommitRule DagViews TransactionCertifier CertifierProofs CommitFinalizer FinalizerRule.

(** Transactions of a map from blocks to sets of transactions. *)
Definition tx_in (m : gmap BlockRef (gset TransactionIndex)) (B : BlockRef) (idx : TransactionIndex) : Prop :=
  idx ∈ default ∅ (m !! B).

Lemma tx_in_extend m X T B idx : tx_in (extend_entry X T m) B idx ↔ tx_in m B idx ∨ X = B ∧ idx ∈ T.
Proof.
  unfold tx_in, extend_entry. destruct (decide (X = B)) as [->|Hne].
  - rewrite lookup_insert_eq. cbn. rewrite elem_of_union. naive_solver.
  - rewrite lookup_insert_ne by done. naive_solver.
Qed.

Lemma tx_in_empty B idx : ¬ tx_in ∅ B idx.
Proof. unfold tx_in. rewrite lookup_empty. apply not_elem_of_empty. Qed.

Lemma tx_in_add_votes votes m B idx : tx_in (foldl add_votes m votes) B idx ↔
  tx_in m B idx ∨ ∃ v, v ∈ votes ∧ btv_block_ref v = B ∧ idx ∈ btv_rejects v.
Proof.
  revert m. induction votes as [|v votes IH]; intros m; cbn [foldl].
  - split; [by left|]. intros [?|(v & []%elem_of_nil & _)]. done.
  - rewrite IH. unfold add_votes at 1. rewrite tx_in_extend, elem_of_list_to_set. setoid_rewrite elem_of_cons. naive_solver.
Qed.

Lemma tx_in_extend_all l m B idx :
  tx_in (foldl (λ m '(block_ref, reject_votes), extend_entry block_ref reject_votes m) m l) B idx ↔
  tx_in m B idx ∨ ∃ T, (B, T) ∈ l ∧ idx ∈ T.
Proof.
  revert m. induction l as [|[X T] l IH]; intros m; cbn [foldl].
  - split; [by left|]. intros [?|(T & []%elem_of_nil & _)]. done.
  - rewrite IH, tx_in_extend. setoid_rewrite elem_of_cons. split.
    + intros [[?|[<- ?]]|(T' & ? & ?)]; [by left|right; exists T; auto|right; exists T'; auto].
    + intros [?|(T' & [[= -> ->]|?] & ?)]; [auto|auto|]. right. eauto.
Qed.

Lemma tx_in_inherit m1 m2 B idx :
  tx_in (foldl (λ m '(block_ref, reject_votes), extend_entry block_ref reject_votes m) m1 (map_list m2)) B idx ↔
  tx_in m1 B idx ∨ tx_in m2 B idx.
Proof.
  rewrite tx_in_extend_all. apply or_iff_compat_l. unfold tx_in at 1. split.
  - intros (T & HT%elem_of_map_list & Hidx). by rewrite HT.
  - destruct (m2 !! B) as [T|] eqn:HT; cbn; [|by intros ?%not_elem_of_empty].
    intros Hidx. exists T. by rewrite elem_of_map_list.
Qed.

(** The children and votes stored for a block. *)
Definition children_of_block (blocks : gmap BlockRef BlockState) (r : BlockRef) : gset BlockRef :=
  default ∅ (bst_children <$> blocks !! r).
Definition votes_of_block (blocks : gmap BlockRef BlockState) (r : BlockRef) : gmap BlockRef (gset TransactionIndex) :=
  default ∅ (bst_reject_votes <$> blocks !! r).

Lemma add_children x l blocks r :
  (is_Some (foldl (add_child x) blocks l !! r) ↔ is_Some (blocks !! r)) ∧
  (∀ y, y ∈ children_of_block (foldl (add_child x) blocks l) r ↔
     y ∈ children_of_block blocks r ∨ y = x ∧ r ∈ l ∧ is_Some (blocks !! r)) ∧
  votes_of_block (foldl (add_child x) blocks l) r = votes_of_block blocks r.
Proof.
  revert blocks. induction l as [|a l IH]; intros blocks; cbn [foldl].
  { split_and!; [done| |done]. intros y. rewrite elem_of_nil. tauto. }
  destruct (IH (add_child x blocks a)) as (H1 & H2 & H3).
  assert (Hone : (is_Some (add_child x blocks a !! r) ↔ is_Some (blocks !! r)) ∧
    (∀ y, y ∈ children_of_block (add_child x blocks a) r ↔
       y ∈ children_of_block blocks r ∨ y = x ∧ r = a ∧ is_Some (blocks !! r)) ∧
    votes_of_block (add_child x blocks a) r = votes_of_block blocks r).
  { unfold add_child, children_of_block, votes_of_block. destruct (blocks !! a) as [s|] eqn:Ha.
    - destruct (decide (r = a)) as [->|Hne].
      + rewrite lookup_insert_eq, Ha. cbn. split_and!; [by split; eauto| |done]. intros y.
        rewrite elem_of_union, elem_of_singleton. naive_solver.
      + rewrite lookup_insert_ne by done. split_and!; [done| |done]. intros y. naive_solver.
    - split_and!; [done| |done]. intros y. split; [by left|]. intros [?|(-> & -> & [? ?])]; [done|congruence]. }
  destruct Hone as (O1 & O2 & O3). split_and!; [by rewrite H1| |by rewrite H3].
  intros y. rewrite H2, O2, O1, elem_of_cons. tauto.
Qed.

Lemma link_block_spec blocks b r : (∀ a, a ∈ vb_ancestors b → a ≠ vb_reference b) →
  (is_Some (link_block blocks b !! r) ↔ is_Some (blocks !! r) ∨ r = vb_reference b) ∧
  (∀ y, y ∈ children_of_block (link_block blocks b) r ↔
     y ∈ children_of_block blocks r ∨ y = vb_reference b ∧ r ∈ vb_ancestors b ∧ is_Some (blocks !! r)) ∧
  (∀ B idx, tx_in (votes_of_block (link_block blocks b) r) B idx ↔
     tx_in (votes_of_block blocks r) B idx ∨ r = vb_reference b ∧ rejects b B idx).
Proof.
  intros Hanc. unfold link_block.
  match goal with |- context [foldl (add_child _) ?m _] => set (blocks1 := m) end.
  destruct (add_children (vb_reference b) (vb_ancestors b) blocks1 r) as (H1 & H2 & H3).
  rewrite H1. setoid_rewrite H2. rewrite H3. unfold blocks1, children_of_block, votes_of_block.
  destruct (decide (r = vb_reference b)) as [->|Hne].
  - rewrite lookup_insert_eq. cbn. split_and!.
    + split; [by right|by eexists].
    + intros y. split.
      * intros [Hy|(_ & Hin & _)]; [|by destruct (Hanc _ Hin)]. left. by destruct (blocks !! vb_reference b).
      * intros [Hy|(_ & Hin & _)]; [|by destruct (Hanc _ Hin)]. left. by destruct (blocks !! vb_reference b).
    + intros B idx. rewrite tx_in_add_votes. unfold rejects.
      assert (Heq : bst_reject_votes (default BlockState_default (blocks !! vb_reference b)) =
                default ∅ (bst_reject_votes <$> blocks !! vb_reference b)) by by destruct (blocks !! vb_reference b).
      rewrite Heq. naive_solver.
  - rewrite lookup_insert_ne by done. split_and!; naive_solver.
Qed.

Section links.
Context (ctx : Context) (G : BlockRef → option VerifiedBlock) (byz : gset AuthorityIndex).
Context (HU : universe_ok (ctx_committee ctx) G byz) (Hlinked : votes_linked G).
Implicit Types (cs : list CommittedSubDag) (B r a : BlockRef) (idx : TransactionIndex) (c : CommittedSubDag).
Abbreviation cm := (ctx_committee ctx).
Abbreviation includes := (includes G).
Abbreviation rejecting := (rejecting G).
Abbreviation stream_ok := (stream_ok ctx G).

(** A block only rejects transactions of blocks committed with it or before. *)
Lemma rejecting_order cs i j c c' B idx r : stream_ok cs → cs !! i = Some c → r ∈ commit_refs c →
  cs !! j = Some c' → B ∈ commit_refs c' → rejecting cs B idx r → (j ≤ i)%nat.
Proof using HU Hlinked.
  intros Hok Hi Hr Hj HB Hrej. revert i c Hi Hr. induction Hrej as [r b Hb Hrj|r a Hstep Ha _ IH]; intros i c Hi Hr.
  - apply (links_order ctx G byz HU cs i j c c' r B Hok Hi Hr Hj HB). by apply (Hlinked r b B idx).
  - apply elem_of_stream in Ha as (k & ck & Hk & Hka). pose proof (IH k ck Hk Hka).
    assert ((k ≤ i)%nat); [|lia].
    apply (links_order ctx G byz HU cs i k c ck r a Hok Hi Hr Hk Hka), tc_once, (own_step_includes G), Hstep.
Qed.

(** The graph of the commits from [m] on. *)
Record graph_ok cs (m : nat) (blocks : gmap BlockRef BlockState) : Prop := {
  bg_dom r : is_Some (blocks !! r) ↔ r ∈ stream_refs (drop m cs);
  bg_children r y : r ∈ stream_refs (drop m cs) →
    (y ∈ children_of_block blocks r ↔ y ∈ stream_refs (drop m cs) ∧ includes y r);
  bg_sound r B idx : tx_in (votes_of_block blocks r) B idx → rejecting cs B idx r;
  bg_complete r B idx : r ∈ stream_refs (drop m cs) → B ∈ stream_refs (drop m cs) →
    rejecting cs B idx r → tx_in (votes_of_block blocks r) B idx;
}.

Lemma elem_of_drop cs m r : r ∈ stream_refs (drop m cs) ↔ ∃ i c, (m ≤ i)%nat ∧ cs !! i = Some c ∧ r ∈ commit_refs c.
Proof.
  clear. rewrite elem_of_stream. split.
  - intros (i & c & Hi & Hr). rewrite lookup_drop in Hi. exists (m + i)%nat, c. split_and!; [lia|done..].
  - intros (i & c & Hle & Hi & Hr). exists (i - m)%nat, c. rewrite lookup_drop.
    replace (m + (i - m))%nat with i by lia. done.
Qed.

Section last.
Context cs c (m : nat) (Hok : stream_ok (cs ++ [c])) (Hm : (m ≤ length cs)%nat).

Lemma drop_snoc r : r ∈ stream_refs (drop m (cs ++ [c])) ↔ r ∈ stream_refs (drop m cs) ∨ r ∈ commit_refs c.
Proof using Hm.
  clear Hok HU Hlinked. rewrite drop_app_le by done. unfold stream_refs. rewrite bind_app, elem_of_app. csimpl. by rewrite app_nil_r.
Qed.

Lemma last_commit : (cs ++ [c]) !! length cs = Some c.
Proof using. clear. by apply list_lookup_middle. Qed.

Lemma last_block b : b ∈ sd_blocks c → G (vb_reference b) = Some b.
Proof using Hok. clear Hm. apply (st_blocks _ _ _ Hok _ c b last_commit). Qed.

Lemma base_lookup r : r ∈ stream_refs (drop m cs) → ∃ i ci, (i < length cs)%nat ∧ (cs ++ [c]) !! i = Some ci ∧ r ∈ commit_refs ci.
Proof using.
  clear. intros (i & ci & _ & Hi & Hr)%elem_of_drop. exists i, ci. apply lookup_lt_Some in Hi as Hlt.
  split; [done|]. by rewrite lookup_app_l.
Qed.

Lemma last_not_base r : r ∈ stream_refs (drop m cs) → r ∈ commit_refs c → False.
Proof using Hok.
  clear Hm. intros (i & ci & Hlt & Hi & Hr)%base_lookup Hc.
  pose proof (commit_unique ctx G _ _ _ _ _ _ Hok Hi last_commit Hr Hc). lia.
Qed.

Definition known (dn : list VerifiedBlock) r : Prop := r ∈ stream_refs (drop m cs) ∨ r ∈ vb_reference <$> dn.

Record linked_upto (dn : list VerifiedBlock) (blocks : gmap BlockRef BlockState) : Prop := {
  lu_dom r : is_Some (blocks !! r) ↔ known dn r;
  lu_children r y : known dn r → (y ∈ children_of_block blocks r ↔ known dn y ∧ includes y r);
  lu_sound r B idx : tx_in (votes_of_block blocks r) B idx → rejecting (cs ++ [c]) B idx r;
  lu_old r B idx : r ∈ stream_refs (drop m cs) → B ∈ stream_refs (drop m cs) →
    rejecting cs B idx r → tx_in (votes_of_block blocks r) B idx;
  lu_own b B idx : b ∈ dn → rejects b B idx → tx_in (votes_of_block blocks (vb_reference b)) B idx;
}.

Lemma link_step dn b rest blocks : blocks_by_round c = dn ++ b :: rest → linked_upto dn blocks →
  linked_upto (dn ++ [b]) (link_block blocks b).
Proof using HU Hok.
  clear Hm Hlinked. intros Hbl Hlu. assert (Hsorted : StronglySorted (by_key vb_round) (blocks_by_round c)) by (apply sort_by_sorted, _).
  assert (Hin : ∀ x, x ∈ dn ++ b :: rest → x ∈ sd_blocks c).
  { intros x. rewrite <-Hbl. unfold blocks_by_round. by rewrite sort_by_Permutation. }
  assert (Hb : b ∈ sd_blocks c) by (apply Hin, elem_of_app; right; left).
  pose proof (last_block b Hb) as HG.
  assert (Hanc : ∀ a, a ∈ vb_ancestors b → br_round a < vb_round b) by (intros a Ha; by apply (wf_rounds _ _ (u_wf _ _ _ HU _ _ HG))).
  assert (Hne : ∀ a, a ∈ vb_ancestors b → a ≠ vb_reference b) by (intros a Ha ->; specialize (Hanc _ Ha); cbn in Hanc; lia).
  assert (Hbc : vb_reference b ∈ commit_refs c) by (apply elem_of_commit; eauto).
  (* nothing known includes the new block *)
  assert (Hnew : ∀ y, known dn y → includes y (vb_reference b) → False).
  { intros y [Hy|Hy] Hinc.
    - apply base_lookup in Hy as (i & ci & Hlt & Hi & Hy).
      pose proof (links_order ctx G byz HU _ _ _ _ _ _ _ Hok Hi Hy last_commit Hbc (tc_once _ _ _ Hinc)). lia.
    - apply list_elem_of_fmap in Hy as (x & -> & Hx). pose proof (includes_round ctx G byz HU _ _ Hinc) as Hlt.
      rewrite Hbl in Hsorted. apply StronglySorted_app_1_elem_of with (x1 := x) (x2 := b) in Hsorted; [|done|left].
      unfold by_key in Hsorted. rewrite bool_decide_spec in Hsorted. cbn in Hlt. lia. }
  assert (Hknown : ∀ r, known (dn ++ [b]) r ↔ known dn r ∨ r = vb_reference b).
  { intros r. unfold known. rewrite fmap_app, elem_of_app. cbn. rewrite list_elem_of_singleton. tauto. }
  split.
  - intros r. destruct (link_block_spec blocks b r Hne) as (-> & _). rewrite Hknown. by rewrite (lu_dom _ _ Hlu).
  - intros r y Hr. destruct (link_block_spec blocks b r Hne) as (_ & -> & _). rewrite !Hknown.
    rewrite (lu_dom _ _ Hlu). apply Hknown in Hr. split.
    + intros [Hy|(-> & Ha & Hr')].
      * destruct Hr as [Hr|Hr]; [apply (lu_children _ _ Hlu r y Hr) in Hy as [? ?]; auto|].
        destruct (blocks !! r) as [s|] eqn:Hs; [|unfold children_of_block in Hy; rewrite Hs in Hy; by apply elem_of_empty in Hy].
        assert (known dn r) by (apply (lu_dom _ _ Hlu); eauto). apply (lu_children _ _ Hlu r y) in Hy as [? ?]; auto.
      * split; [by right|]. exists b. done.
    + intros [[Hy| ->] Hinc].
      * destruct Hr as [Hr| ->]; [left; by apply (lu_children _ _ Hlu r y Hr)|exfalso; by apply (Hnew y)].
      * destruct Hinc as (b' & Hb' & Ha). rewrite HG in Hb'. injection Hb' as <-. right. split_and!; [done..|].
        destruct Hr as [?| ->]; [done|by destruct (Hne _ Ha)].
  - intros r B idx. destruct (link_block_spec blocks b r Hne) as (_ & _ & ->).
    intros [?|[-> Hrj]]; [by apply (lu_sound _ _ Hlu)|]. by eapply rejecting_own.
  - intros r B idx Hr HB Hrj. destruct (link_block_spec blocks b r Hne) as (_ & _ & ->). left. by apply (lu_old _ _ Hlu).
  - intros x B idx Hx Hrj. destruct (link_block_spec blocks b (vb_reference x) Hne) as (_ & _ & ->).
    apply elem_of_app in Hx as [Hx| ->%list_elem_of_singleton]; [left; by apply (lu_own _ _ Hlu)|by right].
Qed.

Lemma link_all rest : ∀ dn blocks, blocks_by_round c = dn ++ rest → linked_upto dn blocks →
  linked_upto (blocks_by_round c) (foldl link_block blocks rest).
Proof using HU Hok.
  clear Hm Hlinked. induction rest as [|b rest IH]; intros dn blocks Hbl Hlu; cbn [foldl].
  { rewrite app_nil_r in Hbl. by rewrite Hbl. }
  apply (IH (dn ++ [b])); [by rewrite <-app_assoc|]. by apply (link_step dn b rest).
Qed.

Lemma by_round_elem b : b ∈ blocks_by_round c ↔ b ∈ sd_blocks c.
Proof using. clear. unfold blocks_by_round. by rewrite sort_by_Permutation. Qed.

Lemma known_all r : known (blocks_by_round c) r ↔ r ∈ stream_refs (drop m (cs ++ [c])).
Proof using Hm.
  clear Hok HU Hlinked. rewrite drop_snoc. unfold known. apply or_iff_compat_l. unfold commit_refs.
  rewrite !list_elem_of_fmap. by setoid_rewrite by_round_elem.
Qed.

(** The blocks of [dn] have inherited their votes. *)
Record inherited_upto (dn : list VerifiedBlock) (blocks : gmap BlockRef BlockState) : Prop := {
  iu_dom r : is_Some (blocks !! r) ↔ r ∈ stream_refs (drop m (cs ++ [c]));
  iu_children r y : r ∈ stream_refs (drop m (cs ++ [c])) →
    (y ∈ children_of_block blocks r ↔ y ∈ stream_refs (drop m (cs ++ [c])) ∧ includes y r);
  iu_sound r B idx : tx_in (votes_of_block blocks r) B idx → rejecting (cs ++ [c]) B idx r;
  iu_complete r B idx : known dn r → B ∈ stream_refs (drop m (cs ++ [c])) →
    rejecting (cs ++ [c]) B idx r → tx_in (votes_of_block blocks r) B idx;
  iu_own b B idx : b ∈ sd_blocks c → rejects b B idx → tx_in (votes_of_block blocks (vb_reference b)) B idx;
}.

Lemma linked_inherited blocks : linked_upto (blocks_by_round c) blocks → inherited_upto [] blocks.
Proof using HU Hlinked Hok Hm.
  intros Hlu. split.
  - intros r. by rewrite <-known_all, (lu_dom _ _ Hlu).
  - intros r y. rewrite <-!known_all. apply (lu_children _ _ Hlu).
  - apply (lu_sound _ _ Hlu).
  - intros r B idx [Hr|Hr] HB Hrj; [|by apply elem_of_nil in Hr]. apply drop_snoc in HB as [HB|HB].
    + apply (lu_old _ _ Hlu); [done..|]. apply (rejecting_prefix ctx G byz HU cs (cs ++ [c])); [done|by apply prefix_app_r| |done].
      apply elem_of_drop in Hr as (i & ci & _ & Hi & Hr). apply elem_of_stream. eauto.
    + exfalso. apply base_lookup in Hr as (i & ci & Hlt & Hi & Hr).
      pose proof (rejecting_order _ _ _ _ _ _ _ _ Hok Hi Hr last_commit HB Hrj). lia.
  - intros b B idx Hb. apply (lu_own _ _ Hlu). by apply by_round_elem.
Qed.

(** What inheriting from the own ancestor [a] adds to the votes of [b]. *)
Lemma inherit_spec blocks b : is_Some (blocks !! vb_reference b) → ∃ blocks', inherit_votes blocks b = Done blocks' ∧
  (∀ r, (is_Some (blocks' !! r) ↔ is_Some (blocks !! r)) ∧ children_of_block blocks' r = children_of_block blocks r) ∧
  ∀ r B idx, tx_in (votes_of_block blocks' r) B idx ↔ tx_in (votes_of_block blocks r) B idx ∨
    r = vb_reference b ∧ ∃ a, head (vb_ancestors b) = Some a ∧ br_author a = vb_author b ∧ is_Some (blocks !! a) ∧
      tx_in (votes_of_block blocks a) B idx.
Proof using.
  clear. intros [s Hs]. unfold inherit_votes.
  assert (Hsame : (∀ a, head (vb_ancestors b) = Some a → br_author a = vb_author b → ∀ x, blocks !! a = Some x →
              bst_reject_votes x = ∅) →
            ∀ r B idx, tx_in (votes_of_block blocks r) B idx ↔ tx_in (votes_of_block blocks r) B idx ∨
    r = vb_reference b ∧ ∃ a, head (vb_ancestors b) = Some a ∧ br_author a = vb_author b ∧ is_Some (blocks !! a) ∧
      tx_in (votes_of_block blocks a) B idx).
  { intros Hno r B idx. split; [by left|]. intros [?|(_ & a & Ha & Hau & [x Hx] & Hin)]; [done|].
    unfold votes_of_block in Hin. rewrite Hx in Hin. cbn in Hin. rewrite (Hno a Ha Hau x Hx) in Hin. by apply tx_in_empty in Hin. }
  destruct (head (vb_ancestors b)) as [a|] eqn:Ha; [|by exists blocks; split_and!; [done..|apply Hsame]].
  case_bool_decide as Hau.
  { exists blocks. split_and!; [done..|]. apply Hsame. by intros a' [= <-] ?. }
  destruct (blocks !! a) as [x|] eqn:Hx; cbn [fmap option_fmap option_map].
  2:{ exists blocks. split_and!; [done..|]. apply Hsame. intros a' [= <-] _ y Hy. congruence. }
  case_bool_decide as Hemp.
  { exists blocks. split_and!; [done..|]. apply Hsame. intros a' [= <-] _ y Hy. congruence. }
  rewrite Hs. cbn [expect mbind run_bind]. eexists. split; [done|]. split.
  - intros r. unfold children_of_block. destruct (decide (r = vb_reference b)) as [->|Hne].
    + rewrite lookup_insert_eq, Hs. cbn. by split; [split; eauto|].
    + by rewrite lookup_insert_ne.
  - intros r B idx. unfold votes_of_block. destruct (decide (r = vb_reference b)) as [->|Hne].
    + rewrite lookup_insert_eq, Hs. cbn. rewrite tx_in_inherit. split.
      * intros [?|?]; [by left|right]. split; [done|]. exists a. rewrite Hx. split_and!; try done.
      * intros [?|(_ & a' & [= <-] & _ & _ & Hin)]; [by left|right]. by rewrite Hx in Hin.
    + rewrite lookup_insert_ne by done. naive_solver.
Qed.

Lemma inherit_step dn b rest blocks : blocks_by_round c = dn ++ b :: rest → inherited_upto dn blocks →
  ∃ blocks', inherit_votes blocks b = Done blocks' ∧ inherited_upto (dn ++ [b]) blocks'.
Proof using HU Hlinked Hok Hm.
  intros Hbl Hiu. assert (Hsorted : StronglySorted (by_key vb_round) (blocks_by_round c)) by (apply sort_by_sorted, _).
  assert (Hb : b ∈ sd_blocks c) by (apply by_round_elem; rewrite Hbl; apply elem_of_app; right; left).
  pose proof (last_block b Hb) as HG.
  assert (Hbc : vb_reference b ∈ commit_refs c) by (apply elem_of_commit; eauto).
  destruct (inherit_spec blocks b) as (blocks' & Hrun & Hsame & Hvotes).
  { apply (iu_dom _ _ Hiu), drop_snoc. by right. }
  exists blocks'. split; [done|]. split.
  - intros r. destruct (Hsame r) as [-> _]. apply (iu_dom _ _ Hiu).
  - intros r y. destruct (Hsame r) as [_ ->]. apply (iu_children _ _ Hiu).
  - intros r B idx. rewrite Hvotes. intros [?|(-> & a & Ha & Hau & Hin & Hrj)]; [by apply (iu_sound _ _ Hiu)|].
    eapply rejecting_inherit; [by exists b| |by apply (iu_sound _ _ Hiu)].
    apply (iu_dom _ _ Hiu) in Hin. apply elem_of_drop in Hin as (i & ci & _ & Hi & Hia). apply elem_of_stream. eauto.
  - intros r B idx Hr HB Hrj. apply Hvotes.
    assert (known dn r ∨ r = vb_reference b) as [Hr'| ->].
    { unfold known in Hr |- *. rewrite fmap_app, elem_of_app in Hr. cbn in Hr. rewrite list_elem_of_singleton in Hr. tauto. }
    { left. by apply (iu_complete _ _ Hiu). }
    inversion Hrj as [r b' Hb' Hrjb|r a Hstep Ha Hrja]; subst.
    { rewrite HG in Hb'. injection Hb' as <-. left. by apply (iu_own _ _ Hiu). }
    right. split; [done|]. pose proof Hstep as (b' & Hb' & Hhead & Hau). rewrite HG in Hb'. injection Hb' as <-.
    exists a. split_and!; [done..| |].
    + apply (iu_dom _ _ Hiu). apply elem_of_stream in Ha as (j & cj & Hj & Ha). apply elem_of_drop in HB as (k & ck & Hk & HB & HBk).
      apply elem_of_drop. exists j, cj. split_and!; [|done..].
      pose proof (rejecting_order _ _ _ _ _ _ _ _ Hok Hj Ha HB HBk Hrja). lia.
    + apply (iu_complete _ _ Hiu); [|done..]. apply elem_of_stream in Ha as (j & cj & Hj & Ha).
      apply elem_of_drop in HB as (k & ck & Hk & HB & HBk).
      pose proof (rejecting_order _ _ _ _ _ _ _ _ Hok Hj Ha HB HBk Hrja).
      destruct (decide (j < length cs)%nat) as [Hlt|Hge].
      * left. apply elem_of_drop. exists j, cj. rewrite lookup_app_l in Hj by done. split_and!; [lia|done..].
      * right. assert (j = length cs) as -> by (apply lookup_lt_Some in Hj; rewrite length_app in Hj; cbn in Hj; lia).
        rewrite last_commit in Hj. injection Hj as <-. apply elem_of_commit in Ha as (x & Hx & ->).
        apply list_elem_of_fmap. exists x. split; [done|].
        pose proof (includes_round ctx G byz HU _ _ (own_step_includes G _ _ Hstep)) as Hlt. cbn in Hlt.
        apply by_round_elem in Hx. rewrite Hbl in Hx, Hsorted. apply elem_of_app in Hx as [|Hx]; [done|exfalso].
        apply StronglySorted_app_1_r in Hsorted. apply StronglySorted_cons in Hsorted as [Hall _].
        apply elem_of_cons in Hx as [->|Hx]; [lia|]. pose proof (proj1 (Forall_forall _ _) Hall x Hx) as Hle.
        unfold by_key in Hle. rewrite bool_decide_spec in Hle. lia.
  - intros x B idx Hx Hrj. apply Hvotes. left. by apply (iu_own _ _ Hiu).
Qed.

Lemma inherit_all rest : ∀ dn blocks, blocks_by_round c = dn ++ rest → inherited_upto dn blocks →
  ∃ blocks', for_each inherit_votes blocks rest = Done blocks' ∧ inherited_upto (blocks_by_round c) blocks'.
Proof using HU Hlinked Hok Hm.
  induction rest as [|b rest IH]; intros dn blocks Hbl Hiu; cbn [for_each].
  { rewrite app_nil_r in Hbl. exists blocks. by rewrite Hbl. }
  destruct (inherit_step dn b rest blocks Hbl Hiu) as (blocks1 & -> & Hiu1). cbn [mbind run_bind].
  apply (IH (dn ++ [b])); [by rewrite <-app_assoc|done].
Qed.

(** Linking the last commit extends the graph. *)
Lemma link_last_commit blocks : graph_ok cs m blocks →
  ∃ blocks', for_each inherit_votes (foldl link_block blocks (blocks_by_round c)) (blocks_by_round c) = Done blocks' ∧
    graph_ok (cs ++ [c]) m blocks'.
Proof using HU Hlinked Hok Hm.
  intros Hg. assert (Hlu : linked_upto [] blocks).
  { assert (Hk : ∀ r, known [] r ↔ r ∈ stream_refs (drop m cs)).
    { intros r. unfold known. cbn. rewrite elem_of_nil. tauto. }
    split.
    - intros r. rewrite Hk. apply (bg_dom _ _ _ Hg).
    - intros r y. rewrite !Hk. apply (bg_children _ _ _ Hg).
    - intros r B idx Hin. apply (rejecting_mono G cs); [|by apply (bg_sound _ _ _ Hg)].
      intros x. by apply stream_refs_prefix, prefix_app_r.
    - intros r B idx. apply (bg_complete _ _ _ Hg).
    - by intros b B idx ?%elem_of_nil. }
  pose proof (link_all _ [] blocks eq_refl Hlu) as Hlu'.
  destruct (inherit_all _ [] _ eq_refl (linked_inherited _ Hlu')) as (blocks' & Hrun & Hiu).
  exists blocks'. split; [done|]. split.
  - apply (iu_dom _ _ Hiu).
  - apply (iu_children _ _ Hiu).
  - apply (iu_sound _ _ Hiu).
  - intros r B idx Hr. apply (iu_complete _ _ Hiu). by apply known_all.
Qed.
End last.

(** Dropping the blocks of finalized commits. *)
Lemma graph_drop cs m m' blocks : stream_ok cs → graph_ok cs m blocks → (m ≤ m')%nat → ∀ blocks',
  (∀ r, blocks' !! r = if bool_decide (r ∈ stream_refs (drop m' cs)) then blocks !! r else None) → graph_ok cs m' blocks'.
Proof using HU.
  clear Hlinked. intros Hok Hg Hle blocks' Hlk.
  assert (Hsub : ∀ r, r ∈ stream_refs (drop m' cs) → r ∈ stream_refs (drop m cs) ∧ blocks' !! r = blocks !! r).
  { intros r Hr. rewrite Hlk, bool_decide_eq_true_2 by done. split; [|done].
    apply elem_of_drop in Hr as (i & c & ? & ? & ?). apply elem_of_drop. exists i, c. split_and!; [lia|done..]. }
  split.
  - intros r. rewrite Hlk. case_bool_decide as Hr.
    + destruct (Hsub r Hr) as [Hr' _]. rewrite (bg_dom _ _ _ Hg). done.
    + split; [by intros []|done].
  - intros r y Hr. destruct (Hsub r Hr) as [Hr' Heq]. unfold children_of_block. rewrite Heq.
    change (default ∅ (bst_children <$> blocks !! r)) with (children_of_block blocks r).
    rewrite (bg_children _ _ _ Hg r y Hr'). split; [|intros [Hy ?]; split; [by apply Hsub|done]].
    intros [Hy Hinc]. split; [|done]. apply elem_of_drop in Hr as (i & c & Hi & Hc & Hrc).
    apply elem_of_drop in Hy as (j & c' & Hj & Hc' & Hyc). apply elem_of_drop. exists j, c'. split_and!; [|done..].
    pose proof (links_order ctx G byz HU cs j i c' c y r Hok Hc' Hyc Hc Hrc (tc_once _ _ _ Hinc)). lia.
  - intros r B idx. unfold votes_of_block. rewrite Hlk. case_bool_decide; [apply (bg_sound _ _ _ Hg)|].
    by intros ?%tx_in_empty.
  - intros r B idx Hr HB Hrj. destruct (Hsub r Hr) as [Hr' Heq]. unfold votes_of_block. rewrite Heq.
    apply (bg_complete _ _ _ Hg); [done| |done]. by apply Hsub.
Qed.

Lemma graph_empty : graph_ok [] 0 ∅.
Proof using.
  clear. split.
  - intros r. rewrite lookup_empty. split; [by intros []|]. by intros ?%elem_of_nil.
  - by intros r y ?%elem_of_nil.
  - intros r B idx. unfold votes_of_block. rewrite lookup_empty. by intros ?%tx_in_empty.
  - by intros r B idx ?%elem_of_nil.
Qed.
End links.
