(* ===== verification/FinalizerVotes.v ===== *)
(** * Counting the accept votes of the descendants

    [try_indirect_finalize_pending_transactions_in_block] terminates and
    returns exactly the pending transactions that a quorum of committed
    descendants accepts. *)
From S2P Require Import Prelude Committee StakeAggregator Block ThresholdClock Commit LeaderScoring Store DagState DagStateProofs DagTraversal LeaderSchedule BaseCommitter CommitRule DagViews TransactionCertifier CertifierProofs CommitFinalizer FinalizerRule FinalizerLinks.

Section votes.
Context (ctx : Context) (Hcm : committee_ok (ctx_committee ctx)).
Abbreviation cm := (ctx_committee ctx).
Abbreviation quorum := (c_quorum_threshold cm).

Lemma count_accept_eq a rj av new i agg : count_accept ctx a rj (av, new) (i, agg) =
  if bool_decide (i ∈ rj) then Done (av, new)
  else '(agg, reached) ← StakeAggregator_add agg a cm;
       Done (<[i := agg]> av, if (reached : bool) then new ++ [i] else new).
Proof. done. Qed.

(** One block's votes on the transactions still counted. *)
Lemma count_loop a (rj : gset TransactionIndex) : Committee_is_valid_index cm a →
  ∀ (l : list (TransactionIndex * StakeAggregator QuorumThreshold)) av new, NoDup l.*1 → (∀ p, p ∈ l → agg_ok cm p.2) →
  ∃ av' new', for_each (count_accept ctx a rj) (av, new) l = Done (av', new') ∧
    (∀ i, i ∉ l.*1 ∨ i ∈ rj → av' !! i = av !! i ∧ (i ∈ new' ↔ i ∈ new)) ∧
    ∀ i agg, (i, agg) ∈ l → i ∉ rj → ∃ agg', av' !! i = Some agg' ∧ agg_ok cm agg' ∧
      sa_votes agg' = {[a]} ∪ sa_votes agg ∧ (i ∈ new' ↔ i ∈ new ∨ quorum ≤ set_stake cm ({[a]} ∪ sa_votes agg)).
Proof using Hcm.
  intros Ha l. induction l as [|[i agg] l IH]; intros av new Hnd Hok; cbn [for_each].
  { exists av, new. split; [done|]. split; [done|]. by intros i agg ?%elem_of_nil. }
  csimpl in Hnd. apply NoDup_cons in Hnd as [Hni Hnd].
  assert (Hok' : ∀ p, p ∈ l → agg_ok cm p.2) by (intros p Hp; apply Hok; by right).
  rewrite count_accept_eq. case_bool_decide as Hrj; cbn [mbind run_bind].
  - destruct (IH av new Hnd Hok') as (av' & new' & Hrun & Hsame & Hnew). exists av', new'. split; [done|]. split.
    + intros j [Hj|Hj]; apply Hsame; [left|by right]. csimpl in Hj. rewrite elem_of_cons in Hj. tauto.
    + intros j agg' [[= -> ->]|Hj]%elem_of_cons Hnj; [done|]. by apply Hnew.
  - destruct (StakeAggregator_add_spec cm Hcm agg a (Hok _ ltac:(left)) Ha) as (agg' & -> & Hagg' & Hv). cbn [mbind run_bind].
    match goal with |- context [for_each _ (?x, ?y) l] => destruct (IH x y Hnd Hok') as (av' & new' & Hrun & Hsame & Hnew) end.
    assert (Hreach : is_threshold QuorumThreshold cm (set_stake cm ({[a]} ∪ sa_votes agg)) =
              bool_decide (quorum ≤ set_stake cm ({[a]} ∪ sa_votes agg))) by done.
    exists av', new'. split; [done|]. split.
    + intros j Hj. destruct (Hsame j) as [H1 H2].
      { destruct Hj as [Hj|Hj]; [left|by right]. csimpl in Hj. rewrite elem_of_cons in Hj. tauto. }
      assert (j ≠ i).
      { intros ->. destruct Hj as [Hj|Hj]; [|done]. csimpl in Hj. rewrite elem_of_cons in Hj. tauto. }
      rewrite H1, H2, lookup_insert_ne by done. split; [done|].
      destruct (is_threshold _ _ _); [|done]. rewrite elem_of_app, list_elem_of_singleton. tauto.
    + intros j agg2 [[= -> ->]|Hj]%elem_of_cons Hnj.
      * exists agg'. destruct (Hsame i ltac:(by left)) as [-> ->]. rewrite lookup_insert_eq. split_and!; try done.
        rewrite Hreach. case_bool_decide as Hq; [rewrite elem_of_app, list_elem_of_singleton|]; tauto.
      * destruct (Hnew j agg2 Hj Hnj) as (x & ? & ? & ? & Hx). exists x. split_and!; try done.
        rewrite Hx. assert (j ≠ i) by (intros ->; apply Hni; apply list_elem_of_fmap; by exists (i, agg2)).
        destruct (is_threshold _ _ _); [rewrite elem_of_app, list_elem_of_singleton|]; tauto.
Qed.

Section traversal.
Context (blocks : gmap BlockRef BlockState) (B : BlockRef) (T : gset TransactionIndex).
Context (Hclosed : ∀ r y, y ∈ children_of_block blocks r → is_Some (blocks !! y)).
Context (Hvalid : ∀ r, is_Some (blocks !! r) → Committee_is_valid_index cm (br_author r)).

(** The authorities of a set of blocks that accept a transaction of [B]. *)
Definition accepting (X : gset BlockRef) (idx : TransactionIndex) : gset AuthorityIndex :=
  set_map br_author (filter (λ x, idx ∉ default ∅ (votes_of_block blocks x !! B)) X).

Lemma accepting_mono X Y idx : X ⊆ Y → accepting X idx ⊆ accepting Y idx.
Proof. clear. intros HXY. unfold accepting. set_solver. Qed.

Lemma accepting_add x X idx : accepting ({[x]} ∪ X) idx =
  if decide (idx ∈ default ∅ (votes_of_block blocks x !! B)) then accepting X idx
  else {[br_author x]} ∪ accepting X idx.
Proof.
  clear. unfold accepting. apply leibniz_equiv. case_decide as Hd; intros h;
    rewrite ?elem_of_union, ?elem_of_singleton, !elem_of_map; setoid_rewrite elem_of_filter; setoid_rewrite elem_of_union;
    setoid_rewrite elem_of_singleton.
  - split; [intros (y & -> & Hy & [->|Hin]); [done|eauto]|intros (y & -> & Hy & Hin); eauto 6].
  - split; [intros (y & -> & Hy & [->|Hin]); eauto|]. intros [->|(y & -> & Hy & Hin)]; eauto 8.
Qed.

(** Blocks reached from the children of [B]. *)
Definition reached (y : BlockRef) : Prop := tc (λ a x, x ∈ children_of_block blocks a) B y.

Record traversal_ok (av : gmap TransactionIndex (StakeAggregator QuorumThreshold)) (fin : list TransactionIndex)
    (tv vis : gset BlockRef) : Prop := {
  tr_disjoint : tv ## vis;
  tr_reached y : y ∈ tv ∪ vis → reached y;
  tr_closed y : (y ∈ children_of_block blocks B ∨ ∃ x, x ∈ vis ∧ y ∈ children_of_block blocks x) → y ∈ tv ∪ vis;
  tr_keys i : is_Some (av !! i) ↔ i ∈ T ∧ i ∉ fin;
  tr_agg i agg : av !! i = Some agg → agg_ok cm agg ∧ sa_votes agg = accepting vis i ∧ set_stake cm (accepting vis i) < quorum;
  tr_fin i : i ∈ fin → i ∈ T ∧ ∃ X, (∀ y, y ∈ X → reached y) ∧ quorum ≤ set_stake cm (accepting X i);
}.

Lemma reached_dom y : reached y → is_Some (blocks !! y).
Proof using Hclosed.
  clear Hvalid. unfold reached. induction 1 as [x y H|x y z H _ IH]; [by apply (Hclosed x)|done].
Qed.

Lemma delete_all (l : list TransactionIndex) (m : gmap TransactionIndex (StakeAggregator QuorumThreshold)) i :
  foldl (λ m index, delete index m) m l !! i = if decide (i ∈ l) then None else m !! i.
Proof.
  clear. revert m. induction l as [|x l IH]; intros m; cbn [foldl]; [by rewrite decide_False by apply not_elem_of_nil|].
  rewrite IH. destruct (decide (i = x)) as [->|Hne].
  - rewrite (decide_True _ _ (list_elem_of_here x l)). case_decide; [done|apply lookup_delete_eq].
  - rewrite lookup_delete_ne by done. destruct (decide (i ∈ l)) as [Hi|Hi].
    + by rewrite decide_True by by right.
    + rewrite decide_False; [done|]. rewrite elem_of_cons. tauto.
Qed.

Lemma accept_step av fin tv vis x : traversal_ok av fin tv vis → x ∈ tv →
  ∃ s av' new, blocks !! x = Some s ∧
    for_each (count_accept ctx (br_author x) (default ∅ (bst_reject_votes s !! B))) (av, []) (map_list av) = Done (av', new) ∧
    traversal_ok (foldl (λ m index, delete index m) av' new) (fin ++ new)
      ((tv ∖ {[x]}) ∪ filter (λ b, b ∉ {[x]} ∪ vis) (bst_children s)) ({[x]} ∪ vis).
Proof using Hcm Hclosed Hvalid.
  intros Htr Hx. pose proof (tr_reached _ _ _ _ Htr x ltac:(apply elem_of_union; by left)) as Hrx.
  destruct (reached_dom x Hrx) as [s Hs]. exists s.
  destruct (count_loop (br_author x) (default ∅ (bst_reject_votes s !! B)) (Hvalid x ltac:(eauto)) (map_list av) av [])
    as (av' & new & Hrun & Hsame & Hnew).
  { apply NoDup_map_list. }
  { intros [i agg] Hin%elem_of_map_list. apply (tr_agg _ _ _ _ Htr i agg Hin). }
  exists av', new. split; [done|]. split; [done|].
  assert (Hvotes : default ∅ (bst_reject_votes s !! B) = default ∅ (votes_of_block blocks x !! B)).
  { unfold votes_of_block. by rewrite Hs. }
  assert (Hchild : bst_children s = children_of_block blocks x) by (unfold children_of_block; by rewrite Hs).
  rewrite Hvotes in Hsame, Hnew. set (rj := default ∅ (votes_of_block blocks x !! B)) in *.
  assert (Hkey : ∀ i, i ∉ (map_list av).*1 ↔ av !! i = None).
  { intros i. rewrite eq_None_not_Some. apply not_iff_compat. rewrite list_elem_of_fmap. split.
    - intros ([j agg] & -> & Hin%elem_of_map_list). eauto.
    - intros [agg Hin]. exists (i, agg). by rewrite elem_of_map_list. }
  assert (Hnewin : ∀ i, i ∈ new → is_Some (av !! i) ∧ quorum ≤ set_stake cm (accepting ({[x]} ∪ vis) i)).
  { intros i Hi. destruct (av !! i) as [agg|] eqn:Hav.
    2:{ exfalso. destruct (Hsame i ltac:(left; by apply Hkey)) as [_ Hiff]. by apply Hiff, elem_of_nil in Hi. }
    destruct (decide (i ∈ rj)) as [Hrj|Hrj].
    { exfalso. destruct (Hsame i ltac:(by right)) as [_ Hiff]. by apply Hiff, elem_of_nil in Hi. }
    split; [by eauto|]. destruct (Hnew i agg ltac:(by apply elem_of_map_list) Hrj) as (agg' & _ & _ & _ & Hiff).
    rewrite accepting_add, decide_False by done. destruct (tr_agg _ _ _ _ Htr i agg Hav) as (_ & <- & _).
    destruct (proj1 Hiff Hi) as [Hi'|Hi']; [by apply elem_of_nil in Hi'|done]. }
  split.
  - pose proof (tr_disjoint _ _ _ _ Htr) as Hd. clear -Hd. intros y. rewrite elem_of_union, elem_of_difference, elem_of_filter.
    specialize (Hd y). set_solver.
  - intros y Hy. assert (y ∈ tv ∪ vis ∨ y ∈ children_of_block blocks x) as [?|Hy'].
    { rewrite Hchild in Hy. clear -Hy Hx. set_solver. }
    { by apply (tr_reached _ _ _ _ Htr). }
    unfold reached in Hrx |- *. eapply tc_r; [exact Hrx|exact Hy'].
  - intros y Hy. rewrite Hchild. assert (y ∈ tv ∪ vis ∨ y ∈ children_of_block blocks x) as Hor.
    { destruct Hy as [Hy|(z & [->%elem_of_singleton|Hz]%elem_of_union & Hy)]; [left|by right|left];
        apply (tr_closed _ _ _ _ Htr); [by left|right; eauto]. }
    clear -Hor. destruct (decide (y ∈ ({[x]} ∪ vis : gset BlockRef))) as [Hv|Hv]; [apply elem_of_union; by right|].
    rewrite !elem_of_union, elem_of_difference, elem_of_filter, elem_of_singleton. rewrite elem_of_union in Hor. rewrite elem_of_union, elem_of_singleton in Hv.
    rewrite elem_of_union, elem_of_singleton. tauto.
  - intros i. rewrite delete_all, elem_of_app. case_decide as Hi.
    + split; [by intros []|]. intros [_ Hn]. exfalso. tauto.
    + assert (is_Some (av' !! i) ↔ is_Some (av !! i)) as ->; [|rewrite (tr_keys _ _ _ _ Htr); tauto].
      destruct (av !! i) as [agg|] eqn:Hav.
      * destruct (decide (i ∈ rj)) as [Hrj|Hrj]; [by destruct (Hsame i ltac:(by right)) as [-> _]; rewrite Hav|].
        destruct (Hnew i agg ltac:(by apply elem_of_map_list) Hrj) as (agg' & -> & _). by split; eauto.
      * by destruct (Hsame i ltac:(left; by apply Hkey)) as [-> _]; rewrite Hav.
  - intros i agg1. rewrite delete_all. case_decide as Hi; [done|]. intros Hav'.
    destruct (av !! i) as [agg|] eqn:Hav.
    2:{ destruct (Hsame i ltac:(left; by apply Hkey)) as [Heq _]. congruence. }
    destruct (tr_agg _ _ _ _ Htr i agg Hav) as (Hok & Hv & Hlt). rewrite accepting_add.
    destruct (decide (i ∈ rj)) as [Hrj|Hrj].
    + destruct (Hsame i ltac:(by right)) as [Heq _]. rewrite Heq, Hav in Hav'. injection Hav' as <-.
      by rewrite decide_True.
    + destruct (Hnew i agg ltac:(by apply elem_of_map_list) Hrj) as (agg' & Heq & Hok' & Hv' & Hiff).
      rewrite Heq in Hav'. injection Hav' as <-. split; [done|]. rewrite decide_False, <-Hv by done. split; [done|].
      apply N.nle_gt. intros Hq. apply Hi, Hiff. by right.
  - intros i [Hi|Hi]%elem_of_app; [by apply (tr_fin _ _ _ _ Htr)|].
    destruct (Hnewin i Hi) as [Hav Hq]. split; [by apply (tr_keys _ _ _ _ Htr)|].
    exists ({[x]} ∪ vis). split; [|done]. intros y [->%elem_of_singleton|Hy]%elem_of_union; [done|].
    apply (tr_reached _ _ _ _ Htr), elem_of_union. by right.
Qed.

(** With nothing left to visit, all descendants have been visited. *)
Lemma traversal_exhausted av fin vis i : traversal_ok av fin ∅ vis → i ∈ T → i ∉ fin →
  ∃ X, (∀ y, reached y → y ∈ X) ∧ set_stake cm (accepting X i) < quorum.
Proof using.
  clear Hcm Hclosed Hvalid. intros Htr Hi Hn.
  destruct (proj2 (tr_keys _ _ _ _ Htr i) (conj Hi Hn)) as [agg Hagg]. exists vis.
  split; [|apply (tr_agg _ _ _ _ Htr i agg Hagg)].
  assert (Hc : ∀ z, (z ∈ children_of_block blocks B ∨ ∃ x, x ∈ vis ∧ z ∈ children_of_block blocks x) → z ∈ vis).
  { intros z Hz. apply (tr_closed _ _ _ _ Htr) in Hz. clear -Hz. set_solver. }
  clear -Hc. apply tc_ind_r; [intros z Hz; apply Hc; by left|]. intros a z _ Hz Ha. apply Hc. right. eauto.
Qed.

(** The traversal ends and misses no quorum. *)
Lemma accept_votes_loop_spec fuel : ∀ av fin tv vis, traversal_ok av fin tv vis → vis ⊆ dom blocks →
  (size (dom blocks ∖ vis) ≤ fuel)%nat →
  ∃ res, accept_loop ctx fuel blocks B av fin tv vis = Done res ∧
    (∀ i, i ∈ res → i ∈ T ∧ ∃ X, (∀ y, y ∈ X → reached y) ∧ quorum ≤ set_stake cm (accepting X i)) ∧
    (∀ i, i ∈ T → i ∉ res → ∃ X, (∀ y, reached y → y ∈ X) ∧ set_stake cm (accepting X i) < quorum).
Proof using Hcm Hclosed Hvalid.
  induction fuel as [|fuel IH]; intros av fin tv vis Htr Hvis Hfuel; cbn [accept_loop];
    (destruct (set_first tv) as [x|] eqn:Hx;
     [apply set_first_Some in Hx as [Hx _]|
      apply set_first_None in Hx as ->; exists fin; split_and!;
        [done|apply (tr_fin _ _ _ _ Htr)|by intros i; apply (traversal_exhausted av fin vis)]]);
    (assert (Hxd : x ∈ dom blocks ∖ vis);
     [apply elem_of_difference; split;
       [apply elem_of_dom, reached_dom, (tr_reached _ _ _ _ Htr), elem_of_union; by left
       |pose proof (tr_disjoint _ _ _ _ Htr) as Hd; clear -Hd Hx; set_solver]|]).
  - exfalso. apply Nat.le_0_r, size_empty_inv in Hfuel. by apply Hfuel, elem_of_empty in Hxd.
  - rewrite bool_decide_eq_false_2; [|clear -Hxd; set_solver].
    destruct (accept_step av fin tv vis x Htr Hx) as (s & av' & new & Hs & Hrun & Htr'). rewrite Hs. cbn [expect mbind run_bind].
    rewrite Hrun. cbn [mbind run_bind]. case_bool_decide as Hemp.
    + exists (fin ++ new). split; [done|]. split; [apply (tr_fin _ _ _ _ Htr')|]. intros i Hi Hn. exfalso.
      destruct (proj2 (tr_keys _ _ _ _ Htr' i) (conj Hi Hn)) as [agg Hagg]. rewrite Hemp in Hagg. by rewrite lookup_empty in Hagg.
    + apply IH; [done|clear -Hxd Hvis; set_solver|].
      assert (size (dom blocks ∖ ({[x]} ∪ vis)) < size (dom blocks ∖ vis))%nat; [|lia].
      apply subset_size. clear -Hxd. set_solver.
Qed.
End traversal.
End votes.

Section accepts.
Context (ctx : Context) (G : BlockRef → option VerifiedBlock) (byz : gset AuthorityIndex).
Context (HU : universe_ok (ctx_committee ctx) G byz).
Context (cs : list CommittedSubDag) (m : nat) (blocks : gmap BlockRef BlockState).
Context (Hok : stream_ok ctx G cs) (Hg : graph_ok G cs m blocks).
Abbreviation cm := (ctx_committee ctx).

Lemma graph_children a y : a ∈ stream_refs (drop m cs) → (y ∈ children_of_block blocks a ↔ child G cs a y).
Proof using HU Hok Hg.
  intros Ha. rewrite (bg_children _ _ _ _ Hg a y Ha). unfold child. split.
  - intros [Hy Hinc]. split; [|done]. apply elem_of_drop in Hy as (i & c & _ & ? & ?). apply elem_of_stream. eauto.
  - intros [Hy Hinc]. split; [|done]. apply elem_of_stream in Hy as (i & c & Hi & Hy).
    apply elem_of_drop in Ha as (j & c' & Hj & Hc' & Ha). apply elem_of_drop. exists i, c. split_and!; [|done..].
    pose proof (links_order ctx G byz HU cs i j c c' y a Hok Hi Hy Hc' Ha (tc_once _ _ _ Hinc)). lia.
Qed.

Lemma graph_children_dom r y : y ∈ children_of_block blocks r → is_Some (blocks !! y).
Proof using Hg.
  clear HU Hok. intros Hy. assert (Hr : r ∈ stream_refs (drop m cs)).
  { apply (bg_dom _ _ _ _ Hg). unfold children_of_block in Hy. destruct (blocks !! r); [eauto|by apply elem_of_empty in Hy]. }
  apply (bg_children _ _ _ _ Hg r y Hr) in Hy as [Hy _]. by apply (bg_dom _ _ _ _ Hg).
Qed.

Lemma reached_descends B y : B ∈ stream_refs (drop m cs) → (reached blocks B y ↔ descends G cs B y).
Proof using HU Hok Hg.
  intros HB. unfold reached, descends. split.
  - intros H. induction H as [a y H|a y z H _ IH].
    + by apply tc_once, graph_children.
    + apply graph_children in H as H'; [|done]. eapply tc_l; [done|]. apply IH.
      apply (bg_dom _ _ _ _ Hg). by apply (graph_children_dom a).
  - intros H. induction H as [a y H|a y z H _ IH].
    + by apply tc_once, graph_children.
    + apply graph_children in H; [|done]. eapply tc_l; [exact H|]. apply IH.
      apply (bg_dom _ _ _ _ Hg). by apply (graph_children_dom a).
Qed.

Lemma graph_valid r : is_Some (blocks !! r) → Committee_is_valid_index cm (br_author r).
Proof using HU Hok Hg.
  intros Hr. apply (bg_dom _ _ _ _ Hg) in Hr. apply elem_of_drop in Hr as (i & c & _ & Hi & Hr).
  apply elem_of_commit in Hr as (b & Hb & ->). apply (wf_author _ _ (u_wf _ _ _ HU _ _ (st_blocks _ _ _ Hok i c b Hi Hb))).
Qed.

(** The transactions found are those that a quorum accepts. *)
Lemma indirect_finalize_block_spec cf B (T : gset TransactionIndex) : cf_blocks cf = blocks →
  B ∈ stream_refs (drop m cs) →
  ∃ res, try_indirect_finalize_pending_transactions_in_block ctx cf B T = Done res ∧
    ∀ idx, idx ∈ res ↔ idx ∈ T ∧ quorum_accepts ctx G cs B idx.
Proof using HU Hok Hg.
  intros Hcf HB. unfold try_indirect_finalize_pending_transactions_in_block. rewrite Hcf.
  case_bool_decide as HT. { exists []. split; [done|]. intros idx. rewrite elem_of_nil. set_solver. }
  apply (bg_dom _ _ _ _ Hg) in HB as HBs. destruct HBs as [s Hs]. rewrite Hs. cbn [expect mbind run_bind].
  assert (Hch : bst_children s = children_of_block blocks B) by (unfold children_of_block; by rewrite Hs).
  destruct (accept_votes_loop_spec ctx (u_committee _ _ _ HU) blocks B T graph_children_dom graph_valid (size blocks)
    (gset_to_gmap StakeAggregator_new T) [] (bst_children s) ∅) as (res & Hrun & Hin & Hout).
  - rewrite Hch. split.
    + set_solver.
    + intros y. rewrite union_empty_r_L. intros Hy. by apply tc_once.
    + intros y. rewrite union_empty_r_L. intros [Hy|(x & []%elem_of_empty & _)]. done.
    + intros i. rewrite lookup_gset_to_gmap. unfold guard. case_decide; cbn; [|naive_solver]. rewrite elem_of_nil. naive_solver.
    + intros i agg [_ <-]%lookup_gset_to_gmap_Some.
      assert (accepting blocks B ∅ i = ∅) as -> by (unfold accepting; set_solver). rewrite set_stake_empty.
      split_and!; [apply agg_ok_new|done|]. pose proof (quorum_validity_total cm (u_committee _ _ _ HU)).
      pose proof (u_byz _ _ _ HU). pose proof (two_validities cm (u_committee _ _ _ HU)). lia.
    + by intros i ?%elem_of_nil.
  - set_solver.
  - rewrite difference_empty_L, <-size_dom. done.
  - exists res. split; [done|]. intros idx. split.
    + intros Hi. destruct (Hin idx Hi) as (HiT & X & HX & Hq). split; [done|]. exists (accepting blocks B X idx).
      split; [done|]. intros h. unfold accepting. rewrite elem_of_map. setoid_rewrite elem_of_filter.
      intros (r & -> & Hn & Hr). exists r. split; [done|]. apply HX, reached_descends in Hr as Hd; [|done].
      split; [done|]. intros Hrj. apply Hn, (bg_complete _ _ _ _ Hg r B idx); [|exact HB|exact Hrj].
      apply (bg_dom _ _ _ _ Hg), (reached_dom _ B graph_children_dom r). exact Hr.
    + intros [HiT (A & HA & Hacc)]. destruct (decide (idx ∈ res)) as [|Hn]; [done|exfalso].
      destruct (Hout idx HiT Hn) as (X & HX & Hlt).
      assert (Hsub : A ⊆ accepting blocks B X idx); [|pose proof (set_stake_mono cm A _ Hsub); lia].
      intros h Hh. destruct (Hacc h Hh) as (r & <- & Hd & Hnr). apply elem_of_map. exists r. split; [done|].
      apply elem_of_filter. split; [|by apply HX, reached_descends]. intros Hv. apply Hnr. by apply (bg_sound _ _ _ _ Hg).
Qed.
End accepts.
