(* ===== verification/FinalizerStates.v ===== *)
(** * The commit states of the commit finalizer

    What direct finalization, the late rejections and indirect finalization
    record for the transactions of one commit is justified by the finalization
    rule at every point. *)
From S2P Require Import Prelude Committee StakeAggregator Block ThresholdClock Commit LeaderScoring Store DagState DagStateProofs DagTraversal LeaderSchedule BaseCommitter CommitRule DagViews TransactionCertifier CertifierProofs CommitFinalizer FinalizerRule FinalizerLinks FinalizerVotes.

(** No entry of the map is empty. *)
Definition sets_ok (m : gmap BlockRef (gset TransactionIndex)) : Prop := ∀ B T, m !! B = Some T → T ≠ ∅.

Lemma sets_ok_empty m : sets_ok m → (m = ∅ ↔ ∀ B idx, ¬ tx_in m B idx).
Proof.
  intros Hs. split; [intros -> B idx; apply tx_in_empty|]. intros Hno. apply map_eq. intros B. rewrite lookup_empty.
  destruct (m !! B) as [T|] eqn:HB; [exfalso|done]. apply (Hs B T HB), set_eq. intros idx. split; [|by intros ?%elem_of_empty].
  intros Hidx. exfalso. apply (Hno B idx). unfold tx_in. by rewrite HB.
Qed.

Lemma sets_ok_extend m B T : sets_ok m → T ≠ ∅ → sets_ok (extend_entry B T m).
Proof.
  intros Hs HT X Y. unfold extend_entry. destruct (decide (B = X)) as [->|Hne].
  - rewrite lookup_insert_eq. intros [= <-] He. apply HT, set_eq. intros i.
    assert (i ∈ default ∅ (m !! X) ∪ T ↔ i ∈ (∅ : gset TransactionIndex)) by by rewrite He. set_solver.
  - rewrite lookup_insert_ne by done. apply Hs.
Qed.

Lemma remove_pending_spec s B l : let s' := remove_pending_transactions s B l in
  cst_commit s' = cst_commit s ∧ cst_pending_blocks s' = cst_pending_blocks s ∧
  cst_rejected_transactions s' = cst_rejected_transactions s ∧
  (sets_ok (cst_pending_transactions s) → sets_ok (cst_pending_transactions s')) ∧
  ∀ X idx, tx_in (cst_pending_transactions s') X idx ↔ tx_in (cst_pending_transactions s) X idx ∧ ¬ (X = B ∧ idx ∈ l).
Proof.
  unfold remove_pending_transactions. destruct (cst_pending_transactions s !! B) as [T|] eqn:HB; cbn [cst_commit
    cst_pending_blocks cst_rejected_transactions cst_pending_transactions].
  - do 3 (split; [done|]). case_bool_decide as He; split.
    + intros Hs X Y HX. apply (Hs X). by apply lookup_delete_Some in HX as [_ ?].
    + intros X idx. unfold tx_in. destruct (decide (X = B)) as [->|Hne].
      * rewrite lookup_delete_eq, HB. cbn. assert (idx ∉ T ∖ list_to_set l) by (rewrite He; apply not_elem_of_empty).
        rewrite elem_of_difference, elem_of_list_to_set in H. split; [by intros ?%elem_of_empty|]. intros [? Hn]. exfalso. tauto.
      * rewrite lookup_delete_ne by done. naive_solver.
    + intros Hs X Y [[<- <-]|[_ HX]]%lookup_insert_Some; [done|by apply (Hs X)].
    + intros X idx. unfold tx_in. destruct (decide (X = B)) as [->|Hne].
      * rewrite lookup_insert_eq, HB. cbn. rewrite elem_of_difference, elem_of_list_to_set. tauto.
      * rewrite lookup_insert_ne by done. naive_solver.
  - do 3 (split; [done|]). split; [done|]. intros X idx. split; [|by intros [? _]]. intros Hin. split; [done|].
    intros [-> _]. unfold tx_in in Hin. rewrite HB in Hin. by apply elem_of_empty in Hin.
Qed.

Section states.
Context (ctx : Context) (G : BlockRef → option VerifiedBlock) (byz : gset AuthorityIndex).
Context (HU : universe_ok (ctx_committee ctx) G byz).
Implicit Types (cs : list CommittedSubDag) (B a : BlockRef) (idx : TransactionIndex) (c : CommittedSubDag).
Implicit Types (s : CommitState) (st : CertifierState).
Abbreviation cm := (ctx_committee ctx).
Abbreviation quorum := (c_quorum_threshold cm).

(** Evidence at some earlier point of the sequence. *)
Definition finalized cs k B idx : Prop := ∃ cs0, cs0 `prefix_of` cs ∧ finalized_by ctx G cs0 k B idx.
Definition rejected cs k B idx : Prop := ∃ cs0, cs0 `prefix_of` cs ∧ rejected_by ctx G cs0 k B idx.

(** A commit that has been through direct finalization. *)
Record state_ok cs (k : nat) c st s : Prop := {
  fs_commit : cst_commit s = c;
  fs_blocks : cst_pending_blocks s = ∅;
  fs_sets : sets_ok (cst_pending_transactions s);
  fs_pending B idx : tx_in (cst_pending_transactions s) B idx → B ∈ commit_refs c ∧ has_rejects (entry st B) idx;
  fs_rejected B idx : tx_in (cst_rejected_transactions s) B idx → B ∈ commit_refs c ∧ rejected cs k B idx;
  fs_final B idx : B ∈ commit_refs c → ¬ tx_in (cst_pending_transactions s) B idx →
    ¬ tx_in (cst_rejected_transactions s) B idx → finalized cs k B idx;
}.

(** A commit that has not. *)
Record unprocessed c s : Prop := {
  un_commit : cst_commit s = c;
  un_blocks B : is_Some (cst_pending_blocks s !! B) ↔ B ∈ commit_refs c;
  un_pending : cst_pending_transactions s = ∅;
  un_rejected : cst_rejected_transactions s = ∅;
}.

Lemma CommitState_new_spec c : sd_leader c ∈ commit_refs c → ∃ s, CommitState_new c = Done s ∧ unprocessed c s.
Proof.
  clear HU. intros Hl. unfold CommitState_new.
  match goal with |- context [mk_commit_state c ?m ∅ ∅] => set (pb := m) end.
  assert (Hpb : ∀ B, is_Some (pb !! B) ↔ B ∈ commit_refs c).
  { intros B. unfold pb. rewrite <-elem_of_dom, dom_list_to_map_L, elem_of_list_to_set, fmap_reverse, elem_of_reverse.
    rewrite <-list_fmap_compose. done. }
  assert (pb ≠ ∅).
  { intros He. destruct (proj2 (Hpb (sd_leader c)) Hl) as [x Hx]. rewrite He in Hx. by rewrite lookup_empty in Hx. }
  rewrite bool_decide_eq_false_2 by done. cbn. eexists. split; [done|]. by split.
Qed.

(** ** Direct finalization *)

Lemma direct_fold B l s : let s' := foldl (direct_transaction ctx B) s l in
  cst_commit s' = cst_commit s ∧ cst_pending_blocks s' = cst_pending_blocks s ∧
  (sets_ok (cst_pending_transactions s) → sets_ok (cst_pending_transactions s')) ∧
  (∀ X idx, tx_in (cst_pending_transactions s') X idx ↔
     tx_in (cst_pending_transactions s) X idx ∨ X = B ∧ ∃ stake, (idx, stake) ∈ l ∧ stake < quorum) ∧
  (∀ X idx, tx_in (cst_rejected_transactions s') X idx ↔
     tx_in (cst_rejected_transactions s) X idx ∨ X = B ∧ ∃ stake, (idx, stake) ∈ l ∧ quorum ≤ stake).
Proof.
  clear HU. revert s. induction l as [|[i w] l IH]; intros s; cbn [foldl].
  { split_and!; try done; intros X idx; split; auto; intros [?|(_ & x & []%elem_of_nil & _)]; done. }
  destruct (IH (direct_transaction ctx B s (i, w))) as (H1 & H2 & H3 & H4 & H5).
  assert (Hone : cst_commit (direct_transaction ctx B s (i, w)) = cst_commit s ∧
    cst_pending_blocks (direct_transaction ctx B s (i, w)) = cst_pending_blocks s ∧
    (sets_ok (cst_pending_transactions s) → sets_ok (cst_pending_transactions (direct_transaction ctx B s (i, w)))) ∧
    (∀ X idx, tx_in (cst_pending_transactions (direct_transaction ctx B s (i, w))) X idx ↔
       tx_in (cst_pending_transactions s) X idx ∨ X = B ∧ idx = i ∧ w < quorum) ∧
    (∀ X idx, tx_in (cst_rejected_transactions (direct_transaction ctx B s (i, w))) X idx ↔
       tx_in (cst_rejected_transactions s) X idx ∨ X = B ∧ idx = i ∧ quorum ≤ w)).
  { unfold direct_transaction. case_bool_decide as Hw; cbn; split_and!; try done.
    - intros Hs. apply sets_ok_extend; [done|]. set_solver.
    - intros X idx. rewrite tx_in_extend, elem_of_singleton. naive_solver.
    - intros X idx. split; [by left|]. intros [?|(_ & _ & ?)]; [done|lia].
    - intros X idx. split; [by left|]. intros [?|(_ & _ & ?)]; [done|lia].
    - intros X idx. rewrite tx_in_extend, elem_of_singleton. assert (quorum ≤ w) by lia. naive_solver. }
  destruct Hone as (O1 & O2 & O3 & O4 & O5). split_and!; [congruence..|auto| |].
  - intros X idx. rewrite H4, O4. setoid_rewrite elem_of_cons. split.
    + intros [[?|(-> & -> & ?)]|(-> & x & ? & ?)]; [by left|right; eauto 6|right; eauto 6].
    + intros [?|(-> & x & [[= -> ->]|?] & ?)]; [by left; left|by left; right|right; eauto].
  - intros X idx. rewrite H5, O5. setoid_rewrite elem_of_cons. split.
    + intros [[?|(-> & -> & ?)]|(-> & x & ? & ?)]; [by left|right; eauto 6|right; eauto 6].
    + intros [?|(-> & x & [[= -> ->]|?] & ?)]; [by left; left|by left; right|right; eauto].
Qed.

Lemma get_reject_votes_spec st B : is_Some (cs_votes st !! B) → ∃ l, get_reject_votes st B = Some l ∧ NoDup l.*1 ∧
  ∀ idx w, (idx, w) ∈ l ↔ ∃ agg, vi_reject_txn_votes (entry st B) !! idx = Some agg ∧ w = sa_stake agg.
Proof.
  clear HU. intros [vi Hvi]. unfold get_reject_votes, entry. rewrite Hvi. cbn. eexists. split; [done|]. split.
  - rewrite <-list_fmap_compose. erewrite list_fmap_ext; [apply NoDup_map_list|]. by intros ? [].
  - intros idx w. rewrite list_elem_of_fmap. split.
    + intros ([i agg] & [= -> ->] & Hin%elem_of_map_list). eauto.
    + intros (agg & Hagg & ->). exists (idx, agg). by rewrite elem_of_map_list.
Qed.

Lemma direct_blocks st (l : list (BlockRef * N)) : (∀ p, p ∈ l → is_Some (cs_votes st !! p.1)) → ∀ s,
  ∃ s', for_each (direct_block ctx st) s l = Done s' ∧ cst_commit s' = cst_commit s ∧
    cst_pending_blocks s' = cst_pending_blocks s ∧
    (sets_ok (cst_pending_transactions s) → sets_ok (cst_pending_transactions s')) ∧
    (∀ X idx, tx_in (cst_pending_transactions s') X idx ↔ tx_in (cst_pending_transactions s) X idx ∨
       X ∈ l.*1 ∧ ∃ agg, vi_reject_txn_votes (entry st X) !! idx = Some agg ∧ sa_stake agg < quorum) ∧
    (∀ X idx, tx_in (cst_rejected_transactions s') X idx ↔ tx_in (cst_rejected_transactions s) X idx ∨
       X ∈ l.*1 ∧ ∃ agg, vi_reject_txn_votes (entry st X) !! idx = Some agg ∧ quorum ≤ sa_stake agg).
Proof.
  clear HU. induction l as [|[B n] l IH]; intros Hl s; cbn [for_each].
  { exists s. split_and!; try done; intros X idx; split; auto; intros [?|([]%elem_of_nil & _)]; done. }
  destruct (get_reject_votes_spec st B (Hl (B, n) ltac:(left))) as (votes & Hv & _ & Hvotes).
  assert (direct_block ctx st s (B, n) = Done (foldl (direct_transaction ctx B) s votes)) as ->
    by (unfold direct_block; by rewrite Hv). cbn [mbind run_bind].
  destruct (direct_fold B votes s) as (D1 & D2 & D3 & D4 & D5).
  destruct (IH (λ p Hp, Hl p (list_elem_of_further _ _ _ Hp)) (foldl (direct_transaction ctx B) s votes))
    as (s' & Hrun & H1 & H2 & H3 & H4 & H5).
  exists s'. split; [done|]. split_and!; [congruence..|auto| |]; intros X idx; csimpl; rewrite elem_of_cons.
  - rewrite H4, D4. setoid_rewrite Hvotes. split.
    + intros [[?|(-> & w & (agg & ? & ->) & ?)]|(? & ?)]; [by left|right; split; [by left|eauto]|right; split; [by right|done]].
    + intros [?|([->|?] & agg & ? & ?)]; [by left; left|left; right; eauto 6|right; eauto].
  - rewrite H5, D5. setoid_rewrite Hvotes. split.
    + intros [[?|(-> & w & (agg & ? & ->) & ?)]|(? & ?)]; [by left|right; split; [by left|eauto]|right; split; [by right|done]].
    + intros [?|([->|?] & agg & ? & ?)]; [by left; left|left; right; eauto 6|right; eauto].
Qed.

(** The part of the DAG a certifier has the votes of. *)
Definition voted_in st (D : BlockRef → Prop) : Prop :=
  ∀ r b, D r → G r = Some b → cs_gc_round st < br_round r → vi_block (entry st r) = Some b.

Lemma no_rejects_silent st D B idx : votes_linked G → cert_inv ctx G None st → voted_in st D →
  is_Some (cs_votes st !! B) → ¬ has_rejects (entry st B) idx → silent G D B idx.
Proof using HU.
  intros Hlinked Hinv Hvoted HB Hno r b HD Hb Hrj.
  pose proof (links_round ctx G byz HU _ _ (Hlinked r b B idx Hb Hrj)) as Hround.
  pose proof (ci_gc _ _ _ _ Hinv B HB) as Hgc.
  assert (Hblk : vi_block (entry st r) = Some b) by (apply (Hvoted r b); [done..|lia]).
  unfold entry in Hblk. destruct (cs_votes st !! r) as [vi|] eqn:Hvi; [|done].
  destruct Hrj as (v & Hv & <- & Hidx).
  pose proof (ci_complete _ _ _ _ Hinv r vi b v idx ltac:(done) Hvi Hblk Hv Hidx Hgc) as Hin. apply Hno.
  unfold has_rejects. unfold rejecters in Hin. destruct (vi_reject_txn_votes (entry st (btv_block_ref v)) !! idx); [eauto|].
  by apply elem_of_empty in Hin.
Qed.

Lemma reject_stake_quorum st B idx agg : cert_inv ctx G None st → vi_reject_txn_votes (entry st B) !! idx = Some agg →
  quorum ≤ sa_stake agg → quorum_rejects ctx G B idx.
Proof using HU.
  intros Hinv Hagg Hq. destruct (entry_ok ctx G None st B Hinv) as [_ Hok]. destruct (Hok idx agg Hagg) as [Hst _].
  exists (sa_votes agg). rewrite <-Hst. split; [done|]. intros h Hh.
  unfold entry in Hagg. destruct (cs_votes st !! B) as [vi|] eqn:HB; [|cbn in Hagg; by rewrite lookup_empty in Hagg].
  destruct (ci_sound _ _ _ _ Hinv B vi idx h HB) as (r & b & Hb & Hau & Hrj).
  { unfold rejecters. cbn in Hagg. by rewrite Hagg. }
  exists r, b. split_and!; try done. by rewrite <-(u_reference _ _ _ HU _ _ Hb).
Qed.

Lemma direct_state cs k c st s D : stream_ok ctx G cs → cs !! k = Some c → votes_linked G → cert_inv ctx G None st →
  (∀ B, B ∈ commit_refs c → is_Some (cs_votes st !! B)) → certified_in ctx G cs k D → voted_in st D → unprocessed c s →
  ∃ s', for_each (direct_block ctx st)
          (mk_commit_state (cst_commit s) ∅ (cst_pending_transactions s) (cst_rejected_transactions s))
          (map_list (cst_pending_blocks s)) = Done s' ∧ state_ok cs k c st s'.
Proof using HU.
  intros Hok Hk Hlinked Hinv Hknown HD Hvoted Hun. pose proof (un_blocks _ _ Hun) as Hblocks.
  assert (Hkeys : ∀ X, X ∈ (map_list (cst_pending_blocks s)).*1 ↔ X ∈ commit_refs c).
  { intros X. rewrite <-Hblocks, list_elem_of_fmap. split.
    - intros ([B n] & -> & Hin%elem_of_map_list). eauto.
    - intros [n Hn]. exists (X, n). by rewrite elem_of_map_list. }
  match goal with |- context [for_each _ ?s0 _] => destruct (direct_blocks st (map_list (cst_pending_blocks s))) with (s := s0)
    as (s' & Hrun & H1 & H2 & H3 & H4 & H5) end.
  { intros p Hp. apply Hknown, Hkeys. by apply list_elem_of_fmap_2. }
  exists s'. split; [done|]. cbn in H1, H2, H3, H4, H5. rewrite (un_pending _ _ Hun) in H3, H4. rewrite (un_rejected _ _ Hun) in H5.
  split.
  - by rewrite H1, (un_commit _ _ Hun).
  - done.
  - apply H3. intros B T HB. by rewrite lookup_empty in HB.
  - intros B idx [[]%tx_in_empty|(HB%Hkeys & agg & Hagg & _)]%H4. split; [done|]. by exists agg.
  - intros B idx [[]%tx_in_empty|(HB%Hkeys & agg & Hagg & Hq)]%H5. split; [done|]. exists cs. split; [done|]. left.
    by apply (reject_stake_quorum st B idx agg).
  - intros B idx HB Hp Hr. exists cs. split; [done|]. left. exists D. split; [done|].
    apply (no_rejects_silent st); [done..|by apply Hknown|]. intros [agg Hagg].
    destruct (decide (sa_stake agg < quorum)) as [Hlt|Hge].
    + apply Hp, H4. right. split; [by apply Hkeys|]. eauto.
    + apply Hr, H5. right. split; [by apply Hkeys|]. exists agg. split; [done|]. lia.
Qed.

(** ** Late rejection *)

Lemma reject_step cs k c st s B l : state_ok cs k c st s → B ∈ commit_refs c →
  (∀ idx, idx ∈ l → rejected cs k B idx) →
  state_ok cs k c st (reject_transactions (remove_pending_transactions s B l) B (list_to_set l)).
Proof.
  clear HU. intros Hs HB Hl. destruct (remove_pending_spec s B l) as (R1 & R2 & R3 & R4 & R5).
  split; cbn; rewrite ?R1, ?R2, ?R3; try apply Hs.
  - by apply R4, Hs.
  - intros X idx [Hin _]%R5. by apply (fs_pending _ _ _ _ _ Hs).
  - intros X idx. rewrite tx_in_extend, elem_of_list_to_set. intros [?|[<- Hidx]]; [by apply (fs_rejected _ _ _ _ _ Hs)|auto].
  - intros X idx HX Hp Hr. rewrite tx_in_extend, elem_of_list_to_set in Hr. rewrite R5 in Hp.
    apply (fs_final _ _ _ _ _ Hs X idx HX); [|tauto]. intros Hin. apply Hp. split; [done|]. intros [-> ?]. tauto.
Qed.

Lemma finalize_step cs k c st s B l : state_ok cs k c st s → (∀ idx, idx ∈ l → finalized cs k B idx) →
  state_ok cs k c st (remove_pending_transactions s B l).
Proof.
  clear HU. intros Hs Hl. destruct (remove_pending_spec s B l) as (R1 & R2 & R3 & R4 & R5).
  split; rewrite ?R1, ?R2, ?R3; try apply Hs.
  - by apply R4, Hs.
  - intros X idx [Hin _]%R5. by apply (fs_pending _ _ _ _ _ Hs).
  - intros X idx HX Hp Hr. rewrite R5 in Hp.
    destruct (decide (X = B ∧ idx ∈ l)) as [[-> ?]|Hn]; [by apply Hl|]. apply (fs_final _ _ _ _ _ Hs X idx HX); tauto.
Qed.

Lemma update_first_spec f cf s rest : cf_pending_commits cf = s :: rest →
  update_first f cf = Done (set_pending (f s :: rest) cf).
Proof. clear. intros Hcf. unfold update_first, first_commit, vec_get, vec_set. by rewrite Hcf. Qed.

Lemma collect_rejected_spec st acc B (T : gset TransactionIndex) : cert_inv ctx G None st → is_Some (cs_votes st !! B) →
  (∀ idx, idx ∈ T → has_rejects (entry st B) idx) →
  ∃ r, collect_rejected ctx st acc (B, T) = Done (if bool_decide (r = []) then acc else acc ++ [(B, r)]) ∧
    ∀ idx, idx ∈ r → quorum_rejects ctx G B idx.
Proof using HU.
  intros Hinv HB HT. unfold collect_rejected. destruct (get_reject_votes_spec st B HB) as (l & -> & Hnd & Hl). cbn [expect mbind run_bind].
  match goal with |- context [for_each ?f [] (set_list T)] =>
    destruct (for_each_total (λ r : list TransactionIndex, ∀ idx, idx ∈ r → quorum_rejects ctx G B idx) f [] (set_list T))
      as (r & Hrun & Hr) end.
  - by intros idx ?%elem_of_nil.
  - intros r idx Hidx%elem_of_set_list Hr. destruct (HT idx Hidx) as [agg Hagg].
    assert ((list_to_map (reverse l) : gmap TransactionIndex Stake) !! idx = Some (sa_stake agg)) as ->.
    { apply elem_of_list_to_map_1; [rewrite fmap_reverse, reverse_Permutation; exact Hnd|]. apply elem_of_reverse, Hl. eauto. }
    cbn [expect mbind run_bind]. case_bool_decide as Hq; [by exists r|]. eexists. split; [done|].
    intros i [Hi| ->%list_elem_of_singleton]%elem_of_app; [by apply Hr|]. apply (reject_stake_quorum st B idx agg); [done..|lia].
  - rewrite Hrun. cbn [mbind run_bind]. by exists r.
Qed.

Lemma check_pending_spec cs k c st cf s rest : cert_inv ctx G None st → (∀ B, B ∈ commit_refs c → is_Some (cs_votes st !! B)) →
  state_ok cs k c st s → cf_pending_commits cf = s :: rest →
  ∃ s', check_pending_transactions_in_first_commit ctx st cf = Done (set_pending (s' :: rest) cf) ∧ state_ok cs k c st s'.
Proof using HU.
  intros Hinv Hknown Hs Hcf. unfold check_pending_transactions_in_first_commit, first_commit, vec_get.
  rewrite Hcf. cbn [lookup list_lookup expect mbind run_bind].
  destruct (for_each_total (λ all : list (BlockRef * list TransactionIndex), ∀ p, p ∈ all → p.1 ∈ commit_refs c ∧
              ∀ idx, idx ∈ p.2 → rejected cs k p.1 idx) (collect_rejected ctx st) [] (map_list (cst_pending_transactions s)))
    as (all & -> & Hall).
  { by intros p ?%elem_of_nil. }
  { intros acc [B T] HBT%elem_of_map_list Hacc.
    assert (HT : ∀ idx, idx ∈ T → tx_in (cst_pending_transactions s) B idx) by (intros idx; unfold tx_in; by rewrite HBT).
    assert (HB : B ∈ commit_refs c).
    { destruct (set_choose_L T) as [idx Hidx]; [by apply (fs_sets _ _ _ _ _ Hs B)|]. by apply (fs_pending _ _ _ _ _ Hs B idx), HT. }
    destruct (collect_rejected_spec st acc B T Hinv (Hknown B HB)) as (r & -> & Hr).
    { intros idx Hidx. by apply (fs_pending _ _ _ _ _ Hs), HT. }
    eexists. split; [done|]. case_bool_decide; [done|]. intros p [Hp| ->%list_elem_of_singleton]%elem_of_app; [by apply Hacc|].
    split; [done|]. intros idx Hidx. exists cs. split; [done|]. left. by apply Hr. }
  cbn [mbind run_bind].
  match goal with |- context [for_each ?f cf all] =>
    destruct (for_each_total (λ cf', ∃ s', cf' = set_pending (s' :: rest) cf ∧ state_ok cs k c st s') f cf all)
      as (cf' & -> & s' & -> & Hs') end.
  - exists s. split; [|done]. rewrite <-Hcf. by destruct cf.
  - intros cf' [B r] Hin (s1 & -> & Hs1). destruct (Hall _ Hin) as [HB Hr]. cbn [fst snd] in HB, Hr.
    erewrite update_first_spec by done. eexists. split; [done|]. eexists. split; [done|]. by apply reject_step.
  - by exists s'.
Qed.

(** ** Indirect finalization *)

Lemma indirect_finalize_spec cs m k c st cf s rest : stream_ok ctx G cs → graph_ok G cs m (cf_blocks cf) → cs !! k = Some c →
  (m ≤ k)%nat →
  (∀ j cj, cs !! j = Some cj → (Datatypes.S j < length cs)%nat → sd_round cj < sd_round c + 3) →
  state_ok cs k c st s → cf_pending_commits cf = s :: rest →
  ∃ s', try_indirect_finalize_pending_transactions_in_first_commit ctx cf = Done (set_pending (s' :: rest) cf) ∧
    state_ok cs k c st s' ∧ ∀ B idx, tx_in (cst_pending_transactions s') B idx → ¬ quorum_accepts ctx G cs B idx.
Proof using HU.
  intros Hok Hg Hk Hmk Hearly Hs Hcf. unfold try_indirect_finalize_pending_transactions_in_first_commit, first_commit, vec_get.
  rewrite Hcf. cbn [lookup list_lookup expect mbind run_bind].
  match goal with |- context [for_each ?f [] (map_list _)] =>
    destruct (for_each_run (λ dn (all : list (BlockRef * list TransactionIndex)),
        (∀ p, p ∈ all → ∀ idx, idx ∈ p.2 → finalized cs k p.1 idx) ∧
        ∀ B T idx, (B, T) ∈ dn → idx ∈ T → quorum_accepts ctx G cs B idx → ∃ r, (B, r) ∈ all ∧ idx ∈ r) f []
        (map_list (cst_pending_transactions s))) as (all & -> & Hall & Hcomplete) end.
  { split; [by intros p ?%elem_of_nil|by intros B T idx ?%elem_of_nil]. }
  { intros dn [B T] rem acc Heq [Hacc Hdn].
    assert (HBT : cst_pending_transactions s !! B = Some T).
    { apply elem_of_map_list. rewrite Heq. apply elem_of_app. right. left. }
    assert (HB : B ∈ commit_refs c).
    { destruct (set_choose_L T) as [idx Hidx]; [by apply (fs_sets _ _ _ _ _ Hs B)|].
      apply (fs_pending _ _ _ _ _ Hs B idx). unfold tx_in. by rewrite HBT. }
    destruct (indirect_finalize_block_spec ctx G byz HU cs m (cf_blocks cf) Hok Hg cf B T eq_refl) as (res & -> & Hres).
    { apply elem_of_drop. eauto. }
    cbn [mbind run_bind]. eexists. split; [done|]. split.
    - intros p Hp. assert (p ∈ acc ∨ p = (B, res)) as [?| ->]; [|by apply Hacc|].
      { revert Hp. case_bool_decide; [by left|]. by rewrite elem_of_app, list_elem_of_singleton. }
      intros idx [_ Hq]%Hres. exists cs. split; [done|]. right. exists c. done.
    - intros X Y idx HXY Hidx Hq. assert ((X, Y) ∈ dn ∨ (X, Y) = (B, T)) as [Hin|[= -> ->]].
      { apply elem_of_app in HXY as [?|?%list_elem_of_singleton]; auto. }
      + destruct (Hdn X Y idx Hin Hidx Hq) as (r & Hr & ?). exists r. split; [|done]. case_bool_decide; [done|].
        apply elem_of_app. by left.
      + assert (idx ∈ res) by (apply Hres; done). exists res. split; [|done]. rewrite bool_decide_eq_false_2.
        * apply elem_of_app. right. by left.
        * intros ->. by apply elem_of_nil in H. }
  cbn [mbind run_bind].
  match goal with |- context [for_each ?f cf all] =>
    destruct (for_each_run (λ dn cf', ∃ s', cf' = set_pending (s' :: rest) cf ∧ state_ok cs k c st s' ∧
        ∀ B idx, tx_in (cst_pending_transactions s') B idx → tx_in (cst_pending_transactions s) B idx ∧
          ∀ r, (B, r) ∈ dn → idx ∉ r) f cf all) as (cf' & -> & s' & -> & Hs' & Hp) end.
  - exists s. split_and!; [rewrite <-Hcf; by destruct cf|done|]. intros B idx Hin. split; [done|]. by intros r ?%elem_of_nil.
  - intros dn [B r] rem cf' Heq (s1 & -> & Hs1 & Hp). erewrite update_first_spec by done. eexists. split; [done|].
    eexists. split; [done|]. split.
    + apply finalize_step; [done|]. apply (Hall (B, r)). rewrite Heq. apply elem_of_app. right. left.
    + intros X idx Hin. destruct (remove_pending_spec s1 B r) as (_ & _ & _ & _ & R5). apply R5 in Hin as [Hin Hn].
      destruct (Hp X idx Hin) as [? Hdn]. split; [done|].
      intros r' [?|[= -> ->]%list_elem_of_singleton]%elem_of_app; [by apply Hdn|]. intros ?. by apply Hn.
  - exists s'. split; [done|]. split; [done|]. intros B idx Hin Hq. destruct (Hp B idx Hin) as [Hin0 Hn].
    unfold tx_in in Hin0. destruct (cst_pending_transactions s !! B) as [T|] eqn:HT; [|by apply elem_of_empty in Hin0].
    destruct (Hcomplete B T idx) as (r & Hr & Hidx); [by apply elem_of_map_list|done..|]. by apply (Hn r).
Qed.

Lemma reject_fold l s : foldl (λ s '(block_ref, transactions), reject_transactions s block_ref transactions) s l =
  mk_commit_state (cst_commit s) (cst_pending_blocks s) (cst_pending_transactions s)
    (foldl (λ m '(block_ref, reject_votes), extend_entry block_ref reject_votes m) (cst_rejected_transactions s) l).
Proof. clear. revert s. induction l as [|[B T] l IH]; intros s; cbn [foldl]; [by destruct s|]. by rewrite IH. Qed.

Lemma indirect_reject_spec cs k c cl st cf s rest sl : stream_ok ctx G cs → cs !! k = Some c →
  last cs = Some cl → last (s :: rest) = Some sl → cst_commit sl = cl →
  (∀ j cj, cs !! j = Some cj → (Datatypes.S j < length cs)%nat → sd_round cj < sd_round c + 3) →
  state_ok cs k c st s → cf_pending_commits cf = s :: rest →
  (∀ B idx, tx_in (cst_pending_transactions s) B idx → ¬ quorum_accepts ctx G cs B idx) →
  ∃ s', try_indirect_reject_pending_transactions_in_first_commit cf = Done (set_pending (s' :: rest) cf) ∧
    state_ok cs k c st s' ∧ (sd_round c + 3 ≤ sd_round cl → cst_pending_transactions s' = ∅).
Proof.
  clear HU. intros Hok Hk Hcl Hsl Hslc Hearly Hs Hcf Hno.
  unfold try_indirect_reject_pending_transactions_in_first_commit, first_commit, vec_get.
  rewrite Hcf, Hsl. cbn [lookup list_lookup expect mbind run_bind]. rewrite (fs_commit _ _ _ _ _ Hs), Hslc.
  change (br_round (sd_leader c)) with (sd_round c). change (br_round (sd_leader cl)) with (sd_round cl).
  rewrite u32_add_small by (pose proof (st_bound _ _ _ Hok k c Hk); unfold INDIRECT_REJECT_DEPTH; lia).
  unfold INDIRECT_REJECT_DEPTH. case_bool_decide as Hle.
  2:{ exists s. split; [rewrite <-Hcf; by destruct cf|]. split; [done|]. done. }
  rewrite bool_decide_eq_true_2 by apply (fs_blocks _ _ _ _ _ Hs). cbn [mbind run_bind].
  erewrite update_first_spec by done. eexists. split; [done|]. rewrite reject_fold. cbn.
  assert (Hlast : cs !! pred (length cs) = Some cl) by by rewrite <-last_lookup.
  assert (Hlen : (0 < length cs)%nat) by (apply lookup_lt_Some in Hk; lia).
  assert (Hrej : ∀ B idx, ¬ quorum_accepts ctx G cs B idx → rejected cs k B idx).
  { intros B idx Hn. exists cs. split; [done|]. right. exists (pred (length cs)). split.
    - split; [by exists c, cl|]. intros j c' cj Hc' Hj Hlt. rewrite Hk in Hc'. injection Hc' as <-.
      apply (Hearly j cj Hj). lia.
    - by rewrite take_ge by lia. }
  split; [split; cbn; try apply Hs|done].
  - intros B T HB. by rewrite lookup_empty in HB.
  - by intros B idx ?%tx_in_empty.
  - intros B idx. rewrite tx_in_inherit. intros [?|Hin]; [by apply (fs_rejected _ _ _ _ _ Hs)|].
    split; [by apply (fs_pending _ _ _ _ _ Hs B idx)|]. by apply Hrej, Hno.
  - intros B idx HB _. rewrite tx_in_inherit. intros Hn. apply (fs_final _ _ _ _ _ Hs); tauto.
Qed.

(** [try_indirect_finalize_first_commit]: the commit stays justified, and is
    decided once the last commit is a wave above it. *)
Lemma indirect_first_spec cs m k c cl st cf s rest sl : stream_ok ctx G cs → graph_ok G cs m (cf_blocks cf) →
  cs !! k = Some c → (m ≤ k)%nat → last cs = Some cl → last (s :: rest) = Some sl → cst_commit sl = cl →
  (∀ j cj, cs !! j = Some cj → (Datatypes.S j < length cs)%nat → sd_round cj < sd_round c + 3) →
  cert_inv ctx G None st → (∀ B, B ∈ commit_refs c → is_Some (cs_votes st !! B)) →
  rest ≠ [] → state_ok cs k c st s → cf_pending_commits cf = s :: rest →
  ∃ s', try_indirect_finalize_first_commit ctx st cf = Done (set_pending (s' :: rest) cf) ∧ state_ok cs k c st s' ∧
    (sd_round c + 3 ≤ sd_round cl → cst_pending_transactions s' = ∅).
Proof using HU.
  intros Hok Hg Hk Hmk Hcl Hsl Hslc Hearly Hinv Hknown Hrest Hs Hcf.
  assert (Hlast : ∀ s' : CommitState, last (s' :: rest) = Some sl).
  { intros s'. destruct rest as [|x rest]; [done|exact Hsl]. }
  unfold try_indirect_finalize_first_commit, first_commit, vec_get. rewrite Hcf. cbn [lookup list_lookup expect mbind run_bind].
  rewrite bool_decide_eq_false_2 by done. cbn [negb mbind run_bind]. rewrite bool_decide_eq_true_2 by apply (fs_blocks _ _ _ _ _ Hs).
  destruct (check_pending_spec cs k c st cf s rest Hinv Hknown Hs Hcf) as (s1 & -> & Hs1). cbn [mbind run_bind].
  destruct (indirect_finalize_spec cs m k c st (set_pending (s1 :: rest) cf) s1 rest Hok Hg Hk Hmk Hearly Hs1 eq_refl)
    as (s2 & -> & Hs2 & Hno). cbn [mbind run_bind].
  destruct (indirect_reject_spec cs k c cl st (set_pending (s2 :: rest) cf) s2 rest sl Hok Hk Hcl (Hlast s2) Hslc Hearly Hs2 eq_refl Hno)
    as (s3 & Hrun & Hs3 & Hp). exists s3. split; [exact Hrun|done].
Qed.
End states.
