(* ===== verification/FinalizerStreams.v ===== *)
(** * The same commits, received in different ways

    A node can make a commit itself or receive it through commit sync: the
    commits then differ in their [local] flag and their reputation scores only,
    and the finalization rule does not depend on either. *)
From S2P Require Import Prelude Committee StakeAggregator Block ThresholdClock Commit LeaderScoring Store DagState DagStateProofs DagTraversal LeaderSchedule BaseCommitter CommitRule DagViews TransactionCertifier CertifierProofs CommitFinalizer FinalizerRule FinalizerLinks FinalizerVotes FinalizerStates.

Record same_commit (c c' : CommittedSubDag) : Prop := {
  sc_leader : sd_leader c = sd_leader c';
  sc_blocks : sd_blocks c = sd_blocks c';
  sc_ref : sd_commit_ref c = sd_commit_ref c';
}.

(** The commits [cs] are the first commits of [cs']. *)
Definition same_prefix (cs cs' : list CommittedSubDag) : Prop :=
  ∃ p, p `prefix_of` cs' ∧ Forall2 same_commit cs p.

Section streams.
Context (ctx : Context) (G : BlockRef → option VerifiedBlock).
Implicit Types (cs : list CommittedSubDag) (B r a : BlockRef) (idx : TransactionIndex) (c : CommittedSubDag).

#[global] Instance same_commit_sym : Symmetric same_commit.
Proof. intros c c' [???]. by split. Qed.
#[global] Instance same_commit_refl : Reflexive same_commit.
Proof. intros c. by split. Qed.

Lemma same_round c c' : same_commit c c' → sd_round c = sd_round c'.
Proof. intros [Hl _ _]. unfold sd_round. by rewrite Hl. Qed.
Lemma same_refs c c' : same_commit c c' → commit_refs c = commit_refs c'.
Proof. intros [_ Hb _]. unfold commit_refs. by rewrite Hb. Qed.
Lemma same_stream cs cs' : Forall2 same_commit cs cs' → stream_refs cs = stream_refs cs'.
Proof. unfold stream_refs. induction 1 as [|c c' l l' Hc _ IH]; [done|]. csimpl. by rewrite IH, (same_refs c c'). Qed.

Lemma same_gc cs cs' i : Forall2 same_commit cs cs' → gc_at ctx cs i = gc_at ctx cs' i.
Proof.
  intros HF. destruct i as [|i]; [done|]. cbn. pose proof (proj1 (Forall2_lookup _ _ _) HF i) as Hi.
  destruct Hi as [c c' Hc|]; [|done]. by rewrite (same_round c c').
Qed.

Lemma same_child cs cs' a r : Forall2 same_commit cs cs' → child G cs a r → child G cs' a r.
Proof. intros HF [Hr Hi]. split; [by rewrite <-(same_stream cs)|done]. Qed.

Lemma same_stream_ok cs cs' : Forall2 same_commit cs cs' →
  (∀ i c, cs' !! i = Some c → sd_rejected_transactions_by_block c = ∅) → stream_ok ctx G cs → stream_ok ctx G cs'.
Proof.
  intros HF Hfresh Hok.
  assert (Hlk : ∀ i c', cs' !! i = Some c' → ∃ c, cs !! i = Some c ∧ same_commit c c')
    by (intros i c'; apply (Forall2_lookup_r _ _ _ _ _ HF)).
  split; [..|done].
  - intros i c' b (c & Hc & [_ <- _])%Hlk. by apply (st_blocks _ _ _ Hok i).
  - intros i c' (c & Hc & Hs)%Hlk. rewrite <-(same_refs c c'), <-(sc_leader c c') by done. by apply (st_leader _ _ _ Hok i).
  - intros i c' r (c & Hc & Hs)%Hlk. rewrite <-(same_refs c c'), <-(sc_leader c c') by done. intros Hr.
    eapply (rtc_subrel (child G [c])); [|by apply (st_linked _ _ _ Hok i)]. intros x y. apply same_child. apply Forall2_cons. by split.
  - rewrite <-(same_stream cs) by done. apply Hok.
  - intros i c' b (c & Hc & [_ <- _])%Hlk. rewrite <-(same_gc cs) by done. by apply (st_gc _ _ _ Hok i).
  - intros i c' b a (c & Hc & [_ <- _])%Hlk. rewrite <-(same_gc cs) by done.
    rewrite <-(same_stream (take (S i) cs)) by (by apply Forall2_take). by apply (st_closed _ _ _ Hok i).
  - intros i j c' d' (c & Hc & Hs)%Hlk (d & Hd & Hs')%Hlk. rewrite <-(same_round c c'), <-(same_round d d') by done.
    by apply (st_rounds _ _ _ Hok i j).
  - intros i c' (c & Hc & Hs)%Hlk. rewrite <-(same_round c c') by done. by apply (st_bound _ _ _ Hok i).
  - intros i j c' d' (c & Hc & [_ _ <-])%Hlk (d & Hd & [_ _ <-])%Hlk. by apply (st_index _ _ _ Hok i j).
Qed.

Lemma same_certificate cs cs' k r : Forall2 same_commit cs cs' → leader_certificate ctx G cs k r →
  leader_certificate ctx G cs' k r.
Proof.
  intros HF (c & C & Hk & HC & Hcert). destruct (Forall2_lookup_l _ _ _ _ _ HF Hk) as (c' & Hk' & Hs).
  exists c', C. by rewrite <-(sc_leader c c').
Qed.

Lemma same_horizon cs cs' k K : Forall2 same_commit cs cs' → horizon cs k K → horizon cs' k K.
Proof.
  intros HF [(c & c' & Hk & HK & Hle) Hfirst].
  destruct (Forall2_lookup_l _ _ _ _ _ HF Hk) as (d & Hd & Hs). destruct (Forall2_lookup_l _ _ _ _ _ HF HK) as (d' & Hd' & Hs').
  rewrite (same_round c d), (same_round c' d') in Hle by done. split; [by exists d, d'|].
  intros j x y Hx Hy Hj. destruct (Forall2_lookup_r _ _ _ _ _ HF Hx) as (x' & Hx' & Hsx).
  destruct (Forall2_lookup_r _ _ _ _ _ HF Hy) as (y' & Hy' & Hsy). rewrite <-(same_round x' x), <-(same_round y' y) by done.
  by apply (Hfirst j).
Qed.

Lemma same_accepts cs cs' B idx : Forall2 same_commit cs cs' → quorum_accepts ctx G cs B idx → quorum_accepts ctx G cs' B idx.
Proof.
  intros HF (A & HA & Hacc). pose proof (same_stream _ _ HF) as Heq. exists A. split; [done|].
  intros h Hh. destruct (Hacc h Hh) as (r & Hr & Hd & Hn). exists r. split; [done|]. split.
  - eapply descends_mono; [|exact Hd]. intros x. by rewrite Heq.
  - intros Hrej. apply Hn. eapply rejecting_mono; [|exact Hrej]. intros x. by rewrite Heq.
Qed.

Lemma same_certified cs cs' k D : stream_ok ctx G cs → Forall2 same_commit cs cs' → certified_in ctx G cs k D →
  certified_in ctx G cs' k D.
Proof.
  intros Hok HF [Hcl (r & Hr & Hc) Hfut]. split; [done|exists r; split; [done|by eapply same_certificate]|].
  intros cs1 K Hok1 [rest ->] Hhz.
  assert (HF1 : Forall2 same_commit (cs' ++ rest) (cs ++ rest)).
  { apply Forall2_app; [|reflexivity]. by symmetry. }
  assert (Hok2 : stream_ok ctx G (cs ++ rest)).
  { apply (same_stream_ok (cs' ++ rest)); [done| |done]. intros i c [Hi|[Hge Hi]]%lookup_app_Some; [by apply (st_fresh _ _ _ Hok i)|].
    apply (st_fresh _ _ _ Hok1 (length cs' + (i - length cs))%nat). rewrite lookup_app_r by lia. by replace (_ - length cs')%nat with (i - length cs)%nat by lia. }
  destruct (Hfut (cs ++ rest) K Hok2) as (x & HDx & Hx & Hin); [by exists rest|by eapply same_horizon|].
  symmetry in HF1. exists x. split; [done|]. split; [by eapply same_certificate|]. by rewrite <-(same_stream (take (S K) (cs ++ rest))) by (by apply Forall2_take).
Qed.

Lemma same_finalized cs cs' k B idx : stream_ok ctx G cs → Forall2 same_commit cs cs' → finalized_by ctx G cs k B idx →
  finalized_by ctx G cs' k B idx.
Proof.
  intros Hok HF [(D & HD & Hs)|(c & Hk & Hearly & Hacc)]; [left; exists D; split; [by eapply same_certified|done]|right].
  destruct (Forall2_lookup_l _ _ _ _ _ HF Hk) as (c' & Hk' & Hs). exists c'. split; [done|]. split; [|by eapply same_accepts].
  intros j x Hx Hj. destruct (Forall2_lookup_r _ _ _ _ _ HF Hx) as (x' & Hx' & Hsx).
  rewrite <-(same_round x' x), <-(same_round c c') by done. apply (Hearly j); [done|]. by rewrite (Forall2_length _ _ _ HF).
Qed.

Lemma same_rejected cs cs' k B idx : Forall2 same_commit cs cs' → rejected_by ctx G cs k B idx → rejected_by ctx G cs' k B idx.
Proof.
  intros HF [Hq|(K & Hhz & Hn)]; [by left|right]. exists K. split; [by eapply same_horizon|].
  intros Hacc. apply Hn. eapply same_accepts; [|exact Hacc]. symmetry. by apply Forall2_take.
Qed.

Lemma same_prefix_trans cs0 cs cs' : cs0 `prefix_of` cs → same_prefix cs cs' →
  ∃ p, p `prefix_of` cs' ∧ Forall2 same_commit cs0 p.
Proof.
  intros [rest ->] (p & Hp & HF). exists (take (length cs0) p). split; [etrans; [apply prefix_take|exact Hp]|].
  apply Forall2_app_inv_l in HF as (p1 & p2 & HF & _ & ->). by rewrite (Forall2_length _ _ _ HF), take_app_length.
Qed.
End streams.
