(* ===== verification/FinalizerProofs.v ===== *)
(** * Correctness of the commit finalizer

    The finalizer outputs the commits it is given in order, each as soon as
    its transactions are decided and at the latest with the first commit a wave
    above it, and no two nodes decide a transaction differently. *)
From S2P Require Import Prelude Committee StakeAggregator Block ThresholdClock Commit LeaderScoring Store DagState DagStateProofs DagTraversal LeaderSchedule BaseCommitter CommitRule DagViews TransactionCertifier CertifierProofs CommitFinalizer FinalizerRule FinalizerLinks FinalizerVotes FinalizerStates.

Section finalizer.
Context (ctx : Context) (G : BlockRef → option VerifiedBlock) (byz : gset AuthorityIndex).
Context (HU : universe_ok (ctx_committee ctx) G byz) (Hlinked : votes_linked G).
Implicit Types (cs : list CommittedSubDag) (B : BlockRef) (idx : TransactionIndex) (c : CommittedSubDag).
Implicit Types (s : CommitState) (st : CertifierState) (pending : list CommitState) (cf : CommitFinalizer).
Implicit Types (outs : list CommittedSubDag) (m k p : nat).
Abbreviation cm := (ctx_committee ctx).
Abbreviation stream_ok := (stream_ok ctx G).
Abbreviation state_ok := (state_ok ctx G).

(** ** The buffer *)

(** The commits from [m] on, of which the first [p] have been through direct
    finalization. *)
Record buffered cs m st p pending : Prop := {
  bf_m : (m ≤ length cs)%nat;
  bf_length : length pending = (length cs - m)%nat;
  bf_done i s : pending !! i = Some s → (i < p)%nat → ∃ c, cs !! (m + i)%nat = Some c ∧ state_ok cs (m + i) c st s;
  bf_todo i s : pending !! i = Some s → (p ≤ i)%nat → ∃ c, cs !! (m + i)%nat = Some c ∧ unprocessed c s;
}.

(** What the certifier must hold when a commit is processed: the votes of the
    buffered blocks, and a certificate of the leaders of local commits and of
    those a wave below the last. *)
Record ready cs m st : Prop := {
  rd_inv : cert_inv ctx G None st;
  rd_known k c B : (m ≤ k)%nat → cs !! k = Some c → B ∈ commit_refs c → is_Some (cs_votes st !! B);
  rd_certified k c : (m ≤ k)%nat → cs !! k = Some c →
    (sd_local c ∨ ∃ cl, last cs = Some cl ∧ sd_round c + 3 ≤ sd_round cl) →
    ∃ D, certified_in ctx G cs k D ∧ voted_in G st D;
}.

Lemma buffered_commit cs m st p pending i s : buffered cs m st p pending → pending !! i = Some s →
  cs !! (m + i)%nat = Some (cst_commit s).
Proof.
  clear HU Hlinked. intros Hb Hi. destruct (decide (i < p)%nat) as [Hlt|Hge].
  - destruct (bf_done _ _ _ _ _ Hb i s Hi Hlt) as (c & Hc & Hs). by rewrite (fs_commit _ _ _ _ _ _ _ Hs).
  - destruct (bf_todo _ _ _ _ _ Hb i s Hi ltac:(lia)) as (c & Hc & Hs). by rewrite (un_commit _ _ Hs).
Qed.

Lemma buffered_last cs m st p pending : buffered cs m st p pending → pending ≠ [] →
  ∃ sl, last pending = Some sl ∧ last cs = Some (cst_commit sl).
Proof.
  clear HU Hlinked. intros Hb Hne. destruct (last pending) as [sl|] eqn:Hl; [|by apply last_None in Hl].
  exists sl. split; [done|]. rewrite last_lookup in Hl. rewrite last_lookup. apply (buffered_commit _ _ _ _ _ _ _ Hb) in Hl.
  rewrite <-Hl. f_equal. pose proof (bf_length _ _ _ _ _ Hb). pose proof (bf_m _ _ _ _ _ Hb). destruct pending; [done|]. cbn in *. lia.
Qed.

Lemma unprocessed_blocks c s : sd_leader c ∈ commit_refs c → unprocessed c s → cst_pending_blocks s ≠ ∅.
Proof.
  clear. intros Hl Hun He. destruct (proj2 (un_blocks _ _ Hun (sd_leader c)) Hl) as [n Hn]. rewrite He in Hn.
  by rewrite lookup_empty in Hn.
Qed.

(** The first commit left unprocessed is remote and less than a wave below the last. *)
Definition too_early cs m p : Prop := ∀ c cl, cs !! (m + p)%nat = Some c → last cs = Some cl → sd_round cl < sd_round c + 3.

Lemma direct_loop_spec cs m st n : stream_ok cs → ready cs m st → ∀ p i cf, buffered cs m st p (cf_pending_commits cf) →
  (i ≤ p)%nat → (i + n)%nat = length (cf_pending_commits cf) →
  ∃ p' pending', direct_loop ctx st cf (seq i n) = Done (set_pending pending' cf) ∧ buffered cs m st p' pending' ∧
    ((p' < length pending')%nat → too_early cs m p').
Proof using HU Hlinked.
  intros Hok Hrd. induction n as [|n IH]; intros p i cf Hb Hip Hlen; cbn [seq direct_loop].
  { exists p, (cf_pending_commits cf). split; [by destruct cf|]. split; [done|]. lia. }
  destruct (lookup_lt_is_Some_2 (cf_pending_commits cf) i ltac:(lia)) as [s Hi]. unfold vec_get at 1. rewrite Hi. cbn [expect mbind run_bind].
  destruct (decide (i < p)%nat) as [Hlt|Hge].
  { destruct (bf_done _ _ _ _ _ Hb i s Hi Hlt) as (c & Hc & Hs).
    rewrite bool_decide_eq_true_2 by apply (fs_blocks _ _ _ _ _ _ _ Hs). apply (IH p); [done|lia..]. }
  assert (i = p) as -> by lia. destruct (bf_todo _ _ _ _ _ Hb p s Hi ltac:(lia)) as (c & Hc & Hun).
  assert (Hne : cst_pending_blocks s ≠ ∅) by (apply (unprocessed_blocks c); [by apply (st_leader _ _ _ Hok (m + p))|done]).
  rewrite bool_decide_eq_false_2 by done.
  destruct (buffered_last _ _ _ _ _ Hb) as (sl & Hsl & Hcl).
  { intros He. by rewrite He in Hi. }
  assert (Hgo : (sd_local c ∨ ∃ cl, last cs = Some cl ∧ sd_round c + 3 ≤ sd_round cl) →
    ∃ p' pending', (cf ← try_direct_finalize_commit ctx st cf p; direct_loop ctx st cf (seq (Datatypes.S p) n)) =
        Done (set_pending pending' cf) ∧ buffered cs m st p' pending' ∧ ((p' < length pending')%nat → too_early cs m p')).
  { intros Hcert. destruct (rd_certified _ _ _ Hrd (m + p) c ltac:(lia) Hc Hcert) as (D & HD & HDv).
    destruct (direct_state ctx G byz HU cs (m + p) c st s D Hok Hc Hlinked (rd_inv _ _ _ Hrd)) as (s' & Hrun & Hs'); [|done..|].
    { intros B. apply (rd_known _ _ _ Hrd (m + p)); [lia|done]. }
    assert (try_direct_finalize_commit ctx st cf p = Done (set_pending (<[p := s']> (cf_pending_commits cf)) cf)) as ->.
    { unfold try_direct_finalize_commit, vec_get, vec_set. rewrite Hi. cbn [expect mbind run_bind].
      rewrite bool_decide_eq_false_2 by done. cbn [negb]. rewrite Hrun. cbn [mbind run_bind]. by rewrite decide_True by lia. }
    cbn [mbind run_bind].
    destruct (IH (Datatypes.S p) (Datatypes.S p) (set_pending (<[p := s']> (cf_pending_commits cf)) cf)) as (p' & pending' & Hl & Hb' & Hte).
    - split; cbn.
      + apply Hb.
      + rewrite length_insert. apply Hb.
      + intros j x Hj Hlt. destruct (decide (j = p)) as [->|Hne'].
        * rewrite list_lookup_insert_eq in Hj by lia. injection Hj as <-. by exists c.
        * rewrite list_lookup_insert_ne in Hj by done. apply (bf_done _ _ _ _ _ Hb); [done|lia].
      + intros j x Hj Hle. rewrite list_lookup_insert_ne in Hj by lia. apply (bf_todo _ _ _ _ _ Hb); [done|lia].
    - done.
    - cbn. rewrite length_insert. lia.
    - exists p', pending'. split; [exact Hl|done]. }
  rewrite (un_commit _ _ Hun), Hsl. cbn [expect mbind run_bind].
  destruct (sd_local c) eqn:Hloc; cbn [negb].
  - cbn [mbind run_bind]. apply Hgo. by left.
  - cbn [mbind run_bind]. change (br_round (sd_leader c)) with (sd_round c).
    change (br_round (sd_leader (cst_commit sl))) with (sd_round (cst_commit sl)).
    rewrite u32_add_small by (pose proof (st_bound _ _ _ Hok (m + p) c Hc); unfold DEFAULT_WAVE_LENGTH, MINIMUM_WAVE_LENGTH; lia).
    change DEFAULT_WAVE_LENGTH with 3. case_bool_decide as Hte.
    + exists p, (cf_pending_commits cf). split; [by destruct cf|]. split; [done|]. intros _ c' cl Hc' Hcl'. simplify_eq. done.
    + apply Hgo. right. exists (cst_commit sl). split; [done|]. lia.
Qed.

(** ** Output *)

Lemma insert_all (l : list (BlockRef * gset TransactionIndex)) (m0 : gmap BlockRef (list TransactionIndex)) B : NoDup l.*1 →
  foldl (λ (x : gmap BlockRef (list TransactionIndex)) '(block_ref, rejected_transactions),
           <[block_ref := set_list rejected_transactions]> x) m0 l !! B =
  match (list_to_map l : gmap BlockRef (gset TransactionIndex)) !! B with Some T => Some (set_list T) | None => m0 !! B end.
Proof.
  clear. revert m0. induction l as [|[X T] l IH]; intros m0 Hnd; cbn [foldl]; [by cbn [list_to_map foldr]; rewrite lookup_empty|].
  csimpl in Hnd. apply NoDup_cons in Hnd as [Hni Hnd]. rewrite IH by done. cbn [list_to_map fst snd foldr].
  destruct (decide (B = X)) as [->|Hne].
  - rewrite lookup_insert_eq. rewrite (not_elem_of_list_to_map_1 l X Hni). by rewrite lookup_insert_eq.
  - by rewrite !lookup_insert_ne by done.
Qed.

Lemma finalized_commit_rejected s B : sd_rejected_transactions_by_block (cst_commit s) = ∅ →
  sd_rejected_transactions_by_block (finalized_commit s) !! B = set_list <$> cst_rejected_transactions s !! B.
Proof.
  clear. intros He. unfold finalized_commit. cbn. rewrite insert_all by apply NoDup_map_list. rewrite He, lookup_empty.
  assert ((list_to_map (map_list (cst_rejected_transactions s)) : gmap BlockRef (gset TransactionIndex)) = cst_rejected_transactions s) as ->.
  { unfold map_list. rewrite (list_to_map_proper _ (map_to_list (cst_rejected_transactions s)));
      [apply list_to_map_to_list|by rewrite sort_by_Permutation; apply NoDup_fst_map_to_list|apply sort_by_Permutation]. }
  by destruct (cst_rejected_transactions s !! B).
Qed.

(** The output for the commit [k] of the sequence. *)
Record output_ok cs k (o : CommittedSubDag) : Prop := {
  ou_commit : ∃ c, cs !! k = Some c ∧ sd_leader o = sd_leader c ∧ sd_blocks o = sd_blocks c ∧
    sd_timestamp_ms o = sd_timestamp_ms c ∧ sd_commit_ref o = sd_commit_ref c;
  ou_rejected B idx : B ∈ commit_refs o → idx ∈ default [] (sd_rejected_transactions_by_block o !! B) → rejected ctx G cs k B idx;
  ou_finalized B idx : B ∈ commit_refs o → idx ∉ default [] (sd_rejected_transactions_by_block o !! B) → finalized ctx G cs k B idx;
}.

Lemma finalized_commit_ok cs k c st s : stream_ok cs → cs !! k = Some c → state_ok cs k c st s →
  cst_pending_transactions s = ∅ → output_ok cs k (finalized_commit s).
Proof.
  clear HU Hlinked. intros Hok Hk Hs Hp. pose proof (fs_commit _ _ _ _ _ _ _ Hs) as Hc.
  assert (Hin : ∀ B idx, idx ∈ default [] (sd_rejected_transactions_by_block (finalized_commit s) !! B) ↔
            tx_in (cst_rejected_transactions s) B idx).
  { intros B idx. rewrite finalized_commit_rejected by (rewrite Hc; by apply (st_fresh _ _ _ Hok k)). unfold tx_in.
    destruct (cst_rejected_transactions s !! B); cbn; [apply elem_of_set_list|]. rewrite elem_of_nil. set_solver. }
  split.
  - exists c. cbn. by rewrite Hc.
  - intros B idx _ Hr%Hin. by apply (fs_rejected _ _ _ _ _ _ _ Hs B idx).
  - intros B idx HB Hn. rewrite Hin in Hn. apply (fs_final _ _ _ _ _ _ _ Hs); [|rewrite Hp; apply tx_in_empty|done].
    unfold commit_refs in HB. cbn in HB. by rewrite Hc in HB.
Qed.

Definition settled s : Prop := cst_pending_blocks s = ∅ ∧ cst_pending_transactions s = ∅.

Lemma delete_blocks (l : list VerifiedBlock) (blocks : gmap BlockRef BlockState) r :
  foldl (λ (x : gmap BlockRef BlockState) block, delete (vb_reference block) x) blocks l !! r =
  if bool_decide (r ∈ vb_reference <$> l) then None else blocks !! r.
Proof.
  clear. revert blocks. induction l as [|b l IH]; intros blocks; cbn [foldl].
  { rewrite bool_decide_eq_false_2; [done|]. apply not_elem_of_nil. }
  rewrite IH. csimpl. destruct (decide (r = vb_reference b)) as [->|Hne].
  - rewrite (bool_decide_eq_true_2 (_ ∈ _ :: _)) by left. case_bool_decide; [done|apply lookup_delete_eq].
  - rewrite lookup_delete_ne by done. apply (f_equal (λ b : bool, if b then None else _)), bool_decide_ext.
    rewrite elem_of_cons. naive_solver.
Qed.

Lemma pop_loop_spec pending : ∀ blocks, ∃ n blocks', (n ≤ length pending)%nat ∧
  pop_loop pending blocks = (drop n pending, blocks', finalized_commit <$> take n pending) ∧
  (∀ r, blocks' !! r = if bool_decide (r ∈ stream_refs (cst_commit <$> take n pending)) then None else blocks !! r) ∧
  Forall settled (take n pending) ∧ (∀ s, head (drop n pending) = Some s → ¬ settled s).
Proof.
  clear. induction pending as [|s pending IH]; intros blocks; cbn [pop_loop].
  { exists 0%nat, blocks. split; [done|]. split; [done|]. split; [|by split].
    intros r. rewrite bool_decide_eq_false_2; [done|apply not_elem_of_nil]. }
  destruct (bool_decide (cst_pending_blocks s = ∅)) eqn:H1, (bool_decide (cst_pending_transactions s = ∅)) eqn:H2; cbn [negb orb].
  2,3,4: exists 0%nat, blocks; (split; [lia|]); (split; [done|]);
    (split; [intros r; rewrite bool_decide_eq_false_2; [done|apply not_elem_of_nil]|]); (split; [constructor|]);
    intros x [= <-] [? ?];
    first [by apply bool_decide_eq_false in H1|by apply bool_decide_eq_false in H2].
  apply bool_decide_eq_true in H1, H2.
  destruct (IH (foldl (λ (x : gmap BlockRef BlockState) block, delete (vb_reference block) x) blocks (sd_blocks (cst_commit s)))) as (n & blocks' & Hn & Hrun & Hlk & Hall & Hhead).
  exists (Datatypes.S n), blocks'. rewrite Hrun. cbn [length drop take]. split_and!; [lia|done| |by constructor|done].
  intros r. rewrite Hlk, delete_blocks. csimpl. unfold stream_refs. cbn [mbind list_bind].
  fold (commit_refs (cst_commit s)). change (list_bind _ _ commit_refs (cst_commit <$> take n pending)) with (stream_refs (cst_commit <$> take n pending)).
  destruct (decide (r ∈ commit_refs (cst_commit s))) as [Ha|Ha], (decide (r ∈ stream_refs (cst_commit <$> take n pending))) as [Hb|Hb].
  all: rewrite ?(bool_decide_eq_true_2 (r ∈ commit_refs _)), ?(bool_decide_eq_false_2 (r ∈ commit_refs _)) by done.
  all: rewrite ?(bool_decide_eq_true_2 (r ∈ stream_refs _)), ?(bool_decide_eq_false_2 (r ∈ stream_refs _)) by done.
  all: rewrite ?(bool_decide_eq_true_2 (r ∈ _ ++ _)), ?(bool_decide_eq_false_2 (r ∈ _ ++ _)) by (rewrite elem_of_app; tauto).
  all: done.
Qed.

Lemma graph_pop cs m n blocks blocks' : stream_ok cs → graph_ok G cs m blocks →
  (∀ r, blocks' !! r = if bool_decide (r ∈ stream_refs (take n (drop m cs))) then None else blocks !! r) →
  graph_ok G cs (m + n) blocks'.
Proof using HU.
  clear Hlinked. intros Hok Hg Hlk. apply (graph_drop ctx G byz HU cs m (m + n) blocks Hok Hg ltac:(lia)).
  intros r. rewrite Hlk. destruct (decide (r ∈ stream_refs (drop m cs))) as [Hr|Hr].
  - assert (Hsplit : stream_refs (drop m cs) = stream_refs (take n (drop m cs)) ++ stream_refs (drop (m + n) cs)).
    { rewrite <-drop_drop. unfold stream_refs. rewrite <-bind_app. by rewrite take_drop. }
    assert (Hnd : NoDup (stream_refs (drop m cs))).
    { pose proof (st_nodup _ _ _ Hok) as Hn. rewrite <-(take_drop m cs) in Hn. unfold stream_refs in Hn. rewrite bind_app in Hn.
      by apply NoDup_app in Hn as (_ & _ & ?). }
    rewrite Hsplit in Hr, Hnd. apply NoDup_app in Hnd as (_ & Hdis & _).
    apply elem_of_app in Hr as [Hr|Hr].
    + rewrite bool_decide_eq_true_2 by done. rewrite bool_decide_eq_false_2; [done|]. by apply Hdis.
    + rewrite (bool_decide_eq_true_2 (r ∈ stream_refs (drop (m + n) cs))) by done. rewrite bool_decide_eq_false_2; [done|].
      intros Hr'. by apply (Hdis r).
  - assert (blocks !! r = None) as ->.
    { apply eq_None_not_Some. intros Hs. by apply (bg_dom _ _ _ _ Hg) in Hs. }
    by repeat case_bool_decide.
Qed.

Lemma buffered_commits cs m st p pending : buffered cs m st p pending → cst_commit <$> pending = drop m cs.
Proof.
  clear HU Hlinked. intros Hb. apply list_eq_same_length with (n := length pending).
  - rewrite length_drop. by rewrite (bf_length _ _ _ _ _ Hb).
  - by rewrite length_fmap.
  - intros i x y _ Hx Hy. apply list_lookup_fmap_Some in Hx as (s & -> & Hs). rewrite lookup_drop in Hy.
    rewrite (buffered_commit _ _ _ _ _ _ _ Hb Hs) in Hy. by injection Hy as <-.
Qed.

(** The commits output by [pop_finalized_commits]. *)
Lemma pop_spec cs st outs p cf : stream_ok cs → buffered cs (length outs) st p (cf_pending_commits cf) →
  (∀ i o, outs !! i = Some o → output_ok cs i o) →
  ∃ new blocks', pop_finalized_commits cf =
      (mk_finalizer (cf_last_processed_commit cf) (drop (length new) (cf_pending_commits cf)) blocks', new) ∧
    buffered cs (length (outs ++ new)) st (p - length new) (drop (length new) (cf_pending_commits cf)) ∧
    (length new ≤ p ∧ length new ≤ length (cf_pending_commits cf))%nat ∧
    (∀ i o, (outs ++ new) !! i = Some o → output_ok cs i o) ∧
    (∀ r, blocks' !! r = if bool_decide (r ∈ stream_refs (take (length new) (drop (length outs) cs))) then None else cf_blocks cf !! r) ∧
    (∀ s, head (drop (length new) (cf_pending_commits cf)) = Some s → ¬ settled s).
Proof.
  clear HU Hlinked. intros Hok Hb Houts. unfold pop_finalized_commits.
  destruct (pop_loop_spec (cf_pending_commits cf) (cf_blocks cf)) as (n & blocks' & Hn & -> & Hlk & Hall & Hhead).
  assert (Hlen : length (finalized_commit <$> take n (cf_pending_commits cf)) = n).
  { rewrite length_fmap, length_take. lia. }
  exists (finalized_commit <$> take n (cf_pending_commits cf)), blocks'. rewrite Hlen.
  pose proof (bf_length _ _ _ _ _ Hb) as Hpl. pose proof (bf_m _ _ _ _ _ Hb) as Hm.
  assert (Hproc : ∀ i s, (i < n)%nat → cf_pending_commits cf !! i = Some s → settled s ∧ (i < p)%nat).
  { intros i s Hi Hs. assert (Hset : settled s).
    { rewrite Forall_forall in Hall. apply Hall. apply (list_elem_of_lookup_2 _ i). by rewrite lookup_take_lt. }
    split; [done|]. destruct (decide (i < p)%nat) as [|Hge]; [done|exfalso].
    destruct (bf_todo _ _ _ _ _ Hb i s Hs ltac:(lia)) as (c & Hc & Hun).
    apply (unprocessed_blocks c s); [by apply (st_leader _ _ _ Hok _ c Hc)|done|apply Hset]. }
  assert (Hnp : (n ≤ p)%nat).
  { destruct n as [|n]; [lia|]. destruct (lookup_lt_is_Some_2 (cf_pending_commits cf) n ltac:(lia)) as [s Hs].
    destruct (Hproc n s ltac:(lia) Hs). lia. }
  split; [done|]. rewrite length_app, Hlen. split; [|split; [done|split; [|split; [|done]]]].
  - split.
    + lia.
    + rewrite length_drop. lia.
    + intros i s Hs Hi. rewrite lookup_drop in Hs. destruct (bf_done _ _ _ _ _ Hb _ s Hs ltac:(lia)) as (c & Hc & Hst).
      exists c. replace (length outs + n + i)%nat with (length outs + (n + i))%nat by lia. done.
    + intros i s Hs Hi. rewrite lookup_drop in Hs. destruct (bf_todo _ _ _ _ _ Hb _ s Hs ltac:(lia)) as (c & Hc & Hst).
      exists c. replace (length outs + n + i)%nat with (length outs + (n + i))%nat by lia. done.
  - intros i o. rewrite lookup_app_Some. intros [Ho|[Hi Ho]]; [by apply Houts|].
    apply list_lookup_fmap_Some in Ho as (s & -> & Hs). apply lookup_take_Some in Hs as [Hs Hlt].
    destruct (Hproc _ s Hlt Hs) as [[_ Hpe] Hp]. destruct (bf_done _ _ _ _ _ Hb _ s Hs Hp) as (c & Hc & Hst).
    replace (length outs + (i - length outs))%nat with i in Hc, Hst by lia. by apply (finalized_commit_ok cs i c st s).
  - intros r. rewrite Hlk. by rewrite fmap_take, (buffered_commits _ _ _ _ _ Hb).
Qed.

(** ** The invariant *)

(** Buffer, graph and outputs of a finalizer that was given the commits [cs]. *)
Record core cs st p cf outs : Prop := {
  co_buffer : buffered cs (length outs) st p (cf_pending_commits cf);
  co_graph : graph_ok G cs (length outs) (cf_blocks cf);
  co_outs i o : outs !! i = Some o → output_ok cs i o;
}.

(** Every buffered commit is less than a wave below the last one. *)
Definition recent cs m : Prop :=
  ∀ k c cl, (m ≤ k)%nat → cs !! k = Some c → last cs = Some cl → sd_round cl < sd_round c + 3.

Lemma recent_first cs m c cl : stream_ok cs → cs !! m = Some c → last cs = Some cl → sd_round cl < sd_round c + 3 → recent cs m.
Proof.
  clear HU Hlinked. intros Hok Hm Hcl Hlt k c' cl' Hk Hc' Hcl'. simplify_eq.
  destruct (decide (k = m)) as [->|Hne]; [by simplify_eq|]. pose proof (st_rounds _ _ _ Hok m k c c' Hm Hc' ltac:(lia)). lia.
Qed.

(** Before the last commit, no leader was a wave above a buffered commit. *)
Definition waited cs m : Prop := ∀ k c j cj, (m ≤ k)%nat → cs !! k = Some c → cs !! j = Some cj →
  (Datatypes.S j < length cs)%nat → sd_round cj < sd_round c + 3.

Lemma indirect_loop_spec cs st fuel : stream_ok cs → ∀ p cf outs fin, core cs st p cf (outs ++ fin) →
  ready cs (length (outs ++ fin)) st → waited cs (length (outs ++ fin)) →
  ((p < length (cf_pending_commits cf))%nat → too_early cs (length (outs ++ fin)) p) →
  (length (cf_pending_commits cf) ≤ fuel)%nat →
  ∃ p' cf' fin', indirect_loop ctx fuel st cf fin = Done (cf', fin') ∧
    cf_last_processed_commit cf' = cf_last_processed_commit cf ∧ core cs st p' cf' (outs ++ fin') ∧ recent cs (length (outs ++ fin')).
Proof using HU Hlinked.
  intros Hok. induction fuel as [|fuel IH]; intros p cf outs fin Hcore Hrd Hwait Hte Hfuel; cbn [indirect_loop].
  all: pose proof (co_buffer _ _ _ _ _ Hcore) as Hb; pose proof (bf_length _ _ _ _ _ Hb) as Hlen; pose proof (bf_m _ _ _ _ _ Hb) as Hm.
  all: case_bool_decide as Hmore; [|exists p, cf, fin; split_and!; try done;
    intros k c cl Hk Hc Hcl; rewrite last_lookup in Hcl; apply lookup_lt_Some in Hc as Hlt;
    assert (k = pred (length cs)) as -> by lia; simplify_eq; lia].
  { lia. }
  destruct (cf_pending_commits cf) as [|s rest] eqn:Hpend; [cbn in Hmore; lia|]. unfold first_commit at 1, vec_get. rewrite Hpend.
  cbn [lookup list_lookup expect mbind run_bind].
  destruct (buffered_last _ _ _ _ _ Hb ltac:(done)) as (sl & Hsl & Hcl).
  destruct (decide (p = 0)%nat) as [->|Hp].
  { destruct (bf_todo _ _ _ _ _ Hb 0%nat s eq_refl ltac:(lia)) as (c & Hc & Hun). rewrite Nat.add_0_r in Hc.
    rewrite bool_decide_eq_false_2 by (apply (unprocessed_blocks c); [by apply (st_leader _ _ _ Hok _ c Hc)|done]). cbn [negb].
    exists 0%nat, cf, fin. split_and!; try done. apply (recent_first cs _ c (cst_commit sl) Hok Hc Hcl).
    apply (Hte ltac:(cbn; lia)); [by rewrite Nat.add_0_r|done]. }
  destruct (bf_done _ _ _ _ _ Hb 0%nat s eq_refl ltac:(lia)) as (c & Hc & Hs). rewrite Nat.add_0_r in Hc, Hs.
  rewrite bool_decide_eq_true_2 by apply (fs_blocks _ _ _ _ _ _ _ Hs). cbn [negb].
  destruct (indirect_first_spec ctx G byz HU cs (length (outs ++ fin)) (length (outs ++ fin)) c (cst_commit sl) st cf s rest sl)
    as (s' & -> & Hs' & Hsettle); [done|apply Hcore|done|done|done|done|done|intros j cj; by apply (Hwait (length (outs ++ fin)) c j cj)|apply Hrd| | |done|done|].
  { intros B. by apply (rd_known _ _ _ Hrd (length (outs ++ fin)) c B). }
  { intros ->. cbn in Hmore. lia. }
  cbn [mbind run_bind].
  assert (Hb' : buffered cs (length (outs ++ fin)) st p (cf_pending_commits (set_pending (s' :: rest) cf))).
  { split; [done|done|..]; intros [|i] x Hx Hi.
    - injection Hx as <-. exists c. by rewrite Nat.add_0_r.
    - by apply (bf_done _ _ _ _ _ Hb (Datatypes.S i)).
    - lia.
    - by apply (bf_todo _ _ _ _ _ Hb (Datatypes.S i)). }
  destruct (pop_spec cs st (outs ++ fin) p (set_pending (s' :: rest) cf) Hok Hb' (co_outs _ _ _ _ _ Hcore))
    as (new & blocks' & -> & Hb2 & [Hnp Hnl] & Houts & Hlk & Hhead).
  rewrite <-app_assoc in Hb2, Houts. pose proof (graph_pop _ _ _ _ _ Hok (co_graph _ _ _ _ _ Hcore) Hlk) as Hg2.
  assert (Hlen2 : length (outs ++ fin ++ new) = (length (outs ++ fin) + length new)%nat) by (rewrite app_assoc, length_app; done).
  rewrite <-Hlen2 in Hg2. case_bool_decide as Hnew.
  - apply nil_length_inv in Hnew. subst new. rewrite app_nil_r in Hb2, Houts, Hg2. cbn [length drop] in *.
    eexists _, _, fin. split; [done|]. split; [done|]. split; [by split|].
    apply (recent_first cs _ c (cst_commit sl) Hok Hc Hcl). apply N.nle_gt. intros Hle.
    apply (Hhead s' eq_refl). split; [apply (fs_blocks _ _ _ _ _ _ _ Hs')|by apply Hsettle].
  - destruct (IH (p - length new)%nat (mk_finalizer (cf_last_processed_commit (set_pending (s' :: rest) cf))
        (drop (length new) (cf_pending_commits (set_pending (s' :: rest) cf))) blocks') outs (fin ++ new))
      as (p' & cf' & fin' & Hrun & Hl & Hcore' & Hrec).
    + by split.
    + rewrite Hlen2. split; [apply Hrd|..]; intros k x.
      * intros B Hk. apply (rd_known _ _ _ Hrd). lia.
      * intros Hk. apply (rd_certified _ _ _ Hrd). lia.
    + rewrite Hlen2. intros k x j y Hk. apply Hwait. lia.
    + cbn [cf_pending_commits set_pending]. rewrite length_drop. intros Hlt x y Hx. rewrite Hlen2 in Hx.
      replace (length (outs ++ fin) + length new + (p - length new))%nat with (length (outs ++ fin) + p)%nat in Hx by lia.
      apply Hte; [cbn in *; lia|done].
    + cbn [cf_pending_commits set_pending]. rewrite length_drop. cbn in *. lia.
    + exists p', cf', fin'. done.
Qed.

(** A finalizer that was given the commits [cs] and has output [outs]. *)
Record fin_inv cs st cf outs : Prop := {
  fi_last : cf_last_processed_commit cf = (λ c, cr_index (sd_commit_ref c)) <$> last cs;
  fi_core : ∃ p, core cs st p cf outs;
  fi_recent : recent cs (length outs);
}.

Lemma fin_inv_new st : fin_inv [] st CommitFinalizer_new [].
Proof.
  clear HU Hlinked. split; [done|exists 0%nat|by intros k c cl _ Hc].
  split; [by split|apply graph_empty|by intros i o Ho].
Qed.

(** Evidence is kept when commits are added; the reject votes must be kept. *)
Lemma state_ok_mono cs cs' k c st st' s : cs `prefix_of` cs' →
  (∀ B idx, B ∈ commit_refs c → has_rejects (entry st B) idx → has_rejects (entry st' B) idx) →
  state_ok cs k c st s → state_ok cs' k c st' s.
Proof.
  clear HU Hlinked. intros Hp Hst Hs. split; try apply Hs.
  - intros B idx Hin. destruct (fs_pending _ _ _ _ _ _ _ Hs B idx Hin). auto.
  - intros B idx Hin. destruct (fs_rejected _ _ _ _ _ _ _ Hs B idx Hin) as [? (cs0 & ? & ?)]. split; [done|].
    exists cs0. split; [by etrans|done].
  - intros B idx HB Hp' Hr. destruct (fs_final _ _ _ _ _ _ _ Hs B idx HB Hp' Hr) as (cs0 & ? & ?).
    exists cs0. split; [by etrans|done].
Qed.

Lemma output_ok_mono cs cs' k o : cs `prefix_of` cs' → output_ok cs k o → output_ok cs' k o.
Proof.
  clear HU Hlinked. intros Hp Ho. split.
  - destruct (ou_commit _ _ _ Ho) as (c & Hc & ?). exists c. split; [by eapply prefix_stream|done].
  - intros B idx HB Hr. destruct (ou_rejected _ _ _ Ho B idx HB Hr) as (cs0 & ? & ?). exists cs0. split; [by etrans|done].
  - intros B idx HB Hr. destruct (ou_finalized _ _ _ Ho B idx HB Hr) as (cs0 & ? & ?). exists cs0. split; [by etrans|done].
Qed.

Lemma buffered_push cs m st p pending c s : buffered cs m st p pending → unprocessed c s →
  ∃ p', buffered (cs ++ [c]) m st p' (pending ++ [s]).
Proof.
  clear HU Hlinked. intros Hb Hun. pose proof (bf_length _ _ _ _ _ Hb) as Hlen. pose proof (bf_m _ _ _ _ _ Hb) as Hm.
  exists (p `min` length pending)%nat. split.
  - rewrite length_app. cbn. lia.
  - rewrite !length_app. cbn. lia.
  - intros i x Hx Hi. rewrite lookup_app_l in Hx by lia. destruct (bf_done _ _ _ _ _ Hb i x Hx ltac:(lia)) as (c' & Hc' & Hs).
    exists c'. split; [by apply lookup_app_l_Some|]. eapply state_ok_mono; [by apply prefix_app_r| |exact Hs]. done.
  - intros i x Hx Hi. destruct (decide (i < length pending)%nat) as [Hlt|Hge].
    + rewrite lookup_app_l in Hx by lia. destruct (bf_todo _ _ _ _ _ Hb i x Hx ltac:(lia)) as (c' & Hc' & Hs).
      exists c'. split; [by apply lookup_app_l_Some|done].
    + apply lookup_lt_Some in Hx as Hil. rewrite length_app in Hil. cbn in Hil. assert (i = length pending) as -> by lia.
      rewrite list_lookup_middle in Hx by done. injection Hx as <-. exists c. split; [|done].
      rewrite Hlen. replace (m + (length cs - m))%nat with (length cs) by lia. by apply list_lookup_middle.
Qed.

Lemma recent_waited cs c m : stream_ok (cs ++ [c]) → (m ≤ length cs)%nat → recent cs m → waited (cs ++ [c]) m.
Proof.
  clear HU Hlinked. intros Hok Hm Hrec k ck j cj Hk Hck Hcj Hj. rewrite length_app in Hj. cbn in Hj.
  destruct (decide (j < k)%nat) as [Hjk|Hjk]; [pose proof (st_rounds _ _ _ Hok j k cj ck Hcj Hck Hjk); lia|].
  assert (Hkl : (k < length cs)%nat) by lia. rewrite lookup_app_l in Hck by lia.
  rewrite lookup_app_l in Hcj by lia. destruct (last cs) as [cl|] eqn:Hcl; [|by apply last_None in Hcl; subst].
  pose proof (Hrec k ck cl Hk Hck Hcl) as Hlt. rewrite last_lookup in Hcl.
  destruct (decide (j = pred (length cs))) as [->|Hne]; [by simplify_eq|].
  pose proof (st_rounds _ _ _ Hok j (pred (length cs)) cj cl) as Hr.
  rewrite !lookup_app_l in Hr by lia. specialize (Hr Hcj Hcl ltac:(lia)). lia.
Qed.

Lemma direct_phase cs c st cf outs : stream_ok (cs ++ [c]) → fin_inv cs st cf outs → ready (cs ++ [c]) (length outs) st →
  ∃ s pending p new blocks, CommitState_new c = Done s ∧
    let cf0 := mk_finalizer (Some (cr_index (sd_commit_ref c))) (cf_pending_commits cf ++ [s]) (cf_blocks cf) in
    direct_loop ctx st cf0 (seq 0 (length (cf_pending_commits cf0))) = Done (set_pending pending cf0) ∧
    pop_finalized_commits (set_pending pending cf0) =
      (mk_finalizer (Some (cr_index (sd_commit_ref c))) (drop (length new) pending) blocks, new) ∧
    buffered (cs ++ [c]) (length (outs ++ new)) st p (drop (length new) pending) ∧
    ((p < length (drop (length new) pending))%nat → too_early (cs ++ [c]) (length (outs ++ new)) p) ∧
    (∀ i o, (outs ++ new) !! i = Some o → output_ok (cs ++ [c]) i o) ∧
    (∀ r, blocks !! r = if bool_decide (r ∈ stream_refs (take (length new) (drop (length outs) (cs ++ [c])))) then None
                        else cf_blocks cf !! r).
Proof using HU Hlinked.
  intros Hok Hinv Hrd. destruct (fi_core _ _ _ _ Hinv) as [p Hcore].
  destruct (CommitState_new_spec c) as (s & Hs & Hun).
  { apply (st_leader _ _ _ Hok (length cs)). by apply list_lookup_middle. }
  destruct (buffered_push _ _ _ _ _ c s (co_buffer _ _ _ _ _ Hcore) Hun) as [p1 Hb1].
  set (cf0 := mk_finalizer (Some (cr_index (sd_commit_ref c))) (cf_pending_commits cf ++ [s]) (cf_blocks cf)).
  destruct (direct_loop_spec (cs ++ [c]) (length outs) st (length (cf_pending_commits cf0)) Hok Hrd p1 0%nat cf0 Hb1 ltac:(lia) eq_refl)
    as (p2 & pending & Hrun & Hb2 & Hte).
  destruct (pop_spec (cs ++ [c]) st outs p2 (set_pending pending cf0) Hok Hb2) as (new & blocks & Hpop & Hb3 & [Hnp Hnl] & Houts & Hlk & _).
  { intros i o Ho. eapply output_ok_mono; [by apply prefix_app_r|]. by apply (co_outs _ _ _ _ _ Hcore). }
  exists s, pending, (p2 - length new)%nat, new, blocks. split; [done|]. cbn zeta. split; [done|]. split; [done|]. split; [done|].
  split; [|done]. cbn in Hnl. rewrite length_drop. intros Hlt x y Hx. rewrite length_app in Hx.
  replace (length outs + length new + (p2 - length new))%nat with (length outs + p2)%nat in Hx by lia. apply Hte; [lia|done].
Qed.

(** [process_commit] up to garbage collection. *)
Lemma finalize_commits_spec cs c st cf outs : stream_ok (cs ++ [c]) → fin_inv cs st cf outs → ready (cs ++ [c]) (length outs) st →
  ∃ cf' new, finalize_commits ctx st cf c = Done (cf', new) ∧ fin_inv (cs ++ [c]) st cf' (outs ++ new).
Proof using HU Hlinked.
  intros Hok Hinv Hrd. destruct (fi_core _ _ _ _ Hinv) as [p0 Hcore]. pose proof (bf_m _ _ _ _ _ (co_buffer _ _ _ _ _ Hcore)) as Hm.
  pose proof (recent_waited cs c (length outs) Hok Hm (fi_recent _ _ _ _ Hinv)) as Hwait.
  destruct (direct_phase cs c st cf outs Hok Hinv Hrd) as (s & pending & p & new & blocks & Hs & Hdirect & Hpop & Hb & Hte & Houts & Hlk).
  unfold finalize_commits.
  assert (match cf_last_processed_commit cf with
          | Some last_processed_commit => bool_decide (u32_add last_processed_commit 1 = cr_index (sd_commit_ref c))
          | None => true end = true) as ->.
  { rewrite (fi_last _ _ _ _ Hinv). destruct (last cs) as [cl|] eqn:Hcl; [|done]. cbn. apply bool_decide_eq_true_2.
    rewrite last_lookup in Hcl. apply lookup_lt_Some in Hcl as Hlt.
    destruct (st_index _ _ _ Hok (pred (length cs)) (length cs) cl c) as [-> Hle];
      [by apply lookup_app_l_Some|by apply list_lookup_middle|lia|]. apply u32_add_small. lia. }
  rewrite Hs. cbn [mbind run_bind]. rewrite Hdirect. cbn [mbind run_bind]. rewrite Hpop. cbn [cf_pending_commits].
  pose proof (bf_length _ _ _ _ _ Hb) as Hblen. pose proof (bf_m _ _ _ _ _ Hb) as Hbm. rewrite !length_app in Hblen, Hbm. cbn [length] in Hblen, Hbm.
  assert (Hlast : Some (cr_index (sd_commit_ref c)) = (λ c, cr_index (sd_commit_ref c)) <$> last (cs ++ [c])) by by rewrite last_snoc.
  case_bool_decide as Hempty.
  - eexists _, new. split; [done|].
    assert (Hall : length (outs ++ new) = length (cs ++ [c])) by (rewrite !length_app; cbn [length]; lia).
    split; [done| |].
    + exists p. split; [exact Hb| |done]. rewrite Hall. cbn [cf_blocks].
      assert (Hnone : ∀ r, blocks !! r = None).
      { intros r. rewrite Hlk. case_bool_decide as Hr; [done|]. apply eq_None_not_Some. intros Hsome.
        apply (bg_dom _ _ _ _ (co_graph _ _ _ _ _ Hcore)) in Hsome. apply Hr. rewrite take_ge.
        - rewrite drop_app_le by done. unfold stream_refs. rewrite bind_app, elem_of_app. by left.
        - rewrite length_drop, length_app. rewrite !length_app in Hall. cbn [length] in *. lia. }
      split.
      * intros r. rewrite Hnone, drop_all. split; [by intros []|by intros ?%elem_of_nil].
      * intros r y. rewrite drop_all. by intros ?%elem_of_nil.
      * intros r B idx. unfold votes_of_block. rewrite Hnone. by intros ?%tx_in_empty.
      * intros r B idx. rewrite drop_all. by intros ?%elem_of_nil.
    + intros k x cl Hk Hx. apply lookup_lt_Some in Hx. lia.
  - assert (Hle : (length (outs ++ new) ≤ length cs)%nat) by (rewrite length_app; lia).
    assert (Hg1 : graph_ok G cs (length (outs ++ new)) blocks).
    { rewrite length_app. apply (graph_pop cs _ _ (cf_blocks cf)); [|apply Hcore|].
      - eapply stream_ok_prefix; [exact Hok|by apply prefix_app_r].
      - intros r. rewrite Hlk. rewrite length_app in Hle. rewrite drop_app_le by lia.
        rewrite take_app_le; [done|]. rewrite length_drop. lia. }
    destruct (link_last_commit ctx G byz HU Hlinked cs c (length (outs ++ new)) Hok Hle blocks Hg1) as (blocks2 & Hlink & Hg2).
    destruct (buffered_last _ _ _ _ _ Hb) as (sl & Hsl & Hcl). { intros He. by rewrite He in Hempty. }
    rewrite last_snoc in Hcl. injection Hcl as Hcl.
    unfold link_blocks_in_last_commit. cbn [cf_pending_commits cf_blocks]. rewrite Hsl. cbn [expect mbind run_bind].
    unfold inherit_reject_votes_in_last_commit. cbn [cf_pending_commits cf_blocks set_blocks]. rewrite Hsl. cbn [expect mbind run_bind].
    rewrite <-Hcl, Hlink. cbn [mbind run_bind].
    match goal with |- context [indirect_loop ctx ?n st ?x new] =>
      destruct (indirect_loop_spec (cs ++ [c]) st n Hok p x outs new) as (p' & cf' & fin & Hrun & Hl & Hcore' & Hrec) end.
    + by split.
    + rewrite length_app. split; [apply Hrd|..]; intros k x.
      * intros B Hk. apply (rd_known _ _ _ Hrd). lia.
      * intros Hk. apply (rd_certified _ _ _ Hrd). lia.
    + rewrite length_app. intros k x j y Hk. apply Hwait. lia.
    + done.
    + done.
    + exists cf', fin. split; [exact Hrun|]. split; [by rewrite Hl|by exists p'|done].
Qed.
End finalizer.
