(* ===== verification/FinalizerNode.v ===== *)
(** * A node's certifier and finalizer together

    The certifier receives blocks while the finalizer processes commits and
    collects the garbage of the certifier. *)
From S2P Require Import Prelude Committee StakeAggregator Block ThresholdClock Commit LeaderScoring Store DagState DagStateProofs DagTraversal LeaderSchedule BaseCommitter CommitRule DagViews TransactionCertifier CertifierProofs CommitFinalizer FinalizerRule FinalizerLinks FinalizerVotes FinalizerStates FinalizerStreams FinalizerProofs.

Section node.
Context {S : Type} `{Store S} (ctx : Context) (G : BlockRef → option VerifiedBlock) (byz : gset AuthorityIndex).
Implicit Types (cs outs : list CommittedSubDag) (B : BlockRef) (idx : TransactionIndex) (c : CommittedSubDag).
Implicit Types (st : CertifierState) (cf : CommitFinalizer) (d : DagState S).
Abbreviation cm := (ctx_committee ctx).
Abbreviation stream_ok := (stream_ok ctx G).

(** A commit can be processed: it continues the sequence, the certifier has
    the votes of the commits of the buffer, with a certificate of the leaders
    that the finalizer will take for certified, and the DAG state has made the
    commit. *)
Record commit_enabled cs outs st d c : Prop := {
  en_stream : stream_ok (cs ++ [c]);
  en_known k ck B : (length outs ≤ k)%nat → (cs ++ [c]) !! k = Some ck → B ∈ commit_refs ck → is_Some (cs_votes st !! B);
  en_certified k ck : (length outs ≤ k)%nat → (cs ++ [c]) !! k = Some ck →
    sd_local ck ∨ sd_round ck + 3 ≤ sd_round c → ∃ D, certified_in ctx G (cs ++ [c]) k D ∧ voted_in G st D;
  en_dag : sd_round c ≤ last_commit_round d;
}.

Inductive finalizer_node : list CommittedSubDag → CertifierState → CommitFinalizer → list CommittedSubDag → Prop :=
| fn_new : finalizer_node [] CertifierState_new CommitFinalizer_new []
| fn_voted cs st cf outs voted st' sent : finalizer_node cs st cf outs →
    (∀ p, p ∈ voted → G (vb_reference p.1) = Some p.1) →
    TransactionCertifier_add_voted_blocks ctx st voted = Done (st', sent) → finalizer_node cs st' cf outs
| fn_proposed cs st cf outs b st' sent : finalizer_node cs st cf outs → is_Some (cs_votes st !! vb_reference b) →
    TransactionCertifier_add_proposed_block ctx st b = Done (st', sent) → finalizer_node cs st' cf outs
| fn_commit cs st cf outs d c cf' st' new : finalizer_node cs st cf outs → commit_enabled cs outs st d c →
    process_commit ctx d st cf c = Done (cf', st', new) → finalizer_node (cs ++ [c]) st' cf' (outs ++ new).

Context (HU : universe_ok (ctx_committee ctx) G byz) (Hlinked : votes_linked G).

Record node_ok cs st cf outs : Prop := {
  no_stream : stream_ok cs;
  no_good : ∃ sent, good ctx G st sent;
  no_fin : fin_inv ctx G cs st cf outs;
  no_gc : cs_gc_round st = gc_at ctx cs (length outs);
}.

Lemma fin_inv_later cs st st' cf outs :
  (∀ k c B idx, (length outs ≤ k)%nat → cs !! k = Some c → B ∈ commit_refs c →
     has_rejects (entry st B) idx → has_rejects (entry st' B) idx) →
  fin_inv ctx G cs st cf outs → fin_inv ctx G cs st' cf outs.
Proof.
  clear HU Hlinked H. intros Hst [Hl [p [Hb Hg Ho]] Hr]. split; [done| |done]. exists p. split; [|done..].
  split; [apply Hb|apply Hb| |apply Hb]. intros i s Hs Hi. destruct (bf_done _ _ _ _ _ _ _ Hb i s Hs Hi) as (c & Hc & Hok).
  exists c. split; [done|]. eapply state_ok_mono; [done| |exact Hok]. intros B idx. apply (Hst (length outs + i)%nat c); [lia|done].
Qed.

Lemma gc_at_app cs c i : (i ≤ length cs)%nat → gc_at ctx (cs ++ [c]) i = gc_at ctx cs i.
Proof.
  clear. intros Hi. destruct i as [|i]; [done|]. cbn. by rewrite lookup_app_l by lia.
Qed.

Lemma outs_length cs st cf outs : fin_inv ctx G cs st cf outs → (length outs ≤ length cs)%nat.
Proof. clear. intros [_ [p [Hb _ _]] _]. apply Hb. Qed.

(** The GC round of the last output. *)
Lemma last_output_gc cs st cf outs o : fin_inv ctx G cs st cf outs → last outs = Some o →
  calculate_gc_round ctx (br_round (sd_leader o)) = gc_at ctx cs (length outs) ∧
  ∃ k c, (k < length outs)%nat ∧ cs !! k = Some c ∧ sd_leader o = sd_leader c.
Proof.
  clear HU Hlinked H. intros [_ [p [_ _ Ho]] _] Hlast. rewrite last_lookup in Hlast.
  destruct (ou_commit _ _ _ _ _ (Ho _ _ Hlast)) as (c & Hc & Hleader & _).
  apply lookup_lt_Some in Hlast as Hlt. split.
  - destruct (length outs) as [|n] eqn:Hn; [lia|]. cbn in *. by rewrite Hc, Hleader.
  - exists (pred (length outs)), c. split_and!; [lia|done..].
Qed.

Lemma process_commit_spec cs st cf outs d c : node_ok cs st cf outs → commit_enabled cs outs st d c →
  ∃ cf' st' new, process_commit ctx d st cf c = Done (cf', st', new) ∧ node_ok (cs ++ [c]) st' cf' (outs ++ new).
Proof using HU Hlinked.
  intros [Hs [sent Hgood] Hfin Hgc] Hen. pose proof (en_stream _ _ _ _ _ Hen) as Hok.
  destruct (finalize_commits_spec ctx G byz HU Hlinked cs c st cf outs Hok Hfin) as (cf' & new & Hrun & Hfin').
  { split; [apply Hgood|apply (en_known _ _ _ _ _ Hen)|]. intros k ck Hk Hck Hor. apply (en_certified _ _ _ _ _ Hen k ck Hk Hck).
    destruct Hor as [?|(cl & Hcl & ?)]; [by left|right]. rewrite last_snoc in Hcl. by injection Hcl as ->. }
  pose proof (outs_length _ _ _ _ Hfin) as Hlen. pose proof (outs_length _ _ _ _ Hfin') as Hlen'.
  unfold process_commit. rewrite Hrun. cbn [mbind run_bind].
  destruct (last new) as [o|] eqn:Hlast.
  2:{ apply last_None in Hlast as ->. exists cf', st, []. split; [done|]. split; [done|by exists sent|done|].
      rewrite app_nil_r, gc_at_app by done. done. }
  destruct (last_output_gc _ _ _ _ o Hfin') as [Hgceq (k & ck & Hk & Hck & Hleader)].
  { rewrite last_app. by rewrite Hlast. }
  assert (Hle : cs_gc_round st ≤ gc_at ctx (cs ++ [c]) (length (outs ++ new))).
  { rewrite Hgc. destruct (decide (length (outs ++ new) < length (cs ++ [c]))%nat) as [Hlt|Hge].
    - rewrite <-(gc_at_app cs c) by done. destruct (lookup_lt_is_Some_2 _ _ Hlt) as [x Hx].
      apply (gc_at_mono ctx G _ _ _ x Hok); [rewrite length_app; lia|done].
    - assert (Heq : length (outs ++ new) = Datatypes.S (length cs)) by (rewrite !length_app in *; cbn [length] in *; lia).
      rewrite Heq. cbn. rewrite list_lookup_middle by done.
      rewrite <-(gc_at_app cs c) by done. destruct (length outs) as [|n] eqn:Hn; [cbn; lia|]. cbn.
      destruct (lookup_lt_is_Some_2 cs n ltac:(lia)) as [x Hx]. rewrite lookup_app_l by lia. rewrite Hx.
      pose proof (st_rounds _ _ _ Hok n (length cs) x c) as Hr. rewrite lookup_app_l in Hr by lia.
      specialize (Hr Hx ltac:(by apply list_lookup_middle) ltac:(lia)). unfold calculate_gc_round, saturating_sub. lia. }
  rewrite Hgceq. destruct (update_gc_round_spec ctx G st sent _ Hgood Hle) as (st' & Hup & Hgood' & Hgc' & Hsame).
  assert (run_gc ctx d st (gc_at ctx (cs ++ [c]) (length (outs ++ new))) = Done st') as ->.
  { unfold run_gc. rewrite bool_decide_eq_true_2; [done|]. rewrite <-Hgceq, Hleader. unfold DagState.gc_round, calculate_gc_round, saturating_sub.
    pose proof (en_dag _ _ _ _ _ Hen). assert (sd_round ck ≤ sd_round c); [|unfold sd_round in *; lia].
    apply lookup_lt_Some in Hck as Hkl. rewrite length_app in Hkl. cbn in Hkl.
    destruct (decide (k = length cs)) as [->|Hne]; [rewrite list_lookup_middle in Hck by done; by injection Hck as ->|].
    pose proof (st_rounds _ _ _ Hok k (length cs) ck c Hck ltac:(by apply list_lookup_middle) ltac:(lia)). lia. }
  cbn [mbind run_bind]. exists cf', st', new. split; [done|]. split; [done|by exists sent| |done].
  apply (fin_inv_later _ st); [|done]. intros j cj B idx Hj Hcj HB. unfold entry. rewrite Hsame; [done|].
  apply elem_of_commit in HB as (b & Hb & ->). pose proof (st_gc _ _ _ Hok j cj b Hcj Hb) as Hround.
  pose proof (gc_at_mono ctx G _ _ _ cj Hok Hj Hcj). change (br_round (vb_reference b)) with (vb_round b). lia.
Qed.

Lemma finalizer_node_ok cs st cf outs : finalizer_node cs st cf outs → node_ok cs st cf outs.
Proof using HU Hlinked.
  induction 1 as [|cs st cf outs voted st' sent _ IH Hv Hrun|cs st cf outs b st' sent _ IH Hb Hrun|
                  cs st cf outs d c cf' st' new _ IH Hen Hrun].
  - split; [|exists []|apply fin_inv_new|done].
    + split; intros; try done. constructor.
    + apply (certifier_good ctx G byz HU). constructor.
  - destruct IH as [Hs [sent0 Hg] Hf Hgc]. destruct (add_voted_good ctx G byz HU st sent0 voted Hg Hv) as (x & y & Hrun' & Hg' & Hl).
    rewrite Hrun in Hrun'. injection Hrun' as <- <-. split; [done|by eexists| |by rewrite (la_gc _ _ Hl)].
    apply (fin_inv_later _ st); [|done]. intros k c B idx _ _ _. apply (la_keys _ _ Hl).
  - destruct IH as [Hs [sent0 Hg] Hf Hgc]. destruct (add_proposed_good ctx G byz HU st sent0 b Hg Hb) as (x & y & Hrun' & Hg' & Hl).
    rewrite Hrun in Hrun'. injection Hrun' as <- <-. split; [done|by eexists| |by rewrite (la_gc _ _ Hl)].
    apply (fin_inv_later _ st); [|done]. intros k c B idx _ _ _. apply (la_keys _ _ Hl).
  - destruct (process_commit_spec cs st cf outs d c IH Hen) as (x & y & z & Hrun' & Hok).
    rewrite Hrun in Hrun'. by injection Hrun' as <- <- <-.
Qed.

(** The evidence behind an output, on a sequence with the same commits. *)
Lemma finalized_commit_in cs k B idx : finalized_by ctx G cs k B idx → is_Some (cs !! k).
Proof.
  clear HU Hlinked H. intros [(D & HD & _)|(c & Hc & _)]; [|by exists c].
  destruct (ce_certificate _ _ _ _ _ HD) as (r & _ & c & C & Hc & _). by exists c.
Qed.

Lemma output_decided cs cs1 st cf outs k o : finalizer_node cs1 st cf outs → same_prefix cs1 cs → outs !! k = Some o →
  ∃ c, cs !! k = Some c ∧ sd_leader o = sd_leader c ∧ sd_blocks o = sd_blocks c ∧
    ∀ B idx, B ∈ commit_refs o →
      if decide (idx ∈ default [] (sd_rejected_transactions_by_block o !! B))
      then ∃ p, p `prefix_of` cs ∧ rejected_by ctx G p k B idx
      else ∃ p, p `prefix_of` cs ∧ p !! k = Some c ∧ finalized_by ctx G p k B idx.
Proof using HU Hlinked.
  intros Hrun Hsame Ho. pose proof (finalizer_node_ok _ _ _ _ Hrun) as Hok.
  destruct (no_fin _ _ _ _ Hok) as [_ [p Hc] _]. pose proof (co_outs _ _ _ _ _ _ _ Hc k o Ho) as Hout.
  destruct (ou_commit _ _ _ _ _ Hout) as (c1 & Hk1 & Hl & Hb & _).
  destruct Hsame as (p' & Hp' & HF) eqn:Heq. clear Heq. destruct (Forall2_lookup_l _ _ _ _ _ HF Hk1) as (c & Hk & [Hsl Hsb _]).
  pose proof (prefix_stream _ _ _ _ Hp' Hk) as Hkc.
  exists c. split; [done|]. split; [congruence|]. split; [congruence|]. intros B idx HB. case_decide as Hr.
  - destruct (ou_rejected _ _ _ _ _ Hout B idx HB Hr) as (a & Ha & Hrej).
    destruct (same_prefix_trans a cs1 cs Ha ltac:(by exists p')) as (q & Hq & HFq). exists q. split; [done|by eapply same_rejected].
  - destruct (ou_finalized _ _ _ _ _ Hout B idx HB Hr) as (a & Ha & Hfin).
    destruct (same_prefix_trans a cs1 cs Ha ltac:(by exists p')) as (q & Hq & HFq).
    assert (Hf : finalized_by ctx G q k B idx) by (eapply same_finalized; [exact (stream_ok_prefix _ _ _ _ (no_stream _ _ _ _ Hok) Ha)|done..]).
    exists q. split; [done|]. split; [|done]. destruct (finalized_commit_in _ _ _ _ Hf) as [x Hx]. rewrite Hx.
    pose proof (prefix_stream _ _ _ _ Hq Hx). congruence.
Qed.
End node.


