(* ===== verification/FinalizerExamples.v ===== *)
(** * A run of two finalizers

    Four authorities over five rounds: one transaction of the block of
    authority 0 is rejected by the Byzantine authority 3 only, another by a
    quorum. The two nodes receive the blocks in different orders. *)
From S2P Require Import Prelude Committee StakeAggregator Block ThresholdClock Commit LeaderScoring Store DagState DagStateProofs DagTraversal LeaderSchedule BaseCommitter CommitRule DagViews TransactionCertifier CertifierProofs CommitFinalizer FinalizerRule FinalizerLinks FinalizerVotes FinalizerStates FinalizerStreams FinalizerProofs FinalizerNode.

Definition fin_ref (r : Round) (a : AuthorityIndex) : BlockRef := mk_ref r a (r + 256 * N.of_nat a).
Definition fin_ancestors (r : Round) (a : AuthorityIndex) : list BlockRef :=
  fin_ref (r - 1) <$> (a :: filter (λ x, x ≠ a) [0; 1; 2; 3]%nat).
Definition fin_votes (r : Round) (a : AuthorityIndex) : list BlockTransactionVotes :=
  if decide (r = 2) then [mk_txn_votes (fin_ref 1 0%nat) (if decide (a = 3%nat) then [0] else [1])] else [].
Definition fin_block (r : Round) (a : AuthorityIndex) : VerifiedBlock :=
  mk_verified (mk_signed (V2 (mk_block_v2 0 r a 0 (fin_ancestors r a)
      [mk_transaction []; mk_transaction []; mk_transaction []] (fin_votes r a) [] [])) [])
    (r + 256 * N.of_nat a) [].
Definition fin_round (r : Round) : list VerifiedBlock := fin_block r <$> [0; 1; 2; 3]%nat.
Definition fin_blocks : list VerifiedBlock := [1; 2; 3; 4; 5] ≫= fin_round.
Definition fin_universe (r : BlockRef) : option VerifiedBlock :=
  (list_to_map ((λ b, (vb_reference b, b)) <$> fin_blocks) : gmap BlockRef VerifiedBlock) !! r.
Definition fin_ctx : Context := test_context 4 10 20.

Lemma fin_checked : Forall (λ b, block_wfb (test_committee 4) b ∧ fin_universe (vb_reference b) = Some b ∧
    b = fin_block (vb_round b) (vb_author b) ∧ vb_round b ≤ 5 ∧ (vb_author b < 4)%nat) fin_blocks.
Proof. repeat (apply Forall_cons; split; [split_and!; [by vm_compute..|vm_compute; lia]|]). constructor. Qed.

Lemma fin_facts r b : fin_universe r = Some b → r = vb_reference b ∧ block_wf (test_committee 4) b ∧
  b = fin_block (br_round r) (br_author r) ∧ br_round r ≤ 5 ∧ (br_author r < 4)%nat.
Proof.
  unfold fin_universe. intros (b' & [= -> ->] & Hb)%elem_of_list_to_map_2%list_elem_of_fmap.
  pose proof fin_checked as Hall. rewrite Forall_forall in Hall.
  destruct (Hall b' Hb) as (Hwf%block_wfb_spec & _ & Heq & ? & ?). by split_and!.
Qed.

Lemma fin_in b : b ∈ fin_blocks → fin_universe (vb_reference b) = Some b.
Proof. pose proof fin_checked as Hall. rewrite Forall_forall in Hall. apply Hall. Qed.

Lemma fin_universe_ok : universe_ok (test_committee 4) fin_universe {[3%nat]}.
Proof.
  split.
  - apply test_committee_ok.
  - by intros r b [-> _]%fin_facts.
  - by intros r b (_ & ? & _)%fin_facts.
  - intros r1 r2 b1 b2 (-> & _ & H1 & _)%fin_facts (-> & _ & H2 & _)%fin_facts _ Ha Hr. by rewrite H1, H2, Ha, Hr.
  - by vm_compute.
Qed.

(** The votes are in the blocks of round 2, on the block of authority 0. *)
Lemma fin_rejects r b B idx : fin_universe r = Some b → rejects b B idx → br_round r = 2 ∧ B = fin_ref 1 0%nat.
Proof.
  intros (-> & _ & Hb & _)%fin_facts (v & Hv & <- & _). rewrite Hb in Hv. cbn in Hv. unfold fin_votes in Hv.
  case_decide as Hr; [|by apply elem_of_nil in Hv]. apply list_elem_of_singleton in Hv as ->. done.
Qed.

Lemma fin_votes_linked : votes_linked fin_universe.
Proof.
  intros r b B idx Hr Hrj. destruct (fin_rejects r b B idx Hr Hrj) as [Hround ->]. apply tc_once. exists b. split; [done|].
  apply fin_facts in Hr as (_ & _ & -> & _ & Ha). rewrite Hround. cbn. unfold fin_ancestors.
  destruct (br_author r) as [|[|[|[|]]]]; [vm_compute; set_solver..|lia].
Qed.

(** Own ancestors go down to round 1. *)
Lemma fin_own_chain r b (n : nat) : fin_universe r = Some b → br_round r = 2 + N.of_nat n →
  rtc (own_step fin_universe) r (fin_ref 2 (br_author r)).
Proof.
  revert r b. induction n as [|n IH]; intros r b Hr Hround; pose proof Hr as (Href & _ & Hb & Hle & Ha)%fin_facts.
  - assert (r = fin_ref 2 (br_author r)) as <-; [|done]. rewrite Href. rewrite Hb. cbn. unfold fin_ref.
    assert (br_round r = 2) as -> by lia. done.
  - assert (Hstep : own_step fin_universe r (fin_ref (br_round r - 1) (br_author r))).
    { exists b. split; [done|]. rewrite Hb. done. }
    eapply rtc_l; [exact Hstep|].
    assert (∃ b', fin_universe (fin_ref (br_round r - 1) (br_author r)) = Some b') as [b' Hb'].
    { assert (br_round r = 3 ∨ br_round r = 4 ∨ br_round r = 5) as [->|[->| ->]] by lia;
        (destruct (br_author r) as [|[|[|[|]]]]; [by eexists; vm_compute..|lia]). }
    apply (IH _ _ Hb'). cbn. lia.
Qed.

Lemma fin_votes_first : votes_first fin_universe {[3%nat]}.
Proof.
  intros r b r' B idx Hr Hrj Hlinks Hau _. destruct (fin_rejects r b B idx Hr Hrj) as [Hround ->].
  pose proof (links_round fin_ctx fin_universe {[3%nat]} fin_universe_ok _ _ Hlinks) as Hlt. cbn in Hlt.
  assert (∃ b', fin_universe r' = Some b') as [b' Hb'].
  { unfold links in Hlinks. inversion Hlinks as [x y (b' & Hb' & _)|x y z (b' & Hb' & _) _]; subst; by exists b'. }
  assert (r = fin_ref 2 (br_author r')) as ->.
  { apply fin_facts in Hr as (-> & _ & Hb & _). rewrite <-Hau. rewrite Hb at 1. cbn. unfold fin_ref. cbn in Hround. by rewrite Hround. }
  apply (fin_own_chain r' b' (N.to_nat (br_round r' - 2)) Hb'). lia.
Qed.

(** ** The commits *)
Definition fin_commit (index : CommitIndex) (leader : VerifiedBlock) (blocks : list VerifiedBlock) : CommittedSubDag :=
  CommittedSubDag_new (vb_reference leader) blocks 0 (mk_commit_ref index 0).
Definition fin_first : CommittedSubDag := fin_commit 1 (fin_block 2 0) (fin_round 1 ++ [fin_block 2 0]).
Definition fin_second : CommittedSubDag :=
  fin_commit 2 (fin_block 3 1) [fin_block 2 1; fin_block 2 2; fin_block 2 3; fin_block 3 1].
Definition fin_stream : list CommittedSubDag := [fin_first; fin_second].

Lemma fin_known : Forall (λ b, fin_universe (vb_reference b) = Some b) (sd_blocks fin_first ++ sd_blocks fin_second).
Proof. repeat (apply Forall_cons; split; [by vm_compute|]). constructor. Qed.

Lemma fin_linked : Forall (λ c, Forall (λ r, r = sd_leader c ∨ r ∈ fin_ancestors (sd_round c) (br_author (sd_leader c)))
    (commit_refs c)) fin_stream.
Proof. repeat (apply Forall_cons; split; [apply (bool_decide_unpack _); by vm_compute|]). constructor. Qed.

Lemma fin_closed : Forall (λ b, Forall (λ a, br_round a = 0 ∨ a ∈ stream_refs [fin_first]) (vb_ancestors b)) (sd_blocks fin_first) ∧
  Forall (λ b, Forall (λ a, br_round a = 0 ∨ a ∈ stream_refs fin_stream) (vb_ancestors b)) (sd_blocks fin_second) ∧
  Forall (λ b, 0 < vb_round b) (sd_blocks fin_first ++ sd_blocks fin_second).
Proof.
  split_and!; repeat (apply Forall_cons; split; [apply (bool_decide_unpack _); by vm_compute|]); constructor.
Qed.

Lemma fin_stream_lookup i c : fin_stream !! i = Some c → i = 0%nat ∧ c = fin_first ∨ i = 1%nat ∧ c = fin_second.
Proof. destruct i as [|[|i]]; intros Hi; [left|right|done]; by injection Hi as <-. Qed.

Lemma fin_stream_ok : stream_ok fin_ctx fin_universe fin_stream.
Proof.
  pose proof fin_known as Hknown. rewrite Forall_app, !Forall_forall in Hknown. destruct Hknown as [Hk1 Hk2].
  pose proof fin_linked as Hlinked. rewrite Forall_forall in Hlinked.
  destruct fin_closed as (Hc1 & Hc2 & Hpos). rewrite Forall_app, !Forall_forall in Hpos. destruct Hpos as [Hp1 Hp2].
  rewrite Forall_forall in Hc1, Hc2.
  assert (Hleader : ∀ i c, fin_stream !! i = Some c → sd_leader c ∈ commit_refs c).
  { intros i c [[_ ->]|[_ ->]]%fin_stream_lookup; apply (bool_decide_unpack _); by vm_compute. }
  assert (Hgc : ∀ i c, fin_stream !! i = Some c → gc_at fin_ctx fin_stream i = 0).
  { by intros i c [[-> ->]|[-> ->]]%fin_stream_lookup. }
  assert (Hb : ∀ i c b, fin_stream !! i = Some c → b ∈ sd_blocks c → fin_universe (vb_reference b) = Some b).
  { intros i c b [[_ ->]|[_ ->]]%fin_stream_lookup; auto. }
  split.
  - exact Hb.
  - exact Hleader.
  - intros i c r Hi Hr. pose proof (Hlinked c ltac:(by eapply list_elem_of_lookup_2)) as Hall. rewrite Forall_forall in Hall.
    destruct (Hall r Hr) as [->|Ha]; [done|]. apply rtc_once. split.
    + unfold stream_refs. csimpl. rewrite app_nil_r. by apply (Hleader i).
    + pose proof (Hleader i c Hi) as Hl. apply elem_of_commit in Hl as (b & Hbin & Heq). pose proof (Hb i c b Hi Hbin) as HG.
      rewrite <-Heq in HG. exists b. split; [done|]. pose proof HG as (_ & _ & -> & _)%fin_facts. done.
  - apply (bool_decide_unpack _). by vm_compute.
  - intros i c b Hi Hbin. rewrite (Hgc i c Hi). apply fin_stream_lookup in Hi as [[_ ->]|[_ ->]]; auto.
  - intros i c b a Hi Hbin Ha. rewrite (Hgc i c Hi). intros Hpos. apply fin_stream_lookup in Hi as [[-> ->]|[-> ->]].
    + pose proof (Hc1 b Hbin) as Hall. rewrite Forall_forall in Hall. destruct (Hall a Ha); [lia|done].
    + pose proof (Hc2 b Hbin) as Hall. rewrite Forall_forall in Hall. destruct (Hall a Ha); [lia|done].
  - by intros i j c c' [[-> ->]|[-> ->]]%fin_stream_lookup [[-> ->]|[-> ->]]%fin_stream_lookup ?; try lia.
  - by intros i c [[_ ->]|[_ ->]]%fin_stream_lookup.
  - by intros i j c c' [[-> ->]|[-> ->]]%fin_stream_lookup [[-> ->]|[-> ->]]%fin_stream_lookup ?; try lia.
  - by intros i c [[_ ->]|[_ ->]]%fin_stream_lookup.
Qed.

(** The blocks above a leader certify it. *)
Lemma fin_certified (bound : Round) cs k c : cs `prefix_of` fin_stream → cs !! k = Some c → sd_round c + 2 ≤ bound →
  certified_in fin_ctx fin_universe cs k (λ r, br_round r ≤ bound).
Proof.
  intros Hp Hk Hle. pose proof (prefix_stream _ _ _ _ Hp Hk) as Hs.
  apply (quorum_certified fin_ctx fin_universe {[3%nat]} fin_universe_ok cs k c _ {[0; 1; 2]}%nat Hk).
  - by vm_compute.
  - intros r a Hr Hinc. pose proof (includes_round fin_ctx fin_universe {[3%nat]} fin_universe_ok _ _ Hinc). lia.
  - by vm_compute.
  - intros h Hh. exists (fin_ref (sd_round c + 2) h), (fin_block (sd_round c + 2) h).
    split; [exact Hle|]. assert (h = 0 ∨ h = 1 ∨ h = 2)%nat as [->|[->| ->]] by (clear -Hh; set_solver).
    all: split; [apply fin_stream_lookup in Hs as [[_ ->]|[_ ->]]; by vm_compute|split; [done|]].
    all: split; [done|]; apply fin_stream_lookup in Hs as [[_ ->]|[_ ->]]; apply (bool_decide_unpack _); by vm_compute.
Qed.

(** ** The nodes *)
Definition fin_dag : DagState RocksDBStore :=
  set_last_commit (Some (mk_trusted (Commit_new 2 0 0 (sd_leader fin_second) (commit_refs fin_second)) 0 []))
    (fresh_dag fin_ctx [] rocks_empty 0).

(** Whether the certifier has the blocks up to a round, and the buffered blocks. *)
Definition has_blocks (st : CertifierState) (bound : Round) : bool :=
  forallb (λ b, bool_decide (bound < vb_round b) || bool_decide (is_Some (vi_block (entry st (vb_reference b))))) fin_blocks.
Definition has_commits (st : CertifierState) (cs : list CommittedSubDag) : bool :=
  forallb (λ r, bool_decide (is_Some (cs_votes st !! r))) (stream_refs cs).

(** The rounds [first] arrive before the first commit, [later] between the two. *)
Definition fin_run (first later : list Round) : run (CertifierState * CommitFinalizer * list CommittedSubDag) :=
  '(st, _) ← TransactionCertifier_add_voted_blocks fin_ctx CertifierState_new ((λ b, (b, [])) <$> (first ≫= fin_round));
  assert! (has_blocks st 4 && has_commits st [fin_first]);
  '(cf, st, new) ← process_commit fin_ctx fin_dag st CommitFinalizer_new fin_first;
  '(st, _) ← TransactionCertifier_add_voted_blocks fin_ctx st ((λ b, (b, [])) <$> (later ≫= fin_round));
  assert! (has_blocks st 5 && has_commits st fin_stream && bool_decide (length new = O));
  '(cf, st, new') ← process_commit fin_ctx fin_dag st cf fin_second;
  Done (st, cf, new ++ new').

Lemma fin_rounds_known rounds : Forall (λ r, r ∈ [1; 2; 3; 4; 5]) rounds →
  ∀ p : VerifiedBlock * list TransactionIndex, p ∈ (λ b, (b, [])) <$> (rounds ≫= fin_round) → fin_universe (vb_reference p.1) = Some p.1.
Proof.
  intros Hall p (b & -> & (r & Hb & Hr)%list_elem_of_bind)%list_elem_of_fmap. apply fin_in. unfold fin_blocks.
  apply list_elem_of_bind. exists r. split; [done|]. rewrite Forall_forall in Hall. by apply Hall.
Qed.

Lemma fin_enabled cs c st cf outs bound : finalizer_node (S := RocksDBStore) fin_ctx fin_universe cs st cf outs →
  (cs ++ [c]) `prefix_of` fin_stream → has_blocks st bound → has_commits st (cs ++ [c]) → outs = [] →
  (∀ k ck, (cs ++ [c]) !! k = Some ck → sd_round ck + 2 ≤ bound) → commit_enabled fin_ctx fin_universe cs outs st fin_dag c.
Proof.
  intros Hrun Hp Hblocks Hcommits -> Hbound.
  destruct (no_good _ _ _ _ _ _ (finalizer_node_ok fin_ctx fin_universe {[3%nat]} fin_universe_ok fin_votes_linked _ _ _ _ Hrun))
    as (sent & Hinv & _).
  split.
  - exact (stream_ok_prefix _ _ _ _ fin_stream_ok Hp).
  - intros k ck B _ Hk HB. unfold has_commits in Hcommits. rewrite forallb_True, Forall_forall in Hcommits.
    apply (bool_decide_unpack _), Hcommits, elem_of_stream. eauto.
  - intros k ck _ Hk _. exists (λ r, br_round r ≤ bound). split; [by apply (fin_certified bound _ k ck); eauto|].
    intros r b Hr Hb _. unfold has_blocks in Hblocks. rewrite forallb_True, Forall_forall in Hblocks.
    pose proof Hb as (-> & _)%fin_facts. assert (Hin : b ∈ fin_blocks).
    { unfold fin_universe in Hb. apply elem_of_list_to_map_2, list_elem_of_fmap in Hb as (x & Heq & Hx).
      by rewrite (f_equal snd Heq : b = x). }
    specialize (Hblocks b Hin). cbn beta in Hblocks. rewrite orb_True, !bool_decide_spec in Hblocks.
    destruct Hblocks as [Hlt|[b' Hb']]; [cbn in Hr; lia|]. rewrite Hb'. f_equal. unfold entry in Hb'.
    destruct (cs_votes st !! vb_reference b) as [vi|] eqn:Hvi; [|done]. pose proof (ci_block _ _ _ _ Hinv _ vi b' Hvi Hb'). congruence.
  - assert (Hc : fin_stream !! length cs = Some c) by (eapply prefix_stream; [exact Hp|by apply list_lookup_middle]).
    by apply fin_stream_lookup in Hc as [[_ ->]|[_ ->]].
Qed.

Lemma fin_run_node first later st cf outs : Forall (λ r, r ∈ [1; 2; 3; 4; 5]) (first ++ later) →
  fin_run first later = Done (st, cf, outs) → finalizer_node (S := RocksDBStore) fin_ctx fin_universe fin_stream st cf outs.
Proof.
  intros [Hf Hl]%Forall_app. unfold fin_run. intros ([st1 sent1] & Hv1 & Hrun)%bind_Done.
  destruct (has_blocks st1 4 && has_commits st1 [fin_first]) eqn:Hok1; [|done]. apply andb_true_iff in Hok1 as [Hb1 Hc1].
  apply bind_Done in Hrun as ([[cf1 st2] new1] & Hp1 & Hrun). apply bind_Done in Hrun as ([st3 sent3] & Hv2 & Hrun).
  destruct (has_blocks st3 5 && has_commits st3 fin_stream && bool_decide (length new1 = O)) eqn:Hok2; [|done].
  apply andb_true_iff in Hok2 as [[Hb2 Hc2]%andb_true_iff Hnew]. apply bool_decide_eq_true, nil_length_inv in Hnew as ->.
  apply bind_Done in Hrun as ([[cf2 st4] new2] & Hp2 & Hrun). injection Hrun as <- <- <-.
  assert (N1 : finalizer_node (S := RocksDBStore) fin_ctx fin_universe [] st1 CommitFinalizer_new [])
    by (eapply fn_voted; [apply fn_new|exact (fin_rounds_known first Hf)|exact Hv1]).
  assert (N2 : finalizer_node (S := RocksDBStore) fin_ctx fin_universe [fin_first] st2 cf1 []).
  { apply (fn_commit fin_ctx fin_universe [] st1 CommitFinalizer_new [] fin_dag fin_first cf1 st2 []); [done| |exact Hp1].
    apply (fin_enabled [] fin_first st1 CommitFinalizer_new [] 4 N1 (prefix_cons fin_first [] [fin_second] (prefix_nil _))
      (Is_true_true_2 _ Hb1) (Is_true_true_2 _ Hc1) eq_refl).
    intros [|k] ck Hk; [by injection Hk as <-|done]. }
  assert (N3 : finalizer_node (S := RocksDBStore) fin_ctx fin_universe [fin_first] st3 cf1 [])
    by (eapply fn_voted; [exact N2|exact (fin_rounds_known later Hl)|exact Hv2]).
  apply (fn_commit fin_ctx fin_universe [fin_first] st3 cf1 [] fin_dag fin_second cf2 st4 new2); [done| |exact Hp2].
  apply (fin_enabled [fin_first] fin_second st3 cf1 [] 5 N3 ltac:(reflexivity) (Is_true_true_2 _ Hb2) (Is_true_true_2 _ Hc2) eq_refl).
  intros [|[|k]] ck Hk; [by injection Hk as <-|by injection Hk as <-|done].
Qed.

(** The two nodes: the first learns of round 5 only after its first commit. *)
Definition fin_outs (first later : list Round) : list CommittedSubDag :=
  match fin_run first later with Done (_, _, outs) => outs | _ => [] end.
Definition fin_succeeds (first later : list Round) : bool :=
  match fin_run first later with Done _ => true | _ => false end.

Lemma fin_reached first later : Forall (λ r, r ∈ [1; 2; 3; 4; 5]) (first ++ later) → fin_succeeds first later = true →
  ∃ st cf, finalizer_node (S := RocksDBStore) fin_ctx fin_universe fin_stream st cf (fin_outs first later).
Proof.
  intros Hall. unfold fin_succeeds, fin_outs. destruct (fin_run first later) as [[[st cf] outs]| |] eqn:Hrun; [|intros [=]..].
  intros _. exists st, cf. by apply (fin_run_node first later).
Qed.


Lemma fin_same : same_prefix fin_stream fin_stream.
Proof. exists fin_stream. split; reflexivity. Qed.

Definition fin_kept (o : CommittedSubDag) : bool :=
  bool_decide (fin_ref 1 0%nat ∈ commit_refs o) && (calculate_gc_round fin_ctx (sd_round o + 2) <=? 1).

