(* ===== verification/Core.v ===== *)
(** * Core (consensus/core/src/core.rs)

    The state machine of a node: accepts blocks and certified commits, runs the
    commit rule, proposes blocks, and sends what the other tasks wait for. *)
From S2P Require Import Prelude Committee StakeAggregator Block ThresholdClock Commit LeaderScoring Store DagState LeaderSchedule BaseCommitter BlockVerifier TransactionConsumer BlockManager Linearizer CommitObserver QuorumRounds Ancestor TransactionCertifier.

Definition MAX_COMMIT_VOTES_PER_BLOCK : nat := 100.

(** [struct CertifiedCommit], [struct CertifiedCommits] (commit.rs). *)
Record CertifiedCommit := mk_certified_commit {
  cc_commit : TrustedCommit;
  cc_blocks : list VerifiedBlock;
}.
Record CertifiedCommits := mk_certified_commits {
  ccs_commits : list CertifiedCommit;
  ccs_votes : list VerifiedBlock;
}.

(** The signing key of the authority: [ProtocolKeyPair::sign]. *)
Class BlockSigner := { keypair_sign : bytes → bytes }.

Section signing.
Context `{Crypto} `{BlockSigner}.

(** [compute_block_signature], [SignedBlock::new] (block.rs). *)
Definition compute_block_signature (b : Block) : ConsensusResult bytes :=
  digest ← compute_inner_block_digest b;
  message ← match bcs_intent_to_bytes digest with
            | inl e => RErr (SerializationFailure e)
            | inr m => ROk m
            end;
  ROk (keypair_sign message).
Definition SignedBlock_new (b : Block) : ConsensusResult SignedBlock :=
  signature ← compute_block_signature b;
  ROk (mk_signed b signature).
End signing.

(** The values of [Parameters] that the modelled code reads; durations are in
    nanoseconds. *)
Record Parameters := mk_parameters {
  pm_min_round_delay : N;
  pm_propagation_delay_stop_proposal_threshold : Round;
  pm_max_blocks_per_sync : N;
  pm_max_blocks_per_fetch : N;
  pm_sync_last_known_own_block_timeout : N;
  pm_commit_sync_batch_size : N;
  pm_commit_sync_batches_ahead : N;
  pm_commit_sync_parallel_fetches : N;
  pm_leader_timeout : N;
}.

(** What core sends to other tasks. *)
Inductive CoreOutput :=
| NewBlock (extended_block : ExtendedBlock)
| NewRound (round : Round)
| CertifiedBlocks (blocks : list CertifiedBlock)
| AckedTransactions (acks : list (N * BlockRef * list TransactionIndex))
| OwnBlocksStatus (statuses : list (N * BlockStatus)).

(** [struct Core]; its channels are the list of outputs, the handle of the
    finalizer, and whether anybody receives the broadcast blocks. *)
Record Core (S : Type) := mk_core {
  co_transaction_consumer : TransactionConsumer;
  co_transaction_certifier : CertifierState;
  co_block_manager : BlockManager;
  co_subscriber_exists : bool;
  co_propagation_delay : Round;
  co_committer : list BaseCommitterOptions;
  co_last_signaled_round : Round;
  co_last_included_ancestors : list (option BlockRef);
  co_last_decided_leader : Slot;
  co_leader_schedule : LeaderSchedule;
  co_commit_finalizer_handle : CommitFinalizerHandle;
  co_broadcast_closed : bool;
  co_outputs : list CoreOutput;
  co_dag_state : DagState S;
  co_last_known_proposed_round : option Round;
  co_ancestor_state_manager : AncestorStateManager;
  co_round_tracker : PeerRoundTracker;
}.
Arguments mk_core {_}.
Arguments co_transaction_consumer {_}.
Arguments co_transaction_certifier {_}.
Arguments co_block_manager {_}.
Arguments co_subscriber_exists {_}.
Arguments co_propagation_delay {_}.
Arguments co_committer {_}.
Arguments co_last_signaled_round {_}.
Arguments co_last_included_ancestors {_}.
Arguments co_last_decided_leader {_}.
Arguments co_leader_schedule {_}.
Arguments co_commit_finalizer_handle {_}.
Arguments co_broadcast_closed {_}.
Arguments co_outputs {_}.
Arguments co_dag_state {_}.
Arguments co_last_known_proposed_round {_}.
Arguments co_ancestor_state_manager {_}.
Arguments co_round_tracker {_}.

(** Assignments to the fields. *)
Definition set_co_transaction_consumer {S} (x : TransactionConsumer) (c : Core S) : Core S :=
  mk_core x (co_transaction_certifier c) (co_block_manager c) (co_subscriber_exists c) (co_propagation_delay
    c) (co_committer c) (co_last_signaled_round c) (co_last_included_ancestors c)
    (co_last_decided_leader c) (co_leader_schedule c) (co_commit_finalizer_handle c)
    (co_broadcast_closed c) (co_outputs c) (co_dag_state c) (co_last_known_proposed_round c)
    (co_ancestor_state_manager c) (co_round_tracker c).
Definition set_co_transaction_certifier {S} (x : CertifierState) (c : Core S) : Core S :=
  mk_core (co_transaction_consumer c) x (co_block_manager c) (co_subscriber_exists c) (co_propagation_delay c)
    (co_committer c) (co_last_signaled_round c) (co_last_included_ancestors c) (co_last_decided_leader
    c) (co_leader_schedule c) (co_commit_finalizer_handle c) (co_broadcast_closed c) (co_outputs c)
    (co_dag_state c) (co_last_known_proposed_round c) (co_ancestor_state_manager c) (co_round_tracker c).
Definition set_co_block_manager {S} (x : BlockManager) (c : Core S) : Core S :=
  mk_core (co_transaction_consumer c) (co_transaction_certifier c) x (co_subscriber_exists c)
    (co_propagation_delay c) (co_committer c) (co_last_signaled_round c) (co_last_included_ancestors c)
    (co_last_decided_leader c) (co_leader_schedule c) (co_commit_finalizer_handle c)
    (co_broadcast_closed c) (co_outputs c) (co_dag_state c) (co_last_known_proposed_round c)
    (co_ancestor_state_manager c) (co_round_tracker c).
Definition set_co_subscriber_exists {S} (x : bool) (c : Core S) : Core S :=
  mk_core (co_transaction_consumer c) (co_transaction_certifier c) (co_block_manager c) x
    (co_propagation_delay c) (co_committer c) (co_last_signaled_round c) (co_last_included_ancestors c)
    (co_last_decided_leader c) (co_leader_schedule c) (co_commit_finalizer_handle c)
    (co_broadcast_closed c) (co_outputs c) (co_dag_state c) (co_last_known_proposed_round c)
    (co_ancestor_state_manager c) (co_round_tracker c).
Definition set_co_propagation_delay {S} (x : Round) (c : Core S) : Core S :=
  mk_core (co_transaction_consumer c) (co_transaction_certifier c) (co_block_manager c) (co_subscriber_exists
    c) x (co_committer c) (co_last_signaled_round c) (co_last_included_ancestors c)
    (co_last_decided_leader c) (co_leader_schedule c) (co_commit_finalizer_handle c)
    (co_broadcast_closed c) (co_outputs c) (co_dag_state c) (co_last_known_proposed_round c)
    (co_ancestor_state_manager c) (co_round_tracker c).
Definition set_co_last_signaled_round {S} (x : Round) (c : Core S) : Core S :=
  mk_core (co_transaction_consumer c) (co_transaction_certifier c) (co_block_manager c) (co_subscriber_exists
    c) (co_propagation_delay c) (co_committer c) x (co_last_included_ancestors c)
    (co_last_decided_leader c) (co_leader_schedule c) (co_commit_finalizer_handle c)
    (co_broadcast_closed c) (co_outputs c) (co_dag_state c) (co_last_known_proposed_round c)
    (co_ancestor_state_manager c) (co_round_tracker c).
Definition set_co_last_included_ancestors {S} (x : list (option BlockRef)) (c : Core S) : Core S :=
  mk_core (co_transaction_consumer c) (co_transaction_certifier c) (co_block_manager c) (co_subscriber_exists
    c) (co_propagation_delay c) (co_committer c) (co_last_signaled_round c) x (co_last_decided_leader c)
    (co_leader_schedule c) (co_commit_finalizer_handle c) (co_broadcast_closed c) (co_outputs c)
    (co_dag_state c) (co_last_known_proposed_round c) (co_ancestor_state_manager c) (co_round_tracker c).
Definition set_co_last_decided_leader {S} (x : Slot) (c : Core S) : Core S :=
  mk_core (co_transaction_consumer c) (co_transaction_certifier c) (co_block_manager c) (co_subscriber_exists
    c) (co_propagation_delay c) (co_committer c) (co_last_signaled_round c) (co_last_included_ancestors
    c) x (co_leader_schedule c) (co_commit_finalizer_handle c) (co_broadcast_closed c) (co_outputs c)
    (co_dag_state c) (co_last_known_proposed_round c) (co_ancestor_state_manager c) (co_round_tracker c).
Definition set_co_leader_schedule {S} (x : LeaderSchedule) (c : Core S) : Core S :=
  mk_core (co_transaction_consumer c) (co_transaction_certifier c) (co_block_manager c) (co_subscriber_exists
    c) (co_propagation_delay c) (co_committer c) (co_last_signaled_round c) (co_last_included_ancestors
    c) (co_last_decided_leader c) x (co_commit_finalizer_handle c) (co_broadcast_closed c) (co_outputs
    c) (co_dag_state c) (co_last_known_proposed_round c) (co_ancestor_state_manager c) (co_round_tracker
    c).
Definition set_co_commit_finalizer_handle {S} (x : CommitFinalizerHandle) (c : Core S) : Core S :=
  mk_core (co_transaction_consumer c) (co_transaction_certifier c) (co_block_manager c) (co_subscriber_exists
    c) (co_propagation_delay c) (co_committer c) (co_last_signaled_round c) (co_last_included_ancestors
    c) (co_last_decided_leader c) (co_leader_schedule c) x (co_broadcast_closed c) (co_outputs c)
    (co_dag_state c) (co_last_known_proposed_round c) (co_ancestor_state_manager c) (co_round_tracker c).
Definition set_co_broadcast_closed {S} (x : bool) (c : Core S) : Core S :=
  mk_core (co_transaction_consumer c) (co_transaction_certifier c) (co_block_manager c) (co_subscriber_exists
    c) (co_propagation_delay c) (co_committer c) (co_last_signaled_round c) (co_last_included_ancestors
    c) (co_last_decided_leader c) (co_leader_schedule c) (co_commit_finalizer_handle c)
    x (co_outputs c) (co_dag_state c) (co_last_known_proposed_round c)
    (co_ancestor_state_manager c) (co_round_tracker c).
Definition set_co_outputs {S} (x : list CoreOutput) (c : Core S) : Core S :=
  mk_core (co_transaction_consumer c) (co_transaction_certifier c) (co_block_manager c) (co_subscriber_exists
    c) (co_propagation_delay c) (co_committer c) (co_last_signaled_round c) (co_last_included_ancestors
    c) (co_last_decided_leader c) (co_leader_schedule c) (co_commit_finalizer_handle c)
    (co_broadcast_closed c) x (co_dag_state c) (co_last_known_proposed_round c)
    (co_ancestor_state_manager c) (co_round_tracker c).
Definition set_co_dag_state {S} (x : DagState S) (c : Core S) : Core S :=
  mk_core (co_transaction_consumer c) (co_transaction_certifier c) (co_block_manager c) (co_subscriber_exists
    c) (co_propagation_delay c) (co_committer c) (co_last_signaled_round c) (co_last_included_ancestors
    c) (co_last_decided_leader c) (co_leader_schedule c) (co_commit_finalizer_handle c)
    (co_broadcast_closed c) (co_outputs c) x (co_last_known_proposed_round c) (co_ancestor_state_manager
    c) (co_round_tracker c).
Definition set_co_last_known_proposed_round {S} (x : option Round) (c : Core S) : Core S :=
  mk_core (co_transaction_consumer c) (co_transaction_certifier c) (co_block_manager c) (co_subscriber_exists
    c) (co_propagation_delay c) (co_committer c) (co_last_signaled_round c) (co_last_included_ancestors
    c) (co_last_decided_leader c) (co_leader_schedule c) (co_commit_finalizer_handle c)
    (co_broadcast_closed c) (co_outputs c) (co_dag_state c) x (co_ancestor_state_manager c)
    (co_round_tracker c).
Definition set_co_ancestor_state_manager {S} (x : AncestorStateManager) (c : Core S) : Core S :=
  mk_core (co_transaction_consumer c) (co_transaction_certifier c) (co_block_manager c) (co_subscriber_exists
    c) (co_propagation_delay c) (co_committer c) (co_last_signaled_round c) (co_last_included_ancestors
    c) (co_last_decided_leader c) (co_leader_schedule c) (co_commit_finalizer_handle c)
    (co_broadcast_closed c) (co_outputs c) (co_dag_state c) (co_last_known_proposed_round c) x
    (co_round_tracker c).
Definition set_co_round_tracker {S} (x : PeerRoundTracker) (c : Core S) : Core S :=
  mk_core (co_transaction_consumer c) (co_transaction_certifier c) (co_block_manager c) (co_subscriber_exists
    c) (co_propagation_delay c) (co_committer c) (co_last_signaled_round c) (co_last_included_ancestors
    c) (co_last_decided_leader c) (co_leader_schedule c) (co_commit_finalizer_handle c)
    (co_broadcast_closed c) (co_outputs c) (co_dag_state c) (co_last_known_proposed_round c)
    (co_ancestor_state_manager c) x.

Definition send_output {S} (o : CoreOutput) (c : Core S) : Core S := set_co_outputs (co_outputs c ++ [o]) c.

(** Readings of the clocks during a call: the instant recorded by the DAG
    state, and the wall clock in milliseconds when the delay of a proposal is
    checked and when its timestamp is taken. *)
Record CoreClock := mk_clock {
  clk_instant : N;
  clk_check_ms : BlockTimestampMs;
  clk_now_ms : BlockTimestampMs;
}.

Section core.
Context {S : Type} `{Store S} `{CommitCodec} `{BlockCodec} `{Crypto} `{BlockSigner} `{Rng}.
Context (ctx : Context) (params : Parameters) (fuel : nat) (clk : CoreClock).
Implicit Types (c : Core S).
Abbreviation cm := (ctx_committee ctx).

(** ** Signals *)

(** [CoreSignals::new_block]. *)
Definition signal_new_block c (extended_block : ExtendedBlock) : fallible (Core S) :=
  if bool_decide (1 < Committee_size cm)%nat then
    if bool_decide (vb_round (eb_block extended_block) = GENESIS_ROUND) then f_ok c
    else if co_broadcast_closed c then f_err Shutdown
    else f_ok (send_output (NewBlock extended_block) c)
  else f_ok c.

(** [try_signal_new_round]. *)
Definition try_signal_new_round c : Core S :=
  let new_clock_round := threshold_clock_round (co_dag_state c) in
  if bool_decide (new_clock_round ≤ co_last_signaled_round c) then c
  else set_co_last_signaled_round new_clock_round (send_output (NewRound new_clock_round) c).

(** [last_proposed_block], [last_proposed_round], [last_proposed_timestamp_ms]. *)
Definition last_proposed_block c : run VerifiedBlock := get_last_proposed_block ctx (co_dag_state c).
Definition last_proposed_round c : run Round := b ← last_proposed_block c; Done (vb_round b).
Definition last_proposed_timestamp_ms c : run BlockTimestampMs := b ← last_proposed_block c; Done (vb_timestamp_ms b).

(** [leaders], [first_leader]. *)
Definition leaders c (round : Round) : run (list Slot) :=
  authorities ← get_leaders ctx (co_leader_schedule c) (co_committer c) round;
  Done (mk_slot round <$> (authorities : list AuthorityIndex)).
Definition first_leader c (round : Round) : run AuthorityIndex :=
  slots ← leaders c round;
  slot ← expect (head slots);
  Done (s_authority slot).

(** [leaders_exist]: the loop stops at the first missing leader. *)
Fixpoint all_slots_cached c (slots : list Slot) : run bool :=
  match slots with
  | [] => Done true
  | leader :: slots =>
      found ← contains_cached_block_at_slot (co_dag_state c) leader;
      if negb found then Done false else all_slots_cached c slots
  end.
Definition leaders_exist c (round : Round) : run bool :=
  slots ← leaders c round; all_slots_cached c slots.

(** [should_propose]. *)
Definition should_propose c : bool :=
  let clock_round := threshold_clock_round (co_dag_state c) in
  if negb (co_subscriber_exists c) then false
  else if bool_decide (pm_propagation_delay_stop_proposal_threshold params < co_propagation_delay c) then false
  else
    match co_last_known_proposed_round c with
    | None => false
    | Some last_known_proposed_round => negb (bool_decide (clock_round ≤ last_known_proposed_round))
    end.

(** ** The ancestors of a proposal *)

(** The closure that filters the last cached blocks of the other authorities:
    blocks to include, blocks of excluded authorities with their score, and
    references that are left out. *)
Definition select_ancestor c (ancestor_state_map : list AncestorState)
    (st : list VerifiedBlock * list (N * VerifiedBlock) * gset BlockRef)
    (entry : VerifiedBlock * list BlockRef)
    : run (list VerifiedBlock * list (N * VerifiedBlock) * gset BlockRef) :=
  let '(included, pending_excluded, excluded) := st in
  let '(ancestor, equivocating_ancestors) := entry in
  if bool_decide (vb_author ancestor = ctx_own_index ctx) then Done st
  else
    last_block_ref ← vec_get (co_last_included_ancestors c) (vb_author ancestor);
    if match last_block_ref with
       | Some r => bool_decide (vb_round ancestor ≤ br_round r)
       | None => false
       end then Done st
    else
      let excluded := excluded ∪ list_to_set equivocating_ancestors in
      ancestor_state ← vec_get ancestor_state_map (vb_author ancestor);
      match ancestor_state with
      | Include => Done (included ++ [ancestor], pending_excluded, excluded)
      | Exclude score => Done (included, pending_excluded ++ [(score, ancestor)], excluded)
      end.

(** The loop that includes excluded blocks of the parent round, the best
    scores first, until the parents reach a quorum. *)
Definition include_parent (quorum_round : Round)
    (st : list VerifiedBlock * list (N * VerifiedBlock) * StakeAggregator QuorumThreshold)
    (entry : N * VerifiedBlock)
    : run (list VerifiedBlock * list (N * VerifiedBlock) * StakeAggregator QuorumThreshold) :=
  let '(ancestors_to_propose, excluded_ancestors, parent_round_quorum) := st in
  let '(score, ancestor) := entry in
  _ ← Committee_authority cm (vb_author ancestor);
  if negb (StakeAggregator_reached_threshold parent_round_quorum cm) && bool_decide (vb_round ancestor = quorum_round)
  then
    '(parent_round_quorum, _) ← StakeAggregator_add parent_round_quorum (vb_author ancestor) cm;
    Done (ancestors_to_propose ++ [ancestor], excluded_ancestors, parent_round_quorum)
  else Done (ancestors_to_propose, excluded_ancestors ++ [(score, ancestor)], parent_round_quorum).

(** The loop that includes what a quorum accepted of the excluded authorities. *)
Definition include_excluded (d : DagState S) (accepted_quorum_rounds : list QuorumRound) (quorum_round : Round)
    (st : list VerifiedBlock * gset BlockRef * list (option BlockRef)) (entry : N * VerifiedBlock)
    : run (list VerifiedBlock * gset BlockRef * list (option BlockRef)) :=
  let '(ancestors_to_propose, excluded, last_included_ancestors) := st in
  let '(_, ancestor) := entry in
  let excluded_author := vb_author ancestor in
  _ ← Committee_authority cm excluded_author;
  accepted ← vec_get accepted_quorum_rounds excluded_author;
  let accepted_low_quorum_round := N.min accepted.1 quorum_round in
  last_included ← vec_get last_included_ancestors excluded_author;
  let last_included_round := default GENESIS_ROUND (br_round <$> last_included) in
  if bool_decide (vb_round ancestor ≤ last_included_round) then Done st
  else if bool_decide (accepted_low_quorum_round ≤ last_included_round)
  then Done (ancestors_to_propose, {[vb_reference ancestor]} ∪ excluded, last_included_ancestors)
  else
    '(chosen, excluded) ←
      (if bool_decide (vb_round ancestor ≤ accepted_low_quorum_round) then Done (Some ancestor, excluded)
       else
         earlier_ancestor ← get_last_cached_block_in_range d excluded_author
                              (u32_add last_included_round 1) (u32_add accepted_low_quorum_round 1);
         Done (earlier_ancestor, {[vb_reference ancestor]} ∪ excluded));
    match chosen with
    | None => Done (ancestors_to_propose, excluded, last_included_ancestors)
    | Some ancestor =>
        last_included_ancestors ← vec_set last_included_ancestors excluded_author (Some (vb_reference ancestor));
        Done (ancestors_to_propose ++ [ancestor], excluded, last_included_ancestors)
    end.

(** [b.0.cmp(&a.0)]. *)
Definition by_score_desc (a b : N * VerifiedBlock) : bool := bool_decide (b.1 ≤ a.1).

(** [smart_ancestors_to_propose]. *)
Definition smart_ancestors_to_propose c (clock_round : Round) (smart_select : bool)
    : run (Core S * list VerifiedBlock * gset BlockRef) :=
  let d := co_dag_state c in
  all_ancestors ← get_last_cached_block_per_authority ctx d clock_round;
  assert! bool_decide (length all_ancestors = Committee_size cm);
  accepted_quorum_rounds ← compute_accepted_quorum_rounds ctx (co_round_tracker c);
  manager ← update_all_ancestors_state ctx (co_ancestor_state_manager c) d accepted_quorum_rounds;
  let c := set_co_ancestor_state_manager manager c in
  let quorum_round := saturating_sub clock_round 1 in
  last_proposed ← last_proposed_block c;
  '(included_ancestors, pending_excluded, excluded) ←
    for_each (select_ancestor c (get_ancestor_states manager)) ([last_proposed], [], ∅) all_ancestors;
  parent_round_quorum ←
    for_each (λ agg ancestor, '(agg, _) ← StakeAggregator_add agg (vb_author ancestor) cm; Done agg)
      (StakeAggregator_new : StakeAggregator QuorumThreshold)
      (filter (λ a, vb_round a = quorum_round) included_ancestors);
  if smart_select && negb (StakeAggregator_reached_threshold parent_round_quorum cm) then Done (c, [], ∅)
  else
    '(ancestors_to_propose, excluded_ancestors, parent_round_quorum) ←
      for_each (include_parent quorum_round) (included_ancestors, [], parent_round_quorum)
        (sort_by by_score_desc pending_excluded);
    '(ancestors_to_propose, excluded, last_included_ancestors) ←
      for_each (include_excluded d accepted_quorum_rounds quorum_round)
        (ancestors_to_propose, excluded, co_last_included_ancestors c) excluded_ancestors;
    assert! StakeAggregator_reached_threshold parent_round_quorum cm;
    Done (set_co_last_included_ancestors last_included_ancestors c, ancestors_to_propose, excluded).

(** ** Proposing *)

(** The committee lookups of the metrics over the ancestors. *)
Definition lookup_authors (blocks : list VerifiedBlock) : run unit :=
  for_each (λ _ b, _ ← Committee_authority cm (vb_author b); Done tt) tt blocks.

(** The transaction votes of a proposal: the ancestors are hard linked, and
    the newly linked blocks are voted on. *)
Definition own_transaction_votes c (ancestors : list VerifiedBlock)
    : run (Core S * list BlockTransactionVotes) :=
  '(d, hard_linked_ancestors) ←
    for_each (λ '(d, linked) ancestor,
        '(d, newly) ← link_causal_history ctx d (vb_reference ancestor);
        Done (d, linked ++ newly)) (co_dag_state c, []) ancestors;
  votes ← get_own_votes (co_transaction_certifier c) hard_linked_ancestors;
  Done (set_co_dag_state d c, votes).

(** The block of a proposal. *)
Definition new_proposal (clock_round : Round) (ancestors : list VerifiedBlock) (transactions : list Transaction)
    (commit_votes : list CommitRef) (transaction_votes : list BlockTransactionVotes) : Block :=
  if pc_mysticeti_fastpath (ctx_protocol_config ctx)
  then V2 (mk_block_v2 (c_epoch cm) clock_round (ctx_own_index ctx) (clk_now_ms clk)
             (vb_reference <$> ancestors) transactions transaction_votes commit_votes [])
  else V1 (mk_block_v1 (c_epoch cm) clock_round (ctx_own_index ctx) (clk_now_ms clk)
             (vb_reference <$> ancestors) transactions commit_votes []).

(** The own block goes to the certifier, and its ancestors are hard linked. *)
Definition certify_and_link c (verified_block : VerifiedBlock) : run (Core S) :=
  if pc_mysticeti_fastpath (ctx_protocol_config ctx) then
    '(st, certified) ← TransactionCertifier_add_voted_blocks ctx (co_transaction_certifier c) [(verified_block, [])];
    let c := set_co_transaction_certifier st c in
    let c := set_co_outputs (co_outputs c ++ (CertifiedBlocks <$> certified)) c in
    '(d, _) ← link_causal_history ctx (co_dag_state c) (vb_reference verified_block);
    Done (set_co_dag_state d c)
  else Done c.

(** Accepting the own block: block manager, certifier, hard links, and flush. *)
Definition accept_proposal c (verified_block : VerifiedBlock) : run (Core S) :=
  '(bm, d, accepted_blocks, missing) ←
    try_accept_blocks ctx (co_block_manager c) (co_dag_state c) [verified_block] (clk_instant clk);
  assert! bool_decide (length accepted_blocks = 1%nat);
  assert! bool_decide (missing = ∅);
  c ← certify_and_link (set_co_dag_state d (set_co_block_manager bm c)) verified_block;
  d ← flush ctx (co_dag_state c);
  Done (set_co_dag_state d c).

(** [try_new_block] up to the creation of the block: the block, the excluded
    ancestors, and the acknowledgements of its transactions. *)
Definition prepare_block c (force : bool) (clock_round : Round)
    : run (Core S * option (VerifiedBlock * list BlockRef * list (N * list TransactionIndex))) :=
  let quorum_round := saturating_sub clock_round 1 in
  '(c, ancestors, excluded_and_equivocating_ancestors) ← smart_ancestors_to_propose c clock_round (negb force);
  if bool_decide (length ancestors = O) then assert! negb force; Done (c, None)
  else
    let excluded_ancestors := take (Committee_size cm * 2) (set_list excluded_and_equivocating_ancestors) in
    last_included_ancestors ←
      for_each (λ l ancestor, vec_set l (vb_author ancestor) (Some (vb_reference ancestor)))
        (co_last_included_ancestors c) ancestors;
    let c := set_co_last_included_ancestors last_included_ancestors c in
    leader ← first_leader c quorum_round;
    _ ← Committee_authority cm leader;
    _ ← lookup_authors ancestors;
    let '(consumer, transactions, acks, _) := TransactionConsumer_next (co_transaction_consumer c) in
    let c := set_co_transaction_consumer consumer c in
    let '(d, commit_votes) := take_commit_votes (co_dag_state c) MAX_COMMIT_VOTES_PER_BLOCK in
    let c := set_co_dag_state d c in
    '(c, transaction_votes) ←
      (if pc_mysticeti_fastpath (ctx_protocol_config ctx) then own_transaction_votes c ancestors else Done (c, []));
    let block := new_proposal clock_round ancestors transactions commit_votes transaction_votes in
    signed_block ← unwrap_result (Done (SignedBlock_new block));
    serialized ← expect (bcs_to_bytes signed_block);
    Done (c, Some (VerifiedBlock_new_verified signed_block serialized, excluded_ancestors, acks)).

(** [try_new_block] from the signed block on. *)
Definition finish_block c (verified_block : VerifiedBlock) (excluded_ancestors : list BlockRef)
    (acks : list (N * list TransactionIndex)) : run (Core S * ExtendedBlock) :=
  _ ← last_proposed_block c;
  c ← accept_proposal c verified_block;
  let '(consumer, acked) := ack_transactions (co_transaction_consumer c) acks (vb_reference verified_block) in
  let c := send_output (AckedTransactions acked) (set_co_transaction_consumer consumer c) in
  let extended_block := mk_extended verified_block excluded_ancestors in
  tracker ← update_from_accepted_block (co_round_tracker c) extended_block;
  Done (set_co_round_tracker tracker c, extended_block).

(** [try_new_block] once it is decided to propose. *)
Definition create_block c (force : bool) (clock_round : Round) : run (Core S * option ExtendedBlock) :=
  '(c, prepared) ← prepare_block c force clock_round;
  match prepared with
  | None => Done (c, None)
  | Some (verified_block, excluded_ancestors, acks) =>
      '(c, extended_block) ← finish_block c verified_block excluded_ancestors acks;
      Done (c, Some extended_block)
  end.

(** [try_new_block]. *)
Definition try_new_block c (force : bool) : run (Core S * option ExtendedBlock) :=
  let clock_round := threshold_clock_round (co_dag_state c) in
  last_proposed ← last_proposed_block c;
  if bool_decide (clock_round ≤ vb_round last_proposed) then Done (c, None)
  else if force then create_block c force clock_round
  else
    exist ← leaders_exist c (saturating_sub clock_round 1);
    if negb exist then Done (c, None)
    else
      timestamp_ms ← last_proposed_timestamp_ms c;
      if bool_decide (saturating_sub (clk_check_ms clk) timestamp_ms * 1000000 < pm_min_round_delay params)
      then Done (c, None)
      else create_block c force clock_round.

(** ** Committing *)

(** The closure of [try_select_certified_leaders]. *)
Definition certified_leader (commit : CertifiedCommit) : run (DecidedLeader * CertifiedCommit) :=
  leader ← expect (last (cc_blocks commit));
  assert! bool_decide (vb_reference leader = tc_leader (cc_commit commit));
  _ ← Committee_authority cm (vb_author leader);
  Done (DCommit leader false, commit).

(** [try_select_certified_leaders]: the commits left, and those selected. *)
Definition try_select_certified_leaders (certified_commits : list CertifiedCommit) (limit : N)
    : run (list CertifiedCommit * list (DecidedLeader * CertifiedCommit)) :=
  assert! bool_decide (0 < limit);
  if bool_decide (length certified_commits = O) then Done (certified_commits, [])
  else
    let '(to_commit, certified_commits) :=
      if bool_decide (limit ≤ N.of_nat (length certified_commits))
      then (take (N.to_nat limit) certified_commits, drop (N.to_nat limit) certified_commits)
      else (certified_commits, []) in
    sequenced_leaders ← map_run certified_leader to_commit;
    Done (certified_commits, sequenced_leaders).

(** The leader schedule at the start of a turn of the loop of [try_commit]. *)
Definition refresh_schedule c : run (Core S * N) :=
  commits_until_update ← commits_until_leader_schedule_update (co_leader_schedule c) (co_dag_state c);
  '(c, commits_until_update) ←
    (if bool_decide (commits_until_update = 0) then
       '(schedule, d) ← update_leader_schedule_v2 ctx (co_leader_schedule c) (co_dag_state c);
       let c := set_co_dag_state d (set_co_leader_schedule schedule c) in
       let c := set_co_ancestor_state_manager
                  (set_propagation_scores (co_ancestor_state_manager c)
                     (lt_reputation_scores (ls_leader_swap_table schedule))) c in
       commits_until_update ← commits_until_leader_schedule_update (co_leader_schedule c) (co_dag_state c);
       Done (c, commits_until_update)
     else Done (c, commits_until_update));
  assert! bool_decide (0 < commits_until_update);
  Done (c, commits_until_update).

(** The leaders decided next, from the certified commits or by the commit rule. *)
Definition next_decided c (certified_leaders : list DecidedLeader) (commits_until_update : N)
    : run (list DecidedLeader * bool) :=
  if bool_decide (length certified_leaders = O) then
    decided_leaders ← try_decide ctx fuel (co_leader_schedule c) (co_committer c) (co_dag_state c) (co_last_decided_leader c);
    Done (if bool_decide (commits_until_update ≤ N.of_nat (length decided_leaders))
          then take (N.to_nat commits_until_update) decided_leaders else decided_leaders, true)
  else Done (certified_leaders, false).

(** The loop of [try_commit]; every turn but the last commits a leader. *)
Fixpoint commit_loop (turns : nat) c (certified_commits : list CertifiedCommit) (committed_sub_dags : list CommittedSubDag)
    : fallible (Core S * list CommittedSubDag) :=
  match turns with
  | O => NoFuel
  | Datatypes.S turns =>
      '(c, commits_until_update) ← f_run (refresh_schedule c);
      '(certified_commits, selected) ← f_run (try_select_certified_leaders certified_commits commits_until_update);
      let blocks := (selected.*2 : list CertifiedCommit) ≫= cc_blocks in
      '(bm, d, _) ← f_run (try_accept_committed_blocks ctx (co_block_manager c) (co_dag_state c) blocks (clk_instant clk));
      let c := set_co_dag_state d (set_co_block_manager bm c) in
      '(decided_leaders, local) ← f_run (next_decided c (selected.*1) commits_until_update);
      match last decided_leaders with
      | None => f_ok (c, committed_sub_dags)
      | Some last_decided =>
          let c := set_co_last_decided_leader (DecidedLeader_slot last_decided) c in
          let sequenced_leaders := omap DecidedLeader_into_committed_block decided_leaders in
          if bool_decide (length sequenced_leaders = O) then f_ok (c, committed_sub_dags)
          else
            '(h, d, subdags) ← CommitObserver_handle_commit ctx fuel (co_leader_schedule c) (co_commit_finalizer_handle c)
                                 (co_dag_state c) sequenced_leaders local (clk_instant clk);
            let c := set_co_dag_state d (set_co_commit_finalizer_handle h c) in
            '(bm, d) ← f_run (try_unsuspend_blocks_for_latest_gc_round ctx (co_block_manager c) (co_dag_state c) (clk_instant clk));
            let c := set_co_dag_state d (set_co_block_manager bm c) in
            commit_loop turns c certified_commits (committed_sub_dags ++ subdags)
      end
  end.

(** The sanity check over the certified commits. *)
Definition check_certified (certified_commits_map : gmap CommitIndex CommitRef) (sub_dag : CommittedSubDag)
    : run (gmap CommitIndex CommitRef) :=
  let index := cr_index (sd_commit_ref sub_dag) in
  match certified_commits_map !! index with
  | Some commit_ref =>
      assert! bool_decide (commit_ref = sd_commit_ref sub_dag);
      Done (delete index certified_commits_map)
  | None => Done certified_commits_map
  end.

(** [try_commit]. *)
Definition try_commit c (certified_commits : list CertifiedCommit) : fallible (Core S * list CommittedSubDag) :=
  let certified_commits_map : gmap CommitIndex CommitRef :=
    list_to_map (reverse ((λ x, (tc_index (cc_commit x), TrustedCommit_reference (cc_commit x))) <$> certified_commits)) in
  '(c, committed_sub_dags) ← commit_loop fuel c certified_commits [];
  _ ← f_run (for_each check_certified certified_commits_map (committed_sub_dags : list CommittedSubDag));
  let committed_block_refs :=
    vb_reference <$> filter (λ b, vb_author b = ctx_own_index ctx) ((committed_sub_dags : list CommittedSubDag) ≫= sd_blocks) in
  let '(consumer, statuses) :=
    notify_own_blocks_status (co_transaction_consumer c) committed_block_refs (gc_round ctx (co_dag_state c)) in
  f_ok (send_output (OwnBlocksStatus statuses) (set_co_transaction_consumer consumer c), committed_sub_dags).

(** [try_propose]. *)
Definition try_propose c (force : bool) : fallible (Core S * option VerifiedBlock) :=
  if negb (should_propose c) then f_ok (c, None)
  else
    '(c, created) ← f_run (try_new_block c force);
    match created with
    | Some extended_block =>
        c ← signal_new_block c extended_block;
        '(c, _) ← try_commit c [];
        f_ok (c, Some (eb_block extended_block))
    | None => f_ok (c, None)
    end.

(** ** Operations *)

(** [add_blocks]. *)
Definition add_blocks c (blocks : list VerifiedBlock) : fallible (Core S * gset BlockRef) :=
  '(bm, d, accepted_blocks, missing_block_refs) ←
    f_run (try_accept_blocks ctx (co_block_manager c) (co_dag_state c) blocks (clk_instant clk));
  let c := set_co_dag_state d (set_co_block_manager bm c) in
  if bool_decide (length (accepted_blocks : list VerifiedBlock) = O) then f_ok (c, missing_block_refs)
  else
    '(c, _) ← try_commit c [];
    '(c, _) ← try_propose c false;
    f_ok (try_signal_new_round c, missing_block_refs).

(** [filter_new_commits]. *)
Definition filter_new_commits c (commits : list CertifiedCommit) : ConsensusResult (list CertifiedCommit) :=
  let last_commit_index := last_commit_index (co_dag_state c) in
  let commits := filter (λ x, last_commit_index < tc_index (cc_commit x)) commits in
  match commits with
  | commit :: _ =>
      if bool_decide (tc_index (cc_commit commit) ≠ u32_add last_commit_index 1)
      then RErr (UnexpectedCertifiedCommitIndex (u32_add last_commit_index 1) (tc_index (cc_commit commit)))
      else ROk commits
  | [] => ROk commits
  end.

(** [add_certified_commits]. *)
Definition add_certified_commits c (certified_commits : CertifiedCommits) : fallible (Core S * gset BlockRef) :=
  commits ← f_run (unwrap_result (Done (filter_new_commits c (ccs_commits certified_commits))));
  '(bm, d, _, missing_block_refs) ←
    f_run (try_accept_blocks ctx (co_block_manager c) (co_dag_state c) (ccs_votes certified_commits) (clk_instant clk));
  let c := set_co_dag_state d (set_co_block_manager bm c) in
  '(c, _) ← try_commit c commits;
  '(c, _) ← try_propose c false;
  f_ok (try_signal_new_round c, missing_block_refs).

(** [check_block_refs]. *)
Definition check_block_refs c (block_refs : list BlockRef) : run (Core S * gset BlockRef) :=
  '(bm, missing_block_refs) ← try_find_blocks ctx (co_block_manager c) (co_dag_state c) block_refs;
  Done (set_co_block_manager bm c, missing_block_refs).

(** [new_block]. *)
Definition new_block c (round : Round) (force : bool) : fallible (Core S * option VerifiedBlock) :=
  last_round ← f_run (last_proposed_round c);
  if bool_decide (last_round < round) then
    '(c, result) ← try_propose c force;
    f_ok (try_signal_new_round c, result)
  else f_ok (c, None).

(** [get_missing_blocks], [set_last_known_proposed_round]; [set_subscriber_exists]
    and [set_propagation_delay] are assignments. *)
Definition get_missing_blocks c : gset BlockRef := missing_blocks (co_block_manager c).
Definition set_subscriber_exists c (exists_ : bool) : Core S := set_co_subscriber_exists exists_ c.
Definition set_propagation_delay c (delay : Round) : Core S := set_co_propagation_delay delay c.
Definition set_last_known_proposed_round c (round : Round) : run (Core S) :=
  assert! bool_decide (co_last_known_proposed_round c = None);
  Done (set_co_last_known_proposed_round (Some round) c).

(** ** Construction *)

(** [recover]. *)
Definition Core_recover c : run (Core S) :=
  '(c, _) ← unwrap_result (try_commit c []);
  '(c, proposed) ← unwrap_result (try_propose c true);
  c ← match proposed with
      | Some _ => Done c
      | None =>
          last_proposed ← last_proposed_block c;
          assert! (negb (should_propose c) || bool_decide (GENESIS_ROUND < vb_round last_proposed));
          unwrap_result (signal_new_block c (mk_extended last_proposed []))
      end;
  Done (try_signal_new_round c).

(** [Core::new]. *)
Definition Core_new (leader_schedule : LeaderSchedule) (transaction_consumer : TransactionConsumer)
    (transaction_certifier : CertifierState) (block_manager : BlockManager) (subscriber_exists : bool)
    (commit_finalizer_handle : CommitFinalizerHandle) (d : DagState S) (sync_last_known_own_block : bool)
    (round_tracker : PeerRoundTracker) : run (Core S) :=
  last_decided_leader ← last_commit_leader d;
  let number_of_leaders := default 1 (pc_mysticeti_num_leaders_per_round (ctx_protocol_config ctx)) in
  let committer :=
    UniversalCommitterBuilder_build (with_pipeline (with_number_of_leaders UniversalCommitterBuilder_new number_of_leaders) true) in
  last_proposed ← get_last_proposed_block ctx d;
  last_included_ancestors ←
    for_each (λ l ancestor, vec_set l (br_author ancestor) (Some ancestor))
      (replicate (Committee_size cm) None) (vb_ancestors last_proposed);
  let min_propose_round := if sync_last_known_own_block then None else Some 0 in
  let manager := set_propagation_scores (AncestorStateManager_new ctx)
                   (lt_reputation_scores (ls_leader_swap_table leader_schedule)) in
  Core_recover (mk_core transaction_consumer transaction_certifier block_manager subscriber_exists 0 committer
                  (vb_round last_proposed) last_included_ancestors last_decided_leader leader_schedule
                  commit_finalizer_handle false [] d min_propose_round manager round_tracker).
End core.
