(* ===== verification/CoreThread.v ===== *)
(** * The core thread (consensus/core/src/core_thread.rs)

    One task owns the core and handles commands from a channel and changes of
    three watched values; a dispatcher, shared by the other tasks, sends the
    commands and keeps the highest round received from every authority.

    A one-shot channel is named by a number; [select!] takes any branch that
    is ready. *)
From S2P Require Import Prelude Committee StakeAggregator Block ThresholdClock Commit LeaderScoring Store DagState LeaderSchedule BaseCommitter BlockVerifier TransactionConsumer BlockManager Linearizer CommitObserver QuorumRounds Ancestor TransactionCertifier Core.

(** [enum CoreThreadCommand]. *)
Inductive CoreThreadCommand :=
| AddBlocks (blocks : list VerifiedBlock) (sender : N)
| CheckBlockRefs (block_refs : list BlockRef) (sender : N)
| AddCertifiedCommits (commits : CertifiedCommits) (sender : N)
| NewBlock (round : Round) (sender : N) (force : bool)
| GetMissing (sender : N).

(** The answer to a command. *)
Inductive CoreReply :=
| MissingRefs (missing_block_refs : gset BlockRef)
| BlockTried.

(** A [watch] channel as its receiver sees it. *)
Record watch (A : Type) := mk_watch {
  w_value : A;
  w_changed : bool;
}.
Arguments mk_watch {_}.
Arguments w_value {_}.
Arguments w_changed {_}.

(** [watch::Sender::send] to a receiver; the receiver after [changed] returned. *)
Definition watch_send {A} (x : A) (w : watch A) : watch A := mk_watch x true.
Definition watch_seen {A} (w : watch A) : watch A := mk_watch (w_value w) false.

(** [struct CoreThread] and the parts its dispatcher and its handle share with
    it: whether the handle still holds its sender, whether the task runs, the
    answers sent, and the highest rounds received. *)
Record CoreThread (S : Type) := mk_thread {
  ct_core : Core S;
  ct_receiver : list CoreThreadCommand;
  ct_rx_subscriber_exists : watch bool;
  ct_rx_propagation_delay : watch Round;
  ct_rx_last_known_proposed_round : watch Round;
  ct_handle : bool;
  ct_running : bool;
  ct_replies : list (N * CoreReply);
  ct_highest_received_rounds : list Round;
}.
Arguments mk_thread {_}.
Arguments ct_core {_}.
Arguments ct_receiver {_}.
Arguments ct_rx_subscriber_exists {_}.
Arguments ct_rx_propagation_delay {_}.
Arguments ct_rx_last_known_proposed_round {_}.
Arguments ct_handle {_}.
Arguments ct_running {_}.
Arguments ct_replies {_}.
Arguments ct_highest_received_rounds {_}.

Definition set_ct_core {S} (x : Core S) (t : CoreThread S) : CoreThread S :=
  mk_thread x (ct_receiver t) (ct_rx_subscriber_exists t) (ct_rx_propagation_delay t)
    (ct_rx_last_known_proposed_round t) (ct_handle t) (ct_running t) (ct_replies t) (ct_highest_received_rounds t).
Definition set_ct_receiver {S} (x : list CoreThreadCommand) (t : CoreThread S) : CoreThread S :=
  mk_thread (ct_core t) x (ct_rx_subscriber_exists t) (ct_rx_propagation_delay t)
    (ct_rx_last_known_proposed_round t) (ct_handle t) (ct_running t) (ct_replies t) (ct_highest_received_rounds t).
Definition set_ct_rx_subscriber_exists {S} (x : watch bool) (t : CoreThread S) : CoreThread S :=
  mk_thread (ct_core t) (ct_receiver t) x (ct_rx_propagation_delay t)
    (ct_rx_last_known_proposed_round t) (ct_handle t) (ct_running t) (ct_replies t) (ct_highest_received_rounds t).
Definition set_ct_rx_propagation_delay {S} (x : watch Round) (t : CoreThread S) : CoreThread S :=
  mk_thread (ct_core t) (ct_receiver t) (ct_rx_subscriber_exists t) x
    (ct_rx_last_known_proposed_round t) (ct_handle t) (ct_running t) (ct_replies t) (ct_highest_received_rounds t).
Definition set_ct_rx_last_known_proposed_round {S} (x : watch Round) (t : CoreThread S) : CoreThread S :=
  mk_thread (ct_core t) (ct_receiver t) (ct_rx_subscriber_exists t) (ct_rx_propagation_delay t)
    x (ct_handle t) (ct_running t) (ct_replies t) (ct_highest_received_rounds t).
Definition set_ct_handle {S} (x : bool) (t : CoreThread S) : CoreThread S :=
  mk_thread (ct_core t) (ct_receiver t) (ct_rx_subscriber_exists t) (ct_rx_propagation_delay t)
    (ct_rx_last_known_proposed_round t) x (ct_running t) (ct_replies t) (ct_highest_received_rounds t).
Definition set_ct_running {S} (x : bool) (t : CoreThread S) : CoreThread S :=
  mk_thread (ct_core t) (ct_receiver t) (ct_rx_subscriber_exists t) (ct_rx_propagation_delay t)
    (ct_rx_last_known_proposed_round t) (ct_handle t) x (ct_replies t) (ct_highest_received_rounds t).
Definition set_ct_replies {S} (x : list (N * CoreReply)) (t : CoreThread S) : CoreThread S :=
  mk_thread (ct_core t) (ct_receiver t) (ct_rx_subscriber_exists t) (ct_rx_propagation_delay t)
    (ct_rx_last_known_proposed_round t) (ct_handle t) (ct_running t) x (ct_highest_received_rounds t).
Definition set_ct_highest_received_rounds {S} (x : list Round) (t : CoreThread S) : CoreThread S :=
  mk_thread (ct_core t) (ct_receiver t) (ct_rx_subscriber_exists t) (ct_rx_propagation_delay t)
    (ct_rx_last_known_proposed_round t) (ct_handle t) (ct_running t) (ct_replies t) x.

(** A branch of the [select!]. *)
Inductive SelectBranch := BCommand | BLastKnownProposedRound | BSubscriberExists | BPropagationDelay.

Section thread.
Context {S : Type} `{Store S} `{CommitCodec} `{BlockCodec} `{Crypto} `{BlockSigner} `{Rng}.
Context (ctx : Context) (params : Parameters) (fuel : nat).
Implicit Types (c : Core S) (t : CoreThread S).
Abbreviation cm := (ctx_committee ctx).

(** ** The loop of [CoreThread::run] *)

Section turn.
Context (clk : CoreClock).

(** The handlers of the commands: the core afterwards and the answer. *)
Definition handle_command c (command : CoreThreadCommand) : fallible (Core S * (N * CoreReply)) :=
  match command with
  | AddBlocks blocks sender =>
      '(c, missing_block_refs) ← add_blocks ctx params fuel clk c blocks;
      f_ok (c, (sender, MissingRefs missing_block_refs))
  | CheckBlockRefs block_refs sender =>
      '(c, missing_block_refs) ← f_run (check_block_refs ctx c block_refs);
      f_ok (c, (sender, MissingRefs missing_block_refs))
  | AddCertifiedCommits commits sender =>
      '(c, missing_block_refs) ← add_certified_commits ctx params fuel clk c commits;
      f_ok (c, (sender, MissingRefs missing_block_refs))
  | NewBlock round sender force =>
      '(c, _) ← new_block ctx params fuel clk c round force;
      f_ok (c, (sender, BlockTried))
  | GetMissing sender => f_ok (c, (sender, MissingRefs (get_missing_blocks c)))
  end.

(** The branch of [rx_last_known_proposed_round]. *)
Definition handle_last_known_proposed_round c (round : Round) : fallible (Core S * option VerifiedBlock) :=
  c ← f_run (set_last_known_proposed_round c round);
  new_block ctx params fuel clk c (u32_add round 1) true.

(** The end of the branches of [rx_subscriber_exists] and
    [rx_propagation_delay]: [c] before and [c'] after the assignment. *)
Definition propose_if_enabled c c' : fallible (Core S * option VerifiedBlock) :=
  if negb (should_propose params c) && should_propose params c'
  then new_block ctx params fuel clk c' u32_max true
  else f_ok (c', None).
Definition handle_subscriber_exists c (exists_ : bool) : fallible (Core S * option VerifiedBlock) :=
  propose_if_enabled c (set_subscriber_exists c exists_).
Definition handle_propagation_delay c (propagation_delay : Round) : fallible (Core S * option VerifiedBlock) :=
  propose_if_enabled c (set_propagation_delay c propagation_delay).

(** An error ends the task; [start] panics on any but a shutdown. What the
    command did before it failed is not kept: the node is going down. *)
Definition finish_turn {A} t (result : fallible (Core S * A)) (answer : A → list (N * CoreReply)) : run (CoreThread S) :=
  r ← result;
  match r with
  | ROk (c, x) => Done (set_ct_replies (ct_replies t ++ answer x) (set_ct_core c t))
  | RErr Shutdown => Done (set_ct_running false t)
  | RErr _ => Panic
  end.

(** Whether [select!] may take the branch: the receiver returns [None] when it
    is empty and every sender is dropped. *)
Definition branch_ready t (branch : SelectBranch) : bool :=
  ct_running t &&
  match branch with
  | BCommand => negb (ct_handle t) || negb (bool_decide (length (ct_receiver t) = O))
  | BLastKnownProposedRound => w_changed (ct_rx_last_known_proposed_round t)
  | BSubscriberExists => w_changed (ct_rx_subscriber_exists t)
  | BPropagationDelay => w_changed (ct_rx_propagation_delay t)
  end.

(** A turn of the loop. *)
Definition run_turn t (branch : SelectBranch) : run (CoreThread S) :=
  match branch with
  | BCommand =>
      match ct_receiver t with
      | [] => Done (set_ct_running false t)
      | command :: receiver =>
          finish_turn (set_ct_receiver receiver t) (handle_command (ct_core t) command) (λ reply, [reply])
      end
  | BLastKnownProposedRound =>
      let w := ct_rx_last_known_proposed_round t in
      finish_turn (set_ct_rx_last_known_proposed_round (watch_seen w) t)
        (handle_last_known_proposed_round (ct_core t) (w_value w)) (λ _, [])
  | BSubscriberExists =>
      let w := ct_rx_subscriber_exists t in
      finish_turn (set_ct_rx_subscriber_exists (watch_seen w) t)
        (handle_subscriber_exists (ct_core t) (w_value w)) (λ _, [])
  | BPropagationDelay =>
      let w := ct_rx_propagation_delay t in
      finish_turn (set_ct_rx_propagation_delay (watch_seen w) t)
        (handle_propagation_delay (ct_core t) (w_value w)) (λ _, [])
  end.
End turn.

(** ** The dispatcher *)

(** [ChannelCoreThreadDispatcher::start]. *)
Definition CoreThread_start (d : DagState S) c : run (CoreThread S) :=
  highest_received_rounds ← map_run (λ '(index, _),
    b ← get_last_block_for_authority d index; Done (vb_round b)) (Committee_authorities cm);
  Done (mk_thread c [] (mk_watch false false) (mk_watch 0 false) (mk_watch 0 false) true true []
          highest_received_rounds).

(** [send]: the sender cannot be upgraded once the handle dropped its own, and
    a command to a task that ended is lost. *)
Definition send_command t (command : CoreThreadCommand) : CoreThread S :=
  if ct_handle t && ct_running t then set_ct_receiver (ct_receiver t ++ [command]) t else t.

(** [fetch_max] for every block; an author out of range panics. *)
Definition raise_highest (rounds : list Round) (blocks : list VerifiedBlock) : run (list Round) :=
  for_each (λ rounds b,
    round ← expect (rounds !! vb_author b);
    Done (<[vb_author b := N.max round (vb_round b)]> rounds)) rounds blocks.

(** The methods of [CoreThreadDispatcher] up to the wait for the answer; a
    watched value cannot be sent once the task has ended. *)
Definition dispatch_add_blocks t (blocks : list VerifiedBlock) (sender : N) : run (CoreThread S) :=
  rounds ← raise_highest (ct_highest_received_rounds t) blocks;
  Done (send_command (set_ct_highest_received_rounds rounds t) (AddBlocks blocks sender)).
Definition dispatch_check_block_refs t (block_refs : list BlockRef) (sender : N) : CoreThread S :=
  send_command t (CheckBlockRefs block_refs sender).
Definition dispatch_add_certified_commits t (commits : CertifiedCommits) (sender : N) : run (CoreThread S) :=
  rounds ← raise_highest (ct_highest_received_rounds t) (ccs_commits commits ≫= cc_blocks);
  Done (send_command (set_ct_highest_received_rounds rounds t) (AddCertifiedCommits commits sender)).
Definition dispatch_new_block t (round : Round) (force : bool) (sender : N) : CoreThread S :=
  send_command t (NewBlock round sender force).
Definition dispatch_get_missing_blocks t (sender : N) : CoreThread S := send_command t (GetMissing sender).
Definition dispatch_subscriber_exists t (exists_ : bool) : CoreThread S :=
  if ct_running t then set_ct_rx_subscriber_exists (watch_send exists_ (ct_rx_subscriber_exists t)) t else t.
Definition dispatch_propagation_delay t (delay : Round) : CoreThread S :=
  if ct_running t then set_ct_rx_propagation_delay (watch_send delay (ct_rx_propagation_delay t)) t else t.
Definition dispatch_last_known_proposed_round t (round : Round) : CoreThread S :=
  if ct_running t then set_ct_rx_last_known_proposed_round (watch_send round (ct_rx_last_known_proposed_round t)) t else t.
Definition highest_received_rounds t : list Round := ct_highest_received_rounds t.

(** [CoreThreadHandle::stop] drops the sender. *)
Definition CoreThreadHandle_stop t : CoreThread S := set_ct_handle false t.
End thread.
