(* ===== verification/AuthorityService.v ===== *)
(** * The network service of an authority (consensus/core/src/authority_service.rs)

    The handlers of the requests of other authorities: sent blocks are
    verified and given to the core; blocks, commits and rounds are read from
    the DAG state and the store.

    An asynchronous handler is cut where it waits for an answer of the core
    thread. A handler returns the state it leaves next to its result, since a
    request that is refused has already changed it. *)
From S2P Require Import Prelude Committee StakeAggregator Block ThresholdClock Commit LeaderScoring Store DagState LeaderSchedule BaseCommitter BlockVerifier TransactionConsumer BlockManager Linearizer CommitObserver QuorumRounds Ancestor TransactionCertifier Core CoreThread.

Definition COMMIT_LAG_MULTIPLIER : N := 5.
Definition MAX_ADDITIONAL_BLOCKS : nat := 10.

(** The bcs format of a [BlockRef]. *)
Class BlockRefCodec := {
  bcs_ref_to_bytes : BlockRef → option bytes;
  bcs_ref_from_bytes : bytes → option BlockRef;
}.

(** [SliceRandom] of the rand crate: [choose_multiple] takes so many distinct
    positions of the slice, in any order, and [shuffle] permutes it. *)
Class SliceRandom := {
  choose_multiple : ∀ {A}, list A → nat → list A;
  law_choose_multiple A (l : list A) n : ∃ rest, choose_multiple l n ++ rest ≡ₚ l ∧
    length (choose_multiple l n) = Nat.min n (length l);
  shuffle : ∀ {A}, list A → list A;
  law_shuffle A (l : list A) : shuffle l ≡ₚ l;
}.

(** [struct ExtendedSerializedBlock] (network/mod.rs), and its conversion. *)
Record ExtendedSerializedBlock := mk_extended_serialized {
  es_block : bytes;
  es_excluded_ancestors : list bytes;
}.
Definition ExtendedSerializedBlock_from `{BlockRefCodec} (extended_block : ExtendedBlock) : ExtendedSerializedBlock :=
  mk_extended_serialized (vb_serialized (eb_block extended_block))
    (omap bcs_ref_to_bytes (eb_excluded_ancestors extended_block)).

(** [struct Counter] of [SubscriptionCounter]. *)
Record Counter := mk_counter {
  cn_count : N;
  cn_subscriptions_by_authority : list N;
}.
Definition SubscriptionCounter_new (ctx : Context) : Counter :=
  mk_counter 0 (replicate (Committee_size (ctx_committee ctx)) 0).

(** [struct AuthorityService]: the core thread with the state it shares, the
    commit vote monitor, the subscriptions, and the requests to fetch blocks
    that the synchronizer was given. *)
Record AuthorityService (S : Type) := mk_service {
  as_thread : CoreThread S;
  as_commit_vote_monitor : CommitVoteMonitor;
  as_subscription_counter : Counter;
  as_fetches : list (gset BlockRef * AuthorityIndex);
}.
Arguments mk_service {_}.
Arguments as_thread {_}.
Arguments as_commit_vote_monitor {_}.
Arguments as_subscription_counter {_}.
Arguments as_fetches {_}.

Definition set_as_thread {S} (x : CoreThread S) (s : AuthorityService S) : AuthorityService S :=
  mk_service x (as_commit_vote_monitor s) (as_subscription_counter s) (as_fetches s).
Definition set_as_commit_vote_monitor {S} (x : CommitVoteMonitor) (s : AuthorityService S) : AuthorityService S :=
  mk_service (as_thread s) x (as_subscription_counter s) (as_fetches s).
Definition set_as_subscription_counter {S} (x : Counter) (s : AuthorityService S) : AuthorityService S :=
  mk_service (as_thread s) (as_commit_vote_monitor s) x (as_fetches s).
Definition set_as_fetches {S} (x : list (gset BlockRef * AuthorityIndex)) (s : AuthorityService S) : AuthorityService S :=
  mk_service (as_thread s) (as_commit_vote_monitor s) (as_subscription_counter s) x.

Definition as_core {S} (s : AuthorityService S) : Core S := ct_core (as_thread s).
Definition as_dag_state {S} (s : AuthorityService S) : DagState S := co_dag_state (as_core s).
Definition set_as_core {S} (c : Core S) (s : AuthorityService S) : AuthorityService S :=
  set_as_thread (set_ct_core c (as_thread s)) s.

Section service.
Context {S : Type} `{Store S} `{CommitCodec} `{BlockCodec} `{Crypto} `{TransactionVerifier} `{BlockRefCodec} `{SliceRandom}.
Context (ctx : Context) (params : Parameters) (block_verifier : SignedBlockVerifier).
Implicit Types (s : AuthorityService S).
Abbreviation cm := (ctx_committee ctx).
Abbreviation own := (ctx_own_index ctx).
Abbreviation size := (Committee_size cm).

(** ** [handle_send_block] *)

(** The reason given for a refused block. *)
Definition lagging_reason : string := "Last commit index is lagging quorum commit index too much".

(** Up to the command to the core: the block is verified, its commit votes are
    observed, it is refused when the node lags behind, and voted on. *)
Definition receive_block s (peer : AuthorityIndex) (serialized_block : ExtendedSerializedBlock) (sender : N)
    : run (AuthorityService S * ConsensusResult VerifiedBlock) :=
  _ ← Committee_authority cm peer;
  match bcs_from_bytes (es_block serialized_block) with
  | None => Done (s, RErr (MalformedBlock "bcs"))
  | Some signed_block =>
      let author := block_author (sb_inner signed_block) in
      if negb (bool_decide (peer = author)) then Done (s, RErr (UnexpectedAuthority author peer))
      else
        verified ← verify_and_vote ctx block_verifier signed_block;
        match verified with
        | RErr e => Done (s, RErr e)
        | ROk reject_txn_votes =>
            let verified_block := VerifiedBlock_new_verified signed_block (es_block serialized_block) in
            monitor ← observe_block (as_commit_vote_monitor s) verified_block;
            let s := set_as_commit_vote_monitor monitor s in
            let last_commit_index := last_commit_index (as_dag_state s) in
            let quorum_commit_index := quorum_commit_index ctx (as_commit_vote_monitor s) in
            if bool_decide (u32_add last_commit_index (u32_mul (pm_commit_sync_batch_size params) COMMIT_LAG_MULTIPLIER)
                              < quorum_commit_index)
            then Done (s, RErr (BlockRejected (vb_reference verified_block) lagging_reason))
            else
              s ← (if pc_mysticeti_fastpath (ctx_protocol_config ctx) then
                     '(st, sent) ← TransactionCertifier_add_voted_blocks ctx (co_transaction_certifier (as_core s))
                                     [(verified_block, reject_txn_votes)];
                     Done (set_as_core (set_co_outputs (co_outputs (as_core s) ++ (CertifiedBlocks <$> sent))
                             (set_co_transaction_certifier st (as_core s))) s)
                   else Done s);
              t ← dispatch_add_blocks (as_thread s) [verified_block] sender;
              Done (set_as_thread t s, ROk verified_block)
        end
  end.

(** Fetching is requested in the background, from the sender of the block. *)
Definition schedule_fetch s (missing : gset BlockRef) (peer : AuthorityIndex) : AuthorityService S :=
  if bool_decide (missing = ∅) then s else set_as_fetches (as_fetches s ++ [(missing, peer)]) s.

(** From the answer of [add_blocks] to the next command. *)
Definition process_excluded s (peer : AuthorityIndex) (verified_block : VerifiedBlock) (serialized : list bytes)
    (missing_ancestors : gset BlockRef) (sender : N) : run (AuthorityService S * ConsensusResult unit) :=
  let s := schedule_fetch s missing_ancestors peer in
  match mapM bcs_ref_from_bytes serialized with
  | None => Done (s, RErr (MalformedBlock "bcs"))
  | Some excluded_ancestors =>
      let excluded_ancestors := take (size * 2) excluded_ancestors in
      tracker ← update_from_accepted_block (co_round_tracker (as_core s)) (mk_extended verified_block excluded_ancestors);
      let s := set_as_core (set_co_round_tracker tracker (as_core s)) s in
      _ ← map_run (λ excluded_ancestor, Committee_authority cm (br_author excluded_ancestor)) excluded_ancestors;
      Done (set_as_thread (dispatch_check_block_refs (as_thread s) excluded_ancestors sender) s, ROk tt)
  end.

(** From the answer of [check_block_refs] on. *)
Definition fetch_excluded s (peer : AuthorityIndex) (missing_excluded_ancestors : gset BlockRef) : AuthorityService S :=
  schedule_fetch s missing_excluded_ancestors peer.

(** ** Subscriptions *)

(** [SubscriptionCounter::increment], [decrement]; the counters are [usize]. *)
Definition increment s (peer : AuthorityIndex) : run (AuthorityService S) :=
  let counter := as_subscription_counter s in
  let count := u64_add (cn_count counter) 1 in
  n ← vec_get (cn_subscriptions_by_authority counter) peer;
  subscriptions ← vec_set (cn_subscriptions_by_authority counter) peer (u64_add n 1);
  _ ← Committee_authority cm peer;
  let s := set_as_subscription_counter (mk_counter count subscriptions) s in
  Done (if bool_decide (count = 1) then set_as_thread (dispatch_subscriber_exists (as_thread s) true) s else s).
Definition decrement s (peer : AuthorityIndex) : run (AuthorityService S) :=
  let counter := as_subscription_counter s in
  let count := u64_sub (cn_count counter) 1 in
  n ← vec_get (cn_subscriptions_by_authority counter) peer;
  let n := u64_sub n 1 in
  subscriptions ← vec_set (cn_subscriptions_by_authority counter) peer n;
  _ ← (if bool_decide (n = 0) then _ ← Committee_authority cm peer; Done tt else Done tt);
  let s := set_as_subscription_counter (mk_counter count subscriptions) s in
  Done (if bool_decide (count = 0) then set_as_thread (dispatch_subscriber_exists (as_thread s) false) s else s).

(** [handle_subscribe_blocks]: the missed blocks at the start of the stream;
    the stream counts as a subscription until it is dropped. *)
Definition handle_subscribe_blocks s (peer : AuthorityIndex) (last_received : Round)
    : run (AuthorityService S * list ExtendedSerializedBlock) :=
  blocks ← get_cached_blocks (as_dag_state s) own (u32_add last_received 1);
  s ← increment s peer;
  Done (s, (λ b, mk_extended_serialized (vb_serialized b) []) <$> (blocks : list VerifiedBlock)).

(** ** Reading blocks, commits and rounds *)

(** The checks of the requested references. *)
Fixpoint check_block_requests (block_refs : list BlockRef) : ConsensusResult unit :=
  match block_refs with
  | [] => ROk tt
  | r :: block_refs =>
      if negb (Committee_is_valid_index cm (br_author r))
      then RErr (InvalidAuthorityIndex (br_author r) (N.of_nat size))
      else if bool_decide (br_round r = GENESIS_ROUND) then RErr UnexpectedGenesisBlockRequested
      else check_block_requests block_refs
  end.
Definition check_rounds_size (highest_accepted_rounds : list Round) : ConsensusResult unit :=
  if negb (bool_decide (length highest_accepted_rounds = O)) && negb (bool_decide (length highest_accepted_rounds = size))
  then RErr (InvalidSizeOfHighestAcceptedRounds (N.of_nat (length highest_accepted_rounds)) (N.of_nat size))
  else ROk tt.

(** The blocks found, in the order of the references. *)
Definition found_blocks d (block_refs : list BlockRef) : run (list VerifiedBlock) :=
  blocks ← get_blocks (S := S) d block_refs; Done (omap id (blocks : list (option VerifiedBlock))).

(** The ancestors of blocks above the rounds the peer has accepted. *)
Definition missing_ancestors (highest_accepted_rounds : list Round) (blocks : list VerifiedBlock) : run (list BlockRef) :=
  filter_run (λ r, highest ← vec_get highest_accepted_rounds (br_author r); Done (bool_decide (highest < br_round r)))
    (blocks ≫= vb_ancestors).

(** [handle_fetch_blocks_old]. *)
Definition handle_fetch_blocks_old s (block_refs : list BlockRef) (highest_accepted_rounds : list Round)
    : fallible (list bytes) :=
  let block_refs := take (N.to_nat (pm_max_blocks_per_fetch params)) block_refs in
  _ ← (Done (check_rounds_size highest_accepted_rounds) : fallible unit);
  _ ← (Done (check_block_requests block_refs) : fallible unit);
  blocks ← f_run (found_blocks (as_dag_state s) block_refs);
  ancestor_blocks ←
    (if bool_decide (length highest_accepted_rounds = O) then f_ok []
     else
       all_ancestors ← f_run (missing_ancestors highest_accepted_rounds blocks);
       let all_ancestors := take MAX_ADDITIONAL_BLOCKS all_ancestors in
       if bool_decide (length all_ancestors = O) then f_ok []
       else f_run (found_blocks (as_dag_state s) all_ancestors));
  f_ok (vb_serialized <$> (blocks ++ ancestor_blocks)).

(** The lowest round of the found blocks, per authority. *)
Definition lower_missing (m : gmap AuthorityIndex Round) (b : VerifiedBlock) : gmap AuthorityIndex Round :=
  <[vb_author b := N.min (default (vb_round b) (m !! vb_author b)) (vb_round b)]> m.

(** The loop over the lowest missing rounds; it ends when enough blocks are found. *)
Fixpoint add_cached_blocks d (highest_accepted_rounds : list Round) (lowest : list (AuthorityIndex * Round))
    (blocks : list VerifiedBlock) : run (list VerifiedBlock) :=
  match lowest with
  | [] => Done blocks
  | (authority, lowest_missing_round) :: lowest =>
      highest_accepted_round ← vec_get highest_accepted_rounds authority;
      if bool_decide (lowest_missing_round ≤ highest_accepted_round)
      then add_cached_blocks d highest_accepted_rounds lowest blocks
      else
        missing_blocks ← get_cached_blocks_in_range (S := S) d authority (u32_add highest_accepted_round 1) lowest_missing_round
                           (saturating_sub (pm_max_blocks_per_sync params) (N.of_nat (length blocks)));
        let blocks := blocks ++ missing_blocks in
        if bool_decide (pm_max_blocks_per_sync params ≤ N.of_nat (length blocks))
        then Done (take (N.to_nat (pm_max_blocks_per_sync params)) blocks)
        else add_cached_blocks d highest_accepted_rounds lowest blocks
  end.

(** The blocks and, breadth first, some of their missing ancestors. *)
Definition add_ancestor_blocks d (highest_accepted_rounds : list Round) (max_response_num_blocks : N)
    (blocks : list VerifiedBlock) : run (list VerifiedBlock) :=
  ancestors ← missing_ancestors highest_accepted_rounds blocks;
  let ancestors := set_list (list_to_set ancestors : gset BlockRef) in
  let selected_num_blocks := saturating_sub max_response_num_blocks (N.of_nat (length blocks)) in
  let ancestors := if bool_decide (selected_num_blocks < N.of_nat (length ancestors))
                   then choose_multiple ancestors (N.to_nat selected_num_blocks) else ancestors in
  ancestor_blocks ← found_blocks d ancestors;
  Done (blocks ++ ancestor_blocks).

(** [handle_fetch_blocks]. *)
Definition handle_fetch_blocks s (block_refs : list BlockRef) (highest_accepted_rounds : list Round) (breadth_first : bool)
    : fallible (list bytes) :=
  if negb (pc_consensus_batched_block_sync (ctx_protocol_config ctx))
  then handle_fetch_blocks_old s block_refs highest_accepted_rounds
  else
    _ ← (Done (check_rounds_size highest_accepted_rounds) : fallible unit);
    let sync := negb (bool_decide (length highest_accepted_rounds = O)) in
    let max_response_num_blocks := if sync then pm_max_blocks_per_sync params else pm_max_blocks_per_fetch params in
    let block_refs := take (N.to_nat max_response_num_blocks) block_refs in
    _ ← (Done (check_block_requests block_refs) : fallible unit);
    blocks ← f_run (
      if sync then
        blocks ← found_blocks (as_dag_state s) (set_list (list_to_set block_refs : gset BlockRef));
        if breadth_first then add_ancestor_blocks (as_dag_state s) highest_accepted_rounds max_response_num_blocks blocks
        else add_cached_blocks (as_dag_state s) highest_accepted_rounds
               (map_list (foldl lower_missing ∅ blocks)) blocks
      else found_blocks (as_dag_state s) block_refs);
    f_ok (vb_serialized <$> blocks).

(** The stake of the authors of the stored votes on a commit. *)
Definition commit_voters (store : S) (index : CommitIndex) : fallible (list BlockRef * StakeAggregator QuorumThreshold) :=
  votes ← store_read_commit_votes store index;
  agg ← f_run (for_each (λ agg (v : BlockRef), '(agg, _) ← StakeAggregator_add agg (br_author v) cm; Done agg)
                 (StakeAggregator_new : StakeAggregator QuorumThreshold) votes);
  f_ok (votes, agg).

(** The loop that drops commits from the end until one is certified; the
    commits come in reverse. *)
Fixpoint drop_uncertified (store : S) (commits : list TrustedCommit) : fallible (list TrustedCommit * list BlockRef) :=
  match commits with
  | [] => f_ok ([], [])
  | c :: rest =>
      '(votes, agg) ← commit_voters store (tc_index c);
      if StakeAggregator_reached_threshold agg cm then f_ok (commits, votes) else drop_uncertified store rest
  end.

(** [handle_fetch_commits]. *)
Definition handle_fetch_commits s (commit_range : CommitRange) : fallible (list TrustedCommit * list VerifiedBlock) :=
  let store := ds_store (as_dag_state s) in
  let inclusive_end := N.min (CommitRange_end commit_range)
    (u32_sub (u32_add (CommitRange_start commit_range) (pm_commit_sync_batch_size params)) 1) in
  commits ← store_scan_commits store (CommitRange_new (CommitRange_start commit_range) inclusive_end);
  '(commits, certifier_block_refs) ← drop_uncertified store (reverse commits);
  blocks ← store_read_blocks store certifier_block_refs;
  f_ok (reverse commits, omap id (blocks : list (option VerifiedBlock))).

(** The check of the requested authorities. *)
Fixpoint check_authorities (authorities : list AuthorityIndex) : ConsensusResult unit :=
  match authorities with
  | [] => ROk tt
  | a :: authorities =>
      if negb (Committee_is_valid_index cm a) then RErr (InvalidAuthorityIndex a (N.of_nat size))
      else check_authorities authorities
  end.

(** [handle_fetch_latest_blocks]. *)
Definition handle_fetch_latest_blocks s (peer : AuthorityIndex) (authorities : list AuthorityIndex) : fallible (list bytes) :=
  if bool_decide (size < length authorities)%nat then f_err (TooManyAuthoritiesProvided peer)
  else
    _ ← (Done (check_authorities authorities) : fallible unit);
    blocks ← f_run (map_run (get_last_block_for_authority (as_dag_state s)) authorities);
    f_ok (vb_serialized <$> filter (λ b, vb_round b ≠ GENESIS_ROUND) blocks).

(** [handle_get_latest_rounds]: the rounds received and accepted. *)
Definition handle_get_latest_rounds s : run (list Round * list Round) :=
  let received := highest_received_rounds (as_thread s) in
  blocks ← get_last_cached_block_per_authority ctx (as_dag_state s) u32_max;
  let accepted := (λ '(b, _), vb_round b) <$> (blocks : list (VerifiedBlock * list BlockRef)) in
  own_accepted ← vec_get accepted own;
  received ← vec_set received own own_accepted;
  Done (received, accepted).
End service.
