(* ===== verification/AuthorityNode.v ===== *)
(** * Starting an authority (consensus/core/src/authority_node.rs)

    The parts of a node are built from its store in the order of
    [AuthorityNode::start], up to the network. The monitor of the consumer of
    commits (commit_consumer.rs) and the handler of proposed blocks
    (proposed_block_handler.rs) come with it. *)
From S2P Require Import Prelude Committee StakeAggregator Block ThresholdClock Commit LeaderScoring Store DagState LeaderSchedule BaseCommitter BlockVerifier TransactionConsumer BlockManager Linearizer CommitObserver QuorumRounds Ancestor TransactionCertifier Core CoreThread AuthorityService.

(** ** The consumer of commits *)

(** [struct CommitConsumerMonitor]. *)
Record CommitConsumerMonitor := mk_consumer_monitor {
  ccm_highest_handled_commit : CommitIndex;
  ccm_highest_observed_commit_at_startup : CommitIndex;
}.
Definition CommitConsumerMonitor_new (last_handled_commit : CommitIndex) : CommitConsumerMonitor :=
  mk_consumer_monitor last_handled_commit 0.
Definition set_highest_handled_commit (m : CommitConsumerMonitor) (highest_handled_commit : CommitIndex) : CommitConsumerMonitor :=
  mk_consumer_monitor highest_handled_commit (ccm_highest_observed_commit_at_startup m).
Definition set_highest_observed_commit_at_startup (m : CommitConsumerMonitor) (highest_observed : CommitIndex)
    : run CommitConsumerMonitor :=
  assert! bool_decide (ccm_highest_handled_commit m ≤ highest_observed);
  assert! bool_decide (ccm_highest_observed_commit_at_startup m = 0);
  Done (mk_consumer_monitor (ccm_highest_handled_commit m) highest_observed).

(** [replay_complete] returns once this holds. *)
Definition replay_complete (m : CommitConsumerMonitor) : bool :=
  bool_decide (ccm_highest_observed_commit_at_startup m ≤ ccm_highest_handled_commit m).

(** ** Proposed blocks *)

(** [ProposedBlockHandler::handle_proposed_block]. *)
Definition handle_proposed_block {S} (ctx : Context) (c : Core S) (extended_block : ExtendedBlock) : run (Core S) :=
  if negb (pc_mysticeti_fastpath (ctx_protocol_config ctx)) then Done c
  else
    '(st, sent) ← TransactionCertifier_add_proposed_block ctx (co_transaction_certifier c) (eb_block extended_block);
    Done (set_co_outputs (co_outputs c ++ (CertifiedBlocks <$> sent)) (set_co_transaction_certifier st c)).

(** ** [AuthorityNode::start] *)

(** What outlives the start of a node. *)
Record AuthorityNode (S : Type) := mk_node {
  an_service : AuthorityService S;
  an_block_verifier : SignedBlockVerifier;
  an_commit_consumer_monitor : CommitConsumerMonitor;
  an_sync_last_known_own_block : bool;
}.
Arguments mk_node {_}.
Arguments an_service {_}.
Arguments an_block_verifier {_}.
Arguments an_commit_consumer_monitor {_}.
Arguments an_sync_last_known_own_block {_}.

Section start.
Context {S : Type} `{Store S} `{CommitCodec} `{BlockCodec} `{Crypto} `{TransactionVerifier} `{BlockSigner} `{Rng}.
Context (ctx : Context) (params : Parameters) (fuel : nat) (clk : CoreClock).
Abbreviation cm := (ctx_committee ctx).

(** Whether the last own block is asked of the peers before proposing. *)
Definition sync_last_known_own_block (d : DagState S) (boot_counter : N) : bool :=
  bool_decide (boot_counter = 0) && bool_decide (highest_accepted_round d = 0) &&
  negb (bool_decide (pm_sync_last_known_own_block_timeout params = 0)).

(** [start] on a store, with the index of the last commit that was processed,
    the boot counter, and whether the network streams blocks. *)
Definition AuthorityNode_start (store : S) (last_processed_commit_index : CommitIndex) (boot_counter : N)
    (support_streaming : bool) : run (AuthorityNode S) :=
  assert! Committee_is_valid_index cm (ctx_own_index ctx);
  let tx_consumer := TransactionConsumer_new [] ctx in
  d ← DagState_new ctx store (clk_instant clk);
  block_verifier ← SignedBlockVerifier_new ctx;
  '(transaction_certifier, sent) ←
    TransactionCertifier_recover ctx (verify_and_vote ctx block_verifier) d CertifierState_new last_processed_commit_index;
  let sync := sync_last_known_own_block d boot_counter in
  leader_schedule ← LeaderSchedule_from_store ctx d;
  monitor ← set_highest_observed_commit_at_startup (CommitConsumerMonitor_new last_processed_commit_index) (last_commit_index d);
  '(handle, d) ← recover_and_send_commits leader_schedule (mk_handle [] false) d last_processed_commit_index;
  core ← Core_new ctx params fuel clk leader_schedule tx_consumer transaction_certifier (BlockManager_new ctx)
           (negb support_streaming || bool_decide (Committee_size cm = 1%nat)) handle d sync (PeerRoundTracker_new ctx);
  let core := set_co_outputs ((CertifiedBlocks <$> (sent : list (list CertifiedBlock))) ++ co_outputs core) core in
  thread ← CoreThread_start ctx (co_dag_state core) core;
  Done (mk_node (mk_service thread (CommitVoteMonitor_new ctx) (SubscriptionCounter_new ctx) []) block_verifier monitor sync).
End start.
