(* ===== verification/CommitSyncer.v ===== *)
(** * Synchronizing commits (consensus/core/src/commit_syncer.rs)

    A node that lags behind fetches ranges of commits from other authorities.
    A task schedules the ranges, runs fetches in parallel, and gives what they
    bring to the core in the order of the commits. A fetch verifies that the
    commits are a chain that ends in a commit with a quorum of votes, and that
    the blocks are the committed ones.

    The task is a record of its state with one definition per branch of its
    loop; answers of the network are arguments. A fetch that waits, and the
    task while it waits for the core, are part of the state. *)
From S2P Require Import Prelude Committee StakeAggregator Block ThresholdClock Commit LeaderScoring Store DagState LeaderSchedule BaseCommitter BlockVerifier TransactionConsumer BlockManager Linearizer CommitObserver QuorumRounds Ancestor TransactionCertifier Core CoreThread AuthorityService AuthorityNode.

(** Ranges as keys: by start, then by end. *)
#[global] Instance CommitRange_countable : Countable CommitRange.
Proof. by apply (inj_countable' (λ r, (rg_start r, rg_end r)) (λ p, mk_range p.1 p.2)); intros []. Defined.
Definition CommitRange_le (r other : CommitRange) : bool :=
  bool_decide (rg_start r < rg_start other ∨ rg_start r = rg_start other ∧ rg_end r ≤ rg_end other).
#[global] Instance CommitRange_le_total : TotalPreorder CommitRange_le.
Proof.
  unfold CommitRange_le. split.
  - intros x y. rewrite !bool_decide_spec. lia.
  - intros x y z. rewrite !bool_decide_spec. lia.
Qed.
#[global] Program Instance CommitRange_order : KeyOrder CommitRange := {| key_le := CommitRange_le |}.
Next Obligation.
  intros [s1 e1] [s2 e2]. unfold CommitRange_le. rewrite !bool_decide_spec. simpl. intros. f_equal; lia.
Qed.

(** [struct CommitSyncer]. A fetch that ended has its result; [sy_sent] is the
    range of commits that the core is adding, for which the task waits. *)
Record CommitSyncer := mk_syncer {
  sy_inflight_fetches : list (CommitRange * option CertifiedCommits);
  sy_pending_fetches : gset CommitRange;
  sy_fetched_ranges : gmap CommitRange CertifiedCommits;
  sy_highest_scheduled_index : option CommitIndex;
  sy_highest_fetched_commit_index : CommitIndex;
  sy_synced_commit_index : CommitIndex;
  sy_sent : option CommitRange;
  sy_running : bool;
}.
Definition set_sy_inflight_fetches x (s : CommitSyncer) : CommitSyncer :=
  mk_syncer x (sy_pending_fetches s) (sy_fetched_ranges s) (sy_highest_scheduled_index s)
    (sy_highest_fetched_commit_index s) (sy_synced_commit_index s) (sy_sent s) (sy_running s).
Definition set_sy_pending_fetches x (s : CommitSyncer) : CommitSyncer :=
  mk_syncer (sy_inflight_fetches s) x (sy_fetched_ranges s) (sy_highest_scheduled_index s)
    (sy_highest_fetched_commit_index s) (sy_synced_commit_index s) (sy_sent s) (sy_running s).
Definition set_sy_fetched_ranges x (s : CommitSyncer) : CommitSyncer :=
  mk_syncer (sy_inflight_fetches s) (sy_pending_fetches s) x (sy_highest_scheduled_index s)
    (sy_highest_fetched_commit_index s) (sy_synced_commit_index s) (sy_sent s) (sy_running s).
Definition set_sy_highest_scheduled_index x (s : CommitSyncer) : CommitSyncer :=
  mk_syncer (sy_inflight_fetches s) (sy_pending_fetches s) (sy_fetched_ranges s) x
    (sy_highest_fetched_commit_index s) (sy_synced_commit_index s) (sy_sent s) (sy_running s).
Definition set_sy_highest_fetched_commit_index x (s : CommitSyncer) : CommitSyncer :=
  mk_syncer (sy_inflight_fetches s) (sy_pending_fetches s) (sy_fetched_ranges s) (sy_highest_scheduled_index s)
    x (sy_synced_commit_index s) (sy_sent s) (sy_running s).
Definition set_sy_synced_commit_index x (s : CommitSyncer) : CommitSyncer :=
  mk_syncer (sy_inflight_fetches s) (sy_pending_fetches s) (sy_fetched_ranges s) (sy_highest_scheduled_index s)
    (sy_highest_fetched_commit_index s) x (sy_sent s) (sy_running s).
Definition set_sy_sent x (s : CommitSyncer) : CommitSyncer :=
  mk_syncer (sy_inflight_fetches s) (sy_pending_fetches s) (sy_fetched_ranges s) (sy_highest_scheduled_index s)
    (sy_highest_fetched_commit_index s) (sy_synced_commit_index s) x (sy_running s).
Definition set_sy_running x (s : CommitSyncer) : CommitSyncer :=
  mk_syncer (sy_inflight_fetches s) (sy_pending_fetches s) (sy_fetched_ranges s) (sy_highest_scheduled_index s)
    (sy_highest_fetched_commit_index s) (sy_synced_commit_index s) (sy_sent s) x.

Section syncer.
Context {S : Type} `{Store S} `{CommitCodec} `{BlockCodec} `{Crypto} `{TransactionVerifier}.
Context (ctx : Context) (params : Parameters) (block_verifier : SignedBlockVerifier).
Implicit Types (c : Core S) (s : CommitSyncer).
Abbreviation cm := (ctx_committee ctx).

(** ** Fetching *)

(** Reject votes of a block go to the transaction certifier. *)
Definition vote_on_block c (block : VerifiedBlock) (reject_votes : list TransactionIndex) : run (Core S) :=
  if pc_mysticeti_fastpath (ctx_protocol_config ctx) then
    '(st, sent) ← TransactionCertifier_add_voted_blocks ctx (co_transaction_certifier c) [(block, reject_votes)];
    Done (set_co_outputs (co_outputs c ++ (CertifiedBlocks <$> sent)) (set_co_transaction_certifier st c))
  else Done c.

(** Parsing the commits: they start where the range starts, follow on each
    other, and the ones past the range are not looked at. *)
Fixpoint parse_commits (peer : AuthorityIndex) (commit_range : CommitRange) (serialized_commits : list bytes)
    (commits : list (CommitDigest * Commit)) : ConsensusResult (list (CommitDigest * Commit)) :=
  match serialized_commits with
  | [] => ROk commits
  | serialized :: serialized_commits =>
      match bcs_commit_from_bytes serialized with
      | None => RErr (MalformedCommit "bcs")
      | Some commit =>
          let digest := commit_hash serialized in
          _ ← match last commits with
              | None =>
                  if bool_decide (commit_index commit ≠ CommitRange_start commit_range)
                  then RErr (UnexpectedStartCommit peer (CommitRange_start commit_range) commit)
                  else ROk tt
              | Some (last_commit_digest, last_commit) =>
                  if bool_decide (commit_index commit ≠ u32_add (commit_index last_commit) 1) ||
                     bool_decide (commit_previous_digest commit ≠ last_commit_digest)
                  then RErr (UnexpectedCommitSequence peer last_commit commit)
                  else ROk tt
              end;
          if bool_decide (CommitRange_end commit_range < commit_index commit) then ROk commits
          else parse_commits peer commit_range serialized_commits (commits ++ [(digest, commit)])
      end
  end.

(** The votes of a block on the last commit. *)
Definition count_votes (end_commit_ref : CommitRef) (agg : StakeAggregator QuorumThreshold) (block : VerifiedBlock)
    : run (StakeAggregator QuorumThreshold) :=
  for_each (λ agg vote,
    if bool_decide (vote = end_commit_ref) then '(agg, _) ← StakeAggregator_add agg (vb_author block) cm; Done agg
    else Done agg) agg (block_commit_votes (vb_block block)).

(** Verifying the blocks that vote, and adding up their votes. *)
Fixpoint verify_vote_blocks c (end_commit_ref : CommitRef) (serialized_vote_blocks : list bytes)
    (agg : StakeAggregator QuorumThreshold) (vote_blocks : list VerifiedBlock)
    : run (Core S * ConsensusResult (StakeAggregator QuorumThreshold * list VerifiedBlock)) :=
  match serialized_vote_blocks with
  | [] => Done (c, ROk (agg, vote_blocks))
  | serialized :: serialized_vote_blocks =>
      match bcs_from_bytes serialized with
      | None => Done (c, RErr (MalformedBlock "bcs"))
      | Some signed_block =>
          verified ← verify_and_vote ctx block_verifier signed_block;
          match verified with
          | RErr e => Done (c, RErr e)
          | ROk reject_transaction_votes =>
              let block := VerifiedBlock_new_verified signed_block serialized in
              c ← vote_on_block c block reject_transaction_votes;
              agg ← count_votes end_commit_ref agg block;
              verify_vote_blocks c end_commit_ref serialized_vote_blocks agg (vote_blocks ++ [block])
          end
      end
  end.

(** [Inner::verify_commits]. *)
Definition verify_commits c (peer : AuthorityIndex) (commit_range : CommitRange) (serialized_commits serialized_vote_blocks : list bytes)
    : run (Core S * ConsensusResult (list TrustedCommit * list VerifiedBlock)) :=
  match parse_commits peer commit_range serialized_commits [] with
  | RErr e => Done (c, RErr e)
  | ROk commits =>
      match last commits with
      | None => Done (c, RErr (NoCommitReceived peer))
      | Some (end_commit_digest, end_commit) =>
          let end_commit_ref := mk_commit_ref (commit_index end_commit) end_commit_digest in
          '(c, votes) ← verify_vote_blocks c end_commit_ref serialized_vote_blocks StakeAggregator_new [];
          match votes with
          | RErr e => Done (c, RErr e)
          | ROk (agg, vote_blocks) =>
              if negb (StakeAggregator_reached_threshold agg cm)
              then Done (c, RErr (NotEnoughCommitVotes (sa_stake agg) peer end_commit))
              else Done (c, ROk (zip_with (λ '(_, commit) serialized, TrustedCommit_new_trusted commit serialized)
                                   commits serialized_commits, vote_blocks))
          end
      end
  end.

(** [chunks]: consecutive parts of the given length, the last one shorter. *)
Fixpoint chunks_of {A} (turns : nat) (size : nat) (l : list A) : list (list A) :=
  match turns, l with
  | Datatypes.S turns, _ :: _ => take size l :: chunks_of turns size (drop size l)
  | _, _ => []
  end.
Definition chunks {A} (size : nat) (l : list A) : list (list A) := chunks_of (length l) size l.

(** One request for blocks: the answer has the requested blocks in their order. *)
Fixpoint match_blocks (target_authority : AuthorityIndex) (requests : list BlockRef) (signed_blocks : list SignedBlock)
    (serialized_blocks : list bytes) : ConsensusResult (list VerifiedBlock) :=
  match requests, signed_blocks, serialized_blocks with
  | requested_block_ref :: requests, signed_block :: signed_blocks, serialized :: serialized_blocks =>
      let received_block_ref := mk_ref (block_round (sb_inner signed_block)) (block_author (sb_inner signed_block)) (default_hash serialized) in
      if bool_decide (requested_block_ref ≠ received_block_ref)
      then RErr (UnexpectedBlockForCommit target_authority requested_block_ref received_block_ref)
      else
        blocks ← match_blocks target_authority requests signed_blocks serialized_blocks;
        ROk (VerifiedBlock_new_verified signed_block serialized :: blocks)
  | _, _, _ => ROk []
  end.
Definition check_chunk (target_authority : AuthorityIndex) (request_block_refs : list BlockRef) (response : ConsensusResult (list bytes))
    : ConsensusResult (list VerifiedBlock) :=
  serialized_blocks ← response;
  if bool_decide (length request_block_refs ≠ length serialized_blocks)
  then RErr (UnexpectedNumberOfBlocksFetched target_authority (N.of_nat (length request_block_refs)) (N.of_nat (length serialized_blocks)))
  else
    match mapM bcs_from_bytes serialized_blocks with
    | None => RErr (MalformedBlock "bcs")
    | Some signed_blocks => match_blocks target_authority request_block_refs signed_blocks serialized_blocks
    end.

(** The answers to the requests, in their order, as a map of blocks. *)
Fixpoint collect_chunks (target_authority : AuthorityIndex) (requests : list (list BlockRef)) (responses : nat → ConsensusResult (list bytes))
    (fetched_blocks : gmap BlockRef VerifiedBlock) : ConsensusResult (gmap BlockRef VerifiedBlock) :=
  match requests with
  | [] => ROk fetched_blocks
  | request :: requests =>
      blocks ← check_chunk target_authority request (responses O);
      collect_chunks target_authority requests (λ i, responses (Datatypes.S i))
        (foldl (λ m b, <[vb_reference b := b]> m) fetched_blocks blocks)
  end.

(** The blocks of a commit are taken out of the map. *)
Definition assign_blocks (st : gmap BlockRef VerifiedBlock * list CertifiedCommit) (commit : TrustedCommit)
    : run (gmap BlockRef VerifiedBlock * list CertifiedCommit) :=
  let '(fetched_blocks, certified_commits) := st in
  '(fetched_blocks, blocks) ← for_each (λ '(m, blocks) block_ref,
      block ← expect (m !! block_ref); Done (delete block_ref m, blocks ++ [block]))
    (fetched_blocks, [] : list VerifiedBlock) (tc_blocks commit);
  Done (fetched_blocks, certified_commits ++ [mk_certified_commit commit blocks]).

(** [fetch_once] after the commits were verified: the requests for blocks, and
    what is made of the answers. *)
Definition block_requests (commits : list TrustedCommit) : run (list (list BlockRef)) :=
  assert! negb (bool_decide (pm_max_blocks_per_fetch params = 0));
  Done (chunks (N.to_nat (pm_max_blocks_per_fetch params)) (sort_by key_le (commits ≫= tc_blocks))).
Definition certify_commits c (target_authority : AuthorityIndex) (commits : list TrustedCommit) (vote_blocks : list VerifiedBlock)
    (responses : nat → ConsensusResult (list bytes)) (now_ms : N) : run (Core S * ConsensusResult CertifiedCommits) :=
  requests ← block_requests commits;
  match collect_chunks target_authority requests responses ∅ with
  | RErr e => Done (c, RErr e)
  | ROk fetched_blocks =>
      _ ← map_run (λ block, if bool_decide (saturating_sub (vb_timestamp_ms block) now_ms = 0) then Done tt
                            else _ ← Committee_authority cm target_authority; Done tt)
            ((map_list fetched_blocks).*2 ++ vote_blocks);
      '(_, certified_commits) ← for_each assign_blocks (fetched_blocks, []) commits;
      c ← for_each (λ c block, vote_on_block c block []) c ((certified_commits : list CertifiedCommit) ≫= cc_blocks);
      Done (c, ROk (mk_certified_commits certified_commits vote_blocks))
  end.

(** [fetch_once]: the answer to the request for commits, and the answers to the
    requests for blocks. *)
Definition fetch_once c (target_authority : AuthorityIndex) (commit_range : CommitRange)
    (commits_response : ConsensusResult (list bytes * list bytes)) (blocks_responses : nat → ConsensusResult (list bytes)) (now_ms : N)
    : run (Core S * ConsensusResult CertifiedCommits) :=
  match commits_response with
  | RErr e => Done (c, RErr e)
  | ROk (serialized_commits, serialized_blocks) =>
      '(c, verified) ← verify_commits c target_authority commit_range serialized_commits serialized_blocks;
      match verified with
      | RErr e => Done (c, RErr e)
      | ROk (commits, vote_blocks) => certify_commits c target_authority commits vote_blocks blocks_responses now_ms
      end
  end.

(** ** Scheduling *)

(** [CommitSyncer::new]. *)
Definition CommitSyncer_new (d : DagState S) : CommitSyncer :=
  mk_syncer [] ∅ ∅ None 0 (last_commit_index d) None true.

(** [unhandled_commits_threshold]. *)
Definition unhandled_commits_threshold : CommitIndex :=
  u32_mul (pm_commit_sync_batch_size params) (pm_commit_sync_batches_ahead params mod 4294967296).

(** The loop over the starts of ranges, up to the quorum commit index. *)
Fixpoint schedule_loop (turns : nat) s (highest_handled_index quorum_commit_index prev_end : CommitIndex) : CommitSyncer :=
  match turns with
  | O => s
  | Datatypes.S turns =>
      if bool_decide (quorum_commit_index < prev_end) then s
      else
        let range_start := u32_add prev_end 1 in
        let range_end := u32_add prev_end (pm_commit_sync_batch_size params) in
        if bool_decide (quorum_commit_index < range_end) then s
        else if bool_decide (u32_add highest_handled_index unhandled_commits_threshold < range_end) then s
        else
          let s := set_sy_pending_fetches ({[CommitRange_new range_start range_end]} ∪ sy_pending_fetches s) s in
          schedule_loop turns (set_sy_highest_scheduled_index (Some range_end) s) highest_handled_index quorum_commit_index
            (prev_end + pm_commit_sync_batch_size params)
  end.

(** [try_schedule_once]; [step_by] asserts that the step is not zero. *)
Definition try_schedule_once s (monitor : CommitVoteMonitor) (d : DagState S) (consumer : CommitConsumerMonitor) : run CommitSyncer :=
  let quorum_commit_index := quorum_commit_index ctx monitor in
  let s := set_sy_synced_commit_index (N.max (sy_synced_commit_index s) (last_commit_index d)) s in
  let fetch_after_index := N.max (sy_synced_commit_index s) (default 0 (sy_highest_scheduled_index s)) in
  assert! negb (bool_decide (pm_commit_sync_batch_size params = 0));
  Done (schedule_loop (Datatypes.S (N.to_nat (quorum_commit_index - fetch_after_index))) s
          (ccm_highest_handled_commit consumer) quorum_commit_index fetch_after_index).

(** [handle_fetch_result] up to its loop. *)
Definition record_fetched s (d : DagState S) (target_end : CommitIndex) (certified_commits : CertifiedCommits) : run CommitSyncer :=
  match head (ccs_commits certified_commits), last (ccs_commits certified_commits) with
  | Some first_commit, Some last_commit =>
      let commit_start := tc_index (cc_commit first_commit) in
      let commit_end := tc_index (cc_commit last_commit) in
      let s := set_sy_highest_fetched_commit_index (N.max (sy_highest_fetched_commit_index s) commit_end) s in
      let s := if bool_decide (commit_end < target_end)
               then set_sy_pending_fetches ({[CommitRange_new (u32_add commit_end 1) target_end]} ∪ sy_pending_fetches s) s else s in
      let s := set_sy_synced_commit_index (N.max (sy_synced_commit_index s) (last_commit_index d)) s in
      Done (if bool_decide (sy_synced_commit_index s < commit_end)
            then set_sy_fetched_ranges (<[CommitRange_new commit_start commit_end := certified_commits]> (sy_fetched_ranges s)) s else s)
  | _, _ => Panic
  end.

(** The loop of [handle_fetch_result] up to the next commits to give to core. *)
Fixpoint next_fetched (turns : nat) s : CommitSyncer * option (CommitRange * CertifiedCommits) :=
  match turns with
  | O => (s, None)
  | Datatypes.S turns =>
      match map_first (sy_fetched_ranges s) with
      | None => (s, None)
      | Some (fetched_commit_range, commits) =>
          if bool_decide (CommitRange_start fetched_commit_range ≤ u32_add (sy_synced_commit_index s) 1) then
            let s := set_sy_fetched_ranges (delete fetched_commit_range (sy_fetched_ranges s)) s in
            if bool_decide (CommitRange_end fetched_commit_range ≤ sy_synced_commit_index s) then next_fetched turns s
            else (s, Some (fetched_commit_range, commits))
          else (s, None)
      end
  end.

(** [try_start_fetches]. *)
Definition target_parallel_fetches s : nat :=
  Nat.max 1 (N.to_nat (N.min (N.min (pm_commit_sync_parallel_fetches params) (N.of_nat (Committee_size cm) * 2 / 3))
    (saturating_sub (pm_commit_sync_batches_ahead params) (N.of_nat (base.size (sy_fetched_ranges s)))))).
Fixpoint start_fetches (turns target : nat) s : CommitSyncer :=
  match turns with
  | O => s
  | Datatypes.S turns =>
      if bool_decide (target ≤ length (sy_inflight_fetches s))%nat then s
      else
        match set_first (sy_pending_fetches s) with
        | None => s
        | Some commit_range =>
            let s := set_sy_pending_fetches (sy_pending_fetches s ∖ {[commit_range]}) s in
            start_fetches turns target (set_sy_inflight_fetches (sy_inflight_fetches s ++ [(commit_range, None)]) s)
        end
  end.
Definition try_start_fetches s : CommitSyncer :=
  start_fetches (base.size (sy_pending_fetches s)) (target_parallel_fetches s) s.

(** ** The loops of the task and of a fetch *)

(** [fetch_loop]: the authorities that are asked, one after the other. *)
Definition MAX_NUM_TARGETS : nat := 24.
Definition fetch_targets `{SliceRandom} : list AuthorityIndex :=
  take MAX_NUM_TARGETS (shuffle (filter (λ i, i ≠ ctx_own_index ctx) (Committee_authorities cm).*1)).

(** One of its attempts, by the fetch at position [i]. *)
Definition fetch_attempt s c (i : nat) (authority : AuthorityIndex) (commits_response : ConsensusResult (list bytes * list bytes))
    (blocks_responses : nat → ConsensusResult (list bytes)) (now_ms : N) : run (CommitSyncer * Core S) :=
  match sy_inflight_fetches s !! i with
  | Some (commit_range, None) =>
      '(c, result) ← fetch_once c authority commit_range commits_response blocks_responses now_ms;
      match result with
      | ROk commits => Done (set_sy_inflight_fetches (<[i := (commit_range, Some commits)]> (sy_inflight_fetches s)) s, c)
      | RErr _ => _ ← Committee_authority cm authority; Done (s, c)
      end
  | _ => Done (s, c)
  end.

(** The end of a turn of [schedule_loop]: commits that can be added go to the
    core, or new fetches start. *)
Definition continue_fetched s (t : CoreThread S) (sender : N) : run (CommitSyncer * CoreThread S) :=
  match next_fetched (Datatypes.S (base.size (sy_fetched_ranges s))) s with
  | (s, None) => Done (try_start_fetches (set_sy_sent None s), t)
  | (s, Some (fetched_commit_range, commits)) =>
      t ← dispatch_add_certified_commits t commits sender;
      Done (set_sy_sent (Some fetched_commit_range) s, t)
  end.

(** The branches of [schedule_loop]: the interval, the end of a fetch, and the
    shutdown; and the answer of the core. *)
Definition on_interval s (monitor : CommitVoteMonitor) (d : DagState S) (consumer : CommitConsumerMonitor) : run CommitSyncer :=
  s ← try_schedule_once s monitor d consumer; Done (try_start_fetches s).
Definition on_fetched s (t : CoreThread S) (i : nat) (sender : N) : run (CommitSyncer * CoreThread S) :=
  match sy_inflight_fetches s !! i with
  | Some (commit_range, Some commits) =>
      let s := set_sy_inflight_fetches (delete i (sy_inflight_fetches s)) s in
      s ← record_fetched s (co_dag_state (ct_core t)) (CommitRange_end commit_range) commits;
      continue_fetched s t sender
  | _ => Done (s, t)
  end.
Definition on_added s (t : CoreThread S) (answer : option (gset BlockRef)) (sender : N) : run (CommitSyncer * CoreThread S) :=
  match sy_sent s, answer with
  | Some fetched_commit_range, Some missing =>
      _ ← map_run (λ block_ref, Committee_authority cm (br_author block_ref)) (set_list missing);
      continue_fetched (set_sy_synced_commit_index (N.max (sy_synced_commit_index s) (CommitRange_end fetched_commit_range)) s) t sender
  | _, _ => Done (try_start_fetches (set_sy_sent None s), t)
  end.
Definition on_shutdown s : CommitSyncer := set_sy_running false (set_sy_inflight_fetches [] s).
End syncer.
