(* ===== verification/Synchronizer.v ===== *)
(** * Synchronizing blocks (consensus/core/src/synchronizer.rs)

    Missing blocks are fetched from other authorities: from the sender of the
    block that needs them, and periodically from any peers. A map of the blocks
    in flight keeps a block from being asked of too many peers at once. When
    the node starts without any state, its own last block is asked of its peers.

    The synchronizer is its main loop, one task per peer, the periodic task and
    the task for the own last block. Every task is a record or a stage of its
    own, with one definition for what it does between two waits; answers of the
    network and of the core are arguments. A guard that goes out of scope is
    unlocked where the code drops it. *)
From S2P Require Import Prelude Committee StakeAggregator Block ThresholdClock Commit LeaderScoring Store DagState LeaderSchedule BaseCommitter BlockVerifier TransactionConsumer BlockManager Linearizer CommitObserver QuorumRounds Ancestor TransactionCertifier Core CoreThread AuthorityService AuthorityNode CommitSyncer.

Definition FETCH_BLOCKS_CONCURRENCY : nat := 5.
Definition MAX_AUTHORITIES_TO_FETCH_PER_BLOCK : nat := 2.
Definition MAX_PERIODIC_SYNC_PEERS : nat := 3.
Definition MAX_RETRIES : N := 3.
(** The capacity of the channel of commands. *)
Definition COMMANDS_CAPACITY : nat := 1000.
(** [PERIODIC_FETCH_INTERVAL], in milliseconds. *)
Definition PERIODIC_FETCH_INTERVAL : N := 200.

(** ** The blocks in flight *)

(** [struct BlocksGuard], [struct InflightBlocksMap]. *)
Record BlocksGuard := mk_guard {
  bg_block_refs : gset BlockRef;
  bg_peer : AuthorityIndex;
}.
Abbreviation InflightBlocksMap := (gmap BlockRef (gset AuthorityIndex)).
Definition InflightBlocksMap_new : InflightBlocksMap := ∅.

(** [lock_blocks]. *)
Definition lock_block (peer : AuthorityIndex) (st : InflightBlocksMap * gset BlockRef) (block_ref : BlockRef)
    : run (InflightBlocksMap * gset BlockRef) :=
  let '(inner, blocks) := st in
  let authorities := default ∅ (inner !! block_ref) in
  if bool_decide (size authorities < MAX_AUTHORITIES_TO_FETCH_PER_BLOCK)%nat && negb (bool_decide (peer ∈ authorities)) then
    assert! negb (bool_decide (peer ∈ authorities));
    Done (<[block_ref := {[peer]} ∪ authorities]> inner, {[block_ref]} ∪ blocks)
  else Done (<[block_ref := authorities]> inner, blocks).
Definition lock_blocks (inner : InflightBlocksMap) (missing_block_refs : gset BlockRef) (peer : AuthorityIndex)
    : run (InflightBlocksMap * option BlocksGuard) :=
  '(inner, blocks) ← for_each (lock_block peer) (inner, ∅) (set_list missing_block_refs);
  Done (inner, if bool_decide (blocks = ∅) then None else Some (mk_guard blocks peer)).

(** [unlock_blocks], which is also [BlocksGuard::drop]. *)
Definition unlock_block (peer : AuthorityIndex) (inner : InflightBlocksMap) (block_ref : BlockRef) : run InflightBlocksMap :=
  match inner !! block_ref with
  | None => Panic
  | Some authorities =>
      assert! bool_decide (peer ∈ authorities);
      let authorities := authorities ∖ {[peer]} in
      Done (if bool_decide (authorities = ∅) then delete block_ref inner else <[block_ref := authorities]> inner)
  end.
Definition unlock_blocks (inner : InflightBlocksMap) (block_refs : gset BlockRef) (peer : AuthorityIndex) : run InflightBlocksMap :=
  for_each (unlock_block peer) inner (set_list block_refs).
Definition drop_guard (inner : InflightBlocksMap) (guard : BlocksGuard) : run InflightBlocksMap :=
  unlock_blocks inner (bg_block_refs guard) (bg_peer guard).

(** [swap_locks]. *)
Definition swap_locks (inner : InflightBlocksMap) (blocks_guard : BlocksGuard) (peer : AuthorityIndex)
    : run (InflightBlocksMap * option BlocksGuard) :=
  let block_refs := bg_block_refs blocks_guard in
  inner ← drop_guard inner blocks_guard;
  lock_blocks inner block_refs peer.

(** ** The state of the tasks *)

(** [enum Command]; [result] names the one-shot channel of the answer. *)
Inductive Command :=
| FetchBlocks (missing_block_refs : gset BlockRef) (peer_index : AuthorityIndex) (result : N)
| FetchOwnLastBlock
| KickOffScheduler.
#[global] Instance Command_eq_dec : EqDecision Command.
Proof. solve_decision. Defined.

(** A [fetch_blocks_request] that waits for the peer. *)
Record FetchRequest := mk_request {
  fq_peer : AuthorityIndex;
  fq_guard : BlocksGuard;
  fq_highest_rounds : list Round;
  fq_breadth_first : bool;
  fq_retries : N;
}.

(** A [process_fetched_blocks] that waits: the blocks are verified, or the core
    was given them and answers to [sender]. *)
Inductive ProcessStage :=
| BlocksVerified (blocks : list VerifiedBlock)
| AddingBlocks (sender : N).
Record Process := mk_process {
  pr_peer : AuthorityIndex;
  pr_guard : BlocksGuard;
  pr_stage : ProcessStage;
}.

(** The task [fetch_blocks_from_authority] with its channel. *)
Record Fetcher := mk_fetcher {
  fe_receiver : list BlocksGuard;
  fe_requests : list FetchRequest;
  fe_process : option Process;
}.
Definition Fetcher_new : Fetcher := mk_fetcher [] [] None.

(** The task of [start_fetch_missing_blocks_task]: before it ran, while it
    waits for peers (the ones not asked yet, the requests, the answers), and
    while it processes the answers. *)
Inductive SchedulerTask :=
| Spawned (missing_blocks : gset BlockRef)
| Fetching (peers : list AuthorityIndex) (request_futures : list FetchRequest) (results : list (BlocksGuard * list bytes * AuthorityIndex))
| Processing (current : option Process) (results : list (BlocksGuard * list bytes * AuthorityIndex)).

(** The task of [start_fetch_own_last_block_task]: at the start of its loop,
    while it gathers answers, while it sleeps before it tries again, and when
    it is done; [retry_delay_step] is in nanoseconds. *)
Inductive OwnBlockTask :=
| OwnLoop (retries retry_delay_step : N)
| OwnGathering (pending : list AuthorityIndex) (total_stake : Stake) (highest_round : Round) (retries retry_delay_step : N)
| OwnSleeping (retries retry_delay_step : N)
| OwnDone.

(** [struct Synchronizer] with its tasks. [sn_waiting] names the answer of the
    core that the main loop waits for; [sn_answers] are the results of
    [SynchronizerHandle::fetch_blocks]. *)
Record Synchronizer := mk_synchronizer {
  sn_commands : list Command;
  sn_fetchers : gmap AuthorityIndex Fetcher;
  sn_scheduler_task : option SchedulerTask;
  sn_own_block_task : option OwnBlockTask;
  sn_inflight_blocks_map : InflightBlocksMap;
  sn_scheduler_timeout : N;
  sn_waiting : option N;
  sn_running : bool;
  sn_answers : list (N * ConsensusResult unit);
}.
Definition set_sn_commands x (y : Synchronizer) : Synchronizer :=
  mk_synchronizer x (sn_fetchers y) (sn_scheduler_task y) (sn_own_block_task y) (sn_inflight_blocks_map y)
    (sn_scheduler_timeout y) (sn_waiting y) (sn_running y) (sn_answers y).
Definition set_sn_fetchers x (y : Synchronizer) : Synchronizer :=
  mk_synchronizer (sn_commands y) x (sn_scheduler_task y) (sn_own_block_task y) (sn_inflight_blocks_map y)
    (sn_scheduler_timeout y) (sn_waiting y) (sn_running y) (sn_answers y).
Definition set_sn_scheduler_task x (y : Synchronizer) : Synchronizer :=
  mk_synchronizer (sn_commands y) (sn_fetchers y) x (sn_own_block_task y) (sn_inflight_blocks_map y)
    (sn_scheduler_timeout y) (sn_waiting y) (sn_running y) (sn_answers y).
Definition set_sn_own_block_task x (y : Synchronizer) : Synchronizer :=
  mk_synchronizer (sn_commands y) (sn_fetchers y) (sn_scheduler_task y) x (sn_inflight_blocks_map y)
    (sn_scheduler_timeout y) (sn_waiting y) (sn_running y) (sn_answers y).
Definition set_sn_inflight_blocks_map x (y : Synchronizer) : Synchronizer :=
  mk_synchronizer (sn_commands y) (sn_fetchers y) (sn_scheduler_task y) (sn_own_block_task y) x
    (sn_scheduler_timeout y) (sn_waiting y) (sn_running y) (sn_answers y).
Definition set_sn_scheduler_timeout x (y : Synchronizer) : Synchronizer :=
  mk_synchronizer (sn_commands y) (sn_fetchers y) (sn_scheduler_task y) (sn_own_block_task y) (sn_inflight_blocks_map y)
    x (sn_waiting y) (sn_running y) (sn_answers y).
Definition set_sn_waiting x (y : Synchronizer) : Synchronizer :=
  mk_synchronizer (sn_commands y) (sn_fetchers y) (sn_scheduler_task y) (sn_own_block_task y) (sn_inflight_blocks_map y)
    (sn_scheduler_timeout y) x (sn_running y) (sn_answers y).
Definition set_sn_running x (y : Synchronizer) : Synchronizer :=
  mk_synchronizer (sn_commands y) (sn_fetchers y) (sn_scheduler_task y) (sn_own_block_task y) (sn_inflight_blocks_map y)
    (sn_scheduler_timeout y) (sn_waiting y) x (sn_answers y).
Definition set_sn_answers x (y : Synchronizer) : Synchronizer :=
  mk_synchronizer (sn_commands y) (sn_fetchers y) (sn_scheduler_task y) (sn_own_block_task y) (sn_inflight_blocks_map y)
    (sn_scheduler_timeout y) (sn_waiting y) (sn_running y) x.

(** [try_send] of a command: it is lost when the channel is full or closed. *)
Definition try_send_command (y : Synchronizer) (command : Command) : Synchronizer :=
  if sn_running y && bool_decide (length (sn_commands y) < COMMANDS_CAPACITY)%nat
  then set_sn_commands (sn_commands y ++ [command]) y else y.

(** The guards that a task holds. *)
Definition process_guards (p : option Process) : list BlocksGuard := pr_guard <$> option_list p.
Definition fetcher_guards (f : Fetcher) : list BlocksGuard :=
  fe_receiver f ++ (fq_guard <$> fe_requests f) ++ process_guards (fe_process f).
Definition result_guards (results : list (BlocksGuard * list bytes * AuthorityIndex)) : list BlocksGuard :=
  (λ '(guard, _, _), guard) <$> results.
Definition scheduler_guards (task : option SchedulerTask) : list BlocksGuard :=
  match task with
  | None | Some (Spawned _) => []
  | Some (Fetching _ requests results) => (fq_guard <$> requests) ++ result_guards results
  | Some (Processing current results) => process_guards current ++ result_guards results
  end.

Section synchronizer.
Context {S : Type} `{Store S} `{CommitCodec} `{BlockCodec} `{Crypto} `{TransactionVerifier}.
Context (ctx : Context) (params : Parameters) (block_verifier : SignedBlockVerifier).
Implicit Types (s : AuthorityService S) (y : Synchronizer).
Abbreviation cm := (ctx_committee ctx).
Abbreviation own := (ctx_own_index ctx).
Abbreviation max_blocks_per_sync := (N.to_nat (pm_max_blocks_per_sync params)).
Abbreviation batched := (pc_consensus_batched_block_sync (ctx_protocol_config ctx)).

(** ** Processing fetched blocks *)

(** The loop of [verify_blocks]; [now] is read once per block. *)
Fixpoint verify_loop (peer_index : AuthorityIndex) (serialized_blocks : list bytes) (now : nat → N)
    : fallible (list (VerifiedBlock * list TransactionIndex)) :=
  match serialized_blocks with
  | [] => f_ok []
  | serialized_block :: serialized_blocks =>
      match bcs_from_bytes serialized_block with
      | None => f_err (MalformedBlock "bcs")
      | Some signed_block =>
          verified ← f_run (A := ConsensusResult _) (verify_and_vote ctx block_verifier signed_block);
          match verified with
          | RErr e => _ ← f_run (Committee_authority cm peer_index); f_err e
          | ROk reject_txn_votes =>
              let verified_block := VerifiedBlock_new_verified signed_block serialized_block in
              _ ← f_run (if bool_decide (saturating_sub (vb_timestamp_ms verified_block) (now O) = 0) then Done tt
                         else _ ← Committee_authority cm (vb_author verified_block); Done tt);
              voted_blocks ← verify_loop peer_index serialized_blocks (λ i, now (Datatypes.S i));
              f_ok ((verified_block, reject_txn_votes) :: voted_blocks)
          end
      end
  end.

(** [verify_blocks]. *)
Definition verify_blocks s (peer_index : AuthorityIndex) (serialized_blocks : list bytes) (now : nat → N)
    : run (AuthorityService S * ConsensusResult (list VerifiedBlock)) :=
  res ← (verify_loop peer_index serialized_blocks now : run (ConsensusResult _));
  match res with
  | RErr e => Done (s, RErr e)
  | ROk voted_blocks =>
      s ← (if pc_mysticeti_fastpath (ctx_protocol_config ctx) then
             '(st, sent) ← TransactionCertifier_add_voted_blocks ctx (co_transaction_certifier (as_core s)) voted_blocks;
             Done (set_as_core (set_co_outputs (co_outputs (as_core s) ++ (CertifiedBlocks <$> sent))
                     (set_co_transaction_certifier st (as_core s))) s)
           else Done s);
      Done (s, ROk voted_blocks.*1)
  end.

(** [process_fetched_blocks] up to the end of the verification; there is
    nothing to do for an empty answer. *)
Definition receive_fetched s (peer_index : AuthorityIndex) (requested_blocks_guard : BlocksGuard) (serialized_blocks : list bytes)
    (now : nat → N) : run (AuthorityService S * ConsensusResult (option (list VerifiedBlock))) :=
  if bool_decide (length serialized_blocks = O) then Done (s, ROk None)
  else if negb batched && bool_decide (size (bg_block_refs requested_blocks_guard) + MAX_ADDITIONAL_BLOCKS < length serialized_blocks)%nat
  then Done (s, RErr (TooManyFetchedBlocksReturned peer_index))
  else
    let serialized_blocks := if batched then take max_blocks_per_sync serialized_blocks else serialized_blocks in
    '(s, blocks) ← verify_blocks s peer_index serialized_blocks now;
    Done (s, match blocks with ROk blocks => ROk (Some blocks) | RErr e => RErr e end).

(** Every block is one of the requested ones or an ancestor of one of them. *)
Definition check_fetched (peer_index : AuthorityIndex) (block_refs : gset BlockRef) (blocks : list VerifiedBlock) : ConsensusResult unit :=
  let ancestors : gset BlockRef := list_to_set ((filter (λ b, vb_reference b ∈ block_refs) blocks) ≫= vb_ancestors) in
  match list_find (λ b, (vb_reference b ∉ block_refs) ∧ (vb_reference b ∉ ancestors)) blocks with
  | Some (_, block) => RErr (UnexpectedFetchedBlock peer_index (vb_reference block))
  | None => ROk tt
  end.

(** From the verified blocks to the command to the core. *)
Definition add_fetched s (peer_index : AuthorityIndex) (requested_blocks_guard : BlocksGuard) (blocks : list VerifiedBlock) (sender : N)
    : run (AuthorityService S * ConsensusResult unit) :=
  match (if batched then ROk tt else check_fetched peer_index (bg_block_refs requested_blocks_guard) blocks) with
  | RErr e => Done (s, RErr e)
  | ROk _ =>
      monitor ← for_each observe_block (as_commit_vote_monitor s) blocks;
      let s := set_as_commit_vote_monitor monitor s in
      _ ← Committee_authority cm peer_index;
      _ ← map_run (λ block, Committee_authority cm (vb_author block)) blocks;
      t ← dispatch_add_blocks (as_thread s) blocks sender;
      Done (set_as_thread t s, ROk tt)
  end.

(** The same with the guard, which is dropped when processing ends early. *)
Definition start_process s (inner : InflightBlocksMap) (peer : AuthorityIndex) (guard : BlocksGuard) (serialized_blocks : list bytes)
    (now : nat → N) : run (AuthorityService S * InflightBlocksMap * option Process) :=
  '(s, res) ← receive_fetched s peer guard serialized_blocks now;
  match res with
  | ROk (Some blocks) => Done (s, inner, Some (mk_process peer guard (BlocksVerified blocks)))
  | ROk None => inner ← drop_guard inner guard; Done (s, inner, None)
  | RErr _ => inner ← drop_guard inner guard; _ ← Committee_authority cm peer; Done (s, inner, None)
  end.
Definition add_process s (inner : InflightBlocksMap) (p : Process) (blocks : list VerifiedBlock) (sender : N)
    : run (AuthorityService S * InflightBlocksMap * option Process) :=
  '(s, res) ← add_fetched s (pr_peer p) (pr_guard p) blocks sender;
  match res with
  | ROk _ => Done (s, inner, Some (mk_process (pr_peer p) (pr_guard p) (AddingBlocks sender)))
  | RErr _ => inner ← drop_guard inner (pr_guard p); _ ← Committee_authority cm (pr_peer p); Done (s, inner, None)
  end.

(** From the answer of the core on; there is none when the core shut down. *)
Definition finish_process y (p : Process) (missing_blocks : option (gset BlockRef)) : run Synchronizer :=
  inner ← drop_guard (sn_inflight_blocks_map y) (pr_guard p);
  let y := set_sn_inflight_blocks_map inner y in
  match missing_blocks with
  | None => _ ← Committee_authority cm (pr_peer p); Done y
  | Some missing_blocks => Done (if bool_decide (missing_blocks = ∅) then y else try_send_command y KickOffScheduler)
  end.

(** [get_highest_accepted_rounds]. *)
Definition get_highest_accepted_rounds (d : DagState S) : run (list Round) :=
  blocks ← get_last_cached_block_per_authority ctx d u32_max;
  assert! bool_decide (length blocks = Committee_size cm);
  Done ((λ '(b, _), vb_round b) <$> (blocks : list (VerifiedBlock * list BlockRef))).

(** [fetch_blocks_request] when it returns: a failed one counts as a retry. *)
Definition retries_after {A} (retries : N) (response : ConsensusResult A) : N :=
  match response with ROk _ => retries | RErr _ => u32_add retries 1 end.

(** ** The task of a peer *)

Definition with_fetcher y (peer : AuthorityIndex) (f : Fetcher) : Synchronizer := set_sn_fetchers (<[peer := f]> (sn_fetchers y)) y.

(** A guard is received. *)
Definition fetcher_receive s y (peer_index : AuthorityIndex) (f : Fetcher) : run Synchronizer :=
  match fe_receiver f with
  | [] => Done y
  | blocks_guard :: receiver =>
      highest_rounds ← get_highest_accepted_rounds (as_dag_state s);
      Done (with_fetcher y peer_index (mk_fetcher receiver
              (fe_requests f ++ [mk_request peer_index blocks_guard highest_rounds true 1]) (fe_process f)))
  end.

(** The request at a position is answered. *)
Definition fetcher_response s y (peer_index : AuthorityIndex) (f : Fetcher) (i : nat) (r : FetchRequest)
    (response : ConsensusResult (list bytes)) (now : nat → N) : run (AuthorityService S * Synchronizer) :=
  let requests := delete i (fe_requests f) in
  match response with
  | ROk blocks =>
      '(s, inner, p) ← start_process s (sn_inflight_blocks_map y) peer_index (fq_guard r) blocks now;
      Done (s, with_fetcher (set_sn_inflight_blocks_map inner y) peer_index (mk_fetcher (fe_receiver f) requests p))
  | RErr _ =>
      let retries := retries_after (fq_retries r) response in
      if bool_decide (retries ≤ MAX_RETRIES)
      then Done (s, with_fetcher y peer_index (mk_fetcher (fe_receiver f)
                   (requests ++ [mk_request peer_index (fq_guard r) (fq_highest_rounds r) true retries]) (fe_process f)))
      else
        inner ← drop_guard (sn_inflight_blocks_map y) (fq_guard r);
        Done (s, with_fetcher (set_sn_inflight_blocks_map inner y) peer_index (mk_fetcher (fe_receiver f) requests (fe_process f)))
  end.

(** The verified blocks go to the core; the core answers. *)
Definition fetcher_add s y (peer_index : AuthorityIndex) (f : Fetcher) (p : Process) (blocks : list VerifiedBlock) (sender : N)
    : run (AuthorityService S * Synchronizer) :=
  '(s, inner, process) ← add_process s (sn_inflight_blocks_map y) p blocks sender;
  Done (s, with_fetcher (set_sn_inflight_blocks_map inner y) peer_index (mk_fetcher (fe_receiver f) (fe_requests f) process)).
Definition fetcher_finish y (peer_index : AuthorityIndex) (f : Fetcher) (p : Process) (missing_blocks : option (gset BlockRef))
    : run Synchronizer :=
  y ← finish_process y p missing_blocks;
  Done (with_fetcher y peer_index (mk_fetcher (fe_receiver f) (fe_requests f) None)).

(** ** The main loop *)

(** [SynchronizerHandle::fetch_blocks] sends its command when there is room. *)
Definition send_fetch y (missing_block_refs : gset BlockRef) (peer_index : AuthorityIndex) (result : N) : Synchronizer :=
  if sn_running y then set_sn_commands (sn_commands y ++ [FetchBlocks missing_block_refs peer_index result]) y
  else set_sn_answers (sn_answers y ++ [(result, RErr Shutdown)]) y.

Definition answer_fetch y (result : N) (r : ConsensusResult unit) : Synchronizer := set_sn_answers (sn_answers y ++ [(result, r)]) y.

(** The branch of [Command::FetchBlocks]; a sender that is dropped is a
    shutdown to the caller. *)
Definition handle_fetch_command y (missing_block_refs : gset BlockRef) (peer_index : AuthorityIndex) (result : N) : run Synchronizer :=
  if bool_decide (peer_index = own) then Done (answer_fetch y result (RErr Shutdown))
  else
    let missing_block_refs : gset BlockRef := list_to_set (take max_blocks_per_sync (set_list missing_block_refs)) in
    '(inner, guard) ← lock_blocks (sn_inflight_blocks_map y) missing_block_refs peer_index;
    let y := set_sn_inflight_blocks_map inner y in
    match guard with
    | None => Done (answer_fetch y result (ROk tt))
    | Some blocks_guard =>
        f ← expect (sn_fetchers y !! peer_index);
        if bool_decide (length (fe_receiver f) < FETCH_BLOCKS_CONCURRENCY)%nat
        then Done (answer_fetch (with_fetcher y peer_index (mk_fetcher (fe_receiver f ++ [blocks_guard]) (fe_requests f) (fe_process f)))
                     result (ROk tt))
        else
          _ ← Committee_authority cm peer_index;
          inner ← drop_guard (sn_inflight_blocks_map y) blocks_guard;
          Done (answer_fetch (set_sn_inflight_blocks_map inner y) result (RErr (SynchronizerSaturated peer_index)))
    end.

(** The branch of [Command::KickOffScheduler]. *)
Definition handle_kick_off y (now : N) : Synchronizer :=
  let timeout := match sn_scheduler_task y with None => now | Some _ => now + PERIODIC_FETCH_INTERVAL / 2 end in
  if bool_decide (timeout < sn_scheduler_timeout y) then set_sn_scheduler_timeout timeout y else y.

(** The branches of a received command. *)
Definition handle_sync_command y (command : Command) (now : N) : run Synchronizer :=
  match command with
  | FetchBlocks missing_block_refs peer_index result => handle_fetch_command y missing_block_refs peer_index result
  | FetchOwnLastBlock =>
      Done (match sn_own_block_task y with
            | None => set_sn_own_block_task (Some (OwnLoop 0 500000000)) y
            | Some _ => y
            end)
  | KickOffScheduler => Done (handle_kick_off y now)
  end.

(** The branch of the scheduler timeout, up to the question to the core, and
    [reset] of the timeout. *)
Definition reset_scheduler y (now : N) : Synchronizer := set_sn_scheduler_timeout (now + PERIODIC_FETCH_INTERVAL) y.
Definition handle_scheduler_timeout s y (now sender : N) : AuthorityService S * Synchronizer :=
  match sn_scheduler_task y with
  | Some _ => (s, reset_scheduler y now)
  | None =>
      if bool_decide (Committee_size cm = 1%nat) then (s, reset_scheduler y now)
      else (set_as_thread (dispatch_get_missing_blocks (as_thread s) sender) s, set_sn_waiting (Some sender) y)
  end.

(** [is_commit_lagging]. *)
Definition is_commit_lagging s : bool :=
  bool_decide (u32_add (last_commit_index (as_dag_state s)) (u32_mul (pm_commit_sync_batch_size params) COMMIT_LAG_MULTIPLIER)
                 < quorum_commit_index ctx (as_commit_vote_monitor s)).

(** What [fetch_blocks] returns for the commands that are dropped. *)
Definition dropped_answers (commands : list Command) : list (N * ConsensusResult unit) :=
  omap (λ c, match c with FetchBlocks _ _ result => Some (result, RErr Shutdown) | _ => None end) commands.

(** The answer of the core: a task is spawned, or the loop ends when the core
    shut down, and with it the task for the own last block. *)
Definition handle_missing_blocks s y (missing_blocks : option (gset BlockRef)) (now : N) : Synchronizer :=
  let y := set_sn_waiting None y in
  match missing_blocks with
  | None => set_sn_own_block_task None (set_sn_running false
              (set_sn_answers (sn_answers y ++ dropped_answers (sn_commands y)) (set_sn_commands [] y)))
  | Some missing_blocks =>
      if bool_decide (missing_blocks = ∅) then reset_scheduler y now
      else if is_commit_lagging s then reset_scheduler y now
      else reset_scheduler (set_sn_scheduler_task (Some (Spawned missing_blocks)) y) now
  end.

(** ** The periodic task *)

(** The other authorities, before they are shuffled. *)
Definition other_authorities : list AuthorityIndex := filter (λ a, a ≠ own) (Committee_authorities cm).*1.

(** A request to a peer for what can be locked. *)
Definition push_request (peer : AuthorityIndex) (highest_rounds : list Round) (breadth_first : bool)
    (st : InflightBlocksMap * list FetchRequest) (block_refs : gset BlockRef) : run (InflightBlocksMap * list FetchRequest) :=
  let '(inner, request_futures) := st in
  _ ← Committee_authority cm peer;
  '(inner, guard) ← lock_blocks inner block_refs peer;
  Done (inner, match guard with
               | Some blocks_guard => request_futures ++ [mk_request peer blocks_guard highest_rounds breadth_first 1]
               | None => request_futures
               end).

(** The initial requests: a batch of references to every next peer. Running
    out of peers is a bug of the code: it panics, in the newer version only in
    debug builds. *)
Fixpoint send_requests (batches : list (gset BlockRef)) (peers : list AuthorityIndex) (highest_rounds : list Round) (breadth_first : bool)
    (st : InflightBlocksMap * list FetchRequest) : run (InflightBlocksMap * list AuthorityIndex * list FetchRequest) :=
  match batches with
  | [] => Done (st.1, peers, st.2)
  | block_refs :: batches =>
      match peers with
      | [] => Panic
      | peer :: peers =>
          st ← push_request peer highest_rounds breadth_first st block_refs;
          send_requests batches peers highest_rounds breadth_first st
      end
  end.

(** The metrics index a vector of the size of the committee. *)
Definition count_missing (authors : list AuthorityIndex) : run unit :=
  _ ← map_run (λ a, vec_get (replicate (Committee_size cm) 0) a) authors; Done tt.

(** [fetch_blocks_from_authorities_old] up to its loop, with shuffled peers. *)
Definition old_batches (missing_blocks : gset BlockRef) : list (gset BlockRef) :=
  list_to_set <$> chunks 32 (take (3 * 32) (set_list missing_blocks)).
Definition fetch_old (d : DagState S) (inner : InflightBlocksMap) (missing_blocks : gset BlockRef) (peers : list AuthorityIndex)
    : run (InflightBlocksMap * list AuthorityIndex * list FetchRequest) :=
  _ ← count_missing (br_author <$> take (3 * 32) (set_list missing_blocks));
  highest_rounds ← get_highest_accepted_rounds d;
  send_requests (old_batches missing_blocks) peers highest_rounds true (inner, []).

(** [fetch_blocks_from_authorities] up to its loop: the missing blocks by
    author, with shuffled peers and shuffled authors. *)
Definition missing_by_authority (missing_blocks : gset BlockRef) : gmap AuthorityIndex (list BlockRef) :=
  foldl (λ m r, <[br_author r := default [] (m !! br_author r) ++ [r]]> m) ∅
    (take (2 * MAX_PERIODIC_SYNC_PEERS * max_blocks_per_sync) (set_list missing_blocks)).
Definition div_ceil (a b : nat) : nat := ((a + b - 1) / b)%nat.
Definition num_authorities_per_peer (authorities : nat) : nat :=
  div_ceil authorities (Nat.min (Committee_size cm - 1) MAX_PERIODIC_SYNC_PEERS).
Definition batch_refs (batch : list (list BlockRef)) : gset BlockRef :=
  list_to_set (take max_blocks_per_sync (set_list (list_to_set (mjoin batch) : gset BlockRef))).
Definition fetch_batched (d : DagState S) (inner : InflightBlocksMap) (missing_blocks : gset BlockRef) (peers : list AuthorityIndex)
    (authorities : list (list BlockRef)) : run (InflightBlocksMap * list AuthorityIndex * list FetchRequest) :=
  assert! bool_decide (1 < Committee_size cm)%nat;
  let per_peer := num_authorities_per_peer (length authorities) in
  _ ← count_missing (map_list (missing_by_authority missing_blocks)).*1;
  highest_rounds ← get_highest_accepted_rounds d;
  assert! negb (bool_decide (per_peer = O));
  send_requests (batch_refs <$> chunks per_peer authorities) peers highest_rounds false (inner, []).

(** The spawned task runs up to its first wait. *)
Definition scheduler_start s y (missing_blocks : gset BlockRef) (peers : list AuthorityIndex) (authorities : list (list BlockRef))
    : run Synchronizer :=
  '(inner, peers, request_futures) ←
    (if batched then fetch_batched (as_dag_state s) (sn_inflight_blocks_map y) missing_blocks peers authorities
     else fetch_old (as_dag_state s) (sn_inflight_blocks_map y) missing_blocks peers);
  Done (set_sn_scheduler_task (Some (Fetching peers request_futures [])) (set_sn_inflight_blocks_map inner y)).

Definition with_scheduler y (inner : InflightBlocksMap) (task : option SchedulerTask) : Synchronizer :=
  set_sn_scheduler_task task (set_sn_inflight_blocks_map inner y).

(** The loop of both versions, when the request at a position is answered: a
    failed one goes to the next peer. *)
Definition scheduler_response y (peers : list AuthorityIndex) (request_futures : list FetchRequest)
    (results : list (BlocksGuard * list bytes * AuthorityIndex)) (i : nat) (r : FetchRequest) (response : ConsensusResult (list bytes))
    : run Synchronizer :=
  let request_futures := delete i request_futures in
  _ ← Committee_authority cm (fq_peer r);
  match response with
  | ROk fetched_blocks =>
      let results := results ++ [(fq_guard r, fetched_blocks, fq_peer r)] in
      Done (set_sn_scheduler_task (Some (if bool_decide (length request_futures = O) then Processing None results
                                         else Fetching peers request_futures results)) y)
  | RErr _ =>
      match peers with
      | next_peer :: peers =>
          '(inner, guard) ← swap_locks (sn_inflight_blocks_map y) (fq_guard r) next_peer;
          let request_futures :=
            match guard with
            | Some blocks_guard => request_futures ++ [mk_request next_peer blocks_guard (fq_highest_rounds r) (fq_breadth_first r) 1]
            | None => request_futures
            end in
          Done (with_scheduler y inner (Some (Fetching peers request_futures results)))
      | [] =>
          inner ← drop_guard (sn_inflight_blocks_map y) (fq_guard r);
          Done (with_scheduler y inner (Some (Fetching [] request_futures results)))
      end
  end.

(** The loop times out; the requests that are left are dropped. *)
Definition scheduler_timed_out y (request_futures : list FetchRequest) (results : list (BlocksGuard * list bytes * AuthorityIndex))
    : run Synchronizer :=
  inner ← for_each drop_guard (sn_inflight_blocks_map y) (fq_guard <$> request_futures);
  Done (with_scheduler y inner (Some (Processing None results))).

(** The answers are processed one after the other. *)
Definition scheduler_process s y (guard : BlocksGuard) (fetched_blocks : list bytes) (peer : AuthorityIndex)
    (results : list (BlocksGuard * list bytes * AuthorityIndex)) (now : nat → N) : run (AuthorityService S * Synchronizer) :=
  '(s, inner, p) ← start_process s (sn_inflight_blocks_map y) peer guard fetched_blocks now;
  Done (s, with_scheduler y inner (Some (Processing p results))).
Definition scheduler_add s y (p : Process) (blocks : list VerifiedBlock) (sender : N)
    (results : list (BlocksGuard * list bytes * AuthorityIndex)) : run (AuthorityService S * Synchronizer) :=
  '(s, inner, process) ← add_process s (sn_inflight_blocks_map y) p blocks sender;
  Done (s, with_scheduler y inner (Some (Processing process results))).
Definition scheduler_finish y (p : Process) (missing_blocks : option (gset BlockRef))
    (results : list (BlocksGuard * list bytes * AuthorityIndex)) : run Synchronizer :=
  y ← finish_process y p missing_blocks;
  Done (set_sn_scheduler_task (Some (Processing None results)) y).

(** ** The own last block *)

(** The closure [process_blocks]. *)
Fixpoint process_own_blocks (authority_index : AuthorityIndex) (blocks : list bytes) : fallible (list VerifiedBlock) :=
  match blocks with
  | [] => f_ok []
  | serialized_block :: blocks =>
      match bcs_from_bytes serialized_block with
      | None => f_err (MalformedBlock "bcs")
      | Some signed_block =>
          verified ← f_run (A := ConsensusResult _) (verify_and_vote ctx block_verifier signed_block);
          match verified with
          | RErr e => _ ← f_run (Committee_authority cm authority_index); f_err e
          | ROk _ =>
              let verified_block := VerifiedBlock_new_verified signed_block serialized_block in
              if negb (bool_decide (vb_author verified_block = own))
              then f_err (UnexpectedLastOwnBlock authority_index (vb_reference verified_block))
              else result ← process_own_blocks authority_index blocks; f_ok (verified_block :: result)
          end
      end
  end.

(** The core is told the highest round. *)
Definition report_own_round s y (highest_round : Round) : AuthorityService S * Synchronizer :=
  (set_as_thread (dispatch_last_known_proposed_round (as_thread s) highest_round) s, set_sn_own_block_task (Some OwnDone) y).

(** The start of the main loop: every other authority is asked. *)
Definition own_loop s y (retries retry_delay_step : N) : run (AuthorityService S * Synchronizer) :=
  if bool_decide (Committee_size cm = 1%nat)
  then b ← get_last_proposed_block ctx (as_dag_state s); Done (report_own_round s y (vb_round b))
  else Done (s, set_sn_own_block_task (Some (OwnGathering other_authorities 0 0 retries retry_delay_step)) y).

(** The inner loop: the authority at a position answers; a failed request is
    sent again. *)
Definition max_round (blocks : list VerifiedBlock) : Round := foldr N.max 0 (vb_round <$> blocks).
Definition own_response y (pending : list AuthorityIndex) (total_stake : Stake) (highest_round : Round) (retries retry_delay_step : N)
    (i : nat) (authority_index : AuthorityIndex) (response : ConsensusResult (list bytes)) : run Synchronizer :=
  let pending := delete i pending in
  let gathering pending total_stake highest_round :=
    set_sn_own_block_task (Some (OwnGathering pending total_stake highest_round retries retry_delay_step)) y in
  match response with
  | ROk result =>
      processed ← (process_own_blocks authority_index result : run (ConsensusResult _));
      match processed with
      | ROk blocks =>
          stake ← Committee_stake cm authority_index;
          Done (gathering pending (u64_add total_stake stake) (N.max highest_round (max_round blocks)))
      | RErr _ => Done (gathering pending total_stake highest_round)
      end
  | RErr _ => Done (gathering (pending ++ [authority_index]) total_stake highest_round)
  end.

(** After the inner loop, when every authority answered or the time is over. *)
Definition own_gathered s y (total_stake : Stake) (highest_round : Round) (retries retry_delay_step : N) : AuthorityService S * Synchronizer :=
  if Committee_reached_validity cm total_stake then report_own_round s y highest_round
  else (s, set_sn_own_block_task (Some (OwnSleeping (retries + 1) retry_delay_step)) y).
Definition own_awake y (retries retry_delay_step : N) : Synchronizer :=
  set_sn_own_block_task (Some (OwnLoop retries (N.min (retry_delay_step * 3 / 2) 4000000000))) y.

(** ** Starting and stopping *)

(** [Synchronizer::start]. *)
Definition Synchronizer_start (sync_last_known_own_block : bool) (now : N) : Synchronizer :=
  mk_synchronizer (if sync_last_known_own_block then [FetchOwnLastBlock] else [])
    (list_to_map ((λ a, (a, Fetcher_new)) <$> other_authorities)) None None InflightBlocksMap_new
    (now + PERIODIC_FETCH_INTERVAL) None true [].

(** [SynchronizerHandle::stop] aborts the tasks, which drop their guards. *)
Definition live_guards y : list BlocksGuard :=
  ((map_list (sn_fetchers y)).*2 ≫= fetcher_guards) ++ scheduler_guards (sn_scheduler_task y).
Definition Synchronizer_stop y : run Synchronizer :=
  inner ← for_each drop_guard (sn_inflight_blocks_map y) (live_guards y);
  Done (mk_synchronizer [] ∅ None None inner (sn_scheduler_timeout y) None false (sn_answers y ++ dropped_answers (sn_commands y))).
End synchronizer.
