(* ===== verification/NodeTasks.v ===== *)
(** * The tasks around the core (leader_timeout.rs, round_prober.rs, subscriber.rs)

    The leader timeout asks the core for a block when a round takes too long;
    the round prober asks the peers which rounds they have and computes the
    propagation delay of own blocks; the subscriber keeps a stream of blocks
    from every peer. As for the synchronizer, a task is the state it waits in,
    with one definition for what it does until it waits again.

    The handlers of sent blocks (authority_service.rs) wait for the core twice;
    a handler that waits is a value here. *)
From S2P Require Import Prelude Committee StakeAggregator Block ThresholdClock Commit LeaderScoring Store DagState LeaderSchedule BaseCommitter BlockVerifier TransactionConsumer BlockManager Linearizer CommitObserver QuorumRounds Ancestor TransactionCertifier Core CoreThread AuthorityService AuthorityNode CommitSyncer Synchronizer.

(** ** The leader timeout *)

(** [LeaderTimeoutTask::run]: its variables, how many of the rounds that core
    signaled the receiver has seen, and the call to the core it waits for. *)
Record LeaderTimeoutTask := mk_leader_timeout {
  lo_leader_round : Round;
  lo_min_leader_round_timed_out : bool;
  lo_max_leader_round_timed_out : bool;
  lo_min_leader_timeout : N;
  lo_max_leader_timeout : N;
  lo_seen : nat;
  lo_waiting : option (N * bool);
  lo_running : bool;
}.

(** The rounds sent on the watch channel; it starts with 0. *)
Definition signaled_rounds (outputs : list CoreOutput) : list Round :=
  omap (λ o, match o with NewRound round => Some round | _ => None end) outputs.
Definition signaled_round (outputs : list CoreOutput) : Round := default 0 (last (signaled_rounds outputs)).

Section leader_timeout.
Context {S : Type} (params : Parameters).
Implicit Types (t : CoreThread S) (l : LeaderTimeoutTask).

(** [LeaderTimeoutTask::start], and the branch of a new round, which sets the
    same variables again. *)
Definition watch_round t (now : N) : LeaderTimeoutTask :=
  let outputs := co_outputs (ct_core t) in
  mk_leader_timeout (signaled_round outputs) false false (now + pm_min_round_delay params) (now + pm_leader_timeout params)
    (length (signaled_rounds outputs)) None true.
Definition LeaderTimeoutTask_start t (now : N) : LeaderTimeoutTask := watch_round t now.

(** Whether [changed] returns. *)
Definition round_changed t l : bool := bool_decide (lo_seen l < length (signaled_rounds (co_outputs (ct_core t))))%nat.

(** Whether the branch of a timer may be taken. *)
Definition leader_timer_ready l (force : bool) (now : N) : bool :=
  if force then negb (lo_max_leader_round_timed_out l) && bool_decide (lo_max_leader_timeout l ≤ now)
  else negb (lo_min_leader_round_timed_out l) && bool_decide (lo_min_leader_timeout l ≤ now).

(** The branch of a timer calls the core, and goes on when it answers. *)
Definition leader_timed_out t l (force : bool) (sender : N) : CoreThread S * LeaderTimeoutTask :=
  (dispatch_new_block t (lo_leader_round l) force sender,
   mk_leader_timeout (lo_leader_round l) (lo_min_leader_round_timed_out l) (lo_max_leader_round_timed_out l)
     (lo_min_leader_timeout l) (lo_max_leader_timeout l) (lo_seen l) (Some (sender, force)) true).
Definition leader_answered l (force answered : bool) : LeaderTimeoutTask :=
  mk_leader_timeout (lo_leader_round l)
    (if answered && negb force then true else lo_min_leader_round_timed_out l)
    (if answered && force then true else lo_max_leader_round_timed_out l)
    (lo_min_leader_timeout l) (lo_max_leader_timeout l) (lo_seen l) None answered.

(** The stop signal. *)
Definition leader_stopped l : LeaderTimeoutTask :=
  mk_leader_timeout (lo_leader_round l) (lo_min_leader_round_timed_out l) (lo_max_leader_round_timed_out l)
    (lo_min_leader_timeout l) (lo_max_leader_timeout l) (lo_seen l) None false.
End leader_timeout.

(** ** The round prober *)

(** [RoundProber::probe] while it waits for peers. *)
Record Probe := mk_probe {
  pb_requests : list AuthorityIndex;
  pb_highest_received_rounds : list (list Round);
  pb_highest_accepted_rounds : list (list Round);
  pb_last_proposed_round : Round;
}.

Section prober.
Context {S : Type} `{Store S}.
Context (ctx : Context).
Implicit Types (s : AuthorityService S) (p : Probe).
Abbreviation cm := (ctx_committee ctx).
Abbreviation own := (ctx_own_index ctx).

(** [rounds[authority] = ...], [rounds[own_index][own_index] = round]. *)
Definition set_cell (rounds : list (list Round)) (row column : AuthorityIndex) (round : Round) : run (list (list Round)) :=
  l ← vec_get rounds row; l ← vec_set l column round; vec_set rounds row l.

Definition probe_start s : run Probe :=
  let zeros := replicate (Committee_size cm) (replicate (Committee_size cm) 0) in
  blocks ← get_last_cached_block_per_authority ctx (as_dag_state s) u32_max;
  let local_highest_accepted_rounds := (λ '(b, _), vb_round b) <$> (blocks : list (VerifiedBlock * list BlockRef)) in
  last_proposed_round ← vec_get local_highest_accepted_rounds own;
  received ← vec_set zeros own (highest_received_rounds (as_thread s));
  accepted ← vec_set zeros own local_highest_accepted_rounds;
  received ← set_cell received own own last_proposed_round;
  accepted ← set_cell accepted own own last_proposed_round;
  Done (mk_probe (other_authorities ctx) received accepted last_proposed_round).

(** The request at a position is answered, or fails. *)
Definition probe_response p (i : nat) (peer : AuthorityIndex) (result : ConsensusResult (list Round * list Round)) : run Probe :=
  _ ← Committee_authority cm peer;
  match result with
  | RErr _ => Done (mk_probe (delete i (pb_requests p)) (pb_highest_received_rounds p) (pb_highest_accepted_rounds p) (pb_last_proposed_round p))
  | ROk (received, accepted) =>
      received_rounds ← (if bool_decide (length received = Committee_size cm) then vec_set (pb_highest_received_rounds p) peer received
                         else Done (pb_highest_received_rounds p));
      accepted_rounds ← (if bool_decide (length accepted = Committee_size cm) then vec_set (pb_highest_accepted_rounds p) peer accepted
                         else Done (pb_highest_accepted_rounds p));
      Done (mk_probe (delete i (pb_requests p)) received_rounds accepted_rounds (pb_last_proposed_round p))
  end.

(** The end of [probe], after the answers or a shutdown. *)
Definition probe_finish s p : run (AuthorityService S * Round) :=
  let tracker := update_from_probe (co_round_tracker (as_core s)) (pb_highest_accepted_rounds p) (pb_highest_received_rounds p) in
  let s := set_as_core (set_co_round_tracker tracker (as_core s)) s in
  propagation_delay ← calculate_propagation_delay ctx tracker (pb_last_proposed_round p);
  Done (set_as_thread (dispatch_propagation_delay (as_thread s) propagation_delay) s, propagation_delay).
End prober.

(** ** Handlers of sent blocks *)

(** [handle_send_block] while it waits for the core. *)
Inductive Handler :=
| WaitAdded (peer : AuthorityIndex) (verified_block : VerifiedBlock) (excluded_ancestors : list bytes) (sender : N)
| WaitRefs (peer : AuthorityIndex) (sender : N).

Section handlers.
Context {S : Type} `{Store S} `{CommitCodec} `{BlockCodec} `{Crypto} `{TransactionVerifier} `{BlockRefCodec}.
Context (ctx : Context) (params : Parameters) (block_verifier : SignedBlockVerifier).
Implicit Types (s : AuthorityService S).

Definition handler_start s (peer : AuthorityIndex) (serialized_block : ExtendedSerializedBlock) (sender : N)
    : run (AuthorityService S * option Handler) :=
  '(s, res) ← receive_block ctx params block_verifier s peer serialized_block sender;
  Done (s, match res with
           | ROk verified_block => Some (WaitAdded peer verified_block (es_excluded_ancestors serialized_block) sender)
           | RErr _ => None
           end).

(** The core answered, or shut down; [sender] is for the next command. *)
Definition handler_continue s (h : Handler) (missing : option (gset BlockRef)) (sender : N) : run (AuthorityService S * option Handler) :=
  match h, missing with
  | _, None => Done (s, None)
  | WaitAdded peer verified_block excluded_ancestors _, Some missing_ancestors =>
      '(s, res) ← process_excluded ctx s peer verified_block excluded_ancestors missing_ancestors sender;
      Done (s, match res with ROk _ => Some (WaitRefs peer sender) | RErr _ => None end)
  | WaitRefs peer _, Some missing_excluded_ancestors => Done (fetch_excluded s peer missing_excluded_ancestors, None)
  end.
End handlers.

(** ** The subscriber *)

(** A [subscription_loop]: before it subscribes, while it waits for a block of
    the stream, and while a block is handled. Delays are in nanoseconds. *)
Inductive SubscriptionStage :=
| Subscribing
| Streaming
| Handling (h : Handler).
Record Subscription := mk_subscription {
  sb_last_received : Round;
  sb_retries : N;
  sb_delay : N;
  sb_stage : SubscriptionStage;
}.
Definition IMMEDIATE_RETRIES : N := 3.
Definition INITIAL_RETRY_INTERVAL : N := 100000000.
Definition MAX_RETRY_INTERVAL : N := 10000000000.

Section subscriber.
Context {S : Type} `{Store S} `{CommitCodec} `{BlockCodec} `{Crypto} `{TransactionVerifier} `{BlockRefCodec}.
(** [mul_f32] by the retry interval multiplier. *)
Context (ctx : Context) (params : Parameters) (block_verifier : SignedBlockVerifier) (mul_f32 : N → N).
Implicit Types (s : AuthorityService S) (subscriptions : list (option Subscription)) (sub : Subscription).
Abbreviation cm := (ctx_committee ctx).

Definition Subscriber_new : list (option Subscription) := replicate (Committee_size cm) None.

(** [unsubscribe_locked] aborts the loop. *)
Definition unsubscribe subscriptions (peer : AuthorityIndex) : run (list (option Subscription)) :=
  _ ← Committee_authority cm peer; vec_set subscriptions peer None.

(** [subscribe]. *)
Definition subscribe s subscriptions (peer : AuthorityIndex) : run (list (option Subscription)) :=
  if bool_decide (peer = ctx_own_index ctx) then Done subscriptions
  else
    b ← get_last_block_for_authority (as_dag_state s) peer;
    let last_received := N.max (vb_round b) (gc_round ctx (as_dag_state s)) in
    subscriptions ← unsubscribe subscriptions peer;
    vec_set subscriptions peer (Some (mk_subscription last_received 0 INITIAL_RETRY_INTERVAL Subscribing)).

(** [Subscriber::stop]. *)
Definition Subscriber_stop subscriptions : run (list (option Subscription)) :=
  for_each unsubscribe subscriptions (Committee_authorities cm).*1.

(** An attempt to subscribe, with the delay before the next one. *)
Definition subscription_attempt sub (connected : bool) : Subscription :=
  let delay := if bool_decide (IMMEDIATE_RETRIES < sb_retries sub) then N.min (mul_f32 (sb_delay sub)) MAX_RETRY_INTERVAL
               else if bool_decide (0 < sb_retries sub) then sb_delay sub else INITIAL_RETRY_INTERVAL in
  mk_subscription (sb_last_received sub) (sb_retries sub + 1) delay (if connected then Streaming else Subscribing).

(** The stream ended. *)
Definition subscription_ended sub : Subscription :=
  mk_subscription (sb_last_received sub) (sb_retries sub + 1) (sb_delay sub) Subscribing.

(** A block of the stream is handled, and then the next one is waited for. *)
Definition subscription_handling sub (h : option Handler) : Subscription :=
  match h with
  | Some h => mk_subscription (sb_last_received sub) (sb_retries sub) (sb_delay sub) (Handling h)
  | None => mk_subscription (sb_last_received sub) 0 (sb_delay sub) Streaming
  end.
Definition subscription_block s sub (peer : AuthorityIndex) (serialized_block : ExtendedSerializedBlock) (sender : N)
    : run (AuthorityService S * Subscription) :=
  '(s, h) ← handler_start ctx params block_verifier s peer serialized_block sender;
  Done (s, subscription_handling sub h).
Definition subscription_continue s sub (h : Handler) (missing : option (gset BlockRef)) (sender : N) : run (AuthorityService S * Subscription) :=
  '(s, h) ← handler_continue ctx s h missing sender;
  Done (s, subscription_handling sub h).
End subscriber.
