(* ===== verification/SyncLocks.v ===== *)
(** * Blocks in flight

    The map of blocks in flight is exactly what the guards of the tasks hold: a
    block is asked of at most two peers at once and of no peer twice, dropping
    a guard never panics, and no lock outlives its guard. *)
From S2P Require Import Prelude Committee StakeAggregator Block ThresholdClock Commit LeaderScoring Store DagState LeaderSchedule BaseCommitter BlockVerifier TransactionConsumer BlockManager Linearizer CommitObserver QuorumRounds Ancestor TransactionCertifier Core CoreThread AuthorityService AuthorityNode CommitSyncer Synchronizer.

(** The pairs of a block and a peer that a guard holds. *)
Definition guard_locks (g : BlocksGuard) : list (BlockRef * AuthorityIndex) := (λ r, (r, bg_peer g)) <$> elements (bg_block_refs g).
Definition held (guards : list BlocksGuard) : list (BlockRef * AuthorityIndex) := guards ≫= guard_locks.

Record locks (inner : InflightBlocksMap) (guards : list BlocksGuard) : Prop := {
  lk_held r p : (r, p) ∈ held guards ↔ p ∈ (inner !!! r : gset AuthorityIndex);
  lk_once : NoDup (held guards);
  lk_few r authorities : inner !! r = Some authorities → authorities ≠ ∅ ∧ (size authorities ≤ MAX_AUTHORITIES_TO_FETCH_PER_BLOCK)%nat;
}.

#[global] Instance held_proper : Proper ((≡ₚ) ==> (≡ₚ)) held.
Proof. intros l l' Hl. unfold held. by rewrite Hl. Qed.
#[global] Instance locks_proper : Proper ((=) ==> (≡ₚ) ==> (iff)) locks.
Proof.
  intros inner ? <- l l' Hl.
  assert (Hone : ∀ l l', l ≡ₚ l' → locks inner l → locks inner l').
  { clear. intros l l' Hl [Hh Ho Hf]. split; [|by rewrite <-Hl|done]. intros r p. by rewrite <-Hl. }
  split; by apply Hone.
Qed.

Lemma elem_of_guard_locks g r p : (r, p) ∈ guard_locks g ↔ r ∈ bg_block_refs g ∧ p = bg_peer g.
Proof. unfold guard_locks. rewrite list_elem_of_fmap. setoid_rewrite elem_of_elements. naive_solver. Qed.

Lemma held_cons g guards : held (g :: guards) = guard_locks g ++ held guards.
Proof. done. Qed.

Lemma held_empty p guards : held (mk_guard ∅ p :: guards) = held guards.
Proof. unfold held, guard_locks. cbn. by rewrite elements_empty. Qed.
Lemma locks_empty inner p guards : locks inner (mk_guard ∅ p :: guards) ↔ locks inner guards.
Proof. pose proof (held_empty p guards) as He. split; intros [Hh Ho Hf]; split; rewrite ?He in *; done. Qed.

Lemma held_insert blocks p guards r : r ∉ blocks →
  held (mk_guard ({[r]} ∪ blocks) p :: guards) ≡ₚ (r, p) :: held (mk_guard blocks p :: guards).
Proof. intros Hr. rewrite !held_cons. unfold guard_locks. cbn. by rewrite elements_union_singleton. Qed.

(** Locking one block. *)
Lemma lock_block_locks inner guards blocks p r : locks inner (mk_guard blocks p :: guards) → r ∉ blocks →
  ∃ inner' blocks', lock_block p (inner, blocks) r = Done (inner', blocks') ∧ locks inner' (mk_guard blocks' p :: guards) ∧
    (∀ r', r' ≠ r → inner' !! r' = inner !! r') ∧
    blocks' = if decide ((size (inner !!! r : gset AuthorityIndex) < MAX_AUTHORITIES_TO_FETCH_PER_BLOCK)%nat ∧ p ∉ (inner !!! r : gset AuthorityIndex))
              then {[r]} ∪ blocks else blocks.
Proof.
  intros [Hh Ho Hf] Hr. unfold lock_block. change (default ∅ (inner !! r)) with (inner !!! r : gset AuthorityIndex).
  set (authorities := inner !!! r : gset AuthorityIndex) in *.
  destruct (decide _) as [[Hs Hp]|Hno].
  - rewrite (bool_decide_eq_true_2 _ Hs), (bool_decide_eq_false_2 _ Hp). cbn. eexists _, _. split; [done|].
    split; [|split; [intros r' Hne; by rewrite lookup_insert_ne|done]].
    assert (Hperm := held_insert blocks p guards r Hr). split.
    + intros r' p'. rewrite Hperm, elem_of_cons, Hh. destruct (decide (r' = r)) as [->|Hne].
      * rewrite lookup_total_insert_eq. fold authorities. set_solver.
      * rewrite lookup_total_insert_ne by done. naive_solver.
    + rewrite Hperm. apply NoDup_cons. split; [by rewrite Hh|done].
    + intros r' a [[<- <-]|[_ Ha]]%lookup_insert_Some; [|by apply (Hf r' a)]. split; [set_solver|].
      rewrite size_union, size_singleton by set_solver. unfold MAX_AUTHORITIES_TO_FETCH_PER_BLOCK in *. lia.
  - assert (Hsome : inner !! r = Some authorities).
    { unfold authorities in *. rewrite lookup_total_alt in Hno |- *. destruct (inner !! r) as [a|]; [done|]. cbn in Hno.
      destruct Hno. rewrite size_empty. unfold MAX_AUTHORITIES_TO_FETCH_PER_BLOCK. split; [lia|set_solver]. }
    destruct (_ && _) eqn:Hc.
    { apply andb_true_iff in Hc as [?%bool_decide_eq_true ?%negb_true_iff%bool_decide_eq_false]. by destruct Hno. }
    eexists _, _. split; [done|]. rewrite insert_id by done. split; [by split|done].
Qed.

(** What may be locked for a peer. *)
Definition lockable (inner : InflightBlocksMap) (p : AuthorityIndex) (r : BlockRef) : Prop :=
  (size (inner !!! r : gset AuthorityIndex) < MAX_AUTHORITIES_TO_FETCH_PER_BLOCK)%nat ∧ p ∉ (inner !!! r : gset AuthorityIndex).

Lemma lock_blocks_locks inner guards refs p : locks inner guards →
  ∃ inner' guard, lock_blocks inner refs p = Done (inner', guard) ∧ locks inner' (option_list guard ++ guards) ∧
    match guard with
    | Some g => bg_peer g = p ∧ bg_block_refs g ≠ ∅ ∧ ∀ r, r ∈ bg_block_refs g ↔ r ∈ refs ∧ lockable inner p r
    | None => ∀ r, r ∈ refs → ¬ lockable inner p r
    end.
Proof.
  intros Hl. unfold lock_blocks.
  destruct (for_each_run (λ visited st, locks st.1 (mk_guard st.2 p :: guards) ∧
      (∀ r, r ∉ visited → st.1 !! r = inner !! r) ∧ (∀ r, r ∈ st.2 ↔ r ∈ visited ∧ lockable inner p r))
    (lock_block p) (inner, ∅) (set_list refs)) as ([inner' blocks] & -> & Hl' & _ & Hb).
  - cbn. split; [by apply locks_empty|]. split; [done|]. intros r. rewrite elem_of_empty, elem_of_nil. tauto.
  - intros visited r rest [inner1 blocks1] Heq (Hl1 & Hsame & Hb1). cbn [fst snd] in *.
    assert (Hnd : r ∉ visited). { pose proof (NoDup_set_list refs) as Hn. rewrite Heq in Hn. apply NoDup_app in Hn as (_ & Hn & _).
      intros Hin. apply (Hn r Hin). by left. }
    destruct (lock_block_locks inner1 guards blocks1 p r Hl1) as (inner2 & blocks2 & -> & Hl2 & Hs2 & Hb2); [rewrite Hb1; tauto|].
    eexists. split; [done|]. cbn. split; [done|]. split.
    + intros r' Hr'. rewrite not_elem_of_app, list_elem_of_singleton in Hr'. destruct Hr'. rewrite Hs2 by done. by apply Hsame.
    + assert (Htot : inner1 !!! r = inner !!! r) by (rewrite !lookup_total_alt; by rewrite Hsame).
      rewrite Htot in Hb2. fold (lockable inner p r) in Hb2. intros r'. rewrite elem_of_app, list_elem_of_singleton.
      destruct (decide (r' = r)) as [->|Hne]; subst blocks2; destruct (decide _) as [Hy|Hn];
        rewrite ?elem_of_union, ?elem_of_singleton, Hb1; naive_solver.
  - cbn in *. eexists _, _. split; [done|]. case_bool_decide as Hemp; cbn.
    + subst. split; [by apply locks_empty in Hl'|]. intros r Hr%elem_of_set_list Hlk. apply (not_elem_of_empty (C := gset BlockRef) r), Hb. done.
    + split; [done|]. split; [done|]. split; [done|]. intros r. rewrite Hb, elem_of_set_list. done.
Qed.

(** Dropping a guard gives back its locks. *)
Lemma unlock_block_locks inner guards blocks p r : locks inner (mk_guard ({[r]} ∪ blocks) p :: guards) → r ∉ blocks →
  ∃ inner', unlock_block p inner r = Done inner' ∧ locks inner' (mk_guard blocks p :: guards).
Proof.
  intros [Hh Ho Hf] Hr. pose proof (held_insert blocks p guards r Hr) as Hperm. rewrite Hperm in Ho. apply NoDup_cons in Ho as [Hnot Ho].
  setoid_rewrite Hperm in Hh.
  assert (Hp : p ∈ (inner !!! r : gset AuthorityIndex)) by (apply Hh; by left). rewrite lookup_total_alt in Hp.
  unfold unlock_block. destruct (inner !! r) as [authorities|] eqn:Ha; [|by apply elem_of_empty in Hp]. cbn in Hp.
  rewrite bool_decide_eq_true_2 by done. eexists. split; [done|]. destruct (Hf r authorities Ha) as [_ Hsize].
  set (inner' := if bool_decide _ then _ else _).
  assert (Htot : ∀ r' p', p' ∈ (inner' !!! r' : gset AuthorityIndex) ↔ p' ∈ (inner !!! r' : gset AuthorityIndex) ∧ ¬ (r' = r ∧ p' = p)).
  { intros r' p'. unfold inner'. destruct (decide (r' = r)) as [->|Hne].
    - rewrite (lookup_total_alt inner r), Ha. cbn. case_bool_decide as He.
      + rewrite lookup_total_delete_eq. clear -He. set_solver.
      + rewrite lookup_total_insert_eq. set_solver.
    - case_bool_decide; [rewrite lookup_total_delete_ne by done|rewrite lookup_total_insert_ne by done]; naive_solver. }
  split; [|done|].
  - intros r' p'. rewrite Htot, <-Hh, elem_of_cons. split; [|naive_solver]. intros Hin. split; [by right|]. intros [-> ->]. done.
  - intros r' a. unfold inner'. case_bool_decide as He.
    + intros [_ ?]%lookup_delete_Some. by apply (Hf r').
    + intros [[<- <-]|[_ ?]]%lookup_insert_Some; [|by apply (Hf r')]. split; [done|].
      etrans; [|exact Hsize]. apply subseteq_size. set_solver.
Qed.

Lemma drop_guard_locks inner guards g : locks inner (g :: guards) → ∃ inner', drop_guard inner g = Done inner' ∧ locks inner' guards.
Proof.
  destruct g as [refs p]. intros Hl. unfold drop_guard, unlock_blocks. cbn.
  destruct (for_each_run (λ visited inner, locks inner (mk_guard (refs ∖ list_to_set visited) p :: guards)) (unlock_block p) inner (set_list refs))
    as (inner' & -> & Hl').
  - rewrite list_to_set_nil, difference_empty_L. done.
  - intros visited r rest inner1 Heq Hl1.
    assert (Hin : r ∈ refs) by (apply elem_of_set_list; by eapply elem_of_middle).
    assert (Hnd : r ∉ visited). { pose proof (NoDup_set_list refs) as Hn. rewrite Heq in Hn. apply NoDup_app in Hn as (_ & Hn & _).
      intros Hv. apply (Hn r Hv). by left. }
    assert (refs ∖ list_to_set visited = {[r]} ∪ refs ∖ list_to_set (visited ++ [r])) as Heq'.
    { apply leibniz_equiv. intros x. rewrite elem_of_union, !elem_of_difference, elem_of_singleton, !elem_of_list_to_set, elem_of_app, list_elem_of_singleton.
      destruct (decide (x = r)) as [->|]; naive_solver. }
    rewrite Heq' in Hl1. apply (unlock_block_locks _ _ _ _ _ Hl1). rewrite elem_of_difference, elem_of_list_to_set, elem_of_app, list_elem_of_singleton. naive_solver.
  - assert (refs ∖ list_to_set (set_list refs) = ∅) as Hemp.
    { apply leibniz_equiv. intros x. rewrite elem_of_difference, elem_of_list_to_set, elem_of_set_list, elem_of_empty. tauto. }
    rewrite Hemp in Hl'. eexists. split; [done|]. by apply (locks_empty inner' p guards) in Hl'.
Qed.

Lemma drop_guards_locks inner guards dropped : locks inner (dropped ++ guards) →
  ∃ inner', for_each drop_guard inner dropped = Done inner' ∧ locks inner' guards.
Proof.
  revert inner. induction dropped as [|g dropped IH]; intros inner Hl; [by exists inner|].
  destruct (drop_guard_locks inner (dropped ++ guards) g Hl) as (inner1 & Hrun & Hl1). rewrite for_each_cons, Hrun. by apply IH.
Qed.

Lemma swap_locks_locks inner guards g p : locks inner (g :: guards) →
  ∃ inner' guard, swap_locks inner g p = Done (inner', guard) ∧ locks inner' (option_list guard ++ guards) ∧
    ∀ g', guard = Some g' → bg_peer g' = p ∧ bg_block_refs g' ⊆ bg_block_refs g.
Proof.
  intros Hl. unfold swap_locks. destruct (drop_guard_locks inner guards g Hl) as (inner1 & -> & Hl1). cbn.
  destruct (lock_blocks_locks inner1 guards (bg_block_refs g) p Hl1) as (inner' & guard & -> & Hl' & Hg). eexists _, _. split; [done|]. split; [done|].
  intros g' ->. destruct Hg as (? & _ & Hin). split; [done|]. intros r Hr. by apply Hin in Hr as [? _].
Qed.

(** The guards of the tasks, with those of one peer in front. *)
Definition fetchers_guards (m : gmap AuthorityIndex Fetcher) : list BlocksGuard := (map_list m).*2 ≫= fetcher_guards.

Lemma fetchers_delete m p f : m !! p = Some f → fetchers_guards m ≡ₚ fetcher_guards f ++ fetchers_guards (delete p m).
Proof.
  intros Hf. unfold fetchers_guards, map_list. rewrite !sort_by_Permutation, <-(map_to_list_delete m p f Hf). done.
Qed.
Lemma fetchers_insert m p f : fetchers_guards (<[p := f]> m) ≡ₚ fetcher_guards f ++ fetchers_guards (delete p m).
Proof. rewrite (fetchers_delete _ p f) by apply lookup_insert_eq. by rewrite delete_insert_eq. Qed.

(** No guard, no lock. *)
Lemma locks_none inner : locks inner [] → inner = ∅.
Proof.
  intros Hl. apply map_eq. intros r. rewrite lookup_empty. apply eq_None_not_Some. intros [a Ha].
  destruct (lk_few _ _ Hl r a Ha) as [Hne _]. apply set_choose_L in Hne as [p Hp].
  assert ((r, p) ∈ held []) as Hin%elem_of_nil; [|done]. apply (lk_held _ _ Hl). by rewrite lookup_total_alt, Ha.
Qed.
