(* ===== verification/SyncSchedule.v ===== *)
(** * Fetched commits and their schedule

    What the checks of the commit syncer establish of fetched commits, whatever
    the answers of the network are, and that its schedule loses no commit and
    gives commits to the core without a gap. *)
From S2P Require Import Prelude Committee StakeAggregator Block ThresholdClock Commit LeaderScoring Store DagState LeaderSchedule BaseCommitter BlockVerifier TransactionConsumer BlockManager Linearizer CommitObserver QuorumRounds Ancestor TransactionCertifier Core CoreThread AuthorityService AuthorityNode CommitSyncer.

(** Ranges of indices after the genesis commit that are in their width. *)
Definition range_ok (r : CommitRange) : Prop := 0 < rg_start r < rg_end r ∧ rg_end r ≤ u32_max.

(** Commits with consecutive indices. *)
Definition consecutive (start : CommitIndex) (commits : list TrustedCommit) : Prop :=
  ∀ k c, commits !! k = Some c → tc_index c = start + N.of_nat k.

Section parsing.
Context `{CommitCodec}.

(** A chain of commits, as parsed from bytes. *)
Record chain (r : CommitRange) (serialized : list bytes) (l : list (CommitDigest * Commit)) : Prop := {
  ch_parsed k digest c : l !! k = Some (digest, c) → ∃ bs, serialized !! k = Some bs ∧ bcs_commit_from_bytes bs = Some c ∧
    digest = commit_hash bs ∧ commit_index c = rg_start r + N.of_nat k ∧ commit_index c < rg_end r;
  ch_linked k x y : l !! k = Some x → l !! S k = Some y → commit_previous_digest y.2 = x.1;
}.

Lemma chain_last r serialized l digest c : chain r serialized (l ++ [(digest, c)]) →
  commit_index c = rg_start r + N.of_nat (length l) ∧ commit_index c < rg_end r.
Proof.
  intros Hl. destruct (ch_parsed _ _ _ Hl (length l) digest c) as (bs & _ & _ & _ & ? & ?); [|done].
  by rewrite lookup_app_r, Nat.sub_diag by lia.
Qed.

Lemma chain_snoc r before bs rest l c : chain r (before ++ bs :: rest) l → length before = length l →
  bcs_commit_from_bytes bs = Some c → commit_index c = rg_start r + N.of_nat (length l) → commit_index c < rg_end r →
  (∀ x, last l = Some x → commit_previous_digest c = x.1) → chain r (before ++ bs :: rest) (l ++ [(commit_hash bs, c)]).
Proof.
  intros Hl Hlen Hdec Hidx Hend Hlink. split.
  - intros k digest c' Hk. apply lookup_app_Some in Hk as [Hk|[Hle Hk]]; [by apply (ch_parsed _ _ _ Hl)|].
    apply list_lookup_singleton_Some in Hk as [Hz [= <- <-]]. assert (k = length l) as -> by lia.
    exists bs. split; [|done]. by rewrite lookup_app_r, Hlen, Nat.sub_diag by lia.
  - intros k x y Hx Hy. destruct (decide (S k < length l)%nat) as [Hlt|Hge].
    + rewrite lookup_app_l in Hx, Hy by lia. by apply (ch_linked _ _ _ Hl k).
    + apply lookup_lt_Some in Hy as Hy'. rewrite length_app in Hy'. cbn in Hy'. assert (S k = length l) as Hk by lia.
      rewrite lookup_app_l in Hx by lia. rewrite lookup_app_r, Hk, Nat.sub_diag in Hy by lia. injection Hy as <-.
      apply Hlink. rewrite last_lookup. by rewrite <-Hk.
Qed.

(** Parsing returns a chain, and stops only at a commit past the range. *)
Lemma parse_commits_spec peer r before rest l l' : range_ok r → chain r (before ++ rest) l → length before = length l →
  parse_commits peer r rest l = ROk l' →
  chain r (before ++ rest) l' ∧ l `prefix_of` l'.
Proof.
  intros Hr. revert before l. induction rest as [|bs rest IH]; intros before l Hl Hlen; cbn; [by intros [= <-]|].
  destruct (bcs_commit_from_bytes bs) as [c|] eqn:Hdec; [|done]. intros Hrun.
  assert (Hstep : (match last l with
    | None => commit_index c = rg_start r
    | Some x => commit_index c = u32_add (commit_index x.2) 1 ∧ commit_previous_digest c = x.1 end) ∧
    (if bool_decide (CommitRange_end r < commit_index c) then ROk l else parse_commits peer r rest (l ++ [(commit_hash bs, c)])) = ROk l').
  { destruct (last l) as [[dg c0]|]; cbn in *; repeat case_bool_decide; try done; naive_solver. }
  clear Hrun. destruct Hstep as [Hnext Hrun].
  assert (Hidx : commit_index c = rg_start r + N.of_nat (length l) ∧ ∀ x, last l = Some x → commit_previous_digest c = x.1).
  { destruct (last l) as [[dg c0]|] eqn:Hlast; [|apply last_None in Hlast as ->; cbn; split; [lia|done]].
    destruct Hnext as [Hi Hp]. split; [|intros x [= <-]; done]. apply last_Some in Hlast as [l0 ->].
    destruct (chain_last _ _ _ _ _ Hl) as [Hc Hlt]. cbn in Hi. rewrite Hi, u32_add_small by (destruct Hr; lia).
    rewrite Hc, length_app. cbn. lia. }
  destruct Hidx as [Hidx Hlink]. case_bool_decide as Hend; [by injection Hrun as <-|].
  assert (Happ : before ++ bs :: rest = (before ++ [bs]) ++ rest) by (by rewrite <-app_assoc). rewrite Happ in Hl |- *.
  destruct (IH (before ++ [bs]) (l ++ [(commit_hash bs, c)])) as [Hc Hp]; [| |done|].
  - rewrite <-Happ in Hl |- *. apply chain_snoc; [done..|unfold CommitRange_end, saturating_sub in Hend; destruct Hr; lia|done].
  - rewrite !length_app. cbn. lia.
  - split; [done|]. etrans; [|done]. by apply prefix_app_r.
Qed.
End parsing.

(** ** What a fetch brings *)

(** A block as it was read from its bytes. *)
Definition parsed `{BlockCodec} (b : VerifiedBlock) : Prop :=
  bcs_from_bytes (vb_serialized b) = Some (vb_signed b) ∧ b = VerifiedBlock_new_verified (vb_signed b) (vb_serialized b).

(** Commits of a range: a first part of it, with their blocks. *)
Record fetched_for `{BlockCodec} (r : CommitRange) (commits : CertifiedCommits) : Prop := {
  ff_nonempty : ccs_commits commits ≠ [];
  ff_consecutive : consecutive (rg_start r) (cc_commit <$> ccs_commits commits);
  ff_end : rg_start r + N.of_nat (length (ccs_commits commits)) ≤ rg_end r;
  ff_blocks : Forall (λ cc, vb_reference <$> cc_blocks cc = tc_blocks (cc_commit cc) ∧ Forall parsed (cc_blocks cc)) (ccs_commits commits);
}.

Section fetched.
Context {S : Type} `{Store S} `{CommitCodec} `{BlockCodec} `{Crypto} `{TransactionVerifier}.
Context (ctx : Context) (params : Parameters) (verifier : SignedBlockVerifier).
Implicit Types (c : Core S).
Abbreviation cm := (ctx_committee ctx).

(** The trusted commits made of a chain. *)
Definition trusted (l : list (CommitDigest * Commit)) (serialized : list bytes) : list TrustedCommit :=
  zip_with (λ '(_, commit) bs, TrustedCommit_new_trusted commit bs) l serialized.

Lemma trusted_lookup r serialized l k : chain r serialized l →
  trusted l serialized !! k = (λ '(_, commit), TrustedCommit_new_trusted commit (default [] (serialized !! k))) <$> l !! k.
Proof.
  intros Hl. unfold trusted. rewrite lookup_zip_with. destruct (l !! k) as [[digest commit]|] eqn:Hk; [|done]. cbn.
  destruct (ch_parsed _ _ _ Hl k digest commit Hk) as (bs & Hbs & _). by rewrite Hbs.
Qed.
Lemma trusted_length r serialized l : chain r serialized l → length (trusted l serialized) = length l.
Proof.
  intros Hl. unfold trusted. rewrite length_zip_with. destruct l as [|x l _] using rev_ind; [done|].
  destruct x as [digest commit]. destruct (ch_parsed _ _ _ Hl (length l) digest commit) as (bs & Hbs & _);
    [by rewrite lookup_app_r, Nat.sub_diag by lia|]. apply lookup_lt_Some in Hbs. rewrite length_app in *. cbn in *. lia.
Qed.
Lemma trusted_consecutive r serialized l : chain r serialized l → consecutive (rg_start r) (trusted l serialized).
Proof.
  intros Hl k t. rewrite (trusted_lookup r) by done. destruct (l !! k) as [[digest commit]|] eqn:Hk; [|done]. cbn. intros [= <-].
  by destruct (ch_parsed _ _ _ Hl k digest commit Hk) as (bs & _ & _ & _ & Hi & _).
Qed.
Lemma chain_fits r serialized l : chain r serialized l → rg_start r ≤ rg_end r → rg_start r + N.of_nat (length l) ≤ rg_end r.
Proof.
  intros Hl Hr. destruct l as [|[digest commit] l _] using rev_ind; [cbn; lia|].
  destruct (chain_last _ _ _ _ _ Hl) as [Hi Hlt]. rewrite length_app. cbn. lia.
Qed.

(** Accepted commits come from a chain. *)
Lemma verify_commits_chain c peer r serialized_commits serialized_blocks c' commits votes : range_ok r →
  verify_commits ctx verifier c peer r serialized_commits serialized_blocks = Done (c', ROk (commits, votes)) →
  ∃ l digest commit agg, chain r serialized_commits l ∧ last l = Some (digest, commit) ∧ commits = trusted l serialized_commits ∧
    verify_vote_blocks ctx verifier c (mk_commit_ref (commit_index commit) digest) serialized_blocks StakeAggregator_new [] =
      Done (c', ROk (agg, votes)) ∧ StakeAggregator_reached_threshold agg cm = true.
Proof.
  intros Hr. unfold verify_commits. destruct (parse_commits peer r serialized_commits []) as [l|e] eqn:Hparse; [|done].
  destruct (parse_commits_spec peer r [] serialized_commits [] l Hr) as [Hl _]; [|done|done|].
  { by split. }
  destruct (last l) as [[digest commit]|] eqn:Hlast; [|done]. intros ([c1 res] & Hrun & Hres)%bind_Done.
  destruct res as [[agg vs]|e]; [|done]. destruct (StakeAggregator_reached_threshold agg cm) eqn:Hq; [|done].
  cbn in Hres. injection Hres as -> <- ->. exists l, digest, commit, agg. done.
Qed.

(** Answers with blocks that match. *)
Lemma match_blocks_spec target requests signed serialized blocks : mapM bcs_from_bytes serialized = Some signed →
  length requests = length serialized → match_blocks target requests signed serialized = ROk blocks →
  vb_reference <$> blocks = requests ∧ Forall (λ b, parsed b ∧ vb_serialized b ∈ serialized) blocks.
Proof.
  intros Hdec%mapM_Some. revert requests blocks. induction Hdec as [|bs sb serialized signed Hbs _ IH]; intros [|r requests] blocks Hlen; try done.
  { intros [= <-]. done. }
  cbn in *. case_bool_decide as Hr; [done|]. intros (rest & Hrest & [= <-])%result_bind_ROk.
  destruct (IH requests rest) as [Hm Hp]; [lia|done|]. cbn. split; [by rewrite Hm, Hr|]. constructor; [split; [done|by left]|].
  eapply Forall_impl; [exact Hp|]. intros b [? ?]. split; [done|by right].
Qed.

(** Blocks of a map are at their references, and were read from an answer. *)
Definition answered (responses : nat → ConsensusResult (list bytes)) (b : VerifiedBlock) : Prop :=
  parsed b ∧ ∃ n l, responses n = ROk l ∧ vb_serialized b ∈ l.
Definition content (responses : nat → ConsensusResult (list bytes)) (m : gmap BlockRef VerifiedBlock) : Prop :=
  ∀ r b, m !! r = Some b → vb_reference b = r ∧ answered responses b.

Lemma collect_chunks_spec target requests all responses m m' : content all m → (∀ n, ∃ n', responses n = all n') →
  collect_chunks target requests responses m = ROk m' → content all m'.
Proof.
  revert responses m. induction requests as [|request requests IH]; intros responses m Hm Hall; cbn; [by intros [= <-]|].
  intros (blocks & Hchunk & Hrun)%result_bind_ROk. eapply IH; [| |exact Hrun]; [|intros n; apply Hall].
  unfold check_chunk in Hchunk. apply result_bind_ROk in Hchunk as (serialized & Hser & Hchunk). case_bool_decide as Hlen; [done|].
  destruct (mapM bcs_from_bytes serialized) as [signed|] eqn:Hdec; [|done].
  destruct (match_blocks_spec _ _ _ _ _ Hdec Hlen Hchunk) as [_ Hp]. assert (Ha : Forall (answered all) blocks).
  { eapply Forall_impl; [exact Hp|]. intros b [Hb Hin]. split; [done|]. destruct (Hall O) as [n' Hn']. exists n', serialized. by rewrite <-Hn'. }
  clear -Hm Ha. rename Ha into Hp.
  revert m Hm. induction Hp as [|b blocks Hb _ IH]; intros m Hm; [done|]. cbn. apply IH.
  intros r b'. rewrite lookup_insert_Some. intros [[<- <-]|[_ ?]]; [done|by apply Hm].
Qed.

Lemma assign_spec responses m commits m' ccs acc : content responses m → for_each assign_blocks (m, acc) commits = Done (m', ccs) →
  ∃ new, ccs = acc ++ new ∧ cc_commit <$> new = commits ∧
    Forall (λ cc, vb_reference <$> cc_blocks cc = tc_blocks (cc_commit cc) ∧ Forall (answered responses) (cc_blocks cc)) new.
Proof.
  revert m acc. induction commits as [|commit commits IH]; intros m acc Hm; cbn [for_each].
  { intros [= _ <-]. exists []. by rewrite app_nil_r. }
  intros ([m1 acc1] & Hstep & Hrun)%bind_Done. unfold assign_blocks in Hstep.
  apply bind_Done in Hstep as ([m2 blocks] & Htake & [= <- <-]).
  assert (Htaken : content responses m2 ∧ vb_reference <$> blocks = tc_blocks commit ∧ Forall (answered responses) blocks).
  { assert (Hgen : ∀ refs m bs, content responses m → Forall (answered responses) bs → for_each (λ '(m, blocks) block_ref,
        block ← expect (m !! block_ref); Done (delete block_ref m, blocks ++ [block])) (m, bs) refs = Done (m2, blocks) →
      content responses m2 ∧ vb_reference <$> blocks = (vb_reference <$> bs) ++ refs ∧ Forall (answered responses) blocks).
    { clear. intros refs. induction refs as [|r refs IH]; intros m bs Hm Hbs; cbn [for_each].
      - intros [= <- <-]. by rewrite app_nil_r.
      - destruct (m !! r) as [b|] eqn:Hb; cbn; [|done]. destruct (Hm r b Hb) as [Href Hp]. intros Hrun.
        apply IH in Hrun as (? & Hr & ?); [|intros r' b' [_ ?]%lookup_delete_Some; by apply Hm|apply Forall_app; auto].
        rewrite Hr, fmap_app, <-app_assoc. cbn. by rewrite Href. }
    by apply (Hgen (tc_blocks commit) m []). }
  destruct Htaken as (Hm2 & Hrefs & Hp). destruct (IH m2 _ Hm2 Hrun) as (new & -> & <- & Hnew).
  exists (mk_certified_commit commit blocks :: new). rewrite <-app_assoc. split; [done|]. split; [done|]. by constructor.
Qed.

Lemma fetch_once_result c target r commits_response blocks_responses now c' commits : range_ok r →
  fetch_once ctx params verifier c target r commits_response blocks_responses now = Done (c', ROk commits) → fetched_for r commits.
Proof.
  intros Hr. unfold fetch_once. destruct commits_response as [[sc sb]|e]; [|done]. intros ([c1 res] & Hver & Hrun)%bind_Done.
  destruct res as [[trusted_commits votes]|e]; [|done].
  destruct (verify_commits_chain _ _ _ _ _ _ _ _ Hr Hver) as (l & digest & commit & agg & Hl & Hlast & -> & _).
  unfold certify_commits in Hrun. apply bind_Done in Hrun as (requests & _ & Hrun).
  destruct (collect_chunks target requests blocks_responses ∅) as [m|e] eqn:Hcol; [|done].
  apply (collect_chunks_spec _ _ blocks_responses) in Hcol; [|by intros ? ? ?%lookup_empty_Some|by eauto].
  apply bind_Done in Hrun as (_ & _ & Hrun). apply bind_Done in Hrun as ([m' ccs] & Has & Hrun).
  apply bind_Done in Hrun as (c2 & _ & [= _ <-]). destruct (assign_spec _ _ _ _ _ _ Hcol Has) as (new & -> & Hnew & Hb). cbn.
  assert (Hlen : length new = length l) by (rewrite <-(trusted_length r sc l), <-Hnew, length_fmap by done; done).
  split; cbn; [|rewrite Hnew; by apply trusted_consecutive|rewrite Hlen; apply (chain_fits r sc); [done|destruct Hr; lia]|].
  2:{ eapply Forall_impl; [exact Hb|]. intros cc [? Hp]. split; [done|]. eapply Forall_impl; [exact Hp|]. by intros b []. }
  intros ->. destruct l; [done|]. cbn in Hlen. lia.
Qed.
End fetched.

(** ** The schedule *)

Section schedule.
Context {S : Type} `{Store S} `{CommitCodec} `{BlockCodec} `{Crypto} `{TransactionVerifier}.
Context (ctx : Context) (params : Parameters) (verifier : SignedBlockVerifier).
Implicit Types (s : CommitSyncer) (r : CommitRange) (i : CommitIndex) (d : DagState S).
Abbreviation scheduled s := (default 0 (sy_highest_scheduled_index s)).
Abbreviation synced := sy_synced_commit_index.
Abbreviation batch := (pm_commit_sync_batch_size params).

(** The ranges that the syncer has at hand: to be fetched, being fetched,
    fetched and kept, or given to the core. *)
Definition holds s r : Prop :=
  r ∈ sy_pending_fetches s ∨ r ∈ (sy_inflight_fetches s).*1 ∨ is_Some (sy_fetched_ranges s !! r) ∨ sy_sent s = Some r.
Definition covers r i : Prop := CommitRange_start r ≤ i ≤ CommitRange_end r.

Record sync_inv s : Prop := {
  sn_bound : scheduled s < u32_max;
  sn_synced : synced s < u32_max;
  sn_range r : holds s r → range_ok r ∧ rg_end r ≤ scheduled s + 1;
  sn_covered i : synced s < i → i ≤ scheduled s → ∃ r, holds s r ∧ covers r i;
  sn_done r commits : (r, Some commits) ∈ sy_inflight_fetches s → fetched_for r commits;
  sn_fetched r commits : sy_fetched_ranges s !! r = Some commits →
    fetched_for r commits ∧ rg_start r + N.of_nat (length (ccs_commits commits)) = rg_end r;
  sn_sent r : sy_sent s = Some r → CommitRange_start r ≤ synced s + 1 ∧ synced s < CommitRange_end r;
}.

Lemma covers_alt r i : range_ok r → covers r i ↔ rg_start r ≤ i < rg_end r.
Proof. unfold covers, CommitRange_start, CommitRange_end, saturating_sub, range_ok. lia. Qed.
Lemma range_new first last : 0 < first ≤ last → last < u32_max →
  range_ok (CommitRange_new first last) ∧ rg_start (CommitRange_new first last) = first ∧ rg_end (CommitRange_new first last) = last + 1.
Proof. unfold range_ok, CommitRange_new, u32_saturating_add. cbn. lia. Qed.

(** A step that keeps what is scheduled and hands every range that is still
    needed on. *)
Lemma inv_change s s' : sync_inv s → scheduled s' = scheduled s → synced s ≤ synced s' → synced s' < u32_max →
  (∀ r, holds s' r → range_ok r ∧ rg_end r ≤ scheduled s + 1) →
  (∀ r i, holds s r → covers r i → synced s' < i → ∃ r', holds s' r' ∧ covers r' i) →
  (∀ r commits, (r, Some commits) ∈ sy_inflight_fetches s' → fetched_for r commits) →
  (∀ r commits, sy_fetched_ranges s' !! r = Some commits →
    fetched_for r commits ∧ rg_start r + N.of_nat (length (ccs_commits commits)) = rg_end r) →
  (∀ r, sy_sent s' = Some r → CommitRange_start r ≤ synced s' + 1 ∧ synced s' < CommitRange_end r) → sync_inv s'.
Proof.
  clear. intros Hs Hh Hsy Hmax Hr Hc Hd Hf Hsent. split; try done; [rewrite Hh; apply Hs|by rewrite Hh|].
  intros i Hi. rewrite Hh. intros Hle. destruct (sn_covered _ Hs i) as (r & Hr' & Hci); [lia|done|]. by apply (Hc r).
Qed.

Lemma syncer_new_inv d : last_commit_index d < u32_max → sync_inv (CommitSyncer_new d).
Proof.
  clear. intros Hd. split; cbn; try done.
  - intros r Hr. unfold holds in Hr. cbn in Hr. destruct Hr as [?%elem_of_empty|[?%elem_of_nil|[[? ?%lookup_empty_Some]|?]]]; done.
  - intros i. lia.
  - by intros r c ?%elem_of_nil.
Qed.

Lemma synced_inv s k : sync_inv s → sy_sent s = None → k < u32_max → sync_inv (set_sy_synced_commit_index (N.max (synced s) k) s).
Proof.
  clear. intros Hs Hsent Hk. apply (inv_change s); try done; cbn; [lia|pose proof (sn_synced _ Hs); lia|apply Hs|by eauto|apply Hs|apply Hs|].
  intros r Hr. congruence.
Qed.

Lemma schedule_loop_inv turns s handled quorum prev : sync_inv s → sy_sent s = None → 0 < batch → quorum + batch < u32_max →
  prev = N.max (synced s) (scheduled s) → sync_inv (schedule_loop params turns s handled quorum prev).
Proof.
  clear. revert s prev. induction turns as [|turns IH]; intros s prev Hs Hsent Hb Hq Hprev; [done|]. cbn [schedule_loop].
  case_bool_decide as Hz1; [done|]. rewrite (u32_add_small prev 1), (u32_add_small prev batch) by (unfold u32_max in *; lia).
  case_bool_decide as Hz2; [done|]. case_bool_decide as Hz3; [done|].
  destruct (range_new (prev + 1) (prev + batch)) as (Hok & Hst & Hen); [lia|lia|]. set (new := CommitRange_new (prev + 1) (prev + batch)) in *.
  apply IH; [|done|done|done|cbn; lia].
  assert (Hold : ∀ r, holds s r → holds (set_sy_highest_scheduled_index (Some (prev + batch))
    (set_sy_pending_fetches ({[new]} ∪ sy_pending_fetches s) s)) r)
    by (intros r [Hr|Hr]; [left; cbn; by apply elem_of_union_r|by right]).
  split; cbn; [lia|apply Hs| | |apply Hs|apply Hs|apply Hs].
  - intros r Hr. assert (r = new ∨ holds s r) as [->|Hr'].
    { destruct Hr as [[Hr%elem_of_singleton|Hr]%elem_of_union|Hr]; [left; exact Hr|right; left; exact Hr|right; right; exact Hr]. }
    { split; [done|lia]. }
    destruct (sn_range _ Hs r Hr'). split; [done|lia].
  - intros i Hi Hle. destruct (decide (i ≤ scheduled s)) as [Hi'|Hi'].
    + destruct (sn_covered _ Hs i Hi Hi') as (r & Hr & Hc). eauto.
    + exists new. split; [left; cbn; by apply elem_of_union_l, elem_of_singleton|]. apply covers_alt; [done|]. lia.
Qed.

Lemma start_fetches_inv turns target s : sync_inv s → sync_inv (start_fetches turns target s).
Proof.
  clear. revert s. induction turns as [|turns IH]; intros s Hs; [done|]. cbn [start_fetches]. case_bool_decide; [done|].
  destruct (set_first (sy_pending_fetches s)) as [r0|] eqn:Hfirst; [|done]. apply IH.
  apply set_first_Some in Hfirst as [Hr0 _].
  assert (Hh : ∀ r, holds (set_sy_inflight_fetches (sy_inflight_fetches s ++ [(r0, None)])
    (set_sy_pending_fetches (sy_pending_fetches s ∖ {[r0]}) s)) r ↔ holds s r).
  { intros r. unfold holds. cbn. rewrite fmap_app, elem_of_app, elem_of_difference, elem_of_singleton. cbn. rewrite list_elem_of_singleton.
    split; [intros [[? _]|[[?| ->]|?]]; auto|]. intros [Hr|[?|?]]; auto. destruct (decide (r = r0)) as [->|]; auto. }
  apply (inv_change s); try done; cbn.
  - apply Hs.
  - intros r Hr%Hh. by apply Hs.
  - intros r i Hr Hc _. exists r. split; [by apply Hh|done].
  - intros r commits [Hin|Hin%list_elem_of_singleton]%elem_of_app; [by apply Hs|done].
  - apply Hs.
  - apply Hs.
Qed.

(** The next commits for the core start no later than the first commit that is
    not synced, and reach past it. *)
Lemma next_fetched_inv turns s s' next : sync_inv s → sy_sent s = None → next_fetched turns s = (s', next) →
  synced s' = synced s ∧ sy_sent s' = None ∧
  match next with
  | None => sync_inv s'
  | Some (r, commits) => sync_inv (set_sy_sent (Some r) s') ∧ fetched_for r commits ∧
      rg_start r + N.of_nat (length (ccs_commits commits)) = rg_end r
  end.
Proof.
  clear. revert s. induction turns as [|turns IH]; intros s Hs Hsent; cbn [next_fetched]; [by intros [= <- <-]|].
  destruct (map_first (sy_fetched_ranges s)) as [[r commits]|] eqn:Hfirst; [|by intros [= <- <-]].
  apply map_first_Some in Hfirst as [Hr _]. pose proof (sn_synced _ Hs) as Hsy. rewrite u32_add_small by (unfold u32_max in *; lia).
  destruct (sn_range _ Hs r ltac:(right; right; left; by eexists)) as [Hok Hend].
  case_bool_decide as Hstart; [|by intros [= <- <-]].
  set (s1 := set_sy_fetched_ranges (delete r (sy_fetched_ranges s)) s).
  assert (Hh : ∀ r', holds s1 r' → holds s r').
  { intros r' [?|[?|[[x Hx]|?]]]; [by left|right; by left| |by do 3 right]. cbn in Hx. apply lookup_delete_Some in Hx as [_ Hx].
    right; right; left. by eexists. }
  assert (Hb : ∀ r', holds s r' → r' = r ∨ holds s1 r').
  { intros r' [?|[?|[[x Hx]|?]]]; [right; by left|right; right; by left| |right; by do 3 right].
    destruct (decide (r' = r)) as [->|Hne]; [by left|]. right; right; right; left. cbn. exists x. by rewrite lookup_delete_ne. }
  case_bool_decide as Hdone.
  - intros Hrun. apply (IH s1); [|done|done]. apply (inv_change s); try done; cbn.
    + intros r' Hr'%Hh. by apply Hs.
    + intros r' i Hr' Hc Hi. destruct (Hb r' Hr') as [->|?]; [|by eauto]. destruct Hc as [_ Hc]. cbn in Hdone. lia.
    + apply Hs.
    + intros r' cs [_ Hcs]%lookup_delete_Some. by apply Hs.
    + apply Hs.
  - intros [= <- <-]. split; [done|]. split; [done|]. split; [|by apply Hs]. apply (inv_change s); try done; cbn.
    + intros r' Hr'. assert (r' = r ∨ holds s r') as [->|?]; [|done|by apply Hs].
      destruct Hr' as [?|[?|[?|[= ->]]]]; [..|by left]; right; apply Hh; [by left|right; by left|right; right; by left].
    + intros r' i Hr' Hc Hi. exists r'. split; [|done]. destruct (Hb r' Hr') as [->|Hr1]; [by do 3 right|].
      destruct Hr1 as [?|[?|[?|Hno]]]; [by left|right; by left|right; right; by left|]. cbn in Hno. congruence.
    + apply Hs.
    + intros r' cs [_ Hcs]%lookup_delete_Some. by apply Hs.
    + intros r' [= <-]. cbn in Hdone. lia.
Qed.

Lemma next_fetched_sent turns s x : next_fetched turns (set_sy_sent x s) =
  let '(s', next) := next_fetched turns s in (set_sy_sent x s', next).
Proof.
  clear. revert s. induction turns as [|turns IH]; intros s; cbn [next_fetched]; [done|]. cbn.
  destruct (map_first (sy_fetched_ranges s)) as [[r commits]|]; [|done]. repeat case_bool_decide; try done.
  exact (IH (set_sy_fetched_ranges (delete r (sy_fetched_ranges s)) s)).
Qed.

(** What the syncer gives to the core with a step. *)
Definition gives (t t' : CoreThread S) s' : Prop :=
  t' = t ∨ ∃ r commits sender, sy_sent s' = Some r ∧ fetched_for r commits ∧
    rg_start r + N.of_nat (length (ccs_commits commits)) = rg_end r ∧ dispatch_add_certified_commits t commits sender = Done t'.

Lemma continue_inv s t sender s' t' : sync_inv (set_sy_sent None s) → continue_fetched ctx params s t sender = Done (s', t') →
  sync_inv s' ∧ gives t t' s'.
Proof.
  intros Hs. unfold continue_fetched. destruct (next_fetched (Datatypes.S (size (sy_fetched_ranges s))) s) as [s1 next] eqn:Heq.
  assert (Hn : next_fetched (Datatypes.S (size (sy_fetched_ranges s))) (set_sy_sent None s) = (set_sy_sent None s1, next))
    by (by rewrite next_fetched_sent, Heq).
  destruct (next_fetched_inv _ _ _ _ Hs eq_refl Hn) as (_ & _ & Hnext). destruct next as [[r commits]|].
  - intros (t1 & Hd & [= <- <-])%bind_Done. destruct Hnext as (Hinv & Hff & Hlen). split; [done|]. right. by exists r, commits, sender.
  - intros [= <- <-]. split; [|by left]. by apply start_fetches_inv.
Qed.

Lemma elem_of_delete_1 {A} (l : list A) (k : nat) x : x ∈ delete k l → x ∈ l.
Proof.
  rewrite delete_take_drop. intros [Hx|Hx]%elem_of_app; [by apply elem_of_take in Hx as (j & ?%list_elem_of_lookup_2 & _)|].
  apply list_elem_of_lookup_1 in Hx as [j Hj]. rewrite lookup_drop in Hj. by apply list_elem_of_lookup_2 in Hj.
Qed.
Lemma elem_of_delete_2 {A} (l : list A) (j k : nat) x : l !! j = Some x → j ≠ k → x ∈ delete k l.
Proof.
  intros Hj Hne. rewrite delete_take_drop. apply elem_of_app. destruct (decide (j < k)%nat).
  - left. apply elem_of_take. by exists j.
  - right. apply (list_elem_of_lookup_2 _ (j - Datatypes.S k)). rewrite lookup_drop. rewrite <-Hj. f_equal. lia.
Qed.

(** Commits that arrived take the place of their range; the rest of the range
    is scheduled again. *)
Lemma record_fetched_inv s d (k : nat) r commits s' : sync_inv s → sy_sent s = None → last_commit_index d < u32_max →
  sy_inflight_fetches s !! k = Some (r, Some commits) →
  record_fetched (set_sy_inflight_fetches (delete k (sy_inflight_fetches s)) s) d (CommitRange_end r) commits = Done s' →
  sync_inv s' ∧ sy_sent s' = None.
Proof.
  clear. intros Hs Hsent Hd Hk. pose proof (list_elem_of_lookup_2 _ _ _ Hk) as Hin.
  destruct (sn_range _ Hs r) as [Hok Hend]; [right; left; by apply (list_elem_of_fmap_2 fst) in Hin|].
  pose proof (sn_done _ Hs r commits Hin) as Hff. pose proof Hff as [Hne Hcon Hle Hbl].
  unfold record_fetched. destruct (last (ccs_commits commits)) as [cc|] eqn:Hlst; [|by apply last_None in Hlst].
  destruct (head (ccs_commits commits)) as [cc0|] eqn:Hhead; [|done].
  assert (Hfirst : tc_index (cc_commit cc0) = rg_start r).
  { rewrite head_lookup in Hhead. rewrite (Hcon O (cc_commit cc0)) by (by rewrite list_lookup_fmap, Hhead). lia. }
  assert (Hpos : (0 < length (ccs_commits commits))%nat) by (destruct (ccs_commits commits); [done|cbn; lia]).
  assert (Hlast : tc_index (cc_commit cc) + 1 = rg_start r + N.of_nat (length (ccs_commits commits))).
  { rewrite last_lookup in Hlst. rewrite (Hcon _ (cc_commit cc)) by (by rewrite list_lookup_fmap, Hlst). lia. }
  rewrite Hfirst. set (e := tc_index (cc_commit cc)) in *. clearbody e. destruct Hok as [Hlt Hmax].
  pose proof (sn_bound _ Hs) as Hbound. pose proof (sn_synced _ Hs) as Hsyn.
  destruct (range_new (rg_start r) e) as (Hok1 & Hs1 & He1); [lia|lia|]. set (r1 := CommitRange_new (rg_start r) e) in *. clearbody r1.
  rewrite u32_add_small by (unfold u32_max in *; lia).
  set (last := CommitRange_end r) in *. assert (Hl : last + 1 = rg_end r) by (unfold last, CommitRange_end, saturating_sub; lia). clearbody last.
  assert (Hr2 : e < last → ∃ r2, CommitRange_new (e + 1) last = r2 ∧ range_ok r2 ∧ rg_start r2 = e + 1 ∧ rg_end r2 = rg_end r).
  { intros Hel. destruct (range_new (e + 1) last) as (? & ? & ?); [lia|lia|]. eexists. split; [done|]. split; [done|]. split; [done|]. lia. }
  assert (Hff1 : fetched_for r1 commits ∧ rg_start r1 + N.of_nat (length (ccs_commits commits)) = rg_end r1).
  { split; [|lia]. split; [done|by rewrite Hs1|lia|done]. }
  set (s0 := mk_syncer (delete k (sy_inflight_fetches s))
    (if bool_decide (e < last) then {[CommitRange_new (e + 1) last]} ∪ sy_pending_fetches s else sy_pending_fetches s)
    (if bool_decide (N.max (synced s) (last_commit_index d) < e) then <[r1 := commits]> (sy_fetched_ranges s) else sy_fetched_ranges s)
    (sy_highest_scheduled_index s) (N.max (sy_highest_fetched_commit_index s) e) (N.max (synced s) (last_commit_index d)) (sy_sent s) (sy_running s)).
  intros Hrun. assert (s' = s0) as ->.
  { unfold s0. clear s0. destruct (bool_decide (e < last)); cbn in Hrun;
      destruct (bool_decide (N.max (synced s) (last_commit_index d) < e)); by injection Hrun as <-. }
  clear Hrun. split; [|done]. apply (inv_change s); try done; cbn.
  - lia.
  - lia.
  - intros r' Hr'. unfold holds, s0 in Hr'. cbn in Hr'.
    assert (Hcase : (r' = r1 ∨ e < last ∧ r' = CommitRange_new (e + 1) last) ∨ holds s r').
    { destruct Hr' as [Hr'|[Hr'|[[x Hx]|Hr']]].
      - case_bool_decide; [|right; by left]. apply elem_of_union in Hr' as [Hr'%elem_of_singleton|Hr']; [by left; right|right; by left].
      - right; right; left. apply list_elem_of_fmap in Hr' as (p & -> & Hp). apply list_elem_of_fmap_2.
        by eapply elem_of_delete_1.
      - case_bool_decide; [|right; right; right; left; by eexists].
        apply lookup_insert_Some in Hx as [[<- _]|[_ Hx]]; [by left; left|right; right; right; left; by eexists].
      - right; by do 3 right. }
    destruct Hcase as [[->|[Hel ->]]|Hr1]; [split; [done|lia]| |by apply Hs].
    destruct (Hr2 Hel) as (r2 & -> & Hok2 & _ & He2). split; [done|]. by rewrite He2.
  - intros r' i Hr' Hc Hi. destruct (decide (r' = r)) as [->|Hne'].
    + apply covers_alt in Hc; [|by split]. destruct (decide (i ≤ e)) as [Hie|Hie].
      * exists r1. split; [|apply covers_alt; [done|lia]]. right; right; left. cbn. rewrite bool_decide_eq_true_2 by lia.
        rewrite lookup_insert_eq. by eexists.
      * assert (Hel : e < last) by lia. destruct (Hr2 Hel) as (r2 & Hr2' & Hok2 & Hs2 & He2). exists r2.
        split; [|apply covers_alt; [done|lia]]. left. cbn. rewrite bool_decide_eq_true_2 by done. rewrite Hr2'. set_solver.
    + exists r'. split; [|done]. unfold holds, s0. cbn. destruct Hr' as [Hr'|[Hr'|[Hr'|Hr']]].
      * left. case_bool_decide; [set_solver|done].
      * right; left. apply list_elem_of_fmap in Hr' as ([r0 o] & -> & Hp). apply list_elem_of_lookup_1 in Hp as [j Hj].
        assert (j ≠ k) by (intros ->; rewrite Hk in Hj; injection Hj as <- _; done).
        apply (list_elem_of_fmap_2 fst _ (r0, o)). by eapply elem_of_delete_2.
      * right; right; left. case_bool_decide; [|done]. destruct (decide (r' = r1)) as [->|]; [by rewrite lookup_insert_eq|].
        by rewrite lookup_insert_ne.
      * by do 3 right.
  - intros r' cs Hr'%elem_of_delete_1. by apply Hs.
  - intros r' cs. case_bool_decide; [|apply Hs]. intros [[<- <-]|[_ ?]]%lookup_insert_Some; [done|by apply Hs].
  - intros r' Hr'. congruence.
Qed.

(** ** The states of the syncer *)

(** Whatever the network answers, and whatever the other tasks do to the
    monitor, the DAG state and the core thread. Indices are away from the
    largest one. *)
Inductive syncing : CommitSyncer → Prop :=
| sg_new d : last_commit_index d < u32_max → syncing (CommitSyncer_new d)
| sg_interval s monitor d consumer s' : syncing s → sy_sent s = None → last_commit_index d < u32_max →
    quorum_commit_index ctx monitor + batch < u32_max → on_interval ctx params s monitor d consumer = Done s' → syncing s'
| sg_attempt s (c : Core S) k authority commits_response blocks_responses now s' c' : syncing s →
    fetch_attempt ctx params verifier s c k authority commits_response blocks_responses now = Done (s', c') → syncing s'
| sg_fetched s (t : CoreThread S) k sender s' t' : syncing s → sy_sent s = None → last_commit_index (co_dag_state (ct_core t)) < u32_max →
    on_fetched ctx params s t k sender = Done (s', t') → syncing s'
| sg_added s (t : CoreThread S) r missing sender s' t' : syncing s → sy_sent s = Some r →
    on_added ctx params s t (Some missing) sender = Done (s', t') → syncing s'.

Lemma interval_inv s monitor d consumer s' : sync_inv s → sy_sent s = None → last_commit_index d < u32_max →
  quorum_commit_index ctx monitor + batch < u32_max → on_interval ctx params s monitor d consumer = Done s' → sync_inv s'.
Proof.
  intros Hs Hsent Hd Hq (s1 & Hrun & [= <-])%bind_Done. apply start_fetches_inv. unfold try_schedule_once in Hrun.
  destruct (bool_decide_reflect (batch = 0)) as [|Hb]; [done|]. cbn -[schedule_loop] in Hrun.
  set (x := schedule_loop _ _ _ _ _ _) in Hrun. assert (Hx : sync_inv x).
  { apply (schedule_loop_inv _ (set_sy_synced_commit_index (N.max (synced s) (last_commit_index d)) s)); [by apply synced_inv|done|lia|done|done]. }
  clearbody x. by injection Hrun as <-.
Qed.

Lemma attempt_inv s (c c' : Core S) k authority commits_response blocks_responses now s' : sync_inv s →
  fetch_attempt ctx params verifier s c k authority commits_response blocks_responses now = Done (s', c') → sync_inv s'.
Proof.
  intros Hs. unfold fetch_attempt. destruct (sy_inflight_fetches s !! k) as [[r [|]]|] eqn:Hk; [by intros [= <- _]| |by intros [= <- _]].
  intros ([c1 result] & Hrun & Hres)%bind_Done. destruct result as [commits|e]; [|by apply bind_Done in Hres as (? & _ & [= <- _])].
  injection Hres as <- _. pose proof (list_elem_of_lookup_2 _ _ _ Hk) as Hin.
  destruct (sn_range _ Hs r) as [Hok _]; [right; left; by apply (list_elem_of_fmap_2 fst) in Hin|].
  pose proof (fetch_once_result _ _ _ _ _ _ _ _ _ _ _ Hok Hrun) as Hff.
  assert (Hfst : (<[k := (r, Some commits)]> (sy_inflight_fetches s)).*1 = (sy_inflight_fetches s).*1).
  { rewrite list_fmap_insert. apply list_insert_id. by rewrite list_lookup_fmap, Hk. }
  assert (Hh : ∀ r', holds (set_sy_inflight_fetches (<[k := (r, Some commits)]> (sy_inflight_fetches s)) s) r' ↔ holds s r')
    by (intros r'; unfold holds; cbn; by rewrite Hfst).
  apply (inv_change s); try done; cbn.
  - apply Hs.
  - intros r' Hr'%Hh. by apply Hs.
  - intros r' i Hr' Hc _. exists r'. split; [by apply Hh|done].
  - intros r' cs (j & Hj)%list_elem_of_lookup_1. destruct (decide (j = k)) as [->|Hne].
    + rewrite list_lookup_insert_eq in Hj by (by apply lookup_lt_Some in Hk). by injection Hj as <- <-.
    + rewrite list_lookup_insert_ne in Hj by done. apply list_elem_of_lookup_2 in Hj. by apply Hs.
  - apply Hs.
  - apply Hs.
Qed.

Lemma fetched_inv s (t : CoreThread S) k sender s' t' : sync_inv s → sy_sent s = None → last_commit_index (co_dag_state (ct_core t)) < u32_max →
  on_fetched ctx params s t k sender = Done (s', t') → sync_inv s' ∧ gives t t' s'.
Proof.
  intros Hs Hsent Hd. unfold on_fetched. destruct (sy_inflight_fetches s !! k) as [[r [commits|]]|] eqn:Hk;
    [|intros [= <- <-]; split; [done|by left]..].
  intros (s1 & Hrec & Hcont)%bind_Done. destruct (record_fetched_inv s _ k r commits s1 Hs Hsent Hd Hk Hrec) as [Hs1 Hn].
  apply (continue_inv s1 t sender); [|done]. destruct s1. cbn in *. by subst.
Qed.

Lemma added_inv s (t : CoreThread S) r missing sender s' t' : sync_inv s → sy_sent s = Some r →
  on_added ctx params s t (Some missing) sender = Done (s', t') → sync_inv s' ∧ gives t t' s'.
Proof.
  intros Hs Hsent. unfold on_added. rewrite Hsent. intros (_ & _ & Hcont)%bind_Done. eapply continue_inv; [|exact Hcont].
  destruct (sn_range _ Hs r) as [Hok Hend]; [by do 3 right|]. pose proof (sn_bound _ Hs) as Hb. pose proof (sn_synced _ Hs) as Hsy.
  unfold range_ok in Hok. apply (inv_change s); try done; cbn; [lia|unfold CommitRange_end, saturating_sub; lia| | |apply Hs|apply Hs].
  - intros r' [?|[?|[?|?]]]; [apply Hs; by left|apply Hs; right; by left|apply Hs; right; right; by left|done].
  - intros r' i [?|[?|[?|Hr']]] Hc Hi; [..|rewrite Hsent in Hr'; injection Hr' as <-; destruct Hc; lia];
      exists r'; (split; [|done]); [by left|right; by left|right; right; by left].
Qed.

Lemma syncing_inv s : syncing s → sync_inv s.
Proof.
  induction 1; [by apply syncer_new_inv|by eapply interval_inv|by eapply attempt_inv|by eapply fetched_inv|by eapply added_inv].
Qed.

(** C10: the commit syncer loses no commit and leaves no gap. Whatever the
    network answers, every index after the last synced commit up to the highest
    scheduled one is in a range that is still to be fetched, being fetched,
    fetched and kept, or with the core. What the core is given are consecutive
    commits with the blocks they name, that start no later than the first commit
    that is not synced and reach past it. *)
Theorem synced_without_gaps s : syncing s →
  (∀ i, sy_synced_commit_index s < i → i ≤ default 0 (sy_highest_scheduled_index s) → ∃ r, holds s r ∧ covers r i) ∧
  (∀ r, sy_sent s = Some r → CommitRange_start r ≤ sy_synced_commit_index s + 1 ∧ sy_synced_commit_index s < CommitRange_end r) ∧
  (∀ (t : CoreThread S) k sender s' t', sy_sent s = None → last_commit_index (co_dag_state (ct_core t)) < u32_max →
    on_fetched ctx params s t k sender = Done (s', t') → gives t t' s') ∧
  (∀ (t : CoreThread S) r missing sender s' t', sy_sent s = Some r →
    on_added ctx params s t (Some missing) sender = Done (s', t') → gives t t' s').
Proof.
  intros Hs%syncing_inv. split_and!; [apply Hs|apply Hs| |].
  - intros t k sender s' t' Hsent Hd Hrun. by destruct (fetched_inv s t k sender s' t' Hs Hsent Hd Hrun).
  - intros t r missing sender s' t' Hsent Hrun. by destruct (added_inv s t r missing sender s' t' Hs Hsent Hrun).
Qed.
End schedule.
