(* ===== verification/CoreState.v ===== *)
(** * The DAG state under the core

    The invariant of the DAG state that core relies on, and that every
    operation core makes on it keeps: the view is causally complete, the
    threshold clock shows the round the known blocks justify, hard links and
    committed blocks are closed above the GC round. *)
From S2P Require Import Prelude Committee StakeAggregator Block ThresholdClock Commit LeaderScoring Store DagState DagStateProofs DagTraversal LeaderSchedule BaseCommitter CommitRule DagViews BlockManager BlockManagerProofs BlockManagerSafety Linearizer LinearizerProofs.

#[global] Instance BlockRef_antisymm : AntiSymm (=) (λ x y : BlockRef, Is_true (key_le x y)).
Proof. intros x y. apply key_le_antisymm. Qed.

Lemma StronglySorted_index {A} (R : A → A → Prop) (l : list A) :
  (∀ i j x y, (i < j)%nat → l !! i = Some x → l !! j = Some y → R x y) → StronglySorted R l.
Proof.
  induction l as [|x l IH]; intros HR; constructor.
  - apply IH. intros i j y z Hij Hi Hj. by apply (HR (S i) (S j)); [lia|..].
  - apply Forall_lookup. intros j y Hj. by apply (HR O (S j)); [lia|..].
Qed.

Lemma elem_of_take_while {A} (f : A → bool) (l : list A) x : x ∈ take_while f l → x ∈ l.
Proof.
  induction l as [|y l IH]; simpl; [done|]. destruct (f y); [|by intros ?%elem_of_nil].
  rewrite !elem_of_cons. naive_solver.
Qed.

(** ** What one block changes *)

Section accept.
Context {S : Type} `{StoreLaws S} (ctx : Context).
Implicit Types (d : DagState S).

(** The fields that accepting a block changes, and how. *)
Lemma accept_block_step d b now d' : accept_block ctx d b now = Done d' →
  d' = d ∨
  contains_block d (vb_reference b) = Done false ∧
  ds_recent_blocks d' = <[vb_reference b := BlockInfo_new b]> (ds_recent_blocks d) ∧
  (∃ adv, ThresholdClock_add_block (ctx_committee ctx) (ds_threshold_clock d) (vb_reference b) now =
     Done (ds_threshold_clock d', adv)) ∧
  ds_genesis d' = ds_genesis d ∧ ds_last_commit d' = ds_last_commit d ∧ ds_scoring_subdag d' = ds_scoring_subdag d ∧
  ds_pending_commit_votes d' = ds_pending_commit_votes d.
Proof.
  unfold accept_block, update_block_metadata. intros Hrun.
  repeat (run_inv; try case_match); simpl in *; eauto 10.
Qed.

(** The clock after one block. *)
Lemma clock_step cm clock b now clock' adv : committee_ok cm →
  agg_ok cm (tc_aggregator clock) → Committee_is_valid_index cm (br_author b) → br_round b < u32_max →
  ThresholdClock_add_block cm clock b now = Done (clock', adv) →
  agg_ok cm (tc_aggregator clock') ∧
  (clock' = clock ∧ br_round b < tc_round clock ∨
   tc_round clock' = tc_round clock ∧ br_round b = tc_round clock ∧
     sa_votes (tc_aggregator clock') = {[br_author b]} ∪ sa_votes (tc_aggregator clock) ∨
   tc_round clock' = tc_round clock + 1 ∧ br_round b = tc_round clock ∧
     sa_votes (tc_aggregator clock') = ∅ ∧
     c_quorum_threshold cm ≤ set_stake cm ({[br_author b]} ∪ sa_votes (tc_aggregator clock)) ∨
   tc_round clock < tc_round clock' ∧ tc_round clock' = br_round b ∧
     sa_votes (tc_aggregator clock') = {[br_author b]}).
Proof.
  intros Hok Hagg Hv Hr. unfold ThresholdClock_add_block.
  destruct (N.compare_spec (br_round b) (tc_round clock)) as [Heq|Hlt|Hgt].
  - destruct (StakeAggregator_add_spec cm Hok _ (br_author b) Hagg Hv) as (agg' & -> & Hagg' & Hvotes). simpl.
    destruct (Committee_reached_quorum _ _) eqn:Hq; intros ?; run_inv; simpl.
    + split; [apply agg_ok_new|]. right; right; left. rewrite u32_add_small by lia.
      apply bool_decide_eq_true_1 in Hq. split_and!; [lia|done..].
    + split; [done|]. right; left. done.
  - intros [= <- _]. split; [done|]. by left.
  - destruct (StakeAggregator_add_spec cm Hok (StakeAggregator_clear (tc_aggregator clock)) (br_author b)
      (agg_ok_new cm) Hv) as (agg' & -> & Hagg' & Hvotes). simpl. intros [= <- _]. simpl.
    split; [done|]. right; right; right. split_and!; [done..|]. rewrite Hvotes. simpl. set_solver.
Qed.
End accept.

(** ** The invariant *)

Section dag_ok.
Context {S : Type} `{StoreLaws S} `{BlockCodec} (ctx : Context) (G : BlockRef → option VerifiedBlock).
Context (byz : gset AuthorityIndex) (Hhonest : honest_node (S := S) ctx G byz).
Context (genesis : list VerifiedBlock).
Implicit Types (d : DagState S) (v : StoreView).
Abbreviation cm := (ctx_committee ctx).
Abbreviation clock_round d := (tc_round (ds_threshold_clock d)).

(** What the known blocks say about the clock: no block is above its round,
    and the round is the first one, or has a block, or follows a quorum. *)
Record clock_known d v : Prop := {
  ck_pos : 1 ≤ clock_round d;
  ck_max r : known v d r → br_round r ≤ clock_round d;
  ck_agg : agg_ok cm (tc_aggregator (ds_threshold_clock d));
  ck_votes a : a ∈ sa_votes (tc_aggregator (ds_threshold_clock d)) →
    ∃ r, known v d r ∧ br_round r = clock_round d ∧ br_author r = a;
  ck_why : clock_round d = 1 ∨ (∃ r, known v d r ∧ br_round r = clock_round d) ∨
    ∃ X, c_quorum_threshold cm ≤ set_stake cm X ∧
      ∀ a, a ∈ X → ∃ r, known v d r ∧ br_round r + 1 = clock_round d ∧ br_author r = a;
}.

Definition committed d (r : BlockRef) : Prop :=
  ∃ info, ds_recent_blocks d !! r = Some info ∧ bi_committed info = true.

(** Committed blocks bring their ancestors above the GC round with them, and
    nothing above the last leader is committed. *)
Record commits_closed d : Prop := {
  cc_closed r info a : ds_recent_blocks d !! r = Some info → bi_committed info = true →
    a ∈ vb_ancestors (bi_block info) → gc_round ctx d < br_round a → committed d a;
  cc_below r : committed d r → br_round r ≤ last_commit_round d;
}.

Definition genesis_map : gmap BlockRef VerifiedBlock :=
  list_to_map ((λ b, (vb_reference b, b)) <$> genesis).

Record dag_ok d v : Prop := {
  dk_node : node_inv ctx G d v;
  dk_commits : commits_closed d;
  dk_links : links_closed (gc_round ctx d) (ds_recent_blocks d) [];
  dk_clock : clock_known d v;
  dk_genesis : ds_genesis d = genesis_map;
  dk_last : last_commit_round d ≤ clock_round d;
}.

(** ** Accepting blocks *)

Lemma clock_known_accept d v b now d' adv : clock_known d v →
  Committee_is_valid_index cm (vb_author b) → vb_round b < u32_max →
  ThresholdClock_add_block cm (ds_threshold_clock d) (vb_reference b) now = Done (ds_threshold_clock d', adv) →
  (∀ r, known v d' r ↔ known v d r ∨ r = vb_reference b) →
  clock_known d' v ∧ clock_round d ≤ clock_round d'.
Proof using Hhonest.
  intros Hck Hv Hr Hrun Hk. pose proof (u_committee _ _ _ (hn_universe _ _ _ Hhonest)) as Hok.
  destruct (clock_step cm (ds_threshold_clock d) (vb_reference b) now (ds_threshold_clock d') adv Hok
    (ck_agg _ _ Hck) Hv Hr Hrun) as [Hagg Hcase].
  set (R := tc_round (ds_threshold_clock d)) in *. set (R' := tc_round (ds_threshold_clock d')) in *.
  assert (Hmono : ∀ r, known v d r → known v d' r) by (intros r ?; apply Hk; by left).
  assert (Hb : known v d' (vb_reference b)) by (apply Hk; by right).
  pose proof (ck_pos _ _ Hck) as Hpos.
  assert (Hle : R ≤ R' ∧ vb_round b ≤ R').
  { destruct Hcase as [(Heq & ?)|[(? & ? & _)|[(? & ? & _)|(? & ? & _)]]]; simpl in *;
      unfold R', R in *; rewrite ?Heq in *; lia. }
  split; [|apply Hle]. split.
  - lia.
  - intros r [Hkr| ->]%Hk; [|simpl; lia]. apply (ck_max _ _ Hck) in Hkr. lia.
  - done.
  - intros a Ha. pose proof (ck_votes _ _ Hck a) as Hvotes.
    destruct Hcase as [(Heq & _)|[(HR & Heq & Hvs)|[(_ & _ & Hvs & _)|(_ & HR & Hvs)]]].
    + rewrite Heq in Ha. destruct (Hvotes Ha) as (r & ? & ? & ?). exists r. unfold R'. rewrite Heq. auto.
    + rewrite Hvs, elem_of_union, elem_of_singleton in Ha. destruct Ha as [->|Ha].
      * exists (vb_reference b). split_and!; [done|simpl in *; lia|done].
      * destruct (Hvotes Ha) as (r & ? & ? & ?). exists r. split_and!; [auto|lia|done].
    + by rewrite Hvs, elem_of_empty in Ha.
    + rewrite Hvs, elem_of_singleton in Ha. subst a. exists (vb_reference b). split_and!; [done|simpl in *; lia|done].
  - pose proof (ck_why _ _ Hck) as Hwhy.
    destruct Hcase as [(Heq & _)|[(HR & Heq & _)|[(HR & Heq & _ & Hq)|(_ & HR & _)]]].
    + unfold R'. rewrite Heq. fold R. destruct Hwhy as [?|[(r & ? & ?)|(X & HX & Hall)]]; [auto|right; left; exists r; auto|].
      right; right. exists X. split; [done|]. intros a Ha. destruct (Hall a Ha) as (r & ? & ? & ?). exists r. auto.
    + right; left. exists (vb_reference b). split; [done|]. simpl in *. lia.
    + right; right. eexists. split; [exact Hq|]. intros a. rewrite elem_of_union, elem_of_singleton.
      intros [->|Ha].
      * exists (vb_reference b). split_and!; [done|simpl in *; lia|done].
      * destruct (ck_votes _ _ Hck a Ha) as (r & ? & Hrr & ?).
        exists r. split_and!; [auto|lia|done].
    + right; left. exists (vb_reference b). split; [done|]. simpl in *. lia.
Qed.

(** Accepting blocks leaves the commits alone. *)
Record kept d d' : Prop := {
  kp_commit : ds_last_commit d' = ds_last_commit d;
  kp_scoring : ds_scoring_subdag d' = ds_scoring_subdag d;
  kp_committed r : committed d' r ↔ committed d r;
  kp_votes x : x ∈ ds_pending_commit_votes d' → x ∈ ds_pending_commit_votes d;
}.

Lemma kept_refl d : kept d d.
Proof. by split. Qed.
Lemma kept_trans d1 d2 d3 : kept d1 d2 → kept d2 d3 → kept d1 d3.
Proof. intros [? ? Ha ?] [? ? Hb ?]. split; [congruence..| |auto]. intros r. by rewrite Hb, Ha. Qed.

(** A flush may forget the flags of blocks at or below the GC round. *)
Record retained d d' : Prop := {
  rt_commit : ds_last_commit d' = ds_last_commit d;
  rt_scoring : ds_scoring_subdag d' = ds_scoring_subdag d;
  rt_committed r : committed d r → committed d' r ∨ br_round r ≤ gc_round ctx d;
  rt_only r : committed d' r → committed d r;
  rt_votes x : x ∈ ds_pending_commit_votes d' → x ∈ ds_pending_commit_votes d;
}.

Lemma commit_gc_round d d' : ds_last_commit d' = ds_last_commit d → gc_round ctx d' = gc_round ctx d.
Proof. intros Hc. unfold gc_round, last_commit_round. by rewrite Hc. Qed.
Lemma kept_retained d d' : kept d d' → retained d d'.
Proof. intros [? ? Hc ?]. split; [done..| | |done]; intros r ?%Hc; [by left|done]. Qed.
Lemma retained_trans d1 d2 d3 : retained d1 d2 → retained d2 d3 → retained d1 d3.
Proof.
  intros [Hc1 ? Ha Hoa ?] [? ? Hb Hob ?]. split; [congruence..| |by auto|by auto]. intros r [Hr|?]%Ha; [|by right].
  rewrite <-(commit_gc_round _ _ Hc1). by apply Hb.
Qed.

(** A new block is neither committed nor linked. *)
Lemma accept_block_ok d v b now d' : dag_ok d v → enabled ctx G d v (EvAccept b now) →
  accept_block ctx d b now = Done d' → dag_ok d' v ∧ kept d d'.
Proof using Hhonest.
  intros Hok Hen Hrun. pose proof (hn_universe _ _ _ Hhonest) as HU. pose proof (dk_node _ _ Hok) as Hni.
  destruct (accept_block_view ctx G byz HU (hn_own _ _ _ Hhonest) d v b now Hni Hen)
    as (d'' & Hrun' & Hni' & _ & Hk). assert (d'' = d') as -> by congruence.
  destruct Hen as (HGb & Hr & _). pose proof (u_wf _ _ _ HU _ _ HGb) as Hwf.
  destruct (accept_block_step ctx d b now d' Hrun) as [->|(Hnc & Hrec & (adv & Hclock) & Hgen & Hlc & Hsc & Hpv)];
    [split; [done|apply kept_refl]|].
  rewrite (contains_block_spec ctx d v) in Hnc by (apply Hni || apply Hwf).
  assert (Hnone : ds_recent_blocks d !! vb_reference b = None).
  { apply eq_None_not_Some. intros [info Hi]. injection Hnc as Hnc%bool_decide_eq_false. destruct Hnc.
    rewrite (dag_lookup_recent ctx d v _ info) by (done || apply Hni). eauto. }
  assert (Hinfo : ∀ r info, ds_recent_blocks d' !! r = Some info →
    info = BlockInfo_new b ∨ ds_recent_blocks d !! r = Some info).
  { intros r info. rewrite Hrec, lookup_insert. case_decide; [intros [= <-]; by left|by right]. }
  assert (Hold : ∀ r info, ds_recent_blocks d !! r = Some info → ds_recent_blocks d' !! r = Some info).
  { intros r info Hi. rewrite Hrec, lookup_insert_ne; [done|]. intros <-. congruence. }
  assert (Hlr : last_commit_round d' = last_commit_round d) by (unfold last_commit_round; by rewrite Hlc).
  assert (Hgc : gc_round ctx d' = gc_round ctx d) by (unfold gc_round; by rewrite Hlr).
  destruct (clock_known_accept d v b now d' adv (dk_clock _ _ Hok) (wf_author _ _ Hwf) (wf_round _ _ Hwf) Hclock Hk)
    as [Hck Hle].
  assert (Hkept : kept d d').
  { split; [done..| |by rewrite Hpv]. intros r. split.
    - intros (info & [->|Hi]%Hinfo & Hc); [done|]. by exists info.
    - intros (info & Hi & Hc). exists info. auto. }
  split; [|done]. split; [done| | |done|by rewrite Hgen; apply Hok|].
  - split.
    + intros r info a [->|Hi]%Hinfo Hc Ha Hga; [done|]. rewrite Hgc in Hga.
      destruct (cc_closed _ (dk_commits _ _ Hok) r info a Hi Hc Ha Hga) as (i & ? & ?). exists i. auto.
    + intros r (info & [->|Hi]%Hinfo & Hc); [done|]. rewrite Hlr. apply (cc_below _ (dk_commits _ _ Hok)). by exists info.
  - intros r info a [->|Hi]%Hinfo Hl Ha Hga; [done|]. rewrite Hgc in Hga.
    destruct (dk_links _ _ Hok r info a Hi Hl Ha Hga) as [(i & ? & ?)|?]; [left; exists i; auto|by right].
  - rewrite Hlr. pose proof (dk_last _ _ Hok) as Hl.
    unfold threshold_clock_round, ThresholdClock_get_round in *. lia.
Qed.

Lemma accept_causal_ok d v acc now d' : dag_ok d v → causal G (known v d) (gc_round ctx d) acc →
  accept_blocks ctx d acc now = Done d' → dag_ok d' v ∧ kept d d'.
Proof using Hhonest.
  intros Hok. revert d'. induction acc as [|b acc IH] using rev_ind; intros d' Hc Hrun.
  { unfold accept_blocks in Hrun. simpl in Hrun. injection Hrun as <-. split; [done|apply kept_refl]. }
  pose proof (causal_prefix G (known v d) (gc_round ctx d) acc b Hc) as (Hc' & HGb & Hrd & Hres).
  destruct (accept_causal ctx G byz (hn_universe _ _ _ Hhonest) (hn_own _ _ _ Hhonest) v d acc now
    (dk_node _ _ Hok) Hc') as (d1 & Hrun1 & Hni1 & Hgc1 & Hk1).
  unfold accept_blocks in *. rewrite for_each_app, Hrun1 in Hrun. cbn [mbind run_bind] in Hrun.
  rewrite for_each_cons in Hrun. destruct (accept_block ctx d1 b now) as [d2| |] eqn:Hrun2; [|done..].
  simpl in Hrun. injection Hrun as <-. destruct (IH d1 Hc' Hrun1) as [Hok1 Hkp1].
  destruct (accept_block_ok d1 v b now d2 Hok1) as [Hok2 Hkp2]; [|done|split; [done|by eapply kept_trans]].
  split_and!; [done..|]. intros a Ha Hga. rewrite Hgc1 in Hga. apply Hk1.
  destruct (Hres a Ha) as [?|[?|?]]; [by left|by right|lia].
Qed.

Lemma progress_ok now bm d v blocks bm' d' acc : dag_ok d v →
  progress ctx G v now bm d blocks bm' d' acc → dag_ok d' v ∧ kept d d'.
Proof using Hhonest. intros Hok Hp. eapply accept_causal_ok; [done|apply Hp|apply Hp]. Qed.

(** ** Changes that leave the blocks alone *)

(** Flags of cached blocks, votes, scores and commit infos may differ. *)
Record same_dag d d' : Prop := {
  sm_genesis : ds_genesis d' = ds_genesis d;
  sm_blocks r : bi_block <$> ds_recent_blocks d' !! r = bi_block <$> ds_recent_blocks d !! r;
  sm_refs : ds_recent_refs_by_authority d' = ds_recent_refs_by_authority d;
  sm_clock : ds_threshold_clock d' = ds_threshold_clock d;
  sm_evicted : ds_evicted_rounds d' = ds_evicted_rounds d;
  sm_highest : ds_highest_accepted_round d' = ds_highest_accepted_round d;
  sm_commit : ds_last_commit d' = ds_last_commit d;
  sm_rounds : ds_last_committed_rounds d' = ds_last_committed_rounds d;
  sm_blocks_write : ds_blocks_to_write d' = ds_blocks_to_write d;
  sm_commits_write : ds_commits_to_write d' = ds_commits_to_write d;
  sm_store : ds_store d' = ds_store d;
  sm_cached : ds_cached_rounds d' = ds_cached_rounds d;
}.

#[export] Instance same_dag_preorder : PreOrder same_dag.
Proof.
  split; [by split|]. intros d1 d2 d3 Ha Hb.
  split; try (intros r); (etrans; [apply Hb|apply Ha]).
Qed.

Lemma same_commit_round d d' : same_dag d d' → last_commit_round d' = last_commit_round d.
Proof. intros Hs. unfold last_commit_round. by rewrite (sm_commit _ _ Hs). Qed.
Lemma same_gc_round d d' : same_dag d d' → gc_round ctx d' = gc_round ctx d.
Proof. intros Hs. unfold gc_round. by rewrite (same_commit_round _ _ Hs). Qed.

Lemma same_lookup d d' v r : same_dag d d' → dag_lookup d' v r = dag_lookup d v r.
Proof.
  intros Hs. unfold dag_lookup. rewrite (sm_genesis _ _ Hs). case_bool_decide; [done|].
  pose proof (sm_blocks _ _ Hs r) as Hr.
  destruct (ds_recent_blocks d' !! r), (ds_recent_blocks d !! r); simplify_eq/=; congruence.
Qed.

Lemma same_cached d d' r : same_dag d d' → is_Some (ds_recent_blocks d' !! r) ↔ is_Some (ds_recent_blocks d !! r).
Proof. intros Hs. rewrite <-!(fmap_is_Some bi_block). by rewrite (sm_blocks _ _ Hs). Qed.

Lemma same_info d d' r info : same_dag d d' → ds_recent_blocks d' !! r = Some info →
  ∃ info', ds_recent_blocks d !! r = Some info' ∧ bi_block info' = bi_block info.
Proof.
  intros Hs Hr. pose proof (sm_blocks _ _ Hs r) as Hb. rewrite Hr in Hb.
  destruct (ds_recent_blocks d !! r) as [i|]; simplify_eq/=. eauto.
Qed.

Lemma same_node d d' v : same_dag d d' → node_inv ctx G d v → node_inv ctx G d' v.
Proof.
  intros Hs [[Hinv Hsub Hcl] Hlen Hcw Hhi].
  assert (Hinv' : dag_inv ctx (set_recent_blocks (ds_recent_blocks d') d) v)
    by (apply dag_inv_flags; [done|apply Hs]).
  split.
  - split.
    + destruct Hinv'. split; rewrite ?(sm_genesis _ _ Hs), ?(sm_refs _ _ Hs), ?(sm_evicted _ _ Hs),
        ?(sm_blocks_write _ _ Hs), ?(sm_store _ _ Hs), ?(sm_cached _ _ Hs), ?(same_gc_round _ _ Hs); done.
    + intros r b. rewrite (same_lookup _ _ _ _ Hs). apply Hsub.
    + intros r b a. rewrite !(same_lookup _ _ _ _ Hs), (same_gc_round _ _ Hs). apply Hcl.
  - by rewrite (sm_rounds _ _ Hs).
  - by rewrite (sm_commits_write _ _ Hs).
  - unfold highest_accepted_round. by rewrite (sm_highest _ _ Hs).
Qed.

Lemma clock_known_frame d d' v v' : clock_known d v → ds_threshold_clock d' = ds_threshold_clock d →
  (∀ r, known v' d' r ↔ known v d r) → clock_known d' v'.
Proof.
  intros [Hp Hm Ha Hv Hw] Hc Hk.
  split; rewrite Hc; try setoid_rewrite Hk; done.
Qed.

Lemma dag_ok_same d d' v : same_dag d d' → (∀ r, committed d' r ↔ committed d r) →
  links_closed (gc_round ctx d) (ds_recent_blocks d') [] → dag_ok d v → dag_ok d' v.
Proof.
  intros Hs Hc Hl Hok. split.
  - by eapply same_node, Hok.
  - split.
    + intros r info a Hr Hi Ha Hga. rewrite (same_gc_round _ _ Hs) in Hga. apply Hc.
      destruct (proj1 (Hc r)) as (i & Hi' & Hci); [by exists info|].
      apply (cc_closed _ (dk_commits _ _ Hok) r i a Hi' Hci); [|done].
      destruct (same_info _ _ _ _ Hs Hr) as (i' & ? & Heq). assert (i' = i) as -> by congruence. by rewrite Heq.
    + intros r Hr%Hc. rewrite (same_commit_round _ _ Hs). by apply (cc_below _ (dk_commits _ _ Hok)).
  - by rewrite (same_gc_round _ _ Hs).
  - eapply clock_known_frame; [apply Hok|apply Hs|]. intros r. unfold known. by rewrite (same_lookup _ _ _ _ Hs).
  - rewrite (sm_genesis _ _ Hs). apply Hok.
  - rewrite (same_commit_round _ _ Hs). unfold threshold_clock_round. rewrite (sm_clock _ _ Hs). apply Hok.
Qed.

(** The same cached blocks with the same flags. *)
Lemma dag_ok_same_blocks d d' v : same_dag d d' → ds_recent_blocks d' = ds_recent_blocks d →
  dag_ok d v → dag_ok d' v.
Proof.
  intros Hs Hr Hok. apply (dag_ok_same d d' v Hs); [|rewrite Hr; apply Hok|done].
  intros r. unfold committed. by rewrite Hr.
Qed.

(** ** Hard links, commit votes and flushing *)

Lemma dag_causally_cached d v : node_inv ctx G d v → causally_cached (gc_round ctx d) (ds_recent_blocks d).
Proof.
  intros Hni r info a Hr Ha Hga. pose proof (ni_view _ _ _ _ Hni) as Hview.
  pose proof (dag_lookup_recent ctx d v r info (vo_inv _ _ _ _ Hview) Hr) as Hlk.
  destruct (vo_closed _ _ _ _ Hview _ _ _ Hlk Ha Hga) as [b Hb].
  apply (lk_cached ctx G d v Hview a b Hga) in Hb as (i & Hi & _). eauto.
Qed.

Lemma link_ok d v root : dag_ok d v → known v d root →
  ∃ d' new, link_causal_history ctx d root = Done (d', new) ∧ same_dag d d' ∧ dag_ok d' v ∧ kept d d' ∧
    ∀ r, r ∈ new → known v d r ∧ gc_round ctx d < br_round r.
Proof.
  intros Hok [b Hb]. pose proof (dk_node _ _ Hok) as Hni. pose proof (ni_view _ _ _ _ Hni) as Hview.
  destruct (link_causal_history_links ctx d root) as (m & new & Hrun & _ & Hin & Habove & _ & Hcl & Hsame & _).
  - by eapply dag_causally_cached.
  - apply Hok.
  - intros Hga. apply (lk_cached ctx G d v Hview root b Hga) in Hb as (i & Hi & _). eauto.
  - exists (set_recent_blocks m d), new. split; [done|].
    assert (Hs : same_dag d (set_recent_blocks m d)).
    { split; try done. simpl. intros r. specialize (Hsame r).
      destruct (m !! r), (ds_recent_blocks d !! r); simplify_eq/=; congruence. }
    assert (Hc : ∀ r, committed (set_recent_blocks m d) r ↔ committed d r).
    { intros r. unfold committed. simpl. specialize (Hsame r).
      destruct (m !! r) as [i|], (ds_recent_blocks d !! r) as [i'|]; simplify_eq/=; naive_solver. }
    split; [done|]. split; [by apply (dag_ok_same d _ v Hs)|]. split; [done|].
    + intros r Hr. destruct (Habove r Hr) as [Hgc Hreach]. split; [|done].
      apply Hin in Hr as [(i & Hi & _) _].
      destruct (same_info d (set_recent_blocks m d) r i Hs Hi) as (i' & Hi' & _). exists (bi_block i').
      by apply (dag_lookup_recent ctx d v r i'); [apply Hview|].
Qed.

Lemma take_commit_votes_ok d v limit : dag_ok d v →
  same_dag d (take_commit_votes d limit).1 ∧ dag_ok (take_commit_votes d limit).1 v ∧ kept d (take_commit_votes d limit).1 ∧
  ∀ x, x ∈ (take_commit_votes d limit).2 → x ∈ ds_pending_commit_votes d.
Proof.
  intros Hok. assert (same_dag d (take_commit_votes d limit).1) by done. split; [done|].
  split; [by apply (dag_ok_same_blocks d)|]. split; [split; [done..|]|].
  - intros x (i & Hi)%list_elem_of_lookup_1. cbn in Hi. rewrite lookup_drop in Hi. by apply list_elem_of_lookup_2 in Hi.
  - intros x (i & Hi & _)%elem_of_take. by apply list_elem_of_lookup_2 in Hi.
Qed.

Lemma flush_clock d d' : flush ctx d = Done d' →
  ds_threshold_clock d' = ds_threshold_clock d ∧ ds_genesis d' = ds_genesis d ∧ ds_scoring_subdag d' = ds_scoring_subdag d ∧
  ds_pending_commit_votes d' = ds_pending_commit_votes d.
Proof.
  unfold flush. destruct (_ && _); [by intros [= <-]|]. intros ?. run_inv.
  match goal with Hf : for_each ?f ?s0 ?l = Done d' |- _ =>
    apply (for_each_ind (λ _ x, ds_threshold_clock x = ds_threshold_clock d ∧
      ds_genesis x = ds_genesis d ∧ ds_scoring_subdag x = ds_scoring_subdag d ∧
      ds_pending_commit_votes x = ds_pending_commit_votes d) f s0 l d'); [done| |done] end.
  intros l1 [i a] l2 s1 s2 _ (Hx1 & Hx2 & Hx3 & Hx4) Hstep. unfold evict_authority in Hstep.
  run_inv. destruct (evict_loop _ _ _ _). by run_inv.
Qed.

Lemma flush_cache d v d' : node_inv ctx G d v → flush ctx d = Done d' →
  ds_last_commit d' = ds_last_commit d ∧
  (∀ r info, ds_recent_blocks d' !! r = Some info → ds_recent_blocks d !! r = Some info) ∧
  (∀ r info, ds_recent_blocks d !! r = Some info → gc_round ctx d < br_round r → ds_recent_blocks d' !! r = Some info).
Proof using Hhonest.
  intros [Hview _ Hcm _] Hrun. pose proof (vo_inv _ _ _ _ Hview) as Hinv.
  destruct (flush_spec ctx d v Hinv) as (d'' & v' & Hrun' & _ & _ & _ & Hlc & _ & Hold & Hkept); [|done|].
  { apply Forall_forall. intros b (_ & info & Hi & <-)%(di_to_write _ _ _ Hinv).
    pose proof (dag_lookup_recent ctx d v _ _ Hinv Hi) as Hb%(vo_sub _ _ _ _ Hview).
    eapply (hn_storable _ _ _ Hhonest); [exact Hb|]. destruct (di_recent _ _ _ Hinv _ _ Hi) as (_ & ? & _). lia. }
  assert (d'' = d') as -> by congruence. split_and!; [done..|]. intros r info Hr Hgc.
  destruct (di_recent _ _ _ Hinv _ _ Hr) as (_ & _ & Hv & _).
  destruct (dag_refs_at ctx d v _ Hinv Hv) as [X HX]. eapply Hkept; eauto.
Qed.

(** Eviction only takes blocks at or below the GC round. *)
Lemma flush_ok d v : dag_ok d v → ∃ d', flush ctx d = Done d' ∧ dag_ok d' (view_after d v EvFlush) ∧
  retained d d' ∧ ds_threshold_clock d' = ds_threshold_clock d ∧
  ∀ r, dag_lookup d' (view_after d v EvFlush) r = dag_lookup d v r.
Proof using Hhonest.
  intros Hok. pose proof (dk_node _ _ Hok) as Hni.
  destruct (flush_view ctx G (hn_storable _ _ _ Hhonest) d v Hni) as (d' & Hrun & Hni' & Hgc & Hlk).
  pose proof (flush_cache d v d' Hni Hrun) as (Hlc & Hold & Hkept).
  destruct (flush_clock d d' Hrun) as (Hclock & Hgen & Hsc & Hpv).
  assert (Hlr : last_commit_round d' = last_commit_round d) by (unfold last_commit_round; by rewrite Hlc).
  assert (Hret : retained d d').
  { split; [done..| | |by rewrite Hpv].
    - intros r (info & Hi & Hc). destruct (decide (br_round r ≤ gc_round ctx d)); [by right|].
      left. exists info. split; [|done]. apply Hkept; [done|lia].
    - intros r (info & Hi & Hc). exists info. auto. }
  exists d'. split_and!; [done| |done..]. split; [done| | |..].
  - split.
    + intros r info a Hr Hc Ha Hga. rewrite Hgc in Hga.
      destruct (cc_closed _ (dk_commits _ _ Hok) r info a (Hold _ _ Hr) Hc Ha Hga) as (i & Hi & Hci).
      exists i. auto.
    + intros r (info & Hr & Hc). rewrite Hlr. apply (cc_below _ (dk_commits _ _ Hok)). exists info. auto.
  - intros r info a Hr Hl Ha Hga. rewrite Hgc in Hga.
    destruct (dk_links _ _ Hok r info a (Hold _ _ Hr) Hl Ha Hga) as [(i & Hi & Hli)|?]; [|by right].
    left. exists i. auto.
  - eapply clock_known_frame; [apply Hok|done|]. intros r. unfold known. by rewrite Hlk.
  - rewrite Hgen. apply Hok.
  - rewrite Hlr. unfold threshold_clock_round. rewrite Hclock. apply Hok.
Qed.

(** ** Reading the cache *)

Context (Hgenesis : genesis_blocks ctx = Done genesis).
Abbreviation valid := (Committee_is_valid_index cm).

(** The genesis blocks in the order of the map are those of the authorities in
    their order. *)
Lemma genesis_map_keys : (map_list genesis_map).*1 = vb_reference <$> genesis.
Proof using Hgenesis.
  apply genesis_blocks_spec in Hgenesis as [_ Hg].
  assert (Hkeys : ((λ b, (vb_reference b, b)) <$> genesis).*1 = vb_reference <$> genesis)
    by (by rewrite <-list_fmap_compose).
  assert (Hnd : NoDup (vb_reference <$> genesis)).
  { apply NoDup_alt. intros i j x. rewrite !list_lookup_fmap.
    intros (bi & Hi & ->)%fmap_Some (bj & Hj & Heq)%fmap_Some.
    destruct (Hg _ _ Hi) as (_ & <- & _), (Hg _ _ Hj) as (_ & <- & _). by injection Heq. }
  apply (StronglySorted_unique (λ x y : BlockRef, Is_true (key_le x y))).
  - pose proof (map_list_sorted genesis_map) as Hs. induction Hs as [|x l _ IH Hf]; csimpl; [constructor|].
    constructor; [done|]. rewrite Forall_fmap. exact Hf.
  - apply StronglySorted_index. intros i j ri rj Hlt. rewrite !list_lookup_fmap.
    intros (bi & Hi & ->)%fmap_Some (bj & Hj & ->)%fmap_Some.
    destruct (Hg _ _ Hi) as (Hri & Hai & _), (Hg _ _ Hj) as (Hrj & Haj & _).
    simpl. unfold BlockRef_le. rewrite bool_decide_spec. simpl. rewrite Hri, Hai, Hrj, Haj. lia.
  - unfold map_list, genesis_map. rewrite sort_by_Permutation, map_to_list_to_map, Hkeys; [done|by rewrite Hkeys].
Qed.

Lemma genesis_map_blocks : length (map_list genesis_map).*2 = Committee_size cm ∧
  ∀ i b, (map_list genesis_map).*2 !! i = Some b → vb_author b = i ∧ genesis_map !! vb_reference b = Some b.
Proof using Hgenesis.
  pose proof genesis_map_keys as Hk. apply genesis_blocks_spec in Hgenesis as [Hlen Hg]. split.
  - rewrite length_fmap, <-Hlen, <-(length_fmap vb_reference), <-Hk. by rewrite length_fmap.
  - intros i b. rewrite list_lookup_fmap. intros ([k b'] & Hi & ->)%fmap_Some. simpl.
    assert (Hb : genesis_map !! k = Some b') by (by apply elem_of_map_list, (list_elem_of_lookup_2 _ i)).
    destruct (genesis_lookup _ _ _ Hb) as [_ ->]. split; [|done].
    apply (f_equal (lookup i)) in Hk. rewrite !list_lookup_fmap, Hi in Hk. simpl in Hk.
    symmetry in Hk. apply fmap_Some in Hk as (g & Hgi & [= _ Ha _]).
    destruct (Hg _ _ Hgi) as (_ & <- & _). done.
Qed.

(** The references of an authority in a range of rounds, in order. *)
Lemma elem_of_author_range (X : gset BlockRef) (a a0 : AuthorityIndex) lo hi r :
  (∀ x, x ∈ X → br_author x = a) → (a0 ≤ a)%nat →
  r ∈ set_range (Included (mk_ref lo a BlockDigest_MIN)) (Excluded (mk_ref hi a0 BlockDigest_MIN)) X ↔
  r ∈ X ∧ lo ≤ br_round r < hi.
Proof.
  intros HX Ha. unfold set_range. rewrite list_elem_of_filter, elem_of_set_list.
  unfold above_bound, below_bound. simpl. rewrite !andb_True. unfold BlockRef_le.
  rewrite !bool_decide_spec. unfold BlockDigest_MIN. simpl. split.
  - intros [(Hlo & Hhi & Hne) Hr]. split; [done|]. specialize (HX r Hr).
    destruct r as [rr ra rd]. simpl in *. subst ra.
    assert (¬ (rr = hi ∧ a = a0 ∧ rd = 0)) by (intros (-> & -> & ->); by destruct Hne). lia.
  - intros [Hr Hb]. specialize (HX r Hr). split_and!; [..|done].
    + destruct r as [rr ra rd]. simpl in *. lia.
    + destruct r as [rr ra rd]. simpl in *. lia.
    + intros ->. simpl in *. lia.
Qed.

Lemma set_range_last (X : gset BlockRef) lo hi r y : last (set_range lo hi X) = Some r →
  y ∈ set_range lo hi X → br_round y ≤ br_round r.
Proof.
  intros Hl Hy. destruct (decide (y = r)) as [->|Hne]; [done|]. apply BlockRef_le_round.
  assert (Hs : StronglySorted (λ x y : BlockRef, Is_true (key_le x y)) (set_range lo hi X))
    by (apply StronglySorted_filter, set_list_sorted).
  by destruct (StronglySorted_last _ _ _ _ Hs Hl Hy).
Qed.

(** The cached references of an authority. *)
Lemma cached_refs d v a : dag_inv ctx d v → valid a →
  ∃ X e, ds_recent_refs_by_authority d !! a = Some X ∧ ds_evicted_rounds d !! a = Some e ∧
    e ≤ gc_round ctx d ∧
    (∀ r, r ∈ X → br_author r = a ∧ 0 < br_round r ∧ ∃ info, ds_recent_blocks d !! r = Some info ∧
       vb_reference (bi_block info) = r ∧ dag_lookup d v r = Some (bi_block info)) ∧
    ∀ r, known v d r → br_author r = a → e < br_round r → r ∈ X.
Proof.
  intros Hinv Ha. destruct (dag_refs_at ctx d v a Hinv Ha) as [X HX].
  destruct (dag_evicted_at ctx d v a Hinv Ha) as [e He]. exists X, e.
  pose proof (λ r, di_refs _ _ _ Hinv a X r HX) as Hrefs. split_and!; [done..| | |].
  - etrans; [by eapply (di_evicted _ _ _ Hinv)|]. unfold eviction_round. lia.
  - intros r [[info Hi] Hr]%Hrefs. split; [done|]. destruct (di_recent _ _ _ Hinv r info Hi) as (Hv & Hpos & _).
    split; [done|]. exists info. split_and!; [done..|]. by apply (dag_lookup_recent ctx d v).
  - intros r [b Hb] Har Hlt. apply Hrefs. split; [|done]. unfold dag_lookup in Hb.
    rewrite bool_decide_eq_false_2 in Hb by (unfold GENESIS_ROUND; lia).
    destruct (ds_recent_blocks d !! r) as [info|] eqn:Hr; [eauto|].
    destruct (di_store _ _ _ Hinv r b Hb) as (_ & _ & X' & l & e' & _ & _ & _ & He' & [?|Hle]).
    + by rewrite Hr in *.
    + rewrite Har, He in He'. simplify_eq. lia.
Qed.

(** A known block of an authority below a round, of the round just below it
    whenever the authority has one there. *)
Record latest_below d v (R : Round) (a : AuthorityIndex) (b : VerifiedBlock) : Prop := {
  lb_author : vb_author b = a;
  lb_known : dag_lookup d v (vb_reference b) = Some b;
  lb_round : vb_round b < R;
  lb_parent r : known v d r → br_author r = a → br_round r + 1 = R → vb_round b + 1 = R;
}.

Lemma last_cached_spec d v R a X : dag_inv ctx d v → valid a →
  ds_recent_refs_by_authority d !! a = Some X → gc_round ctx d + 1 < R → R ≤ u32_max →
  ∃ o others, last_cached_of_authority d R a X = Done (o, others) ∧
    Forall (λ r, br_author r = a) others ∧
    match o with
    | Some b => latest_below d v R a b
    | None => ∀ r, known v d r → br_author r = a → br_round r + 1 = R → False
    end.
Proof.
  clear Hhonest Hgenesis G. intros Hinv Ha HX Hgc HR. destruct (cached_refs d v a Hinv Ha) as (X' & e & HX' & He & Hle & HXin & Hall).
  rewrite HX in HX'. injection HX' as <-. unfold last_cached_of_authority, vec_get. rewrite He. simpl.
  rewrite bool_decide_eq_false_2 by (unfold saturating_sub; lia). rewrite u32_add_small by lia.
  set (l := set_range _ _ X).
  assert (Hl : ∀ r, r ∈ l ↔ r ∈ X ∧ e + 1 ≤ br_round r < R)
    by (intros r; apply elem_of_author_range; [intros x Hx; by apply HXin|done]).
  destruct (reverse l) as [|last others] eqn:Hrev.
  - exists None, []. split; [done|]. split; [constructor|]. intros r Hk Har Hr.
    apply (f_equal reverse) in Hrev. rewrite reverse_involutive in Hrev. simpl in Hrev.
    assert (r ∈ l) as Hin by (apply Hl; split; [apply Hall; [done..|lia]|lia]).
    rewrite Hrev in Hin. by apply elem_of_nil in Hin.
  - assert (Hel : l = reverse others ++ [last]).
    { apply (f_equal reverse) in Hrev. by rewrite reverse_involutive, reverse_cons in Hrev. }
    assert (last ∈ l) as [Hin Hr]%Hl by (rewrite Hel; set_solver).
    destruct (HXin last Hin) as (Hau & _ & info & Hi & Href & Hlk). rewrite Hi. simpl.
    exists (Some (bi_block info)), (take_while (λ r, negb (bool_decide (br_round r < br_round last))) others).
    split; [done|]. split.
    + apply Forall_forall. intros r Hr'. apply (HXin r), (Hl r). rewrite Hel.
      apply elem_of_app. left. apply elem_of_reverse.
      by eapply elem_of_take_while.
    + assert (Hrd : vb_round (bi_block info) = br_round last) by (by rewrite <-Href).
      split; [by rewrite <-Hau, <-Href|by rewrite Href|lia|].
      intros r Hk Har Hr'. rewrite Hrd.
      assert (br_round r ≤ br_round last); [|lia].
      eapply (set_range_last X); [unfold l in Hel; rewrite Hel; apply last_snoc|].
      apply Hl. split; [apply Hall; [done..|lia]|lia].
Qed.

(** One turn of the loop over the authorities. *)
Definition per_authority d v R (k : nat) (st : list VerifiedBlock * list (list BlockRef)) : Prop :=
  length st.1 = Committee_size cm ∧ length st.2 = Committee_size cm ∧
  (∀ i b, st.1 !! i = Some b → vb_author b = i ∧ dag_lookup d v (vb_reference b) = Some b ∧ vb_round b < R ∧
     ((i < k)%nat → latest_below d v R i b)) ∧
  ∀ i l, st.2 !! i = Some l → Forall (λ r, br_author r = i) l.

Lemma per_authority_step d v R k X blocks eqs : dag_inv ctx d v → 1 < R →
  ds_recent_refs_by_authority d !! k = Some X → gc_round ctx d + 1 < R → R ≤ u32_max →
  per_authority d v R k (blocks, eqs) →
  ∃ st, (authority_index ← expect (Committee_to_authority_index cm k);
         '(o, others) ← last_cached_of_authority d R authority_index X;
         blocks ← match o with
                  | Some b => vec_set blocks authority_index b
                  | None => Done blocks
                  end;
         equivocating ← vec_set eqs authority_index others;
         Done (blocks, equivocating)) = Done st ∧ per_authority d v R (Datatypes.S k) st.
Proof.
  clear Hhonest Hgenesis G. intros Hinv HR HX Hgc Hmax (Hl1 & Hl2 & Hb & He). simpl in *.
  assert (Hk : (k < Committee_size cm)%nat) by (apply lookup_lt_Some in HX; by rewrite (di_len _ _ _ Hinv) in HX).
  assert (Hv : valid k) by (unfold Committee_is_valid_index; by rewrite bool_decide_spec).
  unfold Committee_to_authority_index. rewrite decide_True by done. simpl.
  destruct (last_cached_spec d v R k X Hinv Hv HX Hgc Hmax) as (o & others & -> & Hothers & Ho). simpl.
  unfold vec_set.
  assert (He' : ∀ i l, <[k := others]> eqs !! i = Some l → Forall (λ r, br_author r = i) l).
  { intros i l. rewrite list_lookup_insert. case_decide as Hd; [destruct Hd as [<- _]; by intros [= <-]|apply He]. }
  destruct o as [b|].
  - rewrite decide_True by lia. simpl. rewrite decide_True by lia. eexists. split; [done|].
    split_and!; simpl; [by rewrite length_insert..| |done].
    intros i b'. rewrite list_lookup_insert. case_decide as Hd.
    + destruct Hd as [<- _]. intros [= <-]. split_and!; [apply Ho..|done].
    + intros Hi. destruct (Hb i b' Hi) as (? & ? & ? & Hlat). split_and!; [done..|].
      intros Hik. apply Hlat. destruct (decide (i = k)) as [->|]; [|lia]. destruct Hd. lia.
  - simpl. rewrite decide_True by lia. eexists. split; [done|].
    split_and!; simpl; [done|by rewrite length_insert| |done].
    intros i b' Hi. destruct (Hb i b' Hi) as (? & ? & ? & Hlat). split_and!; [done..|]. intros Hik.
    destruct (decide (i = k)) as [->|]; [|apply Hlat; lia].
    split; [done..|]. intros r ? ? ?. by destruct (Ho r).
Qed.

Lemma last_cached_per_authority_spec d v R : dag_ok d v → R = 1 ∨ gc_round ctx d + 1 < R → 1 ≤ R → R ≤ u32_max →
  ∃ l, get_last_cached_block_per_authority ctx d R = Done l ∧ length l = Committee_size cm ∧
    ∀ i b eqs, l !! i = Some (b, eqs) → latest_below d v R i b ∧ Forall (λ r, br_author r = i) eqs.
Proof using Hhonest Hgenesis.
  intros Hok Hgc HR Hmax. pose proof (vo_inv _ _ _ _ (ni_view _ _ _ _ (dk_node _ _ Hok))) as Hinv.
  pose proof genesis_map_blocks as [Hlen Hg]. unfold get_last_cached_block_per_authority.
  rewrite (dk_genesis _ _ Hok). unfold GENESIS_ROUND. rewrite bool_decide_eq_false_2 by lia.
  assert (Hgen : ∀ i b, (map_list genesis_map).*2 !! i = Some b → vb_author b = i ∧
    dag_lookup d v (vb_reference b) = Some b ∧ vb_round b = 0).
  { intros i b [? Hb]%Hg. rewrite <-(dk_genesis _ _ Hok) in Hb.
    pose proof (di_genesis _ _ _ Hinv _ _ Hb) as Hr. simpl in Hr. split_and!; [done| |done].
    unfold dag_lookup. simpl. rewrite Hr. by rewrite bool_decide_eq_true_2. }
  case_bool_decide as HR1.
  { eexists. split; [done|]. split; [by rewrite length_fmap|].
    intros i b eqs. rewrite list_lookup_fmap. intros (b' & Hi & [= -> ->])%fmap_Some.
    destruct (Hgen i b' Hi) as (Ha & Hk & Hr). split; [|constructor]. split; [done..|lia|]. intros; lia. }
  destruct Hgc as [?|Hgc]; [lia|].
  destruct (for_each_run (λ done st, per_authority d v R (length done) st)
    (λ '(blocks, equivocating) '(i, block_refs),
        authority_index ← expect (Committee_to_authority_index cm i);
        '(o, others) ← last_cached_of_authority d R authority_index block_refs;
        blocks ← match o with Some b => vec_set blocks authority_index b | None => Done blocks end;
        equivocating ← vec_set equivocating authority_index others;
        Done (blocks, equivocating))
    ((map_list genesis_map).*2, replicate (Committee_size cm) []) (imap pair (ds_recent_refs_by_authority d)))
    as ([blocks eqs] & -> & Hl1 & Hl2 & Hb & He).
  - split_and!; simpl; [done|by rewrite length_replicate| |].
    + intros i b Hi. destruct (Hgen i b Hi) as (? & ? & Hr). split_and!; [done..|lia|lia].
    + intros i l [-> _]%lookup_replicate. constructor.
  - intros done [i X] rest [blocks eqs] Heq Hst. rewrite length_app. simpl. rewrite Nat.add_1_r.
    pose proof (list_lookup_middle done rest (i, X) _ eq_refl) as Hi. rewrite <-Heq, list_lookup_imap in Hi.
    apply fmap_Some in Hi as (Y & HY & [= -> ->]). by apply per_authority_step; [done|lia|..].
  - simpl in *. eexists. split; [done|]. split; [rewrite length_zip_with; lia|].
    intros i b e (x & y & [= -> ->] & Hx & Hy)%lookup_zip_with_Some. split; [|by apply He].
    apply (Hb i x Hx). rewrite length_imap, (di_len _ _ _ Hinv). apply lookup_lt_Some in Hx. lia.
Qed.

(** A block of an authority in a range of rounds. *)
Lemma last_cached_in_range_spec d v a lo hi : dag_inv ctx d v → valid a →
  ∃ o, get_last_cached_block_in_range d a lo hi = Done o ∧
    ∀ b, o = Some b → vb_author b = a ∧ dag_lookup d v (vb_reference b) = Some b ∧ lo ≤ vb_round b < hi.
Proof.
  clear Hhonest Hgenesis G. intros Hinv Ha. destruct (cached_refs d v a Hinv Ha) as (X & e & HX & _ & _ & HXin & _).
  unfold get_last_cached_block_in_range, vec_get. case_bool_decide; [by eexists|]. rewrite HX. simpl.
  eexists. split; [done|]. intros b.
  destruct (last _) as [r|] eqn:Hl; simpl; [|done]. intros (info & Hi & ->)%fmap_Some.
  assert (r ∈ X ∧ lo ≤ br_round r < hi) as [Hin Hr].
  { apply (elem_of_author_range X a 0); [intros x Hx; by apply HXin|lia|].
    apply last_Some in Hl as [l ->]. set_solver. }
  destruct (HXin r Hin) as (Hau & _ & i & Hi' & Href & Hlk). rewrite Hi in Hi'. injection Hi' as <-.
  rewrite <-Href in Hau, Hlk, Hr. done.
Qed.


(** The last block of an authority is its highest known one. *)
Lemma last_block_spec d v a : dag_ok d v → valid a →
  ∃ b, get_last_block_for_authority d a = Done b ∧ vb_author b = a ∧
    dag_lookup d v (vb_reference b) = Some b ∧
    ∀ r, known v d r → br_author r = a → br_round r ≤ vb_round b.
Proof using Hhonest Hgenesis.
  intros Hok Ha. pose proof (ni_view _ _ _ _ (dk_node _ _ Hok)) as Hview. pose proof (vo_inv _ _ _ _ Hview) as Hinv.
  destruct (cached_refs d v a Hinv Ha) as (X & e & HX & He & _ & HXin & Hall).
  unfold get_last_block_for_authority, vec_get. rewrite HX. simpl.
  destruct (set_last X) as [last|] eqn:Hlast.
  - pose proof Hlast as [Hin _]%set_last_Some. destruct (HXin last Hin) as (Hau & _ & info & Hi & Href & Hlk).
    rewrite Hi. simpl. exists (bi_block info). rewrite Href. split_and!; [done|by rewrite <-Hau, <-Href|done|].
    intros r [b Hb] Har. change (vb_round (bi_block info)) with (br_round (vb_reference (bi_block info))). rewrite Href.
    unfold dag_lookup in Hb. case_bool_decide as Hr0; [unfold GENESIS_ROUND in Hr0; lia|].
    destruct (ds_recent_blocks d !! r) as [i|] eqn:Hr.
    + assert (r ∈ X) as HrX by (apply (di_refs _ _ _ Hinv a X r HX); eauto).
      apply set_last_Some in Hlast as [_ Hmax]. by apply BlockRef_le_round, Hmax.
    + destruct (di_store _ _ _ Hinv r b Hb) as (_ & _ & X' & l & _ & HX' & Hl' & Hle & _).
      rewrite Har, HX in HX'. injection HX' as <-. rewrite Hlast in Hl'. injection Hl' as <-. done.
  - apply set_last_None in Hlast as ->.
    destruct (di_genesis_all _ _ _ Hinv a Ha) as (r0 & b0 & Hb0 & Har0).
    destruct (list_find_elem_of (λ p : BlockRef * VerifiedBlock, br_author p.1 = a)
                (map_list (ds_genesis d)) (r0, b0)) as [[i [r' b']] Hf]; [by apply elem_of_map_list|done|].
    rewrite Hf. simpl. apply list_find_Some in Hf as (Hi & Ha' & _). simpl in Ha'.
    apply list_elem_of_lookup_2, elem_of_map_list in Hi.
    pose proof (di_genesis _ _ _ Hinv _ _ Hi) as Hr'.
    assert (Hlk : dag_lookup d v r' = Some b') by (unfold dag_lookup; by rewrite bool_decide_eq_true_2).
    pose proof (u_reference _ _ _ (hn_universe _ _ _ Hhonest) _ _ (vo_sub _ _ _ _ Hview _ _ Hlk)) as Href.
    exists b'. rewrite Href. split_and!; [done|by rewrite <-Ha', <-Href|done|].
    intros r [b Hb] Har. unfold dag_lookup in Hb. case_bool_decide as Hr0; [rewrite Hr0; unfold GENESIS_ROUND; lia|].
    destruct (ds_recent_blocks d !! r) as [i'|] eqn:Hr.
    + assert (r ∈ (∅ : gset BlockRef)) as HrX by (apply (di_refs _ _ _ Hinv a ∅ r HX); eauto). set_solver.
    + destruct (di_store _ _ _ Hinv r b Hb) as (_ & _ & X' & l & _ & HX' & Hl' & _).
      rewrite Har, HX in HX'. injection HX' as <-. by rewrite (proj2 (set_last_None _) eq_refl) in Hl'.
Qed.

(** ** The round below the clock *)

Context (Hdepth : 2 ≤ pc_gc_depth (ctx_protocol_config ctx)).

Lemma gc_below_clock d v : dag_ok d v → threshold_clock_round d = 1 ∨ gc_round ctx d + 1 < threshold_clock_round d.
Proof using Hdepth.
  intros Hok. pose proof (dk_last _ _ Hok) as Hl. pose proof (ck_pos _ _ (dk_clock _ _ Hok)) as Hp.
  unfold threshold_clock_round, ThresholdClock_get_round, gc_round, calculate_gc_round, saturating_sub in *. lia.
Qed.

(** A quorum of authorities has a known block in the round below the clock. *)
Lemma parent_quorum d v : dag_ok d v →
  ∃ X, c_quorum_threshold cm ≤ set_stake cm X ∧ (∀ a, a ∈ X → valid a) ∧
    ∀ a, a ∈ X → ∃ r, known v d r ∧ br_author r = a ∧ br_round r + 1 = threshold_clock_round d.
Proof using Hhonest Hgenesis Hdepth.
  intros Hok. pose proof (hn_universe _ _ _ Hhonest) as HU. pose proof (u_committee _ _ _ HU) as Hcm.
  pose proof (ni_view _ _ _ _ (dk_node _ _ Hok)) as Hview. pose proof (vo_inv _ _ _ _ Hview) as Hinv.
  pose proof (gc_below_clock d v Hok) as Hgc.
  assert (Hcase : ∀ X, c_quorum_threshold cm ≤ set_stake cm X →
    (∀ a, a ∈ X → ∃ r, known v d r ∧ br_author r = a ∧ br_round r + 1 = threshold_clock_round d) →
    (∀ a, a ∈ X → valid a)).
  { intros X _ Hall a Ha. destruct (Hall a Ha) as (r & [b Hb] & <- & _).
    pose proof (lk_wf ctx G byz HU d v Hview r b Hb) as [<- Hwf]. apply Hwf. }
  destruct (decide (threshold_clock_round d = 1)) as [Hone|Hone].
  - exists (list_to_set (seq 0 (Committee_size cm))). split.
    { rewrite set_stake_list by apply NoDup_seq. unfold Committee_size.
      rewrite stakes_by_index, <-(ok_total cm Hcm). by apply quorum_le_total. }
    assert (Hin : ∀ a, a ∈ (list_to_set (seq 0 (Committee_size cm)) : gset AuthorityIndex) → valid a).
    { intros a. rewrite elem_of_list_to_set, elem_of_seq. intros Ha. unfold Committee_is_valid_index.
      rewrite bool_decide_spec. lia. }
    split; [done|]. intros a Ha%Hin. destruct (di_genesis_all _ _ _ Hinv a Ha) as (r & b & Hb & Har).
    pose proof (di_genesis _ _ _ Hinv _ _ Hb) as Hr. exists r. split_and!; [|done|rewrite Hone, Hr; done].
    exists b. unfold dag_lookup. by rewrite bool_decide_eq_true_2.
  - destruct Hgc as [?|Hgc]; [done|].
    destruct (ck_why _ _ (dk_clock _ _ Hok)) as [?|[(r & [b Hb] & Hr)|(X & HX & Hall)]]; [done|..].
    + pose proof (lk_wf ctx G byz HU d v Hview r b Hb) as [<- Hwf]. simpl in Hr.
      assert (Hpar : ∀ a, a ∈ parents b → ∃ r, known v d r ∧ br_author r = a ∧ br_round r + 1 = threshold_clock_round d).
      { intros a. unfold parents. rewrite elem_of_list_to_set, list_elem_of_fmap.
        intros (x & -> & [Hx Hin]%list_elem_of_filter). exists x.
        unfold threshold_clock_round, ThresholdClock_get_round in *. split_and!; [|done|lia].
        eapply (vo_closed _ _ _ _ Hview); [done..|lia]. }
      assert (Hq : c_quorum_threshold cm ≤ set_stake cm (parents b)).
      { apply (wf_parents _ _ Hwf). unfold threshold_clock_round, ThresholdClock_get_round in *. lia. }
      exists (parents b). eauto.
    + exists X. assert (∀ a, a ∈ X → ∃ r, known v d r ∧ br_author r = a ∧ br_round r + 1 = threshold_clock_round d).
      { intros a Ha. destruct (Hall a Ha) as (r & ? & ? & ?). eauto. }
      eauto.
Qed.
End dag_ok.

(** ** Committing a leader *)

Section commit_ok.
Context {S : Type} `{StoreLaws S} `{BlockCodec} `{CommitCodec} (ctx : Context) (G : BlockRef → option VerifiedBlock).
Context (byz : gset AuthorityIndex) (Hhonest : honest_node (S := S) ctx G byz).
Context (genesis : list VerifiedBlock) (fuel : nat).
Context (Hcodec : ∀ c, is_Some (bcs_commit_to_bytes c)).
Context (Hstorable : ∀ c bytes, bcs_commit_to_bytes c = Some bytes →
  st_commit_ok (TrustedCommit_new_trusted c bytes)).
Implicit Types (d : DagState S) (v : StoreView).
Abbreviation dag_ok := (dag_ok ctx G genesis).
Abbreviation commit_state := (commit_state ctx).

Lemma dag_commit_state d v : dag_ok d v → commit_state v G d.
Proof.
  clear Hcodec Hstorable. intros Hok. pose proof (dk_node _ _ _ _ _ Hok) as [Hview Hlen _ _].
  pose proof (dk_commits _ _ _ _ _ Hok) as [Hcl Hbelow].
  assert (Hc : ∀ r b, @api_cache _ _ (dag_api_laws ctx v) d !! r = Some (b, true) → committed d r ∧
    ∃ info, ds_recent_blocks d !! r = Some info ∧ bi_block info = b ∧ bi_committed info = true).
  { intros r b (info & Hi & Hb & Hcm)%cache_lookup. split; [by exists info|eauto]. }
  split; [done| | |done].
  - intros r b a (_ & info & Hi & <- & Hcm)%Hc Ha Hga.
    destruct (Hcl r info a Hi Hcm Ha Hga) as (i & Hi' & Hci). exists (bi_block i).
    change (cache_of d !! a = Some (bi_block i, true)). unfold cache_of. rewrite lookup_fmap, Hi'. simpl. by rewrite Hci.
  - intros r [b [Hr _]%Hc]. by apply Hbelow.
Qed.

Lemma add_commit_fields d c now d' : add_commit ctx d c now = Done d' →
  ds_threshold_clock d' = ds_threshold_clock d ∧
  (ds_commits_to_write d' = ds_commits_to_write d ∨ ds_commits_to_write d' = ds_commits_to_write d ++ [c]).
Proof. clear. unfold add_commit. intros ?. repeat (run_inv; try case_match); simpl; auto. Qed.

Lemma committed_api d v r : @api_committed _ _ (dag_api_laws ctx v) d r ↔ committed d r.
Proof.
  clear. unfold api_committed, committed. change (@api_cache _ _ (dag_api_laws ctx v) d) with (cache_of d).
  unfold cache_of. setoid_rewrite lookup_fmap_Some. split.
  - intros (b & info & [= <- Hc] & Hi). eauto.
  - intros (info & Hi & Hc). exists (bi_block info), info. by rewrite Hc.
Qed.

Lemma add_commit_last d commit now d' : last_commit_index d < tc_index commit → add_commit ctx d commit now = Done d' →
  ds_last_commit d' = Some commit ∧ ds_pending_commit_votes d' = ds_pending_commit_votes d ++ [TrustedCommit_reference commit].
Proof.
  clear. unfold last_commit_index, add_commit. destruct (ds_last_commit d) as [c|] eqn:Hc.
  - intros Hlt. rewrite bool_decide_eq_false_2 by lia. intros Hrun. repeat (run_inv; try case_match); done.
  - intros _ Hrun. repeat (run_inv; try case_match); done.
Qed.

Lemma commit_leader_ok d v leader now : dag_ok d v → next_leader v d leader →
  last_commit_index d + 1 ≤ u32_max → (size (ds_recent_blocks d) ≤ fuel)%nat →
  ∃ d1 sub_dag commit d', collect_sub_dag_and_commit ctx fuel d leader = Done (d1, (sub_dag, commit)) ∧
    add_commit ctx d1 commit now = Done d' ∧ commit_step ctx v G d leader d' sub_dag ∧ dag_ok d' v ∧
    ds_scoring_subdag d' = ds_scoring_subdag d ∧ ds_threshold_clock d' = ds_threshold_clock d ∧ ds_last_commit d' = Some commit ∧
    ds_pending_commit_votes d' = ds_pending_commit_votes d ++ [TrustedCommit_reference commit].
Proof using Hhonest Hcodec Hstorable.
  intros Hok Hnl Hmax Hfuel. pose proof (hn_universe _ _ _ Hhonest) as HU.
  pose proof (dag_commit_state d v Hok) as Hst.
  destruct (commit_leader_spec ctx v fuel G byz HU Hcodec d leader now Hst Hnl Hmax Hfuel)
    as (d1 & sd & commit & d' & Hrun & Hadd & Hcs).
  exists d1, sd, commit, d'. split; [done|]. split; [done|]. split; [done|].
  destruct (collect_sub_dag_spec ctx v fuel G byz HU Hcodec d leader Hst Hnl Hmax Hfuel)
    as (m & to_commit & t & bytes & Hrun' & Hinv & _ & Hbytes & _). rewrite Hrun in Hrun'. injection Hrun' as -> _ ->.
  set (tc := commit_of d leader to_commit t bytes) in *. set (d1 := set_recent_blocks m d) in *.
  destruct (add_commit_fields d1 tc now d' Hadd) as [Hclock Hcw]. simpl in Hclock.
  assert (Hrec : ds_recent_blocks d' = m ∧ ds_genesis d' = ds_genesis d ∧ ds_scoring_subdag d' = ds_scoring_subdag d).
  { unfold add_commit in Hadd. repeat (run_inv; try case_match); done. }
  destruct Hrec as (Hrec & Hgen & Hscore). pose proof (cs_state _ _ _ _ _ _ _ Hcs) as Hst'.
  assert (Hlinked : ∀ r info, m !! r = Some info → ∃ i, ds_recent_blocks d !! r = Some i ∧
    bi_block i = bi_block info ∧ bi_hard_linked i = bi_hard_linked info).
  { intros r info Hr. destruct (lv_same _ _ _ _ _ _ Hinv) as (m' & Heq & Hm').
    apply (f_equal ds_recent_blocks) in Heq. simpl in Heq. subst m'. specialize (Hm' r).
    pose proof (lv_blocks _ _ _ _ _ _ Hinv r) as Hb.
    change (fst <$> cache_of d1 !! r = fst <$> cache_of d !! r) in Hb. unfold cache_of in Hb. simpl in Hb.
    rewrite !lookup_fmap, Hr in Hb. rewrite Hr in Hm'.
    destruct (ds_recent_blocks d !! r) as [i|]; simplify_eq/=. eauto. }
  assert (Hgc : gc_round ctx d ≤ gc_round ctx d').
  { unfold gc_round, calculate_gc_round, saturating_sub. rewrite (cs_last_round _ _ _ _ _ _ _ Hcs).
    pose proof (nl_round _ _ _ Hnl). lia. }
  assert (Hk : known v d (vb_reference leader)) by (exists leader; apply Hnl).
  assert (Hlast : ds_last_commit d' = Some tc ∧
    ds_pending_commit_votes d' = ds_pending_commit_votes d1 ++ [TrustedCommit_reference tc]).
  { apply (add_commit_last d1 tc now); [|done]. change (last_commit_index d < last_commit_index d + 1). lia. }
  split; [|done]. split.
  - split; [apply Hst'|apply Hst'| |].
    + destruct Hcw as [->| ->]; [apply (dk_node _ _ _ _ _ Hok)|]. apply Forall_app. split; [apply (dk_node _ _ _ _ _ Hok)|].
      constructor; [|constructor]. by apply Hstorable.
    + unfold highest_accepted_round. rewrite (add_commit_frame ctx _ _ _ _ Hadd). apply (dk_node _ _ _ _ _ Hok).
  - split.
    + intros r info a Hr Hc Ha Hga. apply (committed_api _ v).
      apply (cst_closed _ _ _ _ Hst' r (bi_block info) a); [|done..].
      change (cache_of d' !! r = Some (bi_block info, true)). unfold cache_of. rewrite lookup_fmap, Hr. simpl. by rewrite Hc.
    + intros r Hr%(committed_api _ v). by apply (cst_below _ _ _ _ Hst').
  - rewrite Hrec. intros r info a (i & Hi & Hb & Hl)%Hlinked Hli Ha Hga.
    destruct (dk_links _ _ _ _ _ Hok r i a Hi) as [(i' & Hi' & Hl')|?]; [congruence|by rewrite Hb|lia| |by right].
    left. destruct (lv_same _ _ _ _ _ _ Hinv) as (m' & Heq & Hm').
    apply (f_equal ds_recent_blocks) in Heq. simpl in Heq. subst m'. specialize (Hm' a). rewrite Hi' in Hm'.
    destruct (m !! a) as [x|] eqn:Hx; simplify_eq/=. exists x. split; [done|congruence].
  - eapply clock_known_frame; [apply Hok|done|]. intros r. unfold known. by rewrite (cs_lookup _ _ _ _ _ _ _ Hcs).
  - rewrite Hgen. apply Hok.
  - rewrite (cs_last_round _ _ _ _ _ _ _ Hcs). apply (ck_max _ _ _ (dk_clock _ _ _ _ _ Hok)) in Hk.
    unfold threshold_clock_round, ThresholdClock_get_round. by rewrite Hclock.
Qed.

(** ** The state at the start *)

Lemma fresh_dag_ok store now : store_rel store view_empty → genesis_blocks ctx = Done genesis →
  dag_ok (fresh_dag ctx genesis store now) view_empty.
Proof using Hhonest.
  clear Hcodec Hstorable. intros Hrel Hg. destruct Hhonest as [HU Hown Hst (g & Hg' & HgG) Hv Hc].
  rewrite Hg in Hg'. injection Hg' as <-.
  pose proof (fresh_node_inv ctx G genesis Hg HgG Hv Hc store now Hrel) as Hni.
  split; [done| | | |done|unfold last_commit_round; simpl; lia].
  - split; [intros r info a; simpl; by rewrite lookup_empty|]. intros r (info & Hi & _). simpl in Hi. by rewrite lookup_empty in Hi.
  - intros r info a. simpl. by rewrite lookup_empty.
  - split; simpl; [done| |apply agg_ok_new|set_solver|by left].
    intros r [b Hb]. unfold dag_lookup in Hb. simpl in Hb. case_bool_decide as Hr; [rewrite Hr; unfold GENESIS_ROUND; lia|].
    by rewrite !lookup_empty in Hb.
Qed.
End commit_ok.
