(* ===== verification/Ledger.v ===== *)
(** * The ledger of commits

    What honest authorities commit, told without the state of any of them: the
    leaders that are final in the DAG of the network, the sub-dag of each, the
    scores and the schedules that follow from the commits before. The steps of
    the ledger are deterministic, because no two views of the DAG decide a
    leader differently; a node that follows it therefore agrees with every
    other that does. *)
From S2P Require Import Prelude Committee StakeAggregator Block ThresholdClock Commit LeaderScoring Store DagState DagStateProofs DagTraversal LeaderSchedule BaseCommitter CommitRule DagViews BlockManager BlockManagerProofs BlockManagerSafety Linearizer CommitObserver LinearizerProofs CommitSafety UniversalCommitter CoreState.

(** The blocks of the network with those that are committed, as a store for
    the linearizer. *)
Record Settled := mk_settled { st_committed : gset BlockRef; st_gc_round : Round }.

Record Ledger := mk_ledger {
  le_round : Round;
  le_sent : list CommittedSubDag;
  le_schedule : LeaderSchedule;
  le_scoring : ScoringSubdag;
}.

Section tip.
Implicit Types (sent : list CommittedSubDag).

(** The last commit. *)
Definition tip_index sent : CommitIndex := default 0 ((λ sd, cr_index (sd_commit_ref sd)) <$> last sent).
Definition tip_digest sent : CommitDigest := default CommitDigest_MIN ((λ sd, cr_digest (sd_commit_ref sd)) <$> last sent).
Definition tip_timestamp sent : BlockTimestampMs := default 0 (sd_timestamp_ms <$> last sent).
Definition tip_round sent : Round := default 0 ((λ sd, br_round (sd_leader sd)) <$> last sent).
End tip.

Section ledger.
Context {S : Type} `{StoreLaws S} `{CommitCodec} `{Rng} (ctx : Context) (fuel : nat).
Context (G : BlockRef → option VerifiedBlock).
Implicit Types (l : Ledger) (sent : list CommittedSubDag).
Abbreviation cm := (ctx_committee ctx).

#[local] Instance settled_api : BlockStoreAPI Settled := {|
  api_get_blocks := λ _ refs, Done (G <$> refs);
  api_gc_round := st_gc_round;
  api_set_committed := λ p r,
    if decide (r ∈ st_committed p) then Done (p, false)
    else Done (mk_settled ({[r]} ∪ st_committed p) (st_gc_round p), true);
  api_is_committed := λ p r, Done (bool_decide (r ∈ st_committed p));
|}.

(** The sub-dag of a leader after the commits [sent]. *)
Definition sub_dag_of sent (leader : VerifiedBlock) : run CommittedSubDag :=
  let p := mk_settled (list_to_set (committed_refs sent)) (calculate_gc_round ctx (tip_round sent)) in
  '(p, blocks) ← linearize_sub_dag fuel leader p;
  timestamp_ms ← calculate_commit_timestamp ctx p leader (tip_timestamp sent);
  let commit := Commit_new (u32_add (tip_index sent) 1) (tip_digest sent) timestamp_ms (vb_reference leader) (vb_reference <$> blocks) in
  serialized ← expect (bcs_commit_to_bytes commit);
  Done (CommittedSubDag_new (vb_reference leader) blocks timestamp_ms
          (TrustedCommit_reference (TrustedCommit_new_trusted commit serialized))).

(** The first sub-dag under a schedule tells the scores it was made from. *)
Definition labelled (s : LeaderSchedule) (scoring : ScoringSubdag) (sd : CommittedSubDag) : CommittedSubDag :=
  if ScoringSubdag_is_empty scoring
  then set_reputation_scores_desc (lt_reputation_scores_desc (ls_leader_swap_table s)) (set_local true sd)
  else set_local true sd.

(** The schedule that the scores of a period lead to. *)
Definition next_schedule (s : LeaderSchedule) (scoring : ScoringSubdag) : run LeaderSchedule :=
  reputation_scores ← ScoringSubdag_calculate_distributed_vote_scores cm scoring;
  range ← expect (ss_commit_range scoring);
  table ← LeaderSwapTable_new ctx (CommitRange_end range) reputation_scores;
  update_leader_swap_table s table.

(** Some view of the DAG decides the leader of a round under a schedule. *)
Definition final (s : LeaderSchedule) (round : Round) (status : LeaderStatus) : Prop :=
  LeaderStatus_is_decided status ∧
  ∃ i (d : DagState S) v later, view_ok (own_context ctx i) G d v ∧ decisions_ok (own_context ctx i) G d v (status :: later) ∧
    ∀ k st, (status :: later) !! k = Some st →
      slots_at ctx s (round + N.of_nat k) pipelined_committers = [LeaderStatus_slot st].

Definition has_scored (l : Ledger) (n : N) : Prop := ScoringSubdag_scored_subdags_count (le_scoring l) = Done n.

Inductive ledger_step : Ledger → Ledger → Prop :=
| ls_refresh l s :
    has_scored l (ls_num_commits_per_schedule (le_schedule l)) → next_schedule (le_schedule l) (le_scoring l) = Done s →
    ledger_step l (mk_ledger (le_round l) (le_sent l) s ScoringSubdag_new)
| ls_skip l n slot :
    has_scored l n → n < ls_num_commits_per_schedule (le_schedule l) →
    final (le_schedule l) (le_round l + 1) (LSkip slot) →
    ledger_step l (mk_ledger (le_round l + 1) (le_sent l) (le_schedule l) (le_scoring l))
| ls_commit l n leader sd scoring :
    has_scored l n → n < ls_num_commits_per_schedule (le_schedule l) →
    final (le_schedule l) (le_round l + 1) (LCommit leader) → sub_dag_of (le_sent l) leader = Done sd →
    ScoringSubdag_add_subdag cm (le_scoring l) (labelled (le_schedule l) (le_scoring l) sd) = Done scoring →
    ledger_step l (mk_ledger (le_round l + 1) (le_sent l ++ [labelled (le_schedule l) (le_scoring l) sd]) (le_schedule l) scoring).

(** Before the first round. *)
Definition ledger_genesis : Ledger := mk_ledger GENESIS_ROUND [] (LeaderSchedule_new LeaderSwapTable_default) ScoringSubdag_new.

(** ** Determinism *)

Context (byz : gset AuthorityIndex) (HU : universe_ok (ctx_committee ctx) G byz).

Lemma final_agree s round st1 st2 : final s round st1 → final s round st2 → st1 = st2.
Proof using HU.
  intros [Hd1 (i1 & d1 & v1 & l1 & Hv1 & Hok1 & Hs1)] [Hd2 (i2 & d2 & v2 & l2 & Hv2 & Hok2 & Hs2)].
  apply (decisions_agree ctx G byz HU i1 i2 d1 v1 d2 v2 (st1 :: l1) (st2 :: l2) Hv1 Hv2 Hok1 Hok2) with O; try done.
  intros k a b Ha Hb. specialize (Hs1 k a Ha). specialize (Hs2 k b Hb). congruence.
Qed.

Lemma ledger_step_det l l1 l2 : ledger_step l l1 → ledger_step l l2 → l1 = l2.
Proof using HU.
  unfold has_scored. intros Hl1 Hl2. destruct Hl1 as [l s Hc1 Hs1|l n slot Hc1 Hn1 Hf1|l n b sd sc Hc1 Hn1 Hf1 Hd1 Ha1];
    inversion Hl2 as [? s' Hc2 Hs2|? n' slot' Hc2 Hn2 Hf2|? n' b' sd' sc' Hc2 Hn2 Hf2 Hd2 Ha2]; subst;
    unfold has_scored in *; rewrite Hc1 in Hc2; try (injection Hc2 as Hc2; subst); try lia; try done.
  - by assert (s = s') as -> by congruence.
  - by pose proof (final_agree _ _ _ _ Hf1 Hf2).
  - by pose proof (final_agree _ _ _ _ Hf1 Hf2).
  - pose proof (final_agree _ _ _ _ Hf1 Hf2) as [= <-]. assert (sd = sd') as <- by congruence. by assert (sc = sc') as <- by congruence.
Qed.

Lemma ledger_step_prefix l l' : ledger_step l l' → le_sent l `prefix_of` le_sent l'.
Proof. clear. intros []; simpl; [done|done|]. by eexists. Qed.

Lemma ledger_prefix l l' : rtc ledger_step l l' → le_sent l `prefix_of` le_sent l'.
Proof. clear. induction 1 as [|l1 l2 l3 Hs _ IH]; [done|]. etrans; [by apply ledger_step_prefix|done]. Qed.

(** Two ledgers are the same up to how far they got. *)
Lemma ledger_agree l l1 l2 : rtc ledger_step l l1 → rtc ledger_step l l2 →
  le_sent l1 `prefix_of` le_sent l2 ∨ le_sent l2 `prefix_of` le_sent l1.
Proof using HU.
  intros Hr1 Hr2. revert l2 Hr2. induction Hr1 as [l|l a l1 Hs Hr1 IH]; intros l2 Hr2; [left; by apply ledger_prefix|].
  destruct Hr2 as [l|l b l2 Hs' Hr2].
  - right. apply ledger_prefix. by econstructor.
  - pose proof (ledger_step_det _ _ _ Hs Hs') as ->. by apply IH.
Qed.
End ledger.

(** The ledger is the same for all authorities. *)
Lemma ledger_step_own {S : Type} `{StoreLaws S} `{CommitCodec} `{Rng} ctx fuel G i l l' :
  ledger_step (S := S) (own_context ctx i) fuel G l l' → ledger_step (S := S) ctx fuel G l l'.
Proof. intros [? s Hc Hs|? n slot Hc Hn Hf|? n leader sd scoring Hc Hn Hf Hsd Ha]; [by apply ls_refresh|by eapply ls_skip|by eapply ls_commit]. Qed.

(** ** Nodes that follow the ledger *)

Section follow.
Context {S : Type} `{StoreLaws S} `{BlockCodec} `{CommitCodec} `{Rng} (ctx : Context) (fuel : nat).
Context (G : BlockRef → option VerifiedBlock) (v : StoreView).
Implicit Types (d : DagState S) (p : Settled) (sent : list CommittedSubDag).
#[local] Existing Instance settled_api.
#[local] Instance dag_store_api : BlockStoreAPI (DagState S) := DagState_api ctx.

(** The cache of a DAG state shows what is settled above a round. *)
Record shows (gc : Round) d p : Prop := {
  sw_inv : dag_inv ctx d v;
  sw_blocks r b : dag_lookup d v r = Some b → G r = Some b;
  sw_committed r info : ds_recent_blocks d !! r = Some info → gc < br_round r → bi_committed info = true ↔ r ∈ st_committed p;
}.
Abbreviation pure := (@settled_api G).

Lemma flags_lookup d r info c : ds_recent_blocks d !! r = Some info → ∀ r',
  dag_lookup (set_recent_blocks (<[r := mk_info (bi_block info) c (bi_hard_linked info)]> (ds_recent_blocks d)) d) v r' = dag_lookup d v r'.
Proof.
  clear. intros Hi r'. unfold dag_lookup. cbn. destruct (decide (r = r')) as [<-|Hne]; [by rewrite lookup_insert_eq, Hi|by rewrite lookup_insert_ne].
Qed.

Lemma set_committed_shows gc d p r d' fresh : shows gc d p → gc < br_round r → set_committed d r = Done (d', fresh) →
  ∃ p', @api_set_committed _ pure p r = Done (p', fresh) ∧ shows gc d' p' ∧ st_gc_round p' = st_gc_round p.
Proof.
  clear. intros [Hinv Hb Hc] Hgc. unfold set_committed. destruct (ds_recent_blocks d !! r) as [info|] eqn:Hi; [|done]. cbn.
  pose proof (Hc r info Hi Hgc) as Hr. destruct (bi_committed info) eqn:Hflag; intros [= <- <-].
  - exists p. rewrite decide_True by (by apply Hr). done.
  - assert (Hn : r ∉ st_committed p) by (intros ?%Hr; done). rewrite decide_False by done. eexists. split; [done|]. split; [|done]. split.
    + apply dag_inv_flags; [done|]. intros r'.
      destruct (decide (r' = r)) as [->|]; [by rewrite lookup_insert_eq, Hi|by rewrite lookup_insert_ne].
    + intros r' b'. rewrite flags_lookup by done. apply Hb.
    + intros r' info' Hi' Hgc'. cbn in Hi' |- *. rewrite elem_of_union, elem_of_singleton.
      destruct (decide (r = r')) as [<-|Hne].
      * rewrite lookup_insert_eq in Hi'. injection Hi' as <-. cbn. naive_solver.
      * rewrite lookup_insert_ne in Hi' by done. rewrite (Hc r' info' Hi' Hgc'). naive_solver.
Qed.

Lemma get_blocks_shows gc d p refs opts blocks : shows gc d p → get_blocks d refs = Done opts → map_run expect opts = Done blocks →
  map_run expect (G <$> refs) = Done blocks.
Proof.
  clear. intros [Hinv Hb _]. rewrite (get_blocks_spec ctx d v) by done. intros [= <-] Hm%map_run_Done. apply map_run_Done.
  rewrite Forall2_fmap_l in Hm |- *. eapply Forall2_impl; [exact Hm|]. intros r b. cbn. intros Hr%expect_Done. apply expect_Done. by apply Hb.
Qed.

Lemma filter_shows gc d p refs kept : shows gc d p →
  filter_run (λ ancestor, if bool_decide (gc < br_round ancestor)
    then committed ← is_committed d ancestor; Done (negb committed) else Done false) refs = Done kept →
  filter_run (λ ancestor, if bool_decide (gc < br_round ancestor)
    then committed ← @api_is_committed _ pure p ancestor; Done (negb committed) else Done false) refs = Done kept ∧
  Forall (λ r, gc < br_round r) kept.
Proof.
  clear. intros Hs. revert kept. induction refs as [|r refs IH]; intros kept Hrun; [by injection Hrun as <-|]. cbn [filter_run] in *.
  apply bind_Done in Hrun as (b & Hb & (ys & Hys & [= <-])%bind_Done). destruct (IH ys Hys) as [-> Hf].
  destruct (bool_decide_reflect (gc < br_round r)) as [Hgc|Hgc]; [|injection Hb as <-; by split].
  unfold is_committed in Hb. destruct (ds_recent_blocks d !! r) as [info|] eqn:Hi; [|done]. cbn in Hb. injection Hb as <-.
  pose proof (sw_committed _ _ _ Hs r info Hi Hgc) as Hc. cbn.
  assert (bool_decide (r ∈ st_committed p) = bi_committed info) as ->.
  { destruct (bi_committed info); [apply bool_decide_eq_true_2; naive_solver|apply bool_decide_eq_false_2; naive_solver]. }
  split; [done|]. destruct (bi_committed info); [done|]. by constructor.
Qed.

Lemma mark_shows gc d p buffer blocks d' buffer' : shows gc d p → Forall (λ b, gc < vb_round b) blocks →
  for_each (λ '(d, buffer) ancestor, '(d, fresh) ← set_committed d (vb_reference ancestor);
    assert! (fresh : bool); Done (d, ancestor :: buffer)) (d, buffer) blocks = Done (d', buffer') →
  ∃ p', for_each (λ '(p, buffer) ancestor, '(p, fresh) ← @api_set_committed _ pure p (vb_reference ancestor);
    assert! (fresh : bool); Done (p, ancestor :: buffer)) (p, buffer) blocks = Done (p', buffer') ∧ shows gc d' p'.
Proof.
  clear. intros Hs Hf. revert d p buffer Hs. induction Hf as [|b blocks Hb _ IH]; intros d p buffer Hs Hrun.
  { injection Hrun as <- <-. by exists p. }
  cbn [for_each] in Hrun |- *. apply bind_Done in Hrun as ([d1 buffer1] & Hstep & Hrun).
  apply bind_Done in Hstep as ([d2 fresh] & Hset & Hstep). destruct fresh; [|done]. injection Hstep as -> <-.
  destruct (set_committed_shows gc d p (vb_reference b) d1 true Hs Hb Hset) as (p1 & -> & Hs1 & _). cbn [mbind run_bind].
  by apply (IH d1 p1).
Qed.

Lemma linearize_loop_shows n gc d p buffer acc d' blocks : shows gc d p →
  linearize_loop n gc d buffer acc = Done (d', blocks) →
  ∃ p', @linearize_loop _ pure n gc p buffer acc = Done (p', blocks) ∧ shows gc d' p'.
Proof.
  clear. revert d p buffer acc. induction n as [|n IH]; intros d p [|x buffer] acc Hs Hrun; cbn [linearize_loop] in *;
    [injection Hrun as <- <-; by exists p|done|injection Hrun as <- <-; by exists p|].
  apply bind_Done in Hrun as (refs & Hrefs & (opts & Hopts & (ancestors & Hanc & ([d1 buffer1] & Hmark & Hrun)%bind_Done)%bind_Done)%bind_Done).
  destruct (filter_shows gc d p _ refs Hs Hrefs) as [-> Hgc]. cbn [mbind run_bind].
  change (@api_get_blocks _ pure p refs) with (Done (G <$> refs)). cbn [mbind run_bind].
  rewrite (get_blocks_shows gc d p refs opts ancestors Hs Hopts Hanc). cbn [mbind run_bind].
  assert (Hgb : Forall (λ b, gc < vb_round b) ancestors).
  { change (api_get_blocks d refs) with (get_blocks d refs) in Hopts. rewrite (get_blocks_spec ctx d v) in Hopts by apply Hs.
    injection Hopts as <-. apply map_run_Done in Hanc. rewrite Forall2_fmap_l in Hanc. clear -Hanc Hgc Hs. revert Hgc.
    induction Hanc as [|r b refs bs Hb _ IH]; intros Hgc; constructor; apply Forall_cons in Hgc as [Hr Hgc]; [|by apply IH].
    apply expect_Done in Hb. assert (vb_reference b = r) as <-; [|done]. apply (dag_lookup_reference ctx d v); [apply Hs|unfold GENESIS_ROUND; lia|done]. }
  destruct (mark_shows gc d p buffer ancestors d1 buffer1 Hs Hgb Hmark) as (p1 & -> & Hs1). cbn [mbind run_bind]. by apply (IH d1 p1).
Qed.

(** The last commit and the committed blocks of a node are those of [sent], and it has votes for these commits only. *)
Record tied d sent : Prop := {
  td_index : last_commit_index d = tip_index sent;
  td_digest : last_commit_digest d = tip_digest sent;
  td_timestamp : last_commit_timestamp_ms d = tip_timestamp sent;
  td_round : last_commit_round d = tip_round sent;
  td_committed r : r ∈ committed_refs sent → committed d r ∨ br_round r ≤ gc_round ctx d;
  td_only r : committed d r → r ∈ committed_refs sent;
  td_votes x : x ∈ ds_pending_commit_votes d → x ∈ sd_commit_ref <$> sent;
}.

Lemma tied_frame d d' sent : tied d sent → ds_last_commit d' = ds_last_commit d →
  (∀ r, committed d r → committed d' r ∨ br_round r ≤ gc_round ctx d) → (∀ r, committed d' r → committed d r) →
  (∀ x, x ∈ ds_pending_commit_votes d' → x ∈ ds_pending_commit_votes d) → tied d' sent.
Proof.
  clear. intros [Hi Hd Ht Hr Hc Ho Hv] Hl Hrc Hro Hvo. pose proof (commit_gc_round ctx d d' Hl) as Hgc.
  split; [unfold last_commit_index in *|unfold last_commit_digest in *|unfold last_commit_timestamp_ms in *|unfold last_commit_round in *|..];
    rewrite ?Hl, ?Hgc; [done..| | |].
  - intros r [Hr'|Hr']%Hc; [by apply Hrc|by right].
  - intros r Hr'. by apply Ho, Hro.
  - intros x Hx. by apply Hv, Hvo.
Qed.
Lemma tied_retained d d' sent : tied d sent → retained ctx d d' → tied d' sent.
Proof. clear. intros Ht [? _ ? ? ?]. by eapply tied_frame. Qed.

Lemma tied_shows d sent : dag_inv ctx d v → (∀ r b, dag_lookup d v r = Some b → G r = Some b) → tied d sent →
  shows (gc_round ctx d) d (mk_settled (list_to_set (committed_refs sent)) (gc_round ctx d)).
Proof.
  clear. intros Hinv Hb [_ _ _ _ Hc Ho _]. split; [done..|]. intros r info Hi Hgc. cbn. rewrite elem_of_list_to_set. split.
  - intros Hf. apply Ho. by exists info.
  - intros [(info' & Hi' & Hf)|Hle]%Hc; [congruence|lia].
Qed.

(** The code collects the sub-dag of the ledger. *)
Lemma collect_follows d sent leader d1 sd commit : dag_inv ctx d v → (∀ r b, dag_lookup d v r = Some b → G r = Some b) →
  tied d sent → gc_round ctx d < vb_round leader → collect_sub_dag_and_commit ctx fuel d leader = Done (d1, (sd, commit)) →
  sub_dag_of ctx fuel G sent leader = Done sd ∧ sd_leader sd = vb_reference leader ∧ tc_leader commit = vb_reference leader ∧
  tc_timestamp_ms commit = sd_timestamp_ms sd ∧ sd_commit_ref sd = TrustedCommit_reference commit.
Proof.
  clear. intros Hinv Hb Ht Hgc Hrun. pose proof (tied_shows d sent Hinv Hb Ht) as Hs. destruct Ht as [Hi Hd Hts Hr _ _ _].
  unfold collect_sub_dag_and_commit in Hrun. apply bind_Done in Hrun as ([d2 to_commit] & Hlin & Hrun).
  apply bind_Done in Hrun as (ts & Hts' & (bytes & Hbytes & Hrun)%bind_Done). injection Hrun as -> <- <-.
  unfold linearize_sub_dag in Hlin. apply bind_Done in Hlin as ([d3 fresh] & Hset & Hlin). destruct fresh; [|done].
  cbn [mbind run_bind] in Hlin. apply bind_Done in Hlin as ([d4 blocks] & Hloop & Hlin).
  destruct (forallb _ blocks) eqn:Hall; [|done]. injection Hlin as -> <-.
  destruct (set_committed_shows _ _ _ (vb_reference leader) _ _ Hs Hgc Hset) as (p1 & Hp1 & Hs1 & _).
  destruct (linearize_loop_shows fuel _ d3 p1 [leader] [] d1 blocks Hs1 Hloop) as (p2 & Hp2 & Hs2).
  unfold sub_dag_of. rewrite <-Hi, <-Hd, <-Hts, <-Hr. fold (gc_round ctx d).
  unfold linearize_sub_dag. cbn [api_gc_round settled_api st_gc_round].
  change (api_gc_round d) with (gc_round ctx d) in *. rewrite Hp1. cbn [mbind run_bind]. rewrite Hp2. cbn [mbind run_bind].
  rewrite Hall. cbn [mbind run_bind].
  unfold calculate_commit_timestamp in Hts' |- *. apply bind_Done in Hts' as (opts & Hopts & (bs & Hbs & Hmed)%bind_Done).
  change (@api_get_blocks _ pure p2 ?refs) with (Done (G <$> refs)). cbn [mbind run_bind].
  rewrite (get_blocks_shows _ d1 p2 _ opts bs Hs2 Hopts Hbs). cbn [mbind run_bind]. rewrite Hmed. cbn [mbind run_bind].
  rewrite Hbytes. cbn [expect mbind run_bind]. by split_and!.
Qed.

(** Sub-dags that differ in what consumers are told about them. *)
Definition relabelled (sd sd' : CommittedSubDag) : Prop :=
  sd_leader sd' = sd_leader sd ∧ sd_blocks sd' = sd_blocks sd ∧ sd_commit_ref sd' = sd_commit_ref sd ∧
  sd_timestamp_ms sd' = sd_timestamp_ms sd.

Lemma relabelled_leaders sds sds' : Forall2 relabelled sds sds' → sd_leader <$> sds' = sd_leader <$> sds.
Proof. clear. induction 1 as [|?? ?? (? & _)]; csimpl; congruence. Qed.
Lemma relabelled_refs sds sds' : Forall2 relabelled sds sds' → committed_refs sds' = committed_refs sds.
Proof. clear. unfold committed_refs. induction 1 as [|?? ?? (_ & ? & _)]; csimpl; congruence. Qed.

Lemma relabelled_commit_refs sds sds' : Forall2 relabelled sds sds' → sd_commit_ref <$> sds' = sd_commit_ref <$> sds.
Proof. clear. induction 1 as [|?? ?? (_ & _ & ? & _)]; csimpl; congruence. Qed.

Lemma relabelled_tip sds sds' : Forall2 relabelled sds sds' →
  tip_index sds' = tip_index sds ∧ tip_digest sds' = tip_digest sds ∧ tip_timestamp sds' = tip_timestamp sds ∧ tip_round sds' = tip_round sds.
Proof.
  clear. intros Hre. unfold tip_index, tip_digest, tip_timestamp, tip_round.
  destruct sds as [|sd sds _] using rev_ind; [by apply Forall2_nil_inv_l in Hre as ->|].
  apply Forall2_app_inv_l in Hre as (l1 & l2 & _ & (sd' & l3 & (Hl & _ & Hc & Ht) & ->%Forall2_nil_inv_l & ->)%Forall2_cons_inv_l & ->).
  rewrite !last_snoc. cbn. by rewrite Hl, Hc, Ht.
Qed.

Lemma sub_dag_relabelled sent sent' leader : Forall2 relabelled sent sent' →
  sub_dag_of ctx fuel G sent' leader = sub_dag_of ctx fuel G sent leader.
Proof.
  clear. intros Hre. destruct (relabelled_tip _ _ Hre) as (Hi & Hd & Ht & Hr). unfold sub_dag_of.
  by rewrite (relabelled_refs _ _ Hre), Hi, Hd, Ht, Hr.
Qed.

Lemma tied_relabelled d sent sent' : Forall2 relabelled sent sent' → tied d sent → tied d sent'.
Proof.
  clear. intros Hre [? ? ? ? Hc Ho Hv]. destruct (relabelled_tip _ _ Hre) as (Hi & Hd & Ht & Hr).
  split; rewrite ?Hi, ?Hd, ?Ht, ?Hr, ?(relabelled_refs _ _ Hre), ?(relabelled_commit_refs _ _ Hre); done.
Qed.

Lemma labelled_relabelled s scoring sd : relabelled sd (labelled s scoring sd).
Proof. clear. unfold labelled. by destruct (ScoringSubdag_is_empty scoring). Qed.

(** The sub-dags of a batch as they are sent. *)
Definition label_all (s : LeaderSchedule) (scoring : ScoringSubdag) (sds : list CommittedSubDag) : list CommittedSubDag :=
  match sds with [] => [] | sd :: sds => labelled s scoring sd :: (set_local true <$> sds) end.

Lemma label_relabelled s scoring sds : Forall2 relabelled sds (label_all s scoring sds).
Proof.
  clear. destruct sds as [|sd sds]; constructor; [apply labelled_relabelled|]. induction sds; csimpl; constructor; done.
Qed.

(** The leaders of a batch, each after the one before. *)
Inductive follows : list CommittedSubDag → list VerifiedBlock → list CommittedSubDag → Prop :=
| fo_nil sent : follows sent [] []
| fo_cons sent leader leaders sd sds : sub_dag_of ctx fuel G sent leader = Done sd →
    follows (sent ++ [sd]) leaders sds → follows sent (leader :: leaders) (sd :: sds).

Lemma follows_relabelled sent sent' leaders sds : Forall2 relabelled sent sent' → follows sent leaders sds → follows sent' leaders sds.
Proof.
  clear. intros Hre Hf. revert sent' Hre. induction Hf as [|sent leader leaders sd sds Hsd _ IH]; intros sent' Hre; constructor.
  - by rewrite (sub_dag_relabelled sent).
  - apply IH, Forall2_app; [done|]. by repeat constructor.
Qed.

(** One more commit. *)
Lemma commit_tied d sent leader d1 sd commit d' : dag_inv ctx d v → (∀ r b, dag_lookup d v r = Some b → G r = Some b) →
  tied d sent → gc_round ctx d < vb_round leader → collect_sub_dag_and_commit ctx fuel d leader = Done (d1, (sd, commit)) →
  commit_step ctx v G d leader d' sd → ds_last_commit d' = Some commit →
  (∀ x, x ∈ ds_pending_commit_votes d' → x ∈ ds_pending_commit_votes d ∨ x = TrustedCommit_reference commit) →
  sub_dag_of ctx fuel G sent leader = Done sd ∧ tied d' (sent ++ [sd]).
Proof.
  clear. intros Hinv Hb Ht Hgc Hrun Hcs Hlast Hvotes.
  destruct (collect_follows d sent leader d1 sd commit Hinv Hb Ht Hgc Hrun) as (Hsd & Hl & Hcl & Hts & Href). split; [done|].
  destruct Ht as [_ _ _ _ Hc Ho Hv].
  split; unfold last_commit_index, last_commit_digest, last_commit_timestamp_ms, last_commit_round, tip_index, tip_digest, tip_timestamp, tip_round;
    rewrite ?Hlast, ?last_snoc; cbn [default fmap option_fmap option_map].
  - by rewrite Href.
  - by rewrite Href.
  - done.
  - by rewrite Hcl, Hl.
  - intros r. unfold committed_refs. rewrite bind_app, bind_singleton, elem_of_app. intros [[Hr|Hr]%Hc|Hr].
    + left. apply (committed_api ctx d' v), (cs_committed _ _ _ _ _ _ _ Hcs). left. by apply (committed_api ctx).
    + right. pose proof (cs_gc _ _ _ _ _ _ _ Hcs). lia.
    + left. apply (committed_api ctx d' v), (cs_committed _ _ _ _ _ _ _ Hcs). by right.
  - intros r Hr%(committed_api ctx d' v). apply (cs_committed _ _ _ _ _ _ _ Hcs) in Hr. unfold committed_refs.
    rewrite bind_app, bind_singleton, elem_of_app. destruct Hr as [Hr|Hr]; [left|by right]. apply Ho. by apply (committed_api ctx) in Hr.
  - intros x [Hx| ->]%Hvotes; rewrite fmap_app, elem_of_app; [left; by apply Hv|right]. rewrite <-Href. by apply list_elem_of_singleton.
Qed.
End follow.
