(* ===== verification/CoreProposal.v ===== *)
(** * Proposing a block

    The ancestors that core selects make a block that verification accepts,
    whatever the authorities excluded by their scores, and the proposal is
    accepted by the node's own DAG state without anything missing. *)
From S2P Require Import Prelude Committee StakeAggregator Block ThresholdClock Commit LeaderScoring Store DagState DagStateProofs DagTraversal LeaderSchedule BaseCommitter CommitRule BlockVerifier TransactionConsumer DagViews BlockManager BlockManagerProofs BlockManagerSafety Linearizer CommitObserver LinearizerProofs CommitSafety UniversalCommitter QuorumRounds Ancestor TransactionCertifier CertifierProofs Core CoreState.

(** ** Counting the authors of a list of blocks *)

Section counting.
Context (c : Committee) (Hok : committee_ok c).
Implicit Types (agg : StakeAggregator QuorumThreshold).

Lemma count_authors agg (bs : list VerifiedBlock) : agg_ok c agg →
  Forall (λ b, Committee_is_valid_index c (vb_author b)) bs →
  ∃ agg', for_each (λ agg b, '(agg, _) ← StakeAggregator_add agg (vb_author b) c; Done agg) agg bs = Done agg' ∧
    agg_ok c agg' ∧ sa_votes agg' = sa_votes agg ∪ list_to_set (vb_author <$> bs).
Proof using Hok.
  intros Hagg Hv. revert agg Hagg. induction Hv as [|b bs Hb _ IH]; intros agg Hagg.
  { exists agg. split_and!; [done..|set_solver]. }
  destruct (StakeAggregator_add_spec c Hok agg (vb_author b) Hagg Hb) as (agg1 & Hadd & Hagg1 & Hvotes).
  destruct (IH agg1 Hagg1) as (agg' & Hrun & Hagg' & Hvotes'). exists agg'. simpl. rewrite Hadd. simpl.
  split_and!; [done..|]. rewrite Hvotes', Hvotes. csimpl. set_solver.
Qed.

Lemma reached_quorum agg : agg_ok c agg →
  StakeAggregator_reached_threshold agg c = bool_decide (c_quorum_threshold c ≤ set_stake c (sa_votes agg)).
Proof. clear Hok. intros [Hs _]. unfold StakeAggregator_reached_threshold. by rewrite Hs. Qed.
End counting.

(** ** Selecting the ancestors *)

Section selection.
Context {S : Type} `{StoreLaws S} (ctx : Context) (d : DagState S) (v : StoreView) (R : Round).
Context (Hcm : committee_ok (ctx_committee ctx)) (Hinv : dag_inv ctx d v) (HR : 1 ≤ R ≤ u32_max).
Implicit Types (inc : list VerifiedBlock) (pend : list (N * VerifiedBlock)) (exc : gset BlockRef).
Abbreviation cm := (ctx_committee ctx).
Abbreviation own := (ctx_own_index ctx).
Abbreviation valid := (Committee_is_valid_index cm).

(** A block that may be an ancestor of a proposal of round [R]. *)
Record candidate (b : VerifiedBlock) : Prop := {
  cd_valid : valid (vb_author b);
  cd_known : dag_lookup d v (vb_reference b) = Some b;
  cd_round : vb_round b < R;
}.

(** The references of the last included ancestors. *)
Record included_ok (l : list (option BlockRef)) (bound : Round) : Prop := {
  io_length : length l = Committee_size cm;
  io_round a r : l !! a = Some (Some r) → br_round r < bound;
}.

(** After looking at the first [k] authorities: the blocks to include and the
    blocks of excluded authorities, one per authority, and every parent. *)
Record selected (k : nat) inc pend exc : Prop := {
  se_distinct : NoDup (vb_author <$> inc ++ pend.*2);
  se_seen b : b ∈ inc ++ pend.*2 → candidate b ∧ vb_author b ≠ own ∧ (vb_author b < k)%nat;
  se_parents r : known v d r → br_round r + 1 = R → br_author r ≠ own → (br_author r < k)%nat →
    ∃ b, b ∈ inc ++ pend.*2 ∧ vb_author b = br_author r ∧ vb_round b + 1 = R;
  se_excluded r : r ∈ exc → valid (br_author r);
}.

Lemma valid_lt a : valid a ↔ (a < Committee_size cm)%nat.
Proof. clear. unfold Committee_is_valid_index. by rewrite bool_decide_spec. Qed.

(** An authority without a parent, or the own one, adds nothing. *)
Lemma selected_skip k inc pend exc : selected k inc pend exc →
  (∀ r, known v d r → br_round r + 1 = R → br_author r ≠ own → br_author r = k → False) →
  selected (Datatypes.S k) inc pend exc.
Proof.
  clear. intros [Hd Hs Hp He] Hk. split; [done| | |done].
  - intros b Hb. destruct (Hs b Hb) as (? & ? & ?). split_and!; [done..|lia].
  - intros r Hr Hrd Ho Hlt. destruct (decide (br_author r = k)) as [Heq|Hne]; [by destruct (Hk r)|].
    apply Hp; [done..|lia].
Qed.

(** A block of the next authority joins one of the lists. *)
Lemma selected_add k inc pend exc inc' pend' exc' b : selected k inc pend exc → candidate b →
  vb_author b = k → k ≠ own → (∀ r, known v d r → br_author r = k → br_round r + 1 = R → vb_round b + 1 = R) →
  inc' ++ pend'.*2 ≡ₚ b :: inc ++ pend.*2 → (∀ r, r ∈ exc' → r ∈ exc ∨ valid (br_author r)) →
  selected (Datatypes.S k) inc' pend' exc'.
Proof.
  clear. intros [Hd Hs Hp He] Hb Ha Ho Hpar Hperm Hexc. split.
  - rewrite Hperm. csimpl. apply NoDup_cons. split; [|done].
    intros (b' & Heq & Hb')%list_elem_of_fmap. destruct (Hs b' Hb') as (_ & _ & Hlt). lia.
  - intros b'. rewrite Hperm, elem_of_cons. intros [->|Hb']; [split_and!; [done|congruence|lia]|].
    destruct (Hs b' Hb') as (? & ? & ?). split_and!; [done..|lia].
  - intros r Hr Hrd Hro Hlt. destruct (decide (br_author r = k)) as [Heq|Hne].
    + exists b. rewrite Hperm. split_and!; [by left|congruence|by apply (Hpar r)].
    + destruct (Hp r) as (b' & Hb' & ? & ?); [done..|lia|]. exists b'. rewrite Hperm. split_and!; [by right|done..].
  - intros r [?|?]%Hexc; auto.
Qed.

Context (c : Core S) (states : list AncestorState).
Context (Hlast : included_ok (co_last_included_ancestors c) (R - 1)).
Context (Hstates : length states = Committee_size cm).

Lemma select_ancestor_step k inc pend exc own_block b eqs : selected k inc pend exc →
  (k < Committee_size cm)%nat → latest_below d v R k b → Forall (λ r, br_author r = k) eqs →
  ∃ inc' pend' exc', select_ancestor ctx c states (own_block :: inc, pend, exc) (b, eqs) =
      Done (own_block :: inc', pend', exc') ∧ selected (Datatypes.S k) inc' pend' exc'.
Proof using HR Hlast Hstates.
  intros Hsel Hk [Ha Hkn Hrd Hpar] Heqs. unfold select_ancestor. rewrite Ha.
  assert (Hb : candidate b) by (split; [by rewrite Ha; apply valid_lt|done..]).
  case_bool_decide as Ho.
  { exists inc, pend, exc. split; [done|]. apply selected_skip; [done|]. intros r _ _ Hr Heq. congruence. }
  destruct (lookup_lt_is_Some_2 (co_last_included_ancestors c) k) as [o Hl]; [by rewrite (io_length _ _ Hlast)|].
  unfold vec_get. rewrite Hl. simpl.
  destruct (match o with Some r => bool_decide (vb_round b ≤ br_round r) | None => false end) eqn:Hskip.
  { exists inc, pend, exc. split; [done|]. apply selected_skip; [done|]. intros r Hr Hr1 _ Har.
    destruct o as [x|]; [|done]. apply bool_decide_eq_true in Hskip.
    specialize (Hpar r Hr Har Hr1). pose proof (io_round _ _ Hlast k x Hl). lia. }
  destruct (lookup_lt_is_Some_2 states k) as [st Hst]; [by rewrite Hstates|]. rewrite Hst. simpl.
  assert (Hexc : ∀ r, r ∈ exc ∪ list_to_set eqs → r ∈ exc ∨ valid (br_author r)).
  { intros r [?|Hr%elem_of_list_to_set]%elem_of_union; [by left|]. right.
    rewrite Forall_forall in Heqs. rewrite (Heqs r Hr). by apply valid_lt. }
  destruct st as [|score].
  - exists (inc ++ [b]), pend, (exc ∪ list_to_set eqs). split; [done|].
    eapply (selected_add k); [done..| |done]. rewrite <-app_assoc. simpl. by rewrite <-Permutation_middle.
  - exists inc, (pend ++ [(score, b)]), (exc ∪ list_to_set eqs). split; [done|].
    eapply (selected_add k); [done..| |done]. rewrite fmap_app. csimpl. rewrite app_assoc.
    symmetry. apply Permutation_cons_append.
Qed.

Lemma select_ancestors_spec own_block all : length all = Committee_size cm →
  (∀ i b eqs, all !! i = Some (b, eqs) → latest_below d v R i b ∧ Forall (λ r, br_author r = i) eqs) →
  ∃ inc pend exc, for_each (select_ancestor ctx c states) ([own_block], [], ∅) all =
      Done (own_block :: inc, pend, exc) ∧ selected (Committee_size cm) inc pend exc.
Proof using Hcm Hinv HR Hlast Hstates.
  intros Hlen Hall.
  destruct (for_each_run (λ done st, ∃ inc pend exc, st = (own_block :: inc, pend, exc) ∧
    selected (length done) inc pend exc) (select_ancestor ctx c states) ([own_block], [], ∅) all)
    as (st & Hrun & inc & pend & exc & -> & Hsel).
  - exists [], [], ∅. split; [done|]. split; simpl; [constructor|by intros b ?%elem_of_nil|lia|set_solver].
  - intros done [b eqs] rest st Heq (inc & pend & exc & -> & Hsel).
    pose proof (list_lookup_middle done rest (b, eqs) _ eq_refl) as Hi. rewrite <-Heq in Hi.
    destruct (Hall _ _ _ Hi) as [Hlb Heqs].
    destruct (select_ancestor_step (length done) inc pend exc own_block b eqs) as (inc' & pend' & exc' & -> & Hsel');
      [done| |done..|]. { rewrite <-Hlen. by eapply lookup_lt_Some. }
    eexists. split; [done|]. exists inc', pend', exc'. split; [done|]. by rewrite length_app, Nat.add_comm.
  - exists inc, pend, exc. by rewrite Hrun, <-Hlen.
Qed.

End selection.

(** ** Parents of excluded authorities *)

Section parents.
Context (ctx : Context) (R : Round).
Context (Hcm : committee_ok (ctx_committee ctx)) (HR : 1 ≤ R ≤ u32_max).
Abbreviation cm := (ctx_committee ctx).
Abbreviation valid := (Committee_is_valid_index cm).

(** The parents in a list, by author. *)
Definition parents_in (bs : list VerifiedBlock) : gset AuthorityIndex :=
  list_to_set (vb_author <$> filter (λ b, vb_round b + 1 = R) bs).

Lemma elem_of_parents_in a bs : a ∈ parents_in bs ↔ ∃ b, b ∈ bs ∧ vb_author b = a ∧ vb_round b + 1 = R.
Proof.
  clear. unfold parents_in. rewrite elem_of_list_to_set, list_elem_of_fmap.
  setoid_rewrite list_elem_of_filter. naive_solver.
Qed.

(** After looking at the blocks [seen] of excluded authorities: [moved] are
    included for the quorum, the others are left; a parent is only left when
    the quorum is reached. *)
Record parents_moved (base seen anc : list VerifiedBlock) (left_ : list (N * VerifiedBlock))
    (agg : StakeAggregator QuorumThreshold) : Prop := {
  pm_split : ∃ moved, anc = base ++ moved ∧ moved ++ left_.*2 ≡ₚ seen;
  pm_agg : agg_ok cm agg;
  pm_votes : sa_votes agg = parents_in anc;
  pm_left b : b ∈ left_.*2 → vb_round b + 1 = R → c_quorum_threshold cm ≤ set_stake cm (parents_in anc);
}.

Lemma parents_in_snoc bs b : parents_in (bs ++ [b]) = parents_in bs ∪ (if decide (vb_round b + 1 = R) then {[vb_author b]} else ∅).
Proof.
  clear. apply set_eq. intros a. rewrite elem_of_union, !elem_of_parents_in. setoid_rewrite elem_of_app.
  setoid_rewrite list_elem_of_singleton. case_decide; rewrite ?elem_of_singleton, ?elem_of_empty; naive_solver.
Qed.

Lemma include_parent_step base seen anc left_ agg score b : parents_moved base seen anc left_ agg → valid (vb_author b) →
  ∃ anc' left' agg', include_parent ctx (saturating_sub R 1) (anc, left_, agg) (score, b) = Done (anc', left', agg') ∧
    parents_moved base (seen ++ [b]) anc' left' agg'.
Proof using Hcm HR.
  intros [(moved & -> & Hperm) Hagg Hvotes Hleft] Hb. unfold include_parent.
  destruct (valid_authority cm (vb_author b) Hb) as [x ->]. cbn [mbind run_bind].
  rewrite (reached_quorum cm agg Hagg), Hvotes.
  destruct (bool_decide_reflect (c_quorum_threshold cm ≤ set_stake cm (parents_in (base ++ moved)))) as [Hq|Hq]; simpl.
  - exists (base ++ moved), (left_ ++ [(score, b)]), agg. split; [done|]. split; [|done..].
    exists moved. split; [done|]. rewrite fmap_app. csimpl. by rewrite app_assoc, Hperm.
  - destruct (bool_decide_reflect (vb_round b = saturating_sub R 1)) as [Hr|Hr]; simpl; unfold saturating_sub in Hr.
    + destruct (StakeAggregator_add_spec cm Hcm agg (vb_author b) Hagg Hb) as (agg' & -> & Hagg' & Hv'). simpl.
      exists ((base ++ moved) ++ [b]), left_, agg'. split; [done|].
      assert (Hvs : sa_votes agg' = parents_in ((base ++ moved) ++ [b])).
      { rewrite Hv', Hvotes, parents_in_snoc, decide_True by lia. set_solver. }
      split; [|done..|].
      * exists (moved ++ [b]). split; [by rewrite app_assoc|]. rewrite <-Hperm, <-!app_assoc. f_equiv. apply Permutation_cons_append.
      * intros b' Hb' Hr'. destruct Hq. by apply (Hleft b').
    + exists (base ++ moved), (left_ ++ [(score, b)]), agg. split; [done|]. split; [|done..|].
      * exists moved. split; [done|]. rewrite fmap_app. csimpl. by rewrite app_assoc, Hperm.
      * intros b'. rewrite fmap_app, elem_of_app. csimpl. rewrite list_elem_of_singleton.
        intros [Hb'| ->] Hr'; [by apply (Hleft b')|]. lia.
Qed.

Lemma include_parents_spec base agg (pend : list (N * VerifiedBlock)) : agg_ok cm agg →
  sa_votes agg = parents_in base → Forall (λ p, valid (vb_author p.2)) pend →
  ∃ anc left_ agg', for_each (include_parent ctx (saturating_sub R 1)) (base, [], agg) pend = Done (anc, left_, agg') ∧
    parents_moved base pend.*2 anc left_ agg'.
Proof using Hcm HR.
  intros Hagg Hv Hval.
  destruct (for_each_run (λ done st, parents_moved base done.*2 st.1.1 st.1.2 st.2)
    (include_parent ctx (saturating_sub R 1)) (base, [], agg) pend) as ([[anc left_] agg'] & -> & Hpm).
  - split; simpl; [|done..|by intros b ?%elem_of_nil]. exists []. by rewrite app_nil_r.
  - intros done [score b] rest [[anc left_] agg1] Heq Hpm. cbn [fst snd] in Hpm.
    destruct (include_parent_step base done.*2 anc left_ agg1 score b Hpm) as (anc' & left' & agg' & -> & Hpm').
    { rewrite Forall_forall in Hval. apply (Hval (score, b)). rewrite Heq. set_solver. }
    eexists. split; [done|]. by rewrite fmap_app.
  - simpl in Hpm. eauto.
Qed.
End parents.

(** ** Excluded authorities that a quorum has accepted *)

Section excluded.
Context {S : Type} `{StoreLaws S} (ctx : Context) (d : DagState S) (v : StoreView) (R : Round).
Context (Hinv : dag_inv ctx d v) (HR : 1 ≤ R ≤ u32_max).
Context (accepted : list QuorumRound) (Haccepted : (Committee_size (ctx_committee ctx) ≤ length accepted)%nat).
Abbreviation cm := (ctx_committee ctx).
Abbreviation valid := (Committee_is_valid_index cm).
Abbreviation candidate := (candidate ctx d v R).

(** At most one block more per authority that is left. *)
Record excluded_added (base seen : list VerifiedBlock) (st : list VerifiedBlock * gset BlockRef * list (option BlockRef))
    : Prop := {
  ea_extra : ∃ extra, st.1.1 = base ++ extra ∧ vb_author <$> extra `sublist_of` vb_author <$> seen ∧ Forall candidate extra;
  ea_excluded r : r ∈ st.1.2 → valid (br_author r);
  ea_included : included_ok ctx st.2 R;
}.

Lemma excluded_skip base seen anc exc exc' l b : excluded_added base seen (anc, exc, l) → valid (vb_author b) →
  exc' = exc ∨ exc' = {[vb_reference b]} ∪ exc → excluded_added base (seen ++ [b]) (anc, exc', l).
Proof.
  clear. intros [(extra & Heq & Hsub & Hc) He Hi] Hb Hexc. split; [|simpl|done].
  - exists extra. split_and!; [done| |done]. rewrite fmap_app. by apply sublist_inserts_r.
  - destruct Hexc as [->| ->]; [done|]. intros r [->%elem_of_singleton|?]%elem_of_union; [done|by apply He].
Qed.

Lemma excluded_take base seen anc exc exc' l b x : excluded_added base seen (anc, exc, l) → valid (vb_author b) →
  exc' = exc ∨ exc' = {[vb_reference b]} ∪ exc → candidate x → vb_author x = vb_author b →
  excluded_added base (seen ++ [b]) (anc ++ [x], exc', <[vb_author b := Some (vb_reference x)]> l).
Proof.
  clear. intros [(extra & Heq & Hsub & Hc) He Hi] Hb Hexc Hx Ha. split; simpl in *.
  - exists (extra ++ [x]). rewrite Heq, app_assoc, !fmap_app. split_and!; [done| |].
    + csimpl. rewrite Ha. by apply sublist_app.
    + apply Forall_app. split; [done|by constructor].
  - destruct Hexc as [->| ->]; [done|]. intros r [->%elem_of_singleton|?]%elem_of_union; [done|by apply He].
  - split; [rewrite length_insert; apply Hi|]. intros a r. rewrite list_lookup_insert. case_decide as Hd.
    + destruct Hd as [<- _]. intros [= <-]. simpl. apply Hx.
    + apply (io_round _ _ _ Hi).
Qed.

Lemma include_excluded_step base seen st score b : excluded_added base seen st → valid (vb_author b) → candidate b →
  ∃ st', include_excluded ctx d accepted (saturating_sub R 1) st (score, b) = Done st' ∧
    excluded_added base (seen ++ [b]) st'.
Proof using Hinv HR Haccepted.
  destruct st as [[anc exc] l]. intros Hea Hv Hb. unfold include_excluded.
  destruct (valid_authority cm (vb_author b) Hv) as [x ->]. cbn [mbind run_bind].
  pose proof (proj1 (valid_lt ctx _) Hv) as Hlt.
  destruct (lookup_lt_is_Some_2 accepted (vb_author b)) as [q Hq]; [lia|].
  destruct (lookup_lt_is_Some_2 l (vb_author b)) as [o Ho].
  { pose proof (io_length _ _ _ (ea_included _ _ _ Hea)) as Hl. simpl in Hl. by rewrite Hl. }
  unfold vec_get. rewrite Hq, Ho. cbn [mbind run_bind expect].
  assert (Hlen : (vb_author b < length l)%nat) by (by eapply lookup_lt_Some).
  case_bool_decide; [eexists; split; [done|]; by apply (excluded_skip base seen anc exc exc l b); [..|left]|].
  case_bool_decide; [eexists; split; [done|]; by apply (excluded_skip base seen anc exc _ l b); [..|right]|].
  case_bool_decide as Hle.
  - cbn [mbind run_bind]. unfold vec_set. rewrite decide_True by done. eexists. split; [done|].
    by apply (excluded_take base seen anc exc exc l b b); [..|left| |].
  - destruct (last_cached_in_range_spec ctx d v (vb_author b) (u32_add (default GENESIS_ROUND (br_round <$> o)) 1)
      (u32_add (N.min q.1 (saturating_sub R 1)) 1) Hinv Hv) as (o' & -> & Ho'). cbn [mbind run_bind].
    destruct o' as [y|].
    + unfold vec_set. rewrite decide_True by done. eexists. split; [done|].
      destruct (Ho' y eq_refl) as (Ha & Hk & Hr). unfold saturating_sub in Hr. rewrite (u32_add_small (N.min _ _)) in Hr by lia.
      apply (excluded_take base seen anc exc _ l b y); [done..|by right| |done]. split; [by rewrite Ha|done|lia].
    + eexists. split; [done|]. by apply (excluded_skip base seen anc exc _ l b); [..|right].
Qed.

Lemma include_excluded_spec base exc l left_ : (∀ r, r ∈ exc → valid (br_author r)) → included_ok ctx l R →
  Forall candidate left_.*2 →
  ∃ anc exc' l', for_each (include_excluded ctx d accepted (saturating_sub R 1)) (base, exc, l) left_ = Done (anc, exc', l') ∧
    excluded_added base left_.*2 (anc, exc', l').
Proof using Hinv HR Haccepted.
  intros Hexc Hl Hc.
  destruct (for_each_run (λ done st, excluded_added base done.*2 st)
    (include_excluded ctx d accepted (saturating_sub R 1)) (base, exc, l) left_) as ([[anc exc'] l'] & -> & Hea).
  - split; [|done..]. exists []. by rewrite app_nil_r.
  - intros done [score b] rest st Heq Hea.
    assert (Hb : candidate b).
    { rewrite Forall_forall in Hc. apply Hc. rewrite Heq, fmap_app. csimpl. set_solver. }
    destruct (include_excluded_step base done.*2 st score b Hea) as (st' & -> & Hea'); [apply Hb|done|].
    exists st'. rewrite fmap_app. done.
  - eauto.
Qed.
End excluded.

(** ** The ancestors of a proposal *)

(** What makes a list of blocks the ancestors of a valid block of round [R]. *)
Record proposal_ancestors {S} `{StoreLaws S} (ctx : Context) (d : DagState S) (v : StoreView) (R : Round)
    (own_block : VerifiedBlock) (anc : list VerifiedBlock) : Prop := {
  pa_own : head anc = Some own_block;
  pa_distinct : NoDup (vb_author <$> anc);
  pa_candidates : Forall (candidate ctx d v R) anc;
  pa_parents : c_quorum_threshold (ctx_committee ctx) ≤ set_stake (ctx_committee ctx) (parents_in R anc);
}.

(** The parts of core that judge the connectivity of the other authorities. *)
Record peers_ok {S} (ctx : Context) (c : Core S) : Prop := {
  pe_tracker : tracker_ok ctx (co_round_tracker c);
  pe_counted : counted ctx (co_ancestor_state_manager c);
  pe_budget : am_total_excluded_stake (co_ancestor_state_manager c) ≤
    am_excluded_nodes_stake_threshold (co_ancestor_state_manager c);
  pe_scores : (length (rs_scores_per_authority (am_propagation_scores (co_ancestor_state_manager c))) ≤
    Committee_size (ctx_committee ctx))%nat;
}.

Lemma accepted_rounds_total ctx t : committee_ok (ctx_committee ctx) → tracker_ok ctx t →
  ∃ qs, compute_accepted_quorum_rounds ctx t = Done qs ∧ length qs = Committee_size (ctx_committee ctx).
Proof.
  intros Hok Ht.
  destruct (quorum_rounds_spec ctx Hok (highest_accepted t) 0%nat (highest_accepted_square ctx t Ht) (ok_nonempty _ Hok))
    as (qs & _ & Hrun & _). exists qs. split; [exact Hrun|].
  apply map_run_Done in Hrun. rewrite <-(Forall2_length _ _ _ Hrun). unfold Committee_authorities. by rewrite length_imap.
Qed.

Lemma update_states_scores {S} `{Store S} ctx m (d : DagState S) accepted m' :
  update_all_ancestors_state ctx m d accepted = Done m' → am_propagation_scores m' = am_propagation_scores m.
Proof.
  assert (Happly : ∀ clock m t st m', apply_state_change ctx clock m t st = Done m' →
    am_propagation_scores m' = am_propagation_scores m).
  { unfold apply_state_change. intros clock m0 t st m0' ?. by run_inv. }
  unfold update_all_ancestors_state. intros ([to_include to_exclude] & _ & Hrun)%bind_Done. run_inv. etrans.
  - match goal with Hf : for_each _ ?m1 _ = Done m' |- _ =>
      apply (for_each_ind (λ _ x, am_propagation_scores x = am_propagation_scores m1) _ _ _ _ eq_refl) in Hf; [exact Hf|] end.
    intros l1 t l2 m1 m2 _ Hm Hstep. unfold exclude_within_threshold in Hstep. case_bool_decide; [|congruence].
    by rewrite (Happly _ _ _ _ _ Hstep).
  - match goal with Hf : for_each _ m _ = Done _ |- _ =>
      apply (for_each_ind (λ _ x, am_propagation_scores x = am_propagation_scores m) _ _ _ _ eq_refl) in Hf; [exact Hf|] end.
    intros l1 t l2 m1 m2 _ Hm Hstep. by rewrite (Happly _ _ _ _ _ Hstep).
Qed.

Lemma update_states_total {S} `{Store S} ctx (c : Core S) (d : DagState S) accepted : committee_ok (ctx_committee ctx) →
  peers_ok ctx c → length accepted = Committee_size (ctx_committee ctx) →
  ∃ m, update_all_ancestors_state ctx (co_ancestor_state_manager c) d accepted = Done m ∧
    length (get_ancestor_states m) = Committee_size (ctx_committee ctx) ∧
    peers_ok ctx (set_co_ancestor_state_manager m c).
Proof.
  intros Hok [Ht Hc Hb Hs] Hlen.
  destruct (update_spec ctx Hok (co_ancestor_state_manager c) d accepted Hc Hb Hs) as (m & Hrun & Hc' & Hb' & _); [lia|].
  exists m. split; [done|]. split; [unfold get_ancestor_states; rewrite length_fmap; apply Hc'|].
  split; [done..|]. simpl. by rewrite (update_states_scores ctx _ d accepted m Hrun).
Qed.

Section ancestors.
Context {S : Type} `{StoreLaws S} `{BlockCodec} (ctx : Context) (G : BlockRef → option VerifiedBlock).
Context (byz : gset AuthorityIndex) (Hhonest : honest_node (S := S) ctx G byz).
Context (genesis : list VerifiedBlock) (Hgenesis : genesis_blocks ctx = Done genesis).
Context (Hdepth : 2 ≤ pc_gc_depth (ctx_protocol_config ctx)).
Implicit Types (d : DagState S) (c : Core S).
Abbreviation cm := (ctx_committee ctx).
Abbreviation own := (ctx_own_index ctx).

(** The blocks selected before the excluded authorities are revisited contain
    a quorum of parents. *)
Lemma moved_quorum d v own_block inc pend exc seen anc left_ agg :
  dag_ok ctx G genesis d v → let R := threshold_clock_round d in
  vb_author own_block = own → vb_round own_block < R → (∀ r, known v d r → br_author r = own → br_round r ≤ vb_round own_block) →
  selected ctx d v R (Committee_size cm) inc pend exc → seen ≡ₚ pend.*2 →
  parents_moved ctx R (own_block :: inc) seen anc left_ agg →
  c_quorum_threshold cm ≤ set_stake cm (parents_in R anc).
Proof using Hhonest Hgenesis Hdepth.
  intros Hok R Ha Hlt Hmax Hsel Hseen [(moved & -> & Hperm) _ _ Hleft].
  destruct (decide (Exists (λ b, vb_round b + 1 = R) left_.*2)) as [(b & Hb & Hr)%Exists_exists|Hno]; [by eapply Hleft|].
  destruct (parent_quorum ctx G byz Hhonest genesis Hgenesis Hdepth d v Hok) as (X & HX & Hval & Hpar).
  etrans; [exact HX|]. apply set_stake_mono. intros a HaX. destruct (Hpar a HaX) as (r & Hk & Har & Hr).
  apply elem_of_parents_in. destruct (decide (a = own)) as [->|Hne].
  - exists own_block. split_and!; [by left|done|]. specialize (Hmax r Hk Har). unfold R in *. lia.
  - destruct (se_parents _ _ _ _ _ _ _ _ Hsel r) as (b & Hb & Hba & Hbr); [done|done|congruence| |].
    { apply valid_lt. rewrite Har. by apply Hval. }
    exists b. split_and!; [|congruence|done]. simpl. right. rewrite elem_of_app.
    rewrite <-Hseen, <-Hperm, !elem_of_app in Hb. destruct Hb as [?|[?|Hb]]; [by left|by right|].
    destruct Hno. apply Exists_exists. eauto.
Qed.

Lemma final_ancestors d v R own_block inc pend exc seen anc left_ agg st :
  vb_author own_block = own → candidate ctx d v R own_block →
  selected ctx d v R (Committee_size cm) inc pend exc → seen ≡ₚ pend.*2 →
  parents_moved ctx R (own_block :: inc) seen anc left_ agg → excluded_added ctx d v R anc left_.*2 st →
  c_quorum_threshold cm ≤ set_stake cm (parents_in R anc) →
  proposal_ancestors ctx d v R own_block st.1.1.
Proof.
  clear Hhonest Hgenesis Hdepth. intros Ha Hc Hsel Hseen [(moved & -> & Hperm) _ _ _] [(extra & -> & Hsub & Hext) _ _] Hq.
  assert (Hp : inc ++ moved ++ left_.*2 ≡ₚ inc ++ pend.*2) by (by rewrite Hperm, Hseen).
  assert (Hall : ∀ b, b ∈ inc ++ moved ++ left_.*2 → candidate ctx d v R b ∧ vb_author b ≠ own).
  { intros b. rewrite Hp. intros Hb. by destruct (se_seen _ _ _ _ _ _ _ _ Hsel b Hb) as (? & ? & _). }
  assert (Hsubl : vb_author <$> inc ++ moved ++ extra `sublist_of` vb_author <$> inc ++ moved ++ left_.*2).
  { rewrite !fmap_app. by repeat apply sublist_app. }
  split.
  - done.
  - simpl. apply NoDup_cons. rewrite <-!app_assoc. split.
    + intros Hin. eapply elem_of_submseteq in Hin; [|by apply sublist_submseteq].
      apply list_elem_of_fmap in Hin as (b & Heq & Hb). destruct (Hall b Hb). congruence.
    + eapply sublist_NoDup; [|exact Hsubl]. rewrite Hp. apply Hsel.
  - simpl. constructor; [done|]. rewrite !Forall_app. split_and!; [..|done];
      apply Forall_forall; intros b Hb; apply Hall; set_solver.
  - etrans; [exact Hq|]. apply set_stake_mono. intros a. rewrite !elem_of_parents_in.
    intros (b & Hb & ?). exists b. split; [|done]. apply elem_of_app. by left.
Qed.

(** The first count: the parents among the included blocks. *)
Lemma count_parents d v R own_block inc pend exc : 1 ≤ R → candidate ctx d v R own_block →
  selected ctx d v R (Committee_size cm) inc pend exc →
  ∃ agg, for_each (λ agg a, '(agg, _) ← StakeAggregator_add agg (vb_author a) cm; Done agg)
      (StakeAggregator_new : StakeAggregator QuorumThreshold)
      (filter (λ a, vb_round a = saturating_sub R 1) (own_block :: inc)) = Done agg ∧
    agg_ok cm agg ∧ sa_votes agg = parents_in R (own_block :: inc).
Proof using Hhonest.
  clear Hgenesis Hdepth. intros HR Hc Hsel. pose proof (u_committee _ _ _ (hn_universe _ _ _ Hhonest)) as Hcm.
  assert (Heq : filter (λ a, vb_round a = saturating_sub R 1) (own_block :: inc) =
                filter (λ a, vb_round a + 1 = R) (own_block :: inc))
    by (apply list_filter_iff; intros b; unfold saturating_sub; lia).
  rewrite Heq. destruct (count_authors cm Hcm StakeAggregator_new (filter (λ a, vb_round a + 1 = R) (own_block :: inc)))
    as (agg & Hrun & Hagg & Hv); [apply agg_ok_new| |].
  - apply Forall_forall. intros b [_ [->|Hb]%elem_of_cons]%list_elem_of_filter; [apply Hc|].
    apply (se_seen _ _ _ _ _ _ _ _ Hsel b). apply elem_of_app. by left.
  - exists agg. split_and!; [done..|]. rewrite Hv. unfold parents_in. simpl. set_solver.
Qed.

Lemma smart_ancestors_spec c v (smart : bool) own_block : let d := co_dag_state c in let R := threshold_clock_round d in
  dag_ok ctx G genesis d v → peers_ok ctx c → included_ok ctx (co_last_included_ancestors c) (R - 1) → R ≤ u32_max →
  last_proposed_block ctx c = Done own_block → vb_round own_block < R →
  ∃ m l anc exc, smart_ancestors_to_propose ctx c R smart =
      Done (set_co_last_included_ancestors l (set_co_ancestor_state_manager m c), anc, exc) ∧
    peers_ok ctx (set_co_ancestor_state_manager m c) ∧ included_ok ctx l R ∧
    (∀ r, r ∈ exc → Committee_is_valid_index cm (br_author r)) ∧
    (anc = [] ∧ smart = true ∧ l = co_last_included_ancestors c ∨ proposal_ancestors ctx d v R own_block anc).
Proof using Hhonest Hgenesis Hdepth.
  intros d R Hok Hpeers Hlast Hmax Hown Hlt. pose proof (u_committee _ _ _ (hn_universe _ _ _ Hhonest)) as Hcm.
  pose proof (vo_inv _ _ _ _ (ni_view _ _ _ _ (dk_node _ _ _ _ _ Hok))) as Hinv.
  pose proof (ck_pos _ _ _ (dk_clock _ _ _ _ _ Hok)) as Hpos. assert (HR : 1 ≤ R ≤ u32_max) by done.
  destruct (last_cached_per_authority_spec ctx G byz Hhonest genesis Hgenesis d v R Hok) as (all & Hrun & Hlen & Hall);
    [by apply (gc_below_clock ctx G genesis Hdepth d v)|lia|done|].
  destruct (accepted_rounds_total ctx (co_round_tracker c) Hcm (pe_tracker _ _ Hpeers)) as (qs & Hqs & Hlq).
  destruct (update_states_total ctx c d qs Hcm Hpeers Hlq) as (m & Hm & Hstates & Hpeers').
  unfold smart_ancestors_to_propose. fold d. rewrite Hrun. cbn [mbind run_bind].
  rewrite bool_decide_eq_true_2 by done. rewrite Hqs. cbn [mbind run_bind]. rewrite Hm. cbn [mbind run_bind].
  change (last_proposed_block ctx (set_co_ancestor_state_manager m c)) with (last_proposed_block ctx c).
  rewrite Hown. cbn [mbind run_bind].
  destruct (last_block_spec ctx G byz Hhonest genesis Hgenesis d v own Hok (hn_valid _ _ _ Hhonest))
    as (b & Hb & Hba & Hbk & Hbmax).
  assert (b = own_block) as ->.
  { unfold last_proposed_block, get_last_proposed_block in Hown. fold d in Hown. congruence. }
  assert (Hcand : candidate ctx d v R own_block) by (split; [rewrite Hba; apply Hhonest|done..]).
  destruct (select_ancestors_spec ctx d v R Hcm Hinv HR (set_co_ancestor_state_manager m c) (get_ancestor_states m)
    Hlast Hstates own_block all Hlen Hall) as (inc & pend & exc & -> & Hsel). cbn [mbind run_bind].
  destruct (count_parents d v R own_block inc pend exc (proj1 HR) Hcand Hsel) as (agg & -> & Hagg & Hvotes).
  cbn [mbind run_bind].
  destruct (smart && negb (StakeAggregator_reached_threshold agg cm)) eqn:Hsmart.
  { apply andb_true_iff in Hsmart as [-> _]. exists m, (co_last_included_ancestors c), [], ∅.
    split_and!; [by destruct c|done| |set_solver|by left]. split; [apply Hlast|].
    intros a r Hr. pose proof (io_round _ _ _ Hlast a r Hr). lia. }
  assert (Hseen : (sort_by by_score_desc pend).*2 ≡ₚ pend.*2) by (by rewrite sort_by_Permutation).
  assert (Hpend : ∀ b, b ∈ pend.*2 → candidate ctx d v R b).
  { intros x Hx. apply (se_seen _ _ _ _ _ _ _ _ Hsel x). apply elem_of_app. by right. }
  destruct (include_parents_spec ctx R Hcm HR (own_block :: inc) agg (sort_by by_score_desc pend) Hagg Hvotes)
    as (anc & left_ & agg' & -> & Hmoved).
  { apply Forall_forall. intros p Hp. apply Hpend. rewrite <-Hseen. by apply list_elem_of_fmap_2. }
  cbn [mbind run_bind].
  pose proof (moved_quorum d v own_block inc pend exc _ anc left_ agg' Hok Hba Hlt Hbmax Hsel Hseen Hmoved) as Hq.
  destruct (include_excluded_spec ctx d v R Hinv HR qs ltac:(lia) anc exc (co_last_included_ancestors c) left_)
    as (anc' & exc' & l & Hinc & Hea).
  - apply Hsel.
  - split; [apply Hlast|]. intros a r Hr. pose proof (io_round _ _ _ Hlast a r Hr). lia.
  - destruct Hmoved as [(moved & _ & Hperm) _ _ _]. apply Forall_forall. intros x Hx. apply Hpend.
    rewrite <-Hseen, <-Hperm. apply elem_of_app. by right.
  - change (co_last_included_ancestors (set_co_ancestor_state_manager m c)) with (co_last_included_ancestors c).
    rewrite Hinc. cbn [mbind run_bind].
    rewrite (reached_quorum cm agg' (pm_agg _ _ _ _ _ _ _ Hmoved)), (pm_votes _ _ _ _ _ _ _ Hmoved), bool_decide_eq_true_2 by done.
    exists m, l, anc', exc'. split_and!; [done|done|apply Hea|apply Hea|]. right.
    by eapply (final_ancestors d v R own_block inc pend exc _ anc left_ agg' (anc', exc', l)).
Qed.

(** ** The steps of a proposal *)

(** The leader of a round, under the committers that core builds. *)
Lemma leaders_total `{Rng} c round : co_committer c = pipelined_committers → round ≤ u32_max →
  (∀ round, ∃ leader, elect_leader ctx (co_leader_schedule c) round 0 = Done leader ∧
     Committee_is_valid_index cm leader) →
  ∃ leader, leaders ctx c round = Done [mk_slot round leader] ∧ Committee_is_valid_index cm leader.
Proof.
  clear Hhonest Hgenesis Hdepth. intros Hc Hr Hel. destruct (Hel round) as (leader & Hl & Hv). exists leader.
  unfold leaders, get_leaders. rewrite Hc.
  change pipelined_committers with [mk_options 3 0 0; mk_options 3 0 1; mk_options 3 0 2].
  cbn [map_run]. rewrite !(stage_elects ctx (co_leader_schedule c) _ round leader) by (done || lia).
  pose proof (N.mod_lt round 3 ltac:(lia)). set (m := round mod 3) in *. clearbody m.
  assert (m = 0 ∨ m = 1 ∨ m = 2) as [->|[->| ->]] by lia; done.
Qed.

Lemma first_leader_total `{Rng} c round : co_committer c = pipelined_committers → round ≤ u32_max →
  (∀ round, ∃ leader, elect_leader ctx (co_leader_schedule c) round 0 = Done leader ∧
     Committee_is_valid_index cm leader) →
  ∃ leader, first_leader ctx c round = Done leader ∧ Committee_is_valid_index cm leader.
Proof.
  clear Hhonest Hgenesis Hdepth. intros Hc Hr Hel. destruct (leaders_total c round Hc Hr Hel) as (leader & Hl & Hv).
  exists leader. unfold first_leader. by rewrite Hl.
Qed.

(** The ancestors become the last included ones. *)
Lemma set_included_total d v R l anc : included_ok ctx l R → Forall (candidate ctx d v R) anc →
  ∃ l', for_each (λ l a, vec_set l (vb_author a) (Some (vb_reference a))) l anc = Done l' ∧ included_ok ctx l' R.
Proof.
  clear Hhonest Hgenesis Hdepth. intros Hl Hanc. apply (for_each_total (λ l, included_ok ctx l R)); [done|].
  intros l1 b Hb Hl1. rewrite Forall_forall in Hanc. destruct (Hanc b Hb) as [Hv _ Hr]. apply valid_lt in Hv.
  unfold vec_set. rewrite decide_True by (by rewrite (io_length _ _ _ Hl1)). eexists. split; [done|].
  split; [rewrite length_insert; apply Hl1|]. intros a r. rewrite list_lookup_insert. case_decide as Hd.
  - destruct Hd as [<- _]. by intros [= <-].
  - apply (io_round _ _ _ Hl1).
Qed.

Lemma lookup_authors_total d v R anc : Forall (candidate ctx d v R) anc → lookup_authors ctx anc = Done tt.
Proof.
  clear Hhonest Hgenesis Hdepth. unfold lookup_authors. induction 1 as [|b anc Hb _ IH]; [done|]. simpl.
  destruct (valid_authority cm (vb_author b) (cd_valid _ _ _ _ _ Hb)) as [x ->]. exact IH.
Qed.

(** The certifier knows the blocks of the DAG that it may be asked about. *)
Definition votes_known (st : CertifierState) d v : Prop :=
  ∀ r, known v d r → cs_gc_round st < br_round r → is_Some (cs_votes st !! r).

Lemma get_own_votes_total st block_refs :
  (∀ r, r ∈ block_refs → cs_gc_round st < br_round r → is_Some (cs_votes st !! r)) →
  ∃ votes, get_own_votes st block_refs = Done votes.
Proof.
  clear Hhonest Hgenesis Hdepth. intros Hall. unfold get_own_votes.
  destruct (for_each_total (λ _, True) (λ votes block_ref,
      if bool_decide (br_round block_ref ≤ cs_gc_round st) then Done votes
      else
        vote_info ← expect (cs_votes st !! block_ref);
        if bool_decide (vi_own_reject_txn_votes vote_info ≠ [])
        then Done (votes ++ [mk_txn_votes block_ref (vi_own_reject_txn_votes vote_info)])
        else Done votes) [] block_refs) as (votes & -> & _); [done| |eauto].
  intros votes r Hr _. case_bool_decide as Hgc; [eauto|].
  destruct (Hall r Hr) as [info ->]; [lia|]. simpl. case_bool_decide; eauto.
Qed.

Lemma own_votes_total c v anc : dag_ok ctx G genesis (co_dag_state c) v →
  votes_known (co_transaction_certifier c) (co_dag_state c) v → (∀ b, b ∈ anc → known v (co_dag_state c) (vb_reference b)) →
  ∃ d' votes, own_transaction_votes ctx c anc = Done (set_co_dag_state d' c, votes) ∧
    same_dag (co_dag_state c) d' ∧ dag_ok ctx G genesis d' v ∧ kept (co_dag_state c) d'.
Proof.
  clear Hhonest Hgenesis Hdepth. intros Hok Hvotes Hanc. set (d := co_dag_state c) in *.
  destruct (for_each_total (λ st : DagState S * list BlockRef, same_dag d st.1 ∧ dag_ok ctx G genesis st.1 v ∧ kept d st.1 ∧
      ∀ r, r ∈ st.2 → known v d r) (λ '(d, linked) ancestor,
        '(d, newly) ← link_causal_history ctx d (vb_reference ancestor);
        Done (d, linked ++ newly)) (d, []) anc) as ([d' linked] & Hrun & Hs & Hok' & Hkp & Hl).
  - split_and!; [done..|]. intros r Hr. by apply elem_of_nil in Hr.
  - intros [d1 linked] b Hb (Hs & Hok1 & Hkp1 & Hl). simpl in *.
    assert (Hk : ∀ r, known v d1 r ↔ known v d r) by (intros r; unfold known; by rewrite (same_lookup d d1 v r Hs)).
    destruct (link_ok ctx G genesis d1 v (vb_reference b) Hok1) as (d2 & new & -> & Hs2 & Hok2 & Hkp2 & Hnew); [by apply Hk, Hanc|].
    eexists. split; [done|]. simpl. split_and!; [by etrans|done|by eapply kept_trans|].
    intros r [?|Hr]%elem_of_app; [by apply Hl|]. by apply Hk, Hnew.
  - unfold own_transaction_votes. fold d. rewrite Hrun. cbn [mbind run_bind].
    destruct (get_own_votes_total (co_transaction_certifier c) linked) as [votes Hv].
    { intros r Hr. apply Hvotes. by apply Hl. }
    exists d', votes. by rewrite Hv.
Qed.
End ancestors.

(** ** The signed block *)

(** What the serialization and the keys of the authority promise: an own
    block serializes, and its signature verifies under the authority's key. *)
Record signing_ok `{Crypto} `{BlockSigner} `{BlockCodec} (ctx : Context) : Prop := {
  sg_block b : ∃ bs, bcs_block_to_bytes b = inr bs;
  sg_intent digest : ∃ message, bcs_intent_to_bytes digest = inr message;
  sg_verify message : ∃ sig authority, signature_from_bytes (keypair_sign message) = inr sig ∧
    Committee_authority (ctx_committee ctx) (ctx_own_index ctx) = Done authority ∧
    public_key_verify (a_protocol_key authority) message sig = None;
  sg_bytes sb : ∃ serialized, bcs_to_bytes sb = Some serialized;
  sg_digest serialized : default_hash serialized ≤ BlockDigest_MAX;
}.

Lemma sign_total `{Crypto} `{BlockSigner} `{BlockCodec} ctx b : signing_ok ctx →
  Committee_is_valid_index (ctx_committee ctx) (ctx_own_index ctx) → block_author b = ctx_own_index ctx →
  ∃ sb, SignedBlock_new b = ROk sb ∧ sb_inner sb = b ∧ SignedBlock_verify_signature ctx sb = f_ok tt.
Proof.
  intros [Hb Hi Hv _ _] Hvalid Ha. unfold SignedBlock_new, compute_block_signature, compute_inner_block_digest.
  destruct (Hb b) as [bs Hbs]. rewrite Hbs. simpl. destruct (Hi (inner_digest bs)) as [message Hm]. rewrite Hm. simpl.
  eexists. split; [done|]. split; [done|]. unfold SignedBlock_verify_signature, ensure. simpl. rewrite Ha.
  destruct (Committee_is_valid_index _ _); [|done]. simpl.
  destruct (Hv message) as (sig & authority & Hsig & -> & Hpk). simpl.
  unfold verify_block_signature, compute_inner_block_digest. rewrite Hbs. simpl. rewrite Hm. simpl. rewrite Hsig. simpl.
  by rewrite Hpk.
Qed.

(** ** A proposal passes verification *)

Section proposing.
Context {S : Type} `{StoreLaws S} `{BlockCodec} `{Crypto} `{BlockSigner} `{Rng}.
Context (ctx : Context) (clk : CoreClock) (G : BlockRef → option VerifiedBlock).
Context (byz : gset AuthorityIndex) (Hhonest : honest_node (S := S) ctx G byz).
Context (genesis : list VerifiedBlock) (Hgenesis : genesis_blocks ctx = Done genesis).
Context (Hdepth : 2 ≤ pc_gc_depth (ctx_protocol_config ctx)).
Context (Hsign : signing_ok ctx) (Hlim : limits_ok ctx).
Implicit Types (d : DagState S) (c : Core S).
Abbreviation cm := (ctx_committee ctx).
Abbreviation pc := (ctx_protocol_config ctx).
Abbreviation own := (ctx_own_index ctx).

(** The waiting bundles fit into a block. *)
Definition consumer_ok (tn : TransactionConsumer) : Prop :=
  limits (pc_max_transactions_in_block_bytes pc) (pc_max_num_transactions_in_block pc) tn ∧
  Forall (λ t, fits (pc_max_transactions_in_block_bytes pc) (pc_max_num_transactions_in_block pc) t ∧ small ctx t) (waiting tn).

Lemma next_transactions tn : consumer_ok tn →
  ∃ tn' transactions acks limit, TransactionConsumer_next tn = (tn', transactions, acks, limit) ∧ consumer_ok tn' ∧
    check_transactions ctx (tx_data <$> transactions) = ROk tt.
Proof using Hlim.
  clear Hhonest Hgenesis Hdepth Hsign. intros [Hl Hf].
  destruct (next_spec _ _ (lo_bytes _ Hlim) (lo_count _ Hlim) tn Hl) as
    (tn' & taken & acks & limit & Hrun & Hl' & Hw & _ & Hb & Hc & _).
  { eapply Forall_impl; [exact Hf|]. by intros t [? _]. }
  rewrite Hw in Hf. apply Forall_app in Hf as [Ht Hf].
  eexists _, _, acks, limit. split; [exact Hrun|]. split; [done|]. apply (taken_verifies ctx Hlim); [|done..].
  eapply Forall_impl; [exact Ht|]. by intros t [_ ?].
Qed.

(** The state of core from which a block is proposed. *)
Record proposer_ok c v : Prop := {
  po_dag : dag_ok ctx G genesis (co_dag_state c) v;
  po_peers : peers_ok ctx c;
  po_included b : last_proposed_block ctx c = Done b → included_ok ctx (co_last_included_ancestors c) (vb_round b);
  po_consumer : consumer_ok (co_transaction_consumer c);
  po_votes : pc_mysticeti_fastpath pc → votes_known (co_transaction_certifier c) (co_dag_state c) v;
  po_committer : co_committer c = pipelined_committers;
  po_schedule round : ∃ leader, elect_leader ctx (co_leader_schedule c) round 0 = Done leader ∧
    Committee_is_valid_index cm leader;
}.

(** A block that every authority accepts: it verifies, is well formed, and
    its ancestors are known to its author, the own last block first. *)
Record valid_proposal d v (R : Round) (own_block b : VerifiedBlock) : Prop := {
  vp_round : vb_round b = R;
  vp_author : vb_author b = own;
  vp_verified self i : SignedBlockVerifier_new ctx = Done self →
    verify_block (own_context ctx i) self (vb_signed b) = f_ok tt;
  vp_wf : block_wf cm b;
  vp_known a : a ∈ vb_ancestors b → known v d a;
  vp_own : head (vb_ancestors b) = Some (vb_reference own_block);
}.

(** The commits that a block votes for were waiting for a vote. *)
Definition votes_pending d (b : VerifiedBlock) : Prop :=
  ∀ x, x ∈ block_commit_votes (vb_block b) → x ∈ ds_pending_commit_votes d.

(** The parts of the block that do not depend on its version. *)
Lemma new_proposal_fields R anc transactions commit_votes votes :
  let b := new_proposal ctx clk R anc transactions commit_votes votes in
  block_epoch b = c_epoch cm ∧ block_round b = R ∧ block_author b = own ∧
  block_ancestors b = vb_reference <$> anc ∧ block_transactions b = transactions ∧ block_commit_votes b = commit_votes.
Proof. clear. unfold new_proposal. by destruct (pc_mysticeti_fastpath _). Qed.

Lemma parents_in_refs R anc : parent_authors R (vb_reference <$> anc) = parents_in R anc.
Proof.
  clear. apply set_eq. intros a. rewrite elem_of_parents_in. unfold parent_authors.
  rewrite elem_of_list_to_set, list_elem_of_fmap. split.
  - intros (r & -> & [Hr (b & -> & Hb)%list_elem_of_fmap]%list_elem_of_filter). by exists b.
  - intros (b & Hb & <- & Hr). exists (vb_reference b). split; [done|]. apply list_elem_of_filter. split; [done|].
    by apply list_elem_of_fmap_2.
Qed.

Lemma proposal_valid d v R own_block anc transactions commit_votes votes sb serialized :
  dag_ok ctx G genesis d v → vb_author own_block = own → 1 ≤ R < u32_max → proposal_ancestors ctx d v R own_block anc →
  check_transactions ctx (tx_data <$> transactions) = ROk tt →
  sb_inner sb = new_proposal ctx clk R anc transactions commit_votes votes → SignedBlock_verify_signature ctx sb = f_ok tt →
  valid_proposal d v R own_block (VerifiedBlock_new_verified sb serialized).
Proof using Hhonest Hgenesis Hsign.
  clear Hdepth Hlim. intros Hok Hown HR [Hhead Hdist Hcand Hpar] Htx Hsb Hsig. pose proof (u_committee _ _ _ (hn_universe _ _ _ Hhonest)) as Hcm.
  destruct (new_proposal_fields R anc transactions commit_votes votes) as (He & Hr & Ha & Hanc & Htxs & _).
  rewrite <-Hsb in He, Hr, Ha, Hanc, Htxs. rewrite Forall_forall in Hcand.
  assert (Hknown : ∀ a, a ∈ vb_reference <$> anc → known v d a).
  { intros a (b & -> & Hb)%list_elem_of_fmap. exists b. apply (Hcand b Hb). }
  assert (Hac : ∀ self, SignedBlockVerifier_new ctx = Done self → acceptable ctx self sb).
  { intros self Hself. unfold SignedBlockVerifier_new in Hself. rewrite Hgenesis in Hself. injection Hself as <-.
    split; rewrite ?Hanc, ?Hr, ?Ha; [done|lia|apply Hhonest|done| | | | | | |].
    - exists (vb_reference own_block). destruct anc as [|b anc]; [done|]. injection Hhead as ->. done.
    - apply Forall_fmap, Forall_forall. intros b Hb. apply (Hcand b Hb).
    - apply Forall_fmap, Forall_forall. intros b Hb. apply (Hcand b Hb).
    - apply Forall_fmap, Forall_forall. intros b Hb Hb0. apply elem_of_list_to_set, list_elem_of_fmap.
      pose proof (cd_known _ _ _ _ _ (Hcand b Hb)) as Hk. unfold dag_lookup in Hk.
      rewrite bool_decide_eq_true_2 in Hk by done. rewrite (dk_genesis _ _ _ _ _ Hok) in Hk.
      destruct (genesis_lookup _ _ _ Hk) as [? _]. by exists b.
    - by rewrite <-list_fmap_compose.
    - by rewrite parents_in_refs.
    - unfold block_transactions_data. by rewrite Htxs. }
  assert (Hver : ∀ self, SignedBlockVerifier_new ctx = Done self → verify_block ctx self sb = f_ok tt).
  { intros self Hself. destruct (verify_block_spec ctx self Hcm sb) as (res & Hrun & Hiff). rewrite Hrun.
    by rewrite (proj2 Hiff (Hac self Hself)). }
  assert (Hself : ∃ self, SignedBlockVerifier_new ctx = Done self)
    by (unfold SignedBlockVerifier_new; rewrite Hgenesis; simpl; eauto).
  split.
  - done.
  - done.
  - intros self i. apply Hver.
  - destruct Hself as [self Hself]. apply (verified_wf ctx self Hcm sb serialized (Hver self Hself)); [lia|apply Hsign].
  - unfold vb_ancestors, vb_block. simpl. rewrite Hanc. apply Hknown.
  - unfold vb_ancestors, vb_block. simpl. rewrite Hanc. destruct anc as [|b anc]; [done|]. injection Hhead as ->. done.
Qed.

(** The proposal is created, and only its ancestors, its transactions and its
    votes change the state. *)
Definition prepared c m l d tn : Core S :=
  set_co_transaction_consumer tn (set_co_dag_state d (set_co_last_included_ancestors l (set_co_ancestor_state_manager m c))).

Lemma included_weaken l r1 r2 : included_ok ctx l r1 → r1 ≤ r2 → included_ok ctx l r2.
Proof. clear. intros [Hl Hr] Hle. split; [done|]. intros a r Ha. specialize (Hr a r Ha). lia. Qed.

Lemma take_excluded n (X : gset BlockRef) r : r ∈ take n (set_list X) → r ∈ X.
Proof. clear. intros (i & Hi & _)%elem_of_take. apply list_elem_of_lookup_2 in Hi. by apply elem_of_set_list in Hi. Qed.

(** The votes on the ancestors, when the fast path is on. *)
Lemma votes_total c v m l d1 tn anc : let d := co_dag_state c in
  (pc_mysticeti_fastpath pc → votes_known (co_transaction_certifier c) d v) →
  Forall (candidate ctx d v (threshold_clock_round d)) anc → same_dag d d1 → dag_ok ctx G genesis d1 v →
  ∃ d' votes, (if pc_mysticeti_fastpath pc then own_transaction_votes ctx (prepared c m l d1 tn) anc
      else Done (prepared c m l d1 tn, [])) = Done (prepared c m l d' tn, votes) ∧
    same_dag d1 d' ∧ dag_ok ctx G genesis d' v ∧ kept d1 d'.
Proof.
  clear Hhonest Hgenesis Hdepth Hsign Hlim. intros d Hvotes Hcand Hsame Hok.
  destruct (pc_mysticeti_fastpath pc); [|by exists d1, []].
  assert (Hk : ∀ r, known v d1 r ↔ known v d r) by (intros r; unfold known; by rewrite (same_lookup d d1 v r Hsame)).
  destruct (own_votes_total ctx G genesis (prepared c m l d1 tn) v anc Hok) as (d' & votes & Hrun & ? & ? & ?).
  - intros r Hr. apply Hvotes; [done|]. by apply Hk.
  - intros b Hb. apply Hk. rewrite Forall_forall in Hcand. exists b. apply (Hcand b Hb).
  - exists d', votes. by rewrite Hrun.
Qed.

Lemma prepare_block_spec c v (force : bool) own_block : let d := co_dag_state c in let R := threshold_clock_round d in
  proposer_ok c v → last_proposed_block ctx c = Done own_block → vb_round own_block < R → R < u32_max →
  ∃ m l d' tn p, prepare_block ctx clk c force R = Done (prepared c m l d' tn, p) ∧
    same_dag d d' ∧ dag_ok ctx G genesis d' v ∧ kept d d' ∧ peers_ok ctx (set_co_ancestor_state_manager m c) ∧
    included_ok ctx l R ∧ consumer_ok tn ∧
    match p with
    | None => force = false ∧ l = co_last_included_ancestors c
    | Some (b, excluded, _) => valid_proposal d v R own_block b ∧
        Forall (λ r, Committee_is_valid_index cm (br_author r)) excluded ∧ votes_pending d b
    end.
Proof using Hhonest Hgenesis Hdepth Hsign Hlim.
  intros d R [Hok Hpeers Hinc Hcons Hvotes Hcomm Hsched] Hown Hlt Hmax.
  destruct (smart_ancestors_spec ctx G byz Hhonest genesis Hgenesis Hdepth c v (negb force) own_block) as
    (m & l & anc & exc & Hrun & Hpeers' & Hl & Hexc & Hcase); try done.
  { eapply included_weaken; [by apply Hinc|]. fold d R. lia. }
  { fold d R. lia. }
  fold d R in Hrun, Hl, Hcase. unfold prepare_block. fold R. rewrite Hrun. cbn [mbind run_bind].
  destruct Hcase as [(-> & Hf & ->)|Hanc].
  { destruct force; [done|]. exists m, (co_last_included_ancestors c), d, (co_transaction_consumer c), None.
    by split_and!; [destruct c|..]. }
  pose proof (pa_candidates _ _ _ _ _ _ Hanc) as Hcand. pose proof (pa_own _ _ _ _ _ _ Hanc) as Hhead.
  rewrite bool_decide_eq_false_2 by (by destruct anc).
  destruct (set_included_total ctx d v R l anc Hl Hcand) as (l' & Hset & Hl').
  change (co_last_included_ancestors (set_co_last_included_ancestors l _)) with l. rewrite Hset. cbn [mbind run_bind].
  match goal with |- context [first_leader ctx ?c1 ?q] =>
    destruct (first_leader_total ctx c1 q Hcomm) as (leader & -> & Hleader) end;
    [unfold saturating_sub; lia|done|]. cbn [mbind run_bind].
  destruct (valid_authority cm leader Hleader) as [x ->]. cbn [mbind run_bind].
  rewrite (lookup_authors_total ctx d v R anc Hcand). cbn [mbind run_bind].
  destruct (next_transactions (co_transaction_consumer c) Hcons) as (tn & txs & acks & lim & Hnext & Hcons' & Htx).
  change (co_transaction_consumer (set_co_last_included_ancestors l' _)) with (co_transaction_consumer c). rewrite Hnext.
  destruct (take_commit_votes_ok ctx G genesis d v MAX_COMMIT_VOTES_PER_BLOCK Hok) as (Hsame1 & Hok1 & Hkp1 & Hcv).
  match goal with |- context [take_commit_votes ?x] => change (take_commit_votes x) with (take_commit_votes d) end.
  destruct (take_commit_votes d MAX_COMMIT_VOTES_PER_BLOCK) as [d1 commit_votes]. simpl in Hsame1, Hok1, Hkp1, Hcv.
  destruct (votes_total c v m l' d1 tn anc Hvotes Hcand Hsame1 Hok1) as (d' & votes & Hv & Hsame2 & Hok2 & Hkp2).
  match goal with |- context [if pc_mysticeti_fastpath pc then own_transaction_votes ctx ?c2 anc else _] =>
    change c2 with (prepared c m l' d1 tn) end.
  rewrite Hv. cbn [mbind run_bind]. set (nb := new_proposal _ _ _ _ _ _ _).
  destruct (sign_total ctx nb Hsign) as (sb & -> & Hsb & Hsig);
    [apply Hhonest|by apply new_proposal_fields|]. cbn [unwrap_result mbind run_bind].
  destruct (sg_bytes _ Hsign sb) as [serialized ->]. cbn [expect mbind run_bind].
  eexists m, l', d', tn, _. split_and!; [done|by etrans|done|by eapply kept_trans|done|done|done|]. split_and!.
  - pose proof (ck_pos _ _ _ (dk_clock _ _ _ _ _ Hok)).
    apply (proposal_valid d v R own_block anc txs commit_votes votes); try done.
    destruct (last_block_spec ctx G byz Hhonest genesis Hgenesis d v own Hok (hn_valid _ _ _ Hhonest)) as (b & Hb & Hba & _).
    unfold last_proposed_block, get_last_proposed_block in Hown. fold d in Hown. congruence.
  - apply Forall_forall. intros r Hr%take_excluded. by apply Hexc.
  - destruct (new_proposal_fields R anc txs commit_votes votes) as (_ & _ & _ & _ & _ & Hbv). unfold votes_pending, vb_block. cbn.
    rewrite Hsb. unfold nb. by rewrite Hbv.
Qed.
End proposing.
