(* ===== verification/CoreProposer.v ===== *)
(** * Proposing blocks

    The whole of [try_new_block]: a proposal is created, accepted by the own
    block manager and certifier, linked, flushed and handed out. The proposer
    never panics, its blocks verify at every authority, and their rounds
    increase. *)
From S2P Require Import Prelude Committee StakeAggregator Block ThresholdClock Commit LeaderScoring Store DagState DagStateProofs DagTraversal LeaderSchedule BaseCommitter CommitRule BlockVerifier TransactionConsumer DagViews BlockManager BlockManagerProofs BlockManagerSafety Linearizer CommitObserver LinearizerProofs CommitSafety UniversalCommitter QuorumRounds Ancestor TransactionCertifier CertifierProofs CommitFinalizer Core CoreState CoreProposal.

(** ** Accepting a block that nothing waits for *)

Section fresh.
Context {S : Type} `{StoreLaws S} (ctx : Context) (G : BlockRef → option VerifiedBlock).
Context (byz : gset AuthorityIndex) (HU : universe_ok (ctx_committee ctx) G byz).
Context (Hown : ctx_own_index ctx ∉ byz).
Implicit Types (d : DagState S) (bm : BlockManager).

Lemma own_not_suspended bm d v b : bm_inv ctx G v bm d → G (vb_reference b) = Some b →
  (∀ a, a ∈ vb_ancestors b → known v d a) → bm_suspended_blocks bm !! vb_reference b = None.
Proof.
  clear Hown HU. intros Hbm HGb Hanc. apply eq_None_not_Some. intros [s Hs].
  destruct (suspended_missing ctx G v bm d _ s Hbm Hs) as (m & Hm & _ & Hk). apply Hk, Hanc.
  destruct (ci_susp _ _ _ _ _ _ _ _ _ (bi_inv _ _ _ _ _ Hbm) _ s Hs) as (HG & _). by simplify_eq.
Qed.

Lemma accept_own_spec bm d v b now : node_inv ctx G d v → bm_inv ctx G v bm d →
  G (vb_reference b) = Some b → vb_round b ≠ 0 → gc_round ctx d < vb_round b → ¬ known v d (vb_reference b) →
  bm_missing_ancestors bm !! vb_reference b = None → (∀ a, a ∈ vb_ancestors b → known v d a) →
  ∃ bm' d', try_accept_blocks ctx bm d [b] now = Done (bm', d', [b], ∅) ∧ progress ctx G v now bm d [b] bm' d' [b].
Proof using HU Hown.
  intros Hni Hbm HGb Hr Hgc Hk Hfresh Hanc. pose proof (own_not_suspended bm d v b Hbm HGb Hanc) as Hs.
  pose proof (u_wf _ _ _ HU _ _ HGb) as Hwf. pose proof (vo_inv _ _ _ _ (ni_view _ _ _ _ Hni)) as Hdi.
  destruct (try_accept_blocks_spec ctx G byz HU Hown v now bm d [b] Hni Hbm) as (bm' & d' & acc & miss & Hrun & Hp & _).
  { by apply Forall_singleton. }
  exists bm', d'. assert (acc = [b] ∧ miss = ∅) as [-> ->]; [|done].
  revert Hrun. unfold try_accept_blocks, try_accept_blocks_internal.
  change (sort_by (by_key vb_round) [b]) with [b]. rewrite for_each_cons. unfold accept_or_suspend.
  destruct (received_spec ctx bm b (bi_received _ _ _ _ _ Hbm) (wf_author _ _ Hwf)) as (l & -> & _). cbn [mbind run_bind].
  unfold try_accept_one_block. change (bm_suspended_blocks (set_received_block_rounds l bm)) with (bm_suspended_blocks bm).
  rewrite (bool_decide_eq_false_2 (is_Some (bm_suspended_blocks bm !! vb_reference b))) by (rewrite Hs; by intros [? ?]).
  rewrite (contains_block_spec ctx d v) by (done || apply Hwf). cbn [mbind run_bind].
  rewrite (bool_decide_eq_false_2 (is_Some (dag_lookup d v (vb_reference b)))) by done.
  rewrite (bool_decide_eq_false_2 (vb_round b ≤ gc_round ctx d)) by lia.
  rewrite (contains_blocks_spec ctx d v) by (done || apply Forall_filter, Hwf). cbn [mbind run_bind].
  rewrite for_each_zip_filter. match goal with |- context [for_each (add_missing_ancestor _ _) _ ?l] => assert (l = []) as -> end.
  { apply elem_of_nil_inv. intros a [Hn [_ Ha]%list_elem_of_filter]%list_elem_of_filter. apply Hn.
    by apply bool_decide_pack, Hanc. }
  cbn [for_each foldl mbind run_bind]. rewrite bool_decide_eq_true_2 by done. cbn [mbind run_bind].
  unfold try_unsuspend_children_blocks. cbn [unsuspend_loop]. simpl. rewrite Hfresh.
  change (set_list (default ∅ None : gset BlockRef)) with ([] : list BlockRef). simpl.
  destruct (size (bm_suspended_blocks bm)); simpl; intros Hrun; by run_inv.
Qed.
End fresh.

(** ** The own block in the node *)

Section proposer.
Context {S : Type} `{StoreLaws S} `{BlockCodec} `{Crypto} `{BlockSigner} `{Rng}.
Context (ctx : Context) (clk : CoreClock) (G : BlockRef → option VerifiedBlock).
Context (byz : gset AuthorityIndex) (Hhonest : honest_node (S := S) ctx G byz).
Context (genesis : list VerifiedBlock) (Hgenesis : genesis_blocks ctx = Done genesis).
Context (Hdepth : 2 ≤ pc_gc_depth (ctx_protocol_config ctx)).
Context (Hsign : signing_ok ctx) (Hlim : limits_ok ctx).
Implicit Types (d : DagState S) (c : Core S) (bm : BlockManager) (v : StoreView).
Abbreviation cm := (ctx_committee ctx).
Abbreviation pc := (ctx_protocol_config ctx).
Abbreviation own := (ctx_own_index ctx).
Abbreviation HU := (hn_universe _ _ _ Hhonest).
Abbreviation dag_ok := (dag_ok ctx G genesis).

(** The blocks among the outputs. *)
Definition proposals (out : list CoreOutput) : list VerifiedBlock :=
  omap (λ o, match o with NewBlock eb => Some (eb_block eb) | _ => None end) out.
#[global] Arguments proposals : simpl never.

Lemma proposals_app out1 out2 : proposals (out1 ++ out2) = proposals out1 ++ proposals out2.
Proof. clear. apply omap_app. Qed.
Lemma proposals_certified out (sent : list (list CertifiedBlock)) : proposals (out ++ (CertifiedBlocks <$> sent)) = proposals out.
Proof.
  clear. rewrite proposals_app. assert (proposals (CertifiedBlocks <$> sent) = []) as ->; [|apply app_nil_r].
  by induction sent.
Qed.

(** The certifier has the block, unless it is collected. *)
Definition voted (st : CertifierState) (r : BlockRef) : Prop := cs_gc_round st < br_round r → is_Some (cs_votes st !! r).

(** Votes are only added. *)
Definition gains (st st' : CertifierState) : Prop :=
  cs_gc_round st' = cs_gc_round st ∧ ∀ r, is_Some (cs_votes st !! r) → is_Some (cs_votes st' !! r).
Lemma gains_voted st st' r : gains st st' → voted st r → voted st' r.
Proof. clear. intros [Hgc Hs] Hv. unfold voted. rewrite Hgc. auto. Qed.
Lemma gains_trans st1 st2 st3 : gains st1 st2 → gains st2 st3 → gains st1 st3.
Proof. clear. intros [H1 H2] [H3 H4]. split; [congruence|auto]. Qed.
Lemma later_gains st st' : later st st' → gains st st'.
Proof. clear. intros Hl. split; apply Hl. Qed.

(** The certifier is in a state its operations lead to, and knows the blocks
    of the node, accepted or waiting. *)
Definition certifier_ok (st : CertifierState) bm d v : Prop :=
  (∀ r, known v d r ∨ is_Some (bm_suspended_blocks bm !! r) → voted st r) ∧
  ∃ outs, good ctx G st outs.

Lemma certifier_frame st bm d v bm' d' v' : certifier_ok st bm d v →
  (∀ r, known v' d' r ∨ is_Some (bm_suspended_blocks bm' !! r) → known v d r ∨ is_Some (bm_suspended_blocks bm !! r)) →
  certifier_ok st bm' d' v'.
Proof. clear. intros [Hv Hg] Hk. split; [|done]. auto. Qed.

Lemma certifier_votes st bm d v : certifier_ok st bm d v → votes_known st d v.
Proof. clear. intros [Hv _] r Hr Hgc. apply Hv; auto. Qed.

(** Changes that keep the blocks and the GC round keep the block manager. *)
Lemma bm_inv_mono bm d v d' v' : bm_inv ctx G v bm d → gc_round ctx d ≤ gc_round ctx d' →
  (∀ r, known v' d' r ↔ known v d r) → bm_inv ctx G v' bm d'.
Proof. clear. intros [Hinv Hrec] Hgc Hk. split; [|done]. by apply (inv_mono ctx G v (d := d)). Qed.
Lemma bm_inv_frame bm d v d' v' : bm_inv ctx G v bm d → gc_round ctx d' = gc_round ctx d →
  (∀ r, known v' d' r ↔ known v d r) → bm_inv ctx G v' bm d'.
Proof. clear. intros Hinv Hgc Hk. apply (bm_inv_mono bm d v); [done|by rewrite Hgc|done]. Qed.

(** The certifier learns the own block. *)
Lemma certify_own st bm d v b d' : certifier_ok st bm d v → G (vb_reference b) = Some b →
  (∀ r, known v d' r → known v d r ∨ r = vb_reference b) →
  ∃ st' sent, TransactionCertifier_add_voted_blocks ctx st [(b, [])] = Done (st', sent) ∧ certifier_ok st' bm d' v ∧ gains st st'.
Proof using Hhonest.
  clear Hgenesis Hdepth Hsign Hlim. intros [Hv (outs & Hg)] HGb Hk.
  destruct (add_voted_block_spec ctx G byz HU st outs b [] HGb Hg) as (st' & new & Hrun & Hg' & Hl & Hb).
  exists st', (send_certified_blocks new). split.
  - unfold TransactionCertifier_add_voted_blocks, CertifierState_add_voted_blocks. cbn [for_each]. by rewrite Hrun.
  - split; [|by apply later_gains].
    split; [|by eexists]. intros r Hr. unfold voted. rewrite (la_gc _ _ Hl). intros Hgc.
    destruct (decide (r = vb_reference b)) as [->|Hne].
    + specialize (Hb Hgc). unfold entry in Hb. by destruct (cs_votes st' !! vb_reference b).
    + apply (la_some _ _ Hl), Hv; [|done]. destruct Hr as [[?|?]%Hk|?]; [by left|done|by right].
Qed.

Lemma gc_below_proposal d v : dag_ok d v → gc_round ctx d < threshold_clock_round d.
Proof using Hdepth.
  clear Hhonest Hgenesis Hsign Hlim. intros Hok. pose proof (dk_last _ _ _ _ _ Hok) as Hl.
  pose proof (ck_pos _ _ _ (dk_clock _ _ _ _ _ Hok)) as Hp.
  unfold threshold_clock_round, ThresholdClock_get_round, gc_round, calculate_gc_round, saturating_sub in *. lia.
Qed.

(** The state of core after it has accepted its block. *)
Definition accepted c bm st out d : Core S :=
  set_co_dag_state d (set_co_outputs out (set_co_transaction_certifier st (set_co_block_manager bm c))).

Lemma certify_and_link_spec c v d0 b : let d := co_dag_state c in dag_ok d v →
  (pc_mysticeti_fastpath pc → certifier_ok (co_transaction_certifier c) (co_block_manager c) d0 v) →
  (∀ r, known v d r ↔ known v d0 r ∨ r = vb_reference b) → G (vb_reference b) = Some b →
  ∃ st out d', certify_and_link ctx c b = Done (accepted c (co_block_manager c) st out d') ∧
    same_dag d d' ∧ dag_ok d' v ∧ kept d d' ∧
    (pc_mysticeti_fastpath pc → certifier_ok st (co_block_manager c) d' v) ∧
    gains (co_transaction_certifier c) st ∧ proposals out = proposals (co_outputs c).
Proof using Hhonest.
  clear Hgenesis Hdepth Hsign Hlim. intros d Hok Hcert Hk HGb. unfold certify_and_link.
  destruct (pc_mysticeti_fastpath pc) eqn:Hf.
  - destruct (certify_own (co_transaction_certifier c) _ d0 v b d (Hcert I) HGb (λ r, proj1 (Hk r))) as (st & sent & -> & Hst & Hvt).
    cbn [mbind run_bind].
    destruct (link_ok ctx G genesis d v (vb_reference b) Hok) as (d' & new & Hlink & Hs & Hok' & Hkp & _).
    { apply Hk. by right. }
    match goal with |- context [link_causal_history ctx ?x] => change x with d end. rewrite Hlink. cbn [mbind run_bind].
    eexists st, _, d'. split; [done|]. split; [done|]. split; [done|]. split; [done|]. split; [|split; [done|apply proposals_certified]]. intros _.
    eapply certifier_frame; [done|]. intros r. unfold known. by rewrite (same_lookup d d').
  - exists (co_transaction_certifier c), (co_outputs c), d. split; [by destruct c|]. by split_and!.
Qed.

Lemma accept_proposal_spec c v b : let d := co_dag_state c in
  dag_ok d v → bm_inv ctx G v (co_block_manager c) d →
  (pc_mysticeti_fastpath pc → certifier_ok (co_transaction_certifier c) (co_block_manager c) d v) →
  G (vb_reference b) = Some b → vb_round b = threshold_clock_round d → ¬ known v d (vb_reference b) →
  bm_missing_ancestors (co_block_manager c) !! vb_reference b = None → (∀ a, a ∈ vb_ancestors b → known v d a) →
  ∃ bm st out d' v', accept_proposal ctx clk c b = Done (accepted c bm st out d') ∧
    dag_ok d' v' ∧ retained ctx d d' ∧ bm_inv ctx G v' bm d' ∧ (pc_mysticeti_fastpath pc → certifier_ok st bm d' v') ∧
    gains (co_transaction_certifier c) st ∧ proposals out = proposals (co_outputs c) ∧
    (∀ r, is_Some (bm_suspended_blocks bm !! r) → is_Some (bm_suspended_blocks (co_block_manager c) !! r)) ∧
    ∀ r, known v' d' r ↔ known v d r ∨ r = vb_reference b.
Proof using Hhonest Hdepth.
  clear Hgenesis Hsign Hlim. intros d Hok Hbm Hcert HGb Hr Hnew Hfresh Hanc.
  pose proof (gc_below_proposal d v Hok) as Hgc. pose proof (ck_pos _ _ _ (dk_clock _ _ _ _ _ Hok)) as Hpos.
  destruct (accept_own_spec ctx G byz HU (hn_own _ _ _ Hhonest) (co_block_manager c) d v b (clk_instant clk)
    (dk_node _ _ _ _ _ Hok) Hbm HGb) as (bm & d1 & Hrun & Hp); try done.
  { unfold threshold_clock_round, ThresholdClock_get_round in Hr. lia. }
  { by rewrite Hr. }
  pose proof (progress_ok ctx G byz Hhonest genesis _ _ _ _ _ _ _ _ Hok Hp) as [Hok1 Hkp1].
  assert (Hk1 : ∀ r, known v d1 r ↔ known v d r ∨ r = vb_reference b)
    by (intros r; rewrite (pr_known _ _ _ _ _ _ _ _ _ _ Hp); by rewrite <-list_elem_of_singleton).
  assert (Hsusp : ∀ r, is_Some (bm_suspended_blocks bm !! r) → is_Some (bm_suspended_blocks (co_block_manager c) !! r)).
  { intros r Hs. destruct (pr_origin _ _ _ _ _ _ _ _ _ _ Hp r (or_introl Hs)) as [?|Hin]; [done|].
    apply list_elem_of_singleton in Hin as ->.
    rewrite (own_not_suspended ctx G bm d1 v b (pr_inv _ _ _ _ _ _ _ _ _ _ Hp) HGb) in Hs; [by destruct Hs|].
    intros a Ha. apply Hk1. left. by apply Hanc. }
  assert (Hcert1 : pc_mysticeti_fastpath pc → certifier_ok (co_transaction_certifier c) bm d v).
  { intros Hf. eapply certifier_frame; [by apply Hcert|]. intros r [?|?]; auto. }
  unfold accept_proposal. fold d. rewrite Hrun. cbn [mbind run_bind]. rewrite !bool_decide_eq_true_2 by done.
  match goal with |- context [certify_and_link ctx ?c1 b] =>
    destruct (certify_and_link_spec c1 v d b Hok1 Hcert1 Hk1 HGb) as (st & out & d2 & -> & Hs2 & Hok2 & Hkp2 & Hcert2 & Hvt2 & Hpr2) end.
  cbn [mbind run_bind]. change (co_dag_state (accepted _ _ st out d2)) with d2.
  destruct (flush_ok ctx G byz Hhonest genesis d2 v Hok2) as (d3 & -> & Hok3 & Hrt & _ & Hlk).
  cbn [mbind run_bind].
  assert (Hk3 : ∀ r, known (view_after d2 v EvFlush) d3 r ↔ known v d1 r)
    by (intros r; unfold known; by rewrite Hlk, (same_lookup d1 d2)).
  exists bm, st, out, d3, (view_after d2 v EvFlush). split_and!; [done|done| | | | |exact Hpr2| |].
  - eapply retained_trans; [|exact Hrt]. apply kept_retained. by eapply kept_trans.
  - apply (bm_inv_frame bm d1 v); [apply Hp| |done]. by rewrite (commit_gc_round ctx _ _ (rt_commit _ _ _ Hrt)), (same_gc_round ctx d1 d2).
  - intros Hf. eapply certifier_frame; [by apply Hcert2|]. intros r. unfold known. by rewrite Hlk.
  - done.
  - done.
  - intros r. by rewrite Hk3.
Qed.

(** ** [try_new_block] *)

(** A node that may propose. *)
Record proposing_node c v : Prop := {
  pn_proposer : proposer_ok ctx G genesis c v;
  pn_manager : bm_inv ctx G v (co_block_manager c) (co_dag_state c);
  pn_certifier : pc_mysticeti_fastpath pc →
    certifier_ok (co_transaction_certifier c) (co_block_manager c) (co_dag_state c) v;
}.

(** The universe has the block once it is created, and no received block
    refers to it before. *)
Definition announces c (force : bool) : Prop := ∀ c1 b excluded acks,
  prepare_block ctx clk c force (threshold_clock_round (co_dag_state c)) = Done (c1, Some (b, excluded, acks)) →
  G (vb_reference b) = Some b ∧ bm_missing_ancestors (co_block_manager c) !! vb_reference b = None.

Lemma last_proposed_spec c v : dag_ok (co_dag_state c) v → ∃ b, last_proposed_block ctx c = Done b ∧ vb_author b = own ∧
  dag_lookup (co_dag_state c) v (vb_reference b) = Some b ∧
  ∀ r, known v (co_dag_state c) r → br_author r = own → br_round r ≤ vb_round b.
Proof using Hhonest Hgenesis.
  clear Hdepth Hsign Hlim. intros Hok. apply (last_block_spec ctx G byz Hhonest genesis Hgenesis _ v); [done|apply Hhonest].
Qed.

(** An accepted own block of a new round is the last one. *)
Lemma last_proposed_new c v c' v' own_block b : dag_ok (co_dag_state c) v → dag_ok (co_dag_state c') v' →
  last_proposed_block ctx c = Done own_block → vb_round own_block < vb_round b → vb_author b = own →
  G (vb_reference b) = Some b → (∀ r, known v' (co_dag_state c') r ↔ known v (co_dag_state c) r ∨ r = vb_reference b) →
  last_proposed_block ctx c' = Done b.
Proof using Hhonest Hgenesis.
  clear Hdepth Hsign Hlim. intros Hok Hok' Hown Hlt Ha HGb Hk.
  destruct (last_proposed_spec c v Hok) as (b0 & Hb0 & _ & _ & Hmax). assert (b0 = own_block) as -> by congruence.
  destruct (last_proposed_spec c' v' Hok') as (b1 & -> & Ha1 & Hlk & Hmax').
  assert (Hr : vb_round b ≤ vb_round b1) by (apply (Hmax' (vb_reference b)); [apply Hk; by right|done]).
  assert (known v' (co_dag_state c') (vb_reference b1)) as [Hold|Heq]%Hk by (by eexists).
  { specialize (Hmax _ Hold Ha1). simpl in Hmax. lia. }
  apply (vo_sub _ _ _ _ (ni_view _ _ _ _ (dk_node _ _ _ _ _ Hok'))) in Hlk. congruence.
Qed.

Lemma ack_consumer_ok tn acks r : consumer_ok ctx tn → consumer_ok ctx (ack_transactions tn acks r).1.
Proof. clear. by intros [Hl Hf]. Qed.

(** Proposing leaves the commits, the schedule and the waiting blocks alone. *)
Record carried c c' : Prop := {
  cr_retained : retained ctx (co_dag_state c) (co_dag_state c');
  cr_schedule : co_leader_schedule c' = co_leader_schedule c;
  cr_decided : co_last_decided_leader c' = co_last_decided_leader c;
  cr_handle : co_commit_finalizer_handle c' = co_commit_finalizer_handle c;
  cr_broadcast : co_broadcast_closed c' = co_broadcast_closed c;
  cr_last_known : co_last_known_proposed_round c' = co_last_known_proposed_round c;
  cr_proposals : proposals (co_outputs c') = proposals (co_outputs c);
  cr_certifier : gains (co_transaction_certifier c) (co_transaction_certifier c');
}.

(** The state of a node between the creation and the acceptance of its block. *)
Record holds_proposal c v own_block b : Prop := {
  hp_dag : dag_ok (co_dag_state c) v;
  hp_manager : bm_inv ctx G v (co_block_manager c) (co_dag_state c);
  hp_certifier : pc_mysticeti_fastpath pc →
    certifier_ok (co_transaction_certifier c) (co_block_manager c) (co_dag_state c) v;
  hp_peers : peers_ok ctx c;
  hp_included : included_ok ctx (co_last_included_ancestors c) (vb_round b);
  hp_consumer : consumer_ok ctx (co_transaction_consumer c);
  hp_committer : co_committer c = pipelined_committers;
  hp_schedule round : ∃ leader, elect_leader ctx (co_leader_schedule c) round 0 = Done leader ∧
    Committee_is_valid_index cm leader;
  hp_last : last_proposed_block ctx c = Done own_block;
  hp_later : vb_round own_block < vb_round b;
  hp_valid : valid_proposal ctx (co_dag_state c) v (threshold_clock_round (co_dag_state c)) own_block b;
  hp_block : G (vb_reference b) = Some b;
  hp_fresh : bm_missing_ancestors (co_block_manager c) !! vb_reference b = None;
}.

(** From the signed block on: the block is accepted, and it is the last one. *)
Lemma finish_block_spec c v own_block b excluded acks : holds_proposal c v own_block b →
  Forall (λ r, Committee_is_valid_index cm (br_author r)) excluded →
  ∃ c' v', finish_block ctx clk c b excluded acks = Done (c', mk_extended b excluded) ∧ proposing_node c' v' ∧
    last_proposed_block ctx c' = Done b ∧ carried c c' ∧
    ∀ r, known v' (co_dag_state c') r ↔ known v (co_dag_state c) r ∨ r = vb_reference b.
Proof using Hhonest Hgenesis Hdepth.
  clear Hsign Hlim. intros [Hok Hbm Hcert Hpeers Hinc Hcons Hcomm Hsched Hlast Hlater Hvalid HGb Hfresh] Hexc.
  pose proof (vp_author _ _ _ _ _ _ Hvalid) as Ha. unfold finish_block. rewrite Hlast. cbn [mbind run_bind].
  destruct (accept_proposal_spec c v b Hok Hbm Hcert HGb (vp_round _ _ _ _ _ _ Hvalid)) as
    (bm & st & out & d2 & v2 & -> & Hok2 & Hrt & Hbm2 & Hcert2 & Hvt2 & Hpr2 & Hsusp & Hk2); [|done|apply Hvalid|].
  { intros Hkb. destruct (last_proposed_spec c v Hok) as (b0 & Hb0 & _ & _ & Hm). assert (b0 = own_block) as -> by congruence.
    specialize (Hm _ Hkb Ha). simpl in Hm. lia. }
  cbn [mbind run_bind]. change (co_transaction_consumer (accepted _ _ _ _ _)) with (co_transaction_consumer c).
  pose proof (ack_consumer_ok (co_transaction_consumer c) acks (vb_reference b) Hcons) as Htn.
  destruct (ack_transactions (co_transaction_consumer c) acks (vb_reference b)) as [tn acked]. simpl in Htn.
  match goal with |- context [update_from_accepted_block ?t _] => change t with (co_round_tracker c) end.
  destruct (update_from_accepted_block_ok ctx (co_round_tracker c) (mk_extended b excluded) (pe_tracker _ _ Hpeers))
    as (tracker & -> & Htr).
  { simpl. rewrite Ha. apply Hhonest. }
  { simpl. apply Forall_app. split; [eapply Forall_impl; [apply (vp_wf _ _ _ _ _ _ Hvalid)|]|eapply Forall_impl; [exact Hexc|]];
      intros r; apply valid_lt. }
  cbn [mbind run_bind]. eexists _, v2. split; [done|].
  assert (Hl : ∀ c', co_dag_state c' = d2 → last_proposed_block ctx c' = Done b).
  { intros c' <-. by apply (last_proposed_new c v c' v2 own_block b). }
  split; [|split; [by apply Hl|split; [split; try done|done]]].
  2:{ cbn. by rewrite proposals_app, app_nil_r. }
  split; [|done..]. split; [done|by destruct Hpeers| |done| |done..].
  - intros b' Hb'. rewrite Hl in Hb' by done. by injection Hb' as <-.
  - intros Hf. eapply certifier_votes, (Hcert2 Hf).
Qed.

(** What the creation of a block does. *)
Definition created c v own_block (force : bool) c' v' (o : option ExtendedBlock) : Prop :=
  match o with
  | None => force = false ∧ v' = v ∧ same_dag (co_dag_state c) (co_dag_state c') ∧
      last_proposed_block ctx c' = Done own_block
  | Some eb =>
      valid_proposal ctx (co_dag_state c) v (threshold_clock_round (co_dag_state c)) own_block (eb_block eb) ∧
      votes_pending (co_dag_state c) (eb_block eb) ∧ last_proposed_block ctx c' = Done (eb_block eb) ∧
      ∀ r, known v' (co_dag_state c') r ↔ known v (co_dag_state c) r ∨ r = vb_reference (eb_block eb)
  end.

Lemma same_last_proposed c v c' : dag_ok (co_dag_state c) v → dag_ok (co_dag_state c') v →
  same_dag (co_dag_state c) (co_dag_state c') → last_proposed_block ctx c' = last_proposed_block ctx c.
Proof using Hhonest Hgenesis.
  clear Hdepth Hsign Hlim. intros Hok Hok' Hs.
  assert (Hk : ∀ r, known v (co_dag_state c') r ↔ known v (co_dag_state c) r)
    by (intros r; unfold known; by rewrite (same_lookup (co_dag_state c) (co_dag_state c'))).
  destruct (last_proposed_spec c v Hok) as (b & -> & Ha & Hlk & Hmax).
  destruct (last_proposed_spec c' v Hok') as (b' & -> & Ha' & Hlk' & Hmax'). f_equal.
  pose proof (Hmax (vb_reference b') ltac:(apply Hk; by eexists) Ha') as Hle.
  pose proof (Hmax' (vb_reference b) ltac:(apply Hk; by eexists) Ha) as Hle'. simpl in Hle, Hle'.
  rewrite (same_lookup (co_dag_state c) (co_dag_state c')) in Hlk' by done.
  pose proof (vo_sub _ _ _ _ (ni_view _ _ _ _ (dk_node _ _ _ _ _ Hok)) _ _ Hlk) as HG.
  pose proof (vo_sub _ _ _ _ (ni_view _ _ _ _ (dk_node _ _ _ _ _ Hok)) _ _ Hlk') as HG'.
  pose proof (u_honest _ _ _ HU _ _ _ _ HG HG') as Heq. simpl in Heq. rewrite Ha, Ha' in Heq.
  rewrite Heq in HG; [congruence|apply Hhonest|done|lia].
Qed.

Lemma valid_proposal_same d d' v own_block b : same_dag d d' →
  valid_proposal ctx d v (threshold_clock_round d) own_block b → valid_proposal ctx d' v (threshold_clock_round d') own_block b.
Proof.
  clear. intros Hs Hv. assert (threshold_clock_round d' = threshold_clock_round d) as ->
    by (unfold threshold_clock_round; by rewrite (sm_clock _ _ Hs)).
  destruct Hv as [? ? ? ? Hk ?]. split; try done. intros a Ha. unfold known. rewrite (same_lookup d d') by done. by apply Hk.
Qed.

Lemma create_block_spec c v (force : bool) own_block : let R := threshold_clock_round (co_dag_state c) in
  proposing_node c v → last_proposed_block ctx c = Done own_block → vb_round own_block < R → R < u32_max →
  announces c force →
  ∃ c' v' o, create_block ctx clk c force R = Done (c', o) ∧ proposing_node c' v' ∧ carried c c' ∧
    created c v own_block force c' v' o.
Proof using Hhonest Hgenesis Hdepth Hsign Hlim.
  intros R [Hpo Hbm Hcert] Hown Hlt Hmax Hann. pose proof (po_dag _ _ _ _ _ Hpo) as Hok.
  destruct (prepare_block_spec ctx clk G byz Hhonest genesis Hgenesis Hdepth Hsign Hlim c v force own_block Hpo Hown Hlt Hmax)
    as (m & l & d' & tn & p & Hrun & Hs & Hok' & Hkp & Hpeers & Hl & Htn & Hp).
  assert (Hk : ∀ r, known v d' r ↔ known v (co_dag_state c) r)
    by (intros r; unfold known; by rewrite (same_lookup (co_dag_state c) d')).
  assert (Hbm' : bm_inv ctx G v (co_block_manager c) d').
  { apply (bm_inv_frame _ (co_dag_state c) v); [done| |done]. by apply same_gc_round. }
  assert (Hcert' : pc_mysticeti_fastpath pc → certifier_ok (co_transaction_certifier c) (co_block_manager c) d' v).
  { intros Hf. eapply certifier_frame; [by apply Hcert|]. intros r. by rewrite Hk. }
  unfold create_block. fold R. pose proof (Hann) as Hann'. unfold announces in Hann'. fold R in Hann', Hrun.
  rewrite Hrun. cbn [mbind run_bind].
  destruct p as [[[b excluded] acks]|].
  - destruct Hp as (Hvalid & Hexc & Hvp). destruct (Hann' _ _ _ _ Hrun) as [HGb Hfresh].
    pose proof (vp_round _ _ _ _ _ _ Hvalid) as Hr. destruct Hpo as [_ _ _ _ _ Hcomm Hsched].
    destruct (finish_block_spec (prepared c m l d' tn) v own_block b excluded acks) as (c' & v' & -> & Hn & Hlast & Hcar & Hk'); [|done|].
    { split; try done; [by destruct Hpeers|by rewrite Hr|by rewrite (same_last_proposed c v)|by rewrite Hr|].
      by apply (valid_proposal_same (co_dag_state c)). }
    exists c', v', (Some (mk_extended b excluded)). split; [done|]. split; [done|]. split.
    { destruct Hcar as [Hr1 Hs1 Hd1 Hh1 Hb1 Hk1 Hp1 Hv1]. split; try done. eapply retained_trans; [by apply kept_retained|exact Hr1]. }
    split_and!; [done..|]. intros r. by rewrite Hk', Hk.
  - destruct Hp as [-> ->].
    assert (Hlast : last_proposed_block ctx (prepared c m (co_last_included_ancestors c) d' tn) = Done own_block)
      by (rewrite <-Hown; by apply (same_last_proposed c v)).
    eexists _, v, None. split; [done|]. split; [|split; [by split; [apply kept_retained|done..]|done]]. split; [|done..]. destruct Hpo as [_ _ Hinc _ _ Hcomm Hsched].
    split; [done|by destruct Hpeers| |done| |done..].
    + intros b Hb. assert (b = own_block) as -> by congruence. by apply Hinc.
    + intros Hf. eapply certifier_votes, (Hcert' Hf).
Qed.

(** The leaders of the previous round are looked up in the cache. *)
Lemma slot_cached_total d v (slot : Slot) : dag_ok d v → Committee_is_valid_index cm (s_authority slot) →
  s_round slot + 1 = threshold_clock_round d → ∃ found, contains_cached_block_at_slot d slot = Done found.
Proof using Hdepth.
  clear Hhonest Hgenesis Hsign Hlim. intros Hok Hv Hr. unfold contains_cached_block_at_slot.
  case_bool_decide as H0r; [by eexists|].
  destruct (cached_refs ctx d v (s_authority slot) (vo_inv _ _ _ _ (ni_view _ _ _ _ (dk_node _ _ _ _ _ Hok))) Hv)
    as (X & e & HX & He & Hle & _).
  destruct (gc_below_clock ctx G genesis Hdepth d v Hok) as [?|?]; [change GENESIS_ROUND with 0 in H0r; lia|].
  unfold vec_get. rewrite He, HX. cbn [expect mbind run_bind]. rewrite bool_decide_eq_false_2 by lia. by eexists.
Qed.

Lemma leaders_exist_total c v : dag_ok (co_dag_state c) v → co_committer c = pipelined_committers →
  threshold_clock_round (co_dag_state c) ≤ u32_max →
  (∀ round, ∃ leader, elect_leader ctx (co_leader_schedule c) round 0 = Done leader ∧ Committee_is_valid_index cm leader) →
  ∃ found, leaders_exist ctx c (saturating_sub (threshold_clock_round (co_dag_state c)) 1) = Done found.
Proof using Hdepth.
  clear Hhonest Hgenesis Hsign Hlim. intros Hok Hc Hmax Hel. set (R := threshold_clock_round _) in *.
  assert (1 ≤ R) by apply (ck_pos _ _ _ (dk_clock _ _ _ _ _ Hok)). unfold leaders_exist.
  destruct (leaders_total ctx c (saturating_sub R 1) Hc) as (leader & -> & Hv); [unfold saturating_sub; lia|done|].
  cbn [mbind run_bind all_slots_cached].
  destruct (slot_cached_total (co_dag_state c) v (mk_slot (saturating_sub R 1) leader) Hok Hv) as [found ->].
  { unfold saturating_sub. simpl. fold R. lia. }
  cbn [mbind run_bind]. destruct found; by eexists.
Qed.

(** Proposing never panics. *)
Lemma try_new_block_spec (params : Parameters) c v (force : bool) own_block : let R := threshold_clock_round (co_dag_state c) in
  proposing_node c v → last_proposed_block ctx c = Done own_block → R < u32_max → announces c force →
  ∃ c' v' o, try_new_block ctx params clk c force = Done (c', o) ∧ proposing_node c' v' ∧ carried c c' ∧
    match o with
    | None => last_proposed_block ctx c' = Done own_block ∧ (force → R ≤ vb_round own_block)
    | Some eb => vb_round own_block < R ∧ valid_proposal ctx (co_dag_state c) v R own_block (eb_block eb) ∧
        votes_pending (co_dag_state c) (eb_block eb) ∧ last_proposed_block ctx c' = Done (eb_block eb)
    end.
Proof using Hhonest Hgenesis Hdepth Hsign Hlim.
  intros R Hn Hown Hmax Hann. pose proof (po_dag _ _ _ _ _ (pn_proposer _ _ Hn)) as Hok. unfold try_new_block. fold R.
  assert (Hself : carried c c) by (split; [apply kept_retained, kept_refl|done..]).
  rewrite Hown. cbn [mbind run_bind]. case_bool_decide as Hle; [by exists c, v, None|].
  destruct (create_block_spec c v force own_block Hn Hown ltac:(fold R; lia) Hmax Hann)
    as (c' & v' & o & Hrun & Hn' & Hcar & Hcr). fold R in Hrun, Hcr.
  assert (Hgoal : ∃ c' v' o, create_block ctx clk c force R = Done (c', o) ∧ proposing_node c' v' ∧ carried c c' ∧
    match o with
    | None => last_proposed_block ctx c' = Done own_block ∧ (force → R ≤ vb_round own_block)
    | Some eb => vb_round own_block < R ∧ valid_proposal ctx (co_dag_state c) v R own_block (eb_block eb) ∧
        votes_pending (co_dag_state c) (eb_block eb) ∧ last_proposed_block ctx c' = Done (eb_block eb)
    end).
  { exists c', v', o. split; [done|]. split; [done|]. split; [done|]. destruct o as [eb|]; simpl in Hcr.
    - destruct Hcr as (? & ? & ? & _). split_and!; [lia|done..].
    - destruct Hcr as (-> & _ & _ & ?). by split. }
  destruct force; [exact Hgoal|]. destruct (pn_proposer _ _ Hn) as [_ _ _ _ _ Hc Hel].
  destruct (leaders_exist_total c v Hok Hc) as [found Hf]; [fold R; lia|done|]. fold R in Hf. rewrite Hf. cbn [mbind run_bind].
  destruct found; [|by exists c, v, None]. simpl. unfold last_proposed_timestamp_ms. rewrite Hown. simpl.
  case_bool_decide; [by exists c, v, None|]. exact Hgoal.
Qed.
End proposer.
