(* ===== verification/CoreCommit.v ===== *)
(** * Committing in the core

    The loop of [try_commit]: the leader schedule is refreshed after its
    number of commits, leaders are decided, linearized, sent to the finalizer
    and scored, and blocks that waited for collected ancestors are released.
    No turn panics, and the loop ends. *)
From S2P Require Import Prelude Committee StakeAggregator Block ThresholdClock Commit LeaderScoring Store DagState DagStateProofs DagTraversal LeaderSchedule BaseCommitter CommitRule BlockVerifier TransactionConsumer DagViews BlockManager BlockManagerProofs BlockManagerSafety Linearizer CommitObserver LinearizerProofs CommitSafety UniversalCommitter QuorumRounds Ancestor TransactionCertifier CertifierProofs CommitFinalizer Core CoreState Ledger CoreProposal CoreProposer.

(** ** Scoring committed sub-dags *)

Section scoring.
Context (c : Committee) (Hok : committee_ok c).
Implicit Types (s : ScoringSubdag) (b : VerifiedBlock).

(** At most one leader per round. *)
Definition one_per_round (X : gset BlockRef) : Prop :=
  ∀ r1 r2, r1 ∈ X → r2 ∈ X → br_round r1 = br_round r2 → r1 = r2.

(** What scoring blocks leaves alone, and the references it starts to count. *)
Record scored s (new : list BlockRef) s' : Prop := {
  sr_inv : scoring_inv c s';
  sr_range : ss_commit_range s' = ss_commit_range s;
  sr_leaders : ss_leaders s' = ss_leaders s;
  sr_votes r : is_Some (ss_votes s' !! r) → is_Some (ss_votes s !! r) ∨ r ∈ new;
}.

Lemma scored_refl s : scoring_inv c s → scored s [] s.
Proof. clear. split; auto. Qed.
Lemma scored_trans s1 l1 s2 l2 s3 : scored s1 l1 s2 → scored s2 l2 s3 → scored s1 (l1 ++ l2) s3.
Proof.
  clear. intros H1 H2. split.
  - apply H2.
  - by rewrite (sr_range _ _ _ H2), (sr_range _ _ _ H1).
  - by rewrite (sr_leaders _ _ _ H2), (sr_leaders _ _ _ H1).
  - intros r [Hr|Hr]%(sr_votes _ _ _ H2); rewrite elem_of_app; [|auto].
    destruct (sr_votes _ _ _ H1 r Hr); auto.
Qed.

(** The ancestors that make a block a vote. *)
Definition voted_leaders s b (l : list BlockRef) : list BlockRef :=
  filter (λ a, br_round a = saturating_sub (vb_round b) 1 ∧ a ∈ ss_leaders s) l.

Abbreviation counts s b l := ((λ _, vb_reference b) <$> voted_leaders s b l).

Lemma add_link_total b s a : scoring_inv c s → Committee_is_valid_index c (vb_author b) →
  (a ∈ ss_leaders s → br_round a = saturating_sub (vb_round b) 1 → ss_votes s !! vb_reference b = None) →
  ∃ s', ScoringSubdag_add_link c b s a = Done s' ∧ scored s (counts s b [a]) s'.
Proof using Hok.
  intros Hinv Hv Hfresh. unfold ScoringSubdag_add_link, voted_leaders. rewrite filter_cons, filter_nil.
  case_bool_decide as Hr; cbn [negb].
  2:{ rewrite decide_False by naive_solver. exists s. split; [done|]. by apply scored_refl. }
  set (s1 := if decide (a ∈ ss_leaders s) then mk_scoring (ss_commit_range s) (ss_leaders s)
    (<[vb_reference b := StakeAggregator_new]> (ss_votes s)) else s).
  assert (Hs1 : (if decide (a ∈ ss_leaders s) then
      assert! bool_decide (ss_votes s !! vb_reference b = None);
      Done (mk_scoring (ss_commit_range s) (ss_leaders s) (<[vb_reference b := StakeAggregator_new]> (ss_votes s)))
    else Done s) = Done s1).
  { unfold s1. case_decide; [|done]. by rewrite bool_decide_eq_true_2 by auto. }
  rewrite Hs1. cbn [mbind run_bind].
  match goal with |- context [(λ _, _) <$> ?l] => assert (H1 : scored s ((λ _, vb_reference b) <$> l) s1) end.
  { unfold s1. case_decide as Hl; [rewrite decide_True by done|rewrite decide_False by naive_solver; by apply scored_refl].
    split; [|done..|].
    - apply map_Forall_insert_2; [|done]. split; [apply agg_ok_new|done].
    - simpl. intros r. rewrite lookup_insert_is_Some. intros [<-|[_ ?]]; [right; by left|by left]. }
  destruct (ss_votes s1 !! a) as [agg|] eqn:Hagg; [|by exists s1].
  destruct (sr_inv _ _ _ H1 _ _ Hagg) as [Hok1 Hva].
  destruct (StakeAggregator_add_spec c Hok agg (vb_author b) Hok1 Hv) as (agg' & -> & Hok' & _). cbn [mbind run_bind].
  eexists. split; [done|]. rewrite <-(app_nil_r (_ <$> _)). eapply scored_trans; [exact H1|]. split; [|done..|].
  - apply map_Forall_insert_2; [done|apply H1].
  - simpl. intros r. rewrite lookup_insert_is_Some. intros [<-|[_ ?]]; left; by eauto.
Qed.

(** A block scores once: it has one ancestor per author, and a round has one leader. *)
Lemma add_links_total b s l : scoring_inv c s → one_per_round (ss_leaders s) → Committee_is_valid_index c (vb_author b) →
  NoDup l → ss_votes s !! vb_reference b = None →
  ∃ s', for_each (ScoringSubdag_add_link c b) s l = Done s' ∧ scored s (counts s b l) s'.
Proof using Hok.
  intros Hinv Hone Hv Hnd Hnone. induction l as [|a l IH] using rev_ind; [exists s; split; [done|]; by apply scored_refl|].
  apply NoDup_app in Hnd as (Hnd & Hdis & _). destruct (IH Hnd) as (s1 & Hrun & H1).
  rewrite for_each_app, Hrun. cbn [mbind run_bind].
  destruct (add_link_total b s1 a) as (s2 & Hrun2 & H2); [apply H1|done| |].
  - rewrite (sr_leaders _ _ _ H1). intros Ha Hr. apply eq_None_not_Some.
    intros [[x Hx]|(a' & _ & [[Hr' Ha'] Hin]%list_elem_of_filter)%list_elem_of_fmap]%(sr_votes _ _ _ H1); [congruence|].
    assert (a' = a) as -> by (apply Hone; congruence). apply (Hdis a Hin). by left.
  - exists s2. cbn [for_each]. rewrite Hrun2. split; [done|]. unfold voted_leaders. rewrite filter_app, fmap_app.
    eapply scored_trans; [exact H1|]. unfold voted_leaders in H2. by rewrite (sr_leaders _ _ _ H1) in H2.
Qed.

Lemma add_blocks_total s bs : scoring_inv c s → one_per_round (ss_leaders s) → Forall (block_wf c) bs →
  NoDup (vb_reference <$> bs) → (∀ b, b ∈ bs → ss_votes s !! vb_reference b = None) →
  ∃ s', for_each (λ s block, for_each (ScoringSubdag_add_link c block) s (vb_ancestors block)) s bs = Done s' ∧
    scored s (vb_reference <$> bs) s'.
Proof using Hok.
  intros Hinv Hone Hwf Hnd Hnone. induction bs as [|b bs IH] using rev_ind; [exists s; split; [done|]; by apply scored_refl|].
  apply Forall_app in Hwf as [Hwf [Hb _]%Forall_cons]. rewrite fmap_app in Hnd. apply NoDup_app in Hnd as (Hnd & Hdis & _).
  destruct IH as (s1 & Hrun & H1); [done|done|intros x Hx; apply Hnone, elem_of_app; by left|].
  rewrite for_each_app, Hrun. cbn [mbind run_bind for_each].
  destruct (add_links_total b s1 (vb_ancestors b)) as (s2 & -> & H2);
    [apply H1|by rewrite (sr_leaders _ _ _ H1)|apply Hb|eapply NoDup_fmap_1, Hb| |].
  - apply eq_None_not_Some. intros [Hs|Hin]%(sr_votes _ _ _ H1).
    + rewrite Hnone in Hs; [by destruct Hs|]. apply elem_of_app. right. by left.
    + apply (Hdis _ Hin). by left.
  - exists s2. split; [done|]. rewrite fmap_app. destruct (scored_trans _ _ _ _ _ H1 H2) as [? ? ? Hvotes].
    split; [done..|]. intros r [?|Hr]%Hvotes; [by left|right]. rewrite elem_of_app in Hr |- *.
    destruct Hr as [?|(a & -> & _)%list_elem_of_fmap]; [by left|right; by left].
Qed.

(** The range of [n] scored commits from index [first] on. *)
Definition period (first n : N) : option CommitRange :=
  if decide (n = 0) then None else Some (CommitRange_new first (first + n - 1)).

Record scoring_ok s (first n : N) (bound : Round) : Prop := {
  sc_inv : scoring_inv c s;
  sc_one : one_per_round (ss_leaders s);
  sc_range : ss_commit_range s = period first n;
  sc_bound r : r ∈ ss_leaders s → br_round r ≤ bound;
}.

Lemma extend_period first n : first + n < u32_max →
  match period first n with
  | None => Done (CommitRange_new (first + n) (first + n))
  | Some r => CommitRange_extend_to r (first + n)
  end = Done (CommitRange_new first (first + n)).
Proof.
  clear. intros Hmax. unfold period. case_decide as Hn; [by replace (first + n) with first by lia|].
  unfold CommitRange_extend_to, CommitRange_new, u32_saturating_add. simpl. rewrite !N.min_l by lia.
  by rewrite bool_decide_eq_true_2 by lia.
Qed.

Lemma add_subdag_total s sd first n bound : scoring_ok s first n bound →
  cr_index (sd_commit_ref sd) = first + n → first + n < u32_max → bound < br_round (sd_leader sd) →
  Forall (block_wf c) (sd_blocks sd) → NoDup (vb_reference <$> sd_blocks sd) →
  (∀ b, b ∈ sd_blocks sd → ss_votes s !! vb_reference b = None) →
  ∃ s', ScoringSubdag_add_subdag c s sd = Done s' ∧ scoring_ok s' first (n + 1) (br_round (sd_leader sd)) ∧
    ∀ r, is_Some (ss_votes s' !! r) → is_Some (ss_votes s !! r) ∨ r ∈ vb_reference <$> sd_blocks sd.
Proof using Hok.
  intros [Hinv Hone Hrange Hbound] Hi Hmax Hb Hwf Hnd Hnone. unfold ScoringSubdag_add_subdag.
  rewrite Hi, Hrange, extend_period by done. cbn [mbind run_bind].
  match goal with |- context [for_each _ ?s0 _] => set (s1 := s0) end.
  assert (Hone1 : one_per_round (ss_leaders s1)).
  { intros r1 r2. simpl. rewrite !elem_of_union, !elem_of_singleton.
    intros [->|H1] [->|H2] Hr; [done|specialize (Hbound _ H2); lia|specialize (Hbound _ H1); lia|by apply Hone]. }
  destruct (add_blocks_total s1 (sd_blocks sd)) as (s' & Hrun & [Hi' Hr' Hl' Hv']); [done..|].
  exists s'. split; [done|]. split; [|done]. split; [done|by rewrite Hl'| |].
  - rewrite Hr'. unfold period. simpl. rewrite decide_False by lia. do 2 f_equal. lia.
  - intros r. rewrite Hl'. simpl. intros [->%elem_of_singleton|Hr]%elem_of_union; [done|]. specialize (Hbound r Hr). lia.
Qed.

Lemma add_subdags_total s sds first n bound : scoring_ok s first n bound →
  (∀ k sd, sds !! k = Some sd → cr_index (sd_commit_ref sd) = first + n + N.of_nat k) →
  first + n + N.of_nat (length sds) ≤ u32_max → StronglySorted N.lt (bound :: (br_round <$> (sd_leader <$> sds))) →
  (∀ sd, sd ∈ sds → Forall (block_wf c) (sd_blocks sd)) → NoDup (committed_refs sds) →
  (∀ r, r ∈ committed_refs sds → ss_votes s !! r = None) →
  ∃ s', ScoringSubdag_add_subdags c s sds = Done s' ∧
    scoring_ok s' first (n + N.of_nat (length sds)) (default bound (br_round <$> (sd_leader <$> last sds))) ∧
    ∀ r, is_Some (ss_votes s' !! r) → is_Some (ss_votes s !! r) ∨ r ∈ committed_refs sds.
Proof using Hok.
  revert s n bound. induction sds as [|sd sds IH]; intros s n bound Hs Hidx Hmax Hsort Hwf Hnd Hnone.
  { exists s. simpl. rewrite N.add_0_r. split; [done|]. split; [done|]. auto. }
  unfold committed_refs in Hnd, Hnone. rewrite bind_cons in Hnd, Hnone. apply NoDup_app in Hnd as (Hnd1 & Hdis & Hnd).
  csimpl in Hsort. apply StronglySorted_inv in Hsort as [Hsort [Hlt _]%Forall_cons]. simpl in Hmax.
  destruct (add_subdag_total s sd first n bound) as (s1 & Hrun & Hs1 & Hv1); [done| |lia|done| |done| |].
  { rewrite (Hidx O sd) by done. lia. }
  { apply Hwf. by left. }
  { intros b Hb. apply Hnone, elem_of_app. left. by apply list_elem_of_fmap_2. }
  destruct (IH s1 (n + 1) (br_round (sd_leader sd)) Hs1) as (s' & Hrun' & Hs' & Hv').
  - intros k x Hk. rewrite (Hidx (S k) x) by done. lia.
  - lia.
  - done.
  - intros x Hx. apply Hwf. by right.
  - done.
  - intros r Hr. apply eq_None_not_Some. intros [Hs0|Hin]%Hv1; [|by apply (Hdis r)].
    rewrite Hnone in Hs0; [by destruct Hs0|]. apply elem_of_app. by right.
  - exists s'. unfold ScoringSubdag_add_subdags. rewrite for_each_cons, Hrun. cbn [mbind run_bind]. split; [done|]. split.
    + replace (n + N.of_nat (length (sd :: sds))) with (n + 1 + N.of_nat (length sds)) by (simpl; lia).
      destruct sds as [|x l]; [done|]. rewrite last_cons_cons.
      destruct (last (x :: l)) eqn:Hl; [done|]. by apply last_None in Hl.
    + unfold committed_refs. rewrite bind_cons. intros r [Hr|Hr]%Hv'; rewrite elem_of_app; [|auto].
      destruct (Hv1 r Hr); auto.
Qed.
End scoring.

(** ** The leader schedule *)

(** The configuration: one leader per round, and no authority holds more than
    the share of the stake that may be swapped. *)
Record config_ok `{Rng} (ctx : Context) : Prop := {
  cf_depth : 2 ≤ pc_gc_depth (ctx_protocol_config ctx);
  cf_one : pc_mysticeti_num_leaders_per_round (ctx_protocol_config ctx) = Some 1;
  cf_threshold : pc_consensus_bad_nodes_stake_threshold (ctx_protocol_config ctx) ≤ 33;
  cf_total : 33 * c_total_stake (ctx_committee ctx) ≤ u64_max;
  cf_balanced a : stake_at (ctx_committee ctx) a ≤
    swap_budget (ctx_committee ctx) (pc_consensus_bad_nodes_stake_threshold (ctx_protocol_config ctx));
  cf_weighted round : is_Some (rng_choose_multiple_weighted (seed_one round)
    ((λ '(index, authority), (index, f32_of_u64 (a_stake authority))) <$> Committee_authorities (ctx_committee ctx))
    (Committee_size (ctx_committee ctx)) snd);
}.

Section schedule.
Context `{RngLaws} (ctx : Context) (Hcm : committee_ok (ctx_committee ctx)) (Hcf : config_ok ctx).
Abbreviation cm := (ctx_committee ctx).

Definition elects_valid (s : LeaderSchedule) : Prop :=
  ∀ round, ∃ leader, elect_leader ctx s round 0 = Done leader ∧ Committee_is_valid_index cm leader.

(** The first schedule swaps nobody. *)
Lemma default_elects n : elects_valid (mk_schedule LeaderSwapTable_default n).
Proof using Hcm Hcf H0.
  intros round. destruct (cf_weighted _ Hcf round) as [chosen Hc].
  destruct (stake_based_spec ctx round chosen Hcm Hc) as (first & Hst & Hv). exists first.
  unfold elect_leader. by rewrite Hst.
Qed.

(** A table built from the scores of all authorities has a good node. *)
Lemma new_table_elects index rs : length (rs_scores_per_authority rs) = Committee_size cm →
  ∃ t, LeaderSwapTable_new ctx index rs = Done t ∧ lt_reputation_scores t = rs ∧ ∀ n, elects_valid (mk_schedule t n).
Proof using Hcm Hcf H0.
  intros Hlen. set (thr := pc_consensus_bad_nodes_stake_threshold (ctx_protocol_config ctx)).
  destruct (new_inner_spec ctx index _ Hlen Hcm (cf_total _ Hcf) thr rs (cf_threshold _ Hcf) eq_refl)
    as (k1 & k2 & Hrun & Hk & Hk1 & Hgood & Hor & Hbad).
  eexists. split; [exact Hrun|]. split; [done|]. intros n round.
  set (t := ranked_table _ _ _ _ _ _). destruct (cf_weighted _ Hcf round) as [chosen Hc].
  destruct (elect_leader_spec ctx thr (rs_scores_per_authority rs) (mk_schedule t n) round chosen Hcm) as
    (first & leader & _ & Hl & Hv & _); [| |done|by exists leader].
  - apply ranked_table_ok; try done. apply Hcf.
  - simpl. intros Hnil. apply (f_equal length) in Hnil. rewrite length_fmap, length_take in Hnil. simpl in Hnil.
    assert (Hr : length (ranking index (rs_scores_per_authority rs)) = Committee_size cm).
    { rewrite (Permutation_length (ranking_perm index (rs_scores_per_authority rs))), length_imap. done. }
    pose proof (ok_nonempty _ Hcm) as Hne. fold (Committee_size cm) in Hne.
    destruct Hor as [->|Hor]; [lia|]. assert (k1 = O) as -> by lia.
    destruct (ranking index (rs_scores_per_authority rs)) as [|[a x] l]; [simpl in Hr; lia|].
    simpl in Hor. rewrite nodes_stake_cons in Hor. unfold nodes_stake in Hor. simpl in Hor.
    pose proof (cf_balanced _ Hcf a). fold thr in H1. lia.
Qed.
End schedule.

(** ** Refreshing the schedule *)

Section refresh.
Context {S : Type} `{StoreLaws S} `{BlockCodec} `{Hlaws : RngLaws} (ctx : Context) (G : BlockRef → option VerifiedBlock).
Context (genesis : list VerifiedBlock) (Hcm : committee_ok (ctx_committee ctx)) (Hcf : config_ok ctx).
Implicit Types (d : DagState S) (c : Core S) (s : LeaderSchedule).
Abbreviation cm := (ctx_committee ctx).
Abbreviation table_range s := (rs_commit_range (lt_reputation_scores (ls_leader_swap_table s))).

(** Only the scores differ. *)
Definition rescored d d' : Prop := same_dag d d' ∧ ds_recent_blocks d' = ds_recent_blocks d ∧
  ds_pending_commit_votes d' = ds_pending_commit_votes d.

(** The current period of the schedule began with commit [first] and has
    scored [n] commits; the table in use was made from the period before. *)
Record period_ok s d (first n : N) : Prop := {
  pd_positive : 0 < ls_num_commits_per_schedule s;
  pd_elects : elects_valid ctx s;
  pd_scores : (length (rs_scores_per_authority (lt_reputation_scores (ls_leader_swap_table s))) ≤ Committee_size cm)%nat;
  pd_first : 1 ≤ first;
  pd_count : last_commit_index d + 1 = first + n;
  pd_room : n ≤ ls_num_commits_per_schedule s;
  pd_scoring : scoring_ok cm (ds_scoring_subdag d) first n (last_commit_round d);
  pd_counted r : is_Some (ss_votes (ds_scoring_subdag d) !! r) → committed d r ∨ br_round r ≤ gc_round ctx d;
  pd_table : table_range s = CommitRange_default ∨
    ls_num_commits_per_schedule s ≤ first ∧ table_range s = mk_range (first - ls_num_commits_per_schedule s) first;
}.

Lemma scores_total (ss : ScoringSubdag) : scoring_inv cm ss →
  ∃ scores, ScoringSubdag_distributed_votes_scores cm ss = Done scores ∧ length scores = Committee_size cm.
Proof.
  clear. intros Hinv. apply (for_each_total (λ scores, length scores = Committee_size cm)); [by rewrite length_replicate|].
  intros scores [v agg] Hin Hlen. apply elem_of_map_list in Hin. destruct (Hinv _ _ Hin) as [_ Hv].
  apply valid_lt in Hv. unfold vec_get. destruct (lookup_lt_is_Some_2 scores (br_author v)) as [x ->]; [by rewrite Hlen|].
  simpl. unfold vec_set. rewrite decide_True by (by rewrite Hlen). eexists. split; [done|]. by rewrite length_insert.
Qed.

Lemma period_count first n (ss : ScoringSubdag) : ss_commit_range ss = period first n → first + n ≤ u32_max →
  ScoringSubdag_scored_subdags_count ss = Done n.
Proof.
  clear. intros Hr Hmax. unfold ScoringSubdag_scored_subdags_count. rewrite Hr. unfold period. case_decide as Hn; [by subst|].
  unfold CommitRange_size, CommitRange_new, checked_sub, u32_saturating_add. simpl.
  rewrite N.min_l by lia. rewrite decide_True by lia. simpl. f_equal. lia.
Qed.

Lemma commits_until_spec s d first n : period_ok s d first n → last_commit_index d < u32_max →
  commits_until_leader_schedule_update s d = Done (ls_num_commits_per_schedule s - n).
Proof.
  clear. intros [_ _ _ H1 Hc Hroom [_ _ Hr _] _ _] Hmax. unfold commits_until_leader_schedule_update, scoring_subdags_count.
  rewrite (period_count first n) by (done || lia). cbn [mbind run_bind]. rewrite bool_decide_eq_true_2 by done.
  unfold checked_sub. by rewrite decide_True.
Qed.

(** The end of a period: the next table is made from its scores. *)
Lemma update_schedule_spec s d first v : dag_ok ctx G genesis d v → period_ok s d first (ls_num_commits_per_schedule s) →
  last_commit_index d < u32_max →
  ∃ s' d', update_leader_schedule_v2 ctx s d = Done (s', d') ∧ rescored d d' ∧ dag_ok ctx G genesis d' v ∧
    period_ok s' d' (first + ls_num_commits_per_schedule s) 0 ∧ ls_num_commits_per_schedule s' = ls_num_commits_per_schedule s.
Proof using Hcm Hcf Hlaws.
  intros Hok [Hpos Hel Hsc H1f Hc Hroom [Hinv Hone Hr Hbound] Hcounted Htable] Hmax.
  set (n := ls_num_commits_per_schedule s) in *. unfold period in Hr. rewrite decide_False in Hr by lia.
  unfold update_leader_schedule_v2, calculate_scoring_subdag_scores, ScoringSubdag_calculate_distributed_vote_scores.
  destruct (scores_total (ds_scoring_subdag d) Hinv) as (scores & -> & Hlen). rewrite Hr. cbn [mbind run_bind expect].
  unfold scoring_subdag_commit_range. rewrite Hr. cbn [mbind run_bind expect]. unfold add_commit_info.
  change (ScoringSubdag_is_empty (ds_scoring_subdag (clear_scoring_subdag d))) with true. cbn [mbind run_bind].
  change (ds_last_commit (clear_scoring_subdag d)) with (ds_last_commit d).
  destruct (ds_last_commit d) as [last|] eqn:Hlc; [|exfalso; unfold last_commit_index in Hc; rewrite Hlc in Hc; lia].
  cbn [expect mbind run_bind].
  set (rs := mk_scores scores (CommitRange_new first (first + n - 1))).
  destruct (new_table_elects ctx Hcm Hcf (CommitRange_end (CommitRange_new first (first + n - 1))) rs Hlen)
    as (table & -> & Hrs & Helects). cbn [mbind run_bind].
  assert (Hswap : update_leader_swap_table s table = Done (mk_schedule table n)).
  { unfold update_leader_swap_table. rewrite Hrs.
    match goal with |- (x ← ?m; _) = _ => assert (m = Done true) as -> end; [|done].
    case_bool_decide as Hd; [|done]. destruct Htable as [?|[Hle ->]]; [done|]. fold n in Hle.
    unfold CommitRange_is_next_range, CommitRange_is_equal_size, CommitRange_size, checked_sub. simpl.
    rewrite bool_decide_eq_true_2 by done. unfold u32_saturating_add. rewrite !decide_True by lia. simpl.
    rewrite bool_decide_eq_true_2; [done|]. lia. }
  rewrite Hswap. cbn [mbind run_bind]. eexists _, _. split; [done|].
  match goal with |- rescored d ?x ∧ _ => assert (Hs : same_dag d x) by done end.
  split; [done|]. split; [by apply (dag_ok_same_blocks ctx G genesis d)|]. split; [|done].
  split; [done|apply Helects|simpl; rewrite Hrs; simpl; lia|lia| |simpl; lia|..].
  - match goal with |- last_commit_index ?x + _ = _ => change (last_commit_index x) with (last_commit_index d) end. lia.
  - split; [|done..|]; simpl.
    + apply map_Forall_empty.
    + set_solver.
  - simpl. intros r. rewrite lookup_empty. by intros [].
  - right. simpl. rewrite Hrs. simpl. split; [lia|]. unfold CommitRange_new, u32_saturating_add. f_equal; lia.
Qed.

(** The schedule of the next period is the one of the ledger. *)
Lemma update_schedule_next s d s' d' : update_leader_schedule_v2 ctx s d = Done (s', d') →
  next_schedule ctx s (ds_scoring_subdag d) = Done s' ∧ ds_scoring_subdag d' = ScoringSubdag_new.
Proof.
  clear. unfold update_leader_schedule_v2, next_schedule, calculate_scoring_subdag_scores, scoring_subdag_commit_range.
  intros (rs & -> & (i & (range & -> & [= <-])%bind_Done & (d1 & Hd1 & (table & Ht & (s1 & Hs & [= <- <-])%bind_Done)%bind_Done)%bind_Done)%bind_Done)%bind_Done.
  cbn [mbind run_bind]. rewrite Ht. cbn [mbind run_bind]. split; [done|]. unfold add_commit_info in Hd1.
  repeat (run_inv; try case_match); done.
Qed.

Definition refreshed c m s d : Core S :=
  set_co_ancestor_state_manager m (set_co_dag_state d (set_co_leader_schedule s c)).

Lemma refresh_schedule_spec c v first n : let d := co_dag_state c in dag_ok ctx G genesis d v →
  period_ok (co_leader_schedule c) d first n → peers_ok ctx c → last_commit_index d < u32_max →
  ∃ m s d' first' n', refresh_schedule ctx c = Done (refreshed c m s d', ls_num_commits_per_schedule s - n') ∧
    rescored d d' ∧ dag_ok ctx G genesis d' v ∧ period_ok s d' first' n' ∧ n' < ls_num_commits_per_schedule s ∧
    peers_ok ctx (refreshed c m s d') ∧
    (s = co_leader_schedule c ∧ d' = d ∨
     ScoringSubdag_scored_subdags_count (ds_scoring_subdag d) = Done (ls_num_commits_per_schedule (co_leader_schedule c)) ∧
     next_schedule ctx (co_leader_schedule c) (ds_scoring_subdag d) = Done s ∧ ds_scoring_subdag d' = ScoringSubdag_new).
Proof using Hcm Hcf Hlaws.
  intros d Hok Hp Hpeers Hmax. unfold refresh_schedule. fold d.
  rewrite (commits_until_spec _ d first n Hp Hmax). cbn [mbind run_bind]. pose proof (pd_room _ _ _ _ Hp) as Hroom.
  case_bool_decide as Hz.
  - assert (n = ls_num_commits_per_schedule (co_leader_schedule c)) as -> by lia.
    destruct (update_schedule_spec _ d first v Hok Hp Hmax) as (s & d' & Hup & Hre & Hok' & Hp' & Hn). pose proof (proj1 Hre) as Hs.
    pose proof (update_schedule_next _ _ _ _ Hup) as Hnext. rewrite Hup.
    assert (Hcount : ScoringSubdag_scored_subdags_count (ds_scoring_subdag d) = Done (ls_num_commits_per_schedule (co_leader_schedule c))).
    { apply (period_count first); [apply (pd_scoring _ _ _ _ Hp)|]. pose proof (pd_count _ _ _ _ Hp). lia. }
    pose proof (pd_positive _ _ _ _ Hp') as Hpos.
    cbn [mbind run_bind]. set (c1 := set_co_ancestor_state_manager _ _).
    change (co_leader_schedule c1) with s. change (co_dag_state c1) with d'.
    rewrite (commits_until_spec s d' _ _ Hp'); [|unfold last_commit_index in *; by rewrite (sm_commit _ _ Hs)].
    cbn [mbind run_bind]. rewrite bool_decide_eq_true_2 by lia. eexists _, s, d', _, 0. split; [done|].
    split_and!; [done..|lia| |by right]. destruct Hpeers as [Ht Hc Hb _]. split; [done|by destruct Hc|done|apply Hp'].
  - cbn [mbind run_bind]. rewrite bool_decide_eq_true_2 by lia.
    exists (co_ancestor_state_manager c), (co_leader_schedule c), d, first, n. split; [by destruct c|].
    split_and!; [done..|lia|by destruct Hpeers|by left].
Qed.
End refresh.

(** ** Handling committed leaders *)

Section observer.
Context {S : Type} `{StoreLaws S} `{BlockCodec} `{CommitCodec} `{Hlaws : RngLaws} (ctx : Context).
Context (G : BlockRef → option VerifiedBlock) (byz : gset AuthorityIndex) (Hhonest : honest_node (S := S) ctx G byz).
Context (genesis : list VerifiedBlock) (fuel : nat).
Context (Hcodec : ∀ c, is_Some (bcs_commit_to_bytes c)).
Context (Hstorable : ∀ c bytes, bcs_commit_to_bytes c = Some bytes → st_commit_ok (TrustedCommit_new_trusted c bytes)).
Implicit Types (d : DagState S) (v : StoreView) (h : CommitFinalizerHandle).
Abbreviation cm := (ctx_committee ctx).
Abbreviation dag_ok := (dag_ok ctx G genesis).
Abbreviation commits_ok := (commits_ok ctx).

Lemma handle_commit_loop d v acc leaders now : dag_ok d v →
  StronglySorted (λ a b, vb_round a < vb_round b) leaders → Forall (next_leader v d) leaders →
  last_commit_index d + N.of_nat (length leaders) ≤ u32_max → (size (ds_recent_blocks d) ≤ fuel)%nat →
  ∃ d' sds, for_each (λ '(d, committed_sub_dags) leader_block,
      '(d, (sub_dag, commit)) ← collect_sub_dag_and_commit ctx fuel d leader_block;
      d ← add_commit ctx d commit now;
      Done (d, committed_sub_dags ++ [sub_dag])) (d, acc) leaders = Done (d', acc ++ sds) ∧
    commits_ok v G d leaders d' sds ∧ dag_ok d' v ∧ ds_scoring_subdag d' = ds_scoring_subdag d ∧
    ds_threshold_clock d' = ds_threshold_clock d ∧
    ∀ sent, tied ctx d sent → follows ctx fuel G sent leaders sds ∧ tied ctx d' (sent ++ sds).
Proof using Hhonest Hcodec Hstorable.
  pose proof (hn_universe _ _ _ Hhonest) as HU.
  revert d acc. induction leaders as [|leader leaders IH]; intros d acc Hok Hs Hf Hmax Hfuel.
  { pose proof (dag_commit_state ctx G genesis d v Hok) as Hst.
    destruct (handle_commit_spec ctx v fuel G byz HU Hcodec d acc [] now Hst Hs Hf Hmax Hfuel) as (d' & sds & Hrun & Hc).
    exists d', sds. split; [done|]. split; [done|]. simpl in Hrun. injection Hrun as <- Hnil.
    apply (f_equal length) in Hnil. rewrite length_app in Hnil. destruct sds; [|simpl in Hnil; lia].
    split_and!; [done..|]. intros sent Ht. rewrite app_nil_r. split; [constructor|done]. }
  apply StronglySorted_inv in Hs as [Hs Hlt]. apply Forall_cons in Hf as [Hnl Hf]. simpl in Hmax.
  destruct (commit_leader_ok ctx G byz Hhonest genesis fuel Hcodec Hstorable d v leader now Hok Hnl)
    as (d1 & sd & commit & d2 & Hrun1 & Hrun2 & Hcs & Hok2 & Hsc & Hclock & Hlast & Hvotes); [lia|done|].
  rewrite for_each_cons, Hrun1. cbn [mbind run_bind]. rewrite Hrun2. cbn [mbind run_bind].
  destruct (IH d2 (acc ++ [sd]) Hok2 Hs) as (d' & sds & Hrest & Hc & Hok' & Hsc' & Hclock' & Hfol).
  - apply Forall_forall. intros x Hx. rewrite Forall_forall in Hlt, Hf.
    eapply next_leader_step; [done|by apply Hlt|by apply Hf].
  - rewrite (cs_last_index _ _ _ _ _ _ _ Hcs). lia.
  - by rewrite (cs_size _ _ _ _ _ _ _ Hcs).
  - exists d', (sd :: sds). rewrite Hrest, <-app_assoc. split; [done|]. split; [by eapply commits_ok_cons|].
    split; [done|]. split; [congruence|]. split; [congruence|]. intros sent Ht.
    pose proof (ni_view _ _ _ _ (dk_node _ _ _ _ _ Hok)) as Hview.
    destruct (commit_tied ctx fuel G v d sent leader d1 sd commit d2 (vo_inv _ _ _ _ Hview) (vo_sub _ _ _ _ Hview) Ht) as [Hsd Ht2]; [|done..| |].
    { pose proof (nl_round _ _ _ Hnl). unfold gc_round, calculate_gc_round, saturating_sub. lia. }
    { intros x. rewrite Hvotes, elem_of_app, list_elem_of_singleton. tauto. }
    destruct (Hfol (sent ++ [sd]) Ht2) as [Hfo Ht']. rewrite <-app_assoc in Ht'. split; [by econstructor|done].
Qed.

Lemma f_run_bind {A B} (x : A) (k : A → fallible B) : (f_run (Done x) ≫= k) = k x.
Proof. done. Qed.
Lemma f_ok_bind {A B} (x : A) (k : A → fallible B) : (f_ok x ≫= k) = k x.
Proof. done. Qed.
Lemma f_bind_ok {A B} (m : fallible A) (k : A → fallible B) y : (m ≫= k) = f_ok y → ∃ x, m = f_ok x ∧ k x = f_ok y.
Proof. destruct m as [[x|e]| |]; cbn; intros Hm; [by exists x|done..]. Qed.

(** The sub-dags sent: all marked as local, the first with the scores of a new
    schedule. *)
Lemma label_commits (schedule : LeaderSchedule) (scoring : ScoringSubdag) sds : sds ≠ [] →
  (if ScoringSubdag_is_empty scoring then
     f_run (first ← vec_get (set_local true <$> sds) 0;
            vec_set (set_local true <$> sds) 0
              (set_reputation_scores_desc (lt_reputation_scores_desc (ls_leader_swap_table schedule)) first))
   else f_ok (set_local true <$> sds)) = f_ok (label_all schedule scoring sds) ∧ Forall2 relabelled sds (label_all schedule scoring sds).
Proof.
  clear. intros Hne. destruct sds as [|sd sds]; [done|]. split; [|apply label_relabelled].
  unfold label_all, labelled. by destruct (ScoringSubdag_is_empty scoring).
Qed.

Lemma send_commits_open h sds : cfh_closed h = false →
  send_commits h sds = f_ok (mk_handle (cfh_sent h ++ sds) false).
Proof.
  clear. revert h. induction sds as [|sd sds IH]; intros h Hc; simpl.
  - rewrite app_nil_r. destruct h. simpl in Hc. by rewrite Hc.
  - unfold CommitFinalizerHandle_send. rewrite Hc. simpl. rewrite IH by done. simpl. by rewrite <-app_assoc.
Qed.
Lemma send_commits_closed h sds : cfh_closed h = true → sds ≠ [] → send_commits h sds = f_err Shutdown.
Proof. clear. intros Hc Hne. destruct sds; [done|]. simpl. unfold CommitFinalizerHandle_send. by rewrite Hc. Qed.

Lemma leaders_sorted d v leaders : StronglySorted (λ a b, vb_round a < vb_round b) leaders → Forall (next_leader v d) leaders →
  StronglySorted N.lt (last_commit_round d :: (vb_round <$> leaders)).
Proof.
  clear. intros Hsort Hnl. constructor.
  - clear -Hsort. induction Hsort as [|x l _ IH Hf]; csimpl; constructor; [done|]. by apply Forall_fmap.
  - apply Forall_fmap. eapply Forall_impl; [exact Hnl|]. intros x Hx. apply Hx.
Qed.

(** The scoring of the commits continues the period. *)
Lemma score_commits s d v leaders d' sds sds' first n : dag_ok d v → dag_ok d' v → period_ok ctx s d first n →
  commits_ok v G d leaders d' sds → Forall2 relabelled sds sds' → ds_scoring_subdag d' = ds_scoring_subdag d →
  StronglySorted (λ a b, vb_round a < vb_round b) leaders → Forall (next_leader v d) leaders →
  last_commit_index d' < u32_max → n + N.of_nat (length leaders) ≤ ls_num_commits_per_schedule s →
  ∃ d'', add_scoring_subdags ctx d' sds' = Done d'' ∧ rescored d' d'' ∧ dag_ok d'' v ∧
    period_ok ctx s d'' first (n + N.of_nat (length leaders)).
Proof using Hhonest.
  clear Hcodec Hstorable. intros Hok Hok' Hp Hc Hre Hsc Hsort Hnl Hmax Hroom.
  pose proof (hn_universe _ _ _ Hhonest) as HU. pose proof (dk_node _ _ _ _ _ Hok) as Hni.
  destruct Hp as [Hpos Hel Hscores Hfirst Hcount _ Hscoring Hcounted Htable].
  pose proof (cok_leaders _ _ _ _ _ _ _ Hc) as Hleaders.
  assert (Hlen : length sds = length leaders) by (apply (f_equal length) in Hleaders; by rewrite !length_fmap in Hleaders).
  assert (Hlast : last_commit_index d' = last_commit_index d + N.of_nat (length leaders)) by apply Hc.
  assert (Hlen' : length sds' = length leaders) by (by rewrite <-(Forall2_length _ _ _ Hre)).
  assert (Hnew : ∀ r, r ∈ committed_refs sds → ss_votes (ds_scoring_subdag d) !! r = None).
  { intros r Hr. apply eq_None_not_Some. intros [Hcr|Hg]%Hcounted.
    - apply (cok_new _ _ _ _ _ _ _ Hc r Hr). by apply (committed_api ctx).
    - apply list_elem_of_bind in Hr as (sd & (b & -> & Hb)%list_elem_of_fmap & Hsd).
      destruct (cok_blocks _ _ _ _ _ _ _ Hc sd b Hsd Hb) as [_ Hgb]. simpl in Hg. lia. }
  unfold add_scoring_subdags. rewrite Hsc.
  destruct (add_subdags_total cm (u_committee _ _ _ HU) (ds_scoring_subdag d) sds' first n (last_commit_round d) Hscoring)
    as (ss & -> & Hss & Hv).
  - intros k sd' Hk. destruct (Forall2_lookup_r _ _ _ _ _ Hre Hk) as (sd & Hsd & (_ & _ & -> & _)).
    rewrite (cok_indices _ _ _ _ _ _ _ Hc k sd Hsd). lia.
  - lia.
  - rewrite (relabelled_leaders _ _ Hre), Hleaders, <-list_fmap_compose. by apply (leaders_sorted d v).
  - intros sd' (k & Hk)%list_elem_of_lookup. destruct (Forall2_lookup_r _ _ _ _ _ Hre Hk) as (sd & Hsd & (_ & -> & _)).
    apply list_elem_of_lookup_2 in Hsd. apply Forall_forall. intros b Hb.
    destruct (cok_blocks _ _ _ _ _ _ _ Hc sd b Hsd Hb) as [Hl _].
    apply (u_wf _ _ _ HU (vb_reference b)). by apply (vo_sub _ _ _ _ (ni_view _ _ _ _ Hni)).
  - rewrite (relabelled_refs _ _ Hre). apply Hc.
  - intros r. rewrite (relabelled_refs _ _ Hre). apply Hnew.
  - cbn [mbind run_bind]. rewrite Hlen' in Hss. eexists. split; [done|].
    match goal with |- rescored d' ?x ∧ _ => assert (Hs : same_dag d' x) by done end.
    split; [done|]. split; [by apply (dag_ok_same_blocks ctx G genesis d')|].
    split; [done|done|done|done| |done| | |done].
    + change (last_commit_index d' + 1 = first + (n + N.of_nat (length leaders))). lia.
    + match goal with |- scoring_ok _ _ _ _ ?x => change x with (last_commit_round d') end.
      assert (default (last_commit_round d) (br_round <$> (sd_leader <$> last sds')) = last_commit_round d') as <-; [|done].
      rewrite (cok_last_round _ _ _ _ _ _ _ Hc). rewrite <-!fmap_last, (relabelled_leaders _ _ Hre), Hleaders, <-list_fmap_compose.
      reflexivity.
    + simpl. intros r [Hr|Hr]%Hv.
      * destruct (Hcounted r Hr) as [?|Hg]; [left|right].
        -- apply (committed_api ctx d' v). apply (cok_committed _ _ _ _ _ _ _ Hc). left. by apply (committed_api ctx).
        -- pose proof (cok_gc _ _ _ _ _ _ _ Hc). change (br_round r ≤ gc_round ctx d'). lia.
      * left. apply (committed_api ctx d' v). apply (cok_committed _ _ _ _ _ _ _ Hc). right. by rewrite (relabelled_refs _ _ Hre) in Hr.
Qed.

(** The sub-dags of a sequence of leaders, as the finalizer gets them. *)
Record observed s v d leaders d' (sds : list CommittedSubDag) : Prop := {
  ob_commits : ∃ d1 sds0, commits_ok v G d leaders d1 sds0 ∧ Forall2 relabelled sds0 sds ∧ rescored d1 d';
  ob_dag : dag_ok d' v;
  ob_clock : ds_threshold_clock d' = ds_threshold_clock d;
  ob_ledger sent : tied ctx d sent → ∃ sds0, follows ctx fuel G sent leaders sds0 ∧
    sds = label_all s (ds_scoring_subdag d) sds0 ∧ tied ctx d' (sent ++ sds);
  ob_scored : ScoringSubdag_add_subdags cm (ds_scoring_subdag d) sds = Done (ds_scoring_subdag d');
}.

Lemma tied_rescored d d' sent : tied ctx d sent → rescored d d' → tied ctx d' sent.
Proof.
  clear. intros Ht (Hs & Hrec & Hv). assert (Hc : ∀ r, committed d' r ↔ committed d r) by (intros r; unfold committed; by rewrite Hrec).
  apply (tied_frame ctx d); [done|apply Hs|intros r Hr; left; by apply Hc|intros r Hr; by apply Hc|by rewrite Hv].
Qed.

Lemma observer_spec s h d v leaders now first n : dag_ok d v → period_ok ctx s d first n →
  StronglySorted (λ a b, vb_round a < vb_round b) leaders → Forall (next_leader v d) leaders → leaders ≠ [] →
  last_commit_index d + N.of_nat (length leaders) < u32_max → n + N.of_nat (length leaders) ≤ ls_num_commits_per_schedule s →
  (size (ds_recent_blocks d) ≤ fuel)%nat →
  if cfh_closed h then CommitObserver_handle_commit ctx fuel s h d leaders true now = f_err Shutdown
  else ∃ d' sds, CommitObserver_handle_commit ctx fuel s h d leaders true now =
      f_ok (mk_handle (cfh_sent h ++ sds) false, d', sds) ∧
    observed s v d leaders d' sds ∧ period_ok ctx s d' first (n + N.of_nat (length leaders)).
Proof using Hhonest Hcodec Hstorable.
  intros Hok Hp Hsort Hnl Hne Hmax Hroom Hfuel. unfold CommitObserver_handle_commit, handle_commit.
  destruct (handle_commit_loop d v [] leaders now Hok Hsort Hnl) as (d1 & sds0 & -> & Hc & Hok1 & Hsc & Hclock & Hfol); [lia|done|].
  assert (Hne0 : sds0 ≠ []).
  { intros ->. pose proof (cok_leaders _ _ _ _ _ _ _ Hc) as Hl. by destruct leaders. }
  rewrite f_run_bind.
  destruct (label_commits s (ds_scoring_subdag d1) sds0 Hne0) as [Hlab Hre]. unfold leader_schedule_updated, is_scoring_subdag_empty.
  change ([] ++ sds0) with sds0. rewrite Hlab, f_ok_bind. rewrite Hsc in Hlab, Hre |- *. set (sds := label_all s (ds_scoring_subdag d) sds0) in *.
  assert (Hne' : sds ≠ []) by (intros Heq; rewrite Heq in Hre; by apply Forall2_nil_inv_r in Hre).
  assert (Hlast : last_commit_index d1 = last_commit_index d + N.of_nat (length leaders)) by apply Hc.
  destruct (score_commits s d v leaders d1 sds0 sds first n Hok Hok1 Hp Hc Hre Hsc Hsort Hnl) as (d2 & Hscore & Hs & Hok2 & Hp2);
    [lia|done|].
  destruct (cfh_closed h) eqn:Hh.
  - by rewrite send_commits_closed.
  - rewrite send_commits_open, f_ok_bind, Hscore, f_run_bind by done.
    exists d2, sds. split; [done|]. split; [|done]. split; [by exists d1, sds0|done|by rewrite (sm_clock _ _ (proj1 Hs))| |].
    + intros sent Ht. destruct (Hfol sent Ht) as [Hf Ht1]. exists sds0. split; [done|]. split; [done|].
      apply (tied_rescored d1); [|done]. eapply tied_relabelled; [|exact Ht1]. apply Forall2_app; [|done].
      clear. induction sent; constructor; done.
    + unfold add_scoring_subdags in Hscore. apply bind_Done in Hscore as (ss & Hss & [= <-]). by rewrite <-Hsc.
Qed.
End observer.

(** ** Deciding the next leaders *)

(** The blocks of the universe are finitely many, and verified blocks refer
    to the genesis blocks of the epoch. *)
Record universe_fits (G : BlockRef → option VerifiedBlock) (genesis : list VerifiedBlock) (U : gset BlockRef) (fuel : nat)
    : Prop := {
  uf_all r b : G r = Some b → r ∈ U;
  uf_fuel : (size U < fuel)%nat;
  uf_rounds r b : G r = Some b → br_round r + 1 < u32_max;
  uf_genesis r b a : G r = Some b → a ∈ vb_ancestors b → br_round a = GENESIS_ROUND → a ∈ vb_reference <$> genesis;
}.

Section deciding.
Context {S : Type} `{StoreLaws S} `{BlockCodec} `{Hlaws : RngLaws} (ctx : Context).
Context (G : BlockRef → option VerifiedBlock) (byz : gset AuthorityIndex) (Hhonest : honest_node (S := S) ctx G byz).
Context (genesis : list VerifiedBlock) (Hgenesis : genesis_blocks ctx = Done genesis) (Hcf : config_ok ctx).
Context (U : gset BlockRef) (fuel : nat) (Hfits : universe_fits G genesis U fuel).
Implicit Types (d : DagState S) (v : StoreView).
Abbreviation cm := (ctx_committee ctx).
Abbreviation dag_ok := (dag_ok ctx G genesis).

Lemma known_refs_fit d v : view_ok ctx G d v → (size (known_refs d v) ≤ fuel)%nat.
Proof using Hfits.
  clear Hhonest Hgenesis Hcf Hlaws. intros Hview. pose proof (vo_inv _ _ _ _ Hview) as Hinv.
  transitivity (size U); [|pose proof (uf_fuel _ _ _ _ Hfits); lia]. apply subseteq_size. intros r Hr.
  assert (is_Some (dag_lookup d v r)) as [b Hb]; [|by apply (uf_all _ _ _ _ Hfits r b), (vo_sub _ _ _ _ Hview)].
  unfold known_refs in Hr. rewrite !elem_of_union, !elem_of_dom in Hr. unfold dag_lookup.
  destruct Hr as [[[b Hb]|[info Hi]]|[b Hb]].
  - rewrite bool_decide_eq_true_2 by (by eapply (di_genesis _ _ _ Hinv)). eauto.
  - destruct (di_recent _ _ _ Hinv r info Hi) as (_ & Hr & _). rewrite bool_decide_eq_false_2 by (unfold GENESIS_ROUND; lia).
    rewrite Hi. eauto.
  - destruct (di_store _ _ _ Hinv r b Hb) as (Hr & _). rewrite bool_decide_eq_false_2 by (unfold GENESIS_ROUND; lia).
    destruct (ds_recent_blocks d !! r); eauto.
Qed.

Lemma recent_fit d v : view_ok ctx G d v → (size (ds_recent_blocks d) ≤ fuel)%nat.
Proof using Hfits.
  clear Hhonest Hgenesis Hcf Hlaws. intros Hview. transitivity (size (known_refs d v)); [|by apply known_refs_fit].
  rewrite <-(size_dom (D := gset BlockRef)). apply subseteq_size. unfold known_refs. set_solver.
Qed.

(** A block above the last commit can be committed. *)
Lemma next_leader_above d v b : dag_ok d v → dag_lookup d v (vb_reference b) = Some b → last_commit_round d < vb_round b →
  next_leader v d b.
Proof using Hhonest Hgenesis Hcf Hfits.
  intros Hok Hb Hr. pose proof (ni_view _ _ _ _ (dk_node _ _ _ _ _ Hok)) as Hview. split; [done..|].
  intros a Ha Har. destruct (decide (gc_round ctx d < br_round a)) as [Hgc|Hgc]; [by eapply (vo_closed _ _ _ _ Hview)|].
  assert (br_round a = GENESIS_ROUND) as Ha0.
  { pose proof (cf_depth _ Hcf). unfold gc_round, calculate_gc_round, saturating_sub in Hgc. unfold GENESIS_ROUND. lia. }
  pose proof (uf_genesis _ _ _ _ Hfits _ _ _ (vo_sub _ _ _ _ Hview _ _ Hb) Ha Ha0) as Hg.
  rewrite <-(genesis_map_keys ctx genesis Hgenesis) in Hg. apply list_elem_of_fmap in Hg as ([r g] & -> & Hg%elem_of_map_list).
  unfold dag_lookup. rewrite bool_decide_eq_true_2 by done. rewrite (dk_genesis _ _ _ _ _ Hok). eauto.
Qed.

(** The decided leaders, in the order of their rounds. *)
Record decided_ok s d v (last_decided : Slot) (dl : list DecidedLeader) : Prop := {
  dl_round k x : dl !! k = Some x → s_round (DecidedLeader_slot x) = s_round last_decided + 1 + N.of_nat k;
  dl_known x b direct : x ∈ dl → x = DCommit b direct → dag_lookup d v (vb_reference b) = Some b;
  dl_max x : x ∈ dl → s_round (DecidedLeader_slot x) < u32_max;
  dl_final k x : dl !! k = Some x → final (S := S) ctx G s (s_round last_decided + 1 + N.of_nat k) (decided_status x);
}.

Lemma decided_take s d v last_decided dl k : decided_ok s d v last_decided dl → decided_ok s d v last_decided (take k dl).
Proof.
  clear. intros [Hr Hk Hm Hf]. split.
  - intros j x Hj. apply lookup_take_Some in Hj as [Hj _]. by apply Hr.
  - intros x b direct (j & Hj & _)%elem_of_take. by apply Hk, (list_elem_of_lookup_2 _ j).
  - intros x (j & Hj & _)%elem_of_take. by apply Hm, (list_elem_of_lookup_2 _ j).
  - intros j x Hj. apply lookup_take_Some in Hj as [Hj _]. by apply Hf.
Qed.

(** The statuses of a run are evidence for each of its decisions. *)
Lemma run_final s d v last_decided (statuses : list LeaderStatus) dl k x : let hi := highest_accepted_round d - 2 in
  elects ctx s → view_ok ctx G d v → hi ≤ u32_max → decisions_ok ctx G d v statuses →
  LeaderStatus_slot <$> statuses = rounds_asc (s_round last_decided + 1) hi ≫= (λ r, slots_at ctx s r pipelined_committers) →
  decided_status <$> dl = take_while LeaderStatus_is_decided statuses → dl !! k = Some x →
  final (S := S) ctx G s (s_round last_decided + 1 + N.of_nat k) (decided_status x).
Proof.
  clear. intros hi Hel Hview Hmax Hds Hslots Hres Hk. split; [by destruct x|].
  assert (Hm : ∀ r, r ∈ rounds_asc (s_round last_decided + 1) hi → r ≤ u32_max) by (intros r ?%rounds_asc_elem; lia).
  pose proof (pipelined_rounds ctx s _ statuses Hel Hm Hslots) as Hrs.
  destruct (run_position statuses dl _ _ k x Hrs Hres Hk) as [Hst _].
  assert (Hctx : own_context ctx (ctx_own_index ctx) = ctx) by (by destruct ctx).
  exists (ctx_own_index ctx), d, v, (drop (Datatypes.S k) statuses). rewrite Hctx, <-(drop_S _ _ _ Hst). split; [done|].
  split; [by apply decisions_drop|]. intros j st Hj. rewrite lookup_drop in Hj.
  assert (Hround : LeaderStatus_round st = s_round last_decided + 1 + N.of_nat k + N.of_nat j).
  { assert (Hlk : (LeaderStatus_round <$> statuses) !! (k + j)%nat = Some (LeaderStatus_round st)) by (by rewrite list_lookup_fmap, Hj).
    rewrite Hrs in Hlk. unfold rounds_asc in Hlk. apply list_lookup_fmap_Some in Hlk as (? & -> & [-> _]%lookup_seq). lia. }
  rewrite <-Hround. by eapply status_slot.
Qed.

Lemma decide_spec s d v last_decided : dag_ok d v → elects_valid ctx s →
  last_commit_round d ≤ s_round last_decided → s_round last_decided < u32_max →
  ∃ dl, try_decide ctx fuel s pipelined_committers d last_decided = Done dl ∧ decided_ok s d v last_decided dl.
Proof using Hhonest Hcf Hfits.
  clear Hgenesis. intros Hok Hel Hl Hmax. pose proof (dk_node _ _ _ _ _ Hok) as [Hview _ _ Hhigh].
  assert (Hel' : elects ctx s) by (intros round; destruct (Hel round) as (leader & ? & _); eauto).
  destruct (try_decide_spec ctx G byz (hn_universe _ _ _ Hhonest) s pipelined_committers fuel d v last_decided)
    as (statuses & dl & Hrun & Hslots & Hds & Hres).
  { split; try done. by apply known_refs_fit. }
  { apply pipelined_ok; [done|apply Hcf]. }
  exists dl. split; [done|].
  assert (Hrs : LeaderStatus_round <$> statuses = rounds_asc (s_round last_decided + 1) (highest_accepted_round d - 2)).
  { eapply pipelined_rounds; [done| |done]. intros r ?%rounds_asc_elem. lia. }
  split.
  - intros k x Hk. by destruct (run_position statuses dl _ _ k x Hrs Hres Hk).
  - intros x b direct (k & Hk)%list_elem_of_lookup ->.
    destruct (run_position statuses dl _ _ k _ Hrs Hres Hk) as [Hst _].
    eapply decisions_lookup; [exact Hds|]. by apply (list_elem_of_lookup_2 _ k).
  - intros x (k & Hk)%list_elem_of_lookup. destruct (run_position statuses dl _ _ k x Hrs Hres Hk) as [Hst Hr].
    assert (Hin : LeaderStatus_round (decided_status x) ∈ rounds_asc (s_round last_decided + 1) (highest_accepted_round d - 2)).
    { rewrite <-Hrs. apply list_elem_of_fmap_2. by apply (list_elem_of_lookup_2 _ k). }
    apply rounds_asc_elem in Hin. destruct x; simpl in *; lia.
  - intros k x Hk. eapply run_final; [done|exact Hview|lia|done..].
Qed.

Lemma StronglySorted_omap {A B} (R : A → A → Prop) (R' : B → B → Prop) (f : A → option B) l :
  StronglySorted R l → (∀ x y, R x y → ∀ a b, f x = Some a → f y = Some b → R' a b) → StronglySorted R' (omap f l).
Proof.
  clear. intros Hs HR. induction Hs as [|x l _ IH Hf]; csimpl; [constructor|]. destruct (f x) as [a|] eqn:Hx; [|done].
  constructor; [done|]. rewrite Forall_forall in Hf. apply Forall_forall. intros b (y & Hy & Hb)%list_elem_of_omap. eauto.
Qed.

(** The leaders to commit. *)
Lemma decided_leaders s d v last_decided dl : let leaders := omap DecidedLeader_into_committed_block dl in
  dag_ok d v → decided_ok s d v last_decided dl → last_commit_round d ≤ s_round last_decided →
  StronglySorted (λ a b, vb_round a < vb_round b) leaders ∧ Forall (next_leader v d) leaders ∧
  (length leaders ≤ length dl)%nat ∧
  ∀ x, last dl = Some x → s_round last_decided < s_round (DecidedLeader_slot x) ∧
    Forall (λ b, vb_round b ≤ s_round (DecidedLeader_slot x)) leaders.
Proof using Hhonest Hgenesis Hcf Hfits.
  intros leaders Hok [Hr Hk Hm _] Hl.
  assert (Hin : ∀ b, b ∈ leaders → ∃ k direct, dl !! k = Some (DCommit b direct)).
  { intros b (x & (k & Hx)%list_elem_of_lookup & Hb)%list_elem_of_omap. destruct x as [b' direct|]; [|done].
    injection Hb as <-. eauto. }
  split_and!.
  - apply (StronglySorted_omap (λ x y, s_round (DecidedLeader_slot x) < s_round (DecidedLeader_slot y))).
    + apply StronglySorted_index. intros i j x y Hlt Hi Hj. rewrite (Hr i x Hi), (Hr j y Hj). lia.
    + intros [b1 ?|] [b2 ?|] Hlt a b [= <-] [= <-]. exact Hlt.
  - apply Forall_forall. intros b (k & direct & Hb)%Hin. apply next_leader_above; [done| |].
    + eapply Hk; [by eapply list_elem_of_lookup_2|done].
    + specialize (Hr k _ Hb). simpl in Hr. lia.
  - unfold leaders. clear. induction dl as [|[] dl IH]; csimpl; lia.
  - intros x Hx. rewrite last_lookup in Hx. split; [rewrite (Hr _ x Hx); lia|].
    apply Forall_forall. intros b (k & direct & Hb)%Hin. pose proof (lookup_lt_Some _ _ _ Hb) as Hlt.
    pose proof (Hr k _ Hb) as Hrb. pose proof (Hr _ x Hx) as Hrx. simpl in Hrb, Hrx |- *. lia.
Qed.
End deciding.

(** ** A batch of decisions as steps of the ledger *)

Section batch.
Context {S : Type} `{StoreLaws S} `{CommitCodec} `{Rng} (ctx : Context) (fuel : nat) (G : BlockRef → option VerifiedBlock).
Context (s : LeaderSchedule) (first : CommitIndex).
Abbreviation cm := (ctx_committee ctx).
Abbreviation steps := (rtc (ledger_step (S := S) ctx fuel G)).

Lemma add_link_range block scoring r scoring' : ScoringSubdag_add_link cm block scoring r = Done scoring' →
  ss_commit_range scoring' = ss_commit_range scoring.
Proof. clear. unfold ScoringSubdag_add_link. intros Hrun. repeat (run_inv; try case_match); done. Qed.

Lemma add_range scoring sd scoring' n : ss_commit_range scoring = period first n →
  cr_index (sd_commit_ref sd) = first + n → first + n < u32_max → ScoringSubdag_add_subdag cm scoring sd = Done scoring' →
  ss_commit_range scoring' = period first (n + 1).
Proof.
  clear. intros Hr Hi Hmax. unfold ScoringSubdag_add_subdag. rewrite Hr, Hi, extend_period by done. cbn [mbind run_bind]. intros Hrun.
  assert (Heq : ss_commit_range scoring' = Some (CommitRange_new first (first + n))).
  { eapply (for_each_ind (λ _ x, ss_commit_range x = Some (CommitRange_new first (first + n)))) in Hrun; [done|done|].
    intros _ b _ s1 s2 _ Hs1 Hb. eapply (for_each_ind (λ _ x, ss_commit_range x = Some (CommitRange_new first (first + n)))) in Hb; [done|done|].
    intros _ r _ s3 s4 _ Hs3 Hl. by rewrite (add_link_range _ _ _ _ Hl). }
  rewrite Heq. unfold period. rewrite decide_False by lia. do 2 f_equal. lia.
Qed.

Lemma label_nonempty scoring sds r : ss_commit_range scoring = Some r → label_all s scoring sds = set_local true <$> sds.
Proof.
  clear. intros Hr. destruct sds as [|sd sds]; [done|]. cbn. unfold labelled, ScoringSubdag_is_empty. rewrite Hr.
  rewrite (bool_decide_eq_false_2 (Some r = None)) by done. by rewrite andb_false_r.
Qed.

Lemma batch_steps dl : ∀ n R sent scoring sds scoring',
  (∀ k x, dl !! k = Some x → final (S := S) ctx G s (R + 1 + N.of_nat k) (decided_status x)) →
  follows ctx fuel G sent (omap DecidedLeader_into_committed_block dl) sds →
  (∀ k sd, sds !! k = Some sd → cr_index (sd_commit_ref sd) = first + n + N.of_nat k) →
  ScoringSubdag_add_subdags cm scoring (label_all s scoring sds) = Done scoring' → ss_commit_range scoring = period first n →
  n + N.of_nat (length dl) ≤ ls_num_commits_per_schedule s → first + n + N.of_nat (length dl) ≤ u32_max →
  steps (mk_ledger R sent s scoring) (mk_ledger (R + N.of_nat (length dl)) (sent ++ label_all s scoring sds) s scoring').
Proof.
  induction dl as [|x dl IH]; intros n R sent scoring sds scoring' Hfin Hfo Hidx Hadd Hr Hroom Hmax.
  { inversion Hfo; subst. injection Hadd as <-. cbn [length label_all]. rewrite app_nil_r, N.add_0_r. done. }
  pose proof (Hfin O x eq_refl) as Hx. rewrite N.add_0_r in Hx. cbn [length] in Hroom, Hmax.
  assert (Hscored : ∀ R' sent', has_scored (mk_ledger R' sent' s scoring) n) by (intros R' sent'; apply (period_count first); [done|lia]).
  assert (Hfin' : ∀ k y, dl !! k = Some y → final (S := S) ctx G s (R + 1 + 1 + N.of_nat k) (decided_status y)).
  { intros k y Hk. specialize (Hfin (Datatypes.S k) y Hk). by replace (R + 1 + 1 + N.of_nat k) with (R + 1 + N.of_nat (Datatypes.S k)) by lia. }
  replace (R + N.of_nat (length (x :: dl))) with (R + 1 + N.of_nat (length dl)) by (cbn [length]; lia).
  destruct x as [b direct|slot]; cbn [decided_status omap list_omap DecidedLeader_into_committed_block] in *.
  - inversion Hfo as [|? ? ? sd sds1 Hsd Hfo1]; subst. cbn [label_all] in Hadd |- *. unfold ScoringSubdag_add_subdags in Hadd.
    rewrite for_each_cons in Hadd. apply bind_Done in Hadd as (scoring1 & Hadd1 & Hadd).
    assert (Hi : cr_index (sd_commit_ref (labelled s scoring sd)) = first + n).
    { destruct (labelled_relabelled s scoring sd) as (_ & _ & -> & _). rewrite (Hidx O sd) by done. lia. }
    pose proof (add_range scoring (labelled s scoring sd) scoring1 n Hr Hi ltac:(lia) Hadd1) as Hr1.
    assert (Hlab : label_all s scoring1 sds1 = set_local true <$> sds1).
    { unfold period in Hr1. rewrite decide_False in Hr1 by lia. by eapply label_nonempty. }
    eapply rtc_l; [apply (ls_commit ctx fuel G (mk_ledger R sent s scoring) n b sd scoring1); try done; cbn; lia|]. cbn.
    rewrite <-Hlab. replace (sent ++ labelled s scoring sd :: label_all s scoring1 sds1)
      with ((sent ++ [labelled s scoring sd]) ++ label_all s scoring1 sds1) by (by rewrite <-app_assoc).
    apply (IH (n + 1)); try done; [| |by rewrite Hlab|lia|lia].
    + eapply follows_relabelled; [|exact Hfo1]. apply Forall2_app; [clear; induction sent; constructor; done|].
      constructor; [apply labelled_relabelled|constructor].
    + intros k sd' Hk. rewrite (Hidx (Datatypes.S k) sd' Hk). lia.
  - eapply rtc_l; [apply (ls_skip ctx fuel G (mk_ledger R sent s scoring) n slot); try done; cbn; lia|]. cbn.
    apply (IH n); try done; lia.
Qed.
End batch.

(** ** The loop of [try_commit] *)

Section looping.
Context {S : Type} `{StoreLaws S} `{BlockCodec} `{CommitCodec} `{Hlaws : RngLaws} (ctx : Context) (clk : CoreClock).
Context (G : BlockRef → option VerifiedBlock) (byz : gset AuthorityIndex) (Hhonest : honest_node (S := S) ctx G byz).
Context (genesis : list VerifiedBlock) (Hgenesis : genesis_blocks ctx = Done genesis) (Hcf : config_ok ctx).
Context (U : gset BlockRef) (fuel : nat) (Hfits : universe_fits G genesis U fuel).
Context (Hcodec : ∀ c, is_Some (bcs_commit_to_bytes c)).
Context (Hstorable : ∀ c bytes, bcs_commit_to_bytes c = Some bytes → st_commit_ok (TrustedCommit_new_trusted c bytes)).
Implicit Types (d : DagState S) (v : StoreView) (c : Core S).
Abbreviation cm := (ctx_committee ctx).
Abbreviation dag_ok := (dag_ok ctx G genesis).
Abbreviation decided_ok := (decided_ok ctx G).
Abbreviation steps := (rtc (ledger_step (S := S) ctx fuel G)).

(** Where a core is in the ledger. *)
Definition ledger_of c : Ledger :=
  mk_ledger (s_round (co_last_decided_leader c)) (cfh_sent (co_commit_finalizer_handle c)) (co_leader_schedule c)
    (ds_scoring_subdag (co_dag_state c)).

(** A core that may commit. *)
Record committing c v : Prop := {
  cg_dag : dag_ok (co_dag_state c) v;
  cg_manager : bm_inv ctx G v (co_block_manager c) (co_dag_state c);
  cg_period : ∃ first n, period_ok ctx (co_leader_schedule c) (co_dag_state c) first n;
  cg_peers : peers_ok ctx c;
  cg_committer : co_committer c = pipelined_committers;
  cg_decided : last_commit_round (co_dag_state c) ≤ s_round (co_last_decided_leader c);
  cg_max : s_round (co_last_decided_leader c) < u32_max;
  cg_index : last_commit_index (co_dag_state c) ≤ last_commit_round (co_dag_state c);
}.

(** What commits may change. *)
Definition recommitted c m s d bm l h : Core S :=
  set_co_ancestor_state_manager m (set_co_leader_schedule s (set_co_dag_state d (set_co_block_manager bm
    (set_co_last_decided_leader l (set_co_commit_finalizer_handle h c))))).

(** From [c] to [c'] exactly the sub-dags [sds] were committed. *)
Record advanced v c (sds : list CommittedSubDag) c' : Prop := {
  ad_frame : ∃ m s d bm l h, c' = recommitted c m s d bm l h;
  ad_sent : cfh_sent (co_commit_finalizer_handle c') = cfh_sent (co_commit_finalizer_handle c) ++ sds;
  ad_closed : cfh_closed (co_commit_finalizer_handle c') = cfh_closed (co_commit_finalizer_handle c);
  ad_indices k sd : sds !! k = Some sd →
    cr_index (sd_commit_ref sd) = last_commit_index (co_dag_state c) + 1 + N.of_nat k;
  ad_last : last_commit_index (co_dag_state c') = last_commit_index (co_dag_state c) + N.of_nat (length sds);
  ad_rounds : StronglySorted N.lt (last_commit_round (co_dag_state c) :: (br_round <$> (sd_leader <$> sds)));
  ad_round : last_commit_round (co_dag_state c') =
    default (last_commit_round (co_dag_state c)) (last (br_round <$> (sd_leader <$> sds)));
  ad_nodup : NoDup (committed_refs sds);
  ad_new r : r ∈ committed_refs sds → ¬ committed (co_dag_state c) r;
  ad_committed r : committed (co_dag_state c') r ↔ committed (co_dag_state c) r ∨ r ∈ committed_refs sds;
  ad_gc : gc_round ctx (co_dag_state c) ≤ gc_round ctx (co_dag_state c');
  ad_above r : r ∈ committed_refs sds → gc_round ctx (co_dag_state c) < br_round r;
  ad_known r : known v (co_dag_state c) r → known v (co_dag_state c') r;
  ad_origin r : known v (co_dag_state c') r →
    known v (co_dag_state c) r ∨ is_Some (bm_suspended_blocks (co_block_manager c) !! r);
  ad_waiting r : is_Some (bm_suspended_blocks (co_block_manager c') !! r) →
    is_Some (bm_suspended_blocks (co_block_manager c) !! r);
  ad_ledger : tied ctx (co_dag_state c) (cfh_sent (co_commit_finalizer_handle c)) →
    steps (ledger_of c) (ledger_of c') ∧ tied ctx (co_dag_state c') (cfh_sent (co_commit_finalizer_handle c'));
}.

Lemma committed_refs_app l1 l2 : committed_refs (l1 ++ l2) = committed_refs l1 ++ committed_refs l2.
Proof. clear. apply bind_app. Qed.

(** A change that commits nothing. *)
Lemma advanced_none v c c' : (∃ m s d bm l h, c' = recommitted c m s d bm l h) →
  co_commit_finalizer_handle c' = co_commit_finalizer_handle c → ds_last_commit (co_dag_state c') = ds_last_commit (co_dag_state c) →
  (∀ r, committed (co_dag_state c') r ↔ committed (co_dag_state c) r) →
  (∀ x, x ∈ ds_pending_commit_votes (co_dag_state c') → x ∈ ds_pending_commit_votes (co_dag_state c)) →
  (∀ r, known v (co_dag_state c) r → known v (co_dag_state c') r) →
  (∀ r, known v (co_dag_state c') r → known v (co_dag_state c) r ∨ is_Some (bm_suspended_blocks (co_block_manager c) !! r)) →
  (∀ r, is_Some (bm_suspended_blocks (co_block_manager c') !! r) → is_Some (bm_suspended_blocks (co_block_manager c) !! r)) →
  (tied ctx (co_dag_state c) (cfh_sent (co_commit_finalizer_handle c)) → steps (ledger_of c) (ledger_of c')) →
  advanced v c [] c'.
Proof.
  clear. intros Hf Hh Hl Hc Hv Hk Ho Hw Hled. split; try done.
  - by rewrite Hh, app_nil_r.
  - by rewrite Hh.
  - unfold last_commit_index. rewrite Hl. simpl. lia.
  - repeat constructor.
  - unfold last_commit_round. by rewrite Hl.
  - constructor.
  - intros r ?%elem_of_nil. done.
  - intros r. rewrite Hc. split; [by left|]. intros [?|?%elem_of_nil]; done.
  - by rewrite (commit_gc_round ctx _ _ Hl).
  - intros r ?%elem_of_nil. done.
  - intros Ht. split; [by apply Hled|]. rewrite Hh. apply (tied_frame ctx (co_dag_state c)); [done..| | |done]; intros r ?%Hc; [by left|done].
Qed.

Lemma advanced_refl v c : advanced v c [] c.
Proof.
  clear. apply advanced_none; try done; [|by left].
  exists (co_ancestor_state_manager c), (co_leader_schedule c), (co_dag_state c), (co_block_manager c), (co_last_decided_leader c),
    (co_commit_finalizer_handle c). by destruct c.
Qed.

Lemma last_app_default {A} (x : A) l1 l2 : default (default x (last l1)) (last l2) = default x (last (l1 ++ l2)).
Proof. clear. rewrite last_app. by destruct (last l2). Qed.

Lemma sorted_chain x l1 l2 : StronglySorted N.lt (x :: l1) → StronglySorted N.lt (default x (last l1) :: l2) →
  StronglySorted N.lt (x :: l1 ++ l2).
Proof.
  clear. revert x. induction l1 as [|y l1 IH]; intros x H1 H2; [done|].
  apply StronglySorted_inv in H1 as [H1 [Hlt _]%Forall_cons].
  assert (Hs : StronglySorted N.lt (y :: l1 ++ l2)).
  { apply IH; [done|]. destruct l1 as [|z l1]; [done|]. rewrite last_cons_cons in H2. by destruct (last (z :: l1)) eqn:Hl;
      [|apply last_None in Hl]. }
  constructor; [done|]. apply StronglySorted_inv in Hs as [_ Hf]. constructor; [done|].
  eapply Forall_impl; [exact Hf|]. intros z Hz. simpl in Hz. lia.
Qed.

Lemma advanced_trans v c1 s1 c2 s2 c3 : advanced v c1 s1 c2 → advanced v c2 s2 c3 → advanced v c1 (s1 ++ s2) c3.
Proof.
  clear. intros A1 A2. split.
  - destruct (ad_frame _ _ _ _ A1) as (m & s & d & bm & l & h & ->), (ad_frame _ _ _ _ A2) as (m' & s' & d' & bm' & l' & h' & ->).
    by exists m', s', d', bm', l', h'.
  - by rewrite (ad_sent _ _ _ _ A2), (ad_sent _ _ _ _ A1), app_assoc.
  - by rewrite (ad_closed _ _ _ _ A2), (ad_closed _ _ _ _ A1).
  - intros k sd [Hk|[Hle Hk]]%lookup_app_Some; [by apply (ad_indices _ _ _ _ A1)|].
    rewrite (ad_indices _ _ _ _ A2 _ _ Hk), (ad_last _ _ _ _ A1). lia.
  - rewrite (ad_last _ _ _ _ A2), (ad_last _ _ _ _ A1), length_app. lia.
  - rewrite !fmap_app. pose proof (ad_rounds _ _ _ _ A1) as Hs1. pose proof (ad_rounds _ _ _ _ A2) as Hs2.
    rewrite (ad_round _ _ _ _ A1) in Hs2. by apply sorted_chain.
  - rewrite !fmap_app, <-last_app_default, <-(ad_round _ _ _ _ A1). apply A2.
  - rewrite committed_refs_app. apply NoDup_app. split; [apply A1|]. split; [|apply A2].
    intros r Hr1 Hr2. apply (ad_new _ _ _ _ A2 r Hr2), (ad_committed _ _ _ _ A1). by right.
  - intros r. rewrite committed_refs_app. intros [Hr|Hr]%elem_of_app; [by apply (ad_new _ _ _ _ A1)|].
    intros Hc. apply (ad_new _ _ _ _ A2 r Hr), (ad_committed _ _ _ _ A1). by left.
  - intros r. rewrite (ad_committed _ _ _ _ A2), (ad_committed _ _ _ _ A1), committed_refs_app, elem_of_app. tauto.
  - etrans; [apply (ad_gc _ _ _ _ A1)|apply (ad_gc _ _ _ _ A2)].
  - intros r. rewrite committed_refs_app. intros [Hr|Hr]%elem_of_app; [by apply (ad_above _ _ _ _ A1)|].
    eapply N.le_lt_trans; [apply (ad_gc _ _ _ _ A1)|by apply (ad_above _ _ _ _ A2)].
  - intros r Hr. by apply (ad_known _ _ _ _ A2), (ad_known _ _ _ _ A1).
  - intros r [Hr|Hr]%(ad_origin _ _ _ _ A2); [by apply (ad_origin _ _ _ _ A1)|]. right. by apply (ad_waiting _ _ _ _ A1).
  - intros r Hr. by apply (ad_waiting _ _ _ _ A1), (ad_waiting _ _ _ _ A2).
  - intros Ht. destruct (ad_ledger _ _ _ _ A1 Ht) as [Hs1 Ht1]. destruct (ad_ledger _ _ _ _ A2 Ht1) as [Hs2 Ht2].
    split; [by etrans|done].
Qed.

Abbreviation loop := (commit_loop (S := S) ctx fuel clk).

(** The parts of a turn before the leaders are committed. *)
Lemma refresh_turn c v : committing c v → ∃ c1 k, refresh_schedule ctx c = Done (c1, k) ∧ 0 < k ∧
  committing c1 v ∧ advanced v c [] c1 ∧
  (∃ first n, period_ok ctx (co_leader_schedule c1) (co_dag_state c1) first n ∧ n + k = ls_num_commits_per_schedule (co_leader_schedule c1)) ∧
  co_commit_finalizer_handle c1 = co_commit_finalizer_handle c.
Proof using Hhonest Hcf Hlaws.
  intros [Hok Hbm (first & n & Hp) Hpeers Hcomm Hdec Hmax Hidx].
  destruct (refresh_schedule_spec ctx G genesis (u_committee _ _ _ (hn_universe _ _ _ Hhonest)) Hcf c v first n Hok Hp Hpeers)
    as (m & s & d' & first' & n' & Hrun & (Hs & Hrec & Hvotes) & Hok' & Hp' & Hn' & Hpeers' & Hsched); [lia|].
  assert (Hk : ∀ r, known v d' r ↔ known v (co_dag_state c) r)
    by (intros r; unfold known; by rewrite (same_lookup (co_dag_state c) d')).
  assert (Hlr : last_commit_round d' = last_commit_round (co_dag_state c)) by (unfold last_commit_round; by rewrite (sm_commit _ _ Hs)).
  assert (Hli : last_commit_index d' = last_commit_index (co_dag_state c)) by (unfold last_commit_index; by rewrite (sm_commit _ _ Hs)).
  eexists _, _. split; [exact Hrun|]. split; [lia|]. split; [|split; [|split; [|done]]].
  - split; try done; simpl; [|by eauto|by rewrite Hlr|by rewrite Hlr, Hli].
    apply (bm_inv_frame ctx G _ (co_dag_state c) v); [done| |done]. by apply same_gc_round.
  - apply advanced_none; try done; simpl.
    + exists m, s, d', (co_block_manager c), (co_last_decided_leader c), (co_commit_finalizer_handle c). by destruct c.
    + apply Hs.
    + intros r. unfold committed. by rewrite Hrec.
    + by rewrite Hvotes.
    + intros r. apply Hk.
    + intros r ?%Hk. by left.
    + intros _. destruct Hsched as [[-> ->]|(Hcount & Hnext & Hsc)]; [done|]. apply rtc_once. unfold ledger_of. simpl. rewrite Hsc.
      by apply (ls_refresh ctx fuel G (ledger_of c) s).
  - exists first', n'. split; [done|]. simpl. lia.
Qed.

Lemma next_decided_spec c v k : committing c v → ∃ dl, next_decided ctx fuel c [] k = Done (dl, true) ∧
  decided_ok (co_leader_schedule c) (co_dag_state c) v (co_last_decided_leader c) dl ∧ N.of_nat (length dl) ≤ k.
Proof using Hhonest Hcf Hfits.
  intros [Hok _ (first & n & Hp) _ Hcomm Hdec Hmax _]. unfold next_decided. rewrite bool_decide_eq_true_2 by done. rewrite Hcomm.
  destruct (decide_spec ctx G byz Hhonest genesis Hcf U fuel Hfits (co_leader_schedule c) (co_dag_state c) v
    (co_last_decided_leader c) Hok (pd_elects _ _ _ _ _ Hp) Hdec Hmax) as (dl & -> & Hdl). cbn [mbind run_bind].
  case_bool_decide as Hk; eexists; (split; [done|]).
  - split; [by apply decided_take|]. rewrite length_take. lia.
  - split; [done|]. lia.
Qed.

Lemma sorted_length x l : StronglySorted N.lt (x :: l) → x + N.of_nat (length l) ≤ default x (last l).
Proof.
  clear. revert x. induction l as [|y l IH]; intros x Hs; [simpl; lia|].
  apply StronglySorted_inv in Hs as [Hs [Hlt _]%Forall_cons]. specialize (IH y Hs).
  destruct l as [|z l]; [simpl in *; lia|]. rewrite last_cons_cons. simpl length in *.
  destruct (last (z :: l)) eqn:Hl; [simpl in *; lia|]. by apply last_None in Hl.
Qed.

(** What observing leaders means for the core. *)
(** The decided leaders, skipped ones included, are steps of the ledger. *)
Lemma decided_steps c v dl x first n sent sds0 sds scoring' : let s := co_leader_schedule c in
  decided_ok s (co_dag_state c) v (co_last_decided_leader c) dl → last dl = Some x →
  period_ok ctx s (co_dag_state c) first n → n + N.of_nat (length dl) ≤ ls_num_commits_per_schedule s →
  last_commit_index (co_dag_state c) + N.of_nat (length dl) < u32_max →
  follows ctx fuel G sent (omap DecidedLeader_into_committed_block dl) sds0 →
  sds = label_all s (ds_scoring_subdag (co_dag_state c)) sds0 →
  (∀ k sd, sds !! k = Some sd → cr_index (sd_commit_ref sd) = last_commit_index (co_dag_state c) + 1 + N.of_nat k) →
  ScoringSubdag_add_subdags cm (ds_scoring_subdag (co_dag_state c)) sds = Done scoring' →
  steps (mk_ledger (s_round (co_last_decided_leader c)) sent s (ds_scoring_subdag (co_dag_state c)))
    (mk_ledger (s_round (DecidedLeader_slot x)) (sent ++ sds) s scoring').
Proof.
  clear. intros s Hdl Hx Hp Hroom Hmax Hfo -> Hidx Hadd. pose proof (pd_count _ _ _ _ _ Hp) as Hcount.
  assert (Hlen : s_round (DecidedLeader_slot x) = s_round (co_last_decided_leader c) + N.of_nat (length dl)).
  { rewrite last_lookup in Hx. rewrite (dl_round _ _ _ _ _ _ _ Hdl _ _ Hx). pose proof (lookup_lt_Some _ _ _ Hx). lia. }
  rewrite Hlen. apply (batch_steps ctx fuel G s first dl n); try done.
  - apply (dl_final _ _ _ _ _ _ _ Hdl).
  - intros k sd Hk. destruct (Forall2_lookup_l _ _ _ _ _ (label_relabelled s (ds_scoring_subdag (co_dag_state c)) sds0) Hk)
      as (sd' & Hk' & (_ & _ & Hc & _)). rewrite <-Hc, (Hidx k sd' Hk'). lia.
  - apply (pd_scoring _ _ _ _ _ Hp).
  - lia.
Qed.

Lemma observed_advanced c v dl d' sds x first n : let d := co_dag_state c in
  let leaders := omap DecidedLeader_into_committed_block dl in dag_ok d v →
  decided_ok (co_leader_schedule c) d v (co_last_decided_leader c) dl → last dl = Some x →
  period_ok ctx (co_leader_schedule c) d first n → n + N.of_nat (length dl) ≤ ls_num_commits_per_schedule (co_leader_schedule c) →
  last_commit_index d + N.of_nat (length dl) < u32_max →
  StronglySorted (λ a b, vb_round a < vb_round b) leaders → Forall (next_leader v d) leaders →
  observed ctx G genesis fuel (co_leader_schedule c) v d leaders d' sds → cfh_closed (co_commit_finalizer_handle c) = false →
  advanced v c sds (set_co_dag_state d' (set_co_commit_finalizer_handle
    (mk_handle (cfh_sent (co_commit_finalizer_handle c) ++ sds) false) (set_co_last_decided_leader (DecidedLeader_slot x) c))).
Proof.
  clear. intros d leaders Hok Hdl Hx Hp Hroom Hmax Hsort Hnl [(d1 & sds0 & Hc & Hre & Hs & Hrec & _) Hok' _ Hled Hscored] Hh.
  pose proof (cok_leaders _ _ _ _ _ _ _ Hc) as Hleaders. pose proof (relabelled_leaders _ _ Hre) as Hl.
  assert (Hrounds : br_round <$> (sd_leader <$> sds) = vb_round <$> leaders)
    by (rewrite Hl, Hleaders, <-list_fmap_compose; reflexivity).
  assert (Hlen : length sds = length leaders).
  { apply (f_equal length) in Hrounds. by rewrite !length_fmap in Hrounds. }
  assert (Hidx : ∀ k sd, sds !! k = Some sd → cr_index (sd_commit_ref sd) = last_commit_index d + 1 + N.of_nat k).
  { intros k sd' Hk'. destruct (Forall2_lookup_r _ _ _ _ _ Hre Hk') as (sd & Hsd & (_ & _ & -> & _)).
    by apply (cok_indices _ _ _ _ _ _ _ Hc). }
  assert (Hcom : ∀ r, committed d' r ↔ committed d1 r) by (intros r; unfold committed; by rewrite Hrec).
  assert (Hk : ∀ r, known v d' r ↔ known v d r)
    by (intros r; unfold known; by rewrite (same_lookup d1 d') , (cok_lookup _ _ _ _ _ _ _ Hc)).
  split; simpl.
  - eexists (co_ancestor_state_manager c), (co_leader_schedule c), d', (co_block_manager c), _, _. by destruct c.
  - done.
  - done.
  - done.
  - rewrite Hlen. fold d. rewrite <-(cok_last_index _ _ _ _ _ _ _ Hc). unfold last_commit_index. by rewrite (sm_commit _ _ Hs).
  - rewrite Hrounds. by apply (leaders_sorted _ v).
  - rewrite Hrounds, fmap_last. fold d. rewrite <-(cok_last_round _ _ _ _ _ _ _ Hc). unfold last_commit_round. by rewrite (sm_commit _ _ Hs).
  - rewrite (relabelled_refs _ _ Hre). apply Hc.
  - intros r. rewrite (relabelled_refs _ _ Hre). intros Hr Hcr. apply (cok_new _ _ _ _ _ _ _ Hc r Hr). by apply (committed_api ctx _ v).
  - intros r. rewrite Hcom, (relabelled_refs _ _ Hre), <-!(committed_api ctx _ v). apply (cok_committed _ _ _ _ _ _ _ Hc).
  - rewrite (same_gc_round ctx d1 d') by done. apply (cok_gc _ _ _ _ _ _ _ Hc).
  - intros r. rewrite (relabelled_refs _ _ Hre). intros (sd & (b & -> & Hb)%list_elem_of_fmap & Hsd)%list_elem_of_bind.
    by apply (cok_blocks _ _ _ _ _ _ _ Hc sd b).
  - intros r. apply Hk.
  - intros r ?%Hk. by left.
  - done.
  - intros Ht. destruct (Hled _ Ht) as (sds1 & Hfo & Hlab & Ht'). split; [|done]. exact (decided_steps c v dl x first n _ sds1 sds _ Hdl Hx Hp Hroom Hmax Hfo Hlab Hidx Hscored).
Qed.

Lemma observed_last s v d leaders d' sds : observed ctx G genesis fuel s v d leaders d' sds →
  last_commit_round d' = default (last_commit_round d) (vb_round <$> last leaders) ∧
  last_commit_index d' = last_commit_index d + N.of_nat (length leaders).
Proof.
  clear. intros [(d1 & sds0 & Hc & _ & [Hs _]) _ _ _ _].
  rewrite <-(cok_last_round _ _ _ _ _ _ _ Hc), <-(cok_last_index _ _ _ _ _ _ _ Hc).
  unfold last_commit_round, last_commit_index. by rewrite (sm_commit _ _ Hs).
Qed.

Lemma observed_manager c s v leaders d' sds : bm_inv ctx G v (co_block_manager c) (co_dag_state c) →
  observed ctx G genesis fuel s v (co_dag_state c) leaders d' sds → bm_inv ctx G v (co_block_manager c) d'.
Proof.
  clear. intros Hbm [(d1 & sds0 & Hc & _ & [Hs _]) _ _ _ _]. apply (bm_inv_mono ctx G _ (co_dag_state c) v); [done| |].
  - rewrite (same_gc_round ctx d1 d') by done. apply (cok_gc _ _ _ _ _ _ _ Hc).
  - intros r. unfold known. by rewrite (same_lookup d1 d'), (cok_lookup _ _ _ _ _ _ _ Hc).
Qed.

Lemma period_kept s d d' first n : period_ok ctx s d first n → kept d d' → gc_round ctx d' = gc_round ctx d →
  period_ok ctx s d' first n.
Proof.
  clear. intros [Hpos Hel Hsc H1 Hcount Hroom Hscoring Hcounted Htable] [Hc Hs Hcom] Hgc.
  assert (Hlr : last_commit_round d' = last_commit_round d) by (unfold last_commit_round; by rewrite Hc).
  assert (Hli : last_commit_index d' = last_commit_index d) by (unfold last_commit_index; by rewrite Hc).
  split; try done; rewrite ?Hs, ?Hlr, ?Hli, ?Hgc; try done.
  intros r Hr. rewrite Hcom. by apply Hcounted.
Qed.

(** The references above the last commit: each turn leaves fewer. *)
Definition remaining d : nat := size (filter (λ r, last_commit_round d < br_round r) U).

Lemma remaining_less d d' v b : dag_ok d v → next_leader v d b → last_commit_round d' = vb_round b →
  (remaining d' < remaining d)%nat.
Proof using Hfits.
  clear Hhonest Hgenesis Hcf Hlaws Hcodec Hstorable. intros Hok [Hk Hr _] Hl. unfold remaining. apply subset_size. split.
  - intros r. rewrite !elem_of_filter. intros [? ?]. split; [lia|done].
  - intros Hsub. assert (Hin : vb_reference b ∈ filter (λ r, last_commit_round d' < br_round r) U).
    { apply Hsub, elem_of_filter. split; [done|]. apply (uf_all _ _ _ _ Hfits _ b).
      by apply (vo_sub _ _ _ _ (ni_view _ _ _ _ (dk_node _ _ _ _ _ Hok))). }
    apply elem_of_filter in Hin as [Hlt _]. simpl in Hlt. lia.
Qed.

(** The core after its leaders are committed and the waiting blocks released. *)
Definition turned c l h bm d : Core S :=
  set_co_dag_state d (set_co_block_manager bm (set_co_commit_finalizer_handle h (set_co_last_decided_leader l c))).

Lemma commit_turn c v dl x first n : let leaders := omap DecidedLeader_into_committed_block dl in
  committing c v → decided_ok (co_leader_schedule c) (co_dag_state c) v (co_last_decided_leader c) dl → last dl = Some x → leaders ≠ [] →
  period_ok ctx (co_leader_schedule c) (co_dag_state c) first n →
  n + N.of_nat (length dl) ≤ ls_num_commits_per_schedule (co_leader_schedule c) →
  let observe := CommitObserver_handle_commit ctx fuel (co_leader_schedule c) (co_commit_finalizer_handle c)
    (co_dag_state c) leaders true (clk_instant clk) in
  if cfh_closed (co_commit_finalizer_handle c) then observe = f_err Shutdown
  else ∃ h d2 sds bm d3, observe = f_ok (h, d2, sds) ∧
    try_unsuspend_blocks_for_latest_gc_round ctx (co_block_manager c) d2 (clk_instant clk) = Done (bm, d3) ∧
    committing (turned c (DecidedLeader_slot x) h bm d3) v ∧ advanced v c sds (turned c (DecidedLeader_slot x) h bm d3) ∧
    (remaining d3 < remaining (co_dag_state c))%nat.
Proof using Hhonest Hgenesis Hcf Hfits Hcodec Hstorable.
  intros leaders [Hok Hbm _ Hpeers Hcomm Hdec Hmax Hidx] Hdl Hx Hne Hp Hroom observe. set (d := co_dag_state c) in *.
  destruct (decided_leaders ctx G byz Hhonest genesis Hgenesis Hcf U fuel Hfits _ d v _ dl Hok Hdl Hdec) as (Hsort & Hnl & Hlen & Hlast).
  fold leaders in Hsort, Hnl, Hlen, Hlast. destruct (Hlast x Hx) as [Hxr Hxl].
  assert (Hxm : s_round (DecidedLeader_slot x) < u32_max).
  { apply (dl_max _ _ _ _ _ _ _ Hdl). rewrite last_lookup in Hx. by eapply list_elem_of_lookup_2. }
  pose proof (sorted_length _ _ (leaders_sorted d v leaders Hsort Hnl)) as Hcount. rewrite length_fmap, fmap_last in Hcount.
  assert (Hround : default (last_commit_round d) (vb_round <$> last leaders) ≤ s_round (DecidedLeader_slot x)).
  { destruct (last leaders) as [b|] eqn:Hb; simpl; [|lia]. rewrite Forall_forall in Hxl. apply Hxl.
    rewrite last_lookup in Hb. by eapply list_elem_of_lookup_2. }
  pose proof (observer_spec ctx G byz Hhonest genesis fuel Hcodec Hstorable (co_leader_schedule c) (co_commit_finalizer_handle c)
    d v leaders (clk_instant clk) first n Hok Hp Hsort Hnl Hne ltac:(lia) ltac:(lia)
    (recent_fit ctx G genesis U fuel Hfits d v (ni_view _ _ _ _ (dk_node _ _ _ _ _ Hok)))) as Hobs.
  fold observe in Hobs. destruct (cfh_closed (co_commit_finalizer_handle c)) eqn:Hh; [done|].
  destruct Hobs as (d2 & sds & Hrun & Hob & Hp2). pose proof (ob_dag _ _ _ _ _ _ _ _ _ _ Hob) as Hok2.
  assert (Hdlen : s_round (DecidedLeader_slot x) = s_round (co_last_decided_leader c) + N.of_nat (length dl)).
  { rewrite last_lookup in Hx. rewrite (dl_round _ _ _ _ _ _ _ Hdl _ _ Hx). pose proof (lookup_lt_Some _ _ _ Hx). lia. }
  pose proof (observed_advanced c v dl d2 sds x first n Hok Hdl Hx Hp Hroom ltac:(fold d; lia) Hsort Hnl Hob Hh) as Had.
  destruct (collect_garbage_spec ctx G byz (hn_universe _ _ _ Hhonest) (hn_own _ _ _ Hhonest) v (clk_instant clk)
    (co_block_manager c) d2 (dk_node _ _ _ _ _ Hok2) (observed_manager c _ v leaders d2 sds Hbm Hob)) as (bm & d3 & acc & Hgc & Hpr & _).
  destruct (progress_ok ctx G byz Hhonest genesis _ _ _ _ _ _ _ _ Hok2 Hpr) as [Hok3 Hkp].
  assert (Hlr : last_commit_round d3 = last_commit_round d2) by (unfold last_commit_round; by rewrite (kp_commit _ _ Hkp)).
  assert (Hli : last_commit_index d3 = last_commit_index d2) by (unfold last_commit_index; by rewrite (kp_commit _ _ Hkp)).
  pose proof (observed_last _ v d leaders d2 sds Hob) as [Hlr2 Hli2].
  eexists _, d2, sds, bm, d3. split; [exact Hrun|]. split; [done|]. split_and!.
  - split; simpl; [done|apply Hpr| |by destruct Hpeers|done|by rewrite Hlr, Hlr2|done|rewrite Hlr, Hli, Hlr2, Hli2; lia].
    eexists first, _. by eapply period_kept; [|done|apply Hpr].
  - rewrite <-(app_nil_r sds). eapply advanced_trans; [exact Had|]. apply advanced_none; simpl.
    + eexists (co_ancestor_state_manager c), (co_leader_schedule c), d3, bm, _, _. reflexivity.
    + by rewrite app_nil_r.
    + apply Hkp.
    + apply Hkp.
    + apply Hkp.
    + intros r Hr. apply (pr_known _ _ _ _ _ _ _ _ _ _ Hpr). by left.
    + intros r [?|Hr]%(pr_known _ _ _ _ _ _ _ _ _ _ Hpr); [by left|].
      destruct (pr_origin _ _ _ _ _ _ _ _ _ _ Hpr r) as [?|Hn]; [by right|by right|by apply elem_of_nil in Hn].
    + intros r Hr. destruct (pr_origin _ _ _ _ _ _ _ _ _ _ Hpr r) as [?|Hn]; [by left|done|by apply elem_of_nil in Hn].
    + intros _. unfold ledger_of. cbn. by rewrite (kp_scoring _ _ Hkp), app_nil_r.
  - destruct (last leaders) as [b|] eqn:Hb; [|by apply last_None in Hb]. simpl in Hlr2.
    apply (remaining_less d d3 v b); [done| |by rewrite Hlr, Hlr2]. rewrite Forall_forall in Hnl. apply Hnl.
    rewrite last_lookup in Hb. by eapply list_elem_of_lookup_2.
Qed.

Lemma accept_none bm d now : try_accept_committed_blocks ctx bm d [] now = Done (bm, d, []).
Proof. reflexivity. Qed.

Lemma loop_step turns c v acc : committing c v →
  ∃ c1, committing c1 v ∧ advanced v c [] c1 ∧ co_commit_finalizer_handle c1 = co_commit_finalizer_handle c ∧
   remaining (co_dag_state c1) = remaining (co_dag_state c) ∧
   ((∃ l, committing (set_co_last_decided_leader l c1) v ∧ advanced v c1 [] (set_co_last_decided_leader l c1) ∧
      loop (Datatypes.S turns) c [] acc = f_ok (set_co_last_decided_leader l c1, acc)) ∨
    cfh_closed (co_commit_finalizer_handle c) = true ∧ loop (Datatypes.S turns) c [] acc = f_err Shutdown ∨
    ∃ c' sds, loop (Datatypes.S turns) c [] acc = loop turns c' [] (acc ++ sds) ∧
      committing c' v ∧ advanced v c1 sds c' ∧ (remaining (co_dag_state c') < remaining (co_dag_state c1))%nat).
Proof using Hhonest Hgenesis Hcf Hfits Hcodec Hstorable Hlaws.
  intros Hc. destruct (refresh_turn c v Hc) as (c1 & k & Hrun & Hk & Hc1 & Ha1 & (first & n & Hp & Hn) & Hh). exists c1.
  split; [done|]. split; [done|]. split; [done|]. split.
  { unfold remaining. by rewrite (ad_round _ _ _ _ Ha1). }
  cbn [commit_loop]. rewrite Hrun, f_run_bind. unfold try_select_certified_leaders. rewrite bool_decide_eq_true_2 by done.
  cbn [mbind run_bind]. rewrite bool_decide_eq_true_2 by done. rewrite f_run_bind.
  change ((([] : list (DecidedLeader * CertifiedCommit)).*2 : list CertifiedCommit) ≫= cc_blocks) with ([] : list VerifiedBlock).
  rewrite accept_none, f_run_bind.
  assert (set_co_dag_state (co_dag_state c1) (set_co_block_manager (co_block_manager c1) c1) = c1) as -> by (by destruct c1).
  change ([].*1) with ([] : list DecidedLeader).
  destruct (next_decided_spec c1 v k Hc1) as (dl & -> & Hdl & Hlen). rewrite f_run_bind.
  destruct (last dl) as [x|] eqn:Hx.
  2:{ left. exists (co_last_decided_leader c1). assert (set_co_last_decided_leader (co_last_decided_leader c1) c1 = c1) as -> by (by destruct c1). split; [done|]. split; [|done].
    apply advanced_refl. }
  destruct (decided_leaders ctx G byz Hhonest genesis Hgenesis Hcf U fuel Hfits _ (co_dag_state c1) v _ dl (cg_dag _ _ Hc1) Hdl (cg_decided _ _ Hc1))
    as (_ & _ & _ & Hlast). destruct (Hlast x Hx) as [Hxr _].
  assert (Hxm : s_round (DecidedLeader_slot x) < u32_max).
  { apply (dl_max _ _ _ _ _ _ _ Hdl). rewrite last_lookup in Hx. by eapply list_elem_of_lookup_2. }
  case_bool_decide as Hz.
  { left. exists (DecidedLeader_slot x). split; [destruct Hc1 as [? ? ? [] ? ? ? ?]; split; try done; simpl; lia|]. split; [|done].
    apply advanced_none; try done; [by eexists _, _, _, _, _, _|by left|]. intros _. apply nil_length_inv in Hz. pose proof (cg_index _ _ Hc1).
    pose proof (cg_decided _ _ Hc1). unfold ledger_of. cbn.
    rewrite <-(app_nil_r (cfh_sent (co_commit_finalizer_handle c1))) at 2.
    apply (decided_steps c1 v dl x first n _ [] [] _ Hdl Hx Hp); try done; [lia| |rewrite Hz; constructor].
    rewrite last_lookup in Hx. pose proof (dl_round _ _ _ _ _ _ _ Hdl _ _ Hx). pose proof (lookup_lt_Some _ _ _ Hx). lia. }
  right. assert (Hne : omap DecidedLeader_into_committed_block dl ≠ []) by (intros Heq; by rewrite Heq in Hz).
  pose proof (commit_turn c1 v dl x first n Hc1 Hdl Hx Hne Hp ltac:(lia)) as Hturn. cbv zeta in Hturn. rewrite Hh in Hturn.
  change (co_leader_schedule (set_co_last_decided_leader _ c1)) with (co_leader_schedule c1).
  change (co_commit_finalizer_handle (set_co_last_decided_leader _ c1)) with (co_commit_finalizer_handle c1).
  change (co_dag_state (set_co_last_decided_leader _ c1)) with (co_dag_state c1). rewrite Hh.
  destruct (cfh_closed (co_commit_finalizer_handle c)).
  - left. split; [done|]. by rewrite Hturn.
  - right. destruct Hturn as (h & d2 & sds & bm & d3 & -> & Hgc & Hc' & Ha' & Hrem). rewrite f_ok_bind.
    match goal with |- context [try_unsuspend_blocks_for_latest_gc_round ctx ?b ?x] =>
      change b with (co_block_manager c1); change x with d2 end.
    rewrite Hgc, f_run_bind. by eexists _, sds.
Qed.

(** The loop ends: every turn but the last commits a leader of the universe. *)
Lemma commit_loop_spec turns c v acc : committing c v → (remaining (co_dag_state c) < turns)%nat →
  cfh_closed (co_commit_finalizer_handle c) = true ∧ loop turns c [] acc = f_err Shutdown ∨
  ∃ c' sds, loop turns c [] acc = f_ok (c', acc ++ sds) ∧ committing c' v ∧ advanced v c sds c'.
Proof using Hhonest Hgenesis Hcf Hfits Hcodec Hstorable Hlaws.
  revert c acc. induction turns as [|turns IH]; intros c acc Hc Hlt; [lia|].
  destruct (loop_step turns c v acc Hc) as (c1 & Hc1 & Ha1 & Hh & Hrem & [(l & Hc' & Hal & Hrun)|[[Hclosed Hrun]|(c' & sds & Hrun & Hc' & Ha & Hless)]]).
  - right. exists (set_co_last_decided_leader l c1), []. rewrite app_nil_r. split; [done|]. split; [done|].
    rewrite <-(app_nil_r []). by eapply advanced_trans.
  - by left.
  - rewrite Hrun. destruct (IH c' (acc ++ sds) Hc') as [[Hclosed Hr]|(c'' & sds' & Hr & Hc'' & Ha'')]; [lia| |].
    + left. rewrite (ad_closed _ _ _ _ Ha), Hh in Hclosed. done.
    + right. exists c'', (sds ++ sds'). rewrite Hr, app_assoc. split; [done|]. split; [done|].
      rewrite <-(app_nil_l (sds ++ sds')). eapply advanced_trans; [exact Ha1|]. by eapply advanced_trans.
Qed.

(** ** [try_commit] *)

Lemma check_none sds : for_each (check_certified) (∅ : gmap CommitIndex CommitRef) sds = Done ∅.
Proof. clear. induction sds as [|sd sds IH]; [done|]. exact IH. Qed.

(** The core after its committed blocks are reported to the clients. *)
Definition reported c tn out : Core S := set_co_outputs out (set_co_transaction_consumer tn c).

Lemma try_commit_spec c v : committing c v →
  cfh_closed (co_commit_finalizer_handle c) = true ∧ try_commit ctx fuel clk c [] = f_err Shutdown ∨
  ∃ c' sds tn statuses,
    notify_own_blocks_status (co_transaction_consumer c)
      (vb_reference <$> filter (λ b, vb_author b = ctx_own_index ctx) (sds ≫= sd_blocks)) (gc_round ctx (co_dag_state c')) = (tn, statuses) ∧
    try_commit ctx fuel clk c [] = f_ok (reported c' tn (co_outputs c' ++ [OwnBlocksStatus statuses]), sds) ∧
    committing c' v ∧ advanced v c sds c'.
Proof using Hhonest Hgenesis Hcf Hfits Hcodec Hstorable Hlaws.
  intros Hc. unfold try_commit.
  destruct (commit_loop_spec fuel c v [] Hc) as [[Hclosed Hr]|(c' & sds & Hr & Hc' & Ha)].
  - eapply Nat.le_lt_trans; [|apply (uf_fuel _ _ _ _ Hfits)]. unfold remaining. apply subseteq_size. set_solver.
  - left. by rewrite Hr.
  - right. exists c', sds. rewrite Hr, f_ok_bind. change ([] ++ sds) with sds.
    assert (Hmap : (list_to_map (reverse ((λ x, (tc_index (cc_commit x), TrustedCommit_reference (cc_commit x))) <$>
      ([] : list CertifiedCommit))) : gmap CommitIndex CommitRef) = ∅) by reflexivity.
    rewrite Hmap, check_none, f_run_bind.
    destruct (ad_frame _ _ _ _ Ha) as (m & s & d & bm & l & h & ->).
    match goal with |- context [notify_own_blocks_status ?tn ?a ?b] => destruct (notify_own_blocks_status tn a b) as [tn' statuses] eqn:Hn end.
    exists tn', statuses. split; [done|].
    change (co_transaction_consumer (recommitted c m s d bm l h)) with (co_transaction_consumer c). rewrite Hn.
    split; [reflexivity|]. split; [exact Hc'|exact Ha].
Qed.
End looping.
