(* ===== verification/CoreNode.v ===== *)
(** * The core of a node

    Every operation of the core in every state that operations lead to: blocks
    arrive in any order, transactions are submitted, the certifier is told
    votes and collected, peers are probed, blocks are proposed and leaders
    committed. No operation panics; the only error is the shutdown of a
    receiver. *)
From S2P Require Import Prelude Committee StakeAggregator Block ThresholdClock Commit LeaderScoring Store DagState DagStateProofs DagTraversal LeaderSchedule BaseCommitter CommitRule BlockVerifier TransactionConsumer DagViews BlockManager BlockManagerProofs BlockManagerSafety ManagedNode Linearizer CommitObserver LinearizerProofs CommitSafety UniversalCommitter QuorumRounds Ancestor TransactionCertifier CertifierProofs CommitFinalizer Core CoreState Ledger CoreProposal CoreProposer CoreCommit.

Section node.
Context {S : Type} `{StoreLaws S} `{BlockCodec} `{CommitCodec} `{Crypto} `{BlockSigner} `{Hlaws : RngLaws}.
Context (ctx : Context) (params : Parameters) (fuel : nat).
Context (G : BlockRef → option VerifiedBlock) (byz : gset AuthorityIndex) (Hhonest : honest_node (S := S) ctx G byz).
Context (genesis : list VerifiedBlock) (Hgenesis : genesis_blocks ctx = Done genesis) (Hcf : config_ok ctx).
Context (U : gset BlockRef) (Hfits : universe_fits G genesis U fuel).
Context (Hcodec : ∀ c, is_Some (bcs_commit_to_bytes c)).
Context (Hstorable : ∀ c bytes, bcs_commit_to_bytes c = Some bytes → st_commit_ok (TrustedCommit_new_trusted c bytes)).
Context (Hsign : signing_ok ctx) (Hlim : limits_ok ctx).
Implicit Types (d : DagState S) (v : StoreView) (c : Core S).
Abbreviation cm := (ctx_committee ctx).
Abbreviation pc := (ctx_protocol_config ctx).
Abbreviation Hdepth := (cf_depth _ Hcf).
Abbreviation committing := (committing ctx G genesis).
Abbreviation proposing_node := (proposing_node ctx G genesis).
Abbreviation advanced := (advanced ctx G fuel).
Abbreviation steps := (rtc (ledger_step (S := S) ctx fuel G)).

(** The commits sent to the finalizer: consecutive indices from one, leaders of
    increasing rounds, and no block twice. *)
Record log_ok (d : DagState S) (sent : list CommittedSubDag) : Prop := {
  lg_indices k sd : sent !! k = Some sd → cr_index (sd_commit_ref sd) = N.of_nat k + 1;
  lg_last : last_commit_index d = N.of_nat (length sent);
  lg_rounds : StronglySorted N.lt (0 :: (br_round <$> (sd_leader <$> sent)));
  lg_round : last_commit_round d = default 0 (last (br_round <$> (sd_leader <$> sent)));
  lg_nodup : NoDup (committed_refs sent);
  lg_committed r : r ∈ committed_refs sent → committed d r ∨ br_round r ≤ gc_round ctx d;
}.

(** The blocks broadcast: own blocks of increasing rounds that pass the
    verification of every authority. *)
Record proposal_ok (b : VerifiedBlock) : Prop := {
  pb_author : vb_author b = ctx_own_index ctx;
  pb_wf : block_wf cm b;
  pb_verified self i : SignedBlockVerifier_new ctx = Done self → verify_block (own_context ctx i) self (vb_signed b) = f_ok tt;
}.
Record proposals_ok (d : DagState S) (blocks : list VerifiedBlock) : Prop := {
  pp_sorted : StronglySorted (λ a b, vb_round a < vb_round b) blocks;
  pp_each : Forall proposal_ok blocks;
  pp_last b own_block : b ∈ blocks → get_last_proposed_block ctx d = Done own_block → vb_round b ≤ vb_round own_block;
}.

(** The node follows the ledger. *)
Definition in_ledger c : Prop :=
  steps ledger_genesis (ledger_of c) ∧ tied ctx (co_dag_state c) (cfh_sent (co_commit_finalizer_handle c)).

(** The blocks broadcast vote for commits that were sent. *)
Definition votes_sent c : Prop := ∀ b x, b ∈ proposals (co_outputs c) → x ∈ block_commit_votes (vb_block b) →
  x ∈ sd_commit_ref <$> cfh_sent (co_commit_finalizer_handle c).

(** The invariant of the core. *)
Record core_ok c v : Prop := {
  ok_log : log_ok (co_dag_state c) (cfh_sent (co_commit_finalizer_handle c));
  ok_proposals : proposals_ok (co_dag_state c) (proposals (co_outputs c));
  ok_commits : committing c v;
  ok_included b : last_proposed_block ctx c = Done b → included_ok ctx (co_last_included_ancestors c) (vb_round b);
  ok_consumer : consumer_ok ctx (co_transaction_consumer c);
  ok_certifier : pc_mysticeti_fastpath pc →
    certifier_ok ctx G (co_transaction_certifier c) (co_block_manager c) (co_dag_state c) v;
  ok_ledger : in_ledger c;
  ok_votes : votes_sent c;
}.

Lemma core_proposing c v : core_ok c v → proposing_node c v.
Proof.
  clear. intros [_ _ [Hok Hbm (first & n & Hp) Hpeers Hcomm _ _ _] Hinc Hcons Hcert _ _]. split; [|done..].
  split; try done; [|apply Hp]. intros Hf. by eapply certifier_votes, Hcert.
Qed.

Lemma period_retained s d d' first n : period_ok ctx s d first n → retained ctx d d' → period_ok ctx s d' first n.
Proof.
  clear. intros [Hpos Hel Hsc H1f Hcount Hroom Hscoring Hcounted Htable] [Hc Hs Hcom _].
  assert (Hlr : last_commit_round d' = last_commit_round d) by (unfold last_commit_round; by rewrite Hc).
  assert (Hli : last_commit_index d' = last_commit_index d) by (unfold last_commit_index; by rewrite Hc).
  pose proof (commit_gc_round ctx d d' Hc) as Hgc.
  split; try done; rewrite ?Hs, ?Hlr, ?Hli, ?Hgc; try done.
  intros r [Hr|?]%Hcounted; [|by right]. by apply Hcom.
Qed.

(** The log does not depend on blocks that are evicted. *)
Lemma log_retained d d' sent : log_ok d sent → retained ctx d d' → log_ok d' sent.
Proof.
  clear. intros [Hi Hl Hrs Hr Hn Hc] Hret. pose proof (rt_commit _ _ _ Hret) as Hcommit.
  split; try done; [unfold last_commit_index; by rewrite Hcommit|unfold last_commit_round; by rewrite Hcommit|].
  intros r. rewrite (commit_gc_round ctx _ _ Hcommit). intros [Hcr|?]%Hc; [by apply (rt_committed _ _ _ Hret)|by right].
Qed.

Lemma ledger_retained c c' : in_ledger c → retained ctx (co_dag_state c) (co_dag_state c') →
  co_leader_schedule c' = co_leader_schedule c → co_last_decided_leader c' = co_last_decided_leader c →
  cfh_sent (co_commit_finalizer_handle c') = cfh_sent (co_commit_finalizer_handle c) → in_ledger c'.
Proof.
  clear. intros [Hs Ht] Hret Hsched Hdec Hsent. unfold in_ledger, ledger_of. rewrite Hsent, Hsched, Hdec, (rt_scoring _ _ _ Hret).
  split; [done|]. by eapply tied_retained.
Qed.

Lemma log_advanced v c sds c' : log_ok (co_dag_state c) (cfh_sent (co_commit_finalizer_handle c)) → advanced v c sds c' →
  log_ok (co_dag_state c') (cfh_sent (co_commit_finalizer_handle c')).
Proof.
  clear. intros [Hi Hl Hrs Hr Hn Hc] Ha. rewrite (ad_sent _ _ _ _ _ _ _ Ha). split.
  - intros k sd [Hk|[Hge Hk]]%lookup_app_Some; [by apply Hi|].
    rewrite (ad_indices _ _ _ _ _ _ _ Ha _ _ Hk), Hl. lia.
  - rewrite (ad_last _ _ _ _ _ _ _ Ha), Hl, length_app. lia.
  - rewrite !fmap_app. apply sorted_chain; [done|]. rewrite <-Hr. apply Ha.
  - rewrite !fmap_app, <-last_app_default, <-Hr. apply (ad_round _ _ _ _ _ _ _ Ha).
  - rewrite committed_refs_app. apply NoDup_app. split; [done|]. split; [|apply Ha]. intros r Hold Hnew.
    destruct (Hc r Hold) as [Hcr|Hgc]; [by apply (ad_new _ _ _ _ _ _ _ Ha r Hnew)|].
    pose proof (ad_above _ _ _ _ _ _ _ Ha r Hnew). lia.
  - intros r. rewrite committed_refs_app. intros [Hold|Hnew]%elem_of_app.
    + destruct (Hc r Hold) as [Hcr|Hgc]; [left; apply (ad_committed _ _ _ _ _ _ _ Ha); by left|].
      right. pose proof (ad_gc _ _ _ _ _ _ _ Ha). lia.
    + left. apply (ad_committed _ _ _ _ _ _ _ Ha). by right.
Qed.

Lemma carried_core c v c' v' : core_ok c v → carried ctx c c' → proposing_node c' v' →
  (∀ b b', last_proposed_block ctx c = Done b → last_proposed_block ctx c' = Done b' → vb_round b ≤ vb_round b') → core_ok c' v'.
Proof using Hhonest Hgenesis.
  clear Hcf Hfits Hcodec Hstorable Hsign Hlim. intros [Hlog [Hps Hpe Hpl] [Hdag _ (first & n & Hp) _ _ Hdec Hmax Hidx] _ _ _ Hled Hvs] [Hret Hs Hd Hh _ _ Hpr _] [[Hok Hpeers Hinc Hcons Hvotes Hcomm Hsched] Hbm Hcert].
  assert (Hlr : last_commit_round (co_dag_state c') = last_commit_round (co_dag_state c))
    by (unfold last_commit_round; by rewrite (rt_commit _ _ _ Hret)).
  assert (Hli : last_commit_index (co_dag_state c') = last_commit_index (co_dag_state c))
    by (unfold last_commit_index; by rewrite (rt_commit _ _ _ Hret)).
  intros Hgrow. split; [| | |done|done|done|by apply (ledger_retained c); [..|rewrite Hh]|unfold votes_sent; by rewrite Hpr, Hh].
  - rewrite Hh. by eapply log_retained.
  - rewrite Hpr. split; [done..|]. intros b own' Hb Hown'.
    destruct (last_proposed_spec ctx G byz Hhonest genesis Hgenesis c v Hdag) as (own & Hown & _).
    etrans; [by apply (Hpl b own)|]. by apply Hgrow.
  - split; try done; rewrite ?Hs, ?Hd, ?Hlr, ?Hli; try done.
    exists first, n. by eapply period_retained.
Qed.

Lemma clock_bound d v : dag_ok ctx G genesis d v → threshold_clock_round d < u32_max.
Proof using Hhonest Hfits.
  clear Hgenesis Hcf Hcodec Hstorable Hsign Hlim. intros Hok. pose proof (ck_why _ _ _ (dk_clock _ _ _ _ _ Hok)) as Hwhy.
  assert (Hk : ∀ r, known v d r → br_round r + 1 < u32_max).
  { intros r [b Hb]. apply (uf_rounds _ _ _ _ Hfits r b). by apply (vo_sub _ _ _ _ (ni_view _ _ _ _ (dk_node _ _ _ _ _ Hok))). }
  pose proof (u_committee _ _ _ (hn_universe _ _ _ Hhonest)) as Hcm.
  change (threshold_clock_round d) with (tc_round (ds_threshold_clock d)).
  destruct Hwhy as [->|[(r & Hr & <-)|(X & Hq & HX)]]; [done|specialize (Hk r Hr); lia|].
  assert (Hne : X ≠ ∅).
  { intros ->. rewrite set_stake_empty in Hq. pose proof (quorum_pos cm Hcm). lia. }
  apply set_choose_L in Hne as [a Ha]. destruct (HX a Ha) as (r & Hr & Hrd & _). specialize (Hk r Hr). lia.
Qed.

(** ** Outcomes *)

(** A receiver of the outputs has gone away. *)
Definition closing c : bool := cfh_closed (co_commit_finalizer_handle c) || co_broadcast_closed c.

(** What every operation keeps. *)
Record passed c c' : Prop := {
  pa_closing : closing c' = closing c;
  pa_last_known : co_last_known_proposed_round c' = co_last_known_proposed_round c;
  pa_certifier : gains (co_transaction_certifier c) (co_transaction_certifier c');
}.

Lemma passed_refl c : passed c c.
Proof. clear. by split. Qed.
Lemma passed_trans c1 c2 c3 : passed c1 c2 → passed c2 c3 → passed c1 c3.
Proof. clear. intros [H1 H2 H3] [H1' H2' H3']. split; [congruence..|by eapply gains_trans]. Qed.

(** An operation succeeds, or a receiver has gone away. *)
Definition outcome {A} c (m : fallible (Core S * A)) : Prop :=
  (∃ c' v' x, m = f_ok (c', x) ∧ core_ok c' v' ∧ passed c c') ∨ closing c = true ∧ m = f_err Shutdown.

Lemma outcome_ok {A} c c' v' (x : A) : core_ok c' v' → passed c c' → outcome c (f_ok (c', x)).
Proof. clear. intros Hok Hc. left. by exists c', v', x. Qed.

Lemma outcome_trans {A} c c' (m : fallible (Core S * A)) : passed c c' → outcome c' m → outcome c m.
Proof.
  clear. intros Hp [(c'' & v & x & -> & Hok & Hc)|[Hc ->]].
  - left. exists c'', v, x. split; [done|]. split; [done|]. by eapply passed_trans.
  - right. by rewrite <-(pa_closing _ _ Hp).
Qed.

Lemma outcome_bind {A B} c (m : fallible (Core S * A)) (k : Core S * A → fallible (Core S * B)) : outcome c m →
  (∀ c' v' x, m = f_ok (c', x) → core_ok c' v' → passed c c' → outcome c' (k (c', x))) → outcome c (m ≫= k).
Proof.
  clear. intros [(c' & v' & x & -> & Hok & Hc)|[Hc ->]] Hk; [|by right].
  rewrite f_ok_bind. apply (outcome_trans c c'); [done|]. by eapply Hk.
Qed.

(** ** Committing *)

Lemma notify_consumer_ok tn refs gc : consumer_ok ctx tn → consumer_ok ctx (notify_own_blocks_status tn refs gc).1.
Proof.
  clear. intros [Hl Hf]. unfold notify_own_blocks_status. destruct (notify_committed _ _). by destruct (notify_collected _ _ _).
Qed.

(** The last own block only gets later. *)
Lemma last_proposed_grows c c' v b' : dag_ok ctx G genesis (co_dag_state c) v → dag_ok ctx G genesis (co_dag_state c') v →
  (∀ r, known v (co_dag_state c) r → known v (co_dag_state c') r) → last_proposed_block ctx c' = Done b' →
  ∃ b, last_proposed_block ctx c = Done b ∧ vb_round b ≤ vb_round b'.
Proof using Hhonest Hgenesis.
  clear Hcf Hfits Hcodec Hstorable Hsign Hlim. intros Hok Hok' Hk Hb'.
  destruct (last_proposed_spec ctx G byz Hhonest genesis Hgenesis c v Hok) as (b & Hb & Ha & Hlk & _).
  destruct (last_proposed_spec ctx G byz Hhonest genesis Hgenesis c' v Hok') as (b1 & Hb1 & _ & _ & Hmax).
  assert (b1 = b') as -> by congruence. exists b. split; [done|].
  apply (Hmax (vb_reference b)); [apply Hk; by eexists|done].
Qed.

Lemma advanced_core c v sds c' tn out : core_ok c v → committing c' v → advanced v c sds c' → consumer_ok ctx tn →
  proposals out = proposals (co_outputs c') → core_ok (reported c' tn out) v ∧ passed c (reported c' tn out).
Proof using Hhonest Hgenesis.
  clear Hcf Hfits Hcodec Hstorable Hsign Hlim Hlaws. intros [Hlog Hprops Hc Hinc Hcons Hcert [Hst0 Ht0] Hvs] Hc' Ha Htn Hpout.
  destruct (ad_frame _ _ _ _ _ _ _ Ha) as (m & s & d & bm & l & h & Heq).
  assert (Hl : co_last_included_ancestors c' = co_last_included_ancestors c) by (rewrite Heq; reflexivity).
  assert (Hst : co_transaction_certifier c' = co_transaction_certifier c) by (rewrite Heq; reflexivity).
  assert (Hbc : co_broadcast_closed c' = co_broadcast_closed c) by (rewrite Heq; reflexivity).
  assert (Hlk : co_last_known_proposed_round c' = co_last_known_proposed_round c) by (rewrite Heq; reflexivity).
  assert (Hout : co_outputs c' = co_outputs c) by (rewrite Heq; reflexivity).
  assert (Hgrow : ∀ b', last_proposed_block ctx c' = Done b' → ∃ b, last_proposed_block ctx c = Done b ∧ vb_round b ≤ vb_round b').
  { intros b'. apply (last_proposed_grows c c' v b' (cg_dag _ _ _ _ _ Hc) (cg_dag _ _ _ _ _ Hc') (ad_known _ _ _ _ _ _ _ Ha)). }
  clear Heq. split; [|split; unfold closing, reported; cbn; [by rewrite (ad_closed _ _ _ _ _ _ _ Ha), Hbc|done|by rewrite Hst]].
  split; unfold reported; cbn; [by eapply log_advanced| |by destruct Hc' as [? ? ? [] ? ? ? ?]; split| |done| | |].
  - rewrite Hpout, Hout. destruct Hprops as [Hps Hpe Hpl]. split; [done..|]. intros b own' Hb Hown'.
    destruct (Hgrow own' Hown') as (own & Hown & Hle). etrans; [by apply (Hpl b own)|done].
  - intros b Hb. change (last_proposed_block ctx c' = Done b) in Hb. rewrite Hl.
    destruct (Hgrow b Hb) as (b0 & Hb0 & Hle). by apply (included_weaken _ _ _ _ (Hinc b0 Hb0)).
  - intros Hf. rewrite Hst. apply (certifier_frame _ _ _ _ _ _ _ _ _ (Hcert Hf)).
    intros r [Hr|Hr]; [by apply (ad_origin _ _ _ _ _ _ _ Ha)|right; by apply (ad_waiting _ _ _ _ _ _ _ Ha)].
  - destruct (ad_ledger _ _ _ _ _ _ _ Ha Ht0) as [Hst1 Ht1]. split; [|done]. by etrans.
  - intros b x. cbn. rewrite Hpout, Hout, (ad_sent _ _ _ _ _ _ _ Ha), fmap_app, elem_of_app. left. by apply (Hvs b).
Qed.

Lemma try_commit_core clk c v : core_ok c v → outcome c (try_commit ctx fuel clk c []).
Proof using Hhonest Hgenesis Hcf Hfits Hcodec Hstorable Hlaws.
  intros Hok.
  destruct (try_commit_spec ctx clk G byz Hhonest genesis Hgenesis Hcf U fuel Hfits Hcodec Hstorable c v (ok_commits _ _ Hok))
    as [[Hclosed Hr]|(c' & sds & tn & statuses & Hn & Hr & Hc' & Ha)].
  { right. unfold closing. by rewrite Hclosed. }
  rewrite Hr. pose proof (notify_consumer_ok (co_transaction_consumer c)
    (vb_reference <$> filter (λ b, vb_author b = ctx_own_index ctx) (sds ≫= sd_blocks)) (gc_round ctx (co_dag_state c'))
    (ok_consumer _ _ Hok)) as Htn. rewrite Hn in Htn.
  destruct (advanced_core c v sds c' tn (co_outputs c' ++ [OwnBlocksStatus statuses]) Hok Hc' Ha Htn);
    [by rewrite proposals_app, app_nil_r|]. by eapply outcome_ok.
Qed.

(** ** Proposing *)

(** The core keeps nothing in what it has output or signalled. *)
Lemma core_ok_frame c c' v : core_ok c v → co_dag_state c' = co_dag_state c → co_block_manager c' = co_block_manager c →
  co_leader_schedule c' = co_leader_schedule c → co_round_tracker c' = co_round_tracker c →
  co_ancestor_state_manager c' = co_ancestor_state_manager c → co_committer c' = co_committer c →
  co_last_decided_leader c' = co_last_decided_leader c → co_last_included_ancestors c' = co_last_included_ancestors c →
  consumer_ok ctx (co_transaction_consumer c') → co_transaction_certifier c' = co_transaction_certifier c →
  cfh_sent (co_commit_finalizer_handle c') = cfh_sent (co_commit_finalizer_handle c) →
  proposals (co_outputs c') = proposals (co_outputs c) → core_ok c' v.
Proof.
  clear. intros [Hlog Hprops [? ? ? [] ? ? ? ?] Hinc Hcons Hcert Hled Hvs] Hd Hbm Hs Ht Hm Hcm Hl Hi Htn Hst Hsent Hpr.
  split; [by rewrite Hd, Hsent|by rewrite Hd, Hpr| |unfold last_proposed_block; by rewrite Hd, Hi|done|by rewrite Hst, Hbm, Hd
    |unfold in_ledger, ledger_of; by rewrite Hd, Hs, Hl, Hsent|unfold votes_sent; by rewrite Hpr, Hsent].
  split; rewrite ?Hd, ?Hbm, ?Hs, ?Hcm, ?Hl; try done. by split; rewrite ?Ht, ?Hm.
Qed.

(** The block just created is broadcast. *)
Lemma broadcast_core c v eb : core_ok c v → last_proposed_block ctx c = Done (eb_block eb) → proposal_ok (eb_block eb) →
  (∀ x, x ∈ block_commit_votes (vb_block (eb_block eb)) → x ∈ sd_commit_ref <$> cfh_sent (co_commit_finalizer_handle c)) →
  Forall (λ b, vb_round b < vb_round (eb_block eb)) (proposals (co_outputs c)) → core_ok (send_output (NewBlock eb) c) v.
Proof.
  clear. intros [Hlog [Hps Hpe Hpl] [? ? ? [] ? ? ? ?] Hinc Hcons Hcert Hled Hvs] Hlast Hb Hbv Hnew. split; cbn; [done| |by split|done..|].
  2:{ intros b x. cbn. rewrite proposals_app, elem_of_app. intros [Hb'| ->%list_elem_of_singleton]; [by apply Hvs|by apply Hbv]. }
  rewrite proposals_app. split.
  - apply StronglySorted_app. split; [|split; [done|repeat constructor]]. intros a b Ha Hb'%list_elem_of_singleton. subst b.
    rewrite Forall_forall in Hnew. by apply Hnew.
  - apply Forall_app. split; [done|]. by apply Forall_singleton.
  - intros b own [Hb'|Hb'%list_elem_of_singleton]%elem_of_app Hown; [by apply Hpl|]. subst b.
    unfold last_proposed_block in Hlast. rewrite Hown in Hlast. by injection Hlast as ->.
Qed.

Lemma signal_core c v eb : core_ok c v → last_proposed_block ctx c = Done (eb_block eb) → proposal_ok (eb_block eb) →
  (∀ x, x ∈ block_commit_votes (vb_block (eb_block eb)) → x ∈ sd_commit_ref <$> cfh_sent (co_commit_finalizer_handle c)) →
  Forall (λ b, vb_round b < vb_round (eb_block eb)) (proposals (co_outputs c)) →
  outcome c (c' ← signal_new_block ctx c eb; f_ok (c', tt)).
Proof.
  clear. intros Hok Hlast Hb Hbv Hnew. unfold signal_new_block. case_bool_decide; [|by eapply outcome_ok, passed_refl].
  case_bool_decide; [by eapply outcome_ok, passed_refl|]. destruct (co_broadcast_closed c) eqn:Hbc.
  - right. unfold closing. by rewrite Hbc, orb_true_r.
  - apply (outcome_ok _ _ v); [by apply broadcast_core|by split].
Qed.

Lemma round_core c v : core_ok c v → core_ok (try_signal_new_round c) v ∧ passed c (try_signal_new_round c).
Proof.
  clear. intros Hok. unfold try_signal_new_round. case_bool_decide; [split; [done|apply passed_refl]|]. split; [|by split].
  apply (core_ok_frame c); try done; [apply Hok|]. cbn. by rewrite proposals_app, app_nil_r.
Qed.

Lemma try_propose_core clk c v force : core_ok c v → (should_propose params c → announces ctx clk G c force) →
  outcome c (try_propose ctx params fuel clk c force).
Proof using All.
  intros Hok Hann. unfold try_propose. destruct (should_propose params c); simpl; [|by eapply outcome_ok, passed_refl].
  pose proof (core_proposing c v Hok) as Hn.
  destruct (last_proposed_spec ctx G byz Hhonest genesis Hgenesis c v (cg_dag _ _ _ _ _ (ok_commits _ _ Hok))) as (own_block & Hown & _).
  destruct (try_new_block_spec ctx clk G byz Hhonest genesis Hgenesis Hdepth Hsign Hlim params c v force own_block Hn Hown)
    as (c' & v' & o & Hrun & Hn' & Hcar & Ho).
  { eapply clock_bound, Hok. }
  { by apply Hann. }
  assert (Hok' : core_ok c' v').
  { apply (carried_core c v); [done..|]. intros b b' Hb Hb'. assert (b = own_block) as -> by congruence.
    destruct o as [eb|]; [destruct Ho as (Hlt & Hvp & _ & Hl)|destruct Ho as [Hl _]]; rewrite Hl in Hb'; injection Hb' as <-; [|done].
    rewrite (vp_round _ _ _ _ _ _ Hvp). lia. }
  assert (Hcl : passed c c').
  { destruct Hcar as [_ _ _ Hh Hb Hk _ Hvt]. split; [unfold closing; by rewrite Hh, Hb|done|done]. }
  rewrite Hrun, f_run_bind. destruct o as [eb|]; [|by eapply outcome_ok].
  apply (outcome_trans c c'); [done|].
  replace (signal_new_block ctx c' eb ≫= _) with ('(c1, _) ← (c1 ← signal_new_block ctx c' eb; f_ok (c1, tt));
    '(c2, _) ← try_commit ctx fuel clk c1 []; f_ok (c2, Some (eb_block eb))).
  2: { unfold signal_new_block. repeat case_match; reflexivity. }
  destruct Ho as (Hlt & Hvp & Hpend & Hl). apply outcome_bind.
  { eapply signal_core; [done..| | |].
    - split; apply Hvp.
    - intros x Hx%Hpend. rewrite (cr_handle _ _ _ Hcar). by apply (td_votes _ _ _ (proj2 (ok_ledger _ _ Hok))).
    - rewrite (cr_proposals _ _ _ Hcar), Forall_forall. intros b Hb. rewrite (vp_round _ _ _ _ _ _ Hvp).
      eapply N.le_lt_trans; [|exact Hlt]. by apply (pp_last _ _ (ok_proposals _ _ Hok)). }
  intros c1 v1 [] _ Hok1 _.
  apply outcome_bind; [by eapply try_commit_core|]. intros c2 v2 sds _ Hok2 _. by eapply outcome_ok, passed_refl.
Qed.

Lemma new_block_core clk c v round force : core_ok c v → (should_propose params c → announces ctx clk G c force) →
  outcome c (new_block ctx params fuel clk c round force).
Proof using All.
  intros Hok Hann. unfold new_block, last_proposed_round.
  destruct (last_proposed_spec ctx G byz Hhonest genesis Hgenesis c v (cg_dag _ _ _ _ _ (ok_commits _ _ Hok))) as (b & -> & _).
  cbn [mbind run_bind]. rewrite f_run_bind. case_bool_decide; [|by eapply outcome_ok, passed_refl].
  apply outcome_bind; [by eapply try_propose_core|]. intros c1 v1 o _ Hok1 _.
  destruct (round_core c1 v1 Hok1). by eapply outcome_ok.
Qed.

(** ** Blocks *)

Lemma blocks_core c v now blocks bm d acc : core_ok c v →
  progress ctx G v now (co_block_manager c) (co_dag_state c) blocks bm d acc →
  (pc_mysticeti_fastpath pc → Forall (λ b, voted (co_transaction_certifier c) (vb_reference b)) blocks) →
  core_ok (set_co_dag_state d (set_co_block_manager bm c)) v.
Proof using Hhonest Hgenesis.
  clear Hcf Hfits Hcodec Hstorable Hsign Hlim Hlaws.
  intros [Hlog [Hps Hpe Hpl] [Hok Hbm (first & n & Hp) [] Hcomm Hdec Hmax Hidx] Hinc Hcons Hcert Hled Hvs] Hpr Hvoted.
  destruct (progress_ok ctx G byz Hhonest genesis now (co_block_manager c) _ _ _ _ _ _ Hok Hpr) as [Hok' Hkp].
  pose proof (kept_retained ctx _ _ Hkp) as Hret.
  assert (Hlr : last_commit_round d = last_commit_round (co_dag_state c))
    by (unfold last_commit_round; by rewrite (rt_commit _ _ _ Hret)).
  assert (Hli : last_commit_index d = last_commit_index (co_dag_state c))
    by (unfold last_commit_index; by rewrite (rt_commit _ _ _ Hret)).
  assert (Hgrow : ∀ b', get_last_proposed_block ctx d = Done b' → ∃ b, last_proposed_block ctx c = Done b ∧ vb_round b ≤ vb_round b').
  { intros b' Hb'. apply (last_proposed_grows c (set_co_dag_state d (set_co_block_manager bm c)) v b' Hok Hok'); [|done].
    cbn. intros r Hr. apply (pr_known _ _ _ _ _ _ _ _ _ _ Hpr). by left. }
  split; cbn.
  - by eapply log_retained.
  - split; [done..|]. intros b own' Hb Hown'. destruct (Hgrow own' Hown') as (own & Hown & Hle). etrans; [by apply (Hpl b own)|done].
  - split; cbn; rewrite ?Hlr, ?Hli; try done; [apply Hpr|exists first, n; by eapply period_retained].
  - intros b Hb. destruct (Hgrow b Hb) as (b0 & Hb0 & Hle). by apply (included_weaken _ _ _ _ (Hinc b0 Hb0)).
  - done.
  - intros Hf. destruct (Hcert Hf) as [Hv Hg]. split; [|done]. intros r Hr.
    assert (Hr' : (known v (co_dag_state c) r ∨ is_Some (bm_suspended_blocks (co_block_manager c) !! r)) ∨ r ∈ refs blocks).
    { rewrite (pr_known _ _ _ _ _ _ _ _ _ _ Hpr) in Hr.
      pose proof (pr_origin _ _ _ _ _ _ _ _ _ _ Hpr r). tauto. }
    destruct Hr' as [?|(b & -> & Hb)%list_elem_of_fmap]; [by apply Hv|]. specialize (Hvoted Hf). rewrite Forall_forall in Hvoted. by apply Hvoted.
  - by apply (ledger_retained c).
  - done.
Qed.

(** The block that the node creates once it has committed after accepting
    [blocks] is announced. *)
Definition announces_after clk c blocks : Prop := ∀ bm d acc missing c1 sds,
  try_accept_blocks ctx (co_block_manager c) (co_dag_state c) blocks (clk_instant clk) = Done (bm, d, acc, missing) →
  try_commit ctx fuel clk (set_co_dag_state d (set_co_block_manager bm c)) [] = f_ok (c1, sds) →
  should_propose params c1 → announces ctx clk G c1 false.

Lemma add_blocks_core clk c v blocks : core_ok c v → from_universe G blocks →
  (pc_mysticeti_fastpath pc → Forall (λ b, voted (co_transaction_certifier c) (vb_reference b)) blocks) →
  announces_after clk c blocks → outcome c (add_blocks ctx params fuel clk c blocks).
Proof using All.
  intros Hok HG Hvoted Hann. unfold add_blocks. pose proof (ok_commits _ _ Hok) as Hc.
  destruct (try_accept_blocks_spec ctx G byz (hn_universe _ _ _ Hhonest) (hn_own _ _ _ Hhonest) v (clk_instant clk)
    (co_block_manager c) (co_dag_state c) blocks (dk_node _ _ _ _ _ (cg_dag _ _ _ _ _ Hc)) (cg_manager _ _ _ _ _ Hc) HG)
    as (bm & d & acc & missing & Hrun & Hp & _).
  rewrite Hrun, f_run_bind. pose proof (blocks_core c v _ blocks bm d acc Hok Hp Hvoted) as Hok1.
  assert (Hpass : passed c (set_co_dag_state d (set_co_block_manager bm c))) by (by split).
  case_bool_decide; [by eapply outcome_ok|]. apply (outcome_trans _ _ _ Hpass).
  apply outcome_bind; [by eapply try_commit_core|]. intros c1 v1 sds Hr1 Hok2 _.
  apply outcome_bind; [eapply try_propose_core; [done|]; intros Hs; by eapply Hann|]. intros c2 v2 o _ Hok3 _.
  destruct (round_core c2 v2 Hok3). by eapply outcome_ok.
Qed.

Lemma manager_core c v bm : core_ok c v → bm_inv ctx G v bm (co_dag_state c) →
  bm_suspended_blocks bm = bm_suspended_blocks (co_block_manager c) → core_ok (set_co_block_manager bm c) v.
Proof.
  clear. intros [Hlog Hprops [? ? ? [] ? ? ? ?] Hinc Hcons Hcert Hled] Hbm Hs. split; cbn; [done|done| |done|done| |done..].
  - by split.
  - intros Hf. apply (certifier_frame _ _ _ _ _ _ _ _ _ (Hcert Hf)). by rewrite Hs.
Qed.

Lemma check_block_refs_core c v block_refs : core_ok c v → Forall (λ r, Committee_is_valid_index cm (br_author r)) block_refs →
  outcome c (f_run (check_block_refs ctx c block_refs)).
Proof using Hhonest.
  clear Hgenesis Hcf Hfits Hcodec Hstorable Hsign Hlim Hlaws. intros Hok Hval. pose proof (ok_commits _ _ Hok) as Hc.
  unfold check_block_refs.
  destruct (try_find_blocks_spec ctx G v (co_block_manager c) (co_dag_state c) block_refs (dk_node _ _ _ _ _ (cg_dag _ _ _ _ _ Hc))
    (cg_manager _ _ _ _ _ Hc) Hval) as (bm & miss & -> & Hbm & Hs & _).
  cbn [mbind run_bind]. apply (outcome_ok _ _ v); [by apply manager_core|by split].
Qed.

(** ** Recovery *)

(** A forced proposal is not made only when it is not wanted or exists. *)
Lemma try_propose_none clk c v c' : core_ok c v → (should_propose params c → announces ctx clk G c true) →
  try_propose ctx params fuel clk c true = f_ok (c', None) →
  c' = c ∧ (should_propose params c → ∃ b, last_proposed_block ctx c = Done b ∧ threshold_clock_round (co_dag_state c) ≤ vb_round b).
Proof using All.
  intros Hok Hann. unfold try_propose. destruct (should_propose params c) eqn:Hs; simpl; [|intros [= ->]; by split].
  pose proof (core_proposing c v Hok) as Hn.
  destruct (last_proposed_spec ctx G byz Hhonest genesis Hgenesis c v (cg_dag _ _ _ _ _ (ok_commits _ _ Hok))) as (own_block & Hown & _).
  destruct (try_new_block_spec ctx clk G byz Hhonest genesis Hgenesis Hdepth Hsign Hlim params c v true own_block Hn Hown)
    as (c1 & v1 & o & Hrun & _ & _ & Ho); [eapply clock_bound, Hok|by apply Hann|].
  rewrite Hrun, f_run_bind. destruct o as [eb|].
  - destruct (signal_new_block ctx c1 eb) as [[c2|e]| |]; [|done..]. cbn.
    by destruct (try_commit ctx fuel clk c2 []) as [[[c3 sds]|e]| |].
  - destruct Ho as [Hlast Hle]. intros [= ->]. specialize (Hle I).
    unfold try_new_block in Hrun. rewrite Hown in Hrun. cbn [mbind run_bind] in Hrun. rewrite bool_decide_eq_true_2 in Hrun by done.
    injection Hrun as ->. split; [done|]. intros _. by exists own_block.
Qed.

(** The proposal at recovery is announced. *)
Definition announces_recovered clk c : Prop := ∀ c1 sds,
  try_commit ctx fuel clk c [] = f_ok (c1, sds) → should_propose params c1 → announces ctx clk G c1 true.

Lemma outcome_open {A} c (m : fallible (Core S * A)) : outcome c m → closing c = false →
  ∃ c' v' x, m = f_ok (c', x) ∧ core_ok c' v' ∧ passed c c'.
Proof. clear. intros [?|[? _]] Hc; [done|congruence]. Qed.

(** Committing with no blocks waiting brings no new blocks. *)
Lemma try_commit_open clk c v : core_ok c v → closing c = false → bm_suspended_blocks (co_block_manager c) = ∅ →
  (∀ b, last_proposed_block ctx c = Done b → vb_round b = GENESIS_ROUND) →
  ∃ c' sds, try_commit ctx fuel clk c [] = f_ok (c', sds) ∧ core_ok c' v ∧ passed c c' ∧
    ∀ b, last_proposed_block ctx c' = Done b → vb_round b = GENESIS_ROUND.
Proof using Hhonest Hgenesis Hcf Hfits Hcodec Hstorable Hlaws.
  intros Hok Hcl Hbm Hgen.
  destruct (try_commit_spec ctx clk G byz Hhonest genesis Hgenesis Hcf U fuel Hfits Hcodec Hstorable c v (ok_commits _ _ Hok))
    as [[Hclosed _]|(c' & sds & tn & statuses & Hn & Hr & Hc' & Ha)].
  { unfold closing in Hcl. by rewrite Hclosed in Hcl. }
  pose proof (notify_consumer_ok (co_transaction_consumer c)
    (vb_reference <$> filter (λ b, vb_author b = ctx_own_index ctx) (sds ≫= sd_blocks)) (gc_round ctx (co_dag_state c'))
    (ok_consumer _ _ Hok)) as Htn. rewrite Hn in Htn.
  destruct (advanced_core c v sds c' tn (co_outputs c' ++ [OwnBlocksStatus statuses]) Hok Hc' Ha Htn) as [Hok' Hp];
    [by rewrite proposals_app, app_nil_r|]. eexists _, sds. split; [done|]. split; [done|]. split; [done|]. intros b Hb.
  change (last_proposed_block ctx c' = Done b) in Hb.
  destruct (last_proposed_spec ctx G byz Hhonest genesis Hgenesis c' v (cg_dag _ _ _ _ _ Hc')) as (b' & Hb' & Hau & Hlk & _).
  assert (b' = b) as -> by congruence.
  destruct (last_proposed_spec ctx G byz Hhonest genesis Hgenesis c v (cg_dag _ _ _ _ _ (ok_commits _ _ Hok))) as (b0 & Hb0 & _ & _ & Hmax).
  destruct (ad_origin _ _ _ _ _ _ _ Ha (vb_reference b)) as [Hk|Hk]; [by eexists| |].
  - specialize (Hmax _ Hk Hau). rewrite (Hgen b0 Hb0) in Hmax. simpl in Hmax. unfold GENESIS_ROUND in *. lia.
  - rewrite Hbm, lookup_empty in Hk. by destruct Hk.
Qed.

(** A core that has not proposed and has no blocks waiting. *)
Lemma core_recover_ok clk c v : core_ok c v → closing c = false → announces_recovered clk c →
  bm_suspended_blocks (co_block_manager c) = ∅ → (∀ b, last_proposed_block ctx c = Done b → vb_round b = GENESIS_ROUND) →
  ∃ c' v', Core_recover ctx params fuel clk c = Done c' ∧ core_ok c' v' ∧ passed c c'.
Proof using All.
  intros Hok Hcl Hann Hbm Hgen. unfold Core_recover.
  destruct (try_commit_open clk c v Hok Hcl Hbm Hgen) as (c1 & sds & Hr1 & Hok1 & Hp1 & Hgen1). pose (v1 := v).
  rewrite Hr1. cbn [unwrap_result f_ok mbind run_bind]. specialize (Hann c1 sds Hr1).
  assert (Hcl1 : closing c1 = false) by (by rewrite (pa_closing _ _ Hp1)).
  destruct (outcome_open _ _ (try_propose_core clk c1 v1 true Hok1 Hann) Hcl1) as (c2 & v2 & o & Hr2 & Hok2 & Hp2).
  rewrite Hr2. cbn [unwrap_result f_ok mbind run_bind]. assert (Hp : passed c c2) by (by eapply passed_trans).
  destruct o as [b|]; cbn [mbind run_bind].
  { destruct (round_core c2 v2 Hok2) as [Hok3 Hp3]. exists (try_signal_new_round c2), v2. split; [done|]. split; [done|]. by eapply passed_trans. }
  destruct (try_propose_none clk c1 v1 c2 Hok1 Hann Hr2) as [-> Hlast].
  destruct (last_proposed_spec ctx G byz Hhonest genesis Hgenesis c1 v1 (cg_dag _ _ _ _ _ (ok_commits _ _ Hok1))) as (b & Hb & _).
  rewrite Hb. cbn [mbind run_bind].
  assert (Hassert : negb (should_propose params c1) || bool_decide (GENESIS_ROUND < vb_round b) = true).
  { destruct (should_propose params c1); [|done]. simpl. apply bool_decide_eq_true_2.
    destruct (Hlast I) as (b' & Hb' & Hle). assert (b' = b) as -> by congruence.
    pose proof (ck_pos _ _ _ (dk_clock _ _ _ _ _ (cg_dag _ _ _ _ _ (ok_commits _ _ Hok1)))) as Hpos.
    unfold threshold_clock_round, ThresholdClock_get_round in Hle. unfold GENESIS_ROUND. lia. }
  rewrite Hassert. clear Hassert. cbn [mbind run_bind].
  assert (signal_new_block ctx c1 (mk_extended b []) = f_ok c1) as ->.
  { unfold signal_new_block. destruct (bool_decide (1 < _)%nat); [|done].
    rewrite (bool_decide_eq_true_2 (vb_round _ = GENESIS_ROUND)); [done|]. by apply Hgen1. }
  cbn [unwrap_result f_ok mbind run_bind]. destruct (round_core c1 v1 Hok1) as [Hok5 Hp5]. exists (try_signal_new_round c1), v1.
  split; [done|]. split; [done|]. by eapply passed_trans.
Qed.
End node.
