(* ===== verification/CoreRun.v ===== *)
(** * Runs of the core thread

    The core thread together with what the other tasks do to the state they
    share with it, as a machine of events in any order. In every state that is
    reached from a new core, no event panics, and the task ends only when its
    channel is closed or a receiver of its outputs has gone away. *)
From S2P Require Import Prelude Committee StakeAggregator Block ThresholdClock Commit LeaderScoring Store DagState DagStateProofs DagTraversal LeaderSchedule BaseCommitter CommitRule BlockVerifier TransactionConsumer DagViews BlockManager BlockManagerProofs BlockManagerSafety ManagedNode Linearizer CommitObserver LinearizerProofs CommitSafety UniversalCommitter QuorumRounds Ancestor TransactionCertifier CertifierProofs CommitFinalizer Core CoreThread AuthorityService AuthorityNode CoreState Ledger CoreProposal CoreProposer CoreCommit CoreNode.

(** The shared parts that other tasks change. *)
Inductive SharedEvent :=
| Submitted (included_in_block_ack : N) (transactions : list bytes)
| Voted (voted_blocks : list (VerifiedBlock * list TransactionIndex))
| Proposed (block : VerifiedBlock)
| Collected (gc_round : Round)
| Tracked (extended_block : ExtendedBlock)
| Probed (accepted_rounds received_rounds : list (list Round))
| FinalizerGone
| BroadcastGone.

Inductive ThreadEvent :=
| DispatchBlocks (blocks : list VerifiedBlock) (sender : N)
| DispatchRefs (block_refs : list BlockRef) (sender : N)
| DispatchNewBlock (round : Round) (force : bool) (sender : N)
| DispatchGetMissing (sender : N)
| DispatchSubscriber (exists_ : bool)
| DispatchDelay (delay : Round)
| DispatchLastKnown (round : Round)
| Stop
| Shared (ev : SharedEvent)
| Turn (clk : CoreClock) (branch : SelectBranch).

Section machine.
Context {S : Type} `{Store S} `{CommitCodec} `{BlockCodec} `{Crypto} `{BlockSigner} `{Rng}.
Context (ctx : Context) (params : Parameters) (fuel : nat).
Implicit Types (c : Core S) (t : CoreThread S).

Definition with_certifier c (r : run (CertifierState * list (list CertifiedBlock))) : run (Core S) :=
  '(st, sent) ← r;
  Done (set_co_outputs (co_outputs c ++ (CertifiedBlocks <$> sent)) (set_co_transaction_certifier st c)).

Definition run_shared c (ev : SharedEvent) : run (Core S) :=
  match ev with
  | Submitted ack transactions =>
      match submit_no_wait (TransactionClient_new ctx) ack transactions with
      | inl _ => Done c
      | inr guard => Done (set_co_transaction_consumer (send_guard (co_transaction_consumer c) guard) c)
      end
  | Voted voted_blocks => with_certifier c (TransactionCertifier_add_voted_blocks ctx (co_transaction_certifier c) voted_blocks)
  | Proposed block => with_certifier c (TransactionCertifier_add_proposed_block ctx (co_transaction_certifier c) block)
  | Collected gc_round =>
      st ← run_gc ctx (co_dag_state c) (co_transaction_certifier c) gc_round;
      Done (set_co_transaction_certifier st c)
  | Tracked extended_block =>
      tracker ← update_from_accepted_block (co_round_tracker c) extended_block;
      Done (set_co_round_tracker tracker c)
  | Probed accepted_rounds received_rounds =>
      Done (set_co_round_tracker (update_from_probe (co_round_tracker c) accepted_rounds received_rounds) c)
  | FinalizerGone =>
      Done (set_co_commit_finalizer_handle (mk_handle (cfh_sent (co_commit_finalizer_handle c)) true) c)
  | BroadcastGone => Done (set_co_broadcast_closed true c)
  end.

Definition run_thread t (ev : ThreadEvent) : run (CoreThread S) :=
  match ev with
  | DispatchBlocks blocks sender => dispatch_add_blocks t blocks sender
  | DispatchRefs block_refs sender => Done (dispatch_check_block_refs t block_refs sender)
  | DispatchNewBlock round force sender => Done (dispatch_new_block t round force sender)
  | DispatchGetMissing sender => Done (dispatch_get_missing_blocks t sender)
  | DispatchSubscriber exists_ => Done (dispatch_subscriber_exists t exists_)
  | DispatchDelay delay => Done (dispatch_propagation_delay t delay)
  | DispatchLastKnown round => Done (dispatch_last_known_proposed_round t round)
  | Stop => Done (CoreThreadHandle_stop t)
  | Shared ev => c ← run_shared (ct_core t) ev; Done (set_ct_core c t)
  | Turn clk branch => run_turn ctx params fuel clk t branch
  end.
End machine.

Section runs.
Context {S : Type} `{StoreLaws S} `{BlockCodec} `{CommitCodec} `{Crypto} `{BlockSigner} `{Hlaws : RngLaws} `{TransactionVerifier}.
Context (ctx : Context) (params : Parameters) (fuel : nat).
Context (G : BlockRef → option VerifiedBlock) (byz : gset AuthorityIndex) (Hhonest : honest_node (S := S) ctx G byz).
Context (genesis : list VerifiedBlock) (Hgenesis : genesis_blocks ctx = Done genesis) (Hcf : config_ok ctx).
Context (U : gset BlockRef) (Hfits : universe_fits G genesis U fuel).
Context (Hcodec : ∀ c, is_Some (bcs_commit_to_bytes c)).
Context (Hstorable : ∀ c bytes, bcs_commit_to_bytes c = Some bytes → st_commit_ok (TrustedCommit_new_trusted c bytes)).
Context (Hsign : signing_ok ctx) (Hlim : limits_ok ctx).
Implicit Types (d : DagState S) (v : StoreView) (c : Core S) (t : CoreThread S).
Abbreviation cm := (ctx_committee ctx).
Abbreviation pc := (ctx_protocol_config ctx).
Abbreviation core_ok := (core_ok ctx fuel G genesis).
Abbreviation valid := (Committee_is_valid_index cm).
Abbreviation outcome := (outcome ctx fuel G genesis).

(** ** What may happen when *)

(** Blocks come from the network, where honest authorities do not equivocate,
    and with the fast path the certifier has seen their votes first. *)
Definition blocks_enabled c (blocks : list VerifiedBlock) : Prop :=
  from_universe G blocks ∧
  (pc_mysticeti_fastpath pc → Forall (λ b, voted (co_transaction_certifier c) (vb_reference b)) blocks).

Definition command_ok c (command : CoreThreadCommand) : Prop :=
  match command with
  | AddBlocks blocks _ => blocks_enabled c blocks
  | CheckBlockRefs block_refs _ => Forall (λ r, valid (br_author r)) block_refs
  | AddCertifiedCommits _ _ => False
  | NewBlock _ _ _ | GetMissing _ => True
  end.

Definition shared_enabled c (ev : SharedEvent) : Prop :=
  match ev with
  | Voted voted_blocks => pc_mysticeti_fastpath pc ∧ ∀ p, p ∈ voted_blocks → G (vb_reference p.1) = Some p.1
  | Proposed block => pc_mysticeti_fastpath pc ∧ voted (co_transaction_certifier c) (vb_reference block)
  | Collected gc => gc ≤ gc_round ctx (co_dag_state c) ∧ cs_gc_round (co_transaction_certifier c) ≤ gc
  | Tracked eb => valid (vb_author (eb_block eb)) ∧
      Forall (λ r, valid (br_author r)) (vb_ancestors (eb_block eb) ++ eb_excluded_ancestors eb)
  | Probed accepted_rounds received_rounds => square cm accepted_rounds ∧ square cm received_rounds
  | Submitted _ _ | FinalizerGone | BroadcastGone => True
  end.

(** The universe has what the node proposes in the turn. *)
Definition turn_announces clk t (branch : SelectBranch) : Prop :=
  let c := ct_core t in
  let announces' c force := should_propose params c → announces ctx clk G c force in
  match branch with
  | BCommand =>
      match ct_receiver t with
      | AddBlocks blocks _ :: _ => announces_after ctx params fuel G clk c blocks
      | NewBlock _ _ force :: _ => announces' c force
      | _ => True
      end
  | BLastKnownProposedRound => announces' (set_co_last_known_proposed_round (Some (w_value (ct_rx_last_known_proposed_round t))) c) true
  | BSubscriberExists => announces' (set_subscriber_exists c (w_value (ct_rx_subscriber_exists t))) true
  | BPropagationDelay => announces' (set_propagation_delay c (w_value (ct_rx_propagation_delay t))) true
  end.

Definition thread_enabled t (ev : ThreadEvent) : Prop :=
  match ev with
  | DispatchBlocks blocks _ => blocks_enabled (ct_core t) blocks
  | DispatchRefs block_refs _ => Forall (λ r, valid (br_author r)) block_refs
  | DispatchLastKnown _ => co_last_known_proposed_round (ct_core t) = None
  | Shared ev => shared_enabled (ct_core t) ev
  | Turn clk branch => branch_ready t branch = true ∧ turn_announces clk t branch
  | DispatchNewBlock _ _ _ | DispatchGetMissing _ | DispatchSubscriber _ | DispatchDelay _ | Stop => True
  end.

(** ** The invariant *)

(** Missing blocks are of authorities of the committee. *)
Definition reply_ok (reply : N * CoreReply) : Prop :=
  match reply.2 with
  | MissingRefs missing_block_refs => ∀ r, r ∈ missing_block_refs → valid (br_author r)
  | BlockTried => True
  end.

Record thread_ok t : Prop := {
  th_core : ∃ v, core_ok (ct_core t) v;
  th_queue : Forall (command_ok (ct_core t)) (ct_receiver t);
  th_last_known : w_changed (ct_rx_last_known_proposed_round t) → co_last_known_proposed_round (ct_core t) = None;
  th_gc : cs_gc_round (co_transaction_certifier (ct_core t)) + 2 < u32_max;
  th_rounds : length (ct_highest_received_rounds t) = Committee_size cm;
  th_replies : Forall reply_ok (ct_replies t);
}.

(** What tasks that wait for the core rely on. *)
Record thread_kept t t' : Prop := {
  tk_voted r : voted (co_transaction_certifier (ct_core t)) r → voted (co_transaction_certifier (ct_core t')) r;
  tk_last_known : w_changed (ct_rx_last_known_proposed_round t) = false →
    co_last_known_proposed_round (ct_core t') = co_last_known_proposed_round (ct_core t) ∧
    w_changed (ct_rx_last_known_proposed_round t') = false;
}.

Lemma command_later c c' command : (∀ r, voted (co_transaction_certifier c) r → voted (co_transaction_certifier c') r) →
  command_ok c command → command_ok c' command.
Proof.
  clear. intros Hv. destruct command; simpl; try done. intros [HG Hvt]. split; [done|]. intros Hf.
  eapply Forall_impl; [exact (Hvt Hf)|]. intros b. apply Hv.
Qed.

Lemma queue_later c c' l : (∀ r, voted (co_transaction_certifier c) r → voted (co_transaction_certifier c') r) →
  Forall (command_ok c) l → Forall (command_ok c') l.
Proof. clear. intros Hv Hl. eapply Forall_impl; [exact Hl|]. intros command. by apply command_later. Qed.

(** ** Shared state *)

Lemma certifier_core c v st : core_ok c v →
  (∀ r, voted (co_transaction_certifier c) r → voted st r) → (pc_mysticeti_fastpath pc → ∃ outs, good ctx G st outs) →
  core_ok (set_co_transaction_certifier st c) v.
Proof.
  clear. intros [Hlog Hprops [? ? ? [] ? ? ? ?] Hinc Hcons Hcert Hled] Hv Hg. split; cbn; [done|done|by split|done|done| |done..].
  intros Hf. destruct (Hcert Hf) as [Hk _]. split; [|by apply Hg]. intros r Hr. by apply Hv, Hk.
Qed.

(** With what it certified sent. *)
Lemma certified_core c v st (sent : list (list CertifiedBlock)) : core_ok c v →
  (∀ r, voted (co_transaction_certifier c) r → voted st r) → (pc_mysticeti_fastpath pc → ∃ outs, good ctx G st outs) →
  core_ok (set_co_outputs (co_outputs c ++ (CertifiedBlocks <$> sent)) (set_co_transaction_certifier st c)) v.
Proof.
  clear. intros Hok Hv Hg. apply (core_ok_frame ctx fuel G genesis (set_co_transaction_certifier st c)); try done; [by apply certifier_core|apply Hok|].
  apply proposals_certified.
Qed.

Lemma tracker_core c v tracker : core_ok c v → tracker_ok ctx tracker → core_ok (set_co_round_tracker tracker c) v.
Proof. clear. intros [Hlog Hprops [? ? ? [] ? ? ? ?] Hinc Hcons Hcert Hled] Ht. split; cbn; [done|done|by split|done..]. Qed.

Lemma consumer_core c v tn : core_ok c v → consumer_ok ctx tn → core_ok (set_co_transaction_consumer tn c) v.
Proof. clear. intros Hok Htn. by apply (core_ok_frame ctx fuel G genesis c). Qed.

Lemma gc_bound d v : dag_ok ctx G genesis d v → gc_round ctx d + 2 < u32_max.
Proof using Hhonest Hfits Hcf.
  intros Hok. pose proof (clock_bound ctx fuel G byz Hhonest genesis U Hfits d v Hok) as Hb.
  pose proof (dk_last _ _ _ _ _ Hok) as Hl. pose proof (cf_depth _ Hcf) as Hd.
  unfold threshold_clock_round, ThresholdClock_get_round in *.
  unfold gc_round, calculate_gc_round, saturating_sub, u32_max in *. lia.
Qed.

Lemma proposed_total st outs b : good ctx G st outs → cs_gc_round st + 2 < u32_max → voted st (vb_reference b) →
  ∃ st' sent, TransactionCertifier_add_proposed_block ctx st b = Done (st', sent) ∧ (∃ outs', good ctx G st' outs') ∧ gains st st'.
Proof using Hhonest.
  clear Hgenesis Hcf Hfits Hcodec Hstorable Hsign Hlaws Hlim. intros Hg Hmax Hv.
  destruct (decide (vb_round b ≤ cs_gc_round st + 2)) as [Hle|Hgt].
  - unfold TransactionCertifier_add_proposed_block, CertifierState_add_proposed_block.
    rewrite u32_add_small by lia. rewrite bool_decide_eq_true_2 by done. cbn. eexists _, _. split; [done|]. split; [by eauto|]. by split.
  - destruct (add_proposed_good ctx G byz (hn_universe _ _ _ Hhonest) st outs b Hg) as (st' & sent & Hrun & Hg' & Hl).
    { apply Hv. simpl. lia. }
    eexists _, _. split; [done|]. split; [by eauto|]. by apply later_gains.
Qed.

Lemma collected_total st gc : cs_gc_round st ≤ gc → ∃ st', update_gc_round st gc = Done st' ∧ cs_gc_round st' = gc ∧
  (∀ r, voted st r → voted st' r) ∧ ∀ outs, good ctx G st outs → good ctx G st' outs.
Proof.
  clear. intros Hle. unfold update_gc_round at 1.
  destruct (gc_votes_spec (size (cs_votes st)) gc (cs_votes st)) as (votes & Hrun & Hl); [done|]. rewrite Hrun. cbn.
  eexists. split; [done|]. split; [done|]. split.
  - intros r Hr Hgc. cbn in *. rewrite Hl, bool_decide_eq_false_2 by lia. apply Hr. lia.
  - intros outs Hg. destruct (update_gc_round_spec ctx G st outs gc Hg Hle) as (st' & Hrun' & Hg' & _).
    unfold update_gc_round in Hrun'. rewrite Hrun in Hrun'. cbn in Hrun'. by injection Hrun' as <-.
Qed.

(** What other tasks change keeps the core in order. *)
Lemma shared_spec c v ev : core_ok c v → cs_gc_round (co_transaction_certifier c) + 2 < u32_max → shared_enabled c ev →
  ∃ c', run_shared ctx c ev = Done c' ∧ core_ok c' v ∧ co_last_known_proposed_round c' = co_last_known_proposed_round c ∧
    cs_gc_round (co_transaction_certifier c') + 2 < u32_max ∧
    ∀ r, voted (co_transaction_certifier c) r → voted (co_transaction_certifier c') r.
Proof using Hhonest Hlim Hfits Hcf.
  clear Hgenesis Hcodec Hstorable Hsign Hlaws.
  intros Hok Hgc Hen. pose proof (hn_universe _ _ _ Hhonest) as HU. destruct ev; simpl in *.
  - destruct (submit_no_wait _ _ _) as [e|guard] eqn:Hsub; [by exists c|]. eexists. split; [done|]. split; [|done].
    apply consumer_core; [done|]. destruct (ok_consumer _ _ _ _ _ _ Hok) as [Hl Hf]. split; [done|].
    unfold waiting in *. cbn. rewrite app_assoc. apply Forall_app. split; [done|].
    apply Forall_singleton. by destruct (submitted_fits ctx Hlim _ _ _ Hsub) as (? & ? & _).
  - destruct Hen as [Hfast Hv]. destruct (ok_certifier _ _ _ _ _ _ Hok Hfast) as [Hk (outs & Hg)].
    destruct (add_voted_good ctx G byz HU _ outs _ Hg Hv) as (st & sent & -> & Hg' & Hlater%later_gains). cbn.
    assert (Hvt : ∀ r, voted (co_transaction_certifier c) r → voted st r) by (intros r; by apply gains_voted).
    eexists. split; [done|]. split; [apply certified_core; eauto|]. split; [done|]. split; [|done].
    cbn. by rewrite (proj1 Hlater).
  - destruct Hen as [Hfast Hv]. destruct (ok_certifier _ _ _ _ _ _ Hok Hfast) as [Hk (outs & Hg)].
    destruct (proposed_total _ outs block Hg Hgc Hv) as (st & sent & -> & Hg' & Hgain). cbn.
    assert (Hvt : ∀ r, voted (co_transaction_certifier c) r → voted st r) by (intros r; by apply gains_voted).
    eexists. split; [done|]. split; [apply certified_core; eauto|]. split; [done|]. split; [|done].
    cbn. by rewrite (proj1 Hgain).
  - destruct Hen as [Hdag Hle]. unfold run_gc. rewrite bool_decide_eq_true_2 by done. cbn [mbind run_bind].
    destruct (collected_total _ gc_round Hle) as (st & -> & Hst & Hvt & Hg). cbn [mbind run_bind].
    eexists. split; [done|]. split; [|split; [done|]; split; [|done]].
    + apply certifier_core; [done..|]. intros Hf. destruct (ok_certifier _ _ _ _ _ _ Hok Hf) as [_ (outs & Hgo)]. eauto.
    + cbn. rewrite Hst. pose proof (gc_bound _ v (cg_dag _ _ _ _ _ (ok_commits _ _ _ _ _ _ Hok))). lia.
  - destruct Hen as [Ha Hf]. pose proof (pe_tracker _ _ (cg_peers _ _ _ _ _ (ok_commits _ _ _ _ _ _ Hok))) as Ht.
    destruct (update_from_accepted_block_ok ctx _ extended_block Ht Ha) as (tracker & -> & Ht').
    { eapply Forall_impl; [exact Hf|]. intros r. apply valid_lt. }
    cbn. eexists. split; [done|]. split; [by apply tracker_core|done].
  - destruct Hen as [Hacc Hrec]. eexists. split; [done|]. split; [|done]. apply tracker_core; [done|].
    destruct (pe_tracker _ _ (cg_peers _ _ _ _ _ (ok_commits _ _ _ _ _ _ Hok))) as [Hb _ _]. by split.
  - eexists. split; [done|]. split; [|done]. apply (core_ok_frame ctx fuel G genesis c); try done. apply Hok.
  - eexists. split; [done|]. split; [|done]. apply (core_ok_frame ctx fuel G genesis c); try done. apply Hok.
Qed.

(** ** Turns of the loop *)

Lemma answer_outcome {A B} c (m : fallible (Core S * A)) (f : A → B) : outcome c m →
  outcome c ('(c, x) ← m; f_ok (c, f x)).
Proof. clear. intros Hm. apply outcome_bind; [done|]. intros c' v x _ Hok _. eapply outcome_ok; [done|apply passed_refl]. Qed.

Lemma handle_command_core clk c v command : core_ok c v → command_ok c command →
  turn_announces clk (mk_thread c [command] (mk_watch false false) (mk_watch 0 false) (mk_watch 0 false) true true [] []) BCommand →
  outcome c (handle_command ctx params fuel clk c command).
Proof using All.
  intros Hok Hcmd Hann. destruct command as [blocks sender|block_refs sender|commits sender|round sender force|sender]; simpl in *.
  - destruct Hcmd as [HG Hv]. apply (answer_outcome c _ (λ x, (sender, MissingRefs x))).
    by eapply (add_blocks_core ctx params fuel G byz Hhonest genesis Hgenesis Hcf U Hfits Hcodec Hstorable Hsign Hlim).
  - apply (answer_outcome c _ (λ x, (sender, MissingRefs x))). by eapply (check_block_refs_core ctx fuel G byz Hhonest genesis).
  - done.
  - apply (answer_outcome c _ (λ _, (sender, BlockTried))).
    by eapply (new_block_core ctx params fuel G byz Hhonest genesis Hgenesis Hcf U Hfits Hcodec Hstorable Hsign Hlim).
  - eapply outcome_ok; [done|apply passed_refl].
Qed.

(** What a command answers is in order. *)
Lemma handle_command_reply clk c v command c' reply : core_ok c v → command_ok c command →
  handle_command ctx params fuel clk c command = f_ok (c', reply) → reply_ok reply.
Proof using Hhonest.
  clear Hgenesis Hcf Hfits Hcodec Hstorable Hsign Hlim Hlaws. intros Hok Hcmd Hrun. pose proof (ok_commits _ _ _ _ _ _ Hok) as Hc.
  assert (Hkeys : ∀ bm d v', bm_inv ctx G v' bm d → ∀ r, r ∈ bm_missing_blocks bm → valid (br_author r)).
  { intros bm d v' Hi r Hr. pose proof (missing_is_key ctx G v' bm d r Hi Hr) as Hk. by apply (ci_keys _ _ _ _ _ _ _ _ _ (bi_inv _ _ _ _ _ Hi)) in Hk as [? _]. }
  destruct command as [blocks sender|block_refs sender|commits sender|round sender force|sender]; cbn [handle_command] in Hrun; [| |done| |].
  - destruct Hcmd as [HG _]. unfold add_blocks in Hrun.
    destruct (try_accept_blocks_spec ctx G byz (hn_universe _ _ _ Hhonest) (hn_own _ _ _ Hhonest) v (clk_instant clk)
      (co_block_manager c) (co_dag_state c) blocks (dk_node _ _ _ _ _ (cg_dag _ _ _ _ _ Hc)) (cg_manager _ _ _ _ _ Hc) HG)
      as (bm & d & acc & missing & Hacc & Hp & Hmiss).
    rewrite Hacc, f_run_bind in Hrun. apply f_bind_ok in Hrun as ([c1 m] & Hrun & [= <- <-]). cbn.
    assert (m = missing) as ->.
    { case_bool_decide; [by injection Hrun|]. apply f_bind_ok in Hrun as ([c2 sds] & _ & Hrun). apply f_bind_ok in Hrun as ([c3 o] & _ & Hrun).
      by injection Hrun. }
    intros r Hr. eapply Hkeys; [apply Hp|by apply Hmiss].
  - destruct (check_block_refs ctx c block_refs) as [[c1 m]| |] eqn:Hchk; [|done..]. rewrite f_run_bind in Hrun. injection Hrun as <- <-. cbn.
    unfold check_block_refs in Hchk. apply bind_Done in Hchk as ([bm miss] & Hfind & [= <- <-]).
    destruct (try_find_blocks_spec ctx G v (co_block_manager c) (co_dag_state c) block_refs (dk_node _ _ _ _ _ (cg_dag _ _ _ _ _ Hc))
      (cg_manager _ _ _ _ _ Hc) Hcmd) as (bm' & miss' & Hfind' & _ & _ & Hm & _).
    rewrite Hfind in Hfind'. injection Hfind' as <- <-. intros r Hr. apply Hm in Hr as [Hr _]. cbn in Hcmd. rewrite Forall_forall in Hcmd. by apply Hcmd.
  - apply f_bind_ok in Hrun as ([c1 o] & _ & [= <- <-]). done.
  - injection Hrun as <- <-. cbn. apply (Hkeys _ _ v (cg_manager _ _ _ _ _ Hc)).
Qed.

Lemma core_ok_flags c v c' : core_ok c v →
  c' = set_co_last_known_proposed_round (co_last_known_proposed_round c') (set_co_subscriber_exists (co_subscriber_exists c')
         (set_co_propagation_delay (co_propagation_delay c') c)) → core_ok c' v.
Proof. clear. intros Hok ->. apply (core_ok_frame ctx fuel G genesis c); try done. apply Hok. Qed.

Lemma propose_if_enabled_core clk c v c' : core_ok c' v → passed c c' → (should_propose params c' → announces ctx clk G c' true) →
  outcome c (propose_if_enabled ctx params fuel clk c c').
Proof using All.
  intros Hok Hp Hann. unfold propose_if_enabled. destruct (negb _ && _); [|by eapply outcome_ok].
  apply (outcome_trans ctx fuel G genesis c c'); [done|].
  by eapply (new_block_core ctx params fuel G byz Hhonest genesis Hgenesis Hcf U Hfits Hcodec Hstorable Hsign Hlim).
Qed.

(** Whatever the operation on the core returns, the thread goes on or ends. *)
Lemma finish_turn_ok {A} t c (m : fallible (Core S * A)) answer : thread_ok t → outcome c m →
  closing c = closing (ct_core t) → co_transaction_certifier c = co_transaction_certifier (ct_core t) →
  (w_changed (ct_rx_last_known_proposed_round t) → co_last_known_proposed_round c = None) →
  (∀ c' x, m = f_ok (c', x) → Forall reply_ok (answer x)) →
  ∃ t', finish_turn t m answer = Done t' ∧ thread_ok t' ∧ (ct_running t' = ct_running t ∨ closing (ct_core t) = true) ∧
    (∀ r, voted (co_transaction_certifier (ct_core t)) r → voted (co_transaction_certifier (ct_core t')) r) ∧
    (co_last_known_proposed_round (ct_core t') = co_last_known_proposed_round c ∨ ct_core t' = ct_core t) ∧
    ct_rx_last_known_proposed_round t' = ct_rx_last_known_proposed_round t.
Proof.
  clear. intros [[v Hok] Hq Hlk Hgc Hr Hrep] [(c' & v' & x & -> & Hok' & [Hcl Hkn Hg])|[Hcl ->]] Hc Hst Hlk' Hans.
  - assert (Hvt : ∀ r, voted (co_transaction_certifier (ct_core t)) r → voted (co_transaction_certifier c') r)
      by (rewrite Hst in Hg; intros r; by apply gains_voted).
    eexists. split; [done|]. split; [|split; [by left|by auto]]. rewrite Hst in Hg. split; cbn; [by eauto|by eapply queue_later| | |done|].
    + intros Hw. rewrite Hkn. by apply Hlk'.
    + by rewrite (proj1 Hg).
    + apply Forall_app. split; [done|]. by eapply Hans.
  - eexists. split; [done|]. split; [by split; [eauto|..]|]. split; [right; congruence|]. split; [done|]. split; [by right|done].
Qed.

Lemma turn_ok clk t branch : thread_ok t → branch_ready t branch = true → turn_announces clk t branch →
  ∃ t', run_turn ctx params fuel clk t branch = Done t' ∧ thread_ok t' ∧
    (ct_running t' = true ∨ closing (ct_core t) = true ∨ ct_handle t = false ∧ ct_receiver t = []) ∧ thread_kept t t'.
Proof using All.
  intros Hth Hready Hann. pose proof Hth as [[v Hok] Hq Hlk Hgc Hr Hrep].
  unfold branch_ready in Hready. apply andb_true_iff in Hready as [Hrun Hready].
  assert (Hfin : ∀ (m : run (CoreThread S)) c rx, (∃ t', m = Done t' ∧ thread_ok t' ∧ (ct_running t' = ct_running t ∨ closing (ct_core t) = true) ∧
      (∀ r, voted (co_transaction_certifier (ct_core t)) r → voted (co_transaction_certifier (ct_core t')) r) ∧
      (co_last_known_proposed_round (ct_core t') = co_last_known_proposed_round c ∨ ct_core t' = ct_core t) ∧ ct_rx_last_known_proposed_round t' = rx) →
    (w_changed (ct_rx_last_known_proposed_round t) = false →
      co_last_known_proposed_round c = co_last_known_proposed_round (ct_core t) ∧ w_changed rx = false) →
    ∃ t', m = Done t' ∧ thread_ok t' ∧ (ct_running t' = true ∨ closing (ct_core t) = true ∨ ct_handle t = false ∧ ct_receiver t = []) ∧ thread_kept t t').
  { intros m c rx (t' & Hm & Ht' & Hs & Hv & Hk & Hrx) Hw. exists t'. split; [done|]. split; [done|].
    split; [destruct Hs; [left; congruence|by right; left]|]. split; [done|]. intros Hf. destruct (Hw Hf) as [Hc Hx]. rewrite Hrx.
    split; [|done]. destruct Hk as [Hk| ->]; congruence. }
  destruct branch; simpl in *.
  - destruct (ct_receiver t) as [|command queue] eqn:Hrec.
    { eexists. split; [done|]. split; [split; cbn; rewrite ?Hrec; eauto|]. split; [|by split]. right; right. rewrite bool_decide_eq_true_2 in Hready by done.
      rewrite orb_false_r in Hready. by apply negb_true_iff in Hready. }
    apply Forall_cons in Hq as [Hcmd Hq]. eapply Hfin; [apply (finish_turn_ok (set_ct_receiver queue t) (ct_core t)); try done|done].
    + by split; [eauto|..].
    + eapply handle_command_core; [done..|]. exact Hann.
    + intros c' x Hrun'. apply Forall_singleton. by eapply handle_command_reply.
  - specialize (Hlk ltac:(by rewrite Hready)). eapply Hfin; [|by rewrite Hready].
    apply (finish_turn_ok (set_ct_rx_last_known_proposed_round (watch_seen (ct_rx_last_known_proposed_round t)) t)
      (set_co_last_known_proposed_round (Some (w_value (ct_rx_last_known_proposed_round t))) (ct_core t))); try done.
    + by split; [eauto|..].
    + unfold handle_last_known_proposed_round, set_last_known_proposed_round. rewrite bool_decide_eq_true_2 by done.
      cbn [mbind run_bind]. rewrite f_run_bind.
      eapply (new_block_core ctx params fuel G byz Hhonest genesis Hgenesis Hcf U Hfits Hcodec Hstorable Hsign Hlim); [|done].
      by apply (core_ok_flags (ct_core t) v).
  - eapply Hfin; [apply (finish_turn_ok (set_ct_rx_subscriber_exists (watch_seen (ct_rx_subscriber_exists t)) t) (ct_core t)); try done|done].
    + by split; [eauto|..].
    + apply propose_if_enabled_core with v; [by apply (core_ok_flags (ct_core t) v)|by split|done].
  - eapply Hfin; [apply (finish_turn_ok (set_ct_rx_propagation_delay (watch_seen (ct_rx_propagation_delay t)) t) (ct_core t)); try done|done].
    + by split; [eauto|..].
    + apply propose_if_enabled_core with v; [by apply (core_ok_flags (ct_core t) v)|by split|done].
Qed.

(** ** Steps *)

(** A new core that keeps what commands rely on. *)
Lemma thread_core_ok t c v : thread_ok t → core_ok c v →
  co_last_known_proposed_round c = co_last_known_proposed_round (ct_core t) →
  cs_gc_round (co_transaction_certifier c) + 2 < u32_max →
  (∀ r, voted (co_transaction_certifier (ct_core t)) r → voted (co_transaction_certifier c) r) → thread_ok (set_ct_core c t).
Proof.
  clear. intros [_ Hq Hlk Hgc Hr Hrep] Hok Hk Hgc' Hv. split; cbn; [by eauto|by eapply queue_later|by rewrite Hk|done|done|done].
Qed.

Lemma raise_highest_total rounds blocks : length rounds = Committee_size cm → from_universe G blocks →
  ∃ rounds', raise_highest rounds blocks = Done rounds' ∧ length rounds' = Committee_size cm.
Proof using Hhonest.
  clear Hgenesis Hcf Hfits Hcodec Hstorable Hsign Hlaws Hlim. intros Hlen HG.
  apply (for_each_total (λ rounds, length rounds = Committee_size cm)); [done|]. intros l b Hb Hl.
  assert (Hv : valid (vb_author b)).
  { pose proof (proj1 (Forall_forall _ _) HG b Hb) as [HGb _]. apply (wf_author _ _ (u_wf _ _ _ (hn_universe _ _ _ Hhonest) _ _ HGb)). }
  apply valid_lt in Hv. destruct (lookup_lt_is_Some_2 l (vb_author b)) as [r Hr]; [lia|]. rewrite Hr. cbn.
  eexists. split; [done|]. by rewrite length_insert.
Qed.

Lemma send_ok t command : thread_ok t → command_ok (ct_core t) command → thread_ok (send_command t command).
Proof.
  clear. intros Ht Hc. unfold send_command. destruct (_ && _); [|done]. destruct Ht as [Hok Hq Hlk Hgc Hr].
  split; cbn; try done. apply Forall_app. split; [done|]. by apply Forall_singleton.
Qed.

(** The loop of the thread ends for a reason. *)
Definition may_end t : Prop := closing (ct_core t) = true ∨ ct_handle t = false ∧ ct_receiver t = [].

Lemma step_ok t ev : thread_ok t → thread_enabled t ev → ∃ t', run_thread ctx params fuel t ev = Done t' ∧ thread_ok t' ∧
  (ct_running t = true → ct_running t' = true ∨ may_end t) ∧ ((∀ round, ev ≠ DispatchLastKnown round) → thread_kept t t').
Proof using All.
  assert (Hsend : ∀ t command, thread_kept t (send_command t command)) by (clear; intros t command; unfold send_command; by destruct (_ && _); split).
  intros Ht Hen. destruct ev as [blocks sender|block_refs sender|round force sender|sender|exists_|delay|round| |ev|clk branch]; simpl in *.
  - destruct (raise_highest_total (ct_highest_received_rounds t) blocks (th_rounds _ Ht) (proj1 Hen)) as (rounds & Hrun & Hlen).
    unfold dispatch_add_blocks. rewrite Hrun. cbn [mbind run_bind]. eexists. split; [done|]. split.
    + apply send_ok; [by destruct Ht; split|done].
    + split; [intros Hr; left; unfold send_command; by destruct (_ && _)|]. intros _.
      destruct (Hsend (set_ct_highest_received_rounds rounds t) (AddBlocks blocks sender)) as [Hv Hl]. by split.
  - eexists. split; [done|]. split; [by apply send_ok|]. split; [|intros _; apply Hsend]. intros Hr. left. unfold dispatch_check_block_refs, send_command. by destruct (_ && _).
  - eexists. split; [done|]. split; [by apply send_ok|]. split; [|intros _; apply Hsend]. intros Hr. left. unfold dispatch_new_block, send_command. by destruct (_ && _).
  - eexists. split; [done|]. split; [by apply send_ok|]. split; [|intros _; apply Hsend]. intros Hr. left. unfold dispatch_get_missing_blocks, send_command. by destruct (_ && _).
  - eexists. split; [done|]. unfold dispatch_subscriber_exists. destruct (ct_running t) eqn:Hr; (split; [by destruct Ht; split|]; split; [by left|]; intros _; by split).
  - eexists. split; [done|]. unfold dispatch_propagation_delay. destruct (ct_running t) eqn:Hr; (split; [by destruct Ht; split|]; split; [by left|]; intros _; by split).
  - eexists. split; [done|]. unfold dispatch_last_known_proposed_round. destruct (ct_running t) eqn:Hr; (split; [by destruct Ht; split|]; split; [by left|]; intros Hne; by destruct (Hne round)).
  - eexists. split; [done|]. split; [by destruct Ht; split|]. split; [by left|]. intros _. by split.
  - destruct (th_core _ Ht) as [v Hok].
    destruct (shared_spec (ct_core t) v ev Hok (th_gc _ Ht) Hen) as (c' & -> & Hok' & Hk' & Hgc' & Hvt). cbn [mbind run_bind].
    eexists. split; [done|]. split; [by eapply thread_core_ok|]. split; [by left|]. intros _. split; [done|]. by intros Hw.
  - destruct Hen as [Hready Hann]. destruct (turn_ok clk t branch Ht Hready Hann) as (t' & Hrun & Ht' & He & Hk).
    exists t'. split; [done|]. split; [done|]. split; [|done]. intros _. destruct He as [?|?]; [by left|by right].
Qed.

(** Only the dispatcher changes the value it sends, and no task starts again. *)
Lemma step_subscriber t ev t' : (∀ b, ev ≠ DispatchSubscriber b) → run_thread ctx params fuel t ev = Done t' →
  w_value (ct_rx_subscriber_exists t') = w_value (ct_rx_subscriber_exists t) ∧ (ct_running t' = true → ct_running t = true).
Proof.
  clear. intros Hne Hrun.
  assert (Hsend : ∀ t command, ct_rx_subscriber_exists (send_command t command) = ct_rx_subscriber_exists t ∧
    ct_running (send_command t command) = ct_running t) by (intros t1 command; unfold send_command; by destruct (_ && _)).
  assert (Hfin : ∀ {A} t1 (m : fallible (Core S * A)) answer, finish_turn t1 m answer = Done t' →
    w_value (ct_rx_subscriber_exists t') = w_value (ct_rx_subscriber_exists t1) ∧ (ct_running t' = true → ct_running t1 = true)).
  { intros A t1 m answer (r & -> & Hr)%bind_Done. destruct r as [[c x]|e]; [by injection Hr as <-|].
    by destruct e; try done; injection Hr as <-. }
  destruct ev as [blocks sender|block_refs sender|round force sender|sender|exists_|delay|round| |ev|clk branch]; simpl in Hrun;
    try (injection Hrun as <-; unfold dispatch_check_block_refs, dispatch_new_block, dispatch_get_missing_blocks,
         dispatch_propagation_delay, dispatch_last_known_proposed_round; rewrite ?(proj1 (Hsend _ _)), ?(proj2 (Hsend _ _));
         destruct (ct_running t) eqn:Hr; cbn; split; congruence).
  - apply bind_Done in Hrun as (rounds & _ & [= <-]). by rewrite (proj1 (Hsend _ _)), (proj2 (Hsend _ _)).
  - by destruct (Hne exists_).
  - by apply bind_Done in Hrun as (c & _ & [= <-]).
  - destruct branch; simpl in Hrun; try (by apply Hfin in Hrun).
    destruct (ct_receiver t); [by injection Hrun as <-|by apply Hfin in Hrun].
Qed.
End runs.
