(* ===== verification/NodeStart.v ===== *)
(** * A node from its start

    A node that starts with an empty store is in order, and stays so. *)
From S2P Require Import Prelude Committee StakeAggregator Block ThresholdClock Commit LeaderScoring Store DagState DagStateProofs DagTraversal LeaderSchedule BaseCommitter CommitRule BlockVerifier TransactionConsumer DagViews BlockManager BlockManagerProofs BlockManagerSafety ManagedNode Linearizer CommitObserver LinearizerProofs CommitSafety UniversalCommitter QuorumRounds Ancestor TransactionCertifier CertifierProofs CommitFinalizer Core CoreThread AuthorityService AuthorityNode CoreState Ledger CoreProposal CoreProposer CoreCommit CoreNode CoreRun.

Section start.
Context {S : Type} `{StoreLaws S} `{BlockCodec} `{CommitCodec} `{Crypto} `{BlockSigner} `{Hlaws : RngLaws} `{TransactionVerifier}.
Context (ctx : Context) (params : Parameters) (fuel : nat).
Context (G : BlockRef → option VerifiedBlock) (byz : gset AuthorityIndex) (Hhonest : honest_node (S := S) ctx G byz).
Context (genesis : list VerifiedBlock) (Hgenesis : genesis_blocks ctx = Done genesis) (Hcf : config_ok ctx).
Context (U : gset BlockRef) (Hfits : universe_fits G genesis U fuel).
Context (Hcodec : ∀ c, is_Some (bcs_commit_to_bytes c)).
Context (Hstorable : ∀ c bytes, bcs_commit_to_bytes c = Some bytes → st_commit_ok (TrustedCommit_new_trusted c bytes)).
Context (Hsign : signing_ok ctx) (Hlim : limits_ok ctx).
Implicit Types (d : DagState S) (v : StoreView) (c : Core S) (t : CoreThread S).
Abbreviation cm := (ctx_committee ctx).
Abbreviation pc := (ctx_protocol_config ctx).
Abbreviation valid := (Committee_is_valid_index cm).
Abbreviation size := (Committee_size cm).

(** ** The parts of a fresh node *)

Section fresh.
Context (store : S) (Hstore : store_rel store view_empty) (now : N).
Abbreviation d0 := (fresh_dag ctx genesis store now).

Lemma fresh_ok : dag_ok ctx G genesis d0 view_empty.
Proof using Hhonest Hgenesis Hstore. by apply (fresh_dag_ok ctx G byz Hhonest genesis). Qed.

Lemma fresh_certifier verify : TransactionCertifier_recover ctx verify d0 CertifierState_new 0 = Done (CertifierState_new, []).
Proof using Hstore.
  clear Hhonest Hgenesis Hcf Hfits Hcodec Hstorable Hsign Hlim. unfold TransactionCertifier_recover.
  destruct (pc_mysticeti_fastpath pc); [|done]. cbn [negb].
  change (ds_store d0) with store. rewrite (law_scan_commits store view_empty) by done.
  change (sv_commits view_empty) with (∅ : gmap (CommitIndex * CommitDigest) TrustedCommit). rewrite map_list_empty. cbn.
  destruct (for_each_total (λ s : CertifierState * list (list CertifiedBlock), s = (CertifierState_new, []))
    (λ '(st, sent) authority_index,
       blocks ← unwrap_result (store_scan_blocks_by_author store authority_index (u32_add GENESIS_ROUND 1));
       _ ← Committee_authority cm authority_index;
       voted_blocks ← map_run (λ b,
          skip ← (if bool_decide (vb_round b ≤ gc_round ctx d0) then Done true else is_hard_linked d0 (vb_reference b));
          if (skip : bool) then Done (b, []) else votes ← unwrap_result (verify (vb_signed b)); Done (b, votes)) blocks;
       '(st, certified_blocks) ← CertifierState_add_voted_blocks ctx st voted_blocks;
       Done (st, sent ++ send_certified_blocks certified_blocks)) (CertifierState_new, []) (seq 0 size)) as (s & Hrun & ->); [done| |exact Hrun].
  intros s a [_ Ha]%elem_of_seq ->. rewrite (law_scan_blocks store view_empty), view_author_blocks_empty by done.
  destruct (lookup_lt_is_Some_2 (c_authorities cm) a) as [x Hx]; [exact Ha|].
  unfold Committee_authority, vec_get. rewrite Hx. by exists (CertifierState_new, []).
Qed.

Lemma fresh_schedule : LeaderSchedule_from_store ctx d0 = Done (LeaderSchedule_new LeaderSwapTable_default).
Proof using Hstore.
  clear Hhonest Hgenesis Hcf Hfits Hcodec Hstorable Hsign Hlim. unfold LeaderSchedule_from_store, recover_last_commit_info.
  change (ds_store d0) with store. rewrite (law_read_last_commit_info store view_empty) by done.
  unfold view_last_info, map_last. cbn [sv_commits sv_info view_empty]. by rewrite !map_list_empty.
Qed.

Lemma fresh_observer schedule h : recover_and_send_commits schedule h d0 0 = Done (h, d0).
Proof using Hstore.
  clear Hhonest Hgenesis Hcf Hfits Hcodec Hstorable Hsign Hlim. unfold recover_and_send_commits.
  change (ds_store d0) with store. rewrite (law_read_last_commit store view_empty) by done.
  unfold map_last. change (sv_commits view_empty) with (∅ : gmap (CommitIndex * CommitDigest) TrustedCommit). by rewrite map_list_empty.
Qed.

Lemma fresh_leader : ∃ slot, last_commit_leader d0 = Done slot ∧ s_round slot = GENESIS_ROUND.
Proof using Hhonest Hgenesis.
  clear Hcf Hfits Hcodec Hstorable Hsign Hlim Hstore. unfold last_commit_leader. cbn [ds_last_commit fresh_dag].
  destruct (map_first (ds_genesis d0)) as [[r b]|] eqn:Hf.
  - exists (Slot_from r). split; [done|]. apply map_first_Some in Hf as [Hf _]. apply genesis_lookup in Hf as [Hb ->].
    apply list_elem_of_lookup_1 in Hb as [i Hi]. by destruct (proj2 (genesis_blocks_spec ctx genesis Hgenesis) i b Hi) as (? & _).
  - apply map_first_None in Hf. destruct (genesis_map_blocks ctx genesis Hgenesis) as [Hlen _].
    unfold genesis_map in Hlen. cbn [ds_genesis fresh_dag] in Hf. rewrite Hf, map_list_empty in Hlen. simpl in Hlen.
    pose proof (ok_nonempty _ (u_committee _ _ _ (hn_universe _ _ _ Hhonest))). unfold Committee_size in Hlen. lia.
Qed.

Lemma fresh_last_proposed : ∃ b, get_last_proposed_block ctx d0 = Done b ∧ vb_round b = 0 ∧ vb_ancestors b = [].
Proof using Hhonest Hgenesis Hstore.
  destruct (last_block_spec ctx G byz Hhonest genesis Hgenesis d0 view_empty (ctx_own_index ctx) fresh_ok (hn_valid _ _ _ Hhonest))
    as (b & Hb & _ & Hlk & _). exists b. split; [done|]. unfold dag_lookup in Hlk. cbn in Hlk.
  case_bool_decide as Hr; [|by rewrite !lookup_empty in Hlk].
  apply genesis_lookup in Hlk as [Hin _]. apply list_elem_of_lookup_1 in Hin as [i Hi].
  by destruct (proj2 (genesis_blocks_spec ctx genesis Hgenesis) i b Hi) as (? & _ & ? & _).
Qed.

(** The core before it recovers. *)
Definition fresh_core (last_decided : Slot) (subscriber_exists sync : bool) : Core S :=
  mk_core (TransactionConsumer_new [] ctx) CertifierState_new (BlockManager_new ctx) subscriber_exists 0 pipelined_committers
    0 (replicate size None) last_decided (LeaderSchedule_new LeaderSwapTable_default) (mk_handle [] false) false [] d0
    (if sync then None else Some 0)
    (set_propagation_scores (AncestorStateManager_new ctx) (lt_reputation_scores LeaderSwapTable_default)) (PeerRoundTracker_new ctx).

Lemma fresh_manager_counted : counted ctx (AncestorStateManager_new ctx).
Proof.
  clear. split; [apply length_replicate|]. simpl.
  assert (excluded ctx (AncestorStateManager_new ctx) = ∅) as ->; [|by rewrite set_stake_empty].
  apply elem_of_equiv_empty_L. intros i. unfold excluded. rewrite elem_of_authorities_where. intros [Hi Hlt].
  cbn [am_state_map AncestorStateManager_new] in Hi. by rewrite lookup_replicate_2 in Hi.
Qed.

Lemma fresh_period : period_ok ctx (LeaderSchedule_new LeaderSwapTable_default) d0 1 0.
Proof using Hhonest Hcf Hlaws.
  split; try done.
  - by apply default_elects; [apply (u_committee _ _ _ (hn_universe _ _ _ Hhonest))|].
  - cbn. lia.
  - intros r. cbn. rewrite lookup_empty. by intros [].
  - by left.
Qed.

Lemma fresh_core_ok slot subscriber_exists sync : s_round slot = GENESIS_ROUND →
  core_ok ctx fuel G genesis (fresh_core slot subscriber_exists sync) view_empty.
Proof using Hhonest Hgenesis Hcf Hstore Hlaws.
  intros Hs. pose proof (ok_total_pos _ (u_committee _ _ _ (hn_universe _ _ _ Hhonest))) as Htotal.
  split; cbn.
  - split; try done; cbn; [repeat constructor|constructor|]. by intros r ?%elem_of_nil.
  - split; [constructor|constructor|]. by intros b own ?%elem_of_nil.
  - split; cbn; [apply fresh_ok|apply fresh_bm_inv|exists 1, 0; apply fresh_period| |done|by rewrite Hs|by rewrite Hs|done].
    split; cbn; [apply tracker_new_ok|by destruct fresh_manager_counted; split|apply N.le_0_l|lia].
  - intros b Hb. split; [apply length_replicate|]. intros a r [Hn _]%lookup_replicate_1. done.
  - by repeat constructor.
  - intros _. split; [|exists []; apply (certifier_good ctx G byz (hn_universe _ _ _ Hhonest) _ _ (run_new ctx G))].
    intros r [[b Hb]|Hb] Hgc; cbn in *; [|by rewrite lookup_empty in Hb; destruct Hb].
    unfold dag_lookup in Hb. cbn in Hb. case_bool_decide as Hr; [rewrite Hr in Hgc; by unfold GENESIS_ROUND in *|].
    by rewrite !lookup_empty in Hb.
  - split; [unfold ledger_of; cbn; by rewrite Hs|]. split; try done; [by intros r ?%elem_of_nil|].
    intros r (info & Hi & _). cbn in Hi. by rewrite lookup_empty in Hi.
  - by intros b x ?%elem_of_nil.
Qed.
End fresh.

(** Whether the node waits for its last own block, and for subscribers. *)
Abbreviation waits store clk boot_counter := (sync_last_known_own_block params (fresh_dag ctx genesis store (clk_instant clk)) boot_counter).
Abbreviation subscribed streaming := (negb streaming || bool_decide (size = 1%nat)).

(** The first proposal, if the node makes one when it starts, is announced. *)
Definition announces_first store clk boot_counter streaming : Prop := ∀ slot,
  last_commit_leader (fresh_dag ctx genesis store (clk_instant clk)) = Done slot →
  announces_recovered ctx params fuel G clk
    (fresh_core store (clk_instant clk) slot (subscribed streaming) (waits store clk boot_counter)).

Lemma thread_start_ok c v : core_ok ctx fuel G genesis c v → cs_gc_round (co_transaction_certifier c) + 2 < u32_max →
  ∃ t, CoreThread_start ctx (co_dag_state c) c = Done t ∧ thread_ok ctx fuel G genesis t ∧ ct_core t = c ∧ ct_running t = true ∧
    w_value (ct_rx_subscriber_exists t) = false ∧ w_changed (ct_rx_last_known_proposed_round t) = false.
Proof using Hhonest Hgenesis.
  clear Hcf Hfits Hcodec Hstorable Hsign Hlim Hlaws. intros Hok Hgc. unfold CoreThread_start.
  destruct (map_run_total (λ '(index, _), b ← get_last_block_for_authority (co_dag_state c) index; Done (vb_round b))
    (Committee_authorities cm)) as [rounds Hrun].
  { intros [i a] Hi%valid_authorities_list.
    destruct (last_block_spec ctx G byz Hhonest genesis Hgenesis (co_dag_state c) v i (cg_dag _ _ _ _ _ (ok_commits _ _ _ _ _ _ Hok)) Hi)
      as (b & -> & _). by exists (vb_round b). }
  rewrite Hrun. cbn [mbind run_bind]. eexists. split; [done|]. split; [|done]. split; cbn; [by eauto|constructor|done|done| |constructor].
  apply map_run_Done in Hrun. rewrite <-(Forall2_length _ _ _ Hrun). unfold Committee_authorities. apply length_imap.
Qed.

Lemma node_start_ok store clk boot_counter streaming : store_rel store view_empty →
  announces_first store clk boot_counter streaming →
  ∃ node, AuthorityNode_start ctx params fuel clk store 0 boot_counter streaming = Done node ∧
    thread_ok ctx fuel G genesis (as_thread (an_service node)) ∧ ct_running (as_thread (an_service node)) = true ∧
    w_value (ct_rx_subscriber_exists (as_thread (an_service node))) = false ∧
    as_commit_vote_monitor (an_service node) = CommitVoteMonitor_new ctx ∧
    as_subscription_counter (an_service node) = SubscriptionCounter_new ctx ∧
    SignedBlockVerifier_new ctx = Done (an_block_verifier node) ∧ as_fetches (an_service node) = [] ∧
    w_changed (ct_rx_last_known_proposed_round (as_thread (an_service node))) = false ∧
    (an_sync_last_known_own_block node = true → co_last_known_proposed_round (as_core (an_service node)) = None).
Proof using All.
  intros Hstore Hann. set (now := clk_instant clk) in *. unfold AuthorityNode_start.
  pose proof (hn_valid _ _ _ Hhonest) as Hown. unfold valid_author in Hown. apply Is_true_eq_true in Hown. rewrite Hown.
  cbn [mbind run_bind]. rewrite (DagState_new_fresh ctx genesis) by done. cbn [mbind run_bind]. fold now.
  unfold SignedBlockVerifier_new. rewrite Hgenesis. cbn [mbind run_bind].
  rewrite fresh_certifier by done. cbn [mbind run_bind]. rewrite fresh_schedule by done. cbn [mbind run_bind].
  unfold set_highest_observed_commit_at_startup. cbn [ccm_highest_handled_commit ccm_highest_observed_commit_at_startup CommitConsumerMonitor_new].
  rewrite (bool_decide_eq_true_2 (0 ≤ _)) by apply N.le_0_l. rewrite (bool_decide_eq_true_2 (0 = 0)) by done. cbn [mbind run_bind]. rewrite fresh_observer by done. cbn [mbind run_bind].
  destruct (fresh_leader store now) as (slot & Hslot & Hround). destruct (fresh_last_proposed store Hstore now) as (b & Hb & Hbr & Hba).
  unfold Core_new. rewrite Hslot. cbn [mbind run_bind]. rewrite Hb. cbn [mbind run_bind]. rewrite Hba. cbn [for_each mbind run_bind].
  rewrite (cf_one _ Hcf), Hbr. cbn [default].
  match goal with |- context [Core_recover ctx params fuel clk ?c] => change c with
    (fresh_core store now slot (subscribed streaming) (waits store clk boot_counter)) end.
  set (c0 := fresh_core _ _ _ _ _).
  assert (Hok0 : core_ok ctx fuel G genesis c0 view_empty) by (by apply fresh_core_ok).
  destruct (core_recover_ok ctx params fuel G byz Hhonest genesis Hgenesis Hcf U Hfits Hcodec Hstorable Hsign Hlim clk c0 view_empty Hok0)
    as (c & v & -> & Hok & Hp); [done|by apply Hann|done| |].
  { intros b' Hb'. change (last_proposed_block ctx c0) with (get_last_proposed_block ctx (fresh_dag ctx genesis store now)) in Hb'. assert (b' = b) as -> by congruence. exact Hbr. }
  cbn [mbind run_bind].
  match goal with |- context [CoreThread_start ctx ?d ?x] => destruct (thread_start_ok x v) as (t & Ht & Htok & Htc & Hrun & Hsub & Hlk) end.
  - apply (core_ok_frame ctx fuel G genesis c); try done. apply Hok.
  - cbn. by rewrite (proj1 (pa_certifier _ _ Hp)).
  - rewrite Ht. cbn [mbind run_bind]. eexists. split_and!; try done. intros Hsync. unfold as_core. cbn. rewrite Htc. cbn. rewrite (pa_last_known _ _ Hp).
    cbn in Hsync. fold now. unfold c0, fresh_core. cbn [co_last_known_proposed_round]. fold now. by rewrite Hsync.
Qed.
End start.
