(* ===== verification/ServiceProofs.v ===== *)
(** * The node as its peers see it

    Requests of peers, the tasks of the node and the turns of its core thread
    in any order, from the start of the node on. *)
From S2P Require Import Prelude Committee StakeAggregator Block ThresholdClock Commit LeaderScoring Store DagState DagStateProofs DagTraversal LeaderSchedule BaseCommitter CommitRule BlockVerifier TransactionConsumer DagViews BlockManager BlockManagerProofs BlockManagerSafety ManagedNode Linearizer CommitObserver LinearizerProofs CommitSafety UniversalCommitter QuorumRounds Ancestor TransactionCertifier CertifierProofs CommitFinalizer Core CoreThread AuthorityService AuthorityNode CoreState Ledger CoreProposal CoreProposer CoreCommit CoreNode CoreRun NodeStart.

Inductive ServiceEvent :=
| SendBlock (peer : AuthorityIndex) (serialized_block : ExtendedSerializedBlock) (sender : N)
| BlockAdded (peer : AuthorityIndex) (block : VerifiedBlock) (excluded : list bytes) (missing : gset BlockRef) (sender : N)
| RefsChecked (peer : AuthorityIndex) (missing : gset BlockRef)
| Subscribe (peer : AuthorityIndex) (last_received : Round)
| Unsubscribe (peer : AuthorityIndex)
| BlockProposed (extended_block : ExtendedBlock)
| FetchSent (i : nat)
| VotesObserved (blocks : list VerifiedBlock)
| OnThread (ev : ThreadEvent).

Section machine.
Context {S : Type} `{Store S} `{CommitCodec} `{BlockCodec} `{Crypto} `{TransactionVerifier} `{BlockRefCodec} `{BlockSigner} `{Rng}.
Context (ctx : Context) (params : Parameters) (fuel : nat) (verifier : SignedBlockVerifier).
Implicit Types (s : AuthorityService S).

Definition run_service s (ev : ServiceEvent) : run (AuthorityService S) :=
  match ev with
  | SendBlock peer serialized_block sender => '(s, _) ← receive_block ctx params verifier s peer serialized_block sender; Done s
  | BlockAdded peer block excluded missing sender => '(s, _) ← process_excluded ctx s peer block excluded missing sender; Done s
  | RefsChecked peer missing => Done (fetch_excluded s peer missing)
  | Subscribe peer last_received => '(s, _) ← handle_subscribe_blocks ctx s peer last_received; Done s
  | Unsubscribe peer => decrement ctx s peer
  | BlockProposed extended_block => c ← handle_proposed_block ctx (as_core s) extended_block; Done (set_as_core c s)
  | FetchSent i => Done (set_as_fetches (delete i (as_fetches s)) s)
  | VotesObserved blocks =>
      monitor ← for_each observe_block (as_commit_vote_monitor s) blocks; Done (set_as_commit_vote_monitor monitor s)
  | OnThread ev => t ← run_thread ctx params fuel (as_thread s) ev; Done (set_as_thread t s)
  end.
End machine.

Section service.
Context {S : Type} `{StoreLaws S} `{BlockCodec} `{CommitCodec} `{Crypto} `{BlockSigner} `{Hlaws : RngLaws} `{TransactionVerifier} `{BlockRefCodec}.
Context (ctx : Context) (params : Parameters) (fuel : nat) (verifier : SignedBlockVerifier).
Context (G : BlockRef → option VerifiedBlock) (byz : gset AuthorityIndex) (Hhonest : honest_node (S := S) ctx G byz).
Context (genesis : list VerifiedBlock) (Hgenesis : genesis_blocks ctx = Done genesis) (Hcf : config_ok ctx).
Context (U : gset BlockRef) (Hfits : universe_fits G genesis U fuel).
Context (Hcodec : ∀ c, is_Some (bcs_commit_to_bytes c)).
Context (Hstorable : ∀ c bytes, bcs_commit_to_bytes c = Some bytes → st_commit_ok (TrustedCommit_new_trusted c bytes)).
Context (Hsign : signing_ok ctx) (Hlim : limits_ok ctx).
Implicit Types (s : AuthorityService S) (t : CoreThread S).
Abbreviation cm := (ctx_committee ctx).
Abbreviation pc := (ctx_protocol_config ctx).
Abbreviation valid := (Committee_is_valid_index cm).
Abbreviation size := (Committee_size cm).
Abbreviation thread_ok := (thread_ok ctx fuel G genesis).

(** A block that passes verification is one of the network's. *)
Definition delivers (serialized : bytes) : Prop := ∀ signed_block rejected,
  bcs_from_bytes serialized = Some signed_block → verify_and_vote ctx verifier signed_block = f_ok rejected →
  G (vb_reference (VerifiedBlock_new_verified signed_block serialized)) = Some (VerifiedBlock_new_verified signed_block serialized).

Definition service_enabled s (ev : ServiceEvent) : Prop :=
  match ev with
  | SendBlock peer serialized_block _ => valid peer ∧ delivers (es_block serialized_block)
  | BlockAdded _ block excluded _ _ => G (vb_reference block) = Some block ∧
      ∀ refs, mapM bcs_ref_from_bytes excluded = Some refs → Forall (λ r, valid (br_author r)) (take (size * 2) refs)
  | RefsChecked _ _ => True
  | Subscribe peer _ => valid peer ∧ cn_count (as_subscription_counter s) < u64_max
  | Unsubscribe peer => ∃ n, cn_subscriptions_by_authority (as_subscription_counter s) !! peer = Some n ∧ 0 < n
  | BlockProposed extended_block =>
      pc_mysticeti_fastpath pc → voted (co_transaction_certifier (as_core s)) (vb_reference (eb_block extended_block))
  | FetchSent _ => True
  | VotesObserved blocks => from_universe G blocks
  | OnThread (DispatchSubscriber _) => False
  | OnThread ev => thread_enabled ctx params fuel G (as_thread s) ev
  end.

(** The counter adds up, and the thread is told whether it is zero. *)
Record subscriptions_ok s : Prop := {
  sub_length : length (cn_subscriptions_by_authority (as_subscription_counter s)) = size;
  sub_count : cn_count (as_subscription_counter s) = sumN (cn_subscriptions_by_authority (as_subscription_counter s));
  sub_bound : cn_count (as_subscription_counter s) ≤ u64_max;
  sub_told : ct_running (as_thread s) = true →
    w_value (ct_rx_subscriber_exists (as_thread s)) = bool_decide (0 < cn_count (as_subscription_counter s));
}.

Record service_ok s : Prop := {
  so_thread : thread_ok (as_thread s);
  so_monitor : length (cvm_highest_voted_commits (as_commit_vote_monitor s)) = size;
  so_subscriptions : subscriptions_ok s;
}.

Lemma thread_valid a : valid a ↔ (a < size)%nat.
Proof. clear. apply valid_lt. Qed.

Lemma authority_total a : valid a → ∃ x, Committee_authority cm a = Done x.
Proof.
  clear. intros Ha%thread_valid. destruct (lookup_lt_is_Some_2 (c_authorities cm) a) as [x Hx]; [exact Ha|].
  exists x. unfold Committee_authority, vec_get. by rewrite Hx.
Qed.

(** ** Blocks that are sent *)

(** When a sent block is taken: it is well-formed bytes of the peer's own
    block, passes verification, and the node does not lag behind. *)
Record taken s s' (peer : AuthorityIndex) (serialized : bytes) (b : VerifiedBlock) : Prop := {
  tk_signed : bcs_from_bytes serialized = Some (vb_signed b);
  tk_block : b = VerifiedBlock_new_verified (vb_signed b) serialized;
  tk_author : vb_author b = peer;
  tk_verified : ∃ rejected, verify_and_vote ctx verifier (vb_signed b) = f_ok rejected;
  tk_current : quorum_commit_index ctx (as_commit_vote_monitor s') ≤
    u32_add (last_commit_index (as_dag_state s)) (u32_mul (pm_commit_sync_batch_size params) COMMIT_LAG_MULTIPLIER);
}.

Lemma vote_ok t b rejected : thread_ok t → G (vb_reference b) = Some b → pc_mysticeti_fastpath pc →
  ∃ st sent, TransactionCertifier_add_voted_blocks ctx (co_transaction_certifier (ct_core t)) [(b, rejected)] = Done (st, sent) ∧
    voted st (vb_reference b) ∧ (∀ r, voted (co_transaction_certifier (ct_core t)) r → voted st r) ∧
    ∀ out, proposals out = proposals (co_outputs (ct_core t)) →
      thread_ok (set_ct_core (set_co_outputs out (set_co_transaction_certifier st (ct_core t))) t).
Proof using Hhonest.
  clear Hgenesis Hcf Hfits Hcodec Hstorable Hsign Hlim Hlaws. intros Ht HGb Hfast. destruct (th_core _ _ _ _ _ Ht) as [v Hok].
  destruct (ok_certifier _ _ _ _ _ _ Hok Hfast) as [Hk (outs & Hg)].
  destruct (add_voted_block_spec ctx G byz (hn_universe _ _ _ Hhonest) _ outs b rejected HGb Hg) as (st & new & Hrun & Hg' & Hl & Hb).
  pose proof (later_gains _ _ Hl) as Hgain. exists st, (send_certified_blocks new). split.
  { unfold TransactionCertifier_add_voted_blocks, CertifierState_add_voted_blocks. cbn [for_each]. by rewrite Hrun. }
  split.
  { intros Hgc. rewrite (la_gc _ _ Hl) in Hgc. specialize (Hb Hgc). unfold entry in Hb. by destruct (cs_votes st !! vb_reference b). }
  split; [intros r; by apply gains_voted|]. intros out Hout. apply (thread_core_ok ctx fuel G genesis t _ v); try done.
  - apply (core_ok_frame ctx fuel G genesis (set_co_transaction_certifier st (ct_core t))); try done; [|apply Hok].
    apply certifier_core; [done| |by eauto]. intros r. by apply gains_voted.
  - cbn. rewrite (proj1 Hgain). apply Ht.
  - intros r. by apply gains_voted.
Qed.

(** What is left for the core after a block was taken. *)
Record given s s' (b : VerifiedBlock) (sender : N) : Prop := {
  gv_command : ct_handle (as_thread s) = true → ct_running (as_thread s) = true →
    ct_receiver (as_thread s') = ct_receiver (as_thread s) ++ [AddBlocks [b] sender];
  gv_voted : pc_mysticeti_fastpath pc → voted (co_transaction_certifier (as_core s')) (vb_reference b);
  gv_dag : as_dag_state s' = as_dag_state s;
  gv_running : ct_running (as_thread s') = ct_running (as_thread s);
}.

Lemma dispatch_block_ok t b sender : thread_ok t → G (vb_reference b) = Some b → vb_round b ≠ 0 →
  (pc_mysticeti_fastpath pc → voted (co_transaction_certifier (ct_core t)) (vb_reference b)) →
  ∃ t', dispatch_add_blocks t [b] sender = Done t' ∧ thread_ok t' ∧ ct_core t' = ct_core t ∧
    ct_rx_subscriber_exists t' = ct_rx_subscriber_exists t ∧ ct_running t' = ct_running t ∧
    ct_rx_last_known_proposed_round t' = ct_rx_last_known_proposed_round t ∧
    (ct_handle t = true → ct_running t = true → ct_receiver t' = ct_receiver t ++ [AddBlocks [b] sender]).
Proof using Hhonest.
  clear Hgenesis Hcf Hfits Hcodec Hstorable Hsign Hlim Hlaws. intros Ht HGb Hr Hv. unfold dispatch_add_blocks.
  destruct (raise_highest_total ctx G byz Hhonest (ct_highest_received_rounds t) [b] (th_rounds _ _ _ _ _ Ht)) as (rounds & -> & Hlen);
    [by apply Forall_singleton|]. cbn [mbind run_bind]. eexists. split; [done|].
  assert (Ht1 : thread_ok (set_ct_highest_received_rounds rounds t)) by (by destruct Ht; split).
  split; [apply send_ok; [done|]|].
  - split; [by apply Forall_singleton|]. intros Hf. apply Forall_singleton. by apply Hv.
  - unfold send_command. cbn. split_and!; [by destruct (_ && _)..|]. by intros -> ->.
Qed.

Lemma receive_spec s peer serialized_block sender : service_ok s → valid peer → delivers (es_block serialized_block) →
  ∃ s' res, receive_block ctx params verifier s peer serialized_block sender = Done (s', res) ∧ service_ok s' ∧
    match res with
    | ROk b => taken s s' peer (es_block serialized_block) b ∧ given s s' b sender
    | RErr _ => as_thread s' = as_thread s ∧ ∀ b, ¬ taken s s' peer (es_block serialized_block) b
    end ∧ thread_kept (as_thread s) (as_thread s') ∧ as_fetches s' = as_fetches s.
Proof using Hhonest.
  clear Hgenesis Hcf Hfits Hcodec Hstorable Hsign Hlim Hlaws. intros [Ht Hm Hsub] Hpeer HG. unfold receive_block.
  destruct (authority_total peer Hpeer) as [x ->]. cbn [mbind run_bind].
  pose proof (hn_universe _ _ _ Hhonest) as HU. pose proof (u_committee _ _ _ HU) as Hcm.
  destruct (bcs_from_bytes (es_block serialized_block)) as [signed|] eqn:Hdec.
  2:{ eexists s, _. split; [done|]. split; [by split|]. split; [|by split]. split; [done|]. intros b [Hs _ _ _ _]. congruence. }
  case_bool_decide as Hauth; cbn [negb].
  2:{ eexists s, _. split; [done|]. split; [by split|]. split; [|by split]. split; [done|]. intros b [Hs _ Ha _ _]. assert (vb_signed b = signed) as <- by congruence. by destruct Hauth. }
  destruct (verify_and_vote_spec ctx verifier Hcm signed) as (res & Hver & Hacc). rewrite Hver. cbn [mbind run_bind].
  destruct res as [rejected|e].
  2:{ eexists s, _. split; [done|]. split; [by split|]. split; [|by split]. split; [done|]. intros b [Hs _ _ [rej Hv] _].
      assert (vb_signed b = signed) as Heq by congruence. rewrite Heq, Hver in Hv. done. }
  set (b := VerifiedBlock_new_verified signed (es_block serialized_block)).
  pose proof (HG signed rejected Hdec Hver) as HGb. fold b in HGb.
  assert (Hround : vb_round b ≠ 0). { destruct (proj1 (Hacc rejected) eq_refl) as [Hac _]. by destruct Hac. }
  destruct (observe_block_spec (as_commit_vote_monitor s) b) as (m & -> & Hlen & _).
  { rewrite Hm. apply thread_valid. rewrite Hauth in Hpeer. exact Hpeer. }
  cbn [mbind run_bind].
  assert (Hok1 : service_ok (set_as_commit_vote_monitor m s)) by (split; [done|cbn; congruence|by destruct Hsub; split]).
  case_bool_decide as Hlag.
  { eexists _, _. split; [done|]. split; [done|]. split; [|by split]. split; [done|]. intros b' [_ _ _ _ Hc]. apply N.lt_nge in Hlag. exact (Hlag Hc). }
  assert (Htk : ∀ s', as_commit_vote_monitor s' = m → taken s s' peer (es_block serialized_block) b).
  { intros s' Heq. split; try done; [by eauto|]. rewrite Heq. apply N.nlt_ge. exact Hlag. }
  set (s1 := set_as_commit_vote_monitor m s) in *.
  assert (∃ s2, (if pc_mysticeti_fastpath pc then
      '(st, sent) ← TransactionCertifier_add_voted_blocks ctx (co_transaction_certifier (as_core s1)) [(b, rejected)];
      Done (set_as_core (set_co_outputs (co_outputs (as_core s1) ++ (CertifiedBlocks <$> sent)) (set_co_transaction_certifier st (as_core s1))) s1)
    else Done s1) = Done s2 ∧ service_ok s2 ∧ as_commit_vote_monitor s2 = m ∧ as_dag_state s2 = as_dag_state s ∧
      ct_handle (as_thread s2) = ct_handle (as_thread s) ∧ ct_running (as_thread s2) = ct_running (as_thread s) ∧
      ct_receiver (as_thread s2) = ct_receiver (as_thread s) ∧
      (pc_mysticeti_fastpath pc → voted (co_transaction_certifier (as_core s2)) (vb_reference b)) ∧
      thread_kept (as_thread s) (as_thread s2) ∧ as_fetches s2 = as_fetches s)
    as (s2 & -> & [Ht2 Hm2 Hsub2] & Hmon2 & Hd2 & Hh2 & Hr2 & Hq2 & Hv2 & [Hk2 Hl2] & Hf2).
  { destruct (pc_mysticeti_fastpath pc) eqn:Hfast; [|exists s1; split_and!; try done; by split].
    destruct (vote_ok (as_thread s1) b rejected (so_thread _ Hok1) HGb ltac:(by rewrite Hfast)) as (st & sent & Hst & Hvt & Hkt & Hall).
    change (co_transaction_certifier (as_core s1)) with (co_transaction_certifier (ct_core (as_thread s1))). rewrite Hst. cbn [mbind run_bind].
    eexists. split; [done|]. split; [|split_and!; try done; by split]. split; [apply Hall, proposals_certified|apply Hok1|]. by destruct (so_subscriptions _ Hok1); split. }
  cbn [mbind run_bind].
  destruct (dispatch_block_ok (as_thread s2) b sender Ht2 HGb Hround Hv2) as (t' & -> & Ht' & Hcore & Hrx & Hrun' & Hlk & Hcmd). cbn [mbind run_bind].
  eexists (set_as_thread t' s2), _. split; [done|]. split.
  { split; [done|done|]. destruct Hsub2. split; cbn; [done..|]. by rewrite Hrx, Hrun'. }
  split; [split; [by apply Htk|]; split; cbn|].
  - intros Hh Hr. rewrite <-Hq2. apply Hcmd; congruence.
  - unfold as_core. cbn. by rewrite Hcore.
  - unfold as_dag_state, as_core. cbn. rewrite Hcore. apply Hd2.
  - by rewrite Hrun'.
  - split; [|done]. cbn. split; rewrite Hcore; [done|]. by rewrite Hlk.
Qed.

Lemma schedule_fetch_ok s missing peer : service_ok s → service_ok (schedule_fetch s missing peer) ∧
  as_thread (schedule_fetch s missing peer) = as_thread s.
Proof. clear. intros [Ht Hm Hsub]. unfold schedule_fetch. case_bool_decide; [done|]. split; [|done]. split; [done|done|by destruct Hsub; split]. Qed.

Lemma excluded_total s peer b excluded missing sender : service_ok s → G (vb_reference b) = Some b →
  (∀ refs, mapM bcs_ref_from_bytes excluded = Some refs → Forall (λ r, valid (br_author r)) (take (size * 2) refs)) →
  ∃ s' res, process_excluded ctx s peer b excluded missing sender = Done (s', res) ∧ service_ok s' ∧
    ct_running (as_thread s') = ct_running (as_thread s) ∧ thread_kept (as_thread s) (as_thread s') ∧
    as_fetches s' = as_fetches (schedule_fetch s missing peer).
Proof using Hhonest Hcf Hfits Hlim.
  intros Hs HGb Hval. unfold process_excluded. destruct (schedule_fetch_ok s missing peer Hs) as [Hs1 Hth].
  set (s1 := schedule_fetch s missing peer) in *. destruct (mapM bcs_ref_from_bytes excluded) as [refs|]; [|eexists s1, _; rewrite Hth; split_and!; try done; by split].
  specialize (Hval refs eq_refl). set (ex := take (size * 2) refs) in *. destruct Hs1 as [Ht Hm Hsub].
  destruct (th_core _ _ _ _ _ Ht) as [v Hok]. pose proof (u_wf _ _ _ (hn_universe _ _ _ Hhonest) _ _ HGb) as Hwf.
  destruct (shared_spec ctx fuel G byz Hhonest genesis Hcf U Hfits Hlim (ct_core (as_thread s1)) v (Tracked (mk_extended b ex)) Hok
    (th_gc _ _ _ _ _ Ht)) as (c' & Hrun & Hok' & Hk & Hgc & Hv).
  { split; [apply Hwf|]. apply Forall_app. split; [|done]. apply Hwf. }
  cbn in Hrun. apply bind_Done in Hrun as (tracker & Htr & [= <-]). cbn.
  change (co_round_tracker (as_core s1)) with (co_round_tracker (ct_core (as_thread s1))). rewrite Htr. cbn [mbind run_bind].
  destruct (map_run_total (λ r, Committee_authority cm (br_author r)) ex) as [ys ->].
  { intros r Hr. rewrite Forall_forall in Hval. by apply authority_total, Hval. }
  cbn [mbind run_bind]. eexists _, _. split; [done|].
  split; [|cbn; rewrite <-Hth; unfold dispatch_check_block_refs, send_command; destruct (_ && _); (split; [done|]; split; [by split|done])]. split; cbn; [|done|].
  - apply send_ok; [|done]. by eapply thread_core_ok.
  - destruct Hsub. split; cbn; [done..|]. unfold dispatch_check_block_refs, send_command. by destruct (_ && _).
Qed.

(** ** Subscriptions *)

Lemma cached_in_range_spec (d : DagState S) v a lo hi limit : dag_inv ctx d v → valid a →
  ∃ l, get_cached_blocks_in_range d a lo hi limit = Done l ∧ N.of_nat (length l) ≤ limit ∧
    ∀ b, b ∈ l → vb_author b = a ∧ dag_lookup d v (vb_reference b) = Some b ∧ lo ≤ vb_round b < hi.
Proof.
  clear. intros Hinv Ha. destruct (cached_refs ctx d v a Hinv Ha) as (X & e & HX & _ & _ & HXin & _).
  unfold get_cached_blocks_in_range, vec_get. case_bool_decide as Hlt.
  { exists []. split; [done|]. split; [cbn; lia|]. by intros b ?%elem_of_nil. }
  cbn [orb]. case_bool_decide as Hlim. { exists []. split; [done|]. split; [cbn; lia|]. by intros b ?%elem_of_nil. }
  rewrite HX. cbn [expect mbind run_bind].
  set (range := set_range (Included (mk_ref lo a BlockDigest_MIN)) (Excluded (mk_ref hi 0%nat BlockDigest_MIN)) X).
  assert (Hrange : ∀ r, r ∈ take (N.to_nat limit) range → r ∈ X ∧ lo ≤ br_round r < hi).
  { intros r (i & Hi & _)%elem_of_take. apply list_elem_of_lookup_2 in Hi.
    apply (elem_of_author_range X a 0); [intros x Hx; by apply HXin|lia|done]. }
  destruct (map_run_total (λ r, info ← expect (ds_recent_blocks d !! r); Done (bi_block info)) (take (N.to_nat limit) range)) as [l Hl].
  { intros r [Hr _]%Hrange. destruct (HXin r Hr) as (_ & _ & info & -> & _). by eexists. }
  exists l. split; [done|]. apply map_run_Done in Hl. split.
  - rewrite <-(Forall2_length _ _ _ Hl), length_take. lia.
  - intros b Hb. apply list_elem_of_lookup_1 in Hb as [i Hi]. destruct (Forall2_lookup_r _ _ _ _ _ Hl Hi) as (r & Hr & Hrun).
    apply list_elem_of_lookup_2 in Hr. destruct (Hrange r Hr) as [HrX Hround].
    destruct (HXin r HrX) as (Hau & _ & info & Hinfo & Href & Hlk). rewrite Hinfo in Hrun. injection Hrun as <-.
    rewrite <-Href in Hau, Hlk, Hround. done.
Qed.

Lemma told_ok t b : thread_ok t → thread_ok (dispatch_subscriber_exists t b).
Proof. clear. intros Ht. unfold dispatch_subscriber_exists. destruct (ct_running t); [|done]. by destruct Ht; split. Qed.
Lemma told_running t b : ct_running (dispatch_subscriber_exists t b) = ct_running t.
Proof. clear. unfold dispatch_subscriber_exists. by destruct (ct_running t) eqn:Hr; cbn. Qed.
Lemma told_kept t b : thread_kept t (dispatch_subscriber_exists t b).
Proof. clear. unfold dispatch_subscriber_exists. by destruct (ct_running t); split. Qed.
Lemma told_value t b : w_value (ct_rx_subscriber_exists (dispatch_subscriber_exists t b)) =
  if ct_running t then b else w_value (ct_rx_subscriber_exists t).
Proof. clear. unfold dispatch_subscriber_exists. by destruct (ct_running t). Qed.

Lemma sum_update (l : list N) i x y : l !! i = Some x → sumN (<[i := y]> l) + x = sumN l + y.
Proof.
  clear. revert i. induction l as [|z l IH]; intros [|i] Hi; simpl in *; [done|done|injection Hi as ->; lia|].
  specialize (IH i Hi). lia.
Qed.

Lemma increment_ok s peer : service_ok s → valid peer → cn_count (as_subscription_counter s) < u64_max →
  ∃ s', increment ctx s peer = Done s' ∧ service_ok s' ∧ ct_running (as_thread s') = ct_running (as_thread s) ∧
    thread_kept (as_thread s) (as_thread s') ∧ as_fetches s' = as_fetches s.
Proof.
  clear. intros [Ht Hm [Hlen Hcount Hbound Htold]] Hpeer Hmax. unfold increment, vec_get, vec_set.
  pose proof Hpeer as Hlt%thread_valid. destruct (lookup_lt_is_Some_2 (cn_subscriptions_by_authority (as_subscription_counter s)) peer)
    as [n Hn]; [lia|]. rewrite Hn. cbn [expect mbind run_bind]. rewrite decide_True by lia. cbn [mbind run_bind].
  destruct (authority_total peer Hpeer) as [x ->]. cbn [mbind run_bind]. eexists. split; [done|].
  pose proof (sumN_elem_of n _ (list_elem_of_lookup_2 _ _ _ Hn)) as Hle.
  rewrite (u64_add_small (cn_count _)), (u64_add_small n) by (unfold u64_max in *; lia).
  pose proof (sum_update _ _ _ (n + 1) Hn) as Hsum.
  destruct (bool_decide_reflect (cn_count (as_subscription_counter s) + 1 = 1)) as [Hone|Hone];
    (split; [|cbn; rewrite ?told_running; split_and!; first [done|apply told_kept|by split]]); (split; [first [exact (told_ok _ _ Ht)|exact Ht]|done|]); (split; cbn -[sumN]; [by rewrite length_insert|lia|lia|]).
  - rewrite told_running, told_value. intros ->. by rewrite bool_decide_eq_true_2 by lia.
  - intros Hr. rewrite (Htold Hr). apply bool_decide_ext. lia.
Qed.

Lemma decrement_ok s peer n : service_ok s → cn_subscriptions_by_authority (as_subscription_counter s) !! peer = Some n → 0 < n →
  ∃ s', decrement ctx s peer = Done s' ∧ service_ok s' ∧ ct_running (as_thread s') = ct_running (as_thread s) ∧
    thread_kept (as_thread s) (as_thread s') ∧ as_fetches s' = as_fetches s.
Proof.
  clear. intros [Ht Hm [Hlen Hcount Hbound Htold]] Hn Hpos. unfold decrement, vec_get, vec_set.
  pose proof (lookup_lt_Some _ _ _ Hn) as Hlt. rewrite Hn. cbn [expect mbind run_bind]. rewrite decide_True by done. cbn [mbind run_bind].
  pose proof (sumN_elem_of n _ (list_elem_of_lookup_2 _ _ _ Hn)) as Hle. pose proof (sum_update _ _ _ (n - 1) Hn) as Hsum.
  rewrite (u64_sub_small (cn_count _)), (u64_sub_small n) by lia.
  assert (∃ x, (if bool_decide (n - 1 = 0) then _ ← Committee_authority cm peer; Done tt else Done tt) = Done x) as [x ->].
  { destruct (bool_decide (n - 1 = 0)); [|by eexists]. destruct (authority_total peer) as [y ->]; [|by eexists]. apply thread_valid. lia. }
  cbn [mbind run_bind]. eexists. split; [done|].
  destruct (bool_decide_reflect (cn_count (as_subscription_counter s) - 1 = 0)) as [Hone|Hone];
    (split; [|cbn; rewrite ?told_running; split_and!; first [done|apply told_kept|by split]]); (split; [first [exact (told_ok _ _ Ht)|exact Ht]|done|]); (split; cbn -[sumN]; [by rewrite length_insert|lia|lia|]).
  - rewrite told_running, told_value. intros ->. by rewrite bool_decide_eq_false_2 by lia.
  - intros Hr. rewrite (Htold Hr). apply bool_decide_ext. lia.
Qed.

Lemma subscribe_ok s peer last_received : service_ok s → valid peer → cn_count (as_subscription_counter s) < u64_max →
  ∃ s' blocks, handle_subscribe_blocks ctx s peer last_received = Done (s', blocks) ∧ service_ok s' ∧ ct_running (as_thread s') = ct_running (as_thread s) ∧
    thread_kept (as_thread s) (as_thread s') ∧ as_fetches s' = as_fetches s.
Proof using Hhonest.
  clear Hgenesis Hcf Hfits Hcodec Hstorable Hsign Hlim Hlaws. intros Hs Hpeer Hmax. unfold handle_subscribe_blocks, get_cached_blocks.
  destruct (th_core _ _ _ _ _ (so_thread _ Hs)) as [v Hok].
  pose proof (vo_inv _ _ _ _ (ni_view _ _ _ _ (dk_node _ _ _ _ _ (cg_dag _ _ _ _ _ (ok_commits _ _ _ _ _ _ Hok))))) as Hinv.
  pose proof (hn_valid _ _ _ Hhonest) as Hown. destruct (cached_refs ctx _ v _ Hinv Hown) as (X & e & HX & _).
  unfold vec_get. change (as_dag_state s) with (co_dag_state (ct_core (as_thread s))). rewrite HX. cbn [expect mbind run_bind].
  destruct (cached_in_range_spec _ v _ (u32_add last_received 1) u32_max (N.of_nat (base.size X) + 1) Hinv Hown) as (l & -> & _).
  cbn [mbind run_bind]. destruct (increment_ok s peer Hs Hpeer Hmax) as (s' & -> & Hs' & Hr). by eexists _, _.
Qed.

Lemma proposed_ok s eb : service_ok s →
  (pc_mysticeti_fastpath pc → voted (co_transaction_certifier (as_core s)) (vb_reference (eb_block eb))) →
  ∃ c, handle_proposed_block ctx (as_core s) eb = Done c ∧ service_ok (set_as_core c s) ∧
    thread_kept (as_thread s) (as_thread (set_as_core c s)).
Proof using Hhonest.
  clear Hgenesis Hcf Hfits Hcodec Hstorable Hsign Hlim Hlaws. intros [Ht Hm Hsub] Hv. unfold handle_proposed_block.
  destruct (pc_mysticeti_fastpath pc) eqn:Hf; cbn [negb].
  2:{ eexists. split; [done|]. split; [|by split]. split; [|done|by destruct Hsub; split]. by destruct s, as_thread. }
  destruct (th_core _ _ _ _ _ Ht) as [v Hok]. destruct (ok_certifier _ _ _ _ _ _ Hok ltac:(by rewrite Hf)) as [Hk (outs & Hg)].
  destruct (proposed_total ctx G byz Hhonest _ outs (eb_block eb) Hg (th_gc _ _ _ _ _ Ht) (Hv I)) as (st & sent & Hrun & Hg' & Hgain).
  change (co_transaction_certifier (as_core s)) with (co_transaction_certifier (ct_core (as_thread s))). rewrite Hrun. cbn [mbind run_bind].
  eexists. split; [done|]. split; [|split; [intros r; by apply gains_voted|done]]. split; [|done|by destruct Hsub; split].
  apply (thread_core_ok ctx fuel G genesis (as_thread s) _ v); try done.
  - apply (core_ok_frame ctx fuel G genesis (set_co_transaction_certifier st (ct_core (as_thread s)))); try done; [|apply Hok|apply proposals_certified].
    apply certifier_core; [done| |by eauto]. intros r. by apply gains_voted.
  - cbn. rewrite (proj1 Hgain). apply Ht.
  - intros r. by apply gains_voted.
Qed.

Lemma observed_ok s blocks : service_ok s → from_universe G blocks →
  ∃ monitor, for_each observe_block (as_commit_vote_monitor s) blocks = Done monitor ∧ service_ok (set_as_commit_vote_monitor monitor s).
Proof using Hhonest.
  clear Hgenesis Hcf Hfits Hcodec Hstorable Hsign Hlim Hlaws. intros [Ht Hm Hsub] HG.
  destruct (for_each_total (λ m, length (cvm_highest_voted_commits m) = size) observe_block (as_commit_vote_monitor s) blocks Hm) as (m & -> & Hlen).
  - intros m b Hb Hl. destruct (proj1 (Forall_forall _ _) HG b Hb) as [HGb _].
    destruct (observe_block_spec m b) as (m' & -> & Hl' & _); [|exists m'; split; [done|congruence]].
    rewrite Hl. apply thread_valid. apply (u_wf _ _ _ (hn_universe _ _ _ Hhonest) _ _ HGb).
  - eexists. split; [done|]. split; [done|done|by destruct Hsub; split].
Qed.

(** ** Every event *)

(** Events that no other task of the node waits for. *)
Definition external (ev : ServiceEvent) : bool :=
  match ev with
  | Subscribe _ _ | Unsubscribe _ | BlockProposed _ => true
  | OnThread (Stop | Turn _ _) => true
  | OnThread (Shared (Submitted _ _ | Collected _ | FinalizerGone | BroadcastGone)) => true
  | _ => false
  end.

Lemma service_step_ok s ev : service_ok s → service_enabled s ev →
  ∃ s', run_service ctx params fuel verifier s ev = Done s' ∧ service_ok s' ∧
    (ct_running (as_thread s) = true → ct_running (as_thread s') = true ∨ may_end (as_thread s)) ∧
    (external ev → thread_kept (as_thread s) (as_thread s') ∧ as_fetches s' = as_fetches s).
Proof using All.
  intros Hs Hen. destruct ev as [peer sb sender|peer b excluded missing sender|peer missing|peer last_received|peer|eb|i|blocks|ev]; simpl in Hen |- *.
  - destruct (receive_spec s peer sb sender Hs (proj1 Hen) (proj2 Hen)) as (s' & res & -> & Hs' & Hres & _). exists s'.
    split; [done|]. split; [done|]. split; [|done]. intros Hr. left. destruct res as [b|e]; [by rewrite (gv_running _ _ _ _ (proj2 Hres))|].
    by rewrite (proj1 Hres).
  - destruct (excluded_total s peer b excluded missing sender Hs (proj1 Hen) (proj2 Hen)) as (s' & res & -> & Hs' & Hr & _).
    exists s'. split; [done|]. split; [done|]. split; [rewrite Hr; by left|done].
  - destruct (schedule_fetch_ok s missing peer Hs) as [Hs' Hth]. eexists. split; [done|]. split; [done|].
    unfold fetch_excluded. rewrite Hth. split; [by left|done].
  - destruct (subscribe_ok s peer last_received Hs (proj1 Hen) (proj2 Hen)) as (s' & blocks & -> & Hs' & Hr & Hk).
    exists s'. split; [done|]. split; [done|]. split; [rewrite Hr; by left|done].
  - destruct Hen as (n & Hn & Hpos). destruct (decrement_ok s peer n Hs Hn Hpos) as (s' & -> & Hs' & Hr & Hk).
    exists s'. split; [done|]. split; [done|]. split; [rewrite Hr; by left|done].
  - destruct (proposed_ok s eb Hs Hen) as (c & -> & Hs' & Hk). eexists. split; [done|]. split; [done|]. by split; [left|].
  - eexists. split; [done|]. split; [by destruct Hs as [? ? []]; split; [..|split]|]. by split; [left|].
  - destruct (observed_ok s blocks Hs Hen) as (m & -> & Hs'). eexists. split; [done|]. split; [done|]. by split; [left|].
  - assert (Hen' : thread_enabled ctx params fuel G (as_thread s) ev ∧ ∀ b, ev ≠ DispatchSubscriber b) by (by destruct ev).
    destruct Hen' as [Hen' Hne]. destruct Hs as [Ht Hm [Hlen Hcount Hbound Htold]].
    destruct (step_ok ctx params fuel G byz Hhonest genesis Hgenesis Hcf U Hfits Hcodec Hstorable Hsign Hlim (as_thread s) ev Ht Hen')
      as (t' & Hrun & Ht' & Hr & Hk).
    destruct (step_subscriber ctx params fuel (as_thread s) ev t' Hne Hrun) as [Hv Hback].
    rewrite Hrun. cbn [mbind run_bind]. eexists. split; [done|]. split; [|split; [done|]].
    + split; [done|done|]. split; cbn; [done..|]. intros Hr'. rewrite Hv. by apply Htold, Hback.
    + intros Hext. split; [|done]. apply Hk. intros round ->. done.
Qed.
End service.
