(* ===== verification/TaskMachine.v ===== *)
(** * A node with its tasks

    The tasks of a node and the core thread as one machine: in every step one
    task does what it does between two waits. The steps of the tasks need
    nothing but what the network, the timers and the answers of the core give
    them. *)
From S2P Require Import Prelude Committee StakeAggregator Block ThresholdClock Commit LeaderScoring Store DagState DagStateProofs DagTraversal LeaderSchedule BaseCommitter CommitRule BlockVerifier TransactionConsumer DagViews BlockManager BlockManagerProofs BlockManagerSafety ManagedNode Linearizer CommitObserver LinearizerProofs CommitSafety UniversalCommitter QuorumRounds Ancestor TransactionCertifier CertifierProofs CommitFinalizer Core CoreThread AuthorityService AuthorityNode CommitSyncer Synchronizer NodeTasks CoreState Ledger CoreProposal CoreProposer CoreCommit CoreNode CoreRun NodeStart ServiceProofs.

(** The state: the service with the core thread, the tasks, the handlers of
    blocks that wait, and the next name of a one-shot channel. *)
Record Node (S : Type) := mk_tasks {
  nd_service : AuthorityService S;
  nd_synchronizer : Synchronizer;
  nd_leader_timeout : LeaderTimeoutTask;
  nd_probe : option Probe;
  nd_subscriptions : list (option Subscription);
  nd_handlers : list Handler;
  nd_channels : N;
}.
Arguments mk_tasks {_}.
Arguments nd_service {_}.
Arguments nd_synchronizer {_}.
Arguments nd_leader_timeout {_}.
Arguments nd_probe {_}.
Arguments nd_subscriptions {_}.
Arguments nd_handlers {_}.
Arguments nd_channels {_}.

(** The events of the tasks. Answers of the network are [ConsensusResult]s, a
    missing answer of the core is a shutdown. *)
Inductive FetcherEvent :=
| FetcherReceive
| FetcherResponse (i : nat) (response : ConsensusResult (list bytes)) (now : nat → N)
| FetcherAdd
| FetcherFinish (missing : option (gset BlockRef)).
Inductive SchedulerEvent :=
| SchedulerStart (peers : list AuthorityIndex) (authorities : list (list BlockRef))
| SchedulerResponse (i : nat) (response : ConsensusResult (list bytes))
| SchedulerTimedOut
| SchedulerProcess (now : nat → N)
| SchedulerAdd
| SchedulerFinish (missing : option (gset BlockRef))
| SchedulerJoined.
Inductive OwnBlockEvent :=
| OwnStart
| OwnResponse (i : nat) (response : ConsensusResult (list bytes))
| OwnGather
| OwnAwake
| OwnJoined.
Inductive SyncEvent :=
| SyncFetch (i : nat)
| SyncCommand (now : N)
| SyncTimeout (now : N)
| SyncMissing (missing : option (gset BlockRef)) (now : N)
| SyncFetcher (peer : AuthorityIndex) (ev : FetcherEvent)
| SyncScheduler (ev : SchedulerEvent)
| SyncOwnBlock (ev : OwnBlockEvent)
| SyncStop.
Inductive LeaderEvent :=
| LeaderTimer (force : bool) (now : N)
| LeaderAnswer (answered : bool)
| LeaderRound (now : N)
| LeaderStop.
Inductive ProbeEvent :=
| ProbeStart
| ProbeResponse (i : nat) (result : ConsensusResult (list Round * list Round))
| ProbeFinish.
Inductive SubscriptionEvent :=
| SubAttempt (connected : bool)
| SubBlock (serialized_block : ExtendedSerializedBlock)
| SubContinue (missing : option (gset BlockRef))
| SubEnded
| SubAgain
| SubStop.
Inductive TaskEvent :=
| TService (ev : ServiceEvent)
| TSend (peer : AuthorityIndex) (serialized_block : ExtendedSerializedBlock)
| THandler (i : nat) (missing : option (gset BlockRef))
| TSync (ev : SyncEvent)
| TLeader (ev : LeaderEvent)
| TProbe (ev : ProbeEvent)
| TSubscription (peer : AuthorityIndex) (ev : SubscriptionEvent).

Section machine.
Context {S : Type} `{Store S} `{CommitCodec} `{BlockCodec} `{Crypto} `{TransactionVerifier} `{BlockRefCodec} `{BlockSigner} `{Rng}.
Context (ctx : Context) (params : Parameters) (fuel : nat) (verifier : SignedBlockVerifier) (mul_f32 : N → N).
Implicit Types (s : AuthorityService S) (y : Synchronizer) (n : Node S).
Abbreviation cm := (ctx_committee ctx).

(** ** Steps *)

Definition run_fetcher s y (sender : N) (peer : AuthorityIndex) (ev : FetcherEvent) : run (AuthorityService S * Synchronizer) :=
  match sn_fetchers y !! peer with
  | None => Done (s, y)
  | Some f =>
      match ev, fe_process f with
      | FetcherReceive, None => y ← fetcher_receive ctx s y peer f; Done (s, y)
      | FetcherResponse i response now, None =>
          match fe_requests f !! i with
          | Some r => fetcher_response ctx params verifier s y peer f i r response now
          | None => Done (s, y)
          end
      | FetcherAdd, Some p =>
          match pr_stage p with
          | BlocksVerified blocks => fetcher_add ctx s y peer f p blocks sender
          | AddingBlocks _ => Done (s, y)
          end
      | FetcherFinish missing, Some p => y ← fetcher_finish ctx y peer f p missing; Done (s, y)
      | _, _ => Done (s, y)
      end
  end.

Definition run_scheduler s y (sender : N) (ev : SchedulerEvent) : run (AuthorityService S * Synchronizer) :=
  match ev, sn_scheduler_task y with
  | SchedulerStart peers authorities, Some (Spawned missing) => y ← scheduler_start ctx params s y missing peers authorities; Done (s, y)
  | SchedulerResponse i response, Some (Fetching peers requests results) =>
      match requests !! i with
      | Some r => y ← scheduler_response ctx y peers requests results i r response; Done (s, y)
      | None => Done (s, y)
      end
  | SchedulerTimedOut, Some (Fetching _ requests results) => y ← scheduler_timed_out y requests results; Done (s, y)
  | SchedulerProcess now, Some (Processing None ((guard, blocks, peer) :: results)) =>
      scheduler_process ctx params verifier s y guard blocks peer results now
  | SchedulerAdd, Some (Processing (Some p) results) =>
      match pr_stage p with
      | BlocksVerified blocks => scheduler_add ctx s y p blocks sender results
      | AddingBlocks _ => Done (s, y)
      end
  | SchedulerFinish missing, Some (Processing (Some p) results) => y ← scheduler_finish ctx y p missing results; Done (s, y)
  | SchedulerJoined, Some (Processing None []) => Done (s, set_sn_scheduler_task None y)
  | _, _ => Done (s, y)
  end.

Definition run_own_block s y (ev : OwnBlockEvent) : run (AuthorityService S * Synchronizer) :=
  match ev, sn_own_block_task y with
  | OwnStart, Some (OwnLoop retries delay) => own_loop ctx s y retries delay
  | OwnResponse i response, Some (OwnGathering pending total highest retries delay) =>
      match pending !! i with
      | Some peer => y ← own_response ctx verifier y pending total highest retries delay i peer response; Done (s, y)
      | None => Done (s, y)
      end
  | OwnGather, Some (OwnGathering _ total highest retries delay) => Done (own_gathered ctx s y total highest retries delay)
  | OwnAwake, Some (OwnSleeping retries delay) => Done (s, own_awake y retries delay)
  | OwnJoined, Some OwnDone => Done (s, set_sn_own_block_task None y)
  | _, _ => Done (s, y)
  end.

Definition run_sync s y (sender : N) (ev : SyncEvent) : run (AuthorityService S * Synchronizer) :=
  match ev with
  | SyncFetch i =>
      match as_fetches s !! i with
      | Some (missing, peer) => Done (set_as_fetches (delete i (as_fetches s)) s, send_fetch y missing peer sender)
      | None => Done (s, y)
      end
  | SyncCommand now =>
      match sn_commands y with
      | command :: commands => y ← handle_sync_command ctx params (set_sn_commands commands y) command now; Done (s, y)
      | [] => Done (s, y)
      end
  | SyncTimeout now => Done (handle_scheduler_timeout ctx s y now sender)
  | SyncMissing missing now => Done (s, handle_missing_blocks ctx params s y missing now)
  | SyncFetcher peer ev => run_fetcher s y sender peer ev
  | SyncScheduler ev => run_scheduler s y sender ev
  | SyncOwnBlock ev => run_own_block s y ev
  | SyncStop => y ← Synchronizer_stop y; Done (s, y)
  end.

Definition run_leader s (l : LeaderTimeoutTask) (sender : N) (ev : LeaderEvent) : AuthorityService S * LeaderTimeoutTask :=
  match ev with
  | LeaderTimer force _ => let '(t, l) := leader_timed_out (as_thread s) l force sender in (set_as_thread t s, l)
  | LeaderAnswer answered =>
      (s, match lo_waiting l with Some (_, force) => leader_answered l force answered | None => l end)
  | LeaderRound now => (s, watch_round params (as_thread s) now)
  | LeaderStop => (s, leader_stopped l)
  end.

Definition run_probe s (p : option Probe) (ev : ProbeEvent) : run (AuthorityService S * option Probe) :=
  match ev, p with
  | ProbeStart, None => p ← probe_start ctx s; Done (s, Some p)
  | ProbeResponse i result, Some p =>
      match pb_requests p !! i with
      | Some peer => p ← probe_response ctx p i peer result; Done (s, Some p)
      | None => Done (s, Some p)
      end
  | ProbeFinish, Some p => '(s, _) ← probe_finish ctx s p; Done (s, None)
  | _, _ => Done (s, p)
  end.

Definition run_subscription s (subscriptions : list (option Subscription)) (sender : N) (peer : AuthorityIndex) (ev : SubscriptionEvent)
    : run (AuthorityService S * list (option Subscription)) :=
  match ev with
  | SubAgain => subscriptions ← subscribe ctx s subscriptions peer; Done (s, subscriptions)
  | SubStop => subscriptions ← Subscriber_stop ctx subscriptions; Done (s, subscriptions)
  | _ =>
      match subscriptions !! peer with
      | Some (Some sub) =>
          '(s, sub) ← match ev, sb_stage sub with
                      | SubAttempt connected, Subscribing => Done (s, subscription_attempt mul_f32 sub connected)
                      | SubBlock sb, Streaming => subscription_block ctx params verifier s sub peer sb sender
                      | SubContinue missing, Handling h => subscription_continue ctx s sub h missing sender
                      | SubEnded, Streaming => Done (s, subscription_ended sub)
                      | _, _ => Done (s, sub)
                      end;
          Done (s, <[peer := Some sub]> subscriptions)
      | _ => Done (s, subscriptions)
      end
  end.

Definition run_task n (ev : TaskEvent) : run (Node S) :=
  let 'mk_tasks s y l p subscriptions handlers sender := n in
  match ev with
  | TService ev => s ← run_service ctx params fuel verifier s ev; Done (mk_tasks s y l p subscriptions handlers sender)
  | TSend peer sb =>
      '(s, h) ← handler_start ctx params verifier s peer sb sender;
      Done (mk_tasks s y l p subscriptions (handlers ++ option_list h) (sender + 1))
  | THandler i missing =>
      match handlers !! i with
      | Some h =>
          '(s, h) ← handler_continue ctx s h missing sender;
          Done (mk_tasks s y l p subscriptions (delete i handlers ++ option_list h) (sender + 1))
      | None => Done n
      end
  | TSync ev => '(s, y) ← run_sync s y sender ev; Done (mk_tasks s y l p subscriptions handlers (sender + 1))
  | TLeader ev => let '(s, l) := run_leader s l sender ev in Done (mk_tasks s y l p subscriptions handlers (sender + 1))
  | TProbe ev => '(s, p) ← run_probe s p ev; Done (mk_tasks s y l p subscriptions handlers sender)
  | TSubscription peer ev =>
      '(s, subscriptions) ← run_subscription s subscriptions sender peer ev;
      Done (mk_tasks s y l p subscriptions handlers (sender + 1))
  end.

(** The tasks that [AuthorityNode::start] starts; it subscribes to every peer
    when the network streams blocks. *)
Definition start_tasks (node : AuthorityNode S) (now : N) (support_streaming : bool) : run (Node S) :=
  let s := an_service node in
  subscriptions ← (if support_streaming then for_each (subscribe ctx s) (Subscriber_new ctx) (other_authorities ctx)
                   else Done (Subscriber_new ctx));
  Done (mk_tasks s (Synchronizer_start ctx (an_sync_last_known_own_block node) now) (LeaderTimeoutTask_start params (as_thread s) now)
          None subscriptions [] 0).
End machine.

(** ** What may happen when *)

Section enabled.
Context {S : Type} `{StoreLaws S} `{BlockCodec} `{CommitCodec} `{Crypto} `{BlockSigner} `{Rng} `{TransactionVerifier} `{BlockRefCodec}.
Context (ctx : Context) (params : Parameters) (fuel : nat) (verifier : SignedBlockVerifier).
Context (G : BlockRef → option VerifiedBlock).
Implicit Types (s : AuthorityService S) (y : Synchronizer) (n : Node S).
Abbreviation cm := (ctx_committee ctx).
Abbreviation valid := (Committee_is_valid_index cm).

(** The core answered on a channel, or it shut down. *)
Definition answered s (sender : N) (missing : option (gset BlockRef)) : Prop :=
  match missing with
  | Some m => (sender, MissingRefs m) ∈ ct_replies (as_thread s)
  | None => ct_running (as_thread s) = false ∨ ct_handle (as_thread s) = false
  end.
Definition handler_sender (h : Handler) : N := match h with WaitAdded _ _ _ sender | WaitRefs _ sender => sender end.

(** A block that is sent: as the network has it, and the references that come
    with it are of the committee. *)
Definition block_sent (serialized_block : ExtendedSerializedBlock) : Prop :=
  delivers ctx verifier G (es_block serialized_block) ∧
  ∀ refs, mapM bcs_ref_from_bytes (es_excluded_ancestors serialized_block) = Some refs →
    Forall (λ r, valid (br_author r)) (take (Committee_size cm * 2) refs).

(** Blocks that a peer answers with. *)
Definition response_ok (response : ConsensusResult (list bytes)) : Prop :=
  match response with ROk blocks => Forall (delivers ctx verifier G) blocks | RErr _ => True end.

Definition finish_enabled s (p : Process) (missing : option (gset BlockRef)) : Prop :=
  ∃ sender, pr_stage p = AddingBlocks sender ∧ answered s sender missing.

Definition sync_enabled s y (ev : SyncEvent) : Prop :=
  match ev with
  | SyncFetch _ => sn_running y = true → (length (sn_commands y) < COMMANDS_CAPACITY)%nat
  | SyncCommand _ => sn_running y = true ∧ sn_waiting y = None
  | SyncTimeout now => sn_running y = true ∧ sn_waiting y = None ∧ sn_scheduler_timeout y ≤ now
  | SyncMissing missing _ => sn_running y = true ∧ ∃ sender, sn_waiting y = Some sender ∧ answered s sender missing
  | SyncFetcher peer FetcherReceive =>
      ∀ f, sn_fetchers y !! peer = Some f → (length (fe_requests f) < FETCH_BLOCKS_CONCURRENCY)%nat
  | SyncFetcher _ (FetcherResponse _ response _) => response_ok response
  | SyncFetcher peer (FetcherFinish missing) => ∃ f p, sn_fetchers y !! peer = Some f ∧ fe_process f = Some p ∧ finish_enabled s p missing
  | SyncScheduler (SchedulerStart peers authorities) =>
      peers ≡ₚ other_authorities ctx ∧
      ∀ missing, sn_scheduler_task y = Some (Spawned missing) → authorities ≡ₚ (map_list (missing_by_authority params missing)).*2
  | SyncScheduler (SchedulerResponse _ response) | SyncOwnBlock (OwnResponse _ response) => response_ok response
  | SyncScheduler (SchedulerFinish missing) =>
      ∃ p results, sn_scheduler_task y = Some (Processing (Some p) results) ∧ finish_enabled s p missing
  | SyncScheduler SchedulerJoined | SyncOwnBlock OwnJoined => sn_running y = true ∧ sn_waiting y = None
  | _ => True
  end.

Definition leader_enabled s (l : LeaderTimeoutTask) (ev : LeaderEvent) : Prop :=
  lo_running l = true ∧
  match ev with
  | LeaderTimer force now => lo_waiting l = None ∧ leader_timer_ready l force now = true
  | LeaderAnswer true => ∃ sender force, lo_waiting l = Some (sender, force) ∧ (sender, BlockTried) ∈ ct_replies (as_thread s)
  | LeaderAnswer false => ct_running (as_thread s) = false ∨ ct_handle (as_thread s) = false
  | LeaderRound _ => lo_waiting l = None ∧ round_changed (as_thread s) l = true
  | LeaderStop => lo_waiting l = None
  end.

Definition task_enabled n (ev : TaskEvent) : Prop :=
  let s := nd_service n in
  match ev with
  | TService ev => external ev ∧ service_enabled ctx params fuel verifier G s ev
  | TSend peer sb => valid peer ∧ block_sent sb
  | THandler i missing => ∃ h, nd_handlers n !! i = Some h ∧ answered s (handler_sender h) missing
  | TSync ev => sync_enabled s (nd_synchronizer n) ev
  | TLeader ev => leader_enabled s (nd_leader_timeout n) ev
  | TProbe _ => True
  | TSubscription peer (SubBlock sb) => block_sent sb
  | TSubscription peer (SubContinue missing) =>
      ∃ sub h, nd_subscriptions n !! peer = Some (Some sub) ∧ sb_stage sub = Handling h ∧ answered s (handler_sender h) missing
  | TSubscription peer SubAgain => valid peer
  | TSubscription _ _ => True
  end.
End enabled.
