(* ===== verification/LeaderTimer.v ===== *)
(** * The leader timeout

    How often, when and for which round the task asks the core for a block. *)
From S2P Require Import Prelude Committee StakeAggregator Block ThresholdClock Commit LeaderScoring Store DagState LeaderSchedule BaseCommitter BlockVerifier TransactionConsumer BlockManager Linearizer CommitObserver QuorumRounds Ancestor TransactionCertifier Core CoreThread AuthorityService AuthorityNode CommitSyncer Synchronizer NodeTasks ServiceProofs TaskMachine.

Section timer.
Context {S : Type} (params : Parameters).
Implicit Types (s : AuthorityService S) (l : LeaderTimeoutTask).

(** The commands that a step adds to the queue of the core, and when. *)
Definition new_commands s s' : list CoreThreadCommand := drop (length (ct_receiver (as_thread s))) (ct_receiver (as_thread s')).

(** The task since it saw the round that it waits on: the time it saw it, and
    what it asked the core for, with the times. Between its steps the core and
    the other tasks change the service as they like. *)
Inductive timer_reachable : N → Round → list (CoreThreadCommand * N) → LeaderTimeoutTask → Prop :=
| timer_start s now :
    timer_reachable now (signaled_round (co_outputs (as_core s))) [] (LeaderTimeoutTask_start params (as_thread s) now)
| timer_asks since round asked s s' l l' sender force now : timer_reachable since round asked l →
    leader_enabled s l (LeaderTimer force now) → run_leader params s l sender (LeaderTimer force now) = (s', l') →
    timer_reachable since round (asked ++ ((λ c, (c, now)) <$> new_commands s s')) l'
| timer_continues since round asked s s' l l' sender answered : timer_reachable since round asked l →
    leader_enabled s l (LeaderAnswer answered) → run_leader params s l sender (LeaderAnswer answered) = (s', l') →
    timer_reachable since round asked l'
| timer_round since round asked s s' l l' sender now : timer_reachable since round asked l →
    leader_enabled s l (LeaderRound now) → run_leader params s l sender (LeaderRound now) = (s', l') →
    timer_reachable now (signaled_round (co_outputs (as_core s))) [] l'
| timer_stops since round asked s s' l l' sender : timer_reachable since round asked l →
    leader_enabled s l LeaderStop → run_leader params s l sender LeaderStop = (s', l') → timer_reachable since round asked l'.

(** How many of the commands are requests for a block, forced or not. *)
Definition is_request (round : Round) (force : bool) (command : CoreThreadCommand) : bool :=
  match command with NewBlock r _ f => bool_decide (r = round) && Bool.eqb f force | _ => false end.
Definition requests (round : Round) (force : bool) (asked : list (CoreThreadCommand * N)) : nat :=
  length (filter (λ c, is_request round force c.1) asked).
Lemma is_request_new round force sender force' : is_request round force (NewBlock round sender force') = Bool.eqb force' force.
Proof. unfold is_request. by rewrite bool_decide_true. Qed.

(** A request that the core has not answered counts; afterwards the flag of
    its timer is set, unless the task has stopped. *)
Record timer_ok (since : N) (round : Round) (asked : list (CoreThreadCommand * N)) l : Prop := {
  tm_round : lo_leader_round l = round;
  tm_min : lo_min_leader_timeout l = since + pm_min_round_delay params;
  tm_max : lo_max_leader_timeout l = since + pm_leader_timeout params;
  tm_asked : Forall (λ '(c, now), ∃ sender (force : bool), c = NewBlock round sender force ∧
    since + (if force then pm_leader_timeout params else pm_min_round_delay params) ≤ now) asked;
  tm_once (force : bool) : (requests round force asked ≤ 1)%nat;
  tm_idle (force : bool) : lo_running l = true → (if force then lo_max_leader_round_timed_out l else lo_min_leader_round_timed_out l) = false →
    (∀ sender, lo_waiting l ≠ Some (sender, force)) → requests round force asked = 0%nat;
}.

Lemma requests_snoc round force asked sender force' now :
  requests round force (asked ++ [(NewBlock round sender force', now)]) =
  (requests round force asked + if decide (force = force') then 1 else 0)%nat.
Proof.
  unfold requests. rewrite filter_app, length_app. f_equal. destruct (decide (force = force')) as [->|Hne].
  - rewrite filter_cons_True by (cbn [fst]; rewrite is_request_new; by destruct force'). done.
  - rewrite filter_cons_False by (cbn [fst]; rewrite is_request_new; destruct force, force'; naive_solver). done.
Qed.

Lemma new_command s s' l l' sender force now : run_leader params s l sender (LeaderTimer force now) = (s', l') →
  new_commands s s' = [NewBlock (lo_leader_round l) sender force] ∨ new_commands s s' = [].
Proof.
  intros [= <- _]. unfold new_commands, dispatch_new_block, send_command. cbn.
  case (ct_handle (as_thread s) && ct_running (as_thread s)); cbn; [left; by rewrite drop_app_length|right; by rewrite drop_all].
Qed.

Lemma timer_reachable_ok since round asked l : timer_reachable since round asked l → timer_ok since round asked l.
Proof.
  induction 1 as [s now|since round asked s s' l l' sender force now _ [Hrd Hmin Hmax Ha Ho Hi] Hen Hrun|since round asked s s' l l' sender answered _ [Hrd Hmin Hmax Ha Ho Hi] Hen Hrun
    |since round asked s s' l l' sender now _ _ Hen Hrun|since round asked s s' l l' sender _ [Hrd Hmin Hmax Ha Ho Hi] Hen Hrun].
  - split; try done. cbn; lia.
  - destruct Hen as [Hgo [Hw Hready]]. pose proof (new_command _ _ _ _ _ _ _ Hrun) as Hnew. injection Hrun as Hs' <-.
    assert (Hzero : requests round force asked = 0%nat).
    { apply Hi; [done| |by rewrite Hw]. unfold leader_timer_ready in Hready. destruct force; by apply andb_true_iff in Hready as [?%negb_true_iff _]. }
    assert (Htime : since + (if force then pm_leader_timeout params else pm_min_round_delay params) ≤ now).
    { unfold leader_timer_ready in Hready. destruct force; apply andb_true_iff in Hready as [_ Hle%bool_decide_eq_true_1]; lia. }
    destruct Hnew as [-> | ->]; rewrite ?app_nil_r; cbn; rewrite ?Hrd; split; cbn; try done.
    + apply Forall_app. split; [done|]. apply Forall_singleton. by exists sender, force.
    + intros f. rewrite requests_snoc. specialize (Ho f). case_decide; [subst f|]; lia.
    + intros f _ Hf Hne. rewrite requests_snoc. rewrite decide_False by (intros ->; by eapply Hne). rewrite Nat.add_0_r.
      apply Hi; [done|done|by rewrite Hw].
    + intros f _ Hf Hne. apply Hi; [done|done|by rewrite Hw].
  - injection Hrun as _ <-. destruct (lo_waiting l) as [[sender' force]|] eqn:Hw; [|split; try done; by rewrite Hw].
    split; cbn; try done. intros f -> Hf _. cbn in Hf. apply Hi; [apply Hen|destruct f, force; cbn in *; try done|].
    intros sender'' [= -> ->]. by destruct f.
  - injection Hrun as _ <-. split; try done. cbn; lia.
  - injection Hrun as _ <-. by split.
Qed.

(** C21: for a round the leader timeout asks the core for a block at most once
    without and at most once with force, for the round that it saw last and
    not before the time of the round is over. *)
Theorem leader_timeout_once since round asked l : timer_reachable since round asked l →
  Forall (λ '(c, now), ∃ sender (force : bool), c = NewBlock round sender force ∧
    since + (if force then pm_leader_timeout params else pm_min_round_delay params) ≤ now) asked ∧
  (∀ force : bool, (requests round force asked ≤ 1)%nat) ∧ (length asked ≤ 2)%nat.
Proof.
  intros Hr. destruct (timer_reachable_ok _ _ _ _ Hr) as [_ _ _ Ha Ho _]. split_and!; [done|done|].
  assert (length asked = requests round true asked + requests round false asked)%nat as ->; [|pose proof (Ho true); pose proof (Ho false); lia].
  clear Ho Hr. induction Ha as [|[c now] asked (sender & force & -> & _) _ IH]; [done|]. unfold requests in *. destruct force.
  - rewrite filter_cons_True, filter_cons_False by (cbn [fst]; rewrite is_request_new; cbn; tauto). cbn. lia.
  - rewrite filter_cons_False, filter_cons_True by (cbn [fst]; rewrite is_request_new; cbn; tauto). cbn. lia.
Qed.
End timer.
