(* ===== verification/NodeSafety.v ===== *)
(** * An authority from its start on

    The states that a node reaches from an empty store through the requests of
    its peers, the tasks around the core and the turns of the core thread, and
    what holds in all of them: no event panics, commits are consecutive and
    commit no block twice, and no two blocks are proposed for one round. *)
From S2P Require Import Prelude Committee StakeAggregator Block ThresholdClock Commit LeaderScoring Store DagState DagStateProofs DagTraversal LeaderSchedule BaseCommitter CommitRule BlockVerifier TransactionConsumer DagViews BlockManager BlockManagerProofs BlockManagerSafety ManagedNode Linearizer CommitObserver LinearizerProofs CommitSafety UniversalCommitter QuorumRounds Ancestor TransactionCertifier CertifierProofs CommitFinalizer Core CoreThread AuthorityService AuthorityNode CoreState Ledger CoreProposal CoreProposer CoreCommit CoreNode CoreRun NodeStart ServiceProofs.

Section node.
Context {S : Type} `{StoreLaws S} `{BlockCodec} `{CommitCodec} `{Crypto} `{BlockSigner} `{Hlaws : RngLaws} `{TransactionVerifier} `{BlockRefCodec}.
Context (ctx : Context) (params : Parameters) (fuel : nat) (verifier : SignedBlockVerifier).
Context (G : BlockRef → option VerifiedBlock) (genesis : list VerifiedBlock).
Implicit Types (s : AuthorityService S).

(** What is assumed of the network, the configuration and the code that is
    called: the blocks that honest authorities produce ([G]) with few enough
    Byzantine ones, a bounded universe, and serialization and signing of own
    commits and blocks that work. *)
Record setting (byz : gset AuthorityIndex) (U : gset BlockRef) : Prop := {
  se_honest : honest_node (S := S) ctx G byz;
  se_genesis : genesis_blocks ctx = Done genesis;
  se_verifier : SignedBlockVerifier_new ctx = Done verifier;
  se_config : config_ok ctx;
  se_fits : universe_fits G genesis U fuel;
  se_codec c : is_Some (bcs_commit_to_bytes c);
  se_storable c bytes : bcs_commit_to_bytes c = Some bytes → st_commit_ok (TrustedCommit_new_trusted c bytes);
  se_sign : signing_ok ctx;
  se_limits : limits_ok ctx;
}.

(** The states of the node. *)
Inductive node_reachable : AuthorityService S → Prop :=
| nr_start store clk boot_counter streaming node :
    store_rel store view_empty → announces_first ctx params fuel G genesis store clk boot_counter streaming →
    AuthorityNode_start ctx params fuel clk store 0 boot_counter streaming = Done node →
    node_reachable (an_service node)
| nr_step s ev s' :
    node_reachable s → service_enabled ctx params fuel verifier G s ev →
    run_service ctx params fuel verifier s ev = Done s' →
    node_reachable s'.

Context (byz : gset AuthorityIndex) (U : gset BlockRef) (Hset : setting byz U).

Lemma counter_fresh : cn_count (SubscriptionCounter_new ctx) = 0 ∧
  sumN (cn_subscriptions_by_authority (SubscriptionCounter_new ctx)) = 0.
Proof. clear. split; [done|]. unfold SubscriptionCounter_new. cbn -[sumN]. induction (Committee_size (ctx_committee ctx)); simpl; lia. Qed.

Lemma reachable_ok s : node_reachable s → service_ok ctx fuel G genesis s.
Proof using All.
  destruct Hset. induction 1 as [store clk boot streaming node Hstore Hann Hrun|s ev s' _ IH Hen Hrun].
  - destruct (node_start_ok ctx params fuel G byz se_honest0 genesis se_genesis0 se_config0 U se_fits0 se_codec0 se_storable0
      se_sign0 se_limits0 store clk boot streaming Hstore Hann) as (node' & Hrun' & Hth & _ & Hsub & Hmon & Hcnt & _ & _).
    assert (node' = node) as -> by congruence. split; [done|by rewrite Hmon; apply length_replicate|].
    destruct counter_fresh as [Hc Hs]. split; rewrite Hcnt; [apply length_replicate|congruence|rewrite Hc; unfold u64_max; lia|done].
  - destruct (service_step_ok ctx params fuel verifier G byz se_honest0 genesis se_genesis0 se_config0 U se_fits0 se_codec0
      se_storable0 se_sign0 se_limits0 s ev IH Hen) as (s1 & Hrun1 & Hok & _). by assert (s1 = s') as -> by congruence.
Qed.



End node.

(** ** Agreement *)

Section agreement.
Context {S : Type} `{StoreLaws S} `{BlockCodec} `{CommitCodec} `{Crypto} `{BlockSigner} `{Hlaws : RngLaws} `{TransactionVerifier} `{BlockRefCodec}.
Context (ctx : Context) (fuel : nat) (verifier : SignedBlockVerifier).
Context (G : BlockRef → option VerifiedBlock) (genesis : list VerifiedBlock) (byz : gset AuthorityIndex).
Implicit Types (s : AuthorityService S).

(** The state of one of the honest authorities, with parameters of its own. *)
Definition authority_state (i : AuthorityIndex) s : Prop := ∃ params U,
  setting (S := S) (own_context ctx i) fuel verifier G genesis byz U ∧
  node_reachable (own_context ctx i) params fuel verifier G genesis s.

Lemma authority_ledger i s : authority_state i s → universe_ok (ctx_committee ctx) G byz ∧
  rtc (ledger_step (S := S) ctx fuel G) ledger_genesis (ledger_of (as_core s)).
Proof using All.
  intros (params & U & Hset & Hr). split; [apply (hn_universe _ _ _ (se_honest _ _ _ _ _ _ _ Hset))|].
  destruct (th_core _ _ _ _ _ (so_thread _ _ _ _ _ (reachable_ok (own_context ctx i) params fuel verifier G genesis byz U Hset s Hr))) as [v Hok].
  destruct (ok_ledger _ _ _ _ _ _ Hok) as [Hsteps _]. eapply rtc_subrel; [|exact Hsteps]. intros l l'. apply ledger_step_own.
Qed.

End agreement.
