(* ===== verification/TaskSafety.v ===== *)
(** * The tasks of a node

    From the start of a node on, no step of any of its tasks panics, and what
    the tasks do to the core is what the node of [NodeSafety] may do: the
    assumptions made there on the tasks hold. The blocks in flight are always
    the ones that some task has asked for. *)
From S2P Require Import Prelude Committee StakeAggregator Block ThresholdClock Commit LeaderScoring Store DagState DagStateProofs DagTraversal LeaderSchedule BaseCommitter CommitRule BlockVerifier TransactionConsumer DagViews BlockManager BlockManagerProofs BlockManagerSafety ManagedNode Linearizer CommitObserver LinearizerProofs CommitSafety UniversalCommitter QuorumRounds Ancestor TransactionCertifier CertifierProofs CommitFinalizer Core CoreThread AuthorityService AuthorityNode CommitSyncer Synchronizer NodeTasks SyncLocks CoreState Ledger CoreProposal CoreProposer CoreCommit CoreNode CoreRun NodeStart ServiceProofs TaskMachine NodeSafety.

Section tasks.
Context {S : Type} `{StoreLaws S} `{BlockCodec} `{CommitCodec} `{Crypto} `{BlockSigner} `{Hlaws : RngLaws} `{TransactionVerifier} `{BlockRefCodec}.
Context (ctx : Context) (params : Parameters) (fuel : nat) (verifier : SignedBlockVerifier) (mul_f32 : N → N).
Context (G : BlockRef → option VerifiedBlock) (genesis : list VerifiedBlock).
Context (byz : gset AuthorityIndex) (U : gset BlockRef) (Hset : setting (S := S) ctx fuel verifier G genesis byz U).
Implicit Types (s : AuthorityService S) (y : Synchronizer) (n : Node S) (t : CoreThread S).
Abbreviation cm := (ctx_committee ctx).
Abbreviation pc := (ctx_protocol_config ctx).
Abbreviation own := (ctx_own_index ctx).
Abbreviation valid := (Committee_is_valid_index cm).
Abbreviation reachable := (node_reachable ctx params fuel verifier G genesis).

(** ** Steps of the service *)

Lemma service_at s : reachable s → service_ok ctx fuel G genesis s.
Proof using All. by apply (reachable_ok ctx params fuel verifier G genesis byz U). Qed.

Lemma dag_at s : reachable s → ∃ v, dag_ok ctx G genesis (as_dag_state s) v.
Proof using All.
  intros Hr. destruct (th_core _ _ _ _ _ (so_thread _ _ _ _ _ (service_at s Hr))) as [v Hok]. exists v.
  apply (cg_dag _ _ _ _ _ (ok_commits _ _ _ _ _ _ Hok)).
Qed.

Lemma service_kept s ev : reachable s → service_enabled ctx params fuel verifier G s ev → ∃ s', run_service ctx params fuel verifier s ev = Done s' ∧ reachable s' ∧
  (external ev → thread_kept (as_thread s) (as_thread s') ∧ as_fetches s' = as_fetches s).
Proof using All.
  intros Hr Hen. pose proof (service_at s Hr) as Hs. destruct Hset.
  destruct (service_step_ok ctx params fuel verifier G byz se_honest genesis se_genesis se_config U se_fits se_codec se_storable se_sign se_limits
    s ev Hs Hen) as (s' & Hrun & _ & _ & Hk). exists s'. split; [done|]. split; [|done]. by eapply nr_step.
Qed.

(** A step on the thread alone. *)
Lemma thread_step s ev : reachable s → thread_enabled ctx params fuel G (as_thread s) ev → (∀ b, ev ≠ DispatchSubscriber b) →
  ∃ t', run_thread ctx params fuel (as_thread s) ev = Done t' ∧ reachable (set_as_thread t' s) ∧
    ((∀ round, ev ≠ DispatchLastKnown round) → thread_kept (as_thread s) t').
Proof using All.
  intros Hr Hen Hne. pose proof (service_at s Hr) as Hs.
  assert (Hen' : service_enabled ctx params fuel verifier G s (OnThread ev)) by (destruct ev; try done; by destruct (Hne exists_)).
  destruct (service_kept s (OnThread ev) Hr Hen') as (s' & Hrun & Hr' & _). cbn in Hrun. apply bind_Done in Hrun as (t' & Ht' & [= <-]).
  exists t'. split; [done|]. split; [done|]. clear Hen'. destruct Hset. destruct (step_ok ctx params fuel G byz se_honest genesis se_genesis se_config U se_fits
    se_codec se_storable se_sign se_limits (as_thread s) ev (so_thread _ _ _ _ _ Hs) Hen) as (t1 & Ht1 & _ & _ & Hk).
  by assert (t1 = t') as <- by congruence.
Qed.

Lemma thread_kept_refl t : thread_kept t t.
Proof. by split. Qed.
Lemma thread_kept_trans t1 t2 t3 : thread_kept t1 t2 → thread_kept t2 t3 → thread_kept t1 t3.
Proof.
  intros [Hv1 Hl1] [Hv2 Hl2]. split; [by auto|]. intros Hw. destruct (Hl1 Hw) as [He1 Hw1]. destruct (Hl2 Hw1) as [He2 Hw2]. split; [congruence|done].
Qed.

Definition votes_kept s s' : Prop :=
  ∀ r, voted (co_transaction_certifier (as_core s)) r → voted (co_transaction_certifier (as_core s')) r.
Lemma kept_votes s s' : thread_kept (as_thread s) (as_thread s') → votes_kept s s'.
Proof. intros Hk r. apply (tk_voted _ _ Hk). Qed.
Lemma enabled_kept s s' blocks : votes_kept s s' → blocks_enabled ctx G (as_core s) blocks → blocks_enabled ctx G (as_core s') blocks.
Proof. intros Hk [HG Hv]. split; [done|]. intros Hf. eapply Forall_impl; [exact (Hv Hf)|]. intros b. apply Hk. Qed.

(** Every block that is voted on is known to the certifier. *)
Lemma add_voted_all st outs voted_blocks : good ctx G st outs → (∀ p, p ∈ voted_blocks → G (vb_reference p.1) = Some p.1) →
  ∀ st' sent, TransactionCertifier_add_voted_blocks ctx st voted_blocks = Done (st', sent) →
    Forall (λ b, voted st' (vb_reference b)) voted_blocks.*1.
Proof using Hset.
  clear Hlaws. intros Hg HG st' sent Hrun. destruct Hset as [Hhonest _ _ _ _ _ _ _ _].
  unfold TransactionCertifier_add_voted_blocks, CertifierState_add_voted_blocks in Hrun.
  apply bind_Done in Hrun as ([st1 new] & Hrun & [= <- <-]).
  destruct (for_each_run (λ visited x, (∃ outs', good ctx G x.1 outs') ∧ Forall (λ b, voted x.1 (vb_reference b)) visited.*1)
    (λ '(st, certified_blocks) '(voted_block, reject_txn_votes),
      '(st, blocks) ← add_voted_block ctx st voted_block reject_txn_votes; Done (st, certified_blocks ++ blocks)) (st, []) voted_blocks)
    as (x & Hrun' & _ & Hv).
  - split; [by eexists|constructor].
  - intros visited [b rej] rest [st1' new1] Heq [[outs1 Hg1] Hv1]. cbn in Hg1, Hv1.
    assert (HGb : G (vb_reference b) = Some b) by (apply (HG (b, rej)); by eapply elem_of_middle).
    destruct (add_voted_block_spec ctx G byz (hn_universe _ _ _ Hhonest) st1' outs1 b rej HGb Hg1) as (st2 & new2 & -> & Hg2 & Hl & Hb). cbn.
    eexists. split; [done|]. cbn. split; [by eexists|]. rewrite fmap_app. apply Forall_app. split.
    + eapply Forall_impl; [exact Hv1|]. intros b'. apply gains_voted. by apply later_gains.
    + apply Forall_singleton. intros Hgc. cbn in Hgc |- *. rewrite (la_gc _ _ Hl) in Hgc. specialize (Hb Hgc). unfold entry in Hb.
      by destruct (cs_votes st2 !! vb_reference b).
  - rewrite Hrun in Hrun'. by injection Hrun' as <-.
Qed.

(** ** Fetched blocks *)

Lemma delivered signed rejected serialized : delivers ctx verifier G serialized → bcs_from_bytes serialized = Some signed →
  verify_and_vote ctx verifier signed = f_ok rejected →
  let b := VerifiedBlock_new_verified signed serialized in G (vb_reference b) = Some b ∧ vb_round b ≠ 0.
Proof using Hset.
  clear Hlaws. intros Hd Hdec Hver b. split; [by eapply Hd|].
  destruct (verify_and_vote_spec ctx verifier (u_committee _ _ _ (hn_universe _ _ _ (se_honest _ _ _ _ _ _ _ Hset))) signed) as (res & Hv & Hacc).
  assert (res = ROk rejected) as -> by (unfold f_ok in Hver; congruence). destruct (proj1 (Hacc rejected) eq_refl) as [Hac _]. by destruct Hac.
Qed.

Lemma verify_loop_ok peer serialized now : valid peer → Forall (delivers ctx verifier G) serialized →
  ∃ res, verify_loop ctx verifier peer serialized now = Done res ∧
    ∀ voted_blocks, res = ROk voted_blocks → from_universe G voted_blocks.*1.
Proof using Hset.
  clear Hlaws. intros Hpeer Hall. revert now. induction Hall as [|bytes serialized Hd _ IH]; intros now; cbn [verify_loop].
  { eexists. split; [done|]. intros ? [= <-]. constructor. }
  pose proof (u_committee _ _ _ (hn_universe _ _ _ (se_honest _ _ _ _ _ _ _ Hset))) as Hcm.
  destruct (bcs_from_bytes bytes) as [signed|] eqn:Hdec; [|by eexists].
  destruct (verify_and_vote_spec ctx verifier Hcm signed) as (res & Hver & Hacc). rewrite Hver, f_run_bind.
  destruct res as [rejected|e].
  2:{ destruct (authority_total ctx peer Hpeer) as [x ->]. by eexists. }
  destruct (delivered signed rejected bytes Hd Hdec Hver) as [HGb Hr]. set (b := VerifiedBlock_new_verified signed bytes) in *.
  assert (∃ u, (if bool_decide (saturating_sub (vb_timestamp_ms b) (now O) = 0) then Done tt
    else _ ← Committee_authority cm (vb_author b); Done tt) = Done u) as [u ->].
  { case_bool_decide; [by eexists|]. destruct (authority_total ctx (vb_author b)) as [x ->]; [|by eexists].
    apply (u_wf _ _ _ (hn_universe _ _ _ (se_honest _ _ _ _ _ _ _ Hset)) _ _ HGb). }
  rewrite f_run_bind. destruct (IH (λ i, now (Datatypes.S i))) as (res & -> & Hres). destruct res as [voted_blocks|e]; [|by eexists].
  cbn [mbind fallible_bind]. eexists. split; [done|]. intros ? [= <-]. constructor; [done|]. by apply Hres.
Qed.

Lemma verify_blocks_ok s peer serialized now : reachable s → valid peer → Forall (delivers ctx verifier G) serialized →
  ∃ s' res, verify_blocks ctx verifier s peer serialized now = Done (s', res) ∧ reachable s' ∧
    thread_kept (as_thread s) (as_thread s') ∧ as_fetches s' = as_fetches s ∧
    ∀ blocks, res = ROk blocks → blocks_enabled ctx G (as_core s') blocks.
Proof using All.
  intros Hr Hpeer Hall. unfold verify_blocks. destruct (verify_loop_ok peer serialized now Hpeer Hall) as (res & -> & Hres). cbn [mbind run_bind].
  destruct res as [voted_blocks|e]; [|eexists s, _; split_and!; [done..|apply thread_kept_refl|done|done]]. specialize (Hres _ eq_refl).
  assert (HG : ∀ p, p ∈ voted_blocks → G (vb_reference p.1) = Some p.1).
  { intros p Hp. apply (proj1 (Forall_forall _ _) Hres p.1). by apply list_elem_of_fmap_2. }
  destruct (pc_mysticeti_fastpath pc) eqn:Hf.
  2:{ eexists s, _. split_and!; [done..|apply thread_kept_refl|done|]. intros blocks [= <-]. split; [done|]. by rewrite Hf. }
  destruct (thread_step s (Shared (Voted voted_blocks)) Hr) as (t' & Hrun & Hr' & Hk); [split; [by rewrite Hf|exact HG]|done|].
  cbn in Hrun. apply bind_Done in Hrun as (c' & Hrun & [= <-]). unfold with_certifier in Hrun. apply bind_Done in Hrun as ([st sent] & Hvote & [= <-]).
  change (co_transaction_certifier (as_core s)) with (co_transaction_certifier (ct_core (as_thread s))). rewrite Hvote. cbn [mbind run_bind].
  eexists _, _. split; [done|]. split; [exact Hr'|]. split; [by apply Hk|]. split; [done|]. intros blocks [= <-]. split; [done|]. intros _. cbn.
  destruct (th_core _ _ _ _ _ (so_thread _ _ _ _ _ (service_at s Hr))) as [v Hok].
  destruct (ok_certifier _ _ _ _ _ _ Hok ltac:(by rewrite Hf)) as [_ (outs & Hgood)].
  by eapply add_voted_all.
Qed.

(** A process that is in order in a state of the service. *)
Definition process_ok s (p : Process) : Prop :=
  valid (pr_peer p) ∧ match pr_stage p with BlocksVerified blocks => blocks_enabled ctx G (as_core s) blocks | AddingBlocks _ => True end.

Lemma process_kept s s' p : votes_kept s s' → process_ok s p → process_ok s' p.
Proof. clear. intros Hk [Hv Hs]. split; [done|]. destruct (pr_stage p); [|done]. by eapply enabled_kept. Qed.

Lemma start_process_ok s inner guards peer guard serialized now : reachable s → valid peer → Forall (delivers ctx verifier G) serialized →
  locks inner (guard :: guards) →
  ∃ s' inner' p, start_process ctx params verifier s inner peer guard serialized now = Done (s', inner', p) ∧ reachable s' ∧
    thread_kept (as_thread s) (as_thread s') ∧ as_fetches s' = as_fetches s ∧
    locks inner' (process_guards p ++ guards) ∧ (∀ x, p = Some x → process_ok s' x ∧ pr_guard x = guard ∧ pr_peer x = peer).
Proof using All.
  intros Hr Hpeer Hall Hl. unfold start_process.
  assert (∃ s' res, receive_fetched ctx params verifier s peer guard serialized now = Done (s', res) ∧ reachable s' ∧
    thread_kept (as_thread s) (as_thread s') ∧ as_fetches s' = as_fetches s ∧
    ∀ blocks, res = ROk (Some blocks) → blocks_enabled ctx G (as_core s') blocks) as (s' & res & -> & Hr' & Hk & Hfe & Hres).
  { unfold receive_fetched. case_bool_decide; [eexists s, _; split_and!; [done..|apply thread_kept_refl|done|done]|].
    destruct (_ && _); [eexists s, _; split_and!; [done..|apply thread_kept_refl|done|done]|].
    match goal with |- context [verify_blocks _ _ _ _ ?x _] => set (l := x) end. assert (Hl' : Forall (delivers ctx verifier G) l) by (unfold l; destruct (pc_consensus_batched_block_sync _); [by apply Forall_take|done]).
    destruct (verify_blocks_ok s peer l now Hr Hpeer Hl') as (s' & res & -> & Hr' & Hk & Hfe & Hres). cbn [mbind run_bind].
    eexists _, _. split_and!; [done..|]. intros blocks Heq. destruct res as [bs|]; [|done]. injection Heq as ->. by apply Hres. }
  cbn [mbind run_bind]. destruct (drop_guard_locks inner guards guard Hl) as (inner' & Hdrop & Hl'). rewrite Hdrop.
  destruct (authority_total ctx peer Hpeer) as [x Hx]. rewrite Hx. destruct res as [[blocks|]|e]; cbn [mbind run_bind].
  - eexists _, _, _. split_and!; [done..|]. intros p [= <-]. split; [|done]. split; [done|]. by apply Hres.
  - eexists _, _, None. by split_and!.
  - eexists _, _, None. by split_and!.
Qed.

Lemma add_process_ok s inner guards p blocks sender : reachable s → process_ok s p → pr_stage p = BlocksVerified blocks →
  locks inner (pr_guard p :: guards) →
  ∃ s' inner' p', add_process ctx s inner p blocks sender = Done (s', inner', p') ∧ reachable s' ∧
    thread_kept (as_thread s) (as_thread s') ∧ as_fetches s' = as_fetches s ∧
    locks inner' (process_guards p' ++ guards) ∧ (∀ x, p' = Some x → process_ok s' x ∧ pr_guard x = pr_guard p ∧ pr_peer x = pr_peer p).
Proof using All.
  intros Hr [Hpeer Hst] Hstage Hl. rewrite Hstage in Hst. unfold add_process, add_fetched.
  destruct (authority_total ctx (pr_peer p) Hpeer) as [x Hx]. rewrite Hx.
  destruct (if pc_consensus_batched_block_sync pc then ROk tt else check_fetched (pr_peer p) (bg_block_refs (pr_guard p)) blocks) as [[]|e]; cbn [mbind run_bind].
  2:{ destruct (drop_guard_locks inner guards (pr_guard p) Hl) as (inner' & -> & Hl'). cbn [mbind run_bind].
      eexists _, _, None. split_and!; [done..|apply thread_kept_refl|done|done|done]. }
  destruct (service_kept s (VotesObserved blocks) Hr (proj1 Hst)) as (s1 & Hrun1 & Hr1 & _). cbn in Hrun1.
  apply bind_Done in Hrun1 as (m & -> & [= <-]). cbn [mbind run_bind].
  destruct (map_run_total (λ b, Committee_authority cm (vb_author b)) blocks) as [xs ->].
  { intros b Hb. destruct (proj1 (Forall_forall _ _) (proj1 Hst) b Hb) as [HGb _]. apply authority_total.
    apply (u_wf _ _ _ (hn_universe _ _ _ (se_honest _ _ _ _ _ _ _ Hset)) _ _ HGb). }
  cbn [mbind run_bind]. destruct (thread_step (set_as_commit_vote_monitor m s) (DispatchBlocks blocks sender) Hr1 Hst) as (t' & Hrun & Hr' & Hk); [done|].
  cbn in Hrun. cbn [as_thread set_as_commit_vote_monitor]. rewrite Hrun. cbn [mbind run_bind].
  eexists _, _, _. split; [done|]. split; [exact Hr'|]. split; [by apply Hk|]. split; [done|]. split; [done|]. intros y [= <-]. done.
Qed.

Lemma finish_process_ok y guards p missing : valid (pr_peer p) → locks (sn_inflight_blocks_map y) (pr_guard p :: guards) →
  ∃ inner y', finish_process ctx y p missing = Done y' ∧ locks inner guards ∧
    (y' = set_sn_inflight_blocks_map inner y ∨ y' = try_send_command (set_sn_inflight_blocks_map inner y) KickOffScheduler).
Proof.
  clear. intros Hpeer Hl. unfold finish_process. destruct (drop_guard_locks _ guards (pr_guard p) Hl) as (inner & -> & Hl'). cbn [mbind run_bind].
  destruct missing as [m|].
  - eexists inner, _. split; [done|]. split; [done|]. case_bool_decide; [by left|by right].
  - destruct (authority_total ctx (pr_peer p) Hpeer) as [x ->]. cbn [mbind run_bind]. eexists inner, _. split; [done|]. split; [done|by left].
Qed.

(** ** The invariant of the synchronizer *)

(** The task of a peer: its guards are for the peer, and its channel, its
    requests and their retries are bounded. *)
Record fetcher_ok s (a : AuthorityIndex) (f : Fetcher) : Prop := {
  fo_valid : valid a;
  fo_process p : fe_process f = Some p → process_ok s p;
  fo_guards : Forall (λ g, bg_peer g = a) (fetcher_guards f);
  fo_receiver : (length (fe_receiver f) ≤ FETCH_BLOCKS_CONCURRENCY)%nat;
  fo_requests : (length (fe_requests f) ≤ FETCH_BLOCKS_CONCURRENCY)%nat;
  fo_retries : Forall (λ r, fq_retries r ≤ MAX_RETRIES) (fe_requests f);
}.

Definition result_ok (x : BlocksGuard * list bytes * AuthorityIndex) : Prop := valid x.2 ∧ Forall (delivers ctx verifier G) x.1.2.
Definition task_ok s (task : option SchedulerTask) : Prop :=
  match task with
  | None => True
  | Some (Spawned missing) => Committee_size cm ≠ 1%nat ∧ missing ≠ ∅ ∧ ∀ r, r ∈ missing → valid (br_author r)
  | Some (Fetching peers requests results) =>
      Forall valid peers ∧ Forall (λ r, valid (fq_peer r) ∧ bg_peer (fq_guard r) = fq_peer r) requests ∧ Forall result_ok results
  | Some (Processing current results) => (∀ p, current = Some p → process_ok s p) ∧ Forall result_ok results
  end.

(** The commands for the own last block; there is at most one such command or
    task, and the core waits for it. *)
Definition own_commands (commands : list Command) : list Command := filter (λ c, c = FetchOwnLastBlock) commands.
Definition own_live y : Prop := FetchOwnLastBlock ∈ sn_commands y ∨ ∃ task, sn_own_block_task y = Some task ∧ task ≠ OwnDone.
Definition own_task_ok (task : option OwnBlockTask) : Prop :=
  match task with Some (OwnGathering pending _ _ _ _) => Forall valid pending | _ => True end.

Record sync_ok s y : Prop := {
  sc_locks : locks (sn_inflight_blocks_map y) (live_guards y);
  sc_fetchers a f : sn_fetchers y !! a = Some f → fetcher_ok s a f;
  sc_all a : sn_running y = true → valid a → a ≠ own → is_Some (sn_fetchers y !! a);
  sc_commands missing peer result : FetchBlocks missing peer result ∈ sn_commands y → valid peer;
  sc_task : task_ok s (sn_scheduler_task y);
  sc_waiting : is_Some (sn_waiting y) → Committee_size cm ≠ 1%nat ∧ sn_scheduler_task y = None;
  sc_own_once : (length (own_commands (sn_commands y)) + length (option_list (sn_own_block_task y)) ≤ 1)%nat;
  sc_own_task : own_task_ok (sn_own_block_task y);
  sc_own : own_live y → co_last_known_proposed_round (as_core s) = None ∧ w_changed (ct_rx_last_known_proposed_round (as_thread s)) = false;
}.

Lemma fetcher_kept s s' a f : votes_kept s s' → fetcher_ok s a f → fetcher_ok s' a f.
Proof. clear. intros Hk [? Hp ? ? ? ?]. split; try done. intros p Hp'. by eapply process_kept, Hp. Qed.
Lemma task_kept s s' task : votes_kept s s' → task_ok s task → task_ok s' task.
Proof.
  clear. intros Hk. destruct task as [[| |]|]; try done. intros [Hp Hr]. split; [|done]. intros p Hp'. by eapply process_kept, Hp.
Qed.
Lemma sync_kept s s' y : thread_kept (as_thread s) (as_thread s') → sync_ok s y → sync_ok s' y.
Proof.
  clear. intros Hk [Hl Hf Ha Hc Ht Hw Ho Hot How]. split; try done.
  - intros a f Haf. by eapply fetcher_kept, Hf; [apply kept_votes|].
  - eapply task_kept; [by apply kept_votes|done].
  - intros [Hn Hch]%How. destruct (tk_last_known _ _ Hk Hch) as [He Hw']. split; [|done]. unfold as_core in *. congruence.
Qed.

(** Updates of one part. *)
Lemma update_fetcher s y a f inner f' : sync_ok s y → sn_fetchers y !! a = Some f →
  locks inner (fetcher_guards f' ++ fetchers_guards (delete a (sn_fetchers y)) ++ scheduler_guards (sn_scheduler_task y)) →
  fetcher_ok s a f' → sync_ok s (with_fetcher (set_sn_inflight_blocks_map inner y) a f').
Proof.
  clear. intros [Hl Hf Ha Hc Ht Hw Ho Hot How] Haf Hl' Hf'. split; try done; cbn.
  - unfold live_guards. cbn. fold (fetchers_guards (<[a := f']> (sn_fetchers y))). by rewrite fetchers_insert, <-app_assoc.
  - intros a' g [[<- <-]|[_ Hg]]%lookup_insert_Some; [done|by apply Hf].
  - intros a' Hr Hv Hne. destruct (decide (a' = a)) as [->|]; [rewrite lookup_insert_eq; by eexists|].
    rewrite lookup_insert_ne by done. by apply Ha.
Qed.
Lemma fetcher_locks s y a f : sync_ok s y → sn_fetchers y !! a = Some f →
  locks (sn_inflight_blocks_map y) (fetcher_guards f ++ fetchers_guards (delete a (sn_fetchers y)) ++ scheduler_guards (sn_scheduler_task y)).
Proof.
  clear. intros Hs Hf. pose proof (sc_locks _ _ Hs) as Hl. unfold live_guards in Hl. fold (fetchers_guards (sn_fetchers y)) in Hl.
  by rewrite (fetchers_delete _ a f Hf), <-app_assoc in Hl.
Qed.

Lemma update_task s y inner task : sync_ok s y → locks inner (fetchers_guards (sn_fetchers y) ++ scheduler_guards task) →
  task_ok s task → (sn_waiting y = None ∨ task = None) → sync_ok s (with_scheduler y inner task).
Proof.
  clear. intros [Hl Hf Ha Hc Ht Hw Ho Hot How] Hl' Ht' Hn. split; try done; cbn. intros Hs. destruct (Hw Hs) as [? _]. split; [done|].
  destruct Hn as [Hn| ->]; [|done]. rewrite Hn in Hs. by destruct Hs.
Qed.

(** A kick-off, which is lost when there is no room. *)
Lemma kick_ok s y : sync_ok s y → sync_ok s (try_send_command y KickOffScheduler).
Proof.
  clear. intros [Hl Hf Ha Hc Ht Hw Ho Hot How]. unfold try_send_command. destruct (_ && _); [|by split]. split; try done; cbn.
  - intros m p r. rewrite elem_of_app, list_elem_of_singleton. intros [Hin|]; [by eapply Hc|done].
  - unfold own_commands. rewrite filter_app. cbn. rewrite decide_False by done. by rewrite app_nil_r.
  - intros Hlive. apply How. destruct Hlive as [Hin|?]; [left|by right]. cbn in Hin. apply elem_of_app in Hin as [?|?%list_elem_of_singleton]; done.
Qed.

(** ** The tasks of the peers *)

Lemma cached_rounds s : reachable s → ∃ l, get_last_cached_block_per_authority ctx (as_dag_state s) u32_max = Done l ∧ length l = Committee_size cm.
Proof using All.
  intros Hr. destruct (dag_at s Hr) as [v Hok]. destruct Hset.
  pose proof (gc_bound ctx fuel G byz se_honest genesis se_config U se_fits (as_dag_state s) v Hok) as Hgc.
  destruct (last_cached_per_authority_spec ctx G byz se_honest genesis se_genesis (as_dag_state s) v u32_max Hok) as (l & Hl & Hlen & _);
    [right; lia|unfold u32_max; lia|done|]. by exists l.
Qed.

Lemma highest_rounds_total s : reachable s → ∃ rounds, get_highest_accepted_rounds ctx (as_dag_state s) = Done rounds.
Proof using All.
  intros Hr. unfold get_highest_accepted_rounds. destruct (cached_rounds s Hr) as (l & -> & Hlen). cbn [mbind run_bind].
  rewrite bool_decide_eq_true_2 by done. by eexists.
Qed.

Lemma fetcher_guards_request f i r : fe_requests f !! i = Some r → fe_process f = None →
  fetcher_guards f ≡ₚ fq_guard r :: fe_receiver f ++ (fq_guard <$> delete i (fe_requests f)).
Proof.
  clear. intros Hi Hp. unfold fetcher_guards. rewrite Hp. cbn. rewrite app_nil_r.
  rewrite (delete_Permutation _ i r Hi) at 1. cbn. by rewrite Permutation_middle.
Qed.

Lemma guards_request f a s i r : fetcher_ok s a f → fe_requests f !! i = Some r → fe_process f = None →
  bg_peer (fq_guard r) = a ∧ Forall (λ g, bg_peer g = a) (fe_receiver f ++ (fq_guard <$> delete i (fe_requests f))).
Proof.
  clear. intros Hf Hi Hp. pose proof (fo_guards _ _ _ Hf) as Hg. rewrite (fetcher_guards_request f i r Hi Hp) in Hg. by apply Forall_cons in Hg.
Qed.

Lemma length_delete_request {A} (l : list A) i x : l !! i = Some x → (length (delete i l) + 1 = length l)%nat.
Proof. clear. intros Hi. apply lookup_lt_Some in Hi as Hlt. rewrite length_delete by done. lia. Qed.

Lemma fetcher_response_ok s y a f i r response now : reachable s → sync_ok s y → sn_fetchers y !! a = Some f → fe_process f = None →
  fe_requests f !! i = Some r → response_ok ctx verifier G response →
  ∃ s' y', fetcher_response ctx params verifier s y a f i r response now = Done (s', y') ∧ reachable s' ∧ sync_ok s' y' ∧ as_fetches s' = as_fetches s.
Proof using All.
  intros Hr Hs Hf Hp Hi Hresp. pose proof (sc_fetchers _ _ Hs a f Hf) as Hok. pose proof (fetcher_locks s y a f Hs Hf) as Hl.
  rewrite (fetcher_guards_request f i r Hi Hp) in Hl. destruct (guards_request f a s i r Hok Hi Hp) as [Hpeer Hgs].
  pose proof (length_delete_request _ _ _ Hi) as Hlen. destruct Hok as [Hva _ _ Hrec Hreq Hret].
  assert (Hret' : Forall (λ r, fq_retries r ≤ MAX_RETRIES) (delete i (fe_requests f))) by (by apply Forall_delete).
  unfold fetcher_response. destruct response as [blocks|e].
  - destruct (start_process_ok s _ _ a (fq_guard r) blocks now Hr Hva Hresp Hl) as (s' & inner & p & -> & Hr' & Hk & Hfe & Hl' & Hpo).
    cbn [mbind run_bind]. eexists _, _. split; [done|]. split; [done|]. split; [|done].
    apply update_fetcher with f; [by eapply sync_kept|done| |].
    + eapply locks_proper; [done| |exact Hl']. unfold fetcher_guards. cbn. solve_Permutation.
    + split; cbn; [done|intros x ->; by apply Hpo| |done|lia|done]. unfold fetcher_guards. cbn. rewrite app_assoc. apply Forall_app. split; [done|].
      destruct p as [x|]; [|constructor]. cbn. apply Forall_singleton. destruct (Hpo x eq_refl) as (_ & -> & _). done.
  - cbn [retries_after]. case_bool_decide as Hle.
    + eexists _, _. split; [done|]. split; [done|]. split; [|done]. 
      assert (y = set_sn_inflight_blocks_map (sn_inflight_blocks_map y) y) as Hy by (by destruct y). rewrite Hy at 1.
      apply update_fetcher with f; [done|done| |].
      * eapply locks_proper; [done| |exact Hl]. unfold fetcher_guards. cbn. rewrite Hp, fmap_app. cbn. solve_Permutation.
      * split; cbn; [done|by rewrite Hp| |done|rewrite length_app; cbn; lia|apply Forall_app; split; [done|by apply Forall_singleton]].
        unfold fetcher_guards. cbn. rewrite Hp, fmap_app. cbn. rewrite app_nil_r, app_assoc. apply Forall_app. split; [done|]. by apply Forall_singleton.
    + destruct (drop_guard_locks _ _ _ Hl) as (inner & -> & Hl'). cbn [mbind run_bind]. eexists _, _. split; [done|]. split; [done|]. split; [|done].
      apply update_fetcher with f; [done|done| |].
      * eapply locks_proper; [done| |exact Hl']. unfold fetcher_guards. cbn. rewrite Hp. cbn. solve_Permutation.
      * split; cbn; [done|by rewrite Hp| |done|lia|done]. unfold fetcher_guards. cbn. by rewrite Hp, app_nil_r.
Qed.

Lemma Forall_permuted {A} (P : A → Prop) l l' : l ≡ₚ l' → Forall P l → Forall P l'.
Proof. by intros ->. Qed.

Lemma same_inflight y : set_sn_inflight_blocks_map (sn_inflight_blocks_map y) y = y.
Proof. by destruct y. Qed.

Lemma run_fetcher_ok s y sender a ev : reachable s → sync_ok s y → sync_enabled ctx params verifier G s y (SyncFetcher a ev) →
  ∃ s' y', run_fetcher ctx params verifier s y sender a ev = Done (s', y') ∧ reachable s' ∧ sync_ok s' y' ∧ as_fetches s' = as_fetches s.
Proof using All.
  intros Hr Hs Hen. unfold run_fetcher. destruct (sn_fetchers y !! a) as [f|] eqn:Hf; [|by eexists _, _].
  pose proof (sc_fetchers _ _ Hs a f Hf) as Hok. pose proof (fetcher_locks s y a f Hs Hf) as Hl.
  assert (Hnone : ∃ s' y', Done (s, y) = Done (s', y') ∧ reachable s' ∧ sync_ok s' y' ∧ as_fetches s' = as_fetches s) by (by eexists _, _).
  destruct ev as [|i response now| |missing]; destruct (fe_process f) as [p|] eqn:Hp; try done.
  - unfold fetcher_receive. destruct (fe_receiver f) as [|g receiver] eqn:Hrec; [done|].
    destruct (highest_rounds_total s Hr) as [rounds ->]. cbn [mbind run_bind]. eexists _, _. split; [done|]. split; [done|]. split; [|done].
    rewrite <-(same_inflight y) at 1. apply update_fetcher with f; [done|done| |].
    + eapply locks_proper; [done| |exact Hl]. unfold fetcher_guards. rewrite Hrec. cbn. rewrite Hp, fmap_app. cbn. solve_Permutation.
    + destruct Hok as [Hva _ Hg Hr5 Hq Hret]. specialize (Hen f Hf). rewrite Hrec in Hr5. cbn in Hr5.
      split; cbn; [done|by rewrite Hp| |lia|rewrite length_app; cbn; lia|apply Forall_app; split; [done|]; apply Forall_singleton; cbn; unfold MAX_RETRIES; lia].
      eapply Forall_permuted; [|exact Hg]. unfold fetcher_guards. rewrite Hrec. cbn. rewrite Hp, fmap_app. cbn. solve_Permutation.
  - destruct (fe_requests f !! i) as [r|] eqn:Hi; [|done]. by apply fetcher_response_ok.
  - destruct (pr_stage p) as [blocks|sender'] eqn:Hst; [|done]. unfold fetcher_add.
    assert (Hl1 : locks (sn_inflight_blocks_map y) (pr_guard p :: fe_receiver f ++ (fq_guard <$> fe_requests f) ++
      fetchers_guards (delete a (sn_fetchers y)) ++ scheduler_guards (sn_scheduler_task y))).
    { eapply locks_proper; [done| |exact Hl]. unfold fetcher_guards. rewrite Hp. cbn. solve_Permutation. }
    destruct (add_process_ok s _ _ p blocks sender Hr (fo_process _ _ _ Hok p Hp) Hst Hl1) as (s' & inner & p' & -> & Hr' & Hk & Hfe & Hl' & Hpo).
    cbn [mbind run_bind]. eexists _, _. split; [done|]. split; [done|]. split; [|done].
    apply update_fetcher with f; [by eapply sync_kept|done| |].
    + eapply locks_proper; [done| |exact Hl']. unfold fetcher_guards. cbn. solve_Permutation.
    + destruct Hok as [Hva _ Hg Hr5 Hq Hret]. unfold fetcher_guards in Hg. rewrite Hp, app_assoc in Hg. apply Forall_app in Hg as [Hg Hgp].
      apply Forall_cons in Hgp as [Hgp _]. split; cbn; [done|intros x ->; by apply Hpo| |done..]. unfold fetcher_guards. cbn. rewrite app_assoc. apply Forall_app.
      split; [done|]. destruct p' as [x|]; [|constructor]. apply Forall_singleton. destruct (Hpo x eq_refl) as (_ & -> & _). done.
  - unfold fetcher_finish.
    assert (Hl1 : locks (sn_inflight_blocks_map y) (pr_guard p :: fe_receiver f ++ (fq_guard <$> fe_requests f) ++
      fetchers_guards (delete a (sn_fetchers y)) ++ scheduler_guards (sn_scheduler_task y))).
    { eapply locks_proper; [done| |exact Hl]. unfold fetcher_guards. rewrite Hp. cbn. solve_Permutation. }
    destruct (finish_process_ok y _ p missing (proj1 (fo_process _ _ _ Hok p Hp)) Hl1) as (inner & y' & -> & Hl' & Hy'). cbn [mbind run_bind].
    assert (Hs' : sync_ok s (with_fetcher (set_sn_inflight_blocks_map inner y) a (mk_fetcher (fe_receiver f) (fe_requests f) None))).
    { apply update_fetcher with f; [done|done| |].
      - eapply locks_proper; [done| |exact Hl']. unfold fetcher_guards. cbn. solve_Permutation.
      - destruct Hok as [Hva _ Hg Hr5 Hq Hret]. unfold fetcher_guards in Hg. rewrite Hp, app_assoc in Hg. apply Forall_app in Hg as [Hg _].
        split; cbn; [done|done| |done..]. unfold fetcher_guards. cbn. by rewrite app_nil_r. }
    eexists _, _. split; [done|]. split; [done|]. split; [|done]. destruct Hy' as [-> | ->]; [done|].
    apply kick_ok in Hs'. revert Hs'. unfold try_send_command. cbn. by destruct (_ && _).
Qed.

(** ** The main loop *)

Lemma handle_fetch_command_ok s y missing peer result : sync_ok s y → sn_running y = true → valid peer →
  ∃ y', handle_fetch_command ctx params y missing peer result = Done y' ∧ sync_ok s y'.
Proof.
  clear. intros Hs Hrun Hpeer. unfold handle_fetch_command.
  assert (Hans : ∀ y r, sync_ok s y → sync_ok s (answer_fetch y result r)) by (intros z r [? ? ? ? ? ? ? ? ?]; by split).
  case_bool_decide as Hne; [eexists; split; [done|]; by apply Hans|].
  set (refs := list_to_set _). destruct (lock_blocks_locks _ _ refs peer (sc_locks _ _ Hs)) as (inner & guard & -> & Hl & Hg). cbn [mbind run_bind].
  assert (Hs1 : locks inner (live_guards y) → sync_ok s (set_sn_inflight_blocks_map inner y)) by (intros ?; destruct Hs; by split).
  destruct guard as [g|]; [|eexists; split; [done|]; by apply Hans, Hs1].
  destruct (sc_all _ _ Hs peer Hrun Hpeer Hne) as [f Hf]. cbn [sn_fetchers set_sn_inflight_blocks_map]. rewrite Hf. cbn [expect mbind run_bind].
  case_bool_decide as Hroom.
  - eexists. split; [done|]. apply Hans. apply update_fetcher with f; [done|done| |].
    + eapply locks_proper; [done| |exact Hl]. unfold live_guards, fetcher_guards. fold (fetchers_guards (sn_fetchers y)). cbn.
      rewrite (fetchers_delete _ peer f Hf). unfold fetcher_guards. solve_Permutation.
    + destruct (sc_fetchers _ _ Hs peer f Hf) as [Hva Hp Hgs Hr5 Hq Hret]. split; cbn; [done|done| |rewrite length_app; cbn; lia|done|done].
      eapply Forall_permuted; [|exact (Forall_cons_2 _ g _ (proj1 Hg) Hgs)]. unfold fetcher_guards. cbn. solve_Permutation.
  - destruct (authority_total ctx peer Hpeer) as [x ->]. cbn [mbind run_bind]. destruct (drop_guard_locks _ _ _ Hl) as (inner' & Hd & Hl').
    cbn [sn_inflight_blocks_map set_sn_inflight_blocks_map]. rewrite Hd. cbn [mbind run_bind]. eexists. split; [done|]. apply Hans. destruct Hs. by split.
Qed.

Lemma pop_command s y command commands : sync_ok s y → sn_commands y = command :: commands → sync_ok s (set_sn_commands commands y).
Proof.
  clear. intros [Hl Hf Ha Hc Ht Hw Ho Hot How] Heq. split; try done; cbn.
  - intros m p r Hin. eapply (Hc m p r). rewrite Heq. by right.
  - rewrite Heq in Ho. unfold own_commands in *. rewrite filter_cons in Ho. case_decide; cbn in Ho; lia.
  - intros [Hin|Hin]; apply How; [left; rewrite Heq; by right|by right].
Qed.

Lemma handle_sync_command_ok s y command commands now : sync_ok s y → sn_running y = true → sn_commands y = command :: commands →
  ∃ y', handle_sync_command ctx params (set_sn_commands commands y) command now = Done y' ∧ sync_ok s y'.
Proof.
  clear. intros Hs Hrun Heq. pose proof (pop_command s y command commands Hs Heq) as Hs1. destruct command as [missing peer result| |]; cbn.
  - apply handle_fetch_command_ok; [done|done|]. eapply (sc_commands _ _ Hs missing peer result). rewrite Heq. by left.
  - eexists. split; [done|]. cbn. destruct (sn_own_block_task y) as [task|] eqn:Htask; [done|].
    destruct Hs as [_ _ _ _ _ _ Ho _ How]. destruct Hs1 as [Hl Hf Ha Hc Ht Hw Ho1 Hot How1]. split; try done; cbn.
    + rewrite Heq in Ho. unfold own_commands in *. rewrite filter_cons, decide_True in Ho by done. cbn in Ho |- *. lia.
    + intros _. apply How. left. rewrite Heq. by left.
  - eexists. split; [done|]. unfold handle_kick_off. case_bool_decide; [|done]. destruct Hs1. by split.
Qed.

(** ** The periodic task *)

Lemma authorities_seq : (Committee_authorities cm).*1 = seq 0 (Committee_size cm).
Proof.
  clear. unfold Committee_authorities, Committee_size. apply list_eq. intros i. rewrite list_lookup_fmap, list_lookup_imap.
  destruct (c_authorities cm !! i) as [a|] eqn:Ha; cbn.
  - symmetry. apply lookup_seq. apply lookup_lt_Some in Ha. lia.
  - symmetry. apply lookup_ge_None. rewrite length_seq. by apply lookup_ge_None.
Qed.
Lemma other_authorities_spec : valid own → NoDup (other_authorities ctx) ∧ (∀ a, a ∈ other_authorities ctx ↔ valid a ∧ a ≠ own) ∧
  (length (other_authorities ctx) + 1 = Committee_size cm)%nat.
Proof.
  clear. intros Hown. unfold other_authorities. rewrite authorities_seq.
  assert (Hnd : NoDup (filter (λ a, a ≠ own) (seq 0 (Committee_size cm)))) by (apply NoDup_filter, NoDup_seq).
  assert (Hin : ∀ a, a ∈ filter (λ a, a ≠ own) (seq 0 (Committee_size cm)) ↔ valid a ∧ a ≠ own).
  { intros a. rewrite list_elem_of_filter, elem_of_seq. rewrite thread_valid. lia. }
  split; [done|]. split; [done|].
  assert (Hperm : seq 0 (Committee_size cm) ≡ₚ own :: filter (λ a, a ≠ own) (seq 0 (Committee_size cm))).
  { apply NoDup_Permutation; [apply NoDup_seq|apply NoDup_cons; split; [rewrite Hin; tauto|done]|].
    intros a. rewrite elem_of_cons, Hin, elem_of_seq, thread_valid. apply thread_valid in Hown. destruct (decide (a = own)) as [->|]; lia. }
  apply Permutation_length in Hperm. rewrite length_seq in Hperm. cbn in Hperm. lia.
Qed.

Lemma chunks_length {A} (k m : nat) (l : list A) : (0 < k → length l ≤ m * k → length (chunks k l) ≤ m)%nat.
Proof.
  clear. intros Hk. unfold chunks. generalize (length l) at 2 as turns. revert l. induction m as [|m IH]; intros l turns Hl.
  - destruct l; [|cbn in Hl; lia]. by destruct turns.
  - destruct turns as [|turns], l as [|x l]; cbn -[drop take]; try lia. apply le_n_S, IH. rewrite length_drop. lia.
Qed.

Lemma per_peer_enough authorities : (1 < Committee_size cm → authorities ≤
  Nat.min (Committee_size cm - 1) MAX_PERIODIC_SYNC_PEERS * num_authorities_per_peer ctx authorities)%nat.
Proof.
  clear. intros Hsize. unfold num_authorities_per_peer, div_ceil. set (k := Nat.min _ _). assert (Hk : (0 < k)%nat) by (unfold k, MAX_PERIODIC_SYNC_PEERS; lia).
  pose proof (Nat.div_mod (authorities + k - 1) k) as Hd. pose proof (Nat.mod_upper_bound (authorities + k - 1) k). lia.
Qed.

Definition request_valid (r : FetchRequest) : Prop := valid (fq_peer r) ∧ bg_peer (fq_guard r) = fq_peer r.

Lemma send_requests_ok batches peers rounds breadth_first inner requests rest : Forall valid peers → (length batches ≤ length peers)%nat →
  locks inner ((fq_guard <$> requests) ++ rest) → Forall request_valid requests →
  ∃ inner' peers' requests', send_requests ctx batches peers rounds breadth_first (inner, requests) = Done (inner', peers', requests') ∧
    locks inner' ((fq_guard <$> requests') ++ rest) ∧ Forall valid peers' ∧ Forall request_valid requests'.
Proof.
  clear. revert peers inner requests. induction batches as [|refs batches IH]; intros peers inner requests Hp Hlen Hl Hr; cbn [send_requests].
  { eexists _, _, _. by split_and!. }
  destruct peers as [|peer peers]; [cbn in Hlen; lia|]. apply Forall_cons in Hp as [Hpeer Hp]. unfold push_request at 1.
  destruct (authority_total ctx peer Hpeer) as [x ->]. cbn [mbind run_bind].
  destruct (lock_blocks_locks inner _ refs peer Hl) as (inner1 & guard & -> & Hl1 & Hg). cbn [mbind run_bind].
  apply IH; [done|cbn in Hlen; lia| |].
  - destruct guard as [g|]; [|done]. eapply locks_proper; [done| |exact Hl1]. rewrite fmap_app. cbn. solve_Permutation.
  - destruct guard as [g|]; [|done]. apply Forall_app. split; [done|]. apply Forall_singleton. split; [done|apply Hg].
Qed.

Lemma missing_by_authority_spec missing : 0 < pm_max_blocks_per_sync params → missing ≠ ∅ →
  (∀ r, r ∈ missing → valid (br_author r)) →
  missing_by_authority params missing ≠ ∅ ∧ ∀ a, is_Some (missing_by_authority params missing !! a) → valid a.
Proof.
  clear. intros Hmax Hne Hval. unfold missing_by_authority. set (l := take _ _).
  assert (Hin : ∀ r, r ∈ l → valid (br_author r)).
  { intros r (i & Hi & _)%elem_of_take. apply Hval. apply elem_of_set_list. by eapply list_elem_of_lookup_2. }
  assert (Hl : l ≠ []).
  { unfold l. destruct (set_list missing) as [|r rest] eqn:Heq.
    - destruct Hne. apply leibniz_equiv. intros r. rewrite <-elem_of_set_list, Heq. set_solver.
    - destruct (2 * MAX_PERIODIC_SYNC_PEERS * N.to_nat (pm_max_blocks_per_sync params))%nat eqn:Hz; [|done].
      unfold MAX_PERIODIC_SYNC_PEERS in Hz. lia. }
  set (f := λ (m : gmap AuthorityIndex (list BlockRef)) r, <[br_author r := default [] (m !! br_author r) ++ [r]]> m). clearbody l.
  assert (Hgen : ∀ l m, (∀ r, r ∈ l → valid (br_author r)) → (∀ a, is_Some (m !! a) → valid a) →
    (∀ a, is_Some (foldl f m l !! a) → valid a) ∧ ((m ≠ ∅ ∨ l ≠ []) → foldl f m l ≠ ∅)).
  { clear. induction l as [|r l IH]; intros m Hl Hm; [split; [done|naive_solver]|]. cbn [foldl].
    assert (Hins : f m r ≠ ∅) by apply insert_non_empty. destruct (IH (f m r)) as [Hv Hn].
    - intros r' Hr'. apply Hl. by right.
    - intros a [x [[<- _]|[_ Hx]]%lookup_insert_Some]; [apply Hl; by left|apply Hm; by exists x].
    - split; [done|]. intros _. apply Hn. by left. }
  destruct (Hgen l ∅ Hin) as [Hv Hn]; [intros a; rewrite lookup_empty; by intros [? ?]|]. split; [apply Hn; by right|done].
Qed.

(** The configuration of the synchronizer: blocks are asked for, and the older
    periodic task has a peer for each of its three requests. *)
Record sync_config : Prop := {
  sg_blocks : 0 < pm_max_blocks_per_sync params;
  sg_peers : pc_consensus_batched_block_sync pc = true ∨ Committee_size cm = 1%nat ∨ (4 ≤ Committee_size cm)%nat;
}.
Context (Hconfig : sync_config).

Lemma count_missing_total authors : (∀ a, a ∈ authors → valid a) → count_missing ctx authors = Done tt.
Proof.
  clear. intros Hv. unfold count_missing. destruct (map_run_total (λ a, vec_get (replicate (Committee_size cm) 0) a) authors) as [l ->]; [|done].
  intros a Ha%Hv%thread_valid. unfold vec_get. destruct (lookup_lt_is_Some_2 (replicate (Committee_size cm) 0) a) as [x ->]; [by rewrite length_replicate|].
  by eexists.
Qed.

Lemma scheduler_start_ok s y missing peers authorities : reachable s → sync_ok s y → sn_scheduler_task y = Some (Spawned missing) →
  peers ≡ₚ other_authorities ctx → authorities ≡ₚ (map_list (missing_by_authority params missing)).*2 →
  ∃ y', scheduler_start ctx params s y missing peers authorities = Done y' ∧ sync_ok s y'.
Proof using All.
  intros Hr Hs Htask Hpeers Hauth. pose proof (sc_task _ _ Hs) as Ht. rewrite Htask in Ht. destruct Ht as (Hsize & Hne & Hval).
  pose proof (hn_valid _ _ _ (se_honest _ _ _ _ _ _ _ Hset)) as Hown. destruct (other_authorities_spec Hown) as (_ & Hin & Hlen).
  assert (Hpv : Forall valid peers) by (rewrite Hpeers; apply Forall_forall; intros a Ha; by apply Hin).
  apply Permutation_length in Hpeers. destruct (highest_rounds_total s Hr) as [rounds Hrounds].
  assert (Hl : locks (sn_inflight_blocks_map y) ((fq_guard <$> []) ++ fetchers_guards (sn_fetchers y))).
  { pose proof (sc_locks _ _ Hs) as Hl. unfold live_guards in Hl. rewrite Htask in Hl. cbn in Hl |- *. by rewrite app_nil_r in Hl. }
  assert (Hbatches : ∀ batches breadth_first, (length batches ≤ length peers)%nat →
    ∃ y', ('(inner, peers, request_futures) ← send_requests ctx batches peers rounds breadth_first (sn_inflight_blocks_map y, []);
           Done (set_sn_scheduler_task (Some (Fetching peers request_futures [])) (set_sn_inflight_blocks_map inner y))) = Done y' ∧ sync_ok s y').
  { intros batches bf Hb. destruct (send_requests_ok batches peers rounds bf _ [] _ Hpv Hb Hl) as (inner & peers' & requests & -> & Hl' & Hp' & Hr'); [constructor|].
    cbn [mbind run_bind]. eexists. split; [done|]. apply update_task; [done| |done|].
    - eapply locks_proper; [done| |exact Hl']. cbn. rewrite app_nil_r. solve_Permutation.
    - destruct (sn_waiting y) eqn:Hw; [|by left]. destruct (sc_waiting _ _ Hs) as [_ Hn]; [by rewrite Hw|]. congruence. }
  unfold scheduler_start. destruct (pc_consensus_batched_block_sync pc) eqn:Hb.
  - unfold fetch_batched. assert (Hgt : (1 < Committee_size cm)%nat) by lia. rewrite bool_decide_eq_true_2 by done.
    destruct (missing_by_authority_spec missing (sg_blocks Hconfig) Hne Hval) as [Hmne Hkeys].
    rewrite count_missing_total. 2:{ intros a ([a' l] & -> & Hm%elem_of_map_list)%list_elem_of_fmap. apply Hkeys. by exists l. }
    cbn [mbind run_bind]. rewrite Hrounds. cbn [mbind run_bind]. apply Permutation_length in Hauth. rewrite length_fmap in Hauth.
    pose proof (per_peer_enough (length authorities) Hgt) as Hen. set (per_peer := num_authorities_per_peer ctx (length authorities)) in *.
    assert (Hpos : (0 < per_peer)%nat).
    { assert (length authorities ≠ O); [|destruct per_peer; [rewrite Nat.mul_0_r in Hen|]; lia]. rewrite Hauth. intros Hz.
      destruct Hmne. apply map_eq. intros a. rewrite lookup_empty. apply eq_None_not_Some. intros [l Hm%elem_of_map_list].
      by rewrite (nil_length_inv _ Hz) in Hm; apply elem_of_nil in Hm. }
    rewrite bool_decide_eq_false_2 by lia. cbn [negb]. apply Hbatches. rewrite length_fmap.
    etrans; [by apply (chunks_length per_peer (Nat.min (Committee_size cm - 1) MAX_PERIODIC_SYNC_PEERS))|]. lia.
  - unfold fetch_old. rewrite count_missing_total.
    2:{ intros a (r & -> & (i & Hi & _)%elem_of_take)%list_elem_of_fmap. apply Hval, elem_of_set_list. by eapply list_elem_of_lookup_2. }
    cbn [mbind run_bind]. rewrite Hrounds. cbn [mbind run_bind]. apply Hbatches. unfold old_batches. rewrite length_fmap.
    etrans; [apply (chunks_length 32 3); [lia|rewrite length_take; lia]|].
    destruct (sg_peers Hconfig) as [?|[?|?]]; [congruence|lia|lia].
Qed.

(** In a committee of two or three authorities the older version of the fetch
    runs out of peers when they cannot take all the missing blocks in one batch
    each. *)
Lemma chunks_more {A} (k m : nat) (l : list A) : (0 < k → m * k < length l → m < length (chunks k l))%nat.
Proof.
  clear. intros Hk. unfold chunks. assert (length l ≤ length l)%nat as Hle by lia. revert Hle. generalize (length l) at 2 4 as turns.
  revert l. induction m as [|m IH]; intros l turns Hle Hl; destruct turns as [|turns], l as [|x l]; cbn -[drop take] in *; try lia.
  apply le_n_S, (IH (drop k (x :: l)) turns); rewrite length_drop; cbn; lia.
Qed.
Lemma send_requests_runs_out batches peers rounds breadth_first inner requests rest : Forall valid peers → (length peers < length batches)%nat →
  locks inner ((fq_guard <$> requests) ++ rest) → send_requests ctx batches peers rounds breadth_first (inner, requests) = Panic.
Proof.
  clear. revert batches inner requests. induction peers as [|peer peers IH]; intros [|refs batches] inner requests Hp Hlen Hl; cbn in Hlen; try lia; [done|].
  apply Forall_cons in Hp as [Hpeer Hp]. cbn [send_requests]. unfold push_request at 1.
  destruct (authority_total ctx peer Hpeer) as [x ->]. cbn [mbind run_bind].
  destruct (lock_blocks_locks inner _ refs peer Hl) as (inner1 & guard & -> & Hl1 & _). cbn [mbind run_bind].
  apply IH; [done|lia|]. destruct guard as [g|]; [|done]. eapply locks_proper; [done| |exact Hl1]. rewrite fmap_app. cbn. solve_Permutation.
Qed.
Lemma old_fetch_runs_out s inner guards missing peers : reachable s → locks inner guards → (∀ r, r ∈ missing → valid (br_author r)) →
  peers ≡ₚ other_authorities ctx → (1 < Committee_size cm < 4)%nat → (32 * (Committee_size cm - 1) < size missing)%nat →
  fetch_old ctx (as_dag_state s) inner missing peers = Panic.
Proof using Hset Hlaws mul_f32.
  intros Hr Hl Hval Hpeers Hsize Hmany.
  pose proof (hn_valid _ _ _ (se_honest _ _ _ _ _ _ _ Hset)) as Hown. destruct (other_authorities_spec Hown) as (_ & Hin & Hlen).
  assert (Hpv : Forall valid peers) by (rewrite Hpeers; apply Forall_forall; intros a Ha; by apply Hin).
  apply Permutation_length in Hpeers. destruct (highest_rounds_total s Hr) as [rounds Hrounds].
  unfold fetch_old. rewrite count_missing_total.
  2:{ intros a (r & -> & (i & Hi & _)%elem_of_take)%list_elem_of_fmap. apply Hval, elem_of_set_list. by eapply list_elem_of_lookup_2. }
  cbn [mbind run_bind]. rewrite Hrounds. cbn [mbind run_bind]. eapply (send_requests_runs_out _ _ _ _ _ [] guards); [done| |done].
  unfold old_batches. rewrite length_fmap. apply chunks_more; [lia|]. rewrite length_take.
  assert (length (set_list missing) = size missing) as -> by (unfold set_list, size, set_size; cbn; by rewrite sort_by_Permutation). lia.
Qed.

Lemma scheduler_locks s y requests rest task : sync_ok s y → sn_scheduler_task y = Some task →
  scheduler_guards (Some task) = (fq_guard <$> requests) ++ rest → ∀ i r, requests !! i = Some r →
  locks (sn_inflight_blocks_map y) (fq_guard r :: fetchers_guards (sn_fetchers y) ++ (fq_guard <$> delete i requests) ++ rest).
Proof.
  clear. intros Hs Ht Hg i r Hi. pose proof (sc_locks _ _ Hs) as Hl. unfold live_guards in Hl. fold (fetchers_guards (sn_fetchers y)) in Hl.
  rewrite Ht, Hg, (delete_Permutation _ i r Hi) in Hl. eapply locks_proper; [done| |exact Hl]. cbn. solve_Permutation.
Qed.

Lemma not_waiting s y task : sync_ok s y → sn_scheduler_task y = Some task → sn_waiting y = None.
Proof. clear. intros Hs Ht. destruct (sn_waiting y) eqn:Hw; [|done]. destruct (sc_waiting _ _ Hs) as [_ Hn]; [by rewrite Hw|congruence]. Qed.

Lemma scheduler_response_ok s y peers requests results i r response : sync_ok s y →
  sn_scheduler_task y = Some (Fetching peers requests results) → requests !! i = Some r → response_ok ctx verifier G response →
  ∃ y', scheduler_response ctx y peers requests results i r response = Done y' ∧ sync_ok s y'.
Proof.
  clear. intros Hs Htask Hi Hresp. pose proof (not_waiting s y _ Hs Htask) as Hnw. pose proof (sc_task _ _ Hs) as Ht. rewrite Htask in Ht.
  destruct Ht as (Hpv & Hrv & Hres). pose proof (scheduler_locks s y requests (result_guards results) _ Hs Htask eq_refl i r Hi) as Hl.
  assert (Hr : request_valid r) by (rewrite Forall_forall in Hrv; apply Hrv; by eapply list_elem_of_lookup_2). destruct Hr as [Hrp Hrg].
  assert (Hrv' : Forall request_valid (delete i requests)) by (by apply Forall_delete).
  unfold scheduler_response. destruct (authority_total ctx (fq_peer r) Hrp) as [x ->]. cbn [mbind run_bind]. destruct response as [blocks|e].
  - eexists. split; [done|]. rewrite <-(same_inflight y) at 1.
    assert (Hres' : Forall result_ok (results ++ [(fq_guard r, blocks, fq_peer r)])) by (apply Forall_app; split; [done|]; by apply Forall_singleton).
    apply update_task; [done| | |by left].
    + case_bool_decide as Hz; (eapply locks_proper; [done| |exact Hl]); cbn; unfold result_guards; rewrite fmap_app; cbn;
        [rewrite (nil_length_inv _ Hz)|]; cbn; solve_Permutation.
    + case_bool_decide; cbn; [split; [done|done]|by split_and!].
  - destruct peers as [|next peers].
    + destruct (drop_guard_locks _ _ _ Hl) as (inner & -> & Hl'). cbn [mbind run_bind]. eexists. split; [done|]. apply update_task; [done| |by split_and!|by left]. done.
    + apply Forall_cons in Hpv as [Hn Hpv]. destruct (swap_locks_locks _ _ _ next Hl) as (inner & guard & -> & Hl' & Hg). cbn [mbind run_bind].
      eexists. split; [done|]. apply update_task; [done| | |by left].
      * eapply locks_proper; [done| |exact Hl']. cbn. destruct guard; [rewrite fmap_app; cbn|]; cbn; solve_Permutation.
      * cbn. split_and!; [done| |done]. destruct guard as [g|]; [|done]. apply Forall_app. split; [done|]. apply Forall_singleton. split; [done|by apply Hg].
Qed.

Lemma result_locks s y current results : sync_ok s y → sn_scheduler_task y = Some (Processing current results) →
  locks (sn_inflight_blocks_map y) (process_guards current ++ result_guards results ++ fetchers_guards (sn_fetchers y)).
Proof.
  clear. intros Hs Ht. pose proof (sc_locks _ _ Hs) as Hl. unfold live_guards in Hl. fold (fetchers_guards (sn_fetchers y)) in Hl. rewrite Ht in Hl.
  eapply locks_proper; [done| |exact Hl]. cbn. solve_Permutation.
Qed.

Lemma update_processing s y inner current results : sync_ok s y → sn_waiting y = None →
  locks inner (process_guards current ++ result_guards results ++ fetchers_guards (sn_fetchers y)) →
  (∀ p, current = Some p → process_ok s p) → Forall result_ok results →
  sync_ok s (with_scheduler y inner (Some (Processing current results))).
Proof.
  clear. intros Hs Hw Hl Hp Hr. apply update_task; [done| |done|by left]. eapply locks_proper; [done| |exact Hl]. cbn. solve_Permutation.
Qed.

Lemma run_scheduler_ok s y sender ev : reachable s → sync_ok s y → sync_enabled ctx params verifier G s y (SyncScheduler ev) →
  ∃ s' y', run_scheduler ctx params verifier s y sender ev = Done (s', y') ∧ reachable s' ∧ sync_ok s' y' ∧ as_fetches s' = as_fetches s.
Proof using All.
  intros Hr Hs Hen.
  assert (Hnone : ∃ s' y', Done (s, y) = Done (s', y') ∧ reachable s' ∧ sync_ok s' y' ∧ as_fetches s' = as_fetches s) by (by eexists _, _).
  assert (Hpure : ∀ m, (∃ y', m = Done y' ∧ sync_ok s y') →
    ∃ s' y', (y ← m; Done (s, y)) = Done (s', y') ∧ reachable s' ∧ sync_ok s' y' ∧ as_fetches s' = as_fetches s).
  { intros m (y' & -> & Hs'). by eexists _, _. }
  destruct ev as [peers authorities|i response| |now| |missing|]; cbn [run_scheduler];
    (destruct (sn_scheduler_task y) as [[missing'|peers' requests results|current results]|] eqn:Htask; try done).
  - destruct Hen as [Hp Ha]. apply Hpure. by apply scheduler_start_ok; [..|apply Ha].
  - destruct (requests !! i) as [r|] eqn:Hi; [|done]. apply Hpure. by apply scheduler_response_ok.
  - apply Hpure. unfold scheduler_timed_out. pose proof (sc_locks _ _ Hs) as Hl. unfold live_guards in Hl. rewrite Htask in Hl.
    destruct (drop_guards_locks (sn_inflight_blocks_map y) (result_guards results ++ fetchers_guards (sn_fetchers y)) (fq_guard <$> requests)) as (inner & -> & Hl').
    { eapply locks_proper; [done| |exact Hl]. cbn. unfold fetchers_guards. solve_Permutation. }
    cbn [mbind run_bind]. eexists. split; [done|]. pose proof (sc_task _ _ Hs) as Ht. rewrite Htask in Ht. destruct Ht as (_ & _ & Hres).
    apply update_processing; [done|by eapply not_waiting|done|done|done].
  - destruct current as [p|]; [done|]. destruct results as [|[[guard blocks] peer] results]; [done|]. unfold scheduler_process.
    pose proof (sc_task _ _ Hs) as Ht. rewrite Htask in Ht. destruct Ht as [_ Hres]. apply Forall_cons in Hres as [[Hpv Hd] Hres].
    pose proof (result_locks s y _ _ Hs Htask) as Hl. cbn in Hl.
    destruct (start_process_ok s _ _ peer guard blocks now Hr Hpv Hd Hl) as (s' & inner & p & -> & Hr' & Hk & Hfe & Hl' & Hpo). cbn [mbind run_bind].
    eexists _, _. split; [done|]. split; [done|]. split; [|done].
    apply update_processing; [by eapply sync_kept|by eapply not_waiting|done|intros x ->; by apply Hpo|done].
  - destruct current as [p|]; [|done]. destruct (pr_stage p) as [blocks|sender'] eqn:Hst; [|done]. unfold scheduler_add.
    pose proof (sc_task _ _ Hs) as Ht. rewrite Htask in Ht. destruct Ht as [Hpo Hres]. pose proof (result_locks s y _ _ Hs Htask) as Hl. cbn in Hl.
    destruct (add_process_ok s _ _ p blocks sender Hr (Hpo p eq_refl) Hst Hl) as (s' & inner & p' & -> & Hr' & Hk & Hfe & Hl' & Hpo'). cbn [mbind run_bind].
    eexists _, _. split; [done|]. split; [done|]. split; [|done].
    apply update_processing; [by eapply sync_kept|by eapply not_waiting|done|intros x ->; by apply Hpo'|done].
  - destruct current as [p|]; [|done]. apply Hpure. unfold scheduler_finish.
    pose proof (sc_task _ _ Hs) as Ht. rewrite Htask in Ht. destruct Ht as [Hpo Hres]. pose proof (result_locks s y _ _ Hs Htask) as Hl. cbn in Hl.
    destruct (finish_process_ok y _ p missing (proj1 (Hpo p eq_refl)) Hl) as (inner & y' & -> & Hl' & Hy'). cbn [mbind run_bind]. eexists. split; [done|].
    assert (Hs' : sync_ok s (with_scheduler y inner (Some (Processing None results)))) by (apply update_processing; [done|by eapply not_waiting|done..]).
    destruct Hy' as [-> | ->]; [done|]. apply kick_ok in Hs'. revert Hs'. unfold try_send_command. cbn. by destruct (_ && _).
  - destruct current as [p|]; [done|]. destruct results; [|done]. eexists _, _. split; [done|]. split; [done|]. split; [|done].
    rewrite <-(same_inflight y). apply update_task; [done| |done|by right]. pose proof (result_locks s y _ _ Hs Htask) as Hl. cbn in Hl. cbn. by rewrite app_nil_r.
Qed.

(** ** The own last block *)

Lemma process_own_ok peer serialized : valid peer → Forall (delivers ctx verifier G) serialized →
  ∃ res, process_own_blocks ctx verifier peer serialized = Done res ∧
    ∀ blocks, res = ROk blocks → Forall (λ b, G (vb_reference b) = Some b ∧ vb_author b = own ∧ vb_round b ≠ 0) blocks ∧ vb_serialized <$> blocks = serialized.
Proof using Hset.
  clear Hlaws Hconfig. intros Hpeer. induction 1 as [|bytes serialized Hd _ IH]; cbn [process_own_blocks].
  { eexists. split; [done|]. intros ? [= <-]. by split. }
  pose proof (u_committee _ _ _ (hn_universe _ _ _ (se_honest _ _ _ _ _ _ _ Hset))) as Hcm.
  destruct (bcs_from_bytes bytes) as [signed|] eqn:Hdec; [|by eexists].
  destruct (verify_and_vote_spec ctx verifier Hcm signed) as (res & Hver & Hacc). rewrite Hver, f_run_bind.
  destruct res as [rejected|e]; [|destruct (authority_total ctx peer Hpeer) as [x ->]; by eexists].
  destruct (delivered signed rejected bytes Hd Hdec Hver) as [HGb Hrnd]. case_bool_decide as Ha; [|by eexists]. cbn [negb].
  destruct IH as (res & -> & Hres). destruct res as [blocks|e]; [|by eexists]. cbn [mbind fallible_bind]. eexists. split; [done|]. intros ? [= <-].
  destruct (Hres blocks eq_refl) as [Hb <-]. split; [by constructor|done].
Qed.

Lemma own_not_command s y task : sync_ok s y → sn_own_block_task y = Some task → FetchOwnLastBlock ∉ sn_commands y.
Proof.
  clear. intros Hs Ht Hin. pose proof (sc_own_once _ _ Hs) as Ho. rewrite Ht in Ho. cbn in Ho.
  assert (own_commands (sn_commands y) ≠ []) as Hne; [|destruct (own_commands (sn_commands y)); [done|cbn in Ho; lia]].
  intros Hz. assert (FetchOwnLastBlock ∈ own_commands (sn_commands y)) as Hin' by (unfold own_commands; by rewrite list_elem_of_filter).
  rewrite Hz in Hin'. by apply elem_of_nil in Hin'.
Qed.

Lemma update_own s y task task' : sync_ok s y → sn_own_block_task y = Some task → task ≠ OwnDone → own_task_ok task' →
  sync_ok s (set_sn_own_block_task task' y).
Proof.
  clear. intros Hs Ht Hne Hok. pose proof (sc_own_once _ _ Hs) as Ho. rewrite Ht in Ho. destruct Hs as [Hl Hf Ha Hc Htk Hw _ Hot How]. split; try done; cbn.
  - fold (own_commands (sn_commands y)). cbn -[own_commands] in Ho. destruct task'; cbn -[own_commands]; lia.
  - intros _. apply How. right. by exists task.
Qed.

Lemma report_own_ok s y round task : reachable s → sync_ok s y → sn_own_block_task y = Some task → task ≠ OwnDone →
  let '(s', y') := report_own_round s y round in reachable s' ∧ sync_ok s' y' ∧ as_fetches s' = as_fetches s.
Proof using All.
  intros Hr Hs Ht Hne. unfold report_own_round. destruct (sc_own _ _ Hs) as [Hn Hw]; [right; by exists task|].
  destruct (thread_step s (DispatchLastKnown round) Hr Hn) as (t' & Hrun & Hr' & _); [done|]. cbn in Hrun. injection Hrun as <-.
  split; [done|]. split; [|done]. pose proof (own_not_command s y task Hs Ht) as Hnot. pose proof (sc_own_once _ _ Hs) as Ho. rewrite Ht in Ho.
  assert (Hv : votes_kept s (set_as_thread (dispatch_last_known_proposed_round (as_thread s) round) s)).
  { intros r. unfold as_core, dispatch_last_known_proposed_round. cbn. by destruct (ct_running (as_thread s)). }
  destruct Hs as [Hl Hf Ha Hc Htk Hwt _ Hot How]. split; try done; cbn.
  - intros a f Haf. by eapply fetcher_kept, Hf.
  - by eapply task_kept.
  - intros [Hin|(task' & [= <-] & Hd)]; [by destruct Hnot|by destruct Hd].
Qed.

Lemma run_own_block_ok s y ev : reachable s → sync_ok s y →
  (∀ i response, ev = OwnResponse i response → response_ok ctx verifier G response) →
  ∃ s' y', run_own_block ctx verifier s y ev = Done (s', y') ∧ reachable s' ∧ sync_ok s' y' ∧ as_fetches s' = as_fetches s.
Proof using All.
  intros Hr Hs Hen. pose proof (hn_valid _ _ _ (se_honest _ _ _ _ _ _ _ Hset)) as Hown. destruct (other_authorities_spec Hown) as (_ & Hin & _).
  destruct ev as [|i response| | |]; cbn [run_own_block];
    (destruct (sn_own_block_task y) as [[retries delay|pending total highest retries delay|retries delay|]|] eqn:Htask; try by eexists _, _).
  - unfold own_loop. case_bool_decide.
    + destruct (dag_at s Hr) as [v Hok]. destruct (last_block_spec ctx G byz (se_honest _ _ _ _ _ _ _ Hset) genesis (se_genesis _ _ _ _ _ _ _ Hset)
        (as_dag_state s) v own Hok Hown) as (b & Hb & _). unfold get_last_proposed_block. rewrite Hb. cbn [mbind run_bind].
      pose proof (report_own_ok s y (vb_round b) _ Hr Hs Htask ltac:(done)) as Hrep. destruct (report_own_round s y (vb_round b)) as [s' y']. by eexists _, _.
    + eexists _, _. split; [done|]. split; [done|]. split; [|done]. eapply update_own; [done..|]. apply Forall_forall. intros a Ha. by apply Hin.
  - destruct (pending !! i) as [peer|] eqn:Hi; [|by eexists _, _]. pose proof (sc_own_task _ _ Hs) as Hpv. rewrite Htask in Hpv. cbn in Hpv.
    assert (Hpeer : valid peer) by (rewrite Forall_forall in Hpv; apply Hpv; by eapply list_elem_of_lookup_2).
    assert (Hpv' : Forall valid (delete i pending)) by (by apply Forall_delete). unfold own_response.
    assert (Hgo : ∀ pending' total' highest', Forall valid pending' →
      sync_ok s (set_sn_own_block_task (Some (OwnGathering pending' total' highest' retries delay)) y)) by (intros; by eapply update_own).
    destruct response as [blocks|e].
    + destruct (process_own_ok peer blocks Hpeer (Hen i (ROk blocks) eq_refl)) as (res & -> & _). cbn [mbind run_bind]. destruct res as [bs|e].
      * rewrite (Committee_stake_Done cm peer Hpeer). cbn [mbind run_bind]. eexists _, _. split; [done|]. split; [done|]. split; [|done]. by apply Hgo.
      * cbn [mbind run_bind]. eexists _, _. split; [done|]. split; [done|]. split; [|done]. by apply Hgo.
    + cbn [mbind run_bind]. eexists _, _. split; [done|]. split; [done|]. split; [|done]. apply Hgo. apply Forall_app. split; [done|by apply Forall_singleton].
  - unfold own_gathered. destruct (Committee_reached_validity cm total).
    + pose proof (report_own_ok s y highest _ Hr Hs Htask ltac:(done)) as Hrep. destruct (report_own_round s y highest) as [s' y']. by eexists _, _.
    + eexists _, _. split; [done|]. split; [done|]. split; [|done]. by eapply update_own.
  - eexists _, _. split; [done|]. split; [done|]. split; [|done]. by eapply update_own.
  - eexists _, _. split; [done|]. split; [done|]. split; [|done]. pose proof (own_not_command s y _ Hs Htask) as Hnot. pose proof (sc_own_once _ _ Hs) as Ho.
    destruct Hs as [Hl Hf Ha Hc Htk Hw _ Hot How]. split; try done; cbn;
      [fold (own_commands (sn_commands y)); lia|]. intros [?|(task & ? & _)]; [by destruct Hnot|done].
Qed.

(** ** The synchronizer *)

Definition fetches_ok s : Prop := ∀ missing peer, (missing, peer) ∈ as_fetches s → valid peer.

Lemma send_fetch_ok s y missing peer result : sync_ok s y → valid peer → sync_ok s (send_fetch y missing peer result).
Proof.
  clear. intros [Hl Hf Ha Hc Ht Hw Ho Hot How] Hpeer. unfold send_fetch. case (sn_running y); [|by split]. split; try done; cbn.
  - intros m p r. rewrite elem_of_app, list_elem_of_singleton. intros [Hin|[= -> -> ->]]; [by eapply Hc|done].
  - unfold own_commands. rewrite filter_app. cbn. rewrite decide_False by done. by rewrite app_nil_r.
  - intros Hlive. apply How. destruct Hlive as [Hin|?]; [left|by right]. cbn in Hin. apply elem_of_app in Hin as [?|?%list_elem_of_singleton]; done.
Qed.

Lemma reset_ok s y now : sync_ok s y → sync_ok s (reset_scheduler y now).
Proof. clear. intros []. by split. Qed.

Lemma missing_blocks_ok s y missing now : reachable s → sync_ok s y → (∃ sender, sn_waiting y = Some sender ∧ answered s sender missing) →
  sync_ok s (handle_missing_blocks ctx params s y missing now).
Proof using All.
  intros Hr Hs (sender & Hw & Hans). destruct (sc_waiting _ _ Hs) as [Hsize Hnone]; [by rewrite Hw|].
  assert (Hs1 : sync_ok s (set_sn_waiting None y)) by (destruct Hs; split; try done; by intros [? ?]).
  unfold handle_missing_blocks. destruct missing as [missing|].
  - case_bool_decide as Hne; [by apply reset_ok|]. destruct (is_commit_lagging _ _ _); [by apply reset_ok|]. apply reset_ok.
    assert (Hval : ∀ r, r ∈ missing → valid (br_author r)).
    { pose proof (th_replies _ _ _ _ _ (so_thread _ _ _ _ _ (service_at s Hr))) as Hrep. rewrite Forall_forall in Hrep. exact (Hrep _ Hans). }
    rewrite <-(same_inflight (set_sn_waiting None y)). apply update_task; [done| |done|by left].
    pose proof (sc_locks _ _ Hs1) as Hl. unfold live_guards in Hl. cbn in Hl. rewrite Hnone in Hl. done.
  - destruct Hs1 as [Hl Hf Ha Hc Ht Hwt Ho Hot How]. split; try done; cbn; [|lia|].
    + intros m p r Hin. by apply elem_of_nil in Hin.
    + intros [Hin|(task & ? & _)]; [by apply elem_of_nil in Hin|done].
Qed.

Lemma stop_ok s y : sync_ok s y → ∃ y', Synchronizer_stop y = Done y' ∧ sync_ok s y' ∧ sn_inflight_blocks_map y' = ∅.
Proof.
  clear. intros Hs. unfold Synchronizer_stop. pose proof (sc_locks _ _ Hs) as Hl. rewrite <-(app_nil_r (live_guards y)) in Hl.
  destruct (drop_guards_locks _ [] _ Hl) as (inner & -> & Hl'). cbn [mbind run_bind]. eexists. split; [done|]. split.
  - split; try done; try (cbn; lia).
    + intros m p r Hin. by apply elem_of_nil in Hin.
    + by intros [? ?].
    + intros [Hin|(task & ? & _)]; [by apply elem_of_nil in Hin|done].
  - by apply locks_none.
Qed.

Lemma run_sync_ok s y sender ev : reachable s → sync_ok s y → fetches_ok s → sync_enabled ctx params verifier G s y ev →
  ∃ s' y', run_sync ctx params verifier s y sender ev = Done (s', y') ∧ reachable s' ∧ sync_ok s' y' ∧ fetches_ok s'.
Proof using All.
  intros Hr Hs Hfe Hen. destruct ev as [i|now|now|missing now|peer ev|ev|ev|]; cbn [run_sync].
  - destruct (as_fetches s !! i) as [[missing peer]|] eqn:Hi; [|by eexists _, _]. apply list_elem_of_lookup_2 in Hi as Hin. eexists _, _. split; [done|].
    destruct (service_kept s (FetchSent i) Hr I) as (s' & [= <-] & Hr' & _). split; [done|]. split.
    + apply (sync_kept s); [done|]. by apply send_fetch_ok, (Hfe missing).
    + intros m p (j & Hj)%list_elem_of_lookup_1. apply (Hfe m). rewrite (delete_Permutation _ _ _ Hi). right. by eapply list_elem_of_lookup_2.
  - destruct (sn_commands y) as [|command commands] eqn:Hc; [by eexists _, _|].
    destruct (handle_sync_command_ok s y command commands now Hs (proj1 Hen) Hc) as (y' & -> & Hs'). by eexists _, _.
  - unfold handle_scheduler_timeout. destruct (sn_scheduler_task y) as [task|] eqn:Htask; [eexists _, _; split_and!; [done..|by apply reset_ok|done]|].
    case_bool_decide as Hsize; [eexists _, _; split_and!; [done..|by apply reset_ok|done]|].
    destruct (thread_step s (DispatchGetMissing sender) Hr I) as (t' & [= <-] & Hr' & Hk); [done|]. eexists _, _. split; [done|]. split; [done|]. split; [|done].
    apply (sync_kept s); [by apply Hk|]. destruct Hs. by split.
  - destruct Hen as [_ Hen]. eexists _, _. split; [done|]. split; [done|]. split; [|done]. by apply missing_blocks_ok.
  - destruct (run_fetcher_ok s y sender peer ev Hr Hs Hen) as (s' & y' & Hrun & Hr' & Hs' & Heq). exists s', y'. split_and!; [done..|]. unfold fetches_ok. by rewrite Heq.
  - destruct (run_scheduler_ok s y sender ev Hr Hs Hen) as (s' & y' & Hrun & Hr' & Hs' & Heq). exists s', y'. split_and!; [done..|]. unfold fetches_ok. by rewrite Heq.
  - destruct (run_own_block_ok s y ev Hr Hs) as (s' & y' & Hrun & Hr' & Hs' & Heq); [intros i response ->; exact Hen|]. exists s', y'. split_and!; [done..|]. unfold fetches_ok. by rewrite Heq.
  - destruct (stop_ok s y Hs) as (y' & -> & Hs' & _). cbn [mbind run_bind]. by eexists _, _.
Qed.

(** ** Sent blocks *)

Definition handler_ok (h : Handler) : Prop :=
  match h with
  | WaitAdded peer b excluded _ => valid peer ∧ G (vb_reference b) = Some b ∧
      ∀ refs, mapM bcs_ref_from_bytes excluded = Some refs → Forall (λ r, valid (br_author r)) (take (Committee_size cm * 2) refs)
  | WaitRefs peer _ => valid peer
  end.

Lemma handler_start_ok s peer sb sender : reachable s → fetches_ok s → valid peer → block_sent ctx verifier G sb →
  ∃ s' h, handler_start ctx params verifier s peer sb sender = Done (s', h) ∧ reachable s' ∧ thread_kept (as_thread s) (as_thread s') ∧
    fetches_ok s' ∧ ∀ x, h = Some x → handler_ok x.
Proof using All.
  intros Hr Hfe Hpeer [Hd Hex]. unfold handler_start.
  destruct (receive_spec ctx params fuel verifier G byz (se_honest _ _ _ _ _ _ _ Hset) genesis s peer sb sender (service_at s Hr) Hpeer Hd)
    as (s' & res & Hrun & _ & Hres & Hk & Hf). rewrite Hrun. cbn [mbind run_bind]. eexists _, _. split; [done|]. split.
  { eapply (nr_step _ _ _ _ _ _ s (SendBlock peer sb sender)); [done|done|]. cbn. by rewrite Hrun. }
  split; [done|]. split; [unfold fetches_ok; by rewrite Hf|]. intros x Hx. destruct res as [b|e]; [|done]. injection Hx as <-.
  destruct Hres as [[Hs Hb _ [rejected Hv] _] _]. split; [done|]. split; [|done]. rewrite Hb. by eapply Hd.
Qed.

Lemma fetch_peer_ok s s' missing peer : fetches_ok s → valid peer → as_fetches s' = as_fetches (schedule_fetch s missing peer) → fetches_ok s'.
Proof.
  clear. intros Hfe Hpeer Heq m p. rewrite Heq. unfold schedule_fetch. case_bool_decide; [apply Hfe|]. cbn.
  rewrite elem_of_app, list_elem_of_singleton. intros [Hin|[= -> ->]]; [by eapply Hfe|done].
Qed.

Lemma handler_continue_ok s h missing sender : reachable s → fetches_ok s → handler_ok h →
  ∃ s' h', handler_continue ctx s h missing sender = Done (s', h') ∧ reachable s' ∧ thread_kept (as_thread s) (as_thread s') ∧
    fetches_ok s' ∧ ∀ x, h' = Some x → handler_ok x.
Proof using All.
  intros Hr Hfe Hh. destruct missing as [missing|]; [|by destruct h; eexists s, None; split_and!; [done..|apply thread_kept_refl|done|done]].
  destruct h as [peer b excluded sender'|peer sender']; cbn [handler_continue handler_ok] in *.
  - destruct Hh as (Hpeer & HGb & Hex). pose proof (service_at s Hr) as Hs. pose proof Hset as [].
    destruct (excluded_total ctx fuel G byz se_honest genesis se_config U se_fits se_limits s peer b excluded missing sender Hs HGb Hex)
      as (s' & res & Hrun & _ & _ & Hk & Hf). rewrite Hrun. cbn [mbind run_bind]. eexists _, _. split; [done|]. split.
    { eapply (nr_step _ _ _ _ _ _ s (BlockAdded peer b excluded missing sender)); [done|done|]. cbn. by rewrite Hrun. }
    split; [done|]. split; [by eapply fetch_peer_ok|]. intros x Hx. destruct res; [|done]. by injection Hx as <-.
  - eexists _, _. split; [done|]. destruct (service_kept s (RefsChecked peer missing) Hr I) as (s' & [= <-] & Hr' & _).
    split; [done|]. destruct (schedule_fetch_ok ctx fuel G genesis s missing peer (service_at s Hr)) as [_ Hth].
    split; [unfold fetch_excluded; rewrite Hth; apply thread_kept_refl|]. split; [|done]. by eapply fetch_peer_ok.
Qed.

(** ** Rounds of the peers *)

Record probe_ok (p : Probe) : Prop := {
  po_requests : Forall valid (pb_requests p);
  po_received : square cm (pb_highest_received_rounds p);
  po_accepted : square cm (pb_highest_accepted_rounds p);
}.

Lemma square_set m row l : square cm m → valid row → length l = Committee_size cm → ∃ m', vec_set m row l = Done m' ∧ square cm m' ∧ m' !! row = Some l.
Proof.
  clear. intros [Hm Hrows] Hrow%thread_valid Hl. unfold vec_set. rewrite decide_True by lia. eexists. split; [done|]. split.
  - split; [by rewrite length_insert|]. by apply Forall_insert.
  - apply list_lookup_insert_eq. lia.
Qed.
Lemma square_cell m row column x : square cm m → valid row → valid column → ∃ m', set_cell m row column x = Done m' ∧ square cm m'.
Proof.
  clear. intros Hm Hrow Hcol. pose proof Hm as [Hlen Hrows]. pose proof Hrow as Hr%thread_valid. pose proof Hcol as Hc%thread_valid. unfold set_cell, vec_get.
  destruct (lookup_lt_is_Some_2 m row) as [l Hl]; [lia|]. rewrite Hl. cbn [expect mbind run_bind].
  assert (Hll : length l = Committee_size cm) by (rewrite Forall_forall in Hrows; apply Hrows; by eapply list_elem_of_lookup_2).
  assert (vec_set l column x = Done (<[column := x]> l)) as -> by (unfold vec_set; by rewrite decide_True by lia). cbn [mbind run_bind].
  destruct (square_set m row (<[column := x]> l) Hm Hrow) as (m' & -> & Hm' & _);
    [by rewrite length_insert|]. by exists m'.
Qed.

Lemma probe_start_ok s : reachable s → ∃ p, probe_start ctx s = Done p ∧ probe_ok p.
Proof using All.
  intros Hr. unfold probe_start. destruct (cached_rounds s Hr) as (l & -> & Hlen). cbn [mbind run_bind].
  pose proof (hn_valid _ _ _ (se_honest _ _ _ _ _ _ _ Hset)) as Hown. pose proof Hown as Hlt%thread_valid. destruct (other_authorities_spec Hown) as (_ & Hin & _).
  set (local := (λ '(b, _), vb_round b) <$> l). assert (Hll : length local = Committee_size cm) by (unfold local; by rewrite length_fmap).
  unfold vec_get at 1. destruct (lookup_lt_is_Some_2 local own) as [x ->]; [lia|]. cbn [expect mbind run_bind].
  assert (Hz : square cm (replicate (Committee_size cm) (replicate (Committee_size cm) 0))).
  { split; [apply length_replicate|]. apply Forall_replicate, length_replicate. }
  pose proof (th_rounds _ _ _ _ _ (so_thread _ _ _ _ _ (service_at s Hr))) as Hhr.
  destruct (square_set _ own (highest_received_rounds (as_thread s)) Hz Hown Hhr) as (received & -> & Hre & _). cbn [mbind run_bind].
  destruct (square_set _ own local Hz Hown Hll) as (accepted & -> & Hac & _). cbn [mbind run_bind].
  destruct (square_cell received own own x Hre Hown Hown) as (received' & -> & Hre'). cbn [mbind run_bind].
  destruct (square_cell accepted own own x Hac Hown Hown) as (accepted' & -> & Hac'). cbn [mbind run_bind].
  eexists. split; [done|]. split; [|done|done]. apply Forall_forall. intros a Ha. by apply Hin.
Qed.

Lemma probe_response_ok p i peer result : probe_ok p → pb_requests p !! i = Some peer → ∃ p', probe_response ctx p i peer result = Done p' ∧ probe_ok p'.
Proof.
  clear. intros [Hv Hre Hac] Hi. unfold probe_response.
  assert (Hpeer : valid peer) by (rewrite Forall_forall in Hv; apply Hv; by eapply list_elem_of_lookup_2).
  assert (Hv' : Forall valid (delete i (pb_requests p))) by (by apply Forall_delete).
  destruct (authority_total ctx peer Hpeer) as [x ->]. cbn [mbind run_bind]. destruct result as [[received accepted]|e]; [|eexists; split; [done|by split]].
  assert (Hset' : ∀ m l, square cm m → ∃ m', (if bool_decide (length l = Committee_size cm) then vec_set m peer l else Done m) = Done m' ∧ square cm m').
  { intros m l Hm. case_bool_decide as Hl; [|by exists m]. destruct (square_set m peer l Hm Hpeer Hl) as (m' & -> & Hm' & _). by exists m'. }
  destruct (Hset' _ received Hre) as (r' & -> & Hr'). cbn [mbind run_bind]. destruct (Hset' _ accepted Hac) as (a' & -> & Ha'). cbn [mbind run_bind].
  eexists. split; [done|]. by split.
Qed.

Lemma probe_finish_ok s p : reachable s → probe_ok p →
  ∃ s' delay, probe_finish ctx s p = Done (s', delay) ∧ reachable s' ∧ thread_kept (as_thread s) (as_thread s') ∧ as_fetches s' = as_fetches s.
Proof using All.
  intros Hr [_ Hre Hac]. unfold probe_finish. pose proof (hn_valid _ _ _ (se_honest _ _ _ _ _ _ _ Hset)) as Hown.
  pose proof (u_committee _ _ _ (hn_universe _ _ _ (se_honest _ _ _ _ _ _ _ Hset))) as Hcm.
  destruct (thread_step s (Shared (Probed (pb_highest_accepted_rounds p) (pb_highest_received_rounds p))) Hr) as (t1 & [= <-] & Hr1 & Hk1); [by split|done|].
  destruct (th_core _ _ _ _ _ (so_thread _ _ _ _ _ (service_at s Hr))) as [v Hok].
  destruct (pe_tracker _ _ (cg_peers _ _ _ _ _ (ok_commits _ _ _ _ _ _ Hok))) as [Hb _ _].
  change (co_round_tracker (as_core s)) with (co_round_tracker (ct_core (as_thread s))).
  set (tracker := update_from_probe _ _ _). assert (Ht : tracker_ok ctx tracker) by (by split).
  destruct (propagation_delay_least ctx tracker (pb_last_proposed_round p) Hcm Ht Hown) as (delay & -> & _). cbn [mbind run_bind].
  destruct (thread_step _ (DispatchDelay delay) Hr1 I) as (t2 & [= <-] & Hr2 & Hk2); [done|]. eexists _, _. split; [done|]. split; [exact Hr2|]. split; [|done].
  eapply thread_kept_trans; [by apply Hk1|by apply Hk2].
Qed.

Lemma run_probe_ok s p ev : reachable s → (∀ x, p = Some x → probe_ok x) →
  ∃ s' p', run_probe ctx s p ev = Done (s', p') ∧ reachable s' ∧ thread_kept (as_thread s) (as_thread s') ∧ as_fetches s' = as_fetches s ∧
    ∀ x, p' = Some x → probe_ok x.
Proof using All.
  intros Hr Hp. assert (Hnone : ∃ s' p', Done (s, p) = Done (s', p') ∧ reachable s' ∧ thread_kept (as_thread s) (as_thread s') ∧
    as_fetches s' = as_fetches s ∧ ∀ x, p' = Some x → probe_ok x) by (eexists _, _; split_and!; [done..|apply thread_kept_refl|done|done]).
  destruct ev as [|i result|], p as [p|]; try done; cbn [run_probe].
  - destruct (probe_start_ok s Hr) as (p & -> & Hpo). cbn [mbind run_bind]. eexists _, _. split_and!; [done..|apply thread_kept_refl|done|]. by intros x [= <-].
  - destruct (pb_requests p !! i) as [peer|] eqn:Hi; [|done].
    destruct (probe_response_ok p i peer result (Hp p eq_refl) Hi) as (p' & -> & Hpo). cbn [mbind run_bind].
    eexists _, _. split_and!; [done..|apply thread_kept_refl|done|]. by intros x [= <-].
  - destruct (probe_finish_ok s p Hr (Hp p eq_refl)) as (s' & delay & -> & Hr' & Hk & Hf). cbn [mbind run_bind]. by eexists _, _.
Qed.

(** ** Subscriptions *)

Definition subscription_ok (sub : Subscription) : Prop := ∀ h, sb_stage sub = Handling h → handler_ok h.
Record subscriber_ok (subscriptions : list (option Subscription)) : Prop := {
  so_length : length subscriptions = Committee_size cm;
  so_each peer sub : subscriptions !! peer = Some (Some sub) → subscription_ok sub;
}.

Lemma subscriber_set subscriptions peer o : subscriber_ok subscriptions → valid peer → (∀ sub, o = Some sub → subscription_ok sub) →
  vec_set subscriptions peer o = Done (<[peer := o]> subscriptions) ∧ subscriber_ok (<[peer := o]> subscriptions).
Proof.
  clear. intros [Hl He] Hp%thread_valid Ho. unfold vec_set. rewrite decide_True by lia. split; [done|]. split; [by rewrite length_insert|].
  intros p sub [(-> & -> & _)|[_ Hs]]%list_lookup_insert_Some; [by apply Ho|by eapply He].
Qed.

Lemma unsubscribe_ok subscriptions peer : subscriber_ok subscriptions → valid peer →
  unsubscribe ctx subscriptions peer = Done (<[peer := None]> subscriptions) ∧ subscriber_ok (<[peer := None]> subscriptions).
Proof.
  clear. intros Hs Hp. unfold unsubscribe. destruct (authority_total ctx peer Hp) as [x ->]. cbn [mbind run_bind]. by apply subscriber_set.
Qed.

Lemma subscribe_task_ok s subscriptions peer : reachable s → subscriber_ok subscriptions → valid peer →
  ∃ subscriptions', subscribe ctx s subscriptions peer = Done subscriptions' ∧ subscriber_ok subscriptions'.
Proof using All.
  intros Hr Hs Hp. unfold subscribe. case_bool_decide; [by eexists|]. destruct (dag_at s Hr) as [v Hok].
  destruct (last_block_spec ctx G byz (se_honest _ _ _ _ _ _ _ Hset) genesis (se_genesis _ _ _ _ _ _ _ Hset) (as_dag_state s) v peer Hok Hp) as (b & -> & _).
  cbn [mbind run_bind]. destruct (unsubscribe_ok subscriptions peer Hs Hp) as [-> Hs1]. cbn [mbind run_bind].
  set (sub := mk_subscription _ _ _ _). destruct (subscriber_set _ peer (Some sub) Hs1 Hp) as [-> Hs2]; [by intros ? [= <-] h|]. by eexists.
Qed.

Lemma handling_ok sub h : (∀ x, h = Some x → handler_ok x) → subscription_ok (subscription_handling sub h).
Proof. clear. intros Hh. destruct h as [h|]; [|done]. intros h' [= <-]. by apply Hh. Qed.

Lemma run_subscription_ok n peer ev : reachable (nd_service n) → fetches_ok (nd_service n) → subscriber_ok (nd_subscriptions n) →
  task_enabled ctx params fuel verifier G n (TSubscription peer ev) →
  ∃ s' subscriptions', run_subscription ctx params verifier mul_f32 (nd_service n) (nd_subscriptions n) (nd_channels n) peer ev = Done (s', subscriptions') ∧
    reachable s' ∧ thread_kept (as_thread (nd_service n)) (as_thread s') ∧ fetches_ok s' ∧ subscriber_ok subscriptions'.
Proof using All.
  intros Hr Hf Hs Hen. set (s := nd_service n) in *. set (subs := nd_subscriptions n) in *. set (sender := nd_channels n).
  assert (Hstep : ∀ sub (m : run (AuthorityService S * Subscription)), subs !! peer = Some (Some sub) →
    (∃ s' sub', m = Done (s', sub') ∧ reachable s' ∧ thread_kept (as_thread s) (as_thread s') ∧ fetches_ok s' ∧ subscription_ok sub') →
    ∃ s' subs', ('(s, sub) ← m; Done (s, <[peer := Some sub]> subs)) = Done (s', subs') ∧
      reachable s' ∧ thread_kept (as_thread s) (as_thread s') ∧ fetches_ok s' ∧ subscriber_ok subs').
  { intros sub m Hsub (s' & sub' & -> & Hr' & Hk & Hf' & Hsub'). cbn [mbind run_bind]. eexists _, _. split_and!; [done..|].
    apply subscriber_set; [done| |by intros ? [= <-]]. apply thread_valid. rewrite <-(so_length _ Hs). by eapply lookup_lt_Some. }
  assert (Hsame : ∀ sub', subscription_ok sub' → ∃ s1 sub1, Done (s, sub') = Done (s1, sub1) ∧ reachable s1 ∧ thread_kept (as_thread s) (as_thread s1) ∧
    fetches_ok s1 ∧ subscription_ok sub1) by (intros sub' Hsub'; eexists _, _; split_and!; [done..|apply thread_kept_refl|done|done]).
  assert (Hnone : ∃ s' subs', Done (s, subs) = Done (s', subs') ∧ reachable s' ∧ thread_kept (as_thread s) (as_thread s') ∧ fetches_ok s' ∧
    subscriber_ok subs') by (eexists _, _; split_and!; [done..|apply thread_kept_refl|done|done]).
  destruct ev as [connected|sb|missing| | |]; cbn [run_subscription].
  5:{ destruct (subscribe_task_ok s subs peer Hr Hs Hen) as (subs' & -> & Hs'). cbn [mbind run_bind]. eexists _, _. split_and!; [done..|apply thread_kept_refl|done|done]. }
  5:{ unfold Subscriber_stop. destruct (for_each_total subscriber_ok (unsubscribe ctx) subs (Committee_authorities cm).*1 Hs) as (subs' & -> & Hs').
      { intros subs1 a Ha Hs1. rewrite authorities_seq, elem_of_seq in Ha. destruct (unsubscribe_ok subs1 a Hs1) as [-> Hs2]; [apply thread_valid; lia|]. by eexists. }
      cbn [mbind run_bind]. eexists _, _. split_and!; [done..|apply thread_kept_refl|done|done]. }
  all: destruct (subs !! peer) as [[sub|]|] eqn:Hsub; try done; pose proof (so_each _ Hs peer sub Hsub) as Hok; eapply Hstep; [done|];
    destruct (sb_stage sub) as [| |h] eqn:Hst; try (by apply Hsame).
  - apply Hsame. intros h. unfold subscription_attempt. cbn. by destruct connected.
  - unfold subscription_block. destruct (handler_start_ok s peer sb sender Hr Hf) as (s' & h & -> & Hr' & Hk & Hf' & Hh); [|done|].
    + apply thread_valid. rewrite <-(so_length _ Hs). by eapply lookup_lt_Some.
    + cbn [mbind run_bind]. eexists _, _. split_and!; [done..|]. by apply handling_ok.
  - unfold subscription_continue. destruct (handler_continue_ok s h missing sender Hr Hf (Hok h Hst)) as (s' & h' & -> & Hr' & Hk & Hf' & Hh).
    cbn [mbind run_bind]. eexists _, _. split_and!; [done..|]. by apply handling_ok.
Qed.

(** ** The node *)

(** The states of a node with its tasks. *)
Inductive tasks_reachable : Node S → Prop :=
| tr_start store clk boot_counter streaming node now n :
    store_rel store view_empty → announces_first ctx params fuel G genesis store clk boot_counter streaming →
    AuthorityNode_start ctx params fuel clk store 0 boot_counter streaming = Done node →
    start_tasks ctx params node now streaming = Done n → tasks_reachable n
| tr_step n ev n' :
    tasks_reachable n → task_enabled ctx params fuel verifier G n ev → run_task ctx params fuel verifier mul_f32 n ev = Done n' → tasks_reachable n'.

Record node_ok n : Prop := {
  no_service : reachable (nd_service n);
  no_fetches : fetches_ok (nd_service n);
  no_synchronizer : sync_ok (nd_service n) (nd_synchronizer n);
  no_probe p : nd_probe n = Some p → probe_ok p;
  no_subscriptions : subscriber_ok (nd_subscriptions n);
  no_handlers : Forall handler_ok (nd_handlers n);
}.

Lemma start_sync_ok node now : reachable (an_service node) → as_fetches (an_service node) = [] →
  w_changed (ct_rx_last_known_proposed_round (as_thread (an_service node))) = false →
  (an_sync_last_known_own_block node = true → co_last_known_proposed_round (as_core (an_service node)) = None) →
  sync_ok (an_service node) (Synchronizer_start ctx (an_sync_last_known_own_block node) now).
Proof using All.
  intros Hr Hf Hw Hn. pose proof (hn_valid _ _ _ (se_honest _ _ _ _ _ _ _ Hset)) as Hown. destruct (other_authorities_spec Hown) as (Hnd & Hin & _).
  set (m := list_to_map ((λ a, (a, Fetcher_new)) <$> other_authorities ctx) : gmap AuthorityIndex Fetcher).
  assert (Hm : ∀ a f, m !! a = Some f → f = Fetcher_new ∧ valid a ∧ a ≠ own).
  { intros a f Ha. apply elem_of_list_to_map_2, list_elem_of_fmap in Ha as (a' & [= <- <-] & Ha). split; [done|by apply Hin]. }
  assert (Hguards : live_guards (Synchronizer_start ctx (an_sync_last_known_own_block node) now) = []).
  { unfold live_guards. cbn -[map_list list_to_map]. fold m. rewrite app_nil_r. destruct ((map_list m).*2 ≫= fetcher_guards) as [|g gs] eqn:Hg; [done|].
    assert (g ∈ (map_list m).*2 ≫= fetcher_guards) as (f & Hgf & ([a f'] & -> & Ha%elem_of_map_list)%list_elem_of_fmap)%list_elem_of_bind by (rewrite Hg; left).
    destruct (Hm a f' Ha) as [-> _]. by apply elem_of_nil in Hgf. }
  split; try done; cbn -[map_list list_to_map own_commands]; fold m.
  - rewrite Hguards. unfold InflightBlocksMap_new. split; [|exact (NoDup_nil_2)|by intros r a Ha; rewrite lookup_empty in Ha].
    intros r p. rewrite lookup_total_empty. change (held []) with (@nil (BlockRef * AuthorityIndex)). rewrite elem_of_nil. set_solver.
  - intros a f Ha. destruct (Hm a f Ha) as (-> & Hv & _). split; [done|done|constructor|cbn; lia|cbn; lia|constructor].
  - intros a _ Hv Hne. unfold m. exists Fetcher_new. apply elem_of_list_to_map_1; [|apply list_elem_of_fmap; exists a; split; [done|by apply Hin]].
    rewrite <-list_fmap_compose. cbn. by rewrite list_fmap_id.
  - intros missing peer result. destruct (an_sync_last_known_own_block node); [intros ?%list_elem_of_singleton; done|by intros ?%elem_of_nil].
  - by intros [? ?].
  - unfold own_commands. destruct (an_sync_last_known_own_block node); [rewrite filter_cons, decide_True by done|]; cbn; lia.
  - intros Hlive. split; [|done]. apply Hn. destruct Hlive as [Hc|(task & ? & _)]; [|done]. cbn in Hc.
    destruct (an_sync_last_known_own_block node); [done|by apply elem_of_nil in Hc].
Qed.

Lemma start_tasks_ok store clk boot_counter streaming node now : store_rel store view_empty →
  announces_first ctx params fuel G genesis store clk boot_counter streaming →
  AuthorityNode_start ctx params fuel clk store 0 boot_counter streaming = Done node →
  ∃ n, start_tasks ctx params node now streaming = Done n ∧ node_ok n.
Proof using All.
  intros Hstore Hann Hrun. assert (Hr : reachable (an_service node)) by (by eapply nr_start).
  pose proof Hset as []. destruct (node_start_ok ctx params fuel G byz se_honest genesis se_genesis se_config U se_fits se_codec se_storable
    se_sign se_limits store clk boot_counter streaming Hstore Hann) as (node' & Hrun' & _ & _ & _ & _ & _ & _ & Hf & Hw & Hn).
  assert (node' = node) as -> by congruence. unfold start_tasks.
  assert (Hnew : subscriber_ok (Subscriber_new ctx)).
  { split; [apply length_replicate|]. intros peer sub Hs. by apply lookup_replicate in Hs as [? _]. }
  assert (∃ subs, (if streaming then for_each (subscribe ctx (an_service node)) (Subscriber_new ctx) (other_authorities ctx)
    else Done (Subscriber_new ctx)) = Done subs ∧ subscriber_ok subs) as (subs & -> & Hsubs).
  { destruct streaming; [|by eexists]. apply (for_each_total subscriber_ok); [done|]. intros subs a Ha Hs.
    apply subscribe_task_ok; [done|done|]. by apply (other_authorities_spec (hn_valid _ _ _ se_honest)). }
  cbn [mbind run_bind]. eexists. split; [done|]. split; cbn; [done| |by apply start_sync_ok|done|done|constructor].
  intros missing peer. rewrite Hf. by intros ?%elem_of_nil.
Qed.

Lemma task_step_ok n ev : node_ok n → task_enabled ctx params fuel verifier G n ev → ∃ n', run_task ctx params fuel verifier mul_f32 n ev = Done n' ∧ node_ok n'.
Proof using All.
  intros [Hr Hf Hy Hp Hsub Hh] Hen. destruct n as [s y l p subs handlers sender]. cbn [nd_service nd_synchronizer nd_leader_timeout nd_probe nd_subscriptions nd_handlers nd_channels] in *.
  destruct ev as [ev|peer sb|i missing|ev|ev|ev|peer ev]; cbn [run_task].
  - destruct Hen as [Hext Hen]. destruct (service_kept s ev Hr Hen) as (s' & -> & Hr' & Hk). destruct (Hk Hext) as [Hkt Hfe]. cbn [mbind run_bind].
    eexists. split; [done|]. split; cbn; [done|unfold fetches_ok; by rewrite Hfe|by eapply sync_kept|done..].
  - destruct Hen as [Hpeer Hb]. destruct (handler_start_ok s peer sb sender Hr Hf Hpeer Hb) as (s' & h & -> & Hr' & Hk & Hf' & Hho). cbn [mbind run_bind].
    eexists. split; [done|]. split; cbn; [done|done|by eapply sync_kept|done|done|]. apply Forall_app. split; [done|].
    destruct h as [h|]; [|constructor]. apply Forall_singleton. by apply Hho.
  - destruct Hen as (h & Hi & _). cbn in Hi. rewrite Hi.
    assert (Hhi : handler_ok h) by (rewrite Forall_forall in Hh; apply Hh; by eapply list_elem_of_lookup_2).
    destruct (handler_continue_ok s h missing sender Hr Hf Hhi) as (s' & h' & -> & Hr' & Hk & Hf' & Hho). cbn [mbind run_bind].
    eexists. split; [done|]. split; cbn; [done|done|by eapply sync_kept|done|done|]. apply Forall_app. split; [by apply Forall_delete|].
    destruct h' as [h'|]; [|constructor]. apply Forall_singleton. by apply Hho.
  - destruct (run_sync_ok s y sender ev Hr Hy Hf Hen) as (s' & y' & -> & Hr' & Hy' & Hf'). cbn [mbind run_bind]. eexists. split; [done|]. by split.
  - assert (reachable (run_leader params s l sender ev).1 ∧ thread_kept (as_thread s) (as_thread (run_leader params s l sender ev).1) ∧
      as_fetches (run_leader params s l sender ev).1 = as_fetches s) as (Hr' & Hk & Hfe).
    { destruct ev as [force now|answer|now|]; cbn; try (split_and!; [done|apply thread_kept_refl|done]).
      destruct (thread_step s (DispatchNewBlock (lo_leader_round l) force sender) Hr I) as (t' & [= <-] & Hr' & Hk); [done|]. split_and!; [done|by apply Hk|done]. }
    destruct (run_leader params s l sender ev) as [s' l']. eexists. split; [done|]. cbn in Hr', Hk, Hfe.
    split; cbn; [done|unfold fetches_ok; by rewrite Hfe|by eapply sync_kept|done..].
  - destruct (run_probe_ok s p ev Hr Hp) as (s' & p' & -> & Hr' & Hk & Hfe & Hp'). cbn [mbind run_bind]. eexists. split; [done|].
    split; cbn; [done|unfold fetches_ok; by rewrite Hfe|by eapply sync_kept|done..].
  - destruct (run_subscription_ok (mk_tasks s y l p subs handlers sender) peer ev Hr Hf Hsub Hen) as (s' & subs' & Hrun & Hr' & Hk & Hf' & Hs').
    cbn in Hrun, Hk. rewrite Hrun. cbn [mbind run_bind]. eexists. split; [done|]. split; cbn; [done|done|by eapply sync_kept|done..].
Qed.

Lemma tasks_ok n : tasks_reachable n → node_ok n.
Proof using All.
  induction 1 as [store clk boot streaming node now n Hstore Hann Hrun Htasks|n ev n' _ IH Hen Hrun].
  - destruct (start_tasks_ok store clk boot streaming node now Hstore Hann Hrun) as (n1 & Hrun1 & Hok). by assert (n1 = n) as <- by congruence.
  - destruct (task_step_ok n ev IH Hen) as (n1 & Hrun1 & Hok). by assert (n1 = n') as <- by congruence.
Qed.

(** C5: the node with its tasks refines the node of the agreement theorems:
    whatever the synchronizer, the leader timeout, the round prober, the
    subscriber and the handlers of requests do, in whatever order, the service
    and the core are in a state that the node reaches. *)
Theorem tasks_refine n : tasks_reachable n → node_reachable ctx params fuel verifier G genesis (nd_service n).
Proof using All. intros Hr. apply (no_service _ (tasks_ok n Hr)). Qed.


(** C7: the map of blocks in flight is what the tasks have asked for: a block
    is locked for a peer exactly when a request of some task for it is queued,
    on its way or being processed, there is one such request at most, and there
    are two peers at most. What is asked of a peer by its own task is bounded,
    and so are the retries. *)
Theorem blocks_in_flight n : tasks_reachable n →
  let y := nd_synchronizer n in
  (∀ r p, p ∈ (sn_inflight_blocks_map y !!! r : gset AuthorityIndex) ↔
     ∃ g, g ∈ live_guards y ∧ bg_peer g = p ∧ r ∈ bg_block_refs g) ∧
  NoDup (held (live_guards y)) ∧
  (∀ r, (size (sn_inflight_blocks_map y !!! r : gset AuthorityIndex) ≤ MAX_AUTHORITIES_TO_FETCH_PER_BLOCK)%nat) ∧
  (live_guards y = [] → sn_inflight_blocks_map y = ∅) ∧
  ∀ a f, sn_fetchers y !! a = Some f → Forall (λ g, bg_peer g = a) (fetcher_guards f) ∧
    (length (fe_receiver f) ≤ FETCH_BLOCKS_CONCURRENCY)%nat ∧ (length (fe_requests f) ≤ FETCH_BLOCKS_CONCURRENCY)%nat ∧
    Forall (λ r, fq_retries r ≤ MAX_RETRIES) (fe_requests f).
Proof using All.
  intros Hr y. pose proof (no_synchronizer _ (tasks_ok n Hr)) as Hs. fold y in Hs. pose proof (sc_locks _ _ Hs) as Hl. split_and!.
  - intros r p. rewrite <-(lk_held _ _ Hl r p). unfold held. rewrite list_elem_of_bind. setoid_rewrite elem_of_guard_locks. naive_solver.
  - apply Hl.
  - intros r. rewrite lookup_total_alt. destruct (sn_inflight_blocks_map y !! r) as [a|] eqn:Ha; [|cbn; rewrite size_empty; unfold MAX_AUTHORITIES_TO_FETCH_PER_BLOCK; lia].
    apply (lk_few _ _ Hl r a Ha).
  - intros Hg. rewrite Hg in Hl. by apply locks_none.
  - intros a f Hf. by destruct (sc_fetchers _ _ Hs a f Hf).
Qed.
End tasks.
