(* ===== verification/SyncSafety.v ===== *)
(** * Commits of the commit syncer

    The commits that a node accepts from the commit syncer: the checks do not
    panic and change nothing that the node relies on, and what passes them was
    committed by honest authorities. *)
From S2P Require Import Prelude Committee StakeAggregator Block ThresholdClock Commit LeaderScoring Store DagState DagStateProofs DagTraversal LeaderSchedule BaseCommitter CommitRule BlockVerifier TransactionConsumer DagViews BlockManager BlockManagerProofs BlockManagerSafety ManagedNode Linearizer CommitObserver LinearizerProofs CommitSafety UniversalCommitter QuorumRounds Ancestor TransactionCertifier CertifierProofs CommitFinalizer Core CoreThread AuthorityService AuthorityNode CommitSyncer SyncSchedule CoreState Ledger CoreProposal CoreProposer CoreCommit CoreNode CoreRun NodeStart ServiceProofs NodeSafety.

(** ** Commits in the ledger *)

Section recorded.
Context {S : Type} `{StoreLaws S} `{CommitCodec} `{Rng} (ctx : Context) (fuel : nat).
Context (G : BlockRef → option VerifiedBlock).

(** The commit that a sub-dag stands for. *)
Definition commit_for (before : list CommittedSubDag) (sd : CommittedSubDag) : Commit :=
  Commit_new (u32_add (tip_index before) 1) (tip_digest before) (sd_timestamp_ms sd) (sd_leader sd) (vb_reference <$> sd_blocks sd).
Definition recorded (before : list CommittedSubDag) (sd : CommittedSubDag) : Prop := ∃ bytes,
  bcs_commit_to_bytes (commit_for before sd) = Some bytes ∧
  sd_commit_ref sd = TrustedCommit_reference (TrustedCommit_new_trusted (commit_for before sd) bytes).

Lemma sub_dag_recorded sent leader sd : sub_dag_of ctx fuel G sent leader = Done sd → recorded sent sd.
Proof.
  unfold sub_dag_of. intros ([p blocks] & _ & Hrun)%bind_Done. apply bind_Done in Hrun as (ts & _ & Hrun).
  apply bind_Done in Hrun as (bytes & Hb & [= <-]). exists bytes. unfold commit_for. cbn. split; [|done].
  destruct (bcs_commit_to_bytes _); [|done]. by injection Hb as ->.
Qed.

Lemma recorded_labelled before s scoring sd : recorded before sd → recorded before (labelled s scoring sd).
Proof. unfold labelled. by destruct (ScoringSubdag_is_empty scoring). Qed.

Lemma ledger_recorded l k sd : rtc (ledger_step (S := S) ctx fuel G) ledger_genesis l → le_sent l !! k = Some sd →
  recorded (take k (le_sent l)) sd.
Proof.
  intros Hsteps. revert k sd. refine (rtc_ind_r (R := ledger_step (S := S) ctx fuel G)
    (λ l, ∀ k sd, le_sent l !! k = Some sd → recorded (take k (le_sent l)) sd) ledger_genesis _ _ l Hsteps); [done|].
  clear. intros l l' _ Hstep IH k sd. destruct Hstep as [l s|l n slot|l n leader sd0 scoring _ _ _ Hsd _]; cbn; [apply IH..|].
  intros [Hk|[Hge Hk]]%lookup_app_Some.
  - rewrite take_app_le by (apply lookup_lt_Some in Hk; lia). by apply IH.
  - apply list_lookup_singleton_Some in Hk as [Hz <-]. assert (k = length (le_sent l)) as -> by lia.
    rewrite take_app_length. apply recorded_labelled. by eapply sub_dag_recorded.
Qed.
End recorded.

(** ** Chains that end in a commit of the ledger *)

#[local] Instance byte_eq_decision : EqDecision Byte.byte := Byte.byte_eq_dec.

Section backward.
Context `{CommitCodec} (Hbcs : ∀ c bytes, bcs_commit_to_bytes c = Some bytes → bcs_commit_from_bytes bytes = Some c).
Implicit Types (sent : list CommittedSubDag) (l : list (CommitDigest * Commit)).

(** Received bytes with the hash of other bytes, those of a commit of [sent]. *)
Definition collision (received : list bytes) sent : Prop := ∃ bs k sd bytes,
  bs ∈ received ∧ sent !! k = Some sd ∧ bcs_commit_to_bytes (commit_for (take k sent) sd) = Some bytes ∧
  bs ≠ bytes ∧ commit_hash bs = commit_hash bytes.

Context (sent : list CommittedSubDag) (Hrec : ∀ k sd, sent !! k = Some sd → recorded (take k sent) sd).
Context (Hidx : ∀ k sd, sent !! k = Some sd → cr_index (sd_commit_ref sd) = N.of_nat k + 1).
Context (r : CommitRange) (serialized : list bytes) (l : list (CommitDigest * Commit)).
Context (Hchain : chain r serialized l) (Hpos : 0 < rg_start r).

(** The place of a commit of the chain in [sent]. *)
Definition place (k : nat) : nat := N.to_nat (rg_start r) + k - 1.
Definition same_digest (k : nat) : Prop := ∀ digest c, l !! k = Some (digest, c) →
  ∃ sd, sent !! place k = Some sd ∧ cr_digest (sd_commit_ref sd) = digest.
Definition same_commit (k : nat) : Prop := ∀ digest c, l !! k = Some (digest, c) →
  ∃ sd, sent !! place k = Some sd ∧ sd_commit_ref sd = mk_commit_ref (commit_index c) digest ∧ c = commit_for (take (place k) sent) sd.

Lemma digest_commit k : same_digest k → collision serialized sent ∨ same_commit k.
Proof using Hbcs Hrec Hidx Hchain Hpos.
  intros Hd. destruct (l !! k) as [[digest c]|] eqn:Hk; [|right; intros digest c Hk'; congruence].
  destruct (Hd digest c Hk) as (sd & Hsd & Hdig). destruct (ch_parsed _ _ _ Hchain k digest c Hk) as (bs & Hbs & Hdec & -> & Hi & _).
  destruct (Hrec _ _ Hsd) as (bytes & Hbytes & Href). rewrite Href in Hdig. cbn in Hdig.
  destruct (decide (bs = bytes)) as [->|Hne]; [right|left; exists bs, (place k), sd, bytes; split_and!; try done; by apply list_elem_of_lookup_2 in Hbs].
  intros digest' c' Hk'. assert (c' = c) as -> by congruence. assert (digest' = commit_hash bytes) as -> by congruence.
  exists sd. split; [done|]. assert (Hc : c = commit_for (take (place k) sent) sd) by (apply Hbcs in Hbytes; congruence). split; [|done].
  rewrite Href, <-Hc. unfold TrustedCommit_reference, tc_index, TrustedCommit_new_trusted. cbn. done.
Qed.

Lemma commit_previous k : same_commit (Datatypes.S k) → (Datatypes.S k < length l)%nat → same_digest k.
Proof using Hidx Hchain Hpos.
  intros Hc Hlt. destruct (lookup_lt_is_Some_2 l (Datatypes.S k) Hlt) as [[digest1 c1] Hk1].
  destruct (Hc digest1 c1 Hk1) as (sd1 & Hsd1 & _ & ->). intros digest c Hk.
  pose proof (ch_linked _ _ _ Hchain k _ _ Hk Hk1) as Hlink. cbn in Hlink. unfold tip_digest in Hlink.
  assert (Hplace : place (Datatypes.S k) = Datatypes.S (place k)) by (unfold place; lia). rewrite Hplace in *.
  destruct (lookup_lt_is_Some_2 sent (place k)) as [sd Hsd]; [apply lookup_lt_Some in Hsd1; lia|].
  rewrite (take_S_r _ _ _ Hsd), last_snoc in Hlink. cbn in Hlink. by exists sd.
Qed.

(** The whole chain is in [sent], or two commits have one hash. *)
Lemma chain_agrees digest c : last l = Some (digest, c) → mk_commit_ref (commit_index c) digest ∈ sd_commit_ref <$> sent →
  collision serialized sent ∨ ∀ k, same_commit k.
Proof using Hbcs Hrec Hidx Hchain Hpos.
  intros Hlast (sd & Href & Hsd)%list_elem_of_fmap. rewrite last_lookup in Hlast. set (n := pred (length l)) in *.
  assert (Hn : same_digest n).
  { intros digest' c' Hk. assert (c' = c) as -> by congruence. assert (digest' = digest) as -> by congruence.
    apply list_elem_of_lookup_1 in Hsd as [j Hj]. pose proof (Hidx j sd Hj) as Hi. rewrite <-Href in Hi. cbn in Hi.
    destruct (ch_parsed _ _ _ Hchain n digest c Hlast) as (_ & _ & _ & _ & Hi' & _). exists sd. split; [|by rewrite <-Href].
    rewrite <-Hj. f_equal. unfold place. lia. }
  assert (Hall : ∀ m, (m ≤ n)%nat → collision serialized sent ∨ same_digest (n - m) ∧ ∀ k, (n - m < k)%nat → same_commit k).
  { induction m as [|m IH]; intros Hm.
    - right. rewrite Nat.sub_0_r. split; [done|]. intros k Hk d' c' Hk'. apply lookup_lt_Some in Hk'. unfold n in *. lia.
    - destruct (IH ltac:(lia)) as [?|[Hd Hc]]; [by left|]. destruct (digest_commit _ Hd) as [?|Hc']; [by left|right].
      replace (n - m)%nat with (Datatypes.S (n - Datatypes.S m))%nat in * by lia. apply lookup_lt_Some in Hlast as Hlen. split.
      + apply commit_previous; [done|]. lia.
      + intros k Hk. destruct (decide (k = Datatypes.S (n - Datatypes.S m))) as [->|]; [done|]. apply Hc. lia. }
  destruct (Hall n ltac:(lia)) as [?|[Hd Hc]]; [by left|]. rewrite Nat.sub_diag in *.
  destruct (digest_commit _ Hd) as [?|Hc']; [by left|right]. intros [|k]; [done|]. apply Hc. lia.
Qed.
End backward.

(** ** The checks *)

Section checks.
Context {S : Type} `{StoreLaws S} `{BlockCodec} `{CommitCodec} `{Crypto} `{BlockSigner} `{Hlaws : RngLaws} `{TransactionVerifier} `{BlockRefCodec}.
Context (ctx : Context) (fuel : nat) (verifier : SignedBlockVerifier).
Context (G : BlockRef → option VerifiedBlock) (byz : gset AuthorityIndex) (Hhonest : honest_node (S := S) ctx G byz).
Context (genesis : list VerifiedBlock).
Implicit Types (t : CoreThread S) (c : Core S).
Abbreviation cm := (ctx_committee ctx).
Abbreviation thread_ok := (thread_ok ctx fuel G genesis).
Abbreviation agg_ok := (agg_ok (T := QuorumThreshold) cm).

(** Only the certifier and what it outputs change. *)
Definition voted_more c c' : Prop := ∃ st out, c' = set_co_outputs out (set_co_transaction_certifier st c) ∧
  proposals out = proposals (co_outputs c).
Lemma voted_more_refl c : voted_more c c.
Proof. clear. exists (co_transaction_certifier c), (co_outputs c). by destruct c. Qed.
Lemma voted_more_trans c1 c2 c3 : voted_more c1 c2 → voted_more c2 c3 → voted_more c1 c3.
Proof. clear. intros (st1 & out1 & -> & H1) (st2 & out2 & -> & H2). exists st2, out2. split; [done|]. cbn in H2. congruence. Qed.

Lemma add_voted_ok t b rejected : thread_ok t → G (vb_reference b) = Some b →
  ∃ c', vote_on_block ctx (ct_core t) b rejected = Done c' ∧ thread_ok (set_ct_core c' t) ∧ voted_more (ct_core t) c'.
Proof using Hhonest.
  intros Ht HGb. unfold vote_on_block. destruct (pc_mysticeti_fastpath (ctx_protocol_config ctx)) eqn:Hf.
  2:{ exists (ct_core t). split; [done|]. split; [by destruct t|apply voted_more_refl]. }
  destruct (vote_ok ctx fuel G byz Hhonest genesis t b rejected Ht HGb ltac:(by rewrite Hf)) as (st & sent & -> & _ & Hall).
  cbn [mbind run_bind]. eexists. split; [done|]. split; [apply Hall, proposals_certified|].
  eexists _, _. split; [done|]. apply proposals_certified.
Qed.

(** The votes of a block count once. *)
Lemma count_votes_spec ref (agg : StakeAggregator QuorumThreshold) b : agg_ok agg → Committee_is_valid_index cm (vb_author b) →
  ∃ agg', count_votes ctx ref agg b = Done agg' ∧ agg_ok agg' ∧
    sa_votes agg' = (if bool_decide (ref ∈ block_commit_votes (vb_block b)) then {[vb_author b]} else ∅) ∪ sa_votes agg.
Proof using Hhonest.
  clear Hlaws. intros Hagg Hv. pose proof (u_committee _ _ _ (hn_universe _ _ _ Hhonest)) as Hcm. unfold count_votes.
  revert agg Hagg. induction (block_commit_votes (vb_block b)) as [|x votes IH]; intros agg Hagg; cbn [for_each].
  { exists agg. split; [done|]. split; [done|]. rewrite bool_decide_eq_false_2 by (by intros ?%elem_of_nil). set_solver. }
  destruct (bool_decide_reflect (x = ref)) as [->|Hne].
  - destruct (StakeAggregator_add_spec cm Hcm agg (vb_author b) Hagg Hv) as (agg1 & -> & Hagg1 & Hv1). cbn [mbind run_bind].
    destruct (IH agg1 Hagg1) as (agg2 & Hrun & Hagg2 & Hv2). exists agg2. split; [exact Hrun|]. split; [done|]. rewrite Hv2, Hv1.
    rewrite (bool_decide_eq_true_2 (ref ∈ ref :: votes)) by (by left). case_bool_decide; set_solver.
  - cbn [mbind run_bind]. destruct (IH agg Hagg) as (agg2 & Hrun & Hagg2 & Hv2). exists agg2. split; [exact Hrun|]. split; [done|].
    rewrite Hv2. f_equal. erewrite bool_decide_ext; [done|]. rewrite elem_of_cons. naive_solver.
Qed.

(** The authors of the blocks that vote for a commit. *)
Definition voting_authors (ref : CommitRef) (blocks : list VerifiedBlock) : gset AuthorityIndex :=
  list_to_set (vb_author <$> filter (λ b, ref ∈ block_commit_votes (vb_block b)) blocks).

(** A block of the network, as it was received and verified. *)
Record received (serialized : bytes) (b : VerifiedBlock) : Prop := {
  rv_signed : bcs_from_bytes serialized = Some (vb_signed b);
  rv_block : b = VerifiedBlock_new_verified (vb_signed b) serialized;
  rv_verified : ∃ rejected, verify_and_vote ctx verifier (vb_signed b) = f_ok rejected;
  rv_known : G (vb_reference b) = Some b;
}.

Lemma verify_votes_spec t ref serialized (agg : StakeAggregator QuorumThreshold) acc : thread_ok t → Forall (delivers ctx verifier G) serialized → agg_ok agg →
  ∃ c' res, verify_vote_blocks ctx verifier (ct_core t) ref serialized agg acc = Done (c', res) ∧
    thread_ok (set_ct_core c' t) ∧ voted_more (ct_core t) c' ∧
    match res with
    | ROk (agg', blocks) => ∃ new, blocks = acc ++ new ∧ Forall2 received serialized new ∧
        agg_ok agg' ∧ sa_votes agg' = voting_authors ref new ∪ sa_votes agg
    | RErr _ => ¬ ∃ new, Forall2 received serialized new
    end.
Proof using Hhonest.
  clear Hlaws. revert t agg acc. induction serialized as [|bs serialized IH]; intros t agg acc Ht HG Hagg; cbn [verify_vote_blocks].
  { eexists _, _. split; [done|]. split; [by destruct t|]. split; [apply voted_more_refl|]. exists []. rewrite app_nil_r. by split_and!; [|constructor| |set_solver]. }
  apply Forall_cons in HG as [Hbs HG]. pose proof (hn_universe _ _ _ Hhonest) as HU.
  assert (Hbad : (∀ b, ¬ received bs b) → ¬ ∃ new, Forall2 received (bs :: serialized) new).
  { intros Hno (new & (b & new' & Hb & _)%Forall2_cons_inv_l). by apply (Hno b). }
  destruct (bcs_from_bytes bs) as [signed|] eqn:Hdec.
  2:{ eexists _, _. split; [done|]. split; [by destruct t|]. split; [apply voted_more_refl|]. apply Hbad. intros b [Hs _ _ _]. congruence. }
  destruct (verify_and_vote_spec ctx verifier (u_committee _ _ _ HU) signed) as (res & Hver & _). rewrite Hver. cbn [mbind run_bind].
  destruct res as [rejected|e].
  2:{ eexists _, _. split; [done|]. split; [by destruct t|]. split; [apply voted_more_refl|]. apply Hbad.
      intros b [Hs _ [rej Hv] _]. assert (vb_signed b = signed) as Heq by congruence. rewrite Heq, Hver in Hv. done. }
  set (b := VerifiedBlock_new_verified signed bs). pose proof (Hbs signed rejected Hdec Hver) as HGb. fold b in HGb.
  assert (Hb : received bs b) by (split; [done|done|by exists rejected|done]).
  destruct (add_voted_ok t b rejected Ht HGb) as (c1 & -> & Ht1 & Hm1). cbn [mbind run_bind].
  destruct (count_votes_spec ref agg b Hagg) as (agg1 & -> & Hagg1 & Hv1); [apply (u_wf _ _ _ HU _ _ HGb)|]. cbn [mbind run_bind].
  destruct (IH (set_ct_core c1 t) agg1 (acc ++ [b]) Ht1 HG Hagg1) as (c' & res & Hrun & Ht' & Hm' & Hres).
  exists c', res. split; [exact Hrun|]. split; [by destruct t|]. split; [by eapply voted_more_trans|].
  destruct res as [[agg' blocks]|e].
  - destruct Hres as (new & -> & Hnew & Hagg' & Hvotes). exists (b :: new). rewrite <-app_assoc. split; [done|]. split; [by constructor|].
    split; [done|]. rewrite Hvotes, Hv1. unfold voting_authors. rewrite filter_cons. case_decide; case_bool_decide; [set_solver|done|done|set_solver].
  - intros (new & (b' & new' & _ & Hnew & _)%Forall2_cons_inv_l). apply Hres. by exists new'.
Qed.
End checks.

(** ** The blocks of fetched commits *)

Section fetched_blocks.
Context `{BlockCodec}.
Implicit Types (m : gmap BlockRef VerifiedBlock) (commits : list TrustedCommit).

Lemma chunks_join {A} (size : nat) (l : list A) : (0 < size)%nat → mjoin (chunks size l) = l.
Proof.
  intros Hs. unfold chunks. assert (Hle : (length l ≤ length l)%nat) by done. revert Hle. generalize (length l) at 2 3 as n. intros n. revert l.
  induction n as [|n IH]; intros [|x l] Hl; cbn [chunks_of]; [done|cbn in Hl; lia|done|]. cbn [mjoin list_join].
  rewrite IH; [apply take_drop|]. rewrite length_drop. cbn in *. lia.
Qed.

Lemma collect_chunks_dom target requests responses m m' : collect_chunks target requests responses m = ROk m' →
  ∀ r, is_Some (m' !! r) ↔ is_Some (m !! r) ∨ r ∈ mjoin requests.
Proof.
  revert responses m. induction requests as [|request requests IH]; intros responses m; cbn [collect_chunks].
  { intros [= <-] r. cbn. rewrite elem_of_nil. tauto. }
  intros (blocks & Hchunk & Hrun)%result_bind_ROk r. rewrite (IH _ _ Hrun r). cbn [mjoin list_join]. rewrite elem_of_app.
  unfold check_chunk in Hchunk. apply result_bind_ROk in Hchunk as (serialized & _ & Hchunk). case_bool_decide as Hlen; [done|].
  destruct (mapM bcs_from_bytes serialized) as [signed|] eqn:Hdec; [|done].
  destruct (match_blocks_spec _ _ _ _ _ Hdec Hlen Hchunk) as [<- _].
  assert (Hins : is_Some (foldl (λ m b, <[vb_reference b := b]> m) m blocks !! r) ↔ is_Some (m !! r) ∨ r ∈ vb_reference <$> blocks); [|tauto].
  clear. revert m. induction blocks as [|b blocks IH]; intros m; cbn; [rewrite elem_of_nil; tauto|].
  rewrite IH, elem_of_cons, lookup_insert_is_Some. destruct (decide (vb_reference b = r)); naive_solver.
Qed.

(** The blocks of a commit are there, and no other commit has taken them. *)
Lemma take_blocks_total (refs rest : list BlockRef) m bs : NoDup (refs ++ rest) → (∀ r, r ∈ refs ++ rest → is_Some (m !! r)) →
  ∃ m' blocks, for_each (λ '(m, blocks) block_ref, block ← expect (m !! block_ref); Done (delete block_ref m, blocks ++ [block]))
      (m, bs) refs = Done (m', blocks) ∧ ∀ r, r ∈ rest → is_Some (m' !! r).
Proof.
  revert m bs. induction refs as [|r refs IH]; intros m bs Hnd Hm; cbn [for_each].
  { eexists _, _. split; [done|]. exact Hm. }
  cbn in Hnd, Hm. apply NoDup_cons in Hnd as [Hr Hnd]. destruct (Hm r) as [b Hb]; [by left|]. rewrite Hb. cbn [expect mbind run_bind].
  apply IH; [done|]. intros r' Hr'. rewrite lookup_delete_ne by (intros ->; done). apply Hm. by right.
Qed.

Lemma assign_total commits m acc : NoDup (commits ≫= tc_blocks) → (∀ r, r ∈ commits ≫= tc_blocks → is_Some (m !! r)) →
  ∃ m' ccs, for_each assign_blocks (m, acc) commits = Done (m', ccs).
Proof.
  revert m acc. induction commits as [|commit commits IH]; intros m acc Hnd Hm; cbn [for_each]; [by eexists _, _|].
  cbn in Hnd, Hm. destruct (take_blocks_total (tc_blocks commit) (commits ≫= tc_blocks) m [] Hnd Hm) as (m' & blocks & Hrun & Hm').
  assert (assign_blocks (m, acc) commit = Done (m', acc ++ [mk_certified_commit commit blocks])) as -> by (apply bind_Done; by exists (m', blocks)).
  cbn [mbind run_bind]. apply IH; [|done]. by apply NoDup_app in Hnd as (_ & _ & ?).
Qed.
End fetched_blocks.

(** ** The blocks of the ledger *)

Section known_blocks.
Context {S : Type} `{StoreLaws S} `{CommitCodec} `{Rng} (ctx : Context) (fuel : nat).
Context (G : BlockRef → option VerifiedBlock) (byz : gset AuthorityIndex) (HU : universe_ok (ctx_committee ctx) G byz).
#[local] Existing Instance settled_api.

Definition in_network (b : VerifiedBlock) : Prop := G (vb_reference b) = Some b.

Lemma linearize_known turns gc (p : Settled) buffer to_commit p' blocks : Forall in_network buffer → Forall in_network to_commit →
  linearize_loop (H := settled_api G) turns gc p buffer to_commit = Done (p', blocks) → Forall in_network blocks.
Proof using HU.
  revert p buffer to_commit. induction turns as [|turns IH]; intros p [|x buffer] to_commit Hb Ht; cbn [linearize_loop];
    [by intros [= _ <-]|done|by intros [= _ <-]|]. apply Forall_cons in Hb as [Hx Hb].
  intros (refs & _ & Hrun)%bind_Done. cbn [api_get_blocks settled_api mbind run_bind] in Hrun.
  apply bind_Done in Hrun as (ancestors & Hanc & Hrun). apply bind_Done in Hrun as ([p1 buffer1] & Hfor & Hrun).
  apply IH in Hrun; [done| |apply Forall_app; split; [done|by apply Forall_singleton]].
  assert (Hin : Forall in_network ancestors).
  { apply map_run_Done in Hanc. apply Forall_forall. intros b Hb'. apply list_elem_of_lookup_1 in Hb' as [i Hi].
    destruct (Forall2_lookup_r _ _ _ _ _ Hanc Hi) as (o & Ho & He). rewrite list_lookup_fmap in Ho.
    destruct (refs !! i) as [r|]; [|done]. injection Ho as <-. destruct (G r) as [b'|] eqn:HG; [|done]. injection He as ->.
    unfold in_network. by rewrite (u_reference _ _ _ HU _ _ HG). }
  clear -Hfor Hb Hin. revert p buffer Hb Hfor. induction Hin as [|a ancestors Ha _ IH]; intros p buffer Hb; cbn [for_each]; [by intros [= _ <-]|].
  intros ([p2 b2] & Hstep & Hrun)%bind_Done. apply IH in Hrun; [done|].
  apply bind_Done in Hstep as ([p3 fresh] & _ & Hstep). destruct fresh; [|done]. cbn in Hstep. injection Hstep as _ <-. by constructor.
Qed.

Lemma sub_dag_known sent leader sd b : in_network leader → sub_dag_of ctx fuel G sent leader = Done sd → b ∈ sd_blocks sd →
  in_network b ∧ vb_round b ≠ 0.
Proof using HU.
  intros Hl. unfold sub_dag_of. intros ([p blocks] & Hlin & Hrun)%bind_Done. apply bind_Done in Hrun as (ts & _ & Hrun).
  apply bind_Done in Hrun as (bytes & _ & [= <-]). cbn. unfold linearize_sub_dag in Hlin.
  apply bind_Done in Hlin as ([p1 fresh] & _ & Hlin). destruct fresh; [|done]. cbn [mbind run_bind] in Hlin.
  apply bind_Done in Hlin as ([p2 to_commit] & Hloop & Hlin). destruct (forallb _ to_commit) eqn:Hall; [|done]. injection Hlin as _ <-.
  apply linearize_known in Hloop; [|by apply Forall_singleton|done]. intros Hb. assert (Hb' : b ∈ to_commit).
  { unfold sort_sub_dag_blocks in Hb. by rewrite sort_by_Permutation in Hb. }
  rewrite Forall_forall in Hloop. split; [by apply Hloop|]. apply Is_true_true in Hall. rewrite forallb_True, Forall_forall in Hall.
  specialize (Hall b Hb'). rewrite bool_decide_spec in Hall. lia.
Qed.

Lemma ledger_known l k sd b : rtc (ledger_step (S := S) ctx fuel G) ledger_genesis l → le_sent l !! k = Some sd → b ∈ sd_blocks sd →
  in_network b ∧ vb_round b ≠ 0.
Proof using HU.
  intros Hsteps. revert k sd. refine (rtc_ind_r (R := ledger_step (S := S) ctx fuel G)
    (λ l, ∀ k sd, le_sent l !! k = Some sd → b ∈ sd_blocks sd → in_network b ∧ vb_round b ≠ 0) ledger_genesis _ _ l Hsteps); [done|].
  clear l Hsteps. intros l l' _ Hstep IH k sd. destruct Hstep as [l s|l n slot|l n leader sd0 scoring _ _ [_ Hfin] Hsd _]; cbn; [apply IH..|].
  intros [Hk|[Hge Hk]]%lookup_app_Some; [by apply (IH k)|]. apply list_lookup_singleton_Some in Hk as [_ <-]. intros Hb.
  destruct Hfin as (i & d & v & later & Hview & Hdec & _). apply (sub_dag_known (le_sent l) leader sd0); [|done|].
  - apply (vo_sub _ _ _ _ Hview). apply (decisions_lookup (own_context ctx i) G d v (LCommit leader :: later)); [done|by left].
  - unfold labelled in Hb. by destruct (ScoringSubdag_is_empty _).
Qed.
End known_blocks.

(** ** Fetching *)

Section fetching.
Context {S : Type} `{StoreLaws S} `{BlockCodec} `{CommitCodec} `{Crypto} `{BlockSigner} `{Hlaws : RngLaws} `{TransactionVerifier} `{BlockRefCodec}.
Context (ctx : Context) (params : Parameters) (fuel : nat) (verifier : SignedBlockVerifier).
Context (G : BlockRef → option VerifiedBlock) (byz : gset AuthorityIndex) (Hhonest : honest_node (S := S) ctx G byz).
Context (genesis : list VerifiedBlock) (Hmax : pm_max_blocks_per_fetch params ≠ 0).
Implicit Types (t : CoreThread S) (c : Core S).
Abbreviation cm := (ctx_committee ctx).
Abbreviation thread_ok := (thread_ok ctx fuel G genesis).

Lemma add_votes_ok t blocks : thread_ok t → Forall (in_network G) blocks →
  ∃ c', for_each (λ c block, vote_on_block ctx c block []) (ct_core t) blocks = Done c' ∧
    thread_ok (set_ct_core c' t) ∧ voted_more (ct_core t) c'.
Proof using Hhonest.
  clear Hlaws Hmax. intros Ht Hb. revert t Ht. induction Hb as [|b blocks Hb _ IH]; intros t Ht; cbn [for_each].
  { exists (ct_core t). split; [done|]. split; [by destruct t|apply voted_more_refl]. }
  destruct (add_voted_ok ctx fuel G byz Hhonest genesis t b [] Ht Hb) as (c1 & -> & Ht1 & Hm1). cbn [mbind run_bind].
  destruct (IH _ Ht1) as (c' & Hrun & Ht' & Hm'). exists c'. split; [exact Hrun|]. split; [by destruct t|by eapply voted_more_trans].
Qed.

Lemma Forall_or {A} (D : Prop) (P : A → Prop) l : Forall (λ x, D ∨ P x) l → D ∨ Forall P l.
Proof. clear. induction 1 as [|x l [?|Hx] _ [?|IH]]; [by right|by left..|right; by constructor]. Qed.

(** Once the commits are verified: the blocks that were asked for are there,
    unless one of the answers is a block of another hash ([D]). *)
Lemma certify_spec (D : Prop) t target commits votes responses now : thread_ok t → Committee_is_valid_index cm target →
  NoDup (commits ≫= tc_blocks) →
  (∀ b, answered responses b → vb_reference b ∈ commits ≫= tc_blocks → D ∨ in_network G b) →
  D ∨ ∃ c' res, certify_commits ctx params (ct_core t) target commits votes responses now = Done (c', res) ∧
    thread_ok (set_ct_core c' t) ∧ voted_more (ct_core t) c' ∧
    ∀ certified, res = ROk certified → ccs_votes certified = votes ∧ cc_commit <$> ccs_commits certified = commits ∧
      Forall (λ cc, vb_reference <$> cc_blocks cc = tc_blocks (cc_commit cc) ∧ Forall (in_network G) (cc_blocks cc)) (ccs_commits certified).
Proof using Hhonest Hmax.
  clear Hlaws. intros Ht Htarget Hnd Hin. unfold certify_commits, block_requests. rewrite bool_decide_eq_false_2 by done. cbn [negb mbind run_bind].
  set (requests := chunks _ _).
  assert (Hjoin : mjoin requests ≡ₚ commits ≫= tc_blocks).
  { unfold requests. rewrite chunks_join by lia. apply sort_by_Permutation. }
  destruct (collect_chunks target requests responses ∅) as [m|e] eqn:Hcol.
  2:{ right. exists (ct_core t), (RErr e). split; [done|]. split; [by destruct t|]. split; [apply voted_more_refl|done]. }
  pose proof (collect_chunks_dom _ _ _ _ _ Hcol) as Hdom.
  apply (collect_chunks_spec _ _ responses) in Hcol as Hcont; [|by intros ? ? ?%lookup_empty_Some|by eauto].
  destruct (map_run_total (λ block, if bool_decide (saturating_sub (vb_timestamp_ms block) now = 0) then Done tt
      else _ ← Committee_authority cm target; Done tt) ((map_list m).*2 ++ votes)) as [ys ->].
  { intros b _. case_bool_decide; [by eexists|]. destruct (authority_total ctx target Htarget) as [x ->]. by eexists. }
  cbn [mbind run_bind]. destruct (assign_total commits m [] Hnd) as (m' & ccs & Has).
  { intros r Hr. apply Hdom. right. by rewrite Hjoin. }
  rewrite Has. cbn [mbind run_bind]. destruct (assign_spec _ _ _ _ _ _ Hcont Has) as (new & -> & Hnew & Hb). cbn [app] in *.
  assert (Hb' : D ∨ Forall (λ cc, vb_reference <$> cc_blocks cc = tc_blocks (cc_commit cc) ∧ Forall (in_network G) (cc_blocks cc)) new).
  { apply Forall_or. rewrite Forall_forall in Hb |- *. intros cc Hcc. destruct (Hb cc Hcc) as [Hrefs Ha].
    destruct (Forall_or D (in_network G) (cc_blocks cc)) as [?|?]; [|by left|by right]. rewrite Forall_forall in Ha |- *.
    intros b Hbcc. apply Hin; [by apply Ha|]. apply list_elem_of_bind. exists (cc_commit cc). split; [|rewrite <-Hnew; by apply list_elem_of_fmap_2].
    rewrite <-Hrefs. by apply list_elem_of_fmap_2. }
  destruct Hb' as [?|Hb']; [by left|right].
  destruct (add_votes_ok t (new ≫= cc_blocks) Ht) as (c' & -> & Ht' & Hm').
  { apply Forall_forall. intros b (cc & Hbcc & Hcc)%list_elem_of_bind. rewrite Forall_forall in Hb'. destruct (Hb' cc Hcc) as [_ Hg].
    rewrite Forall_forall in Hg. by apply Hg. }
  cbn [mbind run_bind]. eexists _, _. split; [done|]. split; [done|]. split; [done|]. by intros certified [= <-].
Qed.
End fetching.

(** ** Agreement of fetched commits *)

Section synced.
Context {S : Type} `{StoreLaws S} `{BlockCodec} `{CommitCodec} `{Crypto} `{BlockSigner} `{Hlaws : RngLaws} `{TransactionVerifier} `{BlockRefCodec}.
Context (ctx : Context) (fuel : nat) (verifier : SignedBlockVerifier).
Context (G : BlockRef → option VerifiedBlock) (genesis : list VerifiedBlock) (byz : gset AuthorityIndex).
Implicit Types (s : AuthorityService S).
Abbreviation authority_state := (authority_state (S := S) ctx fuel verifier G genesis byz).
Abbreviation sent s := (cfh_sent (co_commit_finalizer_handle (as_core s))).

(** What is assumed of the network: bcs is lossless on commits, blocks were
    read from their bytes, and the blocks of honest authorities were broadcast
    by nodes that run this code. *)
Record network : Prop := {
  nw_commits c bytes : bcs_commit_to_bytes c = Some bytes → bcs_commit_from_bytes bytes = Some c;
  nw_blocks b : in_network G b → vb_round b ≠ 0 → parsed b;
  nw_proposed b : in_network G b → vb_round b ≠ 0 → vb_author b ∉ byz →
    ∃ s, authority_state (vb_author b) s ∧ b ∈ proposals (co_outputs (as_core s));
}.

Lemma state_ok i s : authority_state i s → honest_node (S := S) (own_context ctx i) G byz ∧
  thread_ok (own_context ctx i) fuel G genesis (as_thread s) ∧ ∃ v, core_ok (own_context ctx i) fuel G genesis (as_core s) v.
Proof using All.
  intros (params & U & Hset & Hr). pose proof (reachable_ok (own_context ctx i) params fuel verifier G genesis byz U Hset s Hr) as Hok.
  split; [apply Hset|]. split; [apply Hok|]. apply (th_core _ _ _ _ _ (so_thread _ _ _ _ _ Hok)).
Qed.

Context (Hnet : network).

(** A quorum of votes for a commit has one of an honest authority, and that
    authority committed it. *)
Lemma quorum_sent i s ref serialized blocks : authority_state i s →
  Forall2 (received (own_context ctx i) verifier G) serialized blocks →
  c_quorum_threshold (ctx_committee ctx) ≤ set_stake (ctx_committee ctx) (voting_authors ref blocks) →
  ∃ j s', (j ∉ byz) ∧ authority_state j s' ∧ ref ∈ (sd_commit_ref <$> sent s').
Proof using All.
  intros Hs Hrec Hq. destruct (state_ok i s Hs) as [Hn _]. pose proof (hn_universe _ _ _ Hn) as HU.
  change (ctx_committee (own_context ctx i)) with (ctx_committee ctx) in HU.
  destruct (quorums_honest _ G byz HU _ _ Hq Hq) as (j & Hj & _ & Hbyz).
  unfold voting_authors in Hj. apply elem_of_list_to_set, list_elem_of_fmap in Hj as (b & -> & [Hvote Hb]%list_elem_of_filter).
  apply list_elem_of_lookup_1 in Hb as [k Hk]. destruct (Forall2_lookup_r _ _ _ _ _ Hrec Hk) as (bs & _ & [_ _ [rejected Hver] HG]).
  assert (Hround : vb_round b ≠ 0).
  { destruct (verify_and_vote_spec (own_context ctx i) verifier (u_committee _ _ _ HU) (vb_signed b)) as (res & Hrun & Hacc).
    rewrite Hver in Hrun. injection Hrun as <-. destruct (proj1 (Hacc rejected) eq_refl) as [Hac _]. by destruct Hac. }
  destruct (nw_proposed Hnet b HG Hround Hbyz) as (s' & Hs' & Hprop). exists (vb_author b), s'. split; [done|]. split; [done|].
  destruct (state_ok _ _ Hs') as (_ & _ & v & Hok). by apply (ok_votes _ _ _ _ _ _ Hok b).
Qed.

(** A received block with the hash of another one, of the network. *)
Definition block_collision (responses : nat → ConsensusResult (list bytes)) : Prop := ∃ n l bs b,
  responses n = ROk l ∧ bs ∈ l ∧ in_network G b ∧ bs ≠ vb_serialized b ∧ default_hash bs = default_hash (vb_serialized b).

(** The blocks of a commit are those that the honest authority committed. *)
Lemma answered_block responses b b' : answered responses b → in_network G b' → vb_round b' ≠ 0 → vb_reference b = vb_reference b' →
  block_collision responses ∨ b = b'.
Proof using Hnet.
  clear Hlaws. intros [[Hdec Hb] (n & l & Hl & Hin)] HG Hr Href. destruct (nw_blocks Hnet b' HG Hr) as [Hdec' Hb'].
  destruct (decide (vb_serialized b = vb_serialized b')) as [Heq|Hne].
  - right. rewrite Hb, Hb', Heq. f_equal. rewrite Heq in Hdec. congruence.
  - left. exists n, l, (vb_serialized b), b'. split_and!; [done..|]. apply (f_equal br_digest) in Href.
    rewrite Hb, Hb' in Href. exact Href.
Qed.

(** A commit is that of a sub-dag, and a certified one has its blocks. *)
Record commit_of_sub_dag (t : TrustedCommit) (sd : CommittedSubDag) : Prop := {
  co_reference : TrustedCommit_reference t = sd_commit_ref sd;
  co_leader : tc_leader t = sd_leader sd;
  co_timestamp : tc_timestamp_ms t = sd_timestamp_ms sd;
  co_blocks : tc_blocks t = vb_reference <$> sd_blocks sd;
}.
Definition certifies (cc : CertifiedCommit) (sd : CommittedSubDag) : Prop :=
  commit_of_sub_dag (cc_commit cc) sd ∧ cc_blocks cc = sd_blocks sd.

(** Commits of a chain that agrees with what was sent, and their sub-dags. *)
Lemma agrees_segment (r : CommitRange) serialized l (subdags : list CommittedSubDag) : chain r serialized l → 0 < rg_start r →
  (∀ k, same_commit subdags r l k) →
  Forall2 commit_of_sub_dag (trusted l serialized) (take (length l) (drop (place r 0) subdags)).
Proof.
  clear. intros Hl Hpos Hall. apply Forall2_same_length_lookup.
  assert (Hlook : ∀ k, (k < length l)%nat → ∃ digest c sd bs, l !! k = Some (digest, c) ∧ serialized !! k = Some bs ∧ digest = commit_hash bs ∧
    take (length l) (drop (place r 0) subdags) !! k = Some sd ∧ sd_commit_ref sd = mk_commit_ref (commit_index c) digest ∧
    c = commit_for (take (place r k) subdags) sd).
  { intros k Hk. destruct (lookup_lt_is_Some_2 l k Hk) as [[digest c] Hlk]. destruct (Hall k digest c Hlk) as (sd & Hsd & Href & Hc).
    destruct (ch_parsed _ _ _ Hl k digest c Hlk) as (bs & Hbs & _ & Hdig & _). exists digest, c, sd, bs. split_and!; try done.
    rewrite lookup_take_lt, lookup_drop by done. rewrite <-Hsd. f_equal. unfold place. lia. }
  split.
  - rewrite (trusted_length r) by done. destruct (decide (length l = O)) as [->|Hne]; [done|].
    destruct (Hlook (pred (length l))) as (_ & _ & sd & _ & _ & _ & _ & Hsd & _); [lia|]. apply lookup_lt_Some in Hsd as Hlt.
    rewrite length_take in *. lia.
  - intros k t sd Ht Hsd. rewrite (trusted_lookup r) in Ht by done.
    destruct (l !! k) as [[digest c]|] eqn:Hk; [|done]. destruct (Hlook k) as (digest' & c' & sd' & bs & Hk' & Hbs & Hdig & Hsd' & Href & Hc);
      [by apply lookup_lt_Some in Hk|]. rewrite Hbs in Ht. cbn in Ht. injection Ht as <-.
    assert (sd' = sd) as -> by congruence. assert (c' = c) as -> by congruence. assert (digest' = digest) as -> by congruence.
    split; [by rewrite Href, Hdig|by rewrite Hc..].
Qed.

Lemma segment_blocks (commits : list TrustedCommit) (subdags : list CommittedSubDag) n p : NoDup (committed_refs subdags) →
  Forall2 commit_of_sub_dag commits (take n (drop p subdags)) → NoDup (commits ≫= tc_blocks).
Proof.
  clear. intros Hnd Hf. assert (commits ≫= tc_blocks = committed_refs (take n (drop p subdags))) as ->.
  { unfold committed_refs. induction Hf as [|t sd ts sds [_ _ _ Hb] _ IH]; [done|]. cbn. by rewrite Hb, IH. }
  rewrite <-(take_drop p subdags), committed_refs_app in Hnd. apply NoDup_app in Hnd as (_ & _ & Hnd).
  rewrite <-(take_drop n (drop p subdags)), committed_refs_app in Hnd. by apply NoDup_app in Hnd as [? _].
Qed.

(** The checks end in an answer, and commits that pass them lead to one that an
    honest authority sent. *)
Lemma verify_commits_spec i s target (r : CommitRange) serialized_commits serialized_blocks : authority_state i s → range_ok r →
  Forall (delivers (own_context ctx i) verifier G) serialized_blocks →
  ∃ c' res, verify_commits (own_context ctx i) verifier (as_core s) target r serialized_commits serialized_blocks = Done (c', res) ∧
    thread_ok (own_context ctx i) fuel G genesis (set_ct_core c' (as_thread s)) ∧ voted_more (as_core s) c' ∧
    ∀ commits votes, res = ROk (commits, votes) → ∃ l digest c j s',
      chain r serialized_commits l ∧ last l = Some (digest, c) ∧ commits = trusted l serialized_commits ∧
      (j ∉ byz) ∧ authority_state j s' ∧ mk_commit_ref (commit_index c) digest ∈ (sd_commit_ref <$> sent s').
Proof using All.
  intros Hs Hr Hdel. destruct (state_ok i s Hs) as (Hn & Ht & _). unfold verify_commits.
  destruct (parse_commits target r serialized_commits []) as [l|e] eqn:Hparse.
  2:{ eexists _, _. split; [done|]. split; [by destruct s as [[]]|]. split; [apply voted_more_refl|done]. }
  destruct (parse_commits_spec target r [] serialized_commits [] l Hr) as [Hl _]; [by split|done|done|].
  destruct (last l) as [[digest c]|] eqn:Hlast.
  2:{ eexists _, _. split; [done|]. split; [by destruct s as [[]]|]. split; [apply voted_more_refl|done]. }
  destruct (verify_votes_spec (own_context ctx i) fuel verifier G byz Hn genesis (as_thread s) (mk_commit_ref (commit_index c) digest)
    serialized_blocks StakeAggregator_new [] Ht Hdel (agg_ok_new _)) as (c' & res & Hrun & Ht' & Hm & Hres).
  change (as_core s) with (ct_core (as_thread s)). rewrite Hrun. cbn [mbind run_bind].
  destruct res as [[agg blocks]|e]; [|eexists _, _; by split_and!].
  destruct Hres as (new & -> & Hnew & [Hstake _] & Hvotes). cbn [app].
  destruct (StakeAggregator_reached_threshold agg _) eqn:Hq; cbn [negb]; (eexists _, _; split; [done|]; split; [done|]; split; [done|]); [|done].
  intros commits votes [= <- <-]. unfold StakeAggregator_reached_threshold in Hq. rewrite is_threshold_spec in Hq.
  apply bool_decide_eq_true in Hq. rewrite Hstake, Hvotes in Hq. cbn in Hq. rewrite (right_id_L ∅ (∪)) in Hq.
  destruct (quorum_sent i s _ _ _ Hs Hnew Hq) as (j & s' & Hj & Hs' & Hin). by exists l, digest, c, j, s'.
Qed.

Lemma sent_facts j s : authority_state j s → universe_ok (ctx_committee ctx) G byz ∧
  rtc (ledger_step (S := S) ctx fuel G) ledger_genesis (ledger_of (as_core s)) ∧
  (∀ k sd, sent s !! k = Some sd → cr_index (sd_commit_ref sd) = N.of_nat k + 1) ∧ NoDup (committed_refs (sent s)).
Proof using All.
  intros Hs. destruct (authority_ledger ctx fuel verifier G genesis byz j s Hs) as [HU Hl]. split; [done|]. split; [done|].
  destruct (state_ok j s Hs) as (_ & _ & v & Hok). by destruct (ok_log _ _ _ _ _ _ Hok).
Qed.

Context (params : Parameters).

Lemma network_refs l1 l2 : Forall (in_network G) l1 → Forall (in_network G) l2 → vb_reference <$> l1 = vb_reference <$> l2 → l1 = l2.
Proof.
  clear. intros Hl1. revert l2. induction Hl1 as [|b1 l1 Hb1 _ IH]; intros [|b2 l2] Hl2; try done.
  apply Forall_cons in Hl2 as [Hb2 Hl2]. rewrite !fmap_cons. intros [Hr Hrest]%(inj2 cons). f_equal; [|by apply IH]. unfold in_network in *. congruence.
Qed.

End synced.
