(* ===== verification/ServiceReads.v ===== *)
(** * What peers can ask for

    The requests that read: blocks, the latest blocks and rounds. No request
    panics, answers are bounded and hold only blocks that the node has. Then
    the references of excluded ancestors, which are not checked. *)
From S2P Require Import Prelude Committee StakeAggregator Block ThresholdClock Commit LeaderScoring Store DagState DagStateProofs DagTraversal LeaderSchedule BaseCommitter CommitRule BlockVerifier TransactionConsumer DagViews BlockManager BlockManagerProofs BlockManagerSafety ManagedNode Linearizer CommitObserver LinearizerProofs CommitSafety UniversalCommitter QuorumRounds Ancestor TransactionCertifier CertifierProofs CommitFinalizer Core CoreThread AuthorityService AuthorityNode CoreState Ledger CoreProposal CoreProposer CoreCommit CoreNode CoreRun NodeStart ServiceProofs NodeSafety.

Section reads.
Context {S : Type} `{StoreLaws S} `{BlockCodec} `{CommitCodec} `{Crypto} `{BlockSigner} `{Hlaws : RngLaws} `{TransactionVerifier} `{BlockRefCodec} `{SliceRandom}.
Context (ctx : Context) (params : Parameters) (fuel : nat).
Context (G : BlockRef → option VerifiedBlock) (byz : gset AuthorityIndex) (Hhonest : honest_node (S := S) ctx G byz).
Context (genesis : list VerifiedBlock) (Hgenesis : genesis_blocks ctx = Done genesis).
Implicit Types (s : AuthorityService S) (d : DagState S) (v : StoreView).
Abbreviation cm := (ctx_committee ctx).
Abbreviation valid := (Committee_is_valid_index cm).
Abbreviation size := (Committee_size cm).
Abbreviation dag_ok := (dag_ok ctx G genesis).

(** ** Blocks *)

(** The node has the block. *)
Definition has d (b : VerifiedBlock) : Prop := get_blocks d [vb_reference b] = Done [Some b].

Lemma has_spec d v b : dag_inv ctx d v → has d b ↔ dag_lookup d v (vb_reference b) = Some b.
Proof. clear. intros Hinv. unfold has. rewrite (get_blocks_spec ctx d v) by done. cbn. split; [by intros [= ?]|by intros ->]. Qed.

Lemma lookup_has d v r b : dag_ok d v → dag_lookup d v r = Some b → has d b ∧ vb_reference b = r ∧ block_wf cm b.
Proof using Hhonest.
  clear Hgenesis. intros Hok Hb. pose proof (ni_view _ _ _ _ (dk_node _ _ _ _ _ Hok)) as Hview.
  pose proof (vo_sub _ _ _ _ Hview r b Hb) as HG. pose proof (u_reference _ _ _ (hn_universe _ _ _ Hhonest) r b HG) as Href.
  split; [|split; [done|by apply (u_wf _ _ _ (hn_universe _ _ _ Hhonest) r)]].
  apply (has_spec d v); [apply Hview|]. by rewrite Href.
Qed.

(** The blocks found are those that the node has, in the order asked for. *)
Lemma found_spec d v refs : dag_ok d v → ∃ blocks, found_blocks d refs = Done blocks ∧
  Forall (λ b, has d b ∧ block_wf cm b ∧ vb_reference b ∈ refs) blocks ∧ (length blocks ≤ length refs)%nat ∧
  ∀ b, has d b → vb_reference b ∈ refs → b ∈ blocks.
Proof using Hhonest.
  clear Hgenesis. intros Hok. pose proof (ni_view _ _ _ _ (dk_node _ _ _ _ _ Hok)) as Hview. pose proof (vo_inv _ _ _ _ Hview) as Hinv.
  exists (omap id (dag_lookup d v <$> refs)). unfold found_blocks. rewrite (get_blocks_spec ctx d v) by done. split; [done|]. split_and!.
  - apply Forall_forall. intros b (o & (r & -> & Hr)%list_elem_of_fmap & Ho)%list_elem_of_omap. cbn in Ho.
    destruct (lookup_has d v r b Hok Ho) as (? & <- & ?). done.
  - clear. induction refs as [|r refs IH]; [done|]. csimpl. destruct (dag_lookup d v r); cbn; lia.
  - intros b Hb%(has_spec d v) Hr; [|done]. apply list_elem_of_omap. exists (Some b). split; [|done].
    rewrite <-Hb. by apply list_elem_of_fmap_2.
Qed.

(** The checks of a request. *)
Definition request_ok (refs : list BlockRef) : Prop := Forall (λ r, valid (br_author r) ∧ br_round r ≠ GENESIS_ROUND) refs.
Lemma check_requests_spec refs : if check_block_requests ctx refs is ROk _ then request_ok refs else ¬ request_ok refs.
Proof.
  clear. unfold request_ok. induction refs as [|r refs IH]; cbn; [constructor|].
  destruct (Committee_is_valid_index cm (br_author r)) eqn:Hv; cbn; [|intros [[Ha _] _]%Forall_cons; by rewrite Hv in Ha].
  case_bool_decide as Hr; [by intros [[_ Hn] _]%Forall_cons|].
  destruct (check_block_requests ctx refs); [|by intros [_ ?]%Forall_cons]. constructor; [|done]. by rewrite Hv.
Qed.
Definition rounds_fit (rounds : list Round) : Prop := length rounds = O ∨ length rounds = size.
Lemma check_rounds_spec rounds : if check_rounds_size ctx rounds is ROk _ then rounds_fit rounds else ¬ rounds_fit rounds.
Proof. clear. unfold check_rounds_size, rounds_fit. repeat case_bool_decide; cbn; naive_solver. Qed.

Lemma missing_spec rounds blocks : length rounds = size → Forall (block_wf cm) blocks →
  ∃ refs, missing_ancestors rounds blocks = Done refs ∧ ∀ r, r ∈ refs → r ∈ blocks ≫= vb_ancestors.
Proof.
  clear. intros Hlen Hwf. unfold missing_ancestors.
  destruct (filter_run_total (λ r : BlockRef, highest ← vec_get rounds (br_author r); Done (bool_decide (highest < br_round r)))
    (blocks ≫= vb_ancestors)) as [refs Hrefs].
  - intros r (b & Hr & Hb)%list_elem_of_bind. rewrite Forall_forall in Hwf. pose proof (wf_ancestors _ _ (Hwf b Hb)) as Ha.
    rewrite Forall_forall in Ha. specialize (Ha r Hr). apply thread_valid in Ha. unfold vec_get.
    destruct (lookup_lt_is_Some_2 rounds (br_author r)) as [x ->]; [lia|]. by eexists.
  - exists refs. split; [done|]. intros r Hr. by apply (filter_run_Done _ _ _ Hrefs) in Hr as [? _].
Qed.

Lemma add_cached_spec d v rounds lowest blocks : dag_ok d v → length rounds = size →
  Forall (λ p, valid p.1) lowest → Forall (has d) blocks → N.of_nat (length blocks) ≤ pm_max_blocks_per_sync params →
  ∃ more, add_cached_blocks params d rounds lowest blocks = Done (blocks ++ more) ∧ Forall (has d) more ∧
    N.of_nat (length (blocks ++ more)) ≤ pm_max_blocks_per_sync params.
Proof using Hhonest.
  clear Hgenesis. intros Hok Hlen Hval. pose proof (vo_inv _ _ _ _ (ni_view _ _ _ _ (dk_node _ _ _ _ _ Hok))) as Hinv.
  revert blocks. induction Hval as [|[a lo] lowest Ha _ IH]; intros blocks Hb Hmax; [exists []; by rewrite app_nil_r|].
  cbn [add_cached_blocks]. pose proof Ha as Hlt%thread_valid. unfold vec_get.
  destruct (lookup_lt_is_Some_2 rounds a) as [hi Hhi]; [cbn in *; lia|]. rewrite Hhi. cbn [expect mbind run_bind].
  case_bool_decide; [by apply IH|].
  destruct (cached_in_range_spec ctx d v a (u32_add hi 1) lo (saturating_sub (pm_max_blocks_per_sync params) (N.of_nat (length blocks))) Hinv Ha)
    as (l & -> & Hl & Hin). cbn [mbind run_bind].
  assert (Hl' : Forall (has d) l) by (apply Forall_forall; intros b Hb'; apply (has_spec d v); [done|by apply Hin]).
  assert (Hsum : N.of_nat (length (blocks ++ l)) ≤ pm_max_blocks_per_sync params) by (rewrite length_app; unfold saturating_sub in Hl; lia).
  case_bool_decide.
  - exists l. split; [|done]. f_equal. apply take_ge. lia.
  - destruct (IH (blocks ++ l)) as (more & -> & Hm & Hmm); [by apply Forall_app|done|]. exists (l ++ more). rewrite app_assoc.
    split; [done|]. split; [by apply Forall_app|done].
Qed.

Lemma add_ancestors_spec d v rounds limit blocks : dag_ok d v → length rounds = size →
  Forall (λ b, has d b ∧ block_wf cm b) blocks → N.of_nat (length blocks) ≤ limit →
  ∃ more, add_ancestor_blocks d rounds limit blocks = Done (blocks ++ more) ∧ Forall (has d) more ∧
    N.of_nat (length (blocks ++ more)) ≤ limit.
Proof using Hhonest.
  clear Hgenesis. intros Hok Hlen Hb Hmax. unfold add_ancestor_blocks.
  destruct (missing_spec rounds blocks Hlen) as (refs & -> & _); [by eapply Forall_impl; [exact Hb|]; intros b [_ ?]|]. cbn [mbind run_bind].
  set (l := if bool_decide _ then _ else _).
  assert (Hl : N.of_nat (length l) ≤ limit - N.of_nat (length blocks)).
  { unfold l, saturating_sub. case_bool_decide; [|lia].
    destruct (law_choose_multiple _ (set_list (list_to_set refs : gset BlockRef)) (N.to_nat (limit - N.of_nat (length blocks)))) as (rest & _ & ->). lia. }
  destruct (found_spec d v l Hok) as (more & -> & Hm & Hml & _). cbn [mbind run_bind]. exists more. split; [done|].
  split; [by eapply Forall_impl; [exact Hm|]; intros b [? _]|]. rewrite length_app. lia.
Qed.

Lemma lower_missing_valid blocks : Forall (block_wf cm) blocks → ∀ p, p ∈ map_list (foldl lower_missing ∅ blocks) → valid p.1.
Proof.
  clear. intros Hwf p Hp. destruct p as [a lo]. apply elem_of_map_list in Hp. cbn.
  assert (Hgen : ∀ m, (∀ a lo, m !! a = Some lo → valid a) → ∀ a lo, foldl lower_missing m blocks !! a = Some lo → valid a).
  { clear -Hwf. induction Hwf as [|b blocks Hb _ IH]; intros m Hm; [done|]. cbn [foldl]. apply IH. intros a lo.
    unfold lower_missing. rewrite lookup_insert_Some. intros [[<- _]|[_ ?]]; [apply Hb|by eapply Hm]. }
  eapply (Hgen ∅); [|exact Hp]. intros a' lo'. by rewrite lookup_empty.
Qed.

(** The most blocks in an answer. *)
Definition answer_limit (rounds : list Round) : N :=
  if pc_consensus_batched_block_sync (ctx_protocol_config ctx) then
    if bool_decide (length rounds = O) then pm_max_blocks_per_fetch params else pm_max_blocks_per_sync params
  else pm_max_blocks_per_fetch params + N.of_nat MAX_ADDITIONAL_BLOCKS.
(** The references that are looked at. *)
Definition requested (rounds : list Round) (refs : list BlockRef) : list BlockRef :=
  take (N.to_nat (if pc_consensus_batched_block_sync (ctx_protocol_config ctx) && negb (bool_decide (length rounds = O))
                  then pm_max_blocks_per_sync params else pm_max_blocks_per_fetch params)) refs.

(** A correct answer: blocks of the node, among them all of the requested ones
    that it has, and not too many. *)
Record answers d (rounds : list Round) (refs : list BlockRef) (answer : list bytes) : Prop := {
  aw_blocks : ∃ blocks, answer = vb_serialized <$> blocks ∧ Forall (has d) blocks ∧
    (∀ b, has d b → vb_reference b ∈ requested rounds refs → b ∈ blocks);
  aw_limit : N.of_nat (length answer) ≤ answer_limit rounds;
}.

Lemma answers_intro d rounds refs blocks more : Forall (has d) blocks → Forall (has d) more →
  (∀ b, has d b → vb_reference b ∈ requested rounds refs → b ∈ blocks) → N.of_nat (length (blocks ++ more)) ≤ answer_limit rounds →
  answers d rounds refs (vb_serialized <$> (blocks ++ more)).
Proof.
  clear. intros Hb Hm Hall Hlen. split; [|by rewrite length_fmap]. exists (blocks ++ more). split; [done|]. split; [by apply Forall_app|].
  intros b Hhas Hr. apply elem_of_app. left. by apply Hall.
Qed.

Lemma fetch_old_spec s v refs rounds : dag_ok (as_dag_state s) v → pc_consensus_batched_block_sync (ctx_protocol_config ctx) = false →
  ∃ res, handle_fetch_blocks_old ctx params s refs rounds = Done res ∧
    match res with
    | ROk answer => rounds_fit rounds ∧ request_ok (requested rounds refs) ∧ answers (as_dag_state s) rounds refs answer
    | RErr _ => ¬ (rounds_fit rounds ∧ request_ok (requested rounds refs))
    end.
Proof using Hhonest.
  clear Hgenesis. intros Hok Hold. unfold handle_fetch_blocks_old.
  assert (Hreq : requested rounds refs = take (N.to_nat (pm_max_blocks_per_fetch params)) refs) by (unfold requested; by rewrite Hold).
  rewrite <-Hreq. pose proof (check_rounds_spec rounds) as Hfit. destruct (check_rounds_size ctx rounds) as [[]|e]; [|eexists; split; [done|]; naive_solver].
  pose proof (check_requests_spec (requested rounds refs)) as Hrq.
  destruct (check_block_requests ctx (requested rounds refs)) as [[]|e]; [|eexists; split; [done|]; naive_solver].
  cbn [mbind run_bind fallible_bind f_run f_ok]. destruct (found_spec (as_dag_state s) v (requested rounds refs) Hok) as (blocks & Hfound & Hb & Hbl & Hall).
  assert (Hlim : N.of_nat (length blocks) ≤ pm_max_blocks_per_fetch params) by (rewrite Hreq, length_take in Hbl; lia).
  assert (Hhas : Forall (has (as_dag_state s)) blocks) by (eapply Forall_impl; [exact Hb|]; by intros b (? & _)).
  assert (Hdone : ∀ more, Forall (has (as_dag_state s)) more → (length more ≤ MAX_ADDITIONAL_BLOCKS)%nat →
    answers (as_dag_state s) rounds refs (vb_serialized <$> (blocks ++ more))).
  { intros more Hm Hml. apply answers_intro; try done. unfold answer_limit. rewrite Hold, length_app. lia. }
  cbn [mbind run_bind fallible_bind f_run f_ok]. rewrite Hfound. cbn [mbind run_bind fallible_bind f_run f_ok].
  destruct (bool_decide_reflect (length rounds = O)) as [Hz|Hnz]; cbn [mbind run_bind fallible_bind f_run f_ok].
  { eexists. split; [done|]. split; [done|]. split; [done|]. apply Hdone; [constructor|cbn; lia]. }
  destruct (missing_spec rounds blocks) as (anc & Hanc & _); [by destruct Hfit|eapply Forall_impl; [exact Hb|]; by intros b (_ & ? & _)|].
  rewrite Hanc. cbn [mbind run_bind fallible_bind f_run f_ok].
  destruct (bool_decide (length (take MAX_ADDITIONAL_BLOCKS anc) = O)); cbn [mbind run_bind fallible_bind f_run f_ok].
  { eexists. split; [done|]. split; [done|]. split; [done|]. apply Hdone; [constructor|cbn; lia]. }
  destruct (found_spec (as_dag_state s) v (take MAX_ADDITIONAL_BLOCKS anc) Hok) as (more & -> & Hm & Hml & _). cbn [mbind run_bind fallible_bind f_run f_ok].
  eexists. split; [done|]. split; [done|]. split; [done|]. apply Hdone; [eapply Forall_impl; [exact Hm|]; by intros b (? & _)|].
  rewrite length_take in Hml. lia.
Qed.

Lemma fetch_spec s v refs rounds breadth_first : dag_ok (as_dag_state s) v →
  ∃ res, handle_fetch_blocks ctx params s refs rounds breadth_first = Done res ∧
    match res with
    | ROk answer => rounds_fit rounds ∧ request_ok (requested rounds refs) ∧ answers (as_dag_state s) rounds refs answer
    | RErr _ => ¬ (rounds_fit rounds ∧ request_ok (requested rounds refs))
    end.
Proof using Hhonest.
  clear Hgenesis. intros Hok. unfold handle_fetch_blocks.
  destruct (pc_consensus_batched_block_sync (ctx_protocol_config ctx)) eqn:Hnew; cbn [negb]; [|by eapply fetch_old_spec].
  pose proof (check_rounds_spec rounds) as Hfit. destruct (check_rounds_size ctx rounds) as [[]|e]; [|eexists; split; [done|]; naive_solver].
  cbn [mbind run_bind fallible_bind f_run f_ok]. set (limit := if negb (bool_decide (length rounds = O)) then _ else _).
  assert (Hreq : requested rounds refs = take (N.to_nat limit) refs) by (unfold requested; by rewrite Hnew).
  assert (Hal : answer_limit rounds = limit) by (unfold answer_limit, limit; rewrite Hnew; by destruct (bool_decide _)).
  rewrite <-Hreq. pose proof (check_requests_spec (requested rounds refs)) as Hrq.
  destruct (check_block_requests ctx (requested rounds refs)) as [[]|e]; [|eexists; split; [done|]; naive_solver].
  cbn [mbind run_bind fallible_bind f_run f_ok]. set (asked := set_list (list_to_set (requested rounds refs) : gset BlockRef)).
  assert (Hasked : ∀ r, r ∈ asked ↔ r ∈ requested rounds refs) by (intros r; unfold asked; by rewrite elem_of_set_list, elem_of_list_to_set).
  assert (Hsz : (length asked ≤ length (requested rounds refs))%nat).
  { unfold asked. apply submseteq_length, NoDup_submseteq; [apply NoDup_set_list|]. intros r Hr. by apply Hasked. }
  assert (Hlim : (length (requested rounds refs) ≤ N.to_nat limit)%nat) by (rewrite Hreq, length_take; lia).
  destruct (bool_decide_reflect (length rounds = O)) as [Hz|Hnz]; cbn [negb mbind run_bind fallible_bind f_run f_ok].
  { destruct (found_spec (as_dag_state s) v (requested rounds refs) Hok) as (blocks & -> & Hb & Hbl & Hall). cbn [mbind run_bind fallible_bind f_run f_ok].
    eexists. split; [done|]. split; [done|]. split; [done|]. rewrite <-(app_nil_r blocks).
    apply answers_intro; [by eapply Forall_impl; [exact Hb|]; intros b (? & _)|constructor|done|]. rewrite app_nil_r. lia. }
  destruct (found_spec (as_dag_state s) v asked Hok) as (blocks & -> & Hb & Hbl & Hall). cbn [mbind run_bind fallible_bind f_run f_ok].
  assert (Hlen : length rounds = size) by (by destruct Hfit).
  assert (Hhas : Forall (has (as_dag_state s)) blocks) by (eapply Forall_impl; [exact Hb|]; by intros b (? & _)).
  assert (Hgood : ∀ more, Forall (has (as_dag_state s)) more → N.of_nat (length (blocks ++ more)) ≤ limit →
    answers (as_dag_state s) rounds refs (vb_serialized <$> (blocks ++ more))).
  { intros more Hm Hml. apply answers_intro; [done..| |by rewrite Hal]. intros b Hhb Hr. apply Hall; [done|]. by apply Hasked. }
  assert (Hbmax : N.of_nat (length blocks) ≤ limit) by lia.
  destruct breadth_first.
  - destruct (add_ancestors_spec (as_dag_state s) v rounds limit blocks Hok Hlen) as (more & Hrun & Hm & Hml);
      [eapply Forall_impl; [exact Hb|]; by intros b (? & ? & _)|done|].
    rewrite Hrun. cbn [mbind run_bind fallible_bind f_run f_ok]. eexists. split; [done|]. split; [done|]. split; [done|]. by apply Hgood.
  - destruct (add_cached_spec (as_dag_state s) v rounds (map_list (foldl lower_missing ∅ blocks)) blocks Hok Hlen) as (more & Hrun & Hm & Hml);
      [apply Forall_forall, lower_missing_valid; eapply Forall_impl; [exact Hb|]; by intros b (_ & ? & _)|done|done|].
    rewrite Hrun. cbn [mbind run_bind fallible_bind f_run f_ok]. eexists. split; [done|]. split; [done|]. split; [done|]. by apply Hgood.
Qed.

(** ** Excluded ancestors *)

Lemma excluded_out s peer b excluded missing sender refs : service_ok ctx fuel G genesis s → G (vb_reference b) = Some b →
  mapM bcs_ref_from_bytes excluded = Some refs → Exists (λ r, ¬ valid (br_author r)) (take (size * 2) refs) →
  process_excluded ctx s peer b excluded missing sender = Panic.
Proof using Hhonest.
  clear Hgenesis. intros Hs HGb Hrefs Hex. unfold process_excluded. rewrite Hrefs.
  destruct (schedule_fetch_ok ctx fuel G genesis s missing peer Hs) as [Hs1 _]. set (s1 := schedule_fetch s missing peer) in *.
  destruct (th_core _ _ _ _ _ (so_thread _ _ _ _ _ Hs1)) as [v Hok]. pose proof (u_wf _ _ _ (hn_universe _ _ _ Hhonest) _ _ HGb) as Hwf.
  rewrite (update_from_accepted_block_out ctx); [done|..].
  - exact (pe_tracker _ _ (cg_peers _ _ _ _ _ (ok_commits _ _ _ _ _ _ Hok))).
  - apply Hwf.
  - eapply Forall_impl; [apply Hwf|]. intros r. apply thread_valid.
  - eapply Exists_impl; [exact Hex|]. intros r Hr Hlt. by apply Hr, thread_valid.
Qed.
End reads.

(** ** The node from its start on *)

Section node.
Context {S : Type} `{StoreLaws S} `{BlockCodec} `{CommitCodec} `{Crypto} `{BlockSigner} `{Hlaws : RngLaws} `{TransactionVerifier} `{BlockRefCodec} `{SliceRandom}.
Context (ctx : Context) (params : Parameters) (fuel : nat) (verifier : SignedBlockVerifier).
Context (G : BlockRef → option VerifiedBlock) (genesis : list VerifiedBlock).
Context (byz : gset AuthorityIndex) (U : gset BlockRef) (Hset : setting (S := S) ctx fuel verifier G genesis byz U).
Implicit Types (s : AuthorityService S).

(** C13: a request for blocks is answered and never panics: it is refused
    exactly when the sizes do not fit or a reference is not one of a block of
    the committee after genesis; an answer holds blocks that the node has, all
    of the requested ones among them, and no more than the limit. *)
Theorem fetch_blocks_answered s block_refs highest_accepted_rounds breadth_first :
  node_reachable ctx params fuel verifier G genesis s →
  ∃ res, handle_fetch_blocks ctx params s block_refs highest_accepted_rounds breadth_first = Done res ∧
    match res with
    | ROk answer => rounds_fit ctx highest_accepted_rounds ∧ request_ok ctx (requested ctx params highest_accepted_rounds block_refs) ∧
        answers ctx params (as_dag_state s) highest_accepted_rounds block_refs answer
    | RErr _ => ¬ (rounds_fit ctx highest_accepted_rounds ∧ request_ok ctx (requested ctx params highest_accepted_rounds block_refs))
    end.
Proof using All.
  intros Hr. destruct (th_core _ _ _ _ _ (so_thread _ _ _ _ _ (reachable_ok ctx params fuel verifier G genesis byz U Hset s Hr))) as [v Hok].
  exact (fetch_spec ctx params G byz (se_honest _ _ _ _ _ _ _ Hset) genesis s v block_refs highest_accepted_rounds breadth_first
    (cg_dag _ _ _ _ _ (ok_commits _ _ _ _ _ _ Hok))).
Qed.

(** C12: a sent block is taken exactly when it is well-formed bytes of a block of
    the sender that passes verification while the node does not lag behind;
    then the core thread is given the block, voted on before, and otherwise
    the core thread is left alone. *)
Theorem sent_block_taken s peer serialized_block sender : node_reachable ctx params fuel verifier G genesis s →
  Committee_is_valid_index (ctx_committee ctx) peer → delivers ctx verifier G (es_block serialized_block) →
  ∃ s' res, receive_block ctx params verifier s peer serialized_block sender = Done (s', res) ∧
    match res with
    | ROk b => taken ctx params verifier s s' peer (es_block serialized_block) b ∧ given ctx s s' b sender
    | RErr _ => as_thread s' = as_thread s ∧ ∀ b, ¬ taken ctx params verifier s s' peer (es_block serialized_block) b
    end.
Proof using All.
  intros Hr Hpeer HG. destruct (receive_spec ctx params fuel verifier G byz (se_honest _ _ _ _ _ _ _ Hset) genesis s peer serialized_block sender
    (reachable_ok ctx params fuel verifier G genesis byz U Hset s Hr) Hpeer HG) as (s' & res & Hrun & _ & Hres & _). by exists s', res.
Qed.

(** C11: the references of excluded ancestors that come with a block are
    deserialized but their authors are not checked: the handler panics exactly
    when one of the references it looks at is of an authority outside of the
    committee. *)
Theorem excluded_ancestors_panic s peer block excluded missing sender : node_reachable ctx params fuel verifier G genesis s →
  G (vb_reference block) = Some block →
  process_excluded ctx s peer block excluded missing sender = Panic ↔
  ∃ refs, mapM bcs_ref_from_bytes excluded = Some refs ∧
    Exists (λ r, ¬ Committee_is_valid_index (ctx_committee ctx) (br_author r)) (take (Committee_size (ctx_committee ctx) * 2) refs).
Proof using All.
  intros Hr HGb. pose proof (reachable_ok ctx params fuel verifier G genesis byz U Hset s Hr) as Hs. destruct Hset. split.
  - intros Hp. destruct (mapM bcs_ref_from_bytes excluded) as [refs|] eqn:Hrefs; [|unfold process_excluded in Hp; by rewrite Hrefs in Hp].
    exists refs. split; [done|]. apply not_Forall_Exists; [intros r; apply _|]. intros Hall.
    destruct (excluded_total ctx fuel G byz se_honest genesis se_config U se_fits se_limits s peer block excluded missing sender Hs HGb)
      as (s' & res & Hrun & _); [intros refs' Heq; rewrite Hrefs in Heq; by injection Heq as <-|]. congruence.
  - intros (refs & Hrefs & Hex). by eapply (excluded_out ctx fuel G byz se_honest genesis).
Qed.
End node.
