(* ===== verification/OwnRecovery.v ===== *)
(** * Recovery of the own last block

    An authority that lost its store asks the others for its last block before
    it proposes. The replies of a validity threshold are enough: the round that
    is reported to the core is at least that of any block which the honest
    peers have. *)
From S2P Require Import Prelude Committee StakeAggregator Block ThresholdClock Commit LeaderScoring Store DagState DagStateProofs DagTraversal LeaderSchedule BaseCommitter CommitRule BlockVerifier TransactionConsumer DagViews BlockManager BlockManagerProofs BlockManagerSafety ManagedNode Linearizer CommitObserver LinearizerProofs CommitSafety UniversalCommitter QuorumRounds Ancestor TransactionCertifier CertifierProofs CommitFinalizer Core CoreThread AuthorityService AuthorityNode CommitSyncer Synchronizer NodeTasks SyncLocks SyncSchedule CoreState Ledger CoreProposal CoreProposer CoreCommit CoreNode CoreRun NodeStart ServiceProofs TaskMachine NodeSafety TaskSafety SyncSafety ServiceReads.

Lemma max_round_le (blocks : list VerifiedBlock) b : b ∈ blocks → vb_round b ≤ max_round blocks.
Proof. unfold max_round. induction blocks as [|b' blocks IH]; [by intros ?%elem_of_nil|]. intros [->|Hin%IH]%elem_of_cons; cbn; lia. Qed.
Lemma max_round_origin (blocks : list VerifiedBlock) : max_round blocks = 0 ∨ ∃ b, b ∈ blocks ∧ vb_round b = max_round blocks.
Proof.
  unfold max_round. induction blocks as [|b blocks IH]; [by left|]. right. cbn.
  destruct (decide (vb_round b < foldr N.max 0 (vb_round <$> blocks))).
  - destruct IH as [?|(b' & ? & Hb)]; [lia|]. exists b'. rewrite elem_of_cons. split; [by right|lia].
  - exists b. rewrite elem_of_cons. split; [by left|lia].
Qed.

Section recovery.
Context {S : Type} `{StoreLaws S} `{BlockCodec} `{CommitCodec} `{Crypto} `{BlockSigner} `{Hlaws : RngLaws} `{TransactionVerifier} `{BlockRefCodec} `{SliceRandom}.
Context (ctx : Context) (fuel : nat) (verifier : SignedBlockVerifier).
Context (G : BlockRef → option VerifiedBlock) (genesis : list VerifiedBlock) (byz : gset AuthorityIndex).
Implicit Types (s : AuthorityService S) (y : Synchronizer).
Abbreviation cm := (ctx_committee ctx).
Abbreviation valid := (Committee_is_valid_index cm).
Abbreviation authority_state := (authority_state (S := S) ctx fuel verifier G genesis byz).

(** One pass of the main loop of an authority: the others are asked, and
    answer or fail, in any order. *)
Inductive gathers (i : AuthorityIndex) (answers : AuthorityIndex → list bytes → Prop) : Synchronizer → Prop :=
| gathers_start s s' y y' retries delay : Committee_size cm ≠ 1%nat →
    own_loop (own_context ctx i) s y retries delay = Done (s', y') → gathers i answers y'
| gathers_response y y' pending total highest retries delay k peer response : gathers i answers y →
    sn_own_block_task y = Some (OwnGathering pending total highest retries delay) → pending !! k = Some peer →
    (∀ blocks, response = ROk blocks → answers peer blocks) →
    own_response (own_context ctx i) verifier y pending total highest retries delay k peer response = Done y' →
    gathers i answers y'.

(** What was gathered: the stake of the peers that replied with acceptable
    blocks, and the highest round of those. *)
Record gathered (i : AuthorityIndex) (answers : AuthorityIndex → list bytes → Prop) (pending : list AuthorityIndex)
    (replied : gset AuthorityIndex) (total : Stake) (highest : Round) : Prop := {
  ga_distinct : NoDup pending;
  ga_others a : a ∈ pending ∨ a ∈ replied → valid a ∧ a ≠ i;
  ga_replied a : a ∈ pending → a ∉ replied;
  ga_stake : total = set_stake cm replied;
  ga_answers a : a ∈ replied → ∃ serialized blocks, answers a serialized ∧
    process_own_blocks (own_context ctx i) verifier a serialized = f_ok blocks ∧ max_round blocks ≤ highest;
  ga_highest : highest = 0 ∨ ∃ b, in_network G b ∧ vb_author b = i ∧ vb_round b = highest;
}.

Lemma gathered_reply i answers k peer pending replied total highest serialized blocks : committee_ok cm →
  gathered i answers pending replied total highest → pending !! k = Some peer → answers peer serialized →
  process_own_blocks (own_context ctx i) verifier peer serialized = f_ok blocks →
  Forall (λ b, G (vb_reference b) = Some b ∧ vb_author b = i ∧ vb_round b ≠ 0) blocks →
  gathered i answers (delete k pending) ({[peer]} ∪ replied) (u64_add total (stake_at cm peer)) (N.max highest (max_round blocks)).
Proof.
  clear Hlaws. intros Hcm [Hnd Ho Hr Hs Ha Hh] Hk Hans Hp Hb. pose proof (list_elem_of_lookup_2 _ _ _ Hk) as Hin.
  pose proof (delete_Permutation _ _ _ Hk) as Hperm. rewrite Hperm in Hnd. apply NoDup_cons in Hnd as [Hnot Hnd].
  assert (Hsub : ∀ a, a ∈ delete k pending → a ∈ pending) by (intros a ?; rewrite Hperm; by right).
  pose proof (set_stake_le_total cm Hcm ({[peer]} ∪ replied)) as Hle. rewrite set_stake_insert in Hle by (by apply Hr).
  pose proof (ok_total_bound cm Hcm). split.
  - done.
  - intros a [?%Hsub|[->%elem_of_singleton|?]%elem_of_union]; apply Ho; [by left|by left|by right].
  - intros a Hd [->%elem_of_singleton|?]%elem_of_union; [done|]. by apply (Hr a); [apply Hsub|].
  - rewrite set_stake_insert by (by apply Hr). rewrite Hs, u64_add_small; lia.
  - intros a [->%elem_of_singleton|Hin']%elem_of_union; [exists serialized, blocks; split_and!; [done..|lia]|].
    destruct (Ha a Hin') as (ser & bs & ? & ? & ?). exists ser, bs. split_and!; [done..|lia].
  - destruct (decide (highest < max_round blocks)).
    + right. destruct (max_round_origin blocks) as [?|(b & Hbin & Hbr)]; [lia|]. rewrite Forall_forall in Hb.
      destruct (Hb b Hbin) as (? & ? & _). exists b. split_and!; [done..|lia].
    + destruct Hh as [?|(b & ? & ? & ?)]; [left; lia|right]. exists b. split_and!; [done..|lia].
Qed.

Lemma gathered_again i answers k peer pending replied total highest :
  gathered i answers pending replied total highest → pending !! k = Some peer →
  gathered i answers (delete k pending) replied total highest ∧ gathered i answers (delete k pending ++ [peer]) replied total highest.
Proof.
  clear Hlaws. intros [Hnd Ho Hr Hs Ha Hh] Hk. pose proof (delete_Permutation _ _ _ Hk) as Hperm.
  assert (Hperm' : delete k pending ++ [peer] ≡ₚ pending) by (etrans; [|symmetry; exact Hperm]; solve_Permutation).
  split; split; try done.
  - rewrite Hperm in Hnd. by apply NoDup_cons in Hnd as [_ Hnd].
  - intros a Hd. apply Ho. destruct Hd; [left; rewrite Hperm; by right|by right].
  - intros a Hd. apply Hr. rewrite Hperm. by right.
  - by rewrite Hperm'.
  - intros a. rewrite Hperm'. apply Ho.
  - intros a. rewrite Hperm'. apply Hr.
Qed.

Section node.
Context (i : AuthorityIndex) (U : gset BlockRef) (Hset : setting (S := S) (own_context ctx i) fuel verifier G genesis byz U).
Context (answers : AuthorityIndex → list bytes → Prop).
Context (Hanswers : ∀ a serialized, answers a serialized → Forall (delivers (own_context ctx i) verifier G) serialized).

Lemma gathers_ok y : gathers i answers y → ∃ pending total highest retries delay replied,
  sn_own_block_task y = Some (OwnGathering pending total highest retries delay) ∧ gathered i answers pending replied total highest.
Proof using All.
  pose proof (se_honest _ _ _ _ _ _ _ Hset) as Hn. pose proof (u_committee _ _ _ (hn_universe _ _ _ Hn)) as Hcm.
  induction 1 as [s s' y y' retries delay Hsize Hrun|y y' pending total highest retries delay k peer response _ IH Htask Hk Hans Hrun].
  - unfold own_loop in Hrun. rewrite bool_decide_false in Hrun by done. injection Hrun as <- <-.
    destruct (other_authorities_spec (own_context ctx i) (hn_valid _ _ _ Hn)) as (Hnd & Ho & _).
    exists (other_authorities (own_context ctx i)), 0, 0, retries, delay, ∅. split; [done|]. split; [done|..].
    + intros a [Ha|Ha]; [by apply Ho|set_solver].
    + set_solver.
    + by rewrite set_stake_empty.
    + set_solver.
    + by left.
  - destruct IH as (? & ? & ? & ? & ? & replied & Htask' & Hga). rewrite Htask in Htask'. injection Htask' as <- <- <- <- <-.
    destruct (gathered_again i answers k peer pending replied total highest Hga Hk) as [Hdrop Hagain].
    assert (Hpeer : valid peer) by (apply (ga_others _ _ _ _ _ _ Hga); left; by eapply list_elem_of_lookup_2).
    unfold own_response in Hrun. destruct response as [serialized|e]; [|injection Hrun as <-; eexists _, _, _, _, _, _; by split].
    specialize (Hans serialized eq_refl).
    destruct (process_own_ok (own_context ctx i) fuel verifier G genesis byz U Hset peer serialized Hpeer (Hanswers _ _ Hans)) as (res & Hp & Hres).
    rewrite Hp in Hrun. cbn [mbind run_bind] in Hrun. destruct res as [blocks|e]; [|injection Hrun as <-; eexists _, _, _, _, _, _; by split].
    change (ctx_committee (own_context ctx i)) with cm in Hrun. rewrite (Committee_stake_Done cm peer Hpeer) in Hrun. cbn [mbind run_bind] in Hrun.
    injection Hrun as <-. eexists _, _, _, _, _, _. split; [done|]. destruct (Hres blocks eq_refl) as [Hb _]. by eapply gathered_reply.
Qed.

(** An honest peer that has a block of the authority answers with one of no
    lower round. *)
Lemma latest_answer a s serialized b : authority_state a s → has (as_dag_state s) b → vb_author b = i → vb_round b ≠ 0 → valid i →
  handle_fetch_latest_blocks (own_context ctx a) s i [i] = f_ok serialized →
  ∃ b', serialized = [vb_serialized b'] ∧ in_network G b' ∧ vb_round b ≤ vb_round b'.
Proof using All.
  clear Hset Hanswers. intros (params & U' & Hs & Hr) Hb Hba Hbr Hvalid Hrun. pose proof (reachable_ok (own_context ctx a) params fuel verifier G genesis byz U' Hs s Hr) as Hok.
  destruct (th_core _ _ _ _ _ (so_thread _ _ _ _ _ Hok)) as [v Hcore]. pose proof (cg_dag _ _ _ _ _ (ok_commits _ _ _ _ _ _ Hcore)) as Hdag.
  pose proof (se_honest _ _ _ _ _ _ _ Hs) as Hn. pose proof (ni_view _ _ _ _ (dk_node _ _ _ _ _ Hdag)) as Hview.
  destruct (last_block_spec (own_context ctx a) G byz Hn genesis (se_genesis _ _ _ _ _ _ _ Hs) (as_dag_state s) v i Hdag Hvalid)
    as (b' & Hlast & Ha & Hlk & Hmax).
  assert (Hle : vb_round b ≤ vb_round b').
  { apply (has_spec (own_context ctx a) _ v) in Hb; [|apply Hview]. apply (Hmax (vb_reference b)); [by eexists|done]. }
  unfold handle_fetch_latest_blocks in Hrun. case_bool_decide; [done|]. destruct (check_authorities _ _); [|done].
  cbn [mbind fallible_bind] in Hrun. cbn [map_run] in Hrun. rewrite Hlast in Hrun. cbn [mbind run_bind] in Hrun. rewrite f_run_bind in Hrun.
  rewrite filter_cons_True in Hrun by (change (vb_round b' ≠ 0); lia). injection Hrun as <-.
  exists b'. split; [done|]. split; [|done]. apply (vo_sub _ _ _ _ Hview). exact Hlk.
Qed.

(** C8: no equivocation after a loss of the store. When the replies reach the
    validity threshold, the round that is reported to the core is at least the
    round of any block of this authority that the honest peers have when they
    answer: whichever peers answered, in whatever order, with failed requests
    and with Byzantine answers among them. It is not higher than a block that
    this authority made. A core that was told this round does not propose a
    block of that round or of a lower one again. *)
Theorem own_round_recovered states y pending total highest retries delay b :
  (∀ b, in_network G b → vb_round b ≠ 0 → parsed b) →
  (∀ a serialized, answers a serialized → a ∉ byz →
    authority_state a (states a) ∧ handle_fetch_latest_blocks (own_context ctx a) (states a) i [i] = f_ok serialized) →
  gathers i answers y → sn_own_block_task y = Some (OwnGathering pending total highest retries delay) →
  Committee_reached_validity cm total →
  vb_author b = i → (∀ a, valid a → a ≠ i → a ∉ byz → has (as_dag_state (states a)) b) →
  vb_round b ≤ highest ∧ (highest = 0 ∨ ∃ b', in_network G b' ∧ vb_author b' = i ∧ vb_round b' = highest) ∧
  ∀ params (c : Core S), co_last_known_proposed_round c = Some highest →
    threshold_clock_round (co_dag_state c) ≤ vb_round b → should_propose params c = false.
Proof using All.
  intros Hparsed Hhonest Hg Htask Hv Hba Hhas. pose proof (se_honest _ _ _ _ _ _ _ Hset) as Hn.
  destruct (gathers_ok y Hg) as (? & ? & ? & ? & ? & replied & Htask' & Hga). rewrite Htask in Htask'. injection Htask' as <- <- <- <- <-.
  assert (Hle : vb_round b ≤ highest).
  { destruct (decide (vb_round b = 0)) as [->|Hbr]; [lia|].
    unfold Committee_reached_validity in Hv. rewrite bool_decide_spec, (ga_stake _ _ _ _ _ _ Hga) in Hv.
    pose proof (u_byz _ _ _ (hn_universe _ _ _ Hn)) as Hbyz. change (ctx_committee (own_context ctx i)) with cm in Hbyz.
    destruct (honest_member cm replied byz ltac:(lia)) as (a & Ha & Hna).
    destruct (ga_others _ _ _ _ _ _ Hga a (or_intror Ha)) as [Hva Hai].
    destruct (ga_answers _ _ _ _ _ _ Hga a Ha) as (serialized & blocks & Hans & Hp & Hmax).
    destruct (Hhonest a serialized Hans Hna) as [Hst Hfetch].
    destruct (latest_answer a (states a) serialized b Hst (Hhas a Hva Hai Hna) Hba Hbr (hn_valid _ _ _ Hn) Hfetch) as (b' & -> & HG & Hle).
    destruct (process_own_ok (own_context ctx i) fuel verifier G genesis byz U Hset a _ Hva (Hanswers _ _ Hans)) as (res & Hp' & Hres).
    rewrite Hp in Hp'. injection Hp' as <-. destruct (Hres blocks eq_refl) as [Hbl Hser].
    destruct blocks as [|b0 [|? ?]]; try done. apply Forall_cons in Hbl as [(HG0 & _ & Hr0) _].
    destruct (Hparsed b0 HG0 Hr0) as [Hd0 Hb0]. destruct (Hparsed b' HG ltac:(lia)) as [Hd' Hb']. injection Hser as Hser.
    assert (b0 = b') as -> by (rewrite Hser in Hd0; rewrite Hb0, Hb', Hser; f_equal; congruence).
    cbn in Hmax. lia. }
  split; [done|]. split; [apply Hga|]. intros params c Hc Hclock. unfold should_propose. rewrite Hc, (bool_decide_true (_ ≤ highest)) by lia.
  by destruct (co_subscriber_exists c); [case_bool_decide|].
Qed.
End node.
End recovery.
