(* ===== verification/NodeExamples.v ===== *)
(** * A node that runs

    Concrete instances of what the model leaves open - a lossless format, a
    hash, a signature scheme, a random source - and a small network in which a
    node starts, is subscribed to, and proposes a block. *)
From S2P Require Import Prelude Committee StakeAggregator Block ThresholdClock Commit LeaderScoring Store DagState DagStateProofs DagTraversal LeaderSchedule BaseCommitter CommitRule BlockVerifier TransactionConsumer DagViews BlockManager BlockManagerProofs BlockManagerSafety ManagedNode Linearizer CommitObserver LinearizerProofs CommitSafety UniversalCommitter QuorumRounds Ancestor TransactionCertifier CertifierProofs CommitFinalizer Core CoreThread AuthorityService AuthorityNode CommitSyncer SyncSchedule CoreState Ledger CoreProposal CoreProposer CoreCommit CoreNode CoreRun NodeStart ServiceProofs NodeSafety SyncSafety ServiceReads.
From Stdlib Require Import Strings.Byte.

(** ** A self-delimiting format *)

Record Format (A : Type) := mk_format {
  fm_enc : A → bytes;
  fm_dec : bytes → option (A * bytes);
  fm_law a rest : fm_dec (fm_enc a ++ rest) = Some (a, rest);
}.
Arguments fm_enc {_}.
Arguments fm_dec {_}.
Arguments fm_law {_}.

Definition byte_dec (bs : bytes) : option (byte * bytes) := match bs with b :: bs => Some (b, bs) | [] => None end.
Definition byte_format : Format byte := mk_format _ (λ b, [b]) byte_dec (λ _ _, eq_refl).

(** Bits from the lowest, each a byte; the last byte closes the number. *)
Fixpoint pos_enc (p : positive) : bytes :=
  match p with xO p => x02 :: pos_enc p | xI p => x03 :: pos_enc p | xH => [x01] end.
Fixpoint pos_dec (bs : bytes) : option (positive * bytes) :=
  match bs with
  | x01 :: bs => Some (xH, bs)
  | x02 :: bs => '(p, bs) ← pos_dec bs; Some (xO p, bs)
  | x03 :: bs => '(p, bs) ← pos_dec bs; Some (xI p, bs)
  | _ => None
  end.
Lemma pos_law p rest : pos_dec (pos_enc p ++ rest) = Some (p, rest).
Proof. induction p as [p IH|p IH|]; simpl; [by rewrite IH|by rewrite IH|done]. Qed.

Definition n_enc (n : N) : bytes := match n with N0 => [x00] | Npos p => pos_enc p end.
Definition n_dec (bs : bytes) : option (N * bytes) :=
  match bs with
  | x00 :: bs => Some (0, bs)
  | _ => '(p, bs) ← pos_dec bs; Some (Npos p, bs)
  end.
Lemma n_law n rest : n_dec (n_enc n ++ rest) = Some (n, rest).
Proof. destruct n as [|p]; [done|]. pose proof (pos_law p rest) as Hp. unfold n_dec, n_enc. rewrite Hp. by destruct p. Qed.
Definition n_format : Format N := mk_format _ n_enc n_dec n_law.

Definition pair_dec {A B} (f : Format A) (g : Format B) (bs : bytes) : option ((A * B) * bytes) :=
  '(a, bs) ← fm_dec f bs; '(b, bs) ← fm_dec g bs; Some ((a, b), bs).
Lemma pair_law {A B} (f : Format A) (g : Format B) p rest : pair_dec f g ((fm_enc f p.1 ++ fm_enc g p.2) ++ rest) = Some (p, rest).
Proof. destruct p as [a b]. unfold pair_dec. simpl. rewrite <-app_assoc, fm_law. simpl. by rewrite fm_law. Qed.
Definition pair_format {A B} (f : Format A) (g : Format B) : Format (A * B) :=
  mk_format _ (λ p, fm_enc f p.1 ++ fm_enc g p.2) (pair_dec f g) (pair_law f g).

Lemma map_law {A B} (f : Format A) (to : A → B) (from : B → A) (Hlaw : ∀ b, to (from b) = b) b rest :
  ('(a, bs) ← fm_dec f (fm_enc f (from b) ++ rest); Some (to a, bs)) = Some (b, rest).
Proof. rewrite fm_law. simpl. by rewrite Hlaw. Qed.
Definition map_format {A B} (f : Format A) (to : A → B) (from : B → A) (Hlaw : ∀ b, to (from b) = b) : Format B :=
  mk_format _ (λ b, fm_enc f (from b)) (λ bs, '(a, bs) ← fm_dec f bs; Some (to a, bs)) (map_law f to from Hlaw).

Fixpoint list_enc {A} (f : Format A) (l : list A) : bytes :=
  match l with [] => [x00] | a :: l => x01 :: fm_enc f a ++ list_enc f l end.
Fixpoint list_dec {A} (f : Format A) (fuel : nat) (bs : bytes) : option (list A * bytes) :=
  match fuel, bs with
  | S fuel, x00 :: bs => Some ([], bs)
  | S fuel, x01 :: bs => '(a, bs) ← fm_dec f bs; '(l, bs) ← list_dec f fuel bs; Some (a :: l, bs)
  | _, _ => None
  end.
Lemma list_law {A} (f : Format A) l rest fuel : (length l < fuel)%nat → list_dec f fuel (list_enc f l ++ rest) = Some (l, rest).
Proof.
  revert fuel. induction l as [|a l IH]; intros [|fuel] Hf; simpl in *; [lia|done|lia|].
  rewrite <-app_assoc, fm_law. simpl. rewrite IH by lia. done.
Qed.
Lemma list_enc_length {A} (f : Format A) l : (length l < length (list_enc f l))%nat.
Proof. induction l as [|a l IH]; simpl; [lia|]. rewrite length_app. lia. Qed.

Lemma list_format_law {A} (f : Format A) l rest :
  list_dec f (length (list_enc f l ++ rest)) (list_enc f l ++ rest) = Some (l, rest).
Proof. apply list_law. rewrite length_app. pose proof (list_enc_length f l). lia. Qed.
Definition list_format {A} (f : Format A) : Format (list A) :=
  mk_format _ (list_enc f) (λ bs, list_dec f (length bs) bs) (list_format_law f).

Definition sum_enc {A B} (f : Format A) (g : Format B) (x : A + B) : bytes :=
  match x with inl a => x00 :: fm_enc f a | inr b => x01 :: fm_enc g b end.
Definition sum_dec {A B} (f : Format A) (g : Format B) (bs : bytes) : option ((A + B) * bytes) :=
  match bs with
  | x00 :: bs => '(a, bs) ← fm_dec f bs; Some (inl a, bs)
  | x01 :: bs => '(b, bs) ← fm_dec g bs; Some (inr b, bs)
  | _ => None
  end.
Lemma sum_law {A B} (f : Format A) (g : Format B) x rest : sum_dec f g (sum_enc f g x ++ rest) = Some (x, rest).
Proof. destruct x; simpl; by rewrite fm_law. Qed.
Definition sum_format {A B} (f : Format A) (g : Format B) : Format (A + B) := mk_format _ (sum_enc f g) (sum_dec f g) (sum_law f g).

(** ** Blocks and commits *)

Lemma nat_law n : N.to_nat (N.of_nat n) = n.
Proof. apply Nat2N.id. Qed.
Definition nat_format : Format nat := map_format n_format N.to_nat N.of_nat nat_law.
Lemma ref_law r : (λ p : N * nat * N, mk_ref p.1.1 p.1.2 p.2) (br_round r, br_author r, br_digest r) = r.
Proof. by destruct r. Qed.
Definition ref_format : Format BlockRef :=
  map_format (pair_format (pair_format n_format nat_format) n_format) _ (λ r, (br_round r, br_author r, br_digest r)) ref_law.
Lemma transaction_law t : mk_transaction (tx_data t) = t.
Proof. by destruct t. Qed.
Definition transaction_format : Format Transaction := map_format (list_format byte_format) mk_transaction tx_data transaction_law.
Lemma votes_law v : (λ p, mk_txn_votes p.1 p.2) (btv_block_ref v, btv_rejects v) = v.
Proof. by destruct v. Qed.
Definition votes_format : Format BlockTransactionVotes :=
  map_format (pair_format ref_format (list_format n_format)) _ (λ v, (btv_block_ref v, btv_rejects v)) votes_law.
Lemma commit_ref_law c : (λ p, mk_commit_ref p.1 p.2) (cr_index c, cr_digest c) = c.
Proof. by destruct c. Qed.
Definition commit_ref_format : Format CommitRef :=
  map_format (pair_format n_format n_format) _ (λ c, (cr_index c, cr_digest c)) commit_ref_law.
Lemma report_law m : (λ p, mk_report p.1 (InvalidBlock p.2)) (mr_target m, let 'InvalidBlock r := mr_proof m in r) = m.
Proof. by destruct m as [? []]. Qed.
Definition report_format : Format MisbehaviorReport :=
  map_format (pair_format nat_format ref_format) _ (λ m, (mr_target m, let 'InvalidBlock r := mr_proof m in r)) report_law.
Abbreviation header_format := (pair_format (pair_format n_format n_format) (pair_format nat_format n_format)).
Abbreviation body_format := (pair_format (list_format ref_format) (list_format transaction_format)).
Abbreviation trailer_format := (pair_format (list_format commit_ref_format) (list_format report_format)).

Definition v1_to (p : ((N * N) * (nat * N)) * ((list BlockRef * list Transaction) * (list CommitRef * list MisbehaviorReport))) : BlockV1 :=
  let '(((epoch, round), (author, ts)), ((ancestors, txns), (votes, reports))) := p in
  mk_block_v1 epoch round author ts ancestors txns votes reports.
Definition v1_from (b : BlockV1) :=
  (((v1_epoch b, v1_round b), (v1_author b, v1_timestamp_ms b)),
   ((v1_ancestors b, v1_transactions b), (v1_commit_votes b, v1_misbehavior_reports b))).
Lemma v1_law b : v1_to (v1_from b) = b.
Proof. by destruct b. Qed.
Definition v2_to (p : BlockV1 * list BlockTransactionVotes) : BlockV2 :=
  let '(b, votes) := p in
  mk_block_v2 (v1_epoch b) (v1_round b) (v1_author b) (v1_timestamp_ms b) (v1_ancestors b) (v1_transactions b) votes
    (v1_commit_votes b) (v1_misbehavior_reports b).
Definition v2_from (b : BlockV2) : BlockV1 * list BlockTransactionVotes :=
  (mk_block_v1 (v2_epoch b) (v2_round b) (v2_author b) (v2_timestamp_ms b) (v2_ancestors b) (v2_transactions b)
     (v2_commit_votes b) (v2_misbehavior_reports b), v2_transaction_votes b).
Lemma v2_law b : v2_to (v2_from b) = b.
Proof. by destruct b. Qed.
Definition v1_format : Format BlockV1 := map_format (pair_format header_format (pair_format body_format trailer_format)) v1_to v1_from v1_law.
Definition v2_format : Format BlockV2 := map_format (pair_format v1_format (list_format votes_format)) v2_to v2_from v2_law.

Definition block_to (x : BlockV1 + BlockV2) : Block := match x with inl b => V1 b | inr b => V2 b end.
Definition block_from (b : Block) : BlockV1 + BlockV2 := match b with V1 b => inl b | V2 b => inr b end.
Lemma block_law b : block_to (block_from b) = b.
Proof. by destruct b. Qed.
Lemma signed_law sb : (λ p, mk_signed p.1 p.2) (sb_inner sb, sb_signature sb) = sb.
Proof. by destruct sb. Qed.
Definition signed_format : Format SignedBlock :=
  map_format (pair_format (map_format (sum_format v1_format v2_format) block_to block_from block_law) (list_format byte_format))
    _ (λ sb, (sb_inner sb, sb_signature sb)) signed_law.

Definition commit_to (p : (N * N) * (N * (BlockRef * list BlockRef))) : Commit :=
  let '((index, previous), (ts, (leader, blocks))) := p in Commit_new index previous ts leader blocks.
Definition commit_from (c : Commit) : (N * N) * (N * (BlockRef * list BlockRef)) :=
  let 'CommitV1_ c := c in ((cv1_index c, cv1_previous_digest c), (cv1_timestamp_ms c, (cv1_leader c, cv1_blocks c))).
Lemma commit_law c : commit_to (commit_from c) = c.
Proof. by destruct c as [[]]. Qed.
Definition commit_format : Format Commit :=
  map_format (pair_format (pair_format n_format n_format) (pair_format n_format (pair_format ref_format (list_format ref_format))))
    commit_to commit_from commit_law.

(** All of the bytes are one value. *)
Definition from_bytes {A} (f : Format A) (bs : bytes) : option A :=
  match fm_dec f bs with Some (a, []) => Some a | _ => None end.
Lemma from_to_bytes {A} (f : Format A) a : from_bytes f (fm_enc f a) = Some a.
Proof. unfold from_bytes. rewrite <-(app_nil_r (fm_enc f a)). by rewrite fm_law. Qed.

Definition hash (bs : bytes) : N := foldl (λ acc b, (acc * 257 + to_N b + 1) mod 4294967291) 0 bs.
Lemma hash_bound bs : hash bs ≤ BlockDigest_MAX.
Proof.
  assert (Hlt : hash bs < 4294967291).
  { unfold hash. assert (Hacc : 0 < 4294967291) by done. revert Hacc. generalize 0 as acc.
    induction bs as [|b bs IH]; intros acc Hacc; [done|]. cbn [foldl]. by apply IH, N.mod_lt. }
  apply N.lt_le_incl, (N.lt_trans _ _ _ Hlt). by vm_compute.
Qed.

#[local] Instance node_codec : BlockCodec := {|
  bcs_to_bytes := λ sb, Some (fm_enc signed_format sb);
  bcs_from_bytes := from_bytes signed_format;
  default_hash := hash;
|}.
#[local] Instance node_commit_codec : CommitCodec := {|
  bcs_commit_to_bytes := λ c, Some (fm_enc commit_format c);
  bcs_commit_from_bytes := from_bytes commit_format;
  commit_hash := hash;
|}.
#[local] Instance node_ref_codec : BlockRefCodec := {|
  bcs_ref_to_bytes := λ r, Some (fm_enc ref_format r);
  bcs_ref_from_bytes := from_bytes ref_format;
|}.
#[local] Instance node_signer : BlockSigner := {| keypair_sign := λ _, [] |}.
Lemma take_chosen A (l : list A) n : ∃ rest, take n l ++ rest ≡ₚ l ∧ length (take n l) = Nat.min n (length l).
Proof. exists (drop n l). by rewrite take_drop, length_take. Qed.
#[local] Instance node_random : SliceRandom := {|
  choose_multiple A l n := take n l; law_choose_multiple := take_chosen; shuffle A l := l; law_shuffle A l := Permutation_refl l |}.

(** ** A network of four *)

Definition node_ctx : Context := grid_node 0.
Definition node_params : Parameters := mk_parameters 0 20 8 8 0 100 32 8 200.
Definition node_clock (now : N) : CoreClock := mk_clock now now now.
Definition node_fuel : nat := 40.
Definition node_genesis : list VerifiedBlock := match genesis_blocks node_ctx with Done l => l | _ => [] end.
Definition node_verifier : SignedBlockVerifier :=
  match SignedBlockVerifier_new node_ctx with Done v => v | _ => mk_verifier ∅ end.
Abbreviation at_node := (own_context node_ctx).
Definition node_started (i : AuthorityIndex) : run (AuthorityService RocksDBStore) :=
  node ← AuthorityNode_start (at_node i) node_params node_fuel (node_clock 1) rocks_empty 0 1 true; Done (an_service node).

(** A block of a peer on the given ancestors. *)
Definition peer_block (round : Round) (author : AuthorityIndex) (ancestors : list BlockRef) (votes : list CommitRef) : VerifiedBlock :=
  let sb := mk_signed (V2 (mk_block_v2 0 round author round
    (filter (λ r, br_author r = author) ancestors ++ filter (λ r, br_author r ≠ author) ancestors) [] [] votes [])) [] in
  VerifiedBlock_new_verified sb (fm_enc signed_format sb).

(** A block of a peer arrives, and the core thread takes it. *)
Definition arrives (now : N) (b : VerifiedBlock) : list ServiceEvent :=
  [SendBlock (vb_author b) (mk_extended_serialized (vb_serialized b) []) 0; OnThread (Turn (node_clock now) BCommand)].
Definition node_run (i : AuthorityIndex) (s : run (AuthorityService RocksDBStore)) (evs : list ServiceEvent) : run (AuthorityService RocksDBStore) :=
  s ← s; for_each (run_service (at_node i) node_params node_fuel node_verifier) s evs.
Definition node_proposals (s : run (AuthorityService RocksDBStore)) : list VerifiedBlock :=
  match s with Done s => proposals (co_outputs (as_core s)) | _ => [] end.

Definition node_commits (s : run (AuthorityService RocksDBStore)) : list CommitRef :=
  match s with Done s => sd_commit_ref <$> cfh_sent (co_commit_finalizer_handle (as_core s)) | _ => [] end.

(** Authorities 0 and 2 propose once they are subscribed to and whenever they
    have a quorum of a round; nobody listens to authority 1, and authority 3 is
    made up: in round 4 it votes for the first commit, like the others. *)
Definition first_events : list ServiceEvent := [Subscribe 1 0; OnThread (Turn (node_clock 2) BSubscriberExists)].
Definition own_block (s : run (AuthorityService RocksDBStore)) : list VerifiedBlock := option_list (last (node_proposals s)).
Definition received_by (i : AuthorityIndex) (now : N) (round : list VerifiedBlock) : list ServiceEvent :=
  filter (λ b, vb_author b ≠ i) round ≫= arrives now.
Definition state1 i := node_run i (node_started i) first_events.
Definition round1 := own_block (state1 0) ++ own_block (state1 2) ++ [peer_block 1 3 (vb_reference <$> node_genesis) []].
Definition state2 i := node_run i (state1 i) (received_by i 3 round1).
Definition round2 := own_block (state2 0) ++ own_block (state2 2) ++ [peer_block 2 3 (vb_reference <$> round1) []].
Definition state3 i := node_run i (state2 i) (received_by i 4 round2).
Definition round3 := own_block (state3 0) ++ own_block (state3 2) ++ [peer_block 3 3 (vb_reference <$> round2) []].
Definition state4 i := node_run i (state3 i) (received_by i 5 round3).
Definition first_commits : list CommitRef := node_commits (state4 0).
Definition round4 := own_block (state4 0) ++ own_block (state4 2) ++ [peer_block 4 3 (vb_reference <$> round3) first_commits].

Definition node_blocks : list VerifiedBlock := node_genesis ++ round1 ++ round2 ++ round3 ++ round4.
Definition node_map : gmap BlockRef VerifiedBlock := list_to_map ((λ b, (vb_reference b, b)) <$> node_blocks).
Definition node_universe (r : BlockRef) : option VerifiedBlock := node_map !! r.

Lemma node_elem r b : node_universe r = Some b → b ∈ node_blocks ∧ r = vb_reference b.
Proof. unfold node_universe, node_map. by intros (b' & [= -> ->] & ?)%elem_of_list_to_map_2%list_elem_of_fmap. Qed.
Lemma genesis_elem b : b ∈ node_genesis → b ∈ node_blocks.
Proof. intros Hb. apply elem_of_app. by left. Qed.

#[local] Opaque node_map node_blocks node_genesis node_verifier.

(** ** The network is one of the assumed kind *)

#[local] Instance byte_eq_dec' : EqDecision byte := byte_eq_dec.
#[local] Instance Transaction_eq_dec : EqDecision Transaction.
Proof. solve_decision. Defined.
#[local] Instance MisbehaviorProof_eq_dec : EqDecision MisbehaviorProof.
Proof. solve_decision. Defined.
#[local] Instance MisbehaviorReport_eq_dec : EqDecision MisbehaviorReport.
Proof. solve_decision. Defined.
#[local] Instance BlockV1_eq_dec : EqDecision BlockV1.
Proof. solve_decision. Defined.
#[local] Instance BlockV2_eq_dec : EqDecision BlockV2.
Proof. solve_decision. Defined.
#[local] Instance Block_eq_dec : EqDecision Block.
Proof. solve_decision. Defined.
#[local] Instance SignedBlock_eq_dec : EqDecision SignedBlock.
Proof. solve_decision. Defined.
#[local] Instance VerifiedBlock_eq_dec : EqDecision VerifiedBlock.
Proof. solve_decision. Defined.

Definition node_fitsb (b : VerifiedBlock) : bool :=
  block_wfb (test_committee 4) b && bool_decide (node_map !! vb_reference b = Some b) &&
  (bool_decide (vb_round b = 0) ||
   bool_decide (bcs_from_bytes (vb_serialized b) = Some (vb_signed b)) && bool_decide (vb_digest b = hash (vb_serialized b))) &&
  bool_decide (vb_round b + 1 < u32_max) &&
  forallb (λ a, bool_decide (br_round a ≠ 0) || bool_decide (a ∈ vb_reference <$> node_genesis)) (vb_ancestors b).

Lemma node_checked : forallb node_fitsb node_blocks = true.
Proof. by vm_compute. Qed.

Lemma node_facts b : b ∈ node_blocks →
  block_wf (test_committee 4) b ∧ node_universe (vb_reference b) = Some b ∧ (vb_round b = 0 ∨ block_storable b) ∧
  vb_round b + 1 < u32_max ∧ ∀ a, a ∈ vb_ancestors b → br_round a = 0 → a ∈ vb_reference <$> node_genesis.
Proof.
  intros Hb. pose proof node_checked as Hall. apply Is_true_true in Hall. rewrite forallb_True, Forall_forall in Hall.
  specialize (Hall b Hb). unfold node_fitsb in Hall.
  apply andb_True in Hall as [Hall Hanc]. apply andb_True in Hall as [Hall Hr%bool_decide_spec].
  apply andb_True in Hall as [Hall Hst]. apply andb_True in Hall as [Hwf%block_wfb_spec HG%bool_decide_spec].
  split; [exact Hwf|]. split; [exact HG|]. split.
  { apply orb_True in Hst as [H0%bool_decide_spec|Hst]; [by left|right].
    apply andb_True in Hst as [Hdec%bool_decide_spec Hdig%bool_decide_spec]. split; [exact Hdec|]. split; [exact Hdig|].
    split; [pose proof (wf_round _ _ Hwf); lia|apply Hwf]. }
  split; [exact Hr|]. intros a Ha H0. rewrite forallb_True, Forall_forall in Hanc. specialize (Hanc a Ha).
  apply orb_True in Hanc as [Hn%bool_decide_spec|Hin%bool_decide_spec]; [by destruct Hn|exact Hin].
Qed.

Lemma node_honest_slots : forallb (λ b1, forallb (λ b2,
  bool_decide (vb_author b1 = vb_author b2 → vb_round b1 = vb_round b2 → vb_reference b1 = vb_reference b2)) node_blocks) node_blocks = true.
Proof. by vm_compute. Qed.

Lemma node_universe_ok : universe_ok (test_committee 4) node_universe {[3%nat]}.
Proof.
  split.
  - apply test_committee_ok.
  - by intros r b [_ ->]%node_elem.
  - intros r b [Hb ->]%node_elem. by apply node_facts.
  - intros r1 r2 b1 b2 [Hb1 ->]%node_elem [Hb2 ->]%node_elem _ Ha Hr. pose proof node_honest_slots as Hall.
    apply Is_true_true in Hall. rewrite forallb_True, Forall_forall in Hall. specialize (Hall b1 Hb1).
    rewrite forallb_True, Forall_forall in Hall. specialize (Hall b2 Hb2). rewrite bool_decide_spec in Hall. by apply Hall.
  - by vm_compute.
Qed.

Lemma node_honest i : (i < 3)%nat → honest_node (S := RocksDBStore) (at_node i) node_universe {[3%nat]}.
Proof.
  intros Hi. split.
  - apply node_universe_ok.
  - simpl. intros ?%elem_of_singleton. lia.
  - intros r b [Hb ->]%node_elem Hr. by destruct (node_facts b Hb) as (_ & _ & [?|?] & _).
  - exists node_genesis. split; [by vm_compute|]. intros b Hb. by apply node_facts, genesis_elem.
  - unfold valid_author, Committee_is_valid_index. simpl. rewrite bool_decide_spec. unfold Committee_size. simpl. lia.
  - done.
Qed.

Lemma node_empty_rel : store_rel rocks_empty view_empty.
Proof.
  split; simpl; try done; try (intros ? ? []%lookup_empty_Some).
  intros k. rewrite lookup_empty. split; [set_solver|by intros []].
Qed.

Definition node_refs : gset BlockRef := list_to_set (vb_reference <$> node_blocks).

Lemma node_setting i : (i < 3)%nat → setting (at_node i) node_fuel node_verifier node_universe node_genesis {[3%nat]} node_refs.
Proof.
  intros Hi. split.
  - by apply node_honest.
  - by vm_compute.
  - by vm_compute.
  - split; [by vm_compute|by vm_compute|by vm_compute|by vm_compute| |].
    + intros [|[|[|[|a]]]]; by vm_compute.
    + intros round. by eexists.
  - split.
    + intros r b [Hb ->]%node_elem. apply elem_of_list_to_set. by apply list_elem_of_fmap_2.
    + by apply Nat.leb_le; vm_compute.
    + intros r b [Hb ->]%node_elem. by apply node_facts.
    + intros r b a [Hb ->]%node_elem. by apply node_facts.
  - intros c. by eexists.
  - intros c bytes Heq. injection Heq as Heq. split; [|split; [done|apply hash_bound]].
    cbn [tcm_serialized tcm_inner TrustedCommit_new_trusted]. rewrite <-Heq. exact (from_to_bytes commit_format c).
  - split.
    + intros b. by eexists.
    + intros digest. by eexists.
    + intros message. exists [], (test_authority 1). split; [done|]. split; [|done].
      destruct i as [|[|[|i]]]; [by vm_compute..|lia].
    + intros sb. by eexists.
    + intros serialized. apply hash_bound.
  - by split; vm_compute.
Qed.

(** ** The runs are runs of nodes *)

Section checked.
Context (i : AuthorityIndex).

Definition announcesb (clk : CoreClock) (c : Core RocksDBStore) (force : bool) : bool :=
  match prepare_block (at_node i) clk c force (threshold_clock_round (co_dag_state c)) with
  | Done (_, Some (b, _, _)) =>
      bool_decide (node_map !! vb_reference b = Some b) && bool_decide (bm_missing_ancestors (co_block_manager c) !! vb_reference b = None)
  | _ => true
  end.
Definition announces_afterb (clk : CoreClock) (c : Core RocksDBStore) (blocks : list VerifiedBlock) : bool :=
  match try_accept_blocks (at_node i) (co_block_manager c) (co_dag_state c) blocks (clk_instant clk) with
  | Done (bm, d, _, _) =>
      match try_commit (at_node i) node_fuel clk (set_co_dag_state d (set_co_block_manager bm c)) [] with
      | Done (ROk (c1, _)) => negb (should_propose node_params c1) || announcesb clk c1 false
      | _ => true
      end
  | _ => true
  end.
Definition enabledb (s : AuthorityService RocksDBStore) (ev : ServiceEvent) : bool :=
  match ev with
  | SendBlock peer serialized_block _ =>
      Committee_is_valid_index (test_committee 4) peer &&
      match bcs_from_bytes (es_block serialized_block) with
      | Some sb => let b := VerifiedBlock_new_verified sb (es_block serialized_block) in bool_decide (node_map !! vb_reference b = Some b)
      | None => true
      end
  | Subscribe peer _ => Committee_is_valid_index (test_committee 4) peer && bool_decide (cn_count (as_subscription_counter s) < u64_max)
  | OnThread (Turn clk BCommand) =>
      branch_ready (as_thread s) BCommand &&
      match ct_receiver (as_thread s) with
      | AddBlocks blocks _ :: _ => announces_afterb clk (as_core s) blocks
      | _ => false
      end
  | OnThread (Turn clk BSubscriberExists) =>
      branch_ready (as_thread s) BSubscriberExists &&
      announcesb clk (set_subscriber_exists (as_core s) (w_value (ct_rx_subscriber_exists (as_thread s)))) true
  | _ => false
  end.

Lemma announcesb_spec clk c force : announcesb clk c force → announces (at_node i) clk node_universe c force.
Proof.
  unfold announcesb. intros Hb c1 b excluded acks Hrun. rewrite Hrun in Hb. cbv iota beta in Hb.
  destruct (proj1 (andb_True _ _) Hb) as [H1 H2]. exact (conj (proj1 (bool_decide_spec _) H1) (proj1 (bool_decide_spec _) H2)).
Qed.

Lemma announces_afterb_spec clk c blocks : announces_afterb clk c blocks → announces_after (at_node i) node_params node_fuel node_universe clk c blocks.
Proof.
  unfold announces_afterb. intros Hb bm d acc missing c1 sds Hacc Hcommit Hp. rewrite Hacc in Hb. cbv iota beta in Hb. unfold f_ok in Hcommit. rewrite Hcommit in Hb. cbv iota beta in Hb.
  destruct (proj1 (orb_True _ _) Hb) as [Hn|Hb']; [|exact (announcesb_spec _ _ _ Hb')]. destruct (should_propose node_params c1); [destruct Hn|destruct Hp].
Qed.

Lemma enabledb_spec s ev : enabledb s ev → service_enabled (at_node i) node_params node_fuel node_verifier node_universe s ev.
Proof.
  destruct ev as [peer sb sender| | |peer last_received| | | | |ev]; [|intros []|intros []| |intros []|intros []|intros []|intros []|
    destruct ev as [| | | | | | | | |clk []]; [intros []..| |intros []| |intros []]];
    cbn [enabledb]; intros Hb; destruct (proj1 (andb_True _ _) Hb) as [H1 H2]; clear Hb.
  - split; [exact H1|]. intros signed rejected Hdec _. rewrite Hdec in H2. exact (proj1 (bool_decide_spec _) H2).
  - split; [exact H1|]. exact (proj1 (bool_decide_spec _) H2).
  - split; [exact (Is_true_true_1 _ H1)|]. cbn [turn_announces].
    destruct (ct_receiver (as_thread s)) as [|[] ?]; [destruct H2|exact (announces_afterb_spec _ _ _ H2)|destruct H2..].
  - split; [exact (Is_true_true_1 _ H1)|]. intros _. exact (announcesb_spec _ _ _ H2).
Qed.

(** No block is proposed at the start: nobody has subscribed yet. *)
Definition quiet_start : bool :=
  match last_commit_leader (fresh_dag (at_node i) node_genesis rocks_empty 1) with
  | Done slot => match try_commit (at_node i) node_fuel (node_clock 1)
      (fresh_core (at_node i) node_genesis rocks_empty 1 slot false (sync_last_known_own_block node_params
         (fresh_dag (at_node i) node_genesis rocks_empty 1) 1)) [] with
    | Done (ROk (c1, _)) => negb (should_propose node_params c1)
    | _ => true
    end
  | _ => true
  end.
Lemma quiet_first : quiet_start = true →
  announces_first (at_node i) node_params node_fuel node_universe node_genesis rocks_empty (node_clock 1) 1 true.
Proof.
  unfold quiet_start. intros Hno slot Hslot c1 sds Hrun Hp.
  cbn [clk_instant node_clock] in Hslot. rewrite Hslot in Hno. cbv iota beta in Hno.
  change (negb true || bool_decide (Committee_size (ctx_committee (at_node i)) = 1%nat)) with false in Hrun.
  cbn [clk_instant node_clock] in Hrun. unfold f_ok in Hrun. rewrite Hrun in Hno. cbv iota beta in Hno.
  destruct (should_propose node_params c1); [discriminate Hno|destruct Hp].
Qed.

Definition checked (s : AuthorityService RocksDBStore) (ev : ServiceEvent) : run (AuthorityService RocksDBStore) :=
  if enabledb s ev then run_service (at_node i) node_params node_fuel node_verifier s ev else Panic.
Definition node_after (evs : list ServiceEvent) : run (AuthorityService RocksDBStore) := s ← node_started i; for_each checked s evs.

Abbreviation node_state := (node_reachable (at_node i) node_params node_fuel node_verifier node_universe node_genesis).

Lemma checked_reachable s evs s' : node_state s → for_each checked s evs = Done s' → node_state s'.
Proof.
  revert s. induction evs as [|ev evs IH]; intros s Hs Hrun; [by injection Hrun as <-|]. cbn [for_each] in Hrun.
  apply bind_Done in Hrun as (s1 & Hstep & Hrun). unfold checked in Hstep. destruct (enabledb s ev) eqn:Hen; [|discriminate Hstep].
  apply (IH s1); [|exact Hrun]. refine (nr_step _ _ _ _ _ _ s ev s1 Hs _ Hstep).
  apply enabledb_spec. rewrite Hen. exact I.
Qed.

Lemma after_reachable evs s : quiet_start = true → node_after evs = Done s → node_state s.
Proof.
  intros Hq. unfold node_after, node_started. intros (s0 & (node & Hstart & Hnode)%bind_Done & Hrun)%bind_Done. injection Hnode as <-.
  apply (checked_reachable _ _ _ (nr_start _ _ _ _ _ _ rocks_empty (node_clock 1) 1 true node node_empty_rel (quiet_first Hq) Hstart) Hrun).
Qed.
End checked.

(** ** Two nodes *)

Lemma quiet_nodes : quiet_start 0 && quiet_start 1 = true.
Proof. by vm_compute. Qed.

(** Authority 0 gets the blocks of three rounds, authority 1 those of four. *)
Definition proposer_events (i : AuthorityIndex) : list ServiceEvent :=
  first_events ++ received_by i 3 round1 ++ received_by i 4 round2 ++ received_by i 5 round3.
Definition events0 : list ServiceEvent := proposer_events 0.
Definition events1 : list ServiceEvent :=
  (round1 ≫= arrives 3) ++ (round2 ≫= arrives 4) ++ (round3 ≫= arrives 5) ++ (round4 ≫= arrives 6).
Definition sent_leaders (s : AuthorityService RocksDBStore) : list BlockRef :=
  sd_leader <$> cfh_sent (co_commit_finalizer_handle (as_core s)).

(** The first has committed the leader of round 1 and proposed in four rounds,
    the second has committed two leaders. *)
Definition final0 (s : AuthorityService RocksDBStore) : bool :=
  enabledb 0 s (Subscribe 2 0) && bool_decide (sent_leaders s = vb_reference <$> take 1 round1) &&
  bool_decide (vb_round <$> proposals (co_outputs (as_core s)) = [1; 2; 3; 4]).
Definition final1 (s : AuthorityService RocksDBStore) : bool :=
  bool_decide (sent_leaders s = vb_reference <$> (take 1 round1 ++ take 1 round2)).

Lemma final_checked0 : match node_after 0 events0 with Done s => final0 s | _ => false end = true.
Proof. by vm_compute. Qed.
Lemma final_checked1 : match node_after 1 events1 with Done s => final1 s | _ => false end = true.
Proof. by vm_compute. Qed.

Lemma node0 : ∃ s, node_after 0 events0 = Done s ∧
  node_reachable (at_node 0) node_params node_fuel node_verifier node_universe node_genesis s ∧ enabledb 0 s (Subscribe 2 0) ∧
  sent_leaders s = vb_reference <$> take 1 round1 ∧ vb_round <$> proposals (co_outputs (as_core s)) = [1; 2; 3; 4].
Proof.
  pose proof final_checked0 as Hc. destruct (node_after 0 events0) as [s| |] eqn:Hrun; [|discriminate Hc..]. exists s.
  apply Is_true_true_2 in Hc. unfold final0 in Hc. destruct (proj1 (andb_True _ _) Hc) as [Hc1 H3]. destruct (proj1 (andb_True _ _) Hc1) as [H1 H2].
  pose proof quiet_nodes as Hq. apply andb_prop in Hq. split; [reflexivity|]. split; [exact (after_reachable 0 events0 s (proj1 Hq) Hrun)|].
  split; [exact H1|]. exact (conj (proj1 (bool_decide_spec _) H2) (proj1 (bool_decide_spec _) H3)).
Qed.
Lemma node1 : ∃ s, node_after 1 events1 = Done s ∧
  node_reachable (at_node 1) node_params node_fuel node_verifier node_universe node_genesis s ∧
  sent_leaders s = vb_reference <$> (take 1 round1 ++ take 1 round2).
Proof.
  pose proof final_checked1 as Hc. destruct (node_after 1 events1) as [s| |] eqn:Hrun; [|discriminate Hc..]. exists s.
  apply Is_true_true_2 in Hc. unfold final1 in Hc. pose proof quiet_nodes as Hq. apply andb_prop in Hq. split; [reflexivity|].
  split; [exact (after_reachable 1 events1 s (proj2 Hq) Hrun)|]. exact (proj1 (bool_decide_spec _) Hc).
Qed.

Lemma setting0 : setting (at_node 0) node_fuel node_verifier node_universe node_genesis {[3%nat]} node_refs.
Proof. apply node_setting. lia. Qed.





(** ** Requests of peers *)

(** The block of authority 2 in round 4, which authority 0 has not received. *)
Definition late_block : VerifiedBlock := default (peer_block 4 2 [] []) (round4 !! 1%nat).
Definition late_serialized : ExtendedSerializedBlock := mk_extended_serialized (vb_serialized late_block) [].
Definition late_delivered : bool :=
  match bcs_from_bytes (vb_serialized late_block) with
  | Some sb => let b := VerifiedBlock_new_verified sb (vb_serialized late_block) in
      bool_decide (node_map !! vb_reference b = Some b) && bool_decide (node_map !! vb_reference late_block = Some late_block)
  | None => false
  end.
Lemma late_checked : late_delivered = true.
Proof. by vm_compute. Qed.
Lemma late_delivers : delivers (at_node 0) node_verifier node_universe (es_block late_serialized) ∧
  node_universe (vb_reference late_block) = Some late_block.
Proof.
  pose proof late_checked as Hc. unfold late_delivered in Hc. cbn [es_block late_serialized].
  destruct (bcs_from_bytes (vb_serialized late_block)) as [sb|] eqn:Hdec; [|discriminate Hc]. cbv zeta in Hc.
  apply andb_prop in Hc as [H1 H2]. split; [|exact (bool_decide_eq_true_1 _ H2)].
  intros sb' rejected Heq _. cbn [es_block late_serialized] in Heq. rewrite Hdec in Heq. injection Heq as <-. exact (bool_decide_eq_true_1 _ H1).
Qed.

Lemma fetch_blocks_answered_witness : ∃ s res, node_after 0 events0 = Done s ∧
  handle_fetch_blocks (at_node 0) node_params s (vb_reference <$> round1) [0; 0; 0; 0] true = Done res ∧
  if res is ROk answer then answers (at_node 0) node_params (as_dag_state s) [0; 0; 0; 0] (vb_reference <$> round1) answer else True.
Proof.
  destruct node0 as (s & Hs & Hreach & _).
  destruct (fetch_blocks_answered (at_node 0) node_params node_fuel node_verifier node_universe node_genesis {[3%nat]} node_refs
    setting0 s (vb_reference <$> round1) [0; 0; 0; 0] true Hreach) as (res & Hrun & Hres).
  exists s, res. split; [exact Hs|]. split; [exact Hrun|]. destruct res as [answer|e]; [exact (proj2 (proj2 Hres))|exact I].
Defined.

Lemma sent_block_taken_witness : ∃ s s' res, node_after 0 events0 = Done s ∧
  receive_block (at_node 0) node_params node_verifier s 2 late_serialized 0 = Done (s', res) ∧
  if res is RErr _ then as_thread s' = as_thread s else True.
Proof.
  destruct node0 as (s & Hs & Hreach & _).
  destruct (sent_block_taken (at_node 0) node_params node_fuel node_verifier node_universe node_genesis {[3%nat]} node_refs
    setting0 s 2 late_serialized 0 Hreach I (proj1 late_delivers)) as (s' & res & Hrun & Hres).
  exists s, s', res. split; [exact Hs|]. split; [exact Hrun|]. destruct res as [b|e]; [exact I|exact (proj1 Hres)].
Defined.

(** A reference of authority 9, of a committee of four. *)
Definition unknown_ref : BlockRef := mk_ref 1 9 0.
Lemma excluded_ancestors_panic_witness : ∃ s, node_after 0 events0 = Done s ∧
  process_excluded (at_node 0) s 2 late_block [fm_enc ref_format unknown_ref] ∅ 0 = Panic.
Proof.
  destruct node0 as (s & Hs & Hreach & _). exists s. split; [exact Hs|].
  apply (excluded_ancestors_panic (at_node 0) node_params node_fuel node_verifier node_universe node_genesis {[3%nat]} node_refs
    setting0 s 2 late_block [fm_enc ref_format unknown_ref] ∅ 0 Hreach (proj2 late_delivers)).
  exists [unknown_ref]. split; [by vm_compute|]. apply Exists_cons_hd. intros Hv. exact Hv.
Defined.

(** ** Fetching commits *)

Lemma quiet_others : quiet_start 2 = true.
Proof. by vm_compute. Qed.

(** The blocks of the honest authorities are those that their nodes broadcast. *)
Definition broadcasts (i : AuthorityIndex) : list VerifiedBlock := node_proposals (node_after i (proposer_events i)).
Definition proposed_check (blocks0 blocks2 : list VerifiedBlock) (b : VerifiedBlock) : bool :=
  bool_decide (vb_round b = 0) || bool_decide (vb_author b = 3%nat) ||
  (bool_decide (vb_author b = 0%nat) && bool_decide (b ∈ blocks0)) || (bool_decide (vb_author b = 2%nat) && bool_decide (b ∈ blocks2)).
Lemma proposed_checked : forallb (proposed_check (broadcasts 0) (broadcasts 2)) node_blocks = true.
Proof. by vm_compute. Qed.

Lemma broadcast_state i b : (i < 3)%nat → quiet_start i = true → b ∈ broadcasts i →
  ∃ s, authority_state node_ctx node_fuel node_verifier node_universe node_genesis {[3%nat]} i s ∧ b ∈ proposals (co_outputs (as_core s)).
Proof.
  intros Hi Hq Hb. unfold broadcasts in Hb. destruct (node_after i (proposer_events i)) as [s| |] eqn:Hrun; [|destruct (proj1 (elem_of_nil b) Hb)..].
  exists s. split; [|exact Hb]. exists node_params, node_refs. split; [exact (node_setting i Hi)|].
  exact (after_reachable i _ s Hq Hrun).
Qed.

Lemma node_network : network node_ctx node_fuel node_verifier node_universe node_genesis {[3%nat]}.
Proof.
  split.
  - intros c bytes Heq. injection Heq as <-. exact (from_to_bytes commit_format c).
  - intros b [Hb _]%node_elem Hr. destruct (node_facts b Hb) as (_ & _ & [?|(Hdec & Hdig & _)] & _); [done|].
    split; [exact Hdec|]. destruct b as [sb digest bytes]. unfold VerifiedBlock_new_verified. cbn in *. by rewrite Hdig.
  - intros b [Hb _]%node_elem Hr Ha. pose proof proposed_checked as Hall. apply Is_true_true_2 in Hall. rewrite forallb_True, Forall_forall in Hall.
    specialize (Hall b Hb). unfold proposed_check in Hall. pose proof quiet_nodes as [Hq0 _]%andb_prop.
    destruct (proj1 (orb_True _ _) Hall) as [Hall1|H2]; [destruct (proj1 (orb_True _ _) Hall1) as [Hall2|H0];
      [destruct (proj1 (orb_True _ _) Hall2) as [Hz|H3]|]|].
    + destruct (Hr (proj1 (bool_decide_spec _) Hz)).
    + destruct Ha. rewrite (proj1 (bool_decide_spec _) H3). apply elem_of_singleton. reflexivity.
    + destruct (proj1 (andb_True _ _) H0) as [Ha0 Hb0]. rewrite (proj1 (bool_decide_spec _) Ha0).
      exact (broadcast_state 0 b ltac:(lia) Hq0 (proj1 (bool_decide_spec _) Hb0)).
    + destruct (proj1 (andb_True _ _) H2) as [Ha2 Hb2]. rewrite (proj1 (bool_decide_spec _) Ha2).
      exact (broadcast_state 2 b ltac:(lia) quiet_others (proj1 (bool_decide_spec _) Hb2)).
Qed.

(** What a peer answers: the first commit, the blocks that vote for it, and the
    blocks that it commits. *)
Definition last_commit_bytes (s : run (AuthorityService RocksDBStore)) : list bytes :=
  match s with Done s => option_list (tcm_serialized <$> ds_last_commit (as_dag_state s)) | _ => [] end.
Definition commits_answer : ConsensusResult (list bytes * list bytes) := ROk (last_commit_bytes (state4 0), vb_serialized <$> round4).
Definition blocks_answer (n : nat) : ConsensusResult (list bytes) := ROk (vb_serialized <$> take 1 round1).
Definition first_range : CommitRange := CommitRange_new 1 1.
Lemma first_range_ok : range_ok first_range.
Proof. split; [by vm_compute|]. apply N.leb_le. by vm_compute. Qed.
Lemma node_fetch_size : pm_max_blocks_per_fetch node_params ≠ 0.
Proof. done. Qed.

Definition delivered (bs : bytes) : bool :=
  match bcs_from_bytes bs with
  | Some sb => let b := VerifiedBlock_new_verified sb bs in bool_decide (node_map !! vb_reference b = Some b)
  | None => true
  end.
Lemma answer_checked : forallb delivered (vb_serialized <$> round4) = true.
Proof. by vm_compute. Qed.
Lemma answer_delivered serialized_commits serialized_blocks : commits_answer = ROk (serialized_commits, serialized_blocks) →
  Forall (delivers (at_node 1) node_verifier node_universe) serialized_blocks.
Proof.
  unfold commits_answer. intros Heq. apply (f_equal (λ r, if r is ROk (_, blocks) then blocks else [])) in Heq.
  cbv beta iota in Heq. rewrite <-Heq.
  pose proof (Is_true_true_2 _ answer_checked) as Hc. rewrite forallb_True in Hc.
  eapply Forall_impl; [exact Hc|]. intros bs Hbs sb rejected Hdec _. unfold delivered in Hbs. rewrite Hdec in Hbs.
  exact (proj1 (bool_decide_spec _) Hbs).
Qed.

(** Authority 1, which has nothing yet, fetches the first commit. *)
Definition fetched : run (Core RocksDBStore * ConsensusResult CertifiedCommits) :=
  s ← node_after 1 []; fetch_once (at_node 1) node_params node_verifier (as_core s) 0 first_range commits_answer blocks_answer 7.
Lemma fetched_checked : match fetched with Done (_, ROk certified) => bool_decide (length (ccs_commits certified) = 1%nat) | _ => false end = true.
Proof. by vm_compute. Qed.

Lemma fetched_ok : ∃ s c' certified, node_after 1 [] = Done s ∧
  fetch_once (at_node 1) node_params node_verifier (as_core s) 0 first_range commits_answer blocks_answer 7 = Done (c', ROk certified) ∧
  length (ccs_commits certified) = 1%nat.
Proof.
  pose proof fetched_checked as Hc. destruct fetched as [[c' [certified|e]]| |] eqn:Hf; [|discriminate Hc..].
  apply bind_Done in Hf as (s & Hs & Hf). exists s, c', certified. exact (conj Hs (conj Hf (bool_decide_eq_true_1 _ Hc))).
Qed.


(** ** The schedule of fetches *)

(** A quorum has voted for commit 250: two batches of 100 are scheduled. *)
Definition lagging_monitor : CommitVoteMonitor := mk_monitor [250; 250; 250; 0].
Definition scheduled_syncer : run CommitSyncer :=
  on_interval node_ctx node_params (CommitSyncer_new dag_test0) lagging_monitor dag_test0 (CommitConsumerMonitor_new 0).
Lemma synced_without_gaps_witness : ∃ s, scheduled_syncer = Done s ∧ sy_highest_scheduled_index s = Some 200 ∧
  ∃ r, holds s r ∧ covers r 150.
Proof.
  assert (Hc : match scheduled_syncer with Done s => bool_decide (sy_highest_scheduled_index s = Some 200) && bool_decide (sy_synced_commit_index s = 0) | _ => false end = true)
    by (by vm_compute).
  destruct scheduled_syncer as [s| |] eqn:Hrun; [|discriminate Hc..]. apply andb_prop in Hc as [Hh Hs].
  apply bool_decide_eq_true_1 in Hh, Hs. exists s. split; [reflexivity|]. split; [exact Hh|].
  apply (proj1 (synced_without_gaps node_ctx node_params node_verifier s
    (sg_interval node_ctx node_params node_verifier _ lagging_monitor dag_test0 (CommitConsumerMonitor_new 0) s
      (sg_new _ _ _ dag_test0 ltac:(by vm_compute)) eq_refl ltac:(by vm_compute) ltac:(by vm_compute) Hrun))).
  - rewrite Hs. by vm_compute.
  - rewrite Hh. by vm_compute.
Defined.
