(* ===== verification/TaskExamples.v ===== *)
(** * Tasks that run

    The node of the examples with its tasks: a block arrives whose ancestors
    are missing, the synchronizer locks and fetches them from its author and
    hands them to the core. Then an authority that asks the others for its last
    block, and the timers of a round. *)
From S2P Require Import Prelude Committee StakeAggregator Block ThresholdClock Commit LeaderScoring Store DagState DagStateProofs DagTraversal LeaderSchedule BaseCommitter CommitRule BlockVerifier TransactionConsumer DagViews BlockManager BlockManagerProofs BlockManagerSafety ManagedNode Linearizer CommitObserver LinearizerProofs CommitSafety UniversalCommitter QuorumRounds Ancestor TransactionCertifier CertifierProofs CommitFinalizer Core CoreThread AuthorityService AuthorityNode CommitSyncer Synchronizer NodeTasks SyncLocks SyncSchedule CoreState Ledger CoreProposal CoreProposer CoreCommit CoreNode CoreRun NodeStart ServiceProofs TaskMachine LeaderTimer NodeSafety TaskSafety SyncSafety ServiceReads OwnRecovery NodeExamples.

#[local] Existing Instance node_codec.
#[local] Existing Instance node_commit_codec.
#[local] Existing Instance node_ref_codec.
#[local] Existing Instance node_signer.
#[local] Existing Instance node_random.
#[local] Existing Instance VerifiedBlock_eq_dec.
#[local] Opaque node_map node_blocks node_genesis node_verifier.

(** ** Checked steps *)

Section checked.
Context (i : AuthorityIndex).
Implicit Types (n : Node RocksDBStore).

(** What the core answered on a channel. *)
Definition node_answer n (sender : N) : option (gset BlockRef) :=
  list_find (λ r : N * CoreReply, r.1 = sender) (ct_replies (as_thread (nd_service n))) ≫=
    λ '(_, r), match r.2 with MissingRefs m => Some m | _ => None end.
Lemma node_answer_spec n sender m : node_answer n sender = Some m → answered (nd_service n) sender (Some m).
Proof.
  unfold node_answer. intros ([k [sender' reply]] & (Hk & <- & _)%list_find_Some & Hm)%bind_Some. cbn in Hm |- *.
  destruct reply; [|discriminate Hm]. injection Hm as <-. exact (list_elem_of_lookup_2 _ _ _ Hk).
Qed.

(** The steps of the example, with the answers of the core filled in. *)
Inductive TaskStep :=
| StSend (peer : AuthorityIndex) (b : VerifiedBlock)
| StTurn (now : N)
| StHandler (k : nat)
| StFetch (k : nat)
| StCommand (now : N)
| StReceive (peer : AuthorityIndex)
| StResponse (peer : AuthorityIndex) (blocks : list bytes) (now : N)
| StAdd (peer : AuthorityIndex)
| StFinish (peer : AuthorityIndex).

Definition handler_answer n (k : nat) : option (gset BlockRef) := nd_handlers n !! k ≫= λ h, node_answer n (handler_sender h).
Definition fetcher_answer n (peer : AuthorityIndex) : option (gset BlockRef) :=
  sn_fetchers (nd_synchronizer n) !! peer ≫= λ f, fe_process f ≫= λ p,
    match pr_stage p with AddingBlocks sender => node_answer n sender | _ => None end.
Definition step_event n (st : TaskStep) : TaskEvent :=
  match st with
  | StSend peer b => TSend peer (mk_extended_serialized (vb_serialized b) [])
  | StTurn now => TService (OnThread (Turn (node_clock now) BCommand))
  | StHandler k => THandler k (handler_answer n k)
  | StFetch k => TSync (SyncFetch k)
  | StCommand now => TSync (SyncCommand now)
  | StReceive peer => TSync (SyncFetcher peer FetcherReceive)
  | StResponse peer blocks now => TSync (SyncFetcher peer (FetcherResponse 0 (ROk blocks) (λ _, now)))
  | StAdd peer => TSync (SyncFetcher peer FetcherAdd)
  | StFinish peer => TSync (SyncFetcher peer (FetcherFinish (fetcher_answer n peer)))
  end.
Definition step_enabled n (st : TaskStep) : bool :=
  let s := nd_service n in
  let y := nd_synchronizer n in
  match st with
  | StSend peer b => Committee_is_valid_index (test_committee 4) peer && delivered (vb_serialized b)
  | StTurn now =>
      branch_ready (as_thread s) BCommand &&
      match ct_receiver (as_thread s) with
      | AddBlocks blocks _ :: _ => announces_afterb i (node_clock now) (as_core s) blocks
      | CheckBlockRefs _ _ :: _ => true
      | _ => false
      end
  | StHandler k => bool_decide (is_Some (handler_answer n k))
  | StFetch _ => bool_decide (length (sn_commands y) < COMMANDS_CAPACITY)%nat
  | StCommand _ => sn_running y && bool_decide (sn_waiting y = None)
  | StReceive peer =>
      match sn_fetchers y !! peer with Some f => bool_decide (length (fe_requests f) < FETCH_BLOCKS_CONCURRENCY)%nat | None => true end
  | StResponse _ blocks _ => forallb delivered blocks
  | StAdd _ => true
  | StFinish peer => bool_decide (is_Some (fetcher_answer n peer))
  end.

Lemma delivered_spec bs : delivered bs → delivers (at_node i) node_verifier node_universe bs.
Proof. intros Hbs sb rejected Hdec _. unfold delivered in Hbs. rewrite Hdec in Hbs. exact (proj1 (bool_decide_spec _) Hbs). Qed.

Lemma step_enabled_spec n st : step_enabled n st →
  task_enabled (at_node i) node_params node_fuel node_verifier node_universe n (step_event n st).
Proof.
  destruct st as [peer b|now|k|k|now|peer|peer blocks now|peer|peer]; cbn [step_enabled step_event]; intros Hb.
  - destruct (proj1 (andb_True _ _) Hb) as [H1 H2]. split; [exact H1|]. split; [exact (delivered_spec _ H2)|].
    intros refs Hrefs. injection Hrefs as <-. constructor.
  - destruct (proj1 (andb_True _ _) Hb) as [H1 H2]. split; [exact I|]. split; [exact (Is_true_true_1 _ H1)|]. cbn [turn_announces].
    destruct (ct_receiver (as_thread (nd_service n))) as [|[] ?]; [destruct H2|exact (announces_afterb_spec _ _ _ _ H2)|exact I|destruct H2..].
  - apply bool_decide_spec in Hb. unfold handler_answer in *. destruct (nd_handlers n !! k) as [h|] eqn:Hh; [|by destruct Hb]. cbn [mbind option_bind] in *.
    destruct (node_answer n (handler_sender h)) as [m|] eqn:Hm; [|by destruct Hb]. exists h. split; [exact Hh|exact (node_answer_spec n _ m Hm)].
  - intros _. exact (proj1 (bool_decide_spec _) Hb).
  - destruct (proj1 (andb_True _ _) Hb) as [H1 H2]. exact (conj (Is_true_true_1 _ H1) (proj1 (bool_decide_spec _) H2)).
  - intros f Hf. rewrite Hf in Hb. exact (proj1 (bool_decide_spec _) Hb).
  - rewrite forallb_True in Hb. exact (Forall_impl _ _ _ Hb delivered_spec).
  - exact I.
  - apply bool_decide_spec in Hb. unfold fetcher_answer in *. cbn [task_enabled sync_enabled]. destruct (sn_fetchers (nd_synchronizer n) !! peer) as [f|] eqn:Hf; [|by destruct Hb].
    cbn [mbind option_bind] in *. destruct (fe_process f) as [p|] eqn:Hp; [|by destruct Hb]. cbn [mbind option_bind] in *.
    destruct (pr_stage p) as [|sender] eqn:Hst; [by destruct Hb|]. destruct (node_answer n sender) as [m|] eqn:Hm; [|by destruct Hb].
    exists f, p. split; [reflexivity|]. split; [exact Hp|]. exists sender. exact (conj Hst (node_answer_spec n sender m Hm)).
Qed.

Definition half_more (delay : N) : N := delay * 3 / 2.
Definition checked_step n (st : TaskStep) : run (Node RocksDBStore) :=
  if step_enabled n st then run_task (at_node i) node_params node_fuel node_verifier half_more n (step_event n st) else Panic.
Definition tasks_started : run (Node RocksDBStore) :=
  node ← AuthorityNode_start (at_node i) node_params node_fuel (node_clock 1) rocks_empty 0 1 true;
  start_tasks (at_node i) node_params node 1 true.
Definition tasks_after (steps : list TaskStep) : run (Node RocksDBStore) := n ← tasks_started; for_each checked_step n steps.
Abbreviation tasks_state := (tasks_reachable (at_node i) node_params node_fuel node_verifier half_more node_universe node_genesis).

Lemma steps_reachable n steps n' : tasks_state n → for_each checked_step n steps = Done n' → tasks_state n'.
Proof.
  revert n. induction steps as [|st steps IH]; intros n Hn Hrun; [by injection Hrun as <-|]. cbn [for_each] in Hrun.
  apply bind_Done in Hrun as (n1 & Hstep & Hrun). unfold checked_step in Hstep. destruct (step_enabled n st) eqn:Hen; [|discriminate Hstep].
  apply (IH n1); [|exact Hrun]. refine (tr_step _ _ _ _ _ _ _ n (step_event n st) n1 Hn _ Hstep).
  apply step_enabled_spec. rewrite Hen. exact I.
Qed.
Lemma tasks_after_reachable steps n : quiet_start i = true → tasks_after steps = Done n → tasks_state n.
Proof.
  intros Hq. unfold tasks_after, tasks_started. intros (n0 & (node & Hstart & Hnode)%bind_Done & Hrun)%bind_Done.
  apply (steps_reachable _ _ _ (tr_start _ _ _ _ _ _ _ rocks_empty (node_clock 1) 1 true node 1 n0 node_empty_rel (quiet_first i Hq) Hstart Hnode) Hrun).
Qed.
End checked.

(** ** Missing ancestors *)

(** Authority 1 gets the block of authority 2 of the second round first. *)
Definition orphan : VerifiedBlock := default (peer_block 2 2 [] []) (round2 !! 1%nat).
Definition fetching_steps : list TaskStep :=
  [StSend 2 orphan; StTurn 3; StHandler 0; StFetch 0; StCommand 4; StReceive 2].
Definition fetched_steps : list TaskStep :=
  fetching_steps ++ [StResponse 2 (vb_serialized <$> round1) 5; StAdd 2; StTurn 6; StTurn 6; StFinish 2].

Definition fetching_ok (n : Node RocksDBStore) : bool :=
  bool_decide (bg_block_refs <$> live_guards (nd_synchronizer n) = [list_to_set (vb_reference <$> round1)]) &&
  forallb (λ b, bool_decide (sn_inflight_blocks_map (nd_synchronizer n) !!! vb_reference b = ({[2%nat]} : gset AuthorityIndex))) round1.
Definition fetched_ok' (n : Node RocksDBStore) : bool :=
  bool_decide (live_guards (nd_synchronizer n) = []) &&
  bool_decide (get_blocks (as_dag_state (nd_service n)) (vb_reference <$> orphan :: round1) = Done (Some <$> orphan :: round1)).

Lemma fetching_checked : match tasks_after 1 fetching_steps with Done n => fetching_ok n | _ => false end = true.
Proof. by vm_compute. Qed.
Lemma fetched_checked' : match tasks_after 1 fetched_steps with Done n => fetched_ok' n | _ => false end = true.
Proof. by vm_compute. Qed.
Lemma quiet1 : quiet_start 1 = true.
Proof. pose proof quiet_nodes as Hq. exact (proj2 (andb_prop _ _ Hq)). Qed.
Lemma setting1 : setting (at_node 1) node_fuel node_verifier node_universe node_genesis {[3%nat]} node_refs.
Proof. apply node_setting. lia. Qed.
Lemma node_sync_config : sync_config (at_node 1) node_params.
Proof. split; [by vm_compute|]. right; right. apply Nat.leb_le. by vm_compute. Qed.

Lemma tasks_refine_witness : ∃ n, tasks_after 1 fetched_steps = Done n ∧
  get_blocks (as_dag_state (nd_service n)) (vb_reference <$> orphan :: round1) = Done (Some <$> orphan :: round1) ∧
  node_reachable (at_node 1) node_params node_fuel node_verifier node_universe node_genesis (nd_service n).
Proof.
  pose proof fetched_checked' as Hc. destruct (tasks_after 1 fetched_steps) as [n| |] eqn:Hrun; [|discriminate Hc..]. exists n.
  apply andb_prop in Hc as [_ Hb]. split; [reflexivity|]. split; [exact (bool_decide_eq_true_1 _ Hb)|].
  exact (tasks_refine (at_node 1) node_params node_fuel node_verifier half_more node_universe node_genesis {[3%nat]} node_refs setting1
    node_sync_config n (tasks_after_reachable 1 _ n quiet1 Hrun)).
Defined.

Lemma blocks_in_flight_witness : ∃ n, tasks_after 1 fetching_steps = Done n ∧
  bg_block_refs <$> live_guards (nd_synchronizer n) = [list_to_set (vb_reference <$> round1)] ∧
  NoDup (held (live_guards (nd_synchronizer n))).
Proof.
  pose proof fetching_checked as Hc. destruct (tasks_after 1 fetching_steps) as [n| |] eqn:Hrun; [|discriminate Hc..]. exists n.
  apply andb_prop in Hc as [Hg _]. split; [reflexivity|]. split; [exact (bool_decide_eq_true_1 _ Hg)|].
  exact (proj1 (proj2 (blocks_in_flight (at_node 1) node_params node_fuel node_verifier half_more node_universe node_genesis {[3%nat]} node_refs
    setting1 node_sync_config n (tasks_after_reachable 1 _ n quiet1 Hrun)))).
Defined.

(** The answer of the peer arrives. *)
Definition answer_step : TaskStep := StResponse 2 (vb_serialized <$> round1) 5.
Lemma answer_delivered' : forallb delivered (vb_serialized <$> round1) = true.
Proof. by vm_compute. Qed.
Lemma answer_enabled n : task_enabled (at_node 1) node_params node_fuel node_verifier node_universe n (step_event n answer_step).
Proof. apply step_enabled_spec. exact (Is_true_true_2 _ answer_delivered'). Qed.

(** ** The own last block *)

(** Authority 0 lost its store after round 3; authorities 1 and 2 answer. *)
Definition peer_events (a : AuthorityIndex) : list ServiceEvent := if decide (a = 1%nat) then events1 else proposer_events 2.
Definition asked_peer (a : AuthorityIndex) : run (AuthorityService RocksDBStore * list bytes) :=
  s ← node_after a (peer_events a);
  res ← (handle_fetch_latest_blocks (at_node a) s 0 [0%nat] : run (ConsensusResult (list bytes)));
  match res with ROk answer => Done (s, answer) | RErr _ => Panic end.
Definition lost_block : VerifiedBlock := default (peer_block 3 0 [] []) (round3 !! 0%nat).
Definition peer_ok (answer : AuthorityService RocksDBStore * list bytes) : bool :=
  forallb delivered answer.2 && bool_decide (get_blocks (as_dag_state answer.1) [vb_reference lost_block] = Done [Some lost_block]).

Definition gather (y : Synchronizer) (k : nat) (peer : AuthorityIndex) (answer : list bytes) : run Synchronizer :=
  match sn_own_block_task y with
  | Some (OwnGathering pending total highest retries delay) =>
      if bool_decide (pending !! k = Some peer)
      then own_response (at_node 0) node_verifier y pending total highest retries delay k peer (ROk answer) else Panic
  | _ => Panic
  end.
Lemma gather_step answers y k peer answer y' : gathers (S := RocksDBStore) node_ctx node_verifier 0 answers y → answers peer answer →
  gather y k peer answer = Done y' → gathers (S := RocksDBStore) node_ctx node_verifier 0 answers y'.
Proof.
  unfold gather. intros Hy Hans Hrun. destruct (sn_own_block_task y) as [[|pending total highest retries delay| |]|] eqn:Htask; [discriminate Hrun| |discriminate Hrun..].
  case_bool_decide as Hk; [|discriminate Hrun]. refine (gathers_response _ _ _ _ y y' pending total highest retries delay k peer (ROk answer) Hy Htask Hk _ Hrun).
  intros blocks Heq. by injection Heq as <-.
Qed.
Definition recovering (answer1 answer2 : list bytes) : run Synchronizer :=
  s ← node_after 0 [];
  '(_, y) ← own_loop (at_node 0) s (Synchronizer_start (at_node 0) true 1) 0 500000000;
  y ← gather y 0 1 answer1; gather y 0 2 answer2.
Definition recovered (y : Synchronizer) : bool :=
  match sn_own_block_task y with
  | Some (OwnGathering _ total highest _ _) => Committee_reached_validity (test_committee 4) total && bool_decide (highest = 4)
  | _ => false
  end.

Lemma peers_checked : match asked_peer 1, asked_peer 2 with
  | Done p1, Done p2 => peer_ok p1 && peer_ok p2 && match recovering p1.2 p2.2 with Done y => recovered y | _ => false end
  | _, _ => false
  end = true.
Proof. by vm_compute. Qed.

Lemma asked_peer_spec a s answer : (0 < a < 3)%nat → quiet_start a = true → asked_peer a = Done (s, answer) → peer_ok (s, answer) = true →
  authority_state node_ctx node_fuel node_verifier node_universe node_genesis {[3%nat]} a s ∧
  handle_fetch_latest_blocks (at_node a) s 0 [0%nat] = f_ok answer ∧
  Forall (delivers (at_node 0) node_verifier node_universe) answer ∧ has (as_dag_state s) lost_block.
Proof.
  intros Ha Hq Hrun Hok. unfold asked_peer in Hrun. apply bind_Done in Hrun as (s' & Hs & Hrun). apply bind_Done in Hrun as (res & Hres & Hrun).
  destruct res as [answer'|e]; [|discriminate Hrun]. injection Hrun as -> ->.
  apply andb_prop in Hok as [Hd Hb]. split.
  { exists node_params, node_refs. split; [apply node_setting; lia|exact (after_reachable a _ s Hq Hs)]. }
  split; [exact Hres|]. split; [|exact (bool_decide_eq_true_1 _ Hb)].
  apply Is_true_true_2 in Hd. rewrite forallb_True in Hd. exact (Forall_impl _ _ _ Hd (delivered_spec 0)).
Qed.

Lemma lost_author : vb_author lost_block = 0%nat.
Proof. by vm_compute. Qed.

(** What was gathered from the two peers. *)
Lemma recovery_run : ∃ s1 l1 s2 l2 y, asked_peer 1 = Done (s1, l1) ∧ asked_peer 2 = Done (s2, l2) ∧
  peer_ok (s1, l1) = true ∧ peer_ok (s2, l2) = true ∧ recovering l1 l2 = Done y ∧ recovered y = true.
Proof.
  pose proof peers_checked as Hc. destruct (asked_peer 1) as [[s1 l1]| |] eqn:H1; [|discriminate Hc..].
  destruct (asked_peer 2) as [[s2 l2]| |] eqn:H2; [|discriminate Hc..]. apply andb_prop in Hc as [Hp Hr]. apply andb_prop in Hp as [Hp1 Hp2].
  cbn [snd] in Hr. destruct (recovering l1 l2) as [y| |] eqn:Hy; [|discriminate Hr..].
  exists s1, l1, s2, l2, y. exact (conj eq_refl (conj eq_refl (conj Hp1 (conj Hp2 (conj Hy Hr))))).
Qed.
Lemma recovering_gathers answers l1 l2 y : answers 1%nat l1 → answers 2%nat l2 → recovering l1 l2 = Done y →
  gathers (S := RocksDBStore) node_ctx node_verifier 0 answers y.
Proof.
  intros Ha1 Ha2 Hrun. unfold recovering in Hrun. apply bind_Done in Hrun as (s & _ & Hrun). apply bind_Done in Hrun as ([s' y0] & Hloop & Hrun).
  apply bind_Done in Hrun as (y1 & Hg1 & Hg2). apply (gather_step answers y1 0 2 l2 y); [|exact Ha2|exact Hg2].
  apply (gather_step answers y0 0 1 l1 y1); [|exact Ha1|exact Hg1]. refine (gathers_start _ _ _ _ s s' _ y0 _ _ _ Hloop). by vm_compute.
Qed.

Lemma not_fifth a : ¬ Committee_is_valid_index (test_committee 4) (S (S (S (S a)))).
Proof. intros Hv. apply bool_decide_spec in Hv. change (Committee_size (test_committee 4)) with 4%nat in Hv. lia. Qed.

Lemma own_round_recovered_witness : ∃ l1 l2 y pending total retries delay, recovering l1 l2 = Done y ∧
  sn_own_block_task y = Some (OwnGathering pending total 4 retries delay) ∧ vb_round lost_block ≤ 4.
Proof.
  destruct recovery_run as (s1 & l1 & s2 & l2 & y & H1 & H2 & Hp1 & Hp2 & Hy & Hr).
  pose proof (asked_peer_spec 1 s1 l1 ltac:(lia) quiet1 H1 Hp1) as (Hs1 & Hf1 & Hd1 & Hh1).
  pose proof (asked_peer_spec 2 s2 l2 ltac:(lia) quiet_others H2 Hp2) as (Hs2 & Hf2 & Hd2 & Hh2).
  unfold recovered in Hr. destruct (sn_own_block_task y) as [[|pending total highest retries delay| |]|] eqn:Htask; [discriminate Hr| |discriminate Hr..].
  apply andb_prop in Hr as [Hv Hh]. apply bool_decide_eq_true_1 in Hh as ->.
  exists l1, l2, y, pending, total, retries, delay. split; [exact Hy|]. split; [exact Htask|].
  set (answers := λ a l, (a = 1%nat ∧ l = l1) ∨ (a = 2%nat ∧ l = l2)).
  refine (proj1 (own_round_recovered node_ctx node_fuel node_verifier node_universe node_genesis {[3%nat]} 0 node_refs setting0 answers _
    (λ a, if decide (a = 1%nat) then s1 else s2) y pending total 4 retries delay lost_block
    (nw_blocks _ _ _ _ _ _ node_network) _ (recovering_gathers answers l1 l2 y (or_introl (conj eq_refl eq_refl)) (or_intror (conj eq_refl eq_refl)) Hy)
    Htask (Is_true_true_2 _ Hv) lost_author _)).
  - intros a l [[-> ->]|[-> ->]]; [exact Hd1|exact Hd2].
  - intros a l [[-> ->]|[-> ->]] _; [exact (conj Hs1 Hf1)|exact (conj Hs2 Hf2)].
  - intros a Ha Hne Hbyz. destruct a as [|[|[|[|a]]]]; [by destruct Hne|exact Hh1|exact Hh2|set_solver|].
    destruct (not_fifth a Ha).
Defined.

(** ** The timers of a round *)

(** The shorter timer of the first round is over. *)
Definition timer_step : run (list CoreThreadCommand) :=
  s ← node_after 0 [];
  let l := LeaderTimeoutTask_start node_params (as_thread s) 1 in
  let '(s', l') := run_leader node_params s l 0 (LeaderTimer false 1000) in
  if leader_timer_ready l false 1000 then Done (new_commands s s') else Panic.
Lemma timer_checked : match timer_step with Done asked => bool_decide (length asked = 1%nat) | _ => false end = true.
Proof. by vm_compute. Qed.

Lemma leader_timeout_once_witness : ∃ asked, timer_step = Done asked ∧ length asked = 1%nat ∧
  Forall (λ c, ∃ round sender, c = NewBlock round sender false ∨ c = NewBlock round sender true) asked.
Proof.
  pose proof timer_checked as Hc. destruct timer_step as [asked| |] eqn:Hrun; [|discriminate Hc..]. exists asked.
  split; [reflexivity|]. split; [exact (bool_decide_eq_true_1 _ Hc)|]. unfold timer_step in Hrun. apply bind_Done in Hrun as (s & _ & Hrun).
  destruct (run_leader node_params s _ 0 (LeaderTimer false 1000)) as [s' l'] eqn:Hstep.
  destruct (leader_timer_ready _ false 1000) eqn:Hready; [|discriminate Hrun]. injection Hrun as <-.
  pose proof (timer_asks node_params _ _ [] s s' _ l' 0 false 1000 (timer_start node_params s 1) (conj eq_refl (conj eq_refl Hready)) Hstep) as Hr.
  destruct (leader_timeout_once node_params _ _ _ _ Hr) as (Hasked & _).
  apply Forall_forall. intros c Hin. rewrite Forall_forall in Hasked.
  destruct (Hasked (c, 1000)) as (sender & force & Hc' & _); [exact (list_elem_of_fmap_2 (λ c, (c, 1000)) _ _ Hin)|].
  eexists _, sender. destruct force; [right; exact Hc'|left; exact Hc'].
Defined.
